(* ===== verification/_CoqProject ===== *)
-Q . S2P
Prelude.v
Endian.v
Intset.v
Util.v
Dict.v
DictScan.v
Crc.v
Glob.v
Localtime.v
Pubsub.v
Notify.v
Sds.v
SdsText.v
Resp.v
Multi.v
Skiplist.v
SkiplistRange.v
SkiplistSpec.v
Zset.v
ZsetSpec.v
Lzf.v
Rdb.v
Ziplist.v
ZiplistEntry.v
ZiplistList.v
ZiplistRefine.v
Listpack.v
ListpackSpec.v
Object.v
Replication.v
ReplicationSpec.v
DbRel.v
Bitops.v
BitopsBits.v
BitopsOp.v
BitopsSpec.v
DictIter.v
PackedList.v
Double.v
ZsetZiplist.v
ZsetObject.v
ZsetCommands.v
ZsetZiplistRep.v
ZsetObjectSpec.v
ZsetCommandsSpec.v
Hash.v
HashSpec.v
SetType.v
SetSpec.v
QuickList.v
QuickListNode.v
QuickListRep.v
QuickListOps.v
QuickListIter.v
QuickListEdit.v
QuickListMerge.v
QuickListInsert.v
ListType.v
ListSpec.v
Keyspace.v
KeyCommands.v
KeyspaceRep.v
KeyspaceTables.v
KeyspaceSpec.v
KeyspaceRefine.v
