(* ===== verification/Prelude.v ===== *)
(** * A verification library for the Redis server of Linux-Server

    The repository is a course on Linux servers; its program is the Redis 5.0.10 server in
    [src/Linux/lesson07/redis-5.0.10/src/] (all file names below are in that directory).
    Redis keeps a dictionary of typed values in memory, executes the commands of its clients one
    at a time, and saves and replicates what they change.  This library models the data
    structures the values are made of, the types of values that are built from them, and the
    parts of the server that decide which command runs and what the clients see.

    ** Conventions

    A C function is a Rocq function of the same name that returns an [option]: [None] is what
    must not happen, that is, an access outside of a buffer, a NULL or dangling pointer, a
    failed assertion, a panic, or a loop that has used up its fuel.  The errors the code
    reports are ordinary results.  So a theorem that says "returns [Some]" says that the code is
    memory safe, that its assertions hold and that it terminates.  Buffers are lists of bytes
    ([Z]) with checked accesses ([peek], [poke], [slice], [blit], [memmove] in this file);
    integers are in [Z] and wrap where the code's type wraps ([u8], [u32], [u64], [s32], ...).
    Memory that the code does not initialize is a parameter ([junk]).  The fuel of a loop is
    computed from its input by the function that calls it (the size of the buffer, the number of
    entries), and the theorems prove that it is enough.  Allocations succeed.

    ** Files

    - [Prelude] (this file): machine integers, buffers, tactics, lemmas on lists.
    - [Endian]: byte order (endianconv.c), for a host of either order.
    - [Intset]: sets of integers in one sorted blob (intset.c), C1 and C2.
    - [Util]: decimal numbers (util.c), C3.
    - [Dict]: hash tables with incremental rehashing (dict.c), over any hash function and
      comparison that satisfies the class [DictTypeOk], C5 and C6; [DictScan]: the cursors of
      SCAN, C7 and C8; [DictIter]: iterators.
    - [Crc]: crc16.c, crc64.c and the hash slots of cluster.c, C9 to C11.
    - [Glob]: glob patterns (util.c), C13.  [Localtime]: localtime.c, C14.
    - [Pubsub]: pubsub.c, C15 and C16.  [Notify]: notify.c on top of it.
    - [Sds]: dynamic strings with their five headers (sds.c), C19; [SdsText]: splitting, joining,
      quoting and printing, C20.
    - [Resp]: the request parser of networking.c with the query buffer of a connection and the
      stream of a master, C23 to C25; it uses [Sds], [SdsText] and [Util].
    - [Multi]: transactions (multi.c, and processCommand, call and propagation of server.c), C26
      to C29.
    - [Skiplist]: the skiplist of t_zset.c on a heap of nodes; [SkiplistRange]: ranges and
      ZRANGE; [SkiplistSpec]: the refinement to a sorted list, C30.
    - [Zset]: the encoding of sorted sets as a dictionary and a [Skiplist] that share their
      elements; [ZsetSpec]: its refinement to a map from members to scores.
    - [Lzf]: compression (lzf_c.c, lzf_d.c), C32 and C33.
    - [Rdb]: the primitives of the dump format (rdb.c) on top of [Lzf] and [Util], C34.
    - [Ziplist]: ziplist.c on the bytes of a block; [ZiplistEntry]: the encoding of one entry;
      [ZiplistList]: insertion, deletion, merging and cascading updates; [ZiplistRefine]: the
      refinement to a list of strings, C35.
    - [Listpack]: listpack.c on the bytes of a block; [ListpackSpec]: the refinement to a list of
      strings with an index, C21.
    - [Object]: what the types of values share (object.c, server.h): replies, shared objects, the
      values that can be stored as integers, the shrinking of hash tables.
    - [Replication]: the backlog, the stream of a master to its replicas, SYNC and PSYNC and the
      changes of role (replication.c, with parts of networking.c and rdb.c); [ReplicationSpec]: the
      stream that the replicas and the backlog agree on, C4 and C18.  It uses the encoding of
      commands of [Resp].
    - [DbRel]: the relation between a database and its abstraction, which the refinement theorems
      of the types of values share.
    - [Bitops]: strings as arrays of bits (bitops.c); [BitopsBits]: counting and searching bits,
      reading and writing fields; [BitopsOp]: BITOP; [BitopsSpec]: the refinement to lists of
      booleans and the overflow checks, C12, C17 and C22.
    - [PackedList]: what the types of values use of a ziplist, as a class of operations
      ([PackedList]) and laws ([PackedListLaws]), with ziplists as an instance.
    - [Double]: doubles as texts (util.c, object.c, networking.c), over a class of operations
      ([DoubleOps]) with the laws of printing and reading ([DoubleLaws]).
    - [ZsetZiplist]: the encoding of sorted sets as a [PackedList] (t_zset.c); [ZsetObject]: both
      encodings and their conversions; [ZsetCommands]: the commands on the keys of a database;
      [ZsetZiplistRep], [ZsetObjectSpec] and [ZsetCommandsSpec]: what the ziplist, the object and
      the database represent, and the refinement to maps from members to scores, C31.
    - [Hash]: the hash type (t_hash.c), a [PackedList] that becomes a [Dict]; [HashSpec]: the
      refinement to a map from fields to values, C36.
    - [SetType]: the set type (t_set.c), an [Intset] that becomes a [Dict], with the algebra of
      SINTER, SUNION and SDIFF over a database of keys; [SetSpec]: the refinement to finite sets,
      C37.
    - [QuickList]: quicklist.c, a doubly linked list of ziplists whose inner nodes may be
      compressed, on a heap of nodes; [QuickListNode] and [QuickListRep]: what one node and the
      linked nodes represent, through compression; [QuickListOps] (pushes, pops, deletion),
      [QuickListIter] (indexes and iterators), [QuickListEdit] (replacement, ranges),
      [QuickListMerge] and [QuickListInsert] (merges, splits, insertion): the operations on what
      is represented.  The lemmas of these files share the parameters of their section
      ([Set Default Proof Using]).
    - [ListType]: the list type (t_list.c) over a database of keys; [ListSpec]: the refinement to
      lists of strings, C38 and C39.
    - [Keyspace]: string objects with reference counts (object.c), the tables of keys and expires
      (db.c, lazyfree.c) and the expiration of keys (expire.c), as computations on the state of a
      database; [KeyCommands]: the commands on strings (t_string.c), keys and expires, and
      sessions of them; [KeyspaceRep] and [KeyspaceTables]: which map a database represents, with
      every reference counted, and what the functions do to it; [KeyspaceSpec]: the commands on a
      map; [KeyspaceRefine]: the refinement, C40.

    ** What the theorems show

    - Refinement (C1, C5, C17, C19, C21, C30, C31, C35 to C38, C40): any sequence of operations on a data
      structure, in any order and from its creation on, runs without an invalid access and gives
      the results of the same operations on a mathematical object (a finite set, a finite map, a
      string of bytes, a list of bits, a sorted list, a list of strings, a map from keys to
      values with deadlines).  The limits a caller must keep are
      stated as guards of the abstract operations, and so are the few arguments of clients on
      which the code is known to overflow; the comment of each theorem lists them.
    - Round trips (C3, C20, C25, C33, C34): what is printed, quoted, encoded,
      compressed or saved is read back unchanged.
    - Equivalence with reference definitions (C9, C11, C12, C13): the table driven checksums are
      polynomial division, the words of a string are counted as its bits are, the matcher
      implements the semantics of globs.
    - Safety of the code that reads untrusted data (C10, C23, C32), of partial resynchronizations
      (C4) and bounds of machine integers (C22); the
      condition under which lists with compressed nodes stay right (C39).
    - Invariants of the server's state over all interleavings of its clients (C15, C18, C24, C26),
      and what a client observes (C16, C27, C28 with the errors of EXEC, C29).
    - Termination and progress (C6, C7, C8): an incremental rehashing ends, SCAN returns every
      element that stays.

    ** Not modelled

    - The event loop, sockets, timers and files (ae.c, anet.c, rio.c's files, bio.c): input and
      output of the operating system.
    - The handshake of a replica with its master and the transfer of dumps (replication.c),
      Sentinel (sentinel.c) and the cluster bus (cluster.c but its hash slots): processes that
      depend on timers and networks.
    - The files of the append only log and of the dump, beyond the primitives of [Rdb] and the
      encoding of commands (aof.c, rdb.c).
    - Lua scripts and loadable modules (scripting.c, module.c), and the tools (redis-cli.c,
      redis-benchmark.c, redis-check-*.c).
    - Eviction and defragmentation, which depend on the allocator, and how the expire cycle
      chooses the keys it samples and how long it runs; a session has the sampled keys as steps.
    - deps/ (jemalloc, lua, hiredis, linenoise) is third-party code; the programs of the other
      lessons are examples of single system calls.

    ** Plan

    What is left: the set operations on sorted sets, the random members of sets,
    radix trees with streams and HyperLogLog; then the eviction pool. *)

From stdpp Require Export prelude gmap sorting.
From Stdlib Require Export ZArith Lia.

#[export] Set Default Goal Selector "!".

(** * Machine integers *)

Declare Scope redis_scope.
Delimit Scope redis_scope with redis.
Open Scope Z_scope.

(** [zlen l] is the length of a list as the [size_t] the C code compares. *)
Abbreviation zlen l := (Z.of_nat (length l)).

(** Unsigned and two's complement truncation to [w] bits. *)
Definition wrap_u (w z : Z) : Z := z mod 2 ^ w.

Definition to_signed (w z : Z) : Z := if z <? 2 ^ (w - 1) then z else z - 2 ^ w.

Definition wrap_s (w z : Z) : Z := to_signed w (wrap_u w z).

Abbreviation u8 := (wrap_u 8).
Abbreviation u16 := (wrap_u 16).
Abbreviation u32 := (wrap_u 32).
Abbreviation u64 := (wrap_u 64).
Abbreviation s32 := (wrap_s 32).
Abbreviation s64 := (wrap_s 64).

Definition is_byte (z : Z) : Prop := 0 ≤ z < 256.
Definition in_u (w z : Z) : Prop := 0 ≤ z < 2 ^ w.
Definition in_s (w z : Z) : Prop := - 2 ^ (w - 1) ≤ z < 2 ^ (w - 1).

#[export] Instance is_byte_dec z : Decision (is_byte z).
Proof. unfold is_byte. apply _. Defined.
#[export] Instance in_u_dec w z : Decision (in_u w z).
Proof. unfold in_u. apply _. Defined.
#[export] Instance in_s_dec w z : Decision (in_s w z).
Proof. unfold in_s. apply _. Defined.

Lemma wrap_u_small w z : in_u w z → wrap_u w z = z.
Proof. intros H. by apply Z.mod_small. Qed.

Lemma wrap_u_range w z : 0 ≤ w → in_u w (wrap_u w z).
Proof. intros. apply Z.mod_pos_bound. lia. Qed.

Lemma wrap_s_range w z : 0 < w → in_s w (wrap_s w z).
Proof.
  intros Hw. pose proof (wrap_u_range w z ltac:(lia)) as Hr.
  unfold wrap_s, to_signed, in_s, in_u in *.
  assert (2 ^ w = 2 * 2 ^ (w - 1)) as Hp.
  { rewrite <-Z.pow_succ_r by lia. f_equal. lia. }
  destruct (Z.ltb_spec (wrap_u w z) (2 ^ (w - 1))); lia.
Qed.

(** Reading back a signed value through its two's complement image. *)
Lemma to_signed_wrap w z : 0 < w → in_s w z → to_signed w (z mod 2 ^ w) = z.
Proof.
  intros Hw [Hl Hh]. unfold to_signed.
  assert (2 ^ w = 2 * 2 ^ (w - 1)) as Hp.
  { rewrite <-Z.pow_succ_r by lia. f_equal. lia. }
  destruct (decide (0 ≤ z)).
  - rewrite Z.mod_small by lia. by rewrite (proj2 (Z.ltb_lt _ _)).
  - rewrite <-(Z.mod_add z 1), Z.mod_small by lia.
    rewrite (proj2 (Z.ltb_ge _ _)); lia.
Qed.

Lemma wrap_s_small w z : 0 < w → in_s w z → wrap_s w z = z.
Proof. apply to_signed_wrap. Qed.

Lemma wrap_s_wrap_u w z : 0 ≤ w → wrap_s w (wrap_u w z) = wrap_s w z.
Proof. intros. unfold wrap_s, wrap_u. by rewrite Z.mod_mod by lia. Qed.

(** * Bits *)

Lemma testbit_wrap_u w z i :
  0 ≤ i → 0 ≤ w → Z.testbit (wrap_u w z) i = bool_decide (i < w) && Z.testbit z i.
Proof.
  intros Hi Hw. unfold wrap_u. case_bool_decide.
  - apply Z.mod_pow2_bits_low. lia.
  - apply Z.mod_pow2_bits_high. lia.
Qed.

(** Equalities between exclusive ors, by cases on every bit. *)
Ltac xor_solve :=
  apply Z.bits_inj'; let i := fresh "i" in let Hi := fresh "Hi" in
  intros i Hi; rewrite ?Z.lxor_spec, ?Z.testbit_0_l;
  repeat match goal with |- context [Z.testbit ?x i] => destruct (Z.testbit x i) end;
  reflexivity.

(** A concrete list of bytes. *)
Ltac bytes_solve :=
  match goal with |- Forall _ ?l => let l' := eval vm_compute in l in change l with l' end;
  repeat (apply Forall_cons; split; [unfold is_byte; lia|]); apply Forall_nil; exact I.

(** A boolean property of the integers below [n] is decided by evaluation. *)
Lemma check_range (f : Z → bool) (n : nat) :
  forallb (λ i, f (Z.of_nat i)) (seq 0 n) = true →
  ∀ i, 0 ≤ i < Z.of_nat n → f i = true.
Proof.
  rewrite forallb_forall. intros Hf i Hi. rewrite <-(Z2Nat.id i) by lia.
  apply Hf, in_seq. lia.
Qed.

(** Equality of unsigned integers bit by bit. *)
Lemma bits_eq_u w x y :
  in_u w x → in_u w y → (∀ i, 0 ≤ i < w → Z.testbit x i = Z.testbit y i) → x = y.
Proof.
  intros Hx Hy Hb. rewrite <-(wrap_u_small w x Hx), <-(wrap_u_small w y Hy).
  apply Z.bits_inj'. intros i Hi. destruct (decide (i < w)).
  - unfold wrap_u. rewrite !Z.mod_pow2_bits_low by lia. apply Hb. lia.
  - unfold wrap_u. destruct (decide (0 ≤ w)).
    + rewrite !Z.mod_pow2_bits_high by lia. done.
    + unfold in_u in *. rewrite Z.pow_neg_r in * by lia. lia.
Qed.

Lemma in_u_bits w x : 0 ≤ w → 0 ≤ x → (∀ i, w ≤ i → Z.testbit x i = false) → in_u w x.
Proof.
  intros Hw Hx Hb. unfold in_u. split; [done|].
  replace x with (x mod 2 ^ w); [apply Z.mod_pos_bound; lia|].
  apply Z.bits_inj'. intros i Hi. destruct (decide (i < w)).
  - by rewrite Z.mod_pow2_bits_low by lia.
  - rewrite Z.mod_pow2_bits_high by lia. by rewrite Hb by lia.
Qed.

Lemma in_u_high w x i : in_u w x → w ≤ i → Z.testbit x i = false.
Proof.
  intros Hx Hi. destruct (decide (x = 0)) as [->|]; [apply Z.testbit_0_l|].
  unfold in_u in Hx. destruct (decide (0 ≤ w)) as [Hw|Hw].
  - apply Z.bits_above_log2; [lia|]. apply Z.lt_le_trans with w; [|done].
    apply Z.log2_lt_pow2; lia.
  - rewrite Z.pow_neg_r in Hx; lia.
Qed.

Lemma in_u_lxor w x y : 0 ≤ w → in_u w x → in_u w y → in_u w (Z.lxor x y).
Proof.
  intros Hw Hx Hy. apply in_u_bits; [done| |].
  - apply Z.lxor_nonneg. unfold in_u in *. lia.
  - intros i Hi. by rewrite Z.lxor_spec, !(in_u_high w) by done.
Qed.

(** * Buffers

    A C buffer is the list of its bytes.  Every access goes through an [option]:
    [None] is an access outside the allocation, so that a theorem whose
    conclusion is [Some _] also says that the routine stays in bounds. *)

Definition peek (m : list Z) (i : Z) : option Z :=
  if decide (0 ≤ i) then m !! Z.to_nat i else None.

Definition poke (m : list Z) (i v : Z) : option (list Z) :=
  if decide (0 ≤ i < zlen m) then Some (<[Z.to_nat i := v]> m) else None.

(** [slice m i n]: the [n] bytes a [memcpy] from [m + i] reads. *)
Definition slice (m : list Z) (i n : Z) : option (list Z) :=
  if decide (0 ≤ i ∧ 0 ≤ n ∧ i + n ≤ zlen m)
  then Some (take (Z.to_nat n) (drop (Z.to_nat i) m)) else None.

(** [blit m i bs]: [memcpy] of the bytes [bs] to [m + i]. *)
Definition blit (m : list Z) (i : Z) (bs : list Z) : option (list Z) :=
  if decide (0 ≤ i ∧ i + zlen bs ≤ zlen m)
  then Some (take (Z.to_nat i) m ++ bs ++ drop (Z.to_nat i + length bs) m)
  else None.

Definition memmove (m : list Z) (dst src n : Z) : option (list Z) :=
  bs ← slice m src n; blit m dst bs.

(** [zrealloc] to [n] bytes: a prefix is kept, and byte [i] of the part that was
    not allocated before holds the arbitrary value [junk i]. *)
Definition realloc (junk : nat → Z) (m : list Z) (n : Z) : list Z :=
  take (Z.to_nat n) m ++ (junk <$> seq (length m) (Z.to_nat n - length m)).

(** Sub-list from position [i], of length [n]. *)
Lemma slice_app a b c i n :
  i = zlen a → n = zlen b → slice (a ++ b ++ c) i n = Some b.
Proof.
  intros -> ->. unfold slice. rewrite decide_True by (rewrite !length_app; lia).
  by rewrite !Nat2Z.id, drop_app_length, take_app_length.
Qed.

Lemma slice_Some m i n :
  0 ≤ i → 0 ≤ n → i + n ≤ zlen m →
  slice m i n = Some (take (Z.to_nat n) (drop (Z.to_nat i) m)).
Proof. intros. unfold slice. by rewrite decide_True. Qed.

Lemma blit_app a b b' c i :
  i = zlen a → length b = length b' →
  blit (a ++ b ++ c) i b' = Some (a ++ b' ++ c).
Proof.
  intros -> Hb. unfold blit. rewrite decide_True by (rewrite !length_app; lia).
  rewrite Nat2Z.id, take_app_length. repeat f_equal.
  by rewrite <-Hb, (assoc_L (++)), <-length_app, drop_app_length.
Qed.

Lemma blit_Some m i bs :
  0 ≤ i → i + zlen bs ≤ zlen m →
  blit m i bs = Some (take (Z.to_nat i) m ++ bs ++ drop (Z.to_nat i + length bs) m).
Proof. intros. unfold blit. by rewrite decide_True. Qed.

Lemma blit_length m i bs m' : blit m i bs = Some m' → length m' = length m.
Proof.
  unfold blit. case_decide as H; [|done]. intros [= <-].
  rewrite !length_app, length_take, length_drop. lia.
Qed.

Lemma peek_app a x c i : i = zlen a → peek (a ++ x :: c) i = Some x.
Proof.
  intros ->. unfold peek. rewrite decide_True, Nat2Z.id by lia.
  by rewrite lookup_app_r, Nat.sub_diag.
Qed.

Lemma poke_app a x y c i :
  i = zlen a → poke (a ++ x :: c) i y = Some (a ++ y :: c).
Proof.
  intros ->. unfold poke. rewrite decide_True by (rewrite length_app; simpl; lia).
  rewrite Nat2Z.id. f_equal. rewrite insert_app_r_alt by lia.
  by rewrite Nat.sub_diag.
Qed.

Lemma poke_head x y c : poke (x :: c) 0 y = Some (y :: c).
Proof. by apply (poke_app []). Qed.

Lemma peek_head x c : peek (x :: c) 0 = Some x.
Proof. done. Qed.

Lemma peek_lookup m i : peek m (Z.of_nat i) = m !! i.
Proof. unfold peek. rewrite decide_True by lia. by rewrite Nat2Z.id. Qed.

Lemma realloc_length junk m n : 0 ≤ n → zlen (realloc junk m n) = n.
Proof.
  intros. unfold realloc. rewrite length_app, length_take, length_fmap, length_seq. lia.
Qed.

Lemma realloc_take junk m n :
  zlen m ≤ n → take (length m) (realloc junk m n) = m.
Proof.
  intros. unfold realloc. rewrite (take_ge m) by lia. apply take_app_length.
Qed.

Lemma realloc_shrink junk m n :
  0 ≤ n → n ≤ zlen m → realloc junk m n = take (Z.to_nat n) m.
Proof.
  intros. unfold realloc. replace (Z.to_nat n - length m)%nat with 0%nat by lia.
  simpl. apply app_nil_r.
Qed.

(** Opening a gap of [length x] bytes in front of [b]. *)
Lemma memmove_up a b x dst src n :
  src = zlen a → dst = zlen a + zlen x → n = zlen b →
  memmove (a ++ b ++ x) dst src n = Some (a ++ take (length x) (b ++ x) ++ b).
Proof.
  intros -> -> ->. unfold memmove. rewrite slice_app by done. simpl.
  rewrite <-(take_drop (length x) (b ++ x)) at 1. rewrite (assoc_L (++) a).
  replace ((a ++ take (length x) (b ++ x)) ++ drop (length x) (b ++ x))
    with ((a ++ take (length x) (b ++ x)) ++ drop (length x) (b ++ x) ++ [])
    by (by rewrite app_nil_r).
  rewrite blit_app.
  - by rewrite app_nil_r, <-(assoc_L (++)).
  - rewrite length_app, length_take, length_app. lia.
  - rewrite length_drop, length_app. lia.
Qed.

(** The same with bytes [d] after the block that stay in place. *)
Lemma memmove_gap a b c d dst src n :
  src = zlen a → dst = zlen a + zlen c → n = zlen b →
  memmove (a ++ b ++ c ++ d) dst src n = Some (a ++ take (length c) (b ++ c) ++ b ++ d).
Proof.
  intros -> -> ->. unfold memmove. rewrite slice_app by done. cbn [mbind option_bind].
  replace (a ++ b ++ c ++ d) with ((a ++ take (length c) (b ++ c)) ++ drop (length c) (b ++ c) ++ d)
    by (rewrite <-(assoc_L (++) a), (assoc_L (++) (take _ _)), take_drop; by rewrite <-!(assoc_L (++))).
  rewrite blit_app.
  - by rewrite <-(assoc_L (++)).
  - rewrite length_app, length_take, length_app. lia.
  - rewrite length_drop, length_app. lia.
Qed.

(** Writing the first bytes of a gap. *)
Lemma blit_gap a g b bs i :
  i = zlen a → (length bs ≤ length g)%nat → blit (a ++ g ++ b) i bs = Some (a ++ bs ++ drop (length bs) g ++ b).
Proof.
  intros -> Hl. rewrite <-(take_drop (length bs) g) at 1. rewrite <-(assoc_L (++)). apply blit_app; [done|].
  rewrite length_take. lia.
Qed.

(** Closing a gap of [length x] bytes in front of [b]. *)
Lemma memmove_down a x b t dst src n :
  src = zlen a + zlen x → dst = zlen a → n = zlen b →
  memmove (a ++ x ++ b ++ t) dst src n = Some (a ++ b ++ drop (length b) (x ++ b) ++ t).
Proof.
  intros -> -> ->. unfold memmove.
  replace (a ++ x ++ b ++ t) with ((a ++ x) ++ b ++ t) by (by rewrite <-(assoc_L (++))).
  rewrite slice_app by (rewrite ?length_app; lia). simpl.
  replace ((a ++ x) ++ b ++ t)
    with (a ++ take (length b) (x ++ b) ++ drop (length b) (x ++ b) ++ t)
    by (by rewrite !(assoc_L (++)), <-(assoc_L (++) a (take _ _)), take_drop,
          <-!(assoc_L (++))).
  apply blit_app; [done|]. rewrite length_take, length_app. lia.
Qed.

(** * Little endian integers *)

Fixpoint le_encode (n : nat) (z : Z) : list Z :=
  match n with
  | O => []
  | S n => z mod 256 :: le_encode n (z / 256)
  end.

Fixpoint le_decode (bs : list Z) : Z :=
  match bs with
  | [] => 0
  | b :: bs => b + 256 * le_decode bs
  end.

Lemma le_encode_length n z : length (le_encode n z) = n.
Proof. revert z. induction n as [|n IH]; intros z; simpl; [done|]. by rewrite IH. Qed.

Lemma le_encode_bytes n z : Forall is_byte (le_encode n z).
Proof.
  revert z. induction n as [|n IH]; intros z; simpl; constructor; [|done].
  apply Z.mod_pos_bound. lia.
Qed.

Lemma pow_256_S n : 2 ^ (8 * Z.of_nat (S n)) = 256 * 2 ^ (8 * Z.of_nat n).
Proof.
  replace (8 * Z.of_nat (S n)) with (8 + 8 * Z.of_nat n) by lia.
  rewrite Z.pow_add_r by lia. done.
Qed.

Lemma le_decode_encode n z :
  le_decode (le_encode n z) = z mod 2 ^ (8 * Z.of_nat n).
Proof.
  revert z. induction n as [|n IH]; intros z.
  - by rewrite Z.mod_1_r.
  - rewrite pow_256_S. cbn [le_encode le_decode]. rewrite IH.
    by rewrite Z.rem_mul_r by lia.
Qed.

Lemma le_decode_bound bs :
  Forall is_byte bs → 0 ≤ le_decode bs < 2 ^ (8 * zlen bs).
Proof.
  induction 1 as [|b bs Hb _ IH]; [simpl; lia|]. cbn [length le_decode].
  rewrite pow_256_S. unfold is_byte in Hb. lia.
Qed.

Lemma le_encode_decode bs :
  Forall is_byte bs → le_encode (length bs) (le_decode bs) = bs.
Proof.
  induction 1 as [|b bs Hb _ IH]; [done|]. cbn [length le_encode le_decode].
  unfold is_byte in Hb.
  rewrite (Z.mul_comm 256). f_equal.
  - rewrite Z_mod_plus_full. by apply Z.mod_small.
  - rewrite Z.div_add, (Z.div_small b) by lia. done.
Qed.

Lemma le_encode_mod n z : le_encode n (z mod 2 ^ (8 * Z.of_nat n)) = le_encode n z.
Proof.
  rewrite <-le_decode_encode.
  rewrite <-(le_encode_length n z) at 1.
  apply le_encode_decode, le_encode_bytes.
Qed.

(** Disjoint bits are added. *)
Lemma lor_shift a b k : 0 ≤ k → 0 ≤ a < 2 ^ k → Z.lor a (Z.shiftl b k) = a + b * 2 ^ k.
Proof.
  intros Hk Ha. rewrite <-Z.shiftl_mul_pow2 by done. symmetry. apply Z.add_nocarry_lor.
  apply Z.bits_inj'. intros i Hi. rewrite Z.land_spec, Z.bits_0. destruct (Z.ltb_spec i k).
  - rewrite (Z.shiftl_spec_low b k i) by done. apply andb_false_r.
  - by rewrite (in_u_high k a i).
Qed.

(** * Lists *)

Lemma split_last_two {A} (b : list A) n :
  length b = S (S n) → ∃ b' x y, b = b' ++ [x; y] ∧ length b' = n.
Proof.
  intros Hb. destruct b as [|y b _] using rev_ind; [done|].
  destruct b as [|x b _] using rev_ind; [done|].
  rewrite !length_app in Hb. simpl in Hb. exists b, x, y.
  rewrite <-(assoc_L (++)). split; [done|lia].
Qed.

(** * Strictly ascending lists *)

Lemma sorted_lookup_lt (l : list Z) i j x y :
  StronglySorted Z.lt l → l !! i = Some x → l !! j = Some y → (i < j)%nat → x < y.
Proof.
  intros Hs Hx Hy Hij.
  rewrite <-(take_drop_middle l i x Hx) in Hs.
  apply StronglySorted_app_1_r, StronglySorted_cons in Hs as [Hf _].
  rewrite Forall_forall in Hf. apply Hf, list_elem_of_lookup.
  exists (j - S i)%nat. rewrite lookup_drop. by replace (S i + (j - S i))%nat with j by lia.
Qed.

Lemma sorted_lookup_le (l : list Z) i j x y :
  StronglySorted Z.lt l → l !! i = Some x → l !! j = Some y → (i ≤ j)%nat → x ≤ y.
Proof.
  intros Hs Hx Hy Hij. destruct (decide (i = j)) as [->|]; [simplify_eq; lia|].
  apply Z.lt_le_incl. eapply sorted_lookup_lt; [done..|lia].
Qed.

Lemma sorted_NoDup (l : list Z) : StronglySorted Z.lt l → NoDup l.
Proof.
  induction 1 as [|x l _ IH Hf]; constructor; [|done].
  intros Hin. rewrite Forall_forall in Hf. apply Hf in Hin. lia.
Qed.

Create HintDb redis.
#[export] Hint Resolve le_encode_bytes : redis.
