(* ===== verification/Endian.v ===== *)
(** Byte order conversion (src/endianconv.c, src/endianconv.h) and the load and
    store of a machine word on a host of either byte order.  Every theorem of the
    development that depends on the host is stated for both values of [be]. *)

From S2P Require Import Prelude.

(** ** In-place reversal of the bytes of a word *)

(** The exchange [t = x[i]; x[i] = x[j]; x[j] = t]. *)
Definition swap_bytes (m : list Z) (i j : Z) : option (list Z) :=
  t ← peek m i;
  u ← peek m j;
  m1 ← poke m i u;
  poke m1 j t.

Definition memrev16 (m : list Z) (p : Z) : option (list Z) :=
  swap_bytes m p (p + 1).

Definition memrev32 (m : list Z) (p : Z) : option (list Z) :=
  m1 ← swap_bytes m p (p + 3);
  swap_bytes m1 (p + 1) (p + 2).

Definition memrev64 (m : list Z) (p : Z) : option (list Z) :=
  m1 ← swap_bytes m p (p + 7);
  m2 ← swap_bytes m1 (p + 1) (p + 6);
  m3 ← swap_bytes m2 (p + 2) (p + 5);
  swap_bytes m3 (p + 3) (p + 4).

Lemma swap_bytes_app a x b y c i j :
  i = zlen a → j = zlen a + 1 + zlen b →
  swap_bytes (a ++ x :: b ++ y :: c) i j = Some (a ++ y :: b ++ x :: c).
Proof.
  intros Hi Hj. unfold swap_bytes. rewrite (peek_app a _ _ i) by done. simpl.
  assert (∀ z w, a ++ z :: b ++ w :: c = (a ++ z :: b) ++ w :: c) as Hassoc
    by (intros; by rewrite <-(assoc_L (++))).
  rewrite (Hassoc x y), peek_app, <-Hassoc by (rewrite length_app; simpl; lia). simpl.
  rewrite (poke_app a) by done. simpl.
  by rewrite Hassoc, poke_app, Hassoc by (rewrite length_app; simpl; lia).
Qed.

Lemma memrev16_spec a bs c p :
  p = zlen a → length bs = 2%nat →
  memrev16 (a ++ bs ++ c) p = Some (a ++ reverse bs ++ c).
Proof.
  intros -> Hl. destruct bs as [|x0 [|x1 []]]; try done. unfold memrev16.
  by rewrite (swap_bytes_app a x0 [] x1 c) by (simpl; lia).
Qed.

Lemma memrev32_spec a bs c p :
  p = zlen a → length bs = 4%nat →
  memrev32 (a ++ bs ++ c) p = Some (a ++ reverse bs ++ c).
Proof.
  intros -> Hl. destruct bs as [|x0 [|x1 [|x2 [|x3 []]]]]; try done. unfold memrev32.
  rewrite (swap_bytes_app a x0 [x1; x2] x3 c) by (simpl; lia). simpl.
  pose proof (swap_bytes_app (a ++ [x3]) x1 [] x2 (x0 :: c)) as E.
  rewrite <-!(assoc_L (++)) in E. apply E; rewrite length_app; simpl; lia.
Qed.

Lemma memrev64_spec a bs c p :
  p = zlen a → length bs = 8%nat →
  memrev64 (a ++ bs ++ c) p = Some (a ++ reverse bs ++ c).
Proof.
  intros -> Hl.
  destruct bs as [|x0 [|x1 [|x2 [|x3 [|x4 [|x5 [|x6 [|x7 []]]]]]]]]; try done.
  unfold memrev64.
  rewrite (swap_bytes_app a x0 [x1; x2; x3; x4; x5; x6] x7 c) by (simpl; lia). simpl.
  pose proof (swap_bytes_app (a ++ [x7]) x1 [x2; x3; x4; x5] x6 (x0 :: c)) as E1.
  pose proof (swap_bytes_app (a ++ [x7; x6]) x2 [x3; x4] x5 (x1 :: x0 :: c)) as E2.
  pose proof (swap_bytes_app (a ++ [x7; x6; x5]) x3 [] x4 (x2 :: x1 :: x0 :: c)) as E3.
  rewrite <-!(assoc_L (++)) in E1, E2, E3. simpl in E1, E2, E3.
  rewrite E1 by (rewrite length_app; simpl; lia). simpl.
  rewrite E2 by (rewrite length_app; simpl; lia). simpl.
  by rewrite E3 by (rewrite length_app; simpl; lia).
Qed.

(** A whole object. *)
Lemma memrev16_word bs :
  length bs = 2%nat → memrev16 bs 0 = Some (reverse bs).
Proof.
  intros Hl. pose proof (memrev16_spec [] bs [] 0 eq_refl Hl) as E.
  by rewrite !app_nil_r in E.
Qed.

(** A whole object. *)
Lemma memrev32_word bs :
  length bs = 4%nat → memrev32 bs 0 = Some (reverse bs).
Proof.
  intros Hl. pose proof (memrev32_spec [] bs [] 0 eq_refl Hl) as E.
  by rewrite !app_nil_r in E.
Qed.

(** A whole object. *)
Lemma memrev64_word bs :
  length bs = 8%nat → memrev64 bs 0 = Some (reverse bs).
Proof.
  intros Hl. pose proof (memrev64_spec [] bs [] 0 eq_refl Hl) as E.
  by rewrite !app_nil_r in E.
Qed.

(** ** Machine words in memory *)

Section Host.
(** [be] is true on a big endian host. *)
Context (be : bool).

(** The bytes of an [n] byte object holding [z], and the value they hold. *)
Definition host_store (n : nat) (z : Z) : list Z :=
  if be then reverse (le_encode n z) else le_encode n z.

Definition host_load (bs : list Z) : Z :=
  if be then le_decode (reverse bs) else le_decode bs.

(** [uint32_t intrev32(uint32_t v) { memrev32(&v); return v; }] *)
Definition intrev16 (v : Z) : option Z := host_load <$> memrev16 (host_store 2 v) 0.
Definition intrev32 (v : Z) : option Z := host_load <$> memrev32 (host_store 4 v) 0.
Definition intrev64 (v : Z) : option Z := host_load <$> memrev64 (host_store 8 v) 0.

Definition memrev16ifbe (m : list Z) (p : Z) : option (list Z) :=
  if be then memrev16 m p else Some m.
Definition memrev32ifbe (m : list Z) (p : Z) : option (list Z) :=
  if be then memrev32 m p else Some m.
Definition memrev64ifbe (m : list Z) (p : Z) : option (list Z) :=
  if be then memrev64 m p else Some m.
Definition intrev32ifbe (v : Z) : option Z :=
  if be then intrev32 v else Some v.

(** [htonu64] is a no-op on a big endian host and [intrev64] otherwise. *)
Definition htonu64 (v : Z) : option Z := if be then Some v else intrev64 v.

Lemma host_store_length n z : length (host_store n z) = n.
Proof. unfold host_store. destruct be; rewrite ?length_reverse; apply le_encode_length. Qed.

Lemma host_store_bytes n z : Forall is_byte (host_store n z).
Proof.
  unfold host_store. destruct be; [apply Forall_reverse|]; apply le_encode_bytes.
Qed.

(** The portable format is little endian on every host: a word stored in the
    host's order and then passed to [memrev*ifbe] is its little endian image,
    and the conversion of a loaded word undoes it. *)
Lemma memrev16ifbe_store a z c p :
  p = zlen a →
  memrev16ifbe (a ++ host_store 2 z ++ c) p = Some (a ++ le_encode 2 z ++ c).
Proof.
  intros Hp. unfold memrev16ifbe, host_store. destruct be; [|done].
  by rewrite memrev16_spec, reverse_involutive by (rewrite ?length_reverse; done).
Qed.

Lemma memrev32ifbe_store a z c p :
  p = zlen a →
  memrev32ifbe (a ++ host_store 4 z ++ c) p = Some (a ++ le_encode 4 z ++ c).
Proof.
  intros Hp. unfold memrev32ifbe, host_store. destruct be; [|done].
  by rewrite memrev32_spec, reverse_involutive by (rewrite ?length_reverse; done).
Qed.

Lemma memrev64ifbe_store a z c p :
  p = zlen a →
  memrev64ifbe (a ++ host_store 8 z ++ c) p = Some (a ++ le_encode 8 z ++ c).
Proof.
  intros Hp. unfold memrev64ifbe, host_store. destruct be; [|done].
  by rewrite memrev64_spec, reverse_involutive by (rewrite ?length_reverse; done).
Qed.

Lemma memrev16ifbe_load bs :
  length bs = 2%nat →
  ∃ r, memrev16ifbe bs 0 = Some r ∧ host_load r = le_decode bs.
Proof.
  intros Hl. unfold memrev16ifbe, host_load. destruct be; [|by eauto].
  rewrite memrev16_word by done. eexists. split; [done|].
  by rewrite reverse_involutive.
Qed.

Lemma memrev32ifbe_load bs :
  length bs = 4%nat →
  ∃ r, memrev32ifbe bs 0 = Some r ∧ host_load r = le_decode bs.
Proof.
  intros Hl. unfold memrev32ifbe, host_load. destruct be; [|by eauto].
  rewrite memrev32_word by done. eexists. split; [done|].
  by rewrite reverse_involutive.
Qed.

Lemma memrev64ifbe_load bs :
  length bs = 8%nat →
  ∃ r, memrev64ifbe bs 0 = Some r ∧ host_load r = le_decode bs.
Proof.
  intros Hl. unfold memrev64ifbe, host_load. destruct be; [|by eauto].
  rewrite memrev64_word by done. eexists. split; [done|].
  by rewrite reverse_involutive.
Qed.

Lemma host_load_store n z : host_load (host_store n z) = z mod 2 ^ (8 * Z.of_nat n).
Proof.
  unfold host_load, host_store. destruct be;
    rewrite ?reverse_involutive; apply le_decode_encode.
Qed.

(** [intrev32] on a word: its bytes in the opposite order, on either host. *)
Lemma intrev32_eq v : intrev32 v = Some (le_decode (reverse (le_encode 4 v))).
Proof.
  unfold intrev32. rewrite memrev32_word by apply host_store_length.
  simpl. f_equal. unfold host_load, host_store.
  by destruct be; rewrite ?reverse_involutive.
Qed.

Lemma intrev64_eq v : intrev64 v = Some (le_decode (reverse (le_encode 8 v))).
Proof.
  unfold intrev64. rewrite memrev64_word by apply host_store_length.
  simpl. f_equal. unfold host_load, host_store.
  by destruct be; rewrite ?reverse_involutive.
Qed.
End Host.

(** Reversing the bytes twice. *)
Lemma rev_bytes_involutive n z :
  in_u (8 * Z.of_nat n) z →
  le_decode (reverse (le_encode n (le_decode (reverse (le_encode n z))))) = z.
Proof.
  intros Hz.
  replace (le_encode n (le_decode (reverse (le_encode n z))))
    with (reverse (le_encode n z)).
  - rewrite reverse_involutive, le_decode_encode. by apply Z.mod_small.
  - symmetry. rewrite <-(le_encode_length n z) at 1. rewrite <-length_reverse.
    apply le_encode_decode, Forall_reverse, le_encode_bytes.
Qed.

(** [intrev32ifbe] applied to a field and to a value stored in it cancel. *)
Lemma intrev32ifbe_involutive be v :
  in_u 32 v → intrev32ifbe be v ≫= intrev32ifbe be = Some v.
Proof.
  intros Hv. unfold intrev32ifbe. destruct be; [|done].
  rewrite intrev32_eq. simpl mbind. unfold mbind, option_bind. rewrite intrev32_eq.
  f_equal. by apply (rev_bytes_involutive 4).
Qed.

Lemma intrev64_involutive be v :
  in_u 64 v → intrev64 be v ≫= intrev64 be = Some v.
Proof.
  intros Hv. rewrite intrev64_eq. unfold mbind, option_bind. rewrite intrev64_eq.
  f_equal. by apply (rev_bytes_involutive 8).
Qed.

Lemma rev_bytes_range n z : in_u (8 * Z.of_nat n) (le_decode (reverse (le_encode n z))).
Proof.
  pose proof (le_decode_bound (reverse (le_encode n z))) as H.
  rewrite length_reverse, le_encode_length in H.
  apply H, Forall_reverse, le_encode_bytes.
Qed.

Lemma intrev32ifbe_range be v : in_u 32 v → ∃ r, intrev32ifbe be v = Some r ∧ in_u 32 r.
Proof.
  intros Hv. unfold intrev32ifbe. destruct be; [|by eauto].
  rewrite intrev32_eq. eexists. split; [done|]. apply (rev_bytes_range 4).
Qed.

(** [htonu64] gives the big endian (network) image: stored in the host's order, the
    result is the big endian encoding of the value. *)
Lemma htonu64_network be v :
  host_store be 8 <$> htonu64 be v = Some (reverse (le_encode 8 v)).
Proof.
  unfold htonu64, host_store. destruct be; [done|]. rewrite intrev64_eq. simpl fmap.
  unfold fmap, option_fmap, option_map. f_equal.
  apply (le_encode_decode (reverse (le_encode 8 v))), Forall_reverse, le_encode_bytes.
Qed.

(** A 32 bit field whose converted value is [v] is, in memory, the little endian
    image of [v]. *)
Lemma intrev32ifbe_store be e v :
  intrev32ifbe be e = Some v → host_store be 4 e = le_encode 4 v.
Proof.
  unfold intrev32ifbe, host_store. destruct be; [|by intros [= ->]].
  rewrite intrev32_eq. intros [= <-]. symmetry.
  apply (le_encode_decode (reverse (le_encode 4 e))), Forall_reverse, le_encode_bytes.
Qed.
