(* ===== verification/Intset.v ===== *)
(** Integer sets (src/intset.c): the compact sorted array behind small sets of
    integers, at the level of the bytes of its blob.

    The [encoding] and [length] fields hold what the C struct holds, that is, the
    little endian image read as a host integer; [contents] is the flexible array
    member, byte by byte.  [junk] gives the bytes a [zrealloc] leaves undefined.
    [None] is an access outside the allocation or an unfinished loop. *)

From S2P Require Import Prelude Endian.

Record intset := mkIntset {
  encoding : Z;       (* uint32_t *)
  ilength : Z;        (* uint32_t length *)
  contents : list Z;  (* int8_t contents[] *)
}.

Definition set_encoding (e : Z) (s : intset) : intset :=
  mkIntset e (ilength s) (contents s).
Definition set_ilength (n : Z) (s : intset) : intset :=
  mkIntset (encoding s) n (contents s).
Definition set_contents (c : list Z) (s : intset) : intset :=
  mkIntset (encoding s) (ilength s) c.

Definition INTSET_ENC_INT16 : Z := 2.
Definition INTSET_ENC_INT32 : Z := 4.
Definition INTSET_ENC_INT64 : Z := 8.

(** [_intsetValueEncoding] *)
Definition intsetValueEncoding (v : Z) : Z :=
  if (v <? - 2 ^ 31) || (2 ^ 31 - 1 <? v) then INTSET_ENC_INT64
  else if (v <? - 2 ^ 15) || (2 ^ 15 - 1 <? v) then INTSET_ENC_INT32
  else INTSET_ENC_INT16.

Section Ops.
Context (be : bool) (junk : nat → Z).

(** [_intsetGetEncoded] *)
Definition intsetGetEncoded (s : intset) (pos enc : Z) : option Z :=
  if enc =? INTSET_ENC_INT64 then
    v64 ← slice (contents s) (8 * pos) 8;
    v64 ← memrev64ifbe be v64 0;
    Some (to_signed 64 (host_load be v64))
  else if enc =? INTSET_ENC_INT32 then
    v32 ← slice (contents s) (4 * pos) 4;
    v32 ← memrev32ifbe be v32 0;
    Some (to_signed 32 (host_load be v32))
  else
    v16 ← slice (contents s) (2 * pos) 2;
    v16 ← memrev16ifbe be v16 0;
    Some (to_signed 16 (host_load be v16)).

(** [_intsetGet] *)
Definition intsetGet_ (s : intset) (pos : Z) : option Z :=
  enc ← intrev32ifbe be (encoding s);
  intsetGetEncoded s pos enc.

(** [_intsetSet]: the store truncates [value] to the width of the encoding. *)
Definition intsetSet (s : intset) (pos value : Z) : option intset :=
  encoding ← intrev32ifbe be (encoding s);
  if encoding =? INTSET_ENC_INT64 then
    c ← blit (contents s) (8 * pos) (host_store be 8 value);
    c ← memrev64ifbe be c (8 * pos);
    Some (set_contents c s)
  else if encoding =? INTSET_ENC_INT32 then
    c ← blit (contents s) (4 * pos) (host_store be 4 value);
    c ← memrev32ifbe be c (4 * pos);
    Some (set_contents c s)
  else
    c ← blit (contents s) (2 * pos) (host_store be 2 value);
    c ← memrev16ifbe be c (2 * pos);
    Some (set_contents c s).

Definition intsetNew : option intset :=
  e ← intrev32ifbe be INTSET_ENC_INT16;
  Some (mkIntset e 0 []).

(** The size is computed in 32 bits. *)
Definition intsetResize (s : intset) (len : Z) : option intset :=
  enc ← intrev32ifbe be (encoding s);
  let size := u32 (len * enc) in
  Some (set_contents (realloc junk (contents s) size) s).

(** The binary search of [intsetSearch]; the result is ([min], [mid], [cur]) when
    the loop ends. *)
Fixpoint intsetSearch_loop (fuel : nat) (s : intset) (value min max mid cur : Z)
    : option (Z * Z * Z) :=
  match fuel with
  | O => None
  | S fuel =>
      if min <=? max then
        let mid := s32 (Z.shiftr (u32 (u32 min + u32 max)) 1) in
        cur ← intsetGet_ s mid;
        if cur <? value then intsetSearch_loop fuel s value (mid + 1) max mid cur
        else if value <? cur then intsetSearch_loop fuel s value min (mid - 1) mid cur
        else Some (min, mid, cur)
      else Some (min, mid, cur)
  end.

(** Found or not, and the position written to [*pos]. *)
Definition intsetSearch (s : intset) (value : Z) : option (bool * Z) :=
  len ← intrev32ifbe be (ilength s);
  let max := s32 (len - 1) in
  if len =? 0 then Some (false, 0)
  else
    last ← intsetGet_ s max;
    if last <? value then Some (false, len)
    else
      first ← intsetGet_ s 0;
      if value <? first then Some (false, 0)
      else
        '(min, mid, cur) ←
          intsetSearch_loop (S (Z.to_nat len)) s value 0 max (-1) (-1);
        if value =? cur then Some (true, u32 mid) else Some (false, u32 min).

(** [while(length--) _intsetSet(is,length+prepend,_intsetGetEncoded(is,length,curenc))] *)
Fixpoint intsetUpgrade_loop (n : nat) (s : intset) (prepend curenc : Z)
    : option intset :=
  match n with
  | O => Some s
  | S n =>
      v ← intsetGetEncoded s (Z.of_nat n) curenc;
      s ← intsetSet s (Z.of_nat n + prepend) v;
      intsetUpgrade_loop n s prepend curenc
  end.

Definition intsetUpgradeAndAdd (s : intset) (value : Z) : option intset :=
  curenc ← intrev32ifbe be (encoding s);
  let curenc := u8 curenc in
  let newenc := intsetValueEncoding value in
  len ← intrev32ifbe be (ilength s);
  let length := s32 len in
  let prepend := if value <? 0 then 1 else 0 in
  e ← intrev32ifbe be newenc;
  s ← intsetResize (set_encoding e s) (u32 (len + 1));
  (* a negative [length] would walk below the buffer *)
  if length <? 0 then None else
  s ← intsetUpgrade_loop (Z.to_nat length) s prepend curenc;
  s ← (if prepend =? 1 then intsetSet s 0 value
        else intsetSet s (s32 len) value);
  n ← intrev32ifbe be (u32 (len + 1));
  Some (set_ilength n s).

Definition intsetMoveTail (s : intset) (from to : Z) : option intset :=
  len ← intrev32ifbe be (ilength s);
  let bytes := u32 (len - from) in
  encoding ← intrev32ifbe be (encoding s);
  let size := if encoding =? INTSET_ENC_INT64 then 8
              else if encoding =? INTSET_ENC_INT32 then 4 else 2 in
  c ← memmove (contents s) (size * to) (size * from) (u32 (bytes * size));
  Some (set_contents c s).

(** The new set and [*success]. *)
Definition intsetAdd (s : intset) (value : Z) : option (intset * bool) :=
  let valenc := intsetValueEncoding value in
  enc ← intrev32ifbe be (encoding s);
  if enc <? valenc then
    s ← intsetUpgradeAndAdd s value;
    Some (s, true)
  else
    '(found, pos) ← intsetSearch s value;
    if (found : bool) then Some (s, false)
    else
      len ← intrev32ifbe be (ilength s);
      s ← intsetResize s (u32 (len + 1));
      s ← (if pos <? len then intsetMoveTail s pos (u32 (pos + 1)) else Some s);
      s ← intsetSet s (s32 pos) value;
      n ← intrev32ifbe be (u32 (len + 1));
      Some (set_ilength n s, true).

Definition intsetRemove (s : intset) (value : Z) : option (intset * bool) :=
  let valenc := intsetValueEncoding value in
  enc ← intrev32ifbe be (encoding s);
  if valenc <=? enc then
    '(found, pos) ← intsetSearch s value;
    if (found : bool) then
      len ← intrev32ifbe be (ilength s);
      s ← (if pos <? u32 (len - 1) then intsetMoveTail s (u32 (pos + 1)) pos
            else Some s);
      s ← intsetResize s (u32 (len - 1));
      n ← intrev32ifbe be (u32 (len - 1));
      Some (set_ilength n s, true)
    else Some (s, false)
  else Some (s, false).

Definition intsetFind (s : intset) (value : Z) : option bool :=
  let valenc := intsetValueEncoding value in
  enc ← intrev32ifbe be (encoding s);
  if valenc <=? enc then fst <$> intsetSearch s value else Some false.

(** [intsetGet]: [Some None] is the return value 0. *)
Definition intsetGet (s : intset) (pos : Z) : option (option Z) :=
  len ← intrev32ifbe be (ilength s);
  if pos <? len then Some <$> intsetGet_ s (s32 pos) else Some None.

(** [intsetRandom], with [r] the value [rand()] returns. *)
Definition intsetRandom (s : intset) (r : Z) : option Z :=
  len ← intrev32ifbe be (ilength s);
  if len =? 0 then None else intsetGet_ s (s32 (u32 r mod len)).

Definition intsetLen (s : intset) : option Z := intrev32ifbe be (ilength s).

Definition intsetBlobLen (s : intset) : option Z :=
  len ← intrev32ifbe be (ilength s);
  enc ← intrev32ifbe be (encoding s);
  Some (8 + u32 (len * enc)).
End Ops.

(** ** The array of encoded elements *)

Definition elems (w : nat) (l : list Z) : list Z := l ≫= le_encode w.

Definition valid_width (w : nat) : Prop := w = 2%nat ∨ w = 4%nat ∨ w = 8%nat.

Lemma elems_app w l1 l2 : elems w (l1 ++ l2) = elems w l1 ++ elems w l2.
Proof. apply bind_app. Qed.

Lemma elems_cons w x l : elems w (x :: l) = le_encode w x ++ elems w l.
Proof. done. Qed.

Lemma elems_length w l : length (elems w l) = (w * length l)%nat.
Proof.
  induction l as [|x l IH]; [simpl; lia|].
  rewrite elems_cons, length_app, IH, le_encode_length. simpl. lia.
Qed.

Lemma valueEncoding_width v :
  in_s 64 v →
  ∃ w, valid_width w ∧ intsetValueEncoding v = Z.of_nat w ∧ in_s (8 * Z.of_nat w) v ∧
       ∀ w', valid_width w' → in_s (8 * Z.of_nat w') v → (w ≤ w')%nat.
Proof.
  unfold intsetValueEncoding, in_s. intros Hv.
  destruct ((v <? - 2 ^ 31) || (2 ^ 31 - 1 <? v)) eqn:E1.
  { exists 8%nat. unfold valid_width. split_and!; [lia|done|lia..|].
    intros w' [->|[->| ->]]; lia. }
  destruct ((v <? - 2 ^ 15) || (2 ^ 15 - 1 <? v)) eqn:E2.
  - exists 4%nat. unfold valid_width. split_and!; [lia|done|lia..|].
    intros w' [->|[->| ->]]; lia.
  - exists 2%nat. unfold valid_width. split_and!; [lia|done|lia..|].
    intros w' [->|[->| ->]]; lia.
Qed.

Section Proofs.
Context (be : bool).

Lemma intsetGetEncoded_spec s pos w x :
  valid_width w → in_s (8 * Z.of_nat w) x →
  slice (contents s) (Z.of_nat w * pos) (Z.of_nat w) = Some (le_encode w x) →
  intsetGetEncoded be s pos (Z.of_nat w) = Some x.
Proof.
  intros Hw Hx Hs.
  assert (to_signed (8 * Z.of_nat w) (le_decode (le_encode w x)) = x) as Hd.
  { rewrite le_decode_encode. apply to_signed_wrap; [|done].
    destruct Hw as [->|[->| ->]]; lia. }
  pose proof (le_encode_length w x) as Hl.
  unfold intsetGetEncoded. destruct Hw as [->|[->| ->]]; simpl Z.eqb; cbv iota.
  - change (Z.of_nat 2) with 2 in *. rewrite Hs. unfold mbind, option_bind.
    destruct (memrev16ifbe_load be _ Hl) as (r & -> & ->). by f_equal.
  - change (Z.of_nat 4) with 4 in *. rewrite Hs. unfold mbind, option_bind.
    destruct (memrev32ifbe_load be _ Hl) as (r & -> & ->). by f_equal.
  - change (Z.of_nat 8) with 8 in *. rewrite Hs. unfold mbind, option_bind.
    destruct (memrev64ifbe_load be _ Hl) as (r & -> & ->). by f_equal.
Qed.

Lemma intsetSet_spec s w pos v a b c :
  valid_width w → intrev32ifbe be (encoding s) = Some (Z.of_nat w) →
  contents s = a ++ b ++ c → length b = w → Z.of_nat w * pos = zlen a →
  intsetSet be s pos v = Some (set_contents (a ++ le_encode w v ++ c) s).
Proof.
  intros Hw He Hc Hb Hp. unfold intsetSet. rewrite He, Hc. unfold mbind, option_bind.
  destruct Hw as [->|[->| ->]]; simpl Z.eqb; cbv iota.
  - change (Z.of_nat 2) with 2 in *.
    by rewrite blit_app, memrev16ifbe_store by (rewrite ?host_store_length; done).
  - change (Z.of_nat 4) with 4 in *.
    by rewrite blit_app, memrev32ifbe_store by (rewrite ?host_store_length; done).
  - change (Z.of_nat 8) with 8 in *.
    by rewrite blit_app, memrev64ifbe_store by (rewrite ?host_store_length; done).
Qed.

(** ** Representation

    [rep_list w s l]: the blob [s] uses encoding [w] and stores, in ascending
    order, exactly the integers [l]; each fits the encoding and the contents
    are their little endian images back to back. *)
Record rep_list (w : nat) (s : intset) (l : list Z) : Prop := {
  rep_width : valid_width w;
  rep_encoding : intrev32ifbe be (encoding s) = Some (Z.of_nat w);
  rep_length : intrev32ifbe be (ilength s) = Some (zlen l);
  rep_contents : contents s = elems w l;
  rep_fits : Forall (in_s (8 * Z.of_nat w)) l;
  rep_sorted : StronglySorted Z.lt l;
}.

(** [intset_rep s X]: the blob represents the finite set [X]. *)
Definition intset_rep (s : intset) (X : gset Z) : Prop :=
  ∃ w l, rep_list w s l ∧ X = list_to_set l.

Lemma slice_elems w l i x t :
  l !! i = Some x →
  slice (elems w l ++ t) (Z.of_nat w * Z.of_nat i) (Z.of_nat w) = Some (le_encode w x).
Proof.
  intros Hi. rewrite <-(take_drop_middle l i x Hi) at 1.
  rewrite elems_app, elems_cons, <-!(assoc_L (++)).
  apply lookup_lt_Some in Hi. apply slice_app.
  - rewrite elems_length, length_take. lia.
  - by rewrite le_encode_length.
Qed.

Lemma intsetGet__spec w s l i x :
  rep_list w s l → l !! i = Some x → intsetGet_ be s (Z.of_nat i) = Some x.
Proof.
  intros H Hi. unfold intsetGet_. rewrite (rep_encoding _ _ _ H).
  unfold mbind, option_bind. apply intsetGetEncoded_spec.
  - apply H.
  - by eapply Forall_lookup_1; [apply (rep_fits _ _ _ H)|].
  - rewrite (rep_contents _ _ _ H), <-(app_nil_r (elems w l)). by apply slice_elems.
Qed.

(** The midpoint is computed without overflow. *)
Lemma midpoint min max :
  0 ≤ min → min ≤ max → max < 2 ^ 31 →
  s32 (Z.shiftr (u32 (u32 min + u32 max)) 1) = (min + max) / 2.
Proof.
  intros. rewrite (wrap_u_small 32 min), (wrap_u_small 32 max) by (unfold in_u; lia).
  rewrite wrap_u_small by (unfold in_u; lia).
  rewrite Z.shiftr_div_pow2 by lia. change (2 ^ 1) with 2.
  apply wrap_s_small; [lia|]. unfold in_s. simpl Z.sub.
  pose proof (Z.div_mod (min + max) 2). pose proof (Z.mod_pos_bound (min + max) 2). lia.
Qed.

Lemma intsetSearch_loop_spec w s l v fuel min max mid cur :
  rep_list w s l → zlen l < 2 ^ 31 →
  0 ≤ min → max < zlen l → min ≤ max + 1 → (Z.to_nat (max - min + 1) < fuel)%nat →
  (∀ i x, l !! i = Some x → Z.of_nat i < min → x < v) →
  (∀ i x, l !! i = Some x → max < Z.of_nat i → v < x) →
  min ≤ max ∨ cur ≠ v →
  ∃ min' mid' cur',
    intsetSearch_loop be fuel s v min max mid cur = Some (min', mid', cur') ∧
    ((cur' = v ∧ 0 ≤ mid' ∧ l !! Z.to_nat mid' = Some v) ∨
     (cur' ≠ v ∧ 0 ≤ min' ≤ zlen l ∧
      (∀ i x, l !! i = Some x → Z.of_nat i < min' → x < v) ∧
      (∀ i x, l !! i = Some x → min' ≤ Z.of_nat i → v < x))).
Proof.
  intros Hrep Hlen. revert min max mid cur.
  induction fuel as [|fuel IH]; intros min max mid cur Hmin Hmax Hmm Hf Hlo Hhi Hc; [lia|].
  simpl. destruct (Z.leb_spec min max).
  2:{ do 3 eexists. split; [done|]. right. split; [lia|]. split; [lia|].
      split; [done|]. intros i x Hi ?. apply (Hhi i); [done|]. lia. }
  rewrite midpoint by lia. set (m := (min + max) / 2).
  assert (min ≤ m ≤ max) as Hm by (unfold m; Z.to_euclidean_division_equations; lia).
  destruct (lookup_lt_is_Some_2 l (Z.to_nat m)) as [x Hx]; [lia|].
  pose proof (intsetGet__spec w s l _ _ Hrep Hx) as Hg. rewrite Z2Nat.id in Hg by lia.
  rewrite Hg. unfold mbind, option_bind. pose proof (rep_sorted _ _ _ Hrep) as Hsort.
  destruct (Z.ltb_spec x v).
  { apply IH; try lia; [|intros i y Hi ?; by apply (Hhi i)].
    intros i y Hi ?. destruct (decide (i = Z.to_nat m)) as [->|]; [congruence|].
    apply Z.lt_trans with x; [|done]. eapply sorted_lookup_lt; [done..|lia]. }
  destruct (Z.ltb_spec v x).
  { apply IH; try lia; [intros i y Hi ?; by apply (Hlo i)|].
    intros i y Hi ?. destruct (decide (i = Z.to_nat m)) as [->|]; [congruence|].
    apply Z.lt_trans with x; [done|]. eapply sorted_lookup_lt; [done..|lia]. }
  do 3 eexists. split; [done|]. left. assert (x = v) as -> by lia. split_and!; [done|lia|done].
Qed.

(** What [intsetSearch] promises: the position of [v], or the position that
    splits the array into the elements below and above [v]. *)
Definition search_result (l : list Z) (v : Z) (found : bool) (pos : Z) : Prop :=
  if found then 0 ≤ pos ∧ l !! Z.to_nat pos = Some v
  else ∃ l1 l2, l = l1 ++ l2 ∧ pos = zlen l1 ∧
       Forall (λ x, x < v) l1 ∧ Forall (λ x, v < x) l2.

Lemma search_split l v pos :
  0 ≤ pos ≤ zlen l →
  (∀ i x, l !! i = Some x → Z.of_nat i < pos → x < v) →
  (∀ i x, l !! i = Some x → pos ≤ Z.of_nat i → v < x) →
  search_result l v false pos.
Proof.
  intros Hp Hlo Hhi. exists (take (Z.to_nat pos) l), (drop (Z.to_nat pos) l).
  rewrite take_drop, length_take. split_and!; [done|lia|..]; apply Forall_lookup.
  - intros i x [Hi ?]%lookup_take_Some. apply (Hlo i); [done|lia].
  - intros i x Hi. rewrite lookup_drop in Hi. apply (Hhi _ _ Hi). lia.
Qed.

Lemma intsetSearch_spec w s l v :
  rep_list w s l → zlen l < 2 ^ 31 →
  ∃ found pos, intsetSearch be s v = Some (found, pos) ∧ search_result l v found pos.
Proof.
  intros Hrep Hlen. unfold intsetSearch.
  rewrite (rep_length _ _ _ Hrep). unfold mbind at 1, option_bind at 1. cbv zeta.
  pose proof (rep_sorted _ _ _ Hrep) as Hsort.
  destruct (Z.eqb_spec (zlen l) 0) as [Hz|Hz].
  { exists false, 0. split; [done|]. destruct l; [|simpl in Hz; lia]. by exists [], []. }
  assert (s32 (zlen l - 1) = zlen l - 1) as ->
    by (apply wrap_s_small; unfold in_s; simpl Z.sub; lia).
  destruct (lookup_lt_is_Some_2 l (length l - 1)) as [xl Hxl]; [lia|].
  destruct (lookup_lt_is_Some_2 l 0) as [x0 Hx0]; [lia|].
  pose proof (intsetGet__spec _ _ _ _ _ Hrep Hxl) as Hgl.
  replace (Z.of_nat (length l - 1)) with (zlen l - 1) in Hgl by lia.
  pose proof (intsetGet__spec _ _ _ _ _ Hrep Hx0) as Hg0. change (Z.of_nat 0) with 0 in Hg0.
  rewrite Hgl, Hg0. unfold mbind at 1, option_bind at 1.
  destruct (Z.ltb_spec xl v) as [Hl|Hl].
  { exists false, (zlen l). split; [done|]. apply search_split; [lia|..].
    - intros i x Hi _. apply Z.le_lt_trans with xl; [|done].
      apply lookup_lt_Some in Hi as ?. eapply sorted_lookup_le; [done..|lia].
    - intros i x Hi ?. apply lookup_lt_Some in Hi. lia. }
  unfold mbind at 1, option_bind at 1. destruct (Z.ltb_spec v x0) as [H0|H0].
  { exists false, 0. split; [done|]. apply search_split; [lia|intros; lia|].
    intros i x Hi _. apply Z.lt_le_trans with x0; [done|].
    eapply sorted_lookup_le; [done..|lia]. }
  destruct (intsetSearch_loop_spec w s l v (S (Z.to_nat (zlen l))) 0 (zlen l - 1) (-1) (-1))
    as (mn & md & cur & -> & Hres); [done..|lia|lia|lia|lia|intros; lia| |lia|].
  { intros i x Hi ?. apply lookup_lt_Some in Hi. lia. }
  unfold mbind, option_bind. destruct Hres as [(-> & Hmd & Hl')|(Hne & Hmn & Hlo & Hhi)].
  - rewrite Z.eqb_refl. apply lookup_lt_Some in Hl' as Hlt.
    exists true, (u32 md). split; [done|]. rewrite wrap_u_small by (unfold in_u; lia). done.
  - destruct (Z.eqb_spec v cur); [congruence|]. exists false, (u32 mn). split; [done|].
    rewrite wrap_u_small by (unfold in_u; lia). by apply search_split.
Qed.

Lemma intsetMoveTail_eq s w len from to :
  valid_width w → intrev32ifbe be (encoding s) = Some (Z.of_nat w) →
  intrev32ifbe be (ilength s) = Some len →
  0 ≤ from ≤ len → len * 8 < 2 ^ 32 →
  intsetMoveTail be s from to =
    c ← memmove (contents s) (Z.of_nat w * to) (Z.of_nat w * from)
          ((len - from) * Z.of_nat w);
    Some (set_contents c s).
Proof.
  intros Hw He Hlen Hf Hsz. unfold intsetMoveTail. rewrite Hlen, He.
  unfold mbind at 1, option_bind at 1. unfold mbind at 1, option_bind at 1.
  rewrite (wrap_u_small 32 (len - from)) by (unfold in_u; lia).
  destruct Hw as [->|[->| ->]]; simpl Z.eqb; cbv iota zeta;
    rewrite wrap_u_small by (unfold in_u; lia); done.
Qed.

(** Storing the new length through [intrev32ifbe]. *)
Lemma rep_set_length n :
  in_u 32 n → ∃ r, intrev32ifbe be n = Some r ∧ intrev32ifbe be r = Some n.
Proof.
  intros Hn. pose proof (intrev32ifbe_involutive be n Hn) as H.
  destruct (intrev32ifbe be n) as [r|]; [|done]. by exists r.
Qed.

Lemma rep_list_mid_sorted l1 l2 v :
  StronglySorted Z.lt (l1 ++ l2) →
  Forall (λ x, x < v) l1 → Forall (λ x, v < x) l2 →
  StronglySorted Z.lt (l1 ++ v :: l2).
Proof.
  intros Hs H1 H2. apply StronglySorted_app in Hs as (Hc & Hs1 & Hs2).
  apply StronglySorted_app. split_and!; [|done|].
  - intros x y Hx [->|Hy]%elem_of_cons; [|by apply Hc].
    rewrite Forall_forall in H1. by apply H1.
  - by apply StronglySorted_cons.
Qed.

(** A value whose encoding is wider than the set's is not an element. *)
Lemma valueEncoding_fits w s l v :
  rep_list w s l → in_s 64 v →
  intsetValueEncoding v ≤ Z.of_nat w ↔ in_s (8 * Z.of_nat w) v.
Proof.
  intros [Hw _ _ _ _ _] Hv.
  destruct (valueEncoding_width v Hv) as (w' & Hw' & -> & Hfit & Hmin). split.
  - intros ?. unfold in_s in *. destruct Hw as [->|[->| ->]], Hw' as [->|[->| ->]]; lia.
  - intros ?%Hmin; [lia|done].
Qed.

Lemma search_result_not_elem l v pos : search_result l v false pos → v ∉ l.
Proof.
  intros (l1 & l2 & -> & _ & H1 & H2). rewrite Forall_forall in H1, H2.
  intros [Hin|Hin]%elem_of_app; [apply H1 in Hin|apply H2 in Hin]; lia.
Qed.

Lemma search_result_elem l v pos : search_result l v true pos → v ∈ l.
Proof. intros [_ H]. by eapply list_elem_of_lookup_2. Qed.

Lemma upgrade_outside w v x :
  valid_width w → ¬ in_s (8 * Z.of_nat w) v → in_s (8 * Z.of_nat w) x →
  if v <? 0 then v < x else x < v.
Proof.
  intros Hw Hv Hx. unfold in_s in *. destruct Hw as [->|[->| ->]];
    destruct (Z.ltb_spec v 0); lia.
Qed.

(** The encoding of a value that does not fit is wider, and holds the others. *)
Lemma upgrade_widens w w' v l :
  valid_width w → valid_width w' → ¬ in_s (8 * Z.of_nat w) v →
  in_s (8 * Z.of_nat w') v → Forall (in_s (8 * Z.of_nat w)) l →
  (w ≤ w')%nat ∧ Forall (in_s (8 * Z.of_nat w')) l.
Proof.
  intros Hw Hw' Hv Hv' Hf.
  assert (w ≤ w')%nat as Hle.
  { unfold in_s in *. destruct Hw as [->|[->| ->]], Hw' as [->|[->| ->]]; lia. }
  split; [done|]. eapply Forall_impl; [done|]. intros x Hx. unfold in_s in *.
  assert (2 ^ (8 * Z.of_nat w - 1) ≤ 2 ^ (8 * Z.of_nat w' - 1)); [|lia].
  apply Z.pow_le_mono_r; [lia|]. destruct Hw as [->|[->| ->]]; lia.
Qed.

Context (junk : nat → Z).

Lemma intsetResize_spec s w n :
  intrev32ifbe be (encoding s) = Some (Z.of_nat w) →
  0 ≤ n * Z.of_nat w < 2 ^ 32 →
  intsetResize be junk s n =
    Some (set_contents (realloc junk (contents s) (n * Z.of_nat w)) s).
Proof.
  intros He Hn. unfold intsetResize. rewrite He. simpl. by rewrite wrap_u_small.
Qed.

(** The bytes of an array of [n] words, resized to hold one more. *)
Lemma realloc_elems w l n :
  n = (zlen l + 1) * Z.of_nat w →
  ∃ x, realloc junk (elems w l) n = elems w l ++ x ∧ length x = w.
Proof.
  intros ->. pose proof (elems_length w l) as Hl. eexists. split.
  - unfold realloc. rewrite take_ge by lia. done.
  - rewrite length_fmap, length_seq. lia.
Qed.

(** Insertion in the middle or at the end of an array that is wide enough. *)
Lemma intsetAdd_insert w s l1 l2 v :
  rep_list w s (l1 ++ l2) → (zlen (l1 ++ l2) + 1) * 8 < 2 ^ 32 →
  in_s (8 * Z.of_nat w) v → Forall (λ x, x < v) l1 → Forall (λ x, v < x) l2 →
  intsetSearch be s v = Some (false, zlen l1) → intsetValueEncoding v ≤ Z.of_nat w →
  ∃ s', intsetAdd be junk s v = Some (s', true) ∧ rep_list w s' (l1 ++ v :: l2).
Proof.
  intros Hrep Hlen Hv H1 H2 Hsearch Henc. destruct Hrep as [Hw He Hl Hc Hf Hs].
  assert (0 < Z.of_nat w ≤ 8) as Hw8 by (destruct Hw as [->|[->| ->]]; lia).
  unfold intsetAdd. rewrite He, Hsearch, Hl. simpl.
  rewrite (proj2 (Z.ltb_ge _ _)) by done.
  rewrite !(wrap_u_small 32 (zlen (l1 ++ l2) + 1)) by (unfold in_u; lia).
  rewrite (intsetResize_spec _ w) by (done || nia). simpl. rewrite Hc.
  destruct (realloc_elems w (l1 ++ l2) _ eq_refl) as (x & -> & Hx).
  destruct (rep_set_length (zlen (l1 ++ l2) + 1)) as (r & Hr & Hr'); [unfold in_u; lia|].
  rewrite length_app in *. rewrite elems_app, <-(assoc_L (++)).
  assert (∃ b, length b = w ∧
    (if zlen l1 <? Z.of_nat (length l1 + length l2)
     then intsetMoveTail be (set_contents (elems w l1 ++ elems w l2 ++ x) s)
            (zlen l1) (u32 (zlen l1 + 1))
     else Some (set_contents (elems w l1 ++ elems w l2 ++ x) s)) =
    Some (set_contents (elems w l1 ++ b ++ elems w l2) s)) as (b & Hb & ->).
  { destruct (Z.ltb_spec (zlen l1) (Z.of_nat (length l1 + length l2))).
    - rewrite (intsetMoveTail_eq _ w (Z.of_nat (length l1 + length l2)))
        by (done || simpl; lia).
      rewrite wrap_u_small by (unfold in_u; lia). simpl contents.
      rewrite memmove_up by (rewrite ?elems_length, ?Hx; nia).
      eexists. split; [|done]. rewrite length_take, length_app. lia.
    - exists x. split; [done|]. destruct l2; [|simpl in *; lia]. simpl.
      by rewrite !app_nil_r. }
  simpl. rewrite wrap_s_small by (unfold in_s; simpl Z.sub; lia).
  rewrite (intsetSet_spec _ w _ _ (elems w l1) b (elems w l2))
    by (done || rewrite ?elems_length; nia).
  rewrite Hr. simpl. eexists. split; [done|]. split; simpl; [done..| | | |].
  - rewrite Hr', length_app. simpl. f_equal. lia.
  - by rewrite elems_app, elems_cons.
  - apply Forall_app in Hf as [??]. apply Forall_app. split; [done|]. by constructor.
  - by apply rep_list_mid_sorted.
Qed.

(** ** Upgrade in place

    While the elements are rewritten back to front, the first [k] are still in
    the old encoding at the start of the buffer and the others are already in the
    new one, [p] slots further; the two regions never overlap. *)
Lemma intsetUpgrade_loop_spec w w' l tail p k s :
  valid_width w → valid_width w' → (w ≤ w')%nat → (k ≤ length l)%nat →
  Forall (in_s (8 * Z.of_nat w)) l →
  intrev32ifbe be (encoding s) = Some (Z.of_nat w') →
  take (k * w) (contents s) = elems w (take k l) →
  drop ((k + p) * w') (contents s) = elems w' (drop k l) ++ tail →
  ((length l + p) * w' ≤ length (contents s))%nat →
  ∃ c, intsetUpgrade_loop be k s (Z.of_nat p) (Z.of_nat w) = Some (set_contents c s) ∧
    length c = length (contents s) ∧ drop (p * w') c = elems w' l ++ tail.
Proof.
  intros Hw Hw' Hle. revert s. induction k as [|k IH]; intros s Hk Hf He Hold Hnew Hsz.
  { exists (contents s). by destruct s. }
  destruct (lookup_lt_is_Some_2 l k) as [x Hx]; [lia|].
  assert (in_s (8 * Z.of_nat w) x) as Hfx by (by eapply Forall_lookup_1).
  assert (contents s = elems w (take k l) ++ le_encode w x
            ++ drop (S k * w) (contents s)) as Hc1.
  { rewrite (take_S_r _ _ x Hx), elems_app in Hold.
    rewrite <-(take_drop (S k * w) (contents s)) at 1. rewrite Hold.
    simpl. by rewrite app_nil_r, <-(assoc_L (++)). }
  assert (k * w + w ≤ k * w' + w')%nat as Hmul by nia.
  cbn [intsetUpgrade_loop]. rewrite (intsetGetEncoded_spec _ _ w x); [|done..|].
  2:{ rewrite Hc1. apply slice_app; rewrite ?elems_length, ?length_take,
        ?le_encode_length; nia. }
  simpl.
  set (a := take ((k + p) * w') (contents s)).
  set (b := take w' (drop ((k + p) * w') (contents s))).
  assert (contents s = a ++ b ++ drop ((S k + p) * w') (contents s)) as Hc2.
  { unfold a, b. rewrite <-(take_drop ((k + p) * w') (contents s)) at 1. f_equal.
    rewrite <-(take_drop w' (drop _ (contents s))) at 1. f_equal.
    rewrite drop_drop. f_equal. lia. }
  assert (length a = (k + p) * w')%nat as Ha by (unfold a; rewrite length_take; nia).
  assert (length b = w') as Hb by (unfold b; rewrite length_take, length_drop; nia).
  rewrite (intsetSet_spec _ w' _ _ a b (drop ((S k + p) * w') (contents s)))
    by (done || nia). cbn [mbind option_bind].
  destruct (IH (set_contents (a ++ le_encode w' x ++ drop ((S k + p) * w') (contents s)) s))
    as (c & Hc & Hlc & Hd); cbn [contents encoding set_contents]; try done; try lia.
  - rewrite take_app_le by nia. unfold a. rewrite take_take, Nat.min_l by nia.
    rewrite Hc1. by rewrite take_app_le, take_ge by (rewrite ?elems_length, length_take; nia).
  - rewrite drop_app_length' by done. rewrite Hnew. rewrite (drop_S _ _ _ Hx).
    by rewrite elems_cons, <-(assoc_L (++)).
  - rewrite !length_app, Ha, le_encode_length, length_drop. nia.
  - cbn [contents set_contents] in Hlc. exists c. split_and!; [by rewrite Hc| |done].
    rewrite Hlc, !length_app, Ha, le_encode_length, length_drop. nia.
Qed.

(** The loop over the whole array, from the resized buffer: all elements in the new
    encoding, after a free slot when [v] goes first and before one otherwise. *)
Lemma intsetUpgrade_all w w' s l (p : nat) :
  valid_width w → valid_width w' → (w ≤ w')%nat → (p ≤ 1)%nat →
  Forall (in_s (8 * Z.of_nat w)) l →
  intrev32ifbe be (encoding s) = Some (Z.of_nat w') →
  contents s = realloc junk (elems w l) ((zlen l + 1) * Z.of_nat w') →
  ∃ a c, length a = (p * w')%nat ∧ length c = ((1 - p) * w')%nat ∧
    intsetUpgrade_loop be (length l) s (Z.of_nat p) (Z.of_nat w) =
      Some (set_contents (a ++ elems w' l ++ c) s).
Proof.
  intros Hw Hw' Hle Hp Hf He Hc.
  assert (length (contents s) = (length l + 1) * w')%nat as Hlen.
  { assert (zlen (contents s) = (zlen l + 1) * Z.of_nat w'); [|nia].
    rewrite Hc. apply realloc_length. nia. }
  destruct (intsetUpgrade_loop_spec w w' l
    (drop ((length l + p) * w') (contents s)) p (length l) s) as (c & Hl & Hlc & Hd);
    try done.
  - rewrite Hc, (take_ge l) by lia.
    rewrite <-(realloc_take junk (elems w l) ((zlen l + 1) * Z.of_nat w')) at 2
      by (rewrite elems_length; nia).
    rewrite elems_length. f_equal. lia.
  - by rewrite (drop_ge l) by lia.
  - nia.
  - exists (take (p * w') c), (drop ((length l + p) * w') (contents s)).
    rewrite length_take, length_drop, Hlc, Hlen. split_and!; [nia..|].
    by rewrite Hl, <-Hd, take_drop.
Qed.

Lemma intsetUpgradeAndAdd_spec w s l v :
  rep_list w s l → (zlen l + 1) * 8 < 2 ^ 32 → in_s 64 v →
  ¬ in_s (8 * Z.of_nat w) v →
  ∃ w' s', intsetUpgradeAndAdd be junk s v = Some s' ∧ Z.of_nat w' = intsetValueEncoding v ∧
    rep_list w' s' (if v <? 0 then v :: l else l ++ [v]).
Proof.
  intros [Hw He Hl Hc Hf Hs] Hsz Hv64 Hv.
  destruct (valueEncoding_width v Hv64) as (w' & Hw' & Hve & Hvw' & _).
  destruct (upgrade_widens w w' v l) as [Hle Hf']; [done..|].
  assert (0 < Z.of_nat w ≤ 8 ∧ 0 < Z.of_nat w' ≤ 8) as [Hw8 Hw8']
    by (destruct Hw as [->|[->| ->]], Hw' as [->|[->| ->]]; lia).
  destruct (rep_set_length (Z.of_nat w')) as (e & Hew & Hew'); [unfold in_u; lia|].
  destruct (rep_set_length (zlen l + 1)) as (r & Hr & Hr'); [unfold in_u; lia|].
  pose proof (λ x, upgrade_outside w v x Hw Hv) as Hout.
  unfold intsetUpgradeAndAdd. rewrite He, Hl, Hve, Hew. cbn [mbind option_bind].
  rewrite (wrap_u_small 8 (Z.of_nat w)) by (unfold in_u; lia).
  rewrite (wrap_s_small 32 (zlen l)) by (unfold in_s; simpl Z.sub; lia).
  rewrite (wrap_u_small 32 (zlen l + 1)) by (unfold in_u; lia).
  rewrite (intsetResize_spec _ w') by (done || nia). cbn [mbind option_bind].
  rewrite (proj2 (Z.ltb_ge (zlen l) 0)), Nat2Z.id by lia.
  set (s1 := set_contents _ _). exists w'. destruct (Z.ltb_spec v 0).
  - destruct (intsetUpgrade_all w w' s1 l 1) as (a & c & Ha & Hlc & Hloop); 
      [done|done|done|lia|done|done|by unfold s1; simpl; rewrite Hc|].
    change (Z.of_nat 1) with 1 in Hloop. rewrite Hloop. simpl.
    destruct c; [|simpl in Hlc; lia]. rewrite app_nil_r.
    rewrite (intsetSet_spec _ w' _ _ [] a (elems w' l)) by (done || simpl; lia).
    rewrite Hr. simpl. eexists. split; [done|]. split; [done|]. split; simpl; try done.
    + rewrite Hr'. f_equal. lia.
    + by constructor.
    + apply StronglySorted_cons. split; [|done]. eapply Forall_impl; [exact Hf|].
      exact Hout.
  - destruct (intsetUpgrade_all w w' s1 l 0) as (a & c & Ha & Hlc & Hloop); 
      [done|done|done|lia|done|done|by unfold s1; simpl; rewrite Hc|].
    change (Z.of_nat 0) with 0 in Hloop. rewrite Hloop. simpl.
    destruct a; [|simpl in Ha; lia]. simpl.
    rewrite (intsetSet_spec _ w' _ _ (elems w' l) c []);
      [|done|done|by rewrite app_nil_r|simpl in Hlc; lia|rewrite elems_length; lia].
    rewrite Hr. simpl. eexists. split; [done|]. split; [done|]. split; simpl; try done.
    + rewrite Hr', length_app. simpl. f_equal. lia.
    + by rewrite elems_app.
    + apply Forall_app. split; [done|]. by constructor.
    + apply StronglySorted_app. split_and!; [|done|repeat constructor].
      intros x y Hx ->%list_elem_of_singleton. rewrite Forall_forall in Hf.
      by apply Hout, Hf.
Qed.

(** Removal of the element found at position [zlen l1]. *)
Lemma intsetRemove_delete w s l1 l2 v :
  rep_list w s (l1 ++ v :: l2) → zlen (l1 ++ v :: l2) * 8 < 2 ^ 32 →
  intsetSearch be s v = Some (true, zlen l1) → intsetValueEncoding v ≤ Z.of_nat w →
  ∃ s', intsetRemove be junk s v = Some (s', true) ∧ rep_list w s' (l1 ++ l2).
Proof.
  intros [Hw He Hl Hc Hf Hs] Hlen Hsearch Henc.
  assert (0 < Z.of_nat w ≤ 8) as Hw8 by (destruct Hw as [->|[->| ->]]; lia).
  rewrite length_app in Hl, Hlen. cbn [length] in Hl, Hlen.
  set (n := Z.of_nat (length l1 + S (length l2))) in *.
  unfold intsetRemove. rewrite He, Hsearch, Hl. cbn [mbind option_bind].
  rewrite (proj2 (Z.leb_le _ _)) by done.
  rewrite !(wrap_u_small 32 (n - 1)) by (unfold in_u; lia).
  destruct (rep_set_length (n - 1)) as (r & Hr & Hr'); [unfold in_u; lia|].
  assert (∃ t, (if zlen l1 <? n - 1 then intsetMoveTail be s (u32 (zlen l1 + 1)) (zlen l1)
                else Some s) = Some (set_contents (elems w (l1 ++ l2) ++ t) s))
    as (t & ->).
  { rewrite elems_app, elems_cons in Hc. destruct (Z.ltb_spec (zlen l1) (n - 1)).
    - rewrite wrap_u_small by (unfold in_u; lia).
      rewrite (intsetMoveTail_eq _ w n) by (done || lia). rewrite Hc.
      rewrite <-(app_nil_r (elems w l2)).
      rewrite memmove_down by (rewrite ?elems_length, ?le_encode_length; nia).
      cbn [mbind option_bind]. eexists. by rewrite elems_app, <-(assoc_L (++)).
    - destruct l2; [|simpl in *; lia]. exists (le_encode w v). rewrite !app_nil_r in *.
      rewrite <-Hc. by destruct s. }
  cbn [mbind option_bind].
  assert (length (elems w (l1 ++ l2)) = w * (length l1 + length l2))%nat as Hel
    by (by rewrite elems_length, length_app).
  rewrite (intsetResize_spec _ w) by (done || nia). cbn [mbind option_bind contents set_contents].
  rewrite realloc_shrink, take_app_length' by (rewrite ?length_app; nia).
  rewrite Hr. cbn [mbind option_bind]. eexists. split; [done|]. split; simpl; try done.
  - rewrite Hr', length_app. f_equal. lia.
  - apply Forall_app in Hf as [? Hf]. inversion Hf. by apply Forall_app.
  - apply StronglySorted_app in Hs as (Hx & ? & Hs). apply StronglySorted_cons in Hs as [??].
    apply StronglySorted_app. split_and!; [|done..]. intros x y ??. apply Hx; [done|].
    by right.
Qed.

End Proofs.

(** ** The set contract

    [max_entries] bounds the number of elements: the size of the array, computed in
    32 bits, must not wrap. *)
Definition max_entries : Z := 2 ^ 29 - 1.

(** The blob represents [X] with elements of [W] bytes. *)
Definition rep_wide (be : bool) (s : intset) (X : gset Z) (W : Z) : Prop :=
  ∃ w l, rep_list be w s l ∧ X = list_to_set l ∧ W = Z.of_nat w.

Lemma rep_wide_rep be s X W : rep_wide be s X W → intset_rep be s X.
Proof. intros (w & l & Hr & -> & _). by exists w, l. Qed.

Lemma rep_rep_wide be s X : intset_rep be s X → ∃ W, rep_wide be s X W.
Proof. intros (w & l & Hr & ->). by exists (Z.of_nat w), w, l. Qed.

(** An addition widens the elements as far as the value needs it. *)
Lemma intsetAdd_wide be junk s X W v :
  rep_wide be s X W → in_s 64 v → Z.of_nat (size X) < max_entries →
  ∃ s', intsetAdd be junk s v = Some (s', bool_decide (v ∉ X)) ∧
        rep_wide be s' ({[v]} ∪ X) (Z.max W (intsetValueEncoding v)).
Proof.
  intros (w & l & Hrep & -> & ->) Hv Hsz. unfold max_entries in Hsz.
  rewrite size_list_to_set in Hsz by apply sorted_NoDup, Hrep.
  destruct (decide (in_s (8 * Z.of_nat w) v)) as [Hfit|Hfit].
  - rewrite Z.max_l by (by eapply valueEncoding_fits). destruct (intsetSearch_spec be w s l v Hrep) as ([] & pos & Hs & Hres); [lia|..].
    + apply search_result_elem in Hres. exists s. rewrite bool_decide_false by set_solver.
      split.
      * unfold intsetAdd. rewrite (rep_encoding _ _ _ _ Hrep), Hs. simpl.
        rewrite (proj2 (Z.ltb_ge _ _)); [done|]. by eapply valueEncoding_fits.
      * exists w, l. split; [done|]. split; [set_solver|done].
    + apply search_result_not_elem in Hres as Hni. rewrite bool_decide_true by set_solver.
      destruct Hres as (l1 & l2 & -> & -> & H1 & H2).
      destruct (intsetAdd_insert be junk w s l1 l2 v) as (s' & Ha & Hrep'); try done; [lia|..].
      { by eapply valueEncoding_fits. }
      exists s'. split; [done|]. exists w, (l1 ++ v :: l2). split; [done|]. split; [set_solver|done].
  - destruct (intsetUpgradeAndAdd_spec be junk w s l v) as (w' & s' & Ha & Hw' & Hrep'); try done; [lia|].
    exists s'. rewrite bool_decide_true.
    2:{ rewrite elem_of_list_to_set. intros Hin. apply Hfit.
        pose proof (rep_fits _ _ _ _ Hrep) as Hf. rewrite Forall_forall in Hf. by apply Hf. }
    split.
    + unfold intsetAdd. rewrite (rep_encoding _ _ _ _ Hrep), Ha. simpl.
      rewrite (proj2 (Z.ltb_lt _ _)); [done|].
      rewrite <-(valueEncoding_fits be w s l v Hrep Hv) in Hfit. lia.
    + exists w', (if v <? 0 then v :: l else l ++ [v]). split; [done|]. split; [destruct (v <? 0); set_solver|].
      rewrite <-(valueEncoding_fits be w s l v Hrep Hv) in Hfit. lia.
Qed.

Lemma intsetAdd_correct be junk s X v :
  intset_rep be s X → in_s 64 v → Z.of_nat (size X) < max_entries →
  ∃ s', intsetAdd be junk s v = Some (s', bool_decide (v ∉ X)) ∧
        intset_rep be s' ({[v]} ∪ X).
Proof.
  intros [W Hr]%rep_rep_wide Hv Hsz. destruct (intsetAdd_wide be junk s X W v Hr Hv Hsz) as (s' & -> & Hr').
  exists s'. split; [done|]. by eapply rep_wide_rep.
Qed.

(** A removal keeps the width. *)
Lemma intsetRemove_wide be junk s X W v :
  rep_wide be s X W → in_s 64 v → Z.of_nat (size X) ≤ max_entries →
  ∃ s', intsetRemove be junk s v = Some (s', bool_decide (v ∈ X)) ∧
        rep_wide be s' (X ∖ {[v]}) W.
Proof.
  intros (w & l & Hrep & -> & ->) Hv Hsz. unfold max_entries in Hsz.
  rewrite size_list_to_set in Hsz by apply sorted_NoDup, Hrep.
  assert (∀ b, v ∉ l → intsetRemove be junk s v = Some (s, b) → b = false →
    ∃ s', intsetRemove be junk s v = Some (s', bool_decide (v ∈ list_to_set (C:=gset Z) l)) ∧
        rep_wide be s' (list_to_set l ∖ {[v]}) (Z.of_nat w)) as Habsent.
  { intros b Hni -> ->. exists s. rewrite bool_decide_false by set_solver. split; [done|].
    exists w, l. split; [done|]. split; [set_solver|done]. }
  pose proof (valueEncoding_fits be w s l v Hrep Hv) as Hfits.
  destruct (decide (in_s (8 * Z.of_nat w) v)) as [Hfit|Hfit].
  - destruct (intsetSearch_spec be w s l v Hrep) as ([] & pos & Hs & Hres); [lia|..].
    + destruct Hres as [Hpos Hl]. apply lookup_lt_Some in Hl as Hlt.
      assert (pos = zlen (take (Z.to_nat pos) l)) as Hp by (rewrite length_take; lia).
      pose proof (take_drop_middle l _ _ Hl) as Hsplit.
      set (l1 := take (Z.to_nat pos) l) in *. set (l2 := drop (S (Z.to_nat pos)) l) in *.
      clearbody l1 l2. subst l pos. pose proof (sorted_NoDup _ (rep_sorted _ _ _ _ Hrep)) as Hnd.
      destruct (intsetRemove_delete be junk w s l1 l2 v) as (s' & Hr & Hrep'); try done; [lia|by apply Hfits|].
      exists s'. rewrite bool_decide_true by set_solver. split; [done|].
      exists w, (l1 ++ l2). split; [done|]. split; [|done].
      apply NoDup_app in Hnd as (_ & Hd & Hn%NoDup_cons). set_solver.
    + apply search_result_not_elem in Hres. eapply Habsent; [done| |done].
      unfold intsetRemove. rewrite (rep_encoding _ _ _ _ Hrep), Hs. simpl.
      rewrite (proj2 (Z.leb_le _ _)); [done|]. by apply Hfits.
  - eapply Habsent; [|unfold intsetRemove; rewrite (rep_encoding _ _ _ _ Hrep); simpl|].
    + intros Hin. apply Hfit. pose proof (rep_fits _ _ _ _ Hrep) as Hf.
      rewrite Forall_forall in Hf. by apply Hf.
    + destruct (Z.leb_spec (intsetValueEncoding v) (Z.of_nat w)); [|done].
      exfalso. by apply Hfit, Hfits.
    + done.
Qed.

Lemma intsetRemove_correct be junk s X v :
  intset_rep be s X → in_s 64 v → Z.of_nat (size X) ≤ max_entries →
  ∃ s', intsetRemove be junk s v = Some (s', bool_decide (v ∈ X)) ∧
        intset_rep be s' (X ∖ {[v]}).
Proof.
  intros [W Hr]%rep_rep_wide Hv Hsz. destruct (intsetRemove_wide be junk s X W v Hr Hv Hsz) as (s' & -> & Hr').
  exists s'. split; [done|]. by eapply rep_wide_rep.
Qed.

(** The elements of a set in ascending order. *)
Definition ascending (X : gset Z) : list Z := merge_sort Z.le (elements X).

Lemma ascending_sorted l :
  StronglySorted Z.lt l → ascending (list_to_set l) = l.
Proof.
  intros Hs. apply (StronglySorted_unique Z.le).
  - apply StronglySorted_merge_sort; apply _.
  - clear -Hs. induction Hs as [|x l ? IH Hf]; constructor; [done|].
    eapply Forall_impl; [done|]. intros. lia.
  - unfold ascending. rewrite merge_sort_Permutation.
    apply elements_list_to_set, sorted_NoDup, Hs.
Qed.

Lemma intsetFind_correct be s X v :
  intset_rep be s X → in_s 64 v → Z.of_nat (size X) ≤ max_entries →
  intsetFind be s v = Some (bool_decide (v ∈ X)).
Proof.
  intros (w & l & Hrep & ->) Hv Hsz. unfold max_entries in Hsz.
  rewrite size_list_to_set in Hsz by apply sorted_NoDup, Hrep.
  unfold intsetFind. rewrite (rep_encoding _ _ _ _ Hrep). cbn [mbind option_bind].
  pose proof (valueEncoding_fits be w s l v Hrep Hv) as Hfits.
  destruct (Z.leb_spec (intsetValueEncoding v) (Z.of_nat w)) as [Hle|Hgt].
  - destruct (intsetSearch_spec be w s l v Hrep) as ([] & pos & Hs & Hres); [lia|..];
      rewrite Hs; simpl; f_equal; symmetry.
    + apply search_result_elem in Hres. apply bool_decide_eq_true. set_solver.
    + apply search_result_not_elem in Hres. apply bool_decide_eq_false. set_solver.
  - f_equal. symmetry. apply bool_decide_eq_false. rewrite elem_of_list_to_set. intros Hin.
    pose proof (rep_fits _ _ _ _ Hrep) as Hf. rewrite Forall_forall in Hf.
    apply Hf, Hfits in Hin. lia.
Qed.

Lemma intsetGet_correct be s X pos :
  intset_rep be s X → 0 ≤ pos → Z.of_nat (size X) ≤ max_entries →
  intsetGet be s pos = Some (ascending X !! Z.to_nat pos).
Proof.
  intros (w & l & Hrep & ->) Hpos Hsz. unfold max_entries in Hsz.
  rewrite size_list_to_set in Hsz by apply sorted_NoDup, Hrep.
  rewrite ascending_sorted by apply Hrep.
  unfold intsetGet. rewrite (rep_length _ _ _ _ Hrep). cbn [mbind option_bind].
  destruct (Z.ltb_spec pos (zlen l)).
  - destruct (lookup_lt_is_Some_2 l (Z.to_nat pos)) as [x Hx]; [lia|].
    rewrite wrap_s_small by (unfold in_s; simpl Z.sub; lia).
    pose proof (intsetGet__spec be w s l _ _ Hrep Hx) as Hg.
    rewrite Z2Nat.id in Hg by lia. by rewrite Hg, Hx.
  - by rewrite lookup_ge_None_2 by lia.
Qed.

Lemma intsetLen_correct be s X :
  intset_rep be s X → intsetLen be s = Some (Z.of_nat (size X)).
Proof.
  intros (w & l & Hrep & ->). rewrite size_list_to_set by apply sorted_NoDup, Hrep.
  apply Hrep.
Qed.

Lemma intsetNew_wide be : ∃ s, intsetNew be = Some s ∧ rep_wide be s ∅ INTSET_ENC_INT16.
Proof.
  destruct (rep_set_length be 2) as (e & He & He'); [unfold in_u; lia|].
  unfold intsetNew, INTSET_ENC_INT16. rewrite He. simpl. eexists. split; [done|].
  exists 2%nat, []. split; [|done]. split; simpl; try done; [by left|..|by constructor].
  destruct be; [|done]. by vm_compute.
Qed.

Lemma intsetNew_correct be : ∃ s, intsetNew be = Some s ∧ intset_rep be s ∅.
Proof. destruct (intsetNew_wide be) as (s & E & Hr). exists s. split; [done|]. by eapply rep_wide_rep. Qed.

(** *** Histories

    A client calls the operations in any order; the abstract machine does the same
    on a finite set. *)
Inductive iset_op : Type :=
  | OpAdd (v : Z) | OpRemove (v : Z) | OpFind (v : Z) | OpGet (pos : Z) | OpLen.

Inductive iset_res : Type :=
  | ResBool (b : bool) | ResGet (r : option Z) | ResLen (n : Z).

Definition op_ok (o : iset_op) : Prop :=
  match o with
  | OpAdd v | OpRemove v | OpFind v => in_s 64 v
  | OpGet pos => 0 ≤ pos
  | OpLen => True
  end.

Definition iset_step be junk (s : intset) (o : iset_op) : option (intset * iset_res) :=
  match o with
  | OpAdd v => '(s, b) ← intsetAdd be junk s v; Some (s, ResBool b)
  | OpRemove v => '(s, b) ← intsetRemove be junk s v; Some (s, ResBool b)
  | OpFind v => b ← intsetFind be s v; Some (s, ResBool b)
  | OpGet pos => r ← intsetGet be s pos; Some (s, ResGet r)
  | OpLen => n ← intsetLen be s; Some (s, ResLen n)
  end.

Fixpoint iset_run be junk (s : intset) (os : list iset_op)
    : option (intset * list iset_res) :=
  match os with
  | [] => Some (s, [])
  | o :: os =>
      '(s, r) ← iset_step be junk s o;
      '(s, rs) ← iset_run be junk s os;
      Some (s, r :: rs)
  end.

Definition spec_step (X : gset Z) (o : iset_op) : gset Z * iset_res :=
  match o with
  | OpAdd v => ({[v]} ∪ X, ResBool (bool_decide (v ∉ X)))
  | OpRemove v => (X ∖ {[v]}, ResBool (bool_decide (v ∈ X)))
  | OpFind v => (X, ResBool (bool_decide (v ∈ X)))
  | OpGet pos => (X, ResGet (ascending X !! Z.to_nat pos))
  | OpLen => (X, ResLen (Z.of_nat (size X)))
  end.

Fixpoint spec_run (X : gset Z) (os : list iset_op) : gset Z * list iset_res :=
  match os with
  | [] => (X, [])
  | o :: os =>
      let '(X1, r) := spec_step X o in
      let '(X2, rs) := spec_run X1 os in (X2, r :: rs)
  end.

Lemma spec_step_size X o : (size (spec_step X o).1 ≤ S (size X))%nat.
Proof.
  destruct o; simpl; try lia.
  - rewrite size_union_alt, size_singleton. simpl.
    pose proof (subseteq_size (X ∖ {[v]}) X). set_solver by lia.
  - pose proof (subseteq_size (X ∖ {[v]}) X). set_solver by lia.
Qed.

Lemma iset_step_refines be junk s X o :
  intset_rep be s X → op_ok o → Z.of_nat (size X) < max_entries →
  ∃ s', iset_step be junk s o = Some (s', (spec_step X o).2) ∧
        intset_rep be s' (spec_step X o).1.
Proof.
  intros Hrep Hok Hsz. destruct o as [v|v|v|pos|]; simpl in *.
  - destruct (intsetAdd_correct be junk s X v) as (s' & -> & ?); eauto.
  - destruct (intsetRemove_correct be junk s X v) as (s' & -> & ?); eauto with lia.
  - rewrite (intsetFind_correct be s X v) by auto with lia. eauto.
  - rewrite (intsetGet_correct be s X pos) by auto with lia. eauto.
  - rewrite (intsetLen_correct be s X) by auto with lia. eauto.
Qed.

Lemma iset_run_refines_from be junk os s X :
  intset_rep be s X → Forall op_ok os →
  Z.of_nat (size X) + zlen os ≤ max_entries →
  ∃ s', iset_run be junk s os = Some (s', (spec_run X os).2) ∧
        intset_rep be s' (spec_run X os).1.
Proof.
  revert s X. induction os as [|o os IH]; intros s X Hrep Hok Hsz; [by eauto|].
  apply Forall_cons in Hok as [Ho Hok]. cbn [length] in Hsz.
  destruct (iset_step_refines be junk s X o) as (s1 & E1 & Hrep1); [done|done|lia|].
  pose proof (spec_step_size X o) as Hstep.
  cbn [iset_run spec_run]. rewrite E1. cbn [mbind option_bind].
  destruct (spec_step X o) as [X1 r]; simpl in *.
  destruct (IH s1 X1) as (s2 & E2 & Hrep2); [done|done|lia|]. rewrite E2.
  destruct (spec_run X1 os) as [X2 rs]; simpl in *. eauto.
Qed.

(** C1: Starting from [intsetNew], any sequence of [intsetAdd], [intsetRemove],
    [intsetFind], [intsetGet] and [intsetLen] calls on 64 bit values stays inside the
    blob, ends, and returns what the same sequence of operations on a finite set of
    integers returns ([intsetGet] indexing the elements in ascending order); the final
    blob represents the final set.  This holds on hosts of both byte orders and
    whatever bytes [zrealloc] leaves in the memory it adds, for up to 2^29 - 1
    operations. *)
Theorem intset_refines_set be junk os :
  Forall op_ok os → zlen os ≤ max_entries →
  ∃ s0 s, intsetNew be = Some s0 ∧
    iset_run be junk s0 os = Some (s, (spec_run ∅ os).2) ∧
    intset_rep be s (spec_run ∅ os).1.
Proof.
  intros Hok Hsz. destruct (intsetNew_correct be) as (s0 & H0 & Hrep).
  destruct (iset_run_refines_from be junk os s0 ∅) as (s & Hrun & Hs); [done|done| |eauto].
  by rewrite size_empty.
Qed.

Definition intset_demo_ops : list iset_op :=
  [OpAdd 5; OpAdd (-3); OpAdd 5; OpAdd 70000; OpAdd (-5000000000); OpGet 0;
   OpRemove 5; OpFind 70000; OpLen].

Lemma intset_refines_set_witness :
  Forall op_ok intset_demo_ops ∧ zlen intset_demo_ops ≤ max_entries ∧
  (∃ s0 s, intsetNew true = Some s0 ∧
    iset_run true (λ _, 170) s0 intset_demo_ops = Some (s, (spec_run ∅ intset_demo_ops).2) ∧
    intset_rep true s (spec_run ∅ intset_demo_ops).1).
Proof.
  assert (Forall op_ok intset_demo_ops) as Hok
    by (repeat constructor; by vm_compute).
  assert (zlen intset_demo_ops ≤ max_entries) as Hsz by (by vm_compute).
  split; [exact Hok|]. split; [exact Hsz|].
  exact (intset_refines_set true (λ _, 170) intset_demo_ops Hok Hsz).
Defined.

(** The whole blob, as [intsetBlobLen] bytes of memory. *)
Definition intset_blob (be : bool) (s : intset) : list Z :=
  host_store be 4 (encoding s) ++ host_store be 4 (ilength s) ++ contents s.

(** The bytes that a set is stored as, with elements of [W] bytes. *)
Definition set_layout (X : gset Z) (W : Z) : list Z :=
  le_encode 4 W ++ le_encode 4 (Z.of_nat (size X)) ++ (ascending X ≫= le_encode (Z.to_nat W)).

(** The width after a sequence of operations: the most that any value that was added needs. *)
Definition width_after (os : list iset_op) (W : Z) : Z :=
  foldl (λ W o, match o with OpAdd v => Z.max W (intsetValueEncoding v) | _ => W end) W os.

Lemma layout_spec be s X W : rep_wide be s X W → Z.of_nat (size X) ≤ max_entries →
  intset_blob be s = set_layout X W ∧ intsetBlobLen be s = Some (zlen (set_layout X W)).
Proof.
  intros (w & l & [Hw He Hl Hc Hf Hs] & -> & ->) Hsz. unfold max_entries in Hsz. unfold set_layout.
  rewrite ascending_sorted by done. rewrite Nat2Z.id.
  rewrite size_list_to_set in * by (by apply sorted_NoDup).
  assert (0 < Z.of_nat w ≤ 8) as Hw8 by (destruct Hw as [->|[->| ->]]; lia). split.
  - unfold intset_blob. by rewrite (intrev32ifbe_store _ _ _ He), (intrev32ifbe_store _ _ _ Hl), Hc.
  - unfold intsetBlobLen. rewrite Hl, He. cbn [mbind option_bind]. f_equal. fold (elems w l).
    rewrite wrap_u_small by (unfold in_u; nia). rewrite !length_app, !le_encode_length, elems_length. lia.
Qed.

Lemma iset_step_wide be junk s X W o :
  rep_wide be s X W → op_ok o → Z.of_nat (size X) < max_entries →
  ∃ s', iset_step be junk s o = Some (s', (spec_step X o).2) ∧ rep_wide be s' (spec_step X o).1 (width_after [o] W).
Proof.
  intros Hr Hok Hsz. pose proof (rep_wide_rep _ _ _ _ Hr) as Hrep. destruct o as [v|v|v|pos|]; simpl in *.
  - destruct (intsetAdd_wide be junk s X W v) as (s' & -> & ?); eauto.
  - destruct (intsetRemove_wide be junk s X W v) as (s' & -> & ?); eauto with lia.
  - rewrite (intsetFind_correct be s X v) by auto with lia. eauto.
  - rewrite (intsetGet_correct be s X pos) by auto with lia. eauto.
  - rewrite (intsetLen_correct be s X) by auto with lia. eauto.
Qed.

Lemma iset_run_wide be junk os : ∀ s X W,
  rep_wide be s X W → Forall op_ok os → Z.of_nat (size X) + zlen os ≤ max_entries →
  ∃ s' rs, iset_run be junk s os = Some (s', rs) ∧ rep_wide be s' (spec_run X os).1 (width_after os W) ∧ Z.of_nat (size (spec_run X os).1) ≤ max_entries.
Proof.
  induction os as [|o os IH]; intros s X W Hrep Hok Hsz; [cbn in *; eexists _, _; split_and!; [done|done|lia]|].
  apply Forall_cons in Hok as [Ho Hok]. cbn [length] in Hsz.
  destruct (iset_step_wide be junk s X W o) as (s1 & E1 & Hrep1); [done|done|lia|].
  pose proof (spec_step_size X o) as Hstep.
  cbn [iset_run spec_run]. rewrite E1. cbn [mbind option_bind].
  destruct (spec_step X o) as [X1 r]; simpl in *.
  destruct (IH s1 X1 _ Hrep1) as (s2 & rs & -> & Hrep2 & Hsz2); [done|lia|].
  destruct (spec_run X1 os) as [X2 rs']; simpl in *. eauto.
Qed.

(** C2: after any sequence of operations from [intsetNew] the bytes of the blob are determined by
    the set of integers and the values that were added, on hosts of both byte orders and whatever
    memory [zrealloc] returns: the encoding and the number of elements as 32 bit little endian
    words, then the elements in ascending order as little endian words.  The width is the smallest
    one that fits every value added so far, so that it grows with an addition and never shrinks
    with a removal; and [intsetBlobLen] is the exact size. *)
Theorem intset_blob_layout be junk os :
  Forall op_ok os → zlen os ≤ max_entries →
  ∃ s0 s rs, intsetNew be = Some s0 ∧ iset_run be junk s0 os = Some (s, rs) ∧
    let blob := set_layout (spec_run ∅ os).1 (width_after os INTSET_ENC_INT16) in
    intset_blob be s = blob ∧ intsetBlobLen be s = Some (zlen blob).
Proof.
  intros Hok Hsz. destruct (intsetNew_wide be) as (s0 & H0 & Hrep).
  destruct (iset_run_wide be junk os s0 ∅ _ Hrep Hok) as (s & rs & Hrun & Hs & Hsize); [by rewrite size_empty|].
  exists s0, s, rs. split_and!; [done|done|by apply layout_spec].
Qed.

Lemma intset_blob_layout_witness :
  Forall op_ok intset_demo_ops ∧ zlen intset_demo_ops ≤ max_entries ∧
  width_after intset_demo_ops INTSET_ENC_INT16 = 8 ∧
  ∃ s0 s rs, intsetNew true = Some s0 ∧ iset_run true (λ _, 170) s0 intset_demo_ops = Some (s, rs) ∧
    let blob := set_layout (spec_run ∅ intset_demo_ops).1 (width_after intset_demo_ops INTSET_ENC_INT16) in
    intset_blob true s = blob ∧ intsetBlobLen true s = Some (zlen blob).
Proof.
  assert (Forall op_ok intset_demo_ops) as Hok
    by (repeat constructor; by vm_compute).
  assert (zlen intset_demo_ops ≤ max_entries) as Hsz by (by vm_compute).
  split; [exact Hok|]. split; [exact Hsz|]. split; [reflexivity|].
  exact (intset_blob_layout true (λ _, 170) intset_demo_ops Hok Hsz).
Defined.
