(* ===== verification/Util.v ===== *)
(** Conversions between integers and strings (src/util.c): [digits10],
    [sdigits10], [ll2string], [string2ll], [string2l], [memtoll].

    Strings are lists of byte values; a buffer access outside the allocation is
    [None].  The decimal digits tables and the unrolled comparisons of the C code
    are kept as they are. *)

From stdpp Require Import strings.
From S2P Require Import Prelude.

(** The bytes of a string literal, without the terminator. *)
Fixpoint str (s : string) : list Z :=
  match s with
  | EmptyString => []
  | String c s => Z.of_N (Ascii.N_of_ascii c) :: str s
  end.

Definition ULLONG_MAX : Z := 2 ^ 64 - 1.
Definition LLONG_MAX : Z := 2 ^ 63 - 1.
Definition LLONG_MIN : Z := - 2 ^ 63.
Definition LONG_MAX : Z := 2 ^ 63 - 1.
Definition LONG_MIN : Z := - 2 ^ 63.

Definition b2z (b : bool) : Z := if b then 1 else 0.

(** [digits10]: one recursive call per twelve digits, so a fuel of 2 covers every
    64 bit argument. *)
Fixpoint digits10_rec (fuel : nat) (v : Z) : option Z :=
  match fuel with
  | O => None
  | S fuel =>
      if v <? 10 then Some 1
      else if v <? 100 then Some 2
      else if v <? 1000 then Some 3
      else if v <? 1000000000000 then
        if v <? 100000000 then
          if v <? 1000000 then
            if v <? 10000 then Some 4
            else Some (5 + b2z (100000 <=? v))
          else Some (7 + b2z (10000000 <=? v))
        else if v <? 10000000000 then Some (9 + b2z (1000000000 <=? v))
        else Some (11 + b2z (100000000000 <=? v))
      else
        d ← digits10_rec fuel (v / 1000000000000);
        Some (12 + d)
  end.

Definition digits10 (v : Z) : option Z := digits10_rec 2 v.

Definition sdigits10 (v : Z) : option Z :=
  if v <? 0 then
    let uv := if v =? LLONG_MIN then u64 (LLONG_MAX + 1) else u64 (- v) in
    d ← digits10 uv;
    Some (d + 1)
  else digits10 v.

Definition digits_table : list Z := str
  ("0001020304050607080910111213141516171819" +:+
   "2021222324252627282930313233343536373839" +:+
   "4041424344454647484950515253545556575859" +:+
   "6061626364656667686970717273747576777879" +:+
   "8081828384858687888990919293949596979899")%string.

(** The loop [while (value >= 100)] of [ll2string]. *)
Fixpoint ll2string_loop (fuel : nat) (dst : list Z) (next value : Z)
    : option (list Z * Z * Z) :=
  match fuel with
  | O => None
  | S fuel =>
      if 100 <=? value then
        let i := value mod 100 * 2 in
        let value := value / 100 in
        c1 ← peek digits_table (i + 1);
        dst ← poke dst next c1;
        c0 ← peek digits_table i;
        dst ← poke dst (u32 (next - 1)) c0;
        ll2string_loop fuel dst (u32 (next - 2)) value
      else Some (dst, next, value)
  end.

(** The buffer after the call and the returned length; 20 digits at most, two per
    iteration. *)
Definition ll2string (dst : list Z) (dstlen svalue : Z) : option (list Z * Z) :=
  let '(value, negative) :=
    if svalue <? 0 then
      ((if svalue =? LLONG_MIN then u64 (LLONG_MAX + 1) else - svalue), 1)
    else (svalue, 0) in
  d ← digits10 value;
  let length := u32 (d + negative) in
  if dstlen <=? length then Some (dst, 0)
  else
    let next := length in
    dst ← poke dst next 0;
    let next := u32 (next - 1) in
    '(dst, next, value) ← ll2string_loop 11 dst next value;
    dst ← (if value <? 10 then poke dst next (48 + value)
           else
             let i := value * 2 in
             c1 ← peek digits_table (i + 1);
             dst ← poke dst next c1;
             c0 ← peek digits_table i;
             poke dst (u32 (next - 1)) c0);
    dst ← (if negative =? 1 then poke dst 0 45 else Some dst);
    Some (dst, length).

(** The loop of [string2ll]; [Some None] is the overflow return. *)
Fixpoint string2ll_loop (fuel : nat) (s : list Z) (slen plen v : Z)
    : option (option (Z * Z)) :=
  match fuel with
  | O => None
  | S fuel =>
      if plen <? slen then
        c ← peek s plen;
        if (48 <=? c) && (c <=? 57) then
          if ULLONG_MAX / 10 <? v then Some None
          else
            let v := u64 (v * 10) in
            if ULLONG_MAX - (c - 48) <? v then Some None
            else string2ll_loop fuel s slen (plen + 1) (u64 (v + (c - 48)))
        else Some (Some (plen, v))
      else Some (Some (plen, v))
  end.

(** [Some (Some v)]: returns 1 with [*value = v]; [Some None]: returns 0. *)
Definition string2ll (s : list Z) (slen : Z) : option (option Z) :=
  if slen =? 0 then Some None
  else
    c0 ← peek s 0;
    if (slen =? 1) && (c0 =? 48) then Some (Some 0)
    else
      let negative := c0 =? 45 in
      let plen := b2z negative in
      if negative && (plen =? slen) then Some None
      else
        c ← peek s plen;
        if (49 <=? c) && (c <=? 57) then
          r ← string2ll_loop (S (Z.to_nat slen)) s slen (plen + 1) (c - 48);
          match r with
          | None => Some None
          | Some (plen, v) =>
              if plen <? slen then Some None
              else if negative then
                if u64 (- (LLONG_MIN + 1)) + 1 <? v then Some None
                else Some (Some (s64 (u64 (- v))))
              else if LLONG_MAX <? v then Some None
              else Some (Some v)
          end
        else Some None.

Definition string2l (s : list Z) (slen : Z) : option (option Z) :=
  r ← string2ll s slen;
  match r with
  | None => Some None
  | Some llval =>
      if (llval <? LONG_MIN) || (LONG_MAX <? llval) then Some None
      else Some (Some llval)
  end.

Example ll2string_ex :
  ll2string (replicate 8 7) 8 (-1234) = Some (str "-1234" ++ [0; 7; 7], 5).
Proof. reflexivity. Qed.
Example string2ll_ex : string2ll (str "-9223372036854775808") 20 = Some (Some LLONG_MIN).
Proof. reflexivity. Qed.
Example string2ll_ex2 : string2ll (str "9223372036854775808") 19 = Some None.
Proof. reflexivity. Qed.
Example digits_ex : digits10 ULLONG_MAX = Some 20 ∧ sdigits10 LLONG_MIN = Some 20.
Proof. done. Qed.

(** ** Decimal notation *)

Definition is_digit (c : Z) : Prop := 48 ≤ c ≤ 57.

#[export] Instance is_digit_dec c : Decision (is_digit c).
Proof. unfold is_digit. apply _. Defined.

(** The value of a string of digits, most significant first, from [acc]. *)
Definition dec_step (acc c : Z) : Z := acc * 10 + (c - 48).
Definition dec_from (acc : Z) (s : list Z) : Z := foldl dec_step acc s.
Definition decimal_value (s : list Z) : Z := dec_from 0 s.

(** The last [n] digits of [v]. *)
Fixpoint ndigits (n : nat) (v : Z) : list Z :=
  match n with
  | O => []
  | S n => ndigits n (v / 10) ++ [48 + v mod 10]
  end.

(** [n] is the number of digits of [v]: no leading zero unless [v] is 0. *)
Definition digit_count (v : Z) (n : nat) : Prop :=
  (0 < n)%nat ∧ v < 10 ^ Z.of_nat n ∧ (n = 1%nat ∨ 10 ^ (Z.of_nat n - 1) ≤ v).

(** The decimal notation of an unsigned and of a signed integer: digits only, no
    superfluous zero, a minus sign in front of a negative value. *)
Definition canonical_u (s : list Z) (v : Z) : Prop :=
  s ≠ [] ∧ Forall is_digit s ∧ (head s = Some 48 → s = [48]) ∧ decimal_value s = v.

Definition canonical (s : list Z) (v : Z) : Prop :=
  if v <? 0 then ∃ s', s = 45 :: s' ∧ canonical_u s' (- v) else canonical_u s v.

Lemma ndigits_length n v : length (ndigits n v) = n.
Proof.
  revert v. induction n as [|n IH]; intros v; [done|]. simpl.
  rewrite length_app, IH. simpl. lia.
Qed.

Lemma ndigits_digits n v : Forall is_digit (ndigits n v).
Proof.
  revert v. induction n as [|n IH]; intros v; [constructor|]. simpl.
  apply Forall_app. split; [done|]. constructor; [|constructor].
  unfold is_digit. pose proof (Z.mod_pos_bound v 10). lia.
Qed.

Lemma dec_from_app acc s t : dec_from acc (s ++ t) = dec_from (dec_from acc s) t.
Proof. apply foldl_app. Qed.

Lemma pow_10_S n : 10 ^ Z.of_nat (S n) = 10 * 10 ^ Z.of_nat n.
Proof. rewrite Nat2Z.inj_succ, Z.pow_succ_r by lia. done. Qed.

Lemma ndigits_value n v : decimal_value (ndigits n v) = v mod 10 ^ Z.of_nat n.
Proof.
  revert v. induction n as [|n IH]; intros v; [by rewrite Z.mod_1_r|].
  cbn [ndigits]. unfold decimal_value in *. rewrite dec_from_app, IH.
  rewrite pow_10_S, Z.rem_mul_r by lia. unfold dec_from, dec_step. simpl. lia.
Qed.

Lemma decimal_value_bound s :
  Forall is_digit s → 0 ≤ decimal_value s < 10 ^ zlen s.
Proof.
  induction s as [|c s IH] using rev_ind; [done|]. rewrite Forall_app, Forall_singleton.
  intros [Hs Hc]. unfold decimal_value in *. rewrite dec_from_app, length_app. simpl.
  rewrite Nat.add_1_r, pow_10_S. specialize (IH Hs). unfold dec_step, is_digit in *. lia.
Qed.

Lemma ndigits_of_value s :
  Forall is_digit s → ndigits (length s) (decimal_value s) = s.
Proof.
  induction s as [|c s IH] using rev_ind; [done|]. rewrite Forall_app, Forall_singleton.
  intros [Hs Hc]. rewrite length_app, Nat.add_1_r. cbn [ndigits].
  unfold decimal_value, dec_from in *. rewrite foldl_app. cbn [foldl].
  set (a := foldl dec_step 0 s) in *. unfold dec_step. unfold is_digit in Hc.
  rewrite Z.div_add_l, (Z.div_small (c - 48)), Z.add_0_r, IH by (done || lia).
  rewrite (Z.add_comm (a * 10)), Z_mod_plus_full, Z.mod_small by lia. do 2 f_equal. lia.
Qed.

Lemma dec_from_shift acc s : dec_from acc s = acc * 10 ^ zlen s + decimal_value s.
Proof.
  induction s as [|c s IH] using rev_ind; [unfold dec_from; simpl; unfold decimal_value, dec_from; simpl; lia|].
  unfold decimal_value in *. rewrite !dec_from_app, IH, length_app. simpl.
  rewrite Nat.add_1_r, pow_10_S. unfold dec_step. lia.
Qed.

Lemma dec_from_mono acc s : 0 ≤ acc → Forall is_digit s → acc ≤ dec_from acc s.
Proof.
  intros Ha Hs. rewrite dec_from_shift. pose proof (decimal_value_bound s Hs).
  pose proof (Z.pow_pos_nonneg 10 (zlen s)). nia.
Qed.

Lemma digit_count_unique v n m :
  0 ≤ v → digit_count v n → digit_count v m → n = m.
Proof.
  assert (∀ a b, digit_count v a → digit_count v b → (a < b)%nat → False) as H.
  { intros a b (? & Ha & _) (? & _ & [->|Hb]) ?; [lia|].
    pose proof (Z.pow_le_mono_r 10 (Z.of_nat a) (Z.of_nat b - 1)). lia. }
  intros _ Hn Hm. destruct (Nat.lt_trichotomy n m) as [|[|]]; [exfalso|done|exfalso]; eauto.
Qed.

(** A canonical string is determined by its value. *)
Lemma canonical_u_count s v : canonical_u s v → digit_count v (length s).
Proof.
  intros (Hne & Hd & Hz & <-). destruct s as [|c s]; [done|].
  split; [simpl; lia|]. split; [by apply decimal_value_bound|].
  destruct (decide (c = 48)) as [->|Hc]; [left; by rewrite Hz|]. right.
  apply Forall_cons in Hd as [Hc' Hd]. cbn [length]. rewrite Nat2Z.inj_succ.
  replace (Z.succ (zlen s) - 1) with (zlen s) by lia.
  change (decimal_value (c :: s)) with (dec_from (dec_step 0 c) s). rewrite dec_from_shift.
  pose proof (decimal_value_bound s Hd). unfold dec_step, is_digit in *.
  pose proof (Z.pow_pos_nonneg 10 (zlen s)). nia.
Qed.

Lemma canonical_u_ndigits v n :
  0 ≤ v → digit_count v n → canonical_u (ndigits n v) v.
Proof.
  intros Hv (Hn & Hlt & Hlead). destruct n as [|n]; [lia|]. split_and!.
  - by destruct (ndigits n (v / 10)) eqn:E; cbn [ndigits]; rewrite E.
  - apply ndigits_digits.
  - intros Hh. destruct Hlead as [[= ->]|Hlead].
    + cbn [ndigits app head] in *. congruence.
    + exfalso. pose proof (ndigits_digits (S n) v) as Hd.
      pose proof (ndigits_value (S n) v) as Hval. rewrite Z.mod_small in Hval by lia.
      pose proof (ndigits_length (S n) v) as Hl.
      destruct (ndigits (S n) v) as [|c s]; [done|]. simpl in Hh. simplify_eq.
      apply Forall_cons in Hd as [_ Hd]. apply decimal_value_bound in Hd.
      simpl in Hl. simplify_eq.
      assert (decimal_value (48 :: s) = decimal_value s) by done.
      rewrite Nat2Z.inj_succ in Hlead.
      replace (Z.succ (zlen s) - 1) with (zlen s) in Hlead by lia. lia.
  - rewrite ndigits_value. by apply Z.mod_small.
Qed.

Lemma canonical_u_unique s v n : 0 ≤ v → digit_count v n → canonical_u s v → s = ndigits n v.
Proof.
  intros Hv Hn Hc. pose proof (canonical_u_count s v Hc) as Hn'.
  rewrite (digit_count_unique v n (length s)) by done.
  destruct Hc as (_ & Hd & _ & <-). symmetry. by apply ndigits_of_value.
Qed.

(** ** Counting digits *)

Lemma digits10_rec_small fuel v :
  0 ≤ v < 1000000000000 →
  ∃ n, digits10_rec (S fuel) v = Some (Z.of_nat n) ∧ digit_count v n.
Proof.
  intros Hv. cbn [digits10_rec]. unfold b2z, digit_count.
  repeat match goal with
  | |- context [?a <? ?b] => destruct (Z.ltb_spec a b)
  | |- context [?a <=? ?b] => destruct (Z.leb_spec a b)
  end; try lia;
  [exists 1%nat|exists 2%nat|exists 3%nat|exists 4%nat|exists 6%nat|exists 5%nat
  |exists 8%nat|exists 7%nat|exists 10%nat|exists 9%nat|exists 12%nat|exists 11%nat];
  (split; [done|]; simpl; lia).
Qed.

Lemma digits10_rec_big fuel v :
  1000000000000 ≤ v →
  digits10_rec (S fuel) v = (d ← digits10_rec fuel (v / 1000000000000); Some (12 + d)).
Proof. intros. cbn [digits10_rec]. by rewrite !(proj2 (Z.ltb_ge v _)) by lia. Qed.

Lemma digits10_spec v :
  in_u 64 v → ∃ n, digits10 v = Some (Z.of_nat n) ∧ digit_count v n ∧ (n ≤ 20)%nat.
Proof.
  unfold in_u. intros Hv. destruct (decide (v < 1000000000000)) as [Hs|Hs].
  - destruct (digits10_rec_small 1 v) as (n & Hn & Hc); [lia|].
    exists n. split_and!; [done..|]. destruct (decide (n ≤ 20)%nat); [done|exfalso].
    destruct Hc as (_ & _ & [->|Hc]); [lia|].
    pose proof (Z.pow_le_mono_r 10 20 (Z.of_nat n - 1)). lia.
  - pose proof (Z.div_mod v 1000000000000). pose proof (Z.mod_pos_bound v 1000000000000).
    destruct (digits10_rec_small 0 (v / 1000000000000)) as (n & Hn & Hpos & Hlt & Hge); [lia|].
    assert (digit_count v (12 + n)) as Hc.
    { split_and!; [lia|..].
      - rewrite Nat2Z.inj_add, Z.pow_add_r by lia. change (10 ^ Z.of_nat 12) with 1000000000000. nia.
      - right. replace (Z.of_nat (12 + n) - 1) with (12 + (Z.of_nat n - 1)) by lia.
        rewrite Z.pow_add_r by lia. change (10 ^ 12) with 1000000000000.
        destruct Hge as [->|Hge]; [simpl; lia|nia]. }
    exists (12 + n)%nat. split_and!; [|done|].
    + unfold digits10. rewrite digits10_rec_big, Hn by lia. cbn [mbind option_bind].
      f_equal. lia.
    + destruct (decide (12 + n ≤ 20)%nat); [done|exfalso].
      destruct Hc as (_ & _ & [Hc|Hc]); [lia|].
      pose proof (Z.pow_le_mono_r 10 20 (Z.of_nat (12 + n) - 1)). lia.
Qed.

(** ** Printing *)

Lemma digits_table_spec n :
  0 ≤ n < 100 →
  peek digits_table (n * 2) = Some (48 + n / 10) ∧
  peek digits_table (n * 2 + 1) = Some (48 + n mod 10).
Proof.
  intros Hn.
  assert (Forall (λ n, peek digits_table (n * 2) = Some (48 + n / 10) ∧
    peek digits_table (n * 2 + 1) = Some (48 + n mod 10)) (seqZ 0 100)) as H.
  { apply (bool_decide_unpack _). by vm_compute. }
  rewrite Forall_forall in H. apply H, elem_of_seqZ. lia.
Qed.

(** The digit pairs written from the right. *)
Definition ll2string_digits (fuel : nat) (dst : list Z) (next value : Z) : option (list Z) :=
  '(dst, next, value) ← ll2string_loop fuel dst next value;
  if value <? 10 then poke dst next (48 + value)
  else
    let i := value * 2 in
    c1 ← peek digits_table (i + 1);
    dst ← poke dst next c1;
    c0 ← peek digits_table i;
    poke dst (u32 (next - 1)) c0.

(** Two stores, at [next] and [next - 1], replace the last two bytes of [b]. *)
Lemma poke_pair a b x y c next d0 d1 :
  next = zlen a + zlen b + 1 → next < 2 ^ 32 →
  (dst ← poke (a ++ b ++ x :: y :: c) next d1; poke dst (u32 (next - 1)) d0) =
    Some (a ++ b ++ d0 :: d1 :: c).
Proof.
  intros -> Hn.
  replace (a ++ b ++ x :: y :: c) with ((a ++ b ++ [x]) ++ y :: c)
    by (by rewrite <-!(assoc_L (++))).
  rewrite poke_app by (rewrite !length_app; simpl; lia). cbn [mbind option_bind].
  rewrite wrap_u_small by (unfold in_u; lia).
  replace ((a ++ b ++ [x]) ++ d1 :: c) with ((a ++ b) ++ x :: d1 :: c)
    by (by rewrite <-!(assoc_L (++))).
  rewrite poke_app by (rewrite !length_app; simpl; lia).
  by rewrite <-(assoc_L (++)).
Qed.

Lemma digit_count_hundreds v n :
  100 ≤ v → digit_count v (S (S n)) → digit_count (v / 100) n.
Proof.
  intros Hv (_ & Hlt & Hge).
  pose proof (Z.div_mod v 100). pose proof (Z.mod_pos_bound v 100).
  rewrite 2!pow_10_S in Hlt. destruct n as [|n]; [simpl in Hlt; lia|].
  split_and!; [lia|nia|]. right. destruct Hge as [|Hge]; [lia|].
  replace (Z.of_nat (S (S (S n))) - 1) with (Z.of_nat (S (S n))) in Hge by lia.
  replace (Z.of_nat (S n) - 1) with (Z.of_nat n) by lia. rewrite 2!pow_10_S in Hge. nia.
Qed.

Lemma ndigits_pair n v :
  0 ≤ v → ndigits (S (S n)) v =
    ndigits n (v / 100) ++ [48 + v mod 100 / 10; 48 + v mod 100 mod 10].
Proof.
  intros Hv. cbn [ndigits]. rewrite <-(assoc_L (++)). simpl.
  rewrite Z.div_div by lia. change (10 * 10) with 100.
  replace (v mod 100 / 10) with (v / 10 mod 10);
    [replace (v mod 100 mod 10) with (v mod 10); [done|]|];
    Z.to_euclidean_division_equations; lia.
Qed.

Lemma ll2string_digits_spec fuel a b c next value n :
  0 ≤ value → digit_count value n → length b = n → (n ≤ 2 * fuel)%nat →
  next = zlen a + zlen b - 1 → zlen a + zlen b < 2 ^ 32 →
  ll2string_digits fuel (a ++ b ++ c) next value = Some (a ++ ndigits n value ++ c).
Proof.
  revert b c next value n.
  induction fuel as [|fuel IH]; intros b c next value n Hv Hn Hb Hf -> Hlen;
    pose proof Hn as (Hpos & Hlt & Hge); [lia|].
  unfold ll2string_digits. cbn [ll2string_loop].
  destruct n as [|[|n]]; [lia|..].
  - (* one digit *)
    simpl in Hlt. rewrite (proj2 (Z.leb_gt 100 value)) by lia. cbn [mbind option_bind].
    rewrite (proj2 (Z.ltb_lt value 10)) by lia.
    destruct b as [|x []]; try done. cbn [app length]. rewrite (poke_app a) by lia.
    simpl. by rewrite Z.mod_small by lia.
  - (* at least two digits: the last two bytes of [b] *)
    destruct (split_last_two b n Hb) as (b' & x & y & -> & Hb').
    rewrite length_app in *. simpl length in *. rewrite <-(assoc_L (++) b').
    rewrite ndigits_pair by done. cbn [app].
    pose proof (poke_pair a b' x y c (zlen a + Z.of_nat (length b' + 2) - 1)
      (48 + value mod 100 / 10) (48 + value mod 100 mod 10)
      ltac:(lia) ltac:(lia)) as Hpair.
    destruct (digits_table_spec (value mod 100)) as [Ht0 Ht1];
      [apply Z.mod_pos_bound; lia|].
    destruct (poke (a ++ b' ++ x :: y :: c) _ _) as [dst1|] eqn:E1; [|done].
    cbn [mbind option_bind] in Hpair.
    destruct (Z.leb_spec 100 value).
    + rewrite Ht1. cbn [mbind option_bind]. rewrite E1. cbn [mbind option_bind].
      rewrite Ht0. cbn [mbind option_bind]. rewrite Hpair. cbn [mbind option_bind].
      rewrite (wrap_u_small 32) by (unfold in_u; pose proof (digit_count_hundreds value n);
        destruct n; [simpl in *; lia|lia]).
      rewrite <-(assoc_L (++)). apply IH; try lia.
      * apply Z.div_pos; lia.
      * by apply digit_count_hundreds.
    + assert (n = 0%nat) as ->.
      { destruct n; [done|]. exfalso. destruct Hge as [|Hge]; [lia|].
        pose proof (Z.pow_le_mono_r 10 2 (Z.of_nat (S (S (S n))) - 1)). lia. }
      destruct b'; [|done].
      assert (10 ≤ value) by (destruct Hge as [|Hge]; [lia|]; simpl in Hge; lia).
      rewrite (Z.mod_small value 100) in * by lia. cbn [mbind option_bind].
      rewrite (proj2 (Z.ltb_ge value 10)) by lia.
      rewrite Ht1. cbn [mbind option_bind]. rewrite E1. cbn [mbind option_bind].
      rewrite Ht0. cbn [mbind option_bind]. exact Hpair.
Qed.

(** The magnitude and sign [ll2string] works with. *)
Lemma ll2string_unfold dst dstlen v :
  in_s 64 v →
  ll2string dst dstlen v =
    (d ← digits10 (Z.abs v);
     let length := u32 (d + b2z (v <? 0)) in
     if dstlen <=? length then Some (dst, 0)
     else
       dst ← poke dst length 0;
       dst ← ll2string_digits 11 dst (u32 (length - 1)) (Z.abs v);
       dst ← (if v <? 0 then poke dst 0 45 else Some dst);
       Some (dst, length)).
Proof.
  intros Hv. unfold ll2string, b2z, in_s in *.
  assert ((if v <? 0 then (if v =? LLONG_MIN then u64 (LLONG_MAX + 1) else - v, 1) else (v, 0))
          = (Z.abs v, if v <? 0 then 1 else 0)) as ->.
  { destruct (Z.ltb_spec v 0); [|f_equal; lia]. f_equal.
    destruct (Z.eqb_spec v LLONG_MIN) as [->|]; [done|lia]. }
  destruct (digits10 (Z.abs v)) as [d|]; [|done]. cbn [mbind option_bind].
  destruct (dstlen <=? _); [done|]. destruct (poke dst _ _) as [dst1|]; [|done].
  cbn [mbind option_bind]. unfold ll2string_digits.
  destruct (ll2string_loop _ _ _ _) as [[[dst2 next] value]|]; [|done].
  cbn [mbind option_bind]. destruct (v <? 0); done.
Qed.

Lemma ll2string_spec dst dstlen v :
  in_s 64 v → dstlen ≤ zlen dst →
  ∃ s, canonical s v ∧ zlen s ≤ 20 ∧
    ll2string dst dstlen v =
      if dstlen <=? zlen s then Some (dst, 0)
      else Some (s ++ 0 :: drop (S (length s)) dst, zlen s).
Proof.
  intros Hv Hdst. rewrite ll2string_unfold by done. unfold in_s in Hv.
  destruct (digits10_spec (Z.abs v)) as (n & -> & Hn & Hn20); [unfold in_u; lia|].
  cbn [mbind option_bind].
  pose proof (canonical_u_ndigits (Z.abs v) n ltac:(lia) Hn) as Hc.
  set (neg := if v <? 0 then [45] else []).
  assert (zlen neg = b2z (v <? 0)) as Hneg by (unfold neg; by destruct (v <? 0)).
  assert (0 ≤ b2z (v <? 0) ≤ 1) by (unfold b2z; destruct (v <? 0); lia).
  assert (length (neg ++ ndigits n (Z.abs v)) = length neg + n)%nat as Hl
    by (by rewrite length_app, ndigits_length).
  exists (neg ++ ndigits n (Z.abs v)). rewrite Hl, Nat2Z.inj_add, Hneg. split_and!.
  - unfold canonical, neg. destruct (Z.ltb_spec v 0).
    + eexists. split; [done|]. by replace (- v) with (Z.abs v) by lia.
    + by replace v with (Z.abs v) at 2 by lia.
  - unfold canonical in *. destruct (Z.ltb_spec v 0); simpl in *; [|lia].
    (* a negative value has at most 19 digits *)
    destruct (decide (n ≤ 19)%nat); [lia|]. exfalso.
    destruct Hn as (_ & _ & [->|Hn]); [lia|].
    pose proof (Z.pow_le_mono_r 10 19 (Z.of_nat n - 1)). lia.
  - rewrite (wrap_u_small 32 (Z.of_nat n + _)) by (unfold in_u; lia). cbv zeta.
    rewrite (Z.add_comm (Z.of_nat n)).
    destruct (Z.leb_spec dstlen (b2z (v <? 0) + Z.of_nat n)); [done|].
    destruct Hn as (Hn0 & Hn1). rewrite <-Hneg.
    (* the buffer: sign, digits, terminator, rest *)
    rewrite <-(take_drop (length neg) dst) at 1.
    set (d1 := drop (length neg) dst). rewrite <-(take_drop n d1).
    assert (∃ z, drop n d1 = z :: drop (S (length neg + n)) dst) as [z ->].
    { destruct (lookup_lt_is_Some_2 dst (length neg + n)) as [z Hz]; [lia|]. exists z.
      unfold d1. rewrite drop_drop. by apply drop_S. }
    assert (length (take (length neg) dst) = length neg) as Ht1 by (rewrite length_take; lia).
    assert (length (take n d1) = n) as Ht2
      by (unfold d1; rewrite length_take, length_drop; lia).
    rewrite (assoc_L (++)), poke_app by (rewrite length_app; lia).
    rewrite <-(assoc_L (++)). cbn [mbind option_bind].
    rewrite wrap_u_small by (unfold in_u; lia).
    rewrite (ll2string_digits_spec _ _ _ _ _ _ n); [|lia|done|done|lia|lia|lia].
    cbn [mbind option_bind]. unfold neg in *. destruct (v <? 0); [|done].
    destruct dst as [|x dst]; [simpl in *; lia|]. cbn [length take app]. rewrite take_0.
    cbn [app]. by rewrite poke_head.
Qed.

(** ** Parsing *)

Lemma dec_from_cons_ge v c rest :
  0 ≤ v → Forall is_digit (c :: rest) → v * 10 + (c - 48) ≤ dec_from v (c :: rest).
Proof.
  intros Hv [Hc Hd]%Forall_cons. apply (dec_from_mono (dec_step v c)); [|done].
  unfold dec_step, is_digit in *. lia.
Qed.

Lemma string2ll_loop_spec fuel s pre rest v :
  s = pre ++ rest → (length rest < fuel)%nat → 0 ≤ v ≤ ULLONG_MAX →
  ∃ r, string2ll_loop fuel s (zlen s) (zlen pre) v = Some r ∧
    (∀ p w, r = Some (p, w) → zlen s ≤ p →
       Forall is_digit rest ∧ w = dec_from v rest ∧ w ≤ ULLONG_MAX) ∧
    (Forall is_digit rest → dec_from v rest ≤ ULLONG_MAX →
       r = Some (zlen s, dec_from v rest)).
Proof.
  revert pre rest v. induction fuel as [|fuel IH]; intros pre rest v Hs Hf Hv; [lia|].
  pose proof (f_equal length Hs) as Hlen. rewrite length_app in Hlen.
  cbn [string2ll_loop]. destruct rest as [|c rest]; simpl in Hlen.
  { rewrite (proj2 (Z.ltb_ge _ _)) by lia. eexists. split; [done|]. split.
    - intros p w [= <- <-] _. split_and!; [constructor|done|lia].
    - intros _ _. do 2 f_equal. lia. }
  rewrite (proj2 (Z.ltb_lt _ _)) by lia. rewrite Hs, peek_app, <-Hs by done.
  cbn [mbind option_bind].
  destruct ((48 <=? c) && (c <=? 57)) eqn:Ec.
  2:{ eexists. split; [done|]. split.
      - intros p w [= <- <-] Hp. lia.
      - intros [Hc _]%Forall_cons. unfold is_digit in Hc. lia. }
  assert (48 ≤ c ≤ 57) as Hc by lia. unfold ULLONG_MAX in *.
  pose proof (dec_from_cons_ge v c rest ltac:(lia)) as Hge.
  change ((2 ^ 64 - 1) / 10) with 1844674407370955161.
  destruct (Z.ltb_spec 1844674407370955161 v).
  { eexists. split; [done|]. split; [done|]. intros Hd%Hge ?. lia. }
  rewrite (wrap_u_small 64 (v * 10)) by (unfold in_u; lia).
  destruct (Z.ltb_spec (2 ^ 64 - 1 - (c - 48)) (v * 10)).
  { eexists. split; [done|]. split; [done|]. intros Hd%Hge ?. lia. }
  rewrite wrap_u_small by (unfold in_u; lia).
  destruct (IH (pre ++ [c]) rest (v * 10 + (c - 48))) as (r & Hr & Hr1 & Hr2).
  { by rewrite <-(assoc_L (++)). } { simpl in Hf. lia. } { lia. }
  rewrite length_app, Nat2Z.inj_add in Hr. exists r. split_and!; [done|..].
  - intros p w Hp Hlp. destruct (Hr1 p w Hp Hlp) as (? & -> & ?).
    split_and!; [by constructor|done|done].
  - intros [_ Hd]%Forall_cons Hle. by apply Hr2.
Qed.

(** The unsigned part: a first digit from 1 to 9, then the loop. *)
Lemma string2ll_unsigned fuel s pre c rest :
  s = pre ++ c :: rest → 49 ≤ c ≤ 57 → (length rest < fuel)%nat →
  ∃ r, string2ll_loop fuel s (zlen s) (zlen pre + 1) (c - 48) = Some r ∧
    ∀ w, (∃ p, r = Some (p, w) ∧ zlen s ≤ p) ↔
         canonical_u (c :: rest) w ∧ w ≤ ULLONG_MAX.
Proof.
  intros Hs Hc Hf.
  destruct (string2ll_loop_spec fuel s (pre ++ [c]) rest (c - 48)) as (r & Hr & Hr1 & Hr2).
  { by rewrite <-(assoc_L (++)). } { done. } { unfold ULLONG_MAX. lia. }
  rewrite length_app, Nat2Z.inj_add in Hr. exists r. split; [done|].
  assert (decimal_value (c :: rest) = dec_from (c - 48) rest) as Hval by done.
  intros w. split.
  - intros (p & Hp & Hlp). destruct (Hr1 p w Hp Hlp) as (Hd & -> & Hle). split; [|done].
    split_and!; [done| |simpl; intros [= ->]; lia|done].
    constructor; [|done]. unfold is_digit. lia.
  - intros ((_ & [_ Hd]%Forall_cons & _ & <-) & Hle). rewrite Hval in *.
    exists (zlen s). split; [by apply Hr2|lia].
Qed.

Lemma canonical_u_nil v : ¬ canonical_u [] v.
Proof. by intros [? _]. Qed.

Lemma canonical_u_head c s v : canonical_u (c :: s) v → is_digit c.
Proof. by intros (_ & [? _]%Forall_cons & _). Qed.

Lemma canonical_u_zero s v : canonical_u (48 :: s) v → s = [] ∧ v = 0.
Proof. intros (_ & _ & Hz & <-). specialize (Hz eq_refl). by simplify_eq. Qed.

Lemma canonical_u_nonneg s v : canonical_u s v → 0 ≤ v.
Proof. intros (_ & Hd & _ & <-). by apply decimal_value_bound. Qed.

Lemma canonical_u_first c s v :
  canonical_u (c :: s) v → 0 < v → 49 ≤ c ≤ 57.
Proof.
  intros Hc Hv. pose proof (canonical_u_head _ _ _ Hc) as Hd. unfold is_digit in Hd.
  destruct (decide (c = 48)) as [->|]; [|lia].
  apply canonical_u_zero in Hc as [_ ->]. lia.
Qed.

(** [string2ll] after the optional sign. *)
Definition string2ll_tail (negative : bool) (s : list Z) (slen : Z) : option (option Z) :=
  let plen := b2z negative in
  c ← peek s plen;
  if (49 <=? c) && (c <=? 57) then
    r ← string2ll_loop (S (Z.to_nat slen)) s slen (plen + 1) (c - 48);
    match r with
    | None => Some None
    | Some (plen, v) =>
        if plen <? slen then Some None
        else if negative then
          if u64 (- (LLONG_MIN + 1)) + 1 <? v then Some None
          else Some (Some (s64 (u64 (- v))))
        else if LLONG_MAX <? v then Some None
        else Some (Some v)
    end
  else Some None.

Lemma string2ll_tail_spec (negative : bool) pre c b s :
  pre = (if negative then [45] else []) → s = pre ++ c :: b →
  ∃ r, string2ll_tail negative s (zlen s) = Some r ∧
    ∀ v, r = Some v ↔ ∃ w, canonical_u (c :: b) w ∧ 0 < w ∧
      v = (if negative then - w else w) ∧ in_s 64 v.
Proof.
  intros Hpre Hs. assert (zlen pre = b2z negative) as Hp by (subst; by destruct negative).
  pose proof (f_equal length Hs) as Hlen. rewrite length_app in Hlen. simpl in Hlen.
  unfold string2ll_tail. rewrite <-Hp.
  assert (peek s (zlen pre) = Some c) as -> by (rewrite Hs; by apply peek_app).
  cbn [mbind option_bind]. destruct ((49 <=? c) && (c <=? 57)) eqn:Ec.
  2:{ eexists. split; [done|]. intros v. split; [done|]. intros (w & Hc & Hw & _).
      apply canonical_u_first in Hc; [lia|done]. }
  destruct (string2ll_unsigned (S (Z.to_nat (zlen s))) s pre c b) as (r & -> & Hr);
    [done|lia|lia|]. cbn [mbind option_bind].
  assert (∀ w, canonical_u (c :: b) w → 0 < w) as Hpos.
  { intros w Hw. pose proof (canonical_u_nonneg _ _ Hw).
    destruct (canonical_u_count _ _ Hw) as (_ & _ & [Hl|Hl]).
    - destruct b; [|done]. destruct Hw as (_ & _ & _ & <-). unfold decimal_value, dec_from,
        dec_step. simpl. lia.
    - pose proof (Z.pow_pos_nonneg 10 (zlen (c :: b) - 1)). simpl length in *. lia. }
  assert (∀ w, canonical_u (c :: b) w → in_u 64 w → ∃ p, r = Some (p, w) ∧ zlen s ≤ p)
    as Hback.
  { intros w Hw Hle. apply Hr. split; [done|]. unfold ULLONG_MAX, in_u in *. lia. }
  unfold in_s, LLONG_MAX, LLONG_MIN. change (u64 (- (- 2 ^ 63 + 1)) + 1) with (2 ^ 63).
  destruct r as [[p w]|].
  2:{ eexists. split; [done|]. intros v. split; [done|]. intros (w & Hc & Hw & -> & Hv).
      destruct (Hback w Hc) as (? & ? & _); try done. unfold in_u. destruct negative; lia. }
  destruct (Z.ltb_spec p (zlen s)).
  { eexists. split; [done|]. intros v. split; [done|]. intros (w' & Hc & Hw & -> & Hv).
    destruct (Hback w' Hc) as (? & [= -> ->] & ?); try lia.
    unfold in_u. destruct negative; lia. }
  assert (canonical_u (c :: b) w ∧ w ≤ ULLONG_MAX) as [Hc Hle] by (apply Hr; eauto).
  pose proof (Hpos w Hc) as Hw0. unfold ULLONG_MAX in Hle.
  assert (∀ w', canonical_u (c :: b) w' → w' = w) as Huniq.
  { intros w' (_ & _ & _ & <-). by destruct Hc as (_ & _ & _ & <-). }
  destruct negative.
  - destruct (Z.ltb_spec (2 ^ 63) w); (eexists; split; [done|]; intros v; split).
    + done.
    + intros (w' & ->%Huniq & _ & -> & Hv). lia.
    + intros [= <-]. exists w. rewrite wrap_s_wrap_u, wrap_s_small by (unfold in_s; lia).
      split_and!; try done; lia.
    + intros (w' & ->%Huniq & _ & -> & Hv). do 2 f_equal.
      rewrite wrap_s_wrap_u, wrap_s_small by (unfold in_s; lia). done.
  - destruct (Z.ltb_spec (2 ^ 63 - 1) w); (eexists; split; [done|]; intros v; split).
    + done.
    + intros (w' & ->%Huniq & _ & -> & Hv). lia.
    + intros [= <-]. exists w. split_and!; try done; lia.
    + by intros (w' & ->%Huniq & _ & -> & Hv).
Qed.

(** [string2ll] never reads outside the string, and accepts exactly the canonical
    notations of the 64 bit integers. *)
Lemma string2ll_spec s :
  ∃ r, string2ll s (zlen s) = Some r ∧ ∀ v, r = Some v ↔ canonical s v ∧ in_s 64 v.
Proof.
  unfold string2ll, canonical. destruct s as [|c0 s].
  { exists None. split; [done|]. intros v. split; [done|].
    intros [Hc _]. destruct (v <? 0); [by destruct Hc as (? & ? & _)|].
    by apply canonical_u_nil in Hc. }
  rewrite (proj2 (Z.eqb_neq _ _)) by (simpl; lia). rewrite peek_head. cbn [mbind option_bind].
  destruct ((zlen (c0 :: s) =? 1) && (c0 =? 48)) eqn:E0.
  { apply andb_true_iff in E0 as [El%Z.eqb_eq ->%Z.eqb_eq].
    destruct s; [clear El|simpl in El; lia].
    exists (Some 0). split; [done|]. intros v. split.
    - intros [= <-]. split; [|done]. split_and!; try done. by repeat constructor.
    - intros [Hc Hv]. destruct (Z.ltb_spec v 0); [by destruct Hc as (? & ? & _)|].
      by apply canonical_u_zero in Hc as [_ ->]. }
  destruct (Z.eqb_spec c0 45) as [->|Hneg]; cbn [andb b2z].
  - (* negative *)
    destruct s as [|c s].
    { exists None. split; [done|]. intros v. split; [done|]. intros [Hc _].
      destruct (v <? 0).
      - destruct Hc as (s' & [= <-] & Hc). by apply canonical_u_nil in Hc.
      - apply canonical_u_head in Hc. unfold is_digit in Hc. lia. }
    rewrite (proj2 (Z.eqb_neq _ _)) by (simpl; lia).
    destruct (string2ll_tail_spec true [45] c s (45 :: c :: s)) as (r & Hr & Hv); [done..|].
    exists r. split; [exact Hr|]. intros v. rewrite Hv. split.
    + intros (w & Hc & Hw & -> & ?). split; [|done]. rewrite (proj2 (Z.ltb_lt _ _)) by lia.
      eexists. split; [done|]. by rewrite Z.opp_involutive.
    + intros [Hc Hi]. destruct (Z.ltb_spec v 0).
      * destruct Hc as (s' & [= <-] & Hc). exists (- v). split_and!; try done; lia.
      * apply canonical_u_head in Hc. unfold is_digit in Hc. lia.
  - (* no sign *)
    destruct (string2ll_tail_spec false [] c0 s (c0 :: s)) as (r & Hr & Hv); [done..|].
    exists r. split; [exact Hr|]. intros v. rewrite Hv. split.
    + intros (w & Hc & Hw & -> & ?). split; [|done]. by rewrite (proj2 (Z.ltb_ge _ _)) by lia.
    + intros [Hc Hi]. destruct (Z.ltb_spec v 0); [by destruct Hc as (? & [= ->] & _)|].
      exists v. split_and!; try done. destruct (decide (v = 0)) as [->|]; [|lia]. exfalso.
      destruct (canonical_u_count _ _ Hc) as (_ & _ & [Hl|Hl]).
      * destruct s; [|done]. destruct Hc as (_ & [Hd _]%Forall_cons & _ & Hval).
        unfold decimal_value, dec_from, dec_step in Hval. simpl in Hval. lia.
      * pose proof (Z.pow_pos_nonneg 10 (zlen (c0 :: s) - 1)). simpl length in *. lia.
Qed.

(** ** Round trips *)

Lemma sdigits10_canonical s v :
  in_s 64 v → canonical s v → sdigits10 v = Some (zlen s).
Proof.
  unfold in_s, canonical, sdigits10. intros Hv Hc.
  destruct (Z.ltb_spec v 0).
  - destruct Hc as (s' & -> & Hc).
    assert ((if v =? LLONG_MIN then u64 (LLONG_MAX + 1) else u64 (- v)) = - v) as ->.
    { destruct (Z.eqb_spec v LLONG_MIN) as [->|]; [done|].
      apply wrap_u_small. unfold in_u. lia. }
    destruct (digits10_spec (- v)) as (n & -> & Hn & _); [unfold in_u; lia|].
    simpl. rewrite (digit_count_unique (- v) n (length s')); [f_equal; lia|lia|done|].
    by apply canonical_u_count.
  - destruct (digits10_spec v) as (n & -> & Hn & _); [unfold in_u; lia|].
    rewrite (digit_count_unique v n (length s)); [done|lia|done|]. by apply canonical_u_count.
Qed.

Lemma canonical_unique s s' v : canonical s v → canonical s' v → s = s'.
Proof.
  unfold canonical. destruct (Z.ltb_spec v 0).
  - intros (t & -> & Ht) (t' & -> & Ht'). f_equal.
    rewrite (canonical_u_unique t' (- v) (length t)); [|lia|by apply canonical_u_count|done].
    apply canonical_u_unique; [lia|by apply canonical_u_count|done].
  - intros Hs Hs'. rewrite (canonical_u_unique s' v (length s)); [|lia|by apply canonical_u_count|done].
    apply canonical_u_unique; [lia|by apply canonical_u_count|done].
Qed.

(** C3: For every 64 bit integer [v], [ll2string] either returns 0 and leaves the buffer
    alone, exactly when the [sdigits10 v] characters and the terminator do not fit in
    [dstlen] bytes, or writes a terminated string of [sdigits10 v] characters, changes
    nothing after it, and [string2ll] (and [string2l]) read [v] back from that string.
    At most 20 characters are needed. *)
Theorem ll2string_roundtrip dst dstlen v :
  in_s 64 v → dstlen ≤ zlen dst →
  ∃ n, sdigits10 v = Some n ∧ 0 < n ≤ 20 ∧
    if dstlen <=? n then ll2string dst dstlen v = Some (dst, 0)
    else ∃ s, zlen s = n ∧
      ll2string dst dstlen v = Some (s ++ 0 :: drop (S (length s)) dst, n) ∧
      string2ll s n = Some (Some v) ∧ string2l s n = Some (Some v).
Proof.
  intros Hv Hdst. destruct (ll2string_spec dst dstlen v Hv Hdst) as (s & Hc & Hl & Heq).
  exists (zlen s). split; [by apply sdigits10_canonical|]. split.
  { unfold canonical in Hc. destruct (v <? 0).
    - destruct Hc as (s' & -> & _). simpl. simpl in Hl. lia.
    - destruct Hc as [Hne _]. destruct s; [done|]. simpl. simpl in Hl. lia. }
  rewrite Heq. destruct (dstlen <=? zlen s); [done|]. exists s.
  destruct (string2ll_spec s) as (r & Hr & Hiff).
  assert (r = Some v) as -> by (by apply Hiff). split_and!; try done.
  unfold string2l. rewrite Hr. cbn [mbind option_bind]. unfold in_s in Hv.
  rewrite (proj2 (orb_false_iff _ _)); [done|].
  unfold LONG_MIN, LONG_MAX. split; apply Z.ltb_ge; lia.
Qed.

Lemma ll2string_roundtrip_witness :
  in_s 64 (-1234567) ∧ 21 ≤ zlen (replicate 21 7) ∧
  ∃ n, sdigits10 (-1234567) = Some n ∧ 0 < n ≤ 20 ∧
    if 21 <=? n then ll2string (replicate 21 7) 21 (-1234567) = Some (replicate 21 7, 0)
    else ∃ s, zlen s = n ∧
      ll2string (replicate 21 7) 21 (-1234567) =
        Some (s ++ 0 :: drop (S (length s)) (replicate 21 7), n) ∧
      string2ll s n = Some (Some (-1234567)) ∧ string2l s n = Some (Some (-1234567)).
Proof.
  assert (in_s 64 (-1234567)) as H1 by (by vm_compute).
  assert (21 ≤ zlen (replicate 21 7)) as H2 by (by vm_compute).
  split; [exact H1|]. split; [exact H2|].
  exact (ll2string_roundtrip (replicate 21 7) 21 (-1234567) H1 H2).
Defined.

(** [string2ll] terminates without reading outside any string, and it is strict: when
    it accepts a string, the value is a 64 bit integer and printing it with
    [ll2string] in a large enough buffer gives back the very same characters, so no two
    strings are read as the same integer. *)
Theorem string2ll_strict s :
  ∃ r, string2ll s (zlen s) = Some r ∧
    ∀ v, r = Some v →
      in_s 64 v ∧
      ∀ dst dstlen, zlen s < dstlen → dstlen ≤ zlen dst →
        ll2string dst dstlen v = Some (s ++ 0 :: drop (S (length s)) dst, zlen s).
Proof.
  destruct (string2ll_spec s) as (r & Hr & Hiff). exists r. split; [done|].
  intros v [Hc Hv]%Hiff. split; [done|]. intros dst dstlen Hlt Hle.
  destruct (ll2string_spec dst dstlen v Hv Hle) as (s' & Hc' & _ & ->).
  rewrite (canonical_unique s' s v) by done.
  by rewrite (proj2 (Z.leb_gt dstlen (zlen s))) by lia.
Qed.
