(* ===== verification/Dict.v ===== *)
(** Hash tables with incremental rehashing (src/dict.c, src/dict.h).

    A bucket is the list of the entries of its chain, head first; a table is the
    list of its buckets, [None] for the NULL table.  The hash function and the key
    comparison are the [dictType] callbacks, so they are parameters; the theorems
    assume that the comparison decides equality of keys and that the hash is a
    64 bit unsigned integer.  An entry occupies at least 24 bytes of address space,
    so the [used] counters cannot wrap and are plain integers.  [None] as the result
    of an operation is a failed [assert], an access outside a table or a NULL
    dereference. *)

From S2P Require Import Prelude.

Record dictType (K : Type) := {
  hashFunction : K → Z;
  keyCompare : K → K → bool;
}.
Arguments hashFunction {K} _ _.
Arguments keyCompare {K} _ _ _.

(** What the dictionary requires of its type, as documented in dict.h's callers. *)
Class DictTypeOk {K} (ty : dictType K) : Prop := {
  hash_range : ∀ k, 0 ≤ hashFunction ty k < 2 ^ 64;
  compare_spec : ∀ k1 k2, keyCompare ty k1 k2 = true ↔ k1 = k2;
}.

Section Dict.
Context {K V : Type} (ty : dictType K).


Record dictht := mkHt {
  table : option (list (list (K * V)));
  htsize : Z;
  sizemask : Z;
  used : Z;
}.

Record dict := mkDict {
  ht0 : dictht;
  ht1 : dictht;
  rehashidx : Z;
  iterators : Z;
}.

Inductive dict_status := DICT_OK | DICT_ERR.

Definition DICT_HT_INITIAL_SIZE : Z := 4.
Definition DICT_LONG_MAX : Z := 2 ^ 63 - 1.
Definition dict_force_resize_ratio : Z := 5.

(** [_dictReset] *)
Definition dictReset : dictht := mkHt None 0 0 0.

(** [dictCreate] and [_dictInit] *)
Definition dictCreate : dict := mkDict dictReset dictReset (-1) 0.

Definition dictIsRehashing (d : dict) : bool := negb (rehashidx d =? -1).

Definition dictSize (d : dict) : Z := used (ht0 d) + used (ht1 d).

Definition dictSlots (d : dict) : Z := htsize (ht0 d) + htsize (ht1 d).

Definition set_ht0 (t : dictht) (d : dict) : dict :=
  mkDict t (ht1 d) (rehashidx d) (iterators d).
Definition set_ht1 (t : dictht) (d : dict) : dict :=
  mkDict (ht0 d) t (rehashidx d) (iterators d).
Definition set_rehashidx (i : Z) (d : dict) : dict :=
  mkDict (ht0 d) (ht1 d) i (iterators d).

(** [d->ht[t]] *)
Definition ht (t : bool) (d : dict) : dictht := if t then ht1 d else ht0 d.
Definition set_ht (t : bool) (x : dictht) (d : dict) : dict :=
  if t then set_ht1 x d else set_ht0 x d.

(** [ht->table[i]] and [ht->table[i] = b] *)
Definition get_bucket (t : dictht) (i : Z) : option (list (K * V)) :=
  tbl ← table t;
  if decide (0 ≤ i) then tbl !! Z.to_nat i else None.

Definition put_bucket (t : dictht) (i : Z) (b : list (K * V)) : option dictht :=
  tbl ← table t;
  if decide (0 ≤ i < zlen tbl)
  then Some (mkHt (Some (<[Z.to_nat i := b]> tbl)) (htsize t) (sizemask t) (used t))
  else None.

Definition add_used (n : Z) (t : dictht) : dictht :=
  mkHt (table t) (htsize t) (sizemask t) (used t + n).

(** [_dictNextPower]; the loop doubles from 4 to at most 2^63. *)
Fixpoint dictNextPower_loop (fuel : nat) (i size : Z) : option Z :=
  match fuel with
  | O => None
  | S fuel => if size <=? i then Some i else dictNextPower_loop fuel (i * 2) size
  end.

Definition dictNextPower (size : Z) : option Z :=
  if DICT_LONG_MAX <=? size then Some (DICT_LONG_MAX + 1)
  else dictNextPower_loop 63 DICT_HT_INITIAL_SIZE size.

Definition dictExpand (d : dict) (size : Z) : option (dict * dict_status) :=
  if dictIsRehashing d || (size <? used (ht0 d)) then Some (d, DICT_ERR)
  else
    realsize ← dictNextPower size;
    if realsize =? htsize (ht0 d) then Some (d, DICT_ERR)
    else
      let n := mkHt (Some (replicate (Z.to_nat realsize) [])) realsize (realsize - 1) 0 in
      match table (ht0 d) with
      | None => Some (set_ht0 n d, DICT_OK)
      | Some _ => Some (set_rehashidx 0 (set_ht1 n d), DICT_OK)
      end.

Definition dictResize (dict_can_resize : bool) (d : dict) : option (dict * dict_status) :=
  if negb dict_can_resize || dictIsRehashing d then Some (d, DICT_ERR)
  else
    let minimal := s32 (used (ht0 d)) in
    let minimal := if minimal <? DICT_HT_INITIAL_SIZE then DICT_HT_INITIAL_SIZE
                   else minimal in
    dictExpand d minimal.

(** The inner loop of [dictRehash] over empty buckets: the index reached, the visits
    left, and whether the function returns because there are none. *)
Fixpoint dictRehash_skip (fuel : nat) (t : dictht) (idx empty_visits : Z)
    : option (Z * Z * bool) :=
  match fuel with
  | O => None
  | S fuel =>
      b ← get_bucket t idx;
      match b with
      | [] =>
          let idx := idx + 1 in
          let empty_visits := empty_visits - 1 in
          if empty_visits =? 0 then Some (idx, empty_visits, true)
          else dictRehash_skip fuel t idx empty_visits
      | _ :: _ => Some (idx, empty_visits, false)
      end
  end.

(** The loop that moves the chain [de] to the new table. *)
Fixpoint dictRehash_move (de : list (K * V)) (d : dict) : option dict :=
  match de with
  | [] => Some d
  | e :: nextde =>
      let h := Z.land (hashFunction ty e.1) (sizemask (ht1 d)) in
      b ← get_bucket (ht1 d) h;
      t1 ← put_bucket (ht1 d) h (e :: b);
      dictRehash_move nextde
        (set_ht1 (add_used 1 t1) (set_ht0 (add_used (-1) (ht0 d)) d))
  end.

(** [while(n-- && d->ht[0].used != 0)]; [true] when the function returned inside. *)
Fixpoint dictRehash_loop (n : nat) (d : dict) (empty_visits : Z) : option (dict * bool) :=
  match n with
  | O => Some (d, false)
  | S n =>
      if used (ht0 d) =? 0 then Some (d, false)
      else if negb (rehashidx d <? htsize (ht0 d)) then None (* assert *)
      else
        '(idx, empty_visits, stop) ←
          dictRehash_skip (S (Z.to_nat (htsize (ht0 d)))) (ht0 d) (rehashidx d) empty_visits;
        if (stop : bool) then Some (set_rehashidx idx d, true)
        else
          de ← get_bucket (ht0 d) idx;
          d ← dictRehash_move de d;
          t0 ← put_bucket (ht0 d) idx [];
          dictRehash_loop n (set_rehashidx (idx + 1) (set_ht0 t0 d)) empty_visits
  end.

(** [dictRehash d n] for a count [n >= 0]; [true] when there is more to rehash. *)
Definition dictRehash (d : dict) (n : nat) : option (dict * bool) :=
  let empty_visits := Z.of_nat n * 10 in
  if negb (dictIsRehashing d) then Some (d, false)
  else
    '(d, stopped) ← dictRehash_loop n d empty_visits;
    if (stopped : bool) then Some (d, true)
    else if used (ht0 d) =? 0 then
      Some (set_rehashidx (-1) (set_ht1 dictReset (set_ht0 (ht1 d) d)), false)
    else Some (d, true).

(** [_dictRehashStep] *)
Definition dictRehashStep (d : dict) : option dict :=
  if iterators d =? 0 then fst <$> dictRehash d 1 else Some d.

(** [if (dictIsRehashing(d)) _dictRehashStep(d);] *)
Definition maybeRehashStep (d : dict) : option dict :=
  if dictIsRehashing d then dictRehashStep d else Some d.

(** [_dictExpandIfNeeded] *)
Definition dictExpandIfNeeded (dict_can_resize : bool) (d : dict)
    : option (dict * dict_status) :=
  if dictIsRehashing d then Some (d, DICT_OK)
  else if htsize (ht0 d) =? 0 then dictExpand d DICT_HT_INITIAL_SIZE
  else if (htsize (ht0 d) <=? used (ht0 d)) &&
          (dict_can_resize || (dict_force_resize_ratio <? used (ht0 d) / htsize (ht0 d)))
  then dictExpand d (used (ht0 d) * 2)
  else Some (d, DICT_OK).

(** The chain walk [while(he) { if (key==he->key || dictCompareKeys(...)) ... }]: the
    position of the entry of [key]. *)
Fixpoint chain_find (key : K) (he : list (K * V)) : option nat :=
  match he with
  | [] => None
  | e :: next =>
      if keyCompare ty key e.1 then Some 0%nat else S <$> chain_find key next
  end.

(** The loop over the two tables shared by [dictFind], [dictGenericDelete] and
    [_dictKeyIndex]: where the entry is (table, bucket index, position in the
    chain), or the index computed last. *)
Definition search_tables (d : dict) (key : K) : option ((bool * Z * nat) + Z) :=
  let hash := hashFunction ty key in
  let idx := Z.land hash (sizemask (ht0 d)) in
  b ← get_bucket (ht0 d) idx;
  match chain_find key b with
  | Some p => Some (inl (false, idx, p))
  | None =>
      if negb (dictIsRehashing d) then Some (inr idx)
      else
        let idx := Z.land hash (sizemask (ht1 d)) in
        b ← get_bucket (ht1 d) idx;
        match chain_find key b with
        | Some p => Some (inl (true, idx, p))
        | None => Some (inr idx)
        end
  end.

(** The entry a position designates, and its unlinking and update. *)
Definition entry_at (d : dict) (pos : bool * Z * nat) : option (K * V) :=
  let '(t, idx, p) := pos in
  b ← get_bucket (ht t d) idx; b !! p.

Definition unlink_at (d : dict) (pos : bool * Z * nat) : option dict :=
  let '(t, idx, p) := pos in
  b ← get_bucket (ht t d) idx;
  t' ← put_bucket (ht t d) idx (delete p b);
  Some (set_ht t (add_used (-1) t') d).

Definition set_val_at (d : dict) (pos : bool * Z * nat) (v : V) : option dict :=
  let '(t, idx, p) := pos in
  b ← get_bucket (ht t d) idx;
  e ← b !! p;
  t' ← put_bucket (ht t d) idx (<[p := (e.1, v)]> b);
  Some (set_ht t t' d).

(** [_dictKeyIndex]: [inl (Some pos)] and [inl None] are the -1 results, with
    [*existing] set or NULL; [inr idx] is a free slot. *)
Definition dictKeyIndex (dict_can_resize : bool) (d : dict) (key : K)
    : option (dict * (option (bool * Z * nat) + Z)) :=
  '(d, st) ← dictExpandIfNeeded dict_can_resize d;
  match st with
  | DICT_ERR => Some (d, inl None)
  | DICT_OK =>
      r ← search_tables d key;
      match r with
      | inl pos => Some (d, inl (Some pos))
      | inr idx => Some (d, inr idx)
      end
  end.

(** What [dictAddRaw] tells its caller: a new entry, or NULL with [*existing]. *)
Inductive add_result := Added | NotAdded (existing : option (bool * Z * nat)).

(** [dictAddRaw]; the caller stores [val] in the entry it gets. *)
Definition dictAddRaw (dict_can_resize : bool) (d : dict) (key : K) (val : V)
    : option (dict * add_result) :=
  d ← maybeRehashStep d;
  '(d, r) ← dictKeyIndex dict_can_resize d key;
  match r with
  | inl existing => Some (d, NotAdded existing)
  | inr index =>
      let t := dictIsRehashing d in
      b ← get_bucket (ht t d) index;
      t' ← put_bucket (ht t d) index ((key, val) :: b);
      Some (set_ht t (add_used 1 t') d, Added)
  end.

Definition dictAdd (dict_can_resize : bool) (d : dict) (key : K) (val : V)
    : option (dict * dict_status) :=
  '(d, r) ← dictAddRaw dict_can_resize d key val;
  match r with
  | Added => Some (d, DICT_OK)
  | NotAdded _ => Some (d, DICT_ERR)
  end.

(** [dictReplace]: [true] when the key was added. *)
Definition dictReplace (dict_can_resize : bool) (d : dict) (key : K) (val : V)
    : option (dict * bool) :=
  '(d, r) ← dictAddRaw dict_can_resize d key val;
  match r with
  | Added => Some (d, true)
  | NotAdded None => None (* existing is NULL *)
  | NotAdded (Some pos) => d ← set_val_at d pos val; Some (d, false)
  end.

(** [dictAddOrFind]: the value of the entry, [val] when it is new. *)
Definition dictAddOrFind (dict_can_resize : bool) (d : dict) (key : K) (val : V)
    : option (dict * option V) :=
  '(d, r) ← dictAddRaw dict_can_resize d key val;
  match r with
  | Added => Some (d, Some val)
  | NotAdded None => Some (d, None)
  | NotAdded (Some pos) => e ← entry_at d pos; Some (d, Some e.2)
  end.

(** [dictGenericDelete], the entry it unlinks (freed or not by the caller). *)
Definition dictGenericDelete (d : dict) (key : K) : option (dict * option (K * V)) :=
  if (used (ht0 d) =? 0) && (used (ht1 d) =? 0) then Some (d, None)
  else
    d ← maybeRehashStep d;
    r ← search_tables d key;
    match r with
    | inl pos =>
        he ← entry_at d pos;
        d ← unlink_at d pos;
        Some (d, Some he)
    | inr _ => Some (d, None)
    end.

Definition dictDelete (d : dict) (key : K) : option (dict * dict_status) :=
  '(d, he) ← dictGenericDelete d key;
  Some (d, match he with Some _ => DICT_OK | None => DICT_ERR end).

Definition dictUnlink (d : dict) (key : K) : option (dict * option (K * V)) :=
  dictGenericDelete d key.

Definition dictFind (d : dict) (key : K) : option (dict * option (K * V)) :=
  if used (ht0 d) + used (ht1 d) =? 0 then Some (d, None)
  else
    d ← maybeRehashStep d;
    r ← search_tables d key;
    match r with
    | inl pos => he ← entry_at d pos; Some (d, Some he)
    | inr _ => Some (d, None)
    end.

Definition dictFetchValue (d : dict) (key : K) : option (dict * option V) :=
  '(d, he) ← dictFind d key;
  Some (d, option_map snd he).

(** [_dictClear]: the loop runs over the buckets while elements are left. *)
Fixpoint dictClear_loop (tbl : list (list (K * V))) (used_ : Z) : Z :=
  match tbl with
  | [] => used_
  | b :: tbl => if 0 <? used_ then dictClear_loop tbl (used_ - zlen b) else used_
  end.

Definition dictClear (t : dictht) : dictht * Z :=
  (dictReset, dictClear_loop (default [] (table t)) (used t)).

(** [dictEmpty] *)
Definition dictEmpty (d : dict) : dict :=
  mkDict (dictClear (ht0 d)).1 (dictClear (ht1 d)).1 (-1) 0.

End Dict.

Arguments dictht : clear implicits.
Arguments dict : clear implicits.
Arguments dictReset {K V}.
Arguments dictCreate {K V}.

(** ** Representation invariant *)

Section Invariant.
Context {K V : Type} `{Countable K} (ty : dictType K).

Implicit Types (d : dict K V) (t : dictht K V) (tbl : list (list (K * V))).

(** [ht_ok t tbl]: the table has a power of two of buckets, [used] counts the
    entries, and every entry is in the bucket its hash selects. *)
Record ht_ok t tbl : Prop := {
  ok_table : table t = Some tbl;
  ok_size : zlen tbl = htsize t;
  ok_pow : ∃ n : nat, (2 ≤ n ≤ 63)%nat ∧ htsize t = 2 ^ Z.of_nat n;
  ok_mask : sizemask t = htsize t - 1;
  ok_used : used t = zlen (mjoin tbl);
  ok_slot : ∀ i b e, tbl !! i = Some b → e ∈ b →
    Z.land (hashFunction ty e.1) (sizemask t) = Z.of_nat i;
}.

(** The three states of a dictionary: no table yet, one table, or a rehashing in
    progress, in which the buckets below [rehashidx] of the old table are empty. *)
Inductive dict_shape d : Prop :=
  | shape_empty : rehashidx d = -1 → ht0 d = dictReset → ht1 d = dictReset → dict_shape d
  | shape_single tbl :
      rehashidx d = -1 → ht_ok (ht0 d) tbl → ht1 d = dictReset → dict_shape d
  | shape_rehash tbl0 tbl1 :
      0 ≤ rehashidx d → ht_ok (ht0 d) tbl0 → ht_ok (ht1 d) tbl1 →
      Forall (λ b, b = []) (take (Z.to_nat (rehashidx d)) tbl0) → dict_shape d.

Definition ht_entries t : list (K * V) := mjoin (default [] (table t)).

Definition entries d : list (K * V) := ht_entries (ht0 d) ++ ht_entries (ht1 d).

Definition dict_inv d : Prop := dict_shape d ∧ NoDup (entries d).*1.

(** The finite map a dictionary represents. *)
Definition dict_map d : gmap K V := list_to_map (entries d).

(** *** Tables *)

Lemma ht_entries_ok t tbl : ht_ok t tbl → ht_entries t = mjoin tbl.
Proof. intros Ht. unfold ht_entries. by rewrite (ok_table _ _ Ht). Qed.

Lemma join_at tbl i b0 :
  tbl !! i = Some b0 →
  ∃ l1 l2, mjoin tbl = l1 ++ b0 ++ l2 ∧ ∀ b, mjoin (<[i := b]> tbl) = l1 ++ b ++ l2.
Proof.
  intros Hi. exists (mjoin (take i tbl)), (mjoin (drop (S i) tbl)). split.
  - rewrite <-(take_drop_middle tbl i b0 Hi) at 1. by rewrite join_app.
  - intros b. apply lookup_lt_Some in Hi.
    rewrite insert_take_drop by done. by rewrite join_app.
Qed.

Lemma elem_of_join_at tbl i b e : tbl !! i = Some b → e ∈ b → e ∈ mjoin tbl.
Proof.
  intros Hi He. apply list_elem_of_join. exists b. split; [done|].
  by eapply list_elem_of_lookup_2.
Qed.

Context `{!DictTypeOk ty}.

(** The bucket a hash selects exists. *)
Lemma slot_range t tbl k :
  ht_ok t tbl → 0 ≤ Z.land (hashFunction ty k) (sizemask t) < zlen tbl.
Proof.
  intros Ht. destruct (ok_pow _ _ Ht) as (n & _ & Hn).
  rewrite (ok_mask _ _ Ht), (ok_size _ _ Ht), Hn.
  replace (2 ^ Z.of_nat n - 1) with (Z.ones (Z.of_nat n)) by (rewrite Z.ones_equiv; lia).
  rewrite Z.land_ones by lia. apply Z.mod_pos_bound. lia.
Qed.

Lemma get_bucket_ok t tbl i b :
  ht_ok t tbl → tbl !! i = Some b → get_bucket t (Z.of_nat i) = Some b.
Proof.
  intros Ht Hi. unfold get_bucket. rewrite (ok_table _ _ Ht). cbn [mbind option_bind].
  by rewrite decide_True, Nat2Z.id by lia.
Qed.

Lemma get_bucket_slot t tbl k :
  ht_ok t tbl →
  ∃ i b, Z.land (hashFunction ty k) (sizemask t) = Z.of_nat i ∧ tbl !! i = Some b ∧
    get_bucket t (Z.of_nat i) = Some b.
Proof.
  intros Ht. pose proof (slot_range t tbl k Ht) as Hr.
  exists (Z.to_nat (Z.land (hashFunction ty k) (sizemask t))).
  destruct (lookup_lt_is_Some_2 tbl (Z.to_nat (Z.land (hashFunction ty k) (sizemask t))))
    as [b Hb]; [lia|].
  exists b. split_and!; [lia|done|]. by apply (get_bucket_ok t tbl).
Qed.

(** Replacing the bucket [b0] of slot [i] by [b]. *)
Lemma put_bucket_ok t tbl i b0 b :
  ht_ok t tbl → tbl !! i = Some b0 →
  (∀ e, e ∈ b → Z.land (hashFunction ty e.1) (sizemask t) = Z.of_nat i) →
  ∃ t', put_bucket t (Z.of_nat i) b = Some t' ∧
    ht_ok (add_used (zlen b - zlen b0) t') (<[i := b]> tbl) ∧
    used t' = used t ∧ htsize t' = htsize t.
Proof.
  intros Ht Hi Hb. destruct Ht as [H1 H2 H3 H4 H5 H6]. unfold put_bucket. rewrite H1.
  apply lookup_lt_Some in Hi as Hlt. cbn [mbind option_bind].
  rewrite decide_True, Nat2Z.id by lia. eexists. split; [done|]. split; [|done].
  split; simpl; [done|by rewrite length_insert|done|done| |].
  - destruct (join_at tbl i b0 Hi) as (l1 & l2 & Hj & Hj').
    rewrite H5, Hj, Hj', !length_app. lia.
  - intros j b' e Hj He. destruct (decide (i = j)) as [<-|Hne].
    + rewrite list_lookup_insert_eq in Hj by done. simplify_eq. by apply Hb.
    + rewrite list_lookup_insert_ne in Hj by done. by eapply H6.
Qed.

(** *** Incremental rehashing *)

Lemma dictRehash_move_spec de d tbl1 :
  ht_ok (ht1 d) tbl1 →
  ∃ d' tbl1', dictRehash_move ty de d = Some d' ∧ ht_ok (ht1 d') tbl1' ∧
    mjoin tbl1' ≡ₚ de ++ mjoin tbl1 ∧
    ht0 d' = add_used (- zlen de) (ht0 d) ∧
    rehashidx d' = rehashidx d ∧ iterators d' = iterators d.
Proof.
  revert d tbl1. induction de as [|e de IH]; intros d tbl1 Ht.
  { exists d, tbl1. split_and!; try done. destruct d as [[] ? ? ?]. unfold add_used. simpl.
    do 2 f_equal. lia. }
  cbn [dictRehash_move].
  destruct (get_bucket_slot (ht1 d) tbl1 e.1 Ht) as (i & b & Hslot & Hi & Hg).
  rewrite Hslot, Hg. cbn [mbind option_bind].
  destruct (put_bucket_ok (ht1 d) tbl1 i b (e :: b)) as (t' & Hp & Hok & _); [done|done|..].
  { intros x [->|Hx]%elem_of_cons; [done|]. by eapply ok_slot. }
  rewrite Hp. cbn [mbind option_bind].
  replace (zlen (e :: b) - zlen b) with 1 in Hok by (simpl; lia).
  destruct (IH (set_ht1 (add_used 1 t') (set_ht0 (add_used (-1) (ht0 d)) d))
    (<[i:=e :: b]> tbl1) Hok) as (d' & tbl1' & Hm & Hok' & Hperm & H0 & Hr & Hit).
  exists d', tbl1'. split_and!; [done|done| |..].
  - rewrite Hperm. destruct (join_at tbl1 i b Hi) as (l1 & l2 & Hj & Hj').
    rewrite Hj, Hj'. cbn [app]. by rewrite <-!Permutation_middle.
  - rewrite H0. unfold add_used. simpl. f_equal. lia.
  - by rewrite Hr.
  - by rewrite Hit.
Qed.

Lemma join_empty_prefix tbl i :
  Forall (λ b, b = []) (take i tbl) → mjoin tbl = mjoin (drop i tbl).
Proof.
  intros He. rewrite <-(take_drop i tbl) at 1. rewrite join_app.
  replace (mjoin (take i tbl)) with (@nil (K * V)); [done|].
  induction He as [|b l -> _ IH]; [done|]. simpl. by rewrite <-IH.
Qed.

Lemma dictRehash_skip_spec fuel t tbl idx ev :
  ht_ok t tbl → mjoin tbl ≠ [] →
  Forall (λ b, b = []) (take idx tbl) → (length tbl - idx < fuel)%nat →
  ∃ idx' ev' stop,
    dictRehash_skip fuel t (Z.of_nat idx) ev = Some (Z.of_nat idx', ev', stop) ∧
    (idx ≤ idx')%nat ∧ Forall (λ b, b = []) (take idx' tbl) ∧ (idx' < length tbl)%nat ∧
    (stop = true → (idx < idx')%nat ∧ 0 < ev ∧ Z.of_nat (idx' - idx) = ev) ∧
    (stop = false → ∃ b, tbl !! idx' = Some b ∧ b ≠ []) ∧
    ev' = ev - Z.of_nat (idx' - idx).
Proof.
  intros Ht Hne. revert idx ev. induction fuel as [|fuel IH]; intros idx ev He Hf; [lia|].
  assert (∀ j, Forall (λ b, b = []) (take j tbl) → (j < length tbl)%nat) as Hlt.
  { intros j Hj. destruct (decide (j < length tbl)%nat); [done|]. exfalso. apply Hne.
    rewrite (join_empty_prefix tbl j) by done. by rewrite drop_ge by lia. }
  destruct (lookup_lt_is_Some_2 tbl idx (Hlt _ He)) as [b Hb].
  cbn [dictRehash_skip]. rewrite (get_bucket_ok t tbl idx b) by done.
  cbn [mbind option_bind]. destruct b as [|e b].
  - assert (Forall (λ b, b = []) (take (S idx) tbl)) as He'.
    { rewrite (take_S_r _ _ _ Hb). apply Forall_app. split; [done|]. by constructor. }
    pose proof (Hlt _ He'). replace (Z.of_nat idx + 1) with (Z.of_nat (S idx)) by lia.
    destruct (Z.eqb_spec (ev - 1) 0) as [Hev|Hev].
    + exists (S idx), (ev - 1), true. split_and!; try done; lia.
    + destruct (IH (S idx) (ev - 1)) as (idx' & ev' & stop & -> & ? & ? & ? & Hs & Hns & ->);
        [done|lia|].
      exists idx', (ev - 1 - Z.of_nat (idx' - S idx)), stop. split_and!; try done; try lia.
      intros Hst. destruct (Hs Hst) as (? & ? & ?). lia.
  - exists idx, ev, false. split_and!; try done; [by apply Hlt|by eauto|lia].
Qed.

Definition rehashing d tbl0 tbl1 : Prop :=
  0 ≤ rehashidx d ∧ ht_ok (ht0 d) tbl0 ∧ ht_ok (ht1 d) tbl1 ∧
  Forall (λ b, b = []) (take (Z.to_nat (rehashidx d)) tbl0).

(** One non-empty bucket moved by the body of the loop. *)
Lemma dictRehash_body d tbl0 tbl1 idx b :
  rehashing d tbl0 tbl1 → tbl0 !! idx = Some b →
  Forall (λ b, b = []) (take idx tbl0) →
  ∃ d1 t0 tbl1',
    dictRehash_move ty b d = Some d1 ∧ put_bucket (ht0 d1) (Z.of_nat idx) [] = Some t0 ∧
    let d' := set_rehashidx (Z.of_nat idx + 1) (set_ht0 t0 d1) in
    rehashing d' (<[idx := []]> tbl0) tbl1' ∧
    mjoin (<[idx := []]> tbl0) ++ mjoin tbl1' ≡ₚ mjoin tbl0 ++ mjoin tbl1 ∧
    iterators d' = iterators d.
Proof.
  intros (Hr & H0 & H1 & He) Hb Hpre.
  destruct (dictRehash_move_spec b d tbl1 H1) as (d1 & tbl1' & Hm & Hok1 & Hperm & Hd0 & Hri & Hit).
  destruct (put_bucket_ok (ht0 d) tbl0 idx b []) as (t' & Hp & Hok0 & _); [done|done|set_solver|].
  assert (put_bucket (ht0 d1) (Z.of_nat idx) [] = Some (add_used (zlen (@nil (K * V)) - zlen b) t'))
    as Hp'.
  { rewrite Hd0. unfold put_bucket in *. simpl in *. destruct (table (ht0 d)); [|done].
    cbn [mbind option_bind] in *. case_decide; [|done]. injection Hp as <-. done. }
  exists d1, (add_used (zlen (@nil (K * V)) - zlen b) t'), tbl1'. split; [done|]. split; [done|].
  destruct (join_at tbl0 idx b Hb) as (l1 & l2 & Hj & Hj').
  apply lookup_lt_Some in Hb as Hlt. split_and!; simpl; try done.
  - split_and!; simpl; [lia|done|done|].
    replace (Z.to_nat (Z.of_nat idx + 1)) with (S idx) by lia.
    rewrite (take_S_r _ _ []) by (by apply list_lookup_insert_eq).
    rewrite take_insert_ge by lia. apply Forall_app. split; [done|]. by constructor.
  - rewrite Hperm, Hj, Hj', !app_nil_l. solve_Permutation.
Qed.

Lemma dictRehash_loop_spec n d ev tbl0 tbl1 :
  rehashing d tbl0 tbl1 → 
  ∃ d' stopped tbl0' tbl1',
    dictRehash_loop ty n d ev = Some (d', stopped) ∧ rehashing d' tbl0' tbl1' ∧
    length tbl0' = length tbl0 ∧ iterators d' = iterators d ∧
    mjoin tbl0' ++ mjoin tbl1' ≡ₚ mjoin tbl0 ++ mjoin tbl1 ∧
    (stopped = true → used (ht0 d') ≠ 0) ∧
    (used (ht0 d') = 0 ∨ rehashidx d + Z.of_nat (if stopped then 1 else n) ≤ rehashidx d').
Proof.
  revert d ev tbl0 tbl1. induction n as [|n IH]; intros d ev tbl0 tbl1 Hd.
  { exists d, false, tbl0, tbl1. split_and!; try done. right. lia. }
  cbn [dictRehash_loop]. destruct (Z.eqb_spec (used (ht0 d)) 0) as [Hu|Hu].
  { exists d, false, tbl0, tbl1. split_and!; try done. by left. }
  destruct Hd as (Hr & H0 & H1 & He) eqn:Ed. pose proof (ok_size _ _ H0) as Hsz.
  assert (mjoin tbl0 ≠ []) as Hne.
  { intros Hn. apply Hu. rewrite (ok_used _ _ H0), Hn. done. }
  destruct (dictRehash_skip_spec (S (Z.to_nat (htsize (ht0 d)))) (ht0 d) tbl0
    (Z.to_nat (rehashidx d)) ev) as (idx' & ev' & stop & Hs & Hle & He' & Hlt & Hst & Hns & _);
    [done|done|done|lia|].
  rewrite Z2Nat.id in Hs by lia.
  rewrite (proj2 (Z.ltb_lt (rehashidx d) _)) by lia. cbn [negb]. rewrite Hs.
  cbn [mbind option_bind]. destruct stop.
  - destruct (Hst eq_refl) as (? & _). 
    exists (set_rehashidx (Z.of_nat idx') d), true, tbl0, tbl1.
    split_and!; try done; [|right; simpl; lia]. split_and!; simpl; try done; [lia|].
    by rewrite Nat2Z.id.
  - destruct (Hns eq_refl) as (b & Hb & _). rewrite (get_bucket_ok _ tbl0 idx' b) by done.
    cbn [mbind option_bind].
    destruct (dictRehash_body d tbl0 tbl1 idx' b) as (d1 & t0 & tbl1' & Hm & Hp & Hd' & Hperm & Hit);
      [done..|].
    rewrite Hm. cbn [mbind option_bind]. rewrite Hp. cbn [mbind option_bind].
    destruct (IH _ ev' _ _ Hd') as (d2 & stopped & u0 & u1 & -> & Hd2 & Hl & Hi2 & Hp2 & Hstop & Hprog).
    exists d2, stopped, u0, u1. split_and!; try done.
    + by rewrite Hl, length_insert.
    + by rewrite Hi2.
    + by rewrite Hp2.
    + destruct Hprog as [|Hprog]; [by left|right]. simpl in Hprog. destruct stopped; lia.
Qed.

Lemma isRehashing_shape d :
  dict_shape d → dictIsRehashing d = true → ∃ tbl0 tbl1, rehashing d tbl0 tbl1.
Proof.
  unfold dictIsRehashing. intros [Hr|tbl Hr|tbl0 tbl1 Hr ? ? ?] Hn; [by rewrite Hr in Hn..|].
  by exists tbl0, tbl1.
Qed.

Lemma entries_rehashing d tbl0 tbl1 :
  rehashing d tbl0 tbl1 → entries d = mjoin tbl0 ++ mjoin tbl1.
Proof.
  intros (_ & H0 & H1 & _). unfold entries.
  by rewrite (ht_entries_ok _ _ H0), (ht_entries_ok _ _ H1).
Qed.

Lemma shape_of_rehashing d tbl0 tbl1 : rehashing d tbl0 tbl1 → dict_shape d.
Proof. intros (? & ? & ? & ?). by eapply shape_rehash. Qed.

(** [dictRehash] keeps the dictionary well formed and its contents, and makes progress:
    it finishes, or moves the rehash index forward by at least one bucket. *)
Lemma dictRehash_spec d n :
  dict_shape d →
  ∃ d' more, dictRehash ty d n = Some (d', more) ∧ dict_shape d' ∧
    entries d' ≡ₚ entries d ∧ iterators d' = iterators d ∧
    (more = false → rehashidx d' = -1) ∧
    (more = true → dictIsRehashing d' = true ∧ htsize (ht0 d') = htsize (ht0 d) ∧
       rehashidx d' ≤ htsize (ht0 d') ∧ ((0 < n)%nat → rehashidx d < rehashidx d')).
Proof.
  intros Hd. unfold dictRehash. destruct (dictIsRehashing d) eqn:Hreh; cbn [negb].
  2:{ exists d, false. split_and!; try done. intros _.
      unfold dictIsRehashing in Hreh. lia. }
  destruct (isRehashing_shape d Hd Hreh) as (tbl0 & tbl1 & Hrd).
  destruct (dictRehash_loop_spec n d (Z.of_nat n * 10) tbl0 tbl1 Hrd)
    as (d1 & st & u0 & u1 & -> & Hd1 & Hlen & Hit & Hperm & Hstop & Hprog). cbn [mbind option_bind].
  assert (entries d1 ≡ₚ entries d) as Hent.
  { by rewrite (entries_rehashing _ _ _ Hd1), (entries_rehashing _ _ _ Hrd). }
  pose proof Hd1 as (Hr1 & Hok0 & Hok1 & He1).
  pose proof Hrd as (Hr & Hok & _ & _).
  assert (used (ht0 d1) ≠ 0 → dictIsRehashing d1 = true ∧
    htsize (ht0 d1) = htsize (ht0 d) ∧ rehashidx d1 ≤ htsize (ht0 d1) ∧
    ((0 < n)%nat → rehashidx d < rehashidx d1)) as Hmore.
  { intros Hu. split_and!.
    - unfold dictIsRehashing. destruct (Z.eqb_spec (rehashidx d1) (-1)); [lia|done].
    - by rewrite <-(ok_size _ _ Hok0), <-(ok_size _ _ Hok), Hlen.
    - rewrite <-(ok_size _ _ Hok0). destruct (decide (rehashidx d1 ≤ zlen u0)); [done|].
      exfalso. apply Hu. rewrite (ok_used _ _ Hok0), (join_empty_prefix _ _ He1).
      by rewrite drop_ge by lia.
    - intros Hn. destruct Hprog as [|Hprog]; [done|]. destruct st; lia. }
  pose proof (shape_of_rehashing _ _ _ Hd1) as Hshape.
  destruct st; [|destruct (Z.eqb_spec (used (ht0 d1)) 0) as [Hu|Hu]].
  - exists d1, true. split_and!; try done. intros _. by apply Hmore, Hstop.
  - exists (set_rehashidx (-1) (set_ht1 dictReset (set_ht0 (ht1 d1) d1))), false.
    split_and!; try done; simpl.
    + by eapply shape_single.
    + rewrite <-Hent, (entries_rehashing _ _ _ Hd1). unfold entries. simpl.
      rewrite (ht_entries_ok _ _ Hok1), (ok_used _ _ Hok0) in *.
      destruct (mjoin u0); [|simpl in Hu; lia]. by rewrite app_nil_r.
  - exists d1, true. split_and!; try done. intros _. by apply Hmore.
Qed.

Lemma dict_inv_perm d d' :
  dict_inv d → dict_shape d' → entries d' ≡ₚ entries d →
  dict_inv d' ∧ dict_map d' = dict_map d.
Proof.
  intros [_ Hnd] Hs Hp. split.
  - split; [done|]. by rewrite Hp.
  - apply list_to_map_proper; [|done]. by rewrite Hp.
Qed.

Lemma maybeRehashStep_spec d :
  dict_inv d →
  ∃ d', maybeRehashStep ty d = Some d' ∧ dict_inv d' ∧ dict_map d' = dict_map d ∧
    entries d' ≡ₚ entries d ∧ iterators d' = iterators d.
Proof.
  intros Hd. unfold maybeRehashStep, dictRehashStep.
  destruct (dictIsRehashing d); [|by exists d].
  destruct (iterators d =? 0); [|by exists d].
  destruct (dictRehash_spec d 1) as (d' & more & -> & Hs & Hp & Hit & _); [apply Hd|].
  exists d'. destruct (dict_inv_perm d d' Hd Hs Hp). done.
Qed.

(** *** Expansion *)

Lemma dictNextPower_loop_spec fuel n size :
  (2 ≤ n)%nat → size ≤ 2 ^ Z.of_nat (n + fuel - 1) → (0 < fuel)%nat →
  ∃ m, dictNextPower_loop fuel (2 ^ Z.of_nat n) size = Some (2 ^ Z.of_nat m) ∧ (n ≤ m)%nat ∧
    size ≤ 2 ^ Z.of_nat m ∧ (m = n ∨ 2 ^ Z.of_nat (m - 1) < size).
Proof.
  revert n. induction fuel as [|fuel IH]; intros n Hn Hsize Hf; [lia|].
  cbn [dictNextPower_loop]. destruct (Z.leb_spec size (2 ^ Z.of_nat n)).
  - exists n. split_and!; try done. by left.
  - replace (2 ^ Z.of_nat n * 2) with (2 ^ Z.of_nat (S n))
      by (rewrite Nat2Z.inj_succ, Z.pow_succ_r by lia; lia).
    destruct fuel as [|fuel].
    { exfalso. replace (n + 1 - 1)%nat with n in Hsize by lia. lia. }
    destruct (IH (S n)) as (m & -> & Hm & Hs & Hmin); [lia| |lia|].
    { replace (S n + S fuel - 1)%nat with (n + S (S fuel) - 1)%nat by lia. done. }
    exists m. split_and!; [done|lia|done|]. right.
    destruct Hmin as [->|]; [|done]. by replace (S n - 1)%nat with n by lia.
Qed.

(** [_dictNextPower] is the smallest power of two that is at least 4 and [size]. *)
Lemma dictNextPower_spec size :
  size ≤ 2 ^ 63 →
  ∃ m, dictNextPower size = Some (2 ^ Z.of_nat m) ∧ (2 ≤ m ≤ 63)%nat ∧
    size ≤ 2 ^ Z.of_nat m ∧ (m = 2%nat ∨ 2 ^ Z.of_nat (m - 1) < size).
Proof.
  intros Hs. unfold dictNextPower, DICT_LONG_MAX, DICT_HT_INITIAL_SIZE.
  destruct (Z.leb_spec (2 ^ 63 - 1) size).
  - exists 63%nat. split_and!; [done|lia|lia|simpl; lia|]. right. simpl. lia.
  - destruct (dictNextPower_loop_spec 63 2 size) as (m & Hm & ? & ? & ?); [lia|simpl; lia|lia|].
    exists m. split_and!; try lia; try done.
    destruct (decide (m ≤ 63)%nat); [done|]. pose proof (Z.pow_le_mono_r 2 63 (Z.of_nat (m - 1))). lia.
Qed.

Lemma join_replicate_nil n : mjoin (replicate n (@nil (K * V))) = [].
Proof. by induction n. Qed.

Lemma replicate_ht_ok m :
  (2 ≤ m ≤ 63)%nat →
  ht_ok (mkHt (Some (replicate (Z.to_nat (2 ^ Z.of_nat m)) [])) (2 ^ Z.of_nat m)
    (2 ^ Z.of_nat m - 1) 0) (replicate (Z.to_nat (2 ^ Z.of_nat m)) []).
Proof.
  intros Hm. split; simpl; [done| |by exists m|done|by rewrite join_replicate_nil|].
  - rewrite length_replicate. lia.
  - intros i b e [-> _]%lookup_replicate He. by apply not_elem_of_nil in He.
Qed.

Lemma dictExpand_spec d size :
  dict_inv d → size ≤ 2 ^ 63 →
  ∃ d' st, dictExpand d size = Some (d', st) ∧ dict_inv d' ∧ dict_map d' = dict_map d ∧
    entries d' = entries d ∧ iterators d' = iterators d ∧
    (st = DICT_ERR → d' = d) ∧ (st = DICT_OK → table (ht0 d') ≠ None) ∧
    (dictIsRehashing d = false → used (ht0 d) ≤ size → htsize (ht0 d) < size →
       st = DICT_OK).
Proof.
  intros Hd Hsz. unfold dictExpand. destruct (dictIsRehashing d) eqn:Hreh; simpl.
  { exists d, DICT_ERR. done. }
  destruct (Z.ltb_spec size (used (ht0 d))) as [Hlt|Hnlt].
  { exists d, DICT_ERR. split_and!; try done. intros. lia. }
  destruct (dictNextPower_spec size Hsz) as (m & -> & Hm & Hge & _). cbn [mbind option_bind].
  destruct (Z.eqb_spec (2 ^ Z.of_nat m) (htsize (ht0 d))) as [Heq|Hneq].
  { exists d, DICT_ERR. split_and!; try done. intros. lia. }
  pose proof (replicate_ht_ok m Hm) as Hnew.
  pose proof (join_replicate_nil (Z.to_nat (2 ^ Z.of_nat m))) as Hj.
  destruct Hd as [Hs Hnd]. unfold dict_inv, dict_map, entries in *.
  destruct Hs as [Hr H0 H1|tbl Hr H0 H1|tbl0 tbl1 Hr].
  - rewrite H0, H1 in *. simpl. eexists _, DICT_OK. split; [done|].
    simpl in *. unfold ht_entries. simpl. rewrite Hj, H1.
    split_and!; try done. by eapply shape_single.
  - rewrite (ok_table _ _ H0), H1 in *. eexists _, DICT_OK. split; [done|]. simpl.
    unfold ht_entries in *. simpl in *. rewrite Hj, (ok_table _ _ H0) in *.
    split_and!; try done. eapply shape_rehash; simpl; try done.
  - exfalso. unfold dictIsRehashing in Hreh. lia.
Qed.

(** *** Looking a key up *)

Lemma chain_find_Some key (b : list (K * V)) p :
  chain_find ty key b = Some p → ∃ v, b !! p = Some (key, v).
Proof.
  revert p. induction b as [|[k v] b IH]; intros p Hp; [done|]. simpl in Hp.
  destruct (keyCompare ty key k) eqn:E.
  - injection Hp as <-. apply compare_spec in E as ->. by exists v.
  - destruct (chain_find ty key b) as [q|]; [|done]. injection Hp as <-. by apply IH.
Qed.

Lemma chain_find_None key (b : list (K * V)) v : chain_find ty key b = None → (key, v) ∉ b.
Proof.
  induction b as [|[k w] b IH]; intros Hn; [set_solver|]. simpl in Hn.
  destruct (keyCompare ty key k) eqn:E; [done|].
  destruct (chain_find ty key b); [done|]. intros [[= -> ->]|Hin]%elem_of_cons.
  - assert (keyCompare ty k k = true) by (by apply compare_spec). congruence.
  - by apply IH.
Qed.

(** A position designates the entry of [key], in the bucket [b] of table [t]. *)
Definition located d (key : K) (v : V) (pos : bool * Z * nat) : Prop :=
  ∃ (t : bool) i p tbl b, pos = (t, Z.of_nat i, p) ∧ ht_ok (ht t d) tbl ∧ tbl !! i = Some b ∧
    b !! p = Some (key, v).

Lemma dict_map_lookup d key v :
  dict_inv d → dict_map d !! key = Some v ↔ (key, v) ∈ entries d.
Proof. intros [_ Hnd]. unfold dict_map. by rewrite elem_of_list_to_map. Qed.

Lemma located_map d key v pos :
  dict_inv d → located d key v pos → dict_map d !! key = Some v.
Proof.
  intros Hd (t & i & p & tbl & b & _ & Hok & Hi & Hp). apply dict_map_lookup; [done|].
  apply list_elem_of_lookup_2 in Hp. unfold entries. apply elem_of_app.
  destruct t; [right|left]; simpl in Hok; rewrite (ht_entries_ok _ _ Hok);
    by eapply elem_of_join_at.
Qed.

(** An entry of [key] in a table is in the bucket of its hash. *)
Lemma ht_search t tbl key i b v :
  ht_ok t tbl → Z.land (hashFunction ty key) (sizemask t) = Z.of_nat i → tbl !! i = Some b →
  (key, v) ∈ ht_entries t → (key, v) ∈ b.
Proof.
  intros Hok Hslot Hi Hin. rewrite (ht_entries_ok _ _ Hok) in Hin.
  apply list_elem_of_join in Hin as (b' & Hin & (j & Hj)%list_elem_of_lookup).
  pose proof (ok_slot _ _ Hok _ _ _ Hj Hin) as Hs. simpl in Hs.
  rewrite Hslot in Hs. apply Nat2Z.inj in Hs as <-. by simplify_eq.
Qed.

Lemma search_tables_spec d key :
  dict_inv d → table (ht0 d) ≠ None →
  ∃ r, search_tables ty d key = Some r ∧
    match r with
    | inl pos => ∃ v, located d key v pos
    | inr idx => dict_map d !! key = None ∧
        idx = Z.land (hashFunction ty key) (sizemask (ht (dictIsRehashing d) d)) ∧
        ∃ tbl, ht_ok (ht (dictIsRehashing d) d) tbl
    end.
Proof.
  intros Hd Hne. assert (∃ tbl0, ht_ok (ht0 d) tbl0) as [tbl0 H0].
  { destruct Hd as [[? E|tbl ? ?|tbl0 tbl1 ? ?] _]; [by rewrite E in Hne|eauto..]. }
  unfold search_tables.
  destruct (get_bucket_slot _ _ key H0) as (i & b & Hslot & Hi & Hg).
  rewrite Hslot, Hg. cbn [mbind option_bind]. destruct (chain_find ty key b) as [p|] eqn:Hc.
  { apply chain_find_Some in Hc as [v Hv]. eexists. split; [done|].
    exists v. by exists false, i, p, tbl0, b. }
  assert (∀ v, (key, v) ∉ ht_entries (ht0 d)) as Hn0.
  { intros v Hin. eapply chain_find_None; [done|]. by eapply ht_search. }
  destruct (dictIsRehashing d) eqn:Hreh; simpl.
  - destruct (isRehashing_shape d (proj1 Hd) Hreh) as (u0 & tbl1 & _ & _ & H1 & _).
    destruct (get_bucket_slot _ _ key H1) as (j & b1 & Hslot1 & Hj & Hg1).
    rewrite Hslot1, Hg1. cbn [mbind option_bind].
    destruct (chain_find ty key b1) as [p|] eqn:Hc1.
    { apply chain_find_Some in Hc1 as [v Hv]. eexists. split; [done|].
      exists v. by exists true, j, p, tbl1, b1. }
    eexists. split; [done|]. split_and!; [|done|by eauto].
    apply eq_None_not_Some. intros [v [Hin|Hin]%(dict_map_lookup d _ _ Hd)%elem_of_app].
    + by eapply Hn0.
    + eapply chain_find_None; [exact Hc1|]. by eapply ht_search.
  - eexists. split; [done|]. split_and!; [|done|by eauto].
    apply eq_None_not_Some. intros [v [Hin|Hin]%(dict_map_lookup d _ _ Hd)%elem_of_app].
    + by eapply Hn0.
    + destruct Hd as [[_ _ E|tbl _ _ E|u0 u1 Hr] _];
        [rewrite E in Hin; by apply not_elem_of_nil in Hin..|].
      unfold dictIsRehashing in Hreh. lia.
Qed.

(** *** Changing one bucket *)

Lemma update_bucket d (t : bool) tbl i b0 b :
  dict_shape d → ht_ok (ht t d) tbl → tbl !! i = Some b0 →
  (∀ e, e ∈ b → Z.land (hashFunction ty e.1) (sizemask (ht t d)) = Z.of_nat i) →
  t = true ∨ dictIsRehashing d = false ∨ b0 ≠ [] →
  ∃ t' l1 l2, put_bucket (ht t d) (Z.of_nat i) b = Some t' ∧
    let d' := set_ht t (add_used (zlen b - zlen b0) t') d in
    dict_shape d' ∧ entries d = l1 ++ b0 ++ l2 ∧ entries d' = l1 ++ b ++ l2 ∧
    iterators d' = iterators d ∧ dictIsRehashing d' = dictIsRehashing d.
Proof.
  intros Hs Hok Hi Hb Hcond.
  destruct (put_bucket_ok _ _ i b0 b Hok Hi Hb) as (t' & Hp & Hok' & _).
  destruct (join_at tbl i b0 Hi) as (l1 & l2 & Hj & Hj').
  exists t'. destruct t; simpl in *.
  - exists (ht_entries (ht0 d) ++ l1), l2. split; [done|].
    assert (∃ tbl0, rehashing d tbl0 tbl) as (tbl0 & Hr & H0 & _ & He).
    { destruct Hs as [_ _ E|? _ _ E|u0 u1 ? ? Hu ?];
        [apply ok_table in Hok; by rewrite E in Hok..|].
      exists u0. split_and!; try done. }
    unfold entries. simpl. rewrite (ht_entries_ok _ _ Hok), (ht_entries_ok _ _ Hok'), Hj, Hj'.
    rewrite <-!(assoc_L (++)). split_and!; try done. by eapply shape_rehash.
  - exists l1, (l2 ++ ht_entries (ht1 d)). split; [done|].
    unfold entries. simpl. rewrite (ht_entries_ok _ _ Hok), (ht_entries_ok _ _ Hok'), Hj, Hj'.
    rewrite <-!(assoc_L (++)). split_and!; try done.
    destruct Hs as [_ E|? ? _ ?|u0 u1 Hr Hu0 Hu1 He].
    + apply ok_table in Hok. by rewrite E in Hok.
    + by eapply shape_single.
    + destruct Hcond as [|[Hn|Hne]]; [done|unfold dictIsRehashing in Hn; lia|].
      eapply shape_rehash; simpl; try done.
      pose proof (ok_table _ _ Hok) as E1. rewrite (ok_table _ _ Hu0) in E1. simplify_eq.
      rewrite take_insert_ge; [done|].
      destruct (decide (Z.to_nat (rehashidx d) ≤ i)%nat); [done|]. exfalso. apply Hne.
      rewrite Forall_lookup in He. apply (He i). rewrite lookup_take_lt by lia. done.
Qed.

(** *** The operations on the represented map *)

(** Fewer than 2^62 entries: the size computation of an expansion cannot saturate. *)
Definition dict_small d : Prop := zlen (entries d) < 2 ^ 62.

Lemma used_le_entries d : dict_shape d → 0 ≤ used (ht0 d) ≤ zlen (entries d).
Proof.
  intros Hs. unfold entries. rewrite length_app.
  destruct Hs as [_ E _|tbl _ Hok _|tbl0 tbl1 _ Hok _ _].
  - rewrite E. simpl. lia.
  - rewrite (ok_used _ _ Hok), (ht_entries_ok _ _ Hok). lia.
  - rewrite (ok_used _ _ Hok), (ht_entries_ok _ _ Hok). lia.
Qed.

Lemma dictExpandIfNeeded_spec cr d :
  dict_inv d → dict_small d →
  ∃ d', dictExpandIfNeeded cr d = Some (d', DICT_OK) ∧ dict_inv d' ∧
    dict_map d' = dict_map d ∧ iterators d' = iterators d ∧ table (ht0 d') ≠ None.
Proof.
  intros Hd Hsm. unfold dictExpandIfNeeded, dict_small in *.
  pose proof (used_le_entries d (proj1 Hd)) as Hu.
  assert (∀ tbl, ht_ok (ht0 d) tbl → table (ht0 d) ≠ None ∧ 4 ≤ htsize (ht0 d)) as Hok.
  { intros tbl Hok. rewrite (ok_table _ _ Hok). split; [done|].
    destruct (ok_pow _ _ Hok) as (n & Hn & ->).
    pose proof (Z.pow_le_mono_r 2 2 (Z.of_nat n)). lia. }
  destruct (dictIsRehashing d) eqn:Hreh.
  { destruct (isRehashing_shape d (proj1 Hd) Hreh) as (? & ? & _ & H0 & _).
    exists d. split_and!; try done. by eapply Hok. }
  destruct (Z.eqb_spec (htsize (ht0 d)) 0) as [Hz|Hz].
  { assert (used (ht0 d) = 0) as Hu0.
    { destruct Hd as [[_ E _|tbl _ H0 _|u0 u1 _ H0 _ _] _]; [by rewrite E|exfalso..];
        destruct (Hok _ H0); lia. }
    destruct (dictExpand_spec d DICT_HT_INITIAL_SIZE) as (d' & st & He & ? & ? & ? & ? & _ & Hn & Hst);
      [done|unfold DICT_HT_INITIAL_SIZE; lia|].
    unfold DICT_HT_INITIAL_SIZE in *. assert (st = DICT_OK) as -> by (apply Hst; [done|lia..]).
    exists d'. split_and!; try done. by apply Hn. }
  assert (table (ht0 d) ≠ None) as Hne.
  { destruct Hd as [[_ E _|tbl _ H0 _|u0 u1 _ H0 _ _] _];
      [by rewrite E in Hz|by eapply Hok..]. }
  destruct ((htsize (ht0 d) <=? used (ht0 d)) && _) eqn:Hc; [|by exists d].
  apply andb_true_iff in Hc as [Hc%Z.leb_le _].
  assert (4 ≤ htsize (ht0 d)) as H4.
  { destruct Hd as [[_ E _|tbl _ H0 _|u0 u1 _ H0 _ _] _]; [by rewrite E in Hz|by eapply Hok..]. }
  destruct (dictExpand_spec d (used (ht0 d) * 2)) as (d' & st & He & ? & ? & ? & ? & _ & Hn & Hst);
    [done|lia|].
  assert (st = DICT_OK) as -> by (apply Hst; [done|lia..]).
  exists d'. split_and!; try done. by apply Hn.
Qed.

Lemma dict_map_app_cons l1 l2 (k : K) (v : V) :
  NoDup (l1 ++ (k, v) :: l2).*1 →
  list_to_map (M := gmap K V) (l1 ++ (k, v) :: l2) = <[k := v]> (list_to_map (l1 ++ l2)) ∧
  list_to_map (M := gmap K V) (l1 ++ l2) !! k = None ∧ NoDup (l1 ++ l2).*1.
Proof.
  intros Hnd.
  assert ((k, v) :: l1 ++ l2 ≡ₚ l1 ++ (k, v) :: l2) as Hp by apply Permutation_middle.
  pose proof Hnd as Hnd'. rewrite <-Hp in Hnd'. apply NoDup_cons in Hnd' as [Hni Hnd'].
  split_and!; [|by apply not_elem_of_list_to_map|done].
  rewrite (list_to_map_proper (l1 ++ (k, v) :: l2) ((k, v) :: l1 ++ l2)) by done. done.
Qed.

Lemma dictAddRaw_spec cr d key val :
  dict_inv d → dict_small d →
  ∃ d' r, dictAddRaw ty cr d key val = Some (d', r) ∧ dict_inv d' ∧ iterators d' = iterators d ∧
    match dict_map d !! key with
    | Some v => ∃ pos, r = NotAdded (Some pos) ∧ located d' key v pos ∧ dict_map d' = dict_map d
    | None => r = Added ∧ dict_map d' = <[key := val]> (dict_map d)
    end.
Proof.
  intros Hd Hsm. unfold dictAddRaw, dictKeyIndex.
  destruct (maybeRehashStep_spec d Hd) as (d1 & -> & Hd1 & Hm1 & Hp1 & Hi1). cbn [mbind option_bind].
  destruct (dictExpandIfNeeded_spec cr d1) as (d2 & -> & Hd2 & Hm2 & Hi2 & Hne);
    [done|unfold dict_small; by rewrite Hp1|]. cbn [mbind option_bind].
  destruct (search_tables_spec d2 key Hd2 Hne) as (r & -> & Hr). cbn [mbind option_bind].
  rewrite <-Hm1, <-Hm2, <-Hi1, <-Hi2.
  destruct r as [pos|idx]; cbn [mbind option_bind].
  { destruct Hr as [v Hl]. pose proof (located_map d2 key v pos Hd2 Hl) as ->.
    eexists _, _. split; [done|]. by eauto 10. }
  destruct Hr as (Hnone & -> & tbl & Hok). rewrite Hnone.
  destruct (get_bucket_slot _ _ key Hok) as (i & b & Hslot & Hi & Hg).
  rewrite Hslot, Hg. cbn [mbind option_bind].
  destruct (update_bucket d2 (dictIsRehashing d2) tbl i b ((key, val) :: b))
    as (t' & l1 & l2 & Hp & Hs & He & He' & Hit & _); [apply Hd2|done|done|..].
  { intros e [->|He]%elem_of_cons; [done|]. by eapply ok_slot. }
  { destruct (dictIsRehashing d2); auto. }
  rewrite Hp. cbn [mbind option_bind].
  replace (zlen ((key, val) :: b) - zlen b) with 1 in * by (simpl; lia).
  eexists _, Added. split; [done|].
  assert (NoDup (l1 ++ (key, val) :: b ++ l2).*1) as Hnd.
  { rewrite <-Permutation_middle, <-He, fmap_cons. apply NoDup_cons. split; [|apply Hd2].
    by apply not_elem_of_list_to_map. }
  cbn [app] in He'. split_and!; [|done|done|].
  - split; [done|]. by rewrite He'.
  - unfold dict_map. rewrite He', He. by apply dict_map_app_cons.
Qed.

(** The counters account for every entry. *)
Lemma dictSize_entries d : dict_shape d → dictSize d = zlen (entries d).
Proof.
  intros Hs. unfold dictSize, entries. rewrite length_app.
  destruct Hs as [_ E0 E1|tbl _ Hok E1|tbl0 tbl1 _ H0 H1 _].
  - by rewrite E0, E1.
  - rewrite E1, (ok_used _ _ Hok), (ht_entries_ok _ _ Hok). simpl. lia.
  - rewrite (ok_used _ _ H0), (ht_entries_ok _ _ H0), (ok_used _ _ H1), (ht_entries_ok _ _ H1).
    lia.
Qed.

Lemma dictSize_map d : dict_inv d → dictSize d = Z.of_nat (size (dict_map d)).
Proof.
  intros [Hs Hnd]. rewrite (dictSize_entries d Hs). unfold dict_map.
  f_equal. rewrite <-(length_fmap fst (entries d)).
  rewrite <-(size_dom (list_to_map (entries d))), dom_list_to_map_L.
  by rewrite size_list_to_set.
Qed.

Lemma used_nonneg d : dict_shape d → 0 ≤ used (ht0 d) ∧ 0 ≤ used (ht1 d).
Proof.
  intros [_ E0 E1|tbl _ Hok E1|tbl0 tbl1 _ H0 H1 _].
  - rewrite E0, E1. done.
  - rewrite E1, (ok_used _ _ Hok). simpl. lia.
  - rewrite (ok_used _ _ H0), (ok_used _ _ H1). lia.
Qed.

Lemma entries_nil d : dict_shape d → used (ht0 d) + used (ht1 d) = 0 → entries d = [].
Proof.
  intros Hs Hz. apply length_zero_iff_nil. pose proof (dictSize_entries d Hs) as E.
  unfold dictSize in E. lia.
Qed.

Lemma entries_table d : dict_shape d → entries d ≠ [] → table (ht0 d) ≠ None.
Proof.
  intros [_ E0 E1|tbl _ Hok E1|tbl0 tbl1 _ H0 H1 _] Hne.
  - exfalso. apply Hne. unfold entries. by rewrite E0, E1.
  - by rewrite (ok_table _ _ Hok).
  - by rewrite (ok_table _ _ H0).
Qed.

Lemma located_entry d key v pos : located d key v pos → entry_at d pos = Some (key, v).
Proof.
  intros (t & i & p & tbl & b & -> & Hok & Hi & Hp). unfold entry_at.
  rewrite (get_bucket_ok _ _ _ _ Hok Hi). done.
Qed.

Lemma dictFind_spec d key :
  dict_inv d →
  ∃ d', dictFind ty d key = Some (d', (pair key) <$> dict_map d !! key) ∧ dict_inv d' ∧
    dict_map d' = dict_map d ∧ iterators d' = iterators d ∧ entries d' ≡ₚ entries d.
Proof.
  intros Hd. unfold dictFind. destruct (Z.eqb_spec (used (ht0 d) + used (ht1 d)) 0) as [Hz|Hz].
  { exists d. unfold dict_map. rewrite (entries_nil d (proj1 Hd) Hz). done. }
  destruct (maybeRehashStep_spec d Hd) as (d1 & -> & Hd1 & Hm1 & Hp1 & Hi1). cbn [mbind option_bind].
  destruct (search_tables_spec d1 key Hd1) as (r & -> & Hr).
  { apply entries_table; [apply Hd1|]. intros E. rewrite E in Hp1.
    pose proof (dictSize_entries d (proj1 Hd)) as Hs. rewrite <-Hp1 in Hs. done. }
  cbn [mbind option_bind]. rewrite <-Hm1. destruct r as [pos|idx].
  - destruct Hr as [v Hl]. rewrite (located_entry _ _ _ _ Hl), (located_map _ _ _ _ Hd1 Hl).
    by exists d1.
  - destruct Hr as [-> _]. by exists d1.
Qed.

(** Replacing a located entry by the entries [m] of the same key. *)
Lemma located_replace d key v (t : bool) idx p m :
  dict_inv d → located d key v (t, idx, p) → Forall (λ e, e.1 = key) m →
  ∃ b t' l1 l2, get_bucket (ht t d) idx = Some b ∧ b !! p = Some (key, v) ∧
    put_bucket (ht t d) idx (take p b ++ m ++ drop (S p) b) = Some t' ∧
    let d' := set_ht t (add_used (zlen m - 1) t') d in
    dict_shape d' ∧ entries d = l1 ++ (key, v) :: l2 ∧ entries d' = l1 ++ m ++ l2 ∧
    iterators d' = iterators d.
Proof.
  intros [Hs _] (t0 & i & p0 & tbl & b & [= <- -> <-] & Hok & Hi & Hp) Hm.
  pose proof (take_drop_middle b p _ Hp) as Hb.
  assert (∀ e, e ∈ take p b ++ m ++ drop (S p) b →
    Z.land (hashFunction ty e.1) (sizemask (ht t d)) = Z.of_nat i) as Hin.
  { assert (∀ e, e ∈ b → Z.land (hashFunction ty e.1) (sizemask (ht t d)) = Z.of_nat i) as Hin
      by (intros e He; by eapply ok_slot).
    rewrite Forall_forall in Hm. intros e [He|[He|He]%elem_of_app]%elem_of_app.
    - apply Hin. rewrite <-Hb. set_solver.
    - rewrite (Hm e He). apply (Hin (key, v)). by eapply list_elem_of_lookup_2.
    - apply Hin. rewrite <-Hb. set_solver. }
  destruct (update_bucket d t tbl i b (take p b ++ m ++ drop (S p) b))
    as (t' & l1 & l2 & Hput & Hs' & He & He' & Hit & _);
    [done|done|done|done|right; right; by intros ->|].
  exists b, t', (l1 ++ take p b), (drop (S p) b ++ l2).
  assert (zlen (take p b ++ m ++ drop (S p) b) - zlen b = zlen m - 1) as Hlen.
  { rewrite <-Hb at 3. rewrite !length_app. simpl. lia. }
  rewrite Hlen in Hs', He', Hit.
  cbv zeta. split_and!; [by eapply get_bucket_ok|done|done|done| | |done].
  - rewrite He. rewrite <-Hb at 1. by rewrite <-!(assoc_L (++)).
  - rewrite He'. by rewrite <-!(assoc_L (++)).
Qed.

Lemma unlink_at_spec d key v pos :
  dict_inv d → located d key v pos →
  ∃ d', unlink_at d pos = Some d' ∧ dict_inv d' ∧ dict_map d' = delete key (dict_map d) ∧
    iterators d' = iterators d.
Proof.
  intros Hd Hl. destruct pos as [[t idx] p].
  destruct (located_replace d key v t idx p [] Hd Hl)
    as (b & t' & l1 & l2 & Hg & Hp & Hput & Hs & He & He' & Hit); [done|].
  change (zlen (@nil (K * V)) - 1) with (-1) in *. unfold unlink_at. rewrite Hg. cbn [mbind option_bind].
  rewrite delete_take_drop. simpl in Hput. rewrite Hput. cbn [mbind option_bind].
  eexists. split; [done|]. destruct Hd as [_ Hnd]. rewrite He in Hnd.
  destruct (dict_map_app_cons l1 l2 key v Hnd) as (Hmap & Hnone & Hnd').
  split_and!; [split; [done|by rewrite He']| |done].
  unfold dict_map. by rewrite He', He, Hmap, delete_insert_id.
Qed.

Lemma set_val_at_spec d key v w pos :
  dict_inv d → located d key v pos →
  ∃ d', set_val_at d pos w = Some d' ∧ dict_inv d' ∧ dict_map d' = <[key := w]> (dict_map d) ∧
    iterators d' = iterators d.
Proof.
  intros Hd Hl. destruct pos as [[t idx] p].
  destruct (located_replace d key v t idx p [(key, w)] Hd Hl)
    as (b & t' & l1 & l2 & Hg & Hp & Hput & Hs & He & He' & Hit); [by constructor|].
  change (zlen [(key, w)] - 1) with 0 in *. unfold set_val_at. rewrite Hg. cbn [mbind option_bind].
  rewrite Hp. cbn [mbind option_bind fst]. rewrite insert_take_drop by (by eapply lookup_lt_Some).
  simpl in Hput. rewrite Hput. cbn [mbind option_bind].
  replace (add_used 0 t') with t' in *
    by (destruct t'; unfold add_used; simpl; f_equal; lia).
  eexists. split; [done|]. destruct Hd as [_ Hnd]. rewrite He in Hnd.
  destruct (dict_map_app_cons l1 l2 key v Hnd) as (Hmap & Hnone & _).
  assert (NoDup (l1 ++ (key, w) :: l2).*1) as Hnd'
    by (rewrite fmap_app in *; done).
  destruct (dict_map_app_cons l1 l2 key w Hnd') as (Hmap' & _ & _).
  split_and!; [split; [done|by rewrite He']| |done].
  unfold dict_map. rewrite He', He. simpl app. by rewrite Hmap, Hmap', insert_insert_eq.
Qed.

Lemma dictGenericDelete_spec d key :
  dict_inv d →
  ∃ d', dictGenericDelete ty d key = Some (d', pair key <$> dict_map d !! key) ∧ dict_inv d' ∧
    dict_map d' = delete key (dict_map d) ∧ iterators d' = iterators d.
Proof.
  intros Hd. unfold dictGenericDelete. pose proof (used_nonneg d (proj1 Hd)).
  destruct (_ && _) eqn:Hz.
  { exists d. unfold dict_map. rewrite (entries_nil d (proj1 Hd)) by lia. simpl.
    split_and!; [done|done| |done]. by rewrite delete_empty. }
  destruct (maybeRehashStep_spec d Hd) as (d1 & -> & Hd1 & Hm1 & Hp1 & Hi1). cbn [mbind option_bind].
  destruct (search_tables_spec d1 key Hd1) as (r & -> & Hr).
  { apply entries_table; [apply Hd1|]. intros E. rewrite E in Hp1.
    pose proof (dictSize_entries d (proj1 Hd)) as Hs. rewrite <-Hp1 in Hs.
    unfold dictSize in Hs. simpl in Hs. lia. }
  cbn [mbind option_bind]. rewrite <-Hm1, <-Hi1. destruct r as [pos|idx].
  - destruct Hr as [v Hl]. rewrite (located_entry _ _ _ _ Hl), (located_map _ _ _ _ Hd1 Hl).
    cbn [mbind option_bind]. destruct (unlink_at_spec _ _ _ _ Hd1 Hl) as (d2 & -> & ?).
    cbn [mbind option_bind]. by exists d2.
  - destruct Hr as [Hn _]. rewrite Hn. exists d1. split_and!; [done..| |done].
    by rewrite delete_id.
Qed.
End Invariant.

(** ** Histories of operations

    A client drives one dictionary through any sequence of API calls, interleaved with
    incremental rehashing, resizing and safe iterators that suspend rehashing.  The
    results the client sees are those of a finite map. *)

Section History.
Context {K V : Type} `{Countable K} (ty : dictType K).

(** [cr] is the value of the global [dict_can_resize] at the time of the call. *)
Inductive dict_op :=
  | OpAdd (cr : bool) (k : K) (v : V)
  | OpReplace (cr : bool) (k : K) (v : V)
  | OpAddOrFind (cr : bool) (k : K) (v : V)
  | OpDelete (k : K)
  | OpUnlink (k : K)
  | OpFetch (k : K)
  | OpSize
  | OpRehash (n : nat)
  | OpResize (cr : bool)
  | OpExpand (size : Z)
  | OpIterators (n : Z)
  | OpEmpty.

Inductive dict_res :=
  | RStatus (st : dict_status)
  | RBool (b : bool)
  | RVal (v : option V)
  | REntry (e : option (K * V))
  | RCount (n : Z)
  | RNone.

(** A safe iterator changes the [iterators] counter and nothing else. *)
Definition set_iterators (n : Z) (d : dict K V) : dict K V :=
  mkDict (ht0 d) (ht1 d) (rehashidx d) n.

(** The results of [dictRehash], [dictResize] and [dictExpand] tell how the tables are
    laid out and are not part of the map. *)
Definition run_op (d : dict K V) (op : dict_op) : option (dict K V * dict_res) :=
  match op with
  | OpAdd cr k v => '(d, st) ← dictAdd ty cr d k v; Some (d, RStatus st)
  | OpReplace cr k v => '(d, b) ← dictReplace ty cr d k v; Some (d, RBool b)
  | OpAddOrFind cr k v => '(d, w) ← dictAddOrFind ty cr d k v; Some (d, RVal w)
  | OpDelete k => '(d, st) ← dictDelete ty d k; Some (d, RStatus st)
  | OpUnlink k => '(d, e) ← dictUnlink ty d k; Some (d, REntry e)
  | OpFetch k => '(d, w) ← dictFetchValue ty d k; Some (d, RVal w)
  | OpSize => Some (d, RCount (dictSize d))
  | OpRehash n => '(d, _) ← dictRehash ty d n; Some (d, RNone)
  | OpResize cr => '(d, _) ← dictResize cr d; Some (d, RNone)
  | OpExpand size => '(d, _) ← dictExpand d size; Some (d, RNone)
  | OpIterators n => Some (set_iterators n d, RNone)
  | OpEmpty => Some (dictEmpty d, RNone)
  end.

Fixpoint run_ops (d : dict K V) (ops : list dict_op) : option (dict K V * list dict_res) :=
  match ops with
  | [] => Some (d, [])
  | op :: ops =>
      '(d, r) ← run_op d op;
      '(d, rs) ← run_ops d ops;
      Some (d, r :: rs)
  end.

(** The same operations on a finite map. *)
Definition map_op (m : gmap K V) (op : dict_op) : gmap K V * dict_res :=
  match op with
  | OpAdd _ k v =>
      match m !! k with
      | Some _ => (m, RStatus DICT_ERR)
      | None => (<[k := v]> m, RStatus DICT_OK)
      end
  | OpReplace _ k v => (<[k := v]> m, RBool (bool_decide (m !! k = None)))
  | OpAddOrFind _ k v =>
      match m !! k with
      | Some w => (m, RVal (Some w))
      | None => (<[k := v]> m, RVal (Some v))
      end
  | OpDelete k =>
      (delete k m, RStatus (if decide (is_Some (m !! k)) then DICT_OK else DICT_ERR))
  | OpUnlink k => (delete k m, REntry (pair k <$> m !! k))
  | OpFetch k => (m, RVal (m !! k))
  | OpSize => (m, RCount (Z.of_nat (size m)))
  | OpRehash _ | OpResize _ | OpExpand _ | OpIterators _ => (m, RNone)
  | OpEmpty => (∅, RNone)
  end.

Fixpoint map_ops (m : gmap K V) (ops : list dict_op) : gmap K V * list dict_res :=
  match ops with
  | [] => (m, [])
  | op :: ops =>
      let '(m, r) := map_op m op in
      let '(m, rs) := map_ops m ops in
      (m, r :: rs)
  end.

(** An explicit expansion asks for a table that can be allocated. *)
Definition op_ok (op : dict_op) : Prop :=
  match op with OpExpand size => size ≤ 2 ^ 60 | _ => True end.

Context `{!DictTypeOk ty}.
Implicit Types (d : dict K V).

Lemma dictExpand_op d size :
  dict_inv ty d → size ≤ 2 ^ 63 →
  ∃ d' st, dictExpand d size = Some (d', st) ∧ dict_inv ty d' ∧ dict_map d' = dict_map d.
Proof.
  intros Hd Hs. destruct (dictExpand_spec ty d size) as (d' & st & He & ? & ? & _); [done..|].
  by exists d', st.
Qed.

Lemma size_small d : dict_inv ty d → Z.of_nat (size (dict_map d)) < 2 ^ 62 → dict_small d.
Proof.
  intros Hd Hsz. unfold dict_small. rewrite <-(dictSize_entries ty d) by apply Hd.
  by rewrite (dictSize_map ty d Hd).
Qed.

Lemma run_op_spec d op :
  dict_inv ty d → op_ok op → Z.of_nat (size (dict_map d)) < 2 ^ 62 →
  ∃ d', run_op d op = Some (d', (map_op (dict_map d) op).2) ∧ dict_inv ty d' ∧
    dict_map d' = (map_op (dict_map d) op).1.
Proof.
  intros Hd Hop Hsz. pose proof (size_small d Hd Hsz) as Hsm.
  destruct op as [cr k v|cr k v|cr k v|k|k|k| |n|cr|sz|n|]; simpl.
  - unfold dictAdd. destruct (dictAddRaw_spec ty cr d k v Hd Hsm) as (d' & r & -> & Hd' & _ & Hr).
    destruct (dict_map d !! k); [destruct Hr as (? & -> & _ & ?)|destruct Hr as (-> & ?)];
      by exists d'.
  - unfold dictReplace.
    destruct (dictAddRaw_spec ty cr d k v Hd Hsm) as (d' & r & -> & Hd' & _ & Hr).
    destruct (dict_map d !! k) as [w|]; [destruct Hr as (pos & -> & Hl & Hm)|destruct Hr as (-> & ?)].
    + cbn [mbind option_bind].
      destruct (set_val_at_spec ty d' k w v pos Hd' Hl) as (d2 & -> & ? & Hm2 & _).
      rewrite Hm in Hm2. by exists d2.
    + by exists d'.
  - unfold dictAddOrFind.
    destruct (dictAddRaw_spec ty cr d k v Hd Hsm) as (d' & r & -> & Hd' & _ & Hr).
    destruct (dict_map d !! k) as [w|]; [destruct Hr as (pos & -> & Hl & Hm)|destruct Hr as (-> & ?)].
    + cbn [mbind option_bind]. rewrite (located_entry ty _ _ _ _ Hl). by exists d'.
    + by exists d'.
  - unfold dictDelete. destruct (dictGenericDelete_spec ty d k Hd) as (d' & -> & ? & ? & _).
    exists d'. split_and!; [|done..]. by destruct (dict_map d !! k).
  - unfold dictUnlink. destruct (dictGenericDelete_spec ty d k Hd) as (d' & -> & ? & ? & _).
    by exists d'.
  - unfold dictFetchValue. destruct (dictFind_spec ty d k Hd) as (d' & -> & ? & ? & _).
    exists d'. split_and!; [|done..]. by destruct (dict_map d !! k).
  - exists d. by rewrite (dictSize_map ty d Hd).
  - destruct (dictRehash_spec ty d n) as (d' & more & -> & Hs & Hp & _); [apply Hd|].
    exists d'. destruct (dict_inv_perm ty d d' Hd Hs Hp). done.
  - unfold dictResize. destruct (_ || _); [by exists d|].
    destruct (dictExpand_op d (if s32 (used (ht0 d)) <? DICT_HT_INITIAL_SIZE
      then DICT_HT_INITIAL_SIZE else s32 (used (ht0 d)))) as (d' & st & -> & ? & ?);
      [done| |by exists d'].
    unfold DICT_HT_INITIAL_SIZE, wrap_s, to_signed, wrap_u. destruct (_ <? _); [lia|].
    pose proof (Z.mod_pos_bound (used (ht0 d)) (2 ^ 32)). destruct (_ <? _); lia.
  - destruct (dictExpand_op d sz) as (d' & st & -> & ? & ?); [done|simpl in Hop; lia|].
    by exists d'.
  - exists (set_iterators n d). split_and!; [done| |done]. destruct Hd as [Hs Hnd].
    split; [|done]. destruct Hs; [by apply shape_empty|by eapply shape_single|by eapply shape_rehash].
  - exists (dictEmpty d). split_and!; [done| |done]. split; [by apply shape_empty|]. constructor.
Qed.

Lemma map_op_size m op :
  (size (map_op m op).1 ≤ S (size m))%nat.
Proof.
  assert (∀ k v, size (<[k := v]> m) ≤ S (size m))%nat as Hins.
  { intros k v. rewrite map_size_insert. destruct (m !! k); simpl; lia. }
  assert (∀ k, size (delete k m) ≤ S (size m))%nat as Hdel.
  { intros k. rewrite map_size_delete. destruct (m !! k); simpl; lia. }
  destruct op; simpl; try (destruct (m !! _); simpl); auto; try lia.
  rewrite map_size_empty. lia.
Qed.

Lemma run_ops_spec ops d :
  dict_inv ty d → Forall op_ok ops →
  Z.of_nat (size (dict_map d)) + zlen ops ≤ 2 ^ 62 →
  ∃ d', run_ops d ops = Some (d', (map_ops (dict_map d) ops).2) ∧ dict_inv ty d' ∧
    dict_map d' = (map_ops (dict_map d) ops).1.
Proof.
  revert d. induction ops as [|op ops IH]; intros d Hd Hop Hsz; [by exists d|].
  apply Forall_cons in Hop as [Hop Hops]. simpl in Hsz |- *.
  destruct (run_op_spec d op Hd Hop) as (d1 & -> & Hd1 & Hm1); [lia|]. cbn [mbind option_bind].
  pose proof (map_op_size (dict_map d) op) as Hgrow. rewrite <-Hm1 in Hgrow.
  destruct (IH d1 Hd1 Hops) as (d2 & -> & Hd2 & Hm2); [lia|]. cbn [mbind option_bind].
  exists d2. rewrite Hm1 in *. destruct (map_op (dict_map d) op) as [m r]. simpl in *.
  by destruct (map_ops m ops).
Qed.

Lemma dictCreate_inv : dict_inv ty (dictCreate (K:=K) (V:=V)).
Proof. split; [by apply shape_empty|constructor]. Qed.

(** Calling [dictRehash d n] until it answers 0, as [dictRehashMilliseconds] does within
    its time slice. *)
Fixpoint dictRehash_all (fuel n : nat) (d : dict K V) : option (dict K V) :=
  match fuel with
  | O => None
  | S fuel =>
      '(d, more) ← dictRehash ty d n;
      if (more : bool) then dictRehash_all fuel n d else Some d
  end.

Lemma dictRehash_all_spec fuel n d :
  (0 < n)%nat → dict_inv ty d →
  (dictIsRehashing d = true → htsize (ht0 d) - rehashidx d + 1 < Z.of_nat fuel) → (0 < fuel)%nat →
  ∃ d', dictRehash_all fuel n d = Some d' ∧ dictIsRehashing d' = false ∧ dict_inv ty d' ∧
    dict_map d' = dict_map d.
Proof.
  intros Hn. revert d. induction fuel as [|fuel IH]; intros d Hd Hf Hpos; [lia|]. simpl.
  destruct (dictRehash_spec ty d n) as (d1 & more & E & Hs1 & Hp1 & _ & Hdone & Hmore); [apply Hd|].
  rewrite E. cbn [mbind option_bind].
  destruct (dict_inv_perm ty d d1 Hd Hs1 Hp1) as [Hd1 Hm1]. rewrite <-Hm1. destruct more.
  - destruct Hmore as (Hr & Hsz & Hle & Hadv); [done|].
    assert (dictIsRehashing d = true) as Hreh.
    { destruct (dictIsRehashing d) eqn:E2; [done|]. unfold dictRehash in E.
      rewrite E2 in E. simpl in E. congruence. }
    specialize (Hf Hreh). specialize (Hadv Hn). apply IH; [done|intros _; lia|lia].
  - exists d1. split_and!; try done. unfold dictIsRehashing. by rewrite Hdone.
Qed.

(** C5: a dictionary driven from [dictCreate] through any sequence of additions,
    replacements, deletions, unlinks, lookups, resizes, expansions, rehashing steps and
    iterator changes runs without a failed assertion or an out of range access, returns
    the results of a finite map, and ends in a well-formed state that represents that
    map, whatever the hash function and the resize policy. *)
Theorem dict_refines_map (ops : list dict_op) :
  Forall op_ok ops → zlen ops ≤ 2 ^ 62 →
  ∃ d, run_ops dictCreate ops = Some (d, (map_ops ∅ ops).2) ∧
    dict_inv ty d ∧ dict_map d = (map_ops ∅ ops).1.
Proof. intros Hok Hlen. apply (run_ops_spec ops dictCreate); [apply dictCreate_inv|done..]. Qed.

(** C6: an incremental rehashing terminates: from any well-formed state, at most
    [htsize + 2] calls of [dictRehash] with a positive step count bring the dictionary
    back to a single table, with the contents unchanged. *)
Theorem dictRehash_completes (n : nat) d :
  (0 < n)%nat → dict_inv ty d →
  ∃ d', dictRehash_all (Z.to_nat (htsize (ht0 d) + 2)) n d = Some d' ∧
    dictIsRehashing d' = false ∧ dict_inv ty d' ∧ dict_map d' = dict_map d.
Proof.
  intros Hn Hd.
  assert (0 ≤ htsize (ht0 d) ∧ (dictIsRehashing d = true → 0 ≤ rehashidx d)) as [Hsz Hidx].
  { unfold dictIsRehashing. destruct Hd as [[? E ?|tbl ? Hok _|t0 t1 ? Hok _ _] _].
    - rewrite E. simpl. lia.
    - rewrite <-(ok_size _ _ _ Hok). lia.
    - rewrite <-(ok_size _ _ _ Hok). lia. }
  apply dictRehash_all_spec; [done|done| |lia]. intros Hr. specialize (Hidx Hr). lia.
Qed.
End History.

(** ** A dictionary with integer keys *)

Definition zDictType : dictType Z :=
  {| hashFunction k := k mod 2 ^ 64; keyCompare k1 k2 := k1 =? k2 |}.

#[export] Instance zDictType_ok : DictTypeOk zDictType.
Proof.
  split; simpl.
  - intros k. by apply Z.mod_pos_bound.
  - intros k1 k2. apply Z.eqb_eq.
Qed.

(** Nine additions grow the table to 16 buckets, rehashing on the way. *)
Definition sample_ops : list (dict_op (K:=Z) (V:=Z)) :=
  [OpAdd true 1 10; OpAdd true 5 50; OpAdd true 9 90; OpAdd true 13 130; OpAdd true 17 170;
   OpDelete 5; OpReplace true 9 91; OpIterators 1; OpFetch 13; OpIterators 0; OpRehash 2;
   OpAddOrFind true 9 0; OpUnlink 1; OpAdd true 9 7; OpSize; OpResize true; OpFetch 42].

Lemma dict_refines_map_witness :
  ∃ d, run_ops zDictType dictCreate sample_ops = Some (d,
    [RStatus DICT_OK; RStatus DICT_OK; RStatus DICT_OK; RStatus DICT_OK; RStatus DICT_OK;
     RStatus DICT_OK; RBool false; RNone; RVal (Some 130); RNone; RNone; RVal (Some 91);
     REntry (Some (1, 10)); RStatus DICT_ERR; RCount 3; RNone; RVal None]) ∧
    dict_inv zDictType d ∧ dict_map d = list_to_map [(9, 91); (13, 130); (17, 170)].
Proof.
  destruct (dict_refines_map zDictType sample_ops) as (d & Hr & Hd & Hm);
    [repeat constructor|vm_compute; done|].
  exists d. rewrite Hr, Hm. split_and!; [vm_compute; reflexivity|done|vm_compute; reflexivity].
Defined.

(** A dictionary in the middle of a rehashing. *)
Definition sample_rehashing : option (dict Z Z) :=
  fst <$> run_ops zDictType dictCreate (take 5 sample_ops).

Lemma dictRehash_completes_witness :
  ∃ d d', sample_rehashing = Some d ∧ dictIsRehashing d = true ∧
    dictRehash_all zDictType (Z.to_nat (htsize (ht0 d) + 2)) 1 d = Some d' ∧
    dictIsRehashing d' = false ∧ dict_map d' = dict_map d.
Proof.
  destruct (run_ops_spec zDictType (take 5 sample_ops) dictCreate) as (d & Hrun & Hd & _);
    [apply dictCreate_inv|repeat constructor|vm_compute; done|].
  exists d. destruct (dictRehash_completes zDictType 1 d) as (d' & ? & ? & _ & ?); [lia|done|].
  exists d'. split_and!; try done.
  - unfold sample_rehashing. by rewrite Hrun.
  - vm_compute in Hrun. by injection Hrun as <-.
Defined.
