(* ===== verification/DictScan.v ===== *)
(** The stateless iterator [dictScan] (src/dict.c).

    A client calls [dictScan] with cursor 0, then with the cursor it got, until it gets
    0 back; between the calls the dictionary may be changed, resized and rehashed in any
    way.  The cursor counts in bit-reversed order, so that the buckets already visited
    are those whose reversed index is below the reversed cursor, whatever the size of the
    table.  The main theorem is the guarantee SCAN documents: an element present during
    the whole iteration is returned. *)

From S2P Require Import Prelude Dict.

(** The loop of [rev], on 64 bit words. *)
Fixpoint rev_loop (fuel : nat) (s mask v : Z) : Z :=
  match fuel with
  | O => v
  | S fuel =>
      let s := Z.shiftr s 1 in
      if 0 <? s then
        let mask := Z.lxor mask (u64 (Z.shiftl mask s)) in
        rev_loop fuel s mask
          (Z.lor (Z.land (Z.shiftr v s) mask) (Z.land (u64 (Z.shiftl v s)) (u64 (Z.lnot mask))))
      else v
  end.

(** [rev]: seven tests of the loop condition, from 64 down to 0. *)
Definition rev (v : Z) : Z := rev_loop 7 64 (u64 (-1)) v.

(** [v |= ~m; v = rev(v); v++; v = rev(v);] *)
Definition next_cursor (m v : Z) : Z :=
  rev (u64 (rev (Z.lor v (u64 (Z.lnot m))) + 1)).

Section Scan.
Context {K V : Type}.

(** The [do ... while] loop over the expansions of the cursor in the larger table. *)
Fixpoint dictScan_loop (fuel : nat) (t1 : dictht K V) (m0 m1 v : Z) : option (list (K * V) * Z) :=
  match fuel with
  | O => None
  | S fuel =>
      de ← get_bucket t1 (Z.land v m1);
      let v := next_cursor m1 v in
      if Z.land v (Z.lxor m0 m1) =? 0 then Some (de, v)
      else
        '(out, v) ← dictScan_loop fuel t1 m0 m1 v;
        Some (de ++ out, v)
  end.

(** [dictScan]: the entries passed to the callback, in order, and the next cursor.  The
    loop visits each bucket of the larger table at most once. *)
Definition dictScan (d : dict K V) (v : Z) : option (list (K * V) * Z) :=
  if dictSize d =? 0 then Some ([], 0)
  else if negb (dictIsRehashing d) then
    let m0 := sizemask (ht0 d) in
    de ← get_bucket (ht0 d) (Z.land v m0);
    Some (de, next_cursor m0 v)
  else
    let '(t0, t1) := if htsize (ht1 d) <? htsize (ht0 d) then (ht1 d, ht0 d)
                     else (ht0 d, ht1 d) in
    let m0 := sizemask t0 in
    let m1 := sizemask t1 in
    de ← get_bucket t0 (Z.land v m0);
    '(out, v) ← dictScan_loop (Z.to_nat (htsize t1)) t1 m0 m1 v;
    Some (de ++ out, v).

(** An iteration: the dictionary as it is at each call, and the cursor returned. *)
Fixpoint scan_calls (ds : list (dict K V)) (v : Z) : option (list (K * V) * Z) :=
  match ds with
  | [] => Some ([], v)
  | d :: ds =>
      '(out, v) ← dictScan d v;
      '(outs, v) ← scan_calls ds v;
      Some (out ++ outs, v)
  end.

End Scan.

(** ** Bit reversal *)

(** One step of [rev]: bit [i] of the result is bit [i + s] or [i - s] of [v]. *)
Definition rev_step (s mask v : Z) : Z :=
  Z.lor (Z.land (Z.shiftr v s) mask) (Z.land (u64 (Z.shiftl v s)) (u64 (Z.lnot mask))).

Definition rev_sel (s mask i : Z) : Z := if Z.testbit mask i then i + s else i - s.

Lemma rev_step_bit s mask v i :
  0 ≤ s → 0 ≤ i < 64 → Z.testbit (rev_step s mask v) i = Z.testbit v (rev_sel s mask i).
Proof.
  intros Hs Hi. unfold rev_step, rev_sel.
  rewrite Z.lor_spec, !Z.land_spec, !testbit_wrap_u, Z.shiftr_spec, Z.shiftl_spec, Z.lnot_spec by lia.
  rewrite !bool_decide_eq_true_2 by lia. simpl.
  destruct (Z.testbit mask i); simpl.
  - by rewrite andb_true_r, andb_false_r, orb_false_r.
  - by rewrite andb_false_r, andb_true_r.
Qed.

Lemma rev_step_range s mask v : 0 ≤ s → in_u 64 v → in_u 64 mask → in_u 64 (rev_step s mask v).
Proof.
  intros Hs Hv Hm. apply in_u_bits; [lia| |].
  - unfold in_u in *. apply Z.lor_nonneg. split; apply Z.land_nonneg.
    + left. apply Z.shiftr_nonneg. lia.
    + left. apply wrap_u_range. lia.
  - intros i Hi. unfold rev_step.
    rewrite Z.lor_spec, !Z.land_spec, (in_u_high 64 mask), !testbit_wrap_u by (done || lia).
    rewrite bool_decide_eq_false_2 by lia. simpl. by rewrite andb_false_r.
Qed.

(** The six masks of the loop. *)
Definition rev_masks : list (Z * Z) :=
  [(32, 0x00000000FFFFFFFF); (16, 0x0000FFFF0000FFFF); (8, 0x00FF00FF00FF00FF);
   (4, 0x0F0F0F0F0F0F0F0F); (2, 0x3333333333333333); (1, 0x5555555555555555)].

Lemma rev_steps v :
  rev v = fold_left (λ v '(s, mask), rev_step s mask v) rev_masks v.
Proof. reflexivity. Qed.

Lemma rev_range v : in_u 64 v → in_u 64 (rev v).
Proof.
  intros Hv. rewrite rev_steps. unfold rev_masks. simpl.
  repeat (apply rev_step_range; [lia| |unfold in_u; lia]). done.
Qed.

(** [rev] reverses the order of the 64 bits. *)
Lemma rev_bit v i : 0 ≤ i < 64 → Z.testbit (rev v) i = Z.testbit v (63 - i).
Proof.
  intros Hi. rewrite rev_steps. unfold rev_masks. simpl.
  assert (∀ s mask v j, 0 ≤ s → 0 ≤ j < 64 →
    Z.testbit (rev_step s mask v) j = Z.testbit v (rev_sel s mask j)) as Hstep
    by (intros; by apply rev_step_bit).
  assert (∀ f : Z → bool, forallb (λ i, f (Z.of_nat i)) (seq 0 64) = true → f i = true) as Hall.
  { intros f Hf. apply (check_range f 64 Hf). lia. }
  pose (p1 := λ i, rev_sel 1 0x5555555555555555 i).
  pose (p2 := λ i, rev_sel 2 0x3333333333333333 (p1 i)).
  pose (p3 := λ i, rev_sel 4 0x0F0F0F0F0F0F0F0F (p2 i)).
  pose (p4 := λ i, rev_sel 8 0x00FF00FF00FF00FF (p3 i)).
  pose (p5 := λ i, rev_sel 16 0x0000FFFF0000FFFF (p4 i)).
  pose (p6 := λ i, rev_sel 32 0x00000000FFFFFFFF (p5 i)).
  assert ((forallb (λ x, (0 <=? x) && (x <? 64)) [p1 i; p2 i; p3 i; p4 i; p5 i] && (p6 i =? 63 - i)) = true)
    as Hp by (apply (Hall (λ i, forallb (λ x, (0 <=? x) && (x <? 64))
                [p1 i; p2 i; p3 i; p4 i; p5 i] && (p6 i =? 63 - i))); vm_compute; done).
  cbv beta delta [p1 p2 p3 p4 p5 p6] in Hp. cbn [forallb] in Hp. rewrite !Hstep by lia.
  apply (f_equal (Z.testbit v)). lia.
Qed.

Lemma rev_involutive v : in_u 64 v → rev (rev v) = v.
Proof.
  intros Hv. apply (bits_eq_u 64); [by apply rev_range, rev_range|done|].
  intros i Hi. rewrite !rev_bit by lia. f_equal. lia.
Qed.

Lemma rev_0 : rev 0 = 0.
Proof. vm_compute. reflexivity. Qed.

#[local] Opaque rev.

(** ** Cursor arithmetic

    A table of [2 ^ n] buckets has the mask [2 ^ n - 1 = Z.ones n]; the reversed cursor
    of a bucket is a multiple of [2 ^ (64 - n)]. *)

Lemma lor_ones_succ x w : 0 ≤ w → Z.lor x (Z.ones w) + 1 = (x / 2 ^ w + 1) * 2 ^ w.
Proof.
  intros Hw.
  assert (Z.lor x (Z.ones w) = Z.ldiff x (Z.ones w) + Z.ones w) as ->.
  { rewrite Z.add_nocarry_lxor, Z.lxor_lor.
    - apply Z.bits_inj'. intros i Hi. rewrite !Z.lor_spec, Z.ldiff_spec.
      by destruct (Z.testbit x i), (Z.testbit (Z.ones w) i).
    - apply Z.bits_inj'. intros i Hi.
      rewrite Z.land_spec, Z.ldiff_spec, Z.testbit_0_l.
      by destruct (Z.testbit x i), (Z.testbit (Z.ones w) i).
    - apply Z.bits_inj'. intros i Hi.
      rewrite Z.land_spec, Z.ldiff_spec, Z.testbit_0_l.
      by destruct (Z.testbit x i), (Z.testbit (Z.ones w) i). }
  rewrite Z.ldiff_ones_r, Z.shiftl_mul_pow2, Z.shiftr_div_pow2, Z.ones_equiv by lia. lia.
Qed.

Lemma not_mask_bit n i :
  0 ≤ n → 0 ≤ i < 64 → Z.testbit (u64 (Z.lnot (Z.ones n))) i = bool_decide (n ≤ i).
Proof.
  intros Hn Hi. rewrite testbit_wrap_u, Z.lnot_spec, Z.testbit_ones by lia.
  rewrite bool_decide_eq_true_2 by lia. rewrite andb_true_l.
  case_bool_decide; lia.
Qed.

Lemma lor_mask_range n v : in_u 64 v → in_u 64 (Z.lor v (u64 (Z.lnot (Z.ones n)))).
Proof.
  intros Hv. pose proof (wrap_u_range 64 (Z.lnot (Z.ones n)) ltac:(lia)) as Hm.
  apply in_u_bits; [lia| |].
  - unfold in_u in *. apply Z.lor_nonneg. lia.
  - intros i Hi. rewrite Z.lor_spec, (in_u_high 64 v), (in_u_high 64 (u64 _)) by done. done.
Qed.

Lemma next_cursor_rev n v :
  0 ≤ n ≤ 64 → in_u 64 v →
  in_u 64 (next_cursor (Z.ones n) v) ∧
  rev (next_cursor (Z.ones n) v) = u64 ((rev v / 2 ^ (64 - n) + 1) * 2 ^ (64 - n)).
Proof.
  intros Hn Hv. unfold next_cursor.
  pose proof (lor_mask_range n v Hv) as Hl.
  split; [by apply rev_range, wrap_u_range|].
  rewrite rev_involutive by (by apply wrap_u_range). f_equal.
  rewrite <-lor_ones_succ by lia. f_equal.
  apply (bits_eq_u 64); [by apply rev_range| |].
  - pose proof (rev_range v Hv) as Hr. apply in_u_bits; [lia| |].
    + unfold in_u in Hr. apply Z.lor_nonneg. rewrite Z.ones_equiv. lia.
    + intros i Hi. rewrite Z.lor_spec, (in_u_high 64 (rev v)), Z.testbit_ones by (done || lia). lia.
  - intros i Hi. rewrite Z.lor_spec, !rev_bit, Z.lor_spec, not_mask_bit, Z.testbit_ones by lia.
    f_equal. case_bool_decide; lia.
Qed.

(** Hashes with the same reversed prefix are in the same bucket. *)
Lemma same_bucket n h v :
  0 ≤ n ≤ 64 → rev h / 2 ^ (64 - n) = rev v / 2 ^ (64 - n) →
  Z.land h (Z.ones n) = Z.land v (Z.ones n).
Proof.
  intros Hn He. apply Z.bits_inj'. intros i Hi.
  rewrite !Z.land_spec, Z.testbit_ones by lia.
  destruct (decide (i < n)); [|replace (i <? n) with false by lia; by rewrite !andb_false_r].
  f_equal.
  assert (∀ z, Z.testbit z i = Z.testbit (rev z / 2 ^ (64 - n)) (n - 1 - i)) as Hb.
  { intros z. rewrite Z.div_pow2_bits, rev_bit by lia. f_equal. lia. }
  by rewrite !Hb, He.
Qed.

Lemma same_bucket_rev n h v :
  0 ≤ n ≤ 64 → in_u 64 h → in_u 64 v → Z.land h (Z.ones n) = Z.land v (Z.ones n) →
  rev h / 2 ^ (64 - n) = rev v / 2 ^ (64 - n).
Proof.
  intros Hn Hh Hv He. apply Z.bits_inj'. intros i Hi. rewrite !Z.div_pow2_bits by lia.
  destruct (decide (i < n)).
  - rewrite !rev_bit by lia.
    assert (Z.testbit (Z.land h (Z.ones n)) (63 - (i + (64 - n)))
          = Z.testbit (Z.land v (Z.ones n)) (63 - (i + (64 - n)))) as Hb by (by rewrite He).
    by rewrite !Z.land_spec, Z.ones_spec_low, !andb_true_r in Hb by lia.
  - rewrite !(in_u_high 64) by (by apply rev_range || lia). done.
Qed.

Lemma diff_mask_bit n0 n1 i :
  0 ≤ n0 ≤ n1 → 0 ≤ i →
  Z.testbit (Z.lxor (Z.ones n0) (Z.ones n1)) i = bool_decide (n0 ≤ i < n1).
Proof.
  intros Hn Hi. rewrite Z.lxor_spec, !Z.testbit_ones by lia.
  destruct (Z.leb_spec 0 i), (Z.ltb_spec i n0), (Z.ltb_spec i n1); simpl;
    case_bool_decide; (done || lia).
Qed.

(** The loop condition [v & (m0 ^ m1)] of the two-table scan. *)
Lemma diff_mask_zero n0 n1 v :
  0 ≤ n0 ≤ n1 → n1 ≤ 64 → in_u 64 v → rev v mod 2 ^ (64 - n1) = 0 →
  Z.land v (Z.lxor (Z.ones n0) (Z.ones n1)) = 0 ↔ rev v mod 2 ^ (64 - n0) = 0.
Proof.
  intros Hn0 Hn1 Hv Hz. split; intros H0.
  - apply Z.bits_inj'. intros i Hi. rewrite Z.testbit_0_l.
    destruct (decide (i < 64 - n0)); [|apply Z.mod_pow2_bits_high; lia].
    rewrite Z.mod_pow2_bits_low by lia. destruct (decide (i < 64 - n1)).
    + rewrite <-(Z.mod_pow2_bits_low (rev v) (64 - n1)) by lia. rewrite Hz. apply Z.testbit_0_l.
    + rewrite rev_bit by lia.
      assert (Z.testbit (Z.land v (Z.lxor (Z.ones n0) (Z.ones n1))) (63 - i) = false) as Hb
        by (rewrite H0; apply Z.testbit_0_l).
      rewrite Z.land_spec, diff_mask_bit, bool_decide_eq_true_2 in Hb by lia.
      by rewrite andb_true_r in Hb.
  - apply Z.bits_inj'. intros i Hi. rewrite Z.testbit_0_l.
    rewrite Z.land_spec, diff_mask_bit by lia. case_bool_decide as Hr; [|apply andb_false_r].
    assert (Z.testbit (rev v mod 2 ^ (64 - n0)) (63 - i) = false) as Hb
      by (rewrite H0; apply Z.testbit_0_l).
    rewrite Z.mod_pow2_bits_low, rev_bit in Hb by lia.
    replace (63 - (63 - i)) with i in Hb by lia. by rewrite Hb.
Qed.

(** ** What one call visits *)

Section ScanSpec.
Context {K V : Type} `{Countable K} (ty : dictType K) `{!DictTypeOk ty}.
Implicit Types (d : dict K V) (t : dictht K V) (out : list (K * V)).

(** The reversed hash of an entry. *)
Definition rhash (e : K * V) : Z := rev (hashFunction ty e.1).

(** [out] holds entries of [t] only, and all those with a reversed hash in [lo, hi). *)
Definition covers (lo hi : Z) t out : Prop :=
  (∀ e, e ∈ out → e ∈ ht_entries t) ∧
  (∀ e, e ∈ ht_entries t → lo ≤ rhash e < hi → e ∈ out).

Lemma rhash_range e : 0 ≤ rhash e < 2 ^ 64.
Proof. apply rev_range. split; apply hash_range. Qed.

Lemma covers_app lo mid hi t out1 out2 :
  covers lo mid t out1 → covers mid hi t out2 → covers lo hi t (out1 ++ out2).
Proof.
  intros [S1 C1] [S2 C2]. split.
  - intros e [?|?]%elem_of_app; auto.
  - intros e He Hr. apply elem_of_app. destruct (decide (rhash e < mid)).
    + left. apply C1; [done|lia].
    + right. apply C2; [done|lia].
Qed.

Lemma bucket_covers t tbl n v :
  ht_ok ty t tbl → htsize t = 2 ^ n → 0 ≤ n ≤ 64 → in_u 64 v →
  sizemask t = Z.ones n ∧
  ∃ b, get_bucket t (Z.land v (Z.ones n)) = Some b ∧
    let w := 2 ^ (64 - n) in
    covers (rev v / w * w) ((rev v / w + 1) * w) t b.
Proof.
  intros Hok Hsz Hn Hv.
  assert (sizemask t = Z.ones n) as Hm.
  { rewrite (ok_mask _ _ _ Hok), Hsz, Z.ones_equiv. lia. }
  split; [done|].
  assert (0 ≤ Z.land v (Z.ones n) < zlen tbl) as Hr.
  { rewrite (ok_size _ _ _ Hok), Hsz, Z.land_ones by lia. apply Z.mod_pos_bound. lia. }
  destruct (lookup_lt_is_Some_2 tbl (Z.to_nat (Z.land v (Z.ones n)))) as [b Hb]; [lia|].
  exists b. split.
  { rewrite <-(Z2Nat.id (Z.land v (Z.ones n))) by lia. by eapply get_bucket_ok. }
  rewrite <-Hm in *. split; rewrite (ht_entries_ok _ _ _ Hok).
  - intros e He. by eapply elem_of_join_at.
  - intros e (b' & He & (j & Hj)%list_elem_of_lookup)%list_elem_of_join Hint.
    pose proof (ok_slot _ _ _ Hok _ _ _ Hj He) as Hslot.
    assert (Z.land (hashFunction ty e.1) (sizemask t) = Z.land v (sizemask t)) as Heq.
    { rewrite Hm. apply same_bucket; [done|]. fold (rhash e).
      symmetry. apply Z.div_unique with (rhash e - rev v / 2 ^ (64 - n) * 2 ^ (64 - n)); lia. }
    rewrite Hslot in Heq. rewrite <-Heq, Nat2Z.id in Hb. by simplify_eq.
Qed.

(** Blocks of [q] consecutive integers. *)
Lemma block_end a q : 0 < q → a < (a / q + 1) * q ≤ a + q.
Proof.
  intros Hq. pose proof (Z.mod_pos_bound a q Hq) as Hm.
  pose proof (Z.div_mod a q ltac:(lia)) as Hd. lia.
Qed.

Lemma block_succ a q :
  0 < q → (a + 1 = (a / q + 1) * q ∧ (a + 1) mod q = 0) ∨ ((a + 1) / q = a / q ∧ (a + 1) mod q ≠ 0).
Proof.
  intros Hq. pose proof (block_end a q Hq) as He.
  pose proof (Z.mod_pos_bound a q Hq). pose proof (Z.div_mod a q ltac:(lia)) as Hdm.
  destruct (decide (a mod q = q - 1)) as [Hl|Hl].
  - left. assert (a + 1 = (a / q + 1) * q) as E by lia. split; [done|]. rewrite E. apply Z.mod_mul. lia.
  - right. split.
    + symmetry. apply Z.div_unique with (a mod q + 1); lia.
    + rewrite <-(Z.mod_unique (a + 1) q (a / q) (a mod q + 1)); lia.
Qed.

(** A multiple [x * w] of [w] is a multiple of [q * w] as well when [q] divides [x],
    also after the wrap-around to 64 bits. *)
Lemma wrap_mod x q w p :
  0 < q → 0 < w → 0 < p → 2 ^ 64 = p * (q * w) →
  u64 (x * w) mod w = 0 ∧ (u64 (x * w) mod (q * w) = 0 ↔ x mod q = 0).
Proof.
  intros Hq Hw Hp H64. unfold wrap_u. rewrite H64.
  assert ((x * w) mod (p * (q * w)) = (x mod (p * q)) * w) as ->.
  { replace (p * (q * w)) with (p * q * w) by lia. apply Z.mul_mod_distr_r; lia. }
  split; [apply Z.mod_mul; lia|].
  rewrite Z.mul_mod_distr_r, Z.mod_mod_divide by (lia || by exists p).
  split; [|by intros ->]. intros E. apply Z.mul_eq_0_l in E; [done|lia].
Qed.

(** The test of the loop: the cursor is at the end of the block of the smaller table, or the
    next bucket of the larger one is in the same block. *)
Lemma loop_cursor n0 n1 v :
  0 ≤ n0 ≤ n1 → n1 ≤ 64 → in_u 64 v →
  let w1 := 2 ^ (64 - n1) in let q := 2 ^ (n1 - n0) in let a := rev v / w1 in let v' := next_cursor (Z.ones n1) v in
  in_u 64 v' ∧ rev v' = u64 ((a + 1) * w1) ∧
  ((a + 1 = (a / q + 1) * q ∧ (Z.land v' (Z.lxor (Z.ones n0) (Z.ones n1)) =? 0) = true) ∨
   ((a + 1) / q = a / q ∧ (Z.land v' (Z.lxor (Z.ones n0) (Z.ones n1)) =? 0) = false ∧ rev v' / w1 = a + 1)).
Proof.
  intros Hn0 Hn1 Hv w1 q a v'.
  destruct (next_cursor_rev n1 v) as [Hv' Hrev']; [lia|done|]. fold v' w1 a in Hv', Hrev'. split_and!; [done|done|].
  assert (0 < w1 ∧ 0 < q) as [Hw1 Hq] by (unfold w1, q; lia).
  assert (2 ^ (64 - n0) = q * w1) as Hw0.
  { unfold q, w1. rewrite <-Z.pow_add_r by lia. f_equal. lia. }
  assert (2 ^ 64 = 2 ^ n0 * (q * w1)) as H64.
  { rewrite <-Hw0, <-Z.pow_add_r by lia. f_equal. lia. }
  destruct (wrap_mod (a + 1) q w1 (2 ^ n0) Hq Hw1 ltac:(lia) H64) as [Hz1 Hz2].
  rewrite <-Hrev' in Hz1, Hz2.
  pose proof (diff_mask_zero n0 n1 v' Hn0 Hn1 Hv' Hz1) as Hdiff. rewrite Hw0, Hz2 in Hdiff.
  pose proof (rev_range v Hv) as Hrv.
  destruct (block_succ a q Hq) as [[Hend Hmod]|[Hsame Hmod]]; [left; split; [done|by apply Z.eqb_eq, Hdiff]|right].
  split; [done|]. split.
  { destruct (Z.eqb_spec (Z.land v' (Z.lxor (Z.ones n0) (Z.ones n1))) 0) as [E|_]; [by apply Hdiff in E|done]. }
  rewrite Hrev', wrap_u_small; [apply Z.div_mul; lia|].
  unfold in_u in Hrv. assert (0 ≤ a) by (apply Z.div_pos; lia).
  assert (a < 2 ^ n0 * q) by (apply Z.div_lt_upper_bound; lia).
  assert (a + 1 ≠ 2 ^ n0 * q) by (intros E; apply Hmod; rewrite E; apply Z.mod_mul; lia).
  unfold in_u. rewrite H64. split; [lia|]. rewrite (assoc_L Z.mul). apply Z.mul_lt_mono_pos_r; lia.
Qed.

(** The loop visits the buckets of the larger table up to the end of the block of the
    smaller table that holds the cursor. *)
Lemma dictScan_loop_spec fuel t1 tbl1 n0 n1 v :
  ht_ok ty t1 tbl1 → htsize t1 = 2 ^ n1 → 0 ≤ n0 ≤ n1 → n1 ≤ 64 → in_u 64 v →
  let w1 := 2 ^ (64 - n1) in let q := 2 ^ (n1 - n0) in let a := rev v / w1 in
  (a / q + 1) * q - a ≤ Z.of_nat fuel →
  ∃ out v', dictScan_loop fuel t1 (Z.ones n0) (Z.ones n1) v = Some (out, v') ∧ in_u 64 v' ∧
    rev v' = u64 ((a / q + 1) * q * w1) ∧ covers (a * w1) ((a / q + 1) * q * w1) t1 out.
Proof.
  intros Hok Hsz Hn0 Hn1. revert v. induction fuel as [|fuel IH]; intros v Hv w1 q a Hf.
  { pose proof (block_end a q ltac:(unfold q; lia)). lia. }
  destruct (bucket_covers t1 tbl1 n1 v Hok Hsz) as (_ & b & Hb & Hcov); [lia|done|].
  cbn [dictScan_loop]. rewrite Hb. cbn [mbind option_bind].
  destruct (loop_cursor n0 n1 v Hn0 Hn1 Hv) as (Hv' & Hrev' & Hcase). set (v' := next_cursor (Z.ones n1) v) in *.
  cbv zeta in Hcov. fold w1 in Hrev', Hcov, Hcase. fold a in Hrev', Hcov, Hcase. fold q in Hcase.
  destruct Hcase as [[Hend ->]|(Hsame & -> & Ha)].
  - rewrite <-Hend. by exists b, v'.
  - specialize (IH v' Hv'). cbv zeta in IH. fold w1 q in IH. rewrite Ha, Hsame in IH.
    destruct IH as (out & v2 & -> & Hv2 & Hr2 & Hc2); [lia|].
    cbn [mbind option_bind]. exists (b ++ out), v2. split_and!; [done..|]. by eapply covers_app.
Qed.

(** The end of a block is at most 2^64. *)
Lemma block_end_64 n v :
  0 ≤ n ≤ 64 → in_u 64 v → (rev v / 2 ^ (64 - n) + 1) * 2 ^ (64 - n) ≤ 2 ^ 64.
Proof.
  intros Hn Hv. pose proof (rev_range v Hv) as [Hr0 Hr64].
  assert (2 ^ 64 = 2 ^ n * 2 ^ (64 - n)) as H64.
  { rewrite <-Z.pow_add_r by lia. f_equal. lia. }
  rewrite H64. apply Z.mul_le_mono_nonneg_r; [lia|].
  assert (rev v / 2 ^ (64 - n) < 2 ^ n) by (apply Z.div_lt_upper_bound; lia). lia.
Qed.

(** Both tables of a rehashing dictionary, the smaller one first. *)
Lemma scan_two_tables t0 t1 tbl0 tbl1 v :
  ht_ok ty t0 tbl0 → ht_ok ty t1 tbl1 → htsize t0 ≤ htsize t1 → in_u 64 v →
  ∃ b out v' hi, get_bucket t0 (Z.land v (sizemask t0)) = Some b ∧
    dictScan_loop (Z.to_nat (htsize t1)) t1 (sizemask t0) (sizemask t1) v = Some (out, v') ∧
    in_u 64 v' ∧ rev v < hi ≤ 2 ^ 64 ∧ rev v' = u64 hi ∧
    covers (rev v) hi t0 b ∧ covers (rev v) hi t1 out.
Proof.
  intros Hok0 Hok1 Hle Hv.
  destruct (ok_pow _ _ _ Hok0) as (n0 & Hn0 & Hs0), (ok_pow _ _ _ Hok1) as (n1 & Hn1 & Hs1).
  assert (Z.of_nat n0 ≤ Z.of_nat n1) as Hn.
  { apply (Z.pow_le_mono_r_iff 2); lia. }
  destruct (bucket_covers t0 tbl0 (Z.of_nat n0) v Hok0 Hs0) as (Hm0 & b & Hb & [Sb Cb]); [lia|done|].
  destruct (bucket_covers t1 tbl1 (Z.of_nat n1) v Hok1 Hs1) as (Hm1 & _); [lia|done|].
  pose proof (dictScan_loop_spec (Z.to_nat (htsize t1)) t1 tbl1 (Z.of_nat n0) (Z.of_nat n1) v
    Hok1 Hs1 ltac:(lia) ltac:(lia) Hv) as Hloop. cbv zeta in Hloop.
  rewrite Hm0, Hm1. set (w1 := 2 ^ (64 - Z.of_nat n1)) in *.
  set (q := 2 ^ (Z.of_nat n1 - Z.of_nat n0)) in *. set (w0 := 2 ^ (64 - Z.of_nat n0)) in *.
  assert (0 < w1 ∧ 0 < q) as [Hw1 Hq] by (unfold w1, q; lia).
  assert (w0 = q * w1) as Hw0.
  { unfold q, w1, w0. rewrite <-Z.pow_add_r by lia. f_equal. lia. }
  assert (2 ^ 64 = 2 ^ Z.of_nat n0 * w0) as H64.
  { unfold w0. rewrite <-Z.pow_add_r by lia. f_equal. lia. }
  assert (rev v / w1 / q = rev v / w0) as Hdiv.
  { rewrite Z.div_div, Hw0 by lia. f_equal. lia. }
  pose proof (rev_range v Hv) as [Hr0 Hr64].
  pose proof (block_end (rev v / w1) q Hq) as Hb1. pose proof (block_end (rev v) w0 ltac:(lia)) as Hb0.
  pose proof (block_end (rev v) w1 ltac:(lia)) as Hb2.
  pose proof (Z.mul_div_le (rev v) w1 Hw1). pose proof (Z.mul_div_le (rev v) w0 ltac:(lia)).
  destruct Hloop as (out & v' & Hl & Hv' & Hrev & [Sl Cl]).
  { rewrite Hs1. assert (q ≤ 2 ^ Z.of_nat n1) by (apply Z.pow_le_mono_r; lia). lia. }
  replace ((rev v / w1 / q + 1) * q * w1) with ((rev v / w0 + 1) * w0) in * by (rewrite Hdiv, Hw0; lia).
  exists b, out, v', ((rev v / w0 + 1) * w0). split_and!; [done..|lia| |done| |].
  - apply block_end_64; [lia|done].
  - split; [done|]. intros e He Hr. apply Cb; [done|lia].
  - split; [done|]. intros e He Hr. apply Cl; [done|lia].
Qed.

Lemma single_shape d :
  dict_inv ty d → dictSize d ≠ 0 → dictIsRehashing d = false →
  ∃ tbl, ht_ok ty (ht0 d) tbl ∧ ht_entries (ht1 d) = [].
Proof.
  intros [Hs _] Hz Hreh. unfold dictIsRehashing, dictSize in *.
  destruct Hs as [? E0 E1|tbl ? Hok E1|? ? ? ? ? ?].
  - by rewrite E0, E1 in Hz.
  - exists tbl. by rewrite E1.
  - lia.
Qed.

(** One call returns entries of the dictionary, and all those with a reversed hash
    between the reversed cursor and the next one; 2^64 stands for the end. *)
Lemma dictScan_spec d v :
  dict_inv ty d → in_u 64 v →
  ∃ out v' hi, dictScan d v = Some (out, v') ∧ in_u 64 v' ∧ rev v < hi ≤ 2 ^ 64 ∧
    rev v' = u64 hi ∧ (∀ e, e ∈ out → e ∈ entries d) ∧
    (∀ e, e ∈ entries d → rev v ≤ rhash e < hi → e ∈ out).
Proof.
  intros Hd Hv. pose proof (rev_range v Hv) as Hr. unfold dictScan.
  destruct (Z.eqb_spec (dictSize d) 0) as [Hz|Hz].
  { exists [], 0, (2 ^ 64). rewrite (entries_nil ty d (proj1 Hd) Hz). unfold in_u in *.
    split_and!; try done; try lia. }
  destruct (dictIsRehashing d) eqn:Hreh; cbn [negb].
  - destruct (isRehashing_shape ty d (proj1 Hd) Hreh) as (tbl0 & tbl1 & _ & Hok0 & Hok1 & _).
    assert (∀ e, e ∈ entries d ↔ e ∈ ht_entries (ht0 d) ∨ e ∈ ht_entries (ht1 d)) as Hent.
    { intros e. unfold entries. apply elem_of_app. }
    destruct (Z.ltb_spec (htsize (ht1 d)) (htsize (ht0 d))).
    + destruct (scan_two_tables (ht1 d) (ht0 d) tbl1 tbl0 v)
        as (b & out & v' & hi & -> & Hl & ? & ? & ? & [S0 C0] & [S1 C1]); [done|done|lia|done|].
      cbn [mbind option_bind]. rewrite Hl. cbn [mbind option_bind].
      exists (b ++ out), v', hi. split_and!; try done; try lia; set_solver.
    + destruct (scan_two_tables (ht0 d) (ht1 d) tbl0 tbl1 v)
        as (b & out & v' & hi & -> & Hl & ? & ? & ? & [S0 C0] & [S1 C1]); [done|done|lia|done|].
      cbn [mbind option_bind]. rewrite Hl. cbn [mbind option_bind].
      exists (b ++ out), v', hi. split_and!; try done; try lia; set_solver.
  - destruct (single_shape d) as (tbl & Hok & H1); [done..|].
    destruct (ok_pow _ _ _ Hok) as (n & Hn & Hs).
    destruct (bucket_covers (ht0 d) tbl (Z.of_nat n) v Hok Hs) as (Hm & b & Hb & [Sb Cb]); [lia|done|].
    rewrite Hm, Hb. cbn [mbind option_bind].
    destruct (next_cursor_rev (Z.of_nat n) v) as [Hv' Hrev']; [lia|done|].
    set (w := 2 ^ (64 - Z.of_nat n)) in *. cbv zeta in Cb.
    pose proof (block_end (rev v) w ltac:(lia)) as Hbe. pose proof (Z.mul_div_le (rev v) w ltac:(lia)).
    unfold entries. rewrite H1, app_nil_r.
    exists b, (next_cursor (Z.ones (Z.of_nat n)) v), ((rev v / w + 1) * w).
    split_and!; [done..|lia| |done|done|].
    + apply block_end_64; [lia|done].
    + intros e He Hre. apply Cb; [done|lia].
Qed.

(** A series of calls, each on the dictionary as it is then: a key that is in all of
    them has been returned once the reversed cursor has passed its reversed hash. *)
Lemma scan_calls_spec ds v :
  Forall (dict_inv ty) ds → in_u 64 v →
  ∃ out v', scan_calls ds v = Some (out, v') ∧ in_u 64 v' ∧
    (∀ e, e ∈ out → ∃ d, d ∈ ds ∧ e ∈ entries d) ∧
    (∀ k, Forall (λ d, is_Some (dict_map d !! k)) ds → rev v ≤ rev (hashFunction ty k) →
       (∃ w, (k, w) ∈ out) ∨
       (rev v' ≤ rev (hashFunction ty k) ∧ (ds ≠ [] → v' ≠ 0))).
Proof.
  intros Hds. revert v. induction Hds as [|d ds Hd _ IH]; intros v Hv.
  { exists [], v. split_and!; [done|done|set_solver|]. by auto. }
  destruct (dictScan_spec d v Hd Hv) as (out & v1 & hi & Hscan & Hv1 & Hhi & Hrev & Hs & Hc).
  destruct (IH v1 Hv1) as (outs & v2 & Hcalls & Hv2 & Hss & Hcs).
  exists (out ++ outs), v2. split_and!; [|done| |].
  { simpl. rewrite Hscan. cbn [mbind option_bind]. by rewrite Hcalls. }
  { intros e [He|He]%elem_of_app; [exists d; split; [left|by apply Hs]|].
    destruct (Hss e He) as (d' & ? & ?). exists d'. split; [by right|done]. }
  intros k [[w Hw] Hk]%Forall_cons Hle.
  apply (dict_map_lookup ty d k w Hd) in Hw.
  destruct (decide (rev (hashFunction ty k) < hi)) as [Hlt|Hge].
  { left. exists w. apply elem_of_app. left. apply Hc; [done|]. unfold rhash. simpl. lia. }
  assert (hi < 2 ^ 64) as Hhi64 by (pose proof (rhash_range (k, w)) as Hr; unfold rhash in Hr; simpl in Hr; lia).
  assert (rev v1 = hi) as Hr1.
  { rewrite Hrev. pose proof (rev_range v Hv) as [? ?]. apply wrap_u_small. split; lia. }
  destruct (Hcs k Hk) as [[w' Hin]|[Hge2 Hnz]]; [lia|left; exists w'; set_solver|].
  right. split; [done|]. intros _. destruct ds as [|d2 ds]; [|by apply Hnz].
  simpl in Hcalls. injection Hcalls as _ <-. intros ->.
  pose proof (rev_range v Hv) as [? ?]. rewrite rev_0 in Hr1. lia.
Qed.

(** Buckets of one table hold the entries of disjoint ranges of reversed hashes. *)
Lemma bucket_exact t tbl n v b :
  ht_ok ty t tbl → htsize t = 2 ^ n → 0 ≤ n ≤ 64 → in_u 64 v →
  get_bucket t (Z.land v (Z.ones n)) = Some b →
  ∀ e, e ∈ b → rhash e / 2 ^ (64 - n) = rev v / 2 ^ (64 - n).
Proof.
  intros Hok Hsz Hn Hv Hb e He. unfold get_bucket in Hb.
  rewrite (ok_table _ _ _ Hok) in Hb. cbn [mbind option_bind] in Hb. case_decide; [|done].
  pose proof (ok_slot _ _ _ Hok _ _ _ Hb He) as Hslot. rewrite Z2Nat.id in Hslot by done.
  assert (sizemask t = Z.ones n) as Hm.
  { rewrite (ok_mask _ _ _ Hok), Hsz, Z.ones_equiv. lia. }
  rewrite Hm in Hslot. apply same_bucket_rev; [done| |done|done]. split; apply hash_range.
Qed.

Lemma bucket_NoDup t tbl i b :
  ht_ok ty t tbl → NoDup (ht_entries t) → get_bucket t i = Some b → NoDup b.
Proof.
  intros Hok Hnd Hb. unfold get_bucket in Hb.
  rewrite (ok_table _ _ _ Hok) in Hb. cbn [mbind option_bind] in Hb. case_decide; [|done].
  rewrite (ht_entries_ok _ _ _ Hok) in Hnd.
  destruct (join_at tbl _ b Hb) as (l1 & l2 & E & _). rewrite E in Hnd.
  apply NoDup_app in Hnd as (_ & _ & Hnd). by apply NoDup_app in Hnd as (Hnd & _).
Qed.

(** The loop returns each entry once, and only those of the block. *)
Lemma dictScan_loop_exact fuel t1 tbl1 n0 n1 v out v' :
  ht_ok ty t1 tbl1 → NoDup (ht_entries t1) → htsize t1 = 2 ^ n1 → 0 ≤ n0 ≤ n1 → n1 ≤ 64 → in_u 64 v →
  dictScan_loop fuel t1 (Z.ones n0) (Z.ones n1) v = Some (out, v') →
  let w1 := 2 ^ (64 - n1) in let q := 2 ^ (n1 - n0) in let a := rev v / w1 in
  NoDup out ∧ ∀ e, e ∈ out → a * w1 ≤ rhash e < (a / q + 1) * q * w1.
Proof.
  intros Hok Hnd Hsz Hn0 Hn1. revert v out. induction fuel as [|fuel IH]; intros v out Hv Hl w1 q a; [done|].
  cbn [dictScan_loop] in Hl. destruct (get_bucket t1 (Z.land v (Z.ones n1))) as [b|] eqn:Hb; [|done]. cbn [mbind option_bind] in Hl.
  assert (0 < w1 ∧ 0 < q) as [Hw1 Hq] by (unfold w1, q; lia). pose proof (block_end a q Hq) as Hbe.
  pose proof (bucket_NoDup t1 tbl1 _ b Hok Hnd Hb) as Hndb. pose proof (bucket_exact t1 tbl1 n1 v b Hok Hsz ltac:(lia) Hv Hb) as Hex. fold w1 a in Hex.
  assert (∀ e, e ∈ b → a * w1 ≤ rhash e < (a + 1) * w1) as Hin.
  { intros e He. pose proof (block_end (rhash e) w1 Hw1). pose proof (Z.mul_div_le (rhash e) w1 Hw1). rewrite (Hex e He) in *. lia. }
  destruct (loop_cursor n0 n1 v Hn0 Hn1 Hv) as (Hv1 & _ & Hcase). set (v1 := next_cursor (Z.ones n1) v) in *. fold w1 q a in Hcase.
  destruct Hcase as [[Hend Ez]|(Hsame & Ez & Ha)]; rewrite Ez in Hl.
  - injection Hl as <- _. split; [done|]. intros e He. rewrite <-Hend. by apply Hin.
  - destruct (dictScan_loop fuel t1 _ _ v1) as [[out2 v2]|] eqn:El; [|done]. cbn [mbind option_bind] in Hl. injection Hl as <- ->.
    destruct (IH v1 out2 Hv1 El) as [Hnd2 Hin2]. fold w1 q in Hin2. rewrite Ha, Hsame in Hin2. split.
    + apply NoDup_app. split_and!; [done| |done]. intros e He He2. pose proof (Hin e He). pose proof (Hin2 e He2). lia.
    + intros e [He|He]%elem_of_app; [pose proof (Hin e He) as Hr|pose proof (Hin2 e He); lia]. split; [lia|]. assert ((a + 1) * w1 ≤ (a / q + 1) * q * w1) by (apply Z.mul_le_mono_nonneg_r; lia). lia.
Qed.

(** The number of calls of an iteration: the buckets of the smaller table. *)
Definition scan_size d : Z :=
  if dictSize d =? 0 then 1 else if dictIsRehashing d then Z.min (htsize (ht0 d)) (htsize (ht1 d)) else htsize (ht0 d).

(** What one call at the [i]-th bucket returns. *)
Definition scan_exact d (w i v : Z) out : Prop := NoDup out ∧ ∀ e, e ∈ out ↔ e ∈ entries d ∧ i * w ≤ rhash e < (i + 1) * w.

Lemma inv_NoDup d : dict_inv ty d → NoDup (ht_entries (ht0 d) ++ ht_entries (ht1 d)).
Proof. intros [_ Hnd]. unfold entries in Hnd. by apply (NoDup_fmap_1 fst). Qed.

Lemma two_tables_exact t0 t1 tbl0 tbl1 n0 v i :
  ht_ok ty t0 tbl0 → ht_ok ty t1 tbl1 → NoDup (ht_entries t0 ++ ht_entries t1) → htsize t0 ≤ htsize t1 → htsize t0 = 2 ^ n0 → 0 ≤ n0 ≤ 64 → in_u 64 v →
  let w := 2 ^ (64 - n0) in rev v = i * w →
  ∃ b out v', get_bucket t0 (Z.land v (sizemask t0)) = Some b ∧ dictScan_loop (Z.to_nat (htsize t1)) t1 (sizemask t0) (sizemask t1) v = Some (out, v') ∧
    in_u 64 v' ∧ rev v' = u64 ((i + 1) * w) ∧ NoDup (b ++ out) ∧ ∀ e, e ∈ b ++ out ↔ (e ∈ ht_entries t0 ∨ e ∈ ht_entries t1) ∧ i * w ≤ rhash e < (i + 1) * w.
Proof.
  intros Hok0 Hok1 Hnd Hle Hs0 Hn0 Hv w Hr. apply NoDup_app in Hnd as (Hnd0 & Hdisj & Hnd1). destruct (ok_pow _ _ _ Hok1) as (n1' & Hn1 & Hs1). set (n1 := Z.of_nat n1') in *.
  assert (n0 ≤ n1) as Hn by (apply (Z.pow_le_mono_r_iff 2); lia). assert (n1 ≤ 64) as Hn64 by lia.
  destruct (bucket_covers t0 tbl0 n0 v Hok0 Hs0) as (Hm0 & b & Hb & [Sb Cb]); [lia|done|]. destruct (bucket_covers t1 tbl1 n1 v Hok1 Hs1) as (Hm1 & _); [lia|done|].
  set (w1 := 2 ^ (64 - n1)). set (q := 2 ^ (n1 - n0)). assert (0 < w1 ∧ 0 < q ∧ 0 < w) as (Hw1 & Hq & Hw) by (unfold w1, q, w; lia). assert (w = q * w1) as Ew by (unfold q, w1, w; rewrite <-Z.pow_add_r by lia; f_equal; lia).
  assert (rev v / w1 = i * q) as Ha by (rewrite Hr, Ew, (assoc_L Z.mul); apply Z.div_mul; lia). assert (i * q / q = i) as Hai by (apply Z.div_mul; lia). assert (rev v / w = i) as Hdiv by (rewrite Hr; apply Z.div_mul; lia).
  destruct (dictScan_loop_spec (Z.to_nat (htsize t1)) t1 tbl1 n0 n1 v Hok1 Hs1 ltac:(lia) Hn64 Hv) as (out & v' & Hl & Hv' & Hrev & [Sl Cl]).
  { fold w1 q. rewrite Ha, Hai, Hs1. assert (q ≤ 2 ^ n1) by (apply Z.pow_le_mono_r; lia). lia. }
  fold w1 q in Hrev, Cl. rewrite Ha, Hai in *. replace ((i + 1) * q * w1) with ((i + 1) * w) in * by (rewrite Ew; lia). replace (i * q * w1) with (i * w) in * by (rewrite Ew; lia).
  destruct (dictScan_loop_exact _ t1 tbl1 n0 n1 v out v' Hok1 Hnd1 Hs1 ltac:(lia) Hn64 Hv Hl) as [Hndo Hino]. fold w1 q in Hino. rewrite Ha, Hai in Hino. replace ((i + 1) * q * w1) with ((i + 1) * w) in * by (rewrite Ew; lia). replace (i * q * w1) with (i * w) in * by (rewrite Ew; lia).
  pose proof (bucket_NoDup t0 tbl0 _ b Hok0 Hnd0 Hb) as Hndb. pose proof (bucket_exact t0 tbl0 n0 v b Hok0 Hs0 ltac:(lia) Hv Hb) as Hex. cbv zeta in Cb. fold w in Hex, Cb. rewrite Hdiv in Hex, Cb.
  assert (∀ e, e ∈ b → i * w ≤ rhash e < (i + 1) * w) as Hinb. { intros e He. pose proof (block_end (rhash e) w Hw). pose proof (Z.mul_div_le (rhash e) w Hw). rewrite (Hex e He) in *. lia. }
  rewrite Hm0, Hm1. exists b, out, v'. split_and!; [done|done|done|done| |].
  - apply NoDup_app. split_and!; [done| |done]. intros e He He'. eapply Hdisj; [by apply Sb|by apply Sl].
  - intros e. rewrite elem_of_app. split; [intros [He|He]; (split; [naive_solver|naive_solver])|]. intros [[He|He] Hre]; [left; by apply Cb|right; by apply Cl].
Qed.

Lemma dictScan_exact d n v i :
  dict_inv ty d → dictSize d ≠ 0 → scan_size d = 2 ^ n → 0 ≤ n ≤ 64 → in_u 64 v →
  let w := 2 ^ (64 - n) in rev v = i * w →
  ∃ out v', dictScan d v = Some (out, v') ∧ in_u 64 v' ∧ rev v' = u64 ((i + 1) * w) ∧ scan_exact d w i v out.
Proof.
  intros Hd Hz Hsz Hn Hv w Hr. pose proof (inv_NoDup d Hd) as Hnd. unfold dictScan, scan_size in *. rewrite (proj2 (Z.eqb_neq _ _) Hz) in *. unfold scan_exact, entries. destruct (dictIsRehashing d) eqn:Hreh; cbn [negb].
  - destruct (isRehashing_shape ty d (proj1 Hd) Hreh) as (tbl0 & tbl1 & _ & Hok0 & Hok1 & _). destruct (Z.ltb_spec (htsize (ht1 d)) (htsize (ht0 d))).
    + destruct (two_tables_exact (ht1 d) (ht0 d) tbl1 tbl0 n v i) as (b & out & v' & -> & Hl & Hv' & Hrev & Hndo & Hin); [done|done|by rewrite (Permutation_app_comm)|lia|lia|done|done|done|].
      cbn [mbind option_bind]. rewrite Hl. cbn [mbind option_bind]. exists (b ++ out), v'. split_and!; [done..|]. intros e. rewrite Hin, elem_of_app. tauto.
    + destruct (two_tables_exact (ht0 d) (ht1 d) tbl0 tbl1 n v i) as (b & out & v' & -> & Hl & Hv' & Hrev & Hndo & Hin); [done|done|done|lia|lia|done|done|done|].
      cbn [mbind option_bind]. rewrite Hl. cbn [mbind option_bind]. exists (b ++ out), v'. split_and!; [done..|]. intros e. rewrite Hin, elem_of_app. tauto.
  - destruct (single_shape d Hd Hz Hreh) as (tbl & Hok & H1). rewrite H1, app_nil_r in *. assert (0 < w) as Hw by (unfold w; lia).
    destruct (bucket_covers (ht0 d) tbl n v Hok Hsz Hn Hv) as (Hm & b & Hb & [Sb Cb]). pose proof (bucket_exact (ht0 d) tbl n v b Hok Hsz Hn Hv Hb) as Hex. cbv zeta in Cb. fold w in Hex, Cb. assert (rev v / w = i) as Hdiv by (rewrite Hr; apply Z.div_mul; lia). rewrite Hdiv in Hex, Cb.
    destruct (next_cursor_rev n v Hn Hv) as [Hv' Hrev']. fold w in Hrev'. rewrite Hdiv in Hrev'. rewrite Hm, Hb. cbn [mbind option_bind]. exists b, (next_cursor (Z.ones n) v). split_and!; [done|done|done|by eapply bucket_NoDup|].
    intros e. split; [|intros [He Hre]; by apply Cb]. intros He. split; [by apply Sb|]. pose proof (block_end (rhash e) w Hw). pose proof (Z.mul_div_le (rhash e) w Hw). rewrite (Hex e He) in *. lia.
Qed.

(** [k] calls on an unchanged dictionary, from the cursor of the [i]-th bucket. *)
Lemma scan_static_spec d n k i v :
  dict_inv ty d → dictSize d ≠ 0 → scan_size d = 2 ^ n → 0 ≤ n ≤ 64 →
  in_u 64 v → 0 ≤ i → let w := 2 ^ (64 - n) in
  (k ≠ 0%nat → rev v = i * w) → i + Z.of_nat k ≤ 2 ^ n →
  ∃ out v', scan_calls (replicate k d) v = Some (out, v') ∧ in_u 64 v' ∧
    (k ≠ 0%nat → rev v' = u64 ((i + Z.of_nat k) * w)) ∧ NoDup out ∧
    ∀ e, e ∈ out ↔ e ∈ entries d ∧ i * w ≤ rhash e < (i + Z.of_nat k) * w.
Proof.
  intros Hd Hz Hsz Hn Hv Hi w. revert i v Hv Hi.
  induction k as [|k IH]; intros i v Hv Hi Hr Hk.
  { exists [], v. split_and!; try done; [constructor|]. intros e. split; [set_solver|]. lia. }
  specialize (Hr ltac:(done)). assert (0 < w) as Hw by (unfold w; lia).
  destruct (dictScan_exact d n v i Hd Hz Hsz Hn Hv Hr) as (b & v1 & Hscan & Hv1 & Hrev1 & Hndb & Hinb). fold w in Hrev1, Hinb.
  destruct (IH (i + 1) v1) as (out & v2 & Hcalls & Hv2 & Hr2 & Hnd & Hout); [done|lia| |lia|].
  { intros Hk0. rewrite Hrev1. apply wrap_u_small. unfold in_u.
    assert (2 ^ 64 = 2 ^ n * w) as ->.
    { unfold w. rewrite <-Z.pow_add_r by lia. f_equal. lia. }
    split; [lia|]. apply Z.mul_lt_mono_pos_r; lia. }
  exists (b ++ out), v2. split_and!; [|done| | |].
  - simpl. rewrite Hscan. cbn [mbind option_bind]. by rewrite Hcalls.
  - intros _. destruct k as [|k]; [|rewrite Hr2 by done; f_equal; lia].
    simpl in Hcalls. injection Hcalls as _ <-. by rewrite Hrev1.
  - apply NoDup_app. split_and!; [done| |done]. intros e He%Hinb [_ Hge]%Hout. lia.
  - intros e. rewrite elem_of_app, Hout, Hinb. split; [intros [[He Hr']|[He Hr']]; (split; [done|lia])|]. intros [He Hr']. destruct (decide (rhash e < (i + 1) * w)); [left|right]; (split; [done|lia]).
Qed.

Lemma scan_size_pow d : dict_inv ty d → dictSize d ≠ 0 → ∃ n, scan_size d = 2 ^ n ∧ 0 ≤ n ≤ 64.
Proof.
  intros Hd Hz. unfold scan_size. rewrite (proj2 (Z.eqb_neq _ _) Hz). destruct (dictIsRehashing d) eqn:Hreh.
  - destruct (isRehashing_shape ty d (proj1 Hd) Hreh) as (tbl0 & tbl1 & _ & Hok0 & Hok1 & _). destruct (ok_pow _ _ _ Hok0) as (n0 & Hn0 & Hs0), (ok_pow _ _ _ Hok1) as (n1 & Hn1 & Hs1). destruct (Z.min_spec (htsize (ht0 d)) (htsize (ht1 d))) as [[_ ->]|[_ ->]]; [exists (Z.of_nat n0)|exists (Z.of_nat n1)]; (split; [done|lia]).
  - destruct (single_shape d Hd Hz Hreh) as (tbl & Hok & _). destruct (ok_pow _ _ _ Hok) as (n & Hn & Hs). exists (Z.of_nat n). split; [done|lia].
Qed.

(** C7: the guarantee of SCAN.  A series of [dictScan] calls that starts with cursor 0,
    over any well-formed states of the dictionary (the calls may be separated by
    insertions, deletions, resizes and rehashing steps), always returns, returns only
    entries of those states, and when the last cursor is 0 every key that was present in
    all the states has been returned. *)
Theorem dictScan_guarantee (ds : list (dict K V)) :
  Forall (dict_inv ty) ds →
  ∃ out v, scan_calls ds 0 = Some (out, v) ∧
    (∀ e, e ∈ out → ∃ d, d ∈ ds ∧ e ∈ entries d) ∧
    (ds ≠ [] → v = 0 →
       ∀ k, Forall (λ d, is_Some (dict_map d !! k)) ds → ∃ w, (k, w) ∈ out).
Proof.
  intros Hds. destruct (scan_calls_spec ds 0 Hds) as (out & v & Hs & _ & Hin & Hall); [done|].
  exists out, v. split_and!; [done..|]. intros Hne -> k Hk.
  destruct (Hall k Hk) as [|[_ Hnz]]; [|done|by specialize (Hnz Hne)].
  rewrite rev_0.
  apply rev_range. split; apply hash_range.
Qed.

(** C8: on a dictionary that does not change between the calls, be it empty, with one table or
    in the middle of a rehashing, the iteration ends after exactly [scan_size] calls (one for an
    empty dictionary, the buckets of its table, or of the smaller table when it is rehashing), not
    before, and returns every entry exactly once. *)
Theorem dictScan_static_exact (d : dict K V) :
  dict_inv ty d →
  (∃ out, scan_calls (replicate (Z.to_nat (scan_size d)) d) 0 = Some (out, 0) ∧ out ≡ₚ entries d) ∧
  (∀ k, 0 < Z.of_nat k < scan_size d → ∃ out v, scan_calls (replicate k d) 0 = Some (out, v) ∧ v ≠ 0).
Proof.
  intros Hd. destruct (decide (dictSize d = 0)) as [Hz|Hz].
  { assert (scan_size d = 1) as -> by (unfold scan_size; by rewrite Hz). split; [|lia]. exists []. split; [|by rewrite (entries_nil ty d (proj1 Hd) Hz)]. change (Z.to_nat 1) with 1%nat. cbn [replicate scan_calls]. unfold dictScan. by rewrite Hz. }
  destruct (scan_size_pow d Hd Hz) as (n & Hs & Hn). assert (2 ^ 64 = 2 ^ n * 2 ^ (64 - n)) as H64 by (rewrite <-Z.pow_add_r by lia; f_equal; lia).
  assert (∀ k, Z.of_nat k ≤ 2 ^ n → k ≠ 0%nat → _) as Hstat
    by (intros k Hk Hk0; exact (scan_static_spec d n k 0 0 Hd Hz Hs Hn ltac:(done) ltac:(done) ltac:(done) ltac:(lia))).
  cbv zeta in Hstat. split.
  - destruct (Hstat (Z.to_nat (scan_size d))) as (out & v & Hc & Hv & Hr & Hnd & Hout); [lia|lia|].
    rewrite Z2Nat.id, Z.add_0_l, Hs, <-H64 in * by lia. exists out.
    assert (v = 0) as -> by (rewrite <-(rev_involutive v Hv), Hr by lia; done).
    split; [done|]. apply NoDup_Permutation; [done|by apply inv_NoDup|]. intros e. rewrite Hout. pose proof (rhash_range e). split; [by intros [? _]|]. by split.
  - intros k Hk. destruct (Hstat k) as (out & v & Hc & Hv & Hr & _); [lia|lia|].
    exists out, v. split; [done|]. intros ->. specialize (Hr ltac:(lia)). rewrite Z.add_0_l, wrap_u_small in Hr.
    + rewrite rev_0 in Hr. lia.
    + split; [lia|]. rewrite H64. apply Z.mul_lt_mono_pos_r; lia.
Qed.
End ScanSpec.

(** A dictionary of five keys, before and after it grows. *)
Definition scan_dict (n : nat) : option (dict Z Z) :=
  fst <$> run_ops zDictType dictCreate (take n sample_ops).

Lemma scan_dict_inv n d :
  (n ≤ length sample_ops)%nat → scan_dict n = Some d → dict_inv zDictType d.
Proof.
  intros Hn. destruct (run_ops_spec zDictType (take n sample_ops) dictCreate) as (d' & Hrun & Hd & _).
  - apply dictCreate_inv.
  - apply Forall_take. repeat constructor.
  - rewrite length_take. change (size (dict_map dictCreate)) with 0%nat. simpl in *. lia.
  - unfold scan_dict. rewrite Hrun. by intros [= <-].
Qed.

Definition scan_d4 : dict Z Z := Eval vm_compute in default dictCreate (scan_dict 4).
Definition scan_d5 : dict Z Z := Eval vm_compute in default dictCreate (scan_dict 5).

Lemma scan_d4_inv : dict_inv zDictType scan_d4.
Proof. apply (scan_dict_inv 4); [simpl; lia|]. vm_compute. reflexivity. Qed.

Lemma scan_d5_inv : dict_inv zDictType scan_d5.
Proof. apply (scan_dict_inv 5); [simpl; lia|]. vm_compute. reflexivity. Qed.

Definition scan_out : list (Z * Z) :=
  Eval vm_compute in default [] (fst <$> scan_calls [scan_d4; scan_d5; scan_d5; scan_d5] 0).

(** The iteration sees the table of 4 buckets, then 8 buckets being filled. *)
Lemma dictScan_guarantee_witness :
  dictIsRehashing scan_d5 = true ∧
  scan_calls [scan_d4; scan_d5; scan_d5; scan_d5] 0 = Some (scan_out, 0) ∧
  ∃ w, (13, w) ∈ scan_out.
Proof.
  assert (scan_calls [scan_d4; scan_d5; scan_d5; scan_d5] 0 = Some (scan_out, 0)) as E
    by (vm_compute; reflexivity).
  split; [reflexivity|]. split; [exact E|].
  destruct (dictScan_guarantee zDictType [scan_d4; scan_d5; scan_d5; scan_d5]) as (out & v & Hs & _ & Hk).
  - rewrite !Forall_cons. split_and!; [apply scan_d4_inv|apply scan_d5_inv..|constructor].
  - rewrite E in Hs. injection Hs as <- <-. apply Hk; [discriminate|reflexivity|].
    repeat (apply Forall_cons; split; [eexists; vm_compute; reflexivity|]). constructor.
Defined.

(** A dictionary with four buckets, and one that moves from four buckets to eight. *)
Lemma dictScan_static_exact_witness :
  dictIsRehashing scan_d5 = true ∧
  (∃ out, scan_calls (replicate 4 scan_d4) 0 = Some (out, 0) ∧ out ≡ₚ [(13, 130); (9, 90); (5, 50); (1, 10)]) ∧
  (∃ out, scan_calls (replicate 4 scan_d5) 0 = Some (out, 0) ∧ out ≡ₚ entries scan_d5).
Proof.
  split; [reflexivity|]. split.
  - destruct (dictScan_static_exact zDictType scan_d4) as [(out & Hc & Hp) _]; [apply scan_d4_inv|]. exists out. split; [exact Hc|exact Hp].
  - destruct (dictScan_static_exact zDictType scan_d5) as [(out & Hc & Hp) _]; [apply scan_d5_inv|]. exists out. split; [exact Hc|exact Hp].
Defined.
