(* ===== verification/Crc.v ===== *)
(** Checksums: CRC16 of keys (src/crc16.c), hash slots (src/cluster.c) and the CRC64 of
    RDB files (src/crc64.c).

    Both routines are table driven.  CRC16 is shown to be the remainder of the division
    of the message polynomial by the CCITT polynomial, CRC64 to be the bit-serial
    register of the reflected Jones polynomial and to detect every corruption of up to
    eight consecutive bytes. *)

From S2P Require Import Prelude.

Definition crc16tab : list Z :=
  [0x0000; 0x1021; 0x2042; 0x3063; 0x4084; 0x50a5; 0x60c6; 0x70e7;
   0x8108; 0x9129; 0xa14a; 0xb16b; 0xc18c; 0xd1ad; 0xe1ce; 0xf1ef;
   0x1231; 0x0210; 0x3273; 0x2252; 0x52b5; 0x4294; 0x72f7; 0x62d6;
   0x9339; 0x8318; 0xb37b; 0xa35a; 0xd3bd; 0xc39c; 0xf3ff; 0xe3de;
   0x2462; 0x3443; 0x0420; 0x1401; 0x64e6; 0x74c7; 0x44a4; 0x5485;
   0xa56a; 0xb54b; 0x8528; 0x9509; 0xe5ee; 0xf5cf; 0xc5ac; 0xd58d;
   0x3653; 0x2672; 0x1611; 0x0630; 0x76d7; 0x66f6; 0x5695; 0x46b4;
   0xb75b; 0xa77a; 0x9719; 0x8738; 0xf7df; 0xe7fe; 0xd79d; 0xc7bc;
   0x48c4; 0x58e5; 0x6886; 0x78a7; 0x0840; 0x1861; 0x2802; 0x3823;
   0xc9cc; 0xd9ed; 0xe98e; 0xf9af; 0x8948; 0x9969; 0xa90a; 0xb92b;
   0x5af5; 0x4ad4; 0x7ab7; 0x6a96; 0x1a71; 0x0a50; 0x3a33; 0x2a12;
   0xdbfd; 0xcbdc; 0xfbbf; 0xeb9e; 0x9b79; 0x8b58; 0xbb3b; 0xab1a;
   0x6ca6; 0x7c87; 0x4ce4; 0x5cc5; 0x2c22; 0x3c03; 0x0c60; 0x1c41;
   0xedae; 0xfd8f; 0xcdec; 0xddcd; 0xad2a; 0xbd0b; 0x8d68; 0x9d49;
   0x7e97; 0x6eb6; 0x5ed5; 0x4ef4; 0x3e13; 0x2e32; 0x1e51; 0x0e70;
   0xff9f; 0xefbe; 0xdfdd; 0xcffc; 0xbf1b; 0xaf3a; 0x9f59; 0x8f78;
   0x9188; 0x81a9; 0xb1ca; 0xa1eb; 0xd10c; 0xc12d; 0xf14e; 0xe16f;
   0x1080; 0x00a1; 0x30c2; 0x20e3; 0x5004; 0x4025; 0x7046; 0x6067;
   0x83b9; 0x9398; 0xa3fb; 0xb3da; 0xc33d; 0xd31c; 0xe37f; 0xf35e;
   0x02b1; 0x1290; 0x22f3; 0x32d2; 0x4235; 0x5214; 0x6277; 0x7256;
   0xb5ea; 0xa5cb; 0x95a8; 0x8589; 0xf56e; 0xe54f; 0xd52c; 0xc50d;
   0x34e2; 0x24c3; 0x14a0; 0x0481; 0x7466; 0x6447; 0x5424; 0x4405;
   0xa7db; 0xb7fa; 0x8799; 0x97b8; 0xe75f; 0xf77e; 0xc71d; 0xd73c;
   0x26d3; 0x36f2; 0x0691; 0x16b0; 0x6657; 0x7676; 0x4615; 0x5634;
   0xd94c; 0xc96d; 0xf90e; 0xe92f; 0x99c8; 0x89e9; 0xb98a; 0xa9ab;
   0x5844; 0x4865; 0x7806; 0x6827; 0x18c0; 0x08e1; 0x3882; 0x28a3;
   0xcb7d; 0xdb5c; 0xeb3f; 0xfb1e; 0x8bf9; 0x9bd8; 0xabbb; 0xbb9a;
   0x4a75; 0x5a54; 0x6a37; 0x7a16; 0x0af1; 0x1ad0; 0x2ab3; 0x3a92;
   0xfd2e; 0xed0f; 0xdd6c; 0xcd4d; 0xbdaa; 0xad8b; 0x9de8; 0x8dc9;
   0x7c26; 0x6c07; 0x5c64; 0x4c45; 0x3ca2; 0x2c83; 0x1ce0; 0x0cc1;
   0xef1f; 0xff3e; 0xcf5d; 0xdf7c; 0xaf9b; 0xbfba; 0x8fd9; 0x9ff8;
   0x6e17; 0x7e36; 0x4e55; 0x5e74; 0x2e93; 0x3eb2; 0x0ed1; 0x1ef0].

(** One iteration of [crc16]; [*buf] is a signed [char]. *)
Definition crc16_step (crc b : Z) : Z :=
  Z.lxor (u16 (Z.shiftl crc 8))
    (nth (Z.to_nat (Z.land (Z.lxor (Z.shiftr crc 8) (to_signed 8 b)) 255)) crc16tab 0).

Definition crc16 (buf : list Z) : Z := fold_left crc16_step buf 0.

Definition crc64_tab : list Z :=
  [0x0000000000000000; 0x7ad870c830358979; 0xf5b0e190606b12f2; 0x8f689158505e9b8b;
   0xc038e5739841b68f; 0xbae095bba8743ff6; 0x358804e3f82aa47d; 0x4f50742bc81f2d04;
   0xab28ecb46814fe75; 0xd1f09c7c5821770c; 0x5e980d24087fec87; 0x24407dec384a65fe;
   0x6b1009c7f05548fa; 0x11c8790fc060c183; 0x9ea0e857903e5a08; 0xe478989fa00bd371;
   0x7d08ff3b88be6f81; 0x07d08ff3b88be6f8; 0x88b81eabe8d57d73; 0xf2606e63d8e0f40a;
   0xbd301a4810ffd90e; 0xc7e86a8020ca5077; 0x4880fbd87094cbfc; 0x32588b1040a14285;
   0xd620138fe0aa91f4; 0xacf86347d09f188d; 0x2390f21f80c18306; 0x594882d7b0f40a7f;
   0x1618f6fc78eb277b; 0x6cc0863448deae02; 0xe3a8176c18803589; 0x997067a428b5bcf0;
   0xfa11fe77117cdf02; 0x80c98ebf2149567b; 0x0fa11fe77117cdf0; 0x75796f2f41224489;
   0x3a291b04893d698d; 0x40f16bccb908e0f4; 0xcf99fa94e9567b7f; 0xb5418a5cd963f206;
   0x513912c379682177; 0x2be1620b495da80e; 0xa489f35319033385; 0xde51839b2936bafc;
   0x9101f7b0e12997f8; 0xebd98778d11c1e81; 0x64b116208142850a; 0x1e6966e8b1770c73;
   0x8719014c99c2b083; 0xfdc17184a9f739fa; 0x72a9e0dcf9a9a271; 0x08719014c99c2b08;
   0x4721e43f0183060c; 0x3df994f731b68f75; 0xb29105af61e814fe; 0xc849756751dd9d87;
   0x2c31edf8f1d64ef6; 0x56e99d30c1e3c78f; 0xd9810c6891bd5c04; 0xa3597ca0a188d57d;
   0xec09088b6997f879; 0x96d1784359a27100; 0x19b9e91b09fcea8b; 0x636199d339c963f2;
   0xdf7adabd7a6e2d6f; 0xa5a2aa754a5ba416; 0x2aca3b2d1a053f9d; 0x50124be52a30b6e4;
   0x1f423fcee22f9be0; 0x659a4f06d21a1299; 0xeaf2de5e82448912; 0x902aae96b271006b;
   0x74523609127ad31a; 0x0e8a46c1224f5a63; 0x81e2d7997211c1e8; 0xfb3aa75142244891;
   0xb46ad37a8a3b6595; 0xceb2a3b2ba0eecec; 0x41da32eaea507767; 0x3b024222da65fe1e;
   0xa2722586f2d042ee; 0xd8aa554ec2e5cb97; 0x57c2c41692bb501c; 0x2d1ab4dea28ed965;
   0x624ac0f56a91f461; 0x1892b03d5aa47d18; 0x97fa21650afae693; 0xed2251ad3acf6fea;
   0x095ac9329ac4bc9b; 0x7382b9faaaf135e2; 0xfcea28a2faafae69; 0x8632586aca9a2710;
   0xc9622c4102850a14; 0xb3ba5c8932b0836d; 0x3cd2cdd162ee18e6; 0x460abd1952db919f;
   0x256b24ca6b12f26d; 0x5fb354025b277b14; 0xd0dbc55a0b79e09f; 0xaa03b5923b4c69e6;
   0xe553c1b9f35344e2; 0x9f8bb171c366cd9b; 0x10e3202993385610; 0x6a3b50e1a30ddf69;
   0x8e43c87e03060c18; 0xf49bb8b633338561; 0x7bf329ee636d1eea; 0x012b592653589793;
   0x4e7b2d0d9b47ba97; 0x34a35dc5ab7233ee; 0xbbcbcc9dfb2ca865; 0xc113bc55cb19211c;
   0x5863dbf1e3ac9dec; 0x22bbab39d3991495; 0xadd33a6183c78f1e; 0xd70b4aa9b3f20667;
   0x985b3e827bed2b63; 0xe2834e4a4bd8a21a; 0x6debdf121b863991; 0x1733afda2bb3b0e8;
   0xf34b37458bb86399; 0x8993478dbb8deae0; 0x06fbd6d5ebd3716b; 0x7c23a61ddbe6f812;
   0x3373d23613f9d516; 0x49aba2fe23cc5c6f; 0xc6c333a67392c7e4; 0xbc1b436e43a74e9d;
   0x95ac9329ac4bc9b5; 0xef74e3e19c7e40cc; 0x601c72b9cc20db47; 0x1ac40271fc15523e;
   0x5594765a340a7f3a; 0x2f4c0692043ff643; 0xa02497ca54616dc8; 0xdafce7026454e4b1;
   0x3e847f9dc45f37c0; 0x445c0f55f46abeb9; 0xcb349e0da4342532; 0xb1eceec59401ac4b;
   0xfebc9aee5c1e814f; 0x8464ea266c2b0836; 0x0b0c7b7e3c7593bd; 0x71d40bb60c401ac4;
   0xe8a46c1224f5a634; 0x927c1cda14c02f4d; 0x1d148d82449eb4c6; 0x67ccfd4a74ab3dbf;
   0x289c8961bcb410bb; 0x5244f9a98c8199c2; 0xdd2c68f1dcdf0249; 0xa7f41839ecea8b30;
   0x438c80a64ce15841; 0x3954f06e7cd4d138; 0xb63c61362c8a4ab3; 0xcce411fe1cbfc3ca;
   0x83b465d5d4a0eece; 0xf96c151de49567b7; 0x76048445b4cbfc3c; 0x0cdcf48d84fe7545;
   0x6fbd6d5ebd3716b7; 0x15651d968d029fce; 0x9a0d8ccedd5c0445; 0xe0d5fc06ed698d3c;
   0xaf85882d2576a038; 0xd55df8e515432941; 0x5a3569bd451db2ca; 0x20ed197575283bb3;
   0xc49581ead523e8c2; 0xbe4df122e51661bb; 0x3125607ab548fa30; 0x4bfd10b2857d7349;
   0x04ad64994d625e4d; 0x7e7514517d57d734; 0xf11d85092d094cbf; 0x8bc5f5c11d3cc5c6;
   0x12b5926535897936; 0x686de2ad05bcf04f; 0xe70573f555e26bc4; 0x9ddd033d65d7e2bd;
   0xd28d7716adc8cfb9; 0xa85507de9dfd46c0; 0x273d9686cda3dd4b; 0x5de5e64efd965432;
   0xb99d7ed15d9d8743; 0xc3450e196da80e3a; 0x4c2d9f413df695b1; 0x36f5ef890dc31cc8;
   0x79a59ba2c5dc31cc; 0x037deb6af5e9b8b5; 0x8c157a32a5b7233e; 0xf6cd0afa9582aa47;
   0x4ad64994d625e4da; 0x300e395ce6106da3; 0xbf66a804b64ef628; 0xc5bed8cc867b7f51;
   0x8aeeace74e645255; 0xf036dc2f7e51db2c; 0x7f5e4d772e0f40a7; 0x05863dbf1e3ac9de;
   0xe1fea520be311aaf; 0x9b26d5e88e0493d6; 0x144e44b0de5a085d; 0x6e963478ee6f8124;
   0x21c640532670ac20; 0x5b1e309b16452559; 0xd476a1c3461bbed2; 0xaeaed10b762e37ab;
   0x37deb6af5e9b8b5b; 0x4d06c6676eae0222; 0xc26e573f3ef099a9; 0xb8b627f70ec510d0;
   0xf7e653dcc6da3dd4; 0x8d3e2314f6efb4ad; 0x0256b24ca6b12f26; 0x788ec2849684a65f;
   0x9cf65a1b368f752e; 0xe62e2ad306bafc57; 0x6946bb8b56e467dc; 0x139ecb4366d1eea5;
   0x5ccebf68aecec3a1; 0x2616cfa09efb4ad8; 0xa97e5ef8cea5d153; 0xd3a62e30fe90582a;
   0xb0c7b7e3c7593bd8; 0xca1fc72bf76cb2a1; 0x45775673a732292a; 0x3faf26bb9707a053;
   0x70ff52905f188d57; 0x0a2722586f2d042e; 0x854fb3003f739fa5; 0xff97c3c80f4616dc;
   0x1bef5b57af4dc5ad; 0x61372b9f9f784cd4; 0xee5fbac7cf26d75f; 0x9487ca0fff135e26;
   0xdbd7be24370c7322; 0xa10fceec0739fa5b; 0x2e675fb4576761d0; 0x54bf2f7c6752e8a9;
   0xcdcf48d84fe75459; 0xb71738107fd2dd20; 0x387fa9482f8c46ab; 0x42a7d9801fb9cfd2;
   0x0df7adabd7a6e2d6; 0x772fdd63e7936baf; 0xf8474c3bb7cdf024; 0x829f3cf387f8795d;
   0x66e7a46c27f3aa2c; 0x1c3fd4a417c62355; 0x935745fc4798b8de; 0xe98f353477ad31a7;
   0xa6df411fbfb21ca3; 0xdc0731d78f8795da; 0x536fa08fdfd90e51; 0x29b7d047efec8728].

Definition crc64_step (crc byte : Z) : Z :=
  Z.lxor (nth (Z.to_nat (Z.lxor (u8 crc) byte)) crc64_tab 0) (Z.shiftr crc 8).

Definition crc64 (crc : Z) (s : list Z) : Z := fold_left crc64_step s crc.

(** The index of the first [c] at or after the start of [key], its length if none. *)
Fixpoint char_index (c : Z) (key : list Z) : nat :=
  match key with
  | [] => 0
  | x :: key => if x =? c then 0 else S (char_index c key)
  end.

(** [keyHashSlot]; 123 and 125 are the braces. *)
Definition keyHashSlot (key : list Z) : Z :=
  let keylen := length key in
  let s := char_index 123 key in
  if decide (s = keylen) then Z.land (crc16 key) 0x3FFF
  else
    let e := (s + 1 + char_index 125 (drop (s + 1) key))%nat in
    if decide (e = keylen ∨ e = (s + 1)%nat) then Z.land (crc16 key) 0x3FFF
    else Z.land (crc16 (take (e - s - 1) (drop (s + 1) key))) 0x3FFF.

(** ** Polynomials over GF(2)

    An integer stands for the polynomial of its bits.  [pmult P x]: [x] is a multiple of
    [P], a sum of shifted copies of it. *)

Inductive pmult (P : Z) : Z → Prop :=
  | pmult_0 : pmult P 0
  | pmult_add x i : 0 ≤ i → pmult P x → pmult P (Z.lxor x (Z.shiftl P i)).

Lemma pmult_lxor P x y : pmult P x → pmult P y → pmult P (Z.lxor x y).
Proof.
  intros Hx. induction 1 as [|y i Hi _ IH]; [by rewrite Z.lxor_0_r|].
  rewrite <-Z.lxor_assoc. by constructor.
Qed.

Lemma pmult_shiftl P x n : 0 ≤ n → pmult P x → pmult P (Z.shiftl x n).
Proof.
  intros Hn. induction 1 as [|x i Hi _ IH]; [rewrite Z.shiftl_0_l; constructor|].
  rewrite Z.shiftl_lxor, Z.shiftl_shiftl by done. constructor; [lia|done].
Qed.

(** Long division: the [n] bits of [x] from position [w] are cleared from the top. *)
Fixpoint preduce (n : nat) (P w x : Z) : Z :=
  match n with
  | O => x
  | S n =>
      preduce n P w
        (if Z.testbit x (w + Z.of_nat n) then Z.lxor x (Z.shiftl P (Z.of_nat n)) else x)
  end.

Lemma preduce_pmult n P w x : pmult P (Z.lxor x (preduce n P w x)).
Proof.
  revert x. induction n as [|n IH]; intros x; simpl.
  { rewrite Z.lxor_nilpotent. constructor. }
  destruct (Z.testbit x (w + Z.of_nat n)); [|apply IH].
  specialize (IH (Z.lxor x (Z.shiftl P (Z.of_nat n)))).
  apply (pmult_add P _ (Z.of_nat n)) in IH; [|lia].
  eapply eq_ind; [exact IH|]. xor_solve.
Qed.

(** ** CRC16 *)

Definition crc16_poly : Z := 0x11021.

(** The message as a polynomial, first byte first. *)
Definition msg_poly (buf : list Z) : Z := fold_left (λ m b, m * 256 + b) buf 0.

(** The table entry is the remainder of its index. *)
Definition crc16tab_check (i : Z) : bool :=
  bool_decide (in_u 16 (nth (Z.to_nat i) crc16tab 0)) &&
  (preduce 8 crc16_poly 16 (Z.shiftl i 16) =? nth (Z.to_nat i) crc16tab 0).

Lemma crc16tab_ok i :
  0 ≤ i < 256 →
  in_u 16 (nth (Z.to_nat i) crc16tab 0) ∧
  pmult crc16_poly (Z.lxor (Z.shiftl i 16) (nth (Z.to_nat i) crc16tab 0)).
Proof.
  intros Hi. assert (crc16tab_check i = true) as Hc.
  { apply (check_range crc16tab_check 256); [vm_compute; reflexivity|done]. }
  unfold crc16tab_check in Hc. apply andb_true_iff in Hc as [Hr%bool_decide_eq_true He%Z.eqb_eq].
  split; [done|]. rewrite <-He. apply preduce_pmult.
Qed.

(** The sign of the [char] does not matter. *)
Lemma crc16_index crc b :
  in_u 16 crc → is_byte b →
  Z.land (Z.lxor (Z.shiftr crc 8) (to_signed 8 b)) 255 = Z.lxor (Z.shiftr crc 8) b ∧
  0 ≤ Z.lxor (Z.shiftr crc 8) b < 256.
Proof.
  intros Hcrc Hb.
  assert (in_u 8 (Z.shiftr crc 8)) as Hs.
  { unfold in_u in *. rewrite Z.shiftr_div_pow2 by lia. split; [apply Z.div_pos; lia|].
    apply Z.div_lt_upper_bound; lia. }
  assert (in_u 8 (Z.lxor (Z.shiftr crc 8) b)) as Hx by (by apply in_u_lxor).
  split; [|exact Hx]. change 255 with (Z.ones 8). apply (bits_eq_u 8); [|done|].
  { rewrite Z.land_ones by lia. by apply Z.mod_pos_bound. }
  intros i Hi. rewrite Z.land_spec, Z.ones_spec_low, andb_true_r, !Z.lxor_spec by lia. f_equal.
  unfold to_signed. destruct (_ <? _); [done|].
  rewrite <-(Z.mod_pow2_bits_low (b - 2 ^ 8) 8 i), <-(Z.mod_pow2_bits_low b 8 i) by lia. f_equal.
  rewrite <-(Z_mod_plus_full (b - 2 ^ 8) 1). f_equal. lia.
Qed.

Lemma shift_byte m b : is_byte b → m * 256 + b = Z.lxor (Z.shiftl m 8) b.
Proof.
  intros Hb. rewrite <-Z.add_nocarry_lxor; [by rewrite Z.shiftl_mul_pow2 by lia|].
  apply Z.bits_inj'. intros i Hi. rewrite Z.land_spec, Z.testbit_0_l. destruct (decide (i < 8)).
  - by rewrite Z.shiftl_spec_low by lia.
  - rewrite (in_u_high 8 b) by (done || lia). apply andb_false_r.
Qed.

(** The high byte leaves a 16 bit register. *)
Lemma crc16_shift crc :
  in_u 16 crc → Z.shiftl crc 8 = Z.lxor (u16 (Z.shiftl crc 8)) (Z.shiftl (Z.shiftr crc 8) 16).
Proof.
  intros Hc. apply Z.bits_inj'. intros i Hi. rewrite Z.lxor_spec, testbit_wrap_u, !Z.shiftl_spec by lia.
  case_bool_decide.
  - rewrite (Z.testbit_neg_r _ (i - 16)) by lia. by rewrite xorb_false_r.
  - rewrite Z.shiftr_spec by lia. simpl. f_equal. lia.
Qed.

Lemma crc16_step_ok m crc b :
  in_u 16 crc → is_byte b → pmult crc16_poly (Z.lxor (Z.shiftl m 16) crc) →
  in_u 16 (crc16_step crc b) ∧
  pmult crc16_poly (Z.lxor (Z.shiftl (m * 256 + b) 16) (crc16_step crc b)).
Proof.
  intros Hc Hb Hm. unfold crc16_step. destruct (crc16_index crc b Hc Hb) as [-> Hi].
  set (idx := Z.lxor (Z.shiftr crc 8) b) in *. destruct (crc16tab_ok idx Hi) as [Ht Hp].
  set (t := nth (Z.to_nat idx) crc16tab 0) in *.
  split; [by apply in_u_lxor; [|apply wrap_u_range|]|].
  apply (pmult_shiftl _ _ 8) in Hm; [|lia].
  eapply eq_ind; [exact (pmult_lxor _ _ _ Hm Hp)|].
  rewrite shift_byte by done. rewrite !Z.shiftl_lxor, !Z.shiftl_shiftl by lia.
  unfold idx. rewrite Z.shiftl_lxor. rewrite (crc16_shift crc Hc) at 1.
  change (16 + 8) with 24. change (8 + 16) with 24. xor_solve.
Qed.

Lemma crc16_fold buf m crc :
  Forall is_byte buf → in_u 16 crc → pmult crc16_poly (Z.lxor (Z.shiftl m 16) crc) →
  in_u 16 (fold_left crc16_step buf crc) ∧
  pmult crc16_poly (Z.lxor (Z.shiftl (fold_left (λ m b, m * 256 + b) buf m) 16)
    (fold_left crc16_step buf crc)).
Proof.
  intros Hb. revert m crc. induction Hb as [|b buf Hb _ IH]; intros m crc Hc Hm; [done|].
  simpl. destruct (crc16_step_ok m crc b Hc Hb Hm). by apply IH.
Qed.

Lemma crc16_range buf : Forall is_byte buf → in_u 16 (crc16 buf).
Proof. intros Hb. apply (crc16_fold buf 0 0); [done|done|]. constructor. Qed.

(** C9: [crc16] is the 16 bit remainder of the message, times x^16, in the division by
    the CCITT polynomial x^16 + x^12 + x^5 + 1 over GF(2). *)
Theorem crc16_remainder (buf : list Z) :
  Forall is_byte buf →
  in_u 16 (crc16 buf) ∧ pmult crc16_poly (Z.lxor (Z.shiftl (msg_poly buf) 16) (crc16 buf)).
Proof. intros Hb. apply (crc16_fold buf 0 0); [done|done|]. constructor. Qed.

Lemma crc16_remainder_witness :
  crc16 [49; 50; 51; 52; 53; 54; 55; 56; 57] = 0x31C3 ∧
  pmult crc16_poly (Z.lxor (Z.shiftl (msg_poly [49; 50; 51; 52; 53; 54; 55; 56; 57]) 16) 0x31C3).
Proof.
  assert (crc16 [49; 50; 51; 52; 53; 54; 55; 56; 57] = 0x31C3) as E by (vm_compute; reflexivity).
  split; [exact E|]. rewrite <-E. apply crc16_remainder.
  bytes_solve.
Defined.

(** ** CRC64 *)

(** The coefficients of the Jones polynomial 0xad93d23594c935a9, lowest bit last. *)
Definition crc64_poly : Z := 0x95ac9329ac4bc9b5.

(** The bit-serial register, lowest bit out first. *)
Definition crc64_bit (c : Z) : Z :=
  Z.lxor (Z.shiftr c 1) (if Z.testbit c 0 then crc64_poly else 0).

Definition crc64_bits (n : nat) (c : Z) : Z := Nat.iter n crc64_bit c.

Definition crc64_bitwise (crc : Z) (s : list Z) : Z :=
  fold_left (λ c b, crc64_bits 8 (Z.lxor c b)) s crc.

Lemma crc64_bit_lxor a b : crc64_bit (Z.lxor a b) = Z.lxor (crc64_bit a) (crc64_bit b).
Proof.
  unfold crc64_bit. rewrite Z.lxor_spec, Z.shiftr_lxor.
  destruct (Z.testbit a 0), (Z.testbit b 0); cbn [xorb]; xor_solve.
Qed.

Lemma crc64_bits_lxor n a b :
  crc64_bits n (Z.lxor a b) = Z.lxor (crc64_bits n a) (crc64_bits n b).
Proof. unfold crc64_bits. induction n as [|n IH]; simpl; [done|]. by rewrite IH, crc64_bit_lxor. Qed.

Lemma crc64_bits_add n m c : crc64_bits (n + m) c = crc64_bits n (crc64_bits m c).
Proof. apply Nat.iter_add. Qed.

Lemma crc64_bit_range c : in_u 64 c → in_u 64 (crc64_bit c).
Proof.
  intros Hc. unfold crc64_bit. apply in_u_lxor; [lia| |].
  - unfold in_u in *. rewrite Z.shiftr_div_pow2 by lia. split; [apply Z.div_pos; lia|].
    apply Z.div_lt_upper_bound; lia.
  - destruct (Z.testbit c 0); unfold in_u, crc64_poly; lia.
Qed.

Lemma crc64_bits_range n c : in_u 64 c → in_u 64 (crc64_bits n c).
Proof.
  intros Hc. unfold crc64_bits. induction n as [|n IH]; simpl; [done|]. by apply crc64_bit_range.
Qed.

(** Zero bits are shifted out. *)
Lemma crc64_bits_shiftl n c : crc64_bits n (Z.shiftl c (Z.of_nat n)) = c.
Proof.
  induction n as [|n IH]; [apply Z.shiftl_0_r|].
  replace (S n) with (n + 1)%nat by lia. rewrite crc64_bits_add. simpl.
  unfold crc64_bit. rewrite Z.shiftl_spec_low, Z.lxor_0_r, Z.shiftr_shiftl_l by lia.
  replace (Z.of_nat (n + 1) - 1) with (Z.of_nat n) by lia. apply IH.
Qed.

(** The register loses no information: the top bit of the polynomial is set. *)
Lemma crc64_bit_zero c : in_u 64 c → crc64_bit c = 0 → c = 0.
Proof.
  intros Hc. unfold crc64_bit. intros E%Z.lxor_eq. destruct (Z.testbit c 0) eqn:H0.
  - exfalso. assert (Z.testbit (Z.shiftr c 1) 63 = true) as Hb by (rewrite E; done).
    rewrite Z.shiftr_spec, (in_u_high 64 c) in Hb by (done || lia). done.
  - unfold in_u in Hc. rewrite Z.shiftr_div_pow2 in E by lia. rewrite Z.bit0_odd in H0.
    pose proof (Z.div_mod c 2 ltac:(lia)) as Hd. rewrite Zmod_odd, H0 in Hd.
    change (2 ^ 1) with 2 in E. lia.
Qed.

Lemma crc64_bits_zero n c : in_u 64 c → crc64_bits n c = 0 → c = 0.
Proof.
  intros Hc. unfold crc64_bits. induction n as [|n IH]; simpl; [done|].
  intros E. apply IH, crc64_bit_zero; [|done]. by apply (crc64_bits_range n).
Qed.

Lemma crc64_bits_inj n a b :
  in_u 64 a → in_u 64 b → crc64_bits n a = crc64_bits n b → a = b.
Proof.
  intros Ha Hb E. apply Z.lxor_eq, (crc64_bits_zero n); [by apply in_u_lxor|].
  rewrite crc64_bits_lxor, E. apply Z.lxor_nilpotent.
Qed.

(** The table holds the register after the eight bits of each byte. *)
Definition crc64_tab_check (i : Z) : bool :=
  crc64_bits 8 i =? nth (Z.to_nat i) crc64_tab 0.

Lemma crc64_tab_ok i : 0 ≤ i < 256 → nth (Z.to_nat i) crc64_tab 0 = crc64_bits 8 i.
Proof.
  intros Hi. assert (crc64_tab_check i = true) as Hc.
  { apply (check_range crc64_tab_check 256); [vm_compute; reflexivity|done]. }
  unfold crc64_tab_check in Hc. apply Z.eqb_eq in Hc. by rewrite Hc.
Qed.

#[local] Opaque crc64_tab crc64_bits crc64_poly.

Lemma split_low_byte c : c = Z.lxor (u8 c) (Z.shiftl (Z.shiftr c 8) 8).
Proof.
  apply Z.bits_inj'. intros i Hi. rewrite Z.lxor_spec, testbit_wrap_u, Z.shiftl_spec by lia.
  case_bool_decide.
  - rewrite (Z.testbit_neg_r _ (i - 8)) by lia. by rewrite xorb_false_r.
  - rewrite Z.shiftr_spec by lia. simpl. f_equal. lia.
Qed.

Lemma crc64_step_bits crc b :
  is_byte b → crc64_step crc b = crc64_bits 8 (Z.lxor crc b).
Proof.
  intros Hb. unfold crc64_step.
  assert (in_u 8 (Z.lxor (u8 crc) b)) as Hi by (apply in_u_lxor; [lia|by apply wrap_u_range|done]).
  rewrite crc64_tab_ok by exact Hi. rewrite (split_low_byte crc) at 3.
  rewrite <-(crc64_bits_shiftl 8 (Z.shiftr crc 8)) at 1. rewrite <-crc64_bits_lxor.
  f_equal. change (Z.of_nat 8) with 8. xor_solve.
Qed.

Lemma crc64_bitwise_eq s crc : Forall is_byte s → crc64 crc s = crc64_bitwise crc s.
Proof.
  intros Hs. revert crc. unfold crc64, crc64_bitwise.
  induction Hs as [|b s Hb _ IH]; intros crc; simpl; [done|]. by rewrite crc64_step_bits, IH.
Qed.

Lemma crc64_app crc a b : crc64 crc (a ++ b) = crc64 (crc64 crc a) b.
Proof. unfold crc64. apply fold_left_app. Qed.

Lemma crc64_range crc s : in_u 64 crc → Forall is_byte s → in_u 64 (crc64 crc s).
Proof.
  intros Hc Hs. unfold crc64. revert crc Hc. induction Hs as [|b s Hb _ IH]; intros crc Hc; [done|].
  simpl. apply IH. rewrite crc64_step_bits by done. apply crc64_bits_range, in_u_lxor; [lia|done|].
  unfold in_u, is_byte in *. lia.
Qed.

(** Up to eight bytes enter the register as one little endian word. *)
Lemma crc64_block crc s :
  Forall is_byte s → crc64 crc s = crc64_bits (8 * length s) (Z.lxor crc (le_decode s)).
Proof.
  intros Hs. revert crc. induction Hs as [|b s Hb _ IH]; intros crc; simpl le_decode.
  { by rewrite Z.lxor_0_r. }
  change (crc64 crc (b :: s)) with (crc64 (crc64_step crc b) s).
  rewrite IH, crc64_step_bits by done.
  replace (8 * length (b :: s))%nat with (8 * length s + 8)%nat by (simpl; lia).
  rewrite crc64_bits_add. f_equal. rewrite <-(crc64_bits_shiftl 8 (le_decode s)) at 1.
  rewrite <-crc64_bits_lxor. f_equal. rewrite Z.add_comm, (Z.mul_comm 256), shift_byte by done.
  change (Z.of_nat 8) with 8. xor_solve.
Qed.

(** The bytes after a difference do not hide it. *)
Lemma crc64_inj c1 c2 s :
  in_u 64 c1 → in_u 64 c2 → Forall is_byte s → crc64 c1 s = crc64 c2 s → c1 = c2.
Proof.
  intros H1 H2 Hs. revert c1 c2 H1 H2. induction Hs as [|b s Hb Hs IH]; intros c1 c2 H1 H2 E; [done|].
  assert (in_u 64 b) as Hb' by (unfold in_u, is_byte in *; lia).
  change (crc64 (crc64_step c1 b) s = crc64 (crc64_step c2 b) s) in E.
  rewrite !crc64_step_bits in E by done. apply IH in E.
  - apply crc64_bits_inj in E; [|by apply in_u_lxor..].
    apply (f_equal (λ z, Z.lxor z b)) in E. by rewrite !Z.lxor_assoc, Z.lxor_nilpotent, !Z.lxor_0_r in E.
  - by apply crc64_bits_range, in_u_lxor.
  - by apply crc64_bits_range, in_u_lxor.
Qed.

(** C10: CRC64 detects every burst of corruption: two files that differ within a window of at
    most eight consecutive bytes have different checksums, whatever surrounds the window. *)
Theorem crc64_detects_burst (crc : Z) (a b1 b2 c : list Z) :
  in_u 64 crc → Forall is_byte a → Forall is_byte b1 → Forall is_byte b2 → Forall is_byte c →
  length b1 = length b2 → (length b1 ≤ 8)%nat → b1 ≠ b2 →
  crc64 crc (a ++ b1 ++ c) ≠ crc64 crc (a ++ b2 ++ c).
Proof.
  intros Hcrc Ha H1 H2 Hc Hlen H8 Hne E. rewrite !crc64_app in E.
  pose proof (crc64_range crc a Hcrc Ha) as Hr. set (r := crc64 crc a) in *.
  apply crc64_inj in E; [|by apply crc64_range..|done].
  assert (∀ b, Forall is_byte b → (length b ≤ 8)%nat → in_u 64 (le_decode b)) as Hle.
  { intros b Hb Hl. pose proof (le_decode_bound b Hb) as Hd. unfold in_u.
    pose proof (Z.pow_le_mono_r 2 (8 * zlen b) 64 ltac:(lia) ltac:(lia)). lia. }
  rewrite !crc64_block, Hlen in E by done. apply crc64_bits_inj in E;
    [|apply in_u_lxor; [lia|done|apply Hle; [done|lia]]..].
  apply Hne. rewrite <-(le_encode_decode b1), <-(le_encode_decode b2), Hlen by done. f_equal.
  apply (f_equal (Z.lxor r)) in E. by rewrite <-!Z.lxor_assoc, Z.lxor_nilpotent in E.
Qed.

Lemma crc64_detects_burst_witness :
  crc64 0 ([82; 69] ++ [68; 73; 83] ++ [48]) ≠ crc64 0 ([82; 69] ++ [0; 255; 83] ++ [48]).
Proof.
  apply crc64_detects_burst; [done|bytes_solve|bytes_solve|bytes_solve|bytes_solve|done|simpl; lia|done].
Defined.

(** C11: the table-driven CRC64 is the bit-serial shift register of the reflected Jones
    polynomial, and it is incremental: the checksum of a concatenation continues from the
    checksum of its first part, as rdb.c and rio.c use it. *)
Theorem crc64_bit_serial (crc : Z) (a b : list Z) :
  Forall is_byte a → Forall is_byte b →
  crc64 crc (a ++ b) = crc64_bitwise (crc64_bitwise crc a) b.
Proof. intros Ha Hb. by rewrite crc64_app, !crc64_bitwise_eq. Qed.

Lemma crc64_bit_serial_witness :
  crc64 0 ([49; 50; 51; 52; 53] ++ [54; 55; 56; 57]) = 0xe9c6d914c4b8d9ca ∧
  crc64_bitwise (crc64_bitwise 0 [49; 50; 51; 52; 53]) [54; 55; 56; 57] = 0xe9c6d914c4b8d9ca.
Proof.
  rewrite <-crc64_bit_serial; [|bytes_solve..]. split; vm_compute; reflexivity.
Defined.

(** ** Hash slots *)

Lemma hash_slot_range z : 0 ≤ Z.land z 0x3FFF < 16384.
Proof. change 0x3FFF with (Z.ones 14). rewrite Z.land_ones by lia. by apply Z.mod_pos_bound. Qed.

Lemma char_index_app c a b : c ∉ a → char_index c (a ++ c :: b) = length a.
Proof.
  induction a as [|x a IH]; intros Hn; simpl.
  - by rewrite Z.eqb_refl.
  - apply not_elem_of_cons in Hn as [Hx Hn]. rewrite (proj2 (Z.eqb_neq x c)) by congruence.
    by rewrite IH.
Qed.

Lemma char_index_none c a : c ∉ a → char_index c a = length a.
Proof.
  induction a as [|x a IH]; intros Hn; simpl; [done|].
  apply not_elem_of_cons in Hn as [Hx Hn]. rewrite (proj2 (Z.eqb_neq x c)) by congruence.
  by rewrite IH.
Qed.

(** Hash tags.  The slot of a key is below 16384; of a key whose first open brace is
    followed by a non-empty tag and a close brace it is the slot of the tag, so that all the
    keys with the tag are in one slot; of any other key (no open brace, no close brace
    after it, an empty tag) the whole key is hashed. *)
Theorem keyHashSlot_tag (key : list Z) :
  0 ≤ keyHashSlot key < 16384 ∧
  (∀ pre tag post, key = pre ++ 123 :: tag ++ 125 :: post → 123 ∉ pre → 125 ∉ tag →
     keyHashSlot key = Z.land (crc16 (match tag with [] => key | _ => tag end)) 0x3FFF) ∧
  (123 ∉ key → keyHashSlot key = Z.land (crc16 key) 0x3FFF) ∧
  (∀ pre post, key = pre ++ 123 :: post → 123 ∉ pre → 125 ∉ post →
     keyHashSlot key = Z.land (crc16 key) 0x3FFF).
Proof.
  unfold keyHashSlot. split; [repeat case_decide; apply hash_slot_range|]. split_and!.
  - intros pre tag post -> Hp Ht. rewrite char_index_app by done.
    rewrite decide_False by (rewrite length_app; simpl; lia).
    rewrite <-(Nat.add_comm 1), (cons_middle 123), (assoc_L (++)).
    rewrite (drop_app_length' (pre ++ [123])) by (rewrite length_app; simpl; lia).
    rewrite char_index_app by done. destruct tag as [|t tag].
    + rewrite decide_True by (right; simpl; lia). done.
    + rewrite decide_False by (rewrite !length_app; simpl; rewrite ?length_app; simpl; lia).
      by rewrite take_app_length' by (simpl; lia).
  - intros Hn. rewrite char_index_none by done. by rewrite decide_True.
  - intros pre post -> Hp Hn. rewrite char_index_app by done.
    rewrite decide_False by (rewrite length_app; simpl; lia).
    rewrite <-(Nat.add_comm 1), (cons_middle 123), (assoc_L (++)).
    rewrite (drop_app_length' (pre ++ [123])) by (rewrite length_app; simpl; lia).
    rewrite char_index_none, decide_True by (try done; left; rewrite !length_app; simpl; lia). done.
Qed.
