(* ===== verification/Glob.v ===== *)
(** Glob-style pattern matching (src/util.c, [stringmatchlen]), used by KEYS, SCAN,
    PSUBSCRIBE and CONFIG GET.

    The pattern is an sds string: [patternLen] bytes followed by a NUL, which the C code
    does read.  The routine is proved equal to a matcher on parsed patterns, and to stay
    within the pattern, its terminator and the string. *)

From S2P Require Import Prelude.

(** A [char] as the [int] it is promoted to, and [tolower] in the C locale. *)
Definition schar (b : Z) : Z := to_signed 8 b.
Definition tolower (c : Z) : Z := if (65 <=? c) && (c <=? 90) then c + 32 else c.

Definition char_eq (nocase : bool) (a b : Z) : bool :=
  if nocase then tolower (schar a) =? tolower (schar b) else schar a =? schar b.

(** The test of a range [a-b] of a character class. *)
Definition range_match (nocase : bool) (c0 c2 sc : Z) : bool :=
  let start := schar c0 in
  let end_ := schar c2 in
  let c := schar sc in
  let '(start, end_) := if end_ <? start then (end_, start) else (start, end_) in
  let '(start, end_, c) :=
    if nocase then (tolower start, tolower end_, tolower c) else (start, end_, c) in
  (start <=? c) && (c <=? end_).

(** [while (pattern[off] == '*') { pattern++; patternLen--; }] *)
Fixpoint skip_stars (fuel : nat) (pat : list Z) (off p pl : Z) : option (Z * Z) :=
  match fuel with
  | O => None
  | S fuel =>
      c ← peek pat (p + off);
      if c =? 42 then skip_stars fuel pat off (p + 1) (pl - 1) else Some (p, pl)
  end.

(** The [while(1)] loop of a character class, [sc] being [string[0]]: the position it
    breaks at and [match]. *)
Fixpoint class_loop (fuel : nat) (nocase : bool) (pat : list Z) (sc p pl : Z) (m : bool)
    : option (Z * Z * bool) :=
  match fuel with
  | O => None
  | S fuel =>
      c0 ← peek pat p;
      if (c0 =? 92) && (2 <=? pl) then
        c1 ← peek pat (p + 1);
        class_loop fuel nocase pat sc (p + 2) (pl - 2) (m || (schar c1 =? schar sc))
      else if c0 =? 93 then Some (p, pl, m)
      else if pl =? 0 then Some (p - 1, pl + 1, m)
      else
        c1 ← peek pat (p + 1);
        if (c1 =? 45) && (3 <=? pl) then
          c2 ← peek pat (p + 2);
          class_loop fuel nocase pat sc (p + 3) (pl - 3) (m || range_match nocase c0 c2 sc)
        else class_loop fuel nocase pat sc (p + 1) (pl - 1) (m || char_eq nocase c0 sc)
  end.

(** [stringmatchlen] from the pattern position [p], with [pl] bytes of the pattern left,
    on the rest [s] of the string. *)
Fixpoint stringmatchlen_rec (fuel : nat) (nocase : bool) (pat : list Z) (p pl : Z) (s : list Z)
    : option bool :=
  match fuel with
  | O => None
  | S fuel =>
      (* after the switch: [pattern++; patternLen--; if (stringLen == 0) ...] *)
      let continue (p pl : Z) (s : list Z) : option bool :=
        let p := p + 1 in
        let pl := pl - 1 in
        match s with
        | [] =>
            '(_, pl) ← skip_stars (S (length pat)) pat 0 p pl;
            Some (pl =? 0)
        | _ :: _ => stringmatchlen_rec fuel nocase pat p pl s
        end in
      match s with
      | [] => Some (pl =? 0)
      | sc :: s' =>
          if pl =? 0 then Some false
          else
            c0 ← peek pat p;
            if c0 =? 42 then
              '(p, pl) ← skip_stars (S (length pat)) pat 1 p pl;
              if pl =? 1 then Some true
              else
                (fix star (s : list Z) : option bool :=
                   match s with
                   | [] => Some false
                   | _ :: s' =>
                       r ← stringmatchlen_rec fuel nocase pat (p + 1) (pl - 1) s;
                       if (r : bool) then Some true else star s'
                   end) s
            else if c0 =? 63 then continue p pl s'
            else if c0 =? 91 then
              let p := p + 1 in
              let pl := pl - 1 in
              c1 ← peek pat p;
              let not := c1 =? 94 in
              let '(p, pl) := if not then (p + 1, pl - 1) else (p, pl) in
              '(p, pl, m) ← class_loop (S (length pat)) nocase pat sc p pl false;
              let m := if not then negb m else m in
              if negb m then Some false else continue p pl s'
            else
              let '(p, pl) := if (c0 =? 92) && (2 <=? pl) then (p + 1, pl - 1) else (p, pl) in
              c0 ← peek pat p;
              if negb (char_eq nocase c0 sc) then Some false else continue p pl s'
      end
  end.

(** [stringmatchlen(pattern, patternLen, string, stringLen, nocase)]: every recursive call
    and iteration consumes a byte of the pattern. *)
Definition stringmatchlen (pat : list Z) (patternLen : Z) (s : list Z) (nocase : bool) : option bool :=
  stringmatchlen_rec (S (Z.to_nat patternLen)) nocase pat 0 patternLen s.

(** ** The patterns and their meaning *)

(** An escaped character of a class is compared with its case. *)
Inductive citem := CEsc (c : Z) | CChar (c : Z) | CRange (a b : Z).

Inductive token := TStar | TAny | TClass (not : bool) (items : list citem) | TChar (c : Z).

Definition citem_match (nocase : bool) (sc : Z) (i : citem) : bool :=
  match i with
  | CEsc c => schar c =? schar sc
  | CChar c => char_eq nocase c sc
  | CRange a b => range_match nocase a b sc
  end.

Definition token_match (nocase : bool) (t : token) (sc : Z) : bool :=
  match t with
  | TStar => false
  | TAny => true
  | TClass not items => xorb not (existsb (citem_match nocase sc) items)
  | TChar c => char_eq nocase c sc
  end.

(** A star stands for any sequence, the other tokens for one character. *)
Fixpoint glob (nocase : bool) (ts : list token) (s : list Z) : bool :=
  match ts with
  | [] => match s with [] => true | _ => false end
  | TStar :: ts =>
      (fix star (s : list Z) : bool :=
         glob nocase ts s || match s with [] => false | _ :: s' => star s' end) s
  | t :: ts =>
      match s with
      | [] => false
      | c :: s' => token_match nocase t c && glob nocase ts s'
      end
  end.

(** The items of a class and what follows its closing bracket, or the end. *)
Fixpoint parse_class (fuel : nat) (rest : list Z) : list citem * list Z :=
  match fuel with
  | O => ([], [])
  | S fuel =>
      match rest with
      | [] => ([], [])
      | c0 :: r0 =>
          let single := (CChar c0 :: (parse_class fuel r0).1, (parse_class fuel r0).2) in
          if c0 =? 92 then
            match r0 with
            | c1 :: r1 => (CEsc c1 :: (parse_class fuel r1).1, (parse_class fuel r1).2)
            | [] => single
            end
          else if c0 =? 93 then ([], r0)
          else
            match r0 with
            | c1 :: c2 :: r2 =>
                if c1 =? 45
                then (CRange c0 c2 :: (parse_class fuel r2).1, (parse_class fuel r2).2)
                else single
            | _ => single
            end
      end
  end.

Definition parse_token (c0 : Z) (r0 : list Z) : token * list Z :=
  if c0 =? 42 then (TStar, r0)
  else if c0 =? 63 then (TAny, r0)
  else if c0 =? 91 then
    let '(not, r1) :=
      match r0 with
      | c1 :: r1 => if c1 =? 94 then (true, r1) else (false, r0)
      | [] => (false, r0)
      end in
    let '(items, r2) := parse_class (S (length r1)) r1 in
    (TClass not items, r2)
  else if c0 =? 92 then
    match r0 with c1 :: r1 => (TChar c1, r1) | [] => (TChar c0, r0) end
  else (TChar c0, r0).

Fixpoint parse (fuel : nat) (rest : list Z) : list token :=
  match fuel, rest with
  | S fuel, c0 :: r0 => let '(t, r) := parse_token c0 r0 in t :: parse fuel r
  | _, _ => []
  end.

Definition glob_pattern (pattern : list Z) : list token := parse (length pattern) pattern.

(** ** Positions in the pattern *)

(** [rest] is the unread part of the NUL terminated pattern [pat] at [p]. *)
Definition at_ (pat rest : list Z) (p pl : Z) : Prop :=
  ∃ pre, pat = pre ++ rest ++ [0] ∧ p = zlen pre ∧ pl = zlen rest.

Lemma at_nil pat p pl : at_ pat [] p pl → peek pat p = Some 0 ∧ pl = 0.
Proof. intros (pre & -> & -> & ->). split; [|done]. by apply peek_app. Qed.

Lemma at_cons pat c rest p pl :
  at_ pat (c :: rest) p pl →
  peek pat p = Some c ∧ at_ pat rest (p + 1) (pl - 1) ∧ 1 ≤ pl.
Proof.
  intros (pre & -> & -> & ->). split_and!; [by apply peek_app| |simpl; lia].
  exists (pre ++ [c]). rewrite <-(assoc_L (++)), length_app. simpl. split_and!; [done|lia|lia].
Qed.

Lemma at_len pat rest p pl : at_ pat rest p pl → pl = zlen rest ∧ (length rest < length pat)%nat.
Proof. intros (pre & -> & -> & ->). rewrite !length_app. simpl. split; [done|lia]. Qed.

Lemma at_peek pat rest p pl :
  at_ pat rest p pl → peek pat p = Some (default 0 (head rest)).
Proof.
  destruct rest as [|c rest]; intros Hat; [by apply at_nil in Hat as [-> _]|].
  by apply at_cons in Hat as [-> _].
Qed.

(** ** Parsing *)

Lemma parse_class_length fuel rest : (length (parse_class fuel rest).2 ≤ length rest)%nat.
Proof.
  revert rest. induction fuel as [|fuel IH]; intros rest; simpl; [lia|].
  destruct rest as [|c0 r0]; simpl; [lia|].
  pose proof (IH r0). destruct (c0 =? 92).
  { destruct r0 as [|c1 r1]; simpl in *; [lia|]. pose proof (IH r1). lia. }
  destruct (c0 =? 93); simpl; [lia|].
  destruct r0 as [|c1 [|c2 r2]]; simpl in *; [lia|lia|].
  destruct (c1 =? 45); simpl; [|lia]. pose proof (IH r2). lia.
Qed.

Lemma parse_token_length c0 r0 : (length (parse_token c0 r0).2 ≤ length r0)%nat.
Proof.
  unfold parse_token. destruct (c0 =? 42); [done|]. destruct (c0 =? 63); [done|].
  destruct (c0 =? 91).
  - destruct r0 as [|c1 r1].
    + pose proof (parse_class_length 1 []). by destruct (parse_class _ _).
    + destruct (c1 =? 94).
      * pose proof (parse_class_length (S (length r1)) r1).
        destruct (parse_class _ _). simpl in *. lia.
      * pose proof (parse_class_length (S (length (c1 :: r1))) (c1 :: r1)).
        destruct (parse_class _ _). simpl in *. lia.
  - destruct (c0 =? 92); [|done]. destruct r0; simpl; lia.
Qed.

Lemma parse_enough n m rest :
  (length rest ≤ n)%nat → (length rest ≤ m)%nat → parse n rest = parse m rest.
Proof.
  revert m rest. induction n as [|n IH]; intros m rest Hn Hm.
  { destruct rest; simpl in *; [by destruct m|lia]. }
  destruct rest as [|c0 r0]; [by destruct m|]. destruct m as [|m]; simpl in *; [lia|].
  pose proof (parse_token_length c0 r0). destruct (parse_token c0 r0) as [t r]. simpl in *.
  f_equal. apply IH; lia.
Qed.

Lemma glob_pattern_cons c0 r0 :
  glob_pattern (c0 :: r0) = (parse_token c0 r0).1 :: glob_pattern (parse_token c0 r0).2.
Proof.
  unfold glob_pattern. simpl. pose proof (parse_token_length c0 r0).
  destruct (parse_token c0 r0) as [t r]. simpl in *. f_equal. apply parse_enough; lia.
Qed.

(** ** Matching a parsed pattern *)

Lemma glob_star nc ts s :
  glob nc (TStar :: ts) s = glob nc ts s || match s with [] => false | _ :: s' => glob nc (TStar :: ts) s' end.
Proof. by destruct s. Qed.

Lemma glob_star_star nc ts s : glob nc (TStar :: TStar :: ts) s = glob nc (TStar :: ts) s.
Proof.
  induction s as [|c s IH]; [by rewrite glob_star, orb_false_r|].
  rewrite glob_star, IH. rewrite (glob_star nc ts (c :: s)).
  destruct (glob nc ts (c :: s)), (glob nc (TStar :: ts) s); done.
Qed.

Lemma glob_last_star nc s : glob nc [TStar] s = true.
Proof. induction s as [|c s IH]; [done|]. by rewrite glob_star, IH. Qed.

Definition is_star (t : token) : bool := match t with TStar => true | _ => false end.

Lemma glob_cons nc t ts c s :
  is_star t = false → glob nc (t :: ts) (c :: s) = token_match nc t c && glob nc ts s.
Proof. by destruct t. Qed.

Lemma glob_nonstar_nil nc t ts : is_star t = false → glob nc (t :: ts) [] = false.
Proof. by destruct t. Qed.

Lemma parse_token_star c0 r0 : is_star (parse_token c0 r0).1 = (c0 =? 42).
Proof.
  unfold parse_token. destruct (c0 =? 42); [done|]. destruct (c0 =? 63); [done|].
  destruct (c0 =? 91).
  - destruct r0 as [|c1 r1]; [done|]. destruct (c1 =? 94); by destruct (parse_class _ _).
  - destruct (c0 =? 92); [|done]. by destruct r0.
Qed.

Lemma parse_token_42 r0 : parse_token 42 r0 = (TStar, r0).
Proof. done. Qed.

(** ** The loops *)

(** At the end of the string only stars may be left. *)
Lemma skip_stars_end nc fuel pat rest p pl :
  at_ pat rest p pl → (length rest < fuel)%nat →
  ∃ p' pl', skip_stars fuel pat 0 p pl = Some (p', pl') ∧
    (pl' =? 0) = glob nc (glob_pattern rest) [].
Proof.
  revert rest p pl. induction fuel as [|fuel IH]; intros rest p pl Hat Hf; [lia|]. cbn [skip_stars].
  rewrite Z.add_0_r, (at_peek _ _ _ _ Hat). cbn [mbind option_bind].
  destruct rest as [|c rest]; simpl default.
  { apply at_nil in Hat as [_ ->]. by exists p, 0. }
  destruct (at_cons _ _ _ _ _ Hat) as (_ & Hat' & Hpl). rewrite glob_pattern_cons.
  destruct (Z.eqb_spec c 42) as [->|Hne].
  - rewrite parse_token_42. cbn [fst snd].
    rewrite glob_star, orb_false_r. apply IH; [done|]. simpl in Hf. lia.
  - exists p, pl. split; [done|]. rewrite glob_nonstar_nil.
    + by apply Z.eqb_neq; lia.
    + rewrite parse_token_star. by apply Z.eqb_neq.
Qed.

(** Consecutive stars count as one. *)
Lemma skip_stars_run nc fuel pat rest p pl :
  at_ pat (42 :: rest) p pl → (length rest < fuel)%nat →
  ∃ p' pl' rest', skip_stars fuel pat 1 p pl = Some (p', pl') ∧ at_ pat (42 :: rest') p' pl' ∧
    head rest' ≠ Some 42 ∧ (length rest' ≤ length rest)%nat ∧
    ∀ s, glob nc (TStar :: glob_pattern rest) s = glob nc (TStar :: glob_pattern rest') s.
Proof.
  revert rest p pl. induction fuel as [|fuel IH]; intros rest p pl Hat Hf; [lia|]. cbn [skip_stars].
  destruct (at_cons _ _ _ _ _ Hat) as (_ & Hat' & Hpl).
  rewrite (at_peek _ _ _ _ Hat'). cbn [mbind option_bind].
  destruct rest as [|c rest]; simpl default.
  { exists p, pl, []. by split_and!. }
  destruct (Z.eqb_spec c 42) as [->|Hne].
  - destruct (IH rest _ _ Hat') as (p' & pl' & rest' & -> & ? & ? & ? & Hg); [simpl in Hf; lia|].
    exists p', pl', rest'. split_and!; [done..|simpl; lia|].
    intros s. rewrite glob_pattern_cons, parse_token_42. cbn [fst snd].
    rewrite glob_star_star. by apply Hg.
  - exists p, pl, (c :: rest). split_and!; try done. by intros [=].
Qed.

(** The class loop reads the items of the class. *)
Lemma class_loop_spec nc pat sc fuel f2 rest p pl m :
  at_ pat rest p pl → (length rest < fuel)%nat → (length rest < f2)%nat →
  ∃ p' pl', class_loop fuel nc pat sc p pl m
      = Some (p', pl', m || existsb (citem_match nc sc) (parse_class f2 rest).1) ∧
    at_ pat (parse_class f2 rest).2 (p' + 1) (pl' - 1).
Proof.
  revert f2 rest p pl m. induction fuel as [|fuel IH]; intros f2 rest p pl m Hat Hf Hf2; [lia|].
  destruct f2 as [|f2]; [lia|]. cbn [class_loop]. rewrite (at_peek _ _ _ _ Hat). cbn [mbind option_bind].
  destruct rest as [|c0 r0]; simpl default.
  { pose proof (at_nil _ _ _ Hat) as [_ ->]. simpl. exists (p - 1), 1. rewrite orb_false_r.
    split; [done|]. by replace (p - 1 + 1) with p by lia. }
  destruct (at_cons _ _ _ _ _ Hat) as (_ & Hat1 & Hpl). destruct (at_len _ _ _ _ Hat) as [Hlen _].
  simpl length in *. cbn [parse_class].
  assert (∀ m', ∃ p' pl', class_loop fuel nc pat sc (p + 1) (pl - 1) m'
      = Some (p', pl', m' || existsb (citem_match nc sc) (parse_class f2 r0).1) ∧
    at_ pat (parse_class f2 r0).2 (p' + 1) (pl' - 1)) as Hsingle by (intros; apply IH; (done || lia)).
  destruct (Z.eqb_spec c0 92) as [->|H92]; cbn [andb].
  { destruct r0 as [|c1 r1].
    - simpl in Hlen. replace (2 <=? pl) with false by lia. change (92 =? 93) with false. cbv iota.
      rewrite (proj2 (Z.eqb_neq pl 0)), (at_peek _ _ _ _ Hat1) by lia. cbn [mbind option_bind head from_option id].
      change (0 =? 45) with false. cbn [andb]. destruct (Hsingle (m || char_eq nc 92 sc)) as (p' & pl' & -> & ?).
      exists p', pl'. cbn [fst snd existsb citem_match]. by rewrite orb_assoc.
    - destruct (at_cons _ _ _ _ _ Hat1) as (-> & Hat2 & Hpl2). cbn [mbind option_bind].
      replace (2 <=? pl) with true by lia. simpl in Hf, Hf2.
      replace (p + 1 + 1) with (p + 2) in Hat2 by lia. replace (pl - 1 - 1) with (pl - 2) in Hat2 by lia.
      destruct (IH f2 r1 _ _ (m || (schar c1 =? schar sc)) Hat2) as (p' & pl' & -> & ?); [lia|lia|].
      exists p', pl'. cbn [fst snd existsb citem_match]. by rewrite orb_assoc. }
  destruct (Z.eqb_spec c0 93) as [->|H93].
  { exists p, pl. simpl. by rewrite orb_false_r. }
  rewrite (proj2 (Z.eqb_neq pl 0)), (at_peek _ _ _ _ Hat1) by lia. cbn [mbind option_bind].
  destruct (Hsingle (m || char_eq nc c0 sc)) as (q & ql & Hq & Hatq).
  destruct r0 as [|c1 r1]; cbn [head from_option id].
  { change (0 =? 45) with false. cbn [andb]. rewrite Hq. exists q, ql.
    cbn [fst snd existsb citem_match]. by rewrite orb_assoc. }
  destruct (at_cons _ _ _ _ _ Hat1) as (_ & Hat2 & _). simpl in Hlen, Hf, Hf2.
  destruct r1 as [|c2 r2].
  { replace (3 <=? pl) with false by (simpl in Hlen; lia). rewrite andb_false_r, Hq. exists q, ql.
    cbn [fst snd existsb citem_match]. by rewrite orb_assoc. }
  destruct (at_cons _ _ _ _ _ Hat2) as (Hp2 & Hat3 & _). simpl in Hlen, Hf, Hf2.
  replace (3 <=? pl) with true by lia. rewrite andb_true_r.
  destruct (c1 =? 45).
  - replace (p + 1 + 1) with (p + 2) in * by lia. rewrite Hp2. cbn [mbind option_bind].
    replace (p + 2 + 1) with (p + 3) in Hat3 by lia. replace (pl - 1 - 1 - 1) with (pl - 3) in Hat3 by lia.
    destruct (IH f2 r2 _ _ (m || range_match nc c0 c2 sc) Hat3) as (p' & pl' & -> & ?); [lia|lia|].
    exists p', pl'. cbn [fst snd existsb citem_match]. by rewrite orb_assoc.
  - rewrite Hq. exists q, ql. cbn [fst snd existsb citem_match]. by rewrite orb_assoc.
Qed.

(** The end of an iteration: the rest of the pattern against the rest of the string. *)
Definition match_continue (fuel : nat) (nc : bool) (pat : list Z) (p pl : Z) (s : list Z) : option bool :=
  match s with
  | [] => '(_, pl) ← skip_stars (S (length pat)) pat 0 (p + 1) (pl - 1); Some (pl =? 0)
  | _ :: _ => stringmatchlen_rec fuel nc pat (p + 1) (pl - 1) s
  end.

(** What the recursive calls with [fuel] are known to do. *)
Definition rec_ok (fuel : nat) (nc : bool) (pat : list Z) : Prop :=
  ∀ rest p pl s, at_ pat rest p pl → (length rest < fuel)%nat →
    stringmatchlen_rec fuel nc pat p pl s
    = Some (match s with [] => pl =? 0 | _ :: _ => glob nc (glob_pattern rest) s end).

Lemma match_continue_spec fuel nc pat rest p pl s :
  rec_ok fuel nc pat → at_ pat rest (p + 1) (pl - 1) → (length rest < fuel)%nat →
  match_continue fuel nc pat p pl s = Some (glob nc (glob_pattern rest) s).
Proof.
  intros Hrec Hat Hf. destruct s as [|c s]; simpl.
  - destruct (at_len _ _ _ _ Hat) as [_ Hlen].
    destruct (skip_stars_end nc (S (length pat)) pat rest _ _ Hat) as (p' & pl' & E & Hg); [lia|].
    simpl in E. rewrite E. cbn [mbind option_bind]. by rewrite Hg.
  - by rewrite (Hrec rest).
Qed.

(** The recursive calls of a star, on every non-empty suffix. *)
Lemma star_loop_spec fuel nc pat rest p pl s :
  rec_ok fuel nc pat → at_ pat rest (p + 1) (pl - 1) → (length rest < fuel)%nat →
  rest ≠ [] → head rest ≠ Some 42 →
  (fix star (s : list Z) : option bool :=
     match s with
     | [] => Some false
     | _ :: s' =>
         r ← stringmatchlen_rec fuel nc pat (p + 1) (pl - 1) s;
         if (r : bool) then Some true else star s'
     end) s = Some (glob nc (TStar :: glob_pattern rest) s).
Proof.
  intros Hrec Hat Hf Hne Hh. induction s as [|c s IH].
  - destruct rest as [|c0 r0]; [done|]. rewrite glob_star, glob_pattern_cons, glob_nonstar_nil; [done|].
    rewrite parse_token_star. apply Z.eqb_neq. intros ->. done.
  - rewrite (Hrec rest) by done. cbn [mbind option_bind]. rewrite glob_star.
    destruct (glob nc (glob_pattern rest) (c :: s)); [done|]. exact IH.
Qed.

(** The class of a pattern, after its opening bracket. *)
Definition match_class (fuel : nat) (nc : bool) (pat : list Z) (sc p pl : Z) (s : list Z) : option bool :=
  c1 ← peek pat p;
  let not := c1 =? 94 in
  let '(p, pl) := if not then (p + 1, pl - 1) else (p, pl) in
  '(p, pl, m) ← class_loop (S (length pat)) nc pat sc p pl false;
  let m := if not then negb m else m in
  if negb m then Some false else match_continue fuel nc pat p pl s.

Lemma match_class_items fuel nc pat sc rest p pl s (not : bool) :
  rec_ok fuel nc pat → at_ pat rest p pl → (length rest < fuel)%nat →
  ('(p, pl, m) ← class_loop (S (length pat)) nc pat sc p pl false;
   let m := if not then negb m else m in
   if negb m then Some false else match_continue fuel nc pat p pl s)
  = let '(items, r) := parse_class (S (length rest)) rest in
    Some (glob nc (TClass not items :: glob_pattern r) (sc :: s)).
Proof.
  intros Hrec Hat Hf. destruct (at_len _ _ _ _ Hat) as [_ Hpat].
  destruct (class_loop_spec nc pat sc (S (length pat)) (S (length rest)) rest p pl false Hat)
    as (p' & pl' & -> & Hat'); [lia|lia|].
  pose proof (parse_class_length (S (length rest)) rest) as Hl.
  destruct (parse_class (S (length rest)) rest) as [items r]. cbn [mbind option_bind fst snd orb] in *.
  rewrite glob_cons by done. cbn [token_match].
  rewrite (match_continue_spec fuel nc pat r) by (done || lia).
  by destruct not, (existsb (citem_match nc sc) items).
Qed.

Lemma match_class_spec fuel nc pat sc r0 p pl s :
  rec_ok fuel nc pat → at_ pat r0 p pl → (length r0 < fuel)%nat →
  match_class fuel nc pat sc p pl s =
    Some (glob nc ((parse_token 91 r0).1 :: glob_pattern (parse_token 91 r0).2) (sc :: s)).
Proof.
  intros Hrec Hat Hf. unfold match_class, parse_token. rewrite (at_peek _ _ _ _ Hat).
  cbn [mbind option_bind]. change (91 =? 42) with false. change (91 =? 63) with false.
  change (91 =? 91) with true. cbv iota.
  destruct r0 as [|c1 r1]; cbn [head from_option id].
  { change (0 =? 94) with false. etrans; [by apply (match_class_items fuel nc pat sc [] p pl s false)|].
    by destruct (parse_class _ _). }
  destruct (c1 =? 94); cbv iota beta.
  - destruct (at_cons _ _ _ _ _ Hat) as (_ & Hat1 & _). simpl in Hf.
    etrans; [apply (match_class_items fuel nc pat sc r1 _ _ s true); (done || lia)|].
    by destruct (parse_class _ _).
  - etrans; [by apply (match_class_items fuel nc pat sc (c1 :: r1) p pl s false)|].
    by destruct (parse_class _ _).
Qed.

Lemma stringmatchlen_rec_spec nc pat fuel : rec_ok fuel nc pat.
Proof.
  induction fuel as [|fuel IH]; intros rest p pl s Hat Hf; [lia|].
  destruct (at_len _ _ _ _ Hat) as [Hlen Hpat]. destruct s as [|sc s]; [done|].
  cbn [stringmatchlen_rec].
  fold (match_continue fuel nc pat).
  destruct rest as [|c0 r0]; [by subst pl|].
  destruct (at_cons _ _ _ _ _ Hat) as (-> & Hat1 & Hpl). simpl in Hf, Hlen, Hpat.
  rewrite (proj2 (Z.eqb_neq pl 0)) by lia. cbn [mbind option_bind].
  rewrite glob_pattern_cons. unfold parse_token.
  destruct (Z.eqb_spec c0 42) as [->|H42].
  { destruct (skip_stars_run nc (S (length pat)) pat r0 p pl Hat)
      as (p' & pl' & r' & -> & Hat' & Hh & Hl & Hg); [lia|]. cbn [mbind option_bind fst snd].
    destruct (at_cons _ _ _ _ _ Hat') as (_ & Hat'' & _). destruct (at_len _ _ _ _ Hat') as [Hlen' _].
    rewrite Hg. destruct r' as [|c1 r1].
    - simpl in Hlen'. subst pl'. by rewrite glob_last_star.
    - rewrite (proj2 (Z.eqb_neq pl' 1)) by (simpl in Hlen'; lia).
      exact (star_loop_spec fuel nc pat (c1 :: r1) p' pl' (sc :: s) IH Hat'' ltac:(lia)
        ltac:(done) Hh). }
  destruct (Z.eqb_spec c0 63) as [->|H63].
  { cbn [fst snd]. rewrite glob_cons by done. apply match_continue_spec; (done || lia). }
  destruct (Z.eqb_spec c0 91) as [->|H91].
  { exact (match_class_spec fuel nc pat sc r0 (p + 1) (pl - 1) s IH Hat1 ltac:(lia)). }
  destruct (Z.eqb_spec c0 92) as [->|H92]; cbn [andb].
  - destruct r0 as [|c1 r1].
    + replace (2 <=? pl) with false by (simpl in Hlen; lia).
      destruct (at_cons _ _ _ _ _ Hat) as (-> & _ & _). cbn [mbind option_bind fst snd].
      rewrite glob_cons by done. cbn [token_match].
      destruct (char_eq nc 92 sc); [|done]. apply match_continue_spec; (done || lia).
    + replace (2 <=? pl) with true by (simpl in Hlen; lia).
      destruct (at_cons _ _ _ _ _ Hat1) as (-> & Hat2 & _). cbn [mbind option_bind fst snd].
      rewrite glob_cons by done. cbn [token_match]. simpl in Hf.
      destruct (char_eq nc c1 sc); [|done]. apply match_continue_spec; (done || lia).
  - destruct (at_cons _ _ _ _ _ Hat) as (-> & _ & _). cbn [mbind option_bind fst snd].
    rewrite glob_cons by done. cbn [token_match].
    destruct (char_eq nc c0 sc); [|done]. apply match_continue_spec; (done || lia).
Qed.

Lemma stringmatchlen_correct (nocase : bool) (pattern s : list Z) :
  stringmatchlen (pattern ++ [0]) (zlen pattern) s nocase
  = Some (match s with
          | [] => bool_decide (pattern = [])
          | _ :: _ => glob nocase (glob_pattern pattern) s
          end).
Proof.
  unfold stringmatchlen. rewrite (stringmatchlen_rec_spec nocase _ _ pattern).
  - destruct s; [|done]. f_equal. destruct pattern; [done|].
    rewrite bool_decide_eq_false_2 by done. apply Z.eqb_neq. simpl. lia.
  - exists []. by split_and!.
  - lia.
Qed.

(** C13: [stringmatchlen] on an sds pattern stays inside the pattern, its terminator and the
    string, terminates, and agrees with the glob semantics of the parsed pattern on every
    non-empty string; the empty string is matched by the empty pattern only (not by a
    pattern made of stars), since the loop is not entered. *)
Theorem stringmatchlen_glob (nocase : bool) (pattern s : list Z) :
  stringmatchlen (pattern ++ [0]) (zlen pattern) s nocase
  = Some (match s with
          | [] => bool_decide (pattern = [])
          | _ :: _ => glob nocase (glob_pattern pattern) s
          end).
Proof. apply stringmatchlen_correct. Qed.
