(* ===== verification/Localtime.v ===== *)
(** Calendar computation for the log (src/localtime.c).

    [nolocks_localtime] is shown to be the inverse of the Gregorian day count: the fields
    it computes are in range and stand for exactly the instant given. *)

From S2P Require Import Prelude.

Record tm := mkTm {
  tm_sec : Z; tm_min : Z; tm_hour : Z; tm_mday : Z; tm_mon : Z; tm_year : Z;
  tm_wday : Z; tm_yday : Z; tm_isdst : Z;
}.

(** Results of signed arithmetic: [int] has 32 bits, [time_t] 64, and an overflow is undefined. *)
Definition as_int (v : Z) : option Z := if decide (in_s 32 v) then Some v else None.
Definition as_time_t (v : Z) : option Z := if decide (in_s 64 v) then Some v else None.

Lemma as_int_Some v : in_s 32 v → as_int v = Some v.
Proof. intros H. unfold as_int. by rewrite decide_True. Qed.

Lemma as_time_t_Some v : in_s 64 v → as_time_t v = Some v.
Proof. intros H. unfold as_time_t. by rewrite decide_True. Qed.

(** C's [%] truncates towards zero. *)
Definition is_leap_year (year : Z) : Z :=
  if negb (Z.rem year 4 =? 0) then 0
  else if negb (Z.rem year 100 =? 0) then 1
  else if negb (Z.rem year 400 =? 0) then 0
  else 1.

(** The [while(1)] loop over the years. *)
Fixpoint year_loop (fuel : nat) (year days : Z) : option (Z * Z) :=
  match fuel with
  | O => None
  | S fuel =>
      let days_this_year := 365 + is_leap_year year in
      if days <? days_this_year then Some (year, days)
      else year ← as_int (year + 1); year_loop fuel year (days - days_this_year)
  end.

Definition mdays (leap : Z) : list Z := [31; 28 + leap; 31; 30; 31; 30; 31; 31; 30; 31; 30; 31].

(** The loop over the months; [None] when it runs past the table. *)
Fixpoint month_loop (fuel : nat) (table : list Z) (mon days : Z) : option (Z * Z) :=
  match fuel with
  | O => None
  | S fuel =>
      m ← peek table mon;
      if m <=? days then month_loop fuel table (mon + 1) (days - m) else Some (mon, days)
  end.

Definition nolocks_localtime (t tz dst : Z) : option tm :=
  let secs_min := 60 in
  let secs_hour := 3600 in
  let secs_day := 3600 * 24 in
  t ← as_time_t (t - tz);
  adjust ← as_int (3600 * dst);
  t ← as_time_t (t + adjust);
  let days := Z.quot t secs_day in
  let seconds := Z.rem t secs_day in
  let hour := Z.quot seconds secs_hour in
  let min := Z.quot (Z.rem seconds secs_hour) secs_min in
  let sec := Z.rem (Z.rem seconds secs_hour) secs_min in
  let wday := Z.rem (days + 4) 7 in
  '(year, days) ← year_loop (S (Z.to_nat (days / 365))) 1970 days;
  let yday := days in
  '(mon, days) ← month_loop 13 (mdays (is_leap_year year)) 0 days;
  tm_year ← as_int (year - 1900);
  Some (mkTm sec min hour (days + 1) mon tm_year wday yday dst).

(** ** The Gregorian calendar *)

(** The proleptic Gregorian rule, and the days before January 1st of a year, counted
    from 1970 in closed form. *)
Definition gregorian_leap (y : Z) : bool :=
  (y mod 4 =? 0) && (negb (y mod 100 =? 0) || (y mod 400 =? 0)).

Definition days_before_year (y : Z) : Z :=
  365 * (y - 1970) + ((y - 1) / 4 - (y - 1) / 100 + (y - 1) / 400) - 477.

Definition days_before_month (leap mon : Z) : Z := foldr Z.add 0 (take (Z.to_nat mon) (mdays leap)).

(** The instant the fields stand for. *)
Definition civil_seconds (r : tm) : Z :=
  let y := tm_year r + 1900 in
  86400 * (days_before_year y + days_before_month (if gregorian_leap y then 1 else 0) (tm_mon r)
           + (tm_mday r - 1))
  + 3600 * tm_hour r + 60 * tm_min r + tm_sec r.

Lemma is_leap_year_gregorian y : 0 ≤ y → is_leap_year y = if gregorian_leap y then 1 else 0.
Proof.
  intros Hy. unfold is_leap_year, gregorian_leap. rewrite !Z.rem_mod_nonneg by lia.
  destruct (Z.eqb_spec (y mod 4) 0), (Z.eqb_spec (y mod 100) 0), (Z.eqb_spec (y mod 400) 0);
    simpl; try done; exfalso; Z.div_mod_to_equations; lia.
Qed.

Lemma days_before_year_succ y :
  0 ≤ y → days_before_year (y + 1) = days_before_year y + 365 + is_leap_year y.
Proof.
  intros Hy. rewrite is_leap_year_gregorian by done. unfold days_before_year, gregorian_leap.
  replace (y + 1 - 1) with y by lia.
  destruct (Z.eqb_spec (y mod 4) 0), (Z.eqb_spec (y mod 100) 0), (Z.eqb_spec (y mod 400) 0);
    simpl; Z.div_mod_to_equations; lia.
Qed.

Lemma is_leap_year_range y : 0 ≤ is_leap_year y ≤ 1.
Proof. unfold is_leap_year. repeat case_match; lia. Qed.

Lemma days_before_year_step y : 0 ≤ y → days_before_year y + 365 ≤ days_before_year (y + 1).
Proof. intros Hy. rewrite days_before_year_succ by done. pose proof (is_leap_year_range y). lia. Qed.

Lemma days_before_year_mono y z : 0 ≤ y → y ≤ z → days_before_year y ≤ days_before_year z.
Proof.
  intros Hy Hz. replace z with (y + Z.of_nat (Z.to_nat (z - y))) by lia. generalize (Z.to_nat (z - y)) as n. intros n. induction n as [|n IH]; [by rewrite Z.add_0_r|].
  pose proof (days_before_year_step (y + Z.of_nat n) ltac:(lia)). replace (y + Z.of_nat (S n)) with (y + Z.of_nat n + 1) by lia. lia.
Qed.

(** The first day that no [int] year has. *)
Definition last_day : Z := days_before_year (2 ^ 31).

(** The loop stays in the years that an [int] can hold. *)
Lemma year_loop_spec fuel y days :
  1970 ≤ y < 2 ^ 31 → 0 ≤ days → days < 365 * Z.of_nat fuel → days_before_year y + days < last_day →
  ∃ y' days', year_loop fuel y days = Some (y', days') ∧ y ≤ y' < 2 ^ 31 ∧
    0 ≤ days' < 365 + is_leap_year y' ∧ days_before_year y' + days' = days_before_year y + days.
Proof.
  revert y days. induction fuel as [|fuel IH]; intros y days Hy Hd Hf Hlast; [lia|]. cbn [year_loop].
  pose proof (is_leap_year_range y). destruct (Z.ltb_spec days (365 + is_leap_year y)).
  - exists y, days. split_and!; (done || lia).
  - assert (y + 1 < 2 ^ 31) as Hy1. { destruct (decide (y + 1 < 2 ^ 31)); [done|]. unfold last_day in Hlast. replace (2 ^ 31) with (y + 1) in Hlast by lia. rewrite days_before_year_succ in Hlast by lia. lia. }
    rewrite as_int_Some by (unfold in_s; lia). cbn [mbind option_bind]. destruct (IH (y + 1) (days - (365 + is_leap_year y))) as (y' & d' & -> & ? & ? & E); [lia|lia|lia|rewrite days_before_year_succ by lia; lia|].
    exists y', d'. split_and!; (done || lia || idtac).
    rewrite days_before_year_succ in E by lia. lia.
Qed.

(** The month loop splits a day of the year at the month it falls in. *)
Lemma month_loop_spec fuel pre rest days :
  0 ≤ days < foldr Z.add 0 rest → (length rest ≤ fuel)%nat →
  ∃ mon days', month_loop fuel (pre ++ rest) (zlen pre) days = Some (Z.of_nat mon, days') ∧
    (length pre ≤ mon < length pre + length rest)%nat ∧
    (∃ m, (pre ++ rest) !! mon = Some m ∧ 0 ≤ days' < m) ∧
    foldr Z.add 0 (take mon (pre ++ rest)) + days' = foldr Z.add 0 pre + days.
Proof.
  revert fuel pre days. induction rest as [|m rest IH]; intros fuel pre days Hd Hf; simpl in *; [lia|].
  destruct fuel as [|fuel]; [lia|]. cbn [month_loop]. rewrite peek_app by done. cbn [mbind option_bind].
  destruct (Z.leb_spec m days).
  - destruct (IH fuel (pre ++ [m]) (days - m)) as (mon & d' & E & Hmon & Hm & Hs); [lia|lia|].
    rewrite <-(assoc_L (++)) in *. rewrite length_app, Nat2Z.inj_add in *. simpl in *.
    exists mon, d'. split_and!; [done|lia|lia|done|].
    rewrite Hs, foldr_app. simpl. rewrite Z.add_0_r.
    assert (∀ (l : list Z) a, foldr Z.add a l = foldr Z.add 0 l + a) as Hfold.
    { intros l a. induction l as [|x l IHl]; simpl; lia. }
    rewrite (Hfold pre m). lia.
  - exists (length pre), days. split_and!; [done|lia|lia| |].
    + exists m. split; [by rewrite lookup_app_r, Nat.sub_diag|lia].
    + by rewrite take_app_length.
Qed.

Lemma mdays_sum leap : foldr Z.add 0 (mdays leap) = 365 + leap.
Proof. unfold mdays. simpl. lia. Qed.

(** C14: for every instant from 1970-01-01 (in local time) to the end of the last year that an
    [int] can hold, 2^31 - 1, whose adjustments do not overflow, [nolocks_localtime]
    terminates, reads the table of months in range, overflows nowhere and computes the Gregorian
    date and time: the fields are in their ranges (the day of the month within its month, leap
    years included), they stand for exactly that instant, the week day counts from Thursday and
    [tm_yday] is the offset in the year. *)
Theorem nolocks_localtime_civil (t tz dst : Z) :
  in_s 64 (t - tz) → in_s 32 (3600 * dst) → 0 ≤ t - tz + 3600 * dst < 86400 * last_day →
  ∃ r, nolocks_localtime t tz dst = Some r ∧
    civil_seconds r = t - tz + 3600 * dst ∧
    0 ≤ tm_sec r < 60 ∧ 0 ≤ tm_min r < 60 ∧ 0 ≤ tm_hour r < 24 ∧ 0 ≤ tm_mon r < 12 ∧
    (∃ m, mdays (if gregorian_leap (tm_year r + 1900) then 1 else 0) !! Z.to_nat (tm_mon r) = Some m ∧
       1 ≤ tm_mday r ≤ m) ∧
    tm_wday r = ((t - tz + 3600 * dst) / 86400 + 4) mod 7 ∧
    days_before_year (tm_year r + 1900) + tm_yday r = (t - tz + 3600 * dst) / 86400 ∧
    tm_isdst r = dst.
Proof.
  intros Htz Hdst Ht. assert (86400 * last_day < 2 ^ 63) as Hlast by (by vm_compute). unfold nolocks_localtime. rewrite (as_time_t_Some (t - tz)) by done. cbn [mbind option_bind]. rewrite (as_int_Some (3600 * dst)) by done. cbn [mbind option_bind].
  set (t' := t - tz + 3600 * dst) in *. rewrite (as_time_t_Some t') by (unfold in_s; lia). cbn [mbind option_bind].
  change (3600 * 24) with 86400.
  cbv zeta. rewrite (Z.quot_div_nonneg t' 86400), (Z.rem_mod_nonneg t' 86400) by lia.
  pose proof (Z.div_mod t' 86400 ltac:(lia)) as Hdm.
  pose proof (Z.mod_pos_bound t' 86400 ltac:(lia)) as Hsec.
  assert (0 ≤ t' / 86400) as Hdays by (apply Z.div_pos; lia).
  set (days := t' / 86400) in *. set (seconds := t' mod 86400) in *.
  rewrite (Z.quot_div_nonneg seconds 3600), (Z.rem_mod_nonneg seconds 3600) by lia.
  pose proof (Z.mod_pos_bound seconds 3600 ltac:(lia)).
  rewrite (Z.quot_div_nonneg (seconds mod 3600)), (Z.rem_mod_nonneg (seconds mod 3600)) by lia.
  rewrite (Z.rem_mod_nonneg (days + 4) 7) by lia.
  destruct (year_loop_spec (S (Z.to_nat (days / 365))) 1970 days) as (y & d1 & -> & Hy & Hd1 & Hyear);
    [lia|done|Z.div_mod_to_equations; lia| |].
  { change (days_before_year 1970) with 0. unfold days in *. apply Z.div_lt_upper_bound; lia. }
  cbn [mbind option_bind]. destruct (month_loop_spec 13 [] (mdays (is_leap_year y)) d1)
    as (mon & d2 & E & Hmon & (m & Hm & Hd2) & Hsum); [rewrite mdays_sum; lia|simpl; lia|].
  rewrite app_nil_l in *. change (zlen (@nil Z)) with 0 in E. simpl length in Hmon. rewrite E. cbn [mbind option_bind]. rewrite as_int_Some by (unfold in_s; lia). cbn [mbind option_bind].
  change (days_before_year 1970) with 0 in Hyear.
  eexists. split; [done|]. unfold civil_seconds. cbn [tm_sec tm_min tm_hour tm_mday tm_mon tm_year tm_wday tm_yday tm_isdst].
  replace (y - 1900 + 1900) with y by lia. rewrite <-is_leap_year_gregorian by lia.
  split_and!; try done; try (Z.div_mod_to_equations; lia).
  - unfold days_before_month. rewrite Nat2Z.id. simpl foldr in Hsum.
    replace (t') with (86400 * days + seconds) by lia. Z.div_mod_to_equations. lia.
  - exists m. rewrite Nat2Z.id. split; [done|lia].
Qed.

Lemma nolocks_localtime_civil_witness :
  in_s 64 1709211845 ∧ in_s 32 0 ∧ 0 ≤ 1709211845 < 86400 * last_day ∧
  ∃ r, nolocks_localtime 1709211845 0 0 = Some r ∧ civil_seconds r = 1709211845 ∧
    (tm_year r + 1900, tm_mon r + 1, tm_mday r) = (2024, 2, 29).
Proof.
  assert (in_s 64 1709211845 ∧ in_s 32 0 ∧ 0 ≤ 1709211845 < 86400 * last_day) as (H1 & H2 & H3) by (by vm_compute).
  split; [done|]. split; [done|]. split; [done|]. destruct (nolocks_localtime_civil 1709211845 0 0) as (r & Hr & Hc & _); [done|done|done|].
  exists r. split_and!; [done|exact Hc|]. vm_compute in Hr. by injection Hr as <-.
Defined.

(** From the year 2^31 on the counter of the years overflows. *)
Lemma year_loop_overflow fuel y days : 1970 ≤ y < 2 ^ 31 → last_day ≤ days_before_year y + days → year_loop fuel y days = None.
Proof.
  revert y days. induction fuel as [|fuel IH]; intros y days Hy Hd; [done|]. cbn [year_loop]. pose proof (days_before_year_mono (y + 1) (2 ^ 31) ltac:(lia) ltac:(lia)) as Hm. fold last_day in Hm. rewrite days_before_year_succ in Hm by lia. rewrite (proj2 (Z.ltb_ge _ _)) by lia.
  destruct (decide (y + 1 < 2 ^ 31)); [|unfold as_int; by rewrite decide_False by (unfold in_s; lia)]. rewrite as_int_Some by (unfold in_s; lia). cbn [mbind option_bind]. apply IH; [lia|]. rewrite days_before_year_succ by lia. lia.
Qed.
