(* ===== verification/Pubsub.v ===== *)
(** Publish/subscribe (src/pubsub.c), with the keyspace notifications that publish through
    it (src/notify.c).

    A subscription is recorded twice: in the client (its channels and patterns) and in the
    server (the clients of each channel, the list of all patterns).  The theorems show that
    the two stay consistent under every command and the release of a client, that no
    assertion of the code fails, and that a message reaches exactly the clients the set of
    subscriptions says, once per subscription.

    The dictionaries are finite maps, which is what Dict.v shows them to be; the order in
    which an iterator returns their keys is a parameter. *)

From stdpp Require Import strings.
From S2P Require Import Prelude Util Glob.

Abbreviation bytes := (list Z).

(** What is appended to the output of a client. *)
Inductive piece :=
  | MBulkHdr (n : Z)
  | Bulk (b : bytes)
  | NullBulk
  | Int (n : Z)
  | Error.

Record client := mkClient {
  pubsub_channels : gset bytes;
  pubsub_patterns : list bytes;
  flag_pubsub : bool;
  reply : list piece;
}.

Record server := mkServer {
  channels : gmap bytes (list Z);
  patterns : list (Z * bytes);
  clients : gmap Z client;
}.

Definition addReply (ps : list piece) (cl : client) : client :=
  mkClient (pubsub_channels cl) (pubsub_patterns cl) (flag_pubsub cl) (reply cl ++ ps).
Definition set_channels (x : gset bytes) (cl : client) : client :=
  mkClient x (pubsub_patterns cl) (flag_pubsub cl) (reply cl).
Definition set_patterns (x : list bytes) (cl : client) : client :=
  mkClient (pubsub_channels cl) x (flag_pubsub cl) (reply cl).
Definition set_flag (x : bool) (cl : client) : client :=
  mkClient (pubsub_channels cl) (pubsub_patterns cl) x (reply cl).
Definition put_client (c : Z) (cl : client) (s : server) : server :=
  mkServer (channels s) (patterns s) (<[c := cl]> (clients s)).
Definition set_srv_channels (x : gmap bytes (list Z)) (s : server) : server :=
  mkServer x (patterns s) (clients s).
Definition set_srv_patterns (x : list (Z * bytes)) (s : server) : server :=
  mkServer (channels s) x (clients s).

(** [listSearchKey] then [listDelNode]; [None] when the value is not in the list. *)
Fixpoint list_del {A} `{EqDecision A} (x : A) (l : list A) : option (list A) :=
  match l with
  | [] => None
  | y :: l => if decide (x = y) then Some l else cons y <$> list_del x l
  end.

Definition clientSubscriptionsCount (cl : client) : Z :=
  Z.of_nat (size (pubsub_channels cl)) + zlen (pubsub_patterns cl).

Section Pubsub.
(** The order of a dictionary iterator. *)
Context (order : gset bytes → list bytes).

Definition pubsubSubscribeChannel (s : server) (c : Z) (channel : bytes) : option (server * Z) :=
  cl ← clients s !! c;
  let '(s, cl, retval) :=
    if decide (channel ∈ pubsub_channels cl) then (s, cl, 0)
    else
      let cl := set_channels ({[channel]} ∪ pubsub_channels cl) cl in
      let l := default [] (channels s !! channel) in
      (set_srv_channels (<[channel := l ++ [c]]> (channels s)) s, cl, 1) in
  let cl := addReply [MBulkHdr 3; Bulk (str "subscribe"); Bulk channel;
                      Int (clientSubscriptionsCount cl)] cl in
  Some (put_client c cl s, retval).

Definition pubsubUnsubscribeChannel (s : server) (c : Z) (channel : bytes) (notify : bool)
    : option (server * Z) :=
  cl ← clients s !! c;
  '(s, cl, retval) ←
    (if decide (channel ∈ pubsub_channels cl) then
       let cl := set_channels (pubsub_channels cl ∖ {[channel]}) cl in
       l ← channels s !! channel; (* serverAssert *)
       l ← list_del c l;          (* serverAssert *)
       Some (set_srv_channels
               (match l with
                | [] => delete channel (channels s)
                | _ :: _ => <[channel := l]> (channels s)
                end) s, cl, 1)
     else Some (s, cl, 0));
  let cl := if notify
            then addReply [MBulkHdr 3; Bulk (str "unsubscribe"); Bulk channel;
                           Int (clientSubscriptionsCount cl)] cl
            else cl in
  Some (put_client c cl s, retval).

Definition pubsubSubscribePattern (s : server) (c : Z) (pattern : bytes) : option (server * Z) :=
  cl ← clients s !! c;
  let '(s, cl, retval) :=
    if decide (pattern ∈ pubsub_patterns cl) then (s, cl, 0)
    else
      let cl := set_patterns (pubsub_patterns cl ++ [pattern]) cl in
      (set_srv_patterns (patterns s ++ [(c, pattern)]) s, cl, 1) in
  let cl := addReply [MBulkHdr 3; Bulk (str "psubscribe"); Bulk pattern;
                      Int (clientSubscriptionsCount cl)] cl in
  Some (put_client c cl s, retval).

Definition pubsubUnsubscribePattern (s : server) (c : Z) (pattern : bytes) (notify : bool)
    : option (server * Z) :=
  cl ← clients s !! c;
  '(s, cl, retval) ←
    (match list_del pattern (pubsub_patterns cl) with
     | Some l =>
         let cl := set_patterns l cl in
         pats ← list_del (c, pattern) (patterns s); (* listDelNode of NULL otherwise *)
         Some (set_srv_patterns pats s, cl, 1)
     | None => Some (s, cl, 0)
     end);
  let cl := if notify
            then addReply [MBulkHdr 3; Bulk (str "punsubscribe"); Bulk pattern;
                           Int (clientSubscriptionsCount cl)] cl
            else cl in
  Some (put_client c cl s, retval).

(** A loop that calls an operation on each element and counts its results. *)
Fixpoint for_each (op : server → bytes → option (server * Z)) (s : server) (l : list bytes)
    : option (server * Z) :=
  match l with
  | [] => Some (s, 0)
  | x :: l =>
      '(s, r) ← op s x;
      '(s, count) ← for_each op s l;
      Some (s, r + count)
  end.

(** [if (notify && count == 0)]: a reply although there was nothing to do. *)
Definition reply_nothing (name : bytes) (notify : bool) (s : server) (c count : Z) : option server :=
  if notify && (count =? 0) then
    cl ← clients s !! c;
    Some (put_client c (addReply [MBulkHdr 3; Bulk name; NullBulk;
                                  Int (clientSubscriptionsCount cl)] cl) s)
  else Some s.

(** The safe iterator returns every channel once while they are being deleted. *)
Definition pubsubUnsubscribeAllChannels (s : server) (c : Z) (notify : bool) : option (server * Z) :=
  cl ← clients s !! c;
  '(s, count) ← for_each (λ s ch, pubsubUnsubscribeChannel s c ch notify) s
                  (order (pubsub_channels cl));
  s ← reply_nothing (str "unsubscribe") notify s c count;
  Some (s, count).

(** [listNext] moves on before the node is deleted. *)
Definition pubsubUnsubscribeAllPatterns (s : server) (c : Z) (notify : bool) : option (server * Z) :=
  cl ← clients s !! c;
  '(s, count) ← for_each (λ s p, pubsubUnsubscribePattern s c p notify) s (pubsub_patterns cl);
  s ← reply_nothing (str "punsubscribe") notify s c count;
  Some (s, count).

(** The replies to a list of clients; every client of the lists exists. *)
Fixpoint send_all (s : server) (msgs : list (Z * list piece)) : option server :=
  match msgs with
  | [] => Some s
  | (c, ps) :: msgs =>
      cl ← clients s !! c;
      send_all (put_client c (addReply ps cl) s) msgs
  end.

Definition message_pieces (channel message : bytes) : list piece :=
  [MBulkHdr 3; Bulk (str "message"); Bulk channel; Bulk message].

Definition pmessage_pieces (pattern channel message : bytes) : list piece :=
  [MBulkHdr 4; Bulk (str "pmessage"); Bulk pattern; Bulk channel; Bulk message].

(** [stringmatchlen] on two sds strings. *)
Definition sdsmatch (pattern s : bytes) : option bool :=
  stringmatchlen (pattern ++ [0]) (zlen pattern) s false.

(** The loop over the patterns of the server. *)
Fixpoint matching (pats : list (Z * bytes)) (channel : bytes) : option (list (Z * bytes)) :=
  match pats with
  | [] => Some []
  | (c, p) :: pats =>
      b ← sdsmatch p channel;
      l ← matching pats channel;
      Some (if (b : bool) then (c, p) :: l else l)
  end.

Definition pubsubPublishMessage (s : server) (channel message : bytes) : option (server * Z) :=
  let l := default [] (channels s !! channel) in
  s ← send_all s ((λ c, (c, message_pieces channel message)) <$> l);
  pats ← matching (patterns s) channel;
  s ← send_all s ((λ '(c, p), (c, pmessage_pieces p channel message)) <$> pats);
  Some (s, zlen l + zlen pats).

(** ** The commands *)

Definition subscribeCommand (s : server) (c : Z) (args : list bytes) : option server :=
  '(s, _) ← for_each (λ s ch, pubsubSubscribeChannel s c ch) s args;
  cl ← clients s !! c;
  Some (put_client c (set_flag true cl) s).

Definition clear_flag (s : server) (c : Z) : option server :=
  cl ← clients s !! c;
  Some (if clientSubscriptionsCount cl =? 0 then put_client c (set_flag false cl) s else s).

Definition unsubscribeCommand (s : server) (c : Z) (args : list bytes) : option server :=
  '(s, _) ← (match args with
             | [] => pubsubUnsubscribeAllChannels s c true
             | _ :: _ => for_each (λ s ch, pubsubUnsubscribeChannel s c ch true) s args
             end);
  clear_flag s c.

Definition psubscribeCommand (s : server) (c : Z) (args : list bytes) : option server :=
  '(s, _) ← for_each (λ s p, pubsubSubscribePattern s c p) s args;
  cl ← clients s !! c;
  Some (put_client c (set_flag true cl) s).

Definition punsubscribeCommand (s : server) (c : Z) (args : list bytes) : option server :=
  '(s, _) ← (match args with
             | [] => pubsubUnsubscribeAllPatterns s c true
             | _ :: _ => for_each (λ s p, pubsubUnsubscribePattern s c p true) s args
             end);
  clear_flag s c.

(** PUBLISH; its propagation to replicas or the cluster bus is outside the model. *)
Definition publishCommand (s : server) (c : Z) (channel message : bytes) : option server :=
  '(s, receivers) ← pubsubPublishMessage s channel message;
  cl ← clients s !! c;
  Some (put_client c (addReply [Int receivers] cl) s).

(** A connection, and what [freeClient] does for Pub/Sub before the client is released. *)
Definition createClient (s : server) (c : Z) : server :=
  put_client c (mkClient ∅ [] false []) s.

Definition freeClient_pubsub (s : server) (c : Z) : option server :=
  '(s, _) ← pubsubUnsubscribeAllChannels s c false;
  '(s, _) ← pubsubUnsubscribeAllPatterns s c false;
  Some (mkServer (channels s) (patterns s) (delete c (clients s))).

(** PUBSUB NUMSUB and NUMPAT. *)
Definition pubsub_numsub (s : server) (args : list bytes) : list piece :=
  MBulkHdr (zlen args * 2) ::
  mjoin ((λ ch, [Bulk ch; Int (zlen (default [] (channels s !! ch)))]) <$> args).

Definition pubsub_numpat (s : server) : list piece := [Int (zlen (patterns s))].

End Pubsub.

(** ** The subscriptions as sets *)

Record subscriptions := mkSubs {
  a_clients : gset Z;
  a_subs : gset (Z * bytes);
  a_pats : gset (Z * bytes);
}.

(** Both records of the channel subscriptions, per client and per channel, agree with the
    set; no client is listed twice for a channel, and no channel is kept without clients. *)
Record chan_rep (cls : gmap Z (gset bytes)) (srv : gmap bytes (list Z))
    (subs : gset (Z * bytes)) : Prop := {
  chan_client : ∀ c ch, (c, ch) ∈ subs ↔ ∃ x, cls !! c = Some x ∧ ch ∈ x;
  chan_server : ∀ c ch, (c, ch) ∈ subs ↔ c ∈ default [] (srv !! ch);
  chan_list : ∀ ch l, srv !! ch = Some l → l ≠ [] ∧ NoDup l;
}.

Record pat_rep (cls : gmap Z (list bytes)) (srv : list (Z * bytes))
    (pats : gset (Z * bytes)) : Prop := {
  pat_client : ∀ c p, (c, p) ∈ pats ↔ ∃ x, cls !! c = Some x ∧ p ∈ x;
  pat_server : ∀ x, x ∈ pats ↔ x ∈ srv;
  pat_list : NoDup srv;
  pat_client_list : ∀ c x, cls !! c = Some x → NoDup x;
}.

(** The server represents the sets. *)
Record represents (s : server) (a : subscriptions) : Prop := {
  r_dom : dom (clients s) = a_clients a;
  r_chan : chan_rep (pubsub_channels <$> clients s) (channels s) (a_subs a);
  r_pat : pat_rep (pubsub_patterns <$> clients s) (patterns s) (a_pats a);
}.

(** A step on behalf of client [c] changes no other client and no flag. *)
Definition frame (c : Z) (s s' : server) : Prop :=
  ∃ cl cl', clients s !! c = Some cl ∧ clients s' = <[c := cl']> (clients s) ∧
    flag_pubsub cl' = flag_pubsub cl.

Lemma frame_trans c s1 s2 s3 : frame c s1 s2 → frame c s2 s3 → frame c s1 s3.
Proof.
  intros (cl & cl1 & H1 & E1 & F1) (cl2 & cl3 & H2 & E2 & F2). exists cl, cl3.
  rewrite E1, lookup_insert_eq in H2. simplify_eq.
  split_and!; [done| |congruence]. by rewrite E2, E1, insert_insert_eq.
Qed.

Lemma frame_refl c s cl : clients s !! c = Some cl → frame c s s.
Proof. intros H. exists cl, cl. split_and!; [done| |done]. by rewrite insert_id. Qed.

Lemma elem_of_list_del {A} `{EqDecision A} (x : A) l :
  x ∈ l → ∃ l1 l2, l = l1 ++ x :: l2 ∧ list_del x l = Some (l1 ++ l2) .
Proof.
  induction l as [|y l IH]; [by intros ?%not_elem_of_nil|]. simpl.
  destruct (decide (x = y)) as [->|Hne]; [by exists [], l|].
  intros [?|Hin]%elem_of_cons; [done|]. destruct (IH Hin) as (l1 & l2 & -> & ->).
  by exists (y :: l1), l2.
Qed.

Lemma list_del_None {A} `{EqDecision A} (x : A) l : x ∉ l → list_del x l = None.
Proof.
  induction l as [|y l IH]; [done|]. intros [Hne Hni]%not_elem_of_cons. simpl.
  rewrite decide_False by done. by rewrite IH.
Qed.

Lemma list_del_NoDup {A} `{EqDecision A} (x : A) l :
  NoDup l → x ∈ l → ∃ l', list_del x l = Some l' ∧ NoDup l' ∧ ∀ y, y ∈ l' ↔ y ∈ l ∧ y ≠ x.
Proof.
  intros Hnd Hin. destruct (elem_of_list_del x l Hin) as (l1 & l2 & -> & ->).
  assert (x :: l1 ++ l2 ≡ₚ l1 ++ x :: l2) as Hp by apply Permutation_middle.
  rewrite <-Hp in Hnd. apply NoDup_cons in Hnd as [Hx Hnd].
  exists (l1 ++ l2). split_and!; [done..|]. set_solver.
Qed.

Lemma chan_add cls srv subs c x ch :
  chan_rep cls srv subs → cls !! c = Some x → ch ∉ x →
  chan_rep (<[c := {[ch]} ∪ x]> cls) (<[ch := default [] (srv !! ch) ++ [c]]> srv)
    ({[(c, ch)]} ∪ subs).
Proof.
  intros [H1 H2 H3] Hc Hni.
  assert ((c, ch) ∉ subs) as Hn by (rewrite H1; intros (y & ? & ?); simplify_eq; done).
  split.
  - intros c' ch'. rewrite elem_of_union, elem_of_singleton, H1.
    destruct (decide (c' = c)) as [->|]; [rewrite lookup_insert_eq|rewrite lookup_insert_ne by done];
      [|naive_solver]. rewrite Hc. split.
    + intros [[= ->]|(y & [= <-] & Hy)]; eexists; (split; [done|]); set_solver.
    + intros (y & [= <-] & [->%elem_of_singleton|Hy]%elem_of_union); [auto|]. right. eauto.
  - intros c' ch'. rewrite elem_of_union, elem_of_singleton, H2.
    destruct (decide (ch' = ch)) as [->|]; [rewrite lookup_insert_eq|rewrite lookup_insert_ne by done];
      [|naive_solver]. simpl. rewrite elem_of_app, list_elem_of_singleton. naive_solver.
  - intros ch' l. destruct (decide (ch' = ch)) as [->|];
      [rewrite lookup_insert_eq; intros [= <-]|rewrite lookup_insert_ne by done; by eauto].
    split; [by destruct (default [] _)|].
    apply NoDup_app. split_and!; [|intros y Hy ->%list_elem_of_singleton|apply NoDup_singleton].
    + destruct (srv !! ch) eqn:E; simpl; [by eapply H3|constructor].
    + apply Hn. by apply H2.
Qed.

Lemma chan_del cls srv subs c x ch :
  chan_rep cls srv subs → cls !! c = Some x → ch ∈ x →
  ∃ l l', srv !! ch = Some l ∧ list_del c l = Some l' ∧
    chan_rep (<[c := x ∖ {[ch]}]> cls)
      (match l' with [] => delete ch srv | _ :: _ => <[ch := l']> srv end) (subs ∖ {[(c, ch)]}).
Proof.
  intros [H1 H2 H3] Hc Hin.
  assert ((c, ch) ∈ subs) as Hsub by (apply H1; eauto).
  pose proof (proj1 (H2 _ _) Hsub) as Hl. destruct (srv !! ch) as [l|] eqn:E; simpl in Hl; [|set_solver].
  destruct (H3 _ _ E) as [_ Hnd]. destruct (list_del_NoDup c l Hnd Hl) as (l' & Hd & Hnd' & Hl').
  exists l, l'. split_and!; [done..|].
  set (srv' := match l' with [] => delete ch srv | _ :: _ => <[ch := l']> srv end).
  assert (default [] (srv' !! ch) = l') as Hch.
  { unfold srv'. destruct l'; [by rewrite lookup_delete_eq|by rewrite lookup_insert_eq]. }
  assert (∀ ch', ch' ≠ ch → srv' !! ch' = srv !! ch') as Hother.
  { intros ch' Hne. unfold srv'. destruct l'; [by rewrite lookup_delete_ne|by rewrite lookup_insert_ne]. }
  split.
  - intros c' ch'. rewrite elem_of_difference, elem_of_singleton, H1.
    destruct (decide (c' = c)) as [->|]; [rewrite lookup_insert_eq|rewrite lookup_insert_ne by done];
      [|naive_solver]. rewrite Hc. split.
    + intros [(y & [= <-] & Hy) Hne]. eexists. split; [done|]. set_solver.
    + intros (y & [= <-] & Hy). split; [|set_solver]. eexists. split; [done|]. set_solver.
  - intros c' ch'. rewrite elem_of_difference, elem_of_singleton, H2.
    destruct (decide (ch' = ch)) as [->|]; [rewrite Hch, E, Hl'; simpl|rewrite Hother by done];
      naive_solver.
  - intros ch' l0. destruct (decide (ch' = ch)) as [->|]; [|rewrite Hother by done; by eauto].
    unfold srv'. destruct l' as [|y l'];
      [by rewrite lookup_delete_eq|rewrite lookup_insert_eq; by intros [= <-]].
Qed.

Lemma pat_add cls srv pats c x p :
  pat_rep cls srv pats → cls !! c = Some x → p ∉ x →
  pat_rep (<[c := x ++ [p]]> cls) (srv ++ [(c, p)]) ({[(c, p)]} ∪ pats).
Proof.
  intros [H1 H2 H3 H4] Hc Hni.
  assert ((c, p) ∉ pats) as Hn by (rewrite H1; intros (y & ? & ?); simplify_eq; done).
  split.
  - intros c' p'. rewrite elem_of_union, elem_of_singleton, H1.
    destruct (decide (c' = c)) as [->|]; [rewrite lookup_insert_eq|rewrite lookup_insert_ne by done];
      [|naive_solver]. rewrite Hc. split.
    + intros [[= ->]|(y & [= <-] & Hy)]; eexists; (split; [done|]); set_solver.
    + intros (y & [= <-] & [Hy| ->%list_elem_of_singleton]%elem_of_app); [|auto]. right. eauto.
  - intros y. rewrite elem_of_union, elem_of_singleton, H2, elem_of_app, list_elem_of_singleton.
    naive_solver.
  - apply NoDup_app. split_and!; [done|intros y Hy ->%list_elem_of_singleton|apply NoDup_singleton].
    apply Hn. by apply H2.
  - intros c' y. destruct (decide (c' = c)) as [->|];
      [rewrite lookup_insert_eq; intros [= <-]|rewrite lookup_insert_ne by done; by eauto].
    apply NoDup_app. split_and!; [by eapply H4|by intros z Hz ->%list_elem_of_singleton|apply NoDup_singleton].
Qed.

Lemma pat_del cls srv pats c x p :
  pat_rep cls srv pats → cls !! c = Some x → p ∈ x →
  ∃ x' srv', list_del p x = Some x' ∧ list_del (c, p) srv = Some srv' ∧
    pat_rep (<[c := x']> cls) srv' (pats ∖ {[(c, p)]}).
Proof.
  intros [H1 H2 H3 H4] Hc Hin.
  assert ((c, p) ∈ pats) as Hsub by (apply H1; eauto).
  destruct (list_del_NoDup p x) as (x' & Hx & Hnx & Hx'); [by eapply H4|done|].
  destruct (list_del_NoDup (c, p) srv) as (srv' & Hs & Hns & Hs'); [done|by apply H2|].
  exists x', srv'. split_and!; [done..|]. split; [| |done|].
  - intros c' p'. rewrite elem_of_difference, elem_of_singleton, H1.
    destruct (decide (c' = c)) as [->|]; [rewrite lookup_insert_eq|rewrite lookup_insert_ne by done];
      [|naive_solver]. rewrite Hc. split.
    + intros [(y & [= <-] & Hy) Hne]. eexists. split; [done|]. apply Hx'. naive_solver.
    + intros (y & [= <-] & [Hy Hne]%Hx'). split; [by eauto|naive_solver].
  - intros y. rewrite elem_of_difference, elem_of_singleton, H2. by rewrite Hs'.
  - intros c' y. destruct (decide (c' = c)) as [->|];
      [rewrite lookup_insert_eq; by intros [= <-]|rewrite lookup_insert_ne by done; by eauto].
Qed.

(** ** The operations *)

Definition add_sub (c : Z) (a : subscriptions) (ch : bytes) : subscriptions :=
  mkSubs (a_clients a) ({[(c, ch)]} ∪ a_subs a) (a_pats a).
Definition del_sub (c : Z) (a : subscriptions) (ch : bytes) : subscriptions :=
  mkSubs (a_clients a) (a_subs a ∖ {[(c, ch)]}) (a_pats a).
Definition add_pat (c : Z) (a : subscriptions) (p : bytes) : subscriptions :=
  mkSubs (a_clients a) (a_subs a) ({[(c, p)]} ∪ a_pats a).
Definition del_pat (c : Z) (a : subscriptions) (p : bytes) : subscriptions :=
  mkSubs (a_clients a) (a_subs a) (a_pats a ∖ {[(c, p)]}).

Lemma represents_client s a c :
  represents s a → c ∈ a_clients a → ∃ cl, clients s !! c = Some cl.
Proof. intros Hr Hc. rewrite <-(r_dom _ _ Hr) in Hc. by apply elem_of_dom in Hc. Qed.

(** Storing the client after its part of the representation has been updated. *)
Lemma represents_put s a c cl cl' s' a' :
  represents s a → clients s !! c = Some cl →
  clients s' = <[c := cl']> (clients s) → a_clients a' = a_clients a →
  chan_rep (<[c := pubsub_channels cl']> (pubsub_channels <$> clients s)) (channels s') (a_subs a') →
  pat_rep (<[c := pubsub_patterns cl']> (pubsub_patterns <$> clients s)) (patterns s') (a_pats a') →
  represents s' a'.
Proof.
  intros Hr Hc E Ea H1 H2. split; rewrite E, ?Ea; [|by rewrite fmap_insert..].
  rewrite dom_insert_L, (r_dom _ _ Hr). apply elem_of_dom_2 in Hc. rewrite (r_dom _ _ Hr) in Hc. set_solver.
Qed.

Lemma chan_same s a c cl :
  represents s a → clients s !! c = Some cl →
  chan_rep (<[c := pubsub_channels cl]> (pubsub_channels <$> clients s)) (channels s) (a_subs a).
Proof. intros Hr Hc. rewrite insert_id; [apply Hr|]. by rewrite lookup_fmap, Hc. Qed.

Lemma pat_same s a c cl :
  represents s a → clients s !! c = Some cl →
  pat_rep (<[c := pubsub_patterns cl]> (pubsub_patterns <$> clients s)) (patterns s) (a_pats a).
Proof. intros Hr Hc. rewrite insert_id; [apply Hr|]. by rewrite lookup_fmap, Hc. Qed.

(** A change of the client that keeps its subscriptions. *)
Lemma represents_reply s a c cl cl' :
  represents s a → clients s !! c = Some cl →
  pubsub_channels cl' = pubsub_channels cl → pubsub_patterns cl' = pubsub_patterns cl →
  represents (put_client c cl' s) a.
Proof.
  intros Hr Hc E1 E2. eapply (represents_put s a c cl cl'); [done..|rewrite E1|rewrite E2].
  - by apply (chan_same s a).
  - by apply (pat_same s a).
Qed.

Lemma sub_client s a c cl ch :
  represents s a → clients s !! c = Some cl → (c, ch) ∈ a_subs a ↔ ch ∈ pubsub_channels cl.
Proof.
  intros Hr Hc. rewrite (chan_client _ _ _ (r_chan _ _ Hr)), lookup_fmap, Hc. naive_solver.
Qed.

Lemma pat_client_in s a c cl p :
  represents s a → clients s !! c = Some cl → (c, p) ∈ a_pats a ↔ p ∈ pubsub_patterns cl.
Proof.
  intros Hr Hc. rewrite (pat_client _ _ _ (r_pat _ _ Hr)), lookup_fmap, Hc. naive_solver.
Qed.

Lemma frame_put c cl cl' s s' :
  clients s !! c = Some cl → clients s' = <[c := cl']> (clients s) →
  flag_pubsub cl' = flag_pubsub cl → frame c s s'.
Proof. intros Hc E Hf. by exists cl, cl'. Qed.

(** One operation of client [c], which takes the sets from [a] to [a']. *)
Definition step_ok (c : Z) (s s' : server) (a' : subscriptions) : Prop :=
  represents s' a' ∧ frame c s s'.

Lemma subscribe_spec s a c ch :
  represents s a → c ∈ a_clients a →
  ∃ s' r, pubsubSubscribeChannel s c ch = Some (s', r) ∧ step_ok c s s' (add_sub c a ch).
Proof.
  intros Hr Hc. destruct (represents_client s a c Hr Hc) as [cl Hcl].
  unfold pubsubSubscribeChannel. rewrite Hcl. cbn [mbind option_bind].
  destruct (decide (ch ∈ pubsub_channels cl)) as [Hin|Hni]; eexists _, _; (split; [done|]);
    (split; [|by eapply (frame_put c cl)]).
  - replace (add_sub c a ch) with a; [by eapply represents_reply|].
    apply (sub_client s a c cl ch Hr Hcl) in Hin. destruct a. unfold add_sub. simpl in *. f_equal. set_solver.
  - eapply (represents_put s a c cl); [done..| |exact (pat_same s a c cl Hr Hcl)].
    apply chan_add; [apply Hr|by rewrite lookup_fmap, Hcl|done].
Qed.

Lemma unsubscribe_spec s a c ch notify :
  represents s a → c ∈ a_clients a →
  ∃ s' r, pubsubUnsubscribeChannel s c ch notify = Some (s', r) ∧ step_ok c s s' (del_sub c a ch).
Proof.
  intros Hr Hc. destruct (represents_client s a c Hr Hc) as [cl Hcl].
  unfold pubsubUnsubscribeChannel. rewrite Hcl. cbn [mbind option_bind].
  destruct (decide (ch ∈ pubsub_channels cl)) as [Hin|Hni].
  - destruct (chan_del (pubsub_channels <$> clients s) (channels s) (a_subs a) c (pubsub_channels cl) ch)
      as (l & l' & -> & Hl' & Hrep); [apply Hr|by rewrite lookup_fmap, Hcl|done|].
    cbn [mbind option_bind]. rewrite Hl'. cbn [mbind option_bind].
    eexists _, _. split; [done|]. split; [|by eapply (frame_put c cl); [done|done|destruct notify]].
    destruct notify; (eapply (represents_put s a c cl); [done..|exact (pat_same s a c cl Hr Hcl)]).
  - cbn [mbind option_bind]. eexists _, _. split; [done|]. split; [|by eapply (frame_put c cl); [done|done|destruct notify]].
    replace (del_sub c a ch) with a; [by eapply represents_reply; destruct notify|].
    destruct a. unfold del_sub. simpl in *. f_equal.
    rewrite <-(sub_client s _ c cl ch Hr Hcl) in Hni. simpl in Hni. set_solver.
Qed.

Lemma psubscribe_spec s a c p :
  represents s a → c ∈ a_clients a →
  ∃ s' r, pubsubSubscribePattern s c p = Some (s', r) ∧ step_ok c s s' (add_pat c a p).
Proof.
  intros Hr Hc. destruct (represents_client s a c Hr Hc) as [cl Hcl].
  unfold pubsubSubscribePattern. rewrite Hcl. cbn [mbind option_bind].
  destruct (decide (p ∈ pubsub_patterns cl)) as [Hin|Hni]; eexists _, _; (split; [done|]);
    (split; [|by eapply (frame_put c cl)]).
  - replace (add_pat c a p) with a; [by eapply represents_reply|].
    apply (pat_client_in s a c cl p Hr Hcl) in Hin. destruct a. unfold add_pat. simpl in *. f_equal. set_solver.
  - eapply (represents_put s a c cl); [done..|exact (chan_same s a c cl Hr Hcl)|].
    apply pat_add; [apply Hr|by rewrite lookup_fmap, Hcl|done].
Qed.

Lemma punsubscribe_spec s a c p notify :
  represents s a → c ∈ a_clients a →
  ∃ s' r, pubsubUnsubscribePattern s c p notify = Some (s', r) ∧ step_ok c s s' (del_pat c a p).
Proof.
  intros Hr Hc. destruct (represents_client s a c Hr Hc) as [cl Hcl].
  unfold pubsubUnsubscribePattern. rewrite Hcl. cbn [mbind option_bind].
  destruct (decide (p ∈ pubsub_patterns cl)) as [Hin|Hni].
  - destruct (pat_del (pubsub_patterns <$> clients s) (patterns s) (a_pats a) c (pubsub_patterns cl) p)
      as (l & l' & -> & Hl' & Hrep); [apply Hr|by rewrite lookup_fmap, Hcl|done|].
    rewrite Hl'. cbn [mbind option_bind].
    eexists _, _. split; [done|]. split; [|by eapply (frame_put c cl); [done|done|destruct notify]].
    destruct notify; (eapply (represents_put s a c cl); [done..|exact (chan_same s a c cl Hr Hcl)|done]).
  - rewrite list_del_None by done. cbn [mbind option_bind].
    eexists _, _. split; [done|]. split; [|by eapply (frame_put c cl); [done|done|destruct notify]].
    replace (del_pat c a p) with a; [by eapply represents_reply; destruct notify|].
    destruct a. unfold del_pat. simpl in *. f_equal.
    rewrite <-(pat_client_in s _ c cl p Hr Hcl) in Hni. simpl in Hni. set_solver.
Qed.

(** ** Loops *)

Lemma for_each_spec op (f : subscriptions → bytes → subscriptions) c :
  (∀ s a x, represents s a → c ∈ a_clients a →
     ∃ s' r, op s x = Some (s', r) ∧ step_ok c s s' (f a x)) →
  (∀ a x, a_clients (f a x) = a_clients a) →
  ∀ l s a, represents s a → c ∈ a_clients a →
    ∃ s' n, for_each op s l = Some (s', n) ∧ step_ok c s s' (foldl f a l).
Proof.
  intros Hop Hcl l. induction l as [|x l IH]; intros s a Hr Hc.
  { destruct (represents_client s a c Hr Hc) as [cl Hx]. exists s, 0. split; [done|].
    split; [done|]. by eapply frame_refl. }
  destruct (Hop s a x Hr Hc) as (s1 & r & E1 & Hr1 & Hf1).
  destruct (IH s1 (f a x) Hr1) as (s2 & n & E2 & Hr2 & Hf2); [by rewrite Hcl|].
  exists s2, (r + n). simpl. rewrite E1. cbn [mbind option_bind]. rewrite E2. split; [done|].
  split; [done|]. by eapply frame_trans.
Qed.

Definition pairs (c : Z) (l : list bytes) : gset (Z * bytes) := list_to_set (pair c <$> l).

Lemma elem_of_pairs c l d x : (d, x) ∈ pairs c l ↔ d = c ∧ x ∈ l.
Proof. unfold pairs. rewrite elem_of_list_to_set, list_elem_of_fmap. naive_solver. Qed.

Lemma foldl_add_sub c l a :
  foldl (add_sub c) a l = mkSubs (a_clients a) (pairs c l ∪ a_subs a) (a_pats a).
Proof.
  revert a. induction l as [|x l IH]; intros a; simpl.
  { destruct a. simpl. f_equal. unfold pairs. set_solver. }
  rewrite IH. simpl. f_equal. apply set_eq. intros [d y]. rewrite !elem_of_union, !elem_of_pairs. set_solver.
Qed.

Lemma foldl_del_sub c l a :
  foldl (del_sub c) a l = mkSubs (a_clients a) (a_subs a ∖ pairs c l) (a_pats a).
Proof.
  revert a. induction l as [|x l IH]; intros a; simpl.
  { destruct a. simpl. f_equal. unfold pairs. set_solver. }
  rewrite IH. simpl. f_equal. apply set_eq. intros [d y]. rewrite !elem_of_difference, !elem_of_pairs. set_solver.
Qed.

Lemma foldl_add_pat c l a :
  foldl (add_pat c) a l = mkSubs (a_clients a) (a_subs a) (pairs c l ∪ a_pats a).
Proof.
  revert a. induction l as [|x l IH]; intros a; simpl.
  { destruct a. simpl. f_equal. unfold pairs. set_solver. }
  rewrite IH. simpl. f_equal. apply set_eq. intros [d y]. rewrite !elem_of_union, !elem_of_pairs. set_solver.
Qed.

Lemma foldl_del_pat c l a :
  foldl (del_pat c) a l = mkSubs (a_clients a) (a_subs a) (a_pats a ∖ pairs c l).
Proof.
  revert a. induction l as [|x l IH]; intros a; simpl.
  { destruct a. simpl. f_equal. unfold pairs. set_solver. }
  rewrite IH. simpl. f_equal. apply set_eq. intros [d y]. rewrite !elem_of_difference, !elem_of_pairs. set_solver.
Qed.

(** The subscriptions of the other clients. *)
Definition others (c : Z) (x : gset (Z * bytes)) : gset (Z * bytes) := filter (λ y, y.1 ≠ c) x.

Lemma reply_nothing_spec name notify s a c count :
  represents s a → c ∈ a_clients a →
  ∃ s', reply_nothing name notify s c count = Some s' ∧ step_ok c s s' a.
Proof.
  intros Hr Hc. destruct (represents_client s a c Hr Hc) as [cl Hcl]. unfold reply_nothing.
  destruct (_ && _).
  - rewrite Hcl. cbn [mbind option_bind]. eexists. split; [done|]. split.
    + by eapply represents_reply.
    + by eapply (frame_put c cl).
  - exists s. split; [done|]. split; [done|]. by eapply frame_refl.
Qed.

Definition initServer : server := mkServer ∅ [] ∅.
Definition no_subscriptions : subscriptions := mkSubs ∅ ∅ ∅.

Lemma initServer_represents : represents initServer no_subscriptions.
Proof.
  split; simpl; [done| |].
  - split; intros c ch; rewrite ?fmap_empty, ?lookup_empty; [set_solver|set_solver|done].
  - split; [|set_solver|constructor|by intros ? ?; rewrite fmap_empty, lookup_empty].
    intros c ch. rewrite fmap_empty, lookup_empty. set_solver.
Qed.

Lemma punsubscribe_all_spec s a c notify :
  represents s a → c ∈ a_clients a →
  ∃ s' n, pubsubUnsubscribeAllPatterns s c notify = Some (s', n) ∧
    step_ok c s s' (mkSubs (a_clients a) (a_subs a) (others c (a_pats a))).
Proof.
  intros Hr Hc. destruct (represents_client s a c Hr Hc) as [cl Hcl].
  unfold pubsubUnsubscribeAllPatterns. rewrite Hcl. cbn [mbind option_bind].
  destruct (for_each_spec (λ s p, pubsubUnsubscribePattern s c p notify) (del_pat c) c
    (λ s a x Hr Hc, punsubscribe_spec s a c x notify Hr Hc) (λ _ _, eq_refl)
    (pubsub_patterns cl) s a Hr Hc) as (s1 & n & -> & Hr1 & Hf1).
  cbn [mbind option_bind]. rewrite foldl_del_pat in Hr1.
  destruct (reply_nothing_spec (str "punsubscribe") notify s1 _ c n Hr1 Hc) as (s2 & -> & Hr2 & Hf2).
  eexists _, _. split; [done|]. split; [|by eapply frame_trans].
  eapply eq_ind; [exact Hr2|]. f_equal. apply set_eq. intros [d y].
  unfold others. rewrite elem_of_difference, elem_of_pairs, elem_of_filter.
  rewrite <-(pat_client_in s a c cl y Hr Hcl). simpl. destruct (decide (d = c)) as [->|]; naive_solver.
Qed.

Section UnsubscribeAll.
Context (order : gset bytes → list bytes) (order_perm : ∀ x, order x ≡ₚ elements x).

Lemma unsubscribe_all_spec s a c notify :
  represents s a → c ∈ a_clients a →
  ∃ s' n, pubsubUnsubscribeAllChannels order s c notify = Some (s', n) ∧
    step_ok c s s' (mkSubs (a_clients a) (others c (a_subs a)) (a_pats a)).
Proof.
  intros Hr Hc. destruct (represents_client s a c Hr Hc) as [cl Hcl].
  unfold pubsubUnsubscribeAllChannels. rewrite Hcl. cbn [mbind option_bind].
  destruct (for_each_spec (λ s ch, pubsubUnsubscribeChannel s c ch notify) (del_sub c) c
    (λ s a x Hr Hc, unsubscribe_spec s a c x notify Hr Hc) (λ _ _, eq_refl)
    (order (pubsub_channels cl)) s a Hr Hc) as (s1 & n & -> & Hr1 & Hf1).
  cbn [mbind option_bind]. rewrite foldl_del_sub in Hr1.
  destruct (reply_nothing_spec (str "unsubscribe") notify s1 _ c n Hr1 Hc) as (s2 & -> & Hr2 & Hf2).
  eexists _, _. split; [done|]. split; [|by eapply frame_trans].
  eapply eq_ind; [exact Hr2|]. f_equal. apply set_eq. intros [d y].
  unfold others. rewrite elem_of_difference, elem_of_pairs, elem_of_filter, order_perm, elem_of_elements.
  rewrite <-(sub_client s a c cl y Hr Hcl). simpl. destruct (decide (d = c)) as [->|]; naive_solver.
Qed.

End UnsubscribeAll.

(** ** Delivery *)

Lemma send_all_spec s msgs :
  (∀ m, m ∈ msgs → is_Some (clients s !! m.1)) →
  ∃ s', send_all s msgs = Some s' ∧ channels s' = channels s ∧ patterns s' = patterns s ∧
    ∀ c, clients s' !! c =
      addReply (mjoin (snd <$> filter (λ m, m.1 = c) msgs)) <$> clients s !! c.
Proof.
  revert s. induction msgs as [|[d ps] msgs IH]; intros s Hm.
  { exists s. split_and!; try done. intros c. simpl. destruct (clients s !! c) as [[]|]; [|done].
    simpl. unfold addReply. simpl. by rewrite app_nil_r. }
  destruct (Hm (d, ps)) as [cl Hcl]; [set_solver|]. simpl in Hcl |- *. rewrite Hcl. cbn [mbind option_bind].
  destruct (IH (put_client d (addReply ps cl) s)) as (s' & -> & E1 & E2 & E3).
  { intros m Hin. simpl. destruct (decide (m.1 = d)) as [->|];
      [rewrite lookup_insert_eq; eauto|rewrite lookup_insert_ne by done; apply Hm; set_solver]. }
  exists s'. split_and!; [done..|]. intros c. rewrite E3. simpl. rewrite filter_cons. simpl.
  destruct (decide (d = c)) as [->|]; [rewrite lookup_insert_eq, Hcl|by rewrite lookup_insert_ne].
  simpl. unfold addReply. simpl. by rewrite (assoc_L (++)).
Qed.

(** Replies do not touch the subscriptions. *)
Lemma represents_replies s a s' (f : Z → list piece) :
  represents s a → channels s' = channels s → patterns s' = patterns s →
  (∀ c, clients s' !! c = addReply (f c) <$> clients s !! c) → represents s' a.
Proof.
  intros [H1 H2 H3] E1 E2 E3.
  assert (∀ {A} (g : client → A), (∀ ps cl, g (addReply ps cl) = g cl) → g <$> clients s' = g <$> clients s) as Hg.
  { intros A g Hg. apply map_eq. intros c. rewrite !lookup_fmap, E3.
    destruct (clients s !! c); simpl; [|done]. by rewrite Hg. }
  split; rewrite ?E1, ?E2, ?Hg by done; [|done..].
  rewrite <-H1. apply set_eq. intros c. rewrite !elem_of_dom, E3. destruct (clients s !! c); simpl.
  - split; eauto.
  - split; by intros [].
Qed.

(** The patterns that match, in the order of the server. *)
Definition pat_matches (ch p : bytes) : bool := default false (sdsmatch p ch).

Lemma matching_spec pats ch :
  matching pats ch = Some (filter (λ x, pat_matches ch x.2 = true) pats).
Proof.
  induction pats as [|[c p] pats IH]; [done|]. simpl. rewrite filter_cons. simpl. rewrite IH.
  assert (∃ b, sdsmatch p ch = Some b) as [b E]
    by (unfold sdsmatch; rewrite stringmatchlen_correct; eauto).
  unfold pat_matches. rewrite !E. by destruct b.
Qed.

(** The size of a set listed without repetition. *)
Lemma size_listed (x : gset (Z * bytes)) (l : list (Z * bytes)) :
  NoDup l → (∀ y, y ∈ l ↔ y ∈ x) → size x = length l.
Proof.
  intros Hnd Hin. rewrite <-(size_list_to_set (C:=gset (Z * bytes)) l Hnd). f_equal.
  apply set_eq. intros y. by rewrite elem_of_list_to_set.
Qed.

Lemma chan_listed s a ch :
  represents s a →
  let l := default [] (channels s !! ch) in
  NoDup l ∧ (∀ c, c ∈ l ↔ (c, ch) ∈ a_subs a) ∧
  Z.of_nat (size (filter (λ x, x.2 = ch) (a_subs a))) = zlen l.
Proof.
  intros Hr l. pose proof (r_chan _ _ Hr) as Hch.
  assert (NoDup l) as Hnd.
  { unfold l. destruct (channels s !! ch) eqn:E; simpl; [|constructor]. by apply (chan_list _ _ _ Hch _ _ E). }
  split_and!; [done|intros c; by rewrite (chan_server _ _ _ Hch)|].
  f_equal. rewrite (size_listed _ ((λ c, (c, ch)) <$> l)), length_fmap; [done| |].
  - apply NoDup_fmap_2; [|done]. by intros x y [= ->].
  - intros [c x]. rewrite list_elem_of_fmap, elem_of_filter, (chan_server _ _ _ Hch). simpl. split.
    + intros (d & [= -> ->] & Hd). done.
    + intros [-> Hc]. by exists c.
Qed.

(** The messages of client [d] among the copies sent to the clients [l]. *)
Lemma copies_of {A} (l : list A) (who : A → Z) (ps : A → list piece) d :
  mjoin (snd <$> filter (λ m, m.1 = d) ((λ x, (who x, ps x)) <$> l))
  = mjoin (ps <$> filter (λ x, who x = d) l).
Proof.
  induction l as [|x l IH]; [done|]. rewrite fmap_cons, !filter_cons. cbn [fst].
  destruct (decide (who x = d)); [|exact IH].
  rewrite !fmap_cons. exact (f_equal (app (ps x)) IH).
Qed.

Lemma filter_eq_NoDup (l : list Z) d :
  NoDup l → filter (λ x, x = d) l = if decide (d ∈ l) then [d] else [].
Proof.
  induction 1 as [|x l Hx Hnd IH]; [done|]. rewrite filter_cons, IH.
  destruct (decide (x = d)) as [->|].
  - rewrite decide_False by done. by rewrite decide_True by set_solver.
  - destruct (decide (d ∈ l)); [by rewrite decide_True by set_solver|by rewrite decide_False by set_solver].
Qed.

(** The patterns of client [c] that match the channel. *)
Definition client_matches (s : server) (ch : bytes) (c : Z) : list bytes :=
  snd <$> filter (λ x, x.1 = c) (filter (λ x, pat_matches ch x.2 = true) (patterns s)).

Lemma client_matches_spec s a ch c :
  represents s a →
  NoDup (client_matches s ch c) ∧
  ∀ p, p ∈ client_matches s ch c ↔ (c, p) ∈ a_pats a ∧ sdsmatch p ch = Some true.
Proof.
  intros Hr. pose proof (r_pat _ _ Hr) as Hp. unfold client_matches. split.
  - apply NoDup_fmap_2_strong; [|by apply NoDup_filter, NoDup_filter, (pat_list _ _ _ Hp)].
    intros [x1 x2] [y1 y2] [? _]%list_elem_of_filter [? _]%list_elem_of_filter. simpl in *. by intros ->; subst.
  - intros p. rewrite list_elem_of_fmap, (pat_server _ _ _ Hp). unfold pat_matches. split.
    + intros ([x1 x2] & -> & [Hx [Hm Hin]%list_elem_of_filter]%list_elem_of_filter). simpl in *. subst.
      split; [done|]. by destruct (sdsmatch x2 ch) as [[]|].
    + intros [Hin Hm]. exists (c, p). split; [done|]. rewrite !list_elem_of_filter. simpl. by rewrite Hm.
Qed.

Lemma publish_spec s a ch msg :
  represents s a →
  ∃ s' n, pubsubPublishMessage s ch msg = Some (s', n) ∧ represents s' a ∧
    n = Z.of_nat (size (filter (λ x, x.2 = ch) (a_subs a)))
      + Z.of_nat (size (filter (λ x, pat_matches ch x.2 = true) (a_pats a))) ∧
    ∀ c, clients s' !! c = addReply
      ((if decide ((c, ch) ∈ a_subs a) then message_pieces ch msg else []) ++
       mjoin ((λ p, pmessage_pieces p ch msg) <$> client_matches s ch c)) <$> clients s !! c.
Proof.
  intros Hr. unfold pubsubPublishMessage. destruct (chan_listed s a ch Hr) as (Hnd & Hl & Hsize).
  set (l := default [] (channels s !! ch)) in *.
  assert (∀ c, is_Some (clients s !! c) ↔ c ∈ a_clients a) as Hdom.
  { intros c. by rewrite <-elem_of_dom, (r_dom _ _ Hr). }
  destruct (send_all_spec s ((λ c, (c, message_pieces ch msg)) <$> l)) as (s1 & -> & E1 & E2 & E3).
  { intros m (c & -> & Hc)%list_elem_of_fmap. simpl. apply Hl in Hc.
    apply (chan_client _ _ _ (r_chan _ _ Hr)) in Hc as (x & Hx & _). rewrite lookup_fmap in Hx.
    destruct (clients s !! c); [by eexists|done]. }
  cbn [mbind option_bind]. rewrite matching_spec, E2. cbn [mbind option_bind].
  pose proof (represents_replies s a s1 _ Hr E1 E2 E3) as Hr1.
  set (pats := filter (λ x, pat_matches ch x.2 = true) (patterns s)).
  destruct (send_all_spec s1 ((λ x, (x.1, pmessage_pieces x.2 ch msg)) <$> pats)) as (s2 & E & F1 & F2 & F3).
  { intros m ([c p] & -> & [_ Hc]%list_elem_of_filter)%list_elem_of_fmap. simpl.
    apply (pat_server _ _ _ (r_pat _ _ Hr)), (pat_client _ _ _ (r_pat _ _ Hr)) in Hc as (x & Hx & _).
    rewrite lookup_fmap in Hx. rewrite E3. destruct (clients s !! c); [by eexists|done]. }
  replace ((λ '(c, p), (c, pmessage_pieces p ch msg)) <$> pats)
    with ((λ x, (x.1, pmessage_pieces x.2 ch msg)) <$> pats)
    by (apply list_fmap_ext; by intros ? [] ?).
  rewrite E. cbn [mbind option_bind]. eexists _, _. split; [done|]. split_and!.
  - exact (represents_replies s1 a s2 _ Hr1 F1 F2 F3).
  - rewrite Hsize. do 2 f_equal. symmetry. apply size_listed.
    + apply NoDup_filter, (pat_list _ _ _ (r_pat _ _ Hr)).
    + intros y. unfold pats. rewrite list_elem_of_filter, elem_of_filter. by rewrite (pat_server _ _ _ (r_pat _ _ Hr)).
  - intros c. rewrite F3, E3, <-option_fmap_compose.
    rewrite (copies_of l (λ c, c) (λ _, message_pieces ch msg)), (copies_of pats fst (λ x, pmessage_pieces x.2 ch msg)).
    rewrite filter_eq_NoDup by done. unfold client_matches. fold pats. rewrite <-list_fmap_compose.
    destruct (clients s !! c) as [cl|]; [|done]. simpl. f_equal. unfold addReply. simpl. f_equal.
    rewrite <-(assoc_L (++)). f_equal. f_equal.
    destruct (decide (c ∈ l)) as [Hc|Hc]; [rewrite decide_True by (by apply Hl)|rewrite decide_False by (by rewrite <-Hl)]; done.
Qed.

(** ** Sequences of commands *)

(** The [CLIENT_PUBSUB] flag marks the clients with a subscription. *)
Definition flags_ok (s : server) (a : subscriptions) : Prop :=
  ∀ c cl, clients s !! c = Some cl →
    flag_pubsub cl = true ↔ ∃ x, (c, x) ∈ a_subs a ∨ (c, x) ∈ a_pats a.

(** The subscriptions of the clients other than [c] are the same. *)
Definition same_others (c : Z) (a a' : subscriptions) : Prop :=
  ∀ d x, d ≠ c → ((d, x) ∈ a_subs a' ↔ (d, x) ∈ a_subs a) ∧ ((d, x) ∈ a_pats a' ↔ (d, x) ∈ a_pats a).

Lemma count_zero s a c cl :
  represents s a → clients s !! c = Some cl →
  clientSubscriptionsCount cl = 0 ↔ ¬ ∃ x, (c, x) ∈ a_subs a ∨ (c, x) ∈ a_pats a.
Proof.
  intros Hr Hc. unfold clientSubscriptionsCount. split.
  - intros Hz (x & [Hx%(sub_client s a c cl x Hr Hc)|Hx%(pat_client_in s a c cl x Hr Hc)]).
    + assert (size (pubsub_channels cl) ≠ 0%nat); [|lia].
      intros E%size_empty_inv. set_solver.
    + destruct (pubsub_patterns cl); [set_solver|simpl in Hz; lia].
  - intros Hn. assert (pubsub_channels cl = ∅) as ->.
    { apply set_eq. intros x. rewrite <-(sub_client s a c cl x Hr Hc). set_solver. }
    destruct (pubsub_patterns cl) as [|p l] eqn:E; [done|]. exfalso. apply Hn. exists p. right.
    apply (pat_client_in s a c cl p Hr Hc). rewrite E. set_solver.
Qed.

(** Setting the flag after the subscriptions of [c] have changed. *)
Lemma flags_put s a s' a' c cl' b :
  flags_ok s a → frame c s s' → same_others c a a' → clients s' !! c = Some cl' →
  (b = true ↔ ∃ x, (c, x) ∈ a_subs a' ∨ (c, x) ∈ a_pats a') →
  flags_ok (put_client c (set_flag b cl') s') a'.
Proof.
  intros Hf (cl & cl0 & Hc & E & _) Ho Hc' Hb d x. simpl.
  destruct (decide (d = c)) as [->|]; [rewrite lookup_insert_eq; by intros [= <-]|].
  rewrite lookup_insert_ne, E, lookup_insert_ne by done. intros Hd.
  rewrite (Hf d x Hd). split; intros (y & Hy); exists y; specialize (Ho d y ltac:(done)); tauto.
Qed.

Lemma subscribed_command s a s1 a1 c :
  flags_ok s a → represents s1 a1 → frame c s s1 → same_others c a a1 →
  (∃ x, (c, x) ∈ a_subs a1 ∨ (c, x) ∈ a_pats a1) →
  ∃ s', (cl ← clients s1 !! c; Some (put_client c (set_flag true cl) s1)) = Some s' ∧
    represents s' a1 ∧ flags_ok s' a1.
Proof.
  intros Hf Hr1 Hfr Ho Hx. pose proof Hfr as (cl & cl' & Hc & E & _).
  assert (clients s1 !! c = Some cl') as Hc1 by (by rewrite E, lookup_insert_eq).
  rewrite Hc1. cbn [mbind option_bind]. eexists. split; [done|]. split.
  - by eapply represents_reply.
  - by eapply flags_put.
Qed.

Lemma clear_flag_command s a s1 a1 c :
  flags_ok s a → represents s1 a1 → frame c s s1 → same_others c a a1 →
  a_subs a1 ⊆ a_subs a → a_pats a1 ⊆ a_pats a →
  ∃ s', clear_flag s1 c = Some s' ∧ represents s' a1 ∧ flags_ok s' a1.
Proof.
  intros Hf Hr1 Hfr Ho Hs Hp. pose proof Hfr as (cl & cl' & Hc & E & Hflag).
  assert (clients s1 !! c = Some cl') as Hc1 by (by rewrite E, lookup_insert_eq).
  unfold clear_flag. rewrite Hc1. cbn [mbind option_bind]. eexists. split; [done|].
  pose proof (count_zero s1 a1 c cl' Hr1 Hc1) as Hz.
  destruct (Z.eqb_spec (clientSubscriptionsCount cl') 0) as [H0|H0].
  - split; [by eapply represents_reply|]. eapply flags_put; [done..|]. apply Hz in H0. by split.
  - split; [done|].
    assert (∃ x, (c, x) ∈ a_subs a1 ∨ (c, x) ∈ a_pats a1) as Hx.
    { destruct (decide (pubsub_channels cl' = ∅)) as [E1|[x Hx]%set_choose_L].
      - destruct (pubsub_patterns cl') as [|p l] eqn:E2.
        + exfalso. apply H0. unfold clientSubscriptionsCount. by rewrite E1, E2.
        + exists p. right. apply (pat_client_in s1 a1 c cl' p Hr1 Hc1). rewrite E2. set_solver.
      - exists x. left. by apply (sub_client s1 a1 c cl' x Hr1 Hc1). }
    replace s1 with (put_client c (set_flag true cl') s1); [by eapply flags_put|].
    assert (flag_pubsub cl' = true) as Ht.
    { rewrite Hflag. apply (Hf c cl Hc). destruct Hx as (x & [?|?]); exists x; set_solver. }
    destruct s1 as [? ? cls]. unfold put_client. simpl in *. f_equal. apply insert_id.
    rewrite Hc1. f_equal. destruct cl' as [? ? fl ?]. unfold set_flag. simpl in Ht |- *. by rewrite Ht.
Qed.

Lemma represents_remove s a c :
  represents s a → c ∈ a_clients a →
  (∀ x, (c, x) ∉ a_subs a) → (∀ x, (c, x) ∉ a_pats a) →
  represents (mkServer (channels s) (patterns s) (delete c (clients s)))
    (mkSubs (a_clients a ∖ {[c]}) (a_subs a) (a_pats a)).
Proof.
  intros [H1 [C1 C2 C3] [P1 P2 P3 P4]] Hc Hs Hp. split; simpl.
  - by rewrite dom_delete_L, H1.
  - rewrite fmap_delete. split; [|done|done]. intros d x. rewrite C1.
    destruct (decide (d = c)) as [->|]; [|by rewrite lookup_delete_ne].
    rewrite lookup_delete_eq. split; [|naive_solver]. intros ?%C1. by destruct (Hs x).
  - rewrite fmap_delete. split; [|done|done|].
    + intros d x. rewrite P1. destruct (decide (d = c)) as [->|]; [|by rewrite lookup_delete_ne].
      rewrite lookup_delete_eq. split; [|naive_solver]. intros ?%P1. by destruct (Hp x).
    + intros d x. destruct (decide (d = c)) as [->|]; [by rewrite lookup_delete_eq|].
      rewrite lookup_delete_ne by done. apply P4.
Qed.

Lemma represents_create s a c :
  represents s a → c ∉ a_clients a →
  represents (createClient s c) (mkSubs ({[c]} ∪ a_clients a) (a_subs a) (a_pats a)).
Proof.
  intros [H1 [C1 C2 C3] [P1 P2 P3 P4]] Hc.
  assert (clients s !! c = None) as Hn by (apply not_elem_of_dom; by rewrite H1).
  split; simpl.
  - by rewrite dom_insert_L, H1.
  - rewrite fmap_insert. simpl. split; [|done|done]. intros d x. rewrite C1.
    destruct (decide (d = c)) as [->|]; [|by rewrite lookup_insert_ne].
    rewrite lookup_insert_eq, lookup_fmap, Hn. simpl.
    split; [by intros (y & ? & _)|intros (y & [= <-] & Hy); by apply not_elem_of_empty in Hy].
  - rewrite fmap_insert. simpl. split; [|done|done|].
    + intros d x. rewrite P1. destruct (decide (d = c)) as [->|]; [|by rewrite lookup_insert_ne].
      rewrite lookup_insert_eq, lookup_fmap, Hn. simpl.
      split; [by intros (y & ? & _)|intros (y & [= <-] & Hy); by apply not_elem_of_nil in Hy].
    + intros d x. destruct (decide (d = c)) as [->|].
      * rewrite lookup_insert_eq. intros [= <-]. constructor.
      * rewrite lookup_insert_ne by done. apply P4.
Qed.

Section Histories.
Context (order : gset bytes → list bytes) (order_perm : ∀ x, order x ≡ₚ elements x).

Inductive command :=
  | Subscribe (c : Z) (args : list bytes)
  | Unsubscribe (c : Z) (args : list bytes)
  | PSubscribe (c : Z) (args : list bytes)
  | PUnsubscribe (c : Z) (args : list bytes)
  | Publish (c : Z) (channel message : bytes)
  | Connect (c : Z)
  | Disconnect (c : Z).

Definition run_command (s : server) (cmd : command) : option server :=
  match cmd with
  | Subscribe c args => subscribeCommand s c args
  | Unsubscribe c args => unsubscribeCommand order s c args
  | PSubscribe c args => psubscribeCommand s c args
  | PUnsubscribe c args => punsubscribeCommand s c args
  | Publish c ch msg => publishCommand s c ch msg
  | Connect c => Some (createClient s c)
  | Disconnect c => freeClient_pubsub order s c
  end.

(** The same commands on the sets. *)
Definition spec_command (a : subscriptions) (cmd : command) : subscriptions :=
  match cmd with
  | Subscribe c args => mkSubs (a_clients a) (pairs c args ∪ a_subs a) (a_pats a)
  | Unsubscribe c [] => mkSubs (a_clients a) (others c (a_subs a)) (a_pats a)
  | Unsubscribe c args => mkSubs (a_clients a) (a_subs a ∖ pairs c args) (a_pats a)
  | PSubscribe c args => mkSubs (a_clients a) (a_subs a) (pairs c args ∪ a_pats a)
  | PUnsubscribe c [] => mkSubs (a_clients a) (a_subs a) (others c (a_pats a))
  | PUnsubscribe c args => mkSubs (a_clients a) (a_subs a) (a_pats a ∖ pairs c args)
  | Publish _ _ _ => a
  | Connect c => mkSubs ({[c]} ∪ a_clients a) (a_subs a) (a_pats a)
  | Disconnect c => mkSubs (a_clients a ∖ {[c]}) (others c (a_subs a)) (others c (a_pats a))
  end.

(** A command comes from a connected client and has the arguments its arity demands. *)
Definition command_ok (a : subscriptions) (cmd : command) : Prop :=
  match cmd with
  | Subscribe c args | PSubscribe c args => c ∈ a_clients a ∧ args ≠ []
  | Unsubscribe c _ | PUnsubscribe c _ | Publish c _ _ | Disconnect c => c ∈ a_clients a
  | Connect c => c ∉ a_clients a
  end.

Lemma pairs_others c args a :
  (∀ d x, d ≠ c → (d, x) ∈ pairs c args ∪ a ↔ (d, x) ∈ a) ∧
  (∀ d x, d ≠ c → (d, x) ∈ a ∖ pairs c args ↔ (d, x) ∈ a) ∧
  (∀ d x, d ≠ c → (d, x) ∈ others c a ↔ (d, x) ∈ a).
Proof.
  unfold others. split_and!; intros d x Hne;
    rewrite ?elem_of_union, ?elem_of_difference, ?elem_of_pairs, ?elem_of_filter; simpl; tauto.
Qed.

Lemma disconnect_spec s a c :
  represents s a → flags_ok s a → c ∈ a_clients a →
  ∃ s', freeClient_pubsub order s c = Some s' ∧ represents s' (spec_command a (Disconnect c)) ∧
    flags_ok s' (spec_command a (Disconnect c)).
Proof.
  intros Hr Hf Hc. unfold freeClient_pubsub.
  destruct (unsubscribe_all_spec order order_perm s a c false Hr Hc) as (s1 & n1 & -> & Hr1 & Hf1). cbn [mbind option_bind].
  destruct (punsubscribe_all_spec s1 _ c false Hr1 Hc) as (s2 & n2 & -> & Hr2 & Hf2). cbn [mbind option_bind].
  eexists. split; [done|]. simpl in *. split.
  - apply (represents_remove s2 _ c Hr2 Hc); simpl; intros x; unfold others; rewrite elem_of_filter; naive_solver.
  - destruct (frame_trans c s s1 s2 Hf1 Hf2) as (cl & cl' & Hcl & E & _). intros d x. simpl.
    destruct (decide (d = c)) as [->|]; [by rewrite lookup_delete_eq|].
    rewrite lookup_delete_ne, E, lookup_insert_ne by done. intros Hd. rewrite (Hf d x Hd).
    unfold others. setoid_rewrite elem_of_filter. simpl. naive_solver.
Qed.

Lemma publish_command_spec s a c ch msg :
  represents s a → flags_ok s a → c ∈ a_clients a →
  ∃ s', publishCommand s c ch msg = Some s' ∧ represents s' a ∧ flags_ok s' a.
Proof.
  intros Hr Hf Hc. unfold publishCommand.
  destruct (publish_spec s a ch msg Hr) as (s1 & n & -> & Hr1 & _ & Hcl). cbn [mbind option_bind].
  destruct (represents_client s1 a c Hr1 Hc) as [cl1 Hc1]. rewrite Hc1. cbn [mbind option_bind].
  eexists. split; [done|]. split; [by eapply represents_reply|].
  assert (flags_ok s1 a) as Hf1.
  { intros d x Hd. rewrite Hcl in Hd. destruct (clients s !! d) as [y|] eqn:E; [|done].
    injection Hd as <-. simpl. by apply Hf. }
  intros d x. simpl. destruct (decide (d = c)) as [->|]; [rewrite lookup_insert_eq; intros [= <-]|].
  - simpl. by apply Hf1.
  - rewrite lookup_insert_ne by done. apply Hf1.
Qed.

Lemma run_command_spec s a cmd :
  represents s a → flags_ok s a → command_ok a cmd →
  ∃ s', run_command s cmd = Some s' ∧ represents s' (spec_command a cmd) ∧
    flags_ok s' (spec_command a cmd).
Proof.
  intros Hr Hf Hok. destruct cmd as [c args|c args|c args|c args|c ch msg|c|c]; simpl in Hok |- *.
  - destruct Hok as [Hc Hne]. unfold subscribeCommand.
    destruct (for_each_spec _ (add_sub c) c (λ s a x, subscribe_spec s a c x) (λ _ _, eq_refl) args s a Hr Hc)
      as (s1 & n & -> & Hr1 & Hf1). cbn [mbind option_bind]. rewrite foldl_add_sub in Hr1.
    eapply subscribed_command; [done..| |].
    + intros d x Hd. simpl. by split; [apply pairs_others|].
    + destruct args as [|x args]; [done|]. exists x. left. simpl. rewrite elem_of_union, elem_of_pairs. set_solver.
  - unfold unsubscribeCommand. destruct args as [|x args].
    + destruct (unsubscribe_all_spec order order_perm s a c true Hr Hok) as (s1 & n & -> & Hr1 & Hf1). cbn [mbind option_bind].
      eapply clear_flag_command; [done..| | |done].
      * intros d y Hd. simpl. split; [by apply (pairs_others c [])|done].
      * simpl. unfold others. set_solver.
    + destruct (for_each_spec _ (del_sub c) c (λ s a x, unsubscribe_spec s a c x true) (λ _ _, eq_refl)
        (x :: args) s a Hr Hok) as (s1 & n & -> & Hr1 & Hf1). cbn [mbind option_bind]. rewrite foldl_del_sub in Hr1.
      eapply clear_flag_command; [done..| | |done].
      * intros d y Hd. simpl. by split; [apply pairs_others|].
      * simpl. set_solver.
  - destruct Hok as [Hc Hne]. unfold psubscribeCommand.
    destruct (for_each_spec _ (add_pat c) c (λ s a x, psubscribe_spec s a c x) (λ _ _, eq_refl) args s a Hr Hc)
      as (s1 & n & -> & Hr1 & Hf1). cbn [mbind option_bind]. rewrite foldl_add_pat in Hr1.
    eapply subscribed_command; [done..| |].
    + intros d x Hd. simpl. by split; [|apply pairs_others].
    + destruct args as [|x args]; [done|]. exists x. right. simpl. rewrite elem_of_union, elem_of_pairs. set_solver.
  - unfold punsubscribeCommand. destruct args as [|x args].
    + destruct (punsubscribe_all_spec s a c true Hr Hok) as (s1 & n & -> & Hr1 & Hf1). cbn [mbind option_bind].
      eapply clear_flag_command; [done..| |done|].
      * intros d y Hd. simpl. split; [done|by apply (pairs_others c [])].
      * simpl. unfold others. set_solver.
    + destruct (for_each_spec _ (del_pat c) c (λ s a x, punsubscribe_spec s a c x true) (λ _ _, eq_refl)
        (x :: args) s a Hr Hok) as (s1 & n & -> & Hr1 & Hf1). cbn [mbind option_bind]. rewrite foldl_del_pat in Hr1.
      eapply clear_flag_command; [done..| |done|].
      * intros d y Hd. simpl. by split; [|apply pairs_others].
      * simpl. set_solver.
  - by apply publish_command_spec.
  - eexists. split; [done|]. split; [by apply represents_create|].
    intros d x. simpl. destruct (decide (d = c)) as [->|].
    + rewrite lookup_insert_eq. intros [= <-]. simpl. split; [done|].
      intros (y & [(z & Hz & _)%(chan_client _ _ _ (r_chan _ _ Hr))|(z & Hz & _)%(pat_client _ _ _ (r_pat _ _ Hr))]);
        rewrite lookup_fmap, <-(r_dom _ _ Hr), not_elem_of_dom in *; by rewrite Hok in Hz.
    + rewrite lookup_insert_ne by done. apply Hf.
  - by apply disconnect_spec.
Qed.

Fixpoint run_commands (s : server) (cmds : list command) : option server :=
  match cmds with
  | [] => Some s
  | cmd :: cmds => s ← run_command s cmd; run_commands s cmds
  end.

Definition spec_commands (a : subscriptions) (cmds : list command) : subscriptions :=
  foldl spec_command a cmds.

Fixpoint commands_ok (a : subscriptions) (cmds : list command) : Prop :=
  match cmds with
  | [] => True
  | cmd :: cmds => command_ok a cmd ∧ commands_ok (spec_command a cmd) cmds
  end.

#[global] Instance command_ok_dec a cmd : Decision (command_ok a cmd).
Proof. destruct cmd; simpl; apply _. Defined.

#[global] Instance commands_ok_dec a cmds : Decision (commands_ok a cmds).
Proof. revert a. induction cmds as [|cmd cmds IH]; intros a; simpl; apply _. Defined.

Lemma run_commands_spec cmds s a :
  represents s a → flags_ok s a → commands_ok a cmds →
  ∃ s', run_commands s cmds = Some s' ∧ represents s' (spec_commands a cmds) ∧
    flags_ok s' (spec_commands a cmds).
Proof.
  revert s a. induction cmds as [|cmd cmds IH]; intros s a Hr Hf Hok; [by exists s|].
  destruct Hok as [Hok Hoks]. destruct (run_command_spec s a cmd Hr Hf Hok) as (s1 & E & Hr1 & Hf1).
  simpl. rewrite E. cbn [mbind option_bind]. by apply IH.
Qed.

(** C15: from the empty server, any sequence of connections, subscriptions,
    unsubscriptions, publications and disconnections of connected clients runs without a
    failed assertion and leaves the server and the clients agreeing with each other and
    with the set of subscriptions the commands describe; the Pub/Sub flag marks exactly the
    clients with a subscription, and a channel without clients is not kept. *)
Theorem pubsub_commands_consistent (cmds : list command) :
  commands_ok no_subscriptions cmds →
  ∃ s, run_commands initServer cmds = Some s ∧
    represents s (spec_commands no_subscriptions cmds) ∧
    flags_ok s (spec_commands no_subscriptions cmds).
Proof.
  apply run_commands_spec; [apply initServer_represents|].
  intros c cl. simpl. by rewrite lookup_empty.
Qed.

End Histories.

(** C16: publishing delivers exactly: the number returned is the number of subscriptions to
    the channel plus the number of pattern subscriptions that match it, and every client gets
    one [message] if it is subscribed to the channel, then one [pmessage] for each of its
    matching patterns, and nothing else; the subscriptions do not change. *)
Theorem publish_delivers (s : server) (a : subscriptions) (ch msg : bytes) :
  represents s a →
  ∃ s' n, pubsubPublishMessage s ch msg = Some (s', n) ∧ represents s' a ∧
    n = Z.of_nat (size (filter (λ x, x.2 = ch) (a_subs a)))
      + Z.of_nat (size (filter (λ x, pat_matches ch x.2 = true) (a_pats a))) ∧
    ∀ c, ∃ ps, NoDup ps ∧ (∀ p, p ∈ ps ↔ (c, p) ∈ a_pats a ∧ sdsmatch p ch = Some true) ∧
      clients s' !! c = addReply
        ((if decide ((c, ch) ∈ a_subs a) then message_pieces ch msg else []) ++
         mjoin ((λ p, pmessage_pieces p ch msg) <$> ps)) <$> clients s !! c.
Proof.
  intros Hr. destruct (publish_spec s a ch msg Hr) as (s' & n & E & Hr' & Hn & Hc).
  exists s', n. split_and!; [done..|]. intros c. exists (client_matches s ch c).
  destruct (client_matches_spec s a ch c Hr). split_and!; [done..|]. apply Hc.
Qed.

(** Two clients, a channel, two patterns. *)
Definition sample_commands : list command :=
  [Connect 1; Connect 2; Subscribe 1 [str "news"; str "misc"]; PSubscribe 2 [str "n*"; str "?ews"];
   Subscribe 2 [str "news"]; Unsubscribe 1 [str "misc"]; Publish 1 (str "news") (str "hi");
   PUnsubscribe 2 []; Disconnect 1].

Lemma pubsub_commands_consistent_witness :
  ∃ s, run_commands elements initServer sample_commands = Some s ∧
    represents s (spec_commands no_subscriptions sample_commands) ∧
    channels s !! str "news" = Some [2] ∧ patterns s = [].
Proof.
  destruct (pubsub_commands_consistent elements (λ _, reflexivity _) sample_commands) as (s & Hs & Hr & _).
  { apply (bool_decide_unpack _). vm_compute. exact I. }
  exists s. split_and!; [exact Hs|exact Hr|..]; vm_compute in Hs; injection Hs as <-; reflexivity.
Defined.

Lemma publish_delivers_witness :
  ∃ s s', run_commands elements initServer (take 6 sample_commands) = Some s ∧
    pubsubPublishMessage s (str "news") (str "hi") = Some (s', 4) ∧
    clients s' !! 2 = addReply (message_pieces (str "news") (str "hi") ++
      pmessage_pieces (str "n*") (str "news") (str "hi") ++
      pmessage_pieces (str "?ews") (str "news") (str "hi")) <$> clients s !! 2.
Proof.
  destruct (run_commands_spec elements (λ _, reflexivity _) (take 6 sample_commands) initServer no_subscriptions)
    as (s & Hs & Hr & _).
  { apply initServer_represents. }
  { intros c cl. simpl. by rewrite lookup_empty. }
  { apply (bool_decide_unpack _). vm_compute. exact I. }
  destruct (publish_delivers s _ (str "news") (str "hi") Hr) as (s' & n & E & _ & _).
  exists s, s'. pose proof Hs as Hs'. vm_compute in Hs'. injection Hs' as <-.
  pose proof E as E'. vm_compute in E'. injection E' as <- <-.
  split_and!; [exact Hs|exact E|reflexivity].
Defined.
