(* ===== verification/Notify.v ===== *)
(** Keyspace notifications (src/notify.c): the classes of events as a string and as flags,
    and the messages an event publishes through Pubsub.v. *)

From stdpp Require Import strings.
From S2P Require Import Prelude Util Glob Pubsub.

Definition NOTIFY_KEYSPACE : Z := Z.shiftl 1 0.
Definition NOTIFY_KEYEVENT : Z := Z.shiftl 1 1.
Definition NOTIFY_GENERIC : Z := Z.shiftl 1 2.
Definition NOTIFY_STRING : Z := Z.shiftl 1 3.
Definition NOTIFY_LIST : Z := Z.shiftl 1 4.
Definition NOTIFY_SET : Z := Z.shiftl 1 5.
Definition NOTIFY_HASH : Z := Z.shiftl 1 6.
Definition NOTIFY_ZSET : Z := Z.shiftl 1 7.
Definition NOTIFY_EXPIRED : Z := Z.shiftl 1 8.
Definition NOTIFY_EVICTED : Z := Z.shiftl 1 9.
Definition NOTIFY_STREAM : Z := Z.shiftl 1 10.
Definition NOTIFY_ALL : Z :=
  Z.lor NOTIFY_GENERIC (Z.lor NOTIFY_STRING (Z.lor NOTIFY_LIST (Z.lor NOTIFY_SET
    (Z.lor NOTIFY_HASH (Z.lor NOTIFY_ZSET (Z.lor NOTIFY_EXPIRED
      (Z.lor NOTIFY_EVICTED NOTIFY_STREAM))))))).

(** The [switch] of [keyspaceEventsStringToFlags]. *)
Definition class_flag (c : Z) : option Z :=
  if c =? 65 then Some NOTIFY_ALL
  else if c =? 103 then Some NOTIFY_GENERIC
  else if c =? 36 then Some NOTIFY_STRING
  else if c =? 108 then Some NOTIFY_LIST
  else if c =? 115 then Some NOTIFY_SET
  else if c =? 104 then Some NOTIFY_HASH
  else if c =? 122 then Some NOTIFY_ZSET
  else if c =? 120 then Some NOTIFY_EXPIRED
  else if c =? 101 then Some NOTIFY_EVICTED
  else if c =? 75 then Some NOTIFY_KEYSPACE
  else if c =? 69 then Some NOTIFY_KEYEVENT
  else if c =? 116 then Some NOTIFY_STREAM
  else None.

(** The loop over the characters of the string, from [flags]; -1 on an unknown class. *)
Fixpoint string_to_flags (classes : bytes) (flags : Z) : Z :=
  match classes with
  | [] => flags
  | c :: classes =>
      match class_flag c with
      | Some f => string_to_flags classes (Z.lor flags f)
      | None => -1
      end
  end.

Definition keyspaceEventsStringToFlags (classes : bytes) : Z := string_to_flags classes 0.

Definition cat_if (flags flag : Z) (c : string) : bytes :=
  if Z.land flags flag =? 0 then [] else str c.

Definition keyspaceEventsFlagsToString (flags : Z) : bytes :=
  (if Z.land flags NOTIFY_ALL =? NOTIFY_ALL then str "A"
   else
     cat_if flags NOTIFY_GENERIC "g" ++ cat_if flags NOTIFY_STRING "$" ++
     cat_if flags NOTIFY_LIST "l" ++ cat_if flags NOTIFY_SET "s" ++
     cat_if flags NOTIFY_HASH "h" ++ cat_if flags NOTIFY_ZSET "z" ++
     cat_if flags NOTIFY_EXPIRED "x" ++ cat_if flags NOTIFY_EVICTED "e" ++
     cat_if flags NOTIFY_STREAM "t") ++
  cat_if flags NOTIFY_KEYSPACE "K" ++ cat_if flags NOTIFY_KEYEVENT "E".

(** [notifyKeyspaceEvent], without the hook for loadable modules: [flags] is
    [server.notify_keyspace_events]. *)
Definition notifyKeyspaceEvent (flags : Z) (s : server) (type : Z) (event key : bytes) (dbid : Z)
    : option server :=
  if Z.land flags type =? 0 then Some s
  else
    let buf := replicate 24 0 in
    '(s, num) ←
      (if Z.land flags NOTIFY_KEYSPACE =? 0 then Some (s, None)
       else
         '(buf, len) ← ll2string buf 24 dbid;
         num ← slice buf 0 len;
         '(s, _) ← pubsubPublishMessage s (str "__keyspace@" ++ num ++ str "__:" ++ key) event;
         Some (s, Some num));
    if Z.land flags NOTIFY_KEYEVENT =? 0 then Some s
    else
      num ← (match num with
             | Some num => Some num
             | None => '(buf, len) ← ll2string buf 24 dbid; slice buf 0 len
             end);
      '(s, _) ← pubsubPublishMessage s (str "__keyevent@" ++ num ++ str "__:" ++ event) key;
      Some s.

(** ** Round trip of the classes *)

(** Only the eleven class bits count. *)
Lemma cat_if_low flags flag c :
  0 ≤ flag < 2 ^ 11 → cat_if (flags mod 2 ^ 11) flag c = cat_if flags flag c.
Proof.
  intros Hf. unfold cat_if. do 2 f_equal. rewrite <-Z.land_ones by lia.
  rewrite <-Z.land_assoc, (Z.land_comm (Z.ones 11)), Z.land_ones by lia. by rewrite Z.mod_small.
Qed.

Lemma flags_to_string_low flags :
  keyspaceEventsFlagsToString (flags mod 2 ^ 11) = keyspaceEventsFlagsToString flags.
Proof.
  unfold keyspaceEventsFlagsToString. rewrite !cat_if_low by (vm_compute; split; congruence).
  do 3 f_equal. rewrite <-Z.land_ones by lia.
  rewrite <-Z.land_assoc, (Z.land_comm (Z.ones 11)), Z.land_ones by lia. done.
Qed.

Definition flags_check (f : Z) : bool :=
  keyspaceEventsStringToFlags (keyspaceEventsFlagsToString f) =? f.

(** The two conversions of the notification classes are inverse: reading the string of
    any integer gives its eleven class bits back, so a configuration that is printed and
    read again is unchanged. *)
Theorem keyspace_flags_roundtrip (flags : Z) :
  keyspaceEventsStringToFlags (keyspaceEventsFlagsToString flags) = Z.land flags (2 ^ 11 - 1).
Proof.
  rewrite <-flags_to_string_low. change (2 ^ 11 - 1) with (Z.ones 11). rewrite Z.land_ones by lia.
  apply Z.eqb_eq. change (flags_check (flags mod 2 ^ 11) = true).
  apply (check_range flags_check (Z.to_nat (2 ^ 11))); [vm_compute; reflexivity|].
  rewrite Z2Nat.id by lia. by apply Z.mod_pos_bound.
Qed.

(** ** Publication of events *)

Lemma dbid_digits dbid :
  in_s 32 dbid →
  ∃ buf num, ll2string (replicate 24 0) 24 dbid = Some (buf, zlen num) ∧
    slice buf 0 (zlen num) = Some num ∧ canonical num dbid.
Proof.
  intros Hd. destruct (ll2string_spec (replicate 24 0) 24 dbid) as (num & Hc & Hl & ->).
  - unfold in_s in *. lia.
  - done.
  - rewrite (proj2 (Z.leb_gt 24 (zlen num))) by lia. eexists _, num. split_and!; [done| |done].
    apply (slice_app []); done.
Qed.

(** An event of an enabled class publishes, with the decimal number of the database,
    the event on the channel of the key when keyspace messages are enabled and then the key
    on the channel of the event when keyevent messages are enabled, nothing otherwise; it
    never fails and leaves the subscriptions alone. *)
Theorem notify_publishes (flags type dbid : Z) (s : server) (a : subscriptions) (event key : bytes) :
  represents s a → in_s 32 dbid →
  ∃ num s1 s2, canonical num dbid ∧
    notifyKeyspaceEvent flags s type event key dbid = Some s2 ∧ represents s2 a ∧
    let enabled f := negb (Z.land flags type =? 0) && negb (Z.land flags f =? 0) in
    (if enabled NOTIFY_KEYSPACE
     then ∃ n, pubsubPublishMessage s (str "__keyspace@" ++ num ++ str "__:" ++ key) event = Some (s1, n)
     else s1 = s) ∧
    (if enabled NOTIFY_KEYEVENT
     then ∃ n, pubsubPublishMessage s1 (str "__keyevent@" ++ num ++ str "__:" ++ event) key = Some (s2, n)
     else s2 = s1).
Proof.
  intros Hr Hd. destruct (dbid_digits dbid Hd) as (buf & num & Hll & Hsl & Hc).
  unfold notifyKeyspaceEvent. exists num.
  destruct (Z.land flags type =? 0); [by exists s, s|]. cbn [negb andb].
  destruct (publish_spec s a (str "__keyspace@" ++ num ++ str "__:" ++ key) event Hr)
    as (s1 & n1 & E1 & Hr1 & _).
  destruct (Z.land flags NOTIFY_KEYSPACE =? 0); cbn [negb].
  - cbn [mbind option_bind].
    destruct (publish_spec s a (str "__keyevent@" ++ num ++ str "__:" ++ event) key Hr)
      as (s2 & n2 & E2 & Hr2 & _).
    destruct (Z.land flags NOTIFY_KEYEVENT =? 0); [by exists s, s|].
    rewrite Hll. cbn [mbind option_bind]. rewrite Hsl. cbn [mbind option_bind]. rewrite E2.
    exists s, s2. split_and!; [done..|]. by exists n2.
  - rewrite Hll. cbn [mbind option_bind]. rewrite Hsl. cbn [mbind option_bind]. rewrite E1.
    cbn [mbind option_bind].
    destruct (publish_spec s1 a (str "__keyevent@" ++ num ++ str "__:" ++ event) key Hr1)
      as (s2 & n2 & E2 & Hr2 & _).
    destruct (Z.land flags NOTIFY_KEYEVENT =? 0).
    + exists s1, s1. split_and!; [done..| |done]. by exists n1.
    + rewrite E2. exists s1, s2. split_and!; [done..| |]; [by exists n1|by exists n2].
Qed.

(** SET of a key in database 3, with a client that listens to keyspace messages. *)
Lemma notify_publishes_witness :
  ∃ s s2, run_commands elements initServer [Connect 1; PSubscribe 1 [str "__key*"]] = Some s ∧
    notifyKeyspaceEvent (NOTIFY_KEYSPACE + NOTIFY_STRING) s NOTIFY_STRING (str "set") (str "foo") 3
      = Some s2 ∧
    ∃ n, pubsubPublishMessage s (str "__keyspace@3__:foo") (str "set") = Some (s2, n).
Proof.
  destruct (run_commands_spec elements (λ _, reflexivity _) [Connect 1; PSubscribe 1 [str "__key*"]]
    initServer no_subscriptions) as (s & Hs & Hr & _).
  { apply initServer_represents. }
  { intros c cl. simpl. by rewrite lookup_empty. }
  { apply (bool_decide_unpack _). vm_compute. exact I. }
  destruct (notify_publishes (NOTIFY_KEYSPACE + NOTIFY_STRING) NOTIFY_STRING 3 s _ (str "set") (str "foo") Hr)
    as (num & s1 & s2 & Hnum & E & _ & H1 & H2); [unfold in_s; lia|].
  exists s, s2. split_and!; [exact Hs|exact E|].
  assert (num = [51]) as -> by (eapply canonical_unique; [exact Hnum|];
    split_and!; [done|by repeat constructor|done|done]).
  change (s2 = s1) in H2. subst s1. exact H1.
Defined.
