(* ===== verification/Sds.v ===== *)
(** Dynamic strings (src/sds.c, src/sds.h), down to their memory.

    A string is its header (the type in the flags byte, the stored length and allocation
    at the width of the type) and the buffer after the header: [alloc] bytes and one for
    the terminator.  Every access to the buffer is checked; memory that was not
    initialised holds arbitrary bytes given by [junk].  Running out of memory aborts the
    server, so allocation does not fail here. *)

From stdpp Require Import strings.
From S2P Require Import Prelude.

Abbreviation bytes := (list Z).

Definition SDS_TYPE_5 : Z := 0.
Definition SDS_TYPE_8 : Z := 1.
Definition SDS_TYPE_16 : Z := 2.
Definition SDS_TYPE_32 : Z := 3.
Definition SDS_TYPE_64 : Z := 4.
Definition SDS_MAX_PREALLOC : Z := 1024 * 1024.

(** The width of the length field of a header. *)
Definition len_bits (type : Z) : Z :=
  if type =? SDS_TYPE_5 then 5
  else if type =? SDS_TYPE_8 then 8
  else if type =? SDS_TYPE_16 then 16
  else if type =? SDS_TYPE_32 then 32
  else 64.

Record sds := mkSds {
  stype : Z;
  slen : Z;
  salloc : Z; (* not stored by type 5 *)
  sbuf : bytes;
}.

Definition sdsHdrSize (type : Z) : Z :=
  if type =? SDS_TYPE_5 then 1
  else if type =? SDS_TYPE_8 then 3
  else if type =? SDS_TYPE_16 then 5
  else if type =? SDS_TYPE_32 then 9
  else if type =? SDS_TYPE_64 then 17
  else 0.

(** [sdsReqType] on a 64 bit platform. *)
Definition sdsReqType (string_size : Z) : Z :=
  if string_size <? Z.shiftl 1 5 then SDS_TYPE_5
  else if string_size <? Z.shiftl 1 8 then SDS_TYPE_8
  else if string_size <? Z.shiftl 1 16 then SDS_TYPE_16
  else if string_size <? Z.shiftl 1 32 then SDS_TYPE_32
  else SDS_TYPE_64.

Definition sdslen (s : sds) : Z := slen s.

Definition sdsavail (s : sds) : Z :=
  if stype s =? SDS_TYPE_5 then 0 else u64 (salloc s - slen s).

Definition sdsalloc (s : sds) : Z :=
  if stype s =? SDS_TYPE_5 then slen s else salloc s.

(** Storing a length or an allocation truncates it to the width of the header. *)
Definition sdssetlen (s : sds) (newlen : Z) : sds :=
  mkSds (stype s) (wrap_u (len_bits (stype s)) newlen) (salloc s) (sbuf s).

Definition sdsinclen (s : sds) (inc : Z) : sds :=
  mkSds (stype s) (wrap_u (len_bits (stype s)) (slen s + inc)) (salloc s) (sbuf s).

Definition sdssetalloc (s : sds) (newlen : Z) : sds :=
  mkSds (stype s) (slen s)
    (if stype s =? SDS_TYPE_5 then salloc s else wrap_u (len_bits (stype s)) newlen) (sbuf s).

Definition set_buf (s : sds) (b : bytes) : sds := mkSds (stype s) (slen s) (salloc s) b.

(** [s[i] = c] and [memcpy(s+i, t, n)] *)
Definition sds_poke (s : sds) (i c : Z) : option sds := b ← poke (sbuf s) i c; Some (set_buf s b).

Definition sds_blit (s : sds) (i : Z) (t : bytes) : option sds :=
  b ← blit (sbuf s) i t; Some (set_buf s b).

Inductive sds_init := InitBytes (b : bytes) | InitNull | SDS_NOINIT.

Section Memory.
Context (junk : nat → Z).

Definition malloc (n : Z) : bytes := junk <$> seq 0 (Z.to_nat n).

Definition sdsnewlen (init : sds_init) (initlen : Z) : option sds :=
  let type := sdsReqType initlen in
  let type := if (type =? SDS_TYPE_5) && (initlen =? 0) then SDS_TYPE_8 else type in
  let sh := match init with
            | InitNull => replicate (Z.to_nat (initlen + 1)) 0
            | _ => malloc (initlen + 1)
            end in
  let s := mkSds type 0 0 sh in
  let s := sdssetalloc (sdssetlen s initlen) initlen in
  s ← (match init with
       | InitBytes b =>
           if initlen =? 0 then Some s else t ← slice b 0 initlen; sds_blit s 0 t
       | _ => Some s
       end);
  sds_poke s initlen 0.

Definition sdsempty : option sds := sdsnewlen (InitBytes []) 0.

Definition sdsdup (s : sds) : option sds := sdsnewlen (InitBytes (sbuf s)) (sdslen s).

Definition sdsclear (s : sds) : option sds := sds_poke (sdssetlen s 0) 0 0.

Definition sdsMakeRoomFor (s : sds) (addlen : Z) : option sds :=
  let avail := sdsavail s in
  let oldtype := stype s in
  if addlen <=? avail then Some s
  else
    let len := sdslen s in
    let newlen := u64 (len + addlen) in
    let newlen := if newlen <? SDS_MAX_PREALLOC then newlen * 2
                  else u64 (newlen + SDS_MAX_PREALLOC) in
    let type := sdsReqType newlen in
    let type := if type =? SDS_TYPE_5 then SDS_TYPE_8 else type in
    s ← (if oldtype =? type then
           Some (set_buf s (realloc junk (sbuf s) (newlen + 1)))
         else
           t ← slice (sbuf s) 0 (len + 1);
           b ← blit (malloc (newlen + 1)) 0 t;
           Some (sdssetlen (mkSds type 0 0 b) len));
    Some (sdssetalloc s newlen).

Definition sdsRemoveFreeSpace (s : sds) : option sds :=
  let oldtype := stype s in
  let len := sdslen s in
  let avail := sdsavail s in
  if avail =? 0 then Some s
  else
    let type := sdsReqType len in
    s ← (if (oldtype =? type) || (SDS_TYPE_8 <? type) then
           Some (set_buf s (realloc junk (sbuf s) (len + 1)))
         else
           t ← slice (sbuf s) 0 (len + 1);
           b ← blit (malloc (len + 1)) 0 t;
           Some (sdssetlen (mkSds type 0 0 b) len));
    Some (sdssetalloc s len).

Definition sdsAllocSize (s : sds) : Z := sdsHdrSize (stype s) + sdsalloc s + 1.

(** [sdsIncrLen]; [None] is a failed assertion. *)
Definition sdsIncrLen (s : sds) (incr : Z) : option sds :=
  let ok :=
    if stype s =? SDS_TYPE_5 then
      ((0 <? incr) && (slen s + incr <? 32)) || ((incr <? 0) && (- incr <=? slen s))
    else
      ((0 <=? incr) && (incr <=? salloc s - slen s)) || ((incr <? 0) && (- incr <=? slen s)) in
  if negb ok then None
  else
    let s := sdsinclen s incr in
    sds_poke s (slen s) 0.

Definition sdsgrowzero (s : sds) (len : Z) : option sds :=
  let curlen := sdslen s in
  if len <=? curlen then Some s
  else
    s ← sdsMakeRoomFor s (len - curlen);
    s ← sds_blit s curlen (replicate (Z.to_nat (len - curlen + 1)) 0);
    Some (sdssetlen s len).

(** The bytes appended do not overlap the string. *)
Definition sdscatlen (s : sds) (t : bytes) : option sds :=
  let len := zlen t in
  let curlen := sdslen s in
  s ← sdsMakeRoomFor s len;
  s ← sds_blit s curlen t;
  sds_poke (sdssetlen s (curlen + len)) (curlen + len) 0.

Definition sdscatsds (s t : sds) : option sds :=
  b ← slice (sbuf t) 0 (sdslen t);
  sdscatlen s b.

Definition sdscpylen (s : sds) (t : bytes) : option sds :=
  let len := zlen t in
  s ← (if sdsalloc s <? len then sdsMakeRoomFor s (u64 (len - sdslen s)) else Some s);
  s ← sds_blit s 0 t;
  s ← sds_poke s len 0;
  Some (sdssetlen s len).

(** [sdsrange] with [ssize_t] arguments. *)
Definition sdsrange (s : sds) (start end_ : Z) : option sds :=
  let len := sdslen s in
  if len =? 0 then Some s
  else
    let start := if start <? 0 then (let x := len + start in if x <? 0 then 0 else x) else start in
    let end_ := if end_ <? 0 then (let x := len + end_ in if x <? 0 then 0 else x) else end_ in
    let newlen := if end_ <? start then 0 else end_ - start + 1 in
    let '(start, newlen) :=
      if negb (newlen =? 0) then
        if len <=? start then (start, 0)
        else if len <=? end_ then
          let end_ := len - 1 in
          (start, if end_ <? start then 0 else end_ - start + 1)
        else (start, newlen)
      else (0, newlen) in
    s ← (if negb (start =? 0) && negb (newlen =? 0)
         then b ← memmove (sbuf s) 0 start newlen; Some (set_buf s b)
         else Some s);
    s ← sds_poke s newlen 0;
    Some (sdssetlen s newlen).

(** The two scanning loops of [sdstrim]; [strchr] also finds the terminator of [cset]. *)
Definition in_cset (cset : bytes) (c : Z) : bool :=
  bool_decide (c ∈ cset) || (c =? 0).

Fixpoint trim_left (fuel : nat) (b cset : bytes) (sp end_ : Z) : option Z :=
  match fuel with
  | O => None
  | S fuel =>
      if sp <=? end_ then
        c ← peek b sp;
        if in_cset cset c then trim_left fuel b cset (sp + 1) end_ else Some sp
      else Some sp
  end.

Fixpoint trim_right (fuel : nat) (b cset : bytes) (sp ep : Z) : option Z :=
  match fuel with
  | O => None
  | S fuel =>
      if sp <? ep then
        c ← peek b ep;
        if in_cset cset c then trim_right fuel b cset sp (ep - 1) else Some ep
      else Some ep
  end.

Definition sdstrim (s : sds) (cset : bytes) : option sds :=
  let end_ := sdslen s - 1 in
  sp ← trim_left (S (Z.to_nat (sdslen s))) (sbuf s) cset 0 end_;
  ep ← trim_right (S (Z.to_nat (sdslen s))) (sbuf s) cset sp end_;
  let len := if ep <? sp then 0 else ep - sp + 1 in
  s ← (if negb (sp =? 0) then b ← memmove (sbuf s) 0 sp len; Some (set_buf s b) else Some s);
  s ← sds_poke s len 0;
  Some (sdssetlen s len).

End Memory.

(** ** Representation *)

(** [s] holds the bytes [v]: the header stores their number and an allocation that the
    buffer has, at a width that can hold both, and a NUL follows the bytes. *)
Record sds_rep (s : sds) (v : bytes) : Prop := {
  rep_type : 0 ≤ stype s ≤ 4;
  rep_len : slen s = zlen v;
  rep_alloc : zlen v ≤ sdsalloc s < 2 ^ len_bits (stype s);
  rep_buf : ∃ rest, sbuf s = v ++ 0 :: rest ∧ sdsalloc s - zlen v ≤ zlen rest;
}.

Lemma len_bits_cases type :
  0 ≤ type ≤ 4 → (type = SDS_TYPE_5 ∧ len_bits type = 5) ∨
    (type ≠ SDS_TYPE_5 ∧ (type = SDS_TYPE_8 ∧ len_bits type = 8 ∨ type = SDS_TYPE_16 ∧ len_bits type = 16 ∨
      type = SDS_TYPE_32 ∧ len_bits type = 32 ∨ type = SDS_TYPE_64 ∧ len_bits type = 64)).
Proof.
  intros Ht. assert (type = 0 ∨ type = 1 ∨ type = 2 ∨ type = 3 ∨ type = 4) as Hc by lia.
  unfold len_bits, SDS_TYPE_5, SDS_TYPE_8, SDS_TYPE_16, SDS_TYPE_32, SDS_TYPE_64 in *.
  destruct Hc as [Hc|[Hc|[Hc|[Hc|Hc]]]]; subst type; simpl; lia.
Qed.

Lemma len_bits_le type : 0 < len_bits type ≤ 64.
Proof. unfold len_bits. repeat case_match; lia. Qed.

(** The header chosen for a size can store it. *)
Lemma sdsReqType_spec n :
  0 ≤ n < 2 ^ 64 → 0 ≤ sdsReqType n ≤ 4 ∧ n < 2 ^ len_bits (sdsReqType n).
Proof.
  intros Hn. unfold sdsReqType. rewrite !Z.shiftl_mul_pow2, !Z.mul_1_l by lia.
  assert (∀ t w, len_bits t = w → 0 ≤ t ≤ 4 → n < 2 ^ w → 0 ≤ t ≤ 4 ∧ n < 2 ^ len_bits t) as Hcase
    by (intros t w -> ? ?; done).
  destruct (Z.ltb_spec n (2 ^ 5)); [by apply (Hcase _ 5)|].
  destruct (Z.ltb_spec n (2 ^ 8)); [by apply (Hcase _ 8)|].
  destruct (Z.ltb_spec n (2 ^ 16)); [by apply (Hcase _ 16)|].
  destruct (Z.ltb_spec n (2 ^ 32)); [by apply (Hcase _ 32)|].
  apply (Hcase _ 64); [done|done|lia].
Qed.

(** Storing other contents within the allocation. *)
Lemma rep_update s v v' b rest :
  sds_rep s v → zlen v' ≤ sdsalloc s → b = v' ++ 0 :: rest → length b = length (sbuf s) →
  sds_rep (sdssetlen (set_buf s b) (zlen v')) v'.
Proof.
  intros [Ht Hl Ha (r & Hb & Hr)] Hle -> Hlen. pose proof (len_bits_le (stype s)) as Hw.
  assert (wrap_u (len_bits (stype s)) (zlen v') = zlen v') as Hwrap.
  { apply wrap_u_small. split; lia. }
  rewrite Hb, !length_app in Hlen. simpl in Hlen.
  unfold sdssetlen, set_buf. split; simpl; [done|done| |].
  - unfold sdsalloc in *. simpl. rewrite Hwrap. destruct (stype s =? SDS_TYPE_5); lia.
  - exists rest. split; [done|]. unfold sdsalloc in *. simpl. rewrite Hwrap.
    destruct (stype s =? SDS_TYPE_5); lia.
Qed.

(** Writing the bytes [t] and a terminator over the contents from position [length a]. *)
Lemma rep_write s v a b t :
  sds_rep s v → v = a ++ b → zlen a + zlen t ≤ sdsalloc s →
  ∃ b1 b2, blit (sbuf s) (zlen a) t = Some b1 ∧ poke b1 (zlen a + zlen t) 0 = Some b2 ∧
    sds_rep (sdssetlen (set_buf s b2) (zlen a + zlen t)) (a ++ t).
Proof.
  intros Hrep -> Hle. pose proof Hrep as [Ht Hl Ha (rest & Hb & Hr)].
  set (old := b ++ 0 :: rest).
  assert (length t < length old)%nat as Hlt by (unfold old; rewrite length_app in *; simpl; lia).
  destruct (lookup_lt_is_Some_2 old (length t) Hlt) as [x Hx].
  pose proof (take_drop_middle old (length t) x Hx) as Hold.
  rewrite Hb, <-(assoc_L (++)).
  replace (b ++ 0 :: rest) with (take (length t) old ++ x :: drop (S (length t)) old) by exact Hold.
  rewrite blit_app by (rewrite ?length_take; lia). eexists _, _. split; [done|].
  rewrite (assoc_L (++)), (poke_app (a ++ t)) by (rewrite length_app; lia). split; [done|].
  replace (zlen a + zlen t) with (zlen (a ++ t)) by (rewrite length_app; lia).
  eapply (rep_update s (a ++ b) (a ++ t)); [done|rewrite length_app; lia|done|].
  rewrite Hb. unfold old in *. rewrite length_app in Hlt.
  rewrite !length_app. simpl. rewrite length_drop, length_app. simpl in *. lia.
Qed.

Lemma rep_overwrite s v t :
  sds_rep s v → zlen t ≤ sdsalloc s →
  ∃ b1 b2, blit (sbuf s) 0 t = Some b1 ∧ poke b1 (zlen t) 0 = Some b2 ∧
    sds_rep (sdssetlen (set_buf s b2) (zlen t)) t.
Proof. intros Hrep Hle. exact (rep_write s v [] v t Hrep eq_refl Hle). Qed.

(** Addresses bound the lengths: sums of two of them do not wrap. *)
Definition small (n : Z) : Prop := 0 ≤ n < 2 ^ 61.

Section Specs.
Context (junk : nat → Z).

Lemma malloc_length n : 0 ≤ n → zlen (malloc junk n) = n.
Proof. intros. unfold malloc. rewrite length_fmap, length_seq. lia. Qed.

(** A header over a buffer. *)
Lemma rep_mk type len alloc v rest :
  0 ≤ type ≤ 4 → len = zlen v →
  let al := if type =? SDS_TYPE_5 then zlen v else alloc in
  zlen v ≤ al < 2 ^ len_bits type → al - zlen v ≤ zlen rest →
  sds_rep (mkSds type len alloc (v ++ 0 :: rest)) v ∧ sdsalloc (mkSds type len alloc (v ++ 0 :: rest)) = al.
Proof.
  intros Ht -> al Ha Hr. unfold sdsalloc. simpl. split; [|done].
  split; unfold sdsalloc; simpl; try done. by exists rest.
Qed.

(** The last byte of a buffer set to NUL. *)
Lemma poke_last (b v : bytes) n :
  length b = S (length v) → take (length v) b = v → n = zlen v → poke b n 0 = Some (v ++ [0]).
Proof.
  intros Hl Htk ->. destruct (lookup_lt_is_Some_2 b (length v)) as [x Hx]; [lia|].
  pose proof (take_drop_middle _ _ _ Hx) as Hm. rewrite Htk, (drop_ge b (S (length v))) in Hm by lia.
  rewrite <-Hm. by apply poke_app.
Qed.

Lemma sdsnewlen_spec init n :
  small n →
  (∀ b, init = InitBytes b → n ≤ zlen b) →
  ∃ s v, sdsnewlen junk init n = Some s ∧ sds_rep s v ∧ zlen v = n ∧ sdsalloc s = n ∧
    match init with
    | InitBytes b => v = take (Z.to_nat n) b
    | InitNull => v = replicate (Z.to_nat n) 0
    | SDS_NOINIT => True
    end.
Proof.
  intros Hn Hb. unfold small in Hn. unfold sdsnewlen.
  set (type := if (sdsReqType n =? SDS_TYPE_5) && (n =? 0) then SDS_TYPE_8 else sdsReqType n).
  assert (0 ≤ type ≤ 4 ∧ n < 2 ^ len_bits type) as [Ht Hw].
  { unfold type. destruct (_ && _) eqn:E; [|apply sdsReqType_spec; lia].
    apply andb_true_iff in E as [_ ->%Z.eqb_eq]. done. }
  pose proof (len_bits_le type) as Hbits.
  assert (wrap_u (len_bits type) n = n) as Hwrap by (apply wrap_u_small; split; lia).
  unfold sds_poke, sds_blit, sdssetalloc, sdssetlen, set_buf. simpl. rewrite !Hwrap.
  assert (∀ v, zlen v = n →
    sds_rep (mkSds type n (if type =? SDS_TYPE_5 then 0 else n) (v ++ [0])) v ∧
    sdsalloc (mkSds type n (if type =? SDS_TYPE_5 then 0 else n) (v ++ [0])) = n) as Hfin.
  { intros v Hv. destruct (rep_mk type n (if type =? SDS_TYPE_5 then 0 else n) v []) as [? Hal];
      [done|done|destruct (type =? SDS_TYPE_5); lia|destruct (type =? SDS_TYPE_5); simpl; lia|].
    split; [done|]. rewrite Hal. destruct (type =? SDS_TYPE_5); lia. }
  pose proof (malloc_length (n + 1) ltac:(lia)) as Hmal.
  assert (∀ sh v, length sh = S (length v) → take (length v) sh = v → zlen v = n →
    ∃ s, (b ← poke sh n 0; Some (mkSds type n (if type =? SDS_TYPE_5 then 0 else n) b)) = Some s ∧
      sds_rep s v ∧ sdsalloc s = n) as Hend.
  { intros sh v H1 H2 H3. rewrite (poke_last sh v n) by done. cbn [mbind option_bind]. eauto. }
  destruct init as [b| |]; cbn [mbind option_bind].
  - specialize (Hb b eq_refl). destruct (Z.eqb_spec n 0) as [->|Hnz]; cbn [mbind option_bind sbuf stype slen salloc].
    + destruct (Hend (malloc junk 1) []) as (s & ? & ? & ?); [done..|]. by exists s, [].
    + rewrite slice_Some by lia. cbn [mbind option_bind]. change (Z.to_nat 0) with 0%nat. rewrite drop_0.
      set (v := take (Z.to_nat n) b). assert (zlen v = n) as Hv by (unfold v; rewrite length_take; lia).
      rewrite blit_Some by lia. cbn [mbind option_bind sbuf stype slen salloc].
      destruct (Hend (take (Z.to_nat 0) (malloc junk (n + 1)) ++ v ++ drop (Z.to_nat 0 + length v) (malloc junk (n + 1))) v)
        as (s & ? & ? & ?); [| |done|by exists s, v].
      * change (Z.to_nat 0) with 0%nat. simpl. rewrite length_app, length_drop. lia.
      * change (Z.to_nat 0) with 0%nat. simpl. by rewrite take_app_length.
  - destruct (Hend (replicate (Z.to_nat (n + 1)) 0) (replicate (Z.to_nat n) 0)) as (s & ? & ? & ?).
    + rewrite !length_replicate. lia.
    + rewrite length_replicate, take_replicate. f_equal. lia.
    + rewrite length_replicate. lia.
    + exists s, (replicate (Z.to_nat n) 0). rewrite length_replicate. split_and!; (done || lia).
  - set (v := take (Z.to_nat n) (malloc junk (n + 1))).
    assert (zlen v = n) as Hv by (unfold v; rewrite length_take; lia).
    destruct (Hend (malloc junk (n + 1)) v) as (s & ? & ? & ?); [lia| |done|by exists s, v].
    unfold v. by rewrite length_take_le by lia.
Qed.

(** A copy of the bytes and the terminator into a fresh buffer of [n + 1] bytes. *)
Lemma copy_fresh v rest n :
  zlen v ≤ n →
  ∃ r, (t ← slice (v ++ 0 :: rest) 0 (zlen v + 1); blit (malloc junk (n + 1)) 0 t) = Some (v ++ 0 :: r) ∧
    zlen r = n - zlen v.
Proof.
  intros Hn. pose proof (malloc_length (n + 1) ltac:(lia)) as Hm.
  replace (v ++ 0 :: rest) with ([] ++ (v ++ [0]) ++ rest) by (simpl; by rewrite <-(assoc_L (++))).
  rewrite slice_app by (rewrite ?length_app; simpl; lia). cbn [mbind option_bind].
  rewrite blit_Some by (rewrite ?length_app; simpl; lia).
  change (Z.to_nat 0) with 0%nat. simpl. rewrite <-(assoc_L (++)). eexists. split; [done|].
  rewrite length_drop, length_app. simpl. lia.
Qed.

Lemma realloc_keep v rest n :
  zlen v ≤ n →
  ∃ r, realloc junk (v ++ 0 :: rest) (n + 1) = v ++ 0 :: r ∧ zlen r = n - zlen v.
Proof.
  intros Hn. pose proof (realloc_length junk (v ++ 0 :: rest) (n + 1) ltac:(lia)) as Hl.
  unfold realloc in *. rewrite take_app_ge in * by lia.
  destruct (Z.to_nat (n + 1) - length v)%nat as [|k] eqn:E; [lia|]. simpl in *.
  rewrite <-(assoc_L (++)) in *. simpl in *. eexists. split; [done|].
  rewrite length_app in Hl. simpl in Hl. lia.
Qed.

Lemma sdsavail_spec s v :
  sds_rep s v → sdsavail s = sdsalloc s - zlen v.
Proof.
  intros [Ht Hl Ha _]. unfold sdsavail, sdsalloc in *. destruct (stype s =? SDS_TYPE_5); [lia|].
  rewrite Hl. apply wrap_u_small. pose proof (len_bits_le (stype s)).
  pose proof (Z.pow_le_mono_r 2 (len_bits (stype s)) 64). split; lia.
Qed.

Lemma sdsMakeRoomFor_spec s v addlen :
  sds_rep s v → small (zlen v) → small addlen →
  ∃ s', sdsMakeRoomFor junk s addlen = Some s' ∧ sds_rep s' v ∧ zlen v + addlen ≤ sdsalloc s' ∧
    (zlen v + addlen ≤ sdsalloc s → s' = s).
Proof.
  intros Hrep Hv Hadd. unfold small in *. unfold sdsMakeRoomFor. rewrite (sdsavail_spec s v Hrep).
  pose proof Hrep as [Ht Hl Ha (rest & Hb & Hr)]. unfold sdslen. rewrite Hl.
  destruct (Z.leb_spec addlen (sdsalloc s - zlen v)).
  { exists s. split_and!; (done || lia). }
  rewrite (wrap_u_small 64 (zlen v + addlen)) by (split; lia).
  set (newlen := if zlen v + addlen <? SDS_MAX_PREALLOC then (zlen v + addlen) * 2
                 else u64 (zlen v + addlen + SDS_MAX_PREALLOC)).
  assert (zlen v + addlen ≤ newlen < 2 ^ 63) as Hnew.
  { unfold newlen, SDS_MAX_PREALLOC. destruct (Z.ltb_spec (zlen v + addlen) (1024 * 1024)); [lia|].
    rewrite wrap_u_small by (split; lia). lia. }
  set (type := if sdsReqType newlen =? SDS_TYPE_5 then SDS_TYPE_8 else sdsReqType newlen).
  assert (0 ≤ type ≤ 4 ∧ newlen < 2 ^ len_bits type ∧ type ≠ SDS_TYPE_5) as (Ht' & Hw & Hn5).
  { destruct (sdsReqType_spec newlen) as [? ?]; [lia|]. unfold type.
    destruct (Z.eqb_spec (sdsReqType newlen) SDS_TYPE_5) as [E|]; [|done]. rewrite E in *. split_and!; [done..| |done].
    change (len_bits SDS_TYPE_5) with 5 in *. change (len_bits SDS_TYPE_8) with 8. lia. }
  pose proof (len_bits_le type) as Hbits.
  assert (∀ z, 0 ≤ z ≤ newlen → wrap_u (len_bits type) z = z) as Hwrap
    by (intros z Hz; apply wrap_u_small; split; lia).
  assert (∀ r, zlen r = newlen - zlen v →
    sds_rep (mkSds type (zlen v) newlen (v ++ 0 :: r)) v ∧
    sdsalloc (mkSds type (zlen v) newlen (v ++ 0 :: r)) = newlen) as Hmk.
  { intros r Hrl. destruct (rep_mk type (zlen v) newlen v r) as [? Hal];
      rewrite ?(proj2 (Z.eqb_neq _ _) Hn5) in *; (done || lia). }
  destruct (Z.eqb_spec (stype s) type) as [E|E]; cbn [mbind option_bind]; rewrite Hb.
  - destruct (realloc_keep v rest newlen) as (r & -> & Hrl); [lia|]. eexists. split; [done|].
    unfold sdssetalloc, set_buf. simpl. rewrite E, Hl, (proj2 (Z.eqb_neq _ _) Hn5), Hwrap by lia.
    destruct (Hmk r Hrl) as [? ->]. split_and!; (done || lia).
  - destruct (copy_fresh v rest newlen) as (r & Hc & Hrl); [lia|].
    destruct (slice (v ++ 0 :: rest) 0 (zlen v + 1)) as [t|]; [|done]. cbn [mbind option_bind] in Hc |- *.
    rewrite Hc. cbn [mbind option_bind]. eexists. split; [done|].
    unfold sdssetalloc, sdssetlen. simpl. rewrite (proj2 (Z.eqb_neq _ _) Hn5), !Hwrap by lia.
    destruct (Hmk r Hrl) as [? ->]. split_and!; (done || lia).
Qed.

Lemma sdscatlen_spec s v t :
  sds_rep s v → small (zlen v) → small (zlen t) →
  ∃ s', sdscatlen junk s t = Some s' ∧ sds_rep s' (v ++ t).
Proof.
  intros Hrep Hv Ht. unfold sdscatlen.
  destruct (sdsMakeRoomFor_spec s v (zlen t) Hrep Hv Ht) as (s1 & -> & Hrep1 & Hroom & _). cbn [mbind option_bind].
  unfold sdslen. rewrite (rep_len _ _ Hrep).
  destruct (rep_write s1 v v [] t Hrep1) as (b1 & b2 & E1 & E2 & ?); [by rewrite app_nil_r|done|].
  unfold sds_blit, sds_poke. rewrite E1. cbn [mbind option_bind]. simpl. rewrite E2. eexists. by split.
Qed.

Lemma sdsgrowzero_spec s v n :
  sds_rep s v → small (zlen v) → small n →
  ∃ s', sdsgrowzero junk s n = Some s' ∧ sds_rep s' (v ++ replicate (Z.to_nat (n - zlen v)) 0).
Proof.
  intros Hrep Hv Hn. unfold small in *. unfold sdsgrowzero, sdslen. rewrite (rep_len _ _ Hrep).
  destruct (Z.leb_spec n (zlen v)).
  { exists s. split; [done|]. replace (Z.to_nat (n - zlen v)) with 0%nat by lia. simpl. by rewrite app_nil_r. }
  destruct (sdsMakeRoomFor_spec s v (n - zlen v) Hrep) as (s1 & -> & Hrep1 & Hroom & _); [done|split; lia|].
  cbn [mbind option_bind]. pose proof Hrep1 as [Ht Hl Ha (rest & Hb & Hr)]. unfold sds_blit. rewrite Hb.
  set (z := replicate (Z.to_nat (n - zlen v)) 0).
  assert (zlen z = n - zlen v) as Hz by (unfold z; rewrite length_replicate; lia).
  replace (replicate (Z.to_nat (n - zlen v + 1)) 0) with (z ++ [0]).
  2:{ unfold z. replace (Z.to_nat (n - zlen v + 1)) with (Z.to_nat (n - zlen v) + 1)%nat by lia. by rewrite replicate_add. }
  assert (length (z ++ [0%Z]) ≤ length (0%Z :: rest))%nat as Hle by (rewrite length_app; simpl; lia).
  rewrite <-(take_drop (length (z ++ [0])) (0 :: rest)).
  rewrite blit_app by (rewrite ?length_take; lia). cbn [mbind option_bind]. eexists. split; [done|].
  replace n with (zlen (v ++ z)) at 1 by (rewrite length_app; lia).
  eapply (rep_update s1 v (v ++ z)); [done|rewrite length_app; lia|by rewrite <-!(assoc_L (++))|].
  rewrite Hb, !length_app, length_drop. rewrite !length_app in Hle. simpl in *. lia.
Qed.

Lemma sdscpylen_spec s v t :
  sds_rep s v → small (zlen v) → small (zlen t) →
  ∃ s', sdscpylen junk s t = Some s' ∧ sds_rep s' t.
Proof.
  intros Hrep Hv Ht. unfold small in *. unfold sdscpylen.
  assert (∃ s1, (if sdsalloc s <? zlen t then sdsMakeRoomFor junk s (u64 (zlen t - sdslen s)) else Some s) = Some s1 ∧
    sds_rep s1 v ∧ zlen t ≤ sdsalloc s1) as (s1 & -> & Hrep1 & Hroom).
  { destruct (Z.ltb_spec (sdsalloc s) (zlen t)); [|by exists s].
    pose proof (rep_alloc _ _ Hrep). unfold sdslen. rewrite (rep_len _ _ Hrep), wrap_u_small by (split; lia).
    destruct (sdsMakeRoomFor_spec s v (zlen t - zlen v) Hrep) as (s1 & ? & ? & ? & _); [done|split; lia|].
    exists s1. split_and!; (done || lia). }
  cbn [mbind option_bind]. destruct (rep_overwrite s1 v t Hrep1 Hroom) as (b1 & b2 & E1 & E2 & ?).
  unfold sds_blit, sds_poke. rewrite E1. cbn [mbind option_bind]. simpl. rewrite E2.
  eexists. by split.
Qed.

Lemma sdsclear_spec s v : sds_rep s v → ∃ s', sdsclear s = Some s' ∧ sds_rep s' [].
Proof.
  intros Hrep. pose proof (rep_alloc _ _ Hrep). unfold sdsclear.
  destruct (rep_overwrite s v [] Hrep) as (b1 & b2 & E1 & E2 & ?); [simpl; lia|].
  rewrite blit_Some in E1 by (simpl; lia). change (Z.to_nat 0) with 0%nat in E1. simpl in E1.
  rewrite drop_0 in E1. injection E1 as <-. unfold sds_poke. change (zlen (@nil Z)) with 0 in *. simpl sbuf. rewrite E2. eexists. by split.
Qed.

(** Keeping [n] bytes from [start]: [memmove] to the front unless nothing moves. *)
Lemma rep_keep s v start n (move : bool) :
  sds_rep s v → 0 ≤ start → 0 ≤ n → start + n ≤ zlen v → (move = false → start = 0 ∨ n = 0) →
  ∃ s', (s1 ← (if move then b ← memmove (sbuf s) 0 start n; Some (set_buf s b) else Some s);
         s2 ← sds_poke s1 n 0; Some (sdssetlen s2 n)) = Some s' ∧
    sds_rep s' (take (Z.to_nat n) (drop (Z.to_nat start) v)).
Proof.
  intros Hrep Hs Hn Hle Hmove. set (t := take (Z.to_nat n) (drop (Z.to_nat start) v)).
  assert (zlen t = n) as Ht by (unfold t; rewrite length_take, length_drop; lia).
  pose proof Hrep as [_ _ Ha (rest & Hb & Hr)].
  destruct (rep_overwrite s v t Hrep) as (b1 & b2 & E1 & E2 & Hrep'); [lia|]. rewrite Ht in *.
  assert ((if move then b ← memmove (sbuf s) 0 start n; Some (set_buf s b) else Some s) = Some (set_buf s b1)) as ->.
  { destruct move.
    - unfold memmove. rewrite Hb, slice_Some by (rewrite ?length_app; simpl; lia). cbn [mbind option_bind].
      rewrite drop_app_le, take_app_le by (rewrite ?length_drop; lia). fold t. rewrite <-Hb, E1. done.
    - f_equal. rewrite blit_Some in E1 by (rewrite ?Hb, ?length_app; simpl; lia).
      change (Z.to_nat 0) with 0%nat in E1. simpl in E1. injection E1 as <-.
      assert (t = take (length t) (sbuf s)) as Htk.
      { rewrite Hb, take_app_le by lia. destruct (Hmove eq_refl) as [-> | ->].
        - unfold t at 1. change (Z.to_nat 0) with 0%nat. rewrite drop_0. f_equal. lia.
        - destruct t; [done|simpl in Ht; lia]. }
      rewrite Htk at 1. rewrite take_drop. by destruct s. }
  cbn [mbind option_bind]. unfold sds_poke. simpl. rewrite E2. eexists. by split.
Qed.

(** The substring [sdsrange] keeps: negative positions count from the end, and are
    clamped to the first byte. *)
Definition str_range (v : bytes) (start end_ : Z) : bytes :=
  let pos i := if i <? 0 then Z.max 0 (zlen v + i) else i in
  take (Z.to_nat (pos end_ - pos start + 1)) (drop (Z.to_nat (pos start)) v).

Lemma sdsrange_spec s v start end_ :
  sds_rep s v → ∃ s', sdsrange s start end_ = Some s' ∧ sds_rep s' (str_range v start end_).
Proof.
  intros Hrep. unfold sdsrange, sdslen. rewrite (rep_len _ _ Hrep).
  destruct (Z.eqb_spec (zlen v) 0) as [Hz|Hz].
  { exists s. split; [done|]. destruct v; [|simpl in Hz; lia]. unfold str_range. by rewrite drop_nil, take_nil. }
  assert (∀ i, (if i <? 0 then if zlen v + i <? 0 then 0 else zlen v + i else i)
    = if i <? 0 then Z.max 0 (zlen v + i) else i) as Hpos.
  { intros i. destruct (i <? 0); [|done]. destruct (Z.ltb_spec (zlen v + i) 0); lia. }
  cbv zeta. rewrite !Hpos. unfold str_range. cbv zeta.
  set (a := if start <? 0 then Z.max 0 (zlen v + start) else start).
  set (b := if end_ <? 0 then Z.max 0 (zlen v + end_) else end_).
  assert (0 ≤ a ∧ 0 ≤ b) as [Ha Hb].
  { unfold a, b. destruct (Z.ltb_spec start 0), (Z.ltb_spec end_ 0); lia. }
  assert (∀ start' n, 0 ≤ start' → 0 ≤ n → start' + n ≤ zlen v →
    take (Z.to_nat n) (drop (Z.to_nat start') v) = take (Z.to_nat (b - a + 1)) (drop (Z.to_nat a) v) →
    ∃ s', (s1 ← (if negb (start' =? 0) && negb (n =? 0)
                 then b0 ← memmove (sbuf s) 0 start' n; Some (set_buf s b0) else Some s);
           s2 ← sds_poke s1 n 0; Some (sdssetlen s2 n)) = Some s' ∧
      sds_rep s' (take (Z.to_nat (b - a + 1)) (drop (Z.to_nat a) v))) as Hkeep.
  { intros start' n H1 H2 H3 <-. apply rep_keep; try done.
    intros Hm. apply andb_false_iff in Hm as [?|?]; [left|right]; lia. }
  assert (∀ k, (length v ≤ k)%nat → take (Z.to_nat 0) v = take (Z.to_nat (b - a + 1)) (drop k v)) as Hpast.
  { intros k Hk. rewrite drop_ge by lia. by rewrite take_nil. }
  destruct (Z.ltb_spec b a) as [Hlt|Hge]; cbn [negb].
  - change (0 =? 0) with true. cbn [negb]. apply (Hkeep 0 0); [lia|lia|lia|].
    by replace (Z.to_nat (b - a + 1)) with 0%nat by lia.
  - replace (b - a + 1 =? 0) with false by lia. cbn [negb].
    destruct (Z.leb_spec (zlen v) a) as [Hla|Hla].
    + destruct (Hkeep 0 0) as (s' & E & Hs'); [lia|lia|lia|by apply Hpast; lia|].
      exists s'. rewrite andb_false_r in *. by split.
    + destruct (Z.leb_spec (zlen v) b) as [Hlb|Hlb].
      * replace (zlen v - 1 <? a) with false by lia. apply Hkeep; [lia|lia|lia|].
        rewrite !take_ge by (rewrite length_drop; lia). done.
      * apply Hkeep; [lia|lia|lia|done].
Qed.

(** Trimming at both ends. *)
Fixpoint drop_while (f : Z → bool) (l : bytes) : bytes :=
  match l with
  | [] => []
  | x :: l' => if f x then drop_while f l' else l
  end.

Definition str_trim (cset v : bytes) : bytes :=
  reverse (drop_while (in_cset cset) (reverse (drop_while (in_cset cset) v))).

Lemma drop_while_suffix f l : ∃ p, l = p ++ drop_while f l.
Proof.
  induction l as [|x l [p IH]]; [by exists []|]. simpl. destruct (f x); [|by exists []].
  exists (x :: p). simpl. by rewrite <-IH.
Qed.

Lemma drop_while_head f l x l' : drop_while f l = x :: l' → f x = false.
Proof.
  induction l as [|y l IH]; [done|]. simpl. destruct (f y) eqn:E; [done|]. by intros [= -> ->].
Qed.

Lemma trim_left_spec cset fuel a w c :
  (length w < fuel)%nat →
  trim_left fuel (a ++ w ++ c) cset (zlen a) (zlen a + zlen w - 1)
  = Some (zlen a + zlen w - zlen (drop_while (in_cset cset) w)).
Proof.
  revert a w. induction fuel as [|fuel IH]; intros a w Hf; [lia|]. cbn [trim_left].
  destruct w as [|x w]; simpl app; simpl length.
  { destruct (Z.leb_spec (zlen a) (zlen a + Z.of_nat 0 - 1)); [lia|]. f_equal. simpl. lia. }
  destruct (Z.leb_spec (zlen a) (zlen a + Z.of_nat (S (length w)) - 1)); [|lia].
  rewrite (peek_app a) by done. cbn [mbind option_bind]. simpl drop_while. simpl in Hf.
  destruct (in_cset cset x); [|f_equal; simpl; lia].
  specialize (IH (a ++ [x]) w ltac:(lia)). rewrite <-(assoc_L (++)), length_app in IH. simpl in IH.
  rewrite Nat2Z.inj_add in IH. change (Z.of_nat 1) with 1 in IH.
  replace (zlen a + Z.of_nat (S (length w)) - 1) with (zlen a + 1 + zlen w - 1) by lia.
  rewrite IH. f_equal. lia.
Qed.

Definition rtrim (f : Z → bool) (l : bytes) : bytes := reverse (drop_while f (reverse l)).

Lemma rtrim_snoc f l x : rtrim f (l ++ [x]) = if f x then rtrim f l else l ++ [x].
Proof.
  unfold rtrim. rewrite reverse_snoc. simpl. destruct (f x); [done|].
  by rewrite reverse_cons, reverse_involutive.
Qed.

Lemma trim_right_spec cset fuel a m c :
  (length m < fuel)%nat → (∀ x, head m = Some x → in_cset cset x = false) →
  trim_right fuel (a ++ m ++ c) cset (zlen a) (zlen a + zlen m - 1)
  = Some (zlen a + zlen (rtrim (in_cset cset) m) - 1).
Proof.
  revert m c. induction fuel as [|fuel IH]; intros m c Hf Hh; [lia|]. cbn [trim_right].
  destruct m as [|x m _] using rev_ind.
  { simpl length. destruct (Z.ltb_spec (zlen a) (zlen a + Z.of_nat 0 - 1)); [lia|done]. }
  rewrite rtrim_snoc, length_app in *. simpl in Hf. destruct (decide (m = [])) as [->|Hne].
  { simpl app in *. simpl length. rewrite Hh by done.
    destruct (Z.ltb_spec (zlen a) (zlen a + Z.of_nat (0 + 1) - 1)); [lia|done]. }
  assert (0 < length m)%nat by (destruct m; [done|simpl; lia]).
  destruct (Z.ltb_spec (zlen a) (zlen a + Z.of_nat (length m + length [x]) - 1)); [|simpl in *; lia].
  replace (a ++ (m ++ [x]) ++ c) with ((a ++ m) ++ x :: c) by (by rewrite <-!(assoc_L (++))).
  rewrite (peek_app (a ++ m)) by (rewrite length_app; simpl; lia). cbn [mbind option_bind].
  destruct (in_cset cset x); [|f_equal; rewrite length_app; simpl; lia].
  replace (zlen a + Z.of_nat (length m + length [x]) - 1 - 1) with (zlen a + zlen m - 1) by (simpl; lia).
  rewrite <-(assoc_L (++)). apply IH; [lia|]. intros y Hy. apply Hh. destruct m; [done|]. done.
Qed.

Lemma drop_while_length f l : (length (drop_while f l) ≤ length l)%nat.
Proof. destruct (drop_while_suffix f l) as [p Hp]. rewrite Hp at 2. rewrite length_app. lia. Qed.

Lemma rtrim_prefix f l : ∃ q, l = rtrim f l ++ q.
Proof.
  unfold rtrim. destruct (drop_while_suffix f (reverse l)) as [p Hp]. exists (reverse p).
  rewrite <-reverse_app, <-Hp. by rewrite reverse_involutive.
Qed.

Lemma sdstrim_spec s v cset :
  sds_rep s v → ∃ s', sdstrim s cset = Some s' ∧ sds_rep s' (str_trim cset v).
Proof.
  intros Hrep. unfold sdstrim, sdslen. rewrite (rep_len _ _ Hrep).
  pose proof Hrep as [_ _ _ (rest & Hb & _)]. rewrite Nat2Z.id.
  pose proof (trim_left_spec cset (S (length v)) [] v (0 :: rest) ltac:(lia)) as Hl.
  change (zlen (@nil Z)) with 0 in Hl. rewrite !Z.add_0_l in Hl. simpl app in Hl. rewrite <-Hb in Hl. rewrite Hl.
  cbn [mbind option_bind].
  destruct (drop_while_suffix (in_cset cset) v) as [a Ha]. set (w := drop_while (in_cset cset) v) in *.
  assert (zlen v = zlen a + zlen w) as Hlen by (rewrite Ha, length_app; lia).
  replace (zlen v - zlen w) with (zlen a) by lia. rewrite Hlen.
  assert (sbuf s = a ++ w ++ 0 :: rest) as Hb' by (rewrite Hb, (assoc_L (++)); by f_equal).
  assert (∀ x, head w = Some x → in_cset cset x = false) as Hw.
  { intros x Hx. destruct w as [|y w'] eqn:E; [done|]. injection Hx as ->. by eapply drop_while_head. }
  pose proof (trim_right_spec cset (S (length v)) a w (0 :: rest) ltac:(lia) Hw) as Hrt.
  rewrite <-Hb' in Hrt. rewrite Hrt.
  cbn [mbind option_bind]. change (str_trim cset v) with (rtrim (in_cset cset) w).
  destruct (rtrim_prefix (in_cset cset) w) as [q Hq]. set (m := rtrim (in_cset cset) w) in *.
  assert (zlen w = zlen m + zlen q) as Hlw by (rewrite Hq, length_app; lia).
  replace (if zlen a + zlen m - 1 <? zlen a then 0 else zlen a + zlen m - 1 - zlen a + 1) with (zlen m)
    by (destruct (Z.ltb_spec (zlen a + zlen m - 1) (zlen a)); lia).
  destruct (rep_keep s v (zlen a) (zlen m) (negb (zlen a =? 0)) Hrep) as (s' & E & Hs'); [lia|lia|lia|lia|].
  exists s'. split; [exact E|]. rewrite !Nat2Z.id in Hs'. rewrite Ha, Hq in Hs'.
  by rewrite drop_app_length, take_app_length in Hs'.
Qed.

Lemma sdsRemoveFreeSpace_spec s v :
  sds_rep s v → small (zlen v) →
  ∃ s', sdsRemoveFreeSpace junk s = Some s' ∧ sds_rep s' v ∧ sdsalloc s' = zlen v.
Proof.
  intros Hrep Hv. unfold small in Hv. unfold sdsRemoveFreeSpace, sdslen.
  rewrite (rep_len _ _ Hrep), (sdsavail_spec s v Hrep).
  pose proof Hrep as [Ht Hl Ha (rest & Hb & Hr)].
  destruct (Z.eqb_spec (sdsalloc s - zlen v) 0); [exists s; split_and!; (done || lia)|].
  destruct (sdsReqType_spec (zlen v)) as [Ht' Hw']; [lia|]. rewrite Hb.
  assert (∀ type r, 0 ≤ type ≤ 4 → zlen v < 2 ^ len_bits type → 0 ≤ zlen r →
    sds_rep (sdssetalloc (mkSds type (zlen v) 0 (v ++ 0 :: r)) (zlen v)) v ∧
    sdsalloc (sdssetalloc (mkSds type (zlen v) 0 (v ++ 0 :: r)) (zlen v)) = zlen v) as Hmk.
  { intros type r H1 H2 H3. pose proof (len_bits_le type).
    assert (wrap_u (len_bits type) (zlen v) = zlen v) as Hwr by (apply wrap_u_small; split; lia).
    unfold sdssetalloc. simpl. rewrite Hwr.
    destruct (rep_mk type (zlen v) (if type =? SDS_TYPE_5 then 0 else zlen v) v r) as [? Hal];
      [done|done|destruct (type =? SDS_TYPE_5); lia|destruct (type =? SDS_TYPE_5); lia|].
    split; [done|]. rewrite Hal. by destruct (type =? SDS_TYPE_5). }
  destruct (_ || _).
  - destruct (realloc_keep v rest (zlen v)) as (r & Hre & Hrl); [lia|]. cbn [mbind option_bind].
    rewrite Hre. eexists. split; [done|].
    destruct (Hmk (stype s) r) as [H1 H2]; [done|lia|lia|].
    unfold sdssetalloc, set_buf in *. simpl in *. rewrite Hl.
    assert (stype s ≠ SDS_TYPE_5) as H5.
    { intros E. unfold sdsalloc in *. rewrite (proj2 (Z.eqb_eq _ _) E) in *. lia. }
    by rewrite (proj2 (Z.eqb_neq _ _) H5) in *.
  - destruct (copy_fresh v rest (zlen v)) as (r & Hc & Hrl); [lia|].
    destruct (slice (v ++ 0 :: rest) 0 (zlen v + 1)) as [t|]; [|done]. cbn [mbind option_bind] in Hc |- *.
    rewrite Hc. cbn [mbind option_bind]. eexists. split; [done|].
    destruct (Hmk (sdsReqType (zlen v)) r) as [H1 H2]; [done|done|lia|].
    unfold sdssetlen. simpl. pose proof (len_bits_le (sdsReqType (zlen v))).
    rewrite wrap_u_small by (split; lia). done.
Qed.

(** [sdsIncrLen] after the caller has written past the end, and to drop a suffix. *)
Lemma sdsIncrLen_grow s v t :
  sds_rep s v → zlen v + zlen t ≤ sdsalloc s → t ≠ [] →
  ∃ s1 s', sds_blit s (zlen v) t = Some s1 ∧ sdsIncrLen s1 (zlen t) = Some s' ∧ sds_rep s' (v ++ t).
Proof.
  intros Hrep Hle Hne. assert (0 < zlen t) by (destruct t; [done|simpl; lia]).
  destruct (rep_write s v v [] t Hrep) as (b1 & b2 & E1 & E2 & Hs'); [by rewrite app_nil_r|done|].
  unfold sds_blit. rewrite E1. cbn [mbind option_bind]. eexists _, _. split; [done|].
  pose proof Hrep as [Ht Hl Ha _]. unfold sdsIncrLen, sdsinclen, sds_poke, set_buf. simpl. rewrite Hl.
  pose proof (len_bits_le (stype s)).
  assert (wrap_u (len_bits (stype s)) (zlen v + zlen t) = zlen v + zlen t) as Hwr
    by (apply wrap_u_small; split; lia).
  rewrite Hwr, E2. unfold sdsalloc in *. destruct (stype s =? SDS_TYPE_5); [lia|].
  replace ((0 <=? zlen t) && (zlen t <=? salloc s - zlen v) || (zlen t <? 0) && (- zlen t <=? zlen v))
    with true by lia. cbn [negb mbind option_bind]. split; [done|].
  unfold sdssetlen, set_buf in Hs'. simpl in Hs'. by rewrite Hwr in Hs'.
Qed.

Lemma sdsIncrLen_shrink s a b :
  sds_rep s (a ++ b) → b ≠ [] →
  ∃ s', sdsIncrLen s (- zlen b) = Some s' ∧ sds_rep s' a.
Proof.
  intros Hrep Hne. assert (0 < zlen b) by (destruct b; [done|simpl; lia]).
  pose proof Hrep as [Ht Hl Ha (rest & Hb & Hr)]. rewrite length_app in Hl, Ha.
  destruct (rep_write s (a ++ b) a b [] Hrep) as (b1 & b2 & E1 & E2 & Hs'); [done|simpl; lia|].
  simpl in E1. rewrite blit_Some in E1 by (rewrite ?Hb, ?length_app; simpl; lia).
  simpl in E1. rewrite Nat.add_0_r, take_drop in E1. injection E1 as <-.
  unfold sdsIncrLen, sdsinclen, sds_poke. rewrite Hl. rewrite Nat2Z.inj_add in *.
  replace (zlen a + zlen b + - zlen b) with (zlen a) by lia.
  replace (- - zlen b <=? zlen a + zlen b) with true by lia. replace (- zlen b <? 0) with true by lia.
  replace (0 <? - zlen b) with false by lia. replace (0 <=? - zlen b) with false by lia. cbn [andb orb].
  replace (negb (if stype s =? SDS_TYPE_5 then true else true)) with false by (by destruct (stype s =? SDS_TYPE_5)).
  pose proof (len_bits_le (stype s)).
  assert (wrap_u (len_bits (stype s)) (zlen a) = zlen a) as Hwr by (apply wrap_u_small; split; lia).
  simpl. rewrite Hwr. simpl in E2. rewrite Z.add_0_r in *. rewrite E2. eexists. split; [done|].
  rewrite app_nil_r in Hs'. unfold sdssetlen, set_buf in Hs'. simpl in Hs'. by rewrite Hwr in Hs'.
Qed.
End Specs.

(** ** Histories *)

Section History.
Context (junk : nat → Z).

Inductive sds_op :=
  | OpCat (t : bytes)
  | OpCopy (t : bytes)
  | OpRange (start end_ : Z)
  | OpTrim (cset : bytes)
  | OpGrow (n : Z)
  | OpClear
  | OpShrink
  | OpRoom (n : Z)
  | OpReadInto (t : bytes) (* reserve, write past the end, [sdsIncrLen] *)
  | OpDup.

Definition run_sds_op (s : sds) (op : sds_op) : option sds :=
  match op with
  | OpCat t => sdscatlen junk s t
  | OpCopy t => sdscpylen junk s t
  | OpRange a b => sdsrange s a b
  | OpTrim cset => sdstrim s cset
  | OpGrow n => sdsgrowzero junk s n
  | OpClear => sdsclear s
  | OpShrink => sdsRemoveFreeSpace junk s
  | OpRoom n => sdsMakeRoomFor junk s n
  | OpReadInto t =>
      s ← sdsMakeRoomFor junk s (zlen t);
      s ← sds_blit s (sdslen s) t;
      sdsIncrLen s (zlen t)
  | OpDup => sdsdup junk s
  end.

Definition str_op (v : bytes) (op : sds_op) : bytes :=
  match op with
  | OpCat t | OpReadInto t => v ++ t
  | OpCopy t => t
  | OpRange a b => str_range v a b
  | OpTrim cset => str_trim cset v
  | OpGrow n => v ++ replicate (Z.to_nat (n - zlen v)) 0
  | OpClear => []
  | OpShrink | OpRoom _ | OpDup => v
  end.

(** The sizes fit in memory; a read brings at least one byte. *)
Definition sds_op_ok (v : bytes) (op : sds_op) : Prop :=
  small (zlen v) ∧
  match op with
  | OpCat t | OpCopy t => small (zlen t)
  | OpReadInto t => small (zlen t) ∧ t ≠ []
  | OpGrow n | OpRoom n => small n
  | _ => True
  end.

Fixpoint run_sds_ops (s : sds) (ops : list sds_op) : option sds :=
  match ops with
  | [] => Some s
  | op :: ops => s ← run_sds_op s op; run_sds_ops s ops
  end.

Fixpoint sds_ops_ok (v : bytes) (ops : list sds_op) : Prop :=
  match ops with
  | [] => True
  | op :: ops => sds_op_ok v op ∧ sds_ops_ok (str_op v op) ops
  end.

Lemma run_sds_op_spec s v op :
  sds_rep s v → sds_op_ok v op → ∃ s', run_sds_op s op = Some s' ∧ sds_rep s' (str_op v op).
Proof.
  intros Hrep [Hv Hop]. destruct op as [t|t|a b|cset|n| | |n|t|]; simpl.
  - by apply sdscatlen_spec.
  - by eapply sdscpylen_spec.
  - by apply sdsrange_spec.
  - by apply sdstrim_spec.
  - by apply sdsgrowzero_spec.
  - by eapply sdsclear_spec.
  - destruct (sdsRemoveFreeSpace_spec junk s v Hrep Hv) as (s' & ? & ? & _). by exists s'.
  - destruct (sdsMakeRoomFor_spec junk s v n Hrep Hv Hop) as (s' & ? & ? & _). by exists s'.
  - destruct Hop as [Ht Hne].
    destruct (sdsMakeRoomFor_spec junk s v (zlen t) Hrep Hv Ht) as (s1 & -> & Hrep1 & Hroom & _).
    cbn [mbind option_bind]. unfold sdslen. rewrite (rep_len _ _ Hrep1).
    destruct (sdsIncrLen_grow s1 v t Hrep1 Hroom Hne) as (s2 & s' & -> & ? & ?). by exists s'.
  - pose proof Hrep as [_ Hl _ (rest & Hb & _)]. unfold sdsdup, sdslen. rewrite Hl, Hb.
    destruct (sdsnewlen_spec junk (InitBytes (v ++ 0 :: rest)) (zlen v) Hv) as (s' & v' & E & Hs' & _ & _ & Hv').
    { intros b [= <-]. rewrite length_app. lia. }
    rewrite Nat2Z.id, take_app_length in Hv'. subst v'. by exists s'.
Qed.

Lemma run_sds_ops_spec ops s v :
  sds_rep s v → sds_ops_ok v ops →
  ∃ s', run_sds_ops s ops = Some s' ∧ sds_rep s' (foldl str_op v ops).
Proof.
  revert s v. induction ops as [|op ops IH]; intros s v Hrep Hok; [by exists s|].
  destruct Hok as [Hop Hops]. destruct (run_sds_op_spec s v op Hrep Hop) as (s1 & E & Hrep1).
  simpl. rewrite E. cbn [mbind option_bind]. by apply IH.
Qed.

(** C19: a dynamic string created from bytes and driven through any sequence of appends,
    copies, ranges, trims, growths, reallocations and direct writes never leaves its buffer
    and holds exactly the bytes those operations describe: the header stores their number at
    its width and they are followed by a NUL, whatever uninitialised memory contained. *)
Theorem sds_refines_bytes (v : bytes) (ops : list sds_op) :
  small (zlen v) → sds_ops_ok v ops →
  ∃ s0 s, sdsnewlen junk (InitBytes v) (zlen v) = Some s0 ∧ run_sds_ops s0 ops = Some s ∧
    sds_rep s (foldl str_op v ops).
Proof.
  intros Hv Hok.
  destruct (sdsnewlen_spec junk (InitBytes v) (zlen v) Hv) as (s0 & v' & E & Hs0 & _ & _ & Hv').
  { by intros b [= <-]. }
  rewrite Nat2Z.id, take_ge in Hv' by lia. subst v'.
  destruct (run_sds_ops_spec ops s0 v Hs0 Hok) as (s & ? & ?). by exists s0, s.
Qed.
End History.

Definition sample_sds_ops : list sds_op :=
  [OpCat (replicate 300 65); OpRange (-303) 40; OpTrim [65; 32]; OpReadInto [66; 67]; OpShrink; OpGrow 9].

Lemma sds_refines_bytes_witness :
  ∃ s0 s, sdsnewlen (λ _, 170) (InitBytes [32; 65; 88]) 3 = Some s0 ∧
    run_sds_ops (λ _, 170) s0 sample_sds_ops = Some s ∧ sds_rep s [88; 66; 67; 0; 0; 0; 0; 0; 0].
Proof.
  assert (small (zlen [32; 65; 88])) as Hs by (vm_compute; split; congruence).
  assert (sds_ops_ok [32; 65; 88] sample_sds_ops) as Hok
    by (repeat split; vm_compute; congruence).
  destruct (sds_refines_bytes (λ _, 170) [32; 65; 88] sample_sds_ops Hs Hok) as (s0 & s & H1 & H2 & H3).
  exists s0, s. split; [exact H1|]. split; [exact H2|]. vm_compute in H3. exact H3.
Defined.
