(* ===== verification/SdsText.v ===== *)
(** Text functions of sds.c: splitting and joining, quoted representations and their
    parser, decimal conversion, comparison.  Strings are their bytes here; Sds.v shows
    that appending to a dynamic string is appending to its bytes. *)

From stdpp Require Import strings.
From S2P Require Import Prelude Util.

Abbreviation bytes := (list Z).

(** ** [sdssplitlen] and [sdsjoinsds] *)

(** The loop over [j]; [acc] holds the tokens found. *)
Fixpoint split_loop (fuel : nat) (s sep : bytes) (start j : Z) (acc : list bytes)
    : option (list bytes * Z) :=
  match fuel with
  | O => None
  | S fuel =>
      let len := zlen s in
      let seplen := zlen sep in
      if j <? len - (seplen - 1) then
        w ← slice s j seplen;
        if decide (w = sep) then
          tok ← slice s start (j - start);
          split_loop fuel s sep (j + seplen) (j + seplen - 1 + 1) (acc ++ [tok])
        else split_loop fuel s sep start (j + 1) acc
      else Some (acc, start)
  end.

(** [sdssplitlen]: [Some None] is the NULL result. *)
Definition sdssplitlen (s sep : bytes) : option (option (list bytes)) :=
  if zlen sep <? 1 then Some None
  else if zlen s =? 0 then Some (Some [])
  else
    '(tokens, start) ← split_loop (S (length s)) s sep 0 0 [];
    last ← slice s start (zlen s - start);
    Some (Some (tokens ++ [last])).

(** [sdsjoinsds]; the separator follows every element but the last. *)
Fixpoint sdsjoinsds (argv : list bytes) (sep : bytes) : bytes :=
  match argv with
  | [] => []
  | [a] => a
  | a :: argv => a ++ sep ++ sdsjoinsds argv sep
  end.

(** ** Comparison and mapping *)

(** [memcmp] returns the difference of the first bytes that differ. *)
Fixpoint memcmp (a b : bytes) : Z :=
  match a, b with
  | x :: a, y :: b => if x =? y then memcmp a b else x - y
  | _, _ => 0
  end.

Definition sdscmp (s1 s2 : bytes) : Z :=
  let l1 := zlen s1 in
  let l2 := zlen s2 in
  let minlen := if l1 <? l2 then l1 else l2 in
  let cmp := memcmp (take (Z.to_nat minlen) s1) (take (Z.to_nat minlen) s2) in
  if cmp =? 0 then (if l2 <? l1 then 1 else if l1 <? l2 then -1 else 0) else cmp.

(** The inner loop of [sdsmapchars]: the first match wins. *)
Fixpoint map_char (c : Z) (from to : bytes) : Z :=
  match from, to with
  | f :: from, t :: to => if c =? f then t else map_char c from to
  | _, _ => c
  end.

Definition sdsmapchars (s from to : bytes) : bytes := (λ c, map_char c from to) <$> s.

(** ** Decimal conversion *)

(** The [do ... while] loop that writes the digits in reverse. *)
Fixpoint ll2str_digits (fuel : nat) (v : Z) : option bytes :=
  match fuel with
  | O => None
  | S fuel =>
      let d := 48 + v mod 10 in
      let v := v / 10 in
      if v =? 0 then Some [d] else l ← ll2str_digits fuel v; Some (d :: l)
  end.

(** The string [sdsll2str] leaves in its buffer, and [sdsull2str]; [-value] of the smallest
    integer wraps to itself and converts to the right unsigned value. *)
Definition sdsll2str (value : Z) : option bytes :=
  let v := u64 (if value <? 0 then wrap_s 64 (- value) else value) in
  l ← ll2str_digits 20 v;
  let p := if value <? 0 then l ++ [45] else l in
  Some (reverse p).

(** The text of an element that is kept as a string or as an integer. *)
Definition text (v : list Z + Z) : option (list Z) := match v with inl s => Some s | inr v => sdsll2str v end.

Definition sdsull2str (v : Z) : option bytes := l ← ll2str_digits 20 v; Some (reverse l).

(** ** Quoted representations *)

Definition isprint (c : Z) : bool := (32 <=? c) && (c <=? 126).
Definition isspace (c : Z) : bool := (c =? 32) || ((9 <=? c) && (c <=? 13)).

(** A digit of [%02x]. *)
Definition hex_char (n : Z) : Z := if n <? 10 then 48 + n else 87 + n.

(** The [switch] of [sdscatrepr]. *)
Definition repr_char (c : Z) : bytes :=
  if (c =? 92) || (c =? 34) then [92; c]
  else if c =? 10 then str "\n"
  else if c =? 13 then str "\r"
  else if c =? 9 then str "\t"
  else if c =? 7 then str "\a"
  else if c =? 8 then str "\b"
  else if isprint c then [c]
  else [92; 120; hex_char (c / 16); hex_char (c mod 16)].

Definition sdscatrepr (s p : bytes) : bytes := s ++ [34] ++ mjoin (repr_char <$> p) ++ [34].

Definition is_hex_digit (c : Z) : bool :=
  ((48 <=? c) && (c <=? 57)) || ((97 <=? c) && (c <=? 102)) || ((65 <=? c) && (c <=? 70)).

Definition hex_digit_to_int (c : Z) : Z :=
  if (48 <=? c) && (c <=? 57) then c - 48
  else if (97 <=? c) && (c <=? 102) then c - 87
  else if (65 <=? c) && (c <=? 70) then c - 55
  else 0.

(** [p[i]]: the line is NUL terminated. *)
Definition at_p (p : bytes) (i : nat) : Z := default 0 (p !! i).

(** [if ( *p) p++] *)
Definition step_p (p : bytes) : bytes := if at_p p 0 =? 0 then p else drop 1 p.

Definition unescape (c : Z) : Z :=
  if c =? 110 then 10
  else if c =? 114 then 13
  else if c =? 116 then 9
  else if c =? 98 then 8
  else if c =? 97 then 7
  else c.

(** One iteration of the token loop: the character appended, whether the token is done, the
    new quoting state; [None] is the error exit. *)
Inductive quoting := Unquoted | InQuotes | InSingle.

Record token_step := mkStep { app_char : bytes; tok_done : bool; tok_q : quoting; tok_p : bytes }.

Definition splitargs_step (p : bytes) (q : quoting) : option token_step :=
  let c := at_p p 0 in
  match q with
  | InQuotes =>
      if (c =? 92) && (at_p p 1 =? 120) && is_hex_digit (at_p p 2) && is_hex_digit (at_p p 3) then
        let byte := hex_digit_to_int (at_p p 2) * 16 + hex_digit_to_int (at_p p 3) in
        Some (mkStep [byte] false q (step_p (drop 3 p)))
      else if (c =? 92) && negb (at_p p 1 =? 0) then
        Some (mkStep [unescape (at_p p 1)] false q (step_p (drop 1 p)))
      else if c =? 34 then
        if negb (at_p p 1 =? 0) && negb (isspace (at_p p 1)) then None
        else Some (mkStep [] true q (step_p p))
      else if c =? 0 then None
      else Some (mkStep [c] false q (step_p p))
  | InSingle =>
      if (c =? 92) && (at_p p 1 =? 39) then Some (mkStep [39] false q (step_p (drop 1 p)))
      else if c =? 39 then
        if negb (at_p p 1 =? 0) && negb (isspace (at_p p 1)) then None
        else Some (mkStep [] true q (step_p p))
      else if c =? 0 then None
      else Some (mkStep [c] false q (step_p p))
  | Unquoted =>
      if (c =? 32) || (c =? 10) || (c =? 13) || (c =? 9) || (c =? 0) then
        Some (mkStep [] true q (step_p p))
      else if c =? 34 then Some (mkStep [] false InQuotes (step_p p))
      else if c =? 39 then Some (mkStep [] false InSingle (step_p p))
      else Some (mkStep [c] false q (step_p p))
  end.

(** [while(!done)]: the token and the rest of the line, [Some None] on error. *)
Fixpoint get_token (fuel : nat) (p : bytes) (q : quoting) (current : bytes)
    : option (option (bytes * bytes)) :=
  match fuel with
  | O => None
  | S fuel =>
      match splitargs_step p q with
      | None => Some None
      | Some st =>
          let current := current ++ app_char st in
          if tok_done st then Some (Some (current, tok_p st))
          else get_token fuel (tok_p st) (tok_q st) current
      end
  end.

Fixpoint skip_blanks (p : bytes) : bytes :=
  match p with
  | c :: p' => if negb (c =? 0) && isspace c then skip_blanks p' else p
  | [] => []
  end.

Fixpoint splitargs_loop (fuel : nat) (p : bytes) (vector : list bytes)
    : option (option (list bytes)) :=
  match fuel with
  | O => None
  | S fuel =>
      let p := skip_blanks p in
      if at_p p 0 =? 0 then Some (Some vector)
      else
        r ← get_token (S (length p)) p Unquoted [];
        match r with
        | None => Some None
        | Some (tok, p) => splitargs_loop fuel p (vector ++ [tok])
        end
  end.

(** [sdssplitargs]: every token and every iteration consumes a byte of the line, or ends.
    [Some None] is the NULL result for unbalanced quotes. *)
Definition sdssplitargs (line : bytes) : option (option (list bytes)) :=
  splitargs_loop (S (length line)) line [].

Example splitargs_ex :
  sdssplitargs (str "set 'a b' x") = Some (Some [str "set"; str "a b"; str "x"]).
Proof. reflexivity. Qed.

(** ** Termination of the argument parser *)

Lemma at_p_nonzero p : at_p p 0 ≠ 0 → (0 < length p)%nat.
Proof. destruct p; [done|simpl; lia]. Qed.

Lemma step_p_length p : (length (step_p p) ≤ length p)%nat.
Proof. unfold step_p. destruct (_ =? _); [done|]. rewrite length_drop. lia. Qed.

Lemma step_p_shorter p n : at_p p 0 ≠ 0 → (length (step_p (drop n p)) < length p)%nat.
Proof.
  intros Hp. pose proof (at_p_nonzero p Hp). unfold step_p at 1.
  destruct n as [|n]; [rewrite drop_0, (proj2 (Z.eqb_neq _ _) Hp)|destruct (_ =? _)];
    rewrite ?length_drop; lia.
Qed.

Lemma splitargs_step_shorter p q st :
  splitargs_step p q = Some st →
  (length (tok_p st) ≤ length p)%nat ∧ (tok_done st = false → (length (tok_p st) < length p)%nat).
Proof.
  assert (∀ n, at_p p 0 ≠ 0 → (length (step_p (drop n p)) < length p)%nat) as Hs by (intros; by apply step_p_shorter).
  pose proof (step_p_length p) as Hle. pose proof (Hs 0%nat) as H0. rewrite drop_0 in H0.
  unfold splitargs_step. intros E. destruct q; repeat case_match; simplify_eq; simpl; try done;
    repeat match goal with
    | H : (_ && _) = true |- _ => apply andb_true_iff in H as [? ?]
    | H : (_ =? _) = true |- _ => apply Z.eqb_eq in H
    | H : (_ =? _) = false |- _ => apply Z.eqb_neq in H
    | H : (_ || _) = false |- _ => apply orb_false_iff in H as [? ?]
    end;
    (assert (at_p p 0 ≠ 0) as Hp by lia) || idtac;
    try (pose proof (Hs 1%nat Hp)); try (pose proof (Hs 3%nat Hp)); try (specialize (H0 Hp)); split; (done || lia).
Qed.

Lemma get_token_total fuel p q cur :
  (length p < fuel)%nat →
  ∃ r, get_token fuel p q cur = Some r ∧ ∀ tok p', r = Some (tok, p') → (length p' ≤ length p)%nat.
Proof.
  revert p q cur. induction fuel as [|fuel IH]; intros p q cur Hf; [lia|]. simpl.
  destruct (splitargs_step p q) as [st|] eqn:E; [|by exists None].
  destruct (splitargs_step_shorter p q st E) as [Hle Hlt].
  destruct (tok_done st) eqn:Hd; [eexists; split; [done|]; by intros ? ? [= <- <-]|].
  specialize (Hlt eq_refl). destruct (IH (tok_p st) (tok_q st) (cur ++ app_char st)) as (r & ? & Hr); [lia|].
  exists r. split; [done|]. intros tok p' ->. specialize (Hr _ _ eq_refl). lia.
Qed.

Lemma skip_blanks_length p : (length (skip_blanks p) ≤ length p)%nat.
Proof. induction p as [|c p IH]; simpl; [done|]. destruct (_ && _); simpl; lia. Qed.

Lemma skip_blanks_head p :
  at_p (skip_blanks p) 0 ≠ 0 → isspace (at_p (skip_blanks p) 0) = false.
Proof.
  induction p as [|c p IH]; simpl; [done|]. destruct (negb (c =? 0) && isspace c) eqn:E; [done|].
  intros Hc. change (at_p (c :: p) 0) with c in *. rewrite (proj2 (Z.eqb_neq _ _) Hc) in E. done.
Qed.

Lemma splitargs_loop_total fuel p vec :
  (length p < fuel)%nat → ∃ r, splitargs_loop fuel p vec = Some r.
Proof.
  revert p vec. induction fuel as [|fuel IH]; intros p vec Hf; [lia|]. cbn [splitargs_loop].
  pose proof (skip_blanks_length p) as Hl. pose proof (skip_blanks_head p) as Hh.
  set (p0 := skip_blanks p) in *. destruct (Z.eqb_spec (at_p p0 0) 0) as [|Hnz]; [by eexists|].
  specialize (Hh Hnz). cbn [get_token].
  destruct (splitargs_step p0 Unquoted) as [st|] eqn:E; [|by eexists].
  destruct (splitargs_step_shorter _ _ _ E) as [_ Hlt].
  assert (tok_done st = false) as Hd.
  { unfold splitargs_step in E. unfold isspace in Hh. repeat case_match; simplify_eq; try done. lia. }
  rewrite Hd in *. specialize (Hlt eq_refl).
  destruct (get_token_total (length p0) (tok_p st) (tok_q st) ([] ++ app_char st)) as (r & -> & Hr); [lia|].
  cbn [mbind option_bind]. destruct r as [[tok p']|]; [|by eexists]. specialize (Hr _ _ eq_refl).
  apply IH. lia.
Qed.

(** ** Round trip of the quoted representation *)

Definition hex_check (n : Z) : bool :=
  is_hex_digit (hex_char n) && (hex_digit_to_int (hex_char n) =? n) && negb (hex_char n =? 0).

Lemma hex_char_ok n :
  0 ≤ n < 16 →
  is_hex_digit (hex_char n) = true ∧ hex_digit_to_int (hex_char n) = n ∧ hex_char n ≠ 0.
Proof.
  intros Hn. assert (hex_check n = true) as Hc.
  { apply (check_range hex_check 16); [vm_compute; reflexivity|done]. }
  unfold hex_check in Hc.
  by apply andb_true_iff in Hc as [[? ?%Z.eqb_eq]%andb_true_iff ?%negb_true_iff%Z.eqb_neq].
Qed.

(** Inside double quotes the parser reads the representation of a byte as that byte. *)
Lemma repr_char_step c rest :
  is_byte c →
  splitargs_step (repr_char c ++ rest) InQuotes = Some (mkStep [c] false InQuotes rest) ∧
  (0 < length (repr_char c))%nat.
Proof.
  intros Hb. unfold repr_char.
  destruct (Z.eqb_spec c 92) as [->|H92]; [split; [reflexivity|simpl; lia]|].
  destruct (Z.eqb_spec c 34) as [->|H34]; [split; [reflexivity|simpl; lia]|]. cbn [orb].
  destruct (Z.eqb_spec c 10) as [->|H10]; [split; [reflexivity|simpl; lia]|].
  destruct (Z.eqb_spec c 13) as [->|H13]; [split; [reflexivity|simpl; lia]|].
  destruct (Z.eqb_spec c 9) as [->|H9]; [split; [reflexivity|simpl; lia]|].
  destruct (Z.eqb_spec c 7) as [->|H7]; [split; [reflexivity|simpl; lia]|].
  destruct (Z.eqb_spec c 8) as [->|H8]; [split; [reflexivity|simpl; lia]|].
  destruct (isprint c) eqn:Hp.
  - unfold isprint in Hp. split; [|simpl; lia]. unfold splitargs_step, step_p, at_p. simpl.
    rewrite (proj2 (Z.eqb_neq c 92)), (proj2 (Z.eqb_neq c 34)), (proj2 (Z.eqb_neq c 0)) by lia. done.
  - split; [|simpl; lia]. unfold is_byte in Hb.
    destruct (hex_char_ok (c / 16)) as (Ha & Ea & _); [split; [apply Z.div_pos; lia|apply Z.div_lt_upper_bound; lia]|].
    destruct (hex_char_ok (c mod 16)) as (Hl & El & Hnz); [by apply Z.mod_pos_bound|].
    unfold splitargs_step, step_p, at_p. simpl. rewrite Ha, Hl, Ea, El, (proj2 (Z.eqb_neq _ _) Hnz). simpl.
    do 3 f_equal. pose proof (Z.div_mod c 16). lia.
Qed.

Lemma get_token_body fuel s rest cur :
  Forall is_byte s → (length (mjoin (repr_char <$> s)) < fuel)%nat →
  at_p rest 0 = 0 ∨ isspace (at_p rest 0) = true →
  get_token fuel (mjoin (repr_char <$> s) ++ 34 :: rest) InQuotes cur
  = Some (Some (cur ++ s, rest)).
Proof.
  intros Hs. revert fuel cur. induction Hs as [|c s Hc _ IH]; intros fuel cur Hf Hrest;
    (destruct fuel as [|fuel]; [lia|]); cbn [get_token].
  - simpl app. unfold splitargs_step. change (at_p (34 :: rest) 0) with 34.
    change (at_p (34 :: rest) 1) with (at_p rest 0). simpl.
    replace (negb (at_p rest 0 =? 0) && negb (isspace (at_p rest 0))) with false.
    2:{ destruct Hrest as [-> | ->]; [done|by rewrite andb_false_r]. }
    done.
  - rewrite fmap_cons in *. change (mjoin (repr_char c :: (repr_char <$> s)))
      with (repr_char c ++ mjoin (repr_char <$> s)) in *. rewrite <-(assoc_L (++)).
    destruct (repr_char_step c (mjoin (repr_char <$> s) ++ 34 :: rest) Hc) as [-> Hl].
    cbn [tok_done tok_p tok_q app_char]. rewrite length_app in Hf.
    rewrite IH by (done || lia). by rewrite <-(assoc_L (++)).
Qed.

Lemma open_quote_step p :
  splitargs_step (34 :: p) Unquoted = Some (mkStep [] false InQuotes p).
Proof. reflexivity. Qed.

Lemma get_token_repr s rest :
  Forall is_byte s → at_p rest 0 = 0 ∨ isspace (at_p rest 0) = true →
  let line := sdscatrepr [] s ++ rest in
  get_token (S (length line)) line Unquoted [] = Some (Some (s, rest)).
Proof.
  intros Hs Hrest line.
  assert (line = 34 :: (mjoin (repr_char <$> s) ++ 34 :: rest)) as ->
    by (unfold line, sdscatrepr; simpl; by rewrite <-(assoc_L (++))).
  cbn [get_token]. rewrite open_quote_step. cbn [tok_done tok_p tok_q app_char].
  apply (get_token_body _ s rest []); [done| |done]. simpl. rewrite length_app. lia.
Qed.

Lemma splitargs_repr args vec fuel pre :
  Forall (Forall is_byte) args → (length args < fuel)%nat → pre = [] ∨ pre = [32] →
  splitargs_loop fuel (pre ++ sdsjoinsds (sdscatrepr [] <$> args) [32]) vec
  = Some (Some (vec ++ args)).
Proof.
  intros Hargs. revert vec fuel pre. induction Hargs as [|s args Hs _ IH]; intros vec fuel pre Hf Hpre;
    (destruct fuel as [|fuel]; [lia|]); cbn [splitargs_loop].
  { destruct Hpre as [-> | ->]; simpl; by rewrite app_nil_r. }
  set (rest := match args with [] => [] | _ => [32] ++ sdsjoinsds (sdscatrepr [] <$> args) [32] end).
  assert (sdsjoinsds (sdscatrepr [] <$> (s :: args)) [32] = sdscatrepr [] s ++ rest) as ->.
  { unfold rest. destruct args; [by rewrite app_nil_r|done]. }
  assert (skip_blanks (pre ++ sdscatrepr [] s ++ rest) = sdscatrepr [] s ++ rest) as ->
    by (by destruct Hpre as [-> | ->]).
  change (at_p (sdscatrepr [] s ++ rest) 0) with 34. change (34 =? 0) with false. cbv iota.
  rewrite get_token_repr; [|done|unfold rest; destruct args; auto]. cbn [mbind option_bind].
  simpl in Hf. assert (vec ++ s :: args = (vec ++ [s]) ++ args) as -> by (by rewrite <-(assoc_L (++))).
  unfold rest. destruct args as [|s2 args].
  - apply (IH (vec ++ [s]) fuel []); [simpl; lia|auto].
  - apply IH; [simpl in *; lia|auto].
Qed.

(** C20: the parser of inline commands and configuration lines terminates on every line,
    and inverts the quoted representation: the arguments printed by [sdscatrepr] and joined
    by spaces are read back unchanged by [sdssplitargs], whatever bytes they contain. *)
Theorem sdssplitargs_roundtrip (line : bytes) (args : list bytes) :
  (∃ r, sdssplitargs line = Some r) ∧
  (Forall (Forall is_byte) args →
   sdssplitargs (sdsjoinsds (sdscatrepr [] <$> args) [32]) = Some (Some args)).
Proof.
  split.
  - apply splitargs_loop_total. lia.
  - intros Hargs. unfold sdssplitargs.
    apply (splitargs_repr args [] _ []); [done| |auto].
    clear Hargs. induction args as [|s [|s2 args] IH]; [simpl; lia| |].
    + simpl. unfold sdscatrepr. rewrite !length_app. simpl. lia.
    + change (sdsjoinsds (sdscatrepr [] <$> (s :: s2 :: args)) [32])
        with (sdscatrepr [] s ++ [32] ++ sdsjoinsds (sdscatrepr [] <$> (s2 :: args)) [32]).
      rewrite !length_app. simpl in *. lia.
Qed.

(** ** Splitting and joining *)

Lemma sdsjoin_snoc toks t sep :
  toks ≠ [] → sdsjoinsds (toks ++ [t]) sep = sdsjoinsds toks sep ++ sep ++ t.
Proof.
  induction toks as [|a [|b toks] IH]; intros Hne; [done|done|].
  change (sdsjoinsds ((a :: b :: toks) ++ [t]) sep) with (a ++ sep ++ sdsjoinsds ((b :: toks) ++ [t]) sep).
  rewrite IH by done. simpl. by rewrite <-!(assoc_L (++)).
Qed.

(** The tokens so far and the separators after them are the part of the string before
    [start]. *)
Definition joined (acc : list bytes) (sep : bytes) : bytes := mjoin ((λ t, t ++ sep) <$> acc).

Lemma joined_last acc sep t : sdsjoinsds (acc ++ [t]) sep = joined acc sep ++ t.
Proof.
  induction acc as [|a acc IH]; [done|]. simpl app.
  destruct (acc ++ [t]) as [|b l] eqn:E; [by destruct acc|].
  change (sdsjoinsds (a :: b :: l) sep) with (a ++ sep ++ sdsjoinsds (b :: l) sep). rewrite IH.
  unfold joined. rewrite fmap_cons. simpl. by rewrite <-!(assoc_L (++)).
Qed.

Lemma joined_snoc acc sep t : joined (acc ++ [t]) sep = joined acc sep ++ t ++ sep.
Proof. unfold joined. rewrite fmap_app, join_app. simpl. by rewrite app_nil_r. Qed.

(** No occurrence of [sep] starts before the end of [t] in [t ++ c]. *)
Definition no_match (sep t c : bytes) : Prop :=
  ∀ i, (i < length t)%nat → take (length sep) (drop i (t ++ c)) ≠ sep.

(** The tokens of the leftmost decomposition: a separator ends a token at its first
    occurrence, and the last token has none. *)
Fixpoint leftmost (sep : bytes) (toks : list bytes) : Prop :=
  match toks with
  | [] => False
  | [t] => no_match sep t []
  | t :: toks => no_match sep t sep ∧ leftmost sep toks
  end.

Lemma leftmost_snoc sep acc t :
  Forall (λ u, no_match sep u sep) acc → no_match sep t [] → leftmost sep (acc ++ [t]).
Proof.
  intros Hacc Ht. induction Hacc as [|u acc Hu Hacc IH]; [done|].
  simpl app. destruct (acc ++ [t]) eqn:E; [by destruct acc|]. by split.
Qed.

Lemma no_match_app sep t c : no_match sep t (sep ++ c) ↔ no_match sep t sep.
Proof.
  unfold no_match. split; intros H i Hi; specialize (H i Hi); revert H;
    rewrite (assoc_L (++)), (drop_app_le (t ++ sep)), take_app_le by (rewrite ?length_drop, ?length_app; lia);
    done.
Qed.

Lemma no_match_short sep b c :
  no_match sep b c → (length c < length sep)%nat → no_match sep (b ++ c) [].
Proof.
  intros H Hc i Hi. rewrite app_nil_r. destruct (decide (i < length b)%nat) as [E|E]; [by apply H|].
  intros Heq. apply (f_equal length) in Heq. rewrite length_take, length_drop, length_app in Heq. lia.
Qed.

Lemma no_match_snoc sep b x c :
  no_match sep b (x :: c) → take (length sep) (x :: c) ≠ sep → no_match sep (b ++ [x]) c.
Proof.
  intros H Hx i Hi. rewrite <-(assoc_L (++)). simpl app at 2. rewrite length_app in Hi. simpl in Hi.
  destruct (decide (i < length b)%nat) as [E|E]; [by apply H|].
  assert (i = length b) as -> by lia. by rewrite drop_app_length.
Qed.

Lemma split_loop_spec fuel s sep a b c acc :
  sep ≠ [] → s = a ++ b ++ c → a = joined acc sep → (length c < fuel)%nat →
  Forall (λ u, no_match sep u sep) acc → no_match sep b c →
  ∃ toks a' b', split_loop fuel s sep (zlen a) (zlen a + zlen b) acc = Some (toks, zlen a') ∧
    s = a' ++ b' ∧ a' = joined toks sep ∧ leftmost sep (toks ++ [b']).
Proof.
  intros Hsep. revert a b c acc. induction fuel as [|fuel IH]; intros a b c acc Hs Ha Hf Hacc Hb; [lia|].
  assert (0 < zlen sep) as Hpos by (destruct sep; [done|simpl; lia]).
  assert (zlen s = zlen a + zlen b + zlen c) as Hlen by (rewrite Hs, !length_app; lia).
  cbn [split_loop]. destruct (Z.ltb_spec (zlen a + zlen b) (zlen s - (zlen sep - 1))) as [Hj|Hj].
  2:{ exists acc, a, (b ++ c). split_and!; try done.
      apply leftmost_snoc; [done|]. apply no_match_short; [done|lia]. }
  assert (length sep ≤ length c)%nat as Hsc by lia.
  assert (c = take (length sep) c ++ drop (length sep) c) as Hc by (by rewrite take_drop).
  set (w := take (length sep) c) in *. set (c' := drop (length sep) c) in *.
  assert (length w = length sep) as Hw by (unfold w; rewrite length_take; lia).
  assert (slice s (zlen a + zlen b) (zlen sep) = Some w) as Ew.
  { rewrite Hs, Hc, (assoc_L (++) a b). apply slice_app; rewrite ?length_app; lia. }
  assert (slice s (zlen a) (zlen a + zlen b - zlen a) = Some b) as Eb by (rewrite Hs; apply slice_app; lia).
  rewrite Ew. cbn [mbind option_bind]. destruct (decide (w = sep)) as [E|E].
  - rewrite Eb. cbn [mbind option_bind]. rewrite E in Hc.
    replace (zlen a + zlen b + zlen sep - 1 + 1) with (zlen (a ++ b ++ sep) + zlen (@nil Z)) by (rewrite !length_app; simpl; lia).
    replace (zlen a + zlen b + zlen sep) with (zlen (a ++ b ++ sep)) by (rewrite !length_app; lia).
    apply (IH (a ++ b ++ sep) [] c').
    + rewrite Hs, Hc. simpl. by rewrite <-!(assoc_L (++)).
    + by rewrite joined_snoc, Ha.
    + unfold c'. rewrite length_drop. lia.
    + apply Forall_app. split; [done|]. apply Forall_singleton.
      apply no_match_app with (c := c'). by rewrite <-Hc.
    + intros i Hi. simpl in Hi. lia.
  - destruct c as [|x c0]; [simpl in Hsc; lia|].
    replace (zlen a + zlen b + 1) with (zlen a + zlen (b ++ [x])) by (rewrite length_app; simpl; lia).
    apply (IH a (b ++ [x]) c0); [|done|simpl in Hf; lia|done|by apply no_match_snoc].
    rewrite Hs. by rewrite <-(assoc_L (++) b).
Qed.

Lemma sdssplitlen_spec s sep :
  sep ≠ [] → s ≠ [] →
  ∃ toks, sdssplitlen s sep = Some (Some toks) ∧ leftmost sep toks ∧ sdsjoinsds toks sep = s.
Proof.
  intros Hsep Hs. unfold sdssplitlen.
  assert (0 < zlen sep) by (destruct sep; [done|simpl; lia]).
  assert (0 < zlen s) by (destruct s; [done|simpl; lia]).
  rewrite (proj2 (Z.ltb_ge _ _)), (proj2 (Z.eqb_neq (zlen s) 0)) by lia.
  destruct (split_loop_spec (S (length s)) s sep [] [] s []) as (toks & a & b & E & Hab & Ha & Hl);
    [done|done|done|lia|done|intros i Hi; simpl in Hi; lia|].
  change (zlen (@nil Z) + zlen (@nil Z)) with 0 in E. change (zlen (@nil Z)) with 0 in E. rewrite E.
  assert (slice s (zlen a) (zlen s - zlen a) = Some b) as Eb.
  { rewrite Hab. rewrite <-(app_nil_r b) at 1. apply slice_app; rewrite ?length_app; lia. }
  cbn [mbind option_bind]. rewrite Eb. cbn [mbind option_bind].
  exists (toks ++ [b]). split_and!; [done|done|]. by rewrite joined_last, <-Ha.
Qed.

(** A separator after [t] that does not come after the end of [u] starts at its end. *)
Lemma no_match_here sep t u x y :
  no_match sep u y → u ++ y = t ++ sep ++ x → (length u ≤ length t)%nat.
Proof.
  intros H E. destruct (decide (length u ≤ length t)%nat) as [?|Hn]; [done|]. exfalso.
  apply (H (length t)); [lia|]. by rewrite E, drop_app_length, take_app_length.
Qed.

Lemma sdsjoin_cons2 t u l sep : sdsjoinsds (t :: u :: l) sep = t ++ sep ++ sdsjoinsds (u :: l) sep.
Proof. done. Qed.

Lemma leftmost_unique sep l l' :
  sep ≠ [] → leftmost sep l → leftmost sep l' → sdsjoinsds l sep = sdsjoinsds l' sep → l = l'.
Proof.
  intros Hsep. assert (0 < length sep)%nat by (destruct sep; [done|simpl; lia]).
  revert l'. induction l as [|t [|u l] IH]; intros [|t' [|u' l']] H1 H2 E; try done.
  - simpl in E. by subst.
  - rewrite sdsjoin_cons2 in E. simpl in E, H1. exfalso.
    pose proof (no_match_here sep t' t _ [] H1 ltac:(rewrite app_nil_r; exact E)) as Hl.
    apply (f_equal length) in E. rewrite !length_app in E. lia.
  - rewrite sdsjoin_cons2 in E. simpl in E, H2. exfalso.
    pose proof (no_match_here sep t t' _ [] H2 ltac:(rewrite app_nil_r; symmetry; exact E)) as Hl.
    apply (f_equal length) in E. rewrite !length_app in E. lia.
  - rewrite !sdsjoin_cons2 in E. destruct H1 as [H1 Hr1], H2 as [H2 Hr2].
    rewrite <-no_match_app in H1, H2.
    pose proof (no_match_here _ _ _ _ _ H1 E). pose proof (no_match_here _ _ _ _ _ H2 (eq_sym E)).
    apply app_inj_1 in E as [-> E]; [|lia]. apply app_inj_1 in E as [_ E]; [|done].
    f_equal. by apply IH.
Qed.

(** A token without the separator byte. *)
Lemma no_match_byte c t r : c ∉ t → no_match [c] t r.
Proof.
  intros Hc i Hi E. apply Hc. simpl in E.
  destruct (lookup_lt_is_Some_2 t i Hi) as [x Hx]. rewrite (drop_S _ x) in E by (by apply lookup_app_l_Some).
  simpl in E. injection E as ->. by eapply list_elem_of_lookup_2.
Qed.

(** [sdssplitlen] and [sdsjoinsds] are inverses.  For every non-empty string and
    separator the split terminates without reading outside the string, its tokens are
    those of the leftmost decomposition, and joining them gives the string back;
    conversely the tokens of a leftmost decomposition come back from the string they
    form, in particular any tokens that do not contain a separator of one byte. *)
Theorem sdssplitlen_join_inverse (sep : bytes) :
  sep ≠ [] →
  (∀ s, s ≠ [] → ∃ toks, sdssplitlen s sep = Some (Some toks) ∧ leftmost sep toks ∧ sdsjoinsds toks sep = s) ∧
  (∀ toks, sdsjoinsds toks sep ≠ [] → leftmost sep toks →
     sdssplitlen (sdsjoinsds toks sep) sep = Some (Some toks)) ∧
  (∀ c toks, sep = [c] → sdsjoinsds toks sep ≠ [] → Forall (λ t, c ∉ t) toks →
     sdssplitlen (sdsjoinsds toks sep) sep = Some (Some toks)).
Proof.
  intros Hsep.
  assert (∀ toks, sdsjoinsds toks sep ≠ [] → leftmost sep toks →
     sdssplitlen (sdsjoinsds toks sep) sep = Some (Some toks)) as Hinv.
  { intros toks Hne Hl. destruct (sdssplitlen_spec (sdsjoinsds toks sep) sep) as (toks' & -> & Hl' & E); [done..|].
    by rewrite (leftmost_unique _ _ _ Hsep Hl' Hl E). }
  split_and!; [by intros; apply sdssplitlen_spec|done|].
  intros c toks -> Hne Hall. apply Hinv; [done|].
  destruct toks as [|t toks] using rev_ind; [done|].
  apply Forall_app in Hall as [Hall Ht]. apply leftmost_snoc.
  - eapply Forall_impl; [exact Hall|]. intros u Hu. by apply no_match_byte.
  - apply no_match_byte. by inversion Ht.
Qed.

Lemma sdssplitlen_join_inverse_witness :
  sdsjoinsds [str "foo"; str "bar"; []] (str "_-_") = str "foo_-_bar_-_" ∧
  sdssplitlen (str "a,b,,c") (str ",") = Some (Some [str "a"; str "b"; []; str "c"]).
Proof.
  split; [reflexivity|].
  apply (proj2 (proj2 (sdssplitlen_join_inverse [44] ltac:(discriminate))) 44 [[97]; [98]; []; [99]]);
    [reflexivity|discriminate|].
  repeat constructor; intros Hin; apply list_elem_of_In in Hin; simpl in Hin; intuition discriminate.
Defined.

(** ** Decimal conversion *)

Lemma ll2str_digits_spec fuel v :
  0 ≤ v < 10 ^ Z.of_nat fuel → (0 < fuel)%nat →
  ∃ n, digit_count v n ∧ (n ≤ fuel)%nat ∧ ll2str_digits fuel v = Some (reverse (ndigits n v)).
Proof.
  revert v. induction fuel as [|fuel IH]; intros v Hv Hf; [lia|]. cbn [ll2str_digits].
  pose proof (Z.div_mod v 10 ltac:(lia)). pose proof (Z.mod_pos_bound v 10 ltac:(lia)).
  destruct (Z.eqb_spec (v / 10) 0) as [E|E].
  - exists 1%nat. split_and!; [split_and!; [lia|simpl; lia|by left]|lia|].
    cbn [ndigits app]. by rewrite reverse_singleton.
  - assert (0 ≤ v / 10) by (apply Z.div_pos; lia).
    rewrite Nat2Z.inj_succ, Z.pow_succ_r in Hv by lia.
    destruct fuel as [|fuel]; [simpl in Hv; lia|].
    destruct (IH (v / 10)) as (n & (Hn0 & Hn1 & Hn2) & Hn & ->); [lia|lia|].
    cbn [mbind option_bind]. exists (S n).
    assert (10 ^ Z.of_nat n ≤ v) as Hlow.
    { destruct Hn2 as [-> | Hn2]; [simpl; lia|].
      replace (Z.of_nat n) with (Z.succ (Z.of_nat n - 1)) by lia. rewrite Z.pow_succ_r by lia. lia. }
    split_and!; [split_and!|lia|].
    + lia.
    + rewrite Nat2Z.inj_succ, Z.pow_succ_r by lia. lia.
    + right. by replace (Z.of_nat (S n) - 1) with (Z.of_nat n) by lia.
    + cbn [ndigits]. by rewrite reverse_app, reverse_singleton.
Qed.

Lemma sdsll2str_spec v : in_s 64 v → ∃ s, sdsll2str v = Some s ∧ canonical s v ∧ zlen s ≤ 20.
Proof.
  intros Hv. unfold in_s in Hv. unfold sdsll2str. destruct (Z.ltb_spec v 0) as [Hneg|Hpos].
  - assert (u64 (wrap_s 64 (- v)) = - v) as ->.
    { destruct (decide (v = - 2 ^ 63)) as [-> |]; [reflexivity|].
      rewrite wrap_s_small by (unfold in_s; lia). unfold u64, wrap_u. apply Z.mod_small. lia. }
    destruct (ll2str_digits_spec 20 (- v)) as (n & Hc & Hn & ->); [simpl; lia|lia|].
    cbn [mbind option_bind]. eexists. split; [done|]. rewrite reverse_app, reverse_involutive, reverse_singleton.
    assert (n ≤ 19)%nat.
    { destruct Hc as (_ & _ & [-> |Hc]); [lia|]. destruct (decide (n = 20%nat)) as [-> |]; [simpl in Hc; lia|lia]. }
    split; [|simpl; rewrite ndigits_length; lia].
    unfold canonical. rewrite (proj2 (Z.ltb_lt _ _)) by lia. eexists. split; [done|].
    apply canonical_u_ndigits; [lia|done].
  - assert (u64 v = v) as -> by (unfold u64, wrap_u; apply Z.mod_small; lia).
    destruct (ll2str_digits_spec 20 v) as (n & Hc & Hn & ->); [simpl; lia|lia|].
    cbn [mbind option_bind]. eexists. split; [done|]. rewrite reverse_involutive.
    split; [|rewrite ndigits_length; lia].
    unfold canonical. rewrite (proj2 (Z.ltb_ge _ _)) by lia. apply canonical_u_ndigits; [lia|done].
Qed.

(** The buffer of 21 bytes of [sdsll2str] and [sdsull2str] is always large enough,
    and what they print is the canonical decimal notation of the value, the smallest
    integer included: [string2ll] reads it back. *)
Theorem sdsll2str_decimal :
  (∀ v, in_s 64 v → ∃ s, sdsll2str v = Some s ∧ canonical s v ∧ zlen s ≤ 20 ∧
     string2ll s (zlen s) = Some (Some v)) ∧
  (∀ v, in_u 64 v → ∃ s, sdsull2str v = Some s ∧ canonical_u s v ∧ zlen s ≤ 20).
Proof.
  split; intros v Hv.
  - destruct (sdsll2str_spec v Hv) as (s & Hs & Hc & Hl). exists s. split_and!; try done.
    destruct (string2ll_spec s) as (r & -> & Hr). f_equal. by apply Hr.
  - unfold in_u in Hv. unfold sdsull2str. destruct (ll2str_digits_spec 20 v) as (n & Hc & Hn & ->); [simpl; lia|lia|].
    cbn [mbind option_bind]. eexists. split; [done|]. rewrite reverse_involutive.
    split; [apply canonical_u_ndigits; [lia|done]|rewrite ndigits_length; lia].
Qed.

(** ** The order of strings *)

Fixpoint lex_lt (a b : bytes) : Prop :=
  match a, b with
  | _, [] => False
  | [], _ :: _ => True
  | x :: a, y :: b => x < y ∨ x = y ∧ lex_lt a b
  end.

Lemma sdscmp_cons x y a b : sdscmp (x :: a) (y :: b) = if x =? y then sdscmp a b else x - y.
Proof.
  unfold sdscmp.
  assert ((if zlen (x :: a) <? zlen (y :: b) then zlen (x :: a) else zlen (y :: b))
          = 1 + (if zlen a <? zlen b then zlen a else zlen b)) as ->.
  { cbn [length]. destruct (Z.ltb_spec (Z.of_nat (S (length a))) (Z.of_nat (S (length b)))),
      (Z.ltb_spec (zlen a) (zlen b)); lia. }
  set (n := if zlen a <? zlen b then _ else _).
  assert (0 ≤ n) by (unfold n; destruct (_ <? _); lia).
  replace (Z.to_nat (1 + n)) with (S (Z.to_nat n)) by lia. cbn [take memcmp].
  destruct (Z.eqb_spec x y) as [-> |Hne].
  - destruct (memcmp _ _ =? 0); [|done]. cbn [length].
    assert ((Z.of_nat (S (length b)) <? Z.of_nat (S (length a))) = (zlen b <? zlen a)) as ->
      by (destruct (Z.ltb_spec (Z.of_nat (S (length b))) (Z.of_nat (S (length a)))), (Z.ltb_spec (zlen b) (zlen a)); lia || done).
    assert ((Z.of_nat (S (length a)) <? Z.of_nat (S (length b))) = (zlen a <? zlen b)) as ->
      by (destruct (Z.ltb_spec (Z.of_nat (S (length a))) (Z.of_nat (S (length b)))), (Z.ltb_spec (zlen a) (zlen b)); lia || done).
    done.
  - by rewrite (proj2 (Z.eqb_neq (x - y) 0)) by lia.
Qed.

Lemma sdscmp_spec a b : (sdscmp a b < 0 ↔ lex_lt a b) ∧ (sdscmp a b = 0 ↔ a = b).
Proof.
  revert b. induction a as [|x a IH]; intros [|y b].
  - unfold sdscmp. simpl. split; split; (done || lia).
  - unfold sdscmp. cbn [length Z.of_nat lex_lt]. simpl. split; split; (done || lia).
  - unfold sdscmp. cbn [length Z.of_nat lex_lt]. simpl. split; split; (done || lia).
  - rewrite sdscmp_cons. cbn [lex_lt]. destruct (IH b) as [H1 H2].
    destruct (Z.eqb_spec x y) as [-> |Hne].
    + rewrite H1, H2. split; split; intros; [right; done|naive_solver lia|congruence|congruence].
    + split; split; intros; [left; lia|lia|lia|congruence].
Qed.

Lemma lex_lt_irrefl a : ¬ lex_lt a a.
Proof. induction a as [|x a IH]; cbn [lex_lt]; [by intros []|]. intros [?|[_ ?]]; [lia|done]. Qed.

Lemma lex_lt_trans a b c : lex_lt a b → lex_lt b c → lex_lt a c.
Proof.
  revert b c. induction a as [|x a IH]; intros [|y b] [|z c]; cbn [lex_lt]; try done.
  intros [?|[-> ?]] [?|[-> ?]]; [left; lia|left; lia|left; lia|right; split; [done|]; eauto].
Qed.

Lemma lex_lt_total a b : lex_lt a b ∨ a = b ∨ lex_lt b a.
Proof.
  revert b. induction a as [|x a IH]; intros [|y b]; cbn [lex_lt]; [by right; left|by left|by right; right|].
  destruct (Z.lt_trichotomy x y) as [?|[-> |?]]; [by left; left| |by right; right; left].
  destruct (IH b) as [?|[-> |?]]; [left; by right|by right; left|right; right; by right].
Qed.
