(* ===== verification/Resp.v ===== *)
(** The request parser of networking.c: [processInlineBuffer], [processMultibulkBuffer],
    [processInputBuffer], [processInputBufferAndReplicate] and [readQueryFromClient].

    The query buffer of a client is the bytes of its dynamic string (Sds.v shows that the
    string functions act on these bytes; the byte after them is the terminator, which is
    what stops [strchr]).  A failed assertion, a panic or a read outside the buffer is
    [None].  Replies other than protocol errors belong to the command executed and not to
    the parser; [processCommand] is a parameter. *)

From stdpp Require Import strings.
From S2P Require Import Prelude Util Sds SdsText.

Definition PROTO_IOBUF_LEN : Z := 1024 * 16.
Definition PROTO_INLINE_MAX_SIZE : Z := 1024 * 64.
Definition PROTO_MBULK_BIG_ARG : Z := 1024 * 32.
Definition PROTO_REQ_INLINE : Z := 1.
Definition PROTO_REQ_MULTIBULK : Z := 2.
Definition CLIENT_SLAVE : Z := Z.shiftl 1 0.
Definition CLIENT_MASTER : Z := Z.shiftl 1 1.
Definition CLIENT_MONITOR : Z := Z.shiftl 1 2.
Definition CLIENT_MULTI : Z := Z.shiftl 1 3.
Definition CLIENT_BLOCKED : Z := Z.shiftl 1 4.
Definition CLIENT_CLOSE_AFTER_REPLY : Z := Z.shiftl 1 6.
Definition CLIENT_ASKING : Z := Z.shiftl 1 9.
Definition CLIENT_CLOSE_ASAP : Z := Z.shiftl 1 10.
Definition CLIENT_REPLY_SKIP_NEXT : Z := Z.shiftl 1 23.
Definition CLIENT_REPLY_SKIP : Z := Z.shiftl 1 24.
Definition BLOCKED_MODULE : Z := 3.

(** ** Clients *)

(** The fields of [struct client] the parser uses.  [argc] is the length of [argv],
    [cmd_asking] tells whether [c->cmd->proc] is [askingCommand]; [errors] are the protocol
    errors sent and [forwarded] the bytes handed to the replicas of a master client. *)
Record client := Client {
  querybuf : bytes;
  qb_pos : Z;
  argv : list bytes;
  reqtype : Z;
  multibulklen : Z;
  bulklen : Z;
  flags : Z;
  btype : Z;
  cmd_asking : bool;
  errors : list bytes;
  reploff : Z;
  read_reploff : Z;
  pending_querybuf : bytes;
  repl_ack_time : Z;
  forwarded : bytes;
}.

(** [createClient]: the fields of a new connection. *)
Definition createClient : client :=
  Client [] 0 [] 0 0 (-1) 0 0 false [] 0 0 [] 0 [].

Definition set_input (c : client) (buf : bytes) (pos : Z) (args : list bytes) : client :=
  Client buf pos args (reqtype c) (multibulklen c) (bulklen c) (flags c) (btype c) (cmd_asking c)
    (errors c) (reploff c) (read_reploff c) (pending_querybuf c) (repl_ack_time c) (forwarded c).

Definition set_phase (c : client) (req mlen blen : Z) : client :=
  Client (querybuf c) (qb_pos c) (argv c) req mlen blen (flags c) (btype c) (cmd_asking c)
    (errors c) (reploff c) (read_reploff c) (pending_querybuf c) (repl_ack_time c) (forwarded c).

Definition set_flags (c : client) (f : Z) (asking : bool) : client :=
  Client (querybuf c) (qb_pos c) (argv c) (reqtype c) (multibulklen c) (bulklen c) f (btype c) asking
    (errors c) (reploff c) (read_reploff c) (pending_querybuf c) (repl_ack_time c) (forwarded c).

Definition set_errors (c : client) (es : list bytes) : client :=
  Client (querybuf c) (qb_pos c) (argv c) (reqtype c) (multibulklen c) (bulklen c) (flags c) (btype c)
    (cmd_asking c) es (reploff c) (read_reploff c) (pending_querybuf c) (repl_ack_time c) (forwarded c).

Definition set_repl (c : client) (off roff : Z) (pend : bytes) (ack : Z) (fwd : bytes) : client :=
  Client (querybuf c) (qb_pos c) (argv c) (reqtype c) (multibulklen c) (bulklen c) (flags c) (btype c)
    (cmd_asking c) (errors c) off roff pend ack fwd.

(** [c->flags & mask] as a condition. *)
Definition has (f mask : Z) : bool := negb (Z.land f mask =? 0).

(** The configuration and clock of the server. *)
Record server_env := Env {
  proto_max_bulk_len : Z;
  client_max_querybuf_len : Z;
  unixtime : Z;
  clientsArePaused : bool;
  lua_timedout : bool;
}.

(** ** Parsing *)

(** [strchr] on a terminated string: the offset of the first [ch], searched up to the
    first zero byte. *)
Fixpoint strchr (s : bytes) (ch : Z) : option Z :=
  match s with
  | [] => None
  | x :: s => if x =? ch then Some 0 else if x =? 0 then None else Z.succ <$> strchr s ch
  end.

Definition unread (c : client) : bytes := drop (Z.to_nat (qb_pos c)) (querybuf c).

Definition addReplyError (c : client) (err : bytes) : client := set_errors c (errors c ++ [err]).

(** [setProtocolError], without the log entry. *)
Definition setProtocolError (c : client) : client :=
  set_flags c (Z.lor (flags c) CLIENT_CLOSE_AFTER_REPLY) (cmd_asking c).

Definition protocol_error (c : client) (err : bytes) : client :=
  setProtocolError (addReplyError c err).

(** [getClientType(c) == CLIENT_TYPE_SLAVE]. *)
Definition is_slave_type (c : client) : bool :=
  negb (has (flags c) CLIENT_MASTER) &&
  (has (flags c) CLIENT_SLAVE && negb (has (flags c) CLIENT_MONITOR)).

(** [processInlineBuffer]; the boolean is [C_OK]. *)
Definition processInlineBuffer (env : server_env) (c : client) : option (client * bool) :=
  match strchr (unread c) 10 with
  | None =>
      if PROTO_INLINE_MAX_SIZE <? zlen (querybuf c) - qb_pos c
      then Some (protocol_error c (str "Protocol error: too big inline request"), false)
      else Some (c, false)
  | Some newline =>
      cr ← (if newline =? 0 then Some false
            else x ← peek (querybuf c) (qb_pos c + newline - 1); Some (x =? 13));
      let '(querylen, linefeed_chars) := if (cr : bool) then (newline - 1, 2) else (newline, 1) in
      aux ← slice (querybuf c) (qb_pos c) querylen;
      args ← sdssplitargs aux;
      match args with
      | None => Some (protocol_error c (str "Protocol error: unbalanced quotes in request"), false)
      | Some args =>
          let c :=
            if (querylen =? 0) && is_slave_type c
            then set_repl c (reploff c) (read_reploff c) (pending_querybuf c) (unixtime env) (forwarded c)
            else c in
          Some (set_input c (querybuf c) (qb_pos c + (querylen + linefeed_chars)) args, true)
      end
  end.

(** The bulk length of [processMultibulkBuffer]; the boolean is false when the loop is left. *)
Definition read_bulklen (env : server_env) (c : client) : option (client * bool) :=
  match strchr (unread c) 13 with
  | None =>
      if PROTO_INLINE_MAX_SIZE <? zlen (querybuf c) - qb_pos c
      then Some (protocol_error c (str "Protocol error: too big bulk count string"), false)
      else Some (c, false)
  | Some newline =>
      if zlen (querybuf c) - qb_pos c - 2 <? newline then Some (c, false)
      else
        x ← peek (querybuf c) (qb_pos c);
        if negb (x =? 36)
        then Some (protocol_error c (str "Protocol error: expected '$', got '" ++ [x] ++ str "'"), false)
        else
          digits ← slice (querybuf c) (qb_pos c + 1) (newline - 1);
          ll ← string2ll digits (newline - 1);
          match ll with
          | Some ll =>
              if (ll <? 0) || (proto_max_bulk_len env <? ll)
              then Some (protocol_error c (str "Protocol error: invalid bulk length"), false)
              else
                let c := set_input c (querybuf c) (qb_pos c + newline + 2) (argv c) in
                let c :=
                  if (PROTO_MBULK_BIG_ARG <=? ll) && (zlen (querybuf c) - qb_pos c <=? ll + 2)
                  then set_input c (str_range (querybuf c) (qb_pos c) (-1)) 0 (argv c)
                  else c in
                Some (set_phase c (reqtype c) (multibulklen c) ll, true)
          | None => Some (protocol_error c (str "Protocol error: invalid bulk length"), false)
          end
  end.

(** The bulk argument: the whole buffer becomes the argument when it holds nothing else. *)
Definition read_bulk (c : client) : option client :=
  c ← (if (qb_pos c =? 0) && (PROTO_MBULK_BIG_ARG <=? bulklen c)
          && (zlen (querybuf c) =? bulklen c + 2)
       then a ← slice (querybuf c) 0 (bulklen c);
            Some (set_input c [] (qb_pos c) (argv c ++ [a]))
       else a ← slice (querybuf c) (qb_pos c) (bulklen c);
            Some (set_input c (querybuf c) (qb_pos c + (bulklen c + 2)) (argv c ++ [a])));
  Some (set_phase c (reqtype c) (multibulklen c - 1) (-1)).

Fixpoint multibulk_loop (fuel : nat) (env : server_env) (c : client) : option (client * bool) :=
  match fuel with
  | O => None
  | S fuel =>
      if multibulklen c =? 0 then Some (c, true)
      else
        '(c, go) ← (if bulklen c =? -1 then read_bulklen env c else Some (c, true));
        if negb go then Some (c, false)
        else if zlen (querybuf c) - qb_pos c <? bulklen c + 2 then Some (c, false)
        else c ← read_bulk c; multibulk_loop fuel env c
  end.

Inductive header := HdrStop (c : client) | HdrEmpty (c : client) | HdrArgs (c : client).

(** The part of [processMultibulkBuffer] that reads the number of arguments. *)
Definition read_header (c : client) : option header :=
  if bool_decide (argv c ≠ []) then None
  else
    match strchr (unread c) 13 with
    | None =>
        if PROTO_INLINE_MAX_SIZE <? zlen (querybuf c) - qb_pos c
        then Some (HdrStop (protocol_error c (str "Protocol error: too big mbulk count string")))
        else Some (HdrStop c)
    | Some newline =>
        if zlen (querybuf c) - qb_pos c - 2 <? newline then Some (HdrStop c)
        else
          x ← peek (querybuf c) (qb_pos c);
          if negb (x =? 42) then None
          else
            digits ← slice (querybuf c) (qb_pos c + 1) (newline - 1);
            ll ← string2ll digits (newline - 1);
            match ll with
            | Some ll =>
                if 1024 * 1024 <? ll
                then Some (HdrStop (protocol_error c (str "Protocol error: invalid multibulk length")))
                else
                  let c := set_input c (querybuf c) (qb_pos c + newline + 2) (argv c) in
                  if ll <=? 0 then Some (HdrEmpty c)
                  else Some (HdrArgs (set_phase c (reqtype c) ll (bulklen c)))
            | None => Some (HdrStop (protocol_error c (str "Protocol error: invalid multibulk length")))
            end
    end.

Definition processMultibulkBuffer (env : server_env) (c : client) : option (client * bool) :=
  h ← (if multibulklen c =? 0 then read_header c else Some (HdrArgs c));
  match h with
  | HdrStop c => Some (c, false)
  | HdrEmpty c => Some (c, true)
  | HdrArgs c =>
      if 0 <? multibulklen c then multibulk_loop (S (Z.to_nat (multibulklen c))) env c else None
  end.

(** [resetClient] *)
Definition resetClient (c : client) : client :=
  let prev_asking := cmd_asking c in
  let c := set_phase (set_input c (querybuf c) (qb_pos c) []) 0 0 (-1) in
  let f := flags c in
  let f := if negb (has f CLIENT_MULTI) && negb prev_asking then Z.ldiff f CLIENT_ASKING else f in
  let f := Z.ldiff f CLIENT_REPLY_SKIP in
  let f := if has f CLIENT_REPLY_SKIP_NEXT
           then Z.ldiff (Z.lor f CLIENT_REPLY_SKIP) CLIENT_REPLY_SKIP_NEXT else f in
  set_flags c f false.

Section Server.

(** The rest of the server: its state, the configuration it holds, and the execution of
    the command of a client, which returns whether it returned [C_OK] and whether
    [server.current_client] is still set. *)
Context {St : Type} (env_of : St → server_env).
Context (processCommand : St → client → St * client * bool * bool).

(** The end of an iteration of [processInputBuffer], from a complete request on; the
    boolean is false when the loop is left because the client was freed. *)
Definition run_command (st : St) (c : client) : St * client * bool :=
  if bool_decide (argv c = []) then (st, resetClient c, true)
  else
    let '(st, c, ok, alive) := processCommand st c in
    let c :=
      if (ok : bool) then
        let c :=
          if has (flags c) CLIENT_MASTER && negb (has (flags c) CLIENT_MULTI)
          then set_repl c (read_reploff c - zlen (querybuf c) + qb_pos c) (read_reploff c)
                 (pending_querybuf c) (repl_ack_time c) (forwarded c)
          else c in
        if negb (has (flags c) CLIENT_BLOCKED) || negb (btype c =? BLOCKED_MODULE)
        then resetClient c else c
      else c in
    (st, c, alive).

(** The conditions under which [processInputBuffer] leaves the input alone. *)
Definition must_wait (st : St) (c : client) : bool :=
  (negb (has (flags c) CLIENT_SLAVE) && clientsArePaused (env_of st))
  || has (flags c) CLIENT_BLOCKED
  || (lua_timedout (env_of st) && has (flags c) CLIENT_MASTER)
  || has (flags c) (Z.lor CLIENT_CLOSE_AFTER_REPLY CLIENT_CLOSE_ASAP).

(** The request type is decided by the first byte when it is not known. *)
Definition request_type (c : client) : option client :=
  if reqtype c =? 0 then
    x ← peek (querybuf c) (qb_pos c);
    Some (set_phase c (if x =? 42 then PROTO_REQ_MULTIBULK else PROTO_REQ_INLINE)
            (multibulklen c) (bulklen c))
  else Some c.

Fixpoint input_loop (fuel : nat) (st : St) (c : client) : option (St * client * bool) :=
  match fuel with
  | O => None
  | S fuel =>
      if negb (qb_pos c <? zlen (querybuf c)) || must_wait st c then Some (st, c, true)
      else
        c ← request_type c;
        '(c, ok) ← (if reqtype c =? PROTO_REQ_INLINE then processInlineBuffer (env_of st) c
                    else if reqtype c =? PROTO_REQ_MULTIBULK then processMultibulkBuffer (env_of st) c
                    else None);
        if negb ok then Some (st, c, true)
        else
          let '(st, c, alive) := run_command st c in
          if negb alive then Some (st, c, false) else input_loop fuel st c
  end.

(** [processInputBuffer]; the boolean tells whether the client still exists. *)
Definition processInputBuffer (st : St) (c : client) : option (St * client * bool) :=
  '(st, c, alive) ← input_loop (S (length (querybuf c))) st c;
  let c :=
    if (alive : bool) && negb (qb_pos c =? 0)
    then set_input c (str_range (querybuf c) (qb_pos c) (-1)) 0 (argv c) else c in
  Some (st, c, alive).

Definition processInputBufferAndReplicate (st : St) (c : client) : option (St * client * bool) :=
  if negb (has (flags c) CLIENT_MASTER) then processInputBuffer st c
  else
    let prev_offset := reploff c in
    '(st, c, alive) ← processInputBuffer st c;
    let applied := reploff c - prev_offset in
    if applied =? 0 then Some (st, c, alive)
    else
      piece ← slice (pending_querybuf c) 0 applied;
      Some (st, set_repl c (reploff c) (read_reploff c) (str_range (pending_querybuf c) applied (-1))
                  (repl_ack_time c) (forwarded c ++ piece), alive).

(** The size of the next [read]. *)
Definition readlen (c : client) : Z :=
  if (reqtype c =? PROTO_REQ_MULTIBULK) && negb (multibulklen c =? 0) && negb (bulklen c =? -1)
     && (PROTO_MBULK_BIG_ARG <=? bulklen c)
  then
    let remaining := bulklen c + 2 - zlen (querybuf c) in
    if (0 <? remaining) && (remaining <? PROTO_IOBUF_LEN) then remaining else PROTO_IOBUF_LEN
  else PROTO_IOBUF_LEN.

(** [readQueryFromClient] when [read] returns [data]; a client over the limit of the query
    buffer is freed, as one whose connection is closed ([data = []]). *)
Definition readQueryFromClient (st : St) (c : client) (data : bytes) : option (St * client * bool) :=
  if bool_decide (data = []) then Some (st, c, false)
  else
    let master := has (flags c) CLIENT_MASTER in
    let c :=
      set_repl c (reploff c) (if master then read_reploff c + zlen data else read_reploff c)
        (if master then pending_querybuf c ++ data else pending_querybuf c)
        (repl_ack_time c) (forwarded c) in
    let c := set_input c (querybuf c ++ data) (qb_pos c) (argv c) in
    if client_max_querybuf_len (env_of st) <? zlen (querybuf c) then Some (st, c, false)
    else processInputBufferAndReplicate st c.

(** The reads of a connection, up to the one that frees the client. *)
Fixpoint read_all (st : St) (c : client) (chunks : list bytes) : option (St * client * bool) :=
  match chunks with
  | [] => Some (st, c, true)
  | data :: chunks =>
      '(st, c, alive) ← readQueryFromClient st c data;
      if (alive : bool) then read_all st c chunks else Some (st, c, false)
  end.

End Server.

(** ** The encoding of commands in the append only file and in the replication stream *)

(** The lines of [catAppendOnlyGenericCommand]: a type byte, a decimal length and the line
    end, composed in a buffer (of 32 bytes) and appended to [dst]. *)
Definition cat_length_line (dst buf : bytes) (type n : Z) : option (bytes * bytes) :=
  buf ← poke buf 0 type;
  '(digits, k) ← ll2string (drop 1 buf) (zlen buf - 1) n;
  let buf := take 1 buf ++ digits in
  let len := 1 + k in
  buf ← poke buf len 13;
  buf ← poke buf (len + 1) 10;
  line ← slice buf 0 (len + 2);
  Some (dst ++ line, buf).

Fixpoint cat_bulks (dst buf : bytes) (argv : list bytes) : option bytes :=
  match argv with
  | [] => Some dst
  | o :: argv =>
      '(dst, buf) ← cat_length_line dst buf 36 (zlen o);
      cat_bulks ((dst ++ o) ++ [13; 10]) buf argv
  end.

(** [buf] is the content of the local array on entry. *)
Definition catAppendOnlyGenericCommand (buf dst : bytes) (argv : list bytes) : option bytes :=
  '(dst, buf) ← cat_length_line dst buf 42 (zlen argv);
  cat_bulks dst buf argv.

(** The stream of a list of commands. *)
Fixpoint command_stream (buf dst : bytes) (cmds : list (list bytes)) : option bytes :=
  match cmds with
  | [] => Some dst
  | cmd :: cmds => dst ← catAppendOnlyGenericCommand buf dst cmd; command_stream buf dst cmds
  end.

(** The same encodings, without the buffers. *)
Definition decimal (n : Z) : bytes := default [] (sdsull2str n).
Definition enc_line (type n : Z) : bytes := type :: decimal n ++ [13; 10].
Definition enc_bulk (a : bytes) : bytes := enc_line 36 (zlen a) ++ a ++ [13; 10].
Definition enc_bulks (l : list bytes) : bytes := mjoin (enc_bulk <$> l).
Definition enc_cmd (cmd : list bytes) : bytes := enc_line 42 (zlen cmd) ++ enc_bulks cmd.
Definition enc_cmds (cmds : list (list bytes)) : bytes := mjoin (enc_cmd <$> cmds).

(** What a command must satisfy to be accepted: at least one argument, and the limits of
    the protocol. *)
Definition cmd_ok (maxbulk : Z) (cmd : list bytes) : Prop :=
  0 < zlen cmd ≤ 1024 * 1024 ∧ Forall (λ a, zlen a ≤ maxbulk ∧ zlen a < 2 ^ 63) cmd.

Lemma decimal_canonical n : in_u 64 n → canonical_u (decimal n) n ∧ zlen (decimal n) ≤ 20.
Proof.
  intros Hn. unfold decimal, sdsull2str. unfold in_u in Hn.
  destruct (ll2str_digits_spec 20 n) as (k & Hc & Hk & ->); [simpl; lia|lia|].
  cbn [mbind option_bind from_option id]. rewrite reverse_involutive, ndigits_length.
  split; [apply canonical_u_ndigits; [lia|done]|unfold id; lia].
Qed.

Lemma decimal_unique s n : in_u 64 n → canonical_u s n → s = decimal n.
Proof.
  intros Hn Hs. destruct (decimal_canonical n Hn) as [Hd _]. unfold in_u in Hn.
  pose proof (canonical_u_count _ _ Hd) as Hc.
  rewrite (canonical_u_unique s n _ ltac:(lia) Hc Hs).
  by rewrite <-(canonical_u_unique (decimal n) n _ ltac:(lia) Hc Hd).
Qed.

Lemma decimal_string2ll n :
  0 ≤ n < 2 ^ 63 → string2ll (decimal n) (zlen (decimal n)) = Some (Some n).
Proof.
  intros Hn. destruct (decimal_canonical n) as [Hd _]; [unfold in_u; lia|].
  destruct (string2ll_spec (decimal n)) as (r & -> & Hr). f_equal. apply Hr.
  split; [|unfold in_s; lia]. unfold canonical. by rewrite (proj2 (Z.ltb_ge _ _)) by lia.
Qed.

Lemma cat_length_line_spec dst buf type n :
  (24 ≤ length buf)%nat → 0 ≤ n < 2 ^ 63 →
  ∃ buf', length buf' = length buf ∧ cat_length_line dst buf type n = Some (dst ++ enc_line type n, buf').
Proof.
  intros Hb Hn. unfold cat_length_line. destruct buf as [|b0 buf]; [cbn in Hb; lia|]. cbn [length] in *.
  rewrite poke_head. cbn [mbind option_bind]. rewrite skipn_cons, drop_0.
  destruct (ll2string_spec buf (zlen (type :: buf) - 1) n) as (s & Hs & Hl & ->); [unfold in_s; lia|cbn [length]; lia|].
  unfold canonical in Hs. rewrite (proj2 (Z.ltb_ge _ _)) in Hs by lia.
  apply decimal_unique in Hs; [|unfold in_u; lia]. subst s. set (d := decimal n) in *.
  rewrite (proj2 (Z.leb_gt _ _)) by (cbn [length]; lia). cbn [mbind option_bind].
  assert (∃ x t, drop (S (length d)) buf = x :: t) as (x & t & Ht).
  { destruct (drop (S (length d)) buf) eqn:E; [|eauto].
    apply (f_equal length) in E. rewrite length_drop in E. simpl in E. lia. }
  rewrite Ht. simpl take. rewrite take_0. simpl app.
  change (type :: d ++ 0 :: x :: t) with ((type :: d) ++ 0 :: x :: t).
  rewrite poke_app by (simpl; lia). cbn [mbind option_bind].
  replace ((type :: d) ++ 13 :: x :: t) with (((type :: d) ++ [13]) ++ x :: t) by (by rewrite <-(assoc_L (++))).
  rewrite poke_app by (rewrite length_app; simpl; lia). cbn [mbind option_bind].
  replace (((type :: d) ++ [13]) ++ 10 :: t) with ([] ++ enc_line type n ++ t)
    by (unfold enc_line, d; simpl; by rewrite <-!(assoc_L (++))).
  rewrite slice_app; [|done|unfold enc_line, d; cbn [length]; rewrite length_app; cbn [length]; lia].
  cbn [mbind option_bind]. eexists. split; [|done]. simpl. unfold enc_line. cbn [length].
  apply (f_equal length) in Ht. rewrite length_drop in Ht. simpl in Ht.
  rewrite !length_app. fold d. cbn [length]. lia.
Qed.

Lemma cat_bulks_spec argv : ∀ dst buf,
  (24 ≤ length buf)%nat → Forall (λ a, zlen a < 2 ^ 63) argv →
  cat_bulks dst buf argv = Some (dst ++ enc_bulks argv).
Proof.
  induction argv as [|o argv IH]; intros dst buf Hb Hall; [unfold enc_bulks; simpl; by rewrite app_nil_r|].
  apply Forall_cons in Hall as [Ho Hall]. cbv beta in Ho. cbn [cat_bulks].
  destruct (cat_length_line_spec dst buf 36 (zlen o)) as (buf' & Hb' & ->); [done|lia|].
  cbn [mbind option_bind]. rewrite IH by (done || lia). f_equal.
  unfold enc_bulks. rewrite fmap_cons. cbn [mjoin list_join]. unfold enc_bulk. by rewrite <-!(assoc_L (++)).
Qed.

Lemma command_stream_spec maxbulk cmds : ∀ buf dst,
  length buf = 32%nat → Forall (cmd_ok maxbulk) cmds →
  command_stream buf dst cmds = Some (dst ++ enc_cmds cmds).
Proof.
  induction cmds as [|cmd cmds IH]; intros buf dst Hb Hall; [unfold enc_cmds; simpl; by rewrite app_nil_r|].
  apply Forall_cons in Hall as [[Hc Ha] Hall]. cbn [command_stream]. unfold catAppendOnlyGenericCommand.
  destruct (cat_length_line_spec dst buf 42 (zlen cmd)) as (buf' & Hb' & ->); [lia|lia|].
  cbn [mbind option_bind]. rewrite cat_bulks_spec; [|lia|eapply Forall_impl; [exact Ha|naive_solver]].
  cbn [mbind option_bind]. rewrite IH by done. f_equal.
  unfold enc_cmds. rewrite fmap_cons. cbn [mjoin list_join]. unfold enc_cmd. by rewrite <-!(assoc_L (++)).
Qed.

(** ** The unread part of the buffer *)

Definition inb (c : client) : Prop := 0 ≤ qb_pos c ≤ zlen (querybuf c).

(** Everything but the buffer, the arguments and the two counters. *)
Definition kept (c : client) :=
  (reqtype c, flags c, btype c, cmd_asking c, errors c,
   (reploff c, read_reploff c, pending_querybuf c, repl_ack_time c, forwarded c)).

Lemma unread_length c : inb c → zlen (querybuf c) - qb_pos c = zlen (unread c).
Proof. unfold inb, unread. intros H. rewrite length_drop. lia. Qed.

Lemma querybuf_split c : inb c → querybuf c = take (Z.to_nat (qb_pos c)) (querybuf c) ++ unread c.
Proof. intros _. unfold unread. by rewrite take_drop. Qed.

Lemma slice_shift (p u : bytes) i n : 0 ≤ i → slice (p ++ u) (zlen p + i) n = slice u i n.
Proof.
  intros Hi. unfold slice. rewrite length_app.
  destruct (decide (0 ≤ i ∧ 0 ≤ n ∧ i + n ≤ zlen u)) as [H|H].
  - rewrite decide_True by lia. f_equal. f_equal.
    replace (Z.to_nat (zlen p + i)) with (length p + Z.to_nat i)%nat by lia.
    rewrite drop_app_ge by lia. f_equal. lia.
  - by rewrite decide_False by lia.
Qed.

Lemma slice_unread c i n : inb c → 0 ≤ i → slice (querybuf c) (qb_pos c + i) n = slice (unread c) i n.
Proof.
  intros Hc Hi. rewrite (querybuf_split c Hc) at 1.
  replace (qb_pos c) with (zlen (take (Z.to_nat (qb_pos c)) (querybuf c))) at 2
    by (unfold inb in Hc; rewrite length_take; lia).
  by apply slice_shift.
Qed.

Lemma peek_unread c i : inb c → 0 ≤ i → peek (querybuf c) (qb_pos c + i) = peek (unread c) i.
Proof.
  unfold inb, peek, unread. intros Hc Hi. destruct (decide (0 ≤ qb_pos c + i)); [|lia].
  destruct (decide (0 ≤ i)); [|lia]. rewrite lookup_drop. f_equal. lia.
Qed.

Lemma str_range_rest v pos : 0 ≤ pos ≤ zlen v → str_range v pos (-1) = drop (Z.to_nat pos) v.
Proof.
  intros Hp. unfold str_range. rewrite (proj2 (Z.ltb_ge pos 0)) by lia. simpl.
  apply take_ge. rewrite length_drop. lia.
Qed.

Lemma unread_set_input c buf pos args : unread (set_input c buf pos args) = drop (Z.to_nat pos) buf.
Proof. done. Qed.

(** ** Lines *)

Lemma strchr_hit (s t : bytes) ch :
  ch ∉ s → 0 ∉ s → ch ≠ 0 → strchr (s ++ ch :: t) ch = Some (zlen s).
Proof.
  intros Hs H0 Hc. induction s as [|x s IH]; simpl; [by rewrite Z.eqb_refl|].
  apply not_elem_of_cons in Hs as [Hx Hs], H0 as [Hx0 H0].
  rewrite (proj2 (Z.eqb_neq x ch)), (proj2 (Z.eqb_neq x 0)), IH by done. simpl. f_equal. lia.
Qed.

Lemma strchr_miss (s : bytes) ch : ch ∉ s → strchr s ch = None.
Proof.
  induction s as [|x s IH]; intros Hs; simpl; [done|].
  apply not_elem_of_cons in Hs as [Hx Hs]. rewrite (proj2 (Z.eqb_neq x ch)), IH by done.
  by destruct (x =? 0).
Qed.

Lemma strchr_Some (s : bytes) ch n : strchr s ch = Some n → 0 ≤ n < zlen s ∧ peek s n = Some ch.
Proof.
  revert n. induction s as [|x s IH]; intros n H; simpl in H; [done|].
  destruct (Z.eqb_spec x ch) as [-> |Hx]; [injection H as <-; split; [simpl; lia|done]|].
  destruct (x =? 0); [done|]. destruct (strchr s ch) as [m|]; [|done]. injection H as <-.
  destruct (IH m eq_refl) as [Hm Hp]. split; [simpl; lia|].
  unfold peek in *. destruct (decide (0 ≤ m)); [|lia]. destruct (decide (0 ≤ Z.succ m)); [|lia].
  by rewrite Z2Nat.inj_succ.
Qed.

Lemma decimal_no_special n x : in_u 64 n → x ∈ decimal n → 48 ≤ x ≤ 57.
Proof.
  intros Hn Hx. destruct (decimal_canonical n Hn) as [(_ & Hd & _) _].
  rewrite Forall_forall in Hd. specialize (Hd x Hx). unfold is_digit in Hd. lia.
Qed.

(** A buffer that starts with a whole line. *)
Lemma strchr_line type n rest :
  in_u 64 n → type ≠ 0 → type ≠ 13 →
  strchr (enc_line type n ++ rest) 13 = Some (1 + zlen (decimal n)).
Proof.
  intros Hn H0 H13. unfold enc_line.
  replace ((type :: decimal n ++ [13; 10]) ++ rest) with ((type :: decimal n) ++ 13 :: 10 :: rest)
    by (simpl; by rewrite <-(assoc_L (++))).
  rewrite strchr_hit; [f_equal; simpl; lia| | |done];
    rewrite not_elem_of_cons; (split; [done|]); intros Hx; apply decimal_no_special in Hx; try done; lia.
Qed.

(** A buffer that ends inside a line: the line end is not there, or only its first byte. *)
Lemma strchr_partial type n u v :
  in_u 64 n → type ≠ 0 → type ≠ 13 → u ++ v = enc_line type n → v ≠ [] →
  zlen u ≤ 22 ∧ (strchr u 13 = None ∨ ∃ k, strchr u 13 = Some k ∧ zlen u - 2 < k).
Proof.
  intros Hn H0 H13 Huv Hv. destruct (decimal_canonical n Hn) as [_ Hlen].
  assert (zlen u + zlen v = 3 + zlen (decimal n)) as Hl.
  { apply (f_equal length) in Huv. unfold enc_line in Huv. cbn [length] in Huv.
    rewrite !length_app in Huv. cbn [length] in Huv. lia. }
  assert (0 < zlen v) by (destruct v; [done|simpl; lia]). split; [lia|].
  destruct (strchr u 13) as [k|] eqn:E; [right|by left]. exists k. split; [done|].
  apply strchr_Some in E as [Hk Hp].
  assert (k = 1 + zlen (decimal n)) as ->; [|lia].
  pose proof (strchr_line type n [] Hn H0 H13) as Hs. rewrite app_nil_r in Hs. apply strchr_Some in Hs as [_ Hs].
  destruct (decide (k < 1 + zlen (decimal n))) as [Hlt|]; [|lia]. exfalso.
  assert (13 ∈ type :: decimal n) as Hin.
  { apply list_elem_of_lookup. exists (Z.to_nat k). rewrite <-(lookup_app_l _ [13; 10]) by (simpl; lia).
    change ((type :: decimal n) ++ [13; 10]) with (enc_line type n). rewrite <-Huv, lookup_app_l by lia.
    unfold peek in Hp. destruct (decide (0 ≤ k)); [done|lia]. }
  apply elem_of_cons in Hin as [?|Hin]; [done|]. apply decimal_no_special in Hin; [lia|done].
Qed.

Lemma enc_line_length type n : zlen (enc_line type n) = 3 + zlen (decimal n).
Proof. unfold enc_line. cbn [length]. rewrite length_app. cbn [length]. lia. Qed.

(** The reads of a line whose bytes are in the buffer. *)
Lemma line_reads c type n rest :
  inb c → 0 ≤ n < 2 ^ 63 → type ≠ 0 → type ≠ 13 → unread c = enc_line type n ++ rest →
  strchr (unread c) 13 = Some (1 + zlen (decimal n)) ∧
  zlen (querybuf c) - qb_pos c = 3 + zlen (decimal n) + zlen rest ∧
  peek (querybuf c) (qb_pos c) = Some type ∧
  slice (querybuf c) (qb_pos c + 1) (1 + zlen (decimal n) - 1) = Some (decimal n) ∧
  string2ll (decimal n) (1 + zlen (decimal n) - 1) = Some (Some n).
Proof.
  intros Hc Hn H0 H13 Hu. split_and!.
  - rewrite Hu. apply strchr_line; [unfold in_u; lia|done|done].
  - rewrite unread_length, Hu, length_app by done. pose proof (enc_line_length type n). lia.
  - rewrite <-(Z.add_0_r (qb_pos c)), peek_unread, Hu by (done || lia). done.
  - rewrite slice_unread, Hu by (done || lia).
    replace (enc_line type n ++ rest) with ([type] ++ decimal n ++ [13; 10] ++ rest)
      by (unfold enc_line; simpl; by rewrite <-(assoc_L (++))).
    apply slice_app; [done|lia].
  - replace (1 + zlen (decimal n) - 1) with (zlen (decimal n)) by lia. by apply decimal_string2ll.
Qed.

Lemma drop_line (c : client) n k rest :
  inb c → n = zlen k → unread c = k ++ rest → drop (Z.to_nat (qb_pos c + n)) (querybuf c) = rest ∧
  0 ≤ qb_pos c + n ≤ zlen (querybuf c).
Proof.
  intros Hc -> Hu. pose proof (unread_length c Hc) as Hl. rewrite Hu, length_app in Hl. unfold inb in Hc.
  split; [|lia]. replace (Z.to_nat (qb_pos c + zlen k)) with (Z.to_nat (qb_pos c) + length k)%nat by lia.
  rewrite <-drop_drop. fold (unread c). by rewrite Hu, drop_app_length.
Qed.

Lemma read_bulklen_ok env c n rest :
  inb c → 0 ≤ n < 2 ^ 63 → n ≤ proto_max_bulk_len env → unread c = enc_line 36 n ++ rest →
  ∃ c', read_bulklen env c = Some (c', true) ∧ inb c' ∧ unread c' = rest ∧ bulklen c' = n ∧
    multibulklen c' = multibulklen c ∧ argv c' = argv c ∧ kept c' = kept c.
Proof.
  intros Hc Hn Hmax Hu.
  destruct (line_reads c 36 n rest) as (E1 & E2 & E3 & E4 & E5); [done..|].
  destruct (drop_line c (1 + zlen (decimal n) + 2) (enc_line 36 n) rest) as [Hd Hin];
    [done|pose proof (enc_line_length 36 n); lia|done|]. rewrite Z.add_assoc in Hd, Hin.
  unfold read_bulklen. rewrite E1, E2. rewrite (proj2 (Z.ltb_ge _ _)) by lia. rewrite E3.
  cbn [mbind option_bind]. rewrite Z.eqb_refl. cbn [negb]. rewrite E4. cbn [mbind option_bind]. rewrite E5.
  cbn [mbind option_bind]. rewrite (proj2 (Z.ltb_ge n 0)), (proj2 (Z.ltb_ge _ n)) by lia. cbn [orb].
  cbv zeta. eexists. split; [done|]. cbn [querybuf qb_pos argv set_input].
  destruct (_ && _); split_and!; try done.
  - unfold inb. simpl. lia.
  - unfold unread. simpl. rewrite str_range_rest by done. by rewrite Hd.
Qed.

Lemma read_bulklen_wait env c n v :
  inb c → 0 ≤ n < 2 ^ 63 → unread c ++ v = enc_line 36 n → v ≠ [] →
  read_bulklen env c = Some (c, false).
Proof.
  intros Hc Hn Huv Hv. unfold read_bulklen. rewrite (unread_length c Hc).
  destruct (strchr_partial 36 n (unread c) v) as (Hl & [-> |(k & -> & Hk)]);
    [unfold in_u; lia|done..| |].
  - rewrite (proj2 (Z.ltb_ge _ _)) by (unfold PROTO_INLINE_MAX_SIZE; lia). done.
  - rewrite (proj2 (Z.ltb_lt _ _)) by lia. done.
Qed.

Lemma read_header_ok c n rest :
  inb c → argv c = [] → 0 < n ≤ 1024 * 1024 → unread c = enc_line 42 n ++ rest →
  ∃ c', read_header c = Some (HdrArgs c') ∧ inb c' ∧ unread c' = rest ∧ bulklen c' = bulklen c ∧
    multibulklen c' = n ∧ argv c' = [] ∧ kept c' = kept c.
Proof.
  intros Hc Ha Hn Hu.
  destruct (line_reads c 42 n rest) as (E1 & E2 & E3 & E4 & E5); [done|lia|done..|].
  destruct (drop_line c (1 + zlen (decimal n) + 2) (enc_line 42 n) rest) as [Hd Hin];
    [done|pose proof (enc_line_length 42 n); lia|done|]. rewrite Z.add_assoc in Hd, Hin.
  unfold read_header. rewrite bool_decide_eq_false_2 by (rewrite Ha; auto).
  rewrite E1, E2. rewrite (proj2 (Z.ltb_ge _ _)) by lia. rewrite E3.
  cbn [mbind option_bind]. rewrite Z.eqb_refl. cbn [negb]. rewrite E4. cbn [mbind option_bind]. rewrite E5.
  cbn [mbind option_bind]. rewrite (proj2 (Z.ltb_ge _ n)), (proj2 (Z.leb_gt n 0)) by lia. cbv zeta.
  eexists. split; [done|]. by split_and!.
Qed.

Lemma read_header_wait c n v :
  inb c → argv c = [] → 0 ≤ n < 2 ^ 63 → unread c ++ v = enc_line 42 n → v ≠ [] →
  read_header c = Some (HdrStop c).
Proof.
  intros Hc Ha Hn Huv Hv. unfold read_header. rewrite bool_decide_eq_false_2 by (rewrite Ha; auto).
  rewrite (unread_length c Hc).
  destruct (strchr_partial 42 n (unread c) v) as (Hl & [-> |(k & -> & Hk)]);
    [unfold in_u; lia|done..| |].
  - rewrite (proj2 (Z.ltb_ge _ _)) by (unfold PROTO_INLINE_MAX_SIZE; lia). done.
  - rewrite (proj2 (Z.ltb_lt _ _)) by lia. done.
Qed.

(** A whole argument in the buffer; its last two bytes are not looked at. *)
Lemma read_bulk_ok c a e rest :
  inb c → bulklen c = zlen a → zlen e = 2 → unread c = a ++ e ++ rest →
  ∃ c', read_bulk c = Some c' ∧ inb c' ∧ unread c' = rest ∧ bulklen c' = -1 ∧
    multibulklen c' = multibulklen c - 1 ∧ argv c' = argv c ++ [a] ∧ kept c' = kept c.
Proof.
  intros Hc Hb He Hu. unfold read_bulk.
  assert (slice (querybuf c) (qb_pos c) (bulklen c) = Some a) as Ea.
  { rewrite <-(Z.add_0_r (qb_pos c)), slice_unread, Hu by (done || lia). by apply (slice_app []). }
  destruct (_ && _) eqn:E.
  - rewrite !andb_true_iff, !Z.eqb_eq in E. destruct E as [[E0 _] El]. rewrite E0 in Ea. rewrite Ea.
    cbn [mbind option_bind]. eexists. split; [done|]. simpl. rewrite E0.
    assert (rest = []) as ->.
    { pose proof (unread_length c Hc) as Hl. rewrite Hu, E0, El, Hb, !length_app in Hl.
      destruct rest; [done|simpl in Hl; lia]. }
    by split_and!.
  - rewrite Ea. cbn [mbind option_bind]. eexists. split; [done|].
    destruct (drop_line c (bulklen c + 2) (a ++ e) rest) as [Hd Hin];
      [done|rewrite length_app; lia|by rewrite <-(assoc_L (++))|]. by split_and!.
Qed.

(** ** Arguments *)

Lemma app_prefix_cases (u f h r : bytes) :
  u ++ f = h ++ r →
  (∃ r', u = h ++ r' ∧ r' ++ f = r) ∨ (∃ h', u ++ h' = h ∧ h' ≠ [] ∧ f = h' ++ r).
Proof.
  intros E. apply app_eq_inv in E as [(k & -> & ->)|(k & -> & ->)]; [left; eauto|].
  destruct k as [|x k]; [left; exists []; by rewrite !app_nil_r|right; by exists (x :: k)].
Qed.

(** The bytes still to be consumed for the arguments [todo], the length line of the first
    of them being read when [bulklen] is not -1. *)
Definition owed (c : client) (todo : list bytes) : bytes :=
  if bulklen c =? -1 then enc_bulks todo
  else match todo with [] => [] | a :: todo => a ++ [13; 10] ++ enc_bulks todo end.

Definition mid_args (c : client) (todo : list bytes) : Prop :=
  multibulklen c = zlen todo ∧ (bulklen c = -1 ∨ ∃ a l, todo = a :: l ∧ bulklen c = zlen a).

Lemma enc_bulks_cons a l : enc_bulks (a :: l) = enc_line 36 (zlen a) ++ a ++ [13; 10] ++ enc_bulks l.
Proof. unfold enc_bulks. rewrite fmap_cons. cbn [mjoin list_join]. unfold enc_bulk. by rewrite <-!(assoc_L (++)). Qed.

Definition bulk_ok (env : server_env) (a : bytes) : Prop := zlen a ≤ proto_max_bulk_len env ∧ zlen a < 2 ^ 63.

(** The length line, read or not. *)
Lemma bulk_ready env c a l fut tail :
  inb c → mid_args c (a :: l) → bulk_ok env a → unread c ++ fut = owed c (a :: l) ++ tail →
  ∃ c' go, (if bulklen c =? -1 then read_bulklen env c else Some (c, true)) = Some (c', go) ∧
    inb c' ∧ mid_args c' (a :: l) ∧ argv c' = argv c ∧ kept c' = kept c ∧
    unread c' ++ fut = owed c' (a :: l) ++ tail ∧ zlen (unread c') ≤ zlen (unread c) ∧
    if (go : bool) then bulklen c' = zlen a else fut ≠ [] ∧ zlen (unread c') ≤ 22.
Proof.
  intros Hc [Hm Hb] [Hmax Ha] Hu. unfold owed in Hu. destruct (Z.eqb_spec (bulklen c) (-1)) as [Eb|Eb].
  2:{ exists c, true. destruct Hb as [?|(a' & l' & [= <- <-] & Hb)]; [done|].
      split_and!; try done; [split; [done|right; eauto]|]. unfold owed.
      by rewrite (proj2 (Z.eqb_neq (bulklen c) (-1))). }
  rewrite enc_bulks_cons, <-(assoc_L (++)) in Hu.
  apply app_prefix_cases in Hu as [(r & Hr & Hrest)|(h & Hh & Hne & Hf)].
  - destruct (read_bulklen_ok env c (zlen a) r) as (c' & -> & Hin & Hun & Hbl & Hml & Hav & Hk); [done|lia|done..|].
    exists c', true. split_and!; try done.
    + split; [congruence|right; eauto].
    + unfold owed. rewrite (proj2 (Z.eqb_neq (bulklen c') (-1))) by lia. by rewrite Hun.
    + rewrite Hun, Hr, length_app. lia.
  - rewrite (read_bulklen_wait env c (zlen a) h) by (done || lia).
    exists c, false. split_and!; try done.
    + unfold owed. rewrite Eb, Z.eqb_refl, enc_bulks_cons, <-(assoc_L (++)), Hf, (assoc_L (++)). by rewrite Hh.
    + intros ->. by destruct h.
    + destruct (strchr_partial 36 (zlen a) (unread c) h); [unfold in_u; lia|done..].
Qed.

Lemma multibulk_loop_stream env todo : ∀ fuel c fut tail,
  (length todo < fuel)%nat → inb c → mid_args c todo → Forall (bulk_ok env) todo →
  unread c ++ fut = owed c todo ++ tail →
  ∃ c' ok, multibulk_loop fuel env c = Some (c', ok) ∧ inb c' ∧ kept c' = kept c ∧
    if (ok : bool)
    then argv c' = argv c ++ todo ∧ multibulklen c' = 0 ∧ bulklen c' = -1 ∧ unread c' ++ fut = tail ∧
         zlen (unread c') ≤ zlen (unread c)
    else fut ≠ [] ∧ ∃ pre todo', todo = pre ++ todo' ∧ todo' ≠ [] ∧ argv c' = argv c ++ pre ∧
         mid_args c' todo' ∧ unread c' ++ fut = owed c' todo' ++ tail ∧
         (zlen (unread c') ≤ 22 ∨ ∃ a, a ∈ todo' ∧ zlen (unread c') < zlen a + 2).
Proof.
  induction todo as [|a todo IH]; intros fuel c fut tail Hf Hc Hmid Hok Hu;
    (destruct fuel as [|fuel]; [simpl in Hf; lia|]); cbn [multibulk_loop].
  - destruct Hmid as [Hm [Hb|(? & ? & ? & _)]]; [|done]. rewrite Hm. cbn [length Z.of_nat Z.eqb].
    exists c, true. split_and!; try done; [by rewrite app_nil_r|].
    unfold owed in Hu. by rewrite Hb in Hu.
  - apply Forall_cons in Hok as [Ha Hok].
    rewrite (proj2 (Z.eqb_neq (multibulklen c) 0)) by (destruct Hmid as [-> _]; simpl; lia).
    destruct (bulk_ready env c a todo fut tail) as (c1 & go & -> & Hc1 & Hm1 & Ha1 & Hk1 & Hu1 & Hl1 & Hgo); [done..|].
    cbn [mbind option_bind]. destruct go; cbn [negb].
    2:{ destruct Hgo as [Hgo Hsm]. exists c1, false. split_and!; try done.
        exists [], (a :: todo). split_and!; try done; [by rewrite app_nil_r|by left]. }
    rewrite (unread_length c1 Hc1). rewrite Hgo.
    unfold owed in Hu1. rewrite (proj2 (Z.eqb_neq (bulklen c1) (-1))) in Hu1 by lia.
    destruct (Z.ltb_spec (zlen (unread c1)) (zlen a + 2)) as [Hlt|Hge].
    + exists c1, false. split_and!; try done.
      * intros ->. rewrite app_nil_r in Hu1. apply (f_equal length) in Hu1.
        rewrite !length_app in Hu1. cbn [length] in Hu1. lia.
      * exists [], (a :: todo). split_and!; try done; [by rewrite app_nil_r| |right; exists a; set_solver].
        unfold owed. by rewrite (proj2 (Z.eqb_neq (bulklen c1) (-1))) by lia.
    + replace ((a ++ [13; 10] ++ enc_bulks todo) ++ tail) with ((a ++ [13; 10]) ++ (enc_bulks todo ++ tail)) in Hu1
        by (by rewrite <-!(assoc_L (++))).
      apply app_prefix_cases in Hu1 as [(r & Hr & Hrest)|(h & Hh & Hne & _)].
      2:{ exfalso. apply (f_equal length) in Hh. rewrite !length_app in Hh. cbn [length] in Hh.
          assert (0 < length h)%nat by (destruct h; [done|simpl; lia]). lia. }
      rewrite <-(assoc_L (++)) in Hr.
      destruct (read_bulk_ok c1 a [13; 10] r) as (c2 & -> & Hc2 & Hu2 & Hb2 & Hm2 & Ha2 & Hk2); [done..|].
      cbn [mbind option_bind].
      destruct (IH fuel c2 fut tail) as (c3 & ok & -> & Hc3 & Hk3 & H3); [simpl in Hf; lia|done| |done| |].
      { split; [|by left]. destruct Hm1 as [Hm1 _]. rewrite Hm2, Hm1. simpl. lia. }
      { unfold owed. rewrite Hb2. simpl. by rewrite Hu2. }
      exists c3, ok. split_and!; try done; [congruence|]. destruct ok.
      * destruct H3 as (H3 & ? & ? & ? & Hl3). split_and!; try done.
        -- by rewrite H3, Ha2, Ha1, <-(assoc_L (++)).
        -- rewrite Hr, !length_app in Hl1. rewrite Hu2 in Hl3. lia.
      * destruct H3 as (? & pre & todo' & -> & ? & H3 & ? & ? & ?). split; [done|].
        exists (a :: pre), todo'. split_and!; try done. by rewrite H3, Ha2, Ha1, <-(assoc_L (++)).
Qed.

(** ** Flags *)

Lemma has_lor_self f m : m ≠ 0 → has (Z.lor f m) m = true.
Proof.
  intros Hm. unfold has. rewrite Z.land_comm, Z.lor_comm, Z.land_lor_distr_r, Z.land_diag.
  destruct (Z.eqb_spec (Z.lor m (Z.land m f)) 0) as [E|]; [|done]. apply Z.lor_eq_0_iff in E as [? _]. done.
Qed.

Lemma has_lor_disjoint f a m : Z.land a m = 0 → has (Z.lor f a) m = has f m.
Proof. intros H. unfold has. by rewrite Z.land_comm, Z.land_lor_distr_r, (Z.land_comm m a), H, Z.lor_0_r, Z.land_comm. Qed.

Lemma has_ldiff_disjoint f a m : Z.land a m = 0 → has (Z.ldiff f a) m = has f m.
Proof.
  intros H. unfold has. replace (Z.land (Z.ldiff f a) m) with (Z.land f m); [done|].
  apply Z.bits_inj'. intros i Hi. rewrite !Z.land_spec, Z.ldiff_spec.
  pose proof (f_equal (λ z, Z.testbit z i) H) as Hb. cbv beta in Hb. rewrite Z.land_spec, Z.bits_0 in Hb.
  destruct (Z.testbit f i), (Z.testbit a i), (Z.testbit m i); done.
Qed.

Lemma has_mono f m m' : Z.land m m' = m → has f m = true → has f m' = true.
Proof.
  intros Hm. unfold has. rewrite !negb_true_iff, !Z.eqb_neq. intros H E. apply H.
  by rewrite <-Hm, (Z.land_comm m), Z.land_assoc, E.
Qed.

(** Resetting a client changes only the flags of the command that was executed. *)
Lemma resetClient_flags c m :
  Z.land CLIENT_ASKING m = 0 → Z.land CLIENT_REPLY_SKIP m = 0 → Z.land CLIENT_REPLY_SKIP_NEXT m = 0 →
  has (flags (resetClient c)) m = has (flags c) m.
Proof.
  intros H1 H2 H3. unfold resetClient. cbn [flags set_flags set_phase set_input].
  set (f := if _ && _ then _ else _).
  assert (has f m = has (flags c) m) as <- by (unfold f; destruct (_ && _); [by apply has_ldiff_disjoint|done]).
  destruct (has (Z.ldiff f _) CLIENT_REPLY_SKIP_NEXT);
    by rewrite ?has_ldiff_disjoint, ?has_lor_disjoint, ?has_ldiff_disjoint.
Qed.

(** ** Safety of the parser on arbitrary input *)

Definition CLOSING : Z := Z.lor CLIENT_CLOSE_AFTER_REPLY CLIENT_CLOSE_ASAP.

(** The replication fields, except the time of the last acknowledgement. *)
Definition repl_part (c : client) := (reploff c, read_reploff c, pending_querybuf c, forwarded c).

(** The client is between two reads of its requests. *)
Definition ready (c : client) : Prop :=
  (multibulklen c = 0 ∧ bulklen c = -1 ∧ argv c = [] ∧
     (reqtype c = 0 ∨ reqtype c = PROTO_REQ_INLINE ∨
      (reqtype c = PROTO_REQ_MULTIBULK ∧ head (unread c) = Some 42))) ∨
  (reqtype c = PROTO_REQ_MULTIBULK ∧ 0 < multibulklen c ∧ -1 ≤ bulklen c).

(** It is, unless it waits for a blocking operation or to be closed. *)
Definition wf (c : client) : Prop :=
  inb c ∧ (has (flags c) CLIENT_BLOCKED = true ∨ has (flags c) CLOSING = true ∨ ready c).

(** What a step of the parser that needs more input leaves. *)
Definition rejected (c c' : client) : Prop := ∃ e, c' = protocol_error c e.

Lemma rejected_props c c' :
  rejected c c' → unread c' = unread c ∧ (inb c → inb c') ∧ has (flags c') CLOSING = true ∧
    repl_part c' = repl_part c ∧ (∀ m, Z.land CLIENT_CLOSE_AFTER_REPLY m = 0 → has (flags c') m = has (flags c) m).
Proof.
  intros [e ->]. split_and!; try done.
  - apply (has_mono _ CLIENT_CLOSE_AFTER_REPLY); [done|]. by apply has_lor_self.
  - intros m Hm. by apply has_lor_disjoint.
Qed.

Lemma string2ll_total s n : n = zlen s → ∃ r, string2ll s n = Some r.
Proof. intros ->. destruct (string2ll_spec s) as (r & -> & _). eauto. Qed.

Lemma slice_line c n :
  inb c → 1 ≤ n ≤ zlen (unread c) - 2 →
  ∃ d r, slice (querybuf c) (qb_pos c + 1) (n - 1) = Some d ∧ string2ll d (n - 1) = Some r.
Proof.
  intros Hc Hn. rewrite slice_unread by (done || lia).
  assert (∃ d, slice (unread c) 1 (n - 1) = Some d ∧ n - 1 = zlen d) as (d & -> & Hd).
  { unfold slice. rewrite decide_True by lia. eexists. split; [done|].
    rewrite length_take, length_drop. lia. }
  destruct (string2ll_total d (n - 1)) as [r Hr]; [done|]. eauto.
Qed.

Lemma drop_more c n :
  inb c → 0 < n ≤ zlen (unread c) →
  zlen (drop (Z.to_nat (qb_pos c + n)) (querybuf c)) < zlen (unread c) ∧ 0 ≤ qb_pos c + n ≤ zlen (querybuf c).
Proof.
  intros Hc Hn. pose proof (unread_length c Hc) as Hl. unfold inb in Hc. split; [|lia].
  rewrite length_drop. lia.
Qed.

Lemma read_bulklen_safe env c :
  inb c → ∃ c' go, read_bulklen env c = Some (c', go) ∧ inb c' ∧
    if (go : bool)
    then 0 ≤ bulklen c' ∧ zlen (unread c') < zlen (unread c) ∧ multibulklen c' = multibulklen c ∧ kept c' = kept c
    else c' = c ∨ rejected c c'.
Proof.
  intros Hc. unfold read_bulklen. rewrite (unread_length c Hc).
  destruct (strchr (unread c) 13) as [n|] eqn:E.
  2:{ destruct (_ <? _); eexists _, false; (split; [done|]); (split; [done|]); [right; by eexists|by left]. }
  apply strchr_Some in E as [Hn Hp].
  destruct (Z.ltb_spec (zlen (unread c) - 2) n) as [Hl|Hl]; [exists c, false; auto|].
  assert (∃ x, peek (querybuf c) (qb_pos c) = Some x ∧ (n = 0 → x = 13)) as (x & -> & Hx).
  { rewrite <-(Z.add_0_r (qb_pos c)), peek_unread by (done || lia).
    destruct (unread c) as [|x u]; [simpl in Hn; lia|]. exists x. split; [done|].
    intros ->. rewrite peek_head in Hp. congruence. }
  cbn [mbind option_bind]. destruct (Z.eqb_spec x 36) as [-> |Hx36]; cbn [negb].
  2:{ eexists _, false. split; [done|]. split; [done|]. right. by eexists. }
  destruct (slice_line c n) as (d & r & -> & Hr); [done|lia|]. cbn [mbind option_bind]. rewrite Hr.
  cbn [mbind option_bind]. destruct r as [ll|].
  2:{ eexists _, false. split; [done|]. split; [done|]. right. by eexists. }
  destruct (Z.ltb_spec ll 0) as [|Hll]; cbn [orb].
  { eexists _, false. split; [done|]. split; [done|]. right. by eexists. }
  destruct (_ <? ll). { eexists _, false. split; [done|]. split; [done|]. right. by eexists. }
  destruct (drop_more c (n + 2)) as [Hd Hin]; [done|lia|]. rewrite Z.add_assoc in Hd, Hin.
  cbv zeta. eexists _, true. split; [done|]. cbn [querybuf qb_pos argv set_input].
  destruct (_ && _); split_and!; try done.
  - unfold inb. simpl. lia.
  - unfold unread at 1. simpl. by rewrite str_range_rest, drop_0 by done.
Qed.

Lemma read_bulk_safe c :
  inb c → 0 ≤ bulklen c → bulklen c + 2 ≤ zlen (unread c) →
  ∃ c', read_bulk c = Some c' ∧ inb c' ∧ bulklen c' = -1 ∧ multibulklen c' = multibulklen c - 1 ∧
    zlen (unread c') < zlen (unread c) ∧ kept c' = kept c.
Proof.
  intros Hc Hb Hl.
  set (a := take (Z.to_nat (bulklen c)) (unread c)).
  set (e := take 2 (drop (Z.to_nat (bulklen c)) (unread c))).
  set (r := drop 2 (drop (Z.to_nat (bulklen c)) (unread c))).
  destruct (read_bulk_ok c a e r) as (c' & -> & Hc' & Hu & Hb' & Hm & _ & Hk); [done| | | |].
  - unfold a. rewrite length_take. lia.
  - unfold e. rewrite length_take, length_drop. lia.
  - unfold a, e, r. by rewrite !take_drop.
  - exists c'. split_and!; try done. rewrite Hu. unfold r. rewrite !length_drop. lia.
Qed.

(** What the parser leaves when it does not have a whole request: it may have consumed
    arguments, or have refused the request. *)
Definition waiting (c c' : client) : Prop :=
  inb c' ∧ repl_part c' = repl_part c ∧ (∀ m, Z.land CLIENT_CLOSE_AFTER_REPLY m = 0 → has (flags c') m = has (flags c) m) ∧
  zlen (unread c') ≤ zlen (unread c) ∧ (has (flags c') CLOSING = true ∨ ready c').

Lemma kept_props c c' :
  kept c' = kept c → reqtype c' = reqtype c ∧ flags c' = flags c ∧ repl_part c' = repl_part c.
Proof. unfold kept, repl_part. intros [=]. split_and!; congruence. Qed.

Lemma waiting_rejected c c0 c' :
  inb c0 → kept c0 = kept c → zlen (unread c0) ≤ zlen (unread c) → rejected c0 c' → waiting c c'.
Proof.
  intros Hc Hk Hl (Hu & Hin & Hcl & Hr & Hf)%rejected_props. apply kept_props in Hk as (_ & Hk & Hr0).
  split_and!; [auto|congruence| |rewrite Hu; done|by left].
  intros m Hm. rewrite Hf, Hk by done. done.
Qed.

Lemma waiting_kept c c' :
  inb c' → kept c' = kept c → zlen (unread c') ≤ zlen (unread c) → ready c' → waiting c c'.
Proof. intros Hc (_ & Hk & Hr)%kept_props Hl Hre. split_and!; [done|done| |done|by right]. intros m _. by rewrite Hk. Qed.

Lemma multibulk_loop_safe env : ∀ fuel c,
  (Z.to_nat (multibulklen c) < fuel)%nat → inb c → reqtype c = PROTO_REQ_MULTIBULK →
  0 ≤ multibulklen c → -1 ≤ bulklen c → (multibulklen c = 0 → bulklen c = -1) →
  ∃ c' ok, multibulk_loop fuel env c = Some (c', ok) ∧
    if (ok : bool)
    then inb c' ∧ multibulklen c' = 0 ∧ bulklen c' = -1 ∧ kept c' = kept c ∧ zlen (unread c') ≤ zlen (unread c) ∧
         (0 < multibulklen c → zlen (unread c') < zlen (unread c))
    else waiting c c'.
Proof.
  induction fuel as [|fuel IH]; intros c Hf Hc Hr Hm Hb H0; [lia|]. cbn [multibulk_loop].
  destruct (Z.eqb_spec (multibulklen c) 0) as [E|E]; [exists c, true; split_and!; try done; [auto|lia]|].
  assert (∃ c1 go, (if bulklen c =? -1 then read_bulklen env c else Some (c, true)) = Some (c1, go) ∧ inb c1 ∧
    if (go : bool) then 0 ≤ bulklen c1 ∧ zlen (unread c1) ≤ zlen (unread c) ∧ multibulklen c1 = multibulklen c ∧ kept c1 = kept c
    else c1 = c ∨ rejected c c1) as (c1 & go & -> & Hc1 & Hgo).
  { destruct (Z.eqb_spec (bulklen c) (-1)).
    - destruct (read_bulklen_safe env c Hc) as (c1 & go & -> & Hc1 & H). exists c1, go. split_and!; [done..|].
      destruct go; [|done]. destruct H as (? & ? & ? & ?). split_and!; (done || lia).
    - exists c, true. split_and!; (done || lia). }
  cbn [mbind option_bind]. destruct go; cbn [negb].
  2:{ exists c1, false. split; [done|]. destruct Hgo as [-> |Hgo]; [|eapply waiting_rejected; [exact Hc|done|done|done]].
      apply waiting_kept; [done..|]. right. split_and!; (done || lia). }
  destruct Hgo as (Hb1 & Hl1 & Hm1 & Hk1). rewrite (unread_length c1 Hc1).
  pose proof (kept_props _ _ Hk1) as (Hq1 & _ & _).
  destruct (Z.ltb_spec (zlen (unread c1)) (bulklen c1 + 2)).
  { exists c1, false. split; [done|]. apply waiting_kept; [done..|]. right. split_and!; (congruence || lia). }
  destruct (read_bulk_safe c1) as (c2 & -> & Hc2 & Hb2 & Hm2 & Hl2 & Hk2); [done..|]. cbn [mbind option_bind].
  pose proof (kept_props _ _ Hk2) as (Hq2 & _ & _).
  destruct (IH c2) as (c3 & ok & -> & H3); [lia|done|congruence|lia|lia|done|].
  exists c3, ok. split; [done|]. destruct ok.
  - destruct H3 as (? & ? & ? & ? & ? & _). split_and!; (congruence || lia).
  - destruct H3 as (? & H3 & H4 & ? & ?). apply kept_props in Hk1 as (_ & Hf1 & Hp1), Hk2 as (_ & Hf2 & Hp2).
    split_and!; try (congruence || lia || done). intros m Hmm. rewrite H4 by done. congruence.
Qed.

Lemma read_header_safe c :
  inb c → argv c = [] → head (unread c) = Some 42 →
  ∃ h, read_header c = Some h ∧
    match h with
    | HdrStop c' => c' = c ∨ rejected c c'
    | HdrEmpty c' => inb c' ∧ argv c' = [] ∧ multibulklen c' = multibulklen c ∧ bulklen c' = bulklen c ∧
        zlen (unread c') < zlen (unread c) ∧ kept c' = kept c
    | HdrArgs c' => inb c' ∧ 0 < multibulklen c' ∧ bulklen c' = bulklen c ∧
        zlen (unread c') < zlen (unread c) ∧ kept c' = kept c
    end.
Proof.
  intros Hc Ha Hh. unfold read_header. rewrite bool_decide_eq_false_2 by (rewrite Ha; auto).
  rewrite (unread_length c Hc). destruct (strchr (unread c) 13) as [n|] eqn:E.
  2:{ destruct (_ <? _); eexists; (split; [done|]); [right; by eexists|by left]. }
  apply strchr_Some in E as [Hn Hp].
  destruct (Z.ltb_spec (zlen (unread c) - 2) n) as [Hl|Hl]; [eexists; split; [done|]; by left|].
  rewrite <-(Z.add_0_r (qb_pos c)), peek_unread, Z.add_0_r by (done || lia).
  assert (peek (unread c) 0 = Some 42 ∧ n ≠ 0) as [-> Hn0].
  { destruct (unread c) as [|x u]; [done|]. injection Hh as ->. split; [done|]. intros ->. by rewrite peek_head in Hp. }
  cbn [mbind option_bind]. rewrite Z.eqb_refl. cbn [negb].
  destruct (slice_line c n) as (d & r & -> & Hr); [done|lia|]. cbn [mbind option_bind]. rewrite Hr.
  cbn [mbind option_bind]. destruct r as [ll|]; [|eexists; split; [done|]; right; by eexists].
  destruct (_ <? ll); [eexists; split; [done|]; right; by eexists|].
  destruct (drop_more c (n + 2)) as [Hd Hin]; [done|lia|]. rewrite Z.add_assoc in Hd, Hin.
  cbv zeta. destruct (Z.leb_spec ll 0); eexists; (split; [done|]); by split_and!.
Qed.

Lemma processMultibulkBuffer_safe env c :
  inb c → ready c → reqtype c = PROTO_REQ_MULTIBULK →
  ∃ c' ok, processMultibulkBuffer env c = Some (c', ok) ∧
    if (ok : bool)
    then inb c' ∧ multibulklen c' = 0 ∧ bulklen c' = -1 ∧ kept c' = kept c ∧ zlen (unread c') < zlen (unread c)
    else waiting c c'.
Proof.
  intros Hc Hre Hq. unfold processMultibulkBuffer.
  destruct Hre as [(Hm & Hb & Ha & Ht)|(_ & Hm & Hb)].
  - destruct Ht as [Ht|[Ht|[_ Hh]]]; [by rewrite Hq in Ht..|]. rewrite Hm. cbn [Z.eqb].
    destruct (read_header_safe c Hc Ha Hh) as (h & -> & H). cbn [mbind option_bind]. destruct h as [c1|c1|c1].
    + exists c1, false. split; [done|]. destruct H as [-> |H]; [|eapply waiting_rejected; [exact Hc|done..]].
      apply waiting_kept; [done..|]. left. split_and!; try done. by right; right.
    + destruct H as (? & ? & ? & ? & ? & ?). exists c1, true. split_and!; (done || congruence).
    + destruct H as (Hc1 & Hm1 & Hb1 & Hl1 & Hk1). rewrite (proj2 (Z.ltb_lt _ _)) by lia.
      pose proof (kept_props _ _ Hk1) as (Hq1 & Hf1 & Hp1).
      destruct (multibulk_loop_safe env (S (Z.to_nat (multibulklen c1))) c1) as (c2 & ok & -> & H2);
        [lia|done|congruence|lia|lia|lia|].
      exists c2, ok. split; [done|]. destruct ok.
      * destruct H2 as (? & ? & ? & ? & ? & ?). split_and!; (done || congruence || lia).
      * destruct H2 as (? & ? & H4 & ? & ?). split_and!; try (done || congruence || lia).
        intros m Hmm. rewrite H4, Hf1 by done. done.
  - rewrite (proj2 (Z.eqb_neq _ _)) by lia. cbn [mbind option_bind]. rewrite (proj2 (Z.ltb_lt _ _)) by lia.
    destruct (multibulk_loop_safe env (S (Z.to_nat (multibulklen c))) c) as (c2 & ok & -> & H2);
      [lia|done|done|lia|lia|lia|].
    exists c2, ok. split; [done|]. destruct ok; [|done].
    destruct H2 as (? & ? & ? & ? & ? & Hlt). split_and!; try done. auto.
Qed.

Lemma processInlineBuffer_safe env c :
  inb c → ready c → reqtype c = PROTO_REQ_INLINE →
  ∃ c' ok, processInlineBuffer env c = Some (c', ok) ∧
    if (ok : bool)
    then inb c' ∧ multibulklen c' = 0 ∧ bulklen c' = -1 ∧ flags c' = flags c ∧ repl_part c' = repl_part c ∧
         zlen (unread c') < zlen (unread c)
    else waiting c c'.
Proof.
  intros Hc Hre Hq. unfold processInlineBuffer. rewrite (unread_length c Hc).
  destruct (strchr (unread c) 10) as [n|] eqn:E.
  2:{ destruct (_ <? _); eexists _, false; (split; [done|]); [|by apply waiting_kept].
      eapply waiting_rejected; [exact Hc|done|done|by eexists]. }
  apply strchr_Some in E as [Hn Hp].
  assert (∃ cr : bool, (if n =? 0 then Some false
    else x ← peek (querybuf c) (qb_pos c + n - 1); Some (x =? 13)) = Some cr ∧ (cr = true → 0 < n)) as (cr & -> & Hcr).
  { destruct (Z.eqb_spec n 0); [by exists false|]. rewrite <-Z.add_sub_assoc, peek_unread by (done || lia).
    unfold peek. destruct (decide (0 ≤ n - 1)); [|lia].
    destruct (lookup_lt_is_Some_2 (unread c) (Z.to_nat (n - 1))) as [x ->]; [lia|]. simpl. eexists. split; [done|lia]. }
  cbn [mbind option_bind].
  assert (∃ ql lf, (if cr then (n - 1, 2) else (n, 1)) = (ql, lf) ∧ 0 ≤ ql ≤ n ∧ ql + lf = n + 1) as (ql & lf & -> & Hql & Hlf).
  { destruct cr; eexists _, _; (split; [done|]); [|lia]. specialize (Hcr eq_refl). lia. }
  rewrite <-(Z.add_0_r (qb_pos c)), slice_unread by (done || lia).
  assert (∃ aux, slice (unread c) 0 ql = Some aux) as (aux & ->).
  { unfold slice. rewrite decide_True; [eauto|lia]. }
  cbn [mbind option_bind]. destruct (splitargs_loop_total (S (length aux)) aux []) as [r Hr]; [lia|].
  unfold sdssplitargs. rewrite Hr. cbn [mbind option_bind]. destruct r as [args|].
  2:{ eexists _, false. split; [done|]. eapply waiting_rejected; [exact Hc|done|done|by eexists]. }
  destruct (drop_more c (ql + lf)) as [Hd Hin]; [done|lia|].
  destruct Hre as [(Hm & Hb & _)|(Ht & _)]; [|by rewrite Hq in Ht].
  eexists _, true. split; [done|]. destruct (_ && _); by split_and!.
Qed.

(** ** The loop over the requests *)

(** What the parser relies on in the execution of a command: it does not touch the input
    buffer and the state of the parser, and when it returns an error the client was
    destroyed or is to be closed. *)
Record command_contract {St} (processCommand : St → client → St * client * bool * bool) : Prop := {
  command_input st c st' c' ok alive :
    processCommand st c = (st', c', ok, alive) →
    querybuf c' = querybuf c ∧ qb_pos c' = qb_pos c ∧ multibulklen c' = multibulklen c ∧
    bulklen c' = bulklen c ∧ repl_part c' = repl_part c ∧
    has (flags c') CLIENT_MASTER = has (flags c) CLIENT_MASTER;
  command_error st c st' c' alive :
    processCommand st c = (st', c', false, alive) → alive = false ∨ has (flags c') CLOSING = true;
}.

(** The offsets of a client that is our master: the pending bytes are those between the
    two offsets, and the unread bytes are not applied. *)
Definition repl_inv (c : client) : Prop :=
  has (flags c) CLIENT_MASTER = true →
  reploff c + zlen (unread c) ≤ read_reploff c ∧ zlen (pending_querybuf c) = read_reploff c - reploff c.

(** How a step of the parser changes the offsets. *)
Definition repl_step (c c' : client) : Prop :=
  has (flags c') CLIENT_MASTER = has (flags c) CLIENT_MASTER ∧
  read_reploff c' = read_reploff c ∧ pending_querybuf c' = pending_querybuf c ∧ forwarded c' = forwarded c ∧
  zlen (unread c') ≤ zlen (unread c) ∧
  (has (flags c) CLIENT_MASTER = true → reploff c + zlen (unread c) ≤ read_reploff c →
     reploff c ≤ reploff c' ∧ reploff c' + zlen (unread c') ≤ read_reploff c').

Lemma repl_step_trans c1 c2 c3 : repl_step c1 c2 → repl_step c2 c3 → repl_step c1 c3.
Proof.
  intros (F1 & R1 & P1 & W1 & L1 & O1) (F2 & R2 & P2 & W2 & L2 & O2).
  split_and!; [congruence..|lia|]. intros Hm Ho. destruct (O1 Hm Ho) as [H1 H2].
  destruct O2 as [H3 H4]; [congruence|done|]. lia.
Qed.

Lemma repl_step_same c c' :
  has (flags c') CLIENT_MASTER = has (flags c) CLIENT_MASTER → repl_part c' = repl_part c →
  zlen (unread c') ≤ zlen (unread c) → repl_step c c'.
Proof. unfold repl_part. intros Hf [=] Hl. split_and!; try done. intros _ Ho. split; lia. Qed.

Lemma waiting_step c c' : waiting c c' → repl_step c c' ∧ wf c'.
Proof.
  intros (Hc & Hr & Hf & Hl & Hw). split; [by apply repl_step_same; [apply Hf|..]|].
  split; [done|]. by destruct Hw; [right; left|right; right].
Qed.

Lemma reset_ready c : ready (resetClient c).
Proof. left. by split_and!; [..|left]. Qed.

Section Safety.

Context {St : Type} (env_of : St → server_env).
Context (processCommand : St → client → St * client * bool * bool).
Context (Hcmd : command_contract processCommand).

Lemma run_command_safe st c :
  inb c → multibulklen c = 0 → bulklen c = -1 →
  ∃ st' c' alive, run_command processCommand st c = (st', c', alive) ∧ inb c' ∧ repl_step c c' ∧
    unread c' = unread c ∧ (alive = true → wf c').
Proof.
  intros Hc Hm Hb. unfold run_command. case_bool_decide as Ea.
  { eexists st, _, true. split; [done|]. split_and!; try done.
    - apply repl_step_same; [by apply resetClient_flags|done|done].
    - intros _. split; [done|]. right; right. apply reset_ready. }
  destruct (processCommand st c) as [[[st1 c1] ok] alive] eqn:E.
  destruct (command_input _ Hcmd _ _ _ _ _ _ E) as (Hq & Hp & Hm1 & Hb1 & Hr & Hf).
  assert (unread c1 = unread c) as Hu by (unfold unread; by rewrite Hq, Hp).
  assert (inb c1) as Hc1 by (unfold inb; by rewrite Hq, Hp).
  assert (repl_step c c1) as Hs by (apply repl_step_same; [done|done|by rewrite Hu]).
  eexists st1, _, alive. split; [done|]. destruct ok.
  2:{ split_and!; try done. intros Ht. split; [done|]. destruct (command_error _ Hcmd _ _ _ _ _ E); [congruence|].
      by right; left. }
  set (c2 := if _ && _ then _ else c1).
  assert (unread c2 = unread c1 ∧ inb c2 ∧ flags c2 = flags c1 ∧ repl_step c1 c2) as (Hu2 & Hc2 & Hf2 & Hs2).
  { unfold c2. destruct (_ && _); [|split_and!; try done; by apply repl_step_same].
    split_and!; try done; [apply Hc1..|]. split_and!; try done. intros _ Ho.
    pose proof (unread_length c1 Hc1) as Hl. unfold unread in *. simpl. lia. }
  destruct (_ || _) eqn:Er.
  - assert (repl_step c2 (resetClient c2)) as Hs3 by (apply repl_step_same; [by apply resetClient_flags|done|done]).
    split_and!; try done; try (apply Hc2).
    + eapply repl_step_trans; [exact Hs|]. eapply repl_step_trans; [exact Hs2|done].
    + transitivity (unread c2); [done|]. congruence.
    + intros _. split; [done|]. right; right. apply reset_ready.
  - rewrite orb_false_iff, !negb_false_iff in Er. destruct Er as [Er _].
    split_and!; try done; try (apply Hc2).
    + by eapply repl_step_trans.
    + congruence.
    + intros _. split; [done|by left].
Qed.

(** A request of either type is parsed. *)
Lemma parse_safe env c :
  inb c → ready c → qb_pos c < zlen (querybuf c) →
  ∃ c0 c' ok, request_type c = Some c0 ∧
    (if reqtype c0 =? PROTO_REQ_INLINE then processInlineBuffer env c0
     else if reqtype c0 =? PROTO_REQ_MULTIBULK then processMultibulkBuffer env c0 else None) = Some (c', ok) ∧
    repl_step c c' ∧
    if (ok : bool)
    then inb c' ∧ multibulklen c' = 0 ∧ bulklen c' = -1 ∧ zlen (unread c') < zlen (unread c)
    else wf c'.
Proof.
  intros Hc Hre Hlt.
  assert (∃ c0, request_type c = Some c0 ∧ inb c0 ∧ ready c0 ∧ unread c0 = unread c ∧ flags c0 = flags c ∧
    repl_part c0 = repl_part c ∧ (reqtype c0 = PROTO_REQ_INLINE ∨ reqtype c0 = PROTO_REQ_MULTIBULK))
    as (c0 & E0 & Hc0 & Hre0 & Hu0 & Hf0 & Hr0 & Hq0).
  { unfold request_type. destruct (Z.eqb_spec (reqtype c) 0) as [Eq|Eq].
    - rewrite <-(Z.add_0_r (qb_pos c)), peek_unread by (done || lia).
      pose proof (unread_length c Hc) as Hl. destruct (unread c) as [|x u] eqn:Eu; [simpl in Hl; lia|].
      rewrite peek_head. cbn [mbind option_bind]. eexists. split; [done|].
      destruct Hre as [(Hm & Hb & Ha & _)|(Hq & _)]; [|by rewrite Eq in Hq].
      destruct (Z.eqb_spec x 42) as [-> |]; split_and!; try done; try (apply Hc); try (by right); try (by left).
      + left. split_and!; try done. right; right. split; [done|]. change (head (unread c) = Some 42). by rewrite Eu.
      + left. split_and!; try done. by right; left.
    - exists c. split_and!; try done. destruct Hre as [(_ & _ & _ & [?|[?|[? _]]])|(? & _)]; [done|by left|by right..]. }
  exists c0. rewrite E0.
  assert (repl_step c c0) as Hs0 by (apply repl_step_same; [by rewrite Hf0|done|by rewrite Hu0]).
  destruct Hq0 as [Eq|Eq]; rewrite Eq; cbn [Z.eqb Pos.eqb PROTO_REQ_INLINE PROTO_REQ_MULTIBULK].
  - destruct (processInlineBuffer_safe env c0) as (c' & ok & -> & H); [done..|].
    exists c', ok. split_and!; [done..| |]; destruct ok.
    + destruct H as (? & ? & ? & Hf & ? & ?). eapply repl_step_trans; [exact Hs0|].
      apply repl_step_same; [by rewrite Hf|done|lia].
    + apply waiting_step in H as [H _]. by eapply repl_step_trans.
    + destruct H as (? & ? & ? & Hf & ? & ?). rewrite <-Hu0. by split_and!.
    + by apply waiting_step in H as [_ H].
  - destruct (processMultibulkBuffer_safe env c0) as (c' & ok & -> & H); [done..|].
    exists c', ok. split_and!; [done..| |]; destruct ok.
    + destruct H as (? & ? & ? & Hk & ?). eapply repl_step_trans; [exact Hs0|]. apply kept_props in Hk as (_ & Hf & ?).
      apply repl_step_same; [by rewrite Hf|done|lia].
    + apply waiting_step in H as [H _]. by eapply repl_step_trans.
    + destruct H as (? & ? & ? & Hk & ?). rewrite <-Hu0. by split_and!.
    + by apply waiting_step in H as [_ H].
Qed.

Lemma input_loop_safe : ∀ fuel st c,
  (length (unread c) < fuel)%nat → wf c →
  ∃ st' c' alive, input_loop env_of processCommand fuel st c = Some (st', c', alive) ∧ inb c' ∧
    repl_step c c' ∧ (alive = true → wf c').
Proof.
  induction fuel as [|fuel IH]; intros st c Hf [Hc Hw]; [lia|]. cbn [input_loop].
  destruct (negb (qb_pos c <? zlen (querybuf c)) || must_wait env_of st c) eqn:E.
  { exists st, c, true. split; [done|]. split; [done|]. split; [by apply repl_step_same|done]. }
  apply orb_false_iff in E as [E1 E2]. rewrite negb_false_iff, Z.ltb_lt in E1.
  unfold must_wait in E2. rewrite !orb_false_iff in E2. destruct E2 as [[[_ Eb] _] Ec].
  destruct Hw as [Hw|[Hw|Hre]]; [congruence|unfold CLOSING in Hw; congruence|].
  destruct (parse_safe (env_of st) c) as (c0 & c1 & ok & -> & E0 & Hs1 & H1); [done..|].
  cbn [mbind option_bind]. rewrite E0. cbn [mbind option_bind]. destruct ok; cbn [negb].
  2:{ exists st, c1, true. split; [done|]. split; [apply H1|]. by split. }
  destruct H1 as (Hc1 & Hm1 & Hb1 & Hl1).
  destruct (run_command_safe st c1) as (st2 & c2 & alive & -> & Hc2 & Hs2 & Hu2 & Hw2); [done..|].
  destruct alive; cbn [negb].
  - destruct (IH st2 c2) as (st3 & c3 & alive & -> & Hc3 & Hs3 & Hw3); [rewrite Hu2; lia|auto|].
    exists st3, c3, alive. split; [done|]. split; [done|]. split; [|done].
    eapply repl_step_trans; [exact Hs1|]. by eapply repl_step_trans.
  - exists st2, c2, false. split; [done|]. split; [done|]. split; [|done]. by eapply repl_step_trans.
Qed.

(** Trimming the buffer keeps the unread bytes. *)
Lemma trim_props c (b : bool) :
  inb c →
  let c' := if b && negb (qb_pos c =? 0)
            then set_input c (str_range (querybuf c) (qb_pos c) (-1)) 0 (argv c) else c in
  unread c' = unread c ∧ inb c' ∧ repl_step c c' ∧ kept c' = kept c ∧ (wf c → wf c') ∧
  multibulklen c' = multibulklen c ∧ bulklen c' = bulklen c ∧ argv c' = argv c ∧ (b = true → qb_pos c' = 0).
Proof.
  intros Hc. destruct b; cbn [andb].
  2:{ split; [done|]. split; [done|]. split; [by apply repl_step_same|]. by split_and!. }
  destruct (Z.eqb_spec (qb_pos c) 0) as [E|E]; cbn [negb].
  { split; [done|]. split; [done|]. split; [by apply repl_step_same|]. by split_and!. }
  set (c' := set_input _ _ _ _). assert (unread c' = unread c) as Hu.
  { unfold c', unread. simpl. by rewrite str_range_rest, drop_0. }
  assert (inb c') as Hc' by (unfold inb; simpl; lia).
  split; [done|]. split; [done|]. split; [apply repl_step_same; [done|done|by rewrite Hu]|]. split; [done|].
  split; [|done]. intros [_ Hw]. split; [done|]. destruct Hw as [?|[?|Hre]]; [by left|by right; left|right; right].
  unfold ready in *. by rewrite Hu.
Qed.

Lemma processInputBuffer_safe st c :
  wf c →
  ∃ st' c' alive, processInputBuffer env_of processCommand st c = Some (st', c', alive) ∧ inb c' ∧
    repl_step c c' ∧ (alive = true → wf c' ∧ qb_pos c' = 0).
Proof.
  intros Hw. unfold processInputBuffer.
  destruct (input_loop_safe (S (length (querybuf c))) st c) as (st1 & c1 & alive & -> & Hc1 & Hs1 & Hw1);
    [unfold unread; rewrite length_drop; lia|done|].
  cbn [mbind option_bind]. destruct (trim_props c1 alive Hc1) as (Hu2 & Hc2 & Hs2 & _ & Hw2 & _ & _ & _ & H0).
  eexists _, _, _. split; [done|]. split; [done|]. split; [by eapply repl_step_trans|]. auto.
Qed.

Lemma processInputBufferAndReplicate_safe st c :
  wf c → repl_inv c →
  ∃ st' c' alive, processInputBufferAndReplicate env_of processCommand st c = Some (st', c', alive) ∧
    has (flags c') CLIENT_MASTER = has (flags c) CLIENT_MASTER ∧
    (alive = true → wf c' ∧ qb_pos c' = 0 ∧ repl_inv c') ∧
    forwarded c' ++ pending_querybuf c' = forwarded c ++ pending_querybuf c.
Proof.
  intros Hw Hi. unfold processInputBufferAndReplicate.
  destruct (processInputBuffer_safe st c Hw) as (st1 & c1 & alive & -> & Hc1 & (Hf & Hr & Hp & Hfw & Hl & Ho) & Hw1).
  unfold repl_inv in *. destruct (has (flags c) CLIENT_MASTER) eqn:Em; cbn [negb].
  2:{ exists st1, c1, alive. split; [done|]. split; [done|]. split; [|by rewrite Hfw, Hp].
      intros Ha. destruct (Hw1 Ha). split_and!; try done. congruence. }
  cbn [mbind option_bind]. destruct (Hi eq_refl) as [Hi1 Hi2]. destruct (Ho eq_refl Hi1) as [Ho1 Ho2].
  destruct (Z.eqb_spec (reploff c1 - reploff c) 0) as [E|E].
  { exists st1, c1, alive. split; [done|]. split; [done|]. split; [|by rewrite Hfw, Hp].
    intros Ha. destruct (Hw1 Ha). split_and!; try done. intros _. rewrite Hp. lia. }
  set (n := reploff c1 - reploff c) in *.
  assert (0 < n ≤ zlen (pending_querybuf c1)) as Hn by (rewrite Hp; lia).
  assert (slice (pending_querybuf c1) 0 n = Some (take (Z.to_nat n) (pending_querybuf c1))) as ->.
  { unfold slice. by rewrite decide_True by lia. }
  cbn [mbind option_bind]. eexists _, _, _. split; [done|]. split; [done|]. simpl. rewrite str_range_rest by lia. split.
  - intros Ha. destruct (Hw1 Ha) as [Hw1a Hq]. split; [done|]. split; [done|]. intros _.
    change (unread (set_repl _ _ _ _ _ _)) with (unread c1). rewrite length_drop, Hp, Hr. rewrite Hr in Ho2. rewrite Hp in Hn. lia.
  - rewrite <-(assoc_L (++)), take_drop. by rewrite Hfw, Hp.
Qed.

Lemma readQueryFromClient_safe st c data :
  wf c → repl_inv c → qb_pos c = 0 →
  ∃ st' c' alive, readQueryFromClient env_of processCommand st c data = Some (st', c', alive) ∧
    has (flags c') CLIENT_MASTER = has (flags c) CLIENT_MASTER ∧
    (alive = true → wf c' ∧ qb_pos c' = 0 ∧ repl_inv c') ∧
    (alive = true → has (flags c) CLIENT_MASTER = true →
       forwarded c' ++ pending_querybuf c' = forwarded c ++ pending_querybuf c ++ data).
Proof.
  intros Hw Hi H0. unfold readQueryFromClient. case_bool_decide as Ed; [by exists st, c, false|].
  set (c1 := set_input _ _ _ _). cbv zeta.
  assert (unread c1 = unread c ++ data) as Hu.
  { unfold c1, unread. simpl. rewrite H0. simpl. by rewrite !drop_0. }
  assert (inb c1) as Hc1.
  { unfold inb. simpl. rewrite length_app. destruct Hw as [Hc _]. unfold inb in Hc. lia. }
  assert (wf c1) as Hw1.
  { split; [done|]. destruct Hw as [_ [?|[?|[(Hm & Hb & Ha & Hq)|?]]]]; [by left|by right; left| |right; right; by right].
    right; right; left. split_and!; try done. destruct Hq as [?|[?|[? Hh]]]; [by left|by right; left|right; right].
    split; [done|]. rewrite Hu. by destruct (unread c). }
  assert (repl_inv c1) as Hi1.
  { unfold repl_inv in *. rewrite Hu, length_app. simpl. intros Hm. rewrite Hm. destruct (Hi Hm).
    rewrite length_app. lia. }
  destruct (_ <? _). { exists st, c1, false. split_and!; done. }
  destruct (processInputBufferAndReplicate_safe st c1 Hw1 Hi1) as (st' & c' & alive & -> & Hf & Hw' & Hfw).
  exists st', c', alive. split; [done|]. split; [done|]. split; [done|].
  intros _ Hm. rewrite Hfw. simpl. by rewrite Hm.
Qed.

Lemma read_all_safe chunks : ∀ st c,
  wf c → repl_inv c → qb_pos c = 0 →
  ∃ st' c' alive, read_all env_of processCommand st c chunks = Some (st', c', alive) ∧
    (alive = true → wf c' ∧ repl_inv c' ∧
       (has (flags c) CLIENT_MASTER = true →
        forwarded c' ++ pending_querybuf c' = forwarded c ++ pending_querybuf c ++ mjoin chunks)).
Proof.
  induction chunks as [|data chunks IH]; intros st c Hw Hi H0; cbn [read_all].
  { exists st, c, true. split; [done|]. intros _. split_and!; try done; [apply Hw..|]. intros _. simpl. by rewrite app_nil_r. }
  destruct (readQueryFromClient_safe st c data) as (st1 & c1 & alive & -> & Hf1 & Hw1 & Hd1); [done..|].
  cbn [mbind option_bind]. destruct alive; [|by exists st1, c1, false].
  destruct (Hw1 eq_refl) as (Hwf & Hq & Hin). destruct (IH st1 c1) as (st2 & c2 & alive & -> & H2); [done..|].
  exists st2, c2, alive. split; [done|]. intros Ha. destruct (H2 Ha) as (? & ? & Hd2). split; [done|]. split; [done|].
  intros Hm. rewrite Hd2, (assoc_L (++)), Hd1 by (done || congruence).
  cbn [mjoin list_join]. by rewrite <-!(assoc_L (++)).
Qed.

End Safety.

(** C23: no input can break the request parser.  Whatever bytes a connection delivers, in
    whatever pieces, and whatever the commands do within their contract, every read runs
    to its end without a failed assertion, an unknown request type or an access outside
    the query buffer; a client that survives is either waiting for a blocking operation,
    marked to be closed, or between two requests with its parser state well formed. *)
Theorem request_parser_safe {St} (env_of : St → server_env)
    (processCommand : St → client → St * client * bool * bool) st f chunks :
  command_contract processCommand → has f CLIENT_MASTER = false →
  ∃ st' c' alive,
    read_all env_of processCommand st (set_flags createClient f false) chunks = Some (st', c', alive) ∧
    (alive = true → wf c').
Proof.
  intros Hcmd Hf. destruct (read_all_safe env_of processCommand Hcmd chunks st (set_flags createClient f false))
    as (st' & c' & alive & -> & H); [|unfold repl_inv; simpl; congruence|done|].
  - split; [by split|]. right; right; left. by split_and!; [..|left].
  - exists st', c', alive. split; [done|]. intros Ha. by destruct (H Ha).
Qed.

(** C24: a replica hands to its own replicas exactly the stream it receives.  On the
    connection to its master, the bytes forwarded followed by the bytes not yet applied are
    all the bytes received, in order and without loss or repetition, and the bytes not yet
    applied are as many as the two offsets say; this also holds inside a transaction,
    when the applied offset stays behind. *)
Theorem master_stream_forwarded {St} (env_of : St → server_env)
    (processCommand : St → client → St * client * bool * bool) st f off chunks :
  command_contract processCommand → has f CLIENT_MASTER = true →
  ∃ st' c' alive,
    read_all env_of processCommand st (set_repl (set_flags createClient f false) off off [] 0 []) chunks
      = Some (st', c', alive) ∧
    (alive = true →
       forwarded c' ++ pending_querybuf c' = mjoin chunks ∧
       (has (flags c') CLIENT_MASTER = true → zlen (pending_querybuf c') = read_reploff c' - reploff c')).
Proof.
  intros Hcmd Hf.
  destruct (read_all_safe env_of processCommand Hcmd chunks st (set_repl (set_flags createClient f false) off off [] 0 []))
    as (st' & c' & alive & -> & H); [|unfold repl_inv; simpl; lia|done|].
  - split; [by split|]. right; right; left. by split_and!; [..|left].
  - exists st', c', alive. split; [done|]. intros Ha. destruct (H Ha) as (Hw & Hi & Hfw). split; [by apply Hfw|].
    intros Hm. by destruct (Hi Hm).
Qed.

(** ** Streams of encoded commands *)

(** The flags that keep a client from being served, or make it the link to a master. *)
Definition QUIET : Z := Z.lor CLIENT_MASTER (Z.lor CLIENT_BLOCKED CLOSING).

(** A client between two reads of the stream of the commands [cmds]; [s] is the rest of the
    stream, starting with the unread bytes. *)
Definition stream_state (c : client) (cmds : list (list bytes)) (s : bytes) : Prop :=
  inb c ∧ has (flags c) QUIET = false ∧
  ((multibulklen c = 0 ∧ bulklen c = -1 ∧ argv c = [] ∧
      (reqtype c = 0 ∨ reqtype c = PROTO_REQ_MULTIBULK) ∧ s = enc_cmds cmds) ∨
   (reqtype c = PROTO_REQ_MULTIBULK ∧ ∃ todo rest, cmds = (argv c ++ todo) :: rest ∧ todo ≠ [] ∧
      mid_args c todo ∧ s = owed c todo ++ enc_cmds rest)).

(** The bound on what a client keeps in its buffer. *)
Definition args_below (L : Z) (cmds : list (list bytes)) : Prop :=
  22 ≤ L ∧ Forall (Forall (λ a, zlen a + 2 ≤ L)) cmds.

Lemma enc_cmds_cons cmd cmds : enc_cmds (cmd :: cmds) = enc_line 42 (zlen cmd) ++ enc_bulks cmd ++ enc_cmds cmds.
Proof. unfold enc_cmds. rewrite fmap_cons. cbn [mjoin list_join]. unfold enc_cmd. by rewrite <-(assoc_L (++)). Qed.

Lemma app_longer (u u' f x t : bytes) : u ++ f = x ++ t → u' ++ f = t → x ≠ [] → zlen u' < zlen u.
Proof.
  intros E1 E2 Hx. apply (f_equal length) in E1, E2. rewrite !length_app in E1, E2.
  destruct x; [done|]. simpl in E1. rewrite ?length_app in E1. lia.
Qed.

Lemma owed_ne c todo : mid_args c todo → todo ≠ [] → owed c todo ≠ [].
Proof.
  intros [_ Hb] Hne. unfold owed. destruct todo as [|a todo]; [done|].
  destruct (_ =? _); [by rewrite enc_bulks_cons|]. destruct a; done.
Qed.

Lemma loop_stream env c todo rest fut L :
  reqtype c = PROTO_REQ_MULTIBULK → inb c → has (flags c) QUIET = false → mid_args c todo → todo ≠ [] →
  Forall (cmd_ok (proto_max_bulk_len env)) ((argv c ++ todo) :: rest) → args_below L ((argv c ++ todo) :: rest) →
  unread c ++ fut = owed c todo ++ enc_cmds rest →
  ∃ c' ok, multibulk_loop (S (Z.to_nat (multibulklen c))) env c = Some (c', ok) ∧ inb c' ∧ flags c' = flags c ∧
    if (ok : bool)
    then argv c' = argv c ++ todo ∧ multibulklen c' = 0 ∧ bulklen c' = -1 ∧ unread c' ++ fut = enc_cmds rest ∧
         zlen (unread c') < zlen (unread c)
    else fut ≠ [] ∧ zlen (unread c') ≤ L ∧ stream_state c' ((argv c ++ todo) :: rest) (unread c' ++ fut).
Proof.
  intros Hq Hc Hf Hmid Hne Hok [HL Hbel] Hu.
  apply Forall_cons in Hok as [[_ Hok] _], Hbel as [Hbel _]. apply Forall_app in Hok as [_ Hok], Hbel as [_ Hbel].
  destruct (multibulk_loop_stream env todo (S (Z.to_nat (multibulklen c))) c fut (enc_cmds rest))
    as (c' & ok & -> & Hc' & Hk & H); [destruct Hmid as [-> _]; lia|done|done|done|done|].
  apply kept_props in Hk as (Hq' & Hf' & _). exists c', ok. split; [done|]. split; [done|]. split; [done|].
  destruct ok.
  - destruct H as (? & ? & ? & Hu' & _). split; [done|]. split; [done|]. split; [done|]. split; [done|].
    eapply app_longer; [exact Hu|exact Hu'|by apply owed_ne].
  - destruct H as (? & pre & todo' & -> & Hne' & Ha & Hm' & Hu' & Hl). split; [done|]. split.
    + destruct Hl as [Hl|(a & Hin & Hl)]; [lia|]. rewrite Forall_app in Hbel. destruct Hbel as [_ Hbel].
      rewrite Forall_forall in Hbel. specialize (Hbel a Hin). cbv beta in Hbel. lia.
    + split; [done|]. split; [congruence|]. right. split; [congruence|]. exists todo', rest.
      by rewrite Ha, <-(assoc_L (++)).
Qed.

Lemma processMultibulk_stream env c cmds fut L :
  stream_state c cmds (unread c ++ fut) → reqtype c = PROTO_REQ_MULTIBULK → unread c ≠ [] →
  Forall (cmd_ok (proto_max_bulk_len env)) cmds → args_below L cmds →
  ∃ c' ok, processMultibulkBuffer env c = Some (c', ok) ∧ inb c' ∧ flags c' = flags c ∧
    if (ok : bool)
    then ∃ rest, cmds = argv c' :: rest ∧ multibulklen c' = 0 ∧ bulklen c' = -1 ∧
         unread c' ++ fut = enc_cmds rest ∧ zlen (unread c') < zlen (unread c)
    else fut ≠ [] ∧ zlen (unread c') ≤ L ∧ stream_state c' cmds (unread c' ++ fut).
Proof.
  intros (Hc & Hf & Hst) Hq Hne Hok Hbel. unfold processMultibulkBuffer.
  destruct Hst as [(Hm & Hb & Ha & _ & Hs)|(_ & todo & rest & -> & Hne' & Hmid & Hs)].
  2:{ assert (0 < multibulklen c) as Hmpos by (destruct Hmid as [-> _]; destruct todo; [done|simpl; lia]).
      rewrite (proj2 (Z.eqb_neq _ _)) by lia. cbn [mbind option_bind]. rewrite (proj2 (Z.ltb_lt _ _)) by lia.
      destruct (loop_stream env c todo rest fut L) as (c' & ok & -> & Hc' & Hf' & H); [done..|].
      exists c', ok. split; [done|]. split; [done|]. split; [done|]. destruct ok; [|done].
      destruct H as (<- & ? & ? & ? & ?). exists rest. by split_and!. }
  destruct cmds as [|cmd rest]; [by destruct (unread c)|].
  pose proof (Forall_cons_1 _ _ _ Hok) as [[Hcl _] _].
  rewrite Hm. cbn [Z.eqb]. rewrite enc_cmds_cons in Hs.
  apply app_prefix_cases in Hs as [(r & Hr & Hrest)|(h & Hh & Hhne & Hfut)].
  - destruct (read_header_ok c (zlen cmd) r) as (c1 & -> & Hc1 & Hu1 & Hb1 & Hm1 & Ha1 & Hk1); [done..|].
    cbn [mbind option_bind]. rewrite (proj2 (Z.ltb_lt _ _)) by lia. apply kept_props in Hk1 as (Hq1 & Hf1 & _).
    destruct (loop_stream env c1 cmd rest fut L) as (c' & ok & -> & Hc' & Hf' & H).
    { congruence. } { done. } { congruence. } { split; [done|]. left. congruence. } { destruct cmd; [simpl in Hcl; lia|done]. }
    { by rewrite Ha1. } { by rewrite Ha1. } { unfold owed. rewrite Hb1, Hb. cbn [Z.eqb Pos.eqb]. by rewrite Hu1. }
    rewrite Ha1 in H. cbn [app] in H. exists c', ok. split; [done|]. split; [done|]. split; [congruence|].
    destruct ok; [|done]. destruct H as (<- & ? & ? & ? & Hl). exists rest. split_and!; try done.
    rewrite Hr, length_app. rewrite Hu1 in Hl. lia.
  - rewrite (read_header_wait c (zlen cmd) h) by (done || lia). cbn [mbind option_bind].
    exists c, false. split; [done|]. split; [done|]. split; [done|]. split; [intros ->; by destruct h|]. split.
    + destruct (strchr_partial 42 (zlen cmd) (unread c) h) as [? _]; [unfold in_u; lia|done..|].
      destruct Hbel. lia.
    + split; [done|]. split; [done|]. left. split_and!; try done; [by right|].
      rewrite enc_cmds_cons, Hfut, (assoc_L (++)). by rewrite Hh.
Qed.

Section Stream.

Context {St : Type} (env_of : St → server_env).
Context (processCommand : St → client → St * client * bool * bool).
Context (exec : St → list bytes → St).

(** Commands that are executed right away: they return [C_OK], leave the parser alone,
    do not block or close the client, and do not change the limits of the protocol. *)
Definition runs_commands : Prop :=
  ∀ st c, has (flags c) QUIET = false →
    ∃ c', processCommand st c = (exec st (argv c), c', true, true) ∧
      querybuf c' = querybuf c ∧ qb_pos c' = qb_pos c ∧ has (flags c') QUIET = false ∧
      env_of (exec st (argv c)) = env_of st.

Context (Hrun : runs_commands).

Lemma quiet_parts f :
  has f QUIET = false → has f CLIENT_MASTER = false ∧ has f CLIENT_BLOCKED = false ∧ has f CLOSING = false.
Proof.
  intros H. split_and!; apply not_true_iff_false; intros E; apply (has_mono _ _ QUIET) in E; (done || congruence).
Qed.

Lemma run_command_stream st c :
  inb c → has (flags c) QUIET = false → argv c ≠ [] →
  ∃ c', run_command processCommand st c = (exec st (argv c), c', true) ∧ unread c' = unread c ∧
    env_of (exec st (argv c)) = env_of st ∧
    ∀ cmds s, s = enc_cmds cmds → stream_state c' cmds s.
Proof.
  intros Hc Hf Ha. unfold run_command. rewrite bool_decide_eq_false_2 by done.
  destruct (Hrun st c Hf) as (c1 & -> & Hq & Hp & Hf1 & He).
  destruct (quiet_parts _ Hf1) as (Hm1 & Hb1 & _). rewrite Hm1. cbn [andb]. rewrite Hb1. cbn [negb orb].
  eexists. split; [done|]. split; [unfold unread; simpl; by rewrite Hq, Hp|]. split; [done|].
  intros cmds s ->. split; [unfold inb; simpl; by rewrite Hq, Hp|]. split; [by rewrite resetClient_flags|].
  left. by split_and!; try (by left).
Qed.

Lemma input_loop_stream fut L : ∀ fuel st c cmds,
  (length (unread c) < fuel)%nat → stream_state c cmds (unread c ++ fut) →
  clientsArePaused (env_of st) = false → lua_timedout (env_of st) = false →
  Forall (cmd_ok (proto_max_bulk_len (env_of st))) cmds → args_below L cmds →
  ∃ now later c', cmds = now ++ later ∧
    input_loop env_of processCommand fuel st c = Some (foldl exec st now, c', true) ∧
    stream_state c' later (unread c' ++ fut) ∧ env_of (foldl exec st now) = env_of st ∧
    zlen (unread c') ≤ L ∧ (unread c' = [] ∨ fut ≠ []).
Proof.
  induction fuel as [|fuel IH]; intros st c cmds Hfu Hst Hpa Hlu Hok Hbel; [lia|]. cbn [input_loop].
  pose proof Hst as (Hc & Hf & Hcase). pose proof (quiet_parts _ Hf) as (Hfm & Hfb & Hfc).
  destruct (Z.ltb_spec (qb_pos c) (zlen (querybuf c))) as [Hlt|Hge]; cbn [negb orb].
  2:{ assert (unread c = []) as Hnil by (unfold unread; apply drop_ge; lia).
      exists [], cmds, c. split; [done|]. split; [done|]. split; [done|]. split; [done|].
      split; [rewrite Hnil; destruct Hbel; simpl; lia|by left]. }
  assert (must_wait env_of st c = false) as ->.
  { unfold must_wait. rewrite Hpa, Hlu, andb_false_r, Hfb. exact Hfc. }
  assert (unread c ≠ []) as Hne.
  { intros E. pose proof (unread_length c Hc) as Hl. rewrite E in Hl. simpl in Hl. lia. }
  assert (∃ c0, request_type c = Some c0 ∧ reqtype c0 = PROTO_REQ_MULTIBULK ∧ unread c0 = unread c ∧ flags c0 = flags c ∧
    stream_state c0 cmds (unread c ++ fut)) as (c0 & -> & Hq0 & Hu0 & Hf0 & Hst0).
  { unfold request_type. destruct (Z.eqb_spec (reqtype c) 0) as [Eq|Eq].
    2:{ exists c. split_and!; try done. by destruct Hcase as [(_ & _ & _ & [?|?] & _)|(? & _)]. }
    destruct Hcase as [(Hm & Hb & Ha & _ & Hs)|(Hq & _)]; [|by rewrite Eq in Hq].
    destruct cmds as [|cmd rest]; [by destruct (unread c)|].
    rewrite <-(Z.add_0_r (qb_pos c)), peek_unread by (done || lia).
    assert (peek (unread c) 0 = Some 42) as ->.
    { destruct (unread c) as [|x u]; [done|]. rewrite enc_cmds_cons in Hs. injection Hs as -> _. done. }
    cbn [mbind option_bind]. eexists. split; [done|]. split; [done|]. split; [done|]. split; [done|].
    split; [done|]. split; [done|]. left. by split_and!; try (by right). }
  cbn [mbind option_bind]. rewrite Hq0. cbn [Z.eqb Pos.eqb PROTO_REQ_INLINE PROTO_REQ_MULTIBULK].
  destruct (processMultibulk_stream (env_of st) c0 cmds fut L) as (c1 & ok & -> & Hc1 & Hf1 & H1);
    [by rewrite Hu0|done|by rewrite Hu0|done|done|].
  cbn [mbind option_bind]. destruct ok; cbn [negb].
  2:{ destruct H1 as (? & ? & ?). exists [], cmds, c1. split_and!; try done. by right. }
  destruct H1 as (rest & -> & Hm1 & Hb1 & Hu1 & Hl1).
  apply Forall_cons in Hok as [Hok1 Hok]. destruct Hbel as [HL Hbel]. apply Forall_cons in Hbel as [_ Hbel].
  destruct (run_command_stream st c1) as (c2 & -> & Hu2 & He2 & Hst2);
    [done|congruence|destruct Hok1 as [Hlen _]; intros E; rewrite E in Hlen; simpl in Hlen; lia|].
  cbn [negb].
  destruct (IH (exec st (argv c1)) c2 rest) as (now & later & c3 & -> & -> & Hst3 & He3 & HL3 & Hd3);
    [rewrite Hu2; rewrite Hu0 in Hl1; lia|by apply Hst2; rewrite Hu2|congruence|congruence|by rewrite He2|done|].
  exists (argv c1 :: now), later, c3. split_and!; try done. simpl. congruence.
Qed.

Lemma processInputBuffer_stream fut L st c cmds :
  stream_state c cmds (unread c ++ fut) →
  clientsArePaused (env_of st) = false → lua_timedout (env_of st) = false →
  Forall (cmd_ok (proto_max_bulk_len (env_of st))) cmds → args_below L cmds →
  ∃ now later c', cmds = now ++ later ∧
    processInputBufferAndReplicate env_of processCommand st c = Some (foldl exec st now, c', true) ∧
    stream_state c' later (querybuf c' ++ fut) ∧ env_of (foldl exec st now) = env_of st ∧
    qb_pos c' = 0 ∧ zlen (querybuf c') ≤ L ∧ (querybuf c' = [] ∨ fut ≠ []).
Proof.
  intros Hst Hpa Hlu Hok Hbel. unfold processInputBufferAndReplicate, processInputBuffer.
  pose proof Hst as (Hc & Hf & _). pose proof (quiet_parts _ Hf) as (-> & _). cbn [negb].
  destruct (input_loop_stream fut L (S (length (querybuf c))) st c cmds) as (now & later & c1 & -> & -> & Hst1 & He1 & HL1 & Hd1);
    [unfold unread; rewrite length_drop; lia|done..|].
  cbn [mbind option_bind]. pose proof Hst1 as (Hc1 & Hf1 & Hcase).
  destruct (trim_props c1 true Hc1) as (Hu2 & Hc2 & _ & Hk2 & _ & Hm2 & Hb2 & Ha2 & H0). specialize (H0 eq_refl).
  set (c2 := if true && _ then _ else c1) in *. exists now, later, c2. split; [done|]. split; [done|].
  assert (querybuf c2 = unread c1) as -> by (rewrite <-Hu2; unfold unread; rewrite H0; simpl; by rewrite drop_0).
  split_and!; try done. apply kept_props in Hk2 as (Hq2 & Hf2 & _).
  split; [done|]. split; [congruence|]. unfold mid_args, owed in *. rewrite Hm2, Hb2, Ha2, Hq2. done.
Qed.

Lemma read_all_stream L chunks : ∀ st c cmds,
  stream_state c cmds (querybuf c ++ mjoin chunks) → qb_pos c = 0 → zlen (querybuf c) ≤ L →
  (chunks = [] → querybuf c = []) →
  clientsArePaused (env_of st) = false → lua_timedout (env_of st) = false →
  Forall (cmd_ok (proto_max_bulk_len (env_of st))) cmds → args_below L cmds →
  L + PROTO_IOBUF_LEN ≤ client_max_querybuf_len (env_of st) →
  Forall (λ data, 0 < zlen data ≤ PROTO_IOBUF_LEN) chunks →
  ∃ c', read_all env_of processCommand st c chunks = Some (foldl exec st cmds, c', true) ∧
    querybuf c' = [] ∧ argv c' = [] ∧ has (flags c') CLOSING = false.
Proof.
  induction chunks as [|data chunks IH]; intros st c cmds Hst H0 HL Hend Hpa Hlu Hok Hbel Hmax Hall; cbn [read_all].
  { specialize (Hend eq_refl). rewrite Hend in Hst. destruct Hst as (Hc & Hf & Hcase). exists c.
    destruct Hcase as [(_ & _ & Ha & _ & Hs)|(_ & todo & rest & _ & Hne & Hmid & Hs)].
    - destruct cmds as [|cmd cmds]; [|by rewrite enc_cmds_cons in Hs]. split_and!; try done. apply (quiet_parts _ Hf).
    - pose proof (owed_ne _ _ Hmid Hne). by destruct (owed c todo). }
  apply Forall_cons in Hall as [Hd Hall]. unfold readQueryFromClient at 1.
  rewrite bool_decide_eq_false_2 by (intros ->; simpl in Hd; lia).
  pose proof Hst as (Hc & Hf & Hcase). destruct (quiet_parts _ Hf) as (Hm & _). rewrite Hm. cbv zeta.
  set (c1 := set_input _ _ _ _).
  assert (unread c1 = querybuf c ++ data) as Hu1 by (unfold unread, c1; simpl; by rewrite H0, drop_0).
  assert (zlen (querybuf c1) = zlen (querybuf c) + zlen data) as Hl1 by (unfold c1; simpl; rewrite length_app; lia).
  rewrite (proj2 (Z.ltb_ge _ _)) by lia.
  destruct (processInputBuffer_stream (mjoin chunks) L st c1 cmds) as (now & later & c2 & -> & -> & Hst2 & He2 & Hq2 & HL2 & Hd2);
    [|done..|].
  { split; [unfold inb; rewrite Hl1; unfold inb in Hc; simpl; lia|]. split; [done|]. rewrite Hu1.
    cbn [mjoin list_join] in Hcase. rewrite (assoc_L (++)) in Hcase. exact Hcase. }
  cbn [mbind option_bind]. apply Forall_app in Hok as [_ Hok]. destruct Hbel as [HL22 Hbel].
  apply Forall_app in Hbel as [_ Hbel].
  destruct (IH (foldl exec st now) c2 later) as (c3 & -> & H3); [done|done|done| |congruence..|by rewrite He2|done|by rewrite He2|done|].
  - intros ->. destruct Hd2 as [?|Hd2]; [done|]. by destruct Hd2.
  - exists c3. split; [by rewrite foldl_app|done].
Qed.

End Stream.

(** C25: the encoding of commands is inverted by the request parser, however the network
    cuts it.  The stream written by [catAppendOnlyGenericCommand] for any commands within
    the limits, delivered in any non-empty pieces of at most the size of a read, makes the
    server execute exactly these commands with exactly these arguments, in this order; no
    protocol error is raised, and nothing stays in the buffer. *)
Theorem request_stream_roundtrip {St} (env_of : St → server_env)
    (processCommand : St → client → St * client * bool * bool) (exec : St → list bytes → St)
    st cmds buf L chunks :
  runs_commands env_of processCommand exec →
  clientsArePaused (env_of st) = false → lua_timedout (env_of st) = false →
  Forall (cmd_ok (proto_max_bulk_len (env_of st))) cmds → args_below L cmds →
  L + PROTO_IOBUF_LEN ≤ client_max_querybuf_len (env_of st) →
  length buf = 32%nat → Forall (λ data, 0 < zlen data ≤ PROTO_IOBUF_LEN) chunks →
  command_stream buf [] cmds = Some (mjoin chunks) →
  ∃ c', read_all env_of processCommand st createClient chunks = Some (foldl exec st cmds, c', true) ∧
    querybuf c' = [] ∧ argv c' = [] ∧ has (flags c') CLOSING = false.
Proof.
  intros Hrun Hpa Hlu Hok Hbel Hmax Hbuf Hall Hs.
  rewrite (command_stream_spec _ _ _ _ Hbuf Hok) in Hs. injection Hs as Hs.
  apply (read_all_stream env_of processCommand exec Hrun L chunks st createClient cmds); try done.
  - split; [done|]. split; [done|]. left. split_and!; try done. by left.
  - destruct Hbel. simpl. lia.
Qed.

(** A server that logs the commands it is given. *)
Definition log_server : Type := server_env * list (list bytes).

Definition log_command (st : log_server) (c : client) : log_server * client * bool * bool :=
  ((st.1, st.2 ++ [argv c]), c, true, true).

Definition log_env : server_env := Env (512 * 1024 * 1024) (1024 * 1024 * 1024) 0 false false.

Lemma log_contract : command_contract log_command.
Proof. split; [|done]. intros st c st' c' ok alive [= <- <- <- <-]. done. Qed.

Lemma request_parser_safe_witness :
  ∃ st' c' alive,
    read_all fst log_command (log_env, []) (set_flags createClient 0 false)
      [str "*1"; [13; 10; 36; 65]; [13; 10; 0; 1]] = Some (st', c', alive) ∧ (alive = true → wf c').
Proof. apply request_parser_safe; [apply log_contract|reflexivity]. Defined.

Lemma master_stream_forwarded_witness :
  ∃ st' c' alive,
    read_all fst log_command (log_env, []) (set_repl (set_flags createClient CLIENT_MASTER false) 7 7 [] 0 [])
      [str "PING"; [13; 10; 80]] = Some (st', c', alive) ∧
    (alive = true →
       forwarded c' ++ pending_querybuf c' = str "PING" ++ [13; 10; 80] ∧
       (has (flags c') CLIENT_MASTER = true → zlen (pending_querybuf c') = read_reploff c' - reploff c')).
Proof.
  apply (master_stream_forwarded fst log_command (log_env, []) CLIENT_MASTER 7 [str "PING"; [13; 10; 80]]);
    [apply log_contract|reflexivity].
Defined.

Lemma request_stream_roundtrip_witness :
  ∃ c', read_all fst log_command (log_env, []) createClient
      [str "*2"; [13]; [10; 36; 51; 13; 10]; str "GET"; [13; 10; 36; 50; 13; 10; 13; 10; 13]; [10]]
    = Some ((log_env, [[str "GET"; [13; 10]]]), c', true) ∧
    querybuf c' = [] ∧ argv c' = [] ∧ has (flags c') CLOSING = false.
Proof.
  apply (request_stream_roundtrip fst log_command (λ st cmd, (st.1, st.2 ++ [cmd])) (log_env, [])
    [[str "GET"; [13; 10]]] (replicate 32 0) 22).
  - intros st c Hf. exists c. repeat split. exact Hf.
  - reflexivity.
  - reflexivity.
  - repeat constructor; simpl; lia.
  - split; [lia|]. repeat constructor; simpl; lia.
  - unfold PROTO_IOBUF_LEN. simpl. lia.
  - reflexivity.
  - repeat constructor; unfold PROTO_IOBUF_LEN; simpl; lia.
  - vm_compute. reflexivity.
Defined.
