(* ===== verification/Multi.v ===== *)
(** Transactions: MULTI, EXEC, DISCARD, WATCH and UNWATCH (multi.c), the dispatch of
    commands that queues them (processCommand of server.c), and the part of [call] that
    executes and propagates a command.

    The keyspace and the commands that work on it are parameters: a command yields the new
    keyspace, the calls of [signalModifiedKey] and [signalFlushedDb] it makes, its replies,
    the new value of the counter of changes, and what it does to propagation.  What is
    handed to [propagate] is recorded with its targets; the keys evicted under [maxmemory],
    which are propagated before a command is dispatched, are not recorded.  A failed
    assertion is [None]. *)

From stdpp Require Import gmap strings.
From S2P Require Import Prelude Util SdsText Resp.

Definition CLIENT_DIRTY_CAS : Z := Z.shiftl 1 5.
Definition CLIENT_DIRTY_EXEC : Z := Z.shiftl 1 12.
Definition CLIENT_PUBSUB : Z := Z.shiftl 1 18.
Definition CMD_WRITE : Z := Z.shiftl 1 0.
Definition CMD_READONLY : Z := Z.shiftl 1 1.
Definition CMD_DENYOOM : Z := Z.shiftl 1 2.
Definition CMD_MODULE : Z := Z.shiftl 1 3.
Definition CMD_ADMIN : Z := Z.shiftl 1 4.
Definition CMD_LOADING : Z := Z.shiftl 1 9.
Definition CMD_STALE : Z := Z.shiftl 1 10.

(** ** Commands, clients and the server *)

(** The command procedures that are told apart; the others are [otherCommand]. *)
Inductive redisCommandProc :=
  | multiCommand | execCommand | discardCommand | watchCommand | unwatchCommand
  | authCommand | pingCommand | subscribeCommand | unsubscribeCommand | psubscribeCommand
  | punsubscribeCommand | replconfCommand | shutdownCommand | scriptCommand | otherCommand.

#[global] Instance redisCommandProc_eq_dec : EqDecision redisCommandProc.
Proof. solve_decision. Defined.

(** [haskeys] is [getkeys_proc != NULL || firstkey != 0]. *)
Record redisCommand := RedisCommand {
  proc : redisCommandProc;
  arity : Z;
  cmdflags : Z;
  haskeys : bool;
}.

(** A key is identified by its database and its name. *)
Abbreviation dbkey := (Z * list Z)%type.

(** A queued command. *)
Record multiCmd := MultiCmd { mc_cmd : redisCommand; mc_argv : list bytes }.

(** The fields of [struct client] used here; [commands] and [cmd_flags] are [c->mstate]. *)
Record mclient := MClient {
  db : Z;
  cflags : Z;
  commands : list multiCmd;
  cmd_flags : Z;
  watched_keys : list dbkey;
  authenticated : bool;
}.

(** The replies of these functions; [R_cmd] is what a command of the keyspace replies. *)
Inductive reply :=
  | R_ok | R_queued | R_error (msg : bytes) | R_execabort | R_nullmultibulk
  | R_multilen (n : Z) | R_noauth | R_redirect | R_oom | R_diskerr | R_noreplicas | R_roslave
  | R_masterdown | R_loading | R_slowscript | R_cmd (r : bytes).

Definition PROPAGATE_NONE : Z := 0.
Definition PROPAGATE_AOF : Z := 1.
Definition PROPAGATE_REPL : Z := 2.

(** What is sent to the append only file and the replicas, in order: the MULTI of
    [execCommandPropagateMulti], a command handed to [propagate] with its targets, the
    deletion of an expired key ([propagateExpire]), the EXEC written into the backlog. *)
Inductive propagated :=
  | PropMulti (d : Z) | PropCmd (target d : Z) (mc : multiCmd) | PropExpire (k : dbkey) | PropBacklogExec.

(** An entry of [server.also_propagate]. *)
Record redisOp := RedisOp { op_target : Z; op_dbid : Z; op_cmd : multiCmd }.

(** The server fields [processCommand] and [execCommand] test. *)
Record conditions := Conditions {
  requirepass : bool;
  cluster_enabled : bool;
  maxmemory : bool;
  script_timedout : bool;
  disk_error : bool;
  masterhost : bool;
  too_few_replicas : bool;
  repl_slave_ro : bool;
  link_down_no_stale : bool;
  loading : bool;
  repl_backlog : bool;
}.

(** A call of [signalModifiedKey], or of [signalFlushedDb] with the database or -1. *)
Inductive signal := SigKey (k : dbkey) | SigFlush (dbid : Z).

Section Transactions.

Context {K : Type} (conditions_of : K → conditions) (exists_key : K → dbkey → bool).

(** What the procedure of a command leaves for [call]: the command itself, which may have
    been rewritten, the targets of [forceCommandPropagation] and of
    [preventCommandPropagation] and its variants, and [server.also_propagate]. *)
Record prop_info := PropInfo {
  p_cmd : multiCmd;
  p_force : Z;
  p_prevent : Z;
  p_also : list redisOp;
}.

(** [r_dirty] gives [server.dirty] after the command from its value before: most commands
    add to it, SAVE resets it.  [r_expired] are the keys the command found expired. *)
Record cmd_result := CmdResult {
  r_data : K;
  r_signals : list signal;
  r_db : Z;
  r_auth : bool;
  r_dirty : Z → Z;
  r_replies : list bytes;
  r_expired : list dbkey;
  r_prop : prop_info;
}.

(** The procedures of the other commands, run for a client with the given database and
    authentication; eviction under [maxmemory], which returns whether memory is still
    short; and [getNodeByQuery], true when the keys are not served by this node. *)
Context (run : K → Z → bool → multiCmd → cmd_result).
Context (evict : K → K * list signal * bool).
Context (redirected : K → mclient → multiCmd → bool).

(** [watched] gathers the [watched_keys] dictionaries of all databases.  [signals] is a
    history variable: the signals raised so far, each with the keyspace it was raised on. *)
Record server := Server {
  clients : gmap Z mclient;
  watched : gmap dbkey (list Z);
  data : K;
  dirty : Z;
  propagation : list propagated;
  signals : list (K * signal);
}.

Definition set_clients (s : server) (m : gmap Z mclient) : server :=
  Server m (watched s) (data s) (dirty s) (propagation s) (signals s).
Definition set_watched (s : server) (w : gmap dbkey (list Z)) : server :=
  Server (clients s) w (data s) (dirty s) (propagation s) (signals s).
Definition set_data (s : server) (k : K) (d : Z) : server :=
  Server (clients s) (watched s) k d (propagation s) (signals s).
Definition propagate (s : server) (p : propagated) : server :=
  Server (clients s) (watched s) (data s) (dirty s) (propagation s ++ [p]) (signals s).
Definition record_signal (s : server) (g : signal) : server :=
  Server (clients s) (watched s) (data s) (dirty s) (propagation s) (signals s ++ [(data s, g)]).
Definition put (s : server) (i : Z) (c : mclient) : server := set_clients s (<[i := c]> (clients s)).

Definition with_flags (c : mclient) (f : Z) : mclient :=
  MClient (db c) f (commands c) (cmd_flags c) (watched_keys c) (authenticated c).
Definition with_mstate (c : mclient) (cs : list multiCmd) (f : Z) : mclient :=
  MClient (db c) (cflags c) cs f (watched_keys c) (authenticated c).
Definition with_watched (c : mclient) (ks : list dbkey) : mclient :=
  MClient (db c) (cflags c) (commands c) (cmd_flags c) ks (authenticated c).
Definition with_db (c : mclient) (d : Z) (auth : bool) : mclient :=
  MClient d (cflags c) (commands c) (cmd_flags c) (watched_keys c) auth.

(** ** WATCH *)

(** [touchWatchedKey]: every client in the list of the key is marked. *)
Definition mark_dirty (m : gmap Z mclient) (i : Z) : gmap Z mclient :=
  alter (λ c, with_flags c (Z.lor (cflags c) CLIENT_DIRTY_CAS)) i m.

Definition touchWatchedKey (s : server) (k : dbkey) : server :=
  match watched s !! k with
  | None => s
  | Some l => set_clients s (foldl mark_dirty (clients s) l)
  end.

(** [touchWatchedKeysOnFlush]: the loop over the clients and their watched keys. *)
Definition flush_hits (d : K) (dbid : Z) (k : dbkey) : bool :=
  ((dbid =? -1) || (k.1 =? dbid)) && exists_key d k.

Definition touchWatchedKeysOnFlush (s : server) (dbid : Z) : server :=
  set_clients s
    ((λ c, foldl (λ c k, if flush_hits (data s) dbid k
                         then with_flags c (Z.lor (cflags c) CLIENT_DIRTY_CAS) else c)
             c (watched_keys c)) <$> clients s).

(** [signalModifiedKey] and [signalFlushedDb] *)
Definition apply_signal (s : server) (g : signal) : server :=
  record_signal
    match g with
    | SigKey k => touchWatchedKey s k
    | SigFlush dbid => touchWatchedKeysOnFlush s dbid
    end g.

(** [watchForKey] *)
Definition watchForKey (s : server) (i : Z) (key : bytes) : option server :=
  c ← clients s !! i;
  let k := (db c, key) in
  if bool_decide (k ∈ watched_keys c) then Some s
  else
    let l := default [] (watched s !! k) in
    let s := set_watched s (<[k := l ++ [i]]> (watched s)) in
    Some (put s i (with_watched c (watched_keys c ++ [k]))).

(** The first occurrence of a client in a list is removed; the list must have one. *)
Fixpoint list_del (l : list Z) (i : Z) : option (list Z) :=
  match l with
  | [] => None
  | x :: l => if x =? i then Some l else l' ← list_del l i; Some (x :: l')
  end.

(** [unwatchAllKeys] *)
Fixpoint unwatch_loop (w : gmap dbkey (list Z)) (i : Z) (ks : list dbkey) : option (gmap dbkey (list Z)) :=
  match ks with
  | [] => Some w
  | k :: ks =>
      l ← w !! k;
      l ← list_del l i;
      let w := if bool_decide (l = []) then delete k w else <[k := l]> w in
      unwatch_loop w i ks
  end.

Definition unwatchAllKeys (s : server) (i : Z) : option server :=
  c ← clients s !! i;
  w ← unwatch_loop (watched s) i (watched_keys c);
  Some (put (set_watched s w) i (with_watched c [])).

(** ** MULTI, DISCARD and EXEC *)

Definition queueMultiCommand (c : mclient) (mc : multiCmd) : mclient :=
  with_mstate c (commands c ++ [mc]) (Z.lor (cmd_flags c) (cmdflags (mc_cmd mc))).

Definition discardTransaction (s : server) (i : Z) : option server :=
  c ← clients s !! i;
  let c := with_mstate c [] 0 in
  let c := with_flags c (Z.ldiff (cflags c) (Z.lor CLIENT_MULTI (Z.lor CLIENT_DIRTY_CAS CLIENT_DIRTY_EXEC))) in
  unwatchAllKeys (put s i c) i.

Definition flagTransaction (c : mclient) : mclient :=
  if has (cflags c) CLIENT_MULTI then with_flags c (Z.lor (cflags c) CLIENT_DIRTY_EXEC) else c.

Definition do_multi (s : server) (i : Z) : option (server * list reply) :=
  c ← clients s !! i;
  if has (cflags c) CLIENT_MULTI then Some (s, [R_error (str "MULTI calls can not be nested")])
  else Some (put s i (with_flags c (Z.lor (cflags c) CLIENT_MULTI)), [R_ok]).

Definition do_discard (s : server) (i : Z) : option (server * list reply) :=
  c ← clients s !! i;
  if negb (has (cflags c) CLIENT_MULTI) then Some (s, [R_error (str "DISCARD without MULTI")])
  else s ← discardTransaction s i; Some (s, [R_ok]).

Definition do_watch (s : server) (i : Z) (keys : list bytes) : option (server * list reply) :=
  c ← clients s !! i;
  if has (cflags c) CLIENT_MULTI then Some (s, [R_error (str "WATCH inside MULTI is not allowed")])
  else
    s ← foldl (λ o k, s ← o; watchForKey s i k) (Some s) keys;
    Some (s, [R_ok]).

Definition do_unwatch (s : server) (i : Z) : option (server * list reply) :=
  s ← unwatchAllKeys s i;
  c ← clients s !! i;
  Some (put s i (with_flags c (Z.ldiff (cflags c) CLIENT_DIRTY_CAS)), [R_ok]).

(** The procedure of a command of the keyspace, for client [i]. *)
Definition do_other (s : server) (i : Z) (mc : multiCmd) : option (server * list reply) :=
  c ← clients s !! i;
  let r := run (data s) (db c) (authenticated c) mc in
  let s := foldl apply_signal s (r_signals r) in
  let s := foldl propagate s (PropExpire <$> r_expired r) in
  let s := set_data s (r_data r) (r_dirty r (dirty s)) in
  Some (set_clients s (alter (λ c, with_db c (r_db r) (r_auth r)) i (clients s)), R_cmd <$> r_replies r).

(** [c->cmd->proc(c)], where [exec] is the procedure of EXEC. *)
Definition run_proc (exec : server → Z → option (server * list reply))
    (s : server) (i : Z) (mc : multiCmd) : option (server * list reply) :=
  match proc (mc_cmd mc) with
  | multiCommand => do_multi s i
  | execCommand => exec s i
  | discardCommand => do_discard s i
  | watchCommand => do_watch s i (drop 1 (mc_argv mc))
  | unwatchCommand => do_unwatch s i
  | _ => do_other s i mc
  end.

(** What [c->cmd->proc(c)] leaves for [call]; the commands of this file leave nothing. *)
Definition prop_of (s : server) (i : Z) (mc : multiCmd) : option prop_info :=
  c ← clients s !! i;
  match proc (mc_cmd mc) with
  | multiCommand | execCommand | discardCommand | watchCommand | unwatchCommand => Some (PropInfo mc 0 0 [])
  | _ => Some (r_prop (run (data s) (db c) (authenticated c) mc))
  end.

(** [propagate_flags] of [call] *)
Definition propagate_flags (changes : Z) (p : prop_info) : Z :=
  let flags := if changes =? 0 then PROPAGATE_NONE else Z.lor PROPAGATE_AOF PROPAGATE_REPL in
  Z.ldiff (Z.lor flags (p_force p)) (p_prevent p).

(** What [call] hands to [propagate] after the command, which ran in database [d]: the
    command when it counted changes or forces its propagation, unless it prevents it or is
    the command of a module, and then the commands of [alsoPropagate]. *)
Definition also_sent (p : prop_info) : list propagated :=
  (λ o, PropCmd (op_target o) (op_dbid o) (op_cmd o)) <$> filter (λ o, op_target o ≠ PROPAGATE_NONE) (p_also p).

Definition call_sends (d changes : Z) (p : prop_info) : list propagated :=
  (if negb (Z.land (p_prevent p) (Z.lor PROPAGATE_AOF PROPAGATE_REPL) =? Z.lor PROPAGATE_AOF PROPAGATE_REPL)
      && negb (propagate_flags changes p =? PROPAGATE_NONE) && negb (has (cmdflags (mc_cmd (p_cmd p))) CMD_MODULE)
   then [PropCmd (propagate_flags changes p) d (p_cmd p)] else []) ++ also_sent p.

(** [call], with [CMD_CALL_FULL] or [CMD_CALL_NONE] *)
Definition call (exec : server → Z → option (server * list reply)) (full : bool)
    (s : server) (i : Z) (mc : multiCmd) : option (server * list reply) :=
  let before := dirty s in
  p ← prop_of s i mc;
  '(s, rs) ← run_proc exec s i mc;
  c ← clients s !! i;
  let changes := Z.max 0 (dirty s - before) in
  let s := if full then foldl propagate s (call_sends (db c) changes p) else s in
  Some (s, rs).

(** The loop of [execCommand]; the second component is [must_propagate].  An EXEC is never
    in the queue. *)
Fixpoint exec_loop (s : server) (i : Z) (cmds : list multiCmd) (must : bool) (rs : list reply)
    : option (server * bool * list reply) :=
  match cmds with
  | [] => Some (s, must, rs)
  | mc :: cmds =>
      c ← clients s !! i;
      let first := negb must && negb (has (cmdflags (mc_cmd mc)) (Z.lor CMD_READONLY CMD_ADMIN)) in
      let s := if first then propagate s (PropMulti (db c)) else s in
      '(s, r) ← call (λ _ _, None) (negb (loading (conditions_of (data s)))) s i mc;
      exec_loop s i cmds (must || first) (rs ++ r)
  end.

Definition do_exec (s : server) (i : Z) : option (server * list reply) :=
  c ← clients s !! i;
  let was_master := negb (masterhost (conditions_of (data s))) in
  let cond := conditions_of (data s) in
  if negb (has (cflags c) CLIENT_MULTI) then Some (s, [R_error (str "EXEC without MULTI")])
  else if has (cflags c) (Z.lor CLIENT_DIRTY_CAS CLIENT_DIRTY_EXEC) then
    s ← discardTransaction s i;
    Some (s, [if has (cflags c) CLIENT_DIRTY_EXEC then R_execabort else R_nullmultibulk])
  else if negb (loading cond) && masterhost cond && repl_slave_ro cond
          && negb (has (cflags c) CLIENT_MASTER) && has (cmd_flags c) CMD_WRITE then
    s ← discardTransaction s i;
    Some (s, [R_error (str "Transaction contains write commands but instance is now a read-only slave. EXEC aborted.")])
  else
    s ← unwatchAllKeys s i;
    '(s, must, rs) ← exec_loop s i (commands c) false [R_multilen (zlen (commands c))];
    s ← discardTransaction s i;
    let s := if (must : bool) then set_data s (data s) (dirty s + 1) else s in
    let is_master := negb (masterhost (conditions_of (data s))) in
    let s := if must && (repl_backlog (conditions_of (data s)) && was_master && negb is_master)
             then propagate s PropBacklogExec else s in
    Some (s, rs).

(** ** processCommand *)

(** The tests of [processCommand] that refuse a command, in order: the reply, and whether
    the transaction is flagged or discarded. *)
Inductive refusal := Flag (r : reply) | Discard (r : reply) | NoFlag (r : reply).

Definition wrong_arity (cmd : redisCommand) (argc : Z) : bool :=
  ((0 <? arity cmd) && negb (arity cmd =? argc)) || (argc <? - arity cmd).

(** [tolower(argv[1][0]) == ch] for a lower case letter. *)
Definition first_is (ch : Z) (mc : multiCmd) : bool :=
  match mc_argv mc !! 1%nat with
  | Some (x :: _) => (x =? ch) || (x =? ch - 32)
  | _ => false
  end.

Definition is_proc (mc : multiCmd) (p : redisCommandProc) : bool := bool_decide (proc (mc_cmd mc) = p).

(** The tests before eviction; [elsewhere] is whether the keys are served by another node. *)
Definition refuse_early (cond : conditions) (elsewhere : bool) (c : mclient) (mc : multiCmd) : option refusal :=
  if wrong_arity (mc_cmd mc) (zlen (mc_argv mc)) then Some (Flag (R_error (str "wrong number of arguments")))
  else if requirepass cond && negb (authenticated c) && negb (is_proc mc authCommand) then Some (Flag R_noauth)
  else if cluster_enabled cond && negb (has (cflags c) CLIENT_MASTER)
          && negb (negb (haskeys (mc_cmd mc)) && negb (is_proc mc execCommand)) && elsewhere then
    Some (if is_proc mc execCommand then Discard R_redirect else Flag R_redirect)
  else None.

(** The tests after it; [short] is whether [freeMemoryIfNeededAndSafe] failed. *)
Definition refuse_late (cond : conditions) (short : bool) (c : mclient) (mc : multiCmd) : option refusal :=
  let write := has (cmdflags (mc_cmd mc)) CMD_WRITE in
  if short && (has (cmdflags (mc_cmd mc)) CMD_DENYOOM
               || (has (cflags c) CLIENT_MULTI && negb (is_proc mc execCommand))) then Some (Flag R_oom)
  else if disk_error cond && negb (masterhost cond) && (write || is_proc mc pingCommand) then Some (Flag R_diskerr)
  else if negb (masterhost cond) && too_few_replicas cond && write then Some (Flag R_noreplicas)
  else if masterhost cond && repl_slave_ro cond && negb (has (cflags c) CLIENT_MASTER) && write
    then Some (NoFlag R_roslave)
  else if has (cflags c) CLIENT_PUBSUB && negb (is_proc mc pingCommand) && negb (is_proc mc subscribeCommand)
          && negb (is_proc mc unsubscribeCommand) && negb (is_proc mc psubscribeCommand)
          && negb (is_proc mc punsubscribeCommand)
    then Some (NoFlag (R_error (str "only (P)SUBSCRIBE / (P)UNSUBSCRIBE / PING / QUIT allowed in this context")))
  else if masterhost cond && link_down_no_stale cond && negb (has (cmdflags (mc_cmd mc)) CMD_STALE)
    then Some (Flag R_masterdown)
  else if loading cond && negb (has (cmdflags (mc_cmd mc)) CMD_LOADING) then Some (NoFlag R_loading)
  else if script_timedout cond && negb (is_proc mc authCommand) && negb (is_proc mc replconfCommand)
          && negb (is_proc mc shutdownCommand && (zlen (mc_argv mc) =? 2) && first_is 110 mc)
          && negb (is_proc mc scriptCommand && (zlen (mc_argv mc) =? 2) && first_is 107 mc)
    then Some (Flag R_slowscript)
  else None.

Definition refused (s : server) (i : Z) (c : mclient) (r : refusal) : option (server * list reply) :=
  match r with
  | Flag r => Some (put s i (flagTransaction c), [r])
  | NoFlag r => Some (s, [r])
  | Discard r => s ← discardTransaction s i; Some (s, [r])
  end.

(** A transaction queues everything but the commands that control it. *)
Definition queueable (mc : multiCmd) : bool :=
  negb (is_proc mc execCommand) && negb (is_proc mc discardCommand)
  && negb (is_proc mc multiCommand) && negb (is_proc mc watchCommand).

(** [strcasecmp(name, "quit") == 0] *)
Definition is_quit (name : bytes) : bool :=
  bool_decide (((λ x, if (65 <=? x) && (x <=? 90) then x + 32 else x) <$> name) = str "quit").

(** The command table. *)
Context (lookupCommand : bytes → option redisCommand).

Definition processCommand (s : server) (i : Z) (argv : list bytes) : option (server * list reply) :=
  c ← clients s !! i;
  name ← head argv;
  if is_quit name then Some (put s i (with_flags c (Z.lor (cflags c) CLIENT_CLOSE_AFTER_REPLY)), [R_ok])
  else
    match lookupCommand name with
    | None => Some (put s i (flagTransaction c), [R_error (str "unknown command")])
    | Some cmd =>
        let mc := MultiCmd cmd argv in
        let cond := conditions_of (data s) in
        match refuse_early cond (redirected (data s) c mc) c mc with
        | Some r => refused s i c r
        | None =>
            let '(s, short) :=
              if maxmemory cond && negb (script_timedout cond) then
                let '(k, gs, short) := evict (data s) in
                (set_data (foldl apply_signal s gs) k (dirty s), short)
              else (s, false) in
            c ← clients s !! i;
            match refuse_late (conditions_of (data s)) short c mc with
            | Some r => refused s i c r
            | None =>
                if has (cflags c) CLIENT_MULTI && queueable mc
                then Some (put s i (queueMultiCommand c mc), [R_queued])
                else call do_exec true s i mc
            end
        end
    end.

(** ** Connections *)

(** The fields of a new client ([createClient], [initClientMultiState]). *)
Definition new_client : mclient := MClient 0 0 [] 0 [] false.

(** The part of [freeClient] that releases the watched keys and the transaction. *)
Definition freeClient_multi (s : server) (i : Z) : option server :=
  s ← unwatchAllKeys s i;
  Some (set_clients s (delete i (clients s))).

Inductive event := Connect (i : Z) | Disconnect (i : Z) | Request (i : Z) (argv : list bytes).

(** An event of a client that does not exist does not happen. *)
Definition step (s : server) (e : event) : option (server * list reply) :=
  match e with
  | Connect i =>
      Some (match clients s !! i with None => put s i new_client | Some _ => s end, [])
  | Disconnect i =>
      match clients s !! i with
      | None => Some (s, [])
      | Some _ => s ← freeClient_multi s i; Some (s, [])
      end
  | Request i argv =>
      match clients s !! i, argv with
      | Some _, _ :: _ => processCommand s i argv
      | _, _ => Some (s, [])
      end
  end.

Fixpoint steps (s : server) (es : list event) : option (server * list (list reply)) :=
  match es with
  | [] => Some (s, [])
  | e :: es => '(s, r) ← step s e; '(s, rs) ← steps s es; Some (s, r :: rs)
  end.

Definition init_server (k : K) : server := Server ∅ ∅ k 0 [] [].

End Transactions.

Arguments server : clear implicits.
Arguments cmd_result : clear implicits.

(** ** The index of watched keys *)

(** [m] gives the watched keys of every client, [w] the clients of every watched key. *)
Definition windex (m : gmap Z (list dbkey)) (w : gmap dbkey (list Z)) : Prop :=
  (∀ i ks, m !! i = Some ks → NoDup ks) ∧
  (∀ k l, w !! k = Some l → l ≠ [] ∧ NoDup l) ∧
  (∀ i k, (∃ l, w !! k = Some l ∧ i ∈ l) ↔ (∃ ks, m !! i = Some ks ∧ k ∈ ks)).

Lemma list_del_spec l i :
  NoDup l → i ∈ l → ∃ l', list_del l i = Some l' ∧ NoDup l' ∧ ∀ j, j ∈ l' ↔ j ∈ l ∧ j ≠ i.
Proof.
  induction l as [|x l IH]; intros Hnd Hin; [by apply not_elem_of_nil in Hin|].
  apply NoDup_cons in Hnd as [Hx Hnd]. cbn [list_del].
  destruct (Z.eqb_spec x i) as [-> |Hne].
  - exists l. split; [done|]. split; [done|]. intros j. rewrite elem_of_cons. split.
    + intros Hj. split; [by right|]. by intros ->.
    + intros [[-> |?] ?]; done.
  - apply elem_of_cons in Hin as [<- |Hin]; [done|]. destruct (IH Hnd Hin) as (l' & -> & Hnd' & Hj).
    cbn [mbind option_bind]. exists (x :: l'). split; [done|]. split.
    + apply NoDup_cons. split; [|done]. rewrite Hj. tauto.
    + intros j. rewrite !elem_of_cons, Hj. split; [intros [-> |[? ?]]; tauto|tauto].
Qed.

(** One step of the loop of [unwatchAllKeys]. *)
Lemma windex_unwatch m w i k ks :
  windex (<[i := k :: ks]> m) w →
  ∃ l l', w !! k = Some l ∧ list_del l i = Some l' ∧
    windex (<[i := ks]> m) (if bool_decide (l' = []) then delete k w else <[k := l']> w).
Proof.
  intros (Hm & Hw & Hiff).
  assert (∃ l, w !! k = Some l ∧ i ∈ l) as (l & Hl & Hil).
  { apply Hiff. exists (k :: ks). rewrite lookup_insert_eq. split; [done|by left]. }
  destruct (Hw k l Hl) as [_ Hnd]. destruct (list_del_spec l i Hnd Hil) as (l' & Hd & Hnd' & Hj).
  assert (NoDup (k :: ks)) as Hks by (apply (Hm i); by rewrite lookup_insert_eq).
  apply NoDup_cons in Hks as [Hk Hks]. exists l, l'. split; [done|]. split; [done|].
  set (w' := if bool_decide _ then _ else _).
  assert (∀ j k2, (∃ l2, w' !! k2 = Some l2 ∧ j ∈ l2) ↔ (∃ l2, w !! k2 = Some l2 ∧ j ∈ l2) ∧ ¬ (k2 = k ∧ j = i)) as Hw'.
  { intros j k2. unfold w'. destruct (decide (k2 = k)) as [-> |Hne].
    - rewrite Hl. case_bool_decide as El.
      + rewrite lookup_delete_eq. split; [by intros (? & ? & _)|]. intros [(? & [= <-] & Hjl) Hn]. exfalso.
        assert (j ∈ l') as Hin by (apply Hj; split; [done|]; intros ->; by apply Hn).
        rewrite El in Hin. by apply not_elem_of_nil in Hin.
      + rewrite lookup_insert_eq. split.
        * intros (? & [= <-] & Hjl). apply Hj in Hjl as [? ?]. split; [eauto|naive_solver].
        * intros [(? & [= <-] & Hjl) Hn]. exists l'. split; [done|]. apply Hj. split; [done|]. intros ->. by apply Hn.
    - assert (w' !! k2 = w !! k2) as Ew.
      { unfold w'. case_bool_decide; [by rewrite lookup_delete_ne|by rewrite lookup_insert_ne]. }
      unfold w' in Ew. rewrite Ew. naive_solver. }
  split_and!.
  - intros j ks'. destruct (decide (j = i)) as [-> |Hne].
    + rewrite lookup_insert_eq. by intros [= <-].
    + rewrite lookup_insert_ne by done. intros Hx. apply (Hm j). by rewrite lookup_insert_ne.
  - intros k2 l2. unfold w'. case_bool_decide as El.
    + rewrite lookup_delete_Some. intros [_ Hx]. by apply (Hw k2).
    + rewrite lookup_insert_Some. intros [[<- <-]|[_ Hx]]; [done|by apply (Hw k2)].
  - intros j k2. rewrite Hw', Hiff. destruct (decide (j = i)) as [-> |Hne].
    + rewrite !lookup_insert_eq. split.
      * intros [(? & [= <-] & Hin) Hn]. exists ks. split; [done|]. apply elem_of_cons in Hin as [-> |?]; [|done].
        exfalso. by apply Hn.
      * intros (? & [= <-] & Hin). split; [exists (k :: ks); split; [done|by right]|]. intros [-> _]. done.
    + rewrite !lookup_insert_ne by done. naive_solver.
Qed.

Lemma unwatch_loop_spec i ks : ∀ m w,
  windex (<[i := ks]> m) w → ∃ w', unwatch_loop w i ks = Some w' ∧ windex (<[i := []]> m) w'.
Proof.
  induction ks as [|k ks IH]; intros m w Hi; cbn [unwatch_loop]; [eauto|].
  destruct (windex_unwatch m w i k ks Hi) as (l & l' & -> & Hd & Hi'). cbn [mbind option_bind].
  rewrite Hd. cbn [mbind option_bind]. by apply IH.
Qed.

(** The addition of a key by [watchForKey]. *)
Lemma windex_watch m w i ks k :
  windex m w → m !! i = Some ks → k ∉ ks →
  windex (<[i := ks ++ [k]]> m) (<[k := default [] (w !! k) ++ [i]]> w).
Proof.
  intros (Hm & Hw & Hiff) Hi Hk.
  assert (∀ j, j ∈ default [] (w !! k) ↔ ∃ ks, m !! j = Some ks ∧ k ∈ ks) as Hd.
  { intros j. rewrite <-Hiff. destruct (w !! k) as [l|] eqn:E; cbn [from_option id]; [naive_solver|].
    split; [by intros ?%not_elem_of_nil|naive_solver]. }
  split_and!.
  - intros j ks'. rewrite lookup_insert_Some. intros [[<- <-]|[_ Hx]]; [|by apply (Hm j)].
    apply NoDup_app. split; [by apply (Hm i)|]. split; [|by apply NoDup_singleton].
    intros x Hx. rewrite list_elem_of_singleton. by intros ->.
  - intros k2 l2. rewrite lookup_insert_Some. intros [[<- <-]|[_ Hx]]; [|by apply (Hw k2)].
    split; [by destruct (default [] (w !! k))|]. apply NoDup_app. split.
    + destruct (w !! k) as [l|] eqn:E; cbn [from_option id]; [by apply (Hw k)|by apply NoDup_nil].
    + split; [|by apply NoDup_singleton]. intros x Hx. rewrite list_elem_of_singleton. intros ->.
      apply Hd in Hx as (ks' & Hx & ?). congruence.
  - intros j k2. destruct (decide (k2 = k)) as [-> |Hne].
    + rewrite lookup_insert_eq. transitivity (j ∈ default [] (w !! k) ∨ j = i).
      { split; [intros (? & [= <-] & Hx); apply elem_of_app in Hx as [?|Hx]; [by left|right; by apply list_elem_of_singleton]|].
        intros Hx. eexists. split; [done|]. apply elem_of_app. destruct Hx as [?| ->]; [by left|right; by apply list_elem_of_singleton]. }
      rewrite Hd. destruct (decide (j = i)) as [-> |Hj].
      * rewrite lookup_insert_eq. split; [|by right]. intros _. eexists. split; [done|]. apply elem_of_app. right. by apply list_elem_of_singleton.
      * rewrite lookup_insert_ne by done. naive_solver.
    + rewrite lookup_insert_ne, Hiff by done. destruct (decide (j = i)) as [-> |Hj].
      * rewrite lookup_insert_eq, Hi. split.
        -- intros (? & [= <-] & ?). eexists. split; [done|]. apply elem_of_app. by left.
        -- intros (? & [= <-] & Hx). apply elem_of_app in Hx as [Hx|Hx]; [eauto|]. by apply list_elem_of_singleton in Hx.
      * by rewrite lookup_insert_ne.
Qed.

Lemma windex_insert_same m w i ks : m !! i = Some ks → windex m w → windex (<[i := ks]> m) w.
Proof. intros Hi H. by rewrite insert_id. Qed.

(** Clients without watched keys come and go. *)
Lemma windex_new m w i : m !! i = None → windex m w → windex (<[i := []]> m) w.
Proof.
  intros Hi (Hm & Hw & Hiff). split_and!; [|done|].
  - intros j ks. rewrite lookup_insert_Some. intros [[_ <-]|[_ ?]]; [by apply NoDup_nil|by apply (Hm j)].
  - intros j k. rewrite Hiff. destruct (decide (j = i)) as [-> |Hne]; [|by rewrite lookup_insert_ne].
    rewrite lookup_insert_eq, Hi. split; [naive_solver|]. intros (? & [= <-] & Hx). by apply not_elem_of_nil in Hx.
Qed.

Lemma windex_gone m w i : windex (<[i := []]> m) w → windex (delete i m) w.
Proof.
  intros (Hm & Hw & Hiff). split_and!; [|done|].
  - intros j ks. rewrite lookup_delete_Some. intros [? ?]. apply (Hm j). by rewrite lookup_insert_ne.
  - intros j k. rewrite Hiff. destruct (decide (j = i)) as [-> |Hne].
    + rewrite lookup_insert_eq, lookup_delete_eq. split; [|naive_solver].
      intros (? & [= <-] & Hx). by apply not_elem_of_nil in Hx.
    + by rewrite lookup_insert_ne, lookup_delete_ne.
Qed.

(** ** The invariant *)

Definition is_dirty (c : mclient) : bool := has (cflags c) CLIENT_DIRTY_CAS.

(** A queue holds queueable commands, exists only inside MULTI, and its accumulated flags
    are those of its commands. *)
Definition queue_inv (c : mclient) : Prop :=
  Forall (λ mc, queueable mc = true) (commands c) ∧
  (commands c ≠ [] → has (cflags c) CLIENT_MULTI = true) ∧
  cmd_flags c = foldl (λ f mc, Z.lor f (cmdflags (mc_cmd mc))) 0 (commands c).

Lemma has_ldiff_self f m : has (Z.ldiff f m) m = false.
Proof.
  unfold has. rewrite negb_false_iff, Z.eqb_eq. apply Z.bits_inj'. intros n _.
  rewrite Z.land_spec, Z.ldiff_spec, Z.bits_0. by destruct (Z.testbit f n), (Z.testbit m n).
Qed.

Lemma has_lor_mask f a b : has f (Z.lor a b) = has f a || has f b.
Proof.
  unfold has. rewrite Z.land_lor_distr_r.
  destruct (Z.eqb_spec (Z.land f a) 0) as [-> |Ha], (Z.eqb_spec (Z.land f b) 0) as [-> |Hb];
    cbn [negb orb]; try done; apply negb_true_iff, Z.eqb_neq; intros [? ?]%Z.lor_eq_0_iff; done.
Qed.

(** The mark of [touchWatchedKey]. *)
Definition mark (c : mclient) : mclient := with_flags c (Z.lor (cflags c) CLIENT_DIRTY_CAS).

Lemma mark_mark c : mark (mark c) = mark c.
Proof. unfold mark, with_flags. simpl. f_equal. by rewrite <-Z.lor_assoc, Z.lor_diag. Qed.

Lemma mark_dirty_true c : is_dirty (mark c) = true.
Proof. by apply has_lor_self. Qed.

Lemma foldl_mark l : ∀ m : gmap Z mclient,
  foldl mark_dirty m l = map_imap (λ i c, Some (if bool_decide (i ∈ l) then mark c else c)) m.
Proof.
  induction l as [|j l IH]; intros m; cbn [foldl].
  - apply map_eq. intros i. rewrite map_lookup_imap. by destruct (m !! i).
  - rewrite IH. apply map_eq. intros i. rewrite !map_lookup_imap. unfold mark_dirty. rewrite lookup_alter.
    destruct (decide (j = i)) as [-> |Hne]; destruct (m !! i) as [c|]; simpl; try done; f_equal.
    + rewrite (bool_decide_eq_true_2 (i ∈ i :: l)) by (by left). case_bool_decide; [apply mark_mark|done].
    + by rewrite (bool_decide_ext (i ∈ j :: l) (i ∈ l)) by (rewrite elem_of_cons; naive_solver).
Qed.

Section Invariants.

Context {K : Type} (exists_key : K → dbkey → bool).

Implicit Types s : server K.

Definition keys_of s : gmap Z (list dbkey) := watched_keys <$> clients s.

Definition inv s : Prop :=
  windex (keys_of s) (watched s) ∧ ∀ i c, clients s !! i = Some c → queue_inv c.

(** Whether a signal concerns one of the keys. *)
Definition hits (x : K * signal) (ks : list dbkey) : bool :=
  match x.2 with
  | SigKey k => bool_decide (k ∈ ks)
  | SigFlush dbid => existsb (flush_hits exists_key x.1 dbid) ks
  end.

Lemma hits_mono x ks ks' : ks ⊆ ks' → hits x ks = true → hits x ks' = true.
Proof.
  intros Hs. unfold hits. destruct (x.2) as [k|d].
  - rewrite !bool_decide_eq_true. auto.
  - rewrite !existsb_exists. intros (k & Hk & ?). exists k. split; [|done].
    rewrite <-list_elem_of_In in *. auto.
Qed.

(** What a step that does not end the transaction of client [i] does to it: its watched
    keys stay, and it is dirty when it was or when a signal of the step hit them. *)
Definition evolves (i : Z) s s' : Prop :=
  ∃ new, signals s' = signals s ++ new ∧
    ∀ c, clients s !! i = Some c →
      ∃ c', clients s' !! i = Some c' ∧ watched_keys c ⊆ watched_keys c' ∧
        (is_dirty c = true → is_dirty c' = true) ∧
        (∀ x, x ∈ new → hits x (watched_keys c) = true → is_dirty c' = true) ∧
        (is_dirty c' = true → is_dirty c = true ∨ ∃ x, x ∈ new ∧ hits x (watched_keys c') = true).

Lemma evolves_trans i s1 s2 s3 : evolves i s1 s2 → evolves i s2 s3 → evolves i s1 s3.
Proof.
  intros (n1 & E1 & H1) (n2 & E2 & H2). exists (n1 ++ n2). split; [by rewrite E2, E1, (assoc_L (++))|].
  intros c Hc. destruct (H1 c Hc) as (c2 & Hc2 & Hk2 & Hd2 & Hh2 & Hr2).
  destruct (H2 c2 Hc2) as (c3 & Hc3 & Hk3 & Hd3 & Hh3 & Hr3).
  exists c3. split; [done|]. split; [by transitivity (watched_keys c2)|]. split; [auto|]. split.
  - intros x [Hx|Hx]%elem_of_app Hit; [by eapply Hd3, Hh2|]. eapply Hh3; [done|]. by eapply hits_mono.
  - intros Hd. destruct (Hr3 Hd) as [Hd'|(x & Hx & Hit)].
    + destruct (Hr2 Hd') as [?|(x & Hx & Hit)]; [by left|]. right. exists x. split; [apply elem_of_app; by left|].
      by eapply hits_mono.
    + right. exists x. split; [apply elem_of_app; by right|done].
Qed.

Lemma evolves_same i s s' :
  signals s' = signals s →
  (∀ c, clients s !! i = Some c → ∃ c', clients s' !! i = Some c' ∧ watched_keys c ⊆ watched_keys c' ∧
     is_dirty c' = is_dirty c) →
  evolves i s s'.
Proof.
  intros E H. exists []. split; [by rewrite E, app_nil_r|]. intros c Hc.
  destruct (H c Hc) as (c' & Hc' & Hk & Hd). exists c'. split; [done|]. split; [done|]. rewrite Hd.
  split; [done|]. split; [by intros x ?%not_elem_of_nil|by left].
Qed.

Lemma evolves_refl i s : evolves i s s.
Proof. apply evolves_same; [done|]. eauto. Qed.

(** The clients of a state in which only one of them changed. *)
Lemma evolves_put_other i j s c' : i ≠ j → evolves i s (put s j c').
Proof. intros Hne. apply evolves_same; [done|]. intros c Hc. exists c. simpl. by rewrite lookup_insert_ne. Qed.

Lemma evolves_put j s c c' :
  clients s !! j = Some c → watched_keys c ⊆ watched_keys c' → is_dirty c' = is_dirty c → ∀ i, evolves i s (put s j c').
Proof.
  intros Hj Hk Hd i. destruct (decide (i = j)) as [-> |Hne]; [|by apply evolves_put_other].
  apply evolves_same; [done|]. intros c0 Hc0. assert (c0 = c) as -> by congruence.
  exists c'. simpl. by rewrite lookup_insert_eq.
Qed.

(** ** Signals *)

Lemma flush_fold d dbid ks : ∀ c,
  foldl (λ c k, if flush_hits exists_key d dbid k then with_flags c (Z.lor (cflags c) CLIENT_DIRTY_CAS) else c) c ks
  = if existsb (flush_hits exists_key d dbid) ks then mark c else c.
Proof.
  induction ks as [|k ks IH]; intros c; cbn [foldl existsb]; [done|]. rewrite IH.
  destruct (flush_hits _ d dbid k); cbn [orb]; [|done]. fold (mark c).
  destruct (existsb _ ks); [apply mark_mark|done].
Qed.

(** The effect of a signal on the clients, in one formula for both kinds. *)
Lemma apply_signal_clients s g :
  windex (keys_of s) (watched s) →
  clients (apply_signal exists_key s g)
  = (λ c, if hits (data s, g) (watched_keys c) then mark c else c) <$> clients s.
Proof.
  intros (_ & _ & Hiff). unfold apply_signal, hits. destruct g as [k|dbid]; simpl.
  - unfold touchWatchedKey. apply map_eq. intros i.
    assert (∀ c, clients s !! i = Some c → (∃ l, watched s !! k = Some l ∧ i ∈ l) ↔ k ∈ watched_keys c) as Hi.
    { intros c Hc. rewrite Hiff. unfold keys_of. rewrite lookup_fmap, Hc. simpl. naive_solver. }
    rewrite lookup_fmap. destruct (watched s !! k) as [l|] eqn:El; simpl.
    + rewrite foldl_mark, map_lookup_imap. destruct (clients s !! i) as [c|] eqn:Ec; simpl; [|done].
      specialize (Hi c eq_refl). f_equal.
      rewrite (bool_decide_ext (i ∈ l) (k ∈ watched_keys c)) by naive_solver. done.
    + destruct (clients s !! i) as [c|] eqn:Ec; simpl; [|done]. f_equal.
      rewrite bool_decide_eq_false_2; [done|]. specialize (Hi c eq_refl). naive_solver.
  - apply map_eq. intros i. rewrite !lookup_fmap. destruct (clients s !! i); simpl; [|done]. f_equal. apply flush_fold.
Qed.

Lemma apply_signal_rest s g :
  watched (apply_signal exists_key s g) = watched s ∧ data (apply_signal exists_key s g) = data s ∧
  dirty (apply_signal exists_key s g) = dirty s ∧ propagation (apply_signal exists_key s g) = propagation s ∧
  signals (apply_signal exists_key s g) = signals s ++ [(data s, g)].
Proof. unfold apply_signal, touchWatchedKey. destruct g as [k|dbid]; simpl; [destruct (watched s !! k)|]; done. Qed.

Lemma inv_put s j c c' :
  inv s → clients s !! j = Some c → watched_keys c' = watched_keys c → queue_inv c' → inv (put s j c').
Proof.
  intros [Hw Hq] Hj Hk Hc'. split.
  - unfold keys_of. simpl. rewrite fmap_insert. apply windex_insert_same; [|done].
    by rewrite lookup_fmap, Hj, Hk.
  - intros i c0. simpl. rewrite lookup_insert_Some. intros [[_ <-]|[_ ?]]; [done|by apply (Hq i)].
Qed.

Lemma queue_inv_flags c f :
  queue_inv c → has f CLIENT_MULTI = has (cflags c) CLIENT_MULTI → queue_inv (with_flags c f).
Proof. intros (H1 & H2 & H3) Hf. split; [done|]. split; [|done]. simpl. by rewrite Hf. Qed.

Lemma mark_queue_inv c : queue_inv c → queue_inv (mark c).
Proof. intros H. apply queue_inv_flags; [done|]. by apply has_lor_disjoint. Qed.

Lemma apply_signal_good s g : inv s → inv (apply_signal exists_key s g) ∧ ∀ i, evolves i s (apply_signal exists_key s g).
Proof.
  intros [Hw Hq]. pose proof (apply_signal_clients s g Hw) as Hc.
  destruct (apply_signal_rest s g) as (Ew & _ & _ & _ & Es).
  set (s' := apply_signal exists_key s g) in *. split; [split|].
  - unfold keys_of. rewrite Ew, Hc, <-map_fmap_compose.
    replace (_ <$> clients s) with (keys_of s); [done|]. unfold keys_of. apply map_fmap_ext. intros i c _. simpl.
    by destruct (hits _ _).
  - intros i c. rewrite Hc, lookup_fmap_Some. intros (c0 & <- & Hc0). specialize (Hq i c0 Hc0).
    destruct (hits _ _); [by apply mark_queue_inv|done].
  - intros i. exists [(data s, g)]. split; [done|]. intros c Hi. rewrite Hc, lookup_fmap, Hi. simpl.
    eexists. split; [done|]. destruct (hits (data s, g) (watched_keys c)) eqn:Eh; simpl.
    + split; [done|]. split; [by intros; apply mark_dirty_true|]. split; [by intros; apply mark_dirty_true|].
      intros _. right. eexists. by split; [left|].
    + split; [done|]. split; [done|]. split; [|by left]. intros x ->%list_elem_of_singleton. congruence.
Qed.

Lemma signals_good gs : ∀ s,
  inv s → inv (foldl (apply_signal exists_key) s gs) ∧ (∀ i, evolves i s (foldl (apply_signal exists_key) s gs)) ∧
    data (foldl (apply_signal exists_key) s gs) = data s ∧ dirty (foldl (apply_signal exists_key) s gs) = dirty s ∧
    propagation (foldl (apply_signal exists_key) s gs) = propagation s.
Proof.
  induction gs as [|g gs IH]; intros s Hi; cbn [foldl].
  { split; [done|]. split; [intros i; apply evolves_refl|done]. }
  destruct (apply_signal_good s g Hi) as [Hi1 He1]. destruct (IH _ Hi1) as (Hi2 & He2 & Ed & Edi & Ep).
  destruct (apply_signal_rest s g) as (_ & Ed' & Edi' & Ep' & _).
  split; [done|]. split; [intros i; by eapply evolves_trans|]. split_and!; congruence.
Qed.

(** ** Operations *)

(** The outcome of an operation of client [j]: it succeeds, the invariant holds, and the
    clients, [j] included unless [clear], evolve as the signals raised require. *)
Definition good (j : Z) (clear : bool) s (o : option (server K * list reply)) : Prop :=
  ∃ s' rs, o = Some (s', rs) ∧ inv s' ∧ is_Some (clients s' !! j) ∧
    ∀ i, (i = j → clear = false) → evolves i s s'.

Lemma good_bind j clear s1 s (f : server K → list reply → option (server K * list reply)) o :
  good j clear s1 o →
  (∀ s' rs, o = Some (s', rs) → inv s' → is_Some (clients s' !! j) → good j clear s' (f s' rs)) →
  (∀ i, (i = j → clear = false) → evolves i s s1) →
  good j clear s ('(s', rs) ← o; f s' rs).
Proof.
  intros (s2 & rs & -> & Hi2 & Hj2 & He2) Hf Hs. cbn [mbind option_bind].
  destruct (Hf s2 rs) as (s3 & rs3 & E3 & Hi3 & Hj3 & He3); [done..|].
  exists s3, rs3. split; [done|]. split; [done|]. split; [done|]. intros i Hc.
  eapply evolves_trans; [by apply Hs|]. eapply evolves_trans; [by apply He2|by apply He3].
Qed.

Lemma good_put j s c c' rs clear :
  inv s → clients s !! j = Some c → watched_keys c' = watched_keys c → queue_inv c' →
  (clear = false → is_dirty c' = is_dirty c) → good j clear s (Some (put s j c', rs)).
Proof.
  intros Hi Hj Hk Hq Hd. exists (put s j c'), rs. split; [done|]. split; [by eapply inv_put|].
  split; [simpl; rewrite lookup_insert_eq; eauto|]. intros i Hc.
  destruct (decide (i = j)) as [-> |Hne]; [|by apply evolves_put_other].
  eapply evolves_put; [done|by rewrite Hk|auto].
Qed.

Lemma good_same j s rs clear : inv s → is_Some (clients s !! j) → good j clear s (Some (s, rs)).
Proof. intros Hi Hj. exists s, rs. split; [done|]. split; [done|]. split; [done|]. intros i _. apply evolves_refl. Qed.

Lemma unwatchAllKeys_spec j s c :
  inv s → clients s !! j = Some c →
  ∃ w, unwatchAllKeys s j = Some (put (set_watched s w) j (with_watched c [])) ∧
    inv (put (set_watched s w) j (with_watched c [])) ∧
    ∀ i, i ≠ j → evolves i s (put (set_watched s w) j (with_watched c [])).
Proof.
  intros [Hw Hq] Hj. unfold unwatchAllKeys. rewrite Hj. cbn [mbind option_bind].
  destruct (unwatch_loop_spec j (watched_keys c) (keys_of s) (watched s)) as (w & -> & Hw').
  { apply windex_insert_same; [|done]. unfold keys_of. by rewrite lookup_fmap, Hj. }
  cbn [mbind option_bind]. exists w. split; [done|]. split; [split|].
  - unfold keys_of. simpl. rewrite fmap_insert. done.
  - intros i c0. simpl. rewrite lookup_insert_Some. intros [[_ <-]|[_ ?]]; [exact (Hq j c Hj)|by apply (Hq i)].
  - intros i Hne. apply evolves_same; [done|]. intros c0 Hc0. exists c0. simpl. by rewrite lookup_insert_ne.
Qed.

Lemma watchForKey_good j s key :
  inv s → is_Some (clients s !! j) →
  ∃ s', watchForKey s j key = Some s' ∧ inv s' ∧ is_Some (clients s' !! j) ∧ ∀ i, evolves i s s'.
Proof.
  intros [Hw Hq] [c Hj]. unfold watchForKey. rewrite Hj. cbn [mbind option_bind]. case_bool_decide as Hin.
  { exists s. split; [done|]. split; [done|]. split; [eauto|]. intros i. apply evolves_refl. }
  eexists. split; [done|]. split; [split|split].
  - unfold keys_of. simpl. rewrite fmap_insert. apply windex_watch; [done| |done].
    unfold keys_of. by rewrite lookup_fmap, Hj.
  - intros i c0. simpl. rewrite lookup_insert_Some. intros [[_ <-]|[_ ?]]; [exact (Hq j c Hj)|by apply (Hq i)].
  - simpl. rewrite lookup_insert_eq. eauto.
  - intros i. apply evolves_same; [done|]. intros c0 Hc0. simpl. destruct (decide (i = j)) as [-> |Hne].
    + rewrite lookup_insert_eq. eexists. split; [done|]. simpl. assert (c0 = c) as -> by congruence.
      split; [|done]. intros k Hk. apply elem_of_app. by left.
    + rewrite lookup_insert_ne by done. eauto.
Qed.

Lemma discardTransaction_spec j s c :
  inv s → clients s !! j = Some c →
  ∃ s' c', discardTransaction s j = Some s' ∧ inv s' ∧ clients s' !! j = Some c' ∧
    has (cflags c') CLIENT_MULTI = false ∧ is_dirty c' = false ∧ has (cflags c') CLIENT_DIRTY_EXEC = false ∧
    commands c' = [] ∧ watched_keys c' = [] ∧ db c' = db c ∧ authenticated c' = authenticated c ∧
    data s' = data s ∧ dirty s' = dirty s ∧ propagation s' = propagation s ∧ signals s' = signals s ∧
    ∀ i, i ≠ j → evolves i s s'.
Proof.
  intros Hi Hj. unfold discardTransaction. rewrite Hj. cbn [mbind option_bind].
  set (c1 := with_flags _ _). set (s1 := put s j c1).
  assert (inv s1) as Hi1. { eapply inv_put; [done|done|done|]. split; [by apply Forall_nil|]. by split. }
  destruct (unwatchAllKeys_spec j s1 c1) as (w & -> & Hi2 & He2); [done|simpl; by rewrite lookup_insert_eq|].
  eexists _, (with_watched c1 []). split; [done|]. split; [done|]. split; [simpl; by rewrite lookup_insert_eq|].
  assert (∀ m, Z.land m (Z.lor CLIENT_MULTI (Z.lor CLIENT_DIRTY_CAS CLIENT_DIRTY_EXEC)) = m → has (cflags c1) m = false) as Hf.
  { intros m Hm. destruct (has (cflags c1) m) eqn:E; [|done]. apply (has_mono _ _ _ Hm) in E.
    unfold c1 in E. simpl in E. by rewrite has_ldiff_self in E. }
  split; [by apply Hf|]. split; [by apply Hf|]. split; [by apply Hf|]. split_and!; try done.
  intros i Hne. eapply evolves_trans; [|by apply He2]. by apply evolves_put_other.
Qed.

Lemma do_multi_good j s : inv s → is_Some (clients s !! j) → good j false s (do_multi s j).
Proof.
  intros Hi [c Hj]. unfold do_multi. rewrite Hj. cbn [mbind option_bind].
  destruct (has (cflags c) CLIENT_MULTI) eqn:E; [apply good_same; eauto|].
  eapply good_put; [done|done|done| |].
  - destruct (proj2 Hi j c Hj) as (H1 & H2 & H3). split; [done|]. split; [|done]. intros Hne.
    specialize (H2 Hne). congruence.
  - intros _. by apply has_lor_disjoint.
Qed.

Lemma do_discard_good j s : inv s → is_Some (clients s !! j) → good j true s (do_discard s j).
Proof.
  intros Hi [c Hj]. unfold do_discard. rewrite Hj. cbn [mbind option_bind].
  destruct (negb _); [apply good_same; eauto|].
  destruct (discardTransaction_spec j s c Hi Hj) as (s' & c' & -> & Hi' & Hc' & H). cbn [mbind option_bind].
  exists s', [R_ok]. split; [done|]. split; [done|]. split; [eauto|]. intros i Hc. apply H. naive_solver.
Qed.

Lemma do_watch_good j s keys : inv s → is_Some (clients s !! j) → good j false s (do_watch s j keys).
Proof.
  intros Hi Hj. unfold do_watch. destruct Hj as [c Hj]. rewrite Hj. cbn [mbind option_bind].
  destruct (has _ _); [apply good_same; eauto|].
  assert (∀ s, inv s → is_Some (clients s !! j) →
    ∃ s', foldl (λ o k, s ← o; watchForKey s j k) (Some s) keys = Some s' ∧ inv s' ∧ is_Some (clients s' !! j) ∧
      ∀ i, evolves i s s') as Hloop.
  { induction keys as [|k keys IH]; intros s0 Hi0 Hj0; cbn [foldl].
    - exists s0. split; [done|]. split; [done|]. split; [done|]. intros i. apply evolves_refl.
    - cbn [mbind option_bind]. destruct (watchForKey_good j s0 k Hi0 Hj0) as (s1 & -> & Hi1 & Hj1 & He1).
      destruct (IH s1 Hi1 Hj1) as (s2 & -> & Hi2 & Hj2 & He2). exists s2. split; [done|]. split; [done|].
      split; [done|]. intros i. by eapply evolves_trans. }
  destruct (Hloop s Hi ltac:(eauto)) as (s' & -> & Hi' & Hj' & He'). cbn [mbind option_bind].
  exists s', [R_ok]. split; [done|]. split; [done|]. split; [done|]. auto.
Qed.

Lemma do_unwatch_good j s : inv s → is_Some (clients s !! j) → good j true s (do_unwatch s j).
Proof.
  intros Hi [c Hj]. unfold do_unwatch. destruct (unwatchAllKeys_spec j s c Hi Hj) as (w & -> & Hi1 & He1).
  cbn [mbind option_bind]. set (s1 := put _ _ _) in *.
  assert (clients s1 !! j = Some (with_watched c [])) as Hj1 by (simpl; by rewrite lookup_insert_eq).
  rewrite Hj1. cbn [mbind option_bind].
  destruct (good_put j s1 (with_watched c [])
              (with_flags (with_watched c []) (Z.ldiff (cflags (with_watched c [])) CLIENT_DIRTY_CAS)) [R_ok] true)
    as (s2 & rs & [= <- <-] & Hi2 & Hj2 & He2); [done|done|done| |done|].
  { apply queue_inv_flags; [exact (proj2 Hi1 j _ Hj1)|]. by apply has_ldiff_disjoint. }
  eexists _, _. split; [done|]. split; [done|]. split; [done|]. intros i Hc.
  eapply evolves_trans; [apply He1; naive_solver|by apply He2].
Qed.

Context (conditions_of : K → conditions).
Context (run : K → Z → bool → multiCmd → cmd_result K).

Lemma inv_set_data s k d : inv s → inv (set_data s k d).
Proof. done. Qed.

Lemma propagate_all s ps :
  foldl propagate s ps = Server (clients s) (watched s) (data s) (dirty s) (propagation s ++ ps) (signals s).
Proof.
  revert s. induction ps as [|p ps IH]; intros s; cbn [foldl]; [rewrite app_nil_r; by destruct s|].
  rewrite IH. simpl. by rewrite <-(assoc_L (++)).
Qed.

Lemma evolves_clients i s s' : signals s' = signals s → clients s' = clients s → evolves i s s'.
Proof. intros Hs Hc. apply evolves_same; [done|]. rewrite Hc. eauto. Qed.

Lemma do_other_good j s mc : inv s → is_Some (clients s !! j) → good j false s (do_other exists_key run s j mc).
Proof.
  intros Hi [c Hj]. unfold do_other. rewrite Hj. cbn [mbind option_bind]. cbv zeta.
  set (r := run _ _ _ _). destruct (signals_good (r_signals r) s Hi) as (Hi1 & He1 & _).
  set (s1 := foldl _ s _) in *. destruct (He1 j) as (new & _ & H). destruct (H c Hj) as (c1 & Hc1 & _).
  rewrite propagate_all. set (s2 := set_data _ _ _).
  replace (set_clients s2 (alter _ j (clients s2))) with (put s2 j (with_db c1 (r_db r) (r_auth r))).
  2:{ unfold put. f_equal. apply map_eq. intros i. destruct (decide (i = j)) as [-> |Hne].
      - change (clients s2) with (clients s1). by rewrite lookup_insert_eq, lookup_alter_eq, Hc1.
      - by rewrite lookup_insert_ne, lookup_alter_ne. }
  destruct (good_put j s2 c1 (with_db c1 (r_db r) (r_auth r)) (R_cmd <$> r_replies r) false) as (s3 & rs & [= <- <-] & Hi3 & Hj3 & He3);
    [done|done|done|exact (proj2 Hi1 j c1 Hc1)|done|].
  eexists _, _. split; [done|]. split; [done|]. split; [done|]. intros i _.
  eapply evolves_trans; [apply He1|]. eapply evolves_trans; [by apply (evolves_clients i s1 s2)|]. by apply He3.
Qed.

(** The procedures that end what the client watches. *)
Definition clears (mc : multiCmd) : bool :=
  is_proc mc execCommand || is_proc mc discardCommand || is_proc mc unwatchCommand.

Lemma good_weaken j s o : good j false s o → good j true s o.
Proof. intros (s' & rs & E & Hi & Hj & He). exists s', rs. split; [done|]. split; [done|]. split; [done|]. auto. Qed.

Lemma run_proc_good exec j s mc :
  inv s → is_Some (clients s !! j) →
  (proc (mc_cmd mc) = execCommand → good j true s (exec s j)) →
  good j (clears mc) s (run_proc exists_key run exec s j mc).
Proof.
  intros Hi Hj Hex. unfold run_proc, clears, is_proc.
  destruct (proc (mc_cmd mc)) eqn:E; try (by apply do_other_good); try (by apply do_multi_good);
    try (by apply do_discard_good); try (by apply do_watch_good); try (by apply do_unwatch_good).
  by apply Hex.
Qed.

Lemma prop_of_some s j mc : is_Some (clients s !! j) → is_Some (prop_of run s j mc).
Proof. intros [c Hj]. unfold prop_of. rewrite Hj. cbn [mbind option_bind]. destruct (proc _); eauto. Qed.

Lemma call_good exec full j s mc :
  inv s → is_Some (clients s !! j) →
  (proc (mc_cmd mc) = execCommand → good j true s (exec s j)) →
  good j (clears mc) s (call exists_key run exec full s j mc).
Proof.
  intros Hi Hj Hex. unfold call. destruct (prop_of_some s j mc Hj) as [p ->]. cbn [mbind option_bind].
  apply (good_bind j (clears mc) s s (λ s' rs, c ← clients s' !! j; _)).
  - by apply run_proc_good.
  - intros s1 rs _ Hi1 [c Hc]. rewrite Hc. cbn [mbind option_bind]. cbv zeta.
    destruct full; [|apply good_same; eauto]. rewrite propagate_all.
    eexists _, rs. split; [done|]. split; [done|]. split; [eauto|].
    intros i _. by apply evolves_clients.
  - intros i _. apply evolves_refl.
Qed.

Lemma exec_loop_good cmds : ∀ j s must rs,
  inv s → is_Some (clients s !! j) → Forall (λ mc, queueable mc = true) cmds →
  ∃ s' must' rs', exec_loop conditions_of exists_key run s j cmds must rs = Some (s', must', rs') ∧ inv s' ∧
    is_Some (clients s' !! j) ∧ ∀ i, i ≠ j → evolves i s s'.
Proof.
  induction cmds as [|mc cmds IH]; intros j s must rs Hi Hj Hq; cbn [exec_loop].
  { exists s, must, rs. split; [done|]. split; [done|]. split; [done|]. intros i _. apply evolves_refl. }
  apply Forall_cons in Hq as [Hmc Hq]. destruct Hj as [c Hc]. rewrite Hc. cbn [mbind option_bind]. cbv zeta.
  set (first := _ && _). set (s1 := if first then _ else s).
  assert (inv s1 ∧ clients s1 = clients s ∧ signals s1 = signals s) as (Hi1 & Hc1 & Hs1) by (by unfold s1; destruct first).
  destruct (call_good (λ _ _, None) (negb (loading (conditions_of (data s1)))) j s1 mc) as (s2 & rs2 & -> & Hi2 & Hj2 & He2).
  { done. } { rewrite Hc1. eauto. }
  { intros E. unfold queueable, is_proc in Hmc. rewrite E in Hmc. done. }
  cbn [mbind option_bind]. destruct (IH j s2 (must || first) (rs ++ rs2)) as (s3 & must' & rs' & -> & Hi3 & Hj3 & He3); [done..|].
  exists s3, must', rs'. split; [done|]. split; [done|]. split; [done|]. intros i Hne.
  eapply evolves_trans; [by apply (evolves_clients i s s1)|].
  eapply evolves_trans; [apply He2; naive_solver|by apply He3].
Qed.

Lemma do_exec_good j s : inv s → is_Some (clients s !! j) → good j true s (do_exec conditions_of exists_key run s j).
Proof.
  intros Hi [c Hj]. unfold do_exec. rewrite Hj. cbn [mbind option_bind]. cbv zeta.
  destruct (negb _); [apply good_same; eauto|].
  assert (∀ s rs, inv s → is_Some (clients s !! j) → good j true s (s' ← discardTransaction s j; Some (s', rs))) as Hdis.
  { intros s0 rs Hi0 [c0 Hc0]. destruct (discardTransaction_spec j s0 c0 Hi0 Hc0) as (s' & c' & -> & Hi' & Hc' & H).
    cbn [mbind option_bind]. exists s', rs. split; [done|]. split; [done|]. split; [eauto|].
    intros i Hc. apply H. naive_solver. }
  destruct (has _ (Z.lor CLIENT_DIRTY_CAS _)); [by apply Hdis; eauto|].
  destruct (_ && _); [by apply Hdis; eauto|].
  destruct (unwatchAllKeys_spec j s c Hi Hj) as (w & -> & Hi1 & He1). cbn [mbind option_bind].
  set (s1 := put _ _ _) in *.
  destruct (exec_loop_good (commands c) j s1 false [R_multilen (zlen (commands c))]) as (s2 & must & rs & -> & Hi2 & [c2 Hj2] & He2).
  { done. } { simpl. rewrite lookup_insert_eq. eauto. } { by destruct (proj2 Hi j c Hj). }
  cbn [mbind option_bind].
  destruct (discardTransaction_spec j s2 c2 Hi2 Hj2) as (s3 & c3 & -> & Hi3 & Hc3 & H3). cbn [mbind option_bind].
  set (s4 := if must then _ else s3). set (s5 := if _ && _ then _ else s4).
  assert (inv s5 ∧ clients s5 = clients s3 ∧ signals s5 = signals s3) as (Hi5 & Hc5 & Hs5).
  { unfold s5, s4. destruct must, (_ && _); done. }
  exists s5, rs. split; [done|]. split; [done|]. split; [rewrite Hc5; eauto|]. intros i Hc.
  assert (i ≠ j) as Hne by naive_solver.
  eapply evolves_trans; [by apply He1|]. eapply evolves_trans; [by apply He2|].
  eapply evolves_trans; [by apply H3|]. by apply evolves_clients.
Qed.

Context (evict : K → K * list signal * bool).
Context (redirected : K → mclient → multiCmd → bool).
Context (lookupCommand : bytes → option redisCommand).

Lemma flagTransaction_props c :
  queue_inv c → queue_inv (flagTransaction c) ∧ watched_keys (flagTransaction c) = watched_keys c ∧
  is_dirty (flagTransaction c) = is_dirty c.
Proof.
  intros Hq. unfold flagTransaction. destruct (has _ _); [|done]. split_and!; [|done|by apply has_lor_disjoint].
  apply queue_inv_flags; [done|by apply has_lor_disjoint].
Qed.

Lemma refused_good j s c mc r :
  inv s → clients s !! j = Some c → (∀ r', r = Discard r' → clears mc = true) →
  good j (clears mc) s (refused s j c r).
Proof.
  intros Hi Hj Hr. destruct (flagTransaction_props c (proj2 Hi j c Hj)) as (Hq & Hk & Hd). destruct r as [r|r|r]; cbn [refused].
  - by eapply good_put.
  - rewrite (Hr r) by done. destruct (discardTransaction_spec j s c Hi Hj) as (s' & c' & -> & Hi' & Hc' & H).
    cbn [mbind option_bind]. exists s', [r]. split; [done|]. split; [done|]. split; [eauto|].
    intros i Hc. apply H. naive_solver.
  - apply good_same; eauto.
Qed.

Lemma refuse_early_discard cond b c mc r : refuse_early cond b c mc = Some (Discard r) → clears mc = true.
Proof.
  unfold refuse_early, clears. destruct (wrong_arity _ _); [done|]. destruct (_ && _); [done|].
  destruct (_ && _); [|done]. by destruct (is_proc mc execCommand).
Qed.

Lemma refuse_late_discard cond b c mc r : refuse_late cond b c mc ≠ Some (Discard r).
Proof. unfold refuse_late. by repeat (destruct (_ && _); [done|]). Qed.

Lemma queueMultiCommand_inv c mc :
  queue_inv c → has (cflags c) CLIENT_MULTI = true → queueable mc = true → queue_inv (queueMultiCommand c mc).
Proof.
  intros (H1 & H2 & H3) Hm Hq. unfold queueMultiCommand. split; [|split]; simpl.
  - apply Forall_app. by split; [|apply Forall_singleton].
  - done.
  - by rewrite foldl_app, H3.
Qed.

(** The request may end what its client watches. *)
Definition request_clears (argv : list bytes) : bool :=
  match argv with
  | [] => false
  | name :: _ => match lookupCommand name with
                 | Some cmd => clears (MultiCmd cmd argv)
                 | None => false
                 end
  end.

Lemma processCommand_good j s argv :
  inv s → is_Some (clients s !! j) → argv ≠ [] →
  good j (request_clears argv) s
    (processCommand conditions_of exists_key run evict redirected lookupCommand s j argv).
Proof.
  intros Hi [c Hj] Hne. unfold processCommand. rewrite Hj. cbn [mbind option_bind].
  destruct argv as [|name args]; [done|]. cbn [head mbind option_bind request_clears].
  destruct (flagTransaction_props c (proj2 Hi j c Hj)) as (Hq & Hk & Hd).
  destruct (is_quit name).
  { eapply good_put; [done|done|done| |intros _; by apply has_lor_disjoint].
    apply queue_inv_flags; [exact (proj2 Hi j c Hj)|by apply has_lor_disjoint]. }
  destruct (lookupCommand name) as [cmd|]; [|by eapply good_put].
  set (mc := MultiCmd cmd (name :: args)). cbv zeta.
  destruct (refuse_early _ _ c mc) as [r|] eqn:Er.
  { apply refused_good; [done|done|]. intros r' ->. by eapply refuse_early_discard. }
  set (p := if _ && _ then _ else _).
  assert (∃ s1 short, p = (s1, short) ∧ inv s1 ∧ is_Some (clients s1 !! j) ∧ ∀ i, evolves i s s1)
    as (s1 & short & -> & Hi1 & [c1 Hj1] & He1).
  { unfold p. destruct (_ && _).
    - destruct (evict (data s)) as [[k gs] short]. destruct (signals_good gs s Hi) as (Hi1 & He1 & _).
      eexists _, short. split; [done|]. split; [by apply inv_set_data|]. destruct (He1 j) as (new & _ & H).
      destruct (H c Hj) as (c' & Hc' & _). split; [simpl; eauto|]. intros i.
      eapply evolves_trans; [apply He1|]. by apply evolves_clients.
    - exists s, false. split; [done|]. split; [done|]. split; [eauto|]. intros i. apply evolves_refl. }
  rewrite Hj1. cbn [mbind option_bind].
  assert (∀ o, good j (clears mc) s1 o → good j (clears mc) s o) as Hfrom.
  { intros o (s2 & rs & -> & Hi2 & Hj2 & He2). exists s2, rs. split; [done|]. split; [done|]. split; [done|].
    intros i Hc. eapply evolves_trans; [apply He1|by apply He2]. }
  apply Hfrom. destruct (refuse_late _ short c1 mc) as [r|] eqn:El.
  { apply refused_good; [done|done|]. intros r' ->. by apply refuse_late_discard in El. }
  destruct (has (cflags c1) CLIENT_MULTI && queueable mc) eqn:Eq.
  - apply andb_true_iff in Eq as [Em Eq]. eapply good_put; [done|done|done| |done].
    apply queueMultiCommand_inv; [exact (proj2 Hi1 j c1 Hj1)|done|done].
  - apply call_good; [done|eauto|]. intros _. apply do_exec_good; [done|eauto].
Qed.

(** The event ends what client [i] watches. *)
Definition ends_watch (i : Z) (e : event) : bool :=
  match e with
  | Connect _ => false
  | Disconnect j => j =? i
  | Request j argv => (j =? i) && request_clears argv
  end.

Lemma step_good s e :
  inv s → ∃ s' rs, step conditions_of exists_key run evict redirected lookupCommand s e = Some (s', rs) ∧ inv s' ∧
    ∀ i, ends_watch i e = false → evolves i s s'.
Proof.
  intros Hi. destruct e as [j|j|j argv]; cbn [step ends_watch].
  - eexists _, []. split; [done|]. destruct (clients s !! j) as [c|] eqn:Ej.
    + split; [done|]. intros i _. apply evolves_refl.
    + destruct Hi as [Hw Hq]. split; [split|].
      * unfold keys_of. simpl. rewrite fmap_insert. apply windex_new; [|done]. unfold keys_of. by rewrite lookup_fmap, Ej.
      * intros i c. simpl. rewrite lookup_insert_Some. intros [[_ <-]|[_ ?]]; [by split|by apply (Hq i)].
      * intros i _. apply evolves_same; [done|]. intros c Hc. exists c. simpl. rewrite lookup_insert_ne by congruence. done.
  - destruct (clients s !! j) as [c|] eqn:Ej.
    2:{ exists s, []. split; [done|]. split; [done|]. intros i _. apply evolves_refl. }
    unfold freeClient_multi. destruct (unwatchAllKeys_spec j s c Hi Ej) as (w & -> & [Hw1 Hq1] & He1). cbn [mbind option_bind].
    set (s1 := put _ _ _) in *. eexists _, []. split; [done|]. split; [split|].
    + unfold keys_of in *. simpl in *. rewrite fmap_delete. apply windex_gone. rewrite fmap_insert in Hw1 |- *.
      by rewrite insert_insert_eq.
    + intros i c0. simpl. rewrite lookup_delete_Some. intros [Hne Hc0]. by apply (Hq1 i).
    + intros i Hne. rewrite Z.eqb_neq in Hne. eapply evolves_trans; [apply He1; congruence|].
      apply evolves_same; [done|]. intros c0 Hc0. exists c0. simpl in *. by rewrite lookup_delete_ne.
  - destruct (clients s !! j) as [c|] eqn:Ej; [|exists s, []; split; [done|]; split; [done|]; intros i _; apply evolves_refl].
    destruct argv as [|name args]; [exists s, []; split; [done|]; split; [done|]; intros i _; apply evolves_refl|].
    destruct (processCommand_good j s (name :: args) Hi) as (s' & rs & E & Hi' & _ & He'); [eauto|done|].
    exists s', rs. split; [done|]. split; [done|]. intros i Hc. apply He'. intros ->. by rewrite Z.eqb_refl in Hc.
Qed.

Lemma steps_good es : ∀ s,
  inv s → ∃ s' rs, steps conditions_of exists_key run evict redirected lookupCommand s es = Some (s', rs) ∧ inv s' ∧
    ∀ i, Forall (λ e, ends_watch i e = false) es → evolves i s s'.
Proof.
  induction es as [|e es IH]; intros s Hi; cbn [steps].
  { exists s, []. split; [done|]. split; [done|]. intros i _. apply evolves_refl. }
  destruct (step_good s e Hi) as (s1 & r & -> & Hi1 & He1). cbn [mbind option_bind].
  destruct (IH s1 Hi1) as (s2 & rs & -> & Hi2 & He2). cbn [mbind option_bind].
  exists s2, (r :: rs). split; [done|]. split; [done|]. intros i Hall. apply Forall_cons in Hall as [Hc Hall].
  eapply evolves_trans; [by apply He1|by apply He2].
Qed.

End Invariants.

(** ** The outcome of EXEC *)

Section Exec.

Context {K : Type} (conditions_of : K → conditions) (exists_key : K → dbkey → bool).
Context (run : K → Z → bool → multiCmd → cmd_result K).

Implicit Types s : server K.

(** The queued commands executed one after the other, by nobody else interrupted. *)
Fixpoint run_queue (k : K) (d : Z) (auth : bool) (cmds : list multiCmd) : K * Z * bool * list reply :=
  match cmds with
  | [] => (k, d, auth, [])
  | mc :: cmds =>
      if is_proc mc unwatchCommand then
        let '(k, d, auth, rs) := run_queue k d auth cmds in (k, d, auth, R_ok :: rs)
      else
        let r := run k d auth mc in
        let '(k, d, auth, rs) := run_queue (r_data r) (r_db r) (r_auth r) cmds in
        (k, d, auth, (R_cmd <$> r_replies r) ++ rs)
  end.

Lemma call_unwatch exec full j s mc c :
  inv s → clients s !! j = Some c → is_proc mc unwatchCommand = true →
  ∃ s' c', call exists_key run exec full s j mc = Some (s', [R_ok]) ∧ inv s' ∧ clients s' !! j = Some c' ∧
    data s' = data s ∧ dirty s' = dirty s ∧ propagation s' = propagation s ∧
    db c' = db c ∧ authenticated c' = authenticated c.
Proof.
  intros Hi Hj Hp. unfold is_proc in Hp. apply bool_decide_eq_true in Hp.
  unfold call, run_proc, prop_of. rewrite Hj, Hp. cbn [mbind option_bind]. destruct (do_unwatch_good exists_key j s Hi) as (s' & rs & E & Hi' & _); [eauto|].
  unfold do_unwatch in *. destruct (unwatchAllKeys_spec exists_key j s c Hi Hj) as (w & Eu & _). rewrite Eu in E |- *.
  cbn [mbind option_bind] in E |- *. set (s1 := put _ _ _) in *.
  assert (clients s1 !! j = Some (with_watched c [])) as Hj1 by (simpl; by rewrite lookup_insert_eq).
  rewrite Hj1 in E |- *. cbn [mbind option_bind] in E |- *. injection E as <- <-.
  cbn [put set_clients clients]. rewrite lookup_insert_eq. cbn [mbind option_bind]. cbv zeta.
  replace (Z.max 0 _) with 0; [|simpl; lia]. rewrite Tauto.if_same.
  eexists _, _. split; [done|]. split; [done|]. split; [simpl; by rewrite lookup_insert_eq|]. done.
Qed.

Lemma call_other exec full j s mc c :
  inv s → clients s !! j = Some c → queueable mc = true → is_proc mc unwatchCommand = false →
  let r := run (data s) (db c) (authenticated c) mc in
  ∃ s' c', call exists_key run exec full s j mc = Some (s', R_cmd <$> r_replies r) ∧ inv s' ∧ clients s' !! j = Some c' ∧
    data s' = r_data r ∧ dirty s' = r_dirty r (dirty s) ∧ db c' = r_db r ∧ authenticated c' = r_auth r ∧
    propagation s' = propagation s ++ (PropExpire <$> r_expired r) ++
      (if full then call_sends (r_db r) (Z.max 0 (r_dirty r (dirty s) - dirty s)) (r_prop r) else []).
Proof.
  intros Hi Hj Hq Hu r.
  destruct (call_good exists_key run exec full j s mc Hi) as (s' & rs & E & Hi' & _); [eauto| |].
  { intros Hp. unfold queueable, is_proc in Hq. by rewrite Hp in Hq. }
  rewrite E. unfold call in E.
  assert (run_proc exists_key run exec s j mc = do_other exists_key run s j mc) as Er.
  { unfold run_proc, queueable, is_proc in *. by destruct (proc (mc_cmd mc)). }
  assert (prop_of run s j mc = Some (r_prop r)) as Ep.
  { unfold prop_of, queueable, is_proc in *. rewrite Hj. by destruct (proc (mc_cmd mc)). }
  rewrite Ep, Er in E. cbn [mbind option_bind] in E. unfold do_other in E. rewrite Hj in E. cbn [mbind option_bind] in E. cbv zeta in E. fold r in E.
  destruct (signals_good exists_key (r_signals r) s Hi) as (Hi1 & He1 & _ & Ed1 & Ep1).
  set (s1 := foldl _ s _) in *. destruct (He1 j) as (new & _ & H). destruct (H c Hj) as (c1 & Hc1 & _).
  rewrite !propagate_all in E. cbn [clients set_clients set_data dirty] in E. rewrite lookup_alter_eq, Hc1 in E. cbn [fmap option_fmap option_map mbind option_bind] in E.
  rewrite ?propagate_all in E. cbn [dirty] in E. rewrite Ed1 in E.
  injection E as E <-. exists s', (with_db c1 (r_db r) (r_auth r)).
  split; [done|]. split; [done|].
  destruct full; subst s'; simpl; rewrite lookup_alter_eq, Hc1, Ep1; rewrite ?app_nil_r, <-?(assoc_L (++)); done.
Qed.

Lemma exec_loop_data cmds : ∀ j s c must rs,
  inv s → clients s !! j = Some c → Forall (λ mc, queueable mc = true) cmds →
  let '(k, d, auth, out) := run_queue (data s) (db c) (authenticated c) cmds in
  ∃ s' must' c', exec_loop conditions_of exists_key run s j cmds must rs = Some (s', must', rs ++ out) ∧ inv s' ∧
    clients s' !! j = Some c' ∧ data s' = k ∧ db c' = d ∧ authenticated c' = auth.
Proof.
  induction cmds as [|mc cmds IH]; intros j s c must rs Hi Hj Hq; cbn [exec_loop run_queue].
  { exists s, must, c. by rewrite app_nil_r. }
  apply Forall_cons in Hq as [Hmc Hq]. rewrite Hj. cbn [mbind option_bind]. cbv zeta.
  set (first := _ && _). set (s1 := if first then _ else s).
  assert (inv s1 ∧ clients s1 !! j = Some c ∧ data s1 = data s) as (Hi1 & Hj1 & Hd1) by (by unfold s1; destruct first).
  destruct (is_proc mc unwatchCommand) eqn:Eu.
  - destruct (call_unwatch (λ _ _, None) (negb (loading (conditions_of (data s1)))) j s1 mc c) as (s2 & c2 & -> & Hi2 & Hj2 & Hd2 & _ & _ & Hb2 & Ha2); [done..|].
    cbn [mbind option_bind]. specialize (IH j s2 c2 (must || first) (rs ++ [R_ok]) Hi2 Hj2 Hq).
    rewrite Hd2, Hb2, Ha2, Hd1 in IH. destruct (run_queue (data s) _ _ cmds) as [[[k d] auth] out].
    rewrite <-(assoc_L (++)) in IH. exact IH.
  - destruct (call_other (λ _ _, None) (negb (loading (conditions_of (data s1)))) j s1 mc c) as (s2 & c2 & -> & Hi2 & Hj2 & Hd2 & _ & Hb2 & Ha2 & _); [done..|].
    rewrite Hd1 in *. cbn [mbind option_bind]. set (r := run (data s) (db c) (authenticated c) mc) in *.
    specialize (IH j s2 c2 (must || first) (rs ++ (R_cmd <$> r_replies r)) Hi2 Hj2 Hq).
    rewrite Hd2, Hb2, Ha2 in IH. destruct (run_queue (r_data r) _ _ cmds) as [[[k d] auth] out].
    rewrite <-(assoc_L (++)) in IH. exact IH.
Qed.



End Exec.

(** ** Propagation *)

(** Commands flagged read-only or administrative, which do not open a propagated
    transaction. *)
Definition silent (mc : multiCmd) : bool := has (cmdflags (mc_cmd mc)) (Z.lor CMD_READONLY CMD_ADMIN).

Section Propagation.

Context {K : Type} (conditions_of : K → conditions) (exists_key : K → dbkey → bool).
Context (run : K → Z → bool → multiCmd → cmd_result K).

(** A call of a queued command: the database and [server.dirty] before it, whether [call]
    propagates, and what the command does. *)
Record turn := Turn {
  t_cmd : multiCmd;
  t_db : Z;
  t_before : Z;
  t_full : bool;
  t_res : cmd_result K;
}.

Definition t_after (t : turn) : Z := r_dirty (t_res t) (t_before t).

Definition unwatch_result (k : K) (d : Z) (auth : bool) (mc : multiCmd) : cmd_result K :=
  CmdResult k [] d auth (λ n, n) [] [] (PropInfo mc 0 0 []).

(** The calls of the queue, one after the other. *)
Fixpoint turns (k : K) (d : Z) (auth : bool) (n : Z) (cmds : list multiCmd) : list turn :=
  match cmds with
  | [] => []
  | mc :: cmds =>
      let r := if is_proc mc unwatchCommand then unwatch_result k d auth mc else run k d auth mc in
      Turn mc d n (negb (loading (conditions_of k))) r
        :: turns (r_data r) (r_db r) (r_auth r) (r_dirty r n) cmds
  end.

(** What one call sends: the expired keys the command deleted, then what [call] propagates. *)
Definition turn_sends (t : turn) : list propagated :=
  (PropExpire <$> r_expired (t_res t)) ++
  (if t_full t then call_sends (r_db (t_res t)) (Z.max 0 (t_after t - t_before t)) (r_prop (t_res t)) else []).

(** [server.dirty] after the calls. *)
Definition counter_after (n : Z) (ts : list turn) : Z := foldl (λ _ t, t_after t) n ts.

Fixpoint block (ts : list turn) : list propagated :=
  match ts with
  | [] => []
  | t :: ts' =>
      if silent (t_cmd t) then turn_sends t ++ block ts' else PropMulti (t_db t) :: (ts ≫= turn_sends)
  end.

(** A command that does not lower the counter and, when it is silent, does not count a
    change and has nothing propagated in its name. *)
Definition orderly (t : turn) : Prop :=
  t_before t ≤ t_after t ∧
  (silent (t_cmd t) = true → t_after t = t_before t ∧ p_force (r_prop (t_res t)) = 0 ∧ p_also (r_prop (t_res t)) = []).

Lemma call_turn exec j s mc c :
  inv s → clients s !! j = Some c → queueable mc = true →
  let r := if is_proc mc unwatchCommand then unwatch_result (data s) (db c) (authenticated c) mc
           else run (data s) (db c) (authenticated c) mc in
  let full := negb (loading (conditions_of (data s))) in
  ∃ s' rs c', call exists_key run exec full s j mc = Some (s', rs) ∧ inv s' ∧ clients s' !! j = Some c' ∧
    data s' = r_data r ∧ db c' = r_db r ∧ authenticated c' = r_auth r ∧ dirty s' = r_dirty r (dirty s) ∧
    propagation s' = propagation s ++ turn_sends (Turn mc (db c) (dirty s) full r).
Proof.
  intros Hi Hj Hq r full. subst r. destruct (is_proc mc unwatchCommand) eqn:Eu.
  - destruct (call_unwatch exists_key run exec full j s mc c) as (s' & c' & -> & Hi' & Hj' & Hk & Hd & Hp & Hb & Ha); [done..|].
    eexists s', _, c'. split_and!; try done. rewrite Hp. unfold turn_sends, t_after.
    cbn. rewrite Z.sub_diag. cbn. by rewrite Tauto.if_same, app_nil_r.
  - destruct (call_other exists_key run exec full j s mc c) as (s' & c' & -> & Hi' & Hj' & Hk & Hd & Hb & Ha & Hp); [done..|].
    eexists s', _, c'. by split_and!.
Qed.

Lemma exec_loop_propagates cmds : ∀ j s c must rs,
  inv s → clients s !! j = Some c → Forall (λ mc, queueable mc = true) cmds →
  let ts := turns (data s) (db c) (authenticated c) (dirty s) cmds in
  ∃ s' rs' c', exec_loop conditions_of exists_key run s j cmds must rs
      = Some (s', must || existsb (λ mc, negb (silent mc)) cmds, rs') ∧
    inv s' ∧ clients s' !! j = Some c' ∧ dirty s' = counter_after (dirty s) ts ∧
    propagation s' = propagation s ++ if must then ts ≫= turn_sends else block ts.
Proof.
  induction cmds as [|mc cmds IH]; intros j s c must rs Hi Hj Hq; cbn [exec_loop existsb turns].
  { exists s, rs, c. rewrite orb_false_r. destruct must; cbn; rewrite ?app_nil_r; done. }
  apply Forall_cons in Hq as [Hmc Hq]. rewrite Hj. cbn [mbind option_bind]. cbv zeta. fold (silent mc).
  set (s1 := if negb must && negb (silent mc) then _ else s).
  assert (inv s1 ∧ clients s1 !! j = Some c ∧ data s1 = data s ∧ dirty s1 = dirty s ∧
    propagation s1 = propagation s ++ (if negb must && negb (silent mc) then [PropMulti (db c)] else []))
    as (Hi1 & Hj1 & Hk1 & Hd1 & Hp1).
  { unfold s1. destruct (_ && _); rewrite ?app_nil_r; done. }
  destruct (call_turn (λ _ _, None) j s1 mc c) as (s2 & rs2 & c2 & -> & Hi2 & Hj2 & Hk2 & Hb2 & Ha2 & Hd2 & Hp2); [done..|].
  cbn [mbind option_bind]. rewrite Hk1, Hd1 in *. set (r := if is_proc mc unwatchCommand then _ else _) in *.
  destruct (IH j s2 c2 (must || negb must && negb (silent mc)) (rs ++ rs2) Hi2 Hj2 Hq)
    as (s3 & rs3 & c3 & -> & Hi3 & Hj3 & Hd3 & Hp3).
  rewrite Hk2, Hb2, Ha2, Hd2 in *. exists s3, rs3, c3.
  split; [f_equal; f_equal; f_equal; by destruct must, (silent mc)|]. split; [done|]. split; [done|]. split; [done|].
  rewrite Hp3, Hp2, Hp1. cbn [block t_cmd mbind list_bind]. rewrite <-!(assoc_L (++)).
  destruct must, (silent mc); done.
Qed.

(** Where the first command that is not silent is. *)
Lemma exec_block_split ts :
  ∃ lead rest, ts = lead ++ rest ∧ Forall (λ t, silent (t_cmd t) = true) lead ∧
    existsb (λ t, negb (silent (t_cmd t))) ts = negb (bool_decide (rest = [])) ∧
    block ts = (lead ≫= turn_sends) ++
      match rest with [] => [] | t :: _ => PropMulti (t_db t) :: (rest ≫= turn_sends) end ∧
    match rest with [] => True | t :: _ => silent (t_cmd t) = false end.
Proof.
  induction ts as [|t ts (lead & rest & -> & Hl & He & Hb & Hr)]; [by exists [], []|].
  cbn [block existsb]. destruct (silent (t_cmd t)) eqn:Es; [|by exists [], (t :: lead ++ rest)].
  exists (t :: lead), rest. split; [done|]. split; [by constructor|]. split; [done|]. split; [|done].
  rewrite Hb. cbn [mbind list_bind]. by rewrite <-(assoc_L (++)).
Qed.

Lemma turns_cmds cmds : ∀ k d auth n, t_cmd <$> turns k d auth n cmds = cmds.
Proof. induction cmds as [|mc cmds IH]; intros; [done|]. cbn [turns fmap list_fmap t_cmd]. by rewrite IH. Qed.

Lemma existsb_turns cmds k d auth n :
  existsb (λ t, negb (silent (t_cmd t))) (turns k d auth n cmds) = existsb (λ mc, negb (silent mc)) cmds.
Proof.
  rewrite <-(turns_cmds cmds k d auth n) at 2. induction (turns k d auth n cmds) as [|t ts IH]; [done|].
  cbn [existsb fmap list_fmap]. by rewrite IH.
Qed.

Definition exec_sent (d : Z) (mc : multiCmd) : propagated := PropCmd (Z.lor PROPAGATE_AOF PROPAGATE_REPL) d mc.

(** EXEC itself is propagated exactly when the counter grew. *)
Lemma call_sends_exec d n n' mc :
  has (cmdflags (mc_cmd mc)) CMD_MODULE = false →
  call_sends d (Z.max 0 (n' - n)) (PropInfo mc 0 0 []) = if n <? n' then [exec_sent d mc] else [].
Proof.
  intros Hm. unfold call_sends, propagate_flags. cbn [p_cmd p_force p_prevent p_also]. rewrite Hm.
  destruct (Z.ltb_spec n n'); [rewrite (proj2 (Z.eqb_neq (Z.max 0 (n' - n)) 0)) by lia|rewrite (proj2 (Z.eqb_eq (Z.max 0 (n' - n)) 0)) by lia]; done.
Qed.

(** What EXEC sends, from the calls of the queue: the calls before the first command that
    is not silent, then MULTI, the other calls, the EXEC of the backlog when the server was
    demoted, and the EXEC when the counter grew. *)
Definition exec_sends (n : Z) (lead rest : list turn) (demoted : bool) (d : Z) (mc : multiCmd) : list propagated :=
  (lead ≫= turn_sends) ++
  match rest with
  | [] => if n <? counter_after n lead then [exec_sent d mc] else []
  | t :: _ =>
      PropMulti (t_db t) :: (rest ≫= turn_sends) ++ (if demoted then [PropBacklogExec] else []) ++
      (if n <? counter_after n (lead ++ rest) + 1 then [exec_sent d mc] else [])
  end.

Definition demotes (k k' : K) : bool :=
  repl_backlog (conditions_of k') && negb (masterhost (conditions_of k)) && masterhost (conditions_of k').

Definition refused_ro (k : K) (c : mclient) : bool :=
  negb (loading (conditions_of k)) && masterhost (conditions_of k) && repl_slave_ro (conditions_of k)
  && negb (has (cflags c) CLIENT_MASTER) && has (cmd_flags c) CMD_WRITE.

Lemma call_exec_propagates j s c mc :
  inv s → clients s !! j = Some c → proc (mc_cmd mc) = execCommand → has (cmdflags (mc_cmd mc)) CMD_MODULE = false →
  has (cflags c) CLIENT_MULTI = true → is_dirty c = false → has (cflags c) CLIENT_DIRTY_EXEC = false →
  refused_ro (data s) c = false →
  ∃ s' rs c' lead rest, call exists_key run (do_exec conditions_of exists_key run) true s j mc = Some (s', rs) ∧
    clients s' !! j = Some c' ∧
    turns (data s) (db c) (authenticated c) (dirty s) (commands c) = lead ++ rest ∧
    Forall (λ t, silent (t_cmd t) = true) lead ∧
    match rest with [] => True | t :: _ => silent (t_cmd t) = false end ∧
    propagation s' = propagation s ++ exec_sends (dirty s) lead rest (demotes (data s) (data s')) (db c') mc.
Proof.
  intros Hi Hj Hp Hmod Hm Hd He Hro. unfold call, run_proc, prop_of. rewrite Hj, Hp. unfold do_exec. rewrite Hj. cbn [mbind option_bind]. cbv zeta.
  rewrite Hm. cbn [negb]. rewrite has_lor_mask. unfold is_dirty in Hd. unfold refused_ro in Hro. rewrite Hd, He, Hro. cbn [orb].
  destruct (unwatchAllKeys_spec exists_key j s c Hi Hj) as (w & -> & Hi1 & _). cbn [mbind option_bind].
  set (s1 := put _ _ _) in *. destruct (proj2 Hi j c Hj) as (Hq & _).
  destruct (exec_loop_propagates (commands c) j s1 (with_watched c []) false [R_multilen (zlen (commands c))])
    as (s2 & rs & c2 & -> & Hi2 & Hj2 & Hn & Hp2); [done|simpl; by rewrite lookup_insert_eq|done|].
  cbn [mbind option_bind orb].
  destruct (discardTransaction_spec exists_key j s2 c2 Hi2 Hj2)
    as (s3 & c3 & -> & _ & Hc3 & _ & _ & _ & _ & _ & _ & _ & _ & Hdi3 & Hp3 & _). cbn [mbind option_bind].
  change (dirty s1) with (dirty s) in *. change (propagation s1) with (propagation s) in Hp2. change (data s1) with (data s) in *.
  cbn [db authenticated with_watched] in *. set (ts := turns _ _ _ _ _) in *.
  destruct (exec_block_split ts) as (lead & rest & Hts & Hl & Hex & Hb & Hr).
  unfold ts in Hex. rewrite existsb_turns in Hex. rewrite Hex. rewrite Hb in Hp2. rewrite Hts in Hn.
  destruct rest as [|t rest]; cbn [bool_decide negb andb].
  - rewrite bool_decide_eq_true_2 by done. cbn [negb andb]. rewrite Hc3. cbn [mbind option_bind].
    rewrite propagate_all, Hdi3, Hn, call_sends_exec by done.
    eexists _, rs, c3, lead, []. split; [done|]. split; [done|]. split; [done|]. split; [done|]. split; [done|].
    cbn [propagation]. unfold exec_sends. by rewrite Hp3, Hp2, !app_nil_r, <-!(assoc_L (++)).
  - rewrite bool_decide_eq_false_2 by done. cbn [negb andb].
    set (s4 := set_data s3 (data s3) (dirty s3 + 1)). rewrite negb_involutive.
    change (_ && _ && _) with (demotes (data s) (data s4)).
    set (s5 := if demotes (data s) (data s4) then propagate s4 PropBacklogExec else s4).
    assert (clients s5 !! j = Some c3 ∧ dirty s5 = dirty s3 + 1 ∧ data s5 = data s4 ∧
      propagation s5 = propagation s3 ++ (if demotes (data s) (data s4) then [PropBacklogExec] else []))
      as (Hc5 & Hd5 & Hk5 & Hp5).
    { unfold s5. destruct (demotes _ _); rewrite ?app_nil_r; done. }
    rewrite Hc5. cbn [mbind option_bind]. rewrite propagate_all, Hd5, Hdi3, Hn, call_sends_exec by done.
    eexists _, rs, c3, lead, (t :: rest). split; [done|]. split; [done|]. split; [done|]. split; [done|]. split; [done|].
    cbn [propagation data]. unfold exec_sends. rewrite Hk5, Hp5, Hp3, Hp2. cbn [app]. by rewrite <-!(assoc_L (++)).
Qed.

(** *** Orderly queues *)

#[global] Instance orderly_dec t : Decision (orderly t).
Proof.
  refine (cast_if_and (decide (t_before t ≤ t_after t)) (decide (silent (t_cmd t) = true →
    t_after t = t_before t ∧ p_force (r_prop (t_res t)) = 0 ∧ length (p_also (r_prop (t_res t))) = 0%nat)));
    unfold orderly; rewrite ?length_zero_iff_nil in *; tauto.
Defined.

Lemma orderly_silent t :
  orderly t → silent (t_cmd t) = true →
  t_after t = t_before t ∧ turn_sends t = PropExpire <$> r_expired (t_res t).
Proof.
  intros [_ H] (Ha & Hf & Hal)%H. split; [done|]. unfold turn_sends. rewrite Ha, Z.sub_diag.
  unfold call_sends, propagate_flags, also_sent. rewrite Hf, Hal. cbn [Z.max Z.eqb Z.compare].
  change (Z.ldiff _ _) with 0. rewrite andb_false_r. cbn. by rewrite Tauto.if_same, app_nil_r.
Qed.

(** One block: only deletions of expired keys, then everything else between MULTI and EXEC. *)
Definition exec_block (lead rest : list turn) (demoted : bool) (d : Z) (mc : multiCmd) : list propagated :=
  (PropExpire <$> (lead ≫= λ t, r_expired (t_res t))) ++
  match rest with
  | [] => []
  | t :: _ =>
      PropMulti (t_db t) :: (rest ≫= turn_sends) ++ (if demoted then [PropBacklogExec] else []) ++ [exec_sent d mc]
  end.

Lemma orderly_lead lead :
  Forall orderly lead → Forall (λ t, silent (t_cmd t) = true) lead →
  lead ≫= turn_sends = PropExpire <$> (lead ≫= λ t, r_expired (t_res t)).
Proof.
  induction 1 as [|t lead Ho _ IH]; intros Hs; [done|]. apply Forall_cons in Hs as [Hs Hl].
  cbn [mbind list_bind]. rewrite fmap_app. f_equal; [by apply orderly_silent|by apply IH].
Qed.

Lemma orderly_counter cmds : ∀ k d auth n,
  let ts := turns k d auth n cmds in
  Forall orderly ts →
  n ≤ counter_after n ts ∧ (Forall (λ t, silent (t_cmd t) = true) ts → counter_after n ts = n).
Proof.
  induction cmds as [|mc cmds IH]; intros k d auth n; cbn [turns]; cbv zeta; [done|].
  set (r := if is_proc mc unwatchCommand then _ else _). set (t := Turn _ _ _ _ r). intros [Ho Hl]%Forall_cons.
  destruct (IH _ _ _ _ Hl) as [Hle Heq]. change (counter_after n (t :: ?l)) with (counter_after (t_after t) l).
  destruct Ho as [Hn Hs]. change (t_before t) with n in *. change (r_dirty r n) with (t_after t) in *.
  split; [lia|]. intros [Ht Hts]%Forall_cons. destruct (Hs Ht) as [Ha _]. rewrite (Heq Hts). done.
Qed.

Lemma orderly_exec_block cmds k d auth n lead rest demoted d' mc :
  turns k d auth n cmds = lead ++ rest → Forall (λ t, silent (t_cmd t) = true) lead → Forall orderly (lead ++ rest) →
  exec_sends n lead rest demoted d' mc = exec_block lead rest demoted d' mc.
Proof.
  intros E Hl Ho. pose proof (orderly_counter cmds k d auth n) as Hc. cbv zeta in Hc. rewrite E in Hc. destruct (Hc Ho) as [Hle Heq].
  unfold exec_sends, exec_block. apply Forall_app in Ho as [Ho _]. rewrite (orderly_lead lead Ho Hl). f_equal.
  destruct rest as [|t rest]; [rewrite app_nil_r in Heq; by rewrite (Heq Hl), Z.ltb_irrefl|].
  by rewrite (proj2 (Z.ltb_lt _ _)) by lia.
Qed.

End Propagation.

(** ** Properties *)

(** C26: the bookkeeping of transactions is consistent in every history.  Any sequence of
    connections, requests of any kind and disconnections runs without a failed assertion
    (every key a client watches has the client in its list, so [unwatchAllKeys] finds it);
    a client is in the list of exactly the keys it watches, once; there is no empty list;
    and a queue exists only inside MULTI, holds only commands that may be queued, and has
    their accumulated flags. *)
Theorem transactions_consistent {K} (conditions_of : K → conditions) (exists_key : K → dbkey → bool)
    (run : K → Z → bool → multiCmd → cmd_result K) (evict : K → K * list signal * bool)
    (redirected : K → mclient → multiCmd → bool) (lookupCommand : bytes → option redisCommand) k es :
  ∃ s rs, steps conditions_of exists_key run evict redirected lookupCommand (init_server k) es = Some (s, rs) ∧
    (∀ i c, clients s !! i = Some c → NoDup (watched_keys c) ∧ queue_inv c) ∧
    (∀ key l, watched s !! key = Some l → l ≠ [] ∧ NoDup l) ∧
    (∀ i key, (∃ l, watched s !! key = Some l ∧ i ∈ l) ↔ (∃ c, clients s !! i = Some c ∧ key ∈ watched_keys c)).
Proof.
  assert (inv (init_server k)) as Hi.
  { split; [|by intros i c]. unfold keys_of. simpl. split_and!; [by intros|by intros|].
    intros i key. rewrite !lookup_empty. naive_solver. }
  destruct (steps_good exists_key conditions_of run evict redirected lookupCommand es _ Hi) as (s & rs & -> & [(H1 & H2 & H3) Hq] & _).
  exists s, rs. split; [done|]. split_and!; [|done|].
  - intros i c Hc. split; [|by apply (Hq i)]. apply (H1 i). unfold keys_of. by rewrite lookup_fmap, Hc.
  - intros i key. rewrite H3. unfold keys_of. setoid_rewrite lookup_fmap_Some. naive_solver.
Qed.

(** Reachable states satisfy the invariant. *)
Lemma reachable_inv {K} (conditions_of : K → conditions) exists_key run evict redirected lookupCommand k es s rs :
  steps conditions_of exists_key run evict redirected lookupCommand (init_server k) es = Some (s, rs) → inv s.
Proof.
  intros E. assert (inv (init_server k)) as Hi.
  { split; [|by intros i c]. unfold keys_of. simpl. split_and!; [by intros|by intros|].
    intros i key. rewrite !lookup_empty. naive_solver. }
  destruct (steps_good exists_key conditions_of run evict redirected lookupCommand es _ Hi) as (s' & rs' & E' & Hs & _).
  congruence.
Qed.


(** C28: every outcome of EXEC.  Without MULTI it is an error and nothing changes; after an
    error while queueing it replies EXECABORT whatever was touched, and after a touched key
    nil, in both cases without executing anything; a transaction with a write command on a
    replica that has become read-only is refused; otherwise the queued commands run one
    after the other on the keyspace, without anything in between, and their replies follow
    their number. *)
Theorem exec_outcomes {K} (conditions_of : K → conditions) (exists_key : K → dbkey → bool)
    (run : K → Z → bool → multiCmd → cmd_result K) (evict : K → K * list signal * bool)
    (redirected : K → mclient → multiCmd → bool) (lookupCommand : bytes → option redisCommand)
    k es s rs i c :
  steps conditions_of exists_key run evict redirected lookupCommand (init_server k) es = Some (s, rs) →
  clients s !! i = Some c →
  let cond := conditions_of (data s) in
  ∃ s' c' out, do_exec conditions_of exists_key run s i = Some (s', out) ∧ clients s' !! i = Some c' ∧
    if negb (has (cflags c) CLIENT_MULTI) then s' = s ∧ out = [R_error (str "EXEC without MULTI")]
    else
      has (cflags c') CLIENT_MULTI = false ∧ commands c' = [] ∧ watched_keys c' = [] ∧
      if has (cflags c) CLIENT_DIRTY_EXEC then out = [R_execabort] ∧ data s' = data s
      else if is_dirty c then out = [R_nullmultibulk] ∧ data s' = data s
      else if negb (loading cond) && masterhost cond && repl_slave_ro cond
              && negb (has (cflags c) CLIENT_MASTER) && has (cmd_flags c) CMD_WRITE
           then data s' = data s ∧ ∃ msg, out = [R_error msg]
      else (data s', db c', authenticated c', out) =
           let '(k', d', auth', rs') := run_queue run (data s) (db c) (authenticated c) (commands c) in
           (k', d', auth', R_multilen (zlen (commands c)) :: rs').
Proof.
  intros E Hc cond. apply reachable_inv in E. unfold do_exec. rewrite Hc. cbn [mbind option_bind]. cbv zeta. fold cond.
  destruct (negb (has (cflags c) CLIENT_MULTI)); [exists s, c; eexists; done|].
  rewrite has_lor_mask. fold (is_dirty c).
  destruct (discardTransaction_spec exists_key i s c E Hc)
    as (s3 & c3 & Ed & _ & Hc3 & Hm3 & _ & _ & Hq3 & Hk3 & _ & _ & Hd3 & _).
  destruct (has (cflags c) CLIENT_DIRTY_EXEC) eqn:Ee.
  { rewrite orb_true_r, Ed. cbn [mbind option_bind]. exists s3, c3, [R_execabort]. by split_and!. }
  rewrite orb_false_r. destruct (is_dirty c) eqn:Eb.
  { rewrite Ed. cbn [mbind option_bind]. exists s3, c3, [R_nullmultibulk]. by split_and!. }
  destruct (_ && _) eqn:Er.
  { rewrite Ed. cbn [mbind option_bind]. exists s3, c3. eexists. split; [done|]. split; [done|].
    split_and!; try done. eauto. }
  clear Ed. destruct (unwatchAllKeys_spec exists_key i s c E Hc) as (w & -> & Hi1 & _). cbn [mbind option_bind].
  set (s1 := put _ _ _) in *. destruct (proj2 E i c Hc) as (Hq & _).
  pose proof (exec_loop_data conditions_of exists_key run (commands c) i s1 (with_watched c []) false
    [R_multilen (zlen (commands c))] Hi1 ltac:(simpl; by rewrite lookup_insert_eq) Hq) as Hl.
  change (data s1) with (data s) in Hl. cbn [db authenticated with_watched] in Hl.
  destruct (run_queue run (data s) (db c) (authenticated c) (commands c)) as [[[k' d'] auth'] out].
  destruct Hl as (s2 & must & c2 & -> & Hi2 & Hj2 & Hd2 & Hb2 & Ha2). cbn [mbind option_bind].
  destruct (discardTransaction_spec exists_key i s2 c2 Hi2 Hj2)
    as (s4 & c4 & -> & _ & Hc4 & Hm4 & _ & _ & Hq4 & Hk4 & Hb4 & Ha4 & Hd4 & _). cbn [mbind option_bind].
  eexists _, c4, _. split; [done|].
  destruct must; cbn [andb]; [destruct (repl_backlog _ && _ && _)|]; simpl; split_and!; congruence.
Qed.

(** C29: what a transaction sends to the replicas and the append only file.  When EXEC of a
    client with a queue runs the queue in any reachable state (the transaction is not
    aborted), it sends, in order: what the commands before the first one that is neither
    read-only nor administrative send; MULTI; what the other commands send; an EXEC into
    the backlog of a server that the queue turned into a replica; and EXEC if the counter of
    changes is larger than before.  Each command sends the deletions of the keys it found
    expired, itself if it counted changes or forces it (and does not prevent it), and what
    it asks for with [alsoPropagate].  So, when the queued commands are orderly as they run
    (none lowers the counter of changes, and the read-only and administrative ones neither
    count a change nor have anything propagated in their name), the transaction is one block
    that starts with MULTI and ends with EXEC, and if all commands are read-only or
    administrative there is neither; only deletions of expired keys are sent before it.
    PFCOUNT, which may count a change, and SAVE, which resets the counter, are not orderly
    (see [exec_pfcount] and [exec_save]). *)
Theorem exec_propagation_block {K} (conditions_of : K → conditions) (exists_key : K → dbkey → bool)
    (run : K → Z → bool → multiCmd → cmd_result K) (evict : K → K * list signal * bool)
    (redirected : K → mclient → multiCmd → bool) (lookupCommand : bytes → option redisCommand)
    k es s rs i c mc :
  steps conditions_of exists_key run evict redirected lookupCommand (init_server k) es = Some (s, rs) →
  clients s !! i = Some c → proc (mc_cmd mc) = execCommand → has (cmdflags (mc_cmd mc)) CMD_MODULE = false →
  has (cflags c) CLIENT_MULTI = true → is_dirty c = false → has (cflags c) CLIENT_DIRTY_EXEC = false →
  refused_ro conditions_of (data s) c = false →
  ∃ s' out c' lead rest, call exists_key run (do_exec conditions_of exists_key run) true s i mc = Some (s', out) ∧
    clients s' !! i = Some c' ∧
    turns conditions_of run (data s) (db c) (authenticated c) (dirty s) (commands c) = lead ++ rest ∧
    Forall (λ t, silent (t_cmd t) = true) lead ∧
    match rest with [] => True | t :: _ => silent (t_cmd t) = false end ∧
    propagation s' = propagation s ++
      exec_sends (dirty s) lead rest (demotes conditions_of (data s) (data s')) (db c') mc ∧
    (Forall orderly (lead ++ rest) →
     propagation s' = propagation s ++ exec_block lead rest (demotes conditions_of (data s) (data s')) (db c') mc).
Proof.
  intros E Hc ? ? ? ? ? ?. apply reachable_inv in E.
  destruct (call_exec_propagates conditions_of exists_key run i s c mc)
    as (s' & out & c' & lead & rest & ? & ? & Ht & Hl & ? & Hp); [done..|].
  exists s', out, c', lead, rest. do 6 (split; [done|]). intros Ho. rewrite Hp. f_equal.
  by eapply orderly_exec_block.
Qed.

(** ** A small server for examples: strings set and read, and two commands that count
    changes as PFCOUNT with an outdated cardinality and as SAVE do *)

Definition toy_data : Type := list (dbkey * bytes).

Definition toy_conditions (k : toy_data) : conditions :=
  Conditions false false false false false false false false false false false.

Definition toy_exists (k : toy_data) (key : dbkey) : bool := existsb (λ p, bool_decide (p.1 = key)) k.

Definition toy_result (k : toy_data) (gs : list signal) (d : Z) (auth : bool) (dirty : Z → Z) (rs : list bytes)
    (mc : multiCmd) : cmd_result toy_data :=
  CmdResult k gs d auth dirty rs [] (PropInfo mc 0 0 []).

Definition toy_run (k : toy_data) (d : Z) (auth : bool) (mc : multiCmd) : cmd_result toy_data :=
  match mc_argv mc with
  | [name] => toy_result k [] d auth (if bool_decide (name = str "save") then λ _, 0 else λ n, n) [str "OK"] mc
  | [name; _] => toy_result k [] d auth (if bool_decide (name = str "pfcount") then λ n, n + 1 else λ n, n) [str "?"] mc
  | [_; key; v] =>
      if silent mc then toy_result k [] d auth (λ n, n) [] mc
      else toy_result (((d, key), v) :: k) [SigKey (d, key)] d auth (λ n, n + 1) [str "OK"] mc
  | _ => toy_result k [] d auth (λ n, n) [str "?"] mc
  end.

Definition toy_evict (k : toy_data) : toy_data * list signal * bool := (k, [], false).
Definition toy_redirected (k : toy_data) (c : mclient) (mc : multiCmd) : bool := false.

Definition toy_lookup (name : bytes) : option redisCommand :=
  if bool_decide (name = str "multi") then Some (RedisCommand multiCommand 1 0 false)
  else if bool_decide (name = str "exec") then Some (RedisCommand execCommand 1 0 false)
  else if bool_decide (name = str "watch") then Some (RedisCommand watchCommand (-2) 0 false)
  else if bool_decide (name = str "set") then Some (RedisCommand otherCommand (-3) CMD_WRITE true)
  else if bool_decide (name = str "get") then Some (RedisCommand otherCommand 2 CMD_READONLY true)
  else if bool_decide (name = str "pfcount") then Some (RedisCommand otherCommand (-2) CMD_READONLY true)
  else if bool_decide (name = str "save") then Some (RedisCommand otherCommand 1 CMD_ADMIN false)
  else None.

Definition toy_steps := steps toy_conditions toy_exists toy_run toy_evict toy_redirected toy_lookup.

Definition toy_queue : list event :=
  [Connect 1; Request 1 [str "multi"]; Request 1 [str "get"; str "y"]; Request 1 [str "set"; str "y"; str "1"]].

Definition toy_state (es : list event) : server toy_data :=
  match toy_steps (init_server []) es with Some (s, _) => s | None => init_server [] end.

Definition toy_client (es : list event) : mclient := default new_client (clients (toy_state es) !! 1).


Lemma exec_outcomes_witness :
  ∃ s' c' out, do_exec toy_conditions toy_exists toy_run (toy_state toy_queue) 1 = Some (s', out) ∧
    clients s' !! 1 = Some c' ∧ has (cflags c') CLIENT_MULTI = false ∧
    (data s', db c', authenticated c', out) =
      ([((0, str "y"), str "1")], 0, false, [R_multilen 2; R_cmd (str "?"); R_cmd (str "OK")]).
Proof.
  destruct (exec_outcomes toy_conditions toy_exists toy_run toy_evict toy_redirected toy_lookup
    [] toy_queue (toy_state toy_queue) [[]; [R_ok]; [R_queued]; [R_queued]] 1 (toy_client toy_queue))
    as (s' & c' & out & E & Hc & H).
  - vm_compute. reflexivity.
  - vm_compute. reflexivity.
  - exists s', c', out. split; [exact E|]. split; [exact Hc|].
    change (has (cflags (toy_client toy_queue)) CLIENT_MULTI) with true in H.
    destruct H as (Hm & _ & _ & H). split; [exact Hm|]. exact H.
Defined.

Definition toy_exec : multiCmd := MultiCmd (RedisCommand execCommand 1 0 false) [str "exec"].

(** What EXEC of client 1 sends after the events. *)
Definition toy_exec_sends (es : list event) : option (list propagated) :=
  '(s, _) ← call toy_exists toy_run (do_exec toy_conditions toy_exists toy_run) true (toy_state es) 1 toy_exec;
  Some (drop (length (propagation (toy_state es))) (propagation s)).

Definition toy_cmd (name : string) (args : list bytes) : multiCmd :=
  MultiCmd (default (RedisCommand otherCommand 0 0 false) (toy_lookup (str name))) (str name :: args).

Lemma exec_propagation_block_witness :
  ∃ s' out c' (lead rest : list (turn (K := toy_data))),
    call toy_exists toy_run (do_exec toy_conditions toy_exists toy_run) true (toy_state toy_queue) 1 toy_exec
      = Some (s', out) ∧
    propagation s' = exec_block lead rest (demotes toy_conditions (data (toy_state toy_queue)) (data s')) (db c') toy_exec ∧
    propagation s' = [PropMulti 0; PropCmd 3 0 (toy_cmd "set" [str "y"; str "1"]); PropCmd 3 0 toy_exec].
Proof.
  destruct (exec_propagation_block toy_conditions toy_exists toy_run toy_evict toy_redirected toy_lookup
    [] toy_queue (toy_state toy_queue) [[]; [R_ok]; [R_queued]; [R_queued]] 1 (toy_client toy_queue) toy_exec)
    as (s' & out & c' & lead & rest & E & Hc & Ht & Hl & Hr & _ & Hb); [vm_compute; reflexivity..|].
  exists s', out, c', lead, rest. split; [exact E|]. split.
  - apply Hb. rewrite <-Ht. apply (bool_decide_eq_true_1 _). vm_compute. reflexivity.
  - assert (H : propagation <$> (fst <$> call toy_exists toy_run (do_exec toy_conditions toy_exists toy_run) true
                 (toy_state toy_queue) 1 toy_exec)
              = Some [PropMulti 0; PropCmd 3 0 (toy_cmd "set" [str "y"; str "1"]); PropCmd 3 0 toy_exec])
      by (vm_compute; reflexivity).
    rewrite E in H. cbn in H. by injection H.
Defined.

(** A transaction with a single PFCOUNT that counts a change: the command and EXEC are
    propagated without MULTI. *)
Lemma exec_pfcount :
  toy_exec_sends [Connect 1; Request 1 [str "multi"]; Request 1 [str "pfcount"; str "h"]]
  = Some [PropCmd 3 0 (toy_cmd "pfcount" [str "h"]); PropCmd 3 0 toy_exec].
Proof. vm_compute. reflexivity. Qed.

(** A transaction that saves after two changes were counted: MULTI is propagated without
    EXEC. *)
Lemma exec_save :
  toy_exec_sends [Connect 1; Request 1 [str "set"; str "a"; str "1"]; Request 1 [str "set"; str "b"; str "2"];
                  Request 1 [str "multi"]; Request 1 [str "set"; str "c"; str "3"]; Request 1 [str "save"]]
  = Some [PropMulti 0; PropCmd 3 0 (toy_cmd "set" [str "c"; str "3"])].
Proof. vm_compute. reflexivity. Qed.
