(* ===== verification/Skiplist.v ===== *)
(** The skiplist of sorted sets (t_zset.c): insertion, deletion, score updates, ranks and
    ranges, on a heap of nodes with forward pointers, spans and backward pointers.

    Scores are any type with the comparisons of doubles that are not NaN ([ScoreOrder]).
    The heap is split by field, as a map from the address of a node to its contents and a
    map from an address and a level to the pair of the forward pointer and the span.  An
    access to a node or a level that does not exist is [None], as is a failed assertion.
    Spans and ranks are unbounded integers: the code uses 64 and 32 bit unsigned ones, which
    hold the positions of any list of fewer than 2^32 elements. *)

From stdpp Require Import gmap strings.
From S2P Require Import Prelude Util SdsText.

(** ** Scores *)

(** [<] and [==] on scores. *)
Class ScoreOrder (Sc : Type) := { slt : Sc → Sc → bool; seqb : Sc → Sc → bool }.

(** The comparisons of numbers: [<] is a strict weak order, and [==] holds of the numbers
    neither of which is below the other (0 and -0 are different doubles that are [==]). *)
Class ScoreLaws (Sc : Type) `{ScoreOrder Sc} : Prop := {
  slt_irrefl s : slt s s = false;
  slt_trans s t u : slt s t = true → slt t u = true → slt s u = true;
  slt_weak s t u : slt s t = true → slt s u = true ∨ slt u t = true;
  seqb_spec s t : seqb s t = negb (slt s t) && negb (slt t s);
}.

(** The derived comparisons [>], [<=] and [>=]. *)
Definition sgt `{ScoreOrder Sc} (s t : Sc) : bool := slt t s.
Definition sle `{ScoreOrder Sc} (s t : Sc) : bool := slt s t || seqb s t.
Definition sge `{ScoreOrder Sc} (s t : Sc) : bool := slt t s || seqb s t.

#[global] Instance Z_score : ScoreOrder Z := { slt := Z.ltb; seqb := Z.eqb }.

#[global] Instance Z_score_laws : ScoreLaws Z.
Proof.
  split; unfold slt, seqb, Z_score.
  - intros s. apply Z.ltb_irrefl.
  - intros s t u. rewrite !Z.ltb_lt. lia.
  - intros s t u. rewrite !Z.ltb_lt. lia.
  - intros s t. destruct (Z.ltb_spec s t), (Z.ltb_spec t s), (Z.eqb_spec s t); simpl; lia || done.
Qed.

(** ** The heap *)

Definition ZSKIPLIST_MAXLEVEL : Z := 64.

Abbreviation addr := Z.

(** The levels of all nodes. *)
Abbreviation levelmap := (gmap (addr * Z) (option addr * Z)).

(** A [for] loop over the levels [i, i + n) of the nodes. *)
Fixpoint for_levels (n : nat) (i : Z) (body : Z → levelmap → option levelmap) (m : levelmap) : option levelmap :=
  match n with
  | O => Some m
  | S n => m ← body i m; for_levels n (i + 1) body m
  end.

(** The levels of the header in [zslCreate]. *)
Definition init_body (h : addr) (j : Z) (m : levelmap) : option levelmap := Some (<[(h, j) := (None, 0)]> m).

Section Skiplist.

Context {Sc : Type} `{!ScoreOrder Sc}.

(** The list and its heap: [nodes] holds the score and the element of every node but the
    header, whose element is NULL. *)
Record zskiplist := Zsl {
  header : addr;
  tail : option addr;
  zlength : Z;
  zlevel : Z;
  nodes : gmap addr (Sc * bytes);
  backward : gmap addr (option addr);
  levels : gmap (addr * Z) (option addr * Z);
}.

(** [zslCreate], the header being allocated at [h]. *)
Definition zslCreate (h : addr) : option zskiplist :=
  m ← for_levels (Z.to_nat ZSKIPLIST_MAXLEVEL) 0 (init_body h) ∅;
  Some (Zsl h None 0 1 ∅ ∅ m).

(** [zslRandomLevel]: [rs] are the values [random()] returns, up to the first that ends the
    loop; [x < ZSKIPLIST_P * 0xFFFF] is [x <= 16383] for an integer. *)
Fixpoint random_run (rs : list Z) : Z :=
  match rs with
  | [] => 1
  | r :: rs => if Z.land r 65535 <=? 16383 then 1 + random_run rs else 1
  end.

Definition zslRandomLevel (rs : list Z) : Z :=
  let level := random_run rs in
  if level <? ZSKIPLIST_MAXLEVEL then level else ZSKIPLIST_MAXLEVEL.

(** ** Searching *)

(** The inner loop of all searches: go forward on level [i] while [go] holds of the rank
    reached, the score and the element of the next node. *)
Fixpoint walk (fuel : nat) (z : zskiplist) (i : Z) (go : Z → Sc → bytes → bool) (x : addr) (rank : Z)
    : option (addr * Z) :=
  match fuel with
  | O => None
  | S fuel =>
      '(f, span) ← levels z !! (x, i);
      match f with
      | None => Some (x, rank)
      | Some y =>
          '(s, e) ← nodes z !! y;
          if go (rank + span) s e then walk fuel z i go y (rank + span) else Some (x, rank)
      end
  end.

Definition walk_fuel (z : zskiplist) : nat := S (Z.to_nat (zlength z)).

(** The outer loop, from level [i-1] down to 0: the node reached, and for every level the
    node where it was left and its rank ([update] and [rank]). *)
Fixpoint search (i : nat) (z : zskiplist) (go : Z → Sc → bytes → bool) (x : addr) (rank : Z)
    : option (addr * Z * list (addr * Z)) :=
  match i with
  | O => Some (x, rank, [])
  | S i =>
      '(x, rank) ← walk (walk_fuel z) z (Z.of_nat i) go x rank;
      '(x', rank', update) ← search i z go x rank;
      Some (x', rank', update ++ [(x, rank)])
  end.

Definition search_from_header (z : zskiplist) (go : Z → Sc → bytes → bool)
    : option (addr * Z * list (addr * Z)) :=
  search (Z.to_nat (zlevel z)) z go (header z) 0.

(** The order of the list: by score, then by element. *)
Definition node_lt (s : Sc) (e : bytes) (score : Sc) (ele : bytes) : bool :=
  slt s score || (seqb s score && (sdscmp e ele <? 0)).

Definition go_before (score : Sc) (ele : bytes) : Z → Sc → bytes → bool :=
  λ _ s e, node_lt s e score ele.

(** ** Insertion *)

(** A level of the header that was not in use. *)
Definition raise_body (h : addr) (len : Z) (i : Z) (m : levelmap) : option levelmap :=
  '(f, _) ← m !! (h, i);
  Some (<[(h, i) := (f, len)]> m).

(** The new node [x] is linked on level [i]. *)
Definition link_body (x : addr) (rank0 : Z) (update : list (addr * Z)) (i : Z) (m : levelmap) : option levelmap :=
  '(u, r) ← update !! Z.to_nat i;
  '(f, span) ← m !! (u, i);
  let m := <[(x, i) := (f, span - (rank0 - r))]> m in
  Some (<[(u, i) := (Some x, rank0 - r + 1)]> m).

(** The span over the new node on a level it does not have. *)
Definition stretch_body (update : list (addr * Z)) (i : Z) (m : levelmap) : option levelmap :=
  '(u, _) ← update !! Z.to_nat i;
  '(f, span) ← m !! (u, i);
  Some (<[(u, i) := (f, span + 1)]> m).

(** [zslInsert], with the values of [random()] and the address of the new node. *)
Definition zslInsert (z : zskiplist) (rs : list Z) (a : addr) (score : Sc) (ele : bytes) : option zskiplist :=
  '(_, _, update) ← search_from_header z (go_before score ele);
  let level := zslRandomLevel rs in
  let raised := Z.to_nat (level - zlevel z) in
  m ← for_levels raised (zlevel z) (raise_body (header z) (zlength z)) (levels z);
  let update := update ++ replicate raised (header z, 0) in
  let newlevel := if zlevel z <? level then level else zlevel z in
  '(u0, rank0) ← update !! 0%nat;
  m ← for_levels (Z.to_nat level) 0 (link_body a rank0 update) m;
  m ← for_levels (Z.to_nat (newlevel - level)) level (stretch_body update) m;
  let bw := <[a := (if u0 =? header z then None else Some u0)]> (backward z) in
  '(f0, _) ← m !! (a, 0);
  let '(bw, tl) :=
    match f0 with
    | Some y => (<[y := Some a]> bw, tail z)
    | None => (bw, Some a)
    end in
  Some (Zsl (header z) tl (zlength z + 1) newlevel (<[a := (score, ele)]> (nodes z)) bw m).

(** ** Deletion *)

(** A level in the loop of [zslDeleteNode]. *)
Definition unlink_body (x : addr) (update : list (addr * Z)) (i : Z) (m : levelmap) : option levelmap :=
  '(u, _) ← update !! Z.to_nat i;
  '(f, span) ← m !! (u, i);
  if bool_decide (f = Some x) then
    '(fx, spanx) ← m !! (x, i);
    Some (<[(u, i) := (fx, span + spanx - 1)]> m)
  else Some (<[(u, i) := (f, span - 1)]> m).

(** [while(zsl->level > 1 && zsl->header->level[zsl->level-1].forward == NULL)] *)
Fixpoint lower_level (fuel : nat) (h : addr) (m : levelmap) (level : Z) : option Z :=
  match fuel with
  | O => None
  | S fuel =>
      if 1 <? level then
        '(f, _) ← m !! (h, level - 1);
        match f with
        | None => lower_level fuel h m (level - 1)
        | Some _ => Some level
        end
      else Some level
  end.

Definition zslDeleteNode (z : zskiplist) (x : addr) (update : list (addr * Z)) : option zskiplist :=
  m ← for_levels (Z.to_nat (zlevel z)) 0 (unlink_body x update) (levels z);
  '(f0, _) ← m !! (x, 0);
  bx ← backward z !! x;
  let '(bw, tl) :=
    match f0 with
    | Some y => (<[y := bx]> (backward z), tail z)
    | None => (backward z, bx)
    end in
  level ← lower_level (Z.to_nat (zlevel z)) (header z) m (zlevel z);
  Some (Zsl (header z) tl (zlength z - 1) level (nodes z) bw m).

(** [zslFreeNode]: all fields of the node are gone. *)
Definition zslFreeNode (z : zskiplist) (x : addr) : zskiplist :=
  Zsl (header z) (tail z) (zlength z) (zlevel z) (delete x (nodes z)) (delete x (backward z))
    (filter (λ p, p.1.1 ≠ x) (levels z)).

(** [x->level[0].forward] *)
Definition next0 (z : zskiplist) (x : addr) : option (option addr) := fst <$> levels z !! (x, 0).

(** [zslDelete] with [node == NULL]. *)
Definition zslDelete (z : zskiplist) (score : Sc) (ele : bytes) : option (zskiplist * bool) :=
  '(x, _, update) ← search_from_header z (go_before score ele);
  f ← next0 z x;
  match f with
  | None => Some (z, false)
  | Some x =>
      '(s, e) ← nodes z !! x;
      if seqb score s && (sdscmp e ele =? 0) then
        z ← zslDeleteNode z x update; Some (zslFreeNode z x, true)
      else Some (z, false)
  end.

(** [zslUpdateScore]; the new node, when there is one, is allocated at [a] before the old
    one is released.  The result is the node that now holds the element. *)
Definition zslUpdateScore (z : zskiplist) (rs : list Z) (a : addr) (curscore : Sc) (ele : bytes) (newscore : Sc)
    : option (zskiplist * addr) :=
  '(x, _, update) ← search_from_header z (go_before curscore ele);
  f ← next0 z x;
  x ← f;
  '(s, e) ← nodes z !! x;
  if negb (seqb curscore s && (sdscmp e ele =? 0)) then None
  else
    b ← backward z !! x;
    after ← match b with None => Some true | Some y => p ← nodes z !! y; Some (slt p.1 newscore) end;
    f ← next0 z x;
    before ← match f with None => Some true | Some y => p ← nodes z !! y; Some (sgt p.1 newscore) end;
    if after && before
    then Some (Zsl (header z) (tail z) (zlength z) (zlevel z) (<[x := (newscore, e)]> (nodes z)) (backward z) (levels z), x)
    else
      z ← zslDeleteNode z x update;
      z ← zslInsert z rs a newscore e;
      Some (zslFreeNode z x, a).

(** ** Ranges *)

Record zrangespec := ZRange { rmin : Sc; rmax : Sc; minex : bool; maxex : bool }.

Definition zslValueGteMin (v : Sc) (r : zrangespec) : bool := if minex r then sgt v (rmin r) else sge v (rmin r).
Definition zslValueLteMax (v : Sc) (r : zrangespec) : bool := if maxex r then slt v (rmax r) else sle v (rmax r).

(** The score of a node given by a pointer that may be NULL. *)
Definition score_at (z : zskiplist) (p : option addr) : option (option (Sc * bytes)) :=
  match p with None => Some None | Some x => n ← nodes z !! x; Some (Some n) end.

Definition zslIsInRange (z : zskiplist) (r : zrangespec) : option bool :=
  if sgt (rmin r) (rmax r) || (seqb (rmin r) (rmax r) && (minex r || maxex r)) then Some false
  else
    t ← score_at z (tail z);
    match t with
    | None => Some false
    | Some (s, _) =>
        if negb (zslValueGteMin s r) then Some false
        else
          f ← next0 z (header z);
          h ← score_at z f;
          match h with
          | None => Some false
          | Some (s, _) => Some (zslValueLteMax s r)
          end
    end.

(** The result is the node, or NULL. *)
Definition zslFirstInRange (z : zskiplist) (r : zrangespec) : option (option addr) :=
  b ← zslIsInRange z r;
  if negb b then Some None
  else
    '(x, _, _) ← search_from_header z (λ _ s _, negb (zslValueGteMin s r));
    f ← next0 z x;
    x ← f;
    '(s, _) ← nodes z !! x;
    Some (if negb (zslValueLteMax s r) then None else Some x).

Definition zslLastInRange (z : zskiplist) (r : zrangespec) : option (option addr) :=
  b ← zslIsInRange z r;
  if negb b then Some None
  else
    '(x, _, _) ← search_from_header z (λ _ s _, zslValueLteMax s r);
    '(s, _) ← nodes z !! x;
    Some (if negb (zslValueGteMin s r) then None else Some x).

(** The deletion loops: nodes are deleted while [keep] holds of the number deleted, the
    score and the element; the elements are also deleted from the dictionary, given by the
    list of its keys that are removed. *)
Fixpoint delete_while (fuel : nat) (z : zskiplist) (keep : Z → Sc → bytes → bool) (update : list (addr * Z))
    (x : option addr) (removed : list bytes) : option (zskiplist * list bytes) :=
  match fuel with
  | O => None
  | S fuel =>
      match x with
      | None => Some (z, removed)
      | Some x =>
          '(s, e) ← nodes z !! x;
          if keep (zlen removed) s e then
            next ← next0 z x;
            z ← zslDeleteNode z x update;
            delete_while fuel (zslFreeNode z x) keep update next (removed ++ [e])
          else Some (z, removed)
      end
  end.

Definition delete_range (z : zskiplist) (go keep : Z → Sc → bytes → bool) : option (zskiplist * list bytes) :=
  '(x, _, update) ← search_from_header z go;
  f ← next0 z x;
  delete_while (walk_fuel z) z keep update f [].

Definition zslDeleteRangeByScore (z : zskiplist) (r : zrangespec) : option (zskiplist * list bytes) :=
  delete_range z (λ _ s _, if minex r then sle s (rmin r) else slt s (rmin r))
                 (λ _ s _, if maxex r then slt s (rmax r) else sle s (rmax r)).

(** [traversed] starts at the rank of the node before the range, plus one. *)
Definition zslDeleteRangeByRank (z : zskiplist) (start end_ : Z) : option (zskiplist * list bytes) :=
  '(x, traversed, update) ← search_from_header z (λ rank _ _, rank <? start);
  f ← next0 z x;
  delete_while (walk_fuel z) z (λ n _ _, traversed + 1 + n <=? end_) update f [].

(** Lexicographic bounds: the shared strings of "-" and "+", or a string. *)
Inductive lexbound := minstring | maxstring | lexstring (s : bytes).

Record zlexrangespec := ZLexRange { lmin : lexbound; lmax : lexbound; lminex : bool; lmaxex : bool }.

(** [a == b] compares pointers: it holds for the shared strings. *)
Definition sdscmplex (a b : lexbound) : Z :=
  match a, b with
  | minstring, minstring | maxstring, maxstring => 0
  | minstring, _ | _, maxstring => -1
  | maxstring, _ | _, minstring => 1
  | lexstring a, lexstring b => sdscmp a b
  end.

Definition zslLexValueGteMin (v : bytes) (r : zlexrangespec) : bool :=
  if lminex r then 0 <? sdscmplex (lexstring v) (lmin r) else 0 <=? sdscmplex (lexstring v) (lmin r).
Definition zslLexValueLteMax (v : bytes) (r : zlexrangespec) : bool :=
  if lmaxex r then sdscmplex (lexstring v) (lmax r) <? 0 else sdscmplex (lexstring v) (lmax r) <=? 0.

Definition zslDeleteRangeByLex (z : zskiplist) (r : zlexrangespec) : option (zskiplist * list bytes) :=
  delete_range z (λ _ _ e, negb (zslLexValueGteMin e r)) (λ _ _ e, zslLexValueLteMax e r).

Definition zslIsInLexRange (z : zskiplist) (r : zlexrangespec) : option bool :=
  let cmp := sdscmplex (lmin r) (lmax r) in
  if (0 <? cmp) || ((cmp =? 0) && (lminex r || lmaxex r)) then Some false
  else
    t ← score_at z (tail z);
    match t with
    | None => Some false
    | Some (_, e) =>
        if negb (zslLexValueGteMin e r) then Some false
        else
          f ← next0 z (header z);
          h ← score_at z f;
          match h with
          | None => Some false
          | Some (_, e) => Some (zslLexValueLteMax e r)
          end
    end.

Definition zslFirstInLexRange (z : zskiplist) (r : zlexrangespec) : option (option addr) :=
  b ← zslIsInLexRange z r;
  if negb b then Some None
  else
    '(x, _, _) ← search_from_header z (λ _ _ e, negb (zslLexValueGteMin e r));
    f ← next0 z x;
    x ← f;
    '(_, e) ← nodes z !! x;
    Some (if negb (zslLexValueLteMax e r) then None else Some x).

Definition zslLastInLexRange (z : zskiplist) (r : zlexrangespec) : option (option addr) :=
  b ← zslIsInLexRange z r;
  if negb b then Some None
  else
    '(x, _, _) ← search_from_header z (λ _ _ e, zslLexValueLteMax e r);
    '(_, e) ← nodes z !! x;
    Some (if negb (zslLexValueGteMin e r) then None else Some x).

(** ** Ranks *)

(** [zslGetRank]: the loop may end on any level; the header has no element. *)
Fixpoint rank_loop (i : nat) (z : zskiplist) (score : Sc) (ele : bytes) (x : addr) (rank : Z) : option Z :=
  match i with
  | O => Some 0
  | S i =>
      '(x, rank) ← walk (walk_fuel z) z (Z.of_nat i)
        (λ _ s e, slt s score || (seqb s score && (sdscmp e ele <=? 0))) x rank;
      found ← (if x =? header z then Some false
               else p ← nodes z !! x; Some (sdscmp p.2 ele =? 0));
      if (found : bool) then Some rank else rank_loop i z score ele x rank
  end.

Definition zslGetRank (z : zskiplist) (score : Sc) (ele : bytes) : option Z :=
  rank_loop (Z.to_nat (zlevel z)) z score ele (header z) 0.

(** [zslGetElementByRank] *)
Fixpoint by_rank_loop (i : nat) (z : zskiplist) (rank : Z) (x : addr) (traversed : Z) : option (option addr) :=
  match i with
  | O => Some None
  | S i =>
      '(x, traversed) ← walk (walk_fuel z) z (Z.of_nat i) (λ r _ _, r <=? rank) x traversed;
      if traversed =? rank then Some (Some x) else by_rank_loop i z rank x traversed
  end.

Definition zslGetElementByRank (z : zskiplist) (rank : Z) : option (option addr) :=
  by_rank_loop (Z.to_nat (zlevel z)) z rank (header z) 0.

End Skiplist.

Arguments zskiplist : clear implicits.
Arguments zrangespec : clear implicits.

(** ** Loops over the levels *)

(** A body that works on one level only, with [Q] what it leaves there. *)
Lemma for_levels_spec (body : Z → levelmap → option levelmap) (Q : Z → (addr → option (option addr * Z)) → Prop) :
  ∀ n i m,
  (∀ j p p', (∀ b, p b = p' b) → Q j p → Q j p') →
  (∀ j m0, i ≤ j < i + Z.of_nat n → (∀ b, m0 !! (b, j) = m !! (b, j)) →
     ∃ m1, body j m0 = Some m1 ∧ (∀ b k, k ≠ j → m1 !! (b, k) = m0 !! (b, k)) ∧ Q j (λ b, m1 !! (b, j))) →
  ∃ m', for_levels n i body m = Some m' ∧
    (∀ b j, ¬ (i ≤ j < i + Z.of_nat n) → m' !! (b, j) = m !! (b, j)) ∧
    (∀ j, i ≤ j < i + Z.of_nat n → Q j (λ b, m' !! (b, j))).
Proof.
  induction n as [|n IH]; intros i m Hext Hbody; cbn [for_levels].
  { exists m. split; [done|]. split; [done|]. lia. }
  destruct (Hbody i m) as (m1 & -> & Hout & HQ); [lia|done|]. cbn [mbind option_bind].
  destruct (IH (i + 1) m1 Hext) as (m' & -> & Hout' & HQ').
  { intros j m0 Hj Hm0. apply Hbody; [lia|]. intros b. rewrite Hm0. apply Hout. lia. }
  exists m'. split; [done|]. split.
  - intros b j Hj. rewrite Hout' by lia. apply Hout. lia.
  - intros j Hj. destruct (decide (j = i)) as [-> |Hne]; [|apply HQ'; lia].
    eapply Hext; [|exact HQ]. intros b. symmetry. apply Hout'. lia.
Qed.

(** ** The abstract list *)

Section Rep.

Context {Sc : Type} `{!ScoreOrder Sc} `{!ScoreLaws Sc}.

Implicit Types z : zskiplist Sc.

(** A node of the list: its address, score and element, and the number of its levels. *)
Record nd := Nd { na : addr; ns : Sc; ne : bytes; nh : Z }.

Implicit Types L A B : list nd.

(** The next node that has level [i], with its distance. *)
Fixpoint fnext (i : Z) (l : list nd) : option (Z * nd) :=
  match l with
  | [] => None
  | x :: l => if i <? nh x then Some (1, x) else (λ p, (p.1 + 1, p.2)) <$> fnext i l
  end.

(** The forward pointer and the span of a node before the nodes [l]; the span of a last
    node is the number of nodes after it. *)
Definition cell (i : Z) (l : list nd) : option addr * Z :=
  match fnext i l with
  | Some (o, x) => (Some (na x), o)
  | None => (None, zlen l)
  end.

Lemma fnext_app_Some i l1 l2 p : fnext i l1 = Some p → fnext i (l1 ++ l2) = Some p.
Proof.
  revert p. induction l1 as [|x l1 IH]; intros p; cbn [fnext app]; [done|].
  destruct (i <? nh x); [done|]. destruct (fnext i l1) as [q|]; [|done]. intros [= <-]. by rewrite (IH q).
Qed.

Lemma fnext_None i l : fnext i l = None ↔ Forall (λ x, nh x ≤ i) l.
Proof.
  induction l as [|x l IH]; cbn [fnext]; [split; [by intros; apply Forall_nil|done]|].
  rewrite Forall_cons, <-IH. destruct (Z.ltb_spec i (nh x)); [split; [done|lia]|].
  rewrite fmap_None. naive_solver.
Qed.

Lemma fnext_app_None i l1 l2 :
  Forall (λ x, nh x ≤ i) l1 → fnext i (l1 ++ l2) = (λ p, (p.1 + zlen l1, p.2)) <$> fnext i l2.
Proof.
  induction 1 as [|x l1 Hx _ IH]; cbn [fnext app].
  - destruct (fnext i l2) as [[o x]|]; simpl; [|done]. f_equal. f_equal. lia.
  - rewrite (proj2 (Z.ltb_ge _ _)), IH by lia. destruct (fnext i l2) as [[o y]|]; simpl; [|done]. f_equal. f_equal. lia.
Qed.

(** A node with level [i] among the nodes in between hides what follows. *)
Lemma cell_hidden i l1 l2 l2' : ¬ Forall (λ x, nh x ≤ i) l1 → cell i (l1 ++ l2) = cell i (l1 ++ l2').
Proof.
  intros Hn. unfold cell. destruct (fnext i l1) as [p|] eqn:E; [|by apply fnext_None in E].
  by rewrite !(fnext_app_Some _ _ _ _ E).
Qed.

(** Without one, the distance adds up. *)
Lemma cell_past i l1 l2 :
  Forall (λ x, nh x ≤ i) l1 → cell i (l1 ++ l2) = ((cell i l2).1, (cell i l2).2 + zlen l1).
Proof.
  intros H. unfold cell. rewrite fnext_app_None by done.
  destruct (fnext i l2) as [[o x]|]; simpl; [done|]. f_equal. rewrite length_app. lia.
Qed.

Lemma cell_cons i x l : cell i (x :: l) = if i <? nh x then (Some (na x), 1) else ((cell i l).1, (cell i l).2 + 1).
Proof.
  unfold cell. cbn [fnext]. destruct (i <? nh x); [done|]. destruct (fnext i l) as [[o y]|]; simpl; [done|].
  f_equal. lia.
Qed.

(** [z] represents the list [L]. *)
Record rep z L : Prop := {
  rep_level : 1 ≤ zlevel z ≤ ZSKIPLIST_MAXLEVEL;
  rep_length : zlength z = zlen L;
  rep_tail : tail z = na <$> last L;
  rep_heights x : x ∈ L → 1 ≤ nh x ≤ zlevel z;
  rep_addrs : NoDup (header z :: (na <$> L));
  rep_nodes x : x ∈ L → nodes z !! na x = Some (ns x, ne x);
  rep_backward A x B : L = A ++ x :: B → backward z !! na x = Some (na <$> last A);
  rep_header i : 0 ≤ i < zlevel z → levels z !! (header z, i) = Some (cell i L);
  rep_unused i : zlevel z ≤ i < ZSKIPLIST_MAXLEVEL → ∃ n, levels z !! (header z, i) = Some (None, n);
  rep_levels A x B i : L = A ++ x :: B → 0 ≤ i < nh x → levels z !! (na x, i) = Some (cell i B);
}.

(** A position in the list: the header at 0 or a node, with the nodes after it. *)
Inductive pos z L : Z → addr → list nd → Z → Prop :=
  | pos_header : pos z L 0 (header z) L (zlevel z)
  | pos_node A x B : L = A ++ x :: B → pos z L (zlen A + 1) (na x) B (nh x).

Lemma pos_cell z L p a rest h i :
  rep z L → pos z L p a rest h → 0 ≤ i < h → levels z !! (a, i) = Some (cell i rest).
Proof. intros Hr [|A x B E] Hi; [by apply rep_header|by eapply rep_levels]. Qed.

Lemma pos_rest z L p a rest h : pos z L p a rest h → ∃ A, L = A ++ rest ∧ zlen A = p.
Proof.
  intros [|A x B ->]; [by exists []|]. exists (A ++ [x]). split; [by rewrite <-(assoc_L (++))|].
  rewrite length_app. simpl. lia.
Qed.

(** No node with level [i] after position [p], up to position [k]. *)
Definition gap (L : list nd) (i p k : Z) : Prop :=
  ∀ A x B, L = A ++ x :: B → p ≤ zlen A → zlen A < k → nh x ≤ i.

Lemma gap_rest L A M B i :
  L = A ++ M ++ B → gap L i (zlen A) (zlen A + zlen M) ↔ Forall (λ x, nh x ≤ i) M.
Proof.
  intros ->. split.
  - intros H. apply Forall_forall. intros x Hx. apply list_elem_of_split in Hx as (M1 & M2 & ->).
    apply (H (A ++ M1) x (M2 ++ B)); [by rewrite <-!(assoc_L (++))|rewrite length_app; lia|].
    rewrite !length_app. cbn [length]. lia.
  - intros H C x D E H1 H2.
    assert (M !! (length C - length A)%nat = Some x) as Hx.
    { rewrite <-(lookup_app_l M B) by lia. rewrite <-(lookup_app_r A) by lia. rewrite E.
      rewrite lookup_app_r by lia. by rewrite Nat.sub_diag. }
    rewrite Forall_forall in H. apply H. by eapply list_elem_of_lookup_2.
Qed.

(** The predicate of a search holds of exactly the first [k] nodes. *)
Definition go_prefix (go : Z → Sc → bytes → bool) (L : list nd) (k : Z) : Prop :=
  0 ≤ k ≤ zlen L ∧ ∀ A x B, L = A ++ x :: B → go (zlen A + 1) (ns x) (ne x) = (zlen A <? k).

Lemma fnext_Some i l o x :
  fnext i l = Some (o, x) →
  ∃ l1 l2, l = l1 ++ x :: l2 ∧ Forall (λ y, nh y ≤ i) l1 ∧ i < nh x ∧ o = zlen l1 + 1.
Proof.
  revert o. induction l as [|y l IH]; intros o; cbn [fnext]; [done|].
  destruct (Z.ltb_spec i (nh y)) as [Hy|Hy].
  - intros [= <- <-]. exists [], l. by split_and!.
  - destruct (fnext i l) as [[o' x']|]; [|done]. intros [= <- <-].
    destruct (IH o' eq_refl) as (l1 & l2 & -> & H1 & Hx & ->). exists (y :: l1), l2.
    split_and!; try done; [by apply Forall_cons|cbn [length]; lia].
Qed.

Lemma gap_mono L i p p' k k' : gap L i p k → p ≤ p' → k' ≤ k → gap L i p' k'.
Proof. intros H H1 H2 A x B E ? ?. eapply H; [exact E|lia|lia]. Qed.

Lemma walk_spec z L go k i : ∀ fuel p a rest h,
  rep z L → go_prefix go L k → pos z L p a rest h → 0 ≤ i < h → p ≤ k → (Z.to_nat (k - p) < fuel)%nat →
  ∃ p' a' rest' h', walk fuel z i go a p = Some (a', p') ∧ pos z L p' a' rest' h' ∧ i < h' ∧
    p ≤ p' ≤ k ∧ gap L i p' k.
Proof.
  induction fuel as [|fuel IH]; intros p a rest h Hr Hgo Hp Hi Hk Hf; [lia|]. cbn [walk].
  rewrite (pos_cell z L p a rest h i Hr Hp Hi). cbn [mbind option_bind]. unfold cell.
  destruct (pos_rest _ _ _ _ _ _ Hp) as (A0 & HL & HA0).
  destruct (fnext i rest) as [[o x]|] eqn:E.
  2:{ exists p, a, rest, h. split_and!; try done; [lia|].
      apply fnext_None in E. eapply gap_mono; [|reflexivity|apply Hgo].
      assert (L = A0 ++ rest ++ []) as HL' by (by rewrite app_nil_r).
      rewrite <-HA0. replace (zlen L) with (zlen A0 + zlen rest) by (rewrite HL, length_app; lia).
      by apply (gap_rest L A0 rest [] i HL'). }
  apply fnext_Some in E as (l1 & l2 & -> & H1 & Hx & ->).
  assert (L = (A0 ++ l1) ++ x :: l2) as HL2 by (by rewrite <-(assoc_L (++))).
  rewrite (rep_nodes _ _ Hr x) by (rewrite HL2; apply elem_of_app; right; by left). cbn [mbind option_bind].
  destruct Hgo as [Hkl Hgo]. pose proof (Hgo _ _ _ HL2) as Hg. rewrite length_app in Hg.
  replace (p + (zlen l1 + 1)) with (Z.of_nat (length A0 + length l1) + 1) by lia. rewrite Hg.
  destruct (Z.ltb_spec (Z.of_nat (length A0 + length l1)) k) as [Hlt|Hge].
  - assert (pos z L (Z.of_nat (length A0 + length l1) + 1) (na x) l2 (nh x)) as Hp2.
    { rewrite <-length_app. by apply pos_node. }
    destruct (IH _ _ _ _ Hr (conj Hkl Hgo) Hp2) as (p' & a' & rest' & h' & -> & Hp' & Hi' & Hb & Hgap); [lia|lia|lia|].
    exists p', a', rest', h'. split_and!; try done; lia.
  - exists p, a, (l1 ++ x :: l2), h. split_and!; try done; [lia|].
    eapply gap_mono; [apply (gap_rest L A0 l1 (x :: l2) i HL); exact H1|lia|lia].
Qed.

(** What the search leaves in [update] and [rank] for a level. *)
Definition left_at z L (k : Z) (j : Z) (u : addr) (q : Z) : Prop :=
  ∃ rest h, pos z L q u rest h ∧ j < h ∧ 0 ≤ q ≤ k ∧ gap L j q k.

Lemma search_spec z L go k : ∀ i p a rest h,
  rep z L → go_prefix go L k → pos z L p a rest h → Z.of_nat i ≤ h → 0 ≤ p ≤ k →
  ∃ a' p' update, search i z go a p = Some (a', p', update) ∧ length update = i ∧
    (∀ j u q, update !! j = Some (u, q) → left_at z L k (Z.of_nat j) u q) ∧
    (i = 0%nat → a' = a ∧ p' = p) ∧ ((0 < i)%nat → update !! 0%nat = Some (a', p')).
Proof.
  induction i as [|i IH]; intros p a rest h Hr Hgo Hp Hi Hk; cbn [search].
  { exists a, p, []. split; [done|]. split; [done|]. split; [intros j u q Hj; by rewrite lookup_nil in Hj|]. split; [done|lia]. }
  destruct (walk_spec z L go k (Z.of_nat i) (walk_fuel z) p a rest h) as (p1 & a1 & rest1 & h1 & -> & Hp1 & Hi1 & Hk1 & Hgap);
    [done|done|done|lia|lia|unfold walk_fuel; rewrite (rep_length _ _ Hr); destruct Hgo; lia|].
  cbn [mbind option_bind].
  destruct (IH p1 a1 rest1 h1 Hr Hgo Hp1) as (a' & p' & update & -> & Hlen & Hupd & H0 & H1); [lia|lia|].
  cbn [mbind option_bind]. exists a', p', (update ++ [(a1, p1)]). split; [done|].
  split; [rewrite length_app; simpl; lia|]. split; [|split; [done|]].
  - intros j u q Hj. apply lookup_app_Some in Hj as [Hj|[Hl Hj]]; [by eapply Hupd|].
    apply list_lookup_singleton_Some in Hj as [Hj [= <- <-]].
    assert (j = i) as -> by lia. exists rest1, h1. split_and!; (done || lia).
  - intros _. destruct i as [|i].
    + destruct (H0 eq_refl) as [-> ->]. destruct update; [done|simpl in Hlen; lia].
    + rewrite lookup_app_l by lia. apply H1. lia.
Qed.

Lemma search_header z L go k :
  rep z L → go_prefix go L k →
  ∃ a update rest h, search_from_header z go = Some (a, k, update) ∧ zlen update = zlevel z ∧
    (∀ j u q, update !! j = Some (u, q) → left_at z L k (Z.of_nat j) u q) ∧
    update !! 0%nat = Some (a, k) ∧ pos z L k a rest h.
Proof.
  intros Hr Hgo. unfold search_from_header. pose proof (rep_level _ _ Hr) as Hl.
  destruct (search_spec z L go k (Z.to_nat (zlevel z)) 0 (header z) L (zlevel z)) as (a & p & update & -> & Hlen & Hupd & _ & H0);
    [done|done|apply pos_header|lia|destruct Hgo; lia|].
  specialize (H0 ltac:(lia)). destruct (Hupd _ _ _ H0) as (rest & h & Hp & _ & Hq & Hgap).
  assert (p = k) as ->.
  { destruct (decide (p = k)) as [|Hne]; [done|]. exfalso.
    destruct (pos_rest _ _ _ _ _ _ Hp) as (A & HL & HA). destruct rest as [|x rest].
    - destruct Hgo as [Hk _]. rewrite HL, app_nil_r in Hk. lia.
    - pose proof (Hgap A x rest HL ltac:(lia) ltac:(lia)) as Hx.
      pose proof (rep_heights _ _ Hr x) as Hh. rewrite HL in Hh. specialize (Hh ltac:(apply elem_of_app; right; by left)). simpl in Hx. lia. }
  exists a, update, rest, h. split_and!; try done. lia.
Qed.

(** The node of a level is unique. *)
Lemma left_at_unique z L k j u q u' q' :
  rep z L → 0 ≤ j → left_at z L k j u q → left_at z L k j u' q' → u = u' ∧ q = q'.
Proof.
  intros Hr Hj (rest & h & Hp & Hh & Hq & Hg) (rest' & h' & Hp' & Hh' & Hq' & Hg').
  assert (∀ q1 u1 r1 h1 q2 u2 r2 h2, pos z L q1 u1 r1 h1 → gap L j q1 k → pos z L q2 u2 r2 h2 → j < h2 → q2 ≤ k → q2 ≤ q1) as Hle.
  { intros q1 u1 r1 h1 q2 u2 r2 h2 Hp1 Hg1 Hp2 Hh2 Hq2. destruct (decide (q2 ≤ q1)); [done|]. exfalso.
    assert (0 ≤ q1) by (destruct Hp1; lia).
    destruct Hp2 as [|A x B E]; [lia|]. specialize (Hg1 A x B E). lia. }
  assert (q = q') as -> by (apply Z.le_antisymm; [eapply (Hle q'); eauto; lia|eapply (Hle q); eauto; lia]).
  split; [|done]. destruct Hp as [|A x B E]; inversion Hp' as [Heq|A' x' B' E' Heq]; subst; try lia; try done.
  assert (length A = length A') as El by lia. apply app_inj_1 in E' as [_ E']; [|done].
  by injection E' as -> ->.
Qed.

(** Positions have different addresses. *)
Lemma pos_addr z L q b rest h : pos z L q b rest h → (header z :: (na <$> L)) !! Z.to_nat q = Some b ∧ 0 ≤ q.
Proof.
  intros [|A x B ->]; [done|]. replace (Z.to_nat (zlen A + 1)) with (S (length A)) by lia. split; [|lia].
  etransitivity; [apply (list_lookup_fmap na (A ++ x :: B) (length A))|]. by rewrite lookup_app_r, Nat.sub_diag by lia.
Qed.

Lemma pos_inj z L q b rest h q' rest' h' :
  rep z L → pos z L q b rest h → pos z L q' b rest' h' → q = q'.
Proof.
  intros Hr [H1 ?]%pos_addr [H2 ?]%pos_addr.
  pose proof (NoDup_lookup _ _ _ _ (rep_addrs _ _ Hr) H1 H2). lia.
Qed.

(** The node of a level, with the nodes between it and the position [zlen A]. *)
Lemma left_at_split z L A B j u q :
  L = A ++ B → left_at z L (zlen A) j u q →
  ∃ M h, pos z L q u (M ++ B) h ∧ j < h ∧ q + zlen M = zlen A ∧ Forall (λ x, nh x ≤ j) M.
Proof.
  intros HL (rest & h & Hp & Hj & Hq & Hg). destruct (pos_rest _ _ _ _ _ _ Hp) as (A1 & HL1 & HA1).
  rewrite HL in HL1. apply app_eq_inv in HL1 as [(M & -> & ->)|(M & -> & ->)].
  - exists M, h. rewrite length_app in *. split_and!; try done; [lia|].
    apply (gap_rest L A1 M B j); [by rewrite HL, <-(assoc_L (++))|]. rewrite HA1. by replace (q + zlen M) with (Z.of_nat (length A1 + length M)) by lia.
  - rewrite length_app in HA1. assert (M = []) as -> by (destruct M; [done|cbn [length] in HA1; lia]).
    exists [], h. cbn [app length] in *. split_and!; (done || lia).
Qed.

(** The converse: a position with level [j] before which nothing lies in between. *)
Lemma split_left_at z L A B M j u q h :
  L = A ++ B → pos z L q u (M ++ B) h → j < h → q + zlen M = zlen A → Forall (λ x, nh x ≤ j) M →
  left_at z L (zlen A) j u q.
Proof.
  intros HL Hp Hj Hq HM. exists (M ++ B), h. split_and!; try done; [destruct Hp; lia|lia|].
  destruct (pos_rest _ _ _ _ _ _ Hp) as (A1 & HL1 & HA1). rewrite <-Hq, <-HA1. by eapply gap_rest.
Qed.

(** What linking a node [x] between [A] and [B] leaves on level [j]. *)
Definition linked z L A B (x : nd) (j : Z) (p : addr → option (option addr * Z)) : Prop :=
  ∀ u q M h, pos z L q u (M ++ B) h → j < h → q + zlen M = zlen A → Forall (λ y, nh y ≤ j) M →
    p u = Some (cell j (M ++ x :: B)) ∧ (j < nh x → p (na x) = Some (cell j B)) ∧
    ∀ b, b ≠ u → (b ≠ na x ∨ nh x ≤ j) → p b = levels z !! (b, j).

Lemma linked_ext z L A B x j p p' : (∀ b, p b = p' b) → linked z L A B x j p → linked z L A B x j p'.
Proof.
  intros E H u q M h H1 H2 H3 H4. destruct (H u q M h H1 H2 H3 H4) as (Hu & Hx & Hb). rewrite <-!E.
  split; [done|]. split; [done|]. intros b. rewrite <-E. apply Hb.
Qed.

Lemma link_level z L A B x update j m0 :
  rep z L → L = A ++ B → 0 ≤ j < nh x → j < zlen update → na x ∉ header z :: (na <$> L) →
  (∀ j u q, update !! j = Some (u, q) → left_at z L (zlen A) (Z.of_nat j) u q) →
  (∀ b, m0 !! (b, j) = levels z !! (b, j)) →
  ∃ m1, link_body (na x) (zlen A) update j m0 = Some m1 ∧
    (∀ b k, k ≠ j → m1 !! (b, k) = m0 !! (b, k)) ∧ linked z L A B x j (λ b, m1 !! (b, j)).
Proof.
  intros Hr HL Hj Hlen Hfresh Hupd Hm0. unfold link_body.
  destruct (lookup_lt_is_Some_2 update (Z.to_nat j)) as [[u q] Hu]; [lia|]. rewrite Hu. cbn [mbind option_bind].
  pose proof (Hupd _ _ _ Hu) as Hl. rewrite Z2Nat.id in Hl by lia.
  destruct (left_at_split z L A B j u q HL Hl) as (M & h & Hp & Hh & Hq & HM).
  rewrite Hm0, (pos_cell z L q u (M ++ B) h j Hr Hp) by lia. cbn [mbind option_bind].
  rewrite cell_past by done. cbn [fst snd]. cbv zeta.
  assert (u ≠ na x) as Hux.
  { intros ->. apply Hfresh. destruct (pos_addr _ _ _ _ _ _ Hp) as [Ha _]. by eapply list_elem_of_lookup_2. }
  eexists. split; [done|]. split.
  - intros b k Hk. rewrite !lookup_insert_ne by congruence. done.
  - intros u' q' M' h' Hp' Hh' Hq' HM'.
    destruct (left_at_unique z L (zlen A) j u q u' q') as [<- <-]; [done|lia|done|by eapply split_left_at|].
    assert (M' = M) as ->.
    { destruct (pos_rest _ _ _ _ _ _ Hp) as (A1 & E1 & H1), (pos_rest _ _ _ _ _ _ Hp') as (A2 & E2 & H2).
      rewrite E1 in E2. apply app_inj_1 in E2 as [_ E2]; [|lia]. by apply app_inv_tail in E2. }
    split; [|split].
    + rewrite lookup_insert_eq. rewrite cell_past, cell_cons by done.
      rewrite (proj2 (Z.ltb_lt _ _)) by lia. cbn [fst snd]. do 2 f_equal. lia.
    + intros _. rewrite lookup_insert_ne, lookup_insert_eq by congruence. f_equal.
      destruct (cell j B) as [f sp]. cbn [fst snd]. f_equal. lia.
    + intros b Hbu [Hbx|?]; [|lia]. rewrite !lookup_insert_ne by congruence. apply Hm0.
Qed.

Lemma stretch_level z L A B x update j m0 :
  rep z L → L = A ++ B → 0 ≤ j → nh x ≤ j → j < zlen update →
  (∀ j u q, update !! j = Some (u, q) → left_at z L (zlen A) (Z.of_nat j) u q) →
  (∀ b, m0 !! (b, j) = levels z !! (b, j)) →
  ∃ m1, stretch_body update j m0 = Some m1 ∧
    (∀ b k, k ≠ j → m1 !! (b, k) = m0 !! (b, k)) ∧ linked z L A B x j (λ b, m1 !! (b, j)).
Proof.
  intros Hr HL Hj Hx Hlen Hupd Hm0. unfold stretch_body.
  destruct (lookup_lt_is_Some_2 update (Z.to_nat j)) as [[u q] Hu]; [lia|]. rewrite Hu. cbn [mbind option_bind].
  pose proof (Hupd _ _ _ Hu) as Hl. rewrite Z2Nat.id in Hl by lia.
  destruct (left_at_split z L A B j u q HL Hl) as (M & h & Hp & Hh & Hq & HM).
  rewrite Hm0, (pos_cell z L q u (M ++ B) h j Hr Hp) by lia. cbn [mbind option_bind].
  rewrite cell_past by done. cbn [fst snd].
  eexists. split; [done|]. split.
  - intros b k Hk. by rewrite lookup_insert_ne by congruence.
  - intros u' q' M' h' Hp' Hh' Hq' HM'.
    destruct (left_at_unique z L (zlen A) j u q u' q') as [<- <-]; [done|lia|done|by eapply split_left_at|].
    assert (M' = M) as ->.
    { destruct (pos_rest _ _ _ _ _ _ Hp) as (A1 & E1 & H1), (pos_rest _ _ _ _ _ _ Hp') as (A2 & E2 & H2).
      rewrite E1 in E2. apply app_inj_1 in E2 as [_ E2]; [|lia]. by apply app_inv_tail in E2. }
    split; [|split].
    + rewrite lookup_insert_eq. rewrite cell_past, cell_cons by done.
      rewrite (proj2 (Z.ltb_ge _ _)) by lia. cbn [fst snd]. do 2 f_equal. lia.
    + lia.
    + intros b Hbu _. rewrite lookup_insert_ne by congruence. apply Hm0.
Qed.

(** Raising the level of the list before an insertion does not change what it represents. *)
Lemma raise_spec z L lv :
  rep z L → 1 ≤ lv ≤ ZSKIPLIST_MAXLEVEL →
  ∃ m, for_levels (Z.to_nat (lv - zlevel z)) (zlevel z) (raise_body (header z) (zlength z)) (levels z) = Some m ∧
    rep (Zsl (header z) (tail z) (zlength z) (if zlevel z <? lv then lv else zlevel z) (nodes z) (backward z) m) L.
Proof.
  intros Hr Hlv. pose proof (rep_level _ _ Hr) as Hl.
  destruct (for_levels_spec (raise_body (header z) (zlength z))
    (λ j p, p (header z) = Some (None, zlength z) ∧ ∀ b, b ≠ header z → p b = levels z !! (b, j))
    (Z.to_nat (lv - zlevel z)) (zlevel z) (levels z)) as (m & -> & Hout & HQ).
  - intros j p p' E [H1 H2]. split; [by rewrite <-E|]. intros b Hb. rewrite <-E. by apply H2.
  - intros j m0 Hj Hm0. unfold raise_body. rewrite Hm0.
    destruct (rep_unused _ _ Hr j) as [n ->]; [lia|]. cbn [mbind option_bind]. eexists. split; [done|]. split.
    + intros b k Hk. by rewrite lookup_insert_ne by congruence.
    + split; [by rewrite lookup_insert_eq|]. intros b Hb. rewrite lookup_insert_ne by congruence. apply Hm0.
  - exists m. split; [done|]. set (lv' := if _ <? _ then _ else _).
    assert (lv' = Z.max lv (zlevel z)) as Elv by (unfold lv'; destruct (Z.ltb_spec (zlevel z) lv); lia).
    destruct Hr as [H1 H2 H3 H4 H5 H6 H7 H8 H9 H10]. split; cbn; try done.
    + lia.
    + intros x Hx. specialize (H4 x Hx). lia.
    + intros i Hi. destruct (decide (i < zlevel z)) as [Hlt|Hge].
      * rewrite Hout by lia. apply H8. lia.
      * destruct (HQ i) as [-> _]; [lia|]. unfold cell.
        assert (fnext i L = None) as ->; [|by rewrite H2]. apply fnext_None, Forall_forall. intros x Hx.
        specialize (H4 x Hx). lia.
    + intros i Hi. rewrite Hout by lia. apply H9. lia.
    + intros A x B i HL Hi. assert (x ∈ L) as Hx by (rewrite HL; apply elem_of_app; right; by left).
      rewrite Hout; [by eapply H10|]. specialize (H4 x Hx). lia.
Qed.

Lemma split_cases (A B A' B' : list nd) x y :
  A' ++ y :: B' = A ++ x :: B →
  (∃ C, A = A' ++ y :: C ∧ B' = C ++ x :: B) ∨ (A' = A ∧ y = x ∧ B' = B) ∨ (∃ C, A' = A ++ x :: C ∧ B = C ++ y :: B').
Proof.
  intros E. apply app_eq_inv in E as [(k & -> & E)|(k & -> & E)].
  - destruct k as [|c k]; simpl in E; injection E as -> ->.
    + right; left. by rewrite app_nil_r.
    + right; right. eauto.
  - destruct k as [|c k]; simpl in E; injection E as -> ->.
    + right; left. by rewrite app_nil_r.
    + left. eauto.
Qed.

Lemma pos_before z L A B u rest h :
  rep z L → L = A ++ B → pos z L (zlen A) u rest h →
  rest = B ∧ (if u =? header z then None else Some u) = na <$> last A.
Proof.
  intros Hr HL Hp. destruct (pos_rest _ _ _ _ _ _ Hp) as (A1 & E1 & H1). rewrite HL in E1.
  apply app_inj_1 in E1 as [<- <-]; [|lia]. split; [done|].
  pose proof (rep_addrs _ _ Hr) as Hnd. apply NoDup_cons in Hnd as [Hh _].
  inversion Hp as [E|A2 x B2 E E2]; subst u.
  - assert (A = []) as -> by (destruct A; [done|cbn [length] in *; lia]). by rewrite Z.eqb_refl.
  - assert (A = A2 ++ [x]) as ->.
    { rewrite HL in E. replace (A2 ++ x :: B) with ((A2 ++ [x]) ++ B) in E by (by rewrite <-(assoc_L (++))).
      apply app_inj_1 in E as [-> _]; [done|]. rewrite length_app. cbn [length]. lia. }
    rewrite last_snoc. simpl. rewrite (proj2 (Z.eqb_neq _ _)); [done|]. intros Ex. apply Hh. rewrite <-Ex.
    apply list_elem_of_fmap_2. rewrite HL. apply elem_of_app. left. apply elem_of_app. right. by left.
Qed.

(** Linking on all levels. *)
Lemma link_all z L A B x update :
  rep z L → L = A ++ B → 1 ≤ nh x ≤ zlevel z → zlen update = zlevel z → na x ∉ header z :: (na <$> L) →
  (∀ j u q, update !! j = Some (u, q) → left_at z L (zlen A) (Z.of_nat j) u q) →
  ∃ m m', for_levels (Z.to_nat (nh x)) 0 (link_body (na x) (zlen A) update) (levels z) = Some m ∧
    for_levels (Z.to_nat (zlevel z - nh x)) (nh x) (stretch_body update) m = Some m' ∧
    (∀ j, 0 ≤ j < zlevel z → linked z L A B x j (λ b, m' !! (b, j))) ∧
    (∀ b j, zlevel z ≤ j → m' !! (b, j) = levels z !! (b, j)).
Proof.
  intros Hr HL Hx Hlen Hfresh Hupd.
  destruct (for_levels_spec (link_body (na x) (zlen A) update) (linked z L A B x) (Z.to_nat (nh x)) 0 (levels z))
    as (m & Em & Hout & HQ); [intros; by eapply linked_ext|intros; apply link_level; (done || lia)|].
  destruct (for_levels_spec (stretch_body update) (linked z L A B x) (Z.to_nat (zlevel z - nh x)) (nh x) m)
    as (m' & Em' & Hout' & HQ'); [intros; by eapply linked_ext| |].
  { intros j m0 Hj Hm0. apply stretch_level; (done || lia || idtac). intros b. rewrite Hm0, Hout by lia. done. }
  exists m, m'. split; [done|]. split; [done|]. split.
  - intros j Hj. destruct (decide (j < nh x)) as [Hlt|Hge]; [|apply HQ'; lia].
    eapply linked_ext; [|apply HQ; lia]. intros b. symmetry. apply Hout'. lia.
  - intros b j Hj. rewrite Hout', Hout by lia. done.
Qed.

(** The levels after linking represent the new list. *)
Lemma linked_levels z L A B (x : nd) (m' : levelmap) :
  rep z L → L = A ++ B → 1 ≤ nh x ≤ zlevel z → na x ∉ header z :: (na <$> L) →
  (∀ j, 0 ≤ j < zlevel z → ∃ u q, left_at z L (zlen A) j u q) →
  (∀ j, 0 ≤ j < zlevel z → linked z L A B x j (λ b, m' !! (b, j))) →
  (∀ q b M h i, pos z L q b (M ++ B) h → q + zlen M = zlen A → 0 ≤ i < h → h ≤ zlevel z → m' !! (b, i) = Some (cell i (M ++ x :: B))) ∧
  (∀ i, 0 ≤ i < nh x → m' !! (na x, i) = Some (cell i B)) ∧
  (∀ C y D i, B = C ++ y :: D → 0 ≤ i < nh y → m' !! (na y, i) = Some (cell i D)).
Proof.
  intros Hr HL Hx Hfresh Hex Hlinked. split_and!.
  - intros q b M h i Hp Hq Hi Hh. destruct (Hex i ltac:(lia)) as (u & q' & Hl).
    destruct (left_at_split _ _ _ _ _ _ _ HL Hl) as (M' & h' & Hp' & Hh' & Hq' & HM').
    destruct (decide (Forall (λ y, nh y ≤ i) M)) as [HM|HM].
    { by destruct (Hlinked i ltac:(lia) b q M h) as (-> & _); [done|lia|done|done|]. }
    destruct (Hlinked i ltac:(lia) u q' M' h') as (_ & _ & Hb); [done|lia|done|done|].
    rewrite Hb.
    + rewrite (pos_cell _ _ _ _ _ _ _ Hr Hp) by lia. f_equal. by apply cell_hidden.
    + intros ->. pose proof (pos_inj _ _ _ _ _ _ _ _ _ Hr Hp Hp') as ->.
      destruct (pos_rest _ _ _ _ _ _ Hp) as (A1 & E1 & H1), (pos_rest _ _ _ _ _ _ Hp') as (A2 & E2 & H2).
      rewrite E1 in E2. apply app_inj_1 in E2 as [_ E2]; [|lia]. apply app_inv_tail in E2. by subst.
    + left. intros ->. apply Hfresh. destruct (pos_addr _ _ _ _ _ _ Hp). by eapply list_elem_of_lookup_2.
  - intros i Hi. destruct (Hex i ltac:(lia)) as (u & q' & Hl).
    destruct (left_at_split _ _ _ _ _ _ _ HL Hl) as (M' & h' & Hp' & Hh' & Hq' & HM').
    destruct (Hlinked i ltac:(lia) u q' M' h') as (_ & Hxi & _); [done|lia|done|done|]. apply Hxi. lia.
  - intros C y D i HB Hi.
    assert (L = (A ++ C) ++ y :: D) as HLy by (by rewrite HL, HB, <-(assoc_L (++))).
    assert (y ∈ L) as Hy by (rewrite HLy; apply elem_of_app; right; by left).
    pose proof (rep_heights _ _ Hr y Hy) as Hhy.
    destruct (Hex i ltac:(lia)) as (u & q' & Hl).
    destruct (left_at_split _ _ _ _ _ _ _ HL Hl) as (M' & h' & Hp' & Hh' & Hq' & HM').
    destruct (Hlinked i ltac:(lia) u q' M' h') as (_ & _ & Hb); [done|lia|done|done|].
    rewrite Hb; [by eapply rep_levels| |].
    + intros <-. pose proof (pos_inj _ _ _ _ _ _ _ _ _ Hr (pos_node z L _ _ _ HLy) Hp') as E.
      rewrite length_app in E. lia.
    + left. intros E. apply Hfresh. rewrite <-E. right. by apply list_elem_of_fmap_2.
Qed.

Lemma zslRandomLevel_range rs : 1 ≤ zslRandomLevel rs ≤ ZSKIPLIST_MAXLEVEL.
Proof.
  assert (∀ l, 1 ≤ random_run l) as H.
  { induction l as [|r l IH]; cbn [random_run]; [lia|]. destruct (_ <=? _); lia. }
  specialize (H rs). unfold zslRandomLevel. destruct (Z.ltb_spec (random_run rs) ZSKIPLIST_MAXLEVEL); [lia|].
  unfold ZSKIPLIST_MAXLEVEL. lia.
Qed.

(** The update vector, extended to the raised levels. *)
Lemma raised_update z L A B update lv m lv' :
  rep z L → L = A ++ B → zlen update = zlevel z → lv' = (if zlevel z <? lv then lv else zlevel z) →
  (∀ j u q, update !! j = Some (u, q) → left_at z L (zlen A) (Z.of_nat j) u q) →
  let z' := Zsl (header z) (tail z) (zlength z) lv' (nodes z) (backward z) m in
  let update' := update ++ replicate (Z.to_nat (lv - zlevel z)) (header z, 0) in
  zlen update' = lv' ∧ ∀ j u q, update' !! j = Some (u, q) → left_at z' L (zlen A) (Z.of_nat j) u q.
Proof.
  intros Hr HL Hlen Hlv Hupd z' update'. pose proof (rep_level _ _ Hr) as Hl.
  assert (lv' = Z.max lv (zlevel z)) as Elv by (rewrite Hlv; destruct (Z.ltb_spec (zlevel z) lv); lia).
  split; [unfold update'; rewrite length_app, length_replicate; lia|].
  intros j u q Hj. apply lookup_app_Some in Hj as [Hj|[Hge Hj]].
  - destruct (Hupd j u q Hj) as (rest & h & Hp & Hjh & Hq & Hg). destruct Hp as [|A1 x B1 E].
    + exists L, lv'. split; [apply (pos_header z')|]. split_and!; (done || lia).
    + exists B1, (nh x). split; [by apply (pos_node z')|]. split_and!; (done || lia).
  - apply lookup_replicate in Hj as [[= -> ->] Hj]. exists L, lv'. split_and!; try lia; [apply (pos_header z')|].
    intros A1 x B1 E _ _. assert (x ∈ L) as Hx by (rewrite E; apply elem_of_app; right; by left).
    pose proof (rep_heights _ _ Hr x Hx). lia.
Qed.

(** The fields of the list after an insertion of [x] between [A] and [B]. *)
Lemma insert_rep z L A B (x : nd) (m' : levelmap) :
  rep z L → L = A ++ B → 1 ≤ nh x ≤ zlevel z → na x ∉ header z :: (na <$> L) →
  (∀ q b M h i, pos z L q b (M ++ B) h → q + zlen M = zlen A → 0 ≤ i < h → h ≤ zlevel z →
     m' !! (b, i) = Some (cell i (M ++ x :: B))) →
  (∀ i, 0 ≤ i < nh x → m' !! (na x, i) = Some (cell i B)) →
  (∀ C y D i, B = C ++ y :: D → 0 ≤ i < nh y → m' !! (na y, i) = Some (cell i D)) →
  (∀ b j, zlevel z ≤ j → m' !! (b, j) = levels z !! (b, j)) →
  rep (Zsl (header z) (match head B with Some _ => tail z | None => Some (na x) end) (zlength z + 1) (zlevel z)
         (<[na x := (ns x, ne x)]> (nodes z))
         (match head B with
          | Some y => <[na y := Some (na x)]> (<[na x := na <$> last A]> (backward z))
          | None => <[na x := na <$> last A]> (backward z)
          end) m')
    (A ++ x :: B).
Proof.
  intros Hr HL Hx Hfresh Hpos Hnew Hold Hout.
  apply not_elem_of_cons in Hfresh as [Hxh Hxl].
  assert (∀ y, y ∈ L → na y ≠ na x) as Hne by (intros y Hy E; apply Hxl; rewrite <-E; by apply list_elem_of_fmap_2).
  assert (∀ y, y ∈ A ++ x :: B ↔ y = x ∨ y ∈ L) as Hin.
  { intros y. rewrite HL, !elem_of_app, elem_of_cons. tauto. }
  pose proof (rep_level _ _ Hr) as Hlv. pose proof (rep_addrs _ _ Hr) as Hnd.
  split; cbn [zlevel zlength tail header nodes backward levels].
  - done.
  - rewrite (rep_length _ _ Hr), HL, !length_app. cbn [length]. lia.
  - destruct B as [|y B]; cbn [head]; [by rewrite last_snoc|]. rewrite (rep_tail _ _ Hr), HL.
    rewrite !last_app_cons. by rewrite last_cons_cons.
  - intros y [-> |Hy]%Hin; [done|by apply (rep_heights _ _ Hr)].
  - rewrite HL in Hnd, Hxl. rewrite fmap_app in Hnd, Hxl |- *. rewrite fmap_cons.
    rewrite NoDup_cons in Hnd |- *. destruct Hnd as [Hh Hnd]. split.
    + rewrite elem_of_app, elem_of_cons in *. intros [?|[?|?]]; [by apply Hh; left|congruence|by apply Hh; right].
    + rewrite Permutation_app_comm. cbn [app]. rewrite NoDup_cons, Permutation_app_comm. split; [|done].
      rewrite elem_of_app in *. tauto.
  - intros y [-> |Hy]%Hin; [by rewrite lookup_insert_eq|]. rewrite lookup_insert_ne by (apply not_eq_sym, Hne, Hy).
    by apply (rep_nodes _ _ Hr).
  - intros A' y B' E. symmetry in E. apply split_cases in E as [(C & HA & HB')|[(-> & -> & ->)|(C & HA' & HB)]].
    + assert (L = A' ++ y :: C ++ B) as HLy by (by rewrite HL, HA, <-(assoc_L (++))).
      assert (y ∈ L) as Hy by (rewrite HLy; apply elem_of_app; right; by left).
      rewrite <-(rep_backward _ _ Hr A' y (C ++ B) HLy).
      destruct B as [|b B]; cbn [head]; rewrite ?lookup_insert_ne; try done; try (apply not_eq_sym, Hne, Hy).
      intros Eb. apply NoDup_cons in Hnd as [_ Hnd]. rewrite HLy in Hnd. rewrite fmap_app, fmap_cons, fmap_app, fmap_cons in Hnd.
      apply NoDup_app in Hnd as (_ & _ & Hnd). apply NoDup_cons in Hnd as [Hnd _]. apply Hnd. rewrite Eb.
      apply elem_of_app. right. by left.
    + destruct B as [|b B]; cbn [head]; [by rewrite lookup_insert_eq|].
      rewrite lookup_insert_ne, lookup_insert_eq; [done|]. apply Hne. rewrite HL. apply elem_of_app. right. by left.
    + assert (L = (A ++ C) ++ y :: B') as HLy by (by rewrite HL, HB, <-(assoc_L (++))).
      assert (y ∈ L) as Hy by (rewrite HLy; apply elem_of_app; right; by left).
      rewrite HA', HB. destruct C as [|c C]; cbn [app head].
      * rewrite lookup_insert_eq. by rewrite last_snoc.
      * rewrite !lookup_insert_ne; [|apply not_eq_sym, Hne, Hy|].
        -- rewrite (rep_backward _ _ Hr _ _ _ HLy). by rewrite !last_app_cons, last_cons_cons.
        -- intros Eb. apply NoDup_cons in Hnd as [_ Hnd]. rewrite HL, HB in Hnd. cbn [app] in Hnd.
           rewrite fmap_app, fmap_cons, fmap_app, fmap_cons in Hnd.
           apply NoDup_app in Hnd as (_ & _ & Hnd). apply NoDup_cons in Hnd as [Hnd _]. apply Hnd. rewrite Eb.
           apply elem_of_app. right. by left.
  - intros i Hi. apply (Hpos 0 (header z) A (zlevel z) i); [|done|done|done]. rewrite <-HL. apply pos_header.
  - intros i Hi. rewrite Hout by lia. by apply (rep_unused _ _ Hr).
  - intros A' y B' i E Hi. symmetry in E. apply split_cases in E as [(C & HA & HB')|[(-> & -> & ->)|(C & HA' & HB)]].
    + assert (L = A' ++ y :: C ++ B) as HLy by (by rewrite HL, HA, <-(assoc_L (++))).
      assert (y ∈ L) as Hy by (rewrite HLy; apply elem_of_app; right; by left). rewrite HB'.
      apply (Hpos (zlen A' + 1) (na y) C (nh y)); [by apply pos_node|rewrite HA, length_app; cbn [length]; lia|done|].
      by apply (rep_heights _ _ Hr).
    + by apply Hnew.
    + by eapply Hold.
Qed.

Lemma zslInsert_rep z L A B rs a score ele :
  rep z L → L = A ++ B → go_prefix (go_before score ele) L (zlen A) → a ∉ header z :: (na <$> L) →
  ∃ z', zslInsert z rs a score ele = Some z' ∧ rep z' (A ++ Nd a score ele (zslRandomLevel rs) :: B) ∧
    header z' = header z ∧ nodes z' = <[a := (score, ele)]> (nodes z).
Proof.
  intros Hr HL Hgo Hfresh. unfold zslInsert.
  destruct (search_header z L _ _ Hr Hgo) as (u0 & update & rest & h & -> & Hlen & Hupd & Hu0 & Hp0).
  cbn [mbind option_bind]. cbv zeta. set (lv := zslRandomLevel rs). pose proof (zslRandomLevel_range rs) as Hlv. fold lv in Hlv.
  set (lv' := if zlevel z <? lv then lv else zlevel z).
  destruct (raise_spec z L lv Hr Hlv) as (m1 & -> & Hr1). cbn [mbind option_bind]. fold lv' in Hr1.
  set (z1 := Zsl _ _ _ lv' _ _ m1) in *.
  destruct (raised_update z L A B update lv m1 lv' Hr HL Hlen eq_refl Hupd) as [Hlen1 Hupd1]. fold z1 in Hupd1.
  set (update1 := update ++ replicate _ _) in *.
  assert (update1 !! 0%nat = Some (u0, zlen A)) as E0.
  { unfold update1. rewrite lookup_app_l; [done|]. apply lookup_lt_Some in Hu0. lia. }
  rewrite E0. cbn [mbind option_bind]. set (x := Nd a score ele lv).
  assert (lv ≤ lv') as Hle by (unfold lv'; destruct (Z.ltb_spec (zlevel z) lv); lia).
  destruct (link_all z1 L A B x update1) as (m & m' & Em & Em' & Hlinked & Hout); [done|done|simpl; lia|done|done|done|].
  cbn [na nh x] in Em, Em'. change (levels z1) with m1 in Em. change (zlevel z1) with lv' in Em'.
  rewrite Em. cbn [mbind option_bind]. rewrite Em'. cbn [mbind option_bind].
  assert (∀ j, 0 ≤ j < zlevel z1 → ∃ u q, left_at z1 L (zlen A) j u q) as Hex.
  { intros j Hj. destruct (lookup_lt_is_Some_2 update1 (Z.to_nat j)) as [[u q] E]; [change (zlevel z1) with lv' in Hj; lia|].
    exists u, q. rewrite <-(Z2Nat.id j) by lia. by apply Hupd1. }
  destruct (linked_levels z1 L A B x m' Hr1 HL ltac:(simpl; lia) Hfresh Hex Hlinked) as (Hpos & Hnew & Hold).
  pose proof (Hnew 0 ltac:(simpl; lia)) as Hn0. change (na x) with a in Hn0. rewrite Hn0. cbn [mbind option_bind].
  pose proof (pos_before z L A B u0 rest h Hr HL Hp0) as [_ Hbw0]. rewrite Hbw0.
  assert (cell 0 B = (na <$> head B, (cell 0 B).2)) as E0'.
  { destruct B as [|y B']; [done|]. rewrite cell_cons. rewrite (proj2 (Z.ltb_lt _ _)); [done|].
    assert (y ∈ L) as Hy by (rewrite HL; apply elem_of_app; right; by left). pose proof (rep_heights _ _ Hr y Hy). lia. }
  rewrite E0'.
  exists (Zsl (header z) (match head B with Some _ => tail z | None => Some a end) (zlength z + 1) lv'
    (<[a := (score, ele)]> (nodes z))
    (match head B with Some y => <[na y := Some a]> (<[a := na <$> last A]> (backward z)) | None => <[a := na <$> last A]> (backward z) end) m').
  split; [by destruct (head B)|]. split; [|done].
  exact (insert_rep z1 L A B x m' Hr1 HL ltac:(simpl; lia) Hfresh Hpos Hnew Hold Hout).
Qed.

(** ** Deletion *)

(** The vector of a search gives the node of every level before position [k]. *)
Definition update_ok z L (k : Z) (update : list (addr * Z)) : Prop :=
  ∀ j, 0 ≤ j < zlevel z → ∃ u q, update !! Z.to_nat j = Some (u, q) ∧ left_at z L k j u q.

Lemma update_ok_intro z L k update :
  zlen update = zlevel z → (∀ j u q, update !! j = Some (u, q) → left_at z L k (Z.of_nat j) u q) → update_ok z L k update.
Proof.
  intros Hlen H j Hj. destruct (lookup_lt_is_Some_2 update (Z.to_nat j)) as [[u q] E]; [lia|].
  exists u, q. split; [done|]. rewrite <-(Z2Nat.id j) by lia. by apply H.
Qed.

(** What unlinking the node [x] between [A] and [B] leaves on level [j]. *)
Definition unlinked z L A B (x : nd) (j : Z) (p : addr → option (option addr * Z)) : Prop :=
  ∀ u q M h, pos z L q u (M ++ x :: B) h → j < h → q + zlen M = zlen A → Forall (λ y, nh y ≤ j) M →
    p u = Some (cell j (M ++ B)) ∧ ∀ b, b ≠ u → p b = levels z !! (b, j).

Lemma cell_pointer i l a : (cell i l).1 = Some a → ∃ y, y ∈ l ∧ na y = a.
Proof.
  unfold cell. destruct (fnext i l) as [[o x]|] eqn:E; [|done]. intros [= <-].
  apply fnext_Some in E as (l1 & l2 & -> & _). exists x. split; [|done]. apply elem_of_app. right. by left.
Qed.

Lemma NoDup_middle (A B : list nd) x y :
  NoDup (na <$> A ++ x :: B) → y ∈ A ∨ y ∈ B → na y ≠ na x.
Proof.
  rewrite fmap_app, fmap_cons, Permutation_app_comm. cbn [app]. rewrite NoDup_cons, elem_of_app.
  intros [Hx _] Hy E. apply Hx. rewrite <-E. destruct Hy; [right|left]; by apply list_elem_of_fmap_2.
Qed.

Lemma unlink_level z L A B x update j m0 :
  rep z L → L = A ++ x :: B → 0 ≤ j < zlevel z → update_ok z L (zlen A) update →
  (∀ b, m0 !! (b, j) = levels z !! (b, j)) →
  ∃ m1, unlink_body (na x) update j m0 = Some m1 ∧
    (∀ b k, k ≠ j → m1 !! (b, k) = m0 !! (b, k)) ∧ unlinked z L A B x j (λ b, m1 !! (b, j)).
Proof.
  intros Hr HL Hj Hupd Hm0. unfold unlink_body. destruct (Hupd j Hj) as (u & q & Hu & Hl). rewrite Hu.
  cbn [mbind option_bind].
  destruct (left_at_split z L A (x :: B) j u q HL Hl) as (M & h & Hp & Hh & Hq & HM).
  rewrite (Hm0 u), (pos_cell z L q u (M ++ x :: B) h j Hr Hp) by lia. cbn [mbind option_bind].
  rewrite cell_past, cell_cons by done.
  pose proof (rep_addrs _ _ Hr) as Hnd. apply NoDup_cons in Hnd as [Hhd Hnd].
  assert (∃ v, (if bool_decide ((if j <? nh x then (Some (na x), 1) else ((cell j B).1, (cell j B).2 + 1)).1 = Some (na x))
      then '(fx, spanx) ← m0 !! (na x, j);
           Some (<[(u, j) := (fx, (if j <? nh x then (Some (na x), 1) else ((cell j B).1, (cell j B).2 + 1)).2 + zlen M + spanx - 1)]> m0)
      else Some (<[(u, j) := ((if j <? nh x then (Some (na x), 1) else ((cell j B).1, (cell j B).2 + 1)).1,
                              (if j <? nh x then (Some (na x), 1) else ((cell j B).1, (cell j B).2 + 1)).2 + zlen M - 1)]> m0))
      = Some (<[(u, j) := v]> m0) ∧ v = cell j (M ++ B)) as (v & Ev & Hv).
  { rewrite cell_past by done. destruct (Z.ltb_spec j (nh x)) as [Hlt|Hge]; cbn [fst snd].
    - rewrite bool_decide_eq_true_2 by done. rewrite Hm0.
      rewrite (rep_levels _ _ Hr A x B j HL) by lia. destruct (cell j B) as [f sp]. cbn [mbind option_bind fst snd].
      eexists. split; [done|]. f_equal. lia.
    - rewrite bool_decide_eq_false_2.
      + eexists. split; [done|]. f_equal. lia.
      + intros (y & Hy & Ey)%cell_pointer. rewrite HL in Hnd. by apply (NoDup_middle A B x y Hnd); [right|]. }
  exists (<[(u, j) := v]> m0). split; [exact Ev|]. split.
  - intros b k Hk. by rewrite lookup_insert_ne by congruence.
  - intros u' q' M' h' Hp' Hh' Hq' HM'.
    destruct (left_at_unique z L (zlen A) j u q u' q') as [<- <-]; [done|lia|done|by eapply split_left_at|].
    assert (M' = M) as ->.
    { destruct (pos_rest _ _ _ _ _ _ Hp) as (A1 & E1 & H1), (pos_rest _ _ _ _ _ _ Hp') as (A2 & E2 & H2).
      rewrite E1 in E2. apply app_inj_1 in E2 as [_ E2]; [|lia]. by apply app_inv_tail in E2. }
    split; [by rewrite lookup_insert_eq, Hv|]. intros b Hb. rewrite lookup_insert_ne by congruence. apply Hm0.
Qed.

Lemma lower_level_spec (h : addr) (m : levelmap) L : ∀ fuel level,
  (Z.to_nat level ≤ fuel)%nat → 1 ≤ level → (∀ i, 0 ≤ i < level → m !! (h, i) = Some (cell i L)) →
  ∃ lv, lower_level fuel h m level = Some lv ∧ 1 ≤ lv ≤ level ∧
    ∀ i, lv ≤ i < level → Forall (λ y, nh y ≤ i) L.
Proof.
  induction fuel as [|fuel IH]; intros level Hf Hl Hm; [lia|]. cbn [lower_level].
  destruct (Z.ltb_spec 1 level) as [Hlt|Hge]; [|exists level; split_and!; (done || lia)].
  rewrite Hm by lia. cbn [mbind option_bind]. unfold cell. destruct (fnext (level - 1) L) as [[o x]|] eqn:E.
  { exists level. split_and!; (done || lia). }
  destruct (IH (level - 1)) as (lv & -> & Hlv & Hall); [lia|lia|intros; apply Hm; lia|].
  exists lv. split; [done|]. split; [lia|]. intros i Hi.
  destruct (decide (i < level - 1)); [apply Hall; lia|]. replace i with (level - 1) by lia. by apply fnext_None.
Qed.

(** Positions at or before [A] in the lists with and without the nodes after it. *)
Lemma pos_shorten z z' L L' A B B' q u M h :
  L = A ++ B → L' = A ++ B' → header z' = header z → pos z L q u (M ++ B) h → q + zlen M = zlen A →
  ∃ h', pos z' L' q u (M ++ B') h' ∧ (u ≠ header z' → h' = h) ∧ (q = 0 → h' = zlevel z').
Proof.
  intros HL HL' Hh Hp Hq. inversion Hp as [E1 E2 E3 E4|A1 x B1 E E1]; subst q u.
  - assert (M = A) as -> by (rewrite HL in E3; by apply app_inv_tail in E3). rewrite <-HL', <-Hh.
    exists (zlevel z'). split; [apply pos_header|]. done.
  - assert (A = A1 ++ x :: M) as HA.
    { rewrite HL in E. replace (A1 ++ x :: M ++ B) with ((A1 ++ x :: M) ++ B) in E by (by rewrite <-(assoc_L (++))).
      by apply app_inv_tail in E. }
    exists (nh x). split; [apply pos_node; by rewrite HL', HA, <-(assoc_L (++))|]. split; [by subst|lia].
Qed.

Lemma unlinked_levels z L A B (x : nd) (m' : levelmap) :
  rep z L → L = A ++ x :: B →
  (∀ j, 0 ≤ j < zlevel z → ∃ u q, left_at z L (zlen A) j u q) →
  (∀ j, 0 ≤ j < zlevel z → unlinked z L A B x j (λ b, m' !! (b, j))) →
  (∀ q b M h i, pos z L q b (M ++ x :: B) h → q + zlen M = zlen A → 0 ≤ i < h → h ≤ zlevel z →
     m' !! (b, i) = Some (cell i (M ++ B))) ∧
  (∀ C y D i, x :: B = C ++ y :: D → 0 ≤ i < nh y → m' !! (na y, i) = Some (cell i D)).
Proof.
  intros Hr HL Hex Hun. split.
  - intros q b M h i Hp Hq Hi Hh. destruct (Hex i ltac:(lia)) as (u & q' & Hl).
    destruct (left_at_split _ _ _ _ _ _ _ HL Hl) as (M' & h' & Hp' & Hh' & Hq' & HM').
    destruct (decide (Forall (λ y, nh y ≤ i) M)) as [HM|HM].
    { by destruct (Hun i ltac:(lia) b q M h) as (-> & _); [done|lia|done|done|]. }
    destruct (Hun i ltac:(lia) u q' M' h') as (_ & Hb); [done|lia|done|done|].
    rewrite Hb.
    + rewrite (pos_cell _ _ _ _ _ _ _ Hr Hp) by lia. f_equal. by apply cell_hidden.
    + intros ->. pose proof (pos_inj _ _ _ _ _ _ _ _ _ Hr Hp Hp') as ->.
      destruct (pos_rest _ _ _ _ _ _ Hp) as (A1 & E1 & H1), (pos_rest _ _ _ _ _ _ Hp') as (A2 & E2 & H2).
      rewrite E1 in E2. apply app_inj_1 in E2 as [_ E2]; [|lia]. apply app_inv_tail in E2. by subst.
  - intros C y D i HB Hi.
    assert (L = (A ++ C) ++ y :: D) as HLy by (by rewrite HL, HB, <-(assoc_L (++))).
    assert (y ∈ L) as Hy by (rewrite HLy; apply elem_of_app; right; by left).
    pose proof (rep_heights _ _ Hr y Hy) as Hhy.
    destruct (Hex i ltac:(lia)) as (u & q' & Hl).
    destruct (left_at_split _ _ _ _ _ _ _ HL Hl) as (M' & h' & Hp' & Hh' & Hq' & HM').
    destruct (Hun i ltac:(lia) u q' M' h') as (_ & Hb); [done|lia|done|done|].
    rewrite Hb; [by eapply rep_levels|].
    intros <-. pose proof (pos_inj _ _ _ _ _ _ _ _ _ Hr (pos_node z L _ _ _ HLy) Hp') as E.
    rewrite length_app in E. lia.
Qed.

(** The fields of the list after the deletion of [x]. *)
Lemma delete_rep z L A B (x : nd) (m' : levelmap) lv :
  rep z L → L = A ++ x :: B → 1 ≤ lv ≤ zlevel z →
  (∀ i, lv ≤ i < zlevel z → Forall (λ y, nh y ≤ i) (A ++ B)) →
  (∀ q b M h i, pos z L q b (M ++ x :: B) h → q + zlen M = zlen A → 0 ≤ i < h → h ≤ zlevel z →
     m' !! (b, i) = Some (cell i (M ++ B))) →
  (∀ C y D i, x :: B = C ++ y :: D → 0 ≤ i < nh y → m' !! (na y, i) = Some (cell i D)) →
  (∀ b j, zlevel z ≤ j → m' !! (b, j) = levels z !! (b, j)) →
  rep (Zsl (header z) (match head B with Some _ => tail z | None => na <$> last A end) (zlength z - 1) lv (nodes z)
         (match head B with Some y => <[na y := na <$> last A]> (backward z) | None => backward z end) m')
    (A ++ B).
Proof.
  intros Hr HL Hlv Hhigh Hpos Hold Hout.
  assert (∀ y, y ∈ A ++ B → y ∈ L) as Hin by (intros y; rewrite HL, !elem_of_app, elem_of_cons; tauto).
  pose proof (rep_level _ _ Hr) as Hzl. pose proof (rep_addrs _ _ Hr) as Hnd.
  assert (∀ i, 0 ≤ i < zlevel z → m' !! (header z, i) = Some (cell i (A ++ B))) as Hhdr.
  { intros i Hi. apply (Hpos 0 (header z) A (zlevel z) i); [|done|done|done]. rewrite <-HL. apply pos_header. }
  split; cbn [zlevel zlength tail header nodes backward levels].
  - lia.
  - rewrite (rep_length _ _ Hr), HL, !length_app. cbn [length]. lia.
  - destruct B as [|y B]; cbn [head]; [by rewrite app_nil_r|]. rewrite (rep_tail _ _ Hr), HL.
    rewrite !last_app_cons. by rewrite last_cons_cons.
  - intros y Hy. pose proof (rep_heights _ _ Hr y (Hin y Hy)). split; [lia|].
    destruct (decide (lv < zlevel z)) as [Hlt|]; [|lia].
    specialize (Hhigh lv ltac:(lia)). rewrite Forall_forall in Hhigh. by apply Hhigh.
  - rewrite HL in Hnd. rewrite fmap_app, fmap_cons in Hnd. rewrite fmap_app. rewrite NoDup_cons in Hnd |- *.
    destruct Hnd as [Hh Hnd]. split; [rewrite elem_of_app, elem_of_cons in Hh; rewrite elem_of_app; tauto|].
    rewrite Permutation_app_comm in Hnd. cbn [app] in Hnd. apply NoDup_cons in Hnd as [_ Hnd].
    by rewrite Permutation_app_comm.
  - intros y Hy. apply (rep_nodes _ _ Hr), Hin, Hy.
  - intros A' y B' E. symmetry in E. apply NoDup_cons in Hnd as [_ Hnd].
    apply app_eq_inv in E as [(C & HA & HB)|(C & HA & HB)].
    + destruct C as [|c C]; cbn [app] in HB.
      * subst B. rewrite app_nil_r in HA. subst A'. cbn [head]. by rewrite lookup_insert_eq.
      * assert (L = (A ++ x :: c :: C) ++ y :: B') as HLy.
        { rewrite HL. subst B. cbn [app]. by rewrite <-(assoc_L (++)). }
        subst B. cbn [app head]. rewrite lookup_insert_ne.
        -- rewrite (rep_backward _ _ Hr _ _ _ HLy), HA. by rewrite !last_app_cons, !last_cons_cons.
        -- rewrite HLy in Hnd. intros Eb.
           assert (c ∈ A ++ x :: c :: C ∨ c ∈ B') as Hc by (left; apply elem_of_app; right; right; by left).
           by apply (NoDup_middle _ _ y c Hnd Hc).
    + destruct C as [|c C]; cbn [app] in HB.
      * rewrite app_nil_r in HA. subst A'. subst B. cbn [head]. by rewrite lookup_insert_eq.
      * injection HB as -> ->. assert (L = A' ++ c :: C ++ x :: B) as HLy by (by rewrite HL, HA, <-(assoc_L (++))).
        rewrite <-(rep_backward _ _ Hr _ _ _ HLy).
        destruct B as [|b B]; cbn [head]; [done|]. rewrite lookup_insert_ne; [done|].
        intros Eb. rewrite HLy in Hnd.
        assert (b ∈ A' ∨ b ∈ C ++ x :: b :: B) as Hc by (right; apply elem_of_app; right; right; by left).
        by apply (NoDup_middle _ _ c b Hnd Hc).
  - intros i Hi. apply Hhdr. lia.
  - intros i Hi. destruct (decide (i < zlevel z)) as [Hlt|Hge].
    + rewrite Hhdr by lia. unfold cell. rewrite (proj2 (fnext_None i (A ++ B))); [eauto|]. apply Hhigh. lia.
    + rewrite Hout by lia. apply (rep_unused _ _ Hr). lia.
  - intros A' y B' i E Hi. symmetry in E. apply app_eq_inv in E as [(C & HA & HB)|(C & HA & HB)].
    + apply (Hold (x :: C) y B'); [by rewrite HB|done].
    + destruct C as [|c C]; cbn [app] in HB.
      * apply (Hold [x] y B'); [by rewrite HB|done].
      * injection HB as -> ->. assert (L = A' ++ c :: C ++ x :: B) as HLy by (by rewrite HL, HA, <-(assoc_L (++))).
        apply (Hpos (zlen A' + 1) (na c) C (nh c)); [by apply pos_node|rewrite HA, length_app; cbn [length]; lia|done|].
        apply (rep_heights _ _ Hr). rewrite HLy. apply elem_of_app. right. by left.
Qed.

Lemma zslDeleteNode_rep z L A B x update :
  rep z L → L = A ++ x :: B → update_ok z L (zlen A) update →
  ∃ z', zslDeleteNode z (na x) update = Some z' ∧ rep z' (A ++ B) ∧ header z' = header z ∧ nodes z' = nodes z ∧
    update_ok z' (A ++ B) (zlen A) update.
Proof.
  intros Hr HL Hupd. unfold zslDeleteNode. pose proof (rep_level _ _ Hr) as Hzl.
  destruct (for_levels_spec (unlink_body (na x) update) (unlinked z L A B x) (Z.to_nat (zlevel z)) 0 (levels z))
    as (m & -> & Hout & HQ).
  { intros j p p' E H u q M h H1 H2 H3 H4. destruct (H u q M h H1 H2 H3 H4) as (Hu & Hb). rewrite <-E.
    split; [done|]. intros b. rewrite <-E. apply Hb. }
  { intros j m0 Hj Hm0. apply unlink_level; (done || lia). }
  cbn [mbind option_bind].
  destruct (unlinked_levels z L A B x m Hr HL) as [Hpos Hold].
  { intros j Hj. destruct (Hupd j Hj) as (u & q & _ & Hl). eauto. }
  { intros j Hj. apply HQ. lia. }
  assert (x ∈ L) as Hx by (rewrite HL; apply elem_of_app; right; by left).
  pose proof (rep_heights _ _ Hr x Hx) as Hhx.
  rewrite (Hold [] x B 0) by (done || lia). cbn [mbind option_bind].
  rewrite (rep_backward _ _ Hr A x B HL).
  assert (cell 0 B = (na <$> head B, (cell 0 B).2)) as ->.
  { destruct B as [|y B']; [done|]. rewrite cell_cons. rewrite (proj2 (Z.ltb_lt _ _)); [done|].
    assert (y ∈ L) as Hy by (rewrite HL; apply elem_of_app; right; right; by left). pose proof (rep_heights _ _ Hr y Hy). lia. }
  cbn [mbind option_bind].
  assert (∀ i, 0 ≤ i < zlevel z → m !! (header z, i) = Some (cell i (A ++ B))) as Hhdr.
  { intros i Hi. apply (Hpos 0 (header z) A (zlevel z) i); [|done|done|done]. rewrite <-HL. apply pos_header. }
  destruct (lower_level_spec (header z) m (A ++ B) (Z.to_nat (zlevel z)) (zlevel z)) as (lv & E & Hlv & Hhigh);
    [lia|lia|done|].
  set (z' := Zsl (header z) (match head B with Some _ => tail z | None => na <$> last A end) (zlength z - 1) lv (nodes z)
         (match head B with Some y => <[na y := na <$> last A]> (backward z) | None => backward z end) m).
  assert (rep z' (A ++ B)) as Hr'.
  { apply (delete_rep z L A B x m lv); try done. intros b j Hj. apply Hout. lia. }
  exists z'. split; [by destruct (head B); cbn [fmap option_fmap option_map]; rewrite E|].
  split; [done|]. split; [done|]. split; [done|].
  intros j Hj. destruct (Hupd j ltac:(simpl in Hj; lia)) as (u & q & Hu & Hl). exists u, q. split; [done|].
  destruct (left_at_split _ _ _ _ _ _ _ HL Hl) as (M & h & Hp & Hh & Hq & HM).
  destruct (pos_shorten z z' L (A ++ B) A (x :: B) B q u M h HL eq_refl eq_refl Hp Hq) as (h' & Hp' & H1 & H2).
  eapply split_left_at; [done|exact Hp'| |done|done].
  destruct (decide (u = header z')) as [Eu|Hne]; [|rewrite H1 by done; done].
  rewrite H2; [simpl in Hj; simpl; lia|]. destruct (pos_addr _ _ _ _ _ _ Hp) as [Ha ?].
  pose proof (NoDup_lookup _ 0%nat (Z.to_nat q) u (rep_addrs _ _ Hr)) as Hinj. rewrite Eu in Hinj, Ha. simpl in Hinj.
  specialize (Hinj eq_refl Ha). lia.
Qed.

Lemma zslFreeNode_rep z L a : rep z L → a ∉ header z :: (na <$> L) → rep (zslFreeNode z a) L.
Proof.
  intros [H1 H2 H3 H4 H5 H6 H7 H8 H9 H10] Ha. apply not_elem_of_cons in Ha as [Hh Ha].
  assert (∀ x, x ∈ L → na x ≠ a) as Hne by (intros x Hx E; apply Ha; rewrite <-E; by apply list_elem_of_fmap_2).
  assert (∀ b i, b ≠ a → levels (zslFreeNode z a) !! (b, i) = levels z !! (b, i)) as Hlev.
  { intros b i Hb. cbn. rewrite map_lookup_filter. destruct (levels z !! (b, i)) as [v|]; [|done]. simpl.
    by rewrite option_guard_True. }
  split; try done.
  - intros x Hx. cbn. rewrite lookup_delete_ne by (apply not_eq_sym, Hne, Hx). by apply H6.
  - intros A x B E. assert (x ∈ L) as Hx by (rewrite E; apply elem_of_app; right; by left).
    cbn. rewrite lookup_delete_ne by (apply not_eq_sym, Hne, Hx). by apply (H7 A x B).
  - intros i Hi. rewrite Hlev by done. by apply H8.
  - intros i Hi. rewrite Hlev by done. by apply H9.
  - intros A x B i E Hi. assert (x ∈ L) as Hx by (rewrite E; apply elem_of_app; right; by left).
    rewrite Hlev by (by apply Hne). by eapply H10.
Qed.

(** ** The order of the list *)

Lemma slt_asym s t : slt s t = true → slt t s = false.
Proof.
  intros H. destruct (slt t s) eqn:E; [|done]. pose proof (slt_trans s t s H E) as Hs. by rewrite slt_irrefl in Hs.
Qed.

Lemma sle_slt s t : sle s t = negb (slt t s).
Proof.
  unfold sle. rewrite seqb_spec. destruct (slt s t) eqn:E; [by rewrite (slt_asym s t E)|]. by destruct (slt t s).
Qed.

Lemma sge_slt s t : sge s t = negb (slt s t).
Proof.
  unfold sge. rewrite seqb_spec. destruct (slt t s) eqn:E; [by rewrite (slt_asym t s E)|]. by destruct (slt s t).
Qed.

Lemma nlt_trans s t u : slt t s = false → slt u t = false → slt u s = false.
Proof. intros H1 H2. destruct (slt u s) eqn:E; [|done]. destruct (slt_weak u s t E); congruence. Qed.

Lemma lt_nlt_trans s t u : slt s t = true → slt u t = false → slt s u = true.
Proof. intros H1 H2. destruct (slt_weak s t u H1); congruence. Qed.

Lemma nlt_lt_trans s t u : slt t s = false → slt t u = true → slt s u = true.
Proof. intros H1 H2. destruct (slt_weak t u s H2); congruence. Qed.

Definition nd_lt (x y : nd) : Prop := node_lt (ns x) (ne x) (ns y) (ne y) = true.

Lemma node_lt_spec s e s' e' :
  node_lt s e s' e' = true ↔ slt s s' = true ∨ (slt s' s = false ∧ lex_lt e e').
Proof.
  unfold node_lt. rewrite orb_true_iff, andb_true_iff, seqb_spec, andb_true_iff, !negb_true_iff, Z.ltb_lt.
  rewrite (proj1 (sdscmp_spec e e')). destruct (slt s s') eqn:E; [|naive_solver].
  pose proof (slt_asym _ _ E). naive_solver.
Qed.

Lemma node_lt_trans s1 e1 s2 e2 s3 e3 :
  node_lt s1 e1 s2 e2 = true → node_lt s2 e2 s3 e3 = true → node_lt s1 e1 s3 e3 = true.
Proof.
  rewrite !node_lt_spec. intros [H1|[H1 E1]] [H2|[H2 E2]].
  - left. by eapply slt_trans.
  - left. by eapply lt_nlt_trans.
  - left. by eapply nlt_lt_trans.
  - right. split; [by eapply nlt_trans|by eapply lex_lt_trans].
Qed.

Lemma node_lt_irrefl s e : node_lt s e s e = false.
Proof.
  apply not_true_iff_false. rewrite node_lt_spec, slt_irrefl. intros [?|[_ H]]; [done|by apply lex_lt_irrefl in H].
Qed.

Lemma node_lt_total s1 e1 s2 e2 :
  node_lt s1 e1 s2 e2 = false → node_lt s2 e2 s1 e1 = false → seqb s1 s2 = true ∧ e1 = e2.
Proof.
  rewrite <-!not_true_iff_false, !node_lt_spec, seqb_spec. intros H1 H2.
  destruct (slt s1 s2) eqn:E1; [tauto|]. destruct (slt s2 s1) eqn:E2; [tauto|]. split; [done|].
  destruct (lex_lt_total e1 e2) as [?|[?|?]]; [tauto|done|tauto].
Qed.

(** Two nodes with equal scores and elements are not ordered. *)
Lemma node_lt_equal s1 e s2 : seqb s1 s2 = true → node_lt s1 e s2 e = false.
Proof.
  intros H. rewrite seqb_spec, andb_true_iff, !negb_true_iff in H. destruct H as [H1 H2].
  apply not_true_iff_false. rewrite node_lt_spec, H1. intros [?|[_ H]]; [done|by apply lex_lt_irrefl in H].
Qed.

Definition zsorted L : Prop := StronglySorted nd_lt L.

Lemma zsorted_app L A B : L = A ++ B → zsorted L → zsorted A ∧ zsorted B ∧ ∀ x y, x ∈ A → y ∈ B → nd_lt x y.
Proof.
  intros ->. unfold zsorted. induction A as [|a A IH]; intros H; cbn [app] in *.
  - split; [constructor|]. split; [done|]. by intros x y ?%not_elem_of_nil.
  - apply StronglySorted_inv in H as [H Ha]. destruct (IH H) as (HA & HB & Hlt).
    rewrite Forall_app in Ha. destruct Ha as [Ha1 Ha2]. split; [by constructor|]. split; [done|].
    intros x y [-> |Hx]%elem_of_cons Hy; [by eapply Forall_forall in Ha2|by apply Hlt].
Qed.

Lemma zsorted_join A B : zsorted A → zsorted B → (∀ x y, x ∈ A → y ∈ B → nd_lt x y) → zsorted (A ++ B).
Proof.
  unfold zsorted. induction 1 as [|a A HA IH Ha]; intros HB Hlt; cbn [app]; [done|]. constructor.
  - apply IH; [done|]. intros x y Hx Hy. apply Hlt; [by right|done].
  - apply Forall_app. split; [done|]. apply Forall_forall. intros y Hy. apply Hlt; [by left|done].
Qed.

(** A predicate that holds of a node when it holds of a later one splits the list. *)
Definition down_closed (p : Sc → bytes → bool) L : Prop :=
  ∀ x y, x ∈ L → y ∈ L → nd_lt x y → p (ns y) (ne y) = true → p (ns x) (ne x) = true.

Lemma partition_sorted (p : Sc → bytes → bool) L :
  zsorted L → down_closed p L →
  ∃ A B, L = A ++ B ∧ Forall (λ x, p (ns x) (ne x) = true) A ∧ Forall (λ x, p (ns x) (ne x) = false) B.
Proof.
  unfold zsorted. induction 1 as [|a L HL IH Ha]; intros Hd; [exists [], []; by split_and!|].
  destruct (p (ns a) (ne a)) eqn:E.
  - destruct IH as (A & B & -> & HA & HB).
    { intros x y Hx Hy. apply Hd; by right. }
    exists (a :: A), B. split_and!; try done. by apply Forall_cons.
  - exists [], (a :: L). split_and!; try done. apply Forall_cons. split; [done|].
    rewrite Forall_forall in Ha |- *. intros y Hy. apply not_true_iff_false. intros Hp.
    rewrite (Hd a y) in E; [done|by left|by right|by apply Ha|done].
Qed.

Lemma partition_go (p : Sc → bytes → bool) (go : Z → Sc → bytes → bool) L A B :
  (∀ q s e, go q s e = p s e) → L = A ++ B → Forall (λ x, p (ns x) (ne x) = true) A →
  Forall (λ x, p (ns x) (ne x) = false) B → go_prefix go L (zlen A).
Proof.
  intros Hgo HL HA HB. split; [rewrite HL, length_app; lia|]. intros C x D E. rewrite Hgo.
  rewrite HL in E. apply app_eq_inv in E as [(K & -> & E)|(K & -> & E)].
  - destruct K as [|c K]; cbn [app] in E.
    + rewrite app_nil_r. rewrite Z.ltb_irrefl. rewrite Forall_forall in HB. apply HB. rewrite <-E. by left.
    + injection E as -> ->. rewrite (proj2 (Z.ltb_lt _ _)) by (rewrite length_app; cbn [length]; lia).
      rewrite Forall_forall in HA. apply HA. apply elem_of_app. right. by left.
  - rewrite (proj2 (Z.ltb_ge _ _)) by (rewrite length_app; lia).
    rewrite Forall_forall in HB. apply HB. rewrite E. apply elem_of_app. right. by left.
Qed.

Lemma go_before_closed score ele L : down_closed (λ s e, node_lt s e score ele) L.
Proof. intros x y _ _ Hxy Hy. by eapply node_lt_trans. Qed.

Lemma next0_spec z L A B u rest h :
  rep z L → L = A ++ B → pos z L (zlen A) u rest h → next0 z u = Some (na <$> head B).
Proof.
  intros Hr HL Hp. destruct (pos_before z L A B u rest h Hr HL Hp) as [-> _].
  assert (0 < h) as Hh.
  { destruct Hp as [|A1 x B1 E]; [pose proof (rep_level _ _ Hr); lia|].
    assert (x ∈ L) as Hx by (rewrite E; apply elem_of_app; right; by left). pose proof (rep_heights _ _ Hr x Hx). lia. }
  unfold next0. rewrite (pos_cell _ _ _ _ _ _ 0 Hr Hp) by lia. simpl. f_equal.
  destruct B as [|y B]; [done|]. rewrite cell_cons, (proj2 (Z.ltb_lt _ _)); [done|].
  assert (y ∈ L) as Hy by (rewrite HL; apply elem_of_app; right; by left). pose proof (rep_heights _ _ Hr y Hy). lia.
Qed.

(** The elements that are the same for the list. *)
Definition same_elem (x : nd) (score : Sc) (ele : bytes) : Prop := seqb (ns x) score = true ∧ ne x = ele.

(** Insertion keeps the order. *)
Lemma zslInsert_spec z L rs a score ele :
  rep z L → zsorted L → a ∉ header z :: (na <$> L) → (∀ x, x ∈ L → ¬ same_elem x score ele) →
  ∃ z' A B, L = A ++ B ∧ Forall (λ x, node_lt (ns x) (ne x) score ele = true) A ∧
    Forall (λ x, node_lt (ns x) (ne x) score ele = false) B ∧
    zslInsert z rs a score ele = Some z' ∧ rep z' (A ++ Nd a score ele (zslRandomLevel rs) :: B) ∧
    zsorted (A ++ Nd a score ele (zslRandomLevel rs) :: B) ∧ header z' = header z ∧
    nodes z' = <[a := (score, ele)]> (nodes z).
Proof.
  intros Hr Hs Ha Hnew. destruct (partition_sorted _ L Hs (go_before_closed score ele L)) as (A & B & HL & HA & HB).
  destruct (zslInsert_rep z L A B rs a score ele) as (z' & E & Hr' & Hh & Hn); [done|done| |done|].
  { by eapply (partition_go (λ s e, node_lt s e score ele)). }
  exists z', A, B. split_and!; try done.
  destruct (zsorted_app L A B HL Hs) as (SA & SB & Hlt). apply zsorted_join; [done| |].
  - apply SSorted_cons; [done|]. apply Forall_forall. intros y Hy. unfold nd_lt. simpl.
    rewrite Forall_forall in HB. specialize (HB y Hy). apply not_false_is_true. intros E2.
    destruct (node_lt_total _ _ _ _ HB E2). apply (Hnew y); [|by split]. rewrite HL. apply elem_of_app. by right.
  - intros x y Hx [-> |Hy]%elem_of_cons; [|by apply Hlt]. rewrite Forall_forall in HA. by apply HA.
Qed.

(** The first node that is not before the searched one is it, if it is in the list. *)
Lemma search_hit L A B score ele :
  zsorted L → L = A ++ B → Forall (λ x, node_lt (ns x) (ne x) score ele = true) A →
  Forall (λ x, node_lt (ns x) (ne x) score ele = false) B →
  ∀ x, x ∈ L → same_elem x score ele → head B = Some x.
Proof.
  intros Hs HL HA HB x Hx [He <-]. rewrite HL in Hx. apply elem_of_app in Hx as [Hx|Hx].
  - rewrite Forall_forall in HA. specialize (HA x Hx). rewrite node_lt_equal in HA; done.
  - destruct B as [|y B]; [by apply not_elem_of_nil in Hx|]. apply elem_of_cons in Hx as [-> |Hx]; [done|].
    exfalso. destruct (zsorted_app L A (y :: B) HL Hs) as (_ & SB & _). apply StronglySorted_inv in SB as [_ Hy].
    rewrite Forall_forall in Hy. specialize (Hy x Hx). apply Forall_cons in HB as [HB _].
    assert (node_lt (ns y) (ne y) score (ne x) = true) as E; [|congruence].
    unfold nd_lt in Hy. rewrite node_lt_spec in Hy |- *. rewrite seqb_spec, andb_true_iff, !negb_true_iff in He.
    destruct He as [He1 He2]. destruct Hy as [Hy|[Hy1 Hy2]].
    + left. by eapply lt_nlt_trans.
    + right. split; [by eapply nlt_trans|done].
Qed.

Lemma seqb_sym s t : seqb s t = seqb t s.
Proof. rewrite !seqb_spec. apply andb_comm. Qed.

Lemma zslDelete_spec z L score ele :
  rep z L → zsorted L →
  ∃ z' b, zslDelete z score ele = Some (z', b) ∧ header z' = header z ∧
    if (b : bool)
    then ∃ A x B, L = A ++ x :: B ∧ same_elem x score ele ∧ rep z' (A ++ B) ∧ zsorted (A ++ B) ∧
           nodes z' = delete (na x) (nodes z)
    else z' = z ∧ ∀ x, x ∈ L → ¬ same_elem x score ele.
Proof.
  intros Hr Hs. destruct (partition_sorted _ L Hs (go_before_closed score ele L)) as (A & B & HL & HA & HB).
  unfold zslDelete.
  destruct (search_header z L (go_before score ele) (zlen A) Hr) as (u & update & rest & h & -> & Hlen & Hupd & Hu0 & Hp).
  { by eapply (partition_go (λ s e, node_lt s e score ele)). }
  cbn [mbind option_bind]. rewrite (next0_spec z L A B u rest h Hr HL Hp). cbn [mbind option_bind].
  destruct B as [|x B]; cbn [head fmap option_fmap option_map].
  { exists z, false. split_and!; try done. intros y Hy Hsame. by pose proof (search_hit L A [] score ele Hs HL HA HB y Hy Hsame). }
  assert (x ∈ L) as Hx by (rewrite HL; apply elem_of_app; right; by left).
  rewrite (rep_nodes _ _ Hr x Hx). cbn [mbind option_bind].
  destruct (seqb score (ns x) && (sdscmp (ne x) ele =? 0)) eqn:E.
  - rewrite andb_true_iff, Z.eqb_eq, (proj2 (sdscmp_spec (ne x) ele)), seqb_sym in E. destruct E as [E1 E2].
    destruct (zslDeleteNode_rep z L A B x update Hr HL) as (z1 & -> & Hr1 & Hh1 & Hn1 & _); [by apply update_ok_intro|].
    cbn [mbind option_bind]. eexists _, true. split; [done|]. split; [done|]. exists A, x, B. split; [done|].
    split; [done|]. split; [|split].
    + apply zslFreeNode_rep; [done|]. rewrite Hh1. pose proof (rep_addrs _ _ Hr) as Hnd.
      rewrite HL in Hnd. apply NoDup_cons in Hnd as [Hh Hnd]. rewrite not_elem_of_cons. split.
      * intros Ex. apply Hh. rewrite <-Ex. apply list_elem_of_fmap_2, elem_of_app. right. by left.
      * intros (y & Ey & Hy)%list_elem_of_fmap_1. apply elem_of_app in Hy. by apply (NoDup_middle A B x y Hnd Hy).
    + destruct (zsorted_app L A (x :: B) HL Hs) as (SA & SB & Hlt). apply zsorted_join; [done| |].
      * by apply StronglySorted_inv in SB as [SB _].
      * intros a b Ha Hb. apply Hlt; [done|by right].
    + cbn. by rewrite Hn1.
  - exists z, false. split_and!; try done. intros y Hy Hsame.
    pose proof (search_hit L A (x :: B) score ele Hs HL HA HB y Hy Hsame) as [= <-]. destruct Hsame as [H1 <-].
    rewrite seqb_sym, H1 in E. rewrite (proj2 (Z.eqb_eq _ 0)) in E; [done|]. by apply (proj2 (sdscmp_spec _ _)).
Qed.

(** ** Score updates *)

Definition rescore (x : nd) (s : Sc) : nd := Nd (na x) s (ne x) (nh x).

Lemma cell_rescore i C x s D : cell i (C ++ rescore x s :: D) = cell i (C ++ x :: D).
Proof.
  induction C as [|c C IH]; cbn [app]; rewrite !cell_cons; [done|]. by rewrite IH.
Qed.

Lemma rescore_rep z L A B x s :
  rep z L → L = A ++ x :: B →
  rep (Zsl (header z) (tail z) (zlength z) (zlevel z) (<[na x := (s, ne x)]> (nodes z)) (backward z) (levels z))
    (A ++ rescore x s :: B).
Proof.
  intros Hr HL. pose proof (rep_addrs _ _ Hr) as Hnd.
  assert (x ∈ L) as Hx by (rewrite HL; apply elem_of_app; right; by left).
  assert (∀ y, y ∈ A ++ rescore x s :: B → y = rescore x s ∨ (y ∈ L ∧ na y ≠ na x)) as Hin.
  { intros y [Hy|[-> |Hy]%elem_of_cons]%elem_of_app; [right|by left|right];
      (split; [rewrite HL; apply elem_of_app|rewrite HL in Hnd; apply NoDup_cons in Hnd as [_ Hnd];
               apply (NoDup_middle A B x y Hnd)]); [by left|by left|right; by right|by right]. }
  assert (na <$> A ++ rescore x s :: B = na <$> L) as Ena by (by rewrite HL, !fmap_app, !fmap_cons).
  split; cbn [zlevel zlength tail header nodes backward levels].
  - apply Hr.
  - rewrite (rep_length _ _ Hr), HL, !length_app. done.
  - rewrite (rep_tail _ _ Hr), HL. destruct B as [|b B]; [by rewrite !last_snoc|].
    by rewrite !last_app_cons, !last_cons_cons.
  - intros y [-> |[Hy _]]%Hin; [exact (rep_heights _ _ Hr x Hx)|by apply (rep_heights _ _ Hr)].
  - by rewrite Ena.
  - intros y [-> |[Hy Hne]]%Hin; [by rewrite lookup_insert_eq|]. rewrite lookup_insert_ne by congruence.
    by apply (rep_nodes _ _ Hr).
  - intros A' y B' E. symmetry in E. apply split_cases in E as [(C & HA & HB')|[(-> & -> & ->)|(C & HA' & HB)]].
    + apply (rep_backward _ _ Hr A' y (C ++ x :: B)). by rewrite HL, HA, <-(assoc_L (++)).
    + by apply (rep_backward _ _ Hr A x B).
    + rewrite (rep_backward _ _ Hr (A ++ x :: C) y B') by (by rewrite HL, HB, <-(assoc_L (++))).
      rewrite HA'. destruct C as [|c C]; [by rewrite !last_snoc|]. by rewrite !last_app_cons, !last_cons_cons.
  - intros i Hi. rewrite cell_rescore, <-HL. by apply (rep_header _ _ Hr).
  - apply (rep_unused _ _ Hr).
  - intros A' y B' i E Hi. symmetry in E. apply split_cases in E as [(C & HA & HB')|[(-> & -> & ->)|(C & HA' & HB)]].
    + rewrite HB', cell_rescore. apply (rep_levels _ _ Hr A' y); [by rewrite HL, HA, <-(assoc_L (++))|done].
    + by apply (rep_levels _ _ Hr A x B).
    + apply (rep_levels _ _ Hr (A ++ x :: C) y B'); [by rewrite HL, HB, <-(assoc_L (++))|done].
Qed.

(** The abstract value of a list. *)
Definition abs (L : list nd) : list (Sc * bytes) := (λ x, (ns x, ne x)) <$> L.

Definition a_insert (s : Sc) (e : bytes) (l : list (Sc * bytes)) : list (Sc * bytes) :=
  filter (λ p, node_lt p.1 p.2 s e = true) l ++ (s, e) :: filter (λ p, node_lt p.1 p.2 s e = false) l.

Definition a_same (s : Sc) (e : bytes) (p : Sc * bytes) : bool := seqb p.1 s && bool_decide (p.2 = e).

Definition a_delete (s : Sc) (e : bytes) (l : list (Sc * bytes)) : list (Sc * bytes) :=
  filter (λ p, a_same s e p = false) l.

Lemma a_same_spec x s e : a_same s e (ns x, ne x) = true ↔ same_elem x s e.
Proof. unfold a_same, same_elem. rewrite andb_true_iff, bool_decide_eq_true. done. Qed.

Lemma filter_all {T} (P : T → Prop) `{∀ x, Decision (P x)} l : Forall P l → filter P l = l.
Proof. induction 1; [done|]. rewrite filter_cons_True by done. by f_equal. Qed.

Lemma filter_none {T} (P : T → Prop) `{∀ x, Decision (P x)} l : Forall (λ x, ¬ P x) l → filter P l = [].
Proof. induction 1; [done|]. by rewrite filter_cons_False. Qed.

(** A partition by a predicate is what filtering gives. *)
Lemma abs_filter_split (p : Sc → bytes → bool) A B :
  Forall (λ x, p (ns x) (ne x) = true) A → Forall (λ x, p (ns x) (ne x) = false) B →
  filter (λ q, p q.1 q.2 = true) (abs (A ++ B)) = abs A ∧ filter (λ q, p q.1 q.2 = false) (abs (A ++ B)) = abs B.
Proof.
  intros HA HB. unfold abs. rewrite fmap_app, !filter_app.
  rewrite (filter_all _ (_ <$> A)), (filter_none _ (_ <$> B)), (filter_none _ (_ <$> A)), (filter_all _ (_ <$> B));
    rewrite ?app_nil_r; try done; apply Forall_fmap; (eapply Forall_impl; [eassumption|]); simpl; congruence.
Qed.

Lemma abs_insert A B x :
  Forall (λ y, node_lt (ns y) (ne y) (ns x) (ne x) = true) A →
  Forall (λ y, node_lt (ns y) (ne y) (ns x) (ne x) = false) B →
  abs (A ++ x :: B) = a_insert (ns x) (ne x) (abs (A ++ B)).
Proof.
  intros HA HB. unfold a_insert.
  destruct (abs_filter_split (λ s e, node_lt s e (ns x) (ne x)) A B HA HB) as [-> ->].
  unfold abs. by rewrite fmap_app.
Qed.

(** In a sorted list at most one element is the searched one. *)
Lemma abs_delete A x B s e :
  zsorted (A ++ x :: B) → same_elem x s e → abs (A ++ B) = a_delete s e (abs (A ++ x :: B)).
Proof.
  intros Hs Hx. destruct (zsorted_app _ A (x :: B) eq_refl Hs) as (_ & SB & Hlt). apply StronglySorted_inv in SB as [_ HxB].
  assert (∀ y, nd_lt y x ∨ nd_lt x y → a_same s e (ns y, ne y) = false) as Hno.
  { intros y Hy. apply not_true_iff_false. rewrite a_same_spec. intros [H1 H2]. destruct Hx as [H3 H4].
    assert (seqb (ns y) (ns x) = true) as He.
    { rewrite seqb_spec, andb_true_iff, !negb_true_iff in *. destruct H1, H3. split; by eapply nlt_trans. }
    unfold nd_lt in Hy. rewrite H2, H4 in Hy. destruct Hy as [Hy|Hy]; rewrite node_lt_equal in Hy; try done. by rewrite seqb_sym. }
  unfold a_delete, abs. rewrite !fmap_app, fmap_cons, !filter_app, filter_cons_False by (simpl; rewrite (proj2 (a_same_spec x s e) Hx); done).
  rewrite !filter_all; [done| |].
  - apply Forall_fmap, Forall_forall. intros y Hy. apply Hno. right. rewrite Forall_forall in HxB. by apply HxB.
  - apply Forall_fmap, Forall_forall. intros y Hy. apply Hno. left. apply Hlt; [done|by left].
Qed.

Lemma abs_delete_none L s e : (∀ x, x ∈ L → ¬ same_elem x s e) → a_delete s e (abs L) = abs L.
Proof.
  intros H. apply filter_all. apply Forall_fmap, Forall_forall. intros y Hy. apply not_true_iff_false.
  rewrite a_same_spec. by apply H.
Qed.

Lemma nd_lt_score x y : nd_lt x y → slt (ns y) (ns x) = false.
Proof.
  unfold nd_lt. rewrite node_lt_spec. intros [H|[H _]]; [by apply slt_asym|done].
Qed.

(** The scores before the last node, and after the first, are bounded by theirs. *)
Lemma last_score A s :
  zsorted A → match last A with None => True | Some y => slt (ns y) s = true end → Forall (λ y, slt (ns y) s = true) A.
Proof.
  intros Hs Hl. destruct A as [|y A _] using rev_ind; [done|]. rewrite last_snoc in Hl.
  destruct (zsorted_app _ A [y] eq_refl Hs) as (_ & _ & Hlt). apply Forall_app. split; [|by apply Forall_singleton].
  apply Forall_forall. intros w Hw. specialize (Hlt w y Hw ltac:(by left)).
  eapply nlt_lt_trans; [by apply nd_lt_score|done].
Qed.

Lemma head_score B s :
  zsorted B → match head B with None => True | Some y => slt s (ns y) = true end → Forall (λ y, slt s (ns y) = true) B.
Proof.
  intros Hs Hh. destruct B as [|y B]; [done|]. apply StronglySorted_inv in Hs as [_ Hy]. apply Forall_cons.
  split; [done|]. eapply Forall_impl; [exact Hy|]. intros w Hw. eapply lt_nlt_trans; [exact Hh|by apply nd_lt_score].
Qed.

Lemma NoDup_ele_middle (A B : list nd) x y : NoDup (ne <$> A ++ x :: B) → y ∈ A ++ B → ne y ≠ ne x.
Proof.
  rewrite fmap_app, fmap_cons, Permutation_app_comm. cbn [app]. rewrite NoDup_cons, elem_of_app.
  intros [Hx _] Hy E. apply Hx. rewrite <-E. apply elem_of_app in Hy as [Hy|Hy]; [right|left]; by apply list_elem_of_fmap_2.
Qed.

Lemma NoDup_ele_swap (A B A' B' : list nd) x x' :
  ne x' = ne x → A ++ B = A' ++ B' → NoDup (ne <$> A ++ x :: B) → NoDup (ne <$> A' ++ x' :: B').
Proof.
  intros Hx E. rewrite !fmap_app, !fmap_cons, Hx. rewrite (Permutation_app_comm (ne <$> A)), (Permutation_app_comm (ne <$> A')).
  cbn [app]. rewrite (Permutation_app_comm (ne <$> B)), (Permutation_app_comm (ne <$> B')), <-!fmap_app. by rewrite E.
Qed.

(** The nodes of the other elements stay where they are. *)
Lemma swap_others (A B A' B' : list nd) x x' e (b : addr) :
  e ≠ ne x → ne x' = ne x → A ++ B = A' ++ B' →
  (∃ y, y ∈ A' ++ x' :: B' ∧ ne y = e ∧ na y = b) ↔ (∃ y, y ∈ A ++ x :: B ∧ ne y = e ∧ na y = b).
Proof.
  intros He Hx HE.
  assert (∀ C D (w y : nd), ne w = ne x → ne y = e → y ∈ C ++ w :: D ↔ y ∈ C ++ D) as Hin.
  { intros C D w y Hw Hy. rewrite !elem_of_app, elem_of_cons. assert (y ≠ w) by congruence. tauto. }
  split; intros (y & Hy & Hye & Hyb); exists y; (split; [|done]); rewrite Hin in Hy |- * by done; congruence.
Qed.

Lemma zslUpdateScore_spec z L rs a cur ele new x :
  rep z L → zsorted L → NoDup (ne <$> L) → x ∈ L → same_elem x cur ele → a ∉ header z :: (na <$> L) →
  ∃ z' n L', zslUpdateScore z rs a cur ele new = Some (z', n) ∧ rep z' L' ∧ zsorted L' ∧ NoDup (ne <$> L') ∧
    header z' = header z ∧ abs L' = a_insert new ele (a_delete cur ele (abs L)) ∧
    (∀ e b, e ≠ ele → (∃ y, y ∈ L' ∧ ne y = e ∧ na y = b) ↔ (∃ y, y ∈ L ∧ ne y = e ∧ na y = b)) ∧
    (∃ y, y ∈ L' ∧ ne y = ele ∧ na y = n).
Proof.
  intros Hr Hs Hnd Hx Hsame Ha. destruct (partition_sorted _ L Hs (go_before_closed cur ele L)) as (A & B0 & HL & HA & HB).
  pose proof (search_hit L A B0 cur ele Hs HL HA HB x Hx Hsame) as Hh. destruct B0 as [|? B]; [done|]. injection Hh as ->.
  unfold zslUpdateScore.
  destruct (search_header z L (go_before cur ele) (zlen A) Hr) as (u & update & rest & h & -> & Hlen & Hupd & Hu0 & Hp).
  { by eapply (partition_go (λ s e, node_lt s e cur ele)). }
  cbn [mbind option_bind]. rewrite (next0_spec z L A (x :: B) u rest h Hr HL Hp).
  cbn [mbind option_bind head fmap option_fmap option_map]. rewrite (rep_nodes _ _ Hr x Hx). cbn [mbind option_bind].
  destruct Hsame as [He Hele]. rewrite seqb_sym in He. rewrite He. rewrite (proj2 (Z.eqb_eq _ _)) by (by apply (proj2 (sdscmp_spec _ _))).
  cbn [andb negb]. rewrite (rep_backward _ _ Hr A x B HL). cbn [mbind option_bind].
  assert (next0 z (na x) = Some (na <$> head B)) as ->.
  { assert (L = (A ++ [x]) ++ B) as HL2 by (by rewrite HL, <-(assoc_L (++))).
    apply (next0_spec z L (A ++ [x]) B (na x) B (nh x) Hr HL2). rewrite length_app. cbn [length].
    replace (Z.of_nat (length A + 1)) with (zlen A + 1) by lia. by apply pos_node. }
  assert (match na <$> last A with None => Some true | Some y => p ← nodes z !! y; Some (slt p.1 new) end
          = Some (match last A with None => true | Some y => slt (ns y) new end)) as ->.
  { destruct (last A) as [y|] eqn:El; [|done]. cbn [fmap option_fmap option_map].
    rewrite (rep_nodes _ _ Hr y); [done|]. rewrite HL. apply elem_of_app. left. by apply last_Some_elem_of. }
  cbn [mbind option_bind].
  assert (match na <$> head B with None => Some true | Some y => p ← nodes z !! y; Some (sgt p.1 new) end
          = Some (match head B with None => true | Some y => slt new (ns y) end)) as ->.
  { destruct B as [|y B]; [done|]. cbn [head fmap option_fmap option_map].
    rewrite (rep_nodes _ _ Hr y); [done|]. rewrite HL. apply elem_of_app. right. right. by left. }
  cbn [mbind option_bind].
  rewrite HL in Hs. destruct (zsorted_app _ A (x :: B) eq_refl Hs) as (SA & SB & Hlt). apply StronglySorted_inv in SB as [SB HxB].
  assert (zsorted (A ++ B)) as SAB.
  { apply zsorted_join; [done|done|]. intros v w Hv Hw. apply Hlt; [done|by right]. }
  assert (same_elem x cur ele) as Hsame by (split; [by rewrite seqb_sym|done]).
  assert (a_delete cur ele (abs L) = abs (A ++ B)) as Edel by (rewrite HL; symmetry; by apply abs_delete).
  rewrite Edel. rewrite HL in Hnd. destruct (_ && _) eqn:Eb.
  - apply andb_true_iff in Eb as [Eb1 Eb2].
    assert (Forall (λ y, slt (ns y) new = true) A) as HsA by (apply last_score; [done|]; destruct (last A); [done|exact I]).
    assert (Forall (λ y, slt new (ns y) = true) B) as HsB by (apply head_score; [done|]; destruct (head B); [done|exact I]).
    eexists _, _, (A ++ rescore x new :: B). split; [done|]. split; [by eapply rescore_rep|].
    assert (Forall (λ y, node_lt (ns y) (ne y) new (ne x) = true) A) as HA2.
    { eapply Forall_impl; [exact HsA|]. intros y Hy. apply node_lt_spec. by left. }
    assert (Forall (λ y, node_lt new (ne x) (ns y) (ne y) = true) B) as HB2.
    { eapply Forall_impl; [exact HsB|]. intros y Hy. apply node_lt_spec. by left. }
    split; [|split; [|split; [done|split; [|split]]]].
    + apply zsorted_join; [done| |].
      * apply SSorted_cons; [done|]. eapply Forall_impl; [exact HB2|]. done.
      * intros v w Hv [-> |Hw]%elem_of_cons; [|apply Hlt; [done|by right]]. rewrite Forall_forall in HA2. by apply HA2.
    + eapply NoDup_ele_swap; [|reflexivity|exact Hnd]. done.
    + rewrite <-Hele. rewrite (abs_insert A B (rescore x new)); [done|done|]. eapply Forall_impl; [exact HB2|].
      intros y Hy. simpl. apply not_true_iff_false. intros E. pose proof (node_lt_trans _ _ _ _ _ _ E Hy) as E2.
      by rewrite node_lt_irrefl in E2.
    + intros e b He'. rewrite HL. by apply swap_others; [congruence|..].
    + exists (rescore x new). split; [apply elem_of_app; right; by left|done].
  - destruct (zslDeleteNode_rep z L A B x update Hr HL) as (z1 & -> & Hr1 & Hh1 & Hn1 & _); [by apply update_ok_intro|].
    cbn [mbind option_bind].
    assert (∀ y, y ∈ A ++ B → ¬ same_elem y new (ne x)) as Hno.
    { intros y Hy [_ E]. by apply (NoDup_ele_middle A B x y Hnd Hy). }
    destruct (zslInsert_spec z1 (A ++ B) rs a new (ne x) Hr1 SAB) as (z2 & A2 & B2 & HL2 & HA2 & HB2 & -> & Hr2 & Hs2 & Hh2 & Hn2).
    { rewrite Hh1. apply not_elem_of_cons in Ha as [Ha1 Ha2]. apply not_elem_of_cons. split; [done|].
      rewrite HL in Ha2. rewrite fmap_app, fmap_cons, elem_of_app, elem_of_cons in Ha2. rewrite fmap_app, elem_of_app. tauto. }
    { done. }
    cbn [mbind option_bind]. set (x' := Nd a new (ne x) _) in *.
    eexists _, _, (A2 ++ x' :: B2). split; [done|]. split; [|split; [done|split; [|split; [|split; [|split]]]]].
    + apply zslFreeNode_rep; [done|]. rewrite Hh2, Hh1. pose proof (rep_addrs _ _ Hr) as Hnda. rewrite HL in Hnda.
      apply NoDup_cons in Hnda as [Hhn Hnda]. rewrite not_elem_of_cons. split.
      * intros Ex. apply Hhn. rewrite <-Ex. apply list_elem_of_fmap_2, elem_of_app. right. by left.
      * intros (y & Ey & Hy)%list_elem_of_fmap_1. apply elem_of_app in Hy as [Hy|[-> |Hy]%elem_of_cons].
        -- apply (NoDup_middle A B x y Hnda); [|done]. apply elem_of_app. rewrite HL2. apply elem_of_app. by left.
        -- apply not_elem_of_cons in Ha as [_ Ha]. apply Ha. change a with (na x'). rewrite <-Ey. by apply list_elem_of_fmap_2.
        -- apply (NoDup_middle A B x y Hnda); [|done]. apply elem_of_app. rewrite HL2. apply elem_of_app. by right.
    + by eapply (NoDup_ele_swap A B A2 B2 x x').
    + cbn. congruence.
    + rewrite (abs_insert A2 B2 x' HA2 HB2), <-HL2, <-Hele. done.
    + intros e b He'. rewrite HL. by apply swap_others; [congruence| |].
    + exists x'. split; [apply elem_of_app; right; by left|done].
Qed.

End Rep.

Arguments nd : clear implicits.
