(* ===== verification/SkiplistRange.v ===== *)
(** Ranges and ranks of the skiplist (t_zset.c): the deletion of ranges, the first and the
    last element of a range, ranks, and ZRANGE on a list.  The operations are defined with
    the list itself in Skiplist.v, except [zrange]; this file relates them to the sorted
    list of the elements, and the whole list to an abstract machine. *)

From stdpp Require Import gmap strings.
From S2P Require Import Prelude Util SdsText Skiplist.

(** ** ZRANGE and ZREVRANGE *)

Section Zrange.

Context {Sc : Type} `{!ScoreOrder Sc}.

(** [while(rangelen--)]: the elements from a node on; the assertion [ln != NULL] fails with
    [None]. *)
Fixpoint emit (rangelen : nat) (z : zskiplist Sc) (reverse : bool) (ln : option addr) : option (list (Sc * bytes)) :=
  match rangelen with
  | O => Some []
  | S n =>
      x ← ln;
      p ← nodes z !! x;
      next ← (if reverse then backward z !! x else next0 z x);
      r ← emit n z reverse next;
      Some (p :: r)
  end.

(** The indexes of a range of ranks, counted from the end when they are negative; [None]
    for an empty range. *)
Definition sane_range (llen start end_ : Z) : option (Z * Z) :=
  let start := if start <? 0 then llen + start else start in
  let end_ := if end_ <? 0 then llen + end_ else end_ in
  let start := if start <? 0 then 0 else start in
  if (end_ <? start) || (llen <=? start) then None
  else Some (start, if llen <=? end_ then llen - 1 else end_).

(** The part of [zrangeGenericCommand] after the arguments are parsed, for the skiplist
    encoding: the elements of the reply with their scores. *)
Definition zrange (z : zskiplist Sc) (start end_ : Z) (reverse : bool) : option (list (Sc * bytes)) :=
  let llen := zlength z in
  match sane_range llen start end_ with
  | None => Some []
  | Some (start, end_) =>
      let rangelen := end_ - start + 1 in
      ln ← (if reverse
            then if 0 <? start then zslGetElementByRank z (llen - start) else Some (tail z)
            else if 0 <? start then zslGetElementByRank z (start + 1) else next0 z (header z));
      emit (Z.to_nat rangelen) z reverse ln
  end.

End Zrange.

Section Range.

Context {Sc : Type} `{!ScoreOrder Sc} `{!ScoreLaws Sc}.

Implicit Types z : zskiplist Sc.
Implicit Types L A B C D : list (nd Sc).

(** ** The empty list *)

Lemma zslCreate_rep (h : addr) :
  ∃ z, zslCreate h = Some z ∧ rep z [] ∧ header z = h ∧ nodes z = ∅.
Proof.
  unfold zslCreate.
  destruct (for_levels_spec (init_body h) (λ _ p, p h = Some (None, 0)) (Z.to_nat ZSKIPLIST_MAXLEVEL) 0 ∅)
    as (m & -> & _ & HQ).
  - intros j p p' E H. by rewrite <-E.
  - intros j m0 _ _. eexists. split; [done|]. split.
    + intros b k Hk. by rewrite lookup_insert_ne by congruence.
    + by rewrite lookup_insert_eq.
  - cbn [mbind option_bind]. eexists. split; [done|]. split; [|done]. unfold ZSKIPLIST_MAXLEVEL in *. split; cbn.
    + unfold ZSKIPLIST_MAXLEVEL. lia.
    + done.
    + done.
    + by intros x ?%not_elem_of_nil.
    + apply NoDup_singleton.
    + by intros x ?%not_elem_of_nil.
    + by intros A x B ?%app_cons_not_nil.
    + intros i Hi. apply HQ. lia.
    + intros i Hi. exists 0. apply HQ. unfold ZSKIPLIST_MAXLEVEL in *. lia.
    + by intros A x B i ?%app_cons_not_nil.
Qed.

(** ** Deleting ranges *)

Lemma update_ok_free z L k update a : update_ok z L k update → update_ok (zslFreeNode z a) L k update.
Proof.
  intros H j Hj. destruct (H j Hj) as (u & q & Hu & rest & h & Hp & Hh & Hq & Hg).
  exists u, q. split; [done|]. exists rest, h. split; [|done].
  destruct Hp as [|C x D E]; [apply (pos_header (zslFreeNode z a))|by apply pos_node].
Qed.

Lemma addr_not_in z L A B x : rep z L → L = A ++ x :: B → na x ∉ header z :: (na <$> A ++ B).
Proof.
  intros Hr HL. pose proof (rep_addrs _ _ Hr) as Hnd. rewrite HL in Hnd. apply NoDup_cons in Hnd as [Hh Hnd].
  rewrite not_elem_of_cons. split.
  - intros Ex. apply Hh. rewrite <-Ex. apply list_elem_of_fmap_2, elem_of_app. right. by left.
  - intros (y & Ey & Hy)%list_elem_of_fmap_1. apply elem_of_app in Hy. by apply (NoDup_middle A B x y Hnd Hy).
Qed.

Lemma next0_node z L A x B : rep z L → L = A ++ x :: B → next0 z (na x) = Some (na <$> head B).
Proof.
  intros Hr HL. assert (L = (A ++ [x]) ++ B) as HL2 by (by rewrite HL, <-(assoc_L (++))).
  apply (next0_spec z L (A ++ [x]) B (na x) B (nh x) Hr HL2). rewrite length_app. cbn [length].
  replace (Z.of_nat (length A + 1)) with (zlen A + 1) by lia. by apply pos_node.
Qed.

Lemma delete_while_spec keep update C : ∀ D fuel z A removed,
  rep z (A ++ D ++ C) → update_ok z (A ++ D ++ C) (zlen A) update → (length D < fuel)%nat →
  (∀ D1 x D2, D = D1 ++ x :: D2 → keep (zlen removed + zlen D1) (ns x) (ne x) = true) →
  (∀ x, head C = Some x → keep (zlen removed + zlen D) (ns x) (ne x) = false) →
  ∃ z', delete_while fuel z keep update (na <$> head (D ++ C)) removed = Some (z', removed ++ (ne <$> D)) ∧
    rep z' (A ++ C) ∧ header z' = header z.
Proof.
  induction D as [|x D IH]; intros fuel z A removed Hr Hupd Hf HD HC; (destruct fuel as [|fuel]; [simpl in Hf; lia|]);
    cbn [delete_while].
  - cbn [app]. rewrite app_nil_r. exists z. destruct C as [|y C]; [done|]. cbn [head fmap option_fmap option_map app] in *.
    rewrite (rep_nodes _ _ Hr y) by (apply elem_of_app; right; by left). cbn [mbind option_bind].
    specialize (HC y eq_refl). cbn [length] in HC. rewrite Z.add_0_r in HC. by rewrite HC.
  - cbn [app head fmap option_fmap option_map].
    rewrite (rep_nodes _ _ Hr x) by (apply elem_of_app; right; by left). cbn [mbind option_bind].
    pose proof (HD [] x D eq_refl) as Hx. cbn [length] in Hx. rewrite Z.add_0_r in Hx. rewrite Hx.
    cbn [app] in Hr, Hupd. rewrite (next0_node z _ A x (D ++ C) Hr eq_refl). cbn [mbind option_bind].
    destruct (zslDeleteNode_rep z _ A (D ++ C) x update Hr eq_refl Hupd) as (z1 & -> & Hr1 & Hh1 & _ & Hupd1).
    cbn [mbind option_bind].
    destruct (IH fuel (zslFreeNode z1 (na x)) A (removed ++ [ne x])) as (z' & -> & Hr' & Hh').
    + apply zslFreeNode_rep; [done|]. rewrite Hh1. by eapply addr_not_in.
    + by apply update_ok_free.
    + simpl in Hf. lia.
    + intros D1 y D2 ->. rewrite length_app. cbn [length].
      replace (Z.of_nat (length removed + 1) + zlen D1) with (zlen removed + zlen (x :: D1)) by (cbn [length]; lia).
      by apply (HD (x :: D1) y D2).
    + intros y Hy. rewrite length_app. cbn [length].
      replace (Z.of_nat (length removed + 1) + zlen D) with (zlen removed + zlen (x :: D)) by (cbn [length]; lia).
      by apply HC.
    + exists z'. rewrite <-(assoc_L (++)). split; [done|]. split; [done|]. cbn in Hh'. by rewrite Hh'.
Qed.

(** The elements that are not before a range given by [p] and up to its end given by [q]. *)
Definition between (p q : Sc → bytes → bool) (s : Sc) (e : bytes) : bool := negb (p s e) && q s e.

(** The list in three parts: before the range, in it and after it. *)
Lemma range_split (p q : Sc → bytes → bool) L :
  zsorted L → down_closed p L → down_closed q L →
  ∃ A D C, L = A ++ D ++ C ∧ Forall (λ x, p (ns x) (ne x) = true) A ∧
    Forall (λ x, p (ns x) (ne x) = false) (D ++ C) ∧
    Forall (λ x, q (ns x) (ne x) = true) D ∧ Forall (λ x, q (ns x) (ne x) = false) C.
Proof.
  intros Hs Hp Hq. destruct (partition_sorted p L Hs Hp) as (A & B & HL & HA & HB).
  destruct (zsorted_app L A B HL Hs) as (_ & SB & _).
  destruct (partition_sorted q B SB) as (D & C & HBC & HD & HC).
  { intros x y Hx Hy. apply Hq; rewrite HL; apply elem_of_app; by right. }
  exists A, D, C. rewrite <-HBC. done.
Qed.

Lemma range_filter (p q : Sc → bytes → bool) A D C :
  Forall (λ x, p (ns x) (ne x) = true) A → Forall (λ x, p (ns x) (ne x) = false) (D ++ C) →
  Forall (λ x, q (ns x) (ne x) = true) D → Forall (λ x, q (ns x) (ne x) = false) C →
  filter (λ x, between p q (ns x) (ne x) = true) (A ++ D ++ C) = D ∧
  filter (λ x, between p q (ns x) (ne x) = false) (A ++ D ++ C) = A ++ C.
Proof.
  intros HA HDC HqD HqC. apply Forall_app in HDC as [HD HC].
  assert (Forall (λ x, between p q (ns x) (ne x) = false) A) as FA.
  { eapply Forall_impl; [exact HA|]. intros x Hx. unfold between. by rewrite Hx. }
  assert (Forall (λ x, between p q (ns x) (ne x) = true) D) as FD.
  { apply Forall_forall. intros x Hx. rewrite Forall_forall in HD, HqD. unfold between. by rewrite HD, HqD. }
  assert (Forall (λ x, between p q (ns x) (ne x) = false) C) as FC.
  { apply Forall_forall. intros x Hx. rewrite Forall_forall in HqC. unfold between. rewrite HqC by done. apply andb_false_r. }
  rewrite !filter_app. split.
  - rewrite (filter_none _ A), (filter_all _ D), (filter_none _ C), app_nil_r; [done| |done|];
      (eapply Forall_impl; [eassumption|]); simpl; congruence.
  - rewrite (filter_all _ A), (filter_none _ D), (filter_all _ C); [done|done| |done].
    eapply Forall_impl; [eassumption|]; simpl; congruence.
Qed.

Lemma zsorted_drop_middle A D C : zsorted (A ++ D ++ C) → zsorted (A ++ C).
Proof.
  intros Hs. destruct (zsorted_app _ A (D ++ C) eq_refl Hs) as (SA & SB & Hlt).
  destruct (zsorted_app _ D C eq_refl SB) as (_ & SC & _). apply zsorted_join; [done|done|].
  intros x y Hx Hy. apply Hlt; [done|]. apply elem_of_app. by right.
Qed.

Lemma NoDup_drop_middle A D C : NoDup (ne <$> A ++ D ++ C) → NoDup (ne <$> A ++ C).
Proof.
  rewrite !fmap_app, !NoDup_app. intros (HA & Hd & HD & Hd2 & HC). split_and!; try done.
  intros x Hx Hc. apply (Hd x Hx). apply elem_of_app. by right.
Qed.

Lemma delete_range_spec p q go keep z L :
  rep z L → zsorted L → down_closed p L → down_closed q L →
  (∀ r s e, go r s e = p s e) → (∀ n s e, keep n s e = q s e) →
  ∃ z', delete_range z go keep = Some (z', ne <$> filter (λ x, between p q (ns x) (ne x) = true) L) ∧
    rep z' (filter (λ x, between p q (ns x) (ne x) = false) L) ∧ header z' = header z.
Proof.
  intros Hr Hs Hp Hq Hgo Hkeep. destruct (range_split p q L Hs Hp Hq) as (A & D & C & HL & HA & HDC & HqD & HqC).
  destruct (range_filter p q A D C HA HDC HqD HqC) as [E1 E2]. rewrite HL, E1, E2.
  unfold delete_range.
  destruct (search_header z L go (zlen A) Hr) as (u & update & rest & h & -> & Hlen & Hupd & Hu0 & Hpos).
  { by eapply (partition_go p). }
  cbn [mbind option_bind]. rewrite (next0_spec z L A (D ++ C) u rest h Hr HL Hpos). cbn [mbind option_bind].
  rewrite HL in Hr, Hupd.
  destruct (delete_while_spec keep update C D (walk_fuel z) z A []) as (z' & E & Hr' & Hh').
  - done.
  - by apply update_ok_intro.
  - unfold walk_fuel. rewrite (rep_length _ _ Hr), !length_app. lia.
  - intros D1 x D2 ->. rewrite Hkeep. rewrite Forall_forall in HqD. apply HqD. apply elem_of_app. right. by left.
  - intros x Hx. rewrite Hkeep. rewrite Forall_forall in HqC. apply HqC. destruct C; [done|]. injection Hx as ->. by left.
  - exists z'. done.
Qed.

(** The bounds of ranges of scores are monotone. *)
Lemma below_min_closed (r : zrangespec Sc) L : down_closed (λ s _, negb (zslValueGteMin s r)) L.
Proof.
  intros x y _ _ Hxy%nd_lt_score. unfold zslValueGteMin, sgt. rewrite sge_slt.
  rewrite sge_slt. destruct (minex r); rewrite ?negb_involutive, ?negb_true_iff; intros H.
  - by eapply nlt_trans.
  - by eapply nlt_lt_trans.
Qed.

Lemma upto_max_closed (r : zrangespec Sc) L : down_closed (λ s _, zslValueLteMax s r) L.
Proof.
  intros x y _ _ Hxy%nd_lt_score. unfold zslValueLteMax. rewrite !sle_slt.
  destruct (maxex r); rewrite ?negb_true_iff; intros H.
  - by eapply nlt_lt_trans.
  - by eapply nlt_trans.
Qed.

(** Membership of a range of scores. *)
Definition in_range (r : zrangespec Sc) (s : Sc) : bool := zslValueGteMin s r && zslValueLteMax s r.

Definition in_lex_range (r : zlexrangespec) (e : bytes) : bool := zslLexValueGteMin e r && zslLexValueLteMax e r.

Lemma range_of_between (p q f : Sc → bytes → bool) (b : bool) L :
  (∀ s e, between p q s e = f s e) →
  filter (λ x, between p q (ns x) (ne x) = b) L = filter (λ x, f (ns x) (ne x) = b) L.
Proof. intros H. apply list_filter_iff. intros x. by rewrite H. Qed.

Lemma zslDeleteRangeByScore_spec z L r :
  rep z L → zsorted L →
  ∃ z', zslDeleteRangeByScore z r = Some (z', ne <$> filter (λ x, in_range r (ns x) = true) L) ∧
    rep z' (filter (λ x, in_range r (ns x) = false) L) ∧ header z' = header z.
Proof.
  intros Hr Hs.
  destruct (delete_range_spec (λ s _, negb (zslValueGteMin s r)) (λ s _, zslValueLteMax s r)
    (λ _ s _, if minex r then sle s (rmin r) else slt s (rmin r))
    (λ _ s _, if maxex r then slt s (rmax r) else sle s (rmax r)) z L Hr Hs) as (z' & E & H).
  - apply below_min_closed.
  - apply upto_max_closed.
  - intros _ s _. unfold zslValueGteMin, sgt. rewrite sge_slt, sle_slt. destruct (minex r); by rewrite ?negb_involutive.
  - done.
  - exists z'. rewrite (range_of_between _ _ (λ s _, in_range r s)) in E, H; [done| |];
      intros s e; unfold between, in_range; by rewrite negb_involutive.
Qed.

(** *** Lexicographic ranges, which are meant for lists where all scores are equal *)

Lemma sdscmp_pos a b : 0 < sdscmp a b ↔ lex_lt b a.
Proof.
  destruct (sdscmp_spec a b) as [H1 H2]. destruct (lex_lt_total a b) as [H|[-> |H]].
  - split; [apply H1 in H; lia|]. intros H'. by pose proof (lex_lt_irrefl _ (lex_lt_trans _ _ _ H H')).
  - split; [pose proof (proj2 H2 eq_refl); lia|]. by intros ?%lex_lt_irrefl.
  - split; [done|]. intros _. destruct (Z.lt_trichotomy (sdscmp a b) 0) as [E|[E|E]]; [|by apply H2 in E as ->; apply lex_lt_irrefl in H|lia].
    apply H1 in E. by pose proof (lex_lt_irrefl _ (lex_lt_trans _ _ _ H E)).
Qed.

Lemma sdscmp_trans a b c : lex_lt a b → sdscmp b c ≤ 0 → sdscmp a c < 0.
Proof.
  intros Hab Hbc. apply (proj1 (sdscmp_spec a c)). destruct (Z.eq_dec (sdscmp b c) 0) as [E|E].
  - by apply (proj2 (sdscmp_spec b c)) in E as <-.
  - eapply lex_lt_trans; [exact Hab|]. apply (proj1 (sdscmp_spec b c)). lia.
Qed.

(** No two scores differ. *)
Definition flat L : Prop := ∀ x y, x ∈ L → y ∈ L → slt (ns x) (ns y) = false.

Lemma flat_lex L x y : flat L → x ∈ L → y ∈ L → nd_lt x y → lex_lt (ne x) (ne y).
Proof. intros Hf Hx Hy. unfold nd_lt. rewrite node_lt_spec, (Hf x y) by done. by intros [?|[_ ?]]. Qed.

Lemma lex_below_min_closed r L : flat L → down_closed (λ _ e, negb (zslLexValueGteMin e r)) L.
Proof.
  intros Hf x y Hx Hy Hlt. apply (flat_lex L x y Hf Hx Hy) in Hlt. unfold zslLexValueGteMin, sdscmplex.
  destruct (lmin r) as [| |m], (lminex r); simpl; try done; rewrite !negb_true_iff.
  - rewrite !Z.ltb_ge. intros H. pose proof (sdscmp_trans _ _ _ Hlt H). lia.
  - rewrite !Z.leb_gt. intros H. apply (sdscmp_trans _ _ _ Hlt). lia.
Qed.

Lemma lex_upto_max_closed r L : flat L → down_closed (λ _ e, zslLexValueLteMax e r) L.
Proof.
  intros Hf x y Hx Hy Hlt. apply (flat_lex L x y Hf Hx Hy) in Hlt. unfold zslLexValueLteMax, sdscmplex.
  destruct (lmax r) as [| |m], (lmaxex r); simpl; try done.
  - rewrite !Z.ltb_lt. intros H. apply (sdscmp_trans _ _ _ Hlt). lia.
  - rewrite !Z.leb_le. intros H. pose proof (sdscmp_trans _ _ _ Hlt H). lia.
Qed.

Lemma zslDeleteRangeByLex_spec z L r :
  rep z L → zsorted L → flat L →
  ∃ z', zslDeleteRangeByLex z r = Some (z', ne <$> filter (λ x, in_lex_range r (ne x) = true) L) ∧
    rep z' (filter (λ x, in_lex_range r (ne x) = false) L) ∧ header z' = header z.
Proof.
  intros Hr Hs Hf.
  destruct (delete_range_spec (λ _ e, negb (zslLexValueGteMin e r)) (λ _ e, zslLexValueLteMax e r)
    (λ _ _ e, negb (zslLexValueGteMin e r)) (λ _ _ e, zslLexValueLteMax e r) z L Hr Hs) as (z' & E & H).
  - by apply lex_below_min_closed.
  - by apply lex_upto_max_closed.
  - done.
  - done.
  - exists z'. rewrite (range_of_between _ _ (λ _ e, in_lex_range r e)) in E, H; [done| |];
      intros s e; unfold between, in_lex_range; by rewrite negb_involutive.
Qed.

(** *** Deletion by rank *)

Lemma rank_prefix (lim : Z) L (go : Z → Sc → bytes → bool) :
  (∀ r s e, go r s e = (r <=? lim)) → 0 ≤ lim → go_prefix go L (Z.min lim (zlen L)).
Proof.
  intros Hgo Hlim. split; [lia|]. intros A x B ->. rewrite Hgo, length_app. cbn [length].
  destruct (Z.leb_spec (zlen A + 1) lim), (Z.ltb_spec (zlen A) (Z.min lim (Z.of_nat (length A + S (length B))))); lia || done.
Qed.

Lemma zslDeleteRangeByRank_spec z L start end_ :
  rep z L → 1 ≤ start →
  let A := take (Z.to_nat (start - 1)) L in
  let D := take (Z.to_nat (end_ - (start - 1))) (drop (Z.to_nat (start - 1)) L) in
  let C := drop (Z.to_nat (end_ - (start - 1))) (drop (Z.to_nat (start - 1)) L) in
  ∃ z', zslDeleteRangeByRank z start end_ = Some (z', ne <$> D) ∧ rep z' (A ++ C) ∧ header z' = header z.
Proof.
  intros Hr Hst A D C.
  assert (L = A ++ D ++ C) as HL by (unfold A, D, C; by rewrite !take_drop).
  assert (zlen A = Z.min (start - 1) (zlen L)) as HlA by (unfold A; rewrite length_take; lia).
  unfold zslDeleteRangeByRank.
  destruct (search_header z L (λ rank _ _, rank <? start) (zlen A) Hr) as (u & update & rest & h & -> & Hlen & Hupd & Hu0 & Hpos).
  { rewrite HlA. apply rank_prefix; [|lia]. intros r _ _. destruct (Z.ltb_spec r start), (Z.leb_spec r (start - 1)); lia || done. }
  cbn [mbind option_bind]. rewrite (next0_spec z L A (D ++ C) u rest h Hr HL Hpos). cbn [mbind option_bind].
  assert (zlen A < start - 1 → D ++ C = []) as HDC.
  { intros Hlt. rewrite HlA in Hlt. unfold D, C. rewrite take_drop. apply drop_ge. lia. }
  assert (zlen D ≤ Z.max 0 (end_ - (start - 1))) as HlD by (unfold D; rewrite length_take; lia).
  rewrite HL in Hr, Hupd.
  destruct (delete_while_spec (λ n _ _, zlen A + 1 + n <=? end_) update C D (walk_fuel z) z A []) as (z' & E & H).
  - done.
  - by apply update_ok_intro.
  - unfold walk_fuel. rewrite (rep_length _ _ Hr), !length_app. lia.
  - intros D1 x D2 ED. cbn [length]. apply Z.leb_le. rewrite ED, length_app in HlD. cbn [length] in HlD. lia.
  - intros x Hx. cbn [length]. apply Z.leb_gt.
    assert (C ≠ []) as HC by (by destruct C).
    assert (zlen A = start - 1) as EA.
    { destruct (Z_lt_le_dec (zlen A) (start - 1)) as [Hlt|?]; [|lia]. apply HDC in Hlt. by apply app_eq_nil in Hlt as [_ ?]. }
    assert (zlen D = Z.max 0 (end_ - (start - 1))) as ED.
    { unfold D. rewrite length_take. unfold C in HC.
      destruct (decide (length (drop (Z.to_nat (start - 1)) L) ≤ Z.to_nat (end_ - (start - 1)))%nat) as [Hle|Hgt]; [|lia].
      by rewrite drop_ge in HC. }
    lia.
  - exists z'. done.
Qed.

(** ** Ranks *)

(** The walk of the lowest level goes all the way. *)
Lemma gap_level0 z L p k a rest h :
  rep z L → pos z L p a rest h → p ≤ k → k ≤ zlen L → gap L 0 p k → p = k.
Proof.
  intros Hr Hp Hk HkL Hg. destruct (decide (p = k)) as [|Hne]; [done|]. exfalso.
  destruct (pos_rest _ _ _ _ _ _ Hp) as (A & HL & HA). destruct rest as [|x rest].
  - rewrite HL, app_nil_r in HkL. lia.
  - pose proof (Hg A x rest HL ltac:(lia) ltac:(lia)) as Hx. pose proof (rep_heights _ _ Hr x) as Hh.
    rewrite HL in Hh. specialize (Hh ltac:(apply elem_of_app; right; by left)). lia.
Qed.

(** The node at a position that is not the header. *)
Lemma pos_lookup z L p a rest h : pos z L p a rest h → 0 < p → ∃ x, L !! Z.to_nat (p - 1) = Some x ∧ na x = a.
Proof.
  intros [|A x B ->] Hp; [lia|]. exists x. split; [|done]. replace (Z.to_nat (zlen A + 1 - 1)) with (length A) by lia.
  by rewrite lookup_app_r, Nat.sub_diag by lia.
Qed.

Lemma by_rank_loop_spec z L rank : ∀ i p a rest h,
  rep z L → 1 ≤ rank → pos z L p a rest h → Z.of_nat i ≤ h → 0 ≤ p ≤ Z.min rank (zlen L) →
  ((0 < i)%nat ∨ zlen L < rank) → by_rank_loop i z rank a p = Some (na <$> L !! Z.to_nat (rank - 1)).
Proof.
  induction i as [|i IH]; intros p a rest h Hr Hrank Hp Hi Hk Hend; cbn [by_rank_loop].
  { destruct Hend as [?|Hend]; [lia|]. rewrite lookup_ge_None_2 by lia. done. }
  destruct (walk_spec z L (λ r _ _, r <=? rank) (Z.min rank (zlen L)) (Z.of_nat i) (walk_fuel z) p a rest h)
    as (p1 & a1 & rest1 & h1 & -> & Hp1 & Hi1 & Hk1 & Hgap);
    [done|apply rank_prefix; (done || lia)|done|lia|lia|unfold walk_fuel; rewrite (rep_length _ _ Hr); lia|].
  cbn [mbind option_bind]. destruct (Z.eqb_spec p1 rank) as [-> |Hne].
  - destruct (pos_lookup _ _ _ _ _ _ Hp1) as (x & -> & <-); [lia|]. done.
  - apply (IH p1 a1 rest1 h1); try done; [lia|lia|]. destruct i as [|i]; [right|left; lia].
    assert (p1 = Z.min rank (zlen L)) as E by (eapply gap_level0; eauto; lia). lia.
Qed.

Lemma zslGetElementByRank_spec z L rank :
  rep z L → 1 ≤ rank → zslGetElementByRank z rank = Some (na <$> L !! Z.to_nat (rank - 1)).
Proof.
  intros Hr Hrank. pose proof (rep_level _ _ Hr). apply (by_rank_loop_spec z L rank _ 0 (header z) L (zlevel z)); try done.
  - apply pos_header.
  - lia.
  - lia.
  - left. lia.
Qed.

(** Up to the searched element. *)
Definition upto (score : Sc) (ele : bytes) (s : Sc) (e : bytes) : bool :=
  slt s score || (seqb s score && (sdscmp e ele <=? 0)).

Lemma upto_spec score ele s e : upto score ele s e = negb (node_lt score ele s e).
Proof.
  unfold upto, node_lt. rewrite (seqb_sym score s), seqb_spec.
  destruct (slt s score) eqn:E1; [by rewrite (slt_asym _ _ E1)|]. destruct (slt score s); [done|]. simpl.
  destruct (Z.leb_spec (sdscmp e ele) 0) as [H|H], (Z.ltb_spec (sdscmp ele e) 0) as [H'|H']; try done; exfalso.
  - apply (proj1 (sdscmp_spec ele e)), sdscmp_pos in H'. lia.
  - apply sdscmp_pos, (proj1 (sdscmp_spec ele e)) in H. lia.
Qed.

Lemma upto_closed score ele L : down_closed (upto score ele) L.
Proof.
  intros x y _ _ Hxy. rewrite !upto_spec, !negb_true_iff. intros Hy. apply not_true_iff_false. intros Hx.
  pose proof (node_lt_trans _ _ _ _ _ _ Hx Hxy). congruence.
Qed.

Lemma rank_loop_spec z L score ele k : ∀ i p a rest h,
  rep z L → go_prefix (λ _, upto score ele) L k → pos z L p a rest h → Z.of_nat i ≤ h → 0 ≤ p ≤ k →
  (∀ A x B, L = A ++ x :: B → ne x = ele → k = zlen A + 1) → ((0 < i)%nat ∨ ele ∉ ne <$> L) →
  rank_loop i z score ele a p = Some (if bool_decide (ele ∈ ne <$> L) then k else 0).
Proof.
  induction i as [|i IH]; intros p a rest h Hr Hgo Hp Hi Hk Hele Hend; cbn [rank_loop].
  { destruct Hend as [?|Hend]; [lia|]. by rewrite bool_decide_eq_false_2. }
  destruct (walk_spec z L (λ _, upto score ele) k (Z.of_nat i) (walk_fuel z) p a rest h)
    as (p1 & a1 & rest1 & h1 & E & Hp1 & Hi1 & Hk1 & Hgap);
    [done|done|done|lia|lia|unfold walk_fuel; rewrite (rep_length _ _ Hr); destruct Hgo; lia|].
  unfold upto in E. rewrite E. cbn [mbind option_bind]. clear E.
  pose proof (rep_addrs _ _ Hr) as Hnd. apply NoDup_cons in Hnd as [Hhd _].
  assert (∀ A x B, L = A ++ x :: B → ne x = ele → i = 0%nat → na x = a1) as Hlast.
  { intros A x B HL Hx ->. pose proof (Hele A x B HL Hx) as Ek.
    assert (p1 = k) as -> by (eapply gap_level0; eauto; [lia|apply Hgo]). rewrite Ek in Hp1.
    destruct (pos_addr _ _ _ _ _ _ Hp1) as [Ha _], (pos_addr _ _ _ _ _ _ (pos_node z L A x B HL)) as [Ha' _]. congruence. }
  assert (i = 0%nat → ele ∈ ne <$> L → ∃ x, x ∈ L ∧ na x = a1 ∧ ne x = ele) as Hfound.
  { intros Hi0 (x & Ex & Hx)%list_elem_of_fmap_1. exists x. split; [done|]. pose proof Hx as Hx'.
    apply list_elem_of_split in Hx' as (A & B & HL). split; [by eapply Hlast|done]. }
  assert (((0 < i)%nat ∨ ele ∉ ne <$> L) ∨ ∃ x, x ∈ L ∧ na x = a1 ∧ ne x = ele) as Hnext.
  { destruct i as [|i]; [|left; left; lia]. destruct (decide (ele ∈ ne <$> L)); [right; by apply Hfound|left; by right]. }
  inversion Hp1 as [E1 E2 E3 E4|A x B HL E1 E2]; subst.
  - rewrite Z.eqb_refl. destruct Hnext as [Hnext|(x & Hx & Ex & _)].
    + by apply (IH 0 (header z) rest1 (zlevel z)); try done; lia.
    + exfalso. apply Hhd. rewrite <-Ex. by apply list_elem_of_fmap_2.
  - assert (x ∈ A ++ x :: rest1) as Hx by (apply elem_of_app; right; by left).
    rewrite (proj2 (Z.eqb_neq _ _)) by (intros Ex; apply Hhd; rewrite <-Ex; by apply list_elem_of_fmap_2).
    rewrite (rep_nodes _ _ Hr x Hx). cbn [mbind option_bind snd]. destruct (Z.eqb_spec (sdscmp (ne x) ele) 0) as [Es|Es].
    + apply (proj2 (sdscmp_spec _ _)) in Es. rewrite bool_decide_eq_true_2; [by rewrite (Hele A x rest1 eq_refl Es)|].
      rewrite <-Es. by apply list_elem_of_fmap_2.
    + destruct Hnext as [Hnext|(y & Hy & Ey & Hye)].
      * by apply (IH (zlen A + 1) (na x) rest1 (nh x)); try done; lia.
      * exfalso. apply Es, (proj2 (sdscmp_spec _ _)).
        pose proof (rep_nodes _ _ Hr y Hy) as H1. rewrite Ey, (rep_nodes _ _ Hr x Hx) in H1. congruence.
Qed.

(** The rank of an element given with its score; 0 without one. *)
Lemma zslGetRank_found z L A x B :
  rep z L → zsorted L → NoDup (ne <$> L) → L = A ++ x :: B → ∀ score, seqb (ns x) score = true →
  zslGetRank z score (ne x) = Some (zlen A + 1).
Proof.
  intros Hr Hs Hnd HL score Hsc. pose proof (rep_level _ _ Hr).
  assert (∀ s e, node_lt (ns x) (ne x) s e = node_lt score (ne x) s e) as Hsame.
  { intros s e. rewrite seqb_spec, andb_true_iff, !negb_true_iff in Hsc. destruct Hsc as [H1 H2].
    apply eq_true_iff_eq. rewrite !node_lt_spec. split; (intros [H3|[H3 H4]]; [left; by eapply nlt_lt_trans|right; split; [by eapply nlt_trans|done]]). }
  unfold zslGetRank. rewrite (rank_loop_spec z L score (ne x) (zlen A + 1) _ 0 (header z) L (zlevel z)); try done.
  - rewrite bool_decide_eq_true_2; [done|]. apply list_elem_of_fmap_2. rewrite HL. apply elem_of_app. right. by left.
  - replace (zlen A + 1) with (zlen (A ++ [x])) by (rewrite length_app; simpl; lia).
    assert (L = (A ++ [x]) ++ B) as HL2 by (by rewrite HL, <-(assoc_L (++))).
    eapply (partition_go (upto score (ne x))); [done|exact HL2| |].
    + rewrite HL2 in Hs. destruct (zsorted_app _ A (x :: B) HL ltac:(by rewrite HL2)) as (_ & _ & Hlt). apply Forall_forall.
      intros y [Hy|Hy%list_elem_of_singleton]%elem_of_app; rewrite upto_spec, negb_true_iff, <-Hsame.
      * specialize (Hlt y x Hy ltac:(by left)). apply not_true_iff_false. intros E.
        pose proof (node_lt_trans _ _ _ _ _ _ E Hlt) as E'. by rewrite node_lt_irrefl in E'.
      * subst y. apply node_lt_irrefl.
    + destruct (zsorted_app _ A (x :: B) HL Hs) as (_ & SB & _). apply StronglySorted_inv in SB as [_ SB].
      eapply Forall_impl; [exact SB|]. intros y Hy. rewrite upto_spec, <-Hsame. by rewrite Hy.
  - apply pos_header.
  - lia.
  - lia.
  - intros A' y B' HL' Hy. rewrite HL in HL'. symmetry in HL'.
    apply split_cases in HL' as [(C & -> & ->)|[(-> & _ & _)|(C & -> & ->)]]; [|done|].
    + exfalso. rewrite HL in Hnd. apply (NoDup_ele_middle (A' ++ y :: C) B x y); [done| |done].
      apply elem_of_app. left. apply elem_of_app. right. by left.
    + exfalso. rewrite HL in Hnd. apply (NoDup_ele_middle A (C ++ y :: B') x y); [done| |done].
      apply elem_of_app. right. apply elem_of_app. right. by left.
  - left. lia.
Qed.

Lemma zslGetRank_absent z L score ele :
  rep z L → zsorted L → ele ∉ ne <$> L → zslGetRank z score ele = Some 0.
Proof.
  intros Hr Hs Hn. pose proof (rep_level _ _ Hr).
  destruct (partition_sorted _ L Hs (upto_closed score ele L)) as (A & B & HL & HA & HB).
  unfold zslGetRank. rewrite (rank_loop_spec z L score ele (zlen A) _ 0 (header z) L (zlevel z)); try done.
  - by rewrite bool_decide_eq_false_2.
  - by eapply (partition_go (upto score ele)).
  - apply pos_header.
  - lia.
  - lia.
  - intros A' x B' HL' Hx. exfalso. apply Hn. rewrite <-Hx. apply list_elem_of_fmap_2. rewrite HL'. apply elem_of_app. right. by left.
  - by right.
Qed.

(** ** The ends of a range *)

(** The common shape of the searches for scores and for lexicographic ranges: [bad] is the
    test for an empty range, [gte] and [lte] are the bounds. *)
Definition is_in z (bad : bool) (gte lte : Sc → bytes → bool) : option bool :=
  if bad then Some false
  else
    t ← score_at z (tail z);
    match t with
    | None => Some false
    | Some (s, e) =>
        if negb (gte s e) then Some false
        else
          f ← next0 z (header z);
          h ← score_at z f;
          match h with
          | None => Some false
          | Some (s, e) => Some (lte s e)
          end
    end.

Lemma score_at_spec z L (p : option (nd Sc)) :
  rep z L → (∀ x, p = Some x → x ∈ L) → score_at z (na <$> p) = Some ((λ x, (ns x, ne x)) <$> p).
Proof. intros Hr Hp. destruct p as [x|]; [|done]. simpl. by rewrite (rep_nodes _ _ Hr x) by (by apply Hp). Qed.

Lemma partition_unique (p : Sc → bytes → bool) A B A' B' :
  Forall (λ x, p (ns x) (ne x) = true) A → A ++ B = A' ++ B' → Forall (λ x, p (ns x) (ne x) = true) A' →
  Forall (λ x, p (ns x) (ne x) = false) B → Forall (λ x, p (ns x) (ne x) = false) B' → A = A'.
Proof.
  intros HA E HA' HB HB'. apply app_eq_inv in E as [(k & -> & ->)|(k & -> & ->)]; destruct k as [|y k]; rewrite ?app_nil_r; try done; exfalso.
  - apply Forall_app in HA as [_ [? _]%Forall_cons], HB' as [[? _]%Forall_cons _]. congruence.
  - apply Forall_app in HA' as [_ [? _]%Forall_cons], HB as [[? _]%Forall_cons _]. congruence.
Qed.

Section Ends.

Context (z : zskiplist Sc) (L : list (nd Sc)) (bad : bool) (gte lte : Sc → bytes → bool).
Context (Hr : rep z L) (Hs : zsorted L).
Context (Hgte : down_closed (λ s e, negb (gte s e)) L) (Hlte : down_closed lte L).
Context (Hbad : bad = true → ∀ s e, gte s e = true → lte s e = true → False).

Definition inside (x : nd Sc) : Prop := gte (ns x) (ne x) && lte (ns x) (ne x) = true.

#[global] Instance inside_dec x : Decision (inside x) := decide (gte (ns x) (ne x) && lte (ns x) (ne x) = true).

Lemma ends_split :
  ∃ A D C, L = A ++ D ++ C ∧ Forall (λ x, gte (ns x) (ne x) = false) A ∧
    Forall (λ x, gte (ns x) (ne x) = true) (D ++ C) ∧
    Forall (λ x, lte (ns x) (ne x) = true) D ∧ Forall (λ x, lte (ns x) (ne x) = false) C ∧
    filter inside L = D.
Proof.
  destruct (range_split _ _ L Hs Hgte Hlte) as (A & D & C & HL & HA & HDC & HqD & HqC).
  exists A, D, C. split; [done|]. split; [eapply Forall_impl; [exact HA|]; intros x; apply negb_true_iff|].
  split; [eapply Forall_impl; [exact HDC|]; intros x; apply negb_false_iff|]. split; [done|]. split; [done|].
  destruct (range_filter (λ s e, negb (gte s e)) lte A D C HA HDC HqD HqC) as [E _].
  etransitivity; [|exact E]. rewrite HL. apply list_filter_iff. intros x. unfold inside, between. by rewrite negb_involutive.
Qed.

(** The test is exact when something is in the range, and never wrong when it says no. *)
Lemma is_in_spec :
  ∃ b, is_in z bad gte lte = Some b ∧ (b = false → filter inside L = []) ∧
    (b = true → ∃ y, last L = Some y ∧ gte (ns y) (ne y) = true) ∧
    (b = true → ∃ y, head L = Some y ∧ lte (ns y) (ne y) = true).
Proof.
  unfold is_in. destruct bad eqn:Eb.
  { exists false. split; [done|]. split; [|done]. intros _. apply filter_none, Forall_forall. intros x _.
    unfold inside. rewrite andb_true_iff. intros [? ?]. by eapply Hbad. }
  destruct ends_split as (A & D & C & HL & HA & HDC & HD & HC & HF).
  rewrite (rep_tail _ _ Hr), (score_at_spec z L (last L) Hr) by (intros x Hx; by apply last_Some_elem_of).
  cbn [mbind option_bind].
  assert (next0 z (header z) = Some (na <$> head L)) as Eh by (apply (next0_spec z L [] L (header z) L (zlevel z) Hr eq_refl), pos_header).
  rewrite Eh. destruct (last L) as [y|] eqn:El; cbn [fmap option_fmap option_map].
  2:{ exists false. split; [done|]. split; [|done]. intros _. apply last_None in El. rewrite El in HF |- *. done. }
  destruct (gte (ns y) (ne y)) eqn:Ey; cbn [negb].
  2:{ exists false. split; [done|]. split; [|done]. intros _. rewrite HF.
      destruct C as [|c C _] using rev_ind; [destruct D as [|d D _] using rev_ind; [done|]|]; exfalso;
        rewrite Forall_forall in HDC; rewrite HL in El; rewrite ?app_nil_r, ?(assoc_L (++)), last_snoc in El; injection El as ->;
        rewrite HDC in Ey; [done| |done|]; rewrite ?app_nil_r; repeat (apply elem_of_app; right); by left. }
  cbn [mbind option_bind]. rewrite (score_at_spec z L (head L) Hr).
  2:{ intros x Hx. destruct L as [|? ?]; [done|]. injection Hx as ->. by left. }
  cbn [mbind option_bind]. destruct (head L) as [w|] eqn:Ew; cbn [fmap option_fmap option_map].
  2:{ apply head_None in Ew. by rewrite Ew in El. }
  exists (lte (ns w) (ne w)). split; [done|]. split; [|split; eauto].
  intros Hw. rewrite HF. destruct D as [|d D]; [done|]. exfalso.
  assert (lte (ns w) (ne w) = true) as Hw'; [|congruence].
  assert (lte (ns d) (ne d) = true) as Hd by (rewrite Forall_forall in HD; apply HD; by left).
  destruct A as [|a A]; [rewrite HL in Ew; injection Ew as ->; done|]. rewrite HL in Ew. injection Ew as ->.
  apply (Hlte w d); [rewrite HL; by left|rewrite HL; apply elem_of_app; right; by left| |done].
  rewrite HL in Hs. destruct (zsorted_app _ (w :: A) ((d :: D) ++ C) eq_refl Hs) as (_ & _ & Hlt). apply Hlt; by left.
Qed.

(** The first node that is not below the minimum. *)
Lemma first_spec go :
  (∀ r s e, go r s e = negb (gte s e)) → (∃ y, last L = Some y ∧ gte (ns y) (ne y) = true) →
  ∃ u rank update x, search_from_header z go = Some (u, rank, update) ∧ next0 z u = Some (Some (na x)) ∧ x ∈ L ∧
    (if lte (ns x) (ne x) then Some x else None) = head (filter inside L).
Proof.
  intros Hgo (y & Hy & Hgy). destruct ends_split as (A & D & C & HL & HA & HDC & HD & HC & HF).
  destruct (search_header z L go (zlen A) Hr) as (u & update & rest & h & E & _ & _ & _ & Hpos).
  { eapply (partition_go (λ s e, negb (gte s e)) go L A (D ++ C)); [done|done| |];
      (eapply Forall_impl; [eassumption|]; intros x Hx; by rewrite Hx). }
  pose proof (next0_spec z L A (D ++ C) u rest h Hr HL Hpos) as En.
  destruct (D ++ C) as [|x rest'] eqn:EDC.
  { exfalso. rewrite HL, app_nil_r in Hy. rewrite Forall_forall in HA. apply last_Some_elem_of, HA in Hy. congruence. }
  exists u, (zlen A), update, x. split; [done|]. split; [done|]. split; [rewrite HL; apply elem_of_app; right; by left|].
  rewrite HF. destruct D as [|d D]; cbn [app] in EDC.
  - subst C. apply Forall_cons in HC as [-> _]. done.
  - injection EDC as -> _. apply Forall_cons in HD as [-> _]. done.
Qed.

(** The last node that is not above the maximum. *)
Lemma last_spec go :
  (∀ r s e, go r s e = lte s e) → (∃ y, head L = Some y ∧ lte (ns y) (ne y) = true) →
  ∃ rank update x, search_from_header z go = Some (na x, rank, update) ∧ x ∈ L ∧
    (if gte (ns x) (ne x) then Some x else None) = last (filter inside L).
Proof.
  intros Hgo (y & Hy & Hly). destruct ends_split as (A & D & C & HL & HA & HDC & HD & HC & HF).
  destruct (partition_sorted lte L Hs Hlte) as (A2 & C2 & HL2 & HA2 & HC2).
  destruct (search_header z L go (zlen A2) Hr) as (u & update & rest & h & E & _ & _ & _ & Hpos).
  { by eapply (partition_go lte). }
  destruct A2 as [|x A2 _] using rev_ind.
  { exfalso. cbn [app] in HL2. rewrite HL2 in Hy. destruct C2 as [|? C2]; [done|]. injection Hy as ->. apply Forall_cons in HC2 as [? _]. congruence. }
  assert (L = A2 ++ x :: C2) as HLx by (by rewrite HL2, <-(assoc_L (++))).
  assert (u = na x) as ->.
  { rewrite length_app in Hpos. cbn [length] in Hpos. replace (Z.of_nat (length A2 + 1)) with (zlen A2 + 1) in Hpos by lia.
    destruct (pos_addr _ _ _ _ _ _ Hpos) as [H1 _], (pos_addr _ _ _ _ _ _ (pos_node z L A2 x C2 HLx)) as [H2 _]. congruence. }
  exists (zlen (A2 ++ [x])), update, x. split; [done|]. split; [rewrite HLx; apply elem_of_app; right; by left|].
  assert (lte (ns x) (ne x) = true) as Hx.
  { rewrite Forall_forall in HA2. apply HA2, elem_of_app. right. by left. }
  destruct D as [|d D _] using rev_ind.
  - rewrite HF. destruct (gte (ns x) (ne x)) eqn:Eg; [|done]. exfalso.
    assert (x ∈ filter inside L) as Hin; [|by rewrite HF in Hin; apply not_elem_of_nil in Hin].
    apply list_elem_of_filter. split; [unfold inside; by rewrite Eg, Hx|]. rewrite HLx. apply elem_of_app. right. by left.
  - assert (A ++ D ++ [d] = A2 ++ [x]) as EA.
    { eapply (partition_unique lte _ C _ C2); [|rewrite <-HL2, HL; by rewrite <-!(assoc_L (++))|done|exact HC|exact HC2].
      apply Forall_app. split; [|exact HD]. apply Forall_forall. intros w Hw.
      apply (Hlte w d); [rewrite HL; apply elem_of_app; by left|rewrite HL; apply elem_of_app; right; apply elem_of_app; left; apply elem_of_app; right; by left| |].
      - rewrite HL in Hs. destruct (zsorted_app _ A ((D ++ [d]) ++ C) eq_refl Hs) as (_ & _ & Hlt).
        apply Hlt; [done|]. apply elem_of_app. left. apply elem_of_app. right. by left.
      - rewrite Forall_forall in HD. apply HD, elem_of_app. right. by left. }
    rewrite (assoc_L (++)) in EA. apply app_inj_tail in EA as [_ ->]. rewrite HF, last_snoc.
    assert (gte (ns x) (ne x) = true) as ->; [|done].
    rewrite Forall_forall in HDC. apply HDC. apply elem_of_app. left. apply elem_of_app. right. by left.
Qed.

End Ends.

(** Empty ranges are recognized. *)
Lemma bad_range (r : zrangespec Sc) s :
  sgt (rmin r) (rmax r) || (seqb (rmin r) (rmax r) && (minex r || maxex r)) = true →
  zslValueGteMin s r = true → zslValueLteMax s r = true → False.
Proof.
  unfold zslValueGteMin, zslValueLteMax, sgt. rewrite sge_slt, sle_slt, seqb_spec, orb_true_iff, !andb_true_iff, !negb_true_iff.
  intros Hb Hmin Hmax.
  assert (slt s (rmin r) = false) as H1 by (destruct (minex r); [by apply slt_asym|by apply negb_true_iff]).
  assert (slt (rmax r) s = false) as H2 by (destruct (maxex r); [by apply slt_asym|by apply negb_true_iff]).
  destruct Hb as [Hb|[[Hb1 Hb2] He]].
  - pose proof (nlt_lt_trans _ _ _ H2 Hb). congruence.
  - destruct (minex r); [pose proof (lt_nlt_trans _ _ _ Hmin H2); congruence|].
    destruct (maxex r); [|done]. pose proof (nlt_lt_trans _ _ _ H1 Hmax). congruence.
Qed.

Lemma bad_lex_range (r : zlexrangespec) e :
  (0 <? sdscmplex (lmin r) (lmax r)) || ((sdscmplex (lmin r) (lmax r) =? 0) && (lminex r || lmaxex r)) = true →
  zslLexValueGteMin e r = true → zslLexValueLteMax e r = true → False.
Proof.
  unfold zslLexValueGteMin, zslLexValueLteMax. rewrite orb_true_iff, andb_true_iff, Z.ltb_lt, Z.eqb_eq.
  destruct (lmin r) as [| |m], (lmax r) as [| |m']; simpl;
    try (destruct (lminex r); simpl; done); try (destruct (lmaxex r); simpl; done); try (intros [?|[? ?]]; lia).
  intros Hb Hmin Hmax.
  assert (0 ≤ sdscmp e m) as H1 by (destruct (lminex r); [apply Z.ltb_lt in Hmin|apply Z.leb_le in Hmin]; lia).
  assert (sdscmp e m' ≤ 0) as H2 by (destruct (lmaxex r); [apply Z.ltb_lt in Hmax|apply Z.leb_le in Hmax]; lia).
  destruct Hb as [Hb%sdscmp_pos|[Hb He]].
  - destruct (lex_lt_total e m') as [H|[-> |H%sdscmp_pos]]; [| |lia].
    + pose proof (lex_lt_trans _ _ _ H Hb) as H'. apply (proj1 (sdscmp_spec e m)) in H'. lia.
    + apply (proj1 (sdscmp_spec m' m)) in Hb. lia.
  - apply (proj2 (sdscmp_spec m m')) in Hb. subst m'.
    destruct (lminex r); [apply Z.ltb_lt in Hmin; lia|]. destruct (lmaxex r); [apply Z.ltb_lt in Hmax; lia|done].
Qed.

Lemma ends_none {T} (P : T → Prop) `{∀ x, Decision (P x)} (l : list T) : filter P l = [] → head (filter P l) = None ∧ last (filter P l) = None.
Proof. by intros ->. Qed.

Lemma zslRange_ends z L r :
  rep z L → zsorted L →
  zslFirstInRange z r = Some (na <$> head (filter (λ x, in_range r (ns x) = true) L)) ∧
  zslLastInRange z r = Some (na <$> last (filter (λ x, in_range r (ns x) = true) L)).
Proof.
  intros Hr Hs.
  set (bad := sgt (rmin r) (rmax r) || (seqb (rmin r) (rmax r) && (minex r || maxex r))).
  set (gte := λ (s : Sc) (_ : bytes), zslValueGteMin s r). set (lte := λ (s : Sc) (_ : bytes), zslValueLteMax s r).
  assert (down_closed (λ s e, negb (gte s e)) L) as Hg by apply below_min_closed.
  assert (down_closed lte L) as Hl by apply upto_max_closed.
  assert (filter (λ x, in_range r (ns x) = true) L = filter (inside gte lte) L) as -> by (by apply list_filter_iff).
  destruct (is_in_spec z L bad gte lte Hr Hs Hg Hl) as (b & E & Hno & Hlast & Hhead); [intros ? ? ?; by apply bad_range|].
  unfold zslFirstInRange, zslLastInRange. change (zslIsInRange z r) with (is_in z bad gte lte). rewrite E.
  cbn [mbind option_bind]. destruct b; cbn [negb].
  2:{ destruct (ends_none _ _ (Hno eq_refl)) as [E1 E2]. by rewrite E1, E2. }
  split.
  - destruct (first_spec z L gte lte Hr Hs Hg Hl (λ _ s _, negb (zslValueGteMin s r))) as (u & rank & update & x & -> & En & Hx & Ex); [done|by apply Hlast|].
    cbn [mbind option_bind]. rewrite En. cbn [mbind option_bind]. rewrite (rep_nodes _ _ Hr x Hx). cbn [mbind option_bind].
    rewrite <-Ex. unfold lte. by destruct (zslValueLteMax (ns x) r).
  - destruct (last_spec z L gte lte Hr Hs Hg Hl (λ _ s _, zslValueLteMax s r)) as (rank & update & x & -> & Hx & Ex); [done|by apply Hhead|].
    cbn [mbind option_bind]. rewrite (rep_nodes _ _ Hr x Hx). cbn [mbind option_bind].
    rewrite <-Ex. unfold gte. by destruct (zslValueGteMin (ns x) r).
Qed.

Lemma zslLexRange_ends z L r :
  rep z L → zsorted L → flat L →
  zslFirstInLexRange z r = Some (na <$> head (filter (λ x, in_lex_range r (ne x) = true) L)) ∧
  zslLastInLexRange z r = Some (na <$> last (filter (λ x, in_lex_range r (ne x) = true) L)).
Proof.
  intros Hr Hs Hf.
  set (bad := (0 <? sdscmplex (lmin r) (lmax r)) || ((sdscmplex (lmin r) (lmax r) =? 0) && (lminex r || lmaxex r))).
  set (gte := λ (_ : Sc) (e : bytes), zslLexValueGteMin e r). set (lte := λ (_ : Sc) (e : bytes), zslLexValueLteMax e r).
  assert (down_closed (λ s e, negb (gte s e)) L) as Hg by (by apply lex_below_min_closed).
  assert (down_closed lte L) as Hl by (by apply lex_upto_max_closed).
  assert (filter (λ x, in_lex_range r (ne x) = true) L = filter (inside gte lte) L) as -> by (by apply list_filter_iff).
  destruct (is_in_spec z L bad gte lte Hr Hs Hg Hl) as (b & E & Hno & Hlast & Hhead); [intros ? ? ?; by apply bad_lex_range|].
  unfold zslFirstInLexRange, zslLastInLexRange. change (zslIsInLexRange z r) with (is_in z bad gte lte). rewrite E.
  cbn [mbind option_bind]. destruct b; cbn [negb].
  2:{ destruct (ends_none _ _ (Hno eq_refl)) as [E1 E2]. by rewrite E1, E2. }
  split.
  - destruct (first_spec z L gte lte Hr Hs Hg Hl (λ _ _ e, negb (zslLexValueGteMin e r))) as (u & rank & update & x & -> & En & Hx & Ex); [done|by apply Hlast|].
    cbn [mbind option_bind]. rewrite En. cbn [mbind option_bind]. rewrite (rep_nodes _ _ Hr x Hx). cbn [mbind option_bind].
    rewrite <-Ex. unfold lte. by destruct (zslLexValueLteMax (ne x) r).
  - destruct (last_spec z L gte lte Hr Hs Hg Hl (λ _ _ e, zslLexValueLteMax e r)) as (rank & update & x & -> & Hx & Ex); [done|by apply Hhead|].
    cbn [mbind option_bind]. rewrite (rep_nodes _ _ Hr x Hx). cbn [mbind option_bind].
    rewrite <-Ex. unfold gte. by destruct (zslLexValueGteMin (ne x) r).
Qed.

(** ** ZRANGE *)

Lemma emit_forward z L : ∀ n A B,
  rep z L → L = A ++ B → (n ≤ length B)%nat → emit n z false (na <$> head B) = Some (abs (take n B)).
Proof.
  induction n as [|n IH]; intros A B Hr HL Hn; [done|]. destruct B as [|x B]; [simpl in Hn; lia|].
  cbn [emit head fmap option_fmap option_map mbind option_bind].
  rewrite (rep_nodes _ _ Hr x) by (rewrite HL; apply elem_of_app; right; by left). cbn [mbind option_bind].
  rewrite (next0_node z L A x B Hr HL). cbn [mbind option_bind].
  rewrite (IH (A ++ [x]) B Hr); [done|by rewrite HL, <-(assoc_L (++))|simpl in Hn; lia].
Qed.

Lemma emit_backward z L : ∀ n A B,
  rep z L → L = A ++ B → (n ≤ length A)%nat → emit n z true (na <$> last A) = Some (abs (take n (reverse A))).
Proof.
  induction n as [|n IH]; intros A B Hr HL Hn; [done|]. destruct A as [|x A _] using rev_ind; [simpl in Hn; lia|].
  rewrite last_snoc. cbn [emit fmap option_fmap option_map mbind option_bind].
  assert (L = A ++ x :: B) as HL2 by (by rewrite HL, <-(assoc_L (++))).
  rewrite (rep_nodes _ _ Hr x) by (rewrite HL2; apply elem_of_app; right; by left). cbn [mbind option_bind].
  rewrite (rep_backward _ _ Hr A x B HL2). cbn [mbind option_bind].
  rewrite (IH A (x :: B) Hr HL2); [|rewrite length_app in Hn; simpl in Hn; lia].
  cbn [mbind option_bind]. rewrite reverse_snoc. done.
Qed.

(** An index counted from the end when it is negative. *)
Definition norm_index (n i : Z) : Z := if i <? 0 then n + i else i.

(** The elements from index [start] to index [end_], both included. *)
Definition a_range {T} (start end_ : Z) (l : list T) : list T :=
  let lo := Z.max 0 (norm_index (zlen l) start) in
  let hi := norm_index (zlen l) end_ in
  take (Z.to_nat (hi - lo + 1)) (drop (Z.to_nat lo) l).

Lemma reverse_take {T} (l : list T) k : (k ≤ length l)%nat → reverse (take (length l - k) l) = drop k (reverse l).
Proof.
  intros Hk. rewrite <-(take_drop (length l - k) l) at 3. rewrite reverse_app, drop_app_length'; [done|].
  rewrite length_reverse, length_drop. lia.
Qed.

Lemma last_take {T} (l : list T) (k : nat) : (0 < k ≤ length l)%nat → last (take k l) = l !! (k - 1)%nat.
Proof.
  intros Hk. rewrite last_lookup, length_take. replace (Init.Nat.pred (k `min` length l)) with (k - 1)%nat by lia.
  apply lookup_take_lt. lia.
Qed.

Lemma zrange_spec z L start end_ (rev : bool) :
  rep z L → zrange z start end_ rev = Some (abs (a_range start end_ (if rev then reverse L else L))).
Proof.
  intros Hr. unfold zrange, sane_range, a_range. rewrite (rep_length _ _ Hr). set (n := zlen L).
  assert (zlen (if rev then reverse L else L) = n) as En by (destruct rev; by rewrite ?length_reverse). rewrite En.
  unfold norm_index. set (lo0 := if start <? 0 then _ else _). set (hi := if end_ <? 0 then _ else _).
  assert ((if lo0 <? 0 then 0 else lo0) = Z.max 0 lo0) as -> by (destruct (Z.ltb_spec lo0 0); lia).
  set (lo := Z.max 0 lo0). cbv zeta. destruct (Z.ltb_spec hi lo) as [Hhi|Hhi]; cbn [orb].
  { by rewrite Z2Nat.nonpos by lia. }
  destruct (Z.leb_spec n lo) as [Hlo|Hlo].
  { rewrite drop_ge by lia. by rewrite take_nil. }
  assert (∀ B : list (nd Sc), zlen B = n - lo →
    take (Z.to_nat ((if n <=? hi then n - 1 else hi) - lo + 1)) B = take (Z.to_nat (hi - lo + 1)) B) as Hclamp.
  { intros B HB. destruct (Z.leb_spec n hi); [|done]. rewrite !take_ge; [done|lia|lia]. }
  set (len := Z.to_nat ((if n <=? hi then n - 1 else hi) - lo + 1)) in *.
  assert (Z.of_nat len ≤ n - lo) as Hlen by (unfold len; destruct (Z.leb_spec n hi); lia).
  destruct rev.
  - assert ((if 0 <? lo then zslGetElementByRank z (n - lo) else Some (tail z)) = Some (na <$> last (take (length L - Z.to_nat lo) L))) as ->.
    { destruct (Z.ltb_spec 0 lo).
      - rewrite (zslGetElementByRank_spec z L) by (done || lia). rewrite last_take by lia. do 3 f_equal. lia.
      - replace (length L - Z.to_nat lo)%nat with (length L) by lia. by rewrite take_ge, (rep_tail _ _ Hr) by lia. }
    cbn [mbind option_bind]. rewrite (emit_backward z L len _ (drop (length L - Z.to_nat lo) L) Hr).
    + rewrite reverse_take by lia. rewrite Hclamp; [done|]. rewrite length_drop, length_reverse. lia.
    + by rewrite take_drop.
    + rewrite length_take. lia.
  - assert ((if 0 <? lo then zslGetElementByRank z (lo + 1) else next0 z (header z)) = Some (na <$> head (drop (Z.to_nat lo) L))) as ->.
    { destruct (Z.ltb_spec 0 lo).
      - rewrite (zslGetElementByRank_spec z L) by (done || lia). rewrite head_lookup, lookup_drop. do 3 f_equal. lia.
      - replace (Z.to_nat lo) with 0%nat by lia. rewrite drop_0.
        apply (next0_spec z L [] L (header z) L (zlevel z) Hr eq_refl), pos_header. }
    cbn [mbind option_bind]. rewrite (emit_forward z L len (take (Z.to_nat lo) L) _ Hr).
    + rewrite Hclamp; [done|]. rewrite length_drop. lia.
    + by rewrite take_drop.
    + rewrite length_drop. lia.
Qed.

End Range.
