(* ===== verification/SkiplistSpec.v ===== *)
(** The skiplist as an abstract sorted list: a machine whose state is the list of the
    scores and elements in order, and the refinement theorem for sequences of operations. *)

From stdpp Require Import gmap strings.
From S2P Require Import Prelude Util SdsText Skiplist SkiplistRange.

(** The operations a client of the list performs. *)
Inductive zop (Sc : Type) :=
  | ZInsert (rs : list Z) (s : Sc) (e : bytes)
  | ZDelete (s : Sc) (e : bytes)
  | ZUpdate (rs : list Z) (cur : Sc) (e : bytes) (new : Sc)
  | ZRank (s : Sc) (e : bytes)
  | ZByRank (rank : Z)
  | ZFirst (r : zrangespec Sc)
  | ZLast (r : zrangespec Sc)
  | ZFirstLex (r : zlexrangespec)
  | ZLastLex (r : zlexrangespec)
  | ZRange (start end_ : Z) (rev : bool)
  | ZRemScore (r : zrangespec Sc)
  | ZRemRank (start end_ : Z)
  | ZRemLex (r : zlexrangespec).

Inductive zout (Sc : Type) :=
  | ODone
  | OBool (b : bool)
  | ORank (n : Z)
  | ONode (n : option (Sc * bytes))
  | OList (l : list (Sc * bytes))
  | ORemoved (l : list bytes).

Arguments ZInsert {Sc}. Arguments ZDelete {Sc}. Arguments ZUpdate {Sc}. Arguments ZRank {Sc}. Arguments ZByRank {Sc}.
Arguments ZFirst {Sc}. Arguments ZLast {Sc}. Arguments ZFirstLex {Sc}. Arguments ZLastLex {Sc}. Arguments ZRange {Sc}.
Arguments ZRemScore {Sc}. Arguments ZRemRank {Sc}. Arguments ZRemLex {Sc}.
Arguments ODone {Sc}. Arguments OBool {Sc}. Arguments ORank {Sc}. Arguments ONode {Sc}. Arguments OList {Sc}.
Arguments ORemoved {Sc}.

Section Machine.

Context {Sc : Type} `{!ScoreOrder Sc}.

Implicit Types l : list (Sc * bytes).

(** An operation on the list, a new node being allocated at [a]. *)
Definition z_step (a : addr) (z : zskiplist Sc) (op : zop Sc) : option (zskiplist Sc * zout Sc) :=
  let node (p : option (option addr)) := x ← p; n ← score_at z x; Some (z, ONode n) in
  let removed (p : option (zskiplist Sc * list bytes)) := '(z, r) ← p; Some (z, ORemoved r) in
  match op with
  | ZInsert rs s e => z ← zslInsert z rs a s e; Some (z, ODone)
  | ZDelete s e => '(z, b) ← zslDelete z s e; Some (z, OBool b)
  | ZUpdate rs cur e new => '(z, _) ← zslUpdateScore z rs a cur e new; Some (z, ODone)
  | ZRank s e => n ← zslGetRank z s e; Some (z, ORank n)
  | ZByRank rank => node (zslGetElementByRank z rank)
  | ZFirst r => node (zslFirstInRange z r)
  | ZLast r => node (zslLastInRange z r)
  | ZFirstLex r => node (zslFirstInLexRange z r)
  | ZLastLex r => node (zslLastInLexRange z r)
  | ZRange start end_ rev => l ← zrange z start end_ rev; Some (z, OList l)
  | ZRemScore r => removed (zslDeleteRangeByScore z r)
  | ZRemRank start end_ => removed (zslDeleteRangeByRank z start end_)
  | ZRemLex r => removed (zslDeleteRangeByLex z r)
  end.

(** What the callers guarantee: an element is inserted once, an updated one is there with
    its score, ranks are counted from 1, lexicographic ranges are asked of equal scores. *)
Definition a_flat l : bool := forallb (λ p, forallb (λ q, negb (slt p.1 q.1)) l) l.

Definition a_pre l (op : zop Sc) : bool :=
  match op with
  | ZInsert _ _ e => bool_decide (e ∉ l.*2)
  | ZUpdate _ cur e _ => existsb (a_same cur e) l
  | ZRank s e => existsb (a_same s e) l || bool_decide (e ∉ l.*2)
  | ZByRank rank => 1 <=? rank
  | ZRemRank start _ => 1 <=? start
  | ZFirstLex _ | ZLastLex _ | ZRemLex _ => a_flat l
  | _ => true
  end.

(** The position of an element, from 1; 0 without it. *)
Fixpoint a_rank (s : Sc) (e : bytes) l : Z :=
  match l with
  | [] => 0
  | p :: l =>
      if a_same s e p then 1
      else let n := a_rank s e l in if n =? 0 then 0 else n + 1
  end.

Definition a_select (f : Sc → bytes → bool) (b : bool) l : list (Sc * bytes) := filter (λ p, f p.1 p.2 = b) l.

Definition a_step l (op : zop Sc) : list (Sc * bytes) * zout Sc :=
  let remove (f : Sc → bytes → bool) := (a_select f false l, ORemoved (a_select f true l).*2) in
  match op with
  | ZInsert _ s e => (a_insert s e l, ODone)
  | ZDelete s e => (a_delete s e l, OBool (existsb (a_same s e) l))
  | ZUpdate _ cur e new => (a_insert new e (a_delete cur e l), ODone)
  | ZRank s e => (l, ORank (a_rank s e l))
  | ZByRank rank => (l, ONode (l !! Z.to_nat (rank - 1)))
  | ZFirst r => (l, ONode (head (a_select (λ s _, in_range r s) true l)))
  | ZLast r => (l, ONode (last (a_select (λ s _, in_range r s) true l)))
  | ZFirstLex r => (l, ONode (head (a_select (λ _ e, in_lex_range r e) true l)))
  | ZLastLex r => (l, ONode (last (a_select (λ _ e, in_lex_range r e) true l)))
  | ZRange start end_ rev => (l, OList (a_range start end_ (if rev then reverse l else l)))
  | ZRemScore r => remove (λ s _, in_range r s)
  | ZRemLex r => remove (λ _ e, in_lex_range r e)
  | ZRemRank start end_ =>
      let k := Z.to_nat (start - 1) in
      let n := Z.to_nat (end_ - (start - 1)) in
      (take k l ++ drop n (drop k l), ORemoved (take n (drop k l)).*2)
  end.

(** Sequences of operations; [alloc] gives the address of the node of each. *)
Fixpoint z_run (alloc : nat → zskiplist Sc → addr) (n : nat) (z : zskiplist Sc) (ops : list (zop Sc))
    : option (zskiplist Sc * list (zout Sc)) :=
  match ops with
  | [] => Some (z, [])
  | op :: ops =>
      '(z, o) ← z_step (alloc n z) z op;
      '(z, os) ← z_run alloc (S n) z ops;
      Some (z, o :: os)
  end.

Fixpoint a_run l (ops : list (zop Sc)) : option (list (Sc * bytes) * list (zout Sc)) :=
  match ops with
  | [] => Some (l, [])
  | op :: ops =>
      if a_pre l op then
        let '(l, o) := a_step l op in
        '(l, os) ← a_run l ops;
        Some (l, o :: os)
      else None
  end.

(** Order of the abstract list. *)
Definition a_lt (p q : Sc * bytes) : Prop := node_lt p.1 p.2 q.1 q.2 = true.

End Machine.

Section Refinement.

Context {Sc : Type} `{!ScoreOrder Sc} `{!ScoreLaws Sc}.

Implicit Types z : zskiplist Sc.
Implicit Types l : list (Sc * bytes).
Implicit Types L : list (nd Sc).

Lemma abs_select (f : Sc → bytes → bool) b L : abs (filter (λ x, f (ns x) (ne x) = b) L) = a_select f b (abs L).
Proof.
  unfold abs, a_select. induction L as [|x L IH]; [done|]. rewrite fmap_cons, !filter_cons. cbn [fst snd].
  destruct (decide (f (ns x) (ne x) = b)); [rewrite fmap_cons|]; by rewrite IH.
Qed.

Lemma abs_elements L : (abs L).*2 = ne <$> L.
Proof. unfold abs. rewrite <-list_fmap_compose. done. Qed.

Lemma existsb_same s e L : existsb (a_same s e) (abs L) = true ↔ ∃ x, x ∈ L ∧ same_elem x s e.
Proof.
  rewrite existsb_exists. split.
  - intros (p & Hp & E). apply list_elem_of_In, list_elem_of_fmap_1 in Hp as (x & -> & Hx). exists x. split; [done|]. by apply a_same_spec.
  - intros (x & Hx & E). exists (ns x, ne x). split; [|by apply a_same_spec]. apply list_elem_of_In.
    by apply (list_elem_of_fmap_2 (λ x : nd Sc, (ns x, ne x))).
Qed.

Lemma a_flat_spec L : a_flat (abs L) = true → flat L.
Proof.
  unfold a_flat. rewrite forallb_forall. intros H x y Hx Hy.
  assert (∀ w, w ∈ L → In (ns w, ne w) (abs L)) as Hin.
  { intros w Hw. apply list_elem_of_In. by apply (list_elem_of_fmap_2 (λ x : nd Sc, (ns x, ne x))). }
  specialize (H _ (Hin x Hx)). rewrite forallb_forall in H. specialize (H _ (Hin y Hy)). by apply negb_true_iff in H.
Qed.

Lemma a_rank_absent s e l : e ∉ l.*2 → a_rank s e l = 0.
Proof.
  induction l as [|p l IH]; [done|]. rewrite fmap_cons, not_elem_of_cons. intros [H1 H2]. cbn [a_rank].
  unfold a_same. rewrite bool_decide_eq_false_2, andb_false_r, IH by congruence. done.
Qed.

Lemma a_rank_found s e (A B : list (nd Sc)) x :
  same_elem x s e → NoDup (ne <$> A ++ x :: B) → a_rank s e (abs (A ++ x :: B)) = zlen A + 1.
Proof.
  intros Hx. induction A as [|y A IH]; intros Hnd.
  - cbn. by rewrite (proj2 (a_same_spec x s e) Hx).
  - cbn [app] in *. rewrite fmap_cons in Hnd. apply NoDup_cons in Hnd as [Hy Hnd]. unfold abs. rewrite fmap_cons.
    cbn [a_rank]. fold (abs (A ++ x :: B)). rewrite (IH Hnd).
    assert (a_same s e (ns y, ne y) = false) as ->.
    { apply not_true_iff_false. rewrite a_same_spec. intros [_ Hye]. apply Hy. destruct Hx as [_ Hxe].
      rewrite Hye, <-Hxe. apply list_elem_of_fmap_2, elem_of_app. right. by left. }
    rewrite (proj2 (Z.eqb_neq _ _)) by lia. cbn [length]. lia.
Qed.

(** The heap represents the abstract list. *)
Definition represents z l : Prop := ∃ L, rep z L ∧ zsorted L ∧ NoDup (ne <$> L) ∧ abs L = l.

Lemma fresh_addr z L a : rep z L → a ≠ header z → nodes z !! a = None → a ∉ header z :: (na <$> L).
Proof.
  intros Hr Hh Hn. apply not_elem_of_cons. split; [done|]. intros (x & -> & Hx)%list_elem_of_fmap_1.
  by rewrite (rep_nodes _ _ Hr x Hx) in Hn.
Qed.

Lemma zsorted_filter (P : nd Sc → Prop) `{∀ x, Decision (P x)} L : zsorted L → zsorted (filter P L).
Proof.
  unfold zsorted. induction 1 as [|x L HL IH Hx]; [constructor|]. rewrite filter_cons. destruct (decide (P x)); [|done].
  constructor; [done|]. apply Forall_forall. intros y [_ Hy]%list_elem_of_filter. rewrite Forall_forall in Hx. by apply Hx.
Qed.

Lemma NoDup_ne_filter (P : nd Sc → Prop) `{∀ x, Decision (P x)} L : NoDup (ne <$> L) → NoDup (ne <$> filter P L).
Proof.
  induction L as [|x L IH]; [done|]. rewrite fmap_cons. intros [Hx Hnd]%NoDup_cons. rewrite filter_cons.
  destruct (decide (P x)); [|by apply IH]. rewrite fmap_cons. apply NoDup_cons. split; [|by apply IH].
  intros (y & E & [_ Hy]%list_elem_of_filter)%list_elem_of_fmap_1. apply Hx. rewrite E. by apply list_elem_of_fmap_2.
Qed.

Lemma removed_represents z' L f :
  rep z' (filter (λ x, f (ns x) (ne x) = false) L) → zsorted L → NoDup (ne <$> L) →
  represents z' (a_select f false (abs L)) ∧ ne <$> filter (λ x, f (ns x) (ne x) = true) L = (a_select f true (abs L)).*2.
Proof.
  intros Hr Hs Hnd. split.
  - eexists. split; [exact Hr|]. split; [by apply zsorted_filter|]. split; [by apply NoDup_ne_filter|]. apply abs_select.
  - by rewrite <-abs_select, abs_elements.
Qed.

Lemma node_out z L (p : option (nd Sc)) :
  rep z L → (∀ x, p = Some x → x ∈ L) →
  (n ← score_at z (na <$> p); Some (z, ONode n)) = Some (z, ONode ((λ x, (ns x, ne x)) <$> p)).
Proof. intros Hr Hp. by rewrite (score_at_spec z L p Hr Hp). Qed.

(** A step of the list that the abstract machine also makes. *)
Definition step_ok (a : addr) z l (op : zop Sc) : Prop :=
  ∃ z', z_step a z op = Some (z', (a_step l op).2) ∧ represents z' (a_step l op).1.

Lemma update_step a z l op :
  represents z l → a_pre l op = true → a ≠ header z → nodes z !! a = None →
  match op with ZInsert _ _ _ | ZDelete _ _ | ZUpdate _ _ _ _ => True | _ => False end → step_ok a z l op.
Proof.
  intros (L & Hr & Hs & Hnd & <-) Hpre Hh Hn Hop. pose proof (fresh_addr z L a Hr Hh Hn) as Hfresh.
  destruct op as [rs s e|s e|rs cur e new| | | | | | | | | |]; try done; unfold step_ok; cbn [z_step a_step fst snd].
  - cbn [a_pre] in Hpre. rewrite bool_decide_eq_true, abs_elements in Hpre.
    destruct (zslInsert_spec z L rs a s e Hr Hs Hfresh) as (z' & A & B & HL & HA & HB & -> & Hr' & Hs' & _).
    { intros x Hx [_ <-]. by apply Hpre, list_elem_of_fmap_2. }
    cbn [mbind option_bind]. exists z'. split; [done|]. eexists. split; [exact Hr'|]. split; [done|].
    rewrite (abs_insert A B (Nd a s e _) HA HB), <-HL. split; [|done].
    rewrite fmap_app, fmap_cons, Permutation_app_comm. cbn [app]. rewrite Permutation_app_comm, <-fmap_app, <-HL. by apply NoDup_cons.
  - destruct (zslDelete_spec z L s e Hr Hs) as (z' & b & -> & _ & Hb). cbn [mbind option_bind]. exists z'. destruct b.
    + destruct Hb as (A & x & B & HL & Hx & Hr' & Hs' & _). rewrite (proj2 (existsb_same s e L)).
      2:{ exists x. split; [|done]. rewrite HL. apply elem_of_app. right. by left. }
      split; [done|]. exists (A ++ B). split; [done|]. split; [done|]. rewrite HL in Hnd, Hs |- *.
      split; [|by apply abs_delete]. by apply (NoDup_drop_middle A [x] B).
    + destruct Hb as [-> Hno].
      assert (existsb (a_same s e) (abs L) = false) as ->.
      { apply not_true_iff_false. rewrite existsb_same. intros (x & Hx & E). by apply (Hno x). }
      split; [done|]. exists L. by rewrite abs_delete_none.
  - cbn [a_pre] in Hpre. apply existsb_same in Hpre as (x & Hx & Hsame).
    destruct (zslUpdateScore_spec z L rs a cur e new x Hr Hs Hnd Hx Hsame Hfresh) as (z' & n & L' & -> & Hr' & Hs' & Hnd' & _ & E & _).
    cbn [mbind option_bind]. exists z'. split; [done|]. by exists L'.
Qed.

Lemma ends_elem (P : nd Sc → Prop) `{∀ x, Decision (P x)} L x :
  head (filter P L) = Some x ∨ last (filter P L) = Some x → x ∈ L.
Proof.
  intros H0. assert (x ∈ filter P L) as Hx; [|by apply list_elem_of_filter in Hx as [_ ?]].
  destruct H0 as [H0|H0]; [|by apply last_Some_elem_of]. destruct (filter P L); [done|]. injection H0 as ->. by left.
Qed.

Lemma abs_head L : (λ x, (ns x, ne x)) <$> head L = head (abs L).
Proof. by destruct L. Qed.

Lemma abs_last L : (λ x, (ns x, ne x)) <$> last L = last (abs L).
Proof. unfold abs. by rewrite fmap_last. Qed.

Lemma abs_range start end_ (rev : bool) L :
  abs (a_range start end_ (if rev then reverse L else L)) = a_range start end_ (if rev then reverse (abs L) else abs L).
Proof.
  unfold abs, a_range. rewrite fmap_take, fmap_drop. destruct rev; rewrite ?fmap_reverse, ?length_reverse, length_fmap; done.
Qed.

Lemma query_step a z l op :
  represents z l → a_pre l op = true →
  match op with
  | ZRank _ _ | ZByRank _ | ZFirst _ | ZLast _ | ZFirstLex _ | ZLastLex _ | ZRange _ _ _ => True
  | _ => False
  end → step_ok a z l op.
Proof.
  intros Hrep Hpre Hop. pose proof Hrep as (L & Hr & Hs & Hnd & <-). exists z.
  destruct op as [| | |s e|rank|r|r|r|r|start end_ rev| | |]; try done; cbn [z_step a_step fst snd a_pre] in *; (split; [|done]).
  - apply orb_true_iff in Hpre as [Hpre|Hpre].
    + apply existsb_same in Hpre as (x & Hx & Hsame). apply list_elem_of_split in Hx as (A & B & ->).
      rewrite (a_rank_found s e A B x Hsame Hnd). destruct Hsame as [Hsc <-].
      by rewrite (zslGetRank_found z (A ++ x :: B) A x B Hr Hs Hnd eq_refl s Hsc).
    + rewrite bool_decide_eq_true in Hpre. rewrite (a_rank_absent _ _ _ Hpre). rewrite abs_elements in Hpre.
      by rewrite (zslGetRank_absent z L s e Hr Hs Hpre).
  - apply Z.leb_le in Hpre. rewrite (zslGetElementByRank_spec z L rank Hr Hpre). cbn [mbind option_bind].
    rewrite (node_out z L) by (done || (intros x Hx; by eapply list_elem_of_lookup_2)).
    unfold abs. by rewrite list_lookup_fmap.
  - rewrite (proj1 (zslRange_ends z L r Hr Hs)). cbn [mbind option_bind].
    rewrite (node_out z L) by (done || (intros x Hx; eapply ends_elem; by left)).
    by rewrite abs_head, (abs_select (λ s _, in_range r s)).
  - rewrite (proj2 (zslRange_ends z L r Hr Hs)). cbn [mbind option_bind].
    rewrite (node_out z L) by (done || (intros x Hx; eapply ends_elem; by right)).
    by rewrite abs_last, (abs_select (λ s _, in_range r s)).
  - apply a_flat_spec in Hpre. rewrite (proj1 (zslLexRange_ends z L r Hr Hs Hpre)). cbn [mbind option_bind].
    rewrite (node_out z L) by (done || (intros x Hx; eapply ends_elem; by left)).
    by rewrite abs_head, (abs_select (λ _ e, in_lex_range r e)).
  - apply a_flat_spec in Hpre. rewrite (proj2 (zslLexRange_ends z L r Hr Hs Hpre)). cbn [mbind option_bind].
    rewrite (node_out z L) by (done || (intros x Hx; eapply ends_elem; by right)).
    by rewrite abs_last, (abs_select (λ _ e, in_lex_range r e)).
  - rewrite (zrange_spec z L start end_ rev Hr), abs_range. done.
Qed.

Lemma remove_step a z l op :
  represents z l → a_pre l op = true →
  match op with ZRemScore _ | ZRemRank _ _ | ZRemLex _ => True | _ => False end → step_ok a z l op.
Proof.
  intros (L & Hr & Hs & Hnd & <-) Hpre Hop.
  destruct op as [| | | | | | | | | |r|start end_|r]; try done; unfold step_ok; cbn [z_step a_step fst snd a_pre] in *.
  - destruct (zslDeleteRangeByScore_spec z L r Hr Hs) as (z' & -> & Hr' & _). cbn [mbind option_bind]. exists z'.
    destruct (removed_represents z' L (λ s _, in_range r s) Hr' Hs Hnd) as [H1 H2]. by rewrite H2.
  - apply Z.leb_le in Hpre.
    destruct (zslDeleteRangeByRank_spec z L start end_ Hr Hpre) as (z' & -> & Hr' & _). cbn [mbind option_bind]. exists z'.
    assert (L = take (Z.to_nat (start - 1)) L ++ take (Z.to_nat (end_ - (start - 1))) (drop (Z.to_nat (start - 1)) L) ++
      drop (Z.to_nat (end_ - (start - 1))) (drop (Z.to_nat (start - 1)) L)) as HL by (by rewrite !take_drop).
    split.
    + rewrite <-abs_elements. unfold abs. by rewrite fmap_take, fmap_drop.
    + eexists. split; [exact Hr'|]. rewrite HL in Hs, Hnd. split; [by eapply zsorted_drop_middle|].
      split; [by eapply NoDup_drop_middle|]. unfold abs. by rewrite fmap_app, fmap_take, !fmap_drop.
  - apply a_flat_spec in Hpre.
    destruct (zslDeleteRangeByLex_spec z L r Hr Hs Hpre) as (z' & -> & Hr' & _). cbn [mbind option_bind]. exists z'.
    destruct (removed_represents z' L (λ _ e, in_lex_range r e) Hr' Hs Hnd) as [H1 H2]. by rewrite H2.
Qed.

Lemma z_step_refines a z l op :
  represents z l → a_pre l op = true → a ≠ header z → nodes z !! a = None → step_ok a z l op.
Proof.
  intros Hr Hpre Hh Hn. destruct op;
    solve [by apply update_step|by apply query_step|by apply remove_step].
Qed.

Lemma z_run_refines (alloc : nat → zskiplist Sc → addr) :
  (∀ n z, alloc n z ≠ header z ∧ nodes z !! alloc n z = None) →
  ∀ ops n z l l' outs, represents z l → a_run l ops = Some (l', outs) →
  ∃ z', z_run alloc n z ops = Some (z', outs) ∧ represents z' l'.
Proof.
  intros Halloc. induction ops as [|op ops IH]; intros n z l l' outs Hr; cbn [a_run z_run].
  { intros [= <- <-]. by exists z. }
  destruct (a_pre l op) eqn:Hpre; [|done]. destruct (Halloc n z) as [Hh Hn].
  destruct (z_step_refines (alloc n z) z l op Hr Hpre Hh Hn) as (z1 & -> & Hr1). cbn [mbind option_bind].
  destruct (a_step l op) as [l1 o]. cbn [fst snd] in *. destruct (a_run l1 ops) as [[l2 os]|] eqn:E; [|done].
  intros [= <- <-]. destruct (IH (S n) z1 l1 l2 os Hr1 E) as (z' & -> & Hr'). by exists z'.
Qed.

(** C30: any sequence of insertions, deletions, score updates, rank and range queries and
    range removals on a new skiplist that respects what the callers guarantee runs without
    an invalid access or a failed assertion, gives the outputs of the abstract sorted list
    and ends in its state: both directions of traversal list exactly its elements, which
    are in the strict order by score and element, and the length is right.  The levels the
    random generator gives and the addresses the allocator gives are arbitrary, except that
    a new address is not in use. *)
Theorem skiplist_refines_sorted_list (alloc : nat → zskiplist Sc → addr) (h : addr) (ops : list (zop Sc)) l outs :
  (∀ n z, alloc n z ≠ header z ∧ nodes z !! alloc n z = None) →
  a_run [] ops = Some (l, outs) →
  ∃ z0 z, zslCreate h = Some z0 ∧ z_run alloc 0 z0 ops = Some (z, outs) ∧
    zrange z 0 (-1) false = Some l ∧ zrange z 0 (-1) true = Some (reverse l) ∧ zlength z = zlen l ∧
    StronglySorted a_lt l ∧ NoDup l.*2.
Proof.
  intros Halloc Hrun. destruct (zslCreate_rep (Sc := Sc) h) as (z0 & Hz0 & Hr0 & _).
  destruct (z_run_refines alloc Halloc ops 0 z0 [] l outs) as (z & Ez & L & Hr & Hs & Hnd & <-); [|done|].
  { exists []. split; [done|]. split; [constructor|]. split; [constructor|done]. }
  exists z0, z. split; [done|]. split; [done|].
  assert (∀ l : list (nd Sc), a_range 0 (-1) l = l) as Hall.
  { intros l. unfold a_range, norm_index. cbn. rewrite drop_0. apply take_ge. lia. }
  rewrite !(zrange_spec z L _ _ _ Hr), !Hall. unfold abs. rewrite fmap_reverse, length_fmap.
  split; [done|]. split; [done|]. split; [by rewrite (rep_length _ _ Hr)|]. fold (abs L). split.
  - unfold abs. clear -Hs. unfold zsorted in Hs. induction Hs as [|x L HL IH Hx]; [constructor|].
    rewrite fmap_cons. constructor; [done|]. apply Forall_fmap. eapply Forall_impl; [exact Hx|]. done.
  - by rewrite abs_elements.
Qed.

End Refinement.

(** An allocator that gives an address not in use. *)
Definition first_free (_ : nat) (z : zskiplist Z) : addr := fresh ({[header z]} ∪ dom (nodes z)).

Lemma first_free_ok (n : nat) (z : zskiplist Z) : first_free n z ≠ header z ∧ nodes z !! first_free n z = None.
Proof.
  pose proof (is_fresh ({[header z]} ∪ dom (nodes z))) as H. fold (first_free n z) in H.
  rewrite not_elem_of_union, elem_of_singleton, not_elem_of_dom in H. done.
Qed.

(** Four insertions with levels 2, 1, 3 and 1, an update, ranges and removals. *)
Definition demo_ops : list (zop Z) :=
  [ZInsert [1] 5 [98]; ZInsert [] 3 [97]; ZInsert [0; 7] 5 [97; 97]; ZInsert [] 9 [99];
   ZRange 0 (-1) false; ZUpdate [3] 9 [99] 4; ZRank 4 [99]; ZByRank 3; ZRank 0 [120];
   ZFirst (Skiplist.ZRange 4 5 true false); ZLast (Skiplist.ZRange 1 4 false false); ZRemRank 1 1; ZDelete 5 [98];
   ZRemScore (Skiplist.ZRange 4 4 false false); ZInsert [] 5 [122];
   ZFirstLex (ZLexRange (lexstring [97; 97]) maxstring true false); ZRange (-2) 7 true].

Lemma skiplist_refines_sorted_list_witness :
  ∃ z0 z, zslCreate 7 = Some z0 ∧
    z_run first_free 0 z0 demo_ops =
      Some (z, [ODone; ODone; ODone; ODone;
                OList [(3, [97]); (5, [97; 97]); (5, [98]); (9, [99])]; ODone;
                ORank 2; ONode (Some (5, [97; 97])); ORank 0;
                ONode (Some (5, [97; 97])); ONode (Some (4, [99]));
                ORemoved [[97]]; OBool true; ORemoved [[99]]; ODone;
                ONode (Some (5, [122])); OList [(5, [122]); (5, [97; 97])]]) ∧
    zrange z 0 (-1) false = Some [(5, [97; 97]); (5, [122])].
Proof.
  destruct (skiplist_refines_sorted_list first_free 7 demo_ops [(5, [97; 97]); (5, [122])]
    [ODone; ODone; ODone; ODone;
     OList [(3, [97]); (5, [97; 97]); (5, [98]); (9, [99])]; ODone;
     ORank 2; ONode (Some (5, [97; 97])); ORank 0;
     ONode (Some (5, [97; 97])); ONode (Some (4, [99]));
     ORemoved [[97]]; OBool true; ORemoved [[99]]; ODone;
     ONode (Some (5, [122])); OList [(5, [122]); (5, [97; 97])]])
    as (z0 & z & H1 & H2 & H3 & _).
  - exact first_free_ok.
  - vm_compute. reflexivity.
  - exists z0, z. split; [exact H1|]. split; [exact H2|exact H3].
Defined.
