(* ===== verification/Zset.v ===== *)
(** Sorted sets (t_zset.c) in the encoding of a dictionary and a skiplist: ZADD and ZINCRBY
    through [zsetAdd], removals, scores, ranks, ranges by rank, score and element, and the
    counts.

    The dictionary maps an element to a pointer to the score inside its skiplist node, so a
    score is read through the heap: a pointer to a node that was released gives [None].
    A score that may be NaN is an [option], with [None] for NaN. *)

From stdpp Require Import gmap strings.
From S2P Require Import Prelude Util SdsText Skiplist SkiplistRange.

(** Addition of scores, which can give NaN. *)
Class ScoreAdd (Sc : Type) := sadd : Sc → Sc → option Sc.

Definition ZADD_INCR : Z := 1.
Definition ZADD_NX : Z := 2.
Definition ZADD_XX : Z := 4.
Definition ZADD_NOP : Z := 8.
Definition ZADD_NAN : Z := 16.
Definition ZADD_ADDED : Z := 32.
Definition ZADD_UPDATED : Z := 64.

Section Zset.

Context {Sc : Type} `{!ScoreOrder Sc} `{!ScoreAdd Sc}.

Record zset := ZSet { zdict : gmap bytes addr; zsl : zskiplist Sc }.

(** [createZsetObject] *)
Definition createZsetObject (h : addr) : option zset := z ← zslCreate h; Some (ZSet ∅ z).

Definition zsetLength (zs : zset) : Z := zlength (zsl zs).

(** The score a value of the dictionary points to. *)
Definition score_of (zs : zset) (a : addr) : option Sc := fst <$> nodes (zsl zs) !! a.

(** [zsetScore]: the inner option is C_ERR. *)
Definition zsetScore (zs : zset) (member : bytes) : option (option Sc) :=
  match zdict zs !! member with
  | None => Some None
  | Some a => s ← score_of zs a; Some (Some s)
  end.

(** The result of [zsetAdd]: the set, the return value, the flags and [newscore]. *)
Record zadd_result := ZAdd { za_set : zset; za_ret : Z; za_flags : Z; za_new : option Sc }.

Definition zsetAdd (zs : zset) (score : option Sc) (ele : bytes) (flags : Z) (rs : list Z) (a : addr)
    : option zadd_result :=
  let incr := negb (Z.land flags ZADD_INCR =? 0) in
  let nx := negb (Z.land flags ZADD_NX =? 0) in
  let xx := negb (Z.land flags ZADD_XX =? 0) in
  match score with
  | None => Some (ZAdd zs 0 ZADD_NAN None)
  | Some score =>
      match zdict zs !! ele with
      | Some de =>
          if nx then Some (ZAdd zs 1 ZADD_NOP None)
          else
            curscore ← score_of zs de;
            match (if incr then sadd score curscore else Some score) with
            | None => Some (ZAdd zs 0 ZADD_NAN None)
            | Some score =>
                let newscore := if incr then Some score else None in
                if negb (seqb score curscore) then
                  '(z, znode) ← zslUpdateScore (zsl zs) rs a curscore ele score;
                  Some (ZAdd (ZSet (<[ele := znode]> (zdict zs)) z) 1 ZADD_UPDATED newscore)
                else Some (ZAdd zs 1 0 newscore)
            end
      | None =>
          if negb xx then
            z ← zslInsert (zsl zs) rs a score ele;
            Some (ZAdd (ZSet (<[ele := a]> (zdict zs)) z) 1 ZADD_ADDED (Some score))
          else Some (ZAdd zs 1 ZADD_NOP None)
      end
  end.

(** [zsetDel]; the assertion that the element is in the skiplist fails with [None]. *)
Definition zsetDel (zs : zset) (ele : bytes) : option (zset * Z) :=
  match zdict zs !! ele with
  | Some de =>
      score ← score_of zs de;
      '(z, retval) ← zslDelete (zsl zs) score ele;
      if (retval : bool) then Some (ZSet (delete ele (zdict zs)) z, 1) else None
  | None => Some (zs, 0)
  end.

Definition zsetRank (zs : zset) (ele : bytes) (reverse : bool) : option Z :=
  let llen := zsetLength zs in
  match zdict zs !! ele with
  | Some de =>
      score ← score_of zs de;
      rank ← zslGetRank (zsl zs) score ele;
      if rank =? 0 then None else Some (if reverse then llen - rank else rank - 1)
  | None => Some (-1)
  end.

(** ** Removing ranges *)

(** The elements removed from the skiplist are deleted from the dictionary. *)
Definition dict_remove (d : gmap bytes addr) (l : list bytes) : gmap bytes addr := foldl (λ d e, delete e d) d l.

(** [zremrangeGenericCommand] from the sanity checks on: the set and the reply. *)
Inductive zrem_range :=
  | ZRANGE_RANK (start end_ : Z)
  | ZRANGE_SCORE (r : zrangespec Sc)
  | ZRANGE_LEX (r : zlexrangespec).

Definition zremrange (zs : zset) (r : zrem_range) : option (zset * Z) :=
  let finish (p : option (zskiplist Sc * list bytes)) :=
    '(z, removed) ← p; Some (ZSet (dict_remove (zdict zs) removed) z, zlen removed) in
  match r with
  | ZRANGE_RANK start end_ =>
      match sane_range (zsetLength zs) start end_ with
      | None => Some (zs, 0)
      | Some (start, end_) => finish (zslDeleteRangeByRank (zsl zs) (start + 1) (end_ + 1))
      end
  | ZRANGE_SCORE r => finish (zslDeleteRangeByScore (zsl zs) r)
  | ZRANGE_LEX r => finish (zslDeleteRangeByLex (zsl zs) r)
  end.

(** ** Ranges with an offset and a limit *)

(** [ln->backward] or [ln->level[0].forward] *)
Definition next_node (z : zskiplist Sc) (reverse : bool) (x : addr) : option (option addr) :=
  if reverse then backward z !! x else next0 z x.

(** [while (ln && offset--)] *)
Fixpoint skip_nodes (fuel : nat) (z : zskiplist Sc) (reverse : bool) (ln : option addr) (offset : Z)
    : option (option addr) :=
  match fuel with
  | O => None
  | S fuel =>
      match ln with
      | None => Some None
      | Some x =>
          if offset =? 0 then Some ln
          else next ← next_node z reverse x; skip_nodes fuel z reverse next (offset - 1)
      end
  end.

(** [while (ln && limit--)], with [more] the test that the node is still in the range. *)
Fixpoint emit_while (fuel : nat) (z : zskiplist Sc) (reverse : bool) (more : Sc → bytes → bool) (ln : option addr) (limit : Z)
    : option (list (Sc * bytes)) :=
  match fuel with
  | O => None
  | S fuel =>
      match ln with
      | None => Some []
      | Some x =>
          if limit =? 0 then Some []
          else
            '(s, e) ← nodes z !! x;
            if negb (more s e) then Some []
            else
              next ← next_node z reverse x;
              r ← emit_while fuel z reverse more next (limit - 1);
              Some ((s, e) :: r)
      end
  end.

Definition emit_range (z : zskiplist Sc) (reverse : bool) (more : Sc → bytes → bool) (ln : option addr) (offset limit : Z)
    : option (list (Sc * bytes)) :=
  match ln with
  | None => Some []
  | Some _ =>
      ln ← skip_nodes (walk_fuel z) z reverse ln offset;
      emit_while (walk_fuel z) z reverse more ln limit
  end.

(** [genericZrangebyscoreCommand] after the arguments are parsed: the elements replied. *)
Definition zrangebyscore (z : zskiplist Sc) (r : zrangespec Sc) (offset limit : Z) (reverse : bool)
    : option (list (Sc * bytes)) :=
  ln ← (if reverse then zslLastInRange z r else zslFirstInRange z r);
  emit_range z reverse (λ s _, if reverse then zslValueGteMin s r else zslValueLteMax s r) ln offset limit.

(** [genericZrangebylexCommand] *)
Definition zrangebylex (z : zskiplist Sc) (r : zlexrangespec) (offset limit : Z) (reverse : bool)
    : option (list (Sc * bytes)) :=
  ln ← (if reverse then zslLastInLexRange z r else zslFirstInLexRange z r);
  emit_range z reverse (λ _ e, if reverse then zslLexValueGteMin e r else zslLexValueLteMax e r) ln offset limit.

(** ** Counting *)

(** The rank of a node. *)
Definition node_rank (z : zskiplist Sc) (zn : addr) : option Z :=
  '(s, e) ← nodes z !! zn; zslGetRank z s e.

(** The common part of [zcountCommand] and [zlexcountCommand], by the ranks of the ends. *)
Definition count_ends (z : zskiplist Sc) (first last : option (option addr)) : option Z :=
  zn ← first;
  match zn with
  | None => Some 0
  | Some zn =>
      rank ← node_rank z zn;
      let count := zlength z - (rank - 1) in
      zn ← last;
      match zn with
      | None => Some count
      | Some zn => rank ← node_rank z zn; Some (count - (zlength z - rank))
      end
  end.

Definition zcount (z : zskiplist Sc) (r : zrangespec Sc) : option Z :=
  count_ends z (zslFirstInRange z r) (zslLastInRange z r).

Definition zlexcount (z : zskiplist Sc) (r : zlexrangespec) : option Z :=
  count_ends z (zslFirstInLexRange z r) (zslLastInLexRange z r).

End Zset.

Arguments zset : clear implicits.
Arguments zadd_result : clear implicits.
Arguments zrem_range : clear implicits.
