(* ===== verification/ZsetSpec.v ===== *)
(** Sorted sets as maps: an abstract machine whose state is the map from the members to
    their scores, and the refinement theorem for sequences of commands. *)

From stdpp Require Import gmap strings sorting.
From S2P Require Import Prelude Util SdsText Skiplist SkiplistRange SkiplistSpec Zset.

(** ** The abstract set: a map from elements to scores *)

Section Abstract.

Context {Sc : Type} `{!ScoreOrder Sc} `{!ScoreAdd Sc}.

Implicit Types m : gmap bytes Sc.

(** Not after, in the order of sorted sets. *)
Definition zle (p q : Sc * bytes) : Prop := node_lt q.1 q.2 p.1 p.2 = false.

#[global] Instance zle_dec p q : Decision (zle p q) := decide (node_lt q.1 q.2 p.1 p.2 = false).

(** The members in order. *)
Definition sorted_members m : list (Sc * bytes) := merge_sort zle ((λ p, (p.2, p.1)) <$> map_to_list m).

(** [n] members from number [offset] on; all of them for a negative limit, none for a
    negative offset. *)
Definition a_limit {T} (offset limit : Z) (l : list T) : list T :=
  if offset <? 0 then []
  else if limit <? 0 then drop (Z.to_nat offset) l
  else take (Z.to_nat limit) (drop (Z.to_nat offset) l).

(** The commands. *)
Inductive zcmd :=
  | CAdd (score : option Sc) (ele : bytes) (flags : Z) (rs : list Z)
  | CDel (ele : bytes)
  | CScore (ele : bytes)
  | CRank (ele : bytes) (reverse : bool)
  | CCard
  | CRemRange (r : zrem_range Sc)
  | CRange (start end_ : Z) (reverse : bool)
  | CRangeByScore (r : zrangespec Sc) (offset limit : Z) (reverse : bool)
  | CRangeByLex (r : zlexrangespec) (offset limit : Z) (reverse : bool)
  | CCount (r : zrangespec Sc)
  | CLexCount (r : zlexrangespec).

Inductive zreply :=
  | RAdd (ret flags : Z) (newscore : option Sc)
  | RInt (n : Z)
  | RScore (s : option Sc)
  | RList (l : list (Sc * bytes)).

Definition c_step (a : addr) (zs : zset Sc) (c : zcmd) : option (zset Sc * zreply) :=
  match c with
  | CAdd score ele flags rs =>
      r ← zsetAdd zs score ele flags rs a; Some (za_set r, RAdd (za_ret r) (za_flags r) (za_new r))
  | CDel ele => '(zs, n) ← zsetDel zs ele; Some (zs, RInt n)
  | CScore ele => s ← zsetScore zs ele; Some (zs, RScore s)
  | CRank ele reverse => n ← zsetRank zs ele reverse; Some (zs, RInt n)
  | CCard => Some (zs, RInt (zsetLength zs))
  | CRemRange r => '(zs, n) ← zremrange zs r; Some (zs, RInt n)
  | CRange start end_ reverse => l ← zrange (zsl zs) start end_ reverse; Some (zs, RList l)
  | CRangeByScore r offset limit reverse => l ← zrangebyscore (zsl zs) r offset limit reverse; Some (zs, RList l)
  | CRangeByLex r offset limit reverse => l ← zrangebylex (zsl zs) r offset limit reverse; Some (zs, RList l)
  | CCount r => n ← zcount (zsl zs) r; Some (zs, RInt n)
  | CLexCount r => n ← zlexcount (zsl zs) r; Some (zs, RInt n)
  end.

Fixpoint c_run (alloc : nat → zset Sc → addr) (n : nat) (zs : zset Sc) (cs : list zcmd) : option (zset Sc * list zreply) :=
  match cs with
  | [] => Some (zs, [])
  | c :: cs =>
      '(zs, o) ← c_step (alloc n zs) zs c;
      '(zs, os) ← c_run alloc (S n) zs cs;
      Some (zs, o :: os)
  end.

(** What the commands do to the map. *)
Definition m_add m (score : option Sc) (ele : bytes) (flags : Z) : gmap bytes Sc * zreply :=
  let has f := negb (Z.land flags f =? 0) in
  match score, m !! ele with
  | None, _ => (m, RAdd 0 ZADD_NAN None)
  | Some s, None => if has ZADD_XX then (m, RAdd 1 ZADD_NOP None) else (<[ele := s]> m, RAdd 1 ZADD_ADDED (Some s))
  | Some s, Some cur =>
      if has ZADD_NX then (m, RAdd 1 ZADD_NOP None)
      else if has ZADD_INCR then
        match sadd s cur with
        | None => (m, RAdd 0 ZADD_NAN None)
        | Some s => if seqb s cur then (m, RAdd 1 0 (Some s)) else (<[ele := s]> m, RAdd 1 ZADD_UPDATED (Some s))
        end
      else if seqb s cur then (m, RAdd 1 0 None) else (<[ele := s]> m, RAdd 1 ZADD_UPDATED None)
  end.

(** The number of members before an element. *)
Definition m_before m (s : Sc) (e : bytes) : Z := Z.of_nat (size (filter (λ p, node_lt p.2 p.1 s e = true) m)).

Definition m_rank m (ele : bytes) (reverse : bool) : Z :=
  match m !! ele with
  | None => -1
  | Some s => if reverse then Z.of_nat (size m) - 1 - m_before m s ele else m_before m s ele
  end.

Definition m_select (f : Sc → bytes → bool) (b : bool) m : gmap bytes Sc := filter (λ p, f p.2 p.1 = b) m.

Definition m_remove (r : zrem_range Sc) m : gmap bytes Sc :=
  match r with
  | ZRANGE_RANK start end_ => m ∖ list_to_map ((λ p, (p.2, p.1)) <$> a_range start end_ (sorted_members m))
  | ZRANGE_SCORE r => m_select (λ s _, in_range r s) false m
  | ZRANGE_LEX r => m_select (λ _ e, in_lex_range r e) false m
  end.

Definition turn {T} (reverse_it : bool) (l : list T) : list T := if reverse_it then reverse l else l.

Definition m_step m (c : zcmd) : gmap bytes Sc * zreply :=
  match c with
  | CAdd score ele flags _ => m_add m score ele flags
  | CDel ele => (delete ele m, RInt (match m !! ele with Some _ => 1 | None => 0 end))
  | CScore ele => (m, RScore (m !! ele))
  | CRank ele reverse => (m, RInt (m_rank m ele reverse))
  | CCard => (m, RInt (Z.of_nat (size m)))
  | CRemRange r => (m_remove r m, RInt (Z.of_nat (size m) - Z.of_nat (size (m_remove r m))))
  | CRange start end_ rev => (m, RList (a_range start end_ (turn rev (sorted_members m))))
  | CRangeByScore r offset limit rev =>
      (m, RList (a_limit offset limit (turn rev (sorted_members (m_select (λ s _, in_range r s) true m)))))
  | CRangeByLex r offset limit rev =>
      (m, RList (a_limit offset limit (turn rev (sorted_members (m_select (λ _ e, in_lex_range r e) true m)))))
  | CCount r => (m, RInt (Z.of_nat (size (m_select (λ s _, in_range r s) true m))))
  | CLexCount r => (m, RInt (Z.of_nat (size (m_select (λ _ e, in_lex_range r e) true m))))
  end.

(** Lexicographic commands are meant for sets where all scores are equal. *)
Definition m_flat m : bool :=
  forallb (λ p, forallb (λ q, negb (slt p.2 q.2)) (map_to_list m)) (map_to_list m).

Definition m_pre m (c : zcmd) : bool :=
  match c with
  | CRangeByLex _ _ _ _ | CLexCount _ | CRemRange (ZRANGE_LEX _) => m_flat m
  | _ => true
  end.

Fixpoint m_run m (cs : list zcmd) : option (gmap bytes Sc * list zreply) :=
  match cs with
  | [] => Some (m, [])
  | c :: cs =>
      if m_pre m c then
        let '(m, o) := m_step m c in
        '(m, os) ← m_run m cs;
        Some (m, o :: os)
      else None
  end.

End Abstract.

Arguments zcmd : clear implicits.
Arguments zreply : clear implicits.

Section Proofs.

Context {Sc : Type} `{!ScoreOrder Sc} `{!ScoreLaws Sc} `{!ScoreAdd Sc}.

Implicit Types m : gmap bytes Sc.
Implicit Types l : list (Sc * bytes).
Implicit Types L : list (nd Sc).
Implicit Types zs : zset Sc.

(** ** Sorting *)

Lemma node_nlt_trans s1 e1 s2 e2 s3 e3 :
  node_lt s2 e2 s1 e1 = false → node_lt s3 e3 s2 e2 = false → node_lt s3 e3 s1 e1 = false.
Proof.
  intros H1 H2. apply not_true_iff_false. intros H3.
  destruct (node_lt s1 e1 s2 e2) eqn:E.
  - by rewrite (node_lt_trans _ _ _ _ _ _ H3 E) in H2.
  - destruct (node_lt_total _ _ _ _ E H1) as [Hs ->]. rewrite seqb_spec, andb_true_iff, !negb_true_iff in Hs.
    apply not_true_iff_false in H2. apply H2. rewrite node_lt_spec in H3 |- *. destruct Hs as [Hs1 Hs2], H3 as [H3|[H3 H4]].
    + left. by eapply lt_nlt_trans.
    + right. split; [by eapply nlt_trans|done].
Qed.

#[local] Instance zle_trans : Transitive (zle (Sc := Sc)).
Proof. intros p q r. unfold zle. apply node_nlt_trans. Qed.

#[local] Instance zle_total : Total (zle (Sc := Sc)).
Proof.
  intros p q. unfold zle. destruct (node_lt q.1 q.2 p.1 p.2) eqn:E; [right|by left].
  apply not_true_iff_false. intros E2. pose proof (node_lt_trans _ _ _ _ _ _ E E2) as E3. by rewrite node_lt_irrefl in E3.
Qed.

(** The list [l] holds the members of [m]. *)
Definition m_of m l : Prop := ∀ e s, m !! e = Some s ↔ (s, e) ∈ l.

Lemma m_of_perm m l : m_of m l → NoDup l → l ≡ₚ (λ p, (p.2, p.1)) <$> map_to_list m.
Proof.
  intros Hm Hl. apply NoDup_Permutation; [done| |].
  - apply NoDup_fmap_2; [|apply NoDup_map_to_list]. by intros [? ?] [? ?] [= -> ->].
  - intros [s e]. rewrite <-(Hm e s), <-elem_of_map_to_list, list_elem_of_fmap. split.
    + intros H. by exists (e, s).
    + intros ([? ?] & [= -> ->] & H). done.
Qed.

Lemma abs_NoDup L : NoDup (ne <$> L) → NoDup (abs L).
Proof. intros H. apply (NoDup_fmap_1 snd). by rewrite abs_elements. Qed.

Lemma sorted_members_unique m L : m_of m (abs L) → zsorted L → NoDup (ne <$> L) → sorted_members m = abs L.
Proof.
  intros Hm Hs Hnd. symmetry. unfold sorted_members. pose proof (m_of_perm m _ Hm (abs_NoDup L Hnd)) as Hp.
  apply (StronglySorted_unique_strong zle).
  - intros [s1 e1] [s2 e2] H1 H2 H3 H4. unfold zle in *. simpl in *.
    destruct (node_lt_total _ _ _ _ H4 H3) as [_ ->].
    assert ((s2, e2) ∈ abs L) as H2' by (by rewrite Hp, <-(merge_sort_Permutation zle)).
    apply Hm in H1, H2'. congruence.
  - unfold abs, zsorted in *. clear -Hs ScoreLaws0. induction Hs as [|x L HL IH Hx]; [constructor|]. rewrite fmap_cons.
    constructor; [done|]. apply Forall_fmap. eapply Forall_impl; [exact Hx|]. intros y Hy. unfold zle. simpl.
    apply not_true_iff_false. intros E. pose proof (node_lt_trans _ _ _ _ _ _ E Hy) as E2. by rewrite node_lt_irrefl in E2.
  - apply StronglySorted_merge_sort; apply _.
  - by rewrite merge_sort_Permutation.
Qed.

Lemma m_of_size m L : m_of m (abs L) → NoDup (ne <$> L) → Z.of_nat (size m) = zlen L.
Proof.
  intros Hm Hnd. pose proof (m_of_perm m _ Hm (abs_NoDup L Hnd)) as Hp. apply Permutation_length in Hp.
  rewrite length_fmap, length_map_to_list in Hp. unfold abs in Hp. rewrite length_fmap in Hp. lia.
Qed.

Lemma m_of_select m L f b : m_of m (abs L) → m_of (m_select f b m) (abs (filter (λ x, f (ns x) (ne x) = b) L)).
Proof.
  intros Hm e s. rewrite abs_select. unfold m_select, a_select. rewrite map_lookup_filter_Some, list_elem_of_filter, (Hm e s).
  simpl. tauto.
Qed.

(** The selected members in order. *)
Lemma sorted_select m L f b :
  m_of m (abs L) → zsorted L → NoDup (ne <$> L) →
  sorted_members (m_select f b m) = abs (filter (λ x, f (ns x) (ne x) = b) L) ∧
  Z.of_nat (size (m_select f b m)) = zlen (filter (λ x, f (ns x) (ne x) = b) L).
Proof.
  intros Hm Hs Hnd. pose proof (m_of_select m L f b Hm) as Hm'. split.
  - apply sorted_members_unique; [done|by apply zsorted_filter|by apply NoDup_ne_filter].
  - apply m_of_size; [done|by apply NoDup_ne_filter].
Qed.

Lemma m_flat_spec m L : m_of m (abs L) → m_flat m = true → flat L.
Proof.
  intros Hm. unfold m_flat. rewrite forallb_forall. intros H x y Hx Hy.
  assert (∀ w, w ∈ L → In (ne w, ns w) (map_to_list m)) as Hin.
  { intros w Hw. apply list_elem_of_In, elem_of_map_to_list, Hm. by apply (list_elem_of_fmap_2 (λ x : nd Sc, (ns x, ne x))). }
  specialize (H _ (Hin x Hx)). rewrite forallb_forall in H. specialize (H _ (Hin y Hy)). by apply negb_true_iff in H.
Qed.

(** ** The representation *)

(** The skiplist represents [L], and the dictionary points to its nodes. *)
Record zrep zs L : Prop := {
  zr_rep : rep (zsl zs) L;
  zr_sorted : zsorted L;
  zr_nodup : NoDup (ne <$> L);
  zr_dict e a : zdict zs !! e = Some a ↔ ∃ x, x ∈ L ∧ ne x = e ∧ na x = a;
}.

Lemma zrep_lookup zs L e :
  zrep zs L →
  match zdict zs !! e with
  | Some a => ∃ x, x ∈ L ∧ ne x = e ∧ na x = a ∧ score_of zs a = Some (ns x)
  | None => e ∉ ne <$> L
  end.
Proof.
  intros [Hr _ _ Hd]. destruct (zdict zs !! e) as [a|] eqn:E.
  - apply Hd in E as (x & Hx & He & Ha). exists x. split; [done|]. split; [done|]. split; [done|].
    unfold score_of. by rewrite <-Ha, (rep_nodes _ _ Hr x Hx).
  - intros (x & -> & Hx)%list_elem_of_fmap_1. assert (zdict zs !! ne x = Some (na x)); [|congruence].
    apply Hd. by exists x.
Qed.

Lemma abs_elem x L : x ∈ L → (ns x, ne x) ∈ abs L.
Proof. apply (list_elem_of_fmap_2 (λ x : nd Sc, (ns x, ne x))). Qed.

Lemma m_of_lookup m zs L e :
  m_of m (abs L) → zrep zs L →
  match zdict zs !! e with
  | Some a => ∃ x, x ∈ L ∧ ne x = e ∧ na x = a ∧ score_of zs a = Some (ns x) ∧ m !! e = Some (ns x)
  | None => (e ∉ ne <$> L) ∧ m !! e = None
  end.
Proof.
  intros Hm Hz. pose proof (zrep_lookup zs L e Hz) as H. destruct (zdict zs !! e) as [a|].
  - destruct H as (x & Hx & <- & Ha & Hs). exists x. repeat (split; [done|]). apply Hm. by apply abs_elem.
  - split; [done|]. apply eq_None_not_Some. intros (s & Hs). apply H. rewrite <-abs_elements.
    apply Hm in Hs. by apply (list_elem_of_fmap_2 snd) in Hs.
Qed.

Lemma elem_of_a_insert s e l p : p ∈ a_insert s e l ↔ p = (s, e) ∨ p ∈ l.
Proof.
  unfold a_insert. rewrite elem_of_app, elem_of_cons, !list_elem_of_filter. destruct (node_lt p.1 p.2 s e); naive_solver.
Qed.

Lemma elem_of_a_delete s e l p : p ∈ a_delete s e l ↔ a_same s e p = false ∧ p ∈ l.
Proof. unfold a_delete. by rewrite list_elem_of_filter. Qed.

Lemma elem_unique L x y : NoDup (ne <$> L) → x ∈ L → y ∈ L → ne x = ne y → x = y.
Proof.
  intros Hnd (i & Hi)%list_elem_of_lookup_1 (j & Hj)%list_elem_of_lookup_1 E.
  assert (i = j) as ->; [|congruence].
  apply (NoDup_lookup _ i j (ne x) Hnd); rewrite list_lookup_fmap, ?Hi, ?Hj; simpl; congruence.
Qed.

(** The dictionary after an element moved to another node. *)
Lemma dict_insert_ok (d : gmap bytes addr) L L' ele (n : addr) :
  (∀ e a, d !! e = Some a ↔ ∃ x, x ∈ L ∧ ne x = e ∧ na x = a) → NoDup (ne <$> L') →
  (∀ e b, e ≠ ele → (∃ y, y ∈ L' ∧ ne y = e ∧ na y = b) ↔ (∃ y, y ∈ L ∧ ne y = e ∧ na y = b)) →
  (∃ y, y ∈ L' ∧ ne y = ele ∧ na y = n) →
  ∀ e a, <[ele := n]> d !! e = Some a ↔ ∃ x, x ∈ L' ∧ ne x = e ∧ na x = a.
Proof.
  intros Hd Hnd Hother (y & Hy & Hye & Hyn) e a. destruct (decide (e = ele)) as [-> |Hne].
  - rewrite lookup_insert_eq. split; [intros [= <-]; by exists y|]. intros (x & Hx & Hxe & <-).
    rewrite (elem_unique L' x y); congruence.
  - rewrite lookup_insert_ne by done. rewrite Hd. by rewrite Hother.
Qed.

Lemma add_new zs L m rs a s e :
  zrep zs L → m_of m (abs L) → a ≠ header (zsl zs) → nodes (zsl zs) !! a = None → e ∉ ne <$> L →
  ∃ z' L', zslInsert (zsl zs) rs a s e = Some z' ∧ zrep (ZSet (<[e := a]> (zdict zs)) z') L' ∧ m_of (<[e := s]> m) (abs L').
Proof.
  intros [Hr Hs Hnd Hd] Hm Hh Hn He. pose proof (fresh_addr _ L a Hr Hh Hn) as Hfresh.
  destruct (zslInsert_spec (zsl zs) L rs a s e Hr Hs Hfresh) as (z' & A & B & HL & HA & HB & E & Hr' & Hs' & _).
  { intros x Hx [_ <-]. by apply He, list_elem_of_fmap_2. }
  set (x := Nd a s e (zslRandomLevel rs)) in *. exists z', (A ++ x :: B). split; [done|].
  assert (∀ y, y ∈ A ++ x :: B ↔ y = x ∨ y ∈ L) as Hin by (intros y; rewrite HL, !elem_of_app, elem_of_cons; tauto).
  assert (NoDup (ne <$> A ++ x :: B)) as Hnd'.
  { rewrite fmap_app, fmap_cons, Permutation_app_comm. cbn [app]. rewrite Permutation_app_comm, <-fmap_app, <-HL. by apply NoDup_cons. }
  split.
  - split; [done|done|done|]. apply (dict_insert_ok _ L); [done|done| |exists x; rewrite Hin; tauto].
    intros e' b He'. split; intros (y & Hy & Hye & Hyb); exists y; (split; [|done]); rewrite Hin in *.
    + destruct Hy as [-> |Hy]; [by destruct He'|done].
    + by right.
  - intros e' s'. rewrite (abs_insert A B x HA HB), <-HL, elem_of_a_insert. simpl. destruct (decide (e' = e)) as [-> |Hne].
    + rewrite lookup_insert_eq. split; [intros [= <-]; by left|]. intros [[= <-]|Hx]; [done|]. exfalso. apply He.
      rewrite <-abs_elements. by apply (list_elem_of_fmap_2 snd) in Hx.
    + rewrite lookup_insert_ne by done. rewrite (Hm e' s'). split; [by right|]. by intros [[= _ ->]|?].
Qed.

Lemma add_update zs L m rs a x new :
  zrep zs L → m_of m (abs L) → a ≠ header (zsl zs) → nodes (zsl zs) !! a = None → x ∈ L →
  ∃ z' n L', zslUpdateScore (zsl zs) rs a (ns x) (ne x) new = Some (z', n) ∧
    zrep (ZSet (<[ne x := n]> (zdict zs)) z') L' ∧ m_of (<[ne x := new]> m) (abs L').
Proof.
  intros [Hr Hs Hnd Hd] Hm Hh Hn Hx. pose proof (fresh_addr _ L a Hr Hh Hn) as Hfresh.
  assert (same_elem x (ns x) (ne x)) as Hsame by (split; [by rewrite seqb_spec, slt_irrefl|done]).
  destruct (zslUpdateScore_spec (zsl zs) L rs a (ns x) (ne x) new x Hr Hs Hnd Hx Hsame Hfresh)
    as (z' & n & L' & E & Hr' & Hs' & Hnd' & _ & Eabs & Hother & Hn').
  exists z', n, L'. split; [done|]. split.
  - split; [done|done|done|]. by apply (dict_insert_ok _ L).
  - intros e s. rewrite Eabs, elem_of_a_insert, elem_of_a_delete. destruct (decide (e = ne x)) as [-> |Hne].
    + rewrite lookup_insert_eq. split; [intros [= <-]; by left|]. intros [[= <-]|[Hsm Hin]]; [done|]. exfalso.
      pose proof (abs_elem x L Hx) as Hx2. apply Hm in Hin, Hx2. assert (s = ns x) as -> by congruence.
      by rewrite (proj2 (a_same_spec x _ _) Hsame) in Hsm.
    + rewrite lookup_insert_ne by done. rewrite (Hm e s). split.
      * intros Hin. right. split; [|done]. unfold a_same. simpl. rewrite bool_decide_eq_false_2 by done. apply andb_false_r.
      * intros [[= _ ?]|[_ ?]]; done.
Qed.

(** A command of the set that the abstract machine also performs. *)
Definition c_ok (a : addr) zs m (c : zcmd Sc) : Prop :=
  ∃ zs' L', c_step a zs c = Some (zs', (m_step m c).2) ∧ zrep zs' L' ∧ m_of (m_step m c).1 (abs L').

Lemma add_step a zs L m score ele flags rs :
  zrep zs L → m_of m (abs L) → a ≠ header (zsl zs) → nodes (zsl zs) !! a = None → c_ok a zs m (CAdd score ele flags rs).
Proof.
  intros Hz Hm Hh Hn. unfold c_ok. cbn [c_step m_step]. unfold zsetAdd, m_add.
  destruct score as [score|]; [|by exists zs, L]. pose proof (m_of_lookup m zs L ele Hm Hz) as Hl.
  destruct (zdict zs !! ele) as [de|].
  - destruct Hl as (x & Hx & <- & _ & -> & ->). destruct (negb (Z.land flags ZADD_NX =? 0)); [by exists zs, L|].
    cbn [mbind option_bind]. destruct (negb (Z.land flags ZADD_INCR =? 0)).
    + destruct (sadd score (ns x)) as [s|]; [|by exists zs, L]. destruct (seqb s (ns x)); cbn [negb]; [by exists zs, L|].
      destruct (add_update zs L m rs a x s Hz Hm Hh Hn Hx) as (z' & n & L' & -> & Hz' & Hm'). cbn [mbind option_bind]. by eexists _, L'.
    + destruct (seqb score (ns x)); cbn [negb]; [by exists zs, L|].
      destruct (add_update zs L m rs a x score Hz Hm Hh Hn Hx) as (z' & n & L' & -> & Hz' & Hm'). cbn [mbind option_bind]. by eexists _, L'.
  - destruct Hl as [He ->]. destruct (negb (Z.land flags ZADD_XX =? 0)); cbn [negb]; [by exists zs, L|].
    destruct (add_new zs L m rs a score ele Hz Hm Hh Hn He) as (z' & L' & -> & Hz' & Hm'). cbn [mbind option_bind]. by eexists _, L'.
Qed.

(** ** Removals *)

Lemma dict_remove_lookup (removed : list bytes) : ∀ (d : gmap bytes addr) e a,
  dict_remove d removed !! e = Some a ↔ d !! e = Some a ∧ e ∉ removed.
Proof.
  induction removed as [|x removed IH]; intros d e a; cbn [dict_remove foldl].
  - split; [|by intros [? _]]. intros H. split; [done|]. apply not_elem_of_nil.
  - fold (dict_remove (delete x d) removed). rewrite IH, lookup_delete_Some, not_elem_of_cons. naive_solver.
Qed.

Lemma remove_ok zs L m m' z' L' D :
  zrep zs L → m_of m (abs L) → rep z' L' → zsorted L' → L ≡ₚ L' ++ D → m_of m' (abs L') →
  zrep (ZSet (dict_remove (zdict zs) (ne <$> D)) z') L' ∧ zlen (ne <$> D) = Z.of_nat (size m) - Z.of_nat (size m').
Proof.
  intros [Hr Hs Hnd Hd] Hm Hr' Hs' HP Hm'.
  assert (NoDup ((ne <$> L') ++ (ne <$> D))) as Hnd2 by (by rewrite <-fmap_app, <-HP).
  apply NoDup_app in Hnd2 as (HndL' & Hdisj & _). split.
  - split; [done|done|done|]. intros e a. cbn [zdict]. rewrite dict_remove_lookup, Hd. split.
    + intros [(x & Hx & <- & <-) Hn]. exists x. split; [|done]. rewrite HP in Hx. apply elem_of_app in Hx as [Hx|Hx]; [done|].
      exfalso. by apply Hn, list_elem_of_fmap_2.
    + intros (x & Hx & <- & <-). split; [exists x; split; [|done]; rewrite HP; apply elem_of_app; by left|].
      apply Hdisj. by apply list_elem_of_fmap_2.
  - rewrite (m_of_size m L Hm Hnd), (m_of_size m' L' Hm' HndL'), (Permutation_length HP), length_app, length_fmap. lia.
Qed.

Lemma filter_both (f : Sc → bytes → bool) L :
  L ≡ₚ filter (λ x, f (ns x) (ne x) = false) L ++ filter (λ x, f (ns x) (ne x) = true) L.
Proof.
  induction L as [|x L IH]; [done|]. rewrite !filter_cons.
  destruct (f (ns x) (ne x)); cbn [decide decide_rel bool_eq_dec bool_rec]; simpl.
  - rewrite <-Permutation_middle. by constructor.
  - by constructor.
Qed.

Lemma select_removed zs L m f z' :
  zrep zs L → m_of m (abs L) → rep z' (filter (λ x, f (ns x) (ne x) = false) L) →
  zrep (ZSet (dict_remove (zdict zs) (ne <$> filter (λ x, f (ns x) (ne x) = true) L)) z') (filter (λ x, f (ns x) (ne x) = false) L) ∧
  zlen (ne <$> filter (λ x, f (ns x) (ne x) = true) L) = Z.of_nat (size m) - Z.of_nat (size (m_select f false m)) ∧
  m_of (m_select f false m) (abs (filter (λ x, f (ns x) (ne x) = false) L)).
Proof.
  intros Hz Hm Hr'. pose proof (m_of_select m L f false Hm) as Hm'.
  destruct (remove_ok zs L m _ z' _ _ Hz Hm Hr' (zsorted_filter _ _ (zr_sorted _ _ Hz)) (filter_both f L) Hm') as [H1 H2]. done.
Qed.

(** What remains when a range of ranks is removed. *)
Lemma m_of_remove m L L' (D : list (nd Sc)) :
  m_of m (abs L) → NoDup (ne <$> L) → L ≡ₚ L' ++ D → m_of (m ∖ list_to_map ((λ p, (p.2, p.1)) <$> abs D)) (abs L').
Proof.
  intros Hm Hnd HP e s. rewrite lookup_difference_Some, (Hm e s).
  assert (NoDup ((ne <$> L') ++ (ne <$> D))) as Hnd2 by (by rewrite <-fmap_app, <-HP).
  apply NoDup_app in Hnd2 as (_ & Hdisj & _).
  assert (((λ p : Sc * bytes, (p.2, p.1)) <$> abs D).*1 = ne <$> D) as Ek.
  { unfold abs. rewrite <-!list_fmap_compose. done. }
  assert (abs L ≡ₚ abs L' ++ abs D) as HPa by (unfold abs; by rewrite HP, fmap_app).
  rewrite HPa, elem_of_app, <-not_elem_of_list_to_map, Ek, <-(abs_elements D). split.
  - intros [[H|H] Hn]; [done|]. exfalso. apply Hn. by apply (list_elem_of_fmap_2 snd) in H.
  - intros H. split; [by left|]. rewrite abs_elements. apply Hdisj. rewrite <-abs_elements.
    by apply (list_elem_of_fmap_2 snd) in H.
Qed.

Lemma slice_perm {T} (k n : nat) (l : list T) :
  l ≡ₚ (take k l ++ drop n (drop k l)) ++ take n (drop k l).
Proof.
  rewrite <-(take_drop k l) at 1. rewrite <-(take_drop n (drop k l)) at 1. rewrite <-(assoc_L (++)).
  apply Permutation_app_head, Permutation_app_comm.
Qed.

Lemma del_step a zs L m ele : zrep zs L → m_of m (abs L) → c_ok a zs m (CDel ele).
Proof.
  intros Hz Hm. unfold c_ok. cbn [c_step m_step]. unfold zsetDel. pose proof (m_of_lookup m zs L ele Hm Hz) as Hl.
  destruct (zdict zs !! ele) as [de|].
  2:{ destruct Hl as [He E]. rewrite E. cbn [mbind option_bind fst snd]. exists zs, L. rewrite delete_id by done. done. }
  destruct Hl as (x & Hx & <- & _ & -> & E). rewrite E. cbn [mbind option_bind fst snd].
  assert (same_elem x (ns x) (ne x)) as Hsame by (split; [by rewrite seqb_spec, slt_irrefl|done]).
  destruct (zslDelete_spec (zsl zs) L (ns x) (ne x)) as (z' & b & -> & _ & Hb); [apply Hz|apply Hz|].
  cbn [mbind option_bind]. destruct b; [|by destruct Hb as [_ Hb]; destruct (Hb x Hx)].
  destruct Hb as (A & y & B & HL & [_ Hy] & Hr' & Hs' & _).
  assert (y = x) as ->.
  { apply (elem_unique L); [apply Hz| |done|done]. rewrite HL. apply elem_of_app. right. by left. }
  assert (L ≡ₚ (A ++ B) ++ [x]) as HP.
  { rewrite HL, <-Permutation_middle. apply Permutation_cons_append. }
  assert (m_of (delete (ne x) m) (abs (A ++ B))) as Hm'.
  { pose proof (m_of_remove m L (A ++ B) [x] Hm (zr_nodup _ _ Hz) HP) as H. cbn in H.
    by rewrite <-delete_difference, map_difference_empty in H. }
  destruct (remove_ok zs L m (delete (ne x) m) z' (A ++ B) [x] Hz Hm Hr' Hs' HP Hm') as [H1 _]. cbn [fmap list_fmap dict_remove foldl] in H1.
  by eexists _, (A ++ B).
Qed.

Lemma remrange_step a zs L m r : zrep zs L → m_of m (abs L) → m_pre m (CRemRange r) = true → c_ok a zs m (CRemRange r).
Proof.
  intros Hz Hm Hpre. pose proof Hz as [Hr Hs Hnd Hd]. unfold c_ok. cbn [c_step m_step fst snd].
  destruct r as [start end_|r|r]; cbn [zremrange m_remove].
  - unfold zsetLength, sane_range. rewrite (rep_length _ _ Hr), (sorted_members_unique m L Hm Hs Hnd), <-(abs_range start end_ false L).
    unfold a_range, norm_index. set (n := zlen L). set (lo0 := if start <? 0 then _ else _). set (hi := if end_ <? 0 then _ else _).
    assert ((if lo0 <? 0 then 0 else lo0) = Z.max 0 lo0) as -> by (destruct (Z.ltb_spec lo0 0); lia).
    set (lo := Z.max 0 lo0). cbv zeta.
    assert (∀ D, D = [] → m ∖ list_to_map ((λ p : Sc * bytes, (p.2, p.1)) <$> abs D) = m) as Hnil.
    { intros D ->. apply map_difference_empty. }
    destruct (Z.ltb_spec hi lo) as [Hhi|Hhi]; cbn [orb].
    { cbn [mbind option_bind]. exists zs, L. rewrite Hnil by (by rewrite Z2Nat.nonpos by lia). by rewrite Z.sub_diag. }
    destruct (Z.leb_spec n lo) as [Hlo|Hlo].
    { cbn [mbind option_bind]. exists zs, L. rewrite Hnil by (by rewrite drop_ge, take_nil by lia). by rewrite Z.sub_diag. }
    set (hi' := if n <=? hi then n - 1 else hi).
    destruct (zslDeleteRangeByRank_spec (zsl zs) L (lo + 1) (hi' + 1) Hr ltac:(lia)) as (z' & -> & Hr' & _).
    replace (lo + 1 - 1) with lo in * by lia.
    assert (take (Z.to_nat (hi - lo + 1)) (drop (Z.to_nat lo) L) = take (Z.to_nat (hi' + 1 - lo)) (drop (Z.to_nat lo) L)) as ->.
    { unfold hi'. destruct (Z.leb_spec n hi); [rewrite !take_ge; [done| |]; rewrite length_drop; lia|f_equal; lia]. }
    pose proof (slice_perm (Z.to_nat lo) (Z.to_nat (hi' + 1 - lo)) L) as HP. set (D := take (Z.to_nat (hi' + 1 - lo)) _) in *.
    assert (zsorted (take (Z.to_nat lo) L ++ drop (Z.to_nat (hi' + 1 - lo)) (drop (Z.to_nat lo) L))) as Hs'.
    { apply (zsorted_drop_middle _ D). unfold D. by rewrite !take_drop. }
    pose proof (m_of_remove m L _ D Hm Hnd HP) as Hm'.
    cbn [mbind option_bind]. destruct (remove_ok zs L m _ z' _ D Hz Hm Hr' Hs' HP Hm') as [Hz' ->]. by eexists _, _.
  - destruct (zslDeleteRangeByScore_spec (zsl zs) L r Hr Hs) as (z' & -> & Hr' & _). cbn [mbind option_bind].
    destruct (select_removed zs L m (λ s _, in_range r s) z' Hz Hm Hr') as (H1 & -> & H3). by eexists _, _.
  - apply (m_flat_spec m L Hm) in Hpre.
    destruct (zslDeleteRangeByLex_spec (zsl zs) L r Hr Hs Hpre) as (z' & -> & Hr' & _). cbn [mbind option_bind].
    destruct (select_removed zs L m (λ _ e, in_lex_range r e) z' Hz Hm Hr') as (H1 & -> & H3). by eexists _, _.
Qed.

(** ** Point queries *)

Lemma before_rank m L (A B : list (nd Sc)) x :
  m_of m (abs L) → zsorted L → NoDup (ne <$> L) → L = A ++ x :: B → m_before m (ns x) (ne x) = zlen A.
Proof.
  intros Hm Hs Hnd HL. unfold m_before.
  destruct (sorted_select m L (λ s e, node_lt s e (ns x) (ne x)) true Hm Hs Hnd) as [_ E]. unfold m_select in E. rewrite E. clear E.
  rewrite HL in Hs |- *. destruct (zsorted_app _ A (x :: B) eq_refl Hs) as (_ & SB & Hlt). apply StronglySorted_inv in SB as [_ SB].
  rewrite filter_app, filter_all, filter_none, app_nil_r; [done| |].
  - apply Forall_cons. split; [by rewrite node_lt_irrefl|]. eapply Forall_impl; [exact SB|]. intros y Hy E.
    pose proof (node_lt_trans _ _ _ _ _ _ E Hy) as E2. by rewrite node_lt_irrefl in E2.
  - apply Forall_forall. intros y Hy. by apply (Hlt y x); [|left].
Qed.

Lemma point_step a zs L m c :
  zrep zs L → m_of m (abs L) → match c with CScore _ | CRank _ _ | CCard => True | _ => False end → c_ok a zs m c.
Proof.
  intros Hz Hm Hc. pose proof Hz as [Hr Hs Hnd Hd]. exists zs, L. destruct c as [| |ele|ele rev| | | | | | |]; try done; cbn [c_step m_step fst snd]; (split; [|done]).
  - unfold zsetScore. pose proof (m_of_lookup m zs L ele Hm Hz) as Hl. destruct (zdict zs !! ele) as [de|].
    + destruct Hl as (x & Hx & <- & _ & -> & ->). done.
    + by destruct Hl as [_ ->].
  - unfold zsetRank, m_rank. pose proof (m_of_lookup m zs L ele Hm Hz) as Hl. destruct (zdict zs !! ele) as [de|].
    + destruct Hl as (x & Hx & <- & _ & -> & ->). cbn [mbind option_bind]. apply list_elem_of_split in Hx as (A & B & HL).
      rewrite (zslGetRank_found (zsl zs) L A x B Hr Hs Hnd HL (ns x)) by (by rewrite seqb_spec, slt_irrefl).
      cbn [mbind option_bind]. rewrite (proj2 (Z.eqb_neq _ _)) by lia. cbn [mbind option_bind].
      rewrite (before_rank m L A B x Hm Hs Hnd HL), (m_of_size m L Hm Hnd). unfold zsetLength. rewrite (rep_length _ _ Hr).
      do 3 f_equal. destruct rev; lia.
    + by destruct Hl as [_ ->].
  - unfold zsetLength. by rewrite (rep_length _ _ Hr), (m_of_size m L Hm Hnd).
Qed.

(** ** Range queries *)

(** The pointer [ln] leads through the nodes [W]. *)
Fixpoint chain (z : zskiplist Sc) (rev : bool) (ln : option addr) (W : list (nd Sc)) : Prop :=
  match W with
  | [] => ln = None
  | x :: W =>
      ln = Some (na x) ∧ nodes z !! na x = Some (ns x, ne x) ∧
      ∃ next, next_node z rev (na x) = Some next ∧ chain z rev next W
  end.

Lemma chain_forward z L : ∀ B A, rep z L → L = A ++ B → chain z false (na <$> head B) B.
Proof.
  induction B as [|x B IH]; intros A Hr HL; [done|]. cbn [chain head fmap option_fmap option_map]. split; [done|]. split.
  - apply (rep_nodes _ _ Hr). rewrite HL. apply elem_of_app. right. by left.
  - exists (na <$> head B). split; [by eapply next0_node|]. apply (IH (A ++ [x]) Hr). by rewrite HL, <-(assoc_L (++)).
Qed.

Lemma chain_backward z L : ∀ A B, rep z L → L = A ++ B → chain z true (na <$> last A) (reverse A).
Proof.
  intros A. induction A as [|x A IH] using rev_ind; intros B Hr HL; [done|]. rewrite last_snoc, reverse_snoc.
  assert (L = A ++ x :: B) as HL2 by (by rewrite HL, <-(assoc_L (++))).
  cbn [chain fmap option_fmap option_map]. split; [done|]. split.
  - apply (rep_nodes _ _ Hr). rewrite HL2. apply elem_of_app. right. by left.
  - exists (na <$> last A). split; [by eapply rep_backward|]. by apply (IH (x :: B) Hr).
Qed.

Lemma skip_nodes_spec z rev : ∀ fuel ln W offset,
  chain z rev ln W → (length W < fuel)%nat →
  ∃ ln', skip_nodes fuel z rev ln offset = Some ln' ∧ chain z rev ln' (if offset <? 0 then [] else drop (Z.to_nat offset) W).
Proof.
  induction fuel as [|fuel IH]; intros ln W offset Hc Hf; [lia|]. cbn [skip_nodes]. destruct W as [|x W]; cbn [chain] in Hc.
  { subst ln. exists None. split; [done|]. by destruct (offset <? 0); rewrite ?drop_nil. }
  destruct Hc as (-> & Hx & next & Hn & Hc). destruct (Z.eqb_spec offset 0) as [-> |Hne].
  { exists (Some (na x)). split; [done|]. cbn. split; [done|]. split; [done|]. by exists next. }
  rewrite Hn. cbn [mbind option_bind]. destruct (IH next W (offset - 1) Hc ltac:(cbn [length] in Hf; lia)) as (ln' & -> & Hc').
  exists ln'. split; [done|]. destruct (Z.ltb_spec offset 0); [by rewrite (proj2 (Z.ltb_lt _ _)) in Hc' by lia|].
  rewrite (proj2 (Z.ltb_ge _ _)) in Hc' by lia. replace (Z.to_nat offset) with (S (Z.to_nat (offset - 1))) by lia. done.
Qed.

(** The nodes in the range come first. *)
Lemma emit_while_spec z rev more : ∀ fuel ln W1 W2 limit,
  chain z rev ln (W1 ++ W2) → (length (W1 ++ W2) < fuel)%nat →
  Forall (λ x, more (ns x) (ne x) = true) W1 → Forall (λ x, more (ns x) (ne x) = false) W2 →
  emit_while fuel z rev more ln limit = Some (abs (if limit <? 0 then W1 else take (Z.to_nat limit) W1)).
Proof.
  induction fuel as [|fuel IH]; intros ln W1 W2 limit Hc Hf H1 H2; [lia|]. cbn [emit_while].
  destruct W1 as [|x W1]; cbn [app] in *.
  { rewrite take_nil. assert ((if limit <? 0 then [] else []) = @nil (nd Sc)) as -> by (by destruct (limit <? 0)).
    destruct W2 as [|y W2]; cbn [chain] in Hc; [by subst ln|]. destruct Hc as (-> & -> & _). destruct (limit =? 0); [done|].
    cbn [mbind option_bind]. apply Forall_cons in H2 as [-> _]. done. }
  cbn [chain] in Hc. destruct Hc as (-> & -> & next & Hn & Hc). destruct (Z.eqb_spec limit 0) as [-> |Hne]; [done|].
  apply Forall_cons in H1 as [Hx H1]. cbn [mbind option_bind]. rewrite Hx. cbn [negb]. rewrite Hn. cbn [mbind option_bind].
  rewrite (IH next W1 W2 (limit - 1) Hc ltac:(cbn [length] in Hf; lia) H1 H2). cbn [mbind option_bind].
  destruct (Z.ltb_spec limit 0).
  - rewrite (proj2 (Z.ltb_lt _ _)) by lia. done.
  - rewrite (proj2 (Z.ltb_ge _ _)) by lia. replace (Z.to_nat limit) with (S (Z.to_nat (limit - 1))) by lia. done.
Qed.

Lemma emit_range_spec z rev more ln W1 W2 offset limit :
  chain z rev ln (W1 ++ W2) → (length (W1 ++ W2) ≤ Z.to_nat (zlength z))%nat →
  Forall (λ x, more (ns x) (ne x) = true) W1 → Forall (λ x, more (ns x) (ne x) = false) W2 →
  emit_range z rev more ln offset limit = Some (abs (a_limit offset limit W1)).
Proof.
  intros Hc Hf H1 H2. unfold emit_range, a_limit. destruct ln as [a|].
  2:{ destruct W1 as [|x W1]; [|by destruct Hc]. rewrite drop_nil, take_nil. by destruct (offset <? 0), (limit <? 0). }
  destruct (skip_nodes_spec z rev (walk_fuel z) (Some a) (W1 ++ W2) offset Hc) as (ln' & -> & Hc'); [unfold walk_fuel; lia|].
  cbn [mbind option_bind]. destruct (offset <? 0).
  - rewrite (emit_while_spec z rev more _ ln' [] [] limit); [|done|simpl; unfold walk_fuel; lia|constructor|constructor].
    rewrite take_nil. by destruct (limit <? 0).
  - rewrite drop_app in Hc'.
    rewrite (emit_while_spec z rev more _ ln' _ _ limit Hc'); [done| |by apply Forall_drop|by apply Forall_drop].
    rewrite length_app, !length_drop. rewrite length_app in Hf. unfold walk_fuel. lia.
Qed.

Lemma a_limit_nil {T} offset limit : a_limit offset limit (@nil T) = [].
Proof. unfold a_limit. rewrite drop_nil, take_nil. by destruct (offset <? 0), (limit <? 0). Qed.

Lemma emit_ends z L gte lte offset limit (rev : bool) :
  rep z L → zsorted L → down_closed (λ s e, negb (gte s e)) L → down_closed lte L →
  emit_range z rev (if rev then gte else lte)
    (na <$> (if rev then last (filter (inside gte lte) L) else head (filter (inside gte lte) L))) offset limit =
  Some (abs (a_limit offset limit (turn rev (filter (inside gte lte) L)))).
Proof.
  intros Hr Hs Hg Hl. destruct (ends_split L gte lte Hs Hg Hl) as (A & D & C & HL & HA & HDC & HD & HC & ->).
  destruct D as [|d D].
  { assert (turn rev (@nil (nd Sc)) = []) as -> by (by destruct rev). rewrite a_limit_nil. by destruct rev. }
  unfold turn. destruct rev.
  - apply (emit_range_spec z true gte _ _ (reverse A)).
    + rewrite <-reverse_app. replace (last (d :: D)) with (last (A ++ d :: D)) by apply last_app_cons.
      apply (chain_backward z L (A ++ d :: D) C Hr). by rewrite HL, <-(assoc_L (++)).
    + rewrite (rep_length _ _ Hr), HL. rewrite length_app, !length_reverse, !length_app. lia.
    + apply Forall_app in HDC as [HDC _]. by rewrite reverse_Permutation.
    + by rewrite reverse_Permutation.
  - apply (emit_range_spec z false lte _ _ C); [|rewrite (rep_length _ _ Hr), HL, !length_app; lia|done|done].
    by apply (chain_forward z L ((d :: D) ++ C) A).
Qed.

Lemma node_rank_spec z L A x B :
  rep z L → zsorted L → NoDup (ne <$> L) → L = A ++ x :: B → node_rank z (na x) = Some (zlen A + 1).
Proof.
  intros Hr Hs Hnd HL. unfold node_rank. rewrite (rep_nodes _ _ Hr x) by (rewrite HL; apply elem_of_app; right; by left).
  cbn [mbind option_bind]. apply (zslGetRank_found z L A x B Hr Hs Hnd HL). by rewrite seqb_spec, slt_irrefl.
Qed.

Lemma count_ends_spec z L gte lte :
  rep z L → zsorted L → NoDup (ne <$> L) → down_closed (λ s e, negb (gte s e)) L → down_closed lte L →
  count_ends z (Some (na <$> head (filter (inside gte lte) L))) (Some (na <$> last (filter (inside gte lte) L))) =
  Some (zlen (filter (inside gte lte) L)).
Proof.
  intros Hr Hs Hnd Hg Hl. destruct (ends_split L gte lte Hs Hg Hl) as (A & D & C & HL & HA & HDC & HD & HC & ->).
  unfold count_ends. cbn [mbind option_bind]. destruct D as [|d D]; [done|]. cbn [head fmap option_fmap option_map].
  rewrite (node_rank_spec z L A d (D ++ C) Hr Hs Hnd HL). cbn [mbind option_bind].
  destruct (exists_last (l := d :: D)) as (D' & y & E); [done|]. rewrite E, last_snoc. cbn [fmap option_fmap option_map].
  rewrite (node_rank_spec z L (A ++ D') y C Hr Hs Hnd) by (rewrite HL, E, <-!(assoc_L (++)); done). cbn [mbind option_bind].
  rewrite (rep_length _ _ Hr), !length_app. cbn [length]. f_equal. lia.
Qed.

Lemma select_inside (f : Sc → bytes → bool) gte lte L :
  (∀ s e, f s e = gte s e && lte s e) → filter (λ x, f (ns x) (ne x) = true) L = filter (inside gte lte) L.
Proof. intros H. apply list_filter_iff. intros x. unfold inside. by rewrite H. Qed.

Lemma abs_limit_turn offset limit (rev : bool) L :
  abs (a_limit offset limit (turn rev L)) = a_limit offset limit (turn rev (abs L)).
Proof.
  unfold a_limit, turn. destruct (offset <? 0), (limit <? 0), rev; unfold abs; by rewrite ?fmap_take, ?fmap_drop, ?fmap_reverse.
Qed.

Lemma range_step a zs L m c :
  zrep zs L → m_of m (abs L) → m_pre m c = true →
  match c with CRange _ _ _ | CRangeByScore _ _ _ _ | CRangeByLex _ _ _ _ | CCount _ | CLexCount _ => True | _ => False end →
  c_ok a zs m c.
Proof.
  intros Hz Hm Hpre Hc. pose proof Hz as [Hr Hs Hnd Hd]. exists zs, L.
  destruct c as [| | | | | |start end_ rev|r offset limit rev|r offset limit rev|r|r]; try done; cbn [c_step m_step m_pre fst snd] in *; (split; [|done]).
  - rewrite (zrange_spec (zsl zs) L start end_ rev Hr), abs_range, (sorted_members_unique m L Hm Hs Hnd). done.
  - unfold zrangebyscore. destruct (zslRange_ends (zsl zs) L r Hr Hs) as [E1 E2].
    rewrite (proj1 (sorted_select m L (λ s _, in_range r s) true Hm Hs Hnd)).
    pose proof (select_inside (λ s _, in_range r s) (λ s _, zslValueGteMin s r) (λ s _, zslValueLteMax s r) L ltac:(done)) as EF.
    cbv beta in EF. rewrite EF in *.
    pose proof (emit_ends (zsl zs) L (λ s _, zslValueGteMin s r) (λ s _, zslValueLteMax s r) offset limit rev Hr Hs
      (below_min_closed r L) (upto_max_closed r L)) as E.
    rewrite abs_limit_turn in E. rewrite E1, E2. destruct rev; cbn [mbind option_bind]; by rewrite E.
  - apply (m_flat_spec m L Hm) in Hpre. unfold zrangebylex. destruct (zslLexRange_ends (zsl zs) L r Hr Hs Hpre) as [E1 E2].
    rewrite (proj1 (sorted_select m L (λ _ e, in_lex_range r e) true Hm Hs Hnd)).
    pose proof (select_inside (λ _ e, in_lex_range r e) (λ _ e, zslLexValueGteMin e r) (λ _ e, zslLexValueLteMax e r) L ltac:(done)) as EF.
    cbv beta in EF. rewrite EF in *.
    pose proof (emit_ends (zsl zs) L (λ _ e, zslLexValueGteMin e r) (λ _ e, zslLexValueLteMax e r) offset limit rev Hr Hs
      (lex_below_min_closed r L Hpre) (lex_upto_max_closed r L Hpre)) as E.
    rewrite abs_limit_turn in E. rewrite E1, E2. destruct rev; cbn [mbind option_bind]; by rewrite E.
  - unfold zcount. destruct (zslRange_ends (zsl zs) L r Hr Hs) as [E1 E2].
    rewrite (proj2 (sorted_select m L (λ s _, in_range r s) true Hm Hs Hnd)).
    pose proof (select_inside (λ s _, in_range r s) (λ s _, zslValueGteMin s r) (λ s _, zslValueLteMax s r) L ltac:(done)) as EF.
    cbv beta in EF. rewrite EF in *. rewrite E1, E2.
    rewrite (count_ends_spec _ L) by (done || apply below_min_closed || apply upto_max_closed). done.
  - apply (m_flat_spec m L Hm) in Hpre. unfold zlexcount. destruct (zslLexRange_ends (zsl zs) L r Hr Hs Hpre) as [E1 E2].
    rewrite (proj2 (sorted_select m L (λ _ e, in_lex_range r e) true Hm Hs Hnd)).
    pose proof (select_inside (λ _ e, in_lex_range r e) (λ _ e, zslLexValueGteMin e r) (λ _ e, zslLexValueLteMax e r) L ltac:(done)) as EF.
    cbv beta in EF. rewrite EF in *. rewrite E1, E2.
    rewrite (count_ends_spec _ L) by (done || by apply lex_below_min_closed || by apply lex_upto_max_closed). done.
Qed.

Lemma c_step_refines a zs L m c :
  zrep zs L → m_of m (abs L) → m_pre m c = true → a ≠ header (zsl zs) → nodes (zsl zs) !! a = None → c_ok a zs m c.
Proof.
  intros Hz Hm Hpre Hh Hn. destruct c;
    solve [by eapply add_step|by eapply del_step|by eapply remrange_step|by eapply point_step|by eapply range_step].
Qed.

Lemma c_run_refines (alloc : nat → zset Sc → addr) :
  (∀ n zs, alloc n zs ≠ header (zsl zs) ∧ nodes (zsl zs) !! alloc n zs = None) →
  ∀ cs n zs L m m' outs, zrep zs L → m_of m (abs L) → m_run m cs = Some (m', outs) →
  ∃ zs' L', c_run alloc n zs cs = Some (zs', outs) ∧ zrep zs' L' ∧ m_of m' (abs L').
Proof.
  intros Halloc. induction cs as [|c cs IH]; intros n zs L m m' outs Hz Hm; cbn [m_run c_run].
  { intros [= <- <-]. by exists zs, L. }
  destruct (m_pre m c) eqn:Hpre; [|done]. destruct (Halloc n zs) as [Hh Hn].
  destruct (c_step_refines (alloc n zs) zs L m c Hz Hm Hpre Hh Hn) as (zs1 & L1 & -> & Hz1 & Hm1). cbn [mbind option_bind].
  destruct (m_step m c) as [m1 o]. cbn [fst snd] in *. destruct (m_run m1 cs) as [[m2 os]|] eqn:E; [|done].
  intros [= <- <-]. destruct (IH (S n) zs1 L1 m1 m2 os Hz1 Hm1 E) as (zs' & L' & -> & Hz' & Hm'). by exists zs', L'.
Qed.

Lemma range_all {T} (l : list T) : a_range 0 (-1) l = l.
Proof. unfold a_range, norm_index. cbn. rewrite drop_0. apply take_ge. lia. Qed.

Lemma zrep_dom zs L m : zrep zs L → m_of m (abs L) → dom (zdict zs) = dom m.
Proof.
  intros Hz Hm. apply set_eq. intros e. rewrite !elem_of_dom. pose proof (m_of_lookup m zs L e Hm Hz) as Hl.
  destruct (zdict zs !! e) as [de|]; [destruct Hl as (x & _ & _ & _ & _ & ->); split; by eexists|].
  destruct Hl as [_ ->]. split; by intros [? ?].
Qed.

(** A sorted set in the encoding of a dictionary and a skiplist is a map from its members to
    their scores.  Any sequence of
    additions and increments with their flags, removals, range removals, and queries of
    scores, ranks, counts and ranges with offsets and limits, on a new set, runs without a
    failed assertion and without following a pointer to a released node, and replies what
    the map determines: ranks count the members that are before, ranges list the selected
    members in the order of score and element.  At the end the dictionary and the skiplist
    hold exactly the map. *)
Theorem zset_refines_map (alloc : nat → zset Sc → addr) (h : addr) (cs : list (zcmd Sc)) m outs :
  (∀ n zs, alloc n zs ≠ header (zsl zs) ∧ nodes (zsl zs) !! alloc n zs = None) →
  m_run ∅ cs = Some (m, outs) →
  ∃ zs0 zs, createZsetObject h = Some zs0 ∧ c_run alloc 0 zs0 cs = Some (zs, outs) ∧
    (∀ e, zsetScore zs e = Some (m !! e)) ∧ zrange (zsl zs) 0 (-1) false = Some (sorted_members m) ∧
    dom (zdict zs) = dom m.
Proof.
  intros Halloc Hrun. destruct (zslCreate_rep (Sc := Sc) h) as (z0 & Hz0 & Hr0 & _). unfold createZsetObject. rewrite Hz0.
  cbn [mbind option_bind].
  destruct (c_run_refines alloc Halloc cs 0 (ZSet ∅ z0) [] ∅ m outs) as (zs & L & E & Hz & Hm); [| |done|].
  { split; [done|constructor|constructor|]. intros e a. cbn [zdict]. rewrite lookup_empty. split; [done|].
    by intros (x & ?%not_elem_of_nil & _). }
  { intros e s. rewrite lookup_empty. split; [done|]. by intros ?%not_elem_of_nil. }
  exists (ZSet ∅ z0), zs. split; [done|]. split; [done|]. pose proof Hz as [Hr Hs Hnd Hd]. split; [|split].
  - intros e. unfold zsetScore. pose proof (m_of_lookup m zs L e Hm Hz) as Hl. destruct (zdict zs !! e) as [de|].
    + destruct Hl as (x & _ & _ & _ & -> & ->). done.
    + by destruct Hl as [_ ->].
  - by rewrite (zrange_spec _ L _ _ _ Hr), (sorted_members_unique m L Hm Hs Hnd), range_all.
  - by eapply zrep_dom.
Qed.

End Proofs.

(** ** Integers with infinities as scores *)

Inductive ext := NegInf | Fin (n : Z) | PosInf.

#[global] Instance ext_score : ScoreOrder ext := {
  slt a b := match a, b with
    | Fin x, Fin y => x <? y
    | NegInf, (Fin _ | PosInf) | Fin _, PosInf => true
    | _, _ => false
    end;
  seqb a b := match a, b with
    | Fin x, Fin y => x =? y
    | NegInf, NegInf | PosInf, PosInf => true
    | _, _ => false
    end;
}.

#[global] Instance ext_score_laws : ScoreLaws ext.
Proof.
  split; unfold slt, seqb, ext_score.
  - intros []; try done. apply Z.ltb_irrefl.
  - intros [|x|] [|y|] [|u|]; try done. rewrite !Z.ltb_lt. lia.
  - intros [|x|] [|y|] [|u|]; try done; try (by left); try (by right). rewrite !Z.ltb_lt. lia.
  - intros [|x|] [|y|]; try done. exact (seqb_spec x y).
Qed.

(** The sum of opposite infinities is NaN. *)
#[global] Instance ext_add : ScoreAdd ext := λ a b,
  match a, b with
  | Fin x, Fin y => Some (Fin (x + y))
  | PosInf, NegInf | NegInf, PosInf => None
  | PosInf, _ | _, PosInf => Some PosInf
  | NegInf, _ | _, NegInf => Some NegInf
  end.

Definition zset_free (_ : nat) (zs : zset ext) : addr := fresh ({[header (zsl zs)]} ∪ dom (nodes (zsl zs))).

Lemma zset_free_ok (n : nat) (zs : zset ext) : zset_free n zs ≠ header (zsl zs) ∧ nodes (zsl zs) !! zset_free n zs = None.
Proof.
  pose proof (is_fresh ({[header (zsl zs)]} ∪ dom (nodes (zsl zs)))) as H. fold (zset_free n zs) in H.
  rewrite not_elem_of_union, elem_of_singleton, not_elem_of_dom in H. done.
Qed.

Definition demo_cmds : list (zcmd ext) :=
  [CAdd (Some (Fin 5)) [98] 0 [1]; CAdd (Some PosInf) [97] 0 []; CAdd (Some (Fin 3)) [99] ZADD_NX [0; 7];
   CAdd (Some (Fin 1)) [99] ZADD_NX []; CAdd (Some (Fin 1)) [120] ZADD_XX []; CAdd (Some (Fin 4)) [99] ZADD_INCR [];
   CAdd (Some NegInf) [97] ZADD_INCR []; CAdd None [97] 0 []; CRank [99] false; CRank [99] true; CRank [120] false;
   CRangeByScore (Skiplist.ZRange (Fin 5) PosInf false false) 1 1 true; CCount (Skiplist.ZRange (Fin 5) PosInf true false);
   CRemRange (ZRANGE_RANK (-1) (-1)); CDel [98]; CDel [98]; CScore [99];
   CLexCount (ZLexRange minstring (lexstring [99]) false false); CCard].

Lemma zset_refines_map_witness :
  ∃ zs0 zs, createZsetObject 7 = Some zs0 ∧
    c_run zset_free 0 zs0 demo_cmds =
      Some (zs, [RAdd 1 32 (Some (Fin 5)); RAdd 1 32 (Some PosInf); RAdd 1 32 (Some (Fin 3)); RAdd 1 8 None;
                 RAdd 1 8 None; RAdd 1 64 (Some (Fin 7)); RAdd 0 16 None; RAdd 0 16 None; RInt 1; RInt 1; RInt (-1);
                 RList [(Fin 7, [99])]; RInt 2; RInt 1; RInt 1; RInt 0; RScore (Some (Fin 7)); RInt 1; RInt 1]) ∧
    zrange (zsl zs) 0 (-1) false = Some [(Fin 7, [99])].
Proof.
  destruct (zset_refines_map zset_free 7 demo_cmds {[ [99] := Fin 7 ]}
    [RAdd 1 32 (Some (Fin 5)); RAdd 1 32 (Some PosInf); RAdd 1 32 (Some (Fin 3)); RAdd 1 8 None;
     RAdd 1 8 None; RAdd 1 64 (Some (Fin 7)); RAdd 0 16 None; RAdd 0 16 None; RInt 1; RInt 1; RInt (-1);
     RList [(Fin 7, [99])]; RInt 2; RInt 1; RInt 1; RInt 0; RScore (Some (Fin 7)); RInt 1; RInt 1])
    as (zs0 & zs & H1 & H2 & _ & H3 & _).
  - exact zset_free_ok.
  - vm_compute. reflexivity.
  - exists zs0, zs. split; [exact H1|]. split; [exact H2|exact H3].
Defined.
