(* ===== verification/Lzf.v ===== *)
(** LZF compression of strings (lzf_c.c, lzf_d.c), in the configuration of lzfP.h on a 64 bit
    machine: VERY_FAST, CHECK_INPUT, HLOG 16, a hash table of offsets that is not
    initialized.

    Buffers are lists of bytes, pointers are offsets in them, and an access outside of a
    buffer is [None].  The hash table is a function whose initial contents are arbitrary. *)

From stdpp Require Import list numbers.
From S2P Require Import Prelude.

(** ** Decompression *)

Inductive lzf_errno := E2BIG | EINVAL.

(** [*op++ = *ip++], [n] times. *)
Fixpoint copy_run (n : nat) (inp : list Z) (ip : Z) (out : list Z) (op : Z) : option (list Z) :=
  match n with
  | O => Some out
  | S n => b ← peek inp ip; out ← poke out op b; copy_run n inp (ip + 1) out (op + 1)
  end.

(** [*op++ = *ref++], [n] times. *)
Fixpoint copy_bytes (n : nat) (out : list Z) (ref op : Z) : option (list Z) :=
  match n with
  | O => Some out
  | S n => b ← peek out ref; out ← poke out op b; copy_bytes n out (ref + 1) (op + 1)
  end.

(** The copy of a back reference: the cases up to 9 copy byte by byte, the default case uses
    memcpy when the areas are disjoint. *)
Definition copy_ref (out : list Z) (ref op len : Z) : option (list Z) :=
  if len <=? 9 then copy_bytes (Z.to_nat (len + 2)) out ref op
  else
    let len := len + 2 in
    if ref + len <=? op then memmove out op ref len
    else copy_bytes (Z.to_nat len) out ref op.

(** The result: the output buffer with the number of bytes written or the error. *)
Fixpoint decompress_loop (fuel : nat) (inp : list Z) (ip : Z) (out : list Z) (op : Z)
    : option (list Z * (lzf_errno + Z)) :=
  match fuel with
  | O => None
  | S fuel =>
      let in_end := zlen inp in
      let out_end := zlen out in
      let continue ip out op :=
        if ip <? in_end then decompress_loop fuel inp ip out op else Some (out, inr op) in
      ctrl ← peek inp ip;
      let ip := ip + 1 in
      if ctrl <? Z.shiftl 1 5 then
        let ctrl := ctrl + 1 in
        if out_end <? op + ctrl then Some (out, inl E2BIG)
        else if in_end <? ip + ctrl then Some (out, inl EINVAL)
        else
          out ← copy_run (Z.to_nat ctrl) inp ip out op;
          continue (ip + ctrl) out (op + ctrl)
      else
        let len := Z.shiftr ctrl 5 in
        let ref := op - Z.shiftl (Z.land ctrl 31) 8 - 1 in
        if in_end <=? ip then Some (out, inl EINVAL)
        else
          '(len, ip, bad) ← (if len =? 7
                             then b ← peek inp ip; Some (len + b, ip + 1, in_end <=? ip + 1)
                             else Some (len, ip, false));
          if (bad : bool) then Some (out, inl EINVAL)
          else
            b ← peek inp ip;
            let ref := ref - b in
            let ip := ip + 1 in
            if out_end <? op + len + 2 then Some (out, inl E2BIG)
            else if ref <? 0 then Some (out, inl EINVAL)
            else
              out ← copy_ref out ref op len;
              continue ip out (op + (len + 2))
  end.

(** [lzf_decompress]; every iteration consumes input. *)
Definition lzf_decompress (inp out : list Z) : option (list Z * (lzf_errno + Z)) :=
  decompress_loop (S (length inp)) inp 0 out 0.

(** ** Compression *)

Definition MAX_LIT : Z := Z.shiftl 1 5.
Definition MAX_OFF : Z := Z.shiftl 1 13.
Definition MAX_REF : Z := Z.shiftl 1 8 + Z.shiftl 1 3.

Record lzf_state := Lzf { htab : Z → Z; ip : Z; op : Z; lit : Z; hval : Z; out : list Z }.

Section Compress.

(** The input. *)
Context (inp : list Z).

(** [FRST], [NEXT] and [IDX] for VERY_FAST. *)
Definition FRST (p : Z) : option Z :=
  a ← peek inp p; b ← peek inp (p + 1); Some (Z.lor (Z.shiftl a 8) b).

Definition NEXT (v p : Z) : option Z :=
  c ← peek inp (p + 2); Some (Z.lor (u32 (Z.shiftl v 8)) c).

Definition IDX (h : Z) : Z := Z.land (Z.shiftr h 8 - h * 5) 65535.

(** [htab[IDX (hval)] = ip - LZF_HSLOT_BIAS] *)
Definition set_slot (t : Z → Z) (h p : Z) : Z → Z := λ i, if i =? IDX h then p else t i.

(** [len++; if (ref [len] != ip [len]) break;], [n] times: the length, and whether a
    difference was found. *)
Fixpoint match_unrolled (n : nat) (ref p len : Z) : option (Z * bool) :=
  match n with
  | O => Some (len, false)
  | S n =>
      let len := len + 1 in
      a ← peek inp (ref + len); b ← peek inp (p + len);
      if a =? b then match_unrolled n ref p len else Some (len, true)
  end.

(** [do len++; while (len < maxlen && ref[len] == ip[len])] *)
Fixpoint match_tail (fuel : nat) (ref p maxlen len : Z) : option Z :=
  match fuel with
  | O => None
  | S fuel =>
      let len := len + 1 in
      if len <? maxlen then
        a ← peek inp (ref + len); b ← peek inp (p + len);
        if a =? b then match_tail fuel ref p maxlen len else Some len
      else Some len
  end.

Definition match_len (ref p maxlen : Z) : option Z :=
  if 16 <? maxlen then
    '(len, found) ← match_unrolled 16 ref p 2;
    if (found : bool) then Some len else match_tail (Z.to_nat MAX_REF) ref p maxlen len
  else match_tail (Z.to_nat MAX_REF) ref p maxlen 2.

(** The test for a match at [ref]: the offset, when there is one. *)
Definition find_match (ref p : Z) : option (option Z) :=
  let off := u64 (p - ref - 1) in
  if (off <? MAX_OFF) && (0 <? ref) then
    r2 ← peek inp (ref + 2); p2 ← peek inp (p + 2);
    if r2 =? p2 then
      r0 ← peek inp ref; r1 ← peek inp (ref + 1); p0 ← peek inp p; p1 ← peek inp (p + 1);
      Some (if (r0 =? p0) && (r1 =? p1) then Some off else None)
    else Some None
  else Some None.

(** A literal byte, and the end of the run when it is full. *)
Definition put_literal (s : lzf_state) : option lzf_state :=
  let lit := lit s + 1 in
  b ← peek inp (ip s);
  out ← poke (out s) (op s) b;
  let op := op s + 1 in
  if lit =? MAX_LIT then
    out ← poke out (op - lit - 1) (u8 (lit - 1));
    Some (Lzf (htab s) (ip s + 1) (op + 1) 0 (hval s) out)
  else Some (Lzf (htab s) (ip s + 1) op lit (hval s) out).

(** The end of a run: its length is stored, and an empty run is undone. *)
Definition end_run (s : lzf_state) : option (Z * list Z) :=
  out ← poke (out s) (op s - lit s - 1) (u8 (lit s - 1));
  Some (op s - (if lit s =? 0 then 1 else 0), out).

(** The bytes of a back reference of [len + 2] bytes. *)
Definition put_ref (out : list Z) (op off len : Z) : option (Z * list Z) :=
  if len <? 7 then
    out ← poke out op (u8 (Z.shiftr off 8 + Z.shiftl len 5));
    out ← poke out (op + 1) (u8 off);
    Some (op + 2, out)
  else
    out ← poke out op (u8 (Z.shiftr off 8 + Z.shiftl 7 5));
    out ← poke out (op + 1) (u8 (len - 7));
    out ← poke out (op + 2) (u8 off);
    Some (op + 3, out).

(** The loop; [false] is [return 0]. *)
Fixpoint compress_loop (fuel : nat) (s : lzf_state) : option (lzf_state * bool) :=
  match fuel with
  | O => None
  | S fuel =>
      let in_end := zlen inp in
      let out_end := zlen (out s) in
      if ip s <? in_end - 2 then
        h ← NEXT (hval s) (ip s);
        let ref := htab s (IDX h) in
        let t := set_slot (htab s) h (u32 (ip s)) in
        m ← find_match ref (ip s);
        match m with
        | Some off =>
            let maxlen := in_end - ip s - 2 in
            let maxlen := if MAX_REF <? maxlen then MAX_REF else maxlen in
            if (out_end <=? op s + 3 + 1)
               && (out_end <=? op s - (if lit s =? 0 then 1 else 0) + 3 + 1)
            then Some (s, false)
            else
              '(op, out) ← end_run s;
              len ← match_len ref (ip s) maxlen;
              let len := len - 2 in
              '(op, out) ← put_ref out op off len;
              let op := op + 1 in
              let ip := ip s + 1 + (len + 1) in
              if in_end - 2 <=? ip then Some (Lzf t ip op 0 h out, true)
              else
                let ip := ip - 2 in
                h ← FRST ip;
                h ← NEXT h ip;
                let t := set_slot t h (u32 ip) in
                let ip := ip + 1 in
                h ← NEXT h ip;
                let t := set_slot t h (u32 ip) in
                compress_loop fuel (Lzf t (ip + 1) op 0 h out)
        | None =>
            if out_end <=? op s then Some (s, false)
            else
              s ← put_literal (Lzf t (ip s) (op s) (lit s) h (out s));
              compress_loop fuel s
        end
      else Some (s, true)
  end.

(** [while (ip < in_end)]: the last bytes. *)
Fixpoint literal_loop (fuel : nat) (s : lzf_state) : option lzf_state :=
  match fuel with
  | O => None
  | S fuel => if ip s <? zlen inp then s ← put_literal s; literal_loop fuel s else Some s
  end.

(** [lzf_compress]: the output buffer and the length, 0 when the output does not fit. *)
Definition lzf_compress (t : Z → Z) (buf : list Z) : option (list Z * Z) :=
  if (zlen inp =? 0) || (zlen buf =? 0) then Some (buf, 0)
  else
    h ← FRST 0;
    '(s, ok) ← compress_loop (S (length inp)) (Lzf t 0 1 0 h buf);
    if negb ok then Some (out s, 0)
    else if zlen (out s) <? op s + 3 then Some (out s, 0)
    else
      s ← literal_loop (S (length inp)) s;
      '(op, out) ← end_run s;
      Some (out, op).

End Compress.

(** ** The format *)

(** A compressed string is a sequence of runs of literals and of back references. *)
Inductive token := Lit (l : list Z) | Ref (off len : Z).

(** Appending [n] bytes, each a copy of the one [off + 1] positions before. *)
Fixpoint copy_back (acc : list Z) (off : nat) (n : nat) : list Z :=
  match n with
  | O => acc
  | S n => copy_back (acc ++ [nth (length acc - off - 1) acc 0]) off n
  end.

Definition expand_token (acc : list Z) (t : token) : option (list Z) :=
  match t with
  | Lit l => Some (acc ++ l)
  | Ref off len => if off <? zlen acc then Some (copy_back acc (Z.to_nat off) (Z.to_nat len)) else None
  end.

Fixpoint expand (acc : list Z) (ts : list token) : option (list Z) :=
  match ts with
  | [] => Some acc
  | t :: ts => acc ← expand_token acc t; expand acc ts
  end.

(** The tokens of a compressed string, [None] when it ends inside of a token. *)
Fixpoint parse (fuel : nat) (l : list Z) : option (list token) :=
  match fuel with
  | O => None
  | S fuel =>
      match l with
      | [] => Some []
      | c :: l =>
          if c <? 32 then
            let n := Z.to_nat (c + 1) in
            if (n <=? length l)%nat then ts ← parse fuel (drop n l); Some (Lit (take n l) :: ts) else None
          else
            match l with
            | [] => None
            | b :: l =>
                if c / 32 =? 7 then
                  match l with
                  | [] => None
                  | o :: l => ts ← parse fuel l; Some (Ref (c mod 32 * 256 + o) (b + 9) :: ts)
                  end
                else ts ← parse fuel l; Some (Ref (c mod 32 * 256 + b) (c / 32 + 2) :: ts)
            end
      end
  end.

(** ** Copies *)

Lemma copy_run_spec (a b c : list Z) : ∀ x y z,
  length b = length y →
  copy_run (length b) (a ++ b ++ c) (zlen a) (x ++ y ++ z) (zlen x) = Some (x ++ b ++ z).
Proof.
  revert a. induction b as [|v b IH]; intros a x y z Hy; destruct y as [|w y]; try done. cbn [length copy_run].
  cbn [app]. rewrite peek_app by done. cbn [mbind option_bind]. rewrite poke_app by done. cbn [mbind option_bind].
  specialize (IH (a ++ [v]) (x ++ [v]) y z ltac:(simpl in Hy; lia)).
  rewrite <-!(assoc_L (++)), !length_app in IH. cbn [app length] in IH.
  replace (zlen a + 1) with (Z.of_nat (length a + 1)) by lia. replace (zlen x + 1) with (Z.of_nat (length x + 1)) by lia.
  exact IH.
Qed.

Lemma copy_back_length acc off n : length (copy_back acc off n) = (length acc + n)%nat.
Proof. revert acc. induction n as [|n IH]; intros acc; cbn [copy_back]; [lia|]. rewrite IH, length_app. simpl. lia. Qed.

Lemma copy_bytes_spec off : ∀ n acc y z,
  (off < length acc)%nat → length y = n →
  copy_bytes n (acc ++ y ++ z) (zlen acc - Z.of_nat off - 1) (zlen acc) = Some (copy_back acc off n ++ z).
Proof.
  induction n as [|n IH]; intros acc y z Ho Hy; (destruct y as [|w y]; try done); cbn [copy_bytes copy_back].
  cbn [app]. assert (peek (acc ++ w :: y ++ z) (zlen acc - Z.of_nat off - 1) = Some (nth (length acc - off - 1) acc 0)) as ->.
  { unfold peek. rewrite decide_True by lia. rewrite lookup_app_l by lia.
    replace (Z.to_nat (zlen acc - Z.of_nat off - 1)) with (length acc - off - 1)%nat by lia.
    destruct (lookup_lt_is_Some_2 acc (length acc - off - 1)) as [v Hv]; [lia|]. rewrite Hv. f_equal. symmetry. by apply nth_lookup_Some. }
  cbn [mbind option_bind]. rewrite poke_app by done. cbn [mbind option_bind]. set (v := nth _ _ _).
  specialize (IH (acc ++ [v]) y z). rewrite length_app, <-(assoc_L (++)) in IH. cbn [length app] in IH.
  replace (zlen acc - Z.of_nat off - 1 + 1) with (Z.of_nat (length acc + 1) - Z.of_nat off - 1) by lia.
  replace (zlen acc + 1) with (Z.of_nat (length acc + 1)) by lia. apply IH; [lia|]. simpl in Hy. lia.
Qed.

(** Bytes that do not reach the end are copied as they are. *)
Lemma copy_back_disjoint acc off n a b c :
  acc = a ++ b ++ c → length b = n → (length acc - off - 1 = length a)%nat → (off < length acc)%nat →
  copy_back acc off n = acc ++ b.
Proof.
  revert acc a b c. induction n as [|n IH]; intros acc a b c E Hb Ho Hlt; destruct b as [|v b]; try done; cbn [copy_back].
  { by rewrite app_nil_r. }
  assert (nth (length acc - off - 1) acc 0 = v) as ->.
  { rewrite Ho, E. apply nth_lookup_Some. by rewrite lookup_app_r, Nat.sub_diag by lia. }
  rewrite (IH _ (a ++ [v]) b (c ++ [v])).
  - by rewrite <-(assoc_L (++)).
  - rewrite E. by rewrite <-!(assoc_L (++)).
  - simpl in Hb. lia.
  - rewrite !length_app. simpl. lia.
  - rewrite length_app. simpl. lia.
Qed.

Lemma copy_ref_spec acc y z (off : nat) len :
  (off < length acc)%nat → 0 ≤ len → zlen y = len + 2 →
  copy_ref (acc ++ y ++ z) (zlen acc - Z.of_nat off - 1) (zlen acc) len =
  Some (copy_back acc off (Z.to_nat (len + 2)) ++ z).
Proof.
  intros Ho Hlen Hy. unfold copy_ref. destruct (len <=? 9); [by apply copy_bytes_spec; lia|].
  cbv zeta. destruct (Z.leb_spec (zlen acc - Z.of_nat off - 1 + (len + 2)) (zlen acc)) as [Hd|Hd]; [|by apply copy_bytes_spec; lia].
  set (n := Z.to_nat (len + 2)). set (k := (length acc - off - 1)%nat).
  assert (acc = take k acc ++ take n (drop k acc) ++ drop n (drop k acc)) as Eacc by (by rewrite !take_drop).
  assert (length (take n (drop k acc)) = n) as Hb by (rewrite length_take, length_drop; lia).
  rewrite (copy_back_disjoint acc off n (take k acc) (take n (drop k acc)) (drop n (drop k acc))); [|done|done|rewrite length_take; lia|done].
  unfold memmove.
  assert (slice (acc ++ y ++ z) (zlen acc - Z.of_nat off - 1) (len + 2) = Some (take n (drop k acc))) as ->.
  { rewrite Eacc at 1. rewrite <-!(assoc_L (++)). apply slice_app; [rewrite length_take; lia|rewrite Hb; lia]. }
  cbn [mbind option_bind]. rewrite blit_app by (done || lia). by rewrite <-(assoc_L (++)).
Qed.

(** ** Decompression is decoding *)

Lemma expand_grows ts : ∀ acc res, expand acc ts = Some res → (length acc ≤ length res)%nat.
Proof.
  induction ts as [|t ts IH]; intros acc res; cbn [expand]; [by intros [= ->]|].
  destruct (expand_token acc t) as [acc'|] eqn:E; [|done]. cbn [mbind option_bind]. intros H%IH.
  assert (length acc ≤ length acc')%nat; [|lia]. destruct t as [l|off n]; cbn [expand_token] in E.
  - injection E as <-. rewrite length_app. lia.
  - destruct (off <? zlen acc); [|done]. injection E as <-. rewrite copy_back_length. lia.
Qed.

(** What a result means for the decoding [p] of the rest of the input. *)
Definition decoded (acc tail : list Z) (p : option (list token)) (out' : list Z) (r : lzf_errno + Z) : Prop :=
  length out' = length (acc ++ tail) ∧
  match r with
  | inr n => ∃ ts res, p = Some ts ∧ expand acc ts = Some res ∧ out' = res ++ drop (length res - length acc) tail ∧ n = zlen res
  | inl _ => ∀ ts res, p = Some ts → expand acc ts = Some res → (length (acc ++ tail) < length res)%nat
  end.

(** A token was decoded. *)
Lemma decoded_step acc tail t p acc' tail' out' r :
  expand_token acc t = Some acc' → length (acc' ++ tail') = length (acc ++ tail) → tail' = drop (length acc' - length acc) tail →
  (length acc ≤ length acc')%nat →
  decoded acc' tail' p out' r → decoded acc tail (ts ← p; Some (t :: ts)) out' r.
Proof.
  intros Ht Hlen Htail Hle [H1 H2]. split; [congruence|]. destruct r as [e|n].
  - intros ts res. destruct p as [ts'|]; [|done]. intros [= <-]. cbn [expand]. rewrite Ht. cbn [mbind option_bind]. intros H.
    rewrite <-Hlen. by eapply H2.
  - destruct H2 as (ts & res & -> & E & -> & ->). exists (t :: ts), res. split; [done|]. cbn [expand]. rewrite Ht. split; [done|].
    split; [|done]. rewrite Htail, drop_drop. pose proof (expand_grows _ _ _ E). do 2 f_equal. lia.
Qed.

Lemma decoded_end acc tail : decoded acc tail (Some []) (acc ++ tail) (inr (zlen acc)).
Proof. split; [done|]. exists [], acc. split; [done|]. split; [done|]. by rewrite Nat.sub_diag. Qed.

(** The test at the end of the loop. *)
Definition go_on (fuel : nat) (inp : list Z) (p : Z) (out : list Z) (o : Z) : option (list Z * (lzf_errno + Z)) :=
  if p <? zlen inp then decompress_loop fuel inp p out o else Some (out, inr o).

(** The loop decodes what is left of the input. *)
Definition goes_on (fuel : nat) (inp : list Z) : Prop := ∀ l pre acc tail,
  inp = pre ++ l → (length l < fuel)%nat → Forall is_byte l →
  ∃ out' r, go_on fuel inp (zlen pre) (acc ++ tail) (zlen acc) = Some (out', r) ∧
    ∀ F, (length l < F)%nat → decoded acc tail (parse F l) out' r.

(** A result that holds for every larger fuel of [parse]. *)
Definition step_result (acc tail : list Z) (l : list Z) (res : option (list Z * (lzf_errno + Z))) : Prop :=
  ∃ out' r, res = Some (out', r) ∧ ∀ F, (length l ≤ F)%nat → decoded acc tail (parse (S F) l) out' r.

Lemma literal_step fuel inp pre c l acc tail :
  goes_on fuel inp → inp = pre ++ c :: l → (length l < fuel)%nat → Forall is_byte l → 0 ≤ c < 32 →
  step_result acc tail (c :: l)
    (if zlen (acc ++ tail) <? zlen acc + (c + 1) then Some (acc ++ tail, inl E2BIG)
     else if zlen inp <? zlen pre + 1 + (c + 1) then Some (acc ++ tail, inl EINVAL)
     else out ← copy_run (Z.to_nat (c + 1)) inp (zlen pre + 1) (acc ++ tail) (zlen acc);
          go_on fuel inp (zlen pre + 1 + (c + 1)) out (zlen acc + (c + 1))).
Proof.
  intros Hgo Hinp Hf Hb Hc. set (n := Z.to_nat (c + 1)).
  assert (∀ F, parse (S F) (c :: l) = if (n <=? length l)%nat then ts ← parse F (drop n l); Some (Lit (take n l) :: ts) else None) as Hp.
  { intros F. cbn [parse]. by rewrite (proj2 (Z.ltb_lt c 32)) by lia. }
  assert (zlen inp = zlen pre + 1 + zlen l) as Hlen by (rewrite Hinp, length_app; cbn [length]; lia).
  destruct (Z.ltb_spec (zlen (acc ++ tail)) (zlen acc + (c + 1))) as [Hbig|Hfit].
  { eexists _, _. split; [done|]. intros F HF. rewrite Hp. split; [done|]. intros ts res.
    destruct (Nat.leb_spec n (length l)); [|done]. destruct (parse F (drop n l)) as [ts'|]; [|done].
    intros [= <-]. cbn [expand expand_token mbind option_bind]. intros E%expand_grows. rewrite length_app, length_take in E.
    rewrite length_app in Hbig |- *. lia. }
  destruct (Z.ltb_spec (zlen inp) (zlen pre + 1 + (c + 1))) as [Hend|Hin].
  { eexists _, _. split; [done|]. intros F HF. rewrite Hp, (proj2 (Nat.leb_gt _ _)) by lia. by split. }
  assert (l = take n l ++ drop n l) as El by (by rewrite take_drop).
  assert (length (take n l) = n) as Hn1 by (rewrite length_take; lia).
  rewrite length_app in Hfit.
  assert (copy_run n inp (zlen pre + 1) (acc ++ tail) (zlen acc) = Some ((acc ++ take n l) ++ drop n tail)) as ->.
  { pose proof (copy_run_spec (pre ++ [c]) (take n l) (drop n l) acc (take n tail) (drop n tail)) as E.
    rewrite Hn1, length_app, !take_drop, <-(assoc_L (++)) in E. cbn [length app] in E. rewrite <-(assoc_L (++)).
    replace (zlen pre + 1) with (Z.of_nat (length pre + 1)) by lia. rewrite Hinp. apply E. rewrite length_take. lia. }
  cbn [mbind option_bind].
  destruct (Hgo (drop n l) (pre ++ c :: take n l) (acc ++ take n l) (drop n tail)) as (out' & r & E & H).
  { rewrite Hinp, <-(assoc_L (++)). cbn [app]. by rewrite <-El. }
  { rewrite length_drop. lia. }
  { by apply Forall_drop. }
  rewrite !length_app in E. cbn [length] in E. rewrite Hn1 in E.
  replace (zlen pre + 1 + (c + 1)) with (Z.of_nat (length pre + S n)) by lia. replace (zlen acc + (c + 1)) with (Z.of_nat (length acc + n)) by lia.
  exists out', r. split; [exact E|]. intros F HF. rewrite Hp, (proj2 (Nat.leb_le _ _)) by lia.
  eapply decoded_step; [done|..|apply H; rewrite length_drop; simpl in HF; lia].
  - rewrite !length_app, length_drop. lia.
  - rewrite length_app. f_equal. lia.
  - rewrite length_app. lia.
Qed.

(** A back reference after its length, in both forms. *)
Lemma ref_step fuel inp pre l' o acc tail hi len full :
  goes_on fuel inp → inp = pre ++ o :: l' → (length l' < fuel)%nat → Forall is_byte l' → 0 ≤ o → 0 ≤ hi → 1 ≤ len →
  (length l' ≤ length full)%nat →
  (∀ F, (length full ≤ F)%nat → ∃ F', (length l' < F')%nat ∧ parse (S F) full = ts ← parse F' l'; Some (Ref (hi * 256 + o) (len + 2) :: ts)) →
  step_result acc tail full
    (if zlen (acc ++ tail) <? zlen acc + len + 2 then Some (acc ++ tail, inl E2BIG)
     else if zlen acc - hi * 256 - 1 - o <? 0 then Some (acc ++ tail, inl EINVAL)
     else out ← copy_ref (acc ++ tail) (zlen acc - hi * 256 - 1 - o) (zlen acc) len;
          go_on fuel inp (zlen pre + 1) out (zlen acc + (len + 2))).
Proof.
  intros Hgo Hinp Hf Hb Ho Hhi Hlen Hfull Hp. set (off := Z.to_nat (hi * 256 + o)). set (n := Z.to_nat (len + 2)).
  destruct (Z.ltb_spec (zlen (acc ++ tail)) (zlen acc + len + 2)) as [Hbig|Hfit].
  { eexists _, _. split; [done|]. intros F HF. destruct (Hp F HF) as (F' & HF' & ->). split; [done|]. intros ts res.
    destruct (parse F' l') as [ts'|]; [|done]. intros [= <-]. cbn [expand expand_token].
    destruct (hi * 256 + o <? zlen acc); [|done]. cbn [mbind option_bind]. intros E%expand_grows.
    rewrite copy_back_length in E. rewrite !length_app in *. lia. }
  destruct (Z.ltb_spec (zlen acc - hi * 256 - 1 - o) 0) as [Hneg|Hpos].
  { eexists _, _. split; [done|]. intros F HF. destruct (Hp F HF) as (F' & HF' & ->). split; [done|]. intros ts res.
    destruct (parse F' l') as [ts'|]; [|done]. intros [= <-]. cbn [expand expand_token].
    rewrite (proj2 (Z.ltb_ge _ _)) by lia. done. }
  rewrite length_app in Hfit.
  assert (copy_ref (acc ++ tail) (zlen acc - hi * 256 - 1 - o) (zlen acc) len = Some (copy_back acc off n ++ drop n tail)) as ->.
  { rewrite <-(take_drop n tail) at 1. replace (zlen acc - hi * 256 - 1 - o) with (zlen acc - Z.of_nat off - 1) by lia.
    apply copy_ref_spec; [lia|lia|rewrite length_take; lia]. }
  cbn [mbind option_bind].
  destruct (Hgo l' (pre ++ [o]) (copy_back acc off n) (drop n tail)) as (out' & r & E & H); [by rewrite Hinp, <-(assoc_L (++))|done|done|].
  rewrite length_app, copy_back_length in E. cbn [length] in E.
  replace (zlen pre + 1) with (Z.of_nat (length pre + 1)) by lia. replace (zlen acc + (len + 2)) with (Z.of_nat (length acc + n)) by lia.
  exists out', r. split; [exact E|]. intros F HF. destruct (Hp F HF) as (F' & HF' & ->).
  eapply (decoded_step acc tail _ _ (copy_back acc off n) (drop n tail)); [| | | |by apply H].
  - cbn [expand_token]. by rewrite (proj2 (Z.ltb_lt _ _)) by lia.
  - rewrite !length_app, copy_back_length, length_drop. lia.
  - rewrite copy_back_length. f_equal. lia.
  - rewrite copy_back_length. lia.
Qed.

Lemma ctrl_bits c : 32 ≤ c < 256 →
  Z.shiftr c 5 = c / 32 ∧ Z.shiftl (Z.land c 31) 8 = c mod 32 * 256 ∧ 1 ≤ c / 32 ≤ 7 ∧ 0 ≤ c mod 32.
Proof.
  intros Hc. rewrite Z.shiftr_div_pow2, Z.shiftl_mul_pow2 by lia. change (Z.land c 31) with (Z.land c (Z.ones 5)).
  rewrite Z.land_ones by lia. change (2 ^ 5) with 32. change (2 ^ 8) with 256. split; [done|]. split; [done|].
  pose proof (Z.div_mod c 32). pose proof (Z.mod_pos_bound c 32). lia.
Qed.

Lemma decompress_step fuel inp pre c l acc tail :
  goes_on fuel inp → inp = pre ++ c :: l → (length l < fuel)%nat → Forall is_byte (c :: l) →
  step_result acc tail (c :: l) (decompress_loop (S fuel) inp (zlen pre) (acc ++ tail) (zlen acc)).
Proof.
  intros Hgo Hinp Hf [Hc Hb]%Forall_cons. unfold is_byte in Hc. cbn [decompress_loop].
  assert (peek inp (zlen pre) = Some c) as -> by (rewrite Hinp; by apply peek_app). cbn [mbind option_bind].
  assert (zlen inp = zlen pre + 1 + zlen l) as Hlen by (rewrite Hinp, length_app; cbn [length]; lia).
  assert (Z.shiftl 1 5 = 32) as -> by done. destruct (Z.ltb_spec c 32) as [Hlt|Hge].
  { exact (literal_step fuel inp pre c l acc tail Hgo Hinp Hf Hb (conj (proj1 Hc) Hlt)). }
  destruct (ctrl_bits c) as (-> & -> & Hq & Hm); [lia|].
  assert (∀ F rest, parse (S F) (c :: rest) = match rest with [] => None | b :: l => if c / 32 =? 7 then match l with [] => None | o :: l => ts ← parse F l; Some (Ref (c mod 32 * 256 + o) (b + 9) :: ts) end else ts ← parse F l; Some (Ref (c mod 32 * 256 + b) (c / 32 + 2) :: ts) end) as Hp.
  { intros F rest. cbn [parse]. by rewrite (proj2 (Z.ltb_ge c 32)) by lia. }
  destruct l as [|b l].
  { rewrite (proj2 (Z.leb_le _ _)) by (simpl in Hlen; lia). eexists _, _. split; [done|]. intros F HF. rewrite Hp. by split. }
  rewrite (proj2 (Z.leb_gt _ _)) by (cbn [length] in Hlen; lia). apply Forall_cons in Hb as [Hbb Hb]. unfold is_byte in Hbb.
  assert (inp = (pre ++ [c]) ++ b :: l) as Hinp1 by (by rewrite Hinp, <-(assoc_L (++))).
  assert (peek inp (zlen pre + 1) = Some b) as Hpb by (rewrite Hinp1; apply peek_app; rewrite length_app; simpl; lia).
  destruct (Z.eqb_spec (c / 32) 7) as [E7|E7].
  - rewrite Hpb. cbn [mbind option_bind]. destruct l as [|o l].
    { rewrite (proj2 (Z.leb_le _ _)) by (simpl in Hlen; lia). eexists _, _. split; [done|]. intros F HF. rewrite Hp. by split. }
    rewrite (proj2 (Z.leb_gt _ _)) by (cbn [length] in Hlen; lia). apply Forall_cons in Hb as [Hbo Hb]. unfold is_byte in Hbo.
    assert (inp = (pre ++ [c; b]) ++ o :: l) as Hinp2 by (by rewrite Hinp, <-(assoc_L (++))).
    assert (peek inp (zlen pre + 1 + 1) = Some o) as -> by (rewrite Hinp2; apply peek_app; rewrite length_app; simpl; lia).
    cbn [mbind option_bind].
    pose proof (ref_step fuel inp (pre ++ [c; b]) l o acc tail (c mod 32) (c / 32 + b) (c :: b :: o :: l) Hgo Hinp2) as H.
    replace (zlen (pre ++ [c; b]) + 1) with (zlen pre + 1 + 1 + 1) in H by (rewrite length_app; simpl; lia).
    apply H; [simpl in Hf; lia|done|lia|lia|lia|simpl; lia|]. intros F HF. exists F. split; [cbn [length] in HF; lia|].
    rewrite Hp. rewrite E7. by replace (7 + b + 2) with (b + 9) by lia.
  - cbn [mbind option_bind]. rewrite Hpb. cbn [mbind option_bind].
    pose proof (ref_step fuel inp (pre ++ [c]) l b acc tail (c mod 32) (c / 32) (c :: b :: l) Hgo Hinp1) as H.
    replace (zlen (pre ++ [c]) + 1) with (zlen pre + 1 + 1) in H by (rewrite length_app; simpl; lia).
    apply H; [simpl in Hf; lia|done|lia|lia|lia|simpl; lia|]. intros F HF. exists F. split; [cbn [length] in HF; lia|].
    by rewrite Hp.
Qed.

Lemma decompress_goes_on inp fuel : goes_on fuel inp.
Proof.
  induction fuel as [|fuel IH]; intros l pre acc tail Hinp Hf Hb; [lia|]. unfold go_on. rewrite Hinp, length_app.
  destruct l as [|c l].
  - rewrite (proj2 (Z.ltb_ge _ _)) by (simpl; lia). eexists _, _. split; [done|]. intros [|F] HF; [lia|]. apply decoded_end.
  - rewrite (proj2 (Z.ltb_lt _ _)) by (cbn [length]; lia). rewrite <-Hinp.
    destruct (decompress_step fuel inp pre c l acc tail IH Hinp) as (out' & r & E & H); [simpl in Hf; lia|done|].
    exists out', r. split; [done|]. intros [|F] HF; [lia|]. apply H. cbn [length] in *. lia.
Qed.

(** The decoding of a compressed string. *)
Definition decode (l : list Z) : option (list Z) := ts ← parse (S (length l)) l; expand [] ts.

Lemma decompress_decode inp buf :
  inp ≠ [] → Forall is_byte inp →
  ∃ out' r, lzf_decompress inp buf = Some (out', r) ∧ length out' = length buf ∧
    match r with
    | inr n => ∃ res, decode inp = Some res ∧ n = zlen res ∧ out' = res ++ drop (length res) buf
    | inl _ => ∀ res, decode inp = Some res → zlen buf < zlen res
    end.
Proof.
  intros Hne Hb. destruct inp as [|c l]; [done|].
  destruct (decompress_step (length (c :: l)) (c :: l) [] c l [] buf) as (out' & r & E & H); [apply decompress_goes_on|done|simpl; lia|done|].
  exists out', r. split; [exact E|]. destruct (H (length (c :: l)) (le_n _)) as [H1 H2]. split; [done|]. unfold decode. destruct r as [e|n].
  - intros res. destruct (parse _ (c :: l)) as [ts|]; [|done]. cbn [mbind option_bind]. intros Er. specialize (H2 ts res eq_refl Er).
    cbn [app] in H2. lia.
  - destruct H2 as (ts & res & -> & Er & -> & ->). exists res. split; [done|]. split; [done|]. by rewrite Nat.sub_0_r.
Qed.

(** ** Encoding *)

Definition enc_token (t : token) : list Z :=
  match t with
  | Lit l => (zlen l - 1) :: l
  | Ref off len =>
      let len := len - 2 in
      if len <? 7 then [off / 256 + len * 32; off mod 256] else [off / 256 + 224; len - 7; off mod 256]
  end.

Definition enc (ts : list token) : list Z := ts ≫= enc_token.

Definition wf_token (t : token) : Prop :=
  match t with
  | Lit l => (1 ≤ length l ≤ 32)%nat ∧ Forall is_byte l
  | Ref off len => 0 ≤ off < 8192 ∧ 3 ≤ len ≤ 264
  end.

Lemma enc_app ts ts' : enc (ts ++ ts') = enc ts ++ enc ts'.
Proof. apply bind_app. Qed.

Lemma enc_snoc ts t : enc (ts ++ [t]) = enc ts ++ enc_token t.
Proof. rewrite enc_app. unfold enc at 2. cbn [mbind list_bind]. by rewrite app_nil_r. Qed.

(** The two bytes of an offset and a length. *)
Lemma ref_byte off k : 0 ≤ off < 8192 → 0 ≤ k → (off / 256 + k * 32) / 32 = k ∧ (off / 256 + k * 32) mod 32 = off / 256 ∧ 0 ≤ off / 256 < 32.
Proof.
  intros Ho Hk. assert (0 ≤ off / 256 < 32) as Hd by (pose proof (Z.div_mod off 256); pose proof (Z.mod_pos_bound off 256); lia).
  rewrite Z.div_add, Z.div_small, Z.mod_add, Z.mod_small by lia. lia.
Qed.

Lemma enc_bytes ts : Forall wf_token ts → Forall is_byte (enc ts).
Proof.
  induction 1 as [|t ts Ht Hts IH]; [done|]. unfold enc. cbn [mbind list_bind]. apply Forall_app. split; [|exact IH].
  destruct t as [l|off len]; cbn [wf_token enc_token] in *.
  - destruct Ht as [Hl Hb]. apply Forall_cons. split; [unfold is_byte; lia|done].
  - destruct Ht as [Ho Hl]. destruct (ref_byte off 0 Ho) as (_ & _ & Hd); [lia|]. pose proof (Z.mod_pos_bound off 256).
    destruct (Z.ltb_spec (len - 2) 7); repeat (apply Forall_cons; split; [unfold is_byte; lia|]); by apply Forall_nil.
Qed.

Lemma parse_enc ts : Forall wf_token ts → ∀ F, (length (enc ts) < F)%nat → parse F (enc ts) = Some ts.
Proof.
  induction 1 as [|t ts Ht Hts IH]; intros F HF; (destruct F as [|F]; [lia|]); [done|].
  unfold enc in *. cbn [mbind list_bind] in *. fold (enc ts) in *. rewrite length_app in HF.
  destruct t as [l|off len]; cbn [wf_token enc_token] in *.
  - destruct Ht as [Hl Hb]. cbn [app parse length] in *. rewrite (proj2 (Z.ltb_lt _ _)) by lia.
    replace (Z.to_nat (zlen l - 1 + 1)) with (length l) by lia. rewrite (proj2 (Nat.leb_le _ _)) by (rewrite length_app; lia).
    rewrite drop_app_length, take_app_length, IH by lia. done.
  - destruct Ht as [Ho Hl]. pose proof (Z.div_mod off 256). destruct (Z.ltb_spec (len - 2) 7) as [H7|H7]; cbn [app parse length] in *.
    + destruct (ref_byte off (len - 2) Ho) as (-> & -> & Hd); [lia|]. rewrite (proj2 (Z.ltb_ge _ _)), (proj2 (Z.eqb_neq _ _)) by lia.
      rewrite IH by lia. cbn [mbind option_bind]. do 3 f_equal; lia.
    + destruct (ref_byte off 7 Ho) as (E1 & E2 & Hd); [lia|]. change (7 * 32) with 224 in *. rewrite E1, E2.
      rewrite (proj2 (Z.ltb_ge _ _)) by lia. rewrite IH by lia. cbn [Z.eqb Pos.eqb mbind option_bind]. do 3 f_equal; lia.
Qed.

Lemma expand_snoc ts t : ∀ acc, expand acc (ts ++ [t]) = acc ← expand acc ts; expand_token acc t.
Proof.
  induction ts as [|u ts IH]; intros acc; cbn [app expand].
  - cbn [mbind option_bind]. by destruct (expand_token acc t).
  - destruct (expand_token acc u) as [acc'|]; cbn [mbind option_bind]; [apply IH|done].
Qed.

(** ** Compression *)

Section CompressProofs.

Context (inp : list Z).

Lemma peek_in p : 0 ≤ p < zlen inp → ∃ b, peek inp p = Some b ∧ inp !! Z.to_nat p = Some b.
Proof.
  intros Hp. unfold peek. rewrite decide_True by lia. destruct (lookup_lt_is_Some_2 inp (Z.to_nat p)) as [b Hb]; [lia|]. eauto.
Qed.

(** The bytes at [ref] and [p] agree for the length [n]. *)
Definition agree (ref p n : Z) : Prop := ∀ j, 0 ≤ j < n → peek inp (ref + j) = peek inp (p + j).

Lemma match_unrolled_spec ref p : ∀ n len,
  0 ≤ ref < p → 0 ≤ len → agree ref p (len + 1) → p + len + Z.of_nat n < zlen inp →
  ∃ len' b, match_unrolled inp n ref p len = Some (len', b) ∧ len ≤ len' ≤ len + Z.of_nat n ∧
    (if (b : bool) then len < len' ∧ agree ref p len' else len' = len + Z.of_nat n ∧ agree ref p (len' + 1)).
Proof.
  induction n as [|n IH]; intros len Hr Hl Ha Hn; cbn [match_unrolled].
  { exists len, false. split; [done|]. split; [lia|]. split; [lia|done]. }
  destruct (peek_in (ref + (len + 1))) as (a & Ea & _); [lia|]. destruct (peek_in (p + (len + 1))) as (b & Eb & _); [lia|].
  rewrite Ea, Eb. cbn [mbind option_bind]. destruct (Z.eqb_spec a b) as [-> |Hne].
  - destruct (IH (len + 1)) as (len' & f & E & Hb & Hf); [lia|lia| |lia|].
    + intros j Hj. destruct (decide (j = len + 1)) as [-> |]; [congruence|]. apply Ha. lia.
    + exists len', f. split; [done|]. split; [lia|]. destruct f; [split; [lia|tauto]|]. split; [lia|tauto].
  - exists (len + 1), true. split; [done|]. split; [lia|]. split; [lia|done].
Qed.

Lemma match_tail_spec ref p maxlen : ∀ fuel len,
  0 ≤ ref < p → 0 ≤ len → agree ref p (len + 1) → p + maxlen ≤ zlen inp → maxlen ≤ len + Z.of_nat fuel → (0 < fuel)%nat →
  ∃ len', match_tail inp fuel ref p maxlen len = Some len' ∧ len + 1 ≤ len' ≤ Z.max (len + 1) maxlen ∧ agree ref p len'.
Proof.
  induction fuel as [|fuel IH]; intros len Hr Hl Ha Hp Hm Hf; [lia|]. cbn [match_tail].
  destruct (Z.ltb_spec (len + 1) maxlen) as [Hlt|Hge]; [|exists (len + 1); split; [done|]; split; [lia|done]].
  destruct (peek_in (ref + (len + 1))) as (a & Ea & _); [lia|]. destruct (peek_in (p + (len + 1))) as (b & Eb & _); [lia|].
  rewrite Ea, Eb. cbn [mbind option_bind]. destruct (Z.eqb_spec a b) as [-> |Hne].
  - destruct (IH (len + 1)) as (len' & E & Hb & Ha'); [lia|lia| |lia|lia|lia|].
    + intros j Hj. destruct (decide (j = len + 1)) as [-> |]; [congruence|]. apply Ha. lia.
    + exists len'. split; [done|]. split; [lia|done].
  - exists (len + 1). split; [done|]. split; [lia|done].
Qed.

Lemma match_len_spec ref p maxlen :
  0 ≤ ref < p → p + maxlen + 2 ≤ zlen inp → 1 ≤ maxlen ≤ MAX_REF → agree ref p 3 →
  ∃ len, match_len inp ref p maxlen = Some len ∧ 3 ≤ len ≤ maxlen + 2 ∧ len ≤ 264 ∧ agree ref p len.
Proof.
  intros Hr Hp Hm Ha. unfold match_len. assert (MAX_REF = 264) as EM by done. rewrite EM in *.
  destruct (Z.ltb_spec 16 maxlen) as [H16|H16].
  - destruct (match_unrolled_spec ref p 16 2) as (len & b & -> & Hb & H); [lia|lia|done|lia|]. cbn [mbind option_bind]. destruct b.
    + exists len. split; [done|]. split; [lia|]. split; [lia|tauto].
    + destruct H as [-> H]. destruct (match_tail_spec ref p maxlen (Z.to_nat 264) (2 + Z.of_nat 16)) as (len' & -> & Hl & Ha');
        [lia|lia|done|lia|lia|lia|]. exists len'. split; [done|]. split; [lia|]. split; [lia|done].
  - destruct (match_tail_spec ref p maxlen (Z.to_nat 264) 2) as (len' & -> & Hl & Ha'); [lia|lia|done|lia|lia|lia|].
    exists len'. split; [done|]. split; [lia|]. split; [lia|done].
Qed.

(** A match found is real, whatever the hash table holds. *)
Lemma find_match_spec ref p :
  in_u 32 ref → 0 ≤ p < 2 ^ 32 → p + 2 < zlen inp →
  ∃ m, find_match inp ref p = Some m ∧
    match m with
    | Some off => 0 ≤ off < 8192 ∧ 0 < ref ∧ ref = p - off - 1 ∧ agree ref p 3
    | None => True
    end.
Proof.
  intros Hr Hp Hin. unfold find_match. unfold in_u in Hr. destruct (_ && _) eqn:E; [|by exists None].
  apply andb_true_iff in E as [E1%Z.ltb_lt E2%Z.ltb_lt]. change MAX_OFF with 8192 in E1.
  assert (u64 (p - ref - 1) = p - ref - 1 ∧ ref < p) as [Eo Hlt].
  { unfold wrap_u in *. destruct (Z.ltb_spec ref p) as [Hlt|Hge].
    - split; [|done]. apply Z.mod_small. lia.
    - exfalso. rewrite <-(Z.mod_unique (p - ref - 1) (2 ^ 64) (-1) (p - ref - 1 + 2 ^ 64)) in E1 by lia. lia. }
  rewrite Eo in *.
  destruct (peek_in (ref + 2)) as (r2 & Er2 & _); [lia|]. destruct (peek_in (p + 2)) as (p2 & Ep2 & _); [lia|].
  rewrite Er2, Ep2. cbn [mbind option_bind]. destruct (Z.eqb_spec r2 p2) as [-> |]; [|by exists None].
  destruct (peek_in ref) as (r0 & Er0 & _); [lia|]. destruct (peek_in (ref + 1)) as (r1 & Er1 & _); [lia|].
  destruct (peek_in p) as (p0 & Ep0 & _); [lia|]. destruct (peek_in (p + 1)) as (p1 & Ep1 & _); [lia|].
  rewrite Er0, Er1, Ep0, Ep1. cbn [mbind option_bind]. destruct (_ && _) eqn:E; [|by exists None].
  apply andb_true_iff in E as [->%Z.eqb_eq ->%Z.eqb_eq]. exists (Some (p - ref - 1)). split; [done|].
  split; [lia|]. split; [done|]. split; [lia|]. intros j Hj.
  assert (j = 0 ∨ j = 1 ∨ j = 2) as [->|[->| ->]] by lia; rewrite ?Z.add_0_r; congruence.
Qed.

(** A back reference to matching bytes appends them. *)
Lemma copy_back_match : ∀ n p ref,
  (ref < p)%nat → (p + n ≤ length inp)%nat → (∀ j, (j < n)%nat → inp !! (ref + j)%nat = inp !! (p + j)%nat) →
  copy_back (take p inp) (p - ref - 1) n = take (p + n) inp.
Proof.
  induction n as [|n IH]; intros p ref Hr Hp Ha; cbn [copy_back]; [by rewrite Nat.add_0_r|].
  rewrite length_take, Nat.min_l by lia. replace (p - (p - ref - 1) - 1)%nat with ref by lia.
  destruct (lookup_lt_is_Some_2 inp p) as [b Hb]; [lia|].
  assert (nth ref (take p inp) 0 = b) as ->.
  { apply nth_lookup_Some. rewrite lookup_take_lt by lia. specialize (Ha 0%nat ltac:(lia)). rewrite !Nat.add_0_r in Ha. congruence. }
  rewrite <-take_S_r by done. replace (p - ref - 1)%nat with (S p - S ref - 1)%nat by lia.
  rewrite (IH (S p) (S ref)); [f_equal; lia|lia|lia|]. intros j Hj. specialize (Ha (S j) ltac:(lia)).
  by rewrite !Nat.add_succ_r in Ha; cbn [Nat.add].
Qed.

(** The state between two steps: complete tokens were written for a prefix of the input,
    then comes the byte for the length of the current run and its literals. *)
Record cinv (s : lzf_state) (ts : list token) (lits : list Z) : Prop := {
  ci_tokens : Forall wf_token ts;
  ci_expand : expand [] ts = Some (take (Z.to_nat (ip s - lit s)) inp);
  ci_lits : lits = take (Z.to_nat (lit s)) (drop (Z.to_nat (ip s - lit s)) inp);
  ci_lit : 0 ≤ lit s < 32 ∧ lit s ≤ ip s ∧ ip s ≤ zlen inp;
  ci_op : op s = zlen (enc ts) + 1 + lit s;
  ci_out : ∃ tail, out s = enc ts ++ tail ∧ (lits = [] ∨ ∃ x tail', tail = x :: lits ++ tail');
  ci_htab i : in_u 32 (htab s i);
}.

Lemma ci_lits_length s ts lits : cinv s ts lits → zlen lits = lit s.
Proof. intros [_ _ -> H _ _ _]. rewrite length_take, length_drop. lia. Qed.

Lemma ci_run_byte s ts lits : cinv s ts lits → Forall is_byte inp → Forall is_byte lits.
Proof. intros [_ _ -> _ _ _ _] H. by apply Forall_take, Forall_drop. Qed.

(** The literals with one more byte. *)
Lemma lits_snoc (i l : Z) b :
  0 ≤ l ≤ i → inp !! Z.to_nat i = Some b →
  take (Z.to_nat (l + 1)) (drop (Z.to_nat (i - l)) inp) = take (Z.to_nat l) (drop (Z.to_nat (i - l)) inp) ++ [b].
Proof.
  intros Hl Hb. replace (Z.to_nat (l + 1)) with (S (Z.to_nat l)) by lia. apply take_S_r. rewrite lookup_drop.
  replace (Z.to_nat (i - l) + Z.to_nat l)%nat with (Z.to_nat i) by lia. done.
Qed.

(** The prefix followed by the literals. *)
Lemma prefix_lits (i l : Z) :
  0 ≤ l ≤ i → take (Z.to_nat (i - l)) inp ++ take (Z.to_nat l) (drop (Z.to_nat (i - l)) inp) = take (Z.to_nat i) inp.
Proof.
  intros Hl. rewrite take_take_drop. f_equal. lia.
Qed.

Lemma end_run_spec s ts lits :
  Forall is_byte inp → cinv s ts lits → zlen (enc ts) < zlen (out s) →
  ∃ o out' ts' tail', end_run s = Some (o, out') ∧ out' = enc ts' ++ tail' ∧ o = zlen (enc ts') ∧ Forall wf_token ts' ∧
    expand [] ts' = Some (take (Z.to_nat (ip s)) inp) ∧ length out' = length (out s) ∧
    o = op s - (if lit s =? 0 then 1 else 0).
Proof.
  intros Hbytes Hc Hroom. pose proof (ci_lits_length _ _ _ Hc) as Hll. pose proof (ci_run_byte _ _ _ Hc Hbytes) as Hlb.
  destruct Hc as [Hwf Hexp Hlits Hlit Hop (tail & Hout & Htail) _]. unfold end_run.
  replace (op s - lit s - 1) with (zlen (enc ts)) by lia. rewrite Hout in *.
  destruct (Z.eqb_spec (lit s) 0) as [E0|E0].
  - rewrite length_app in Hroom. destruct tail as [|x tail]; [simpl in Hroom; lia|]. rewrite poke_app by done. cbn [mbind option_bind].
    eexists _, _, ts, _. split; [done|]. split; [done|]. split; [lia|]. split; [done|]. split; [|rewrite !length_app; cbn [length]; lia].
    rewrite E0 in Hexp. by rewrite Z.sub_0_r in Hexp.
  - destruct Htail as [->|(x & tail' & ->)]; [simpl in Hll; lia|]. rewrite poke_app by done. cbn [mbind option_bind].
    assert (u8 (lit s - 1) = zlen lits - 1) as -> by (rewrite wrap_u_small by (unfold in_u; lia); lia).
    eexists _, _, (ts ++ [Lit lits]), tail'. split; [done|]. rewrite enc_snoc. cbn [enc_token].
    split; [by rewrite <-(assoc_L (++))|]. split; [rewrite length_app; cbn [length]; lia|].
    split; [apply Forall_app; split; [done|]; apply Forall_singleton; cbn [wf_token]; split; [lia|done]|].
    split; [|rewrite !length_app; cbn [length]; lia].
    rewrite expand_snoc, Hexp. cbn [mbind option_bind expand_token]. rewrite Hlits. f_equal. apply prefix_lits. lia.
Qed.

Lemma put_literal_spec s ts lits :
  Forall is_byte inp → cinv s ts lits → ip s < zlen inp → op s < zlen (out s) →
  ∃ s' ts' lits', put_literal inp s = Some s' ∧ cinv s' ts' lits' ∧ ip s' = ip s + 1 ∧ length (out s') = length (out s) ∧
    hval s' = hval s ∧ ((lit s' = lit s + 1 ∧ op s' = op s + 1 ∧ lit s + 1 < 32) ∨ (lit s = 31 ∧ lit s' = 0 ∧ op s' = op s + 2)).
Proof.
  intros Hbytes Hc Hin Hroom. pose proof (ci_lits_length _ _ _ Hc) as Hll. pose proof (ci_run_byte _ _ _ Hc Hbytes) as Hlb.
  destruct Hc as [Hwf Hexp Hlits Hlit Hop (tail & Hout & Htail) Ht]. unfold put_literal.
  destruct (peek_in (ip s)) as (b & -> & Hb); [lia|]. cbn [mbind option_bind].
  (* there is room after the run *)
  assert (∃ x y tail', tail = x :: lits ++ y :: tail') as (x & y & tail' & ->).
  { rewrite Hop, Hout, length_app in Hroom. destruct Htail as [->|(x & tail' & ->)].
    - destruct tail as [|x [|y tail]]; [simpl in *; lia|simpl in *; lia|]. by exists x, y, tail.
    - cbn [length] in Hroom. rewrite length_app in Hroom. destruct tail' as [|y tail']; [simpl in Hroom; lia|]. by exists x, y, tail'. }
  assert (poke (out s) (op s) b = Some (enc ts ++ x :: (lits ++ [b]) ++ tail')) as ->.
  { rewrite Hout. replace (enc ts ++ x :: lits ++ y :: tail') with ((enc ts ++ x :: lits) ++ y :: tail') by (by rewrite <-(assoc_L (++))).
    rewrite poke_app by (rewrite length_app; cbn [length]; lia). by rewrite <-!(assoc_L (++)). }
  cbn [mbind option_bind].
  assert (length (enc ts ++ x :: (lits ++ [b]) ++ tail') = length (out s)) as Hlen.
  { rewrite Hout, !length_app. cbn [length]. rewrite !length_app. cbn [length]. lia. }
  pose proof (lits_snoc (ip s) (lit s) b ltac:(lia) Hb) as Hsnoc. rewrite <-Hlits in Hsnoc.
  change MAX_LIT with 32. destruct (Z.eqb_spec (lit s + 1) 32) as [E32|E32].
  - replace (op s + 1 - (lit s + 1) - 1) with (zlen (enc ts)) by lia. rewrite poke_app by done. cbn [mbind option_bind].
    eexists _, (ts ++ [Lit (lits ++ [b])]), []. split; [done|]. split; [|split; [done|split; [|split; [done|right; cbn [lit op]; lia]]]].
    + split; cbn [ip lit op out htab].
      * apply Forall_app. split; [done|]. apply Forall_singleton. cbn [wf_token]. rewrite length_app. cbn [length]. split; [lia|].
        apply Forall_app. split; [done|]. apply Forall_singleton. rewrite Forall_forall in Hbytes. apply Hbytes. by eapply list_elem_of_lookup_2.
      * rewrite expand_snoc, Hexp. cbn [mbind option_bind expand_token]. f_equal. rewrite <-Hsnoc.
        rewrite take_take_drop. f_equal. lia.
      * done.
      * lia.
      * rewrite enc_snoc. cbn [enc_token]. rewrite !length_app. cbn [length]. rewrite length_app. cbn [length]. lia.
      * exists tail'. split; [|by left]. rewrite enc_snoc. cbn [enc_token].
        assert (u8 (lit s + 1 - 1) = zlen (lits ++ [b]) - 1) as ->.
        { rewrite length_app. cbn [length]. rewrite wrap_u_small by (unfold in_u; lia). lia. }
        by rewrite <-(assoc_L (++) (enc ts)).
      * done.
    + cbn [out]. rewrite <-Hlen, !length_app. done.
  - eexists _, ts, (lits ++ [b]). split; [done|]. split; [|split; [done|split; [done|split; [done|left; cbn [lit op]; lia]]]].
    split; cbn [ip lit op out htab]; try done.
    * rewrite Hexp. do 2 f_equal. lia.
    * rewrite <-Hsnoc. do 2 f_equal. lia.
    * lia.
    * lia.
    * eexists. split; [done|]. right. by exists x, tail'.
Qed.

Lemma put_ref_spec e x off len :
  0 ≤ off < 8192 → 1 ≤ len ≤ 262 → 3 ≤ zlen x →
  ∃ x', put_ref (e ++ x) (zlen e) off len = Some (zlen e + zlen (enc_token (Ref off (len + 2))), e ++ enc_token (Ref off (len + 2)) ++ x') ∧
    length (enc_token (Ref off (len + 2)) ++ x') = length x.
Proof.
  intros Ho Hl Hx. destruct x as [|x0 [|x1 [|x2 x]]]; try (simpl in Hx; lia). unfold put_ref. cbn [enc_token].
  replace (len + 2 - 2) with len by lia. destruct (ref_byte off 0 Ho) as (_ & _ & Hd); [lia|].
  assert (u8 off = off mod 256) as -> by done.
  assert (Z.shiftr off 8 = off / 256) as -> by (by rewrite Z.shiftr_div_pow2 by lia).
  assert (e ++ x0 :: x1 :: x2 :: x = (e ++ [x0]) ++ x1 :: x2 :: x) as E1 by (by rewrite <-(assoc_L (++))).
  destruct (Z.ltb_spec len 7) as [H7|H7].
  - assert (Z.shiftl len 5 = len * 32) as -> by (by rewrite Z.shiftl_mul_pow2 by lia).
    rewrite (wrap_u_small 8) by (unfold in_u; lia). exists (x2 :: x). rewrite poke_app by done. cbn [mbind option_bind].
    replace (e ++ off / 256 + len * 32 :: x1 :: x2 :: x) with ((e ++ [off / 256 + len * 32]) ++ x1 :: x2 :: x) by (by rewrite <-(assoc_L (++))).
    rewrite poke_app by (rewrite length_app; simpl; lia). cbn [mbind option_bind length app]. split; [|done].
    by rewrite <-(assoc_L (++)).
  - change (Z.shiftl 7 5) with 224. rewrite !(wrap_u_small 8) by (unfold in_u; lia). exists x. rewrite poke_app by done. cbn [mbind option_bind].
    replace (e ++ off / 256 + 224 :: x1 :: x2 :: x) with ((e ++ [off / 256 + 224]) ++ x1 :: x2 :: x) by (by rewrite <-(assoc_L (++))).
    rewrite poke_app by (rewrite length_app; simpl; lia). cbn [mbind option_bind].
    replace ((e ++ [off / 256 + 224]) ++ len - 7 :: x2 :: x) with ((e ++ [off / 256 + 224; len - 7]) ++ x2 :: x) by (by rewrite <-!(assoc_L (++))).
    rewrite poke_app by (rewrite length_app; simpl; lia). cbn [mbind option_bind length app]. split; [|done].
    by rewrite <-(assoc_L (++)).
Qed.

Lemma NEXT_defined v p : 0 ≤ p → p + 2 < zlen inp → ∃ h, NEXT inp v p = Some h.
Proof. intros H1 H2. unfold NEXT. destruct (peek_in (p + 2)) as (b & -> & _); [lia|]. by eexists. Qed.

Lemma FRST_defined p : 0 ≤ p → p + 1 < zlen inp → ∃ h, FRST inp p = Some h.
Proof.
  intros H1 H2. unfold FRST. destruct (peek_in p) as (a & -> & _); [lia|]. destruct (peek_in (p + 1)) as (b & -> & _); [lia|]. by eexists.
Qed.

Lemma set_slot_range t h p : (∀ i, in_u 32 (t i)) → ∀ i, in_u 32 (set_slot t h (u32 p) i).
Proof. intros H i. unfold set_slot. destruct (_ =? _); [by apply wrap_u_range|apply H]. Qed.

(** The state after a back reference of [len] bytes. *)
Lemma after_ref s ts lits o out1 ts1 tail1 off len :
  cinv s ts lits → out1 = enc ts1 ++ tail1 → o = zlen (enc ts1) → Forall wf_token ts1 →
  expand [] ts1 = Some (take (Z.to_nat (ip s)) inp) → 3 ≤ zlen tail1 →
  0 ≤ off < 8192 → 0 < ip s - off - 1 → 3 ≤ len ≤ 264 → ip s + len ≤ zlen inp → agree (ip s - off - 1) (ip s) len →
  ∃ out2, put_ref out1 o off (len - 2) = Some (zlen (enc (ts1 ++ [Ref off len])), out2) ∧ length out2 = length out1 ∧
    ∀ t h, (∀ i, in_u 32 (t i)) → cinv (Lzf t (ip s + len) (zlen (enc (ts1 ++ [Ref off len])) + 1) 0 h out2) (ts1 ++ [Ref off len]) [].
Proof.
  intros Hc -> -> Hwf Hexp Hroom Ho Href Hlen Hin Ha.
  destruct (put_ref_spec (enc ts1) tail1 off (len - 2) Ho) as (x' & E & Hx'); [lia|lia|].
  replace (len - 2 + 2) with len in * by lia. exists (enc ts1 ++ enc_token (Ref off len) ++ x').
  assert (zlen (enc (ts1 ++ [Ref off len])) = zlen (enc ts1) + zlen (enc_token (Ref off len))) as El by (rewrite enc_snoc, length_app; lia).
  split; [by rewrite E, El|]. split; [rewrite !length_app in *; lia|]. intros t h Ht. split; cbn [ip lit op out htab].
  - apply Forall_app. split; [done|]. by apply Forall_singleton.
  - rewrite expand_snoc, Hexp. cbn [mbind option_bind expand_token]. destruct Hc as [_ _ _ Hlit _ _ _].
    rewrite length_take, (proj2 (Z.ltb_lt _ _)) by lia. f_equal.
    replace (Z.to_nat off) with (Z.to_nat (ip s) - Z.to_nat (ip s - off - 1) - 1)%nat by lia.
    rewrite copy_back_match; [f_equal; lia|lia|lia|]. intros j Hj. specialize (Ha (Z.of_nat j) ltac:(lia)).
    unfold peek in Ha. rewrite !decide_True in Ha by lia.
    by rewrite !Z2Nat.inj_add, !Nat2Z.id in Ha by lia.
  - done.
  - destruct Hc as [_ _ _ Hlit _ _ _]. lia.
  - lia.
  - exists x'. split; [by rewrite enc_snoc, <-(assoc_L (++))|by left].
  - done.
Qed.

Lemma cinv_change s ts lits t h : cinv s ts lits → (∀ i, in_u 32 (t i)) → cinv (Lzf t (ip s) (op s) (lit s) h (out s)) ts lits.
Proof. intros [H1 H2 H3 H4 H5 H6 H7] Ht. by split. Qed.

Lemma compress_loop_spec : ∀ fuel s ts lits,
  Forall is_byte inp → zlen inp < 2 ^ 32 → cinv s ts lits → zlen inp - ip s < Z.of_nat fuel →
  ∃ s' b, compress_loop inp fuel s = Some (s', b) ∧ length (out s') = length (out s) ∧
    (b = true → zlen inp - 2 ≤ ip s' ∧ ∃ ts' lits', cinv s' ts' lits').
Proof.
  induction fuel as [|fuel IH]; intros s ts lits Hbytes H32 Hc Hf; [pose proof (ci_lit _ _ _ Hc); lia|]. cbn [compress_loop].
  pose proof (ci_lit _ _ _ Hc) as Hlit. pose proof (ci_op _ _ _ Hc) as Hop.
  destruct (Z.ltb_spec (ip s) (zlen inp - 2)) as [Hin|Hend]; [|exists s, true; split; [done|]; split; [done|]; intros _; split; [lia|eauto]].
  destruct (NEXT_defined (hval s) (ip s)) as [h ->]; [lia|lia|]. cbn [mbind option_bind].
  set (ref := htab s (IDX h)). set (t := set_slot (htab s) h (u32 (ip s))).
  assert (∀ i, in_u 32 (t i)) as Ht by (apply set_slot_range, (ci_htab _ _ _ Hc)).
  destruct (find_match_spec ref (ip s)) as (m & -> & Hm); [apply (ci_htab _ _ _ Hc)|lia|lia|]. cbn [mbind option_bind].
  destruct m as [off|].
  2:{ destruct (Z.leb_spec (zlen (out s)) (op s)) as [Hfull|Hroom]; [by exists s, false|].
      destruct (put_literal_spec (Lzf t (ip s) (op s) (lit s) h (out s)) ts lits Hbytes (cinv_change _ _ _ t h Hc Ht))
        as (s1 & ts1 & lits1 & -> & Hc1 & Hip1 & Hl1 & _); [cbn [ip]; lia|done|]. cbn [mbind option_bind]. cbn [ip out] in Hip1, Hl1.
      destruct (IH s1 ts1 lits1 Hbytes H32 Hc1 ltac:(lia)) as (s' & b & -> & Hl & Hb). exists s', b. split; [done|]. split; [congruence|done]. }
  destruct Hm as (Ho & Hr0 & Hr & Ha3).
  destruct ((_ <=? _) && (_ <=? _)) eqn:Efull; [by exists s, false|].
  assert (op s - (if lit s =? 0 then 1 else 0) + 4 < zlen (out s)) as Hroom.
  { apply andb_false_iff in Efull as [E%Z.leb_gt|E%Z.leb_gt]; destruct (lit s =? 0); lia. }
  destruct (end_run_spec s ts lits Hbytes Hc) as (o & out1 & ts1 & tail1 & -> & Hout1 & Eo & Hwf1 & Hexp1 & Hlen1 & Eo2).
  { destruct (Z.eqb_spec (lit s) 0); lia. }
  cbn [mbind option_bind]. set (maxlen := if MAX_REF <? zlen inp - ip s - 2 then MAX_REF else zlen inp - ip s - 2).
  assert (1 ≤ maxlen ≤ 264 ∧ maxlen ≤ zlen inp - ip s - 2) as Hmax by (unfold maxlen; change MAX_REF with 264; destruct (Z.ltb_spec 264 (zlen inp - ip s - 2)); lia).
  destruct (match_len_spec ref (ip s) maxlen) as (len & -> & Hl3 & Hl264 & Ha); [lia|lia|change MAX_REF with 264; lia|done|].
  cbn [mbind option_bind].
  destruct (after_ref s ts lits o out1 ts1 tail1 off len Hc Hout1 Eo Hwf1 Hexp1) as (out2 & -> & Hlen2 & Hc2).
  { rewrite <-Hlen1, Hout1, length_app in Hroom. lia. }
  { done. }
  { lia. }
  { lia. }
  { lia. }
  { by rewrite <-Hr. }
  cbn [mbind option_bind]. replace (ip s + 1 + (len - 2 + 1)) with (ip s + len) by lia.
  destruct (Z.leb_spec (zlen inp - 2) (ip s + len)) as [Hstop|Hmore].
  { eexists _, true. split; [done|]. split; [cbn [out]; congruence|]. intros _. split; [cbn [ip]; lia|]. eexists _, []. by apply Hc2. }
  destruct (FRST_defined (ip s + len - 2)) as [h1 ->]; [lia|lia|]. cbn [mbind option_bind].
  destruct (NEXT_defined h1 (ip s + len - 2)) as [h2 ->]; [lia|lia|]. cbn [mbind option_bind].
  destruct (NEXT_defined h2 (ip s + len - 2 + 1)) as [h3 ->]; [lia|lia|]. cbn [mbind option_bind].
  replace (ip s + len - 2 + 1 + 1) with (ip s + len) by lia.
  set (t3 := set_slot (set_slot t h2 _) h3 _). assert (∀ i, in_u 32 (t3 i)) as Ht3 by (do 2 apply set_slot_range; done).
  destruct (IH _ _ _ Hbytes H32 (Hc2 t3 h3 Ht3) ltac:(cbn [ip]; lia)) as (s' & b & -> & Hl & Hb).
  exists s', b. split; [done|]. split; [cbn [out] in Hl; congruence|done].
Qed.

Lemma literal_loop_spec : ∀ fuel s ts lits,
  Forall is_byte inp → cinv s ts lits → zlen inp - ip s < Z.of_nat fuel →
  op s + (zlen inp - ip s) + (if 32 <=? lit s + (zlen inp - ip s) then 1 else 0) ≤ zlen (out s) → zlen inp - ip s ≤ 2 →
  ∃ s' ts' lits', literal_loop inp fuel s = Some s' ∧ cinv s' ts' lits' ∧ ip s' = zlen inp ∧ length (out s') = length (out s) ∧
    op s' ≤ zlen (out s').
Proof.
  induction fuel as [|fuel IH]; intros s ts lits Hbytes Hc Hf Hroom H2; [pose proof (ci_lit _ _ _ Hc); lia|]. cbn [literal_loop].
  pose proof (ci_lit _ _ _ Hc) as Hlit. destruct (Z.ltb_spec (ip s) (zlen inp)) as [Hin|Hend].
  - destruct (put_literal_spec s ts lits Hbytes Hc Hin) as (s1 & ts1 & lits1 & -> & Hc1 & Hip1 & Hl1 & _ & Hcase).
    { destruct (32 <=? _); lia. }
    cbn [mbind option_bind]. destruct (IH s1 ts1 lits1 Hbytes Hc1) as (s' & ts' & lits' & -> & Hc' & Hip' & Hl' & Hop').
    + lia.
    + rewrite Hl1, Hip1. destruct (Z.leb_spec 32 (lit s + (zlen inp - ip s))), (Z.leb_spec 32 (lit s1 + (zlen inp - (ip s + 1)))); lia.
    + lia.
    + exists s', ts', lits'. split; [done|]. split; [done|]. split; [done|]. split; [congruence|done].
  - exists s, ts, lits. split; [done|]. split; [done|]. split; [lia|]. split; [done|]. destruct (32 <=? _); lia.
Qed.

Lemma compress_tokens t buf :
  Forall is_byte inp → 2 ≤ zlen inp < 2 ^ 32 → (∀ i, in_u 32 (t i)) →
  ∃ out' n, lzf_compress inp t buf = Some (out', n) ∧ length out' = length buf ∧
    (n = 0 ∨ (0 < n ≤ zlen buf ∧ ∃ ts, Forall wf_token ts ∧ expand [] ts = Some inp ∧ take (Z.to_nat n) out' = enc ts)).
Proof.
  intros Hbytes Hlen Ht. unfold lzf_compress. rewrite (proj2 (Z.eqb_neq (zlen inp) 0)) by lia. cbn [orb].
  destruct (Z.eqb_spec (zlen buf) 0) as [E0|E0]; [exists buf, 0; split; [done|]; split; [done|by left]|].
  destruct (FRST_defined 0) as [h ->]; [lia|lia|]. cbn [mbind option_bind].
  assert (cinv (Lzf t 0 1 0 h buf) [] []) as Hc0.
  { split; cbn [ip lit op out htab]; try done; [lia|]. exists buf. split; [done|by left]. }
  destruct (compress_loop_spec (S (length inp)) (Lzf t 0 1 0 h buf) [] [] Hbytes (proj2 Hlen) Hc0) as (s & b & -> & Hls & Hb).
  { cbn [ip]. lia. }
  cbn [mbind option_bind out] in *. destruct b; cbn [negb].
  2:{ exists (out s), 0. split; [done|]. split; [done|by left]. }
  destruct (Hb eq_refl) as (Hip & ts & lits & Hc). pose proof (ci_lit _ _ _ Hc) as Hlit.
  destruct (Z.ltb_spec (zlen (out s)) (op s + 3)) as [Hfull|Hroom].
  { exists (out s), 0. split; [done|]. split; [done|by left]. }
  destruct (literal_loop_spec (S (length inp)) s ts lits Hbytes Hc) as (s' & ts' & lits' & -> & Hc' & Hip' & Hl' & Hop');
    [lia|destruct (32 <=? _); lia|lia|]. cbn [mbind option_bind].
  pose proof (ci_op _ _ _ Hc') as Eop. pose proof (ci_lit _ _ _ Hc') as Hlit'.
  destruct (end_run_spec s' ts' lits' Hbytes Hc') as (o & out1 & ts1 & tail1 & -> & Hout1 & Eo & Hwf1 & Hexp1 & Hlen1 & Eo2); [lia|].
  cbn [mbind option_bind]. exists out1, o. split; [done|]. split; [congruence|]. right.
  assert (take (Z.to_nat (ip s')) inp = inp) as Eall by (apply take_ge; lia). rewrite Eall in Hexp1. split.
  - split; [|destruct (lit s' =? 0); lia]. rewrite Eo. destruct ts1 as [|t1 ts1].
    + cbn in Hexp1. injection Hexp1 as E. rewrite <-E in Hlen. simpl in Hlen. lia.
    + unfold enc. cbn [mbind list_bind]. rewrite length_app. apply Forall_cons in Hwf1 as [Hw _].
      destruct t1 as [l|? ?]; cbn [enc_token]; [|destruct (_ <? 7)]; cbn [length]; lia.
  - exists ts1. split; [done|]. split; [done|]. rewrite Hout1, Eo, Nat2Z.id. apply take_app_length.
Qed.

End CompressProofs.

Lemma lzf_lossless (inp buf buf2 : list Z) (t : Z → Z) :
  Forall is_byte inp → 2 ≤ zlen inp < 2 ^ 32 → (∀ i, in_u 32 (t i)) → zlen inp ≤ zlen buf2 →
  ∃ out' n, lzf_compress inp t buf = Some (out', n) ∧ length out' = length buf ∧ 0 ≤ n ≤ zlen buf ∧
    (0 < n → lzf_decompress (take (Z.to_nat n) out') buf2 = Some (inp ++ drop (length inp) buf2, inr (zlen inp))).
Proof.
  intros Hbytes Hlen Ht Hbuf2. destruct (compress_tokens inp t buf Hbytes Hlen Ht) as (out' & n & E & Hl & Hn).
  exists out', n. split; [done|]. split; [done|]. split; [lia|]. intros Hpos. destruct Hn as [->|(_ & ts & Hwf & Hexp & ->)]; [lia|].
  assert (decode (enc ts) = Some inp) as Hdec by (unfold decode; rewrite parse_enc by (done || lia); exact Hexp).
  destruct (decompress_decode (enc ts) buf2) as (out2 & r & -> & Hl2 & Hr).
  - intros En. rewrite En in Hdec. cbn in Hdec. injection Hdec as E2. rewrite <-E2 in Hlen. simpl in Hlen. lia.
  - by apply enc_bytes.
  - destruct r as [e|m].
    + specialize (Hr inp Hdec). lia.
    + destruct Hr as (res & Hres & -> & ->). rewrite Hdec in Hres. by injection Hres as <-.
Qed.

(** An input of one byte makes [FRST] read past its end. *)
Example lzf_compress_one_byte : lzf_compress [7] (λ _, 0) [0; 0; 0; 0] = None.
Proof. done. Qed.

(** An empty input makes the first iteration read past its end. *)
Example lzf_decompress_empty : lzf_decompress [] [0; 0; 0; 0] = None.
Proof. done. Qed.

(** C32: decompression is safe and exact on any input.  For every non-empty input, corrupted
    or not, and every output buffer, [lzf_decompress] terminates without an access outside of
    the two buffers, and it succeeds exactly when the input decodes to a string that fits:
    then this string is in the buffer, the rest of the buffer is untouched, and its length is
    returned. *)
Theorem lzf_decompress_safe (inp buf : list Z) :
  inp ≠ [] → Forall is_byte inp →
  ∃ out' r, lzf_decompress inp buf = Some (out', r) ∧ length out' = length buf ∧
    match r with
    | inr n => ∃ res, decode inp = Some res ∧ n = zlen res ∧ out' = res ++ drop (length res) buf
    | inl _ => ∀ res, decode inp = Some res → zlen buf < zlen res
    end.
Proof. apply decompress_decode. Qed.

Lemma lzf_decompress_safe_witness :
  ∃ out' r, lzf_decompress [1; 97; 98; 224; 3; 1; 64; 200] [0; 0; 0; 0; 0; 0; 0; 0; 0; 0; 0; 0; 0; 0; 0; 0] = Some (out', r) ∧ length out' = 16%nat.
Proof.
  destruct (lzf_decompress_safe [1; 97; 98; 224; 3; 1; 64; 200] [0; 0; 0; 0; 0; 0; 0; 0; 0; 0; 0; 0; 0; 0; 0; 0]) as (out' & r & H1 & H2 & _).
  - discriminate.
  - bytes_solve.
  - exists out', r. split; [exact H1|exact H2].
Defined.

(** C33: compression is lossless.  For every input of at least two bytes, whatever the
    uninitialized hash table holds and however small the output buffer is, [lzf_compress]
    stays in its buffers, and what it returns, when it is not 0, is the length of a string
    that [lzf_decompress] expands to exactly the input, in any buffer that is large enough. *)
Theorem lzf_roundtrip (inp buf buf2 : list Z) (t : Z → Z) :
  Forall is_byte inp → 2 ≤ zlen inp < 2 ^ 32 → (∀ i, in_u 32 (t i)) → zlen inp ≤ zlen buf2 →
  ∃ out' n, lzf_compress inp t buf = Some (out', n) ∧ length out' = length buf ∧ 0 ≤ n ≤ zlen buf ∧
    (0 < n → lzf_decompress (take (Z.to_nat n) out') buf2 = Some (inp ++ drop (length inp) buf2, inr (zlen inp))).
Proof. apply lzf_lossless. Qed.

Definition demo_inp : list Z := [97; 98; 99; 97; 98; 99; 97; 98; 99; 97; 98; 99; 97; 98; 99; 97; 98; 99; 97; 98; 99; 97; 98; 100].

Lemma lzf_roundtrip_witness :
  ∃ out' n, lzf_compress demo_inp (wrap_u 32) (repeat 0 20) = Some (out', n) ∧
    (0 < n → lzf_decompress (take (Z.to_nat n) out') (repeat 1 30) = Some (demo_inp ++ repeat 1 6, inr 24)).
Proof.
  destruct (lzf_roundtrip demo_inp (repeat 0 20) (repeat 1 30) (wrap_u 32)) as (out' & n & H1 & _ & _ & H2).
  - bytes_solve.
  - vm_compute. split; [discriminate|reflexivity].
  - intros i. apply wrap_u_range. discriminate.
  - vm_compute. discriminate.
  - exists out', n. split; [exact H1|exact H2].
Defined.
