(* ===== verification/Rdb.v ===== *)
(** The primitives of the RDB format (rdb.c): types, times, lengths, and strings with their
    integer and LZF encodings, saved to a device that may run out of space and loaded from
    a stream of bytes.

    A write returns the number of bytes or -1.  A load returns the value and the rest of the
    stream, NULL after an I/O error, or it exits the process for a corrupted file; [LFault]
    is an access outside of a buffer.  The memory of new buffers has arbitrary contents. *)

From stdpp Require Import list numbers strings.
From S2P Require Import Prelude Util SdsText Lzf.

Definition RDB_6BITLEN : Z := 0.
Definition RDB_14BITLEN : Z := 1.
Definition RDB_32BITLEN : Z := 128.
Definition RDB_64BITLEN : Z := 129.
Definition RDB_ENCVAL : Z := 3.
Definition RDB_LENERR : Z := 2 ^ 64 - 1.
Definition RDB_ENC_INT8 : Z := 0.
Definition RDB_ENC_INT16 : Z := 1.
Definition RDB_ENC_INT32 : Z := 2.
Definition RDB_ENC_LZF : Z := 3.
Definition RDB_LOAD_ENC : Z := 1.
Definition RDB_LOAD_PLAIN : Z := 2.
Definition RDB_LOAD_SDS : Z := 4.
Definition LONG_STR_SIZE : Z := 21.

(** The bytes of a number in network byte order, in memory after [htonl] or [htonu64]. *)
Definition be_encode (n : nat) (z : Z) : list Z := reverse (le_encode n z).
Definition be_decode (l : list Z) : Z := le_decode (reverse l).

(** ** Saving *)

(** The device: what was written and how many more bytes it accepts. *)
Record rio := Rio { written : list Z; space : Z }.

Definition rdbWriteRaw (r : rio) (p : list Z) : rio * Z :=
  if zlen p <=? space r then (Rio (written r ++ p) (space r - zlen p), zlen p) else (r, -1).

(** [if ((n = ...) == -1) return -1; nwritten += n; ...] *)
Definition and_then (p : rio * Z) (k : rio → rio * Z) : rio * Z :=
  if p.2 =? -1 then (p.1, -1)
  else let q := k p.1 in if q.2 =? -1 then (q.1, -1) else (q.1, p.2 + q.2).

Definition rdbSaveType (r : rio) (type : Z) : rio * Z := rdbWriteRaw r [u8 type].

Definition rdbSaveMillisecondTime (r : rio) (t : Z) : rio * Z := rdbWriteRaw r (le_encode 8 t).

Definition rdbSaveLen (r : rio) (len : Z) : rio * Z :=
  if len <? Z.shiftl 1 6 then
    rdbWriteRaw r [Z.lor (Z.land len 255) (Z.shiftl RDB_6BITLEN 6)]
  else if len <? Z.shiftl 1 14 then
    rdbWriteRaw r [Z.lor (Z.land (Z.shiftr len 8) 255) (Z.shiftl RDB_14BITLEN 6); Z.land len 255]
  else if len <=? 2 ^ 32 - 1 then
    and_then (rdbWriteRaw r [RDB_32BITLEN]) (λ r, rdbWriteRaw r (be_encode 4 len))
  else
    and_then (rdbWriteRaw r [RDB_64BITLEN]) (λ r, rdbWriteRaw r (be_encode 8 len)).

(** The bytes of an integer encoding, none when there is no such encoding. *)
Definition rdbEncodeInteger (value : Z) : list Z :=
  let byte k := Z.land (Z.shiftr value (8 * k)) 255 in
  if (- Z.shiftl 1 7 <=? value) && (value <=? Z.shiftl 1 7 - 1) then
    [Z.lor (Z.shiftl RDB_ENCVAL 6) RDB_ENC_INT8; byte 0]
  else if (- Z.shiftl 1 15 <=? value) && (value <=? Z.shiftl 1 15 - 1) then
    [Z.lor (Z.shiftl RDB_ENCVAL 6) RDB_ENC_INT16; byte 0; byte 1]
  else if (- Z.shiftl 1 31 <=? value) && (value <=? Z.shiftl 1 31 - 1) then
    [Z.lor (Z.shiftl RDB_ENCVAL 6) RDB_ENC_INT32; byte 0; byte 1; byte 2; byte 3]
  else [].

(** [strtoll (s, &endptr, 10)] on a string with its terminator: the value and what [endptr]
    points to. *)
Definition isspace (c : Z) : bool := (c =? 32) || ((9 <=? c) && (c <=? 13)).

Fixpoint skip_space (s : list Z) : list Z :=
  match s with
  | c :: s' => if isspace c then skip_space s' else s
  | [] => []
  end.

Fixpoint strtoll_digits (s : list Z) (v : Z) : Z * list Z :=
  match s with
  | c :: s' => if (48 <=? c) && (c <=? 57) then strtoll_digits s' (v * 10 + (c - 48)) else (v, s)
  | [] => (v, [])
  end.

Definition strtoll (s : list Z) : Z * list Z :=
  let t := skip_space s in
  let '(neg, d) := match t with
    | c :: t' => if c =? 45 then (true, t') else if c =? 43 then (false, t') else (false, t)
    | [] => (false, t)
    end in
  match d with
  | c :: _ =>
      if (48 <=? c) && (c <=? 57) then
        let '(v, e) := strtoll_digits d 0 in
        let v := if (neg : bool) then - v else v in
        (Z.max LLONG_MIN (Z.min LLONG_MAX v), e)
      else (0, s)
  | [] => (0, s)
  end.

(** The bytes before the terminator. *)
Fixpoint c_string (s : list Z) : list Z :=
  match s with
  | c :: s => if c =? 0 then [] else c :: c_string s
  | [] => []
  end.

(** [rdbTryIntegerEncoding]; [s] is followed by its terminator. *)
Definition rdbTryIntegerEncoding (junk : list Z) (s : list Z) : option (list Z) :=
  let '(value, endptr) := strtoll (s ++ [0]) in
  c ← head endptr;
  if negb (c =? 0) then Some []
  else
    '(buf, _) ← ll2string (take 32 junk) 32 value;
    if bool_decide (c_string buf = s) then Some (rdbEncodeInteger value) else Some [].

Definition rdbSaveLzfBlob (r : rio) (data : list Z) (original_len : Z) : rio * Z :=
  and_then (rdbWriteRaw r [Z.lor (Z.shiftl RDB_ENCVAL 6) RDB_ENC_LZF]) (λ r,
  and_then (rdbSaveLen r (zlen data)) (λ r,
  and_then (rdbSaveLen r original_len) (λ r, rdbWriteRaw r data))).

(** [t] is the uninitialized hash table and [junk] the contents of new buffers. *)
Definition rdbSaveLzfStringObject (t : Z → Z) (junk : nat → Z) (r : rio) (s : list Z) : option (rio * Z) :=
  if zlen s <=? 4 then Some (r, 0)
  else
    let outlen := zlen s - 4 in
    '(out, comprlen) ← lzf_compress s t (realloc junk [] outlen);
    if comprlen =? 0 then Some (r, 0)
    else Some (rdbSaveLzfBlob r (take (Z.to_nat comprlen) out) (zlen s)).

Definition rdbSaveRawString (rdb_compression : bool) (t : Z → Z) (junk : nat → Z) (r : rio) (s : list Z)
    : option (rio * Z) :=
  enc ← (if zlen s <=? 11 then rdbTryIntegerEncoding (realloc junk [] 32) s else Some []);
  if 0 <? zlen enc then Some (rdbWriteRaw r enc)
  else
    '(r, n) ← (if rdb_compression && (20 <? zlen s) then rdbSaveLzfStringObject t junk r s else Some (r, 0));
    if n =? -1 then Some (r, -1)
    else if 0 <? n then Some (r, n)
    else Some (and_then (rdbSaveLen r (zlen s)) (λ r, if 0 <? zlen s then rdbWriteRaw r s else (r, 0))).

(** An object with an integer encoding, or a string. *)
Inductive robj := OInt (v : Z) | OStr (s : bytes).

Definition rdbSaveLongLongAsStringObject (junk : nat → Z) (r : rio) (value : Z) : option (rio * Z) :=
  let enc := rdbEncodeInteger value in
  if 0 <? zlen enc then Some (rdbWriteRaw r enc)
  else
    '(buf, enclen) ← ll2string (realloc junk [] 32) 32 value;
    if enclen <? 32 then
      Some (and_then (rdbSaveLen r enclen) (λ r, rdbWriteRaw r (take (Z.to_nat enclen) buf)))
    else None.

Definition rdbSaveStringObject (rdb_compression : bool) (t : Z → Z) (junk : nat → Z) (r : rio) (o : robj) : option (rio * Z) :=
  match o with
  | OInt v => rdbSaveLongLongAsStringObject junk r v
  | OStr s => rdbSaveRawString rdb_compression t junk r s
  end.

(** ** Loading *)

Inductive lres (A : Type) := LOk (v : A) (rest : list Z) | LNull | LExit | LFault.
Arguments LOk {A}. Arguments LNull {A}. Arguments LExit {A}. Arguments LFault {A}.

Definition lbind {A B} (p : lres A) (k : A → list Z → lres B) : lres B :=
  match p with LOk v l => k v l | LNull => LNull | LExit => LExit | LFault => LFault end.

(** A value that an access outside of a buffer prevents. *)
Definition lfault {A B} (p : option A) (k : A → lres B) : lres B := match p with Some v => k v | None => LFault end.

(** [rioRead]: NULL for the caller when there are not enough bytes. *)
Definition rioRead (l : list Z) (n : Z) : lres (list Z) :=
  if n <=? zlen l then LOk (take (Z.to_nat n) l) (drop (Z.to_nat n) l) else LNull.

Definition rdbLoadType (l : list Z) : lres Z := lbind (rioRead l 1) (λ b l, lfault (head b) (λ c, LOk c l)).

Definition rdbLoadMillisecondTime (l : list Z) : lres Z :=
  match rioRead l 8 with
  | LOk b l => LOk (wrap_s 64 (le_decode b)) l
  | _ => LExit
  end.

(** [rdbLoadLenByRef]: whether an encoding follows, and the length or the encoding. *)
Definition rdbLoadLenByRef (l : list Z) : lres (bool * Z) :=
  lbind (rioRead l 1) (λ b l,
  lfault (head b) (λ c,
    let type := Z.shiftr (Z.land c 192) 6 in
    if type =? RDB_ENCVAL then LOk (true, Z.land c 63) l
    else if type =? RDB_6BITLEN then LOk (false, Z.land c 63) l
    else if type =? RDB_14BITLEN then
      lbind (rioRead l 1) (λ b l, lfault (head b) (λ c1, LOk (false, Z.lor (Z.shiftl (Z.land c 63) 8) c1) l))
    else if c =? RDB_32BITLEN then lbind (rioRead l 4) (λ b l, LOk (false, be_decode b) l)
    else if c =? RDB_64BITLEN then lbind (rioRead l 8) (λ b l, LOk (false, be_decode b) l)
    else LExit)).

(** [rdbLoadLen]: RDB_LENERR after an error. *)
Definition rdbLoadLen (l : list Z) : lres (bool * Z) :=
  match rdbLoadLenByRef l with LNull => LOk (false, RDB_LENERR) [] | p => p end.

(** What a load gives: a plain or sds string, or an object. *)
Inductive loaded := LPlain (s : bytes) | LObj (o : robj).

Definition has (flags f : Z) : bool := negb (Z.land flags f =? 0).

Definition rdbLoadIntegerObject (junk : nat → Z) (l : list Z) (enctype flags : Z) : lres loaded :=
  let finish (val : Z) (l : list Z) : lres loaded :=
    if has flags RDB_LOAD_PLAIN || has flags RDB_LOAD_SDS then
      lfault (ll2string (realloc junk [] LONG_STR_SIZE) LONG_STR_SIZE val) (λ p,
      lfault (slice p.1 0 p.2) (λ s, LOk (LPlain s) l))
    else if has flags RDB_LOAD_ENC then LOk (LObj (OInt val)) l
    else lfault (sdsll2str val) (λ s, LOk (LObj (OStr s)) l) in
  if enctype =? RDB_ENC_INT8 then
    lbind (rioRead l 1) (λ enc l, lfault (peek enc 0) (λ e0, finish (wrap_s 8 e0) l))
  else if enctype =? RDB_ENC_INT16 then
    lbind (rioRead l 2) (λ enc l, lfault (peek enc 0) (λ e0, lfault (peek enc 1) (λ e1,
      finish (wrap_s 16 (Z.lor e0 (Z.shiftl e1 8))) l)))
  else if enctype =? RDB_ENC_INT32 then
    lbind (rioRead l 4) (λ enc l, lfault (peek enc 0) (λ e0, lfault (peek enc 1) (λ e1,
      lfault (peek enc 2) (λ e2, lfault (peek enc 3) (λ e3,
      finish (wrap_s 32 (Z.lor (Z.lor (Z.lor e0 (Z.shiftl e1 8)) (Z.shiftl e2 16)) (Z.shiftl e3 24))) l)))))
  else LExit.

Definition rdbLoadLzfStringObject (junk : nat → Z) (l : list Z) (flags : Z) : lres loaded :=
  lbind (rdbLoadLen l) (λ p l,
  if p.2 =? RDB_LENERR then LNull
  else
    let clen := p.2 in
    lbind (rdbLoadLen l) (λ p l,
    if p.2 =? RDB_LENERR then LNull
    else
      let val := realloc junk [] p.2 in
      lbind (rioRead l clen) (λ c l,
      lfault (lzf_decompress c val) (λ res,
        match res.2 with
        | inl _ => LNull
        | inr n =>
            if n =? 0 then LNull
            else if has flags RDB_LOAD_PLAIN || has flags RDB_LOAD_SDS then LOk (LPlain res.1) l
            else LOk (LObj (OStr res.1)) l
        end)))).

Definition rdbGenericLoadStringObject (junk : nat → Z) (l : list Z) (flags : Z) : lres loaded :=
  lbind (rdbLoadLen l) (λ p l,
  let len := p.2 in
  if (p.1 : bool) then
    if (len =? RDB_ENC_INT8) || (len =? RDB_ENC_INT16) || (len =? RDB_ENC_INT32)
    then rdbLoadIntegerObject junk l len flags
    else if len =? RDB_ENC_LZF then rdbLoadLzfStringObject junk l flags
    else LExit
  else if len =? RDB_LENERR then LNull
  else
    lbind (if len =? 0 then LOk [] l else rioRead l len) (λ s l,
    LOk (if has flags RDB_LOAD_PLAIN || has flags RDB_LOAD_SDS then LPlain s else LObj (OStr s)) l)).

(** ** Writes *)

(** The bytes [e] are written when they fit, and the result is -1 when they do not. *)
Definition saved (r : rio) (p : rio * Z) (e : list Z) : Prop :=
  0 ≤ space r →
  (zlen e ≤ space r → p = (Rio (written r ++ e) (space r - zlen e), zlen e)) ∧ (space r < zlen e → p.2 = -1).

Lemma saved_raw r e : saved r (rdbWriteRaw r e) e.
Proof. intros _. unfold rdbWriteRaw. destruct (Z.leb_spec (zlen e) (space r)); split; intros; (done || lia). Qed.

Lemma saved_then r p k e1 e2 : saved r p e1 → (∀ r, saved r (k r) e2) → saved r (and_then p k) (e1 ++ e2).
Proof.
  intros Hp Hk Hs. destruct (Hp Hs) as [H1 H2]. unfold and_then. destruct (Z_le_gt_dec (zlen e1) (space r)) as [Hle|Hgt].
  - rewrite (H1 Hle). cbn [fst snd]. rewrite (proj2 (Z.eqb_neq _ _)) by lia. destruct (Hk (Rio (written r ++ e1) (space r - zlen e1))) as [H3 H4]; [cbn [space]; lia|].
    cbn [written space] in *. split; rewrite length_app; intros H.
    + rewrite H3 by lia. cbn [fst snd]. rewrite (proj2 (Z.eqb_neq _ _)) by lia. rewrite <-(assoc_L (++)).
      by replace (space r - Z.of_nat (length e1 + length e2)) with (space r - zlen e1 - zlen e2) by lia;
         replace (Z.of_nat (length e1 + length e2)) with (zlen e1 + zlen e2) by lia.
    + rewrite H4 by lia. done.
  - rewrite (H2 ltac:(lia)). cbn. split; [rewrite length_app; lia|done].
Qed.

Lemma saved_nil r : saved r (r, 0) [].
Proof.
  intros Hs. split; cbn [length]; intros H; [|lia]. rewrite app_nil_r. by destruct r; cbn; rewrite Z.sub_0_r.
Qed.

(** ** Numbers *)

Lemma be_roundtrip n z : 0 ≤ z < 2 ^ (8 * Z.of_nat n) → be_decode (be_encode n z) = z ∧ length (be_encode n z) = n.
Proof.
  intros Hz. unfold be_decode, be_encode. rewrite reverse_involutive, le_decode_encode, length_reverse, le_encode_length.
  split; [|done]. by apply Z.mod_small.
Qed.

Lemma rioRead_app (a b : list Z) n : n = zlen a → rioRead (a ++ b) n = LOk a b.
Proof.
  intros ->. unfold rioRead. rewrite (proj2 (Z.leb_le _ _)) by (rewrite length_app; lia).
  by rewrite Nat2Z.id, take_app_length, drop_app_length.
Qed.

Lemma rioRead_1 c l : rioRead (c :: l) 1 = LOk [c] l.
Proof. by apply (rioRead_app [c]). Qed.

Definition enc_len (len : Z) : list Z :=
  if len <? 64 then [len]
  else if len <? 16384 then [64 + len / 256; len mod 256]
  else if len <? 2 ^ 32 then 128 :: be_encode 4 len
  else 129 :: be_encode 8 len.

Lemma saved_len r len : 0 ≤ len → saved r (rdbSaveLen r len) (enc_len len).
Proof.
  intros Hlen. unfold rdbSaveLen, enc_len. change (Z.shiftl 1 6) with 64. change (Z.shiftl 1 14) with 16384.
  assert (∀ z, Z.land z 255 = z mod 256) as H255 by (intros z; change 255 with (Z.ones 8); by rewrite Z.land_ones by lia).
  rewrite !H255, Z.shiftr_div_pow2 by lia. change (2 ^ 8) with 256.
  destruct (Z.ltb_spec len 64) as [H1|H1].
  { change (Z.shiftl RDB_6BITLEN 6) with 0. rewrite Z.lor_0_r, Z.mod_small by lia. apply saved_raw. }
  destruct (Z.ltb_spec len 16384) as [H2|H2].
  { assert (0 ≤ len / 256 < 64) as Hd by (pose proof (Z.div_mod len 256); pose proof (Z.mod_pos_bound len 256); lia).
    change (Z.shiftl RDB_14BITLEN 6) with (Z.shiftl 1 6). rewrite (Z.mod_small (len / 256)), lor_shift by lia.
    change (1 * 2 ^ 6) with 64. rewrite (Z.add_comm (len / 256)). apply saved_raw. }
  assert ((len <=? 2 ^ 32 - 1) = (len <? 2 ^ 32)) as -> by (destruct (Z.leb_spec len (2 ^ 32 - 1)), (Z.ltb_spec len (2 ^ 32)); lia || done).
  destruct (len <? 2 ^ 32); (apply (saved_then r _ _ [_]); [apply saved_raw|intros r'; apply saved_raw]).
Qed.

Lemma len_types :
  (∀ k, 0 ≤ k < 64 → Z.shiftr (Z.land k 192) 6 = 0 ∧ Z.land k 63 = k) ∧
  (∀ k, 0 ≤ k < 64 → Z.shiftr (Z.land (64 + k) 192) 6 = 1 ∧ Z.land (64 + k) 63 = k) ∧
  (∀ k, 0 ≤ k < 64 → Z.shiftr (Z.land (192 + k) 192) 6 = 3 ∧ Z.land (192 + k) 63 = k).
Proof.
  split_and!; intros k Hk.
  - assert (((Z.shiftr (Z.land k 192) 6 =? 0) && (Z.land k 63 =? k)) = true) as E.
    { apply (check_range (λ k, (Z.shiftr (Z.land k 192) 6 =? 0) && (Z.land k 63 =? k)) 64); [done|lia]. }
    by apply andb_true_iff in E as [?%Z.eqb_eq ?%Z.eqb_eq].
  - assert (((Z.shiftr (Z.land (64 + k) 192) 6 =? 1) && (Z.land (64 + k) 63 =? k)) = true) as E.
    { apply (check_range (λ k, (Z.shiftr (Z.land (64 + k) 192) 6 =? 1) && (Z.land (64 + k) 63 =? k)) 64); [done|lia]. }
    by apply andb_true_iff in E as [?%Z.eqb_eq ?%Z.eqb_eq].
  - assert (((Z.shiftr (Z.land (192 + k) 192) 6 =? 3) && (Z.land (192 + k) 63 =? k)) = true) as E.
    { apply (check_range (λ k, (Z.shiftr (Z.land (192 + k) 192) 6 =? 3) && (Z.land (192 + k) 63 =? k)) 64); [done|lia]. }
    by apply andb_true_iff in E as [?%Z.eqb_eq ?%Z.eqb_eq].
Qed.

Lemma load_len len rest : 0 ≤ len < 2 ^ 64 → rdbLoadLen (enc_len len ++ rest) = LOk (false, len) rest.
Proof.
  intros Hlen. destruct len_types as (T0 & T1 & _). unfold rdbLoadLen, rdbLoadLenByRef, enc_len.
  destruct (Z.ltb_spec len 64) as [H1|H1].
  { cbn [app]. rewrite rioRead_1. cbn [lbind lfault head]. destruct (T0 len) as [-> ->]; [lia|]. done. }
  destruct (Z.ltb_spec len 16384) as [H2|H2].
  { assert (0 ≤ len / 256 < 64 ∧ len = 256 * (len / 256) + len mod 256 ∧ 0 ≤ len mod 256 < 256) as (Hd & Em & Hm).
    { pose proof (Z.div_mod len 256). pose proof (Z.mod_pos_bound len 256). lia. }
    cbn [app]. rewrite rioRead_1. cbn [lbind lfault head]. destruct (T1 (len / 256) Hd) as [-> ->].
    cbn [Z.eqb Pos.eqb RDB_ENCVAL RDB_6BITLEN RDB_14BITLEN]. rewrite rioRead_1. cbn [lbind lfault head].
    rewrite Z.lor_comm, lor_shift by lia. change (2 ^ 8) with 256. do 2 f_equal. lia. }
  destruct (Z.ltb_spec len (2 ^ 32)) as [H3|H3].
  - destruct (be_roundtrip 4 len) as [Hd Hl]; [simpl; lia|]. cbn [app]. rewrite rioRead_1. cbn [lbind lfault head].
    change (Z.shiftr (Z.land 128 192) 6) with 2. cbn [Z.eqb Pos.eqb RDB_ENCVAL RDB_6BITLEN RDB_14BITLEN RDB_32BITLEN].
    rewrite rioRead_app by (rewrite Hl; done). cbn [lbind]. by rewrite Hd.
  - destruct (be_roundtrip 8 len) as [Hd Hl]; [simpl; lia|]. cbn [app]. rewrite rioRead_1. cbn [lbind lfault head].
    change (Z.shiftr (Z.land 129 192) 6) with 2. cbn [Z.eqb Pos.eqb RDB_ENCVAL RDB_6BITLEN RDB_14BITLEN RDB_32BITLEN RDB_64BITLEN].
    rewrite rioRead_app by (rewrite Hl; done). cbn [lbind]. by rewrite Hd.
Qed.

(** ** Strings *)

(** The bytes of a loaded string. *)
Definition content (v : loaded) : option bytes :=
  match v with
  | LPlain s | LObj (OStr s) => Some s
  | LObj (OInt v) => sdsll2str v
  end.

(** The bytes [e] are loaded as the string [s], whatever follows them. *)
Definition loads (e : list Z) (s : bytes) : Prop := ∀ junk flags rest,
  ∃ o, rdbGenericLoadStringObject junk (e ++ rest) flags = LOk o rest ∧ content o = Some s.

Lemma load_encval k l : 0 ≤ k < 64 → rdbLoadLen (192 + k :: l) = LOk (true, k) l.
Proof.
  intros Hk. destruct len_types as (_ & _ & T3). unfold rdbLoadLen, rdbLoadLenByRef. rewrite rioRead_1. cbn [lbind lfault head].
  destruct (T3 k Hk) as [-> ->]. done.
Qed.

Lemma value_byte v k : 0 ≤ k → Z.land (Z.shiftr v (8 * k)) 255 = (v / 2 ^ (8 * k)) mod 256.
Proof. intros Hk. change 255 with (Z.ones 8). by rewrite Z.land_ones, Z.shiftr_div_pow2 by lia. Qed.

(** The bytes of an encoding determine the value modulo a power of two. *)
Lemma value_bytes v :
  let b k := (v / 2 ^ (8 * k)) mod 256 in
  b 0 = v mod 2 ^ 8 ∧ b 0 + 256 * b 1 = v mod 2 ^ 16 ∧ b 0 + 256 * (b 1 + 256 * (b 2 + 256 * b 3)) = v mod 2 ^ 32 ∧
  0 ≤ b 0 < 256 ∧ 0 ≤ b 1 < 256 ∧ 0 ≤ b 2 < 256 ∧ 0 ≤ b 3 < 256.
Proof.
  intros b. pose proof (le_decode_encode 1 v) as E1. pose proof (le_decode_encode 2 v) as E2. pose proof (le_decode_encode 4 v) as E4.
  cbn [le_encode le_decode] in E1, E2, E4. rewrite !Z.div_div in E4 by lia.
  assert (b 0 = v mod 256) as H0 by (unfold b; change (2 ^ (8 * 0)) with 1; by rewrite Z.div_1_r).
  change (v / 256) with (v / 2 ^ (8 * 1)) in *. change (v / (256 * 256)) with (v / 2 ^ (8 * 2)) in *.
  change (v / (256 * (256 * 256))) with (v / 2 ^ (8 * 3)) in *. change (v / (256 * 256 * 256)) with (v / 2 ^ (8 * 3)) in *.
  change (8 * Z.of_nat 1) with 8 in E1. change (8 * Z.of_nat 2) with 16 in E2. change (8 * Z.of_nat 4) with 32 in E4.
  rewrite <-E1, <-E2, <-E4, H0. unfold b. split; [lia|]. split; [lia|]. split; [lia|].
  pose proof (Z.mod_pos_bound v 256). pose proof (Z.mod_pos_bound (v / 2 ^ (8 * 1)) 256).
  pose proof (Z.mod_pos_bound (v / 2 ^ (8 * 2)) 256). pose proof (Z.mod_pos_bound (v / 2 ^ (8 * 3)) 256). lia.
Qed.

Lemma wrap_s_of_mod w z v : 0 < w → in_s w v → z = v mod 2 ^ w → wrap_s w z = v.
Proof. intros Hw Hv ->. rewrite <-(to_signed_wrap w v Hw Hv) at 2. unfold wrap_s, wrap_u. by rewrite Z.mod_mod by lia. Qed.

(** What the loader makes of a decoded integer. *)
Lemma finish_integer junk (flags v : Z) s l :
  in_s 64 v → canonical s v →
  ∃ o, (if has flags RDB_LOAD_PLAIN || has flags RDB_LOAD_SDS then
          lfault (ll2string (realloc junk [] LONG_STR_SIZE) LONG_STR_SIZE v) (λ p,
          lfault (slice p.1 0 p.2) (λ s, LOk (LPlain s) l))
        else if has flags RDB_LOAD_ENC then LOk (LObj (OInt v)) l
        else lfault (sdsll2str v) (λ s, LOk (LObj (OStr s)) l)) = LOk o l ∧ content o = Some s.
Proof.
  intros Hv Hs. destruct (sdsll2str_spec v Hv) as (s' & Hs' & Hc' & _).
  pose proof (canonical_unique _ _ _ Hc' Hs) as ->. rewrite Hs'.
  destruct (has flags RDB_LOAD_PLAIN || has flags RDB_LOAD_SDS).
  - destruct (ll2string_spec (realloc junk [] LONG_STR_SIZE) LONG_STR_SIZE v Hv) as (s2 & Hc2 & Hl2 & ->).
    { rewrite realloc_length; [done|]. unfold LONG_STR_SIZE. lia. }
    pose proof (canonical_unique _ _ _ Hc2 Hs) as ->. rewrite (proj2 (Z.leb_gt _ _)) by (unfold LONG_STR_SIZE; lia).
    cbn [lfault fst snd].
    pose proof (slice_app [] s (0 :: drop (S (length s)) (realloc junk [] LONG_STR_SIZE)) 0 (zlen s) eq_refl eq_refl) as E.
    cbn [app] in E. rewrite E. by eexists.
  - destruct (has flags RDB_LOAD_ENC); by eexists.
Qed.

Lemma load_integer v s :
  rdbEncodeInteger v ≠ [] → canonical s v → loads (rdbEncodeInteger v) s.
Proof.
  intros Hne Hs junk flags rest. unfold rdbEncodeInteger in *.
  rewrite !value_byte in * by lia. change (Z.shiftl 1 7) with 128 in *. change (Z.shiftl 1 15) with 32768 in *.
  change (Z.shiftl 1 31) with 2147483648 in *. unfold rdbGenericLoadStringObject.
  destruct (value_bytes v) as (E1 & E2 & E4 & H0 & H1 & H2 & H3).
  set (b0 := (v / 2 ^ (8 * 0)) mod 256) in *. set (b1 := (v / 2 ^ (8 * 1)) mod 256) in *.
  set (b2 := (v / 2 ^ (8 * 2)) mod 256) in *. set (b3 := (v / 2 ^ (8 * 3)) mod 256) in *. clearbody b0 b1 b2 b3.
  destruct ((- (128) <=? v) && (v <=? 128 - 1)) eqn:E; [|clear E; destruct ((- (32768) <=? v) && (v <=? 32768 - 1)) eqn:E;
    [|clear E; destruct ((- (2147483648) <=? v) && (v <=? 2147483648 - 1)) eqn:E; [|done]]];
    apply andb_true_iff in E as [Elo%Z.leb_le Ehi%Z.leb_le].
  - change (Z.lor (Z.shiftl RDB_ENCVAL 6) RDB_ENC_INT8) with (192 + 0). cbn [app]. rewrite load_encval by lia.
    cbn [lbind fst snd Z.eqb orb RDB_ENC_INT8]. unfold rdbLoadIntegerObject. cbn [Z.eqb RDB_ENC_INT8].
    rewrite rioRead_1. cbn [lbind]. assert (peek [b0] 0 = Some b0) as -> by done. cbn [lfault].
    rewrite (wrap_s_of_mod 8 b0 v) by (unfold in_s; lia || done). apply finish_integer; [unfold in_s; lia|done].
  - change (Z.lor (Z.shiftl RDB_ENCVAL 6) RDB_ENC_INT16) with (192 + 1). cbn [app]. rewrite load_encval by lia.
    cbn [lbind fst snd Z.eqb orb RDB_ENC_INT8 RDB_ENC_INT16 Pos.eqb]. unfold rdbLoadIntegerObject. cbn [Z.eqb RDB_ENC_INT8 RDB_ENC_INT16 Pos.eqb].
    rewrite (rioRead_app [b0; b1] rest) by done. cbn [lbind].
    assert (peek [b0; b1] 0 = Some b0) as -> by done. assert (peek [b0; b1] 1 = Some b1) as -> by done. cbn [lfault].
    rewrite lor_shift by lia. rewrite (wrap_s_of_mod 16 _ v) by (unfold in_s; lia). apply finish_integer; [unfold in_s; lia|done].
  - change (Z.lor (Z.shiftl RDB_ENCVAL 6) RDB_ENC_INT32) with (192 + 2). cbn [app]. rewrite load_encval by lia.
    cbn [lbind fst snd Z.eqb orb RDB_ENC_INT8 RDB_ENC_INT16 RDB_ENC_INT32 Pos.eqb]. unfold rdbLoadIntegerObject.
    cbn [Z.eqb RDB_ENC_INT8 RDB_ENC_INT16 RDB_ENC_INT32 Pos.eqb].
    rewrite (rioRead_app [b0; b1; b2; b3] rest) by done. cbn [lbind].
    assert (peek [b0; b1; b2; b3] 0 = Some b0) as -> by done. assert (peek [b0; b1; b2; b3] 1 = Some b1) as -> by done.
    assert (peek [b0; b1; b2; b3] 2 = Some b2) as -> by done. assert (peek [b0; b1; b2; b3] 3 = Some b3) as -> by done. cbn [lfault].
    rewrite (lor_shift b0 b1 8), (lor_shift _ b2 16), (lor_shift _ b3 24) by lia. rewrite (wrap_s_of_mod 32 _ v) by (unfold in_s; lia). apply finish_integer; [unfold in_s; lia|done].
Qed.

Lemma load_verbatim s : zlen s < 2 ^ 32 → loads (enc_len (zlen s) ++ s) s.
Proof.
  intros Hl junk flags rest. unfold rdbGenericLoadStringObject. rewrite <-(assoc_L (++)), load_len by lia.
  cbn [lbind fst snd]. rewrite (proj2 (Z.eqb_neq (zlen s) RDB_LENERR)) by (unfold RDB_LENERR; lia).
  assert ((if zlen s =? 0 then LOk [] (s ++ rest) else rioRead (s ++ rest) (zlen s)) = LOk s rest) as ->.
  { destruct (Z.eqb_spec (zlen s) 0); [by destruct s; [|simpl in *; lia]|by apply rioRead_app]. }
  cbn [lbind]. eexists. split; [done|]. by destruct (_ || _).
Qed.

Lemma load_lzf s c :
  c ≠ [] → zlen c < 2 ^ 32 → 0 < zlen s < 2 ^ 32 →
  (∀ buf, zlen s ≤ zlen buf → lzf_decompress c buf = Some (s ++ drop (length s) buf, inr (zlen s))) →
  loads ([195] ++ enc_len (zlen c) ++ enc_len (zlen s) ++ c) s.
Proof.
  intros Hne Hlc Hls Hdec junk flags rest. unfold rdbGenericLoadStringObject. rewrite <-!(assoc_L (++)). cbn [app].
  change 195 with (192 + 3). rewrite load_encval by lia. cbn [lbind fst snd].
  cbn [Z.eqb orb RDB_ENC_INT8 RDB_ENC_INT16 RDB_ENC_INT32 RDB_ENC_LZF Pos.eqb]. unfold rdbLoadLzfStringObject.
  rewrite load_len by lia. cbn [lbind fst snd]. rewrite (proj2 (Z.eqb_neq (zlen c) RDB_LENERR)) by (unfold RDB_LENERR; lia).
  rewrite load_len by lia. cbn [lbind fst snd]. rewrite (proj2 (Z.eqb_neq (zlen s) RDB_LENERR)) by (unfold RDB_LENERR; lia).
  rewrite rioRead_app by done. cbn [lbind].
  rewrite Hdec by (rewrite realloc_length by lia; done). cbn [lfault fst snd]. rewrite (proj2 (Z.eqb_neq _ _)) by lia.
  assert (s ++ drop (length s) (realloc junk [] (zlen s)) = s) as ->.
  { rewrite drop_ge, app_nil_r; [done|]. pose proof (realloc_length junk [] (zlen s)). lia. }
  destruct (_ || _); by eexists.
Qed.

(** ** Saving strings *)

Lemma c_string_app s l : Forall (λ c, c ≠ 0) s → c_string (s ++ 0 :: l) = s.
Proof. induction 1 as [|c s Hc Hs IH]; cbn [app c_string]; [done|]. by rewrite (proj2 (Z.eqb_neq c 0)), IH by done. Qed.

Lemma canonical_nonzero s v : canonical s v → Forall (λ c, c ≠ 0) s.
Proof.
  assert (∀ s v, canonical_u s v → Forall (λ c, c ≠ 0) s) as Hu.
  { intros s' v' (_ & Hd & _). eapply Forall_impl; [exact Hd|]. unfold is_digit. intros c Hc. lia. }
  unfold canonical. destruct (v <? 0); [|apply Hu]. intros (s' & -> & Hc). apply Forall_cons. split; [lia|by eapply Hu].
Qed.

Lemma strtoll_range s : in_s 64 (strtoll s).1.
Proof.
  unfold strtoll. unfold in_s, LLONG_MIN, LLONG_MAX.
  destruct (match skip_space s with c :: t' => if c =? 45 then (true, t') else if c =? 43 then (false, t') else (false, skip_space s) | [] => (false, skip_space s) end) as [neg d].
  destruct d as [|c d]; [simpl; lia|]. destruct (_ && _); [|simpl; lia]. destruct (strtoll_digits (c :: d) 0) as [v e]. cbn [fst].
  destruct neg; lia.
Qed.

(** [strtoll] stops at the terminator at the latest. *)
Lemma strtoll_end s : (strtoll (s ++ [0])).2 ≠ [].
Proof.
  assert (∀ s, skip_space (s ++ [0]) ≠ [] ∧ ∃ s', skip_space (s ++ [0]) = s' ++ [0]) as Hskip.
  { intros t. induction t as [|c t [IH1 IH2]]; cbn [app skip_space].
    - cbn. split; [done|by exists []].
    - destruct (isspace c); [done|]. split; [done|by exists (c :: t)]. }
  assert (∀ s v, (strtoll_digits (s ++ [0]) v).2 ≠ []) as Hdig.
  { intros t. induction t as [|c t IH]; intros v; cbn [app strtoll_digits]; [done|]. destruct (_ && _); [apply IH|done]. }
  unfold strtoll. destruct (Hskip s) as [_ (s' & ->)].
  assert (∃ neg d, match s' ++ [0] with c :: t' => if c =? 45 then (true, t') else if c =? 43 then (false, t') else (false, s' ++ [0]) | [] => (false, s' ++ [0]) end = (neg, d) ∧
    (d = [] ∨ ∃ d', d = d' ++ [0])) as (neg & d & -> & Hd).
  { destruct s' as [|c s']; cbn [app]; [eexists _, _; split; [done|]; right; by exists []|].
    destruct (c =? 45); [eexists _, _; split; [done|]; right; by exists s'|].
    destruct (c =? 43); eexists _, _; (split; [done|]); right; [by exists s'|by exists (c :: s')]. }
  assert (s ++ [0] ≠ []) as Hs by (by destruct s).
  destruct d as [|c d]; [done|]. destruct (_ && _); [|done]. destruct Hd as [?|(d' & ->)]; [done|].
  specialize (Hdig d' 0). by destruct (strtoll_digits (d' ++ [0]) 0).
Qed.

Lemma try_integer_spec junk s :
  ∃ e, rdbTryIntegerEncoding (realloc junk [] 32) s = Some e ∧
    (e = [] ∨ ∃ v, e = rdbEncodeInteger v ∧ canonical s v).
Proof.
  unfold rdbTryIntegerEncoding. pose proof (strtoll_range (s ++ [0])) as Hv. pose proof (strtoll_end s) as He.
  destruct (strtoll (s ++ [0])) as [v e]. cbn [fst snd] in *. destruct e as [|c e]; [done|]. cbn [head mbind option_bind].
  destruct (c =? 0); cbn [negb]; [|by exists []; split; [|left]].
  assert (zlen (take 32 (realloc junk [] 32)) = 32) as Hl by (pose proof (realloc_length junk [] 32); rewrite length_take; lia).
  destruct (ll2string_spec (take 32 (realloc junk [] 32)) 32 v Hv) as (s' & Hc & Hl' & ->); [lia|].
  rewrite (proj2 (Z.leb_gt _ _)) by lia. cbn [mbind option_bind]. rewrite c_string_app by (by eapply canonical_nonzero).
  destruct (bool_decide_reflect (s' = s)) as [-> |]; [|by exists []; split; [|left]].
  eexists. split; [done|]. right. by exists v.
Qed.

Lemma enc_len_length len : 0 ≤ len < 2 ^ 32 → 1 ≤ zlen (enc_len len) ≤ 5.
Proof.
  intros Hl. unfold enc_len. destruct (len <? 64); [simpl; lia|]. destruct (len <? 16384); [simpl; lia|].
  rewrite (proj2 (Z.ltb_lt _ _)) by lia. cbn [length]. destruct (be_roundtrip 4 len) as [_ ->]; simpl; lia.
Qed.

Lemma encode_length v : zlen (rdbEncodeInteger v) ≤ 5.
Proof. unfold rdbEncodeInteger. destruct (_ && _); [simpl; lia|]. destruct (_ && _); [simpl; lia|]. destruct (_ && _); simpl; lia. Qed.

Lemma save_lzf t junk r s :
  Forall is_byte s → 20 < zlen s < 2 ^ 32 → (∀ i, in_u 32 (t i)) → 0 ≤ space r →
  ∃ p, rdbSaveLzfStringObject t junk r s = Some p ∧
    (p = (r, 0) ∨ ∃ e, saved r p e ∧ loads e s ∧ 0 < zlen e ≤ zlen s + 9).
Proof.
  intros Hb Hl Ht Hsp. unfold rdbSaveLzfStringObject. rewrite (proj2 (Z.leb_gt _ _)) by lia.
  assert (zlen (realloc junk [] (zlen s - 4)) = zlen s - 4) as Hlen by (apply realloc_length; lia).
  destruct (lzf_lossless s (realloc junk [] (zlen s - 4)) s t) as (out' & n & E & Hlo & Hn & _); [done|lia|done|lia|].
  assert (∀ buf, zlen s ≤ zlen buf → 0 < n → lzf_decompress (take (Z.to_nat n) out') buf = Some (s ++ drop (length s) buf, inr (zlen s))) as Hdec.
  { intros buf Hbuf Hpos. destruct (lzf_lossless s (realloc junk [] (zlen s - 4)) buf t) as (out2 & n2 & E2 & _ & _ & H); [done|lia|done|done|].
    rewrite E in E2. injection E2 as <- <-. by apply H. }
  rewrite E. cbn [mbind option_bind]. destruct (Z.eqb_spec n 0) as [->|Hn0]; [eexists; split; [done|by left]|].
  set (c := take (Z.to_nat n) out') in *. assert (zlen c = n) as Hc by (unfold c; rewrite length_take; lia).
  eexists. split; [done|]. right. exists ([195] ++ enc_len (zlen c) ++ enc_len (zlen s) ++ c). split; [|split].
  - unfold rdbSaveLzfBlob. apply saved_then; [apply (saved_raw r [195])|]. intros r1. apply saved_then; [apply saved_len; lia|].
    intros r2. apply saved_then; [apply saved_len; lia|]. intros r3. apply saved_raw.
  - apply load_lzf; [by destruct c; [simpl in Hc; lia|]|lia|lia|]. intros buf Hbuf. apply Hdec; [done|lia].
  - pose proof (enc_len_length (zlen c)). pose proof (enc_len_length (zlen s)). rewrite !length_app. cbn [length]. lia.
Qed.

Lemma save_raw_string compression t junk r s :
  Forall is_byte s → zlen s < 2 ^ 32 → (∀ i, in_u 32 (t i)) → 0 ≤ space r →
  ∃ p e, rdbSaveRawString compression t junk r s = Some p ∧ saved r p e ∧ loads e s ∧ zlen e ≤ zlen s + 9.
Proof.
  intros Hb Hl Ht Hsp. unfold rdbSaveRawString.
  assert (∃ e, (if zlen s <=? 11 then rdbTryIntegerEncoding (realloc junk [] 32) s else Some []) = Some e ∧
    (e = [] ∨ ∃ v, e = rdbEncodeInteger v ∧ canonical s v)) as (e & -> & He).
  { destruct (zlen s <=? 11); [apply try_integer_spec|]. exists []. split; [done|by left]. }
  cbn [mbind option_bind]. destruct (Z.ltb_spec 0 (zlen e)) as [Hpos|_].
  { destruct He as [->|(v & -> & Hc)]; [simpl in Hpos; lia|]. eexists _, (rdbEncodeInteger v). split; [done|]. split; [apply saved_raw|].
    split; [|pose proof (encode_length v); lia]. apply load_integer; [|done]. intros En. rewrite En in Hpos. simpl in Hpos. lia. }
  assert (∃ p, (if compression && (20 <? zlen s) then rdbSaveLzfStringObject t junk r s else Some (r, 0)) = Some p ∧
    (p = (r, 0) ∨ ∃ e, saved r p e ∧ loads e s ∧ 0 < zlen e ≤ zlen s + 9)) as (p & -> & Hp).
  { destruct (compression && (20 <? zlen s)) eqn:E; [|eexists; split; [done|by left]]. apply andb_true_iff in E as [_ E%Z.ltb_lt].
    apply save_lzf; (done || lia). }
  cbn [mbind option_bind]. destruct Hp as [->|(e2 & Hs2 & Hlo2 & He2)].
  - cbn [Z.eqb Z.ltb Z.compare]. eexists _, (enc_len (zlen s) ++ s). split; [done|]. split; [|split].
    + apply saved_then; [apply saved_len; lia|]. intros r'. destruct (Z.ltb_spec 0 (zlen s)); [apply saved_raw|].
      destruct s; [apply saved_nil|simpl in *; lia].
    + by apply load_verbatim.
    + pose proof (enc_len_length (zlen s)). rewrite length_app. lia.
  - destruct p as [r' n]. exists (if n =? -1 then (r', -1) else (r', n)), e2. destruct (Hs2 Hsp) as [H1 H2]. split.
    + destruct (Z.eqb_spec n (-1)); [done|]. destruct (Z_le_gt_dec (zlen e2) (space r)) as [Hle|Hgt].
      * injection (H1 Hle) as -> ->. rewrite (proj2 (Z.ltb_lt _ _)) by lia. done.
      * specialize (H2 ltac:(lia)). simpl in H2. lia.
    + split; [|split; [done|lia]]. destruct (Z.eqb_spec n (-1)) as [->|]; done.
Qed.

(** ** Streams *)

Lemma save_integer junk r v s :
  in_s 64 v → canonical s v → zlen s ≤ 20 →
  ∃ p e, rdbSaveLongLongAsStringObject junk r v = Some p ∧ saved r p e ∧ loads e s ∧ zlen e ≤ zlen s + 9.
Proof.
  intros Hv Hc Hl. unfold rdbSaveLongLongAsStringObject. destruct (Z.ltb_spec 0 (zlen (rdbEncodeInteger v))) as [Hpos|_].
  - eexists _, (rdbEncodeInteger v). split; [done|]. split; [apply saved_raw|]. split; [|pose proof (encode_length v); lia].
    apply load_integer; [|done]. intros En. rewrite En in Hpos. simpl in Hpos. lia.
  - destruct (ll2string_spec (realloc junk [] 32) 32 v Hv) as (s' & Hc' & Hl' & ->); [rewrite realloc_length by lia; lia|].
    pose proof (canonical_unique _ _ _ Hc' Hc) as ->. rewrite (proj2 (Z.leb_gt _ _)) by lia. cbn [mbind option_bind].
    rewrite (proj2 (Z.ltb_lt _ _)) by lia. rewrite Nat2Z.id, take_app_length.
    eexists _, (enc_len (zlen s) ++ s). split; [done|]. split; [|split].
    + apply saved_then; [apply saved_len; lia|]. intros r'. apply saved_raw.
    + apply load_verbatim. lia.
    + pose proof (enc_len_length (zlen s)). rewrite length_app. lia.
Qed.

(** What a file is made of. *)
Inductive item := IType (t : Z) | ITime (t : Z) | ILen (n : Z) | IString (o : robj).

Inductive value := VType (t : Z) | VTime (t : Z) | VLen (isencoded : bool) (n : Z) | VString (v : loaded).

Definition save_item (compression : bool) (t : Z → Z) (junk : nat → Z) (r : rio) (i : item) : option (rio * Z) :=
  match i with
  | IType c => Some (rdbSaveType r c)
  | ITime c => Some (rdbSaveMillisecondTime r c)
  | ILen n => Some (rdbSaveLen r n)
  | IString o => rdbSaveStringObject compression t junk r o
  end.

Fixpoint save_all (compression : bool) (t : Z → Z) (junk : nat → Z) (r : rio) (its : list item) : option (rio * Z) :=
  match its with
  | [] => Some (r, 0)
  | i :: its =>
      '(r, n) ← save_item compression t junk r i;
      if n =? -1 then Some (r, -1)
      else
        '(r, m) ← save_all compression t junk r its;
        Some (r, if m =? -1 then -1 else n + m)
  end.

(** The reader knows from the type of an object what comes next. *)
Definition load_item (junk : nat → Z) (flags : Z) (i : item) (l : list Z) : lres value :=
  match i with
  | IType _ => lbind (rdbLoadType l) (λ v l, LOk (VType v) l)
  | ITime _ => lbind (rdbLoadMillisecondTime l) (λ v l, LOk (VTime v) l)
  | ILen _ => lbind (rdbLoadLen l) (λ v l, LOk (VLen v.1 v.2) l)
  | IString _ => lbind (rdbGenericLoadStringObject junk l flags) (λ v l, LOk (VString v) l)
  end.

Fixpoint load_all (junk : nat → Z) (flags : Z) (its : list item) (l : list Z) : lres (list value) :=
  match its with
  | [] => LOk [] l
  | i :: its => lbind (load_item junk flags i l) (λ v l, lbind (load_all junk flags its l) (λ vs l, LOk (v :: vs) l))
  end.

Definition item_ok (i : item) : Prop :=
  match i with
  | IType c => is_byte c
  | ITime c => in_s 64 c
  | ILen n => 0 ≤ n < RDB_LENERR
  | IString (OInt v) => in_s 64 v
  | IString (OStr s) => Forall is_byte s ∧ zlen s < 2 ^ 32
  end.

(** A loaded value is the item that was saved. *)
Definition same (i : item) (v : value) : Prop :=
  match i, v with
  | IType c, VType c' | ITime c, VTime c' => c' = c
  | ILen n, VLen enc n' => enc = false ∧ n' = n
  | IString (OInt n), VString v => content v = sdsll2str n
  | IString (OStr s), VString v => content v = Some s
  | _, _ => False
  end.

(** A bound on the size of an item. *)
Definition item_size (i : item) : Z :=
  match i with IType _ => 1 | ITime _ => 8 | ILen _ => 9 | IString (OInt _) => 29 | IString (OStr s) => zlen s + 9 end.

Lemma item_roundtrip compression t junk r i :
  item_ok i → (∀ k, in_u 32 (t k)) → 0 ≤ space r →
  ∃ p e, save_item compression t junk r i = Some p ∧ saved r p e ∧ zlen e ≤ item_size i ∧
    ∀ junk2 flags rest, ∃ v, load_item junk2 flags i (e ++ rest) = LOk v rest ∧ same i v.
Proof.
  intros Hi Ht Hsp. destruct i as [c|c|n|[v|s]]; cbn [item_ok save_item item_size] in *.
  - eexists _, [c]. split; [done|]. unfold rdbSaveType. rewrite wrap_u_small by (unfold in_u, is_byte in *; lia).
    split; [apply saved_raw|]. split; [done|]. intros junk2 flags rest. unfold load_item, rdbLoadType. cbn [app]. rewrite rioRead_1.
    by eexists.
  - eexists _, (le_encode 8 c). split; [done|]. split; [apply saved_raw|]. split; [by rewrite le_encode_length|].
    intros junk2 flags rest. unfold load_item, rdbLoadMillisecondTime. rewrite rioRead_app by (by rewrite le_encode_length).
    cbn [lbind]. eexists. split; [done|]. cbn [same]. rewrite le_decode_encode. apply wrap_s_of_mod; [lia|done|done].
  - eexists _, (enc_len n). split; [done|]. unfold RDB_LENERR in Hi. split; [apply saved_len; lia|]. split.
    { unfold enc_len. destruct (n <? 64); [done|]. destruct (n <? 16384); [done|]. unfold be_encode.
      destruct (n <? 2 ^ 32); cbn [length]; rewrite length_reverse, le_encode_length; lia. }
    intros junk2 flags rest. unfold load_item. rewrite load_len by lia. cbn [lbind]. by eexists.
  - destruct (sdsll2str_spec v Hi) as (s & Es & Hc & Hl). destruct (save_integer junk r v s Hi Hc Hl) as (p & e & E & Hs & Hlo & Hle).
    exists p, e. split; [done|]. split; [done|]. split; [lia|]. intros junk2 flags rest. unfold load_item.
    destruct (Hlo junk2 flags rest) as (o & -> & Ho). cbn [lbind]. eexists. split; [done|]. cbn [same]. congruence.
  - destruct Hi as [Hb Hl]. destruct (save_raw_string compression t junk r s Hb Hl Ht Hsp) as (p & e & E & Hs & Hlo & Hle).
    exists p, e. split; [done|]. split; [done|]. split; [done|]. intros junk2 flags rest. unfold load_item.
    destruct (Hlo junk2 flags rest) as (o & -> & Ho). cbn [lbind]. by eexists.
Qed.

(** C34: what is saved is loaded.  For any sequence of types, times, lengths and strings,
    with or without compression, saving either reports an error, which happens only when the
    device runs out of space, or appends bytes, whose number it returns, from which loading
    gives back the same sequence whatever follows them: no string is changed by the integer
    encodings or by LZF, and no access leaves a buffer. *)
Theorem rdb_stream_roundtrip compression (t : Z → Z) junk r (its : list item) :
  Forall item_ok its → (∀ k, in_u 32 (t k)) → 0 ≤ space r →
  ∃ r' n, save_all compression t junk r its = Some (r', n) ∧
    (foldr (λ i a, item_size i + a) 0 its ≤ space r → n ≠ -1) ∧
    (n ≠ -1 → ∃ e, written r' = written r ++ e ∧ n = zlen e ∧
       ∀ junk2 flags rest, ∃ vs, load_all junk2 flags its (e ++ rest) = LOk vs rest ∧ Forall2 same its vs).
Proof.
  intros Hok Ht. revert r. induction Hok as [|i its Hi His IH]; intros r Hsp; cbn [save_all foldr].
  { exists r, 0. split; [done|]. split; [lia|]. intros _. exists []. rewrite app_nil_r. split; [done|]. split; [done|].
    intros junk2 flags rest. exists []. split; [done|constructor]. }
  destruct (item_roundtrip compression t junk r i Hi Ht Hsp) as ([r1 n1] & e1 & -> & Hs & Hle & Hload). cbn [mbind option_bind].
  destruct (Hs Hsp) as [H1 H2]. destruct (Z_le_gt_dec (zlen e1) (space r)) as [Hfit|Hfull].
  - injection (H1 Hfit) as -> ->. rewrite (proj2 (Z.eqb_neq _ _)) by lia.
    destruct (IH (Rio (written r ++ e1) (space r - zlen e1))) as (r2 & n2 & -> & Hsize & Hrest); [cbn [space]; lia|].
    cbn [mbind option_bind written space] in *. exists r2, (if n2 =? -1 then -1 else zlen e1 + n2). split; [done|]. split.
    + intros Hsz. specialize (Hsize ltac:(lia)). rewrite (proj2 (Z.eqb_neq _ _)) by done.
      destruct (Hrest Hsize) as (e2 & _ & -> & _). lia.
    + destruct (Z.eqb_spec n2 (-1)) as [->|Hn2]; [done|]. intros _. destruct (Hrest Hn2) as (e2 & Hw & -> & Hl2).
      exists (e1 ++ e2). rewrite Hw, <-(assoc_L (++)), length_app. split; [done|]. split; [lia|]. intros junk2 flags rest.
      rewrite <-(assoc_L (++)). cbn [load_all]. destruct (Hload junk2 flags (e2 ++ rest)) as (v & -> & Hv). cbn [lbind].
      destruct (Hl2 junk2 flags rest) as (vs & -> & Hvs). cbn [lbind]. eexists. split; [done|]. by constructor.
  - specialize (H2 ltac:(lia)). cbn [snd] in H2. subst n1. exists r1, (-1). split; [done|]. split; [|done]. intros Hsz. exfalso.
    assert (0 ≤ foldr (λ i a, item_size i + a) 0 its); [|lia]. clear -His. induction His as [|j js Hj _ IH2]; cbn [foldr]; [lia|].
    destruct j as [|[]| |[]]; cbn [item_size]; lia.
Qed.

Definition demo_items : list item :=
  [IType 0; ITime 1700000000000; IString (OStr (str "key")); IString (OInt (-5)); IString (OStr (str "-32768"));
   IString (OStr (str "007")); ILen 70000; IString (OStr (replicate 100 97)); IString (OStr []); ILen 100].

Lemma rdb_stream_roundtrip_witness :
  ∃ r' n, save_all true (wrap_u 32) (λ _, 255) (Rio [82] 1000) demo_items = Some (r', n) ∧ n ≠ -1 ∧
    ∃ e, written r' = [82] ++ e ∧ n = zlen e ∧
      ∃ vs, load_all (λ _, 1) RDB_LOAD_SDS demo_items (e ++ [7]) = LOk vs [7] ∧ Forall2 same demo_items vs.
Proof.
  destruct (rdb_stream_roundtrip true (wrap_u 32) (λ _, 255) (Rio [82] 1000) demo_items) as (r' & n & H1 & H2 & H3).
  - repeat (apply Forall_cons; split); try (apply Forall_nil; exact I); cbn [item_ok]; unfold is_byte, in_s, RDB_LENERR; try lia;
      (split; [|vm_compute; reflexivity]); bytes_solve.
  - intros k. apply wrap_u_range. lia.
  - cbn [space]. lia.
  - exists r', n. split; [exact H1|]. assert (n ≠ -1) as Hn by (apply H2; vm_compute; discriminate). split; [exact Hn|].
    destruct (H3 Hn) as (e & He & Hl & Hv). exists e. split; [exact He|]. split; [exact Hl|]. exact (Hv (λ _, 1) RDB_LOAD_SDS [7]).
Defined.
