(* ===== verification/Ziplist.v ===== *)
(** Ziplists (ziplist.c): a doubly linked list in one block of memory, with the length of the
    previous entry in front of every entry and small encodings of integers.

    A ziplist is the list of the bytes of its block, a pointer into it is an offset, and
    [None] is an access outside of the block, a failed assertion, a panic or an exhausted
    loop counter.  The machine is little endian, so that the conversions of byte order do
    nothing.  [junk] gives the contents of memory that was just allocated. *)

From stdpp Require Import list numbers.
From S2P Require Import Prelude Util.

Definition ZIP_END : Z := 255.
Definition ZIP_BIG_PREVLEN : Z := 254.
Definition ZIP_STR_MASK : Z := 192.
Definition ZIP_STR_06B : Z := Z.shiftl 0 6.
Definition ZIP_STR_14B : Z := Z.shiftl 1 6.
Definition ZIP_STR_32B : Z := Z.shiftl 2 6.
Definition ZIP_INT_16B : Z := Z.lor 192 (Z.shiftl 0 4).
Definition ZIP_INT_32B : Z := Z.lor 192 (Z.shiftl 1 4).
Definition ZIP_INT_64B : Z := Z.lor 192 (Z.shiftl 2 4).
Definition ZIP_INT_24B : Z := Z.lor 192 (Z.shiftl 3 4).
Definition ZIP_INT_8B : Z := 254.
Definition ZIP_INT_IMM_MASK : Z := 15.
Definition ZIP_INT_IMM_MIN : Z := 241.
Definition ZIP_INT_IMM_MAX : Z := 253.
Definition INT24_MAX : Z := 8388607.
Definition INT24_MIN : Z := - INT24_MAX - 1.
Definition UINT16_MAX : Z := 65535.
Definition ZIPLIST_HEADER_SIZE : Z := 10.
Definition ZIPLIST_END_SIZE : Z := 1.
Definition ZIPLIST_HEAD : Z := 0.
Definition ZIPLIST_TAIL : Z := 1.

Definition ZIP_IS_STR (enc : Z) : bool := Z.land enc ZIP_STR_MASK <? ZIP_STR_MASK.

(** ** The header *)

Definition ZIPLIST_BYTES (zl : list Z) : option Z := le_decode <$> slice zl 0 4.
Definition ZIPLIST_TAIL_OFFSET (zl : list Z) : option Z := le_decode <$> slice zl 4 4.
Definition ZIPLIST_LENGTH (zl : list Z) : option Z := le_decode <$> slice zl 8 2.

(** Assignments to the fields, which truncate. *)
Definition set_bytes (zl : list Z) (v : Z) : option (list Z) := blit zl 0 (le_encode 4 v).
Definition set_tail_offset (zl : list Z) (v : Z) : option (list Z) := blit zl 4 (le_encode 4 v).
Definition set_length (zl : list Z) (v : Z) : option (list Z) := blit zl 8 (le_encode 2 v).

Definition ZIPLIST_ENTRY_HEAD : Z := ZIPLIST_HEADER_SIZE.
Definition ZIPLIST_ENTRY_TAIL (zl : list Z) : option Z := ZIPLIST_TAIL_OFFSET zl.
Definition ZIPLIST_ENTRY_END (zl : list Z) : option Z := b ← ZIPLIST_BYTES zl; Some (b - 1).

Definition ZIPLIST_INCR_LENGTH (zl : list Z) (incr : Z) : option (list Z) :=
  n ← ZIPLIST_LENGTH zl;
  if n <? UINT16_MAX then set_length zl (n + incr) else Some zl.

(** ** Entries *)

Record zlentry := ZlEntry {
  prevrawlensize : Z;
  prevrawlen : Z;
  lensize : Z;
  elen : Z;  (* len *)
  headersize : Z;
  encoding : Z;
  ep : Z  (* p *)
}.

Definition ZIP_ENTRY_ENCODING (zl : list Z) (p : Z) : option Z :=
  e ← peek zl p; Some (if e <? ZIP_STR_MASK then Z.land e ZIP_STR_MASK else e).

Definition zipIntSize (encoding : Z) : option Z :=
  if encoding =? ZIP_INT_8B then Some 1
  else if encoding =? ZIP_INT_16B then Some 2
  else if encoding =? ZIP_INT_24B then Some 3
  else if encoding =? ZIP_INT_32B then Some 4
  else if encoding =? ZIP_INT_64B then Some 8
  else if (ZIP_INT_IMM_MIN <=? encoding) && (encoding <=? ZIP_INT_IMM_MAX) then Some 0
  else None.

(** The bytes [zipStoreEntryEncoding] puts in [buf]; its result is their number. *)
Definition entry_encoding (encoding rawlen : Z) : list Z :=
  if ZIP_IS_STR encoding then
    if rawlen <=? 63 then [u8 (Z.lor ZIP_STR_06B rawlen)]
    else if rawlen <=? 16383 then
      [Z.lor ZIP_STR_14B (Z.land (Z.shiftr rawlen 8) 63); Z.land rawlen 255]
    else
      [ZIP_STR_32B; Z.land (Z.shiftr rawlen 24) 255; Z.land (Z.shiftr rawlen 16) 255;
       Z.land (Z.shiftr rawlen 8) 255; Z.land rawlen 255]
  else [encoding].

Definition zipStoreEntryEncoding (zl : list Z) (p encoding rawlen : Z) : option (list Z * Z) :=
  let buf := entry_encoding encoding rawlen in
  zl ← blit zl p buf; Some (zl, zlen buf).

(** The encoding, [lensize] and [len]. *)
Definition ZIP_DECODE_LENGTH (zl : list Z) (p : Z) : option (Z * Z * Z) :=
  encoding ← ZIP_ENTRY_ENCODING zl p;
  if encoding <? ZIP_STR_MASK then
    if encoding =? ZIP_STR_06B then
      c ← peek zl p; Some (encoding, 1, Z.land c 63)
    else if encoding =? ZIP_STR_14B then
      c ← peek zl p; c1 ← peek zl (p + 1); Some (encoding, 2, Z.lor (Z.shiftl (Z.land c 63) 8) c1)
    else if encoding =? ZIP_STR_32B then
      c1 ← peek zl (p + 1); c2 ← peek zl (p + 2); c3 ← peek zl (p + 3); c4 ← peek zl (p + 4);
      Some (encoding, 5, Z.lor (Z.lor (Z.lor (Z.shiftl c1 24) (Z.shiftl c2 16)) (Z.shiftl c3 8)) c4)
    else None
  else
    n ← zipIntSize encoding; Some (encoding, 1, n).

Definition zipStorePrevEntryLengthLarge (zl : list Z) (p len : Z) : option (list Z) :=
  zl ← poke zl p ZIP_BIG_PREVLEN; blit zl (p + 1) (le_encode 4 len).

(** [zipStorePrevEntryLength] of a NULL pointer, and of a pointer with the size it returns. *)
Definition prev_entry_size (len : Z) : Z := if len <? ZIP_BIG_PREVLEN then 1 else 4 + 1.

Definition zipStorePrevEntryLength (zl : list Z) (p len : Z) : option (list Z * Z) :=
  if len <? ZIP_BIG_PREVLEN then zl ← poke zl p (u8 len); Some (zl, 1)
  else zl ← zipStorePrevEntryLengthLarge zl p len; Some (zl, 5).

Definition ZIP_DECODE_PREVLENSIZE (zl : list Z) (p : Z) : option Z :=
  c ← peek zl p; Some (if c <? ZIP_BIG_PREVLEN then 1 else 5).

(** The size of the field and the length of the previous entry. *)
Definition ZIP_DECODE_PREVLEN (zl : list Z) (p : Z) : option (Z * Z) :=
  size ← ZIP_DECODE_PREVLENSIZE zl p;
  if size =? 1 then c ← peek zl p; Some (1, c)
  else l ← slice zl (p + 1) 4; Some (5, le_decode l).

Definition zipPrevLenByteDiff (zl : list Z) (p len : Z) : option Z :=
  prevlensize ← ZIP_DECODE_PREVLENSIZE zl p; Some (prev_entry_size len - prevlensize).

Definition zipRawEntryLength (zl : list Z) (p : Z) : option Z :=
  prevlensize ← ZIP_DECODE_PREVLENSIZE zl p;
  '(_, lensize, len) ← ZIP_DECODE_LENGTH zl (p + prevlensize);
  Some (u32 (prevlensize + lensize + len)).

(** The value and the encoding of a string that is an integer. *)
Definition zipTryEncoding (entry : list Z) : option (option (Z * Z)) :=
  let entrylen := zlen entry in
  if (32 <=? entrylen) || (entrylen =? 0) then Some None
  else
    r ← string2ll entry entrylen;
    match r with
    | Some value =>
        Some (Some (value,
          if (0 <=? value) && (value <=? 12) then ZIP_INT_IMM_MIN + value
          else if (- 2 ^ 7 <=? value) && (value <=? 2 ^ 7 - 1) then ZIP_INT_8B
          else if (- 2 ^ 15 <=? value) && (value <=? 2 ^ 15 - 1) then ZIP_INT_16B
          else if (INT24_MIN <=? value) && (value <=? INT24_MAX) then ZIP_INT_24B
          else if (- 2 ^ 31 <=? value) && (value <=? 2 ^ 31 - 1) then ZIP_INT_32B
          else ZIP_INT_64B))
    | None => Some None
    end.

Definition is_imm (encoding : Z) : bool := (ZIP_INT_IMM_MIN <=? encoding) && (encoding <=? ZIP_INT_IMM_MAX).

(** Of a 24 bit integer the upper three bytes of [value<<8] are stored. *)
Definition zipSaveInteger (zl : list Z) (p value encoding : Z) : option (list Z) :=
  if encoding =? ZIP_INT_8B then poke zl p (u8 value)
  else if encoding =? ZIP_INT_16B then blit zl p (le_encode 2 value)
  else if encoding =? ZIP_INT_24B then blit zl p (drop 1 (le_encode 4 (Z.shiftl value 8)))
  else if encoding =? ZIP_INT_32B then blit zl p (le_encode 4 value)
  else if encoding =? ZIP_INT_64B then blit zl p (le_encode 8 value)
  else if is_imm encoding then Some zl
  else None.

Definition zipLoadInteger (zl : list Z) (p encoding : Z) : option Z :=
  if encoding =? ZIP_INT_8B then c ← peek zl p; Some (wrap_s 8 c)
  else if encoding =? ZIP_INT_16B then l ← slice zl p 2; Some (wrap_s 16 (le_decode l))
  else if encoding =? ZIP_INT_32B then l ← slice zl p 4; Some (wrap_s 32 (le_decode l))
  else if encoding =? ZIP_INT_24B then l ← slice zl p 3; Some (Z.shiftr (wrap_s 32 (le_decode (0 :: l))) 8)
  else if encoding =? ZIP_INT_64B then l ← slice zl p 8; Some (wrap_s 64 (le_decode l))
  else if is_imm encoding then Some (Z.land encoding ZIP_INT_IMM_MASK - 1)
  else None.

Definition zipEntry (zl : list Z) (p : Z) : option zlentry :=
  '(prevrawlensize, prevrawlen) ← ZIP_DECODE_PREVLEN zl p;
  '(encoding, lensize, len) ← ZIP_DECODE_LENGTH zl (p + prevrawlensize);
  Some (ZlEntry prevrawlensize prevrawlen lensize len (u32 (prevrawlensize + lensize)) encoding p).

(** ** The list *)

Section Ops.

Context (junk : nat → Z).

Definition ziplistNew : option (list Z) :=
  let bytes := ZIPLIST_HEADER_SIZE + ZIPLIST_END_SIZE in
  let zl := realloc junk [] bytes in
  zl ← set_bytes zl bytes;
  zl ← set_tail_offset zl ZIPLIST_HEADER_SIZE;
  zl ← set_length zl 0;
  poke zl (bytes - 1) ZIP_END.

(** The new length is an unsigned int. *)
Definition ziplistResize (zl : list Z) (len : Z) : option (list Z) :=
  let len := u32 len in
  let zl := realloc junk zl len in
  zl ← set_bytes zl len;
  poke zl (len - 1) ZIP_END.

(** The loop of [__ziplistCascadeUpdate]; every iteration goes to the next entry. *)
Fixpoint cascade_loop (fuel : nat) (zl : list Z) (p curlen : Z) : option (list Z) :=
  match fuel with
  | O => None
  | S fuel =>
      c ← peek zl p;
      if c =? ZIP_END then Some zl
      else
        cur ← zipEntry zl p;
        let rawlen := u32 (headersize cur + elen cur) in
        let rawlensize := prev_entry_size rawlen in
        c ← peek zl (p + rawlen);
        if c =? ZIP_END then Some zl
        else
          next ← zipEntry zl (p + rawlen);
          if prevrawlen next =? rawlen then Some zl
          else if prevrawlensize next <? rawlensize then
            let extra := rawlensize - prevrawlensize next in
            zl ← ziplistResize zl (curlen + extra);
            let np := p + rawlen in
            t ← ZIPLIST_TAIL_OFFSET zl;
            zl ← (if negb (t =? np) then set_tail_offset zl (t + extra) else Some zl);
            zl ← memmove zl (np + rawlensize) (np + prevrawlensize next)
                   (curlen - np - prevrawlensize next - 1);
            '(zl, _) ← zipStorePrevEntryLength zl np rawlen;
            cascade_loop fuel zl (p + rawlen) (curlen + extra)
          else if rawlensize <? prevrawlensize next then
            zipStorePrevEntryLengthLarge zl (p + rawlen) rawlen
          else
            '(zl, _) ← zipStorePrevEntryLength zl (p + rawlen) rawlen; Some zl
  end.

(** [__ziplistCascadeUpdate]: there are fewer entries than bytes. *)
Definition ziplistCascadeUpdate (zl : list Z) (p : Z) : option (list Z) :=
  curlen ← ZIPLIST_BYTES zl; cascade_loop (length zl) zl p curlen.

(** [for (i = 0; p[0] != ZIP_END && i < num; i++)]: where it ends and the entries passed. *)
Fixpoint skip_entries (fuel : nat) (zl : list Z) (p i num : Z) : option (Z * Z) :=
  match fuel with
  | O => None
  | S fuel =>
      c ← peek zl p;
      if negb (c =? ZIP_END) && (i <? num) then
        n ← zipRawEntryLength zl p; skip_entries fuel zl (p + n) (i + 1) num
      else Some (p, i)
  end.

(** [__ziplistDelete] *)
Definition ziplistDelete_ (zl : list Z) (p num : Z) : option (list Z) :=
  first ← zipEntry zl p;
  '(p, deleted) ← skip_entries (S (length zl)) zl p 0 num;
  let totlen := u32 (p - ep first) in
  if 0 <? totlen then
    c ← peek zl p;
    '(zl, nextdiff) ← (
      if negb (c =? ZIP_END) then
        nextdiff ← zipPrevLenByteDiff zl p (prevrawlen first);
        let p := p - nextdiff in
        '(zl, _) ← zipStorePrevEntryLength zl p (prevrawlen first);
        t ← ZIPLIST_TAIL_OFFSET zl;
        zl ← set_tail_offset zl (t - totlen);
        tail ← zipEntry zl p;
        c ← peek zl (p + u32 (headersize tail + elen tail));
        zl ← (if negb (c =? ZIP_END) then t ← ZIPLIST_TAIL_OFFSET zl; set_tail_offset zl (t + nextdiff) else Some zl);
        b ← ZIPLIST_BYTES zl;
        zl ← memmove zl (ep first) p (b - p - 1);
        Some (zl, nextdiff)
      else
        zl ← set_tail_offset zl (ep first - prevrawlen first);
        Some (zl, 0));
    b ← ZIPLIST_BYTES zl;
    zl ← ziplistResize zl (b - totlen + nextdiff);
    zl ← ZIPLIST_INCR_LENGTH zl (- deleted);
    if negb (nextdiff =? 0) then ziplistCascadeUpdate zl (ep first) else Some zl
  else Some zl.

(** The parts of [__ziplistInsert].  "Find out prevlen for the entry that is inserted." *)
Definition insert_prevlen (zl : list Z) (p : Z) : option Z :=
  c ← peek zl p;
  if negb (c =? ZIP_END) then '(_, prevlen) ← ZIP_DECODE_PREVLEN zl p; Some prevlen
  else
    ptail ← ZIPLIST_ENTRY_TAIL zl;
    c ← peek zl ptail;
    if negb (c =? ZIP_END) then zipRawEntryLength zl ptail else Some 0.

(** "Apply memory move when necessary and update tail offset." *)
Definition insert_shift (zl : list Z) (p curlen reqlen nextdiff : Z) (forcelarge : bool) : option (list Z) :=
  c ← peek zl p;
  if negb (c =? ZIP_END) then
    zl ← memmove zl (p + reqlen) (p - nextdiff) (curlen - p - 1 + nextdiff);
    zl ← (if forcelarge then zipStorePrevEntryLengthLarge zl (p + reqlen) (u32 reqlen)
           else '(zl, _) ← zipStorePrevEntryLength zl (p + reqlen) (u32 reqlen); Some zl);
    t ← ZIPLIST_TAIL_OFFSET zl;
    zl ← set_tail_offset zl (t + reqlen);
    tail ← zipEntry zl (p + reqlen);
    c ← peek zl (p + (reqlen + headersize tail + elen tail));
    if negb (c =? ZIP_END) then t ← ZIPLIST_TAIL_OFFSET zl; set_tail_offset zl (t + nextdiff) else Some zl
  else set_tail_offset zl p.

(** "Write the entry" *)
Definition write_entry (zl : list Z) (p prevlen encoding value : Z) (s : list Z) : option (list Z) :=
  '(zl, n) ← zipStorePrevEntryLength zl p prevlen;
  let p := p + n in
  '(zl, n) ← zipStoreEntryEncoding zl p encoding (zlen s);
  let p := p + n in
  if ZIP_IS_STR encoding then blit zl p s else zipSaveInteger zl p value encoding.

(** [__ziplistInsert] *)
Definition ziplistInsert (zl : list Z) (p : Z) (s : list Z) : option (list Z) :=
  let slen := zlen s in
  curlen ← ZIPLIST_BYTES zl;
  prevlen ← insert_prevlen zl p;
  enc ← zipTryEncoding s;
  let '(value, encoding) := default (123456789, 0) enc in
  reqlen ← match enc with Some _ => zipIntSize encoding | None => Some slen end;
  let reqlen := reqlen + prev_entry_size prevlen + zlen (entry_encoding encoding slen) in
  c ← peek zl p;
  nextdiff ← (if negb (c =? ZIP_END) then zipPrevLenByteDiff zl p (u32 reqlen) else Some 0);
  let forcelarge := (nextdiff =? -4) && (reqlen <? 4) in
  let nextdiff := if forcelarge then 0 else nextdiff in
  zl ← ziplistResize zl (curlen + reqlen + nextdiff);
  zl ← insert_shift zl p curlen reqlen nextdiff forcelarge;
  zl ← (if negb (nextdiff =? 0) then ziplistCascadeUpdate zl (p + reqlen) else Some zl);
  zl ← write_entry zl p prevlen encoding value s;
  ZIPLIST_INCR_LENGTH zl 1.

(** [ziplistMerge] of two ziplists: [None] in [first] or [second] is a NULL pointer, and
    [same] says that both pointers are the same.  [Some None] is the result NULL.  The
    ziplist that is returned replaces the longer one, the other one is freed. *)
Definition ziplistMerge (first second : option (list Z)) (same : bool) : option (option (list Z)) :=
  match first, second with
  | Some first, Some second =>
      if same then Some None
      else
        first_bytes ← ZIPLIST_BYTES first;
        first_len ← ZIPLIST_LENGTH first;
        second_bytes ← ZIPLIST_BYTES second;
        second_len ← ZIPLIST_LENGTH second;
        let append := second_len <=? first_len in
        let '(target, target_bytes, source, source_bytes) :=
          if append then (first, first_bytes, second, second_bytes)
          else (second, second_bytes, first, first_bytes) in
        let zlbytes := first_bytes + second_bytes - ZIPLIST_HEADER_SIZE - ZIPLIST_END_SIZE in
        let zllength := if first_len + second_len <? UINT16_MAX then first_len + second_len else UINT16_MAX in
        first_offset ← ZIPLIST_TAIL_OFFSET first;
        second_offset ← ZIPLIST_TAIL_OFFSET second;
        let target := realloc junk target zlbytes in
        target ← (
          if append then
            l ← slice source ZIPLIST_HEADER_SIZE (source_bytes - ZIPLIST_HEADER_SIZE);
            blit target (target_bytes - ZIPLIST_END_SIZE) l
          else
            target ← memmove target (source_bytes - ZIPLIST_END_SIZE) ZIPLIST_HEADER_SIZE
                       (target_bytes - ZIPLIST_HEADER_SIZE);
            l ← slice source 0 (source_bytes - ZIPLIST_END_SIZE);
            blit target 0 l);
        target ← set_bytes target zlbytes;
        target ← set_length target zllength;
        target ← set_tail_offset target ((first_bytes - ZIPLIST_END_SIZE) + (second_offset - ZIPLIST_HEADER_SIZE));
        target ← ziplistCascadeUpdate target first_offset;
        Some (Some target)
  | _, _ => Some None
  end.

Definition ziplistPush (zl : list Z) (s : list Z) (where_ : Z) : option (list Z) :=
  p ← (if where_ =? ZIPLIST_HEAD then Some ZIPLIST_ENTRY_HEAD else ZIPLIST_ENTRY_END zl);
  ziplistInsert zl p s.

(** [while (prevlen > 0 && index--)]: where it ends and the index. *)
Fixpoint back_loop (fuel : nat) (zl : list Z) (p prevlen index : Z) : option (Z * Z) :=
  match fuel with
  | O => None
  | S fuel =>
      if 0 <? prevlen then
        if index =? 0 then Some (p, index - 1)
        else
          let p := p - prevlen in
          '(_, prevlen) ← ZIP_DECODE_PREVLEN zl p;
          back_loop fuel zl p prevlen (index - 1)
      else Some (p, index)
  end.

(** [while (p[0] != ZIP_END && index--)] *)
Fixpoint forward_loop (fuel : nat) (zl : list Z) (p index : Z) : option (Z * Z) :=
  match fuel with
  | O => None
  | S fuel =>
      c ← peek zl p;
      if negb (c =? ZIP_END) then
        if index =? 0 then Some (p, index - 1)
        else n ← zipRawEntryLength zl p; forward_loop fuel zl (p + n) (index - 1)
      else Some (p, index)
  end.

(** [Some None] is NULL.  The negation of INT_MIN overflows. *)
Definition ziplistIndex (zl : list Z) (index : Z) : option (option Z) :=
  '(p, index) ← (
    if index <? 0 then
      index ← (if index =? - 2 ^ 31 then None else Some (- index - 1));
      p ← ZIPLIST_ENTRY_TAIL zl;
      c ← peek zl p;
      if negb (c =? ZIP_END) then
        '(_, prevlen) ← ZIP_DECODE_PREVLEN zl p;
        back_loop (length zl) zl p prevlen index
      else Some (p, index)
    else forward_loop (length zl) zl ZIPLIST_ENTRY_HEAD index);
  c ← peek zl p;
  Some (if (c =? ZIP_END) || (0 <? index) then None else Some p).

Definition ziplistNext (zl : list Z) (p : Z) : option (option Z) :=
  c ← peek zl p;
  if c =? ZIP_END then Some None
  else
    n ← zipRawEntryLength zl p;
    let p := p + n in
    c ← peek zl p;
    Some (if c =? ZIP_END then None else Some p).

Definition ziplistPrev (zl : list Z) (p : Z) : option (option Z) :=
  c ← peek zl p;
  if c =? ZIP_END then
    p ← ZIPLIST_ENTRY_TAIL zl;
    c ← peek zl p;
    Some (if c =? ZIP_END then None else Some p)
  else if p =? ZIPLIST_ENTRY_HEAD then Some None
  else
    '(_, prevlen) ← ZIP_DECODE_PREVLEN zl p;
    if 0 <? prevlen then Some (Some (p - prevlen)) else None.

(** The string [*sstr] of length [*slen], or the integer [*sval]; [Some None] is the result 0. *)
Definition ziplistGet (zl : list Z) (p : option Z) : option (option (list Z + Z)) :=
  match p with
  | None => Some None
  | Some p =>
      c ← peek zl p;
      if c =? ZIP_END then Some None
      else
        entry ← zipEntry zl p;
        if ZIP_IS_STR (encoding entry) then
          s ← slice zl (p + headersize entry) (elen entry); Some (Some (inl s))
        else
          v ← zipLoadInteger zl (p + headersize entry) (encoding entry); Some (Some (inr v))
  end.

(** [ziplistDelete]: the pointer keeps its offset. *)
Definition ziplistDelete (zl : list Z) (p : Z) : option (list Z * Z) :=
  let offset := p in
  zl ← ziplistDelete_ zl p 1; Some (zl, offset).

Definition ziplistDeleteRange (zl : list Z) (index num : Z) : option (list Z) :=
  p ← ziplistIndex zl index;
  match p with None => Some zl | Some p => ziplistDelete_ zl p num end.

Definition ziplistCompare (zl : list Z) (p : Z) (sstr : list Z) : option bool :=
  c ← peek zl p;
  if c =? ZIP_END then Some false
  else
    entry ← zipEntry zl p;
    if ZIP_IS_STR (encoding entry) then
      if elen entry =? zlen sstr then
        l ← slice zl (p + headersize entry) (zlen sstr); Some (bool_decide (l = sstr))
      else Some false
    else
      r ← zipTryEncoding sstr;
      match r with
      | Some (sval, _) => zval ← zipLoadInteger zl (p + headersize entry) (encoding entry); Some (zval =? sval)
      | None => Some false
      end.

(** The loop of [ziplistFind]; [vencoding] is 0 before the string was tried as an integer
    and UCHAR_MAX when it is none. *)
Fixpoint find_loop (fuel : nat) (zl : list Z) (p : Z) (vstr : list Z) (skip skipcnt vencoding vll : Z)
    : option (option Z) :=
  match fuel with
  | O => None
  | S fuel =>
      c ← peek zl p;
      if c =? ZIP_END then Some None
      else
        prevlensize ← ZIP_DECODE_PREVLENSIZE zl p;
        '(encoding, lensize, len) ← ZIP_DECODE_LENGTH zl (p + prevlensize);
        let q := p + prevlensize + lensize in
        if skipcnt =? 0 then
          '(found, vencoding, vll) ← (
            if ZIP_IS_STR encoding then
              if len =? zlen vstr then
                l ← slice zl q (zlen vstr); Some (bool_decide (l = vstr), vencoding, vll)
              else Some (false, vencoding, vll)
            else
              '(vencoding, vll) ← (
                if vencoding =? 0 then
                  r ← zipTryEncoding vstr;
                  let '(vll, vencoding) := default (vll, 255) r in
                  if vencoding =? 0 then None else Some (vencoding, vll)
                else Some (vencoding, vll));
              if negb (vencoding =? 255) then
                ll ← zipLoadInteger zl q encoding; Some (ll =? vll, vencoding, vll)
              else Some (false, vencoding, vll));
          if (found : bool) then Some (Some p)
          else find_loop fuel zl (q + len) vstr skip (s32 skip) vencoding vll
        else find_loop fuel zl (q + len) vstr skip (skipcnt - 1) vencoding vll
  end.

Definition ziplistFind (zl : list Z) (p : Z) (vstr : list Z) (skip : Z) : option (option Z) :=
  find_loop (length zl) zl p vstr skip 0 0 0.

Fixpoint count_loop (fuel : nat) (zl : list Z) (p len : Z) : option Z :=
  match fuel with
  | O => None
  | S fuel =>
      c ← peek zl p;
      if c =? ZIP_END then Some len
      else n ← zipRawEntryLength zl p; count_loop fuel zl (p + n) (u32 (len + 1))
  end.

(** [ziplistLen] may store the length it counted. *)
Definition ziplistLen (zl : list Z) : option (list Z * Z) :=
  n ← ZIPLIST_LENGTH zl;
  if n <? UINT16_MAX then Some (zl, n)
  else
    len ← count_loop (length zl) zl ZIPLIST_HEADER_SIZE 0;
    zl ← (if len <? UINT16_MAX then set_length zl len else Some zl);
    Some (zl, len).

Definition ziplistBlobLen (zl : list Z) : option Z := ZIPLIST_BYTES zl.

End Ops.
