(* ===== verification/ZiplistEntry.v ===== *)
(** The entries of a ziplist: what the bytes of a block mean, and that the operations of
    ziplist.c that read one entry recover what was stored. *)

From stdpp Require Import list numbers.
From S2P Require Import Prelude Util Ziplist.

(** ** Integer encodings *)

Definition int_encoding (v : Z) : Z :=
  if (0 <=? v) && (v <=? 12) then ZIP_INT_IMM_MIN + v
  else if (- 2 ^ 7 <=? v) && (v <=? 2 ^ 7 - 1) then ZIP_INT_8B
  else if (- 2 ^ 15 <=? v) && (v <=? 2 ^ 15 - 1) then ZIP_INT_16B
  else if (INT24_MIN <=? v) && (v <=? INT24_MAX) then ZIP_INT_24B
  else if (- 2 ^ 31 <=? v) && (v <=? 2 ^ 31 - 1) then ZIP_INT_32B
  else ZIP_INT_64B.

Definition int_data (v : Z) : list Z :=
  let e := int_encoding v in
  if e =? ZIP_INT_8B then le_encode 1 v
  else if e =? ZIP_INT_16B then le_encode 2 v
  else if e =? ZIP_INT_24B then le_encode 3 v
  else if e =? ZIP_INT_32B then le_encode 4 v
  else if e =? ZIP_INT_64B then le_encode 8 v
  else [].

(** The integer of a string that is stored as one. *)
Definition try_int (s : list Z) : option Z := fst <$> default None (zipTryEncoding s).

Lemma canonical_length s v : canonical s v → in_s 64 v → 0 < zlen s ≤ 20.
Proof.
  intros Hc Hv. destruct (ll2string_spec (replicate 32 0) 32 v Hv) as (s' & Hc' & Hl' & _); [rewrite length_replicate; lia|].
  rewrite (canonical_unique _ _ _ Hc Hc'). split; [|done]. destruct s'; [|simpl; lia]. exfalso. unfold canonical in Hc'.
  destruct (v <? 0); [by destruct Hc' as (? & ? & _)|by destruct Hc'].
Qed.

Lemma try_int_Some s v : try_int s = Some v ↔ canonical s v ∧ in_s 64 v.
Proof.
  unfold try_int, zipTryEncoding. destruct (string2ll_spec s) as (r & Hr & Hiff). rewrite Hr.
  destruct ((32 <=? zlen s) || (zlen s =? 0)) eqn:E.
  - split; [done|]. intros [Hc Hv]. pose proof (canonical_length s v Hc Hv). apply orb_true_iff in E as [E|E]; lia.
  - rewrite <-Hiff. cbn [mbind option_bind]. destruct r; cbn; split; congruence.
Qed.

Lemma zipTryEncoding_eq s : zipTryEncoding s = Some ((λ v, (v, int_encoding v)) <$> try_int s).
Proof.
  unfold try_int, zipTryEncoding. destruct (string2ll_spec s) as (r & -> & _). destruct (_ || _); [done|].
  cbn [mbind option_bind]. by destruct r.
Qed.

(** The cases of [int_encoding]. *)
Ltac int_cases v :=
  unfold int_data, int_encoding;
  destruct ((0 <=? v) && (v <=? 12)) eqn:?; [|
  destruct ((- 2 ^ 7 <=? v) && (v <=? 2 ^ 7 - 1)) eqn:?; [|
  destruct ((- 2 ^ 15 <=? v) && (v <=? 2 ^ 15 - 1)) eqn:?; [|
  destruct ((INT24_MIN <=? v) && (v <=? INT24_MAX)) eqn:?; [|
  destruct ((- 2 ^ 31 <=? v) && (v <=? 2 ^ 31 - 1)) eqn:?]]]];
  repeat match goal with H : (_ && _) = true |- _ => apply andb_true_iff in H as [?%Z.leb_le ?%Z.leb_le] end.

(** The immediate encodings are none of the others. *)
Lemma imm_encoding v :
  0 ≤ v ≤ 12 →
  (ZIP_INT_IMM_MIN + v =? ZIP_INT_8B) = false ∧ (ZIP_INT_IMM_MIN + v =? ZIP_INT_16B) = false ∧
  (ZIP_INT_IMM_MIN + v =? ZIP_INT_24B) = false ∧ (ZIP_INT_IMM_MIN + v =? ZIP_INT_32B) = false ∧
  (ZIP_INT_IMM_MIN + v =? ZIP_INT_64B) = false ∧ is_imm (ZIP_INT_IMM_MIN + v) = true ∧
  Z.land (ZIP_INT_IMM_MIN + v) ZIP_INT_IMM_MASK - 1 = v ∧ ZIP_IS_STR (ZIP_INT_IMM_MIN + v) = false.
Proof.
  intros Hv. assert (v = 0 ∨ v = 1 ∨ v = 2 ∨ v = 3 ∨ v = 4 ∨ v = 5 ∨ v = 6 ∨ v = 7 ∨ v = 8 ∨ v = 9 ∨ v = 10 ∨ v = 11 ∨ v = 12) as Hc
    by lia.
  by repeat (destruct Hc as [->|Hc]); try subst v.
Qed.

Ltac imm_simpl :=
  match goal with H1 : 0 ≤ ?v, H2 : ?v ≤ 12 |- _ =>
    destruct (imm_encoding v (conj H1 H2)) as (E1 & E2 & E3 & E4 & E5 & E6 & E7 & E8); rewrite ?E1, ?E2, ?E3, ?E4, ?E5, ?E6, ?E7, ?E8
  end.

Lemma int_encoding_range v : 192 ≤ int_encoding v < 255 ∧ ZIP_IS_STR (int_encoding v) = false.
Proof. int_cases v; [imm_simpl; unfold ZIP_INT_IMM_MIN; split; [lia|done]|..]; by vm_compute. Qed.

Lemma zipIntSize_eq v : zipIntSize (int_encoding v) = Some (zlen (int_data v)).
Proof.
  unfold zipIntSize. int_cases v; [|by vm_compute; rewrite ?le_encode_length..]. imm_simpl. by unfold is_imm in E6; rewrite E6.
Qed.

Lemma le_encode_S n z : le_encode (S n) z = z mod 256 :: le_encode n (z / 256).
Proof. done. Qed.

Lemma le_encode_1 v : le_encode 1 v = [u8 v].
Proof. done. Qed.

Lemma shift_data v : drop 1 (le_encode 4 (Z.shiftl v 8)) = le_encode 3 v.
Proof. rewrite le_encode_S. cbn [drop]. rewrite Z.shiftl_mul_pow2 by lia. by rewrite Z.div_mul. Qed.

Lemma zipSaveInteger_eq a g b v p :
  p = zlen a → length g = length (int_data v) → zipSaveInteger (a ++ g ++ b) p v (int_encoding v) = Some (a ++ int_data v ++ b).
Proof.
  intros -> Hg. unfold zipSaveInteger. rewrite shift_data. revert Hg.
  int_cases v; [imm_simpl|..]; rewrite ?le_encode_length.
  - intros Hg%nil_length_inv. by subst.
  - intros Hg. change (le_encode 1 v) with [u8 v] in *. destruct g as [|c [|]]; try done. by apply poke_app.
  - intros Hg. apply blit_app; [done|]. by rewrite Hg.
  - intros Hg. apply blit_app; [done|]. by rewrite Hg.
  - intros Hg. apply blit_app; [done|]. by rewrite Hg.
  - intros Hg. apply blit_app; [done|]. by rewrite Hg.
Qed.

Lemma wrap_s_le n v : (0 < n)%nat → in_s (8 * Z.of_nat n) v → wrap_s (8 * Z.of_nat n) (le_decode (le_encode n v)) = v.
Proof.
  intros Hn Hv. rewrite le_decode_encode. fold (wrap_u (8 * Z.of_nat n) v). rewrite wrap_s_wrap_u by lia. apply wrap_s_small; [lia|done].
Qed.

Lemma load_24 v : in_s 24 v → Z.shiftr (wrap_s 32 (le_decode (0 :: le_encode 3 v))) 8 = v.
Proof.
  intros Hv. assert (0 :: le_encode 3 v = le_encode 4 (Z.shiftl v 8)) as ->.
  { rewrite <-shift_data, (le_encode_S 3). cbn [drop]. f_equal. rewrite Z.shiftl_mul_pow2 by lia. by rewrite Z.mod_mul. }
  assert (wrap_s 32 (le_decode (le_encode 4 (Z.shiftl v 8))) = Z.shiftl v 8) as ->.
  { apply (wrap_s_le 4); [lia|]. unfold in_s in *. rewrite Z.shiftl_mul_pow2 by lia. lia. }
  by rewrite Z.shiftr_shiftl_l, Z.shiftl_0_r by lia.
Qed.

Lemma zipLoadInteger_eq a b v p :
  p = zlen a → in_s 64 v → zipLoadInteger (a ++ int_data v ++ b) p (int_encoding v) = Some v.
Proof.
  intros -> Hv. unfold zipLoadInteger. assert (∀ n k, k = Z.of_nat n → slice (a ++ le_encode n v ++ b) (zlen a) k = Some (le_encode n v)) as Hs.
  { intros n k ->. apply slice_app; [done|]. by rewrite le_encode_length. }
  int_cases v; [by imm_simpl|..].
  - change (wrap_s 8 <$> peek (a ++ u8 v :: b) (zlen a) = Some v). rewrite (peek_app a) by done. cbn [fmap option_fmap option_map].
    f_equal. rewrite wrap_s_wrap_u by lia. apply wrap_s_small; [lia|]. unfold in_s. lia.
  - change ((λ l, wrap_s 16 (le_decode l)) <$> slice (a ++ le_encode 2 v ++ b) (zlen a) 2 = Some v). rewrite (Hs 2%nat) by done. cbn [fmap option_fmap option_map].
    f_equal. apply (wrap_s_le 2); [lia|]. unfold in_s. lia.
  - change ((λ l, Z.shiftr (wrap_s 32 (le_decode (0 :: l))) 8) <$> slice (a ++ le_encode 3 v ++ b) (zlen a) 3 = Some v).
    rewrite (Hs 3%nat) by done. cbn [fmap option_fmap option_map]. f_equal. apply load_24. unfold in_s, INT24_MIN, INT24_MAX in *. lia.
  - change ((λ l, wrap_s 32 (le_decode l)) <$> slice (a ++ le_encode 4 v ++ b) (zlen a) 4 = Some v). rewrite (Hs 4%nat) by done. cbn [fmap option_fmap option_map].
    f_equal. apply (wrap_s_le 4); [lia|]. unfold in_s. lia.
  - change ((λ l, wrap_s 64 (le_decode l)) <$> slice (a ++ le_encode 8 v ++ b) (zlen a) 8 = Some v). rewrite (Hs 8%nat) by done. cbn [fmap option_fmap option_map].
    f_equal. by apply (wrap_s_le 8); [lia|].
Qed.

(** ** The encoding of strings *)

Abbreviation str_header n := (entry_encoding 0 n).

Lemma str_header_6 n :
  0 ≤ n ≤ 63 → ∃ c, str_header n = [c] ∧ 0 ≤ c < 192 ∧ Z.land c 192 = ZIP_STR_06B ∧ Z.land c 63 = n.
Proof.
  intros Hn. exists n. unfold entry_encoding. cbn [ZIP_IS_STR Z.land Z.ltb Z.compare]. rewrite (proj2 (Z.leb_le _ _)) by lia.
  pose proof (check_range (λ c, (Z.land c 192 =? 0) && (Z.land c 63 =? c) && (u8 (Z.lor ZIP_STR_06B c) =? c)) 64 ltac:(by vm_compute) n ltac:(lia)) as Hc.
  apply andb_true_iff in Hc as [[H1 H2]%andb_true_iff H3]. apply Z.eqb_eq in H1, H2, H3. rewrite H3. split_and!; (done || lia).
Qed.

Lemma str_header_14 n :
  63 < n ≤ 16383 → ∃ c d, str_header n = [c; d] ∧ 0 ≤ c < 192 ∧ Z.land c 192 = ZIP_STR_14B ∧ Z.lor (Z.shiftl (Z.land c 63) 8) d = n.
Proof.
  intros Hn. unfold entry_encoding. cbn [ZIP_IS_STR Z.land Z.ltb Z.compare].
  rewrite (proj2 (Z.leb_gt _ _)), (proj2 (Z.leb_le n 16383)) by lia. eexists _, _. split; [done|].
  assert (∀ k, 0 ≤ k < 64 → 0 ≤ Z.lor ZIP_STR_14B k < 192 ∧ Z.land (Z.lor ZIP_STR_14B k) 192 = ZIP_STR_14B ∧ Z.land (Z.lor ZIP_STR_14B k) 63 = k) as H.
  { intros k Hk. pose proof (check_range (λ k, let c := Z.lor ZIP_STR_14B k in (0 <=? c) && (c <? 192) && (Z.land c 192 =? ZIP_STR_14B) && (Z.land c 63 =? k)) 64
      ltac:(by vm_compute) k ltac:(lia)) as Hc. cbv zeta in Hc. rewrite !andb_true_iff in Hc.
    destruct Hc as (((H1%Z.leb_le & H2%Z.ltb_lt) & H3%Z.eqb_eq) & H4%Z.eqb_eq). done. }
  pose proof (Z.div_mod n 256 ltac:(lia)) as Hdm. pose proof (Z.mod_pos_bound n 256 ltac:(lia)) as Hmod.
  assert (Z.land (Z.shiftr n 8) 63 = n / 256) as ->.
  { change 63 with (Z.ones 6). rewrite Z.land_ones, Z.shiftr_div_pow2 by lia. apply Z.mod_small. change (2 ^ 8) with 256. change (2 ^ 6) with 64. lia. }
  destruct (H (n / 256)) as (H1 & H2 & ->); [lia|]. split; [done|]. split; [done|].
  change 255 with (Z.ones 8). rewrite Z.land_ones by lia. change (2 ^ 8) with 256. rewrite Z.lor_comm, lor_shift by lia. lia.
Qed.

Lemma bytes_of_32 n :
  in_u 32 n →
  Z.lor (Z.lor (Z.lor (Z.shiftl (Z.land (Z.shiftr n 24) 255) 24) (Z.shiftl (Z.land (Z.shiftr n 16) 255) 16))
    (Z.shiftl (Z.land (Z.shiftr n 8) 255) 8)) (Z.land n 255) = n.
Proof.
  intros Hn. change 255 with (Z.ones 8). apply Z.bits_inj'. intros i Hi.
  rewrite !Z.lor_spec, !Z.shiftl_spec, !Z.land_spec, !Z.testbit_ones by lia.
  destruct (Z.testbit n i) eqn:Eb.
  - assert (i < 32) by (destruct (Z_lt_le_dec i 32); [done|]; rewrite (in_u_high 32 n i) in Eb by done; done).
    assert (i < 8 ∨ 8 ≤ i < 16 ∨ 16 ≤ i < 24 ∨ 24 ≤ i < 32) as [|[|[|]]] by lia.
    + replace (0 <=? i) with true by lia. replace (i <? 8) with true by lia. by rewrite !orb_true_r.
    + rewrite (Z.shiftr_spec n 8) by lia. rewrite (Z.sub_add 8 i), Eb. replace (0 <=? i - 8) with true by lia. replace (i - 8 <? 8) with true by lia.
      by rewrite !orb_true_r.
    + rewrite (Z.shiftr_spec n 16) by lia. rewrite (Z.sub_add 16 i), Eb. replace (0 <=? i - 16) with true by lia. replace (i - 16 <? 8) with true by lia.
      by rewrite !orb_true_r.
    + rewrite (Z.shiftr_spec n 24) by lia. rewrite (Z.sub_add 24 i), Eb. replace (0 <=? i - 24) with true by lia. by replace (i - 24 <? 8) with true by lia.
  - assert (∀ k, 0 ≤ k → (Z.testbit (Z.shiftr n k) (i - k) && ((0 <=? i - k) && (i - k <? 8))) = false) as Hk.
    { intros k Hk. destruct (Z.leb_spec 0 (i - k)); [|by rewrite andb_false_r]. rewrite Z.shiftr_spec, Z.sub_add, Eb by lia. done. }
    by rewrite !Hk by lia.
Qed.

Lemma str_header_32 n :
  16383 < n → in_u 32 n → ∃ d1 d2 d3 d4, str_header n = [ZIP_STR_32B; d1; d2; d3; d4] ∧
    Z.lor (Z.lor (Z.lor (Z.shiftl d1 24) (Z.shiftl d2 16)) (Z.shiftl d3 8)) d4 = n.
Proof.
  intros Hn Hu. unfold entry_encoding. cbn [ZIP_IS_STR Z.land Z.ltb Z.compare].
  rewrite (proj2 (Z.leb_gt _ _)), (proj2 (Z.leb_gt n 16383)) by lia. eexists _, _, _, _. split; [done|]. by apply bytes_of_32.
Qed.

(** ** Entries *)

Definition payload (s : list Z) : list Z :=
  match try_int s with Some v => int_encoding v :: int_data v | None => str_header (zlen s) ++ s end.

(** What [ZIP_DECODE_LENGTH] gives. *)
Definition hsize (s : list Z) : Z := match try_int s with Some _ => 1 | None => zlen (str_header (zlen s)) end.
Definition dsize (s : list Z) : Z := match try_int s with Some v => zlen (int_data v) | None => zlen s end.
Definition encoding_of (s : list Z) : Z :=
  match try_int s with Some v => int_encoding v | None => Z.land (default 0 (head (str_header (zlen s)))) ZIP_STR_MASK end.

Lemma str_header_length n : 1 ≤ zlen (str_header n) ≤ 5.
Proof.
  unfold entry_encoding. change (ZIP_IS_STR 0) with true. cbv iota. destruct (n <=? 63), (n <=? 16383); cbn [length]; lia.
Qed.

Lemma int_data_length v : 0 ≤ zlen (int_data v) ≤ 8.
Proof. int_cases v; [imm_simpl; simpl; lia|by vm_compute..]. Qed.

Lemma payload_length s : zlen (payload s) = hsize s + dsize s ∧ 1 ≤ hsize s ≤ 5 ∧ 0 ≤ dsize s ∧ zlen (payload s) ≤ 9 + zlen s.
Proof.
  unfold payload, hsize, dsize. destruct (try_int s) as [v|]; [pose proof (int_data_length v)|pose proof (str_header_length (zlen s))];
    rewrite ?length_app; cbn [length]; lia.
Qed.

Lemma is_str_encoding s : zlen s < 2 ^ 32 → ZIP_IS_STR (encoding_of s) = match try_int s with Some _ => false | None => true end.
Proof.
  intros Hs. unfold encoding_of. destruct (try_int s) as [v|]; [apply int_encoding_range|].
  destruct (Z_le_gt_dec (zlen s) 63).
  - destruct (str_header_6 (zlen s)) as (c & -> & _ & H & _); [lia|]. cbn [head from_option id]. unfold ZIP_STR_MASK. by rewrite H.
  - destruct (Z_le_gt_dec (zlen s) 16383).
    + destruct (str_header_14 (zlen s)) as (c & d & -> & _ & H & _); [lia|]. cbn [head from_option id]. unfold ZIP_STR_MASK. by rewrite H.
    + destruct (str_header_32 (zlen s)) as (d1 & d2 & d3 & d4 & -> & _); [lia|unfold in_u; lia|]. done.
Qed.

(** The bytes at the end of a prefix. *)
Lemma peek_at (X l : list Z) p i c : p = zlen X + i → 0 ≤ i → l !! Z.to_nat i = Some c → peek (X ++ l) p = Some c.
Proof.
  intros -> Hi Hc. unfold peek. rewrite decide_True by lia. rewrite lookup_app_r by lia.
  by replace (Z.to_nat (zlen X + i) - length X)%nat with (Z.to_nat i) by lia.
Qed.

Lemma peek_end (X Y : list Z) c p : p = zlen X → peek (X ++ c :: Y) p = Some c.
Proof. apply peek_app. Qed.

Lemma decode_length X s Y p :
  p = zlen X → zlen s < 2 ^ 32 → ZIP_DECODE_LENGTH (X ++ payload s ++ Y) p = Some (encoding_of s, hsize s, dsize s).
Proof.
  intros Hp Hs. unfold ZIP_DECODE_LENGTH, ZIP_ENTRY_ENCODING, payload, hsize, dsize, encoding_of. destruct (try_int s) as [v|].
  - destruct (int_encoding_range v) as [Hr _]. rewrite (peek_at X _ p 0 (int_encoding v)) by (lia || done). cbn [mbind option_bind].
    unfold ZIP_STR_MASK. assert ((int_encoding v <? 192) = false) as E by lia. rewrite E, E. by rewrite zipIntSize_eq.
  - rewrite <-(assoc_L (++)). unfold ZIP_STR_MASK. destruct (Z_le_gt_dec (zlen s) 63).
    + destruct (str_header_6 (zlen s)) as (c & -> & Hc & H1 & H2); [lia|]. cbn [app head from_option id length].
      rewrite (peek_at X _ p 0 c) by (lia || done). cbn [mbind option_bind]. rewrite (proj2 (Z.ltb_lt c 192)) by lia. rewrite H1, H2. done.
    + destruct (Z_le_gt_dec (zlen s) 16383).
      * destruct (str_header_14 (zlen s)) as (c & d & -> & Hc & H1 & H2); [lia|]. cbn [app head from_option id length].
        rewrite (peek_at X _ p 0 c) by (lia || done). cbn [mbind option_bind]. rewrite (proj2 (Z.ltb_lt c 192)) by lia. rewrite H1.
        rewrite (peek_at X _ (p + 1) 1 d) by (lia || done). cbn [mbind option_bind]. rewrite H2. done.
      * destruct (str_header_32 (zlen s)) as (d1 & d2 & d3 & d4 & -> & H1); [lia|unfold in_u; lia|]. cbn [app head from_option id length].
        rewrite (peek_at X _ p 0 ZIP_STR_32B), (peek_at X _ (p + 1) 1 d1), (peek_at X _ (p + 2) 2 d2), (peek_at X _ (p + 3) 3 d3),
          (peek_at X _ (p + 4) 4 d4) by (lia || done). cbn [mbind option_bind]. rewrite H1. done.
Qed.

(** ** The length of the previous entry *)

Definition prev_bytes (large : bool) (n : Z) : list Z := if large then ZIP_BIG_PREVLEN :: le_encode 4 n else [n].
Definition psize (large : bool) : Z := if large then 5 else 1.
Definition big (n : Z) : bool := ZIP_BIG_PREVLEN <=? n.

(** The field is large enough. *)
Definition prev_ok (large : bool) (n : Z) : Prop := in_u 32 n ∧ (large = false → n < ZIP_BIG_PREVLEN).

Lemma prev_bytes_length b n : zlen (prev_bytes b n) = psize b.
Proof. by destruct b. Qed.

Lemma prev_entry_size_eq n : prev_entry_size n = psize (big n).
Proof. unfold prev_entry_size, big. destruct (Z.ltb_spec n ZIP_BIG_PREVLEN), (Z.leb_spec ZIP_BIG_PREVLEN n); (done || lia). Qed.

Lemma big_ok n : in_u 32 n → prev_ok (big n) n.
Proof. intros Hn. split; [done|]. unfold big. by intros ?%Z.leb_gt. Qed.

Lemma prev_first b n X Y p :
  p = zlen X → prev_ok b n → ∃ c, peek (X ++ prev_bytes b n ++ Y) p = Some c ∧ c ≠ ZIP_END ∧ (c <? ZIP_BIG_PREVLEN) = negb b.
Proof.
  intros -> [Hu Hb]. unfold ZIP_END, ZIP_BIG_PREVLEN in *. destruct b; cbn [prev_bytes app].
  - exists 254. rewrite peek_app by done. done.
  - exists n. specialize (Hb eq_refl). rewrite peek_app by done. split; [done|]. split; [lia|]. by apply Z.ltb_lt.
Qed.

Lemma decode_prevlensize X b n Y p :
  p = zlen X → prev_ok b n → ZIP_DECODE_PREVLENSIZE (X ++ prev_bytes b n ++ Y) p = Some (psize b).
Proof.
  intros Hp Hn. unfold ZIP_DECODE_PREVLENSIZE. destruct (prev_first b n X Y p Hp Hn) as (c & -> & _ & Hc). cbn [mbind option_bind].
  rewrite Hc. by destruct b.
Qed.

Lemma decode_prevlen X b n Y p :
  p = zlen X → prev_ok b n → ZIP_DECODE_PREVLEN (X ++ prev_bytes b n ++ Y) p = Some (psize b, n).
Proof.
  intros Hp Hn. unfold ZIP_DECODE_PREVLEN. rewrite (decode_prevlensize X b n Y p Hp Hn). cbn [mbind option_bind]. destruct Hn as [Hu Hb]. destruct b; cbn [psize Z.eqb Pos.eqb prev_bytes app].
  - rewrite (cons_middle _ X), (assoc_L (++) X). rewrite slice_app; [|rewrite length_app; simpl; lia|by rewrite le_encode_length].
    cbn [mbind option_bind]. rewrite le_decode_encode. change (8 * Z.of_nat 4) with 32. by rewrite Z.mod_small.
  - by rewrite peek_app.
Qed.

Definition esize (b : bool) (s : list Z) : Z := psize b + zlen (payload s).

Lemma esize_bounds b s : 2 ≤ esize b s ≤ 14 + zlen s.
Proof. unfold esize. pose proof (payload_length s). destruct b; cbn [psize]; lia. Qed.

Lemma zipEntry_eq X b n s Y p :
  p = zlen X → prev_ok b n → zlen s < 2 ^ 32 →
  zipEntry (X ++ prev_bytes b n ++ payload s ++ Y) p =
    Some (ZlEntry (psize b) n (hsize s) (dsize s) (psize b + hsize s) (encoding_of s) p).
Proof.
  intros Hp Hn Hs. unfold zipEntry. rewrite decode_prevlen by done. cbn [mbind option_bind].
  rewrite (assoc_L (++) X). rewrite decode_length; [|rewrite length_app; pose proof (prev_bytes_length b n); lia|done]. cbn [mbind option_bind].
  rewrite wrap_u_small; [done|]. pose proof (payload_length s). unfold in_u. destruct b; cbn [psize]; lia.
Qed.

Lemma zipRawEntryLength_eq X b n s Y p :
  p = zlen X → prev_ok b n → in_u 32 (esize b s) → zlen s < 2 ^ 32 →
  zipRawEntryLength (X ++ prev_bytes b n ++ payload s ++ Y) p = Some (esize b s).
Proof.
  intros Hp Hn He Hs. unfold zipRawEntryLength. rewrite decode_prevlensize by done. cbn [mbind option_bind].
  rewrite (assoc_L (++) X). rewrite decode_length; [|rewrite length_app; pose proof (prev_bytes_length b n); lia|done]. cbn [mbind option_bind].
  replace (psize b + hsize s + dsize s) with (esize b s) by (unfold esize; pose proof (payload_length s); lia). by rewrite wrap_u_small.
Qed.

Lemma store_large X g Y p n :
  p = zlen X → length g = 5%nat → zipStorePrevEntryLengthLarge (X ++ g ++ Y) p n = Some (X ++ prev_bytes true n ++ Y).
Proof.
  intros Hp Hg. unfold zipStorePrevEntryLengthLarge. destruct g as [|c g]; [done|]. cbn [app]. rewrite poke_app by done. cbn [mbind option_bind].
  rewrite (cons_middle _ X), (assoc_L (++) X). rewrite blit_app.
  - by rewrite <-(assoc_L (++)).
  - rewrite length_app. simpl. lia.
  - rewrite le_encode_length. simpl in Hg. lia.
Qed.

Lemma store_prev X g Y p n :
  p = zlen X → 0 ≤ n → zlen g = psize (big n) →
  zipStorePrevEntryLength (X ++ g ++ Y) p n = Some (X ++ prev_bytes (big n) n ++ Y, psize (big n)).
Proof.
  intros Hp Hn Hg. unfold zipStorePrevEntryLength. unfold big in *. destruct (Z.leb_spec ZIP_BIG_PREVLEN n) as [Hb|Hb].
  - rewrite (proj2 (Z.ltb_ge _ _)) by done. rewrite store_large; [done|done|]. cbn [psize] in Hg. lia.
  - rewrite (proj2 (Z.ltb_lt _ _)) by done. cbn [psize] in Hg. destruct g as [|c [|]]; simpl in Hg; [lia| |lia]. cbn [app]. rewrite poke_app by done.
    cbn [mbind option_bind]. rewrite wrap_u_small; [done|]. unfold in_u, ZIP_BIG_PREVLEN in *. lia.
Qed.
