(* ===== verification/ZiplistList.v ===== *)
(** The block of a ziplist as a list of entries, and what the operations that change a
    ziplist do to that list: the cascade of updates, deletion, insertion and merging. *)

From stdpp Require Import list numbers.
From S2P Require Import Prelude Util Ziplist ZiplistEntry.

(** An entry: whether its length of the previous entry takes five bytes, and the string. *)
Abbreviation zent := (bool * list Z)%type.

Implicit Types es : list zent.

Fixpoint body (prev : Z) es : list Z :=
  match es with
  | [] => []
  | (b, s) :: es => prev_bytes b prev ++ payload s ++ body (esize b s) es
  end.

(** Every field is large enough for the length it holds. *)
Fixpoint fits (prev : Z) es : Prop :=
  match es with
  | [] => True
  | (b, s) :: es => prev_ok b prev ∧ zlen s < 2 ^ 32 ∧ fits (esize b s) es
  end.

Definition bsize es : Z := foldr (λ e a, esize e.1 e.2 + a) 0 es.

(** The size of the last entry, and the offset of the last entry. *)
Definition last_size (prev : Z) es : Z := foldl (λ _ e, esize e.1 e.2) prev es.

Fixpoint tail_rel es : Z :=
  match es with
  | (b, s) :: ((_ :: _) as es') => esize b s + tail_rel es'
  | _ => 0
  end.

Lemma bsize_cons b s es : bsize ((b, s) :: es) = esize b s + bsize es.
Proof. done. Qed.

Lemma body_length prev es : zlen (body prev es) = bsize es.
Proof.
  revert prev. induction es as [|[b s] es IH]; intros prev; [done|]. cbn [body]. rewrite !length_app, bsize_cons.
  specialize (IH (esize b s)). pose proof (prev_bytes_length b prev). unfold esize in *. lia.
Qed.

Lemma bsize_bounds es : 2 * zlen es ≤ bsize es.
Proof. induction es as [|[b s] es IH]; [done|]. rewrite bsize_cons. cbn [length]. pose proof (esize_bounds b s). lia. Qed.

Lemma bsize_app es1 es2 : bsize (es1 ++ es2) = bsize es1 + bsize es2.
Proof. induction es1 as [|[b s] es1 IH]; [done|]. cbn [app]. rewrite !bsize_cons. lia. Qed.

Lemma body_app prev es1 es2 : body prev (es1 ++ es2) = body prev es1 ++ body (last_size prev es1) es2.
Proof.
  revert prev. induction es1 as [|[b s] es1 IH]; intros prev; [done|]. cbn [app body last_size foldl fst snd]. by rewrite IH, <-!(assoc_L (++)).
Qed.

Lemma fits_app prev es1 es2 : fits prev (es1 ++ es2) ↔ fits prev es1 ∧ fits (last_size prev es1) es2.
Proof.
  revert prev. induction es1 as [|[b s] es1 IH]; intros prev; cbn [app fits last_size foldl fst snd]; [tauto|]. rewrite IH. unfold last_size. tauto.
Qed.

Lemma tail_rel_cons b s es : es ≠ [] → tail_rel ((b, s) :: es) = esize b s + tail_rel es.
Proof. by destruct es. Qed.

Lemma tail_rel_app es1 es2 : es2 ≠ [] → tail_rel (es1 ++ es2) = bsize es1 + tail_rel es2.
Proof.
  intros Hne. induction es1 as [|[b s] es1 IH]; [done|]. cbn [app]. rewrite tail_rel_cons by (by destruct es1). rewrite IH, bsize_cons. lia.
Qed.

Lemma tail_rel_last es b s : tail_rel (es ++ [(b, s)]) = bsize es.
Proof. rewrite tail_rel_app by done. simpl. lia. Qed.

Lemma tail_rel_bound es : 0 ≤ tail_rel es ≤ bsize es.
Proof.
  destruct es as [|[b s] es _] using rev_ind; [done|]. rewrite tail_rel_last, bsize_app. pose proof (bsize_bounds es). pose proof (bsize_bounds [(b, s)]).
  cbn [length] in *. lia.
Qed.

(** ** The header *)

Definition header (L T n : Z) : list Z := le_encode 4 L ++ le_encode 4 T ++ le_encode 2 n.

Lemma header_length L T n : length (header L T n) = 10%nat.
Proof. done. Qed.

(** Equal up to the association of [++]. *)
Ltac app_solve := rewrite <-?(assoc_L (++)); cbn [app]; rewrite <-?(assoc_L (++)); reflexivity.

Lemma le_field n z w : w = 8 * Z.of_nat n → in_u w z → le_decode (le_encode n z) = z.
Proof. intros -> Hz. rewrite le_decode_encode. by apply Z.mod_small. Qed.

Lemma slice_front (b c : list Z) n : n = zlen b → slice (b ++ c) 0 n = Some b.
Proof. by apply (slice_app []). Qed.

Lemma blit_front (b b' c : list Z) : length b = length b' → blit (b ++ c) 0 b' = Some (b' ++ c).
Proof. by apply (blit_app []). Qed.

Lemma get_bytes L T n W : in_u 32 L → ZIPLIST_BYTES (header L T n ++ W) = Some L.
Proof.
  intros HL. unfold ZIPLIST_BYTES, header. rewrite <-(assoc_L (++)). rewrite slice_front by done. cbn [fmap option_fmap option_map].
  by rewrite (le_field 4 L 32).
Qed.

Lemma get_tail L T n W : in_u 32 T → ZIPLIST_TAIL_OFFSET (header L T n ++ W) = Some T.
Proof.
  intros HT. unfold ZIPLIST_TAIL_OFFSET, header. rewrite <-!(assoc_L (++)). rewrite slice_app by done. cbn [fmap option_fmap option_map].
  by rewrite (le_field 4 T 32).
Qed.

Lemma get_length L T n W : in_u 16 n → ZIPLIST_LENGTH (header L T n ++ W) = Some n.
Proof.
  intros Hn. unfold ZIPLIST_LENGTH, header. rewrite <-!(assoc_L (++)), (assoc_L (++) (le_encode 4 L)). rewrite slice_app by done. cbn [fmap option_fmap option_map].
  by rewrite (le_field 2 n 16).
Qed.

Lemma set_bytes_eq L T n W v : set_bytes (header L T n ++ W) v = Some (header v T n ++ W).
Proof. unfold set_bytes, header. rewrite <-(assoc_L (++)). rewrite blit_front by done. app_solve. Qed.

Lemma set_tail_eq L T n W v : set_tail_offset (header L T n ++ W) v = Some (header L v n ++ W).
Proof. unfold set_tail_offset, header. rewrite <-!(assoc_L (++)). by rewrite blit_app. Qed.

Lemma set_length_eq L T n W v : set_length (header L T n ++ W) v = Some (header L T v ++ W).
Proof.
  unfold set_length, header. rewrite <-!(assoc_L (++)), (assoc_L (++) (le_encode 4 L)). rewrite blit_app by done. app_solve.
Qed.

Section Ops.

Context (junk : nat → Z).

Lemma realloc_prefix (a y : list Z) n : zlen a ≤ n → ∃ r, realloc junk (a ++ y) n = a ++ r ∧ zlen r = n - zlen a.
Proof.
  intros Hn. assert (zlen (realloc junk (a ++ y) n) = n) as Hl by (apply realloc_length; lia). unfold realloc in *.
  rewrite take_app_ge in * by lia. rewrite <-(assoc_L (++)) in *. eexists. split; [done|]. rewrite length_app in Hl. lia.
Qed.

(** What is in front of the end is kept. *)
Lemma resize_eq L T n W Y L' :
  11 + zlen W ≤ L' → in_u 32 L' →
  ∃ E, ziplistResize junk (header L T n ++ W ++ Y) L' = Some (header L' T n ++ W ++ E ++ [ZIP_END]) ∧ zlen E = L' - 11 - zlen W.
Proof.
  intros HW HL. unfold ziplistResize. rewrite (wrap_u_small 32 L' HL). rewrite (assoc_L (++)).
  destruct (realloc_prefix (header L T n ++ W) Y L') as (r & -> & Hr); [rewrite length_app, header_length; lia|].
  rewrite length_app, header_length in Hr. destruct r as [|c E _] using rev_ind; [simpl in Hr; lia|]. rewrite length_app in Hr. simpl in Hr.
  exists E. split; [|lia]. rewrite <-(assoc_L (++)), set_bytes_eq. cbn [mbind option_bind].
  replace (header L' T n ++ W ++ E ++ [c]) with ((header L' T n ++ W ++ E) ++ [c]) by app_solve.
  rewrite poke_app; [app_solve|]. rewrite !length_app, header_length. lia.
Qed.

(** ** The cascade *)

Lemma zipEntry_at zl X b n s Y p :
  zl = X ++ prev_bytes b n ++ payload s ++ Y → p = zlen X → prev_ok b n → zlen s < 2 ^ 32 →
  zipEntry zl p = Some (ZlEntry (psize b) n (hsize s) (dsize s) (psize b + hsize s) (encoding_of s) p).
Proof. intros ->. apply zipEntry_eq. Qed.

Lemma entry_first zl X b n Y p :
  zl = X ++ prev_bytes b n ++ Y → p = zlen X → prev_ok b n → ∃ c, peek zl p = Some c ∧ (c =? ZIP_END) = false.
Proof. intros -> Hp Hn. destruct (prev_first b n X Y p Hp Hn) as (c & Hc & Hne & _). exists c. split; [done|]. by apply Z.eqb_neq. Qed.

Lemma end_first zl X p : zl = X ++ [ZIP_END] → p = zlen X → peek zl p = Some ZIP_END.
Proof. intros -> ->. by apply peek_app. Qed.

Lemma rawlen_eq b s : psize b + hsize s + dsize s = esize b s.
Proof. unfold esize. pose proof (payload_length s). lia. Qed.

Lemma snd_eq_length es es' : es'.*2 = es.*2 → length es' = length es.
Proof. intros H. by rewrite <-(length_fmap snd es'), H, length_fmap. Qed.

(** The entry that grows: its field goes from one to five bytes and the rest is moved. *)
Lemma grow_spec X b pv s q s2 t T n L np r :
  r = esize b s → in_u 32 r → big r = true →
  L = 11 + zlen X + esize b s + bsize ((false, s2) :: t) → L + 4 < 2 ^ 32 →
  T = 10 + zlen X + esize b s + tail_rel ((false, s2) :: t) → np = 10 + zlen X + r →
  (zl ← ziplistResize junk (header L T n ++ X ++ prev_bytes b pv ++ payload s ++ body q ((false, s2) :: t) ++ [ZIP_END]) (L + 4);
   t ← ZIPLIST_TAIL_OFFSET zl;
   zl ← (if negb (t =? np) then set_tail_offset zl (t + 4) else Some zl);
   zl ← memmove zl (np + 5) (np + 1) (L - np - 1 - 1);
   zipStorePrevEntryLength zl np r) =
  Some (header (L + 4) (10 + zlen X + esize b s + tail_rel ((true, s2) :: t)) n ++
    (X ++ prev_bytes b pv ++ payload s) ++ prev_bytes true r ++ payload s2 ++ body (esize false s2) t ++ [ZIP_END], 5).
Proof.
  intros Hr Hu Hbig HL Hb HT Hnp. pose proof (prev_bytes_length b pv) as Hpl. rewrite bsize_cons in HL.
  assert (zlen (prev_bytes b pv) + zlen (payload s) = r) as Hel by (unfold esize in Hr; lia).
  pose proof (body_length (esize false s2) t) as Hbl.
  assert (esize false s2 = 1 + zlen (payload s2)) as He1 by done. assert (esize true s2 = 5 + zlen (payload s2)) as He2 by done.
  pose proof (tail_rel_bound ((false, s2) :: t)) as Htb. rewrite bsize_cons in Htb.
  cbn [body prev_bytes].
  replace (X ++ prev_bytes b pv ++ payload s ++ ([q] ++ payload s2 ++ body (esize false s2) t) ++ [ZIP_END])
    with ((X ++ prev_bytes b pv ++ payload s ++ [q] ++ payload s2 ++ body (esize false s2) t) ++ [ZIP_END]) by app_solve.
  destruct (resize_eq L T n (X ++ prev_bytes b pv ++ payload s ++ [q] ++ payload s2 ++ body (esize false s2) t) [ZIP_END] (L + 4)) as (E & -> & HE).
  { rewrite !length_app. cbn [length]. lia. }
  { unfold in_u. lia. }
  rewrite !length_app in HE. cbn [length] in HE. cbn [mbind option_bind]. rewrite get_tail by (unfold in_u; lia). cbn [mbind option_bind].
  set (W := (X ++ prev_bytes b pv ++ payload s ++ [q] ++ payload s2 ++ body (esize false s2) t) ++ E ++ [ZIP_END]).
  assert ((if negb (T =? np) then set_tail_offset (header (L + 4) T n ++ W) (T + 4) else Some (header (L + 4) T n ++ W)) =
    Some (header (L + 4) (10 + zlen X + esize b s + tail_rel ((true, s2) :: t)) n ++ W)) as ->.
  { destruct t as [|e t].
    - cbn [tail_rel] in *. rewrite (proj2 (Z.eqb_eq T np)) by lia. cbn [negb]. by rewrite HT.
    - rewrite !tail_rel_cons in * by done. pose proof (esize_bounds false s2). pose proof (tail_rel_bound (e :: t)).
      rewrite (proj2 (Z.eqb_neq T np)) by lia. cbn [negb]. rewrite set_tail_eq.
      by replace (T + 4) with (10 + zlen X + esize b s + (esize true s2 + tail_rel (e :: t))) by lia. }
  cbn [mbind option_bind]. set (H := header (L + 4) _ n).
  replace (H ++ W) with ((H ++ X ++ prev_bytes b pv ++ payload s ++ [q]) ++ (payload s2 ++ body (esize false s2) t) ++ E ++ [ZIP_END]) by (unfold W; app_solve).
  rewrite memmove_gap.
  2: { rewrite !length_app. unfold H. rewrite header_length. cbn [length]. lia. }
  2: { rewrite !length_app. unfold H. rewrite header_length. cbn [length]. lia. }
  2: { rewrite !length_app. lia. }
  cbn [mbind option_bind]. set (G := take _ _). assert (length G = 4%nat) as HG by (unfold G; rewrite length_take, length_app; lia).
  replace ((H ++ X ++ prev_bytes b pv ++ payload s ++ [q]) ++ G ++ (payload s2 ++ body (esize false s2) t) ++ [ZIP_END])
    with ((H ++ X ++ prev_bytes b pv ++ payload s) ++ (q :: G) ++ (payload s2 ++ body (esize false s2) t) ++ [ZIP_END]) by app_solve.
  rewrite store_prev.
  - rewrite Hbig. cbn [psize]. f_equal. f_equal. app_solve.
  - rewrite !length_app. unfold H. rewrite header_length. lia.
  - unfold in_u in Hu. lia.
  - rewrite Hbig. cbn [length psize]. lia.
Qed.

Lemma cascade_spec fuel : ∀ es X b pv s q T n L p,
  (length es < fuel)%nat → prev_ok b pv → zlen s < 2 ^ 32 → fits q es →
  L = 11 + zlen X + esize b s + bsize es → L + 4 * zlen es < 2 ^ 32 →
  T = 10 + zlen X + tail_rel ((b, s) :: es) → p = 10 + zlen X →
  ∃ es', cascade_loop junk fuel (header L T n ++ X ++ prev_bytes b pv ++ payload s ++ body q es ++ [ZIP_END]) p L =
      Some (header (11 + zlen X + esize b s + bsize es') (10 + zlen X + tail_rel ((b, s) :: es')) n ++
        X ++ prev_bytes b pv ++ payload s ++ body (esize b s) es' ++ [ZIP_END]) ∧
    es'.*2 = es.*2 ∧ fits (esize b s) es' ∧ bsize es' ≤ bsize es + 4 * zlen es.
Proof.
  induction fuel as [|fuel IH]; intros es X b pv s q T n L p Hf Hpv Hs Hfit HL Hb HT Hp; [lia|].
  pose proof (esize_bounds b s) as Hes. pose proof (prev_bytes_length b pv) as Hpl.
  assert (zlen (prev_bytes b pv) + zlen (payload s) = esize b s) as Hel by (unfold esize; lia).
  cbn [cascade_loop]. set (zl := header L T n ++ _).
  destruct (entry_first zl (header L T n ++ X) b pv (payload s ++ body q es ++ [ZIP_END]) p) as (c & -> & Hc);
    [unfold zl; app_solve|rewrite length_app, header_length; lia|done|].
  cbn [mbind option_bind]. rewrite Hc.
  rewrite (zipEntry_at zl (header L T n ++ X) b pv s (body q es ++ [ZIP_END]) p);
    [|unfold zl; app_solve|rewrite length_app, header_length; lia|done|done].
  cbn [mbind option_bind headersize elen]. rewrite rawlen_eq. destruct es as [|[b2 s2] t].
  { cbn [bsize foldr length] in *. rewrite wrap_u_small by (unfold in_u; lia).
    rewrite (end_first zl (header L T n ++ X ++ prev_bytes b pv ++ payload s)); [|unfold zl; app_solve|rewrite !length_app, header_length; lia].
    cbn [mbind option_bind]. rewrite Z.eqb_refl. exists []. split; [|done]. unfold zl. rewrite HL, HT. done. }
  rewrite bsize_cons in HL. pose proof (esize_bounds b2 s2) as Hes2. pose proof (bsize_bounds t) as Hbt. cbn [length] in Hb, Hf.
  cbn [fits] in Hfit. destruct Hfit as (Hq & Hs2 & Hfit).
  rewrite wrap_u_small by (unfold in_u; lia).
  destruct (entry_first zl (header L T n ++ X ++ prev_bytes b pv ++ payload s) b2 q (payload s2 ++ body (esize b2 s2) t ++ [ZIP_END]) (p + esize b s))
    as (c2 & -> & Hc2); [unfold zl; cbn [body]; app_solve|rewrite !length_app, header_length; lia|done|].
  cbn [mbind option_bind]. rewrite Hc2.
  rewrite (zipEntry_at zl (header L T n ++ X ++ prev_bytes b pv ++ payload s) b2 q s2 (body (esize b2 s2) t ++ [ZIP_END]) (p + esize b s));
    [|unfold zl; cbn [body]; app_solve|rewrite !length_app, header_length; lia|done|done].
  cbn [mbind option_bind prevrawlen prevrawlensize].
  assert (∀ z, esize b s = z → fits (esize b s) ((b2, s2) :: t) → Some (header L T n ++ X ++ prev_bytes b pv ++ payload s ++ (prev_bytes b2 z ++ payload s2 ++ body (esize b2 s2) t) ++ [ZIP_END]) =
    Some (header (11 + zlen X + esize b s + bsize ((b2, s2) :: t)) (10 + zlen X + tail_rel ((b, s) :: (b2, s2) :: t)) n ++
      X ++ prev_bytes b pv ++ payload s ++ body (esize b s) ((b2, s2) :: t) ++ [ZIP_END]) ∧ ((b2, s2) :: t).*2 = ((b2, s2) :: t).*2 ∧
    fits (esize b s) ((b2, s2) :: t) ∧ bsize ((b2, s2) :: t) ≤ bsize ((b2, s2) :: t) + 4 * zlen ((b2, s2) :: t)) as Hsame.
  { intros z <- Hft. rewrite bsize_cons. split; [by rewrite HL, HT|]. split; [done|]. split; [done|lia]. }
  destruct (Z.eqb_spec q (esize b s)) as [Heq|Hneq].
  { exists ((b2, s2) :: t). unfold zl. cbn [body]. apply Hsame; [done|]. rewrite <-Heq. done. }
  rewrite prev_entry_size_eq. assert (in_u 32 (esize b s)) as Hu by (unfold in_u; lia).
  destruct (big_ok (esize b s) Hu) as [_ Hbig].
  destruct (Z.ltb_spec (psize b2) (psize (big (esize b s)))) as [Hlt|Hge].
  - (* the next entry grows *)
    assert (b2 = false ∧ big (esize b s) = true) as [-> Hbg] by (destruct b2, (big (esize b s)); cbn in Hlt; (done || lia)).
    rewrite Hbg. cbn [psize]. change (5 - 1) with 4.
    assert (tail_rel ((b, s) :: (false, s2) :: t) = esize b s + tail_rel ((false, s2) :: t)) as Htr by by apply tail_rel_cons. rewrite Htr in HT.
    pose proof (grow_spec X b pv s q s2 t T n L (p + esize b s) (esize b s) eq_refl Hu Hbg ltac:(rewrite bsize_cons; lia) ltac:(lia) ltac:(lia) ltac:(lia)) as Hg.
    fold zl in Hg. apply bind_Some in Hg as (zl1 & -> & Hg). cbn [mbind option_bind].
    apply bind_Some in Hg as (t1 & -> & Hg). cbn [mbind option_bind].
    apply bind_Some in Hg as (zl2 & -> & Hg). cbn [mbind option_bind].
    apply bind_Some in Hg as (zl3 & -> & Hg). cbn [mbind option_bind]. rewrite Hg. cbn [mbind option_bind].
    assert (esize false s2 + 4 = esize true s2) as He4 by (unfold esize; cbn [psize]; lia).
    replace (L + 4) with (11 + zlen (X ++ prev_bytes b pv ++ payload s) + esize true s2 + bsize t) by (rewrite !length_app; lia).
    destruct (IH t (X ++ prev_bytes b pv ++ payload s) true (esize b s) s2 (esize false s2)
      (10 + zlen X + esize b s + tail_rel ((true, s2) :: t)) n (11 + zlen (X ++ prev_bytes b pv ++ payload s) + esize true s2 + bsize t) (p + esize b s))
      as (es' & -> & Hsnd & Hfit' & Hbs'); [lia|done|done|done|done|rewrite !length_app; lia|rewrite !length_app; lia|rewrite !length_app; lia|].
    exists ((true, s2) :: es'). rewrite bsize_cons. rewrite !length_app. rewrite (tail_rel_cons b s) by done.
    replace (11 + Z.of_nat (length X + (length (prev_bytes b pv) + length (payload s))) + esize true s2 + bsize es')
      with (11 + zlen X + esize b s + (esize true s2 + bsize es')) by lia.
    replace (10 + Z.of_nat (length X + (length (prev_bytes b pv) + length (payload s))) + tail_rel ((true, s2) :: es'))
      with (10 + zlen X + (esize b s + tail_rel ((true, s2) :: es'))) by lia.
    split; [cbn [body]; f_equal; app_solve|]. split; [by cbn; rewrite Hsnd|]. split; [done|]. rewrite bsize_cons. cbn [length]. lia.
  - exists ((b2, s2) :: t). destruct (Z.ltb_spec (psize (big (esize b s))) (psize b2)) as [Hlt|Hle].
    + assert (b2 = true) as -> by (destruct b2, (big (esize b s)); cbn in Hlt; (done || lia)).
      replace zl with ((header L T n ++ X ++ prev_bytes b pv ++ payload s) ++ prev_bytes true q ++ payload s2 ++ body (esize true s2) t ++ [ZIP_END])
        by (unfold zl; cbn [body]; app_solve).
      rewrite store_large; [|rewrite !length_app, header_length; lia|done].
      destruct (Hsame (esize b s)) as [<- Hrest]; [done|done|]. split; [f_equal; app_solve|done].
    + assert (b2 = big (esize b s)) as Hb2 by (destruct b2, (big (esize b s)); cbn in Hge, Hle; (done || lia)).
      replace zl with ((header L T n ++ X ++ prev_bytes b pv ++ payload s) ++ prev_bytes b2 q ++ payload s2 ++ body (esize b2 s2) t ++ [ZIP_END])
        by (unfold zl; cbn [body]; app_solve).
      rewrite store_prev; [|rewrite !length_app, header_length; lia|lia|by rewrite prev_bytes_length, Hb2]. cbn [mbind option_bind].
      rewrite <-Hb2. destruct (Hsame (esize b s)) as [<- Hrest]; [done|split; [split; [done|by rewrite Hb2]|done]|]. split; [f_equal; app_solve|done].
Qed.

Lemma cascade_update es X b pv s q T n L p :
  prev_ok b pv → zlen s < 2 ^ 32 → fits q es →
  L = 11 + zlen X + esize b s + bsize es → L + 4 * zlen es < 2 ^ 32 →
  T = 10 + zlen X + tail_rel ((b, s) :: es) → p = 10 + zlen X →
  ∃ es', ziplistCascadeUpdate junk (header L T n ++ X ++ prev_bytes b pv ++ payload s ++ body q es ++ [ZIP_END]) p =
      Some (header (11 + zlen X + esize b s + bsize es') (10 + zlen X + tail_rel ((b, s) :: es')) n ++
        X ++ prev_bytes b pv ++ payload s ++ body (esize b s) es' ++ [ZIP_END]) ∧
    es'.*2 = es.*2 ∧ fits (esize b s) es' ∧ bsize es' ≤ bsize es + 4 * zlen es.
Proof.
  intros Hpv Hs Hf HL Hb HT Hp. pose proof (bsize_bounds es). pose proof (esize_bounds b s). unfold ziplistCascadeUpdate.
  rewrite get_bytes by (unfold in_u; lia). cbn [mbind option_bind]. apply cascade_spec; try done.
  rewrite !length_app, header_length. pose proof (body_length q es). lia.
Qed.

(** ** Walking over entries *)

Lemma fits_cons q b s es : fits q ((b, s) :: es) ↔ prev_ok b q ∧ zlen s < 2 ^ 32 ∧ fits (esize b s) es.
Proof. done. Qed.

Lemma skip_spec d : ∀ fuel zl X q Y p i num,
  zl = X ++ body q d ++ Y → p = zlen X → fits q d → bsize d < 2 ^ 32 → (length d < fuel)%nat →
  (i + zlen d = num ∧ Y ≠ [] ∨ i + zlen d ≤ num ∧ Y = [ZIP_END]) →
  skip_entries fuel zl p i num = Some (p + bsize d, i + zlen d).
Proof.
  induction d as [|[b s] d IH]; intros fuel zl X q Y p i num Hzl Hp Hf Hb Hfuel Hend; (destruct fuel as [|fuel]; [simpl in Hfuel; lia|]); cbn [skip_entries length] in *.
  - cbn [body app bsize foldr] in *. rewrite !Z.add_0_r in *. destruct Hend as [[-> HY]|[Hle ->]].
    + destruct Y as [|c Y]; [done|]. rewrite Hzl, peek_app by done. cbn [mbind option_bind]. by rewrite Z.ltb_irrefl, andb_false_r.
    + rewrite (end_first zl X) by done. done.
  - rewrite bsize_cons in *. destruct Hf as (Hq & Hs & Hf). pose proof (esize_bounds b s). pose proof (bsize_bounds d).
    destruct (entry_first zl X b q (payload s ++ body (esize b s) d ++ Y) p) as (c & -> & Hc); [rewrite Hzl; cbn [body]; app_solve|done|done|].
    cbn [mbind option_bind]. rewrite Hc. rewrite (proj2 (Z.ltb_lt _ _)) by lia. cbn [negb andb].
    rewrite Hzl. cbn [body]. rewrite <-!(assoc_L (++)). rewrite zipRawEntryLength_eq; [|done|done|unfold in_u; lia|done]. cbn [mbind option_bind].
    rewrite (IH fuel _ (X ++ prev_bytes b q ++ payload s) (esize b s) Y); [f_equal; f_equal; lia|app_solve| |done|lia|lia|].
    + rewrite !length_app. pose proof (prev_bytes_length b q). unfold esize. lia.
    + destruct Hend as [[? ?]|[? ?]]; [left|right]; (split; [lia|done]).
Qed.

(** The length field is exact below UINT16_MAX. *)
Definition len_ok (n : Z) es : Prop := 0 ≤ n ≤ UINT16_MAX ∧ (n < UINT16_MAX → n = zlen es).

Lemma incr_length_spec L T n W incr es es' :
  len_ok n es → zlen es' = zlen es + incr → incr ≤ 1 →
  ∃ n', ZIPLIST_INCR_LENGTH (header L T n ++ W) incr = Some (header L T n' ++ W) ∧ len_ok n' es'.
Proof.
  intros [Hn Hex] Hl Hi. unfold ZIPLIST_INCR_LENGTH, UINT16_MAX in *. rewrite get_length by (unfold in_u; lia). cbn [mbind option_bind].
  destruct (Z.ltb_spec n 65535).
  - exists (n + incr). rewrite set_length_eq. split; [done|]. unfold len_ok, UINT16_MAX. specialize (Hex ltac:(lia)). lia.
  - exists n. split; [done|]. split; unfold UINT16_MAX; lia.
Qed.

Lemma last_size_tail es : tail_rel es = bsize es - last_size 0 es.
Proof.
  destruct es as [|[b s] es _] using rev_ind; [done|]. rewrite tail_rel_last, bsize_app. unfold last_size. rewrite foldl_app. cbn. lia.
Qed.

Lemma last_size_range es prev : bsize es < 2 ^ 32 → in_u 32 prev → in_u 32 (last_size prev es).
Proof.
  destruct es as [|[b s] es _] using rev_ind; [done|]. unfold last_size. rewrite foldl_app, bsize_app, bsize_cons. cbn [foldl fst snd].
  pose proof (esize_bounds b s). pose proof (bsize_bounds es). change (bsize []) with 0. unfold in_u. lia.
Qed.

(** The block of a list of entries. *)
Definition zl_bytes es (n : Z) : list Z := header (11 + bsize es) (10 + tail_rel es) n ++ body 0 es ++ [ZIP_END].

Lemma get_bytes_zl es n : bsize es + 11 < 2 ^ 32 → ZIPLIST_BYTES (zl_bytes es n) = Some (11 + bsize es).
Proof. intros Hb. pose proof (bsize_bounds es). apply get_bytes. unfold in_u. lia. Qed.

Lemma get_tail_zl es n : bsize es + 11 < 2 ^ 32 → ZIPLIST_TAIL_OFFSET (zl_bytes es n) = Some (10 + tail_rel es).
Proof. intros Hb. pose proof (tail_rel_bound es). apply get_tail. unfold in_u. lia. Qed.

Lemma header_body_length L T n es1 : zlen (header L T n ++ body 0 es1) = 10 + bsize es1.
Proof. rewrite length_app, header_length. pose proof (body_length 0 es1). lia. Qed.

(** ** Deletion *)

(** A field of another size in front of the next entry, over the end of what is deleted. *)
Lemma store_over (A D F Z' : list Z) p pv :
  p = zlen A + zlen D → in_u 32 pv → psize (big pv) ≤ zlen D + zlen F → 0 ≤ pv →
  ∃ D', zipStorePrevEntryLength (A ++ D ++ F ++ Z') (p - (psize (big pv) - zlen F)) pv =
      Some (A ++ D' ++ prev_bytes (big pv) pv ++ Z', psize (big pv)) ∧ zlen D' = zlen D - (psize (big pv) - zlen F).
Proof.
  intros -> Hu Hle Hpv. set (k := Z.to_nat (psize (big pv))).
  assert (0 ≤ psize (big pv)) by (destruct (big pv); cbn; lia).
  exists (take (length (D ++ F) - k) (D ++ F)). split; [|rewrite length_take, length_app; lia].
  replace (A ++ D ++ F ++ Z') with ((A ++ take (length (D ++ F) - k) (D ++ F)) ++ drop (length (D ++ F) - k) (D ++ F) ++ Z')
    by (rewrite <-(assoc_L (++) A), (assoc_L (++) (take _ _)), take_drop; app_solve).
  rewrite store_prev; [f_equal; f_equal; app_solve| |done|].
  - rewrite !length_app, length_take, length_app. lia.
  - rewrite length_drop, length_app. lia.
Qed.

Lemma delete_tail es1 d n num :
  d ≠ [] → fits 0 (es1 ++ d) → bsize (es1 ++ d) + 11 < 2 ^ 32 → zlen d ≤ num → len_ok n (es1 ++ d) →
  ∃ n', ziplistDelete_ junk (zl_bytes (es1 ++ d) n) (10 + bsize es1) num = Some (zl_bytes es1 n') ∧ len_ok n' es1.
Proof.
  intros Hd Hf Hb Hnum Hn. apply fits_app in Hf as [Hf1 Hf2]. rewrite bsize_app in Hb. set (pv := last_size 0 es1) in *.
  pose proof (bsize_bounds es1). pose proof (bsize_bounds d). unfold zl_bytes.
  set (hdr := header _ _ n). rewrite body_app. fold pv. destruct d as [|[b1 s1] d]; [done|]. set (d' := (b1, s1) :: d) in *.
  assert (zlen (hdr ++ body 0 es1) = 10 + bsize es1) as HX by apply header_body_length.
  unfold ziplistDelete_. destruct Hf2 as (Hpv & Hs1 & Hf2).
  rewrite (zipEntry_at _ (hdr ++ body 0 es1) b1 pv s1 (body (esize b1 s1) d ++ [ZIP_END])); [|unfold d'; cbn [body]; app_solve|done|done|done].
  cbn [mbind option_bind].
  rewrite (skip_spec d' _ _ (hdr ++ body 0 es1) pv [ZIP_END]); [|app_solve|done|done|lia| |right; split; [lia|done]].
  2: { rewrite !length_app. pose proof (body_length pv d'). lia. }
  cbn [mbind option_bind ep]. replace (10 + bsize es1 + bsize d' - (10 + bsize es1)) with (bsize d') by lia.
  assert (0 < bsize d') by (unfold d' in *; cbn [length] in *; lia).
  rewrite wrap_u_small by (unfold in_u; lia). rewrite (proj2 (Z.ltb_lt _ _)) by done.
  rewrite (end_first _ (hdr ++ body 0 es1 ++ body pv d')); [|app_solve|].
  2: { rewrite (assoc_L (++)), length_app, Nat2Z.inj_add, HX, body_length. done. }
  cbn [mbind option_bind]. rewrite Z.eqb_refl. cbn [negb prevrawlen]. unfold hdr. rewrite set_tail_eq. cbn [mbind option_bind].
  rewrite bsize_app in *. rewrite get_bytes by (unfold in_u; lia). cbn [mbind option_bind].
  rewrite <-(assoc_L (++)). destruct (resize_eq (11 + (bsize es1 + bsize d')) (10 + bsize es1 - pv) n (body 0 es1) (body pv d' ++ [ZIP_END])
    (11 + (bsize es1 + bsize d') - bsize d' + 0)) as (E & -> & HE); [rewrite body_length; lia|unfold in_u; lia|].
  rewrite body_length in HE. destruct E; [|simpl in HE; lia]. cbn [mbind option_bind app].
  destruct (incr_length_spec (11 + (bsize es1 + bsize d') - bsize d' + 0) (10 + bsize es1 - pv) n (body 0 es1 ++ [ZIP_END]) (- (0 + zlen d')) (es1 ++ d') es1)
    as (n' & -> & Hn'); [done|rewrite length_app; lia|lia|].
  cbn [mbind option_bind negb]. exists n'. split; [|done].
  replace (11 + (bsize es1 + bsize d') - bsize d' + 0) with (11 + bsize es1) by lia.
  by replace (10 + bsize es1 - pv) with (10 + tail_rel es1) by (rewrite last_size_tail; unfold pv; lia).
Qed.

Lemma zl_bytes_split es1 b s t n :
  zl_bytes (es1 ++ (b, s) :: t) n =
    header (11 + zlen (body 0 es1) + esize b s + bsize t) (10 + zlen (body 0 es1) + tail_rel ((b, s) :: t)) n ++
      body 0 es1 ++ prev_bytes b (last_size 0 es1) ++ payload s ++ body (esize b s) t ++ [ZIP_END].
Proof.
  unfold zl_bytes. rewrite body_app, bsize_app, bsize_cons, (tail_rel_app es1) by done. rewrite body_length. cbn [body].
  replace (11 + (bsize es1 + (esize b s + bsize t))) with (11 + bsize es1 + esize b s + bsize t) by lia.
  replace (10 + (bsize es1 + tail_rel ((b, s) :: t))) with (10 + bsize es1 + tail_rel ((b, s) :: t)) by lia. app_solve.
Qed.

(** The entry after [X] changed its size by [diff]; the following ones are updated. *)
Lemma cascade_after X b b2 pv s t n diff L T p :
  diff = psize b - psize b2 → prev_ok b pv → zlen s < 2 ^ 32 → fits (esize b2 s) t →
  L = 11 + zlen X + esize b s + bsize t → T = 10 + zlen X + tail_rel ((b, s) :: t) → p = 10 + zlen X → L + 4 * zlen t < 2 ^ 32 →
  ∃ t', (if negb (diff =? 0)
      then ziplistCascadeUpdate junk (header L T n ++ X ++ prev_bytes b pv ++ payload s ++ body (esize b2 s) t ++ [ZIP_END]) p
      else Some (header L T n ++ X ++ prev_bytes b pv ++ payload s ++ body (esize b2 s) t ++ [ZIP_END])) =
      Some (header (11 + zlen X + esize b s + bsize t') (10 + zlen X + tail_rel ((b, s) :: t')) n ++
        X ++ prev_bytes b pv ++ payload s ++ body (esize b s) t' ++ [ZIP_END]) ∧
    t'.*2 = t.*2 ∧ fits (esize b s) t'.
Proof.
  intros Hdiff Hpv Hs Hf HL HT Hp Hb. destruct (Z.eqb_spec diff 0) as [H0|H0]; cbn [negb].
  - assert (b = b2) as -> by (destruct b, b2; cbn in Hdiff; (done || lia)). exists t. by rewrite HL, HT.
  - destruct (cascade_update t X b pv s (esize b2 s) T n L p Hpv Hs Hf HL Hb HT Hp) as (t' & -> & Hsnd & Hf' & _). by exists t'.
Qed.

Lemma delete_mid es1 d b2 s2 t n :
  d ≠ [] → fits 0 (es1 ++ d ++ (b2, s2) :: t) → bsize (es1 ++ d ++ (b2, s2) :: t) + 11 + 4 * (1 + zlen t) < 2 ^ 32 →
  len_ok n (es1 ++ d ++ (b2, s2) :: t) →
  ∃ es2 n', ziplistDelete_ junk (zl_bytes (es1 ++ d ++ (b2, s2) :: t) n) (10 + bsize es1) (zlen d) = Some (zl_bytes (es1 ++ es2) n') ∧
    es2.*2 = s2 :: t.*2 ∧ fits 0 (es1 ++ es2) ∧ len_ok n' (es1 ++ es2).
Proof.
  intros Hd Hf Hb Hn. apply fits_app in Hf as [Hf1 Hf2]. rewrite !bsize_app, bsize_cons in Hb. set (pv := last_size 0 es1) in *.
  apply fits_app in Hf2 as [Hf2 (Hq & Hs2 & Hft)]. set (q := last_size pv d) in *.
  pose proof (bsize_bounds es1). pose proof (bsize_bounds d). pose proof (bsize_bounds t). pose proof (esize_bounds b2 s2).
  pose proof (esize_bounds (big pv) s2). assert (in_u 32 pv) as Hpvu by (apply last_size_range; [lia|unfold in_u; lia]).
  unfold zl_bytes at 1. set (hdr := header _ _ n). rewrite !body_app. fold pv q.
  assert (zlen (hdr ++ body 0 es1) = 10 + bsize es1) as HX by apply header_body_length.
  assert (0 < bsize d ∧ psize (big pv) ≤ bsize d + psize b2) as [Hdpos Hroom].
  { destruct d as [|[b1 s1] d]; [done|]. destruct Hf2 as ([_ Hb1] & _). rewrite bsize_cons in *. pose proof (bsize_bounds d). pose proof (esize_bounds b1 s1).
    split; [cbn [length] in *; lia|]. destruct (big pv) eqn:Eb; [|destruct b2; cbn; lia]. destruct b1.
    - unfold esize at 1. cbn [psize]. destruct b2; cbn; lia.
    - unfold big in Eb. apply Z.leb_le in Eb. specialize (Hb1 eq_refl). lia. }
  unfold ziplistDelete_. set (zl := hdr ++ _).
  assert (∃ e, zipEntry zl (10 + bsize es1) = Some e ∧ prevrawlen e = pv ∧ ep e = 10 + bsize es1) as (first & -> & Hfp & Hfe).
  { destruct d as [|[b1 s1] d]; [done|]. destruct Hf2 as (Hpv & Hs1 & _). eexists.
    split; [apply (zipEntry_at zl (hdr ++ body 0 es1) b1 pv s1 (body (esize b1 s1) d ++ body q ((b2, s2) :: t) ++ [ZIP_END])); [unfold zl; cbn [body]; app_solve|done..]|done]. }
  cbn [mbind option_bind]. rewrite Hfe, Hfp.
  rewrite (skip_spec d _ _ (hdr ++ body 0 es1) pv (body q ((b2, s2) :: t) ++ [ZIP_END])); [|unfold zl; app_solve|done|done|lia| |].
  2: { unfold zl. rewrite !length_app. pose proof (body_length pv d). lia. }
  2: { left. split; [lia|]. destruct b2; discriminate. }
  cbn [mbind option_bind]. replace (10 + bsize es1 + bsize d - (10 + bsize es1)) with (bsize d) by lia.
  rewrite wrap_u_small by (unfold in_u; lia). rewrite (proj2 (Z.ltb_lt _ _)) by done.
  destruct (entry_first zl (hdr ++ body 0 es1 ++ body pv d) b2 q (payload s2 ++ body (esize b2 s2) t ++ [ZIP_END]) (10 + bsize es1 + bsize d)) as (c & -> & Hc);
    [unfold zl; cbn [body]; app_solve|by rewrite (assoc_L (++)), length_app, Nat2Z.inj_add, HX, body_length|done|].
  cbn [mbind option_bind]. rewrite Hc. cbn [negb]. unfold zipPrevLenByteDiff.
  replace zl with ((hdr ++ body 0 es1) ++ body pv d ++ prev_bytes b2 q ++ payload s2 ++ body (esize b2 s2) t ++ [ZIP_END]) by (unfold zl; cbn [body]; app_solve).
  rewrite (assoc_L (++) (hdr ++ body 0 es1)). rewrite decode_prevlensize; [|by rewrite length_app, Nat2Z.inj_add, HX, body_length|done].
  rewrite <-(assoc_L (++) (hdr ++ body 0 es1)). cbn [mbind option_bind]. rewrite prev_entry_size_eq.
  set (diff := psize (big pv) - psize b2).
  destruct (store_over (hdr ++ body 0 es1) (body pv d) (prev_bytes b2 q) (payload s2 ++ body (esize b2 s2) t ++ [ZIP_END]) (10 + bsize es1 + bsize d) pv)
    as (D & Hst & HD); [by rewrite HX, body_length|done|by rewrite body_length, prev_bytes_length|unfold in_u in Hpvu; lia|].
  rewrite prev_bytes_length in Hst, HD. rewrite body_length in HD. fold diff in Hst, HD. rewrite Hst. cbn [mbind option_bind]. unfold hdr.
  rewrite !bsize_app, bsize_cons. rewrite (tail_rel_app es1), (tail_rel_app d) by (by destruct d).
  pose proof (tail_rel_bound ((b2, s2) :: t)) as Htb. rewrite bsize_cons in Htb. rewrite <-!(assoc_L (++)).
  rewrite get_tail by (unfold in_u; lia). cbn [mbind option_bind]. rewrite set_tail_eq. cbn [mbind option_bind].
  set (L := 11 + (bsize es1 + (bsize d + (esize b2 s2 + bsize t)))).
  assert (esize (big pv) s2 = esize b2 s2 + diff) as Hes by (unfold esize, diff; lia).
  set (T1 := 10 + (bsize es1 + (bsize d + tail_rel ((b2, s2) :: t))) - bsize d).
  set (N := prev_bytes (big pv) pv ++ payload s2 ++ body (esize b2 s2) t).
  assert (zlen N = esize (big pv) s2 + bsize t) as HN
    by (unfold N; rewrite !length_app, !Nat2Z.inj_add, body_length, prev_bytes_length; unfold esize; lia).
  rewrite (zipEntry_at _ (header L T1 n ++ body 0 es1 ++ D) (big pv) pv s2 (body (esize b2 s2) t ++ [ZIP_END]));
    [|app_solve|by rewrite (assoc_L (++)), length_app, Nat2Z.inj_add, header_body_length, HD; lia|by apply big_ok|done].
  cbn [mbind option_bind headersize elen]. rewrite rawlen_eq, wrap_u_small by (unfold in_u; lia).
  set (T2 := 10 + (bsize es1 + tail_rel ((big pv, s2) :: t))).
  assert (∃ c, peek (header L T1 n ++ body 0 es1 ++ D ++ prev_bytes (big pv) pv ++ payload s2 ++ body (esize b2 s2) t ++ [ZIP_END])
      (10 + bsize es1 + bsize d - diff + esize (big pv) s2) = Some c ∧ T2 = if negb (c =? ZIP_END) then T1 + diff else T1) as (c2 & -> & HT2).
  { pose proof (prev_bytes_length (big pv) pv) as Hpl. unfold T1, T2. destruct t as [|[b3 s3] t].
    - exists ZIP_END. split; [|simpl; lia]. apply (end_first _ (header L T1 n ++ body 0 es1 ++ D ++ prev_bytes (big pv) pv ++ payload s2)); [cbn [body]; app_solve|].
      rewrite !length_app, header_length. pose proof (body_length 0 es1). unfold esize. lia.
    - destruct Hft as (Hp3 & _).
      destruct (entry_first (header L T1 n ++ body 0 es1 ++ D ++ prev_bytes (big pv) pv ++ payload s2 ++ body (esize b2 s2) ((b3, s3) :: t) ++ [ZIP_END])
        (header L T1 n ++ body 0 es1 ++ D ++ prev_bytes (big pv) pv ++ payload s2) b3 (esize b2 s2) (payload s3 ++ body (esize b3 s3) t ++ [ZIP_END])
        (10 + bsize es1 + bsize d - diff + esize (big pv) s2)) as (c3 & Hc3 & Hne); [cbn [body]; app_solve| |done|].
      + rewrite !length_app, header_length. pose proof (body_length 0 es1). unfold esize. lia.
      + exists c3. split; [done|]. rewrite Hne. cbn [negb]. rewrite (tail_rel_cons (big pv)), (tail_rel_cons b2) by done. lia. }
  cbn [mbind option_bind].
  assert ((if negb (c2 =? ZIP_END)
    then t0 ← ZIPLIST_TAIL_OFFSET (header L T1 n ++ body 0 es1 ++ D ++ prev_bytes (big pv) pv ++ payload s2 ++ body (esize b2 s2) t ++ [ZIP_END]);
         set_tail_offset (header L T1 n ++ body 0 es1 ++ D ++ prev_bytes (big pv) pv ++ payload s2 ++ body (esize b2 s2) t ++ [ZIP_END]) (t0 + diff)
    else Some (header L T1 n ++ body 0 es1 ++ D ++ prev_bytes (big pv) pv ++ payload s2 ++ body (esize b2 s2) t ++ [ZIP_END])) =
    Some (header L T2 n ++ body 0 es1 ++ D ++ N ++ [ZIP_END])) as ->.
  { unfold N. rewrite <-!(assoc_L (++)). destruct (negb (c2 =? ZIP_END)); [|by rewrite HT2]. rewrite get_tail by (unfold in_u, T1; lia). cbn [mbind option_bind].
    by rewrite set_tail_eq, HT2. }
  cbn [mbind option_bind]. rewrite get_bytes by (unfold in_u, L; lia). cbn [mbind option_bind].
  rewrite (assoc_L (++) (header L T2 n)).
  rewrite memmove_down; [|rewrite header_body_length; lia|by rewrite header_body_length|unfold L; lia].
  cbn [mbind option_bind]. rewrite <-!(assoc_L (++)). rewrite get_bytes by (unfold in_u, L; lia). cbn [mbind option_bind].
  rewrite (assoc_L (++) (body 0 es1) N).
  destruct (resize_eq L T2 n (body 0 es1 ++ N) (drop (length N) (D ++ N) ++ [ZIP_END]) (L - bsize d + diff)) as (E & -> & HE).
  { rewrite length_app. pose proof (body_length 0 es1). unfold L. lia. }
  { unfold in_u, L. lia. }
  rewrite length_app in HE. pose proof (body_length 0 es1) as Hbl1. destruct E; [|simpl in HE; unfold L in HE; lia]. cbn [mbind option_bind app].
  destruct (incr_length_spec (L - bsize d + diff) T2 n ((body 0 es1 ++ N) ++ [ZIP_END]) (- (0 + zlen d)) (es1 ++ d ++ (b2, s2) :: t) (es1 ++ (b2, s2) :: t))
    as (n' & -> & Hn'); [done|rewrite !length_app; lia|lia|].
  cbn [mbind option_bind].
  destruct (cascade_after (body 0 es1) (big pv) b2 pv s2 t n' diff (L - bsize d + diff) T2 (10 + bsize es1)) as (t' & Hcas & Hsnd & Hfit');
    [done|by apply big_ok|done|done|unfold L; lia|unfold T2; lia|lia|unfold L; lia|].
  exists ((big pv, s2) :: t'), n'. split; [|split; [by cbn; rewrite Hsnd|split; [apply fits_app; split; [done|split; [by apply big_ok|done]]|]]].
  - rewrite zl_bytes_split; fold pv; rewrite <-Hcas. unfold N. rewrite <-!(assoc_L (++)). done.
  - destruct Hn' as [? Hex]. split; [done|]. intros Hlt. specialize (Hex Hlt). rewrite length_app in *. cbn [length] in *. rewrite (snd_eq_length t t'); done.
Qed.

(** ** Insertion *)

Lemma write_entry_eq A G Y p pv s encoding value :
  p = zlen A → in_u 32 pv → zlen G = esize (big pv) s →
  (value, encoding) = default (123456789, 0) ((λ v, (v, int_encoding v)) <$> try_int s) →
  write_entry (A ++ G ++ Y) p pv encoding value s = Some (A ++ prev_bytes (big pv) pv ++ payload s ++ Y).
Proof.
  intros Hp Hpv HG Henc. unfold write_entry, esize in *. pose proof (prev_bytes_length (big pv) pv) as Hpl.
  set (k := length (prev_bytes (big pv) pv)) in *.
  rewrite <-(take_drop k G), <-(assoc_L (++)). rewrite store_prev; [|done|unfold in_u in Hpv; lia|rewrite length_take; lia]. cbn [mbind option_bind].
  set (G1 := drop k G). assert (zlen G1 = zlen (payload s)) as HG1 by (unfold G1; rewrite length_drop; lia).
  unfold zipStoreEntryEncoding. rewrite (assoc_L (++)). unfold payload in *. destruct (try_int s) as [v|]; cbn in Henc; injection Henc as -> ->.
  - destruct (int_encoding_range v) as [_ Hns]. unfold entry_encoding. rewrite Hns. cbn [length] in HG1. destruct G1 as [|c G2]; [done|].
    cbn [length] in HG1. rewrite (blit_gap (A ++ prev_bytes (big pv) pv) [c] (G2 ++ Y) [int_encoding v]); [|rewrite length_app; lia|done].
    cbn [mbind option_bind drop length app]. rewrite (cons_middle _ (A ++ _)), (assoc_L (++) (A ++ _)).
    rewrite zipSaveInteger_eq; [|rewrite !length_app; cbn [length]; lia|lia]. f_equal. app_solve.
  - rewrite length_app in HG1. rewrite blit_gap; [|rewrite length_app; lia|lia]. cbn [mbind option_bind]. change (ZIP_IS_STR 0) with true. cbv iota.
    rewrite (assoc_L (++) (A ++ _)). rewrite blit_app; [f_equal; app_solve|rewrite !length_app; lia|rewrite length_drop; lia].
Qed.

(** The move of the rest of the list, with [nd] bytes more or less for the next field. *)
Lemma move_over (A F R E Z' : list Z) r nd dst src n :
  dst = zlen A + r → src = zlen A - nd → n = zlen F + zlen R + nd → zlen E = r + nd → 0 ≤ r → 0 ≤ zlen F + nd → nd ≤ zlen A →
  ∃ G F', memmove (A ++ F ++ R ++ E ++ Z') dst src n = Some (A ++ G ++ F' ++ R ++ Z') ∧ zlen G = r ∧ zlen F' = zlen F + nd.
Proof.
  intros -> -> -> HE Hr HF HA. set (k := Z.to_nat (zlen A - nd)). set (P := take k (A ++ F)). set (Q := drop k (A ++ F)).
  assert (P ++ Q = A ++ F) as HPQ by apply take_drop.
  assert (zlen P = zlen A - nd) as HP by (unfold P; rewrite length_take, length_app; lia).
  assert (zlen Q = zlen F + nd) as HQ by (unfold Q; rewrite length_drop, length_app; lia).
  exists (take (Z.to_nat r) (F ++ R ++ E)), Q. split; [|split; [rewrite length_take, !length_app; lia|done]].
  replace (A ++ F ++ R ++ E ++ Z') with (P ++ (Q ++ R) ++ E ++ Z') by (rewrite <-!(assoc_L (++)), (assoc_L (++) P), HPQ; app_solve).
  rewrite memmove_gap; [|lia|lia|rewrite length_app; lia]. f_equal.
  assert (P ++ take (length E) ((Q ++ R) ++ E) = A ++ take (Z.to_nat r) (F ++ R ++ E)) as HPE.
  { transitivity (take (length P + length E) (P ++ (Q ++ R) ++ E)).
    - rewrite (take_app_ge P) by lia. by replace (length P + length E - length P)%nat with (length E) by lia.
    - replace (P ++ (Q ++ R) ++ E) with (A ++ F ++ R ++ E) by (rewrite <-!(assoc_L (++)), (assoc_L (++) P), HPQ; app_solve).
      rewrite (take_app_ge A) by lia. f_equal. f_equal. lia. }
  rewrite (assoc_L (++) P), HPE. app_solve.
Qed.

Lemma insert_prevlen_eq es1 es2 n :
  fits 0 (es1 ++ es2) → bsize (es1 ++ es2) + 11 < 2 ^ 32 →
  insert_prevlen (zl_bytes (es1 ++ es2) n) (10 + bsize es1) = Some (last_size 0 es1).
Proof.
  intros [Hf1 Hf2]%fits_app Hb. rewrite bsize_app in Hb. pose proof (bsize_bounds es1). pose proof (bsize_bounds es2). unfold insert_prevlen.
  destruct es2 as [|[b2 s2] t].
  - rewrite app_nil_r. rewrite (end_first _ (header (11 + bsize es1) (10 + tail_rel es1) n ++ body 0 es1)); [|unfold zl_bytes; app_solve|by rewrite header_body_length].
    cbn [mbind option_bind]. rewrite Z.eqb_refl. cbn [negb]. unfold ZIPLIST_ENTRY_TAIL. rewrite get_tail_zl by lia. cbn [mbind option_bind]. destruct es1 as [|[b1 s1] es1 _] using rev_ind.
    + rewrite (end_first _ (header 11 10 n)) by done. done.
    + rewrite tail_rel_last. apply fits_app in Hf1 as [Hf0 (Hp1 & Hs1 & _)]. rewrite bsize_app, bsize_cons in *. change (bsize []) with 0 in *.
      pose proof (esize_bounds b1 s1). pose proof (bsize_bounds es1). rewrite zl_bytes_split. cbn [body app].
      rewrite (assoc_L (++) (header _ _ n)).
      match goal with |- context [header ?L ?T n] => set (hdr := header L T n) end.
      assert (10 + bsize es1 = zlen (hdr ++ body 0 es1)) as HX by (by unfold hdr; rewrite header_body_length).
      destruct (entry_first ((hdr ++ body 0 es1) ++ prev_bytes b1 (last_size 0 es1) ++ payload s1 ++ [ZIP_END]) (hdr ++ body 0 es1) b1 (last_size 0 es1)
        (payload s1 ++ [ZIP_END]) (10 + bsize es1)) as (c & -> & Hc); [done|done|done|].
      cbn [mbind option_bind]. rewrite Hc. cbn [negb]. rewrite zipRawEntryLength_eq; [|done|done|unfold in_u; lia|done].
      unfold last_size. by rewrite foldl_app.
  - destruct Hf2 as (Hp2 & _). rewrite zl_bytes_split. rewrite (assoc_L (++) (header _ _ n)).
    match goal with |- context [header ?L ?T n] => set (hdr := header L T n) end.
    assert (10 + bsize es1 = zlen (hdr ++ body 0 es1)) as HX by (by unfold hdr; rewrite header_body_length).
    destruct (entry_first ((hdr ++ body 0 es1) ++ prev_bytes b2 (last_size 0 es1) ++ payload s2 ++ body (esize b2 s2) t ++ [ZIP_END]) (hdr ++ body 0 es1) b2 (last_size 0 es1)
      (payload s2 ++ body (esize b2 s2) t ++ [ZIP_END]) (10 + bsize es1)) as (c & -> & Hc); [done|done|done|].
    cbn [mbind option_bind]. rewrite Hc. cbn [negb]. by rewrite decode_prevlen.
Qed.

(** The flag of the next entry after the move. *)
Definition next_large (force : bool) (r : Z) : bool := force || big r.

Lemma store_next A F Y p r force :
  p = zlen A → in_u 32 r → zlen F = psize (next_large force r) →
  (if force then zipStorePrevEntryLengthLarge (A ++ F ++ Y) p (u32 r) else '(zl, _) ← zipStorePrevEntryLength (A ++ F ++ Y) p (u32 r); Some zl) =
    Some (A ++ prev_bytes (next_large force r) r ++ Y).
Proof.
  intros Hp Hr HF. rewrite (wrap_u_small 32 r Hr). destruct force; cbn [next_large orb] in *.
  - apply store_large; [done|]. cbn [psize] in HF. lia.
  - rewrite store_prev; [done|done|unfold in_u in Hr; lia|done].
Qed.

Lemma insert_shift_spec es1 b2 s2 t L T n r nd E force p curlen pv :
  p = 10 + bsize es1 → prev_ok b2 pv → zlen s2 < 2 ^ 32 → fits (esize b2 s2) t → in_u 32 r → 2 ≤ r →
  nd = psize (next_large force r) - psize b2 → zlen E = r + nd → 0 ≤ r + nd →
  curlen = 11 + bsize es1 + esize b2 s2 + bsize t → curlen + r + 4 < 2 ^ 32 → T = 10 + bsize es1 + tail_rel ((b2, s2) :: t) →
  ∃ G, insert_shift (header L T n ++ (body 0 es1 ++ body pv ((b2, s2) :: t)) ++ E ++ [ZIP_END]) p curlen r nd force =
    Some (header L (10 + bsize es1 + r + tail_rel ((next_large force r, s2) :: t)) n ++
      (body 0 es1 ++ G) ++ prev_bytes (next_large force r) r ++ payload s2 ++ body (esize b2 s2) t ++ [ZIP_END]) ∧ zlen G = r.
Proof.
  intros Hp Hpv Hs2 Hft Hr Hr2 Hnd HE Hrnd Hcur Hb HT. pose proof (bsize_bounds es1). pose proof (bsize_bounds t). pose proof (esize_bounds b2 s2).
  set (b2' := next_large force r) in *. pose proof (esize_bounds b2' s2).
  assert (prev_ok b2' r) as Hok by (unfold b2', next_large; destruct force; [split; [done|done]|by apply big_ok]).
  assert (esize b2' s2 = esize b2 s2 + nd) as Hes by (unfold esize; lia).
  pose proof (tail_rel_bound ((b2, s2) :: t)) as Htb. rewrite bsize_cons in Htb.
  unfold insert_shift. set (hdr := header L T n).
  assert (zlen (hdr ++ body 0 es1) = 10 + bsize es1) as HX by apply header_body_length.
  replace (hdr ++ (body 0 es1 ++ body pv ((b2, s2) :: t)) ++ E ++ [ZIP_END])
    with ((hdr ++ body 0 es1) ++ prev_bytes b2 pv ++ (payload s2 ++ body (esize b2 s2) t) ++ E ++ [ZIP_END]) by (cbn [body]; app_solve).
  destruct (entry_first ((hdr ++ body 0 es1) ++ prev_bytes b2 pv ++ (payload s2 ++ body (esize b2 s2) t) ++ E ++ [ZIP_END]) (hdr ++ body 0 es1) b2 pv
    ((payload s2 ++ body (esize b2 s2) t) ++ E ++ [ZIP_END]) p) as (c & -> & Hc); [done|lia|done|].
  cbn [mbind option_bind]. rewrite Hc. cbn [negb].
  destruct (move_over (hdr ++ body 0 es1) (prev_bytes b2 pv) (payload s2 ++ body (esize b2 s2) t) E [ZIP_END] r nd (p + r) (p - nd) (curlen - p - 1 + nd))
    as (G & F & -> & HG & HF).
  { lia. }
  { lia. }
  { rewrite prev_bytes_length, length_app, Nat2Z.inj_add, body_length. unfold esize in Hcur. lia. }
  { done. }
  { lia. }
  { rewrite prev_bytes_length, Hnd. destruct b2'; cbn; lia. }
  { rewrite HX, Hnd. destruct b2', b2; cbn; lia. }
  rewrite prev_bytes_length in HF. cbn [mbind option_bind]. rewrite (assoc_L (++) (hdr ++ body 0 es1)).
  rewrite store_next; [|rewrite length_app, Nat2Z.inj_add, HX; lia|done|fold b2'; lia].
  cbn [mbind option_bind]. fold b2'. exists G. split; [|done]. unfold hdr. rewrite <-!(assoc_L (++)).
  rewrite get_tail by (unfold in_u; lia). cbn [mbind option_bind]. rewrite set_tail_eq. cbn [mbind option_bind].
  assert (p + r = zlen (header L (T + r) n ++ body 0 es1 ++ G)) as HX2 by (rewrite (assoc_L (++)), length_app, Nat2Z.inj_add, header_body_length; lia).
  rewrite (zipEntry_at _ (header L (T + r) n ++ body 0 es1 ++ G) b2' r s2 (body (esize b2 s2) t ++ [ZIP_END])); [|app_solve|done|done|done].
  cbn [mbind option_bind headersize elen]. replace (p + (r + (psize b2' + hsize s2) + dsize s2)) with (p + r + esize b2' s2) by (rewrite <-rawlen_eq; lia).
  assert (p + r + esize b2' s2 = zlen (header L (T + r) n ++ body 0 es1 ++ G ++ prev_bytes b2' r ++ payload s2)) as HX3.
  { rewrite !length_app, header_length in *. pose proof (prev_bytes_length b2' r). unfold esize. lia. }
  destruct t as [|[b3 s3] t].
  - rewrite (end_first _ (header L (T + r) n ++ body 0 es1 ++ G ++ prev_bytes b2' r ++ payload s2)); [|cbn [body]; app_solve|done].
    cbn [mbind option_bind]. rewrite Z.eqb_refl. cbn [negb tail_rel] in *.
    by replace (10 + bsize es1 + r + 0) with (T + r) by lia.
  - destruct Hft as (Hp3 & _).
    destruct (entry_first (header L (T + r) n ++ body 0 es1 ++ G ++ prev_bytes b2' r ++ payload s2 ++ body (esize b2 s2) ((b3, s3) :: t) ++ [ZIP_END])
      (header L (T + r) n ++ body 0 es1 ++ G ++ prev_bytes b2' r ++ payload s2) b3 (esize b2 s2) (payload s3 ++ body (esize b3 s3) t ++ [ZIP_END])
      (p + r + esize b2' s2)) as (c3 & -> & Hne); [cbn [body]; app_solve|done|done|].
    cbn [mbind option_bind]. rewrite Hne. cbn [negb]. rewrite get_tail by (unfold in_u; lia). cbn [mbind option_bind]. rewrite set_tail_eq.
    rewrite (tail_rel_cons b2') by done. rewrite (tail_rel_cons b2) in HT by done.
    by replace (10 + bsize es1 + r + (esize b2' s2 + tail_rel ((b3, s3) :: t))) with (T + r + nd) by lia.
Qed.

Lemma required_length s pv :
  ∃ value encoding k, default (123456789, 0) ((λ v, (v, int_encoding v)) <$> try_int s) = (value, encoding) ∧
    match (λ v, (v, int_encoding v)) <$> try_int s with Some _ => zipIntSize encoding | None => Some (zlen s) end = Some k ∧
    k + prev_entry_size pv + zlen (entry_encoding encoding (zlen s)) = esize (big pv) s.
Proof.
  unfold esize, payload. rewrite prev_entry_size_eq. destruct (try_int s) as [v|]; cbn.
  - eexists _, _, _. split; [done|]. rewrite zipIntSize_eq. split; [done|]. unfold entry_encoding. destruct (int_encoding_range v) as [_ ->]. cbn [length]. lia.
  - eexists _, _, _. split; [done|]. split; [done|]. rewrite length_app. lia.
Qed.

Lemma insert_end es1 n s :
  fits 0 es1 → zlen s < 2 ^ 32 → bsize es1 + 11 + (14 + zlen s) < 2 ^ 32 → len_ok n es1 →
  ∃ n', ziplistInsert junk (zl_bytes es1 n) (10 + bsize es1) s = Some (zl_bytes (es1 ++ [(big (last_size 0 es1), s)]) n') ∧
    len_ok n' (es1 ++ [(big (last_size 0 es1), s)]).
Proof.
  intros Hf Hs Hb Hn. set (pv := last_size 0 es1). pose proof (bsize_bounds es1). pose proof (esize_bounds (big pv) s) as Her.
  assert (in_u 32 pv) as Hpv by (apply last_size_range; [lia|unfold in_u; lia]).
  unfold ziplistInsert. rewrite get_bytes_zl by lia. cbn [mbind option_bind].
  pose proof (insert_prevlen_eq es1 [] n) as Hprev. rewrite app_nil_r in Hprev. rewrite Hprev by (done || lia). fold pv. cbn [mbind option_bind].
  rewrite zipTryEncoding_eq. cbn [mbind option_bind]. destruct (required_length s pv) as (value & enc & k & Hdef & Hk & Hreq). rewrite Hdef, Hk. cbn [mbind option_bind].
  rewrite Hreq. set (r := esize (big pv) s) in *.
  rewrite (end_first (zl_bytes es1 n) (header (11 + bsize es1) (10 + tail_rel es1) n ++ body 0 es1));
    [|unfold zl_bytes; app_solve|by rewrite header_body_length].
  cbn [mbind option_bind]. rewrite Z.eqb_refl. cbn [negb mbind option_bind]. change (0 =? -4) with false. cbn [andb].
  assert (zl_bytes es1 n = header (11 + bsize es1) (10 + tail_rel es1) n ++ (body 0 es1 ++ [ZIP_END]) ++ []) as -> by (unfold zl_bytes; by rewrite app_nil_r).
  destruct (resize_eq (11 + bsize es1) (10 + tail_rel es1) n (body 0 es1 ++ [ZIP_END]) [] (11 + bsize es1 + r + 0)) as (E & -> & HE).
  { rewrite length_app, Nat2Z.inj_add, body_length. cbn [length]. lia. }
  { unfold in_u. lia. }
  rewrite length_app, Nat2Z.inj_add, body_length in HE. cbn [length] in HE. cbn [mbind option_bind]. unfold insert_shift.
  assert (peek (header (11 + bsize es1 + r + 0) (10 + tail_rel es1) n ++ (body 0 es1 ++ [ZIP_END]) ++ E ++ [ZIP_END]) (10 + bsize es1) = Some ZIP_END) as ->.
  { replace (header (11 + bsize es1 + r + 0) (10 + tail_rel es1) n ++ (body 0 es1 ++ [ZIP_END]) ++ E ++ [ZIP_END])
      with ((header (11 + bsize es1 + r + 0) (10 + tail_rel es1) n ++ body 0 es1) ++ ZIP_END :: E ++ [ZIP_END]) by app_solve.
    apply peek_app. by rewrite header_body_length. }
  cbn [mbind option_bind]. rewrite (Z.eqb_refl ZIP_END). cbn [negb]. rewrite set_tail_eq. cbn [mbind option_bind Z.eqb negb].
  match goal with |- context [write_entry (header ?L ?T n ++ _)] => set (hdr := header L T n);
    replace (hdr ++ (body 0 es1 ++ [ZIP_END]) ++ E ++ [ZIP_END]) with ((hdr ++ body 0 es1) ++ (ZIP_END :: E) ++ [ZIP_END]) by app_solve end.
  rewrite write_entry_eq; [|by unfold hdr; rewrite header_body_length|done|cbn [length]; lia|done]. cbn [mbind option_bind]. unfold hdr.
  rewrite <-(assoc_L (++)).
  destruct (incr_length_spec (11 + bsize es1 + r + 0) (10 + bsize es1) n (body 0 es1 ++ prev_bytes (big pv) pv ++ payload s ++ [ZIP_END]) 1 es1 (es1 ++ [(big pv, s)]))
    as (n' & -> & Hn'); [done|rewrite length_app; simpl; lia|lia|].
  exists n'. split; [|done]. rewrite zl_bytes_split, body_length. cbn [body app tail_rel]. change (bsize []) with 0. fold r. fold pv. by rewrite !Z.add_0_r.
Qed.

Lemma insert_mid es1 b2 s2 t n s :
  fits 0 (es1 ++ (b2, s2) :: t) → zlen s < 2 ^ 32 → bsize (es1 ++ (b2, s2) :: t) + 11 + (14 + zlen s) + 4 * (1 + zlen t) < 2 ^ 32 → len_ok n (es1 ++ (b2, s2) :: t) →
  ∃ es2 n', ziplistInsert junk (zl_bytes (es1 ++ (b2, s2) :: t) n) (10 + bsize es1) s = Some (zl_bytes (es1 ++ (big (last_size 0 es1), s) :: es2) n') ∧
    es2.*2 = s2 :: t.*2 ∧ fits 0 (es1 ++ (big (last_size 0 es1), s) :: es2) ∧ len_ok n' (es1 ++ (big (last_size 0 es1), s) :: es2).
Proof.
  intros Hf Hs Hb Hn. set (pv := last_size 0 es1). pose proof (esize_bounds (big pv) s) as Her. rewrite bsize_app, bsize_cons in Hb.
  pose proof (bsize_bounds es1). pose proof (bsize_bounds t). pose proof (esize_bounds b2 s2).
  assert (in_u 32 pv) as Hpv by (apply last_size_range; [lia|unfold in_u; lia]).
  unfold ziplistInsert. rewrite get_bytes_zl by (rewrite bsize_app, bsize_cons; lia). cbn [mbind option_bind].
  rewrite insert_prevlen_eq by (done || rewrite bsize_app, bsize_cons; lia). fold pv. cbn [mbind option_bind].
  apply fits_app in Hf as [Hf1 (Hp2 & Hs2 & Hft)]. fold pv in Hp2.
  rewrite zipTryEncoding_eq. cbn [mbind option_bind]. destruct (required_length s pv) as (value & enc & k & Hdef & Hk & Hreq). rewrite Hdef, Hk. cbn [mbind option_bind].
  rewrite Hreq. set (r := esize (big pv) s) in *. rewrite (zl_bytes_split es1 b2 s2 t n). fold pv.
  set (hdr := header _ _ n).
  assert (zlen (hdr ++ body 0 es1) = 10 + bsize es1) as HX by apply header_body_length.
  destruct (entry_first (hdr ++ body 0 es1 ++ prev_bytes b2 pv ++ payload s2 ++ body (esize b2 s2) t ++ [ZIP_END]) (hdr ++ body 0 es1) b2 pv
    (payload s2 ++ body (esize b2 s2) t ++ [ZIP_END]) (10 + bsize es1)) as (c & -> & Hc); [app_solve|done|done|].
  cbn [mbind option_bind]. rewrite Hc. cbn [negb].
  unfold zipPrevLenByteDiff. rewrite (assoc_L (++) hdr).
  rewrite decode_prevlensize by done. cbn [mbind option_bind]. rewrite prev_entry_size_eq, (wrap_u_small 32 r) by (unfold in_u; lia).
  set (force := (psize (big r) - psize b2 =? -4) && (r <? 4)). set (nd := if force then 0 else psize (big r) - psize b2).
  assert (nd = psize (next_large force r) - psize b2 ∧ 0 ≤ r + nd) as [Hnd Hrnd].
  { unfold nd, next_large. destruct force eqn:Ef; unfold force in Ef.
    - apply andb_true_iff in Ef as [Ef _]. apply Z.eqb_eq in Ef. cbn [orb psize]. destruct b2, (big r); cbn in Ef |- *; lia.
    - cbn [orb]. split; [done|]. destruct (Z.eqb_spec (psize (big r) - psize b2) (-4)) as [E4|E4]; [apply Z.ltb_ge in Ef; lia|].
      destruct b2, (big r); cbn in E4 |- *; lia. }
  set (b2' := next_large force r) in *. set (diff := nd) in *. assert (-4 ≤ diff ≤ 4) as Hdr by (rewrite Hnd; destruct b2', b2; cbn; lia).
  assert (prev_ok b2' r) as Hok by (unfold b2', next_large; destruct force; [split; [unfold in_u; lia|done]|apply big_ok; unfold in_u; lia]).
  rewrite bsize_app, bsize_cons. replace ((hdr ++ body 0 es1) ++ prev_bytes b2 pv ++ payload s2 ++ body (esize b2 s2) t ++ [ZIP_END])
    with (hdr ++ (body 0 es1 ++ body pv ((b2, s2) :: t)) ++ [ZIP_END]) by (cbn [body]; app_solve).
  set (curlen := 11 + (bsize es1 + (esize b2 s2 + bsize t))).
  assert (zlen (body 0 es1 ++ body pv ((b2, s2) :: t)) = bsize es1 + (esize b2 s2 + bsize t)) as HW by by rewrite length_app, Nat2Z.inj_add, !body_length, bsize_cons.
  unfold hdr. rewrite body_length.
  match goal with |- context [header ?L0 ?T0 n] => set (L1 := L0); set (T1 := T0) end.
  destruct (resize_eq L1 T1 n (body 0 es1 ++ body pv ((b2, s2) :: t)) [ZIP_END] (curlen + r + diff)) as (E & -> & HE).
  { rewrite HW. unfold curlen. lia. }
  { unfold in_u, curlen. lia. }
  cbn [mbind option_bind].
  destruct (insert_shift_spec es1 b2 s2 t (curlen + r + diff) T1 n r diff E force (10 + bsize es1) curlen pv) as (G & -> & HG);
    [done|done|done|done|unfold in_u; lia|lia|done|rewrite HE, HW; unfold curlen; lia|done|unfold curlen; lia|unfold curlen; lia|done|].
  fold b2'. cbn [mbind option_bind]. assert (esize b2' s2 = esize b2 s2 + diff) as Hes by (unfold esize; lia).
  assert (zlen (body 0 es1 ++ G) = bsize es1 + r) as HXG by (by rewrite length_app, Nat2Z.inj_add, body_length, HG).
  destruct (cascade_after (body 0 es1 ++ G) b2' b2 r s2 t n diff (curlen + r + diff) (10 + bsize es1 + r + tail_rel ((b2', s2) :: t)) (10 + bsize es1 + r))
    as (t' & -> & Hsnd & Hft'); [done|done|done|done|unfold curlen; lia|lia|lia|unfold curlen; lia|].
  cbn [mbind option_bind].
  match goal with |- context [write_entry (header ?L0 ?T0 n ++ _)] => set (L2 := L0); set (T2 := T0) end.
  replace (header L2 T2 n ++ (body 0 es1 ++ G) ++ prev_bytes b2' r ++ payload s2 ++ body (esize b2' s2) t' ++ [ZIP_END])
    with ((header L2 T2 n ++ body 0 es1) ++ G ++ prev_bytes b2' r ++ payload s2 ++ body (esize b2' s2) t' ++ [ZIP_END]) by app_solve.
  rewrite write_entry_eq; [|by rewrite header_body_length|done|done|done]. cbn [mbind option_bind]. rewrite <-(assoc_L (++)).
  match goal with |- context [ZIPLIST_INCR_LENGTH (header L2 T2 n ++ ?W) 1] =>
    destruct (incr_length_spec L2 T2 n W 1 (es1 ++ (b2, s2) :: t) (es1 ++ (big pv, s) :: (b2', s2) :: t')) as (n' & -> & Hn') end.
  { done. }
  { rewrite !length_app. cbn [length]. rewrite (snd_eq_length t t' Hsnd). lia. }
  { lia. }
  exists ((b2', s2) :: t'), n'. split; [|split; [by cbn; rewrite Hsnd|split; [|done]]].
  - rewrite zl_bytes_split. fold pv. cbn [body]. fold r. rewrite bsize_cons, (tail_rel_cons (big pv)) by done. rewrite body_length. fold r.
    replace L2 with (11 + bsize es1 + r + (esize b2' s2 + bsize t')) by (unfold L2; lia).
    replace T2 with (10 + bsize es1 + (r + tail_rel ((b2', s2) :: t'))) by (unfold T2; lia). f_equal. app_solve.
  - apply fits_app. split; [done|]. split; [by apply big_ok|]. split; [done|]. done.
Qed.

(** ** Merging *)

Lemma get_length_zl es n : len_ok n es → ZIPLIST_LENGTH (zl_bytes es n) = Some n.
Proof. intros [Hn _]. apply get_length. unfold in_u, UINT16_MAX in *. lia. Qed.

(** Both directions of the copy give the entries of the two lists behind one header. *)
Lemma merge_append es1 es2 n1 n2 :
  ∃ L T n, (l ← slice (zl_bytes es2 n2) 10 (11 + bsize es2 - 10);
    blit (realloc junk (zl_bytes es1 n1) (11 + bsize es1 + (11 + bsize es2) - 10 - 1)) (11 + bsize es1 - 1) l) =
  Some (header L T n ++ body 0 es1 ++ body 0 es2 ++ [ZIP_END]).
Proof.
  pose proof (bsize_bounds es1). pose proof (bsize_bounds es2). eexists _, _, _. unfold zl_bytes.
  rewrite <-(app_nil_r (body 0 es2 ++ [ZIP_END])) at 1. rewrite slice_app; [|by rewrite header_length|rewrite length_app, Nat2Z.inj_add, body_length; cbn [length]; lia].
  cbn [mbind option_bind]. rewrite (assoc_L (++) (header _ _ n1)).
  match goal with |- context [realloc junk (?a ++ ?y) ?n] => destruct (realloc_prefix a y n) as (r & -> & Hr) end; [rewrite header_body_length; lia|].
  rewrite header_body_length in Hr. rewrite <-(app_nil_r r). rewrite blit_app; [rewrite app_nil_r; f_equal; app_solve|rewrite header_body_length; lia|].
  rewrite length_app. pose proof (body_length 0 es2). cbn [length]. lia.
Qed.

Lemma merge_prepend es1 es2 n1 n2 :
  ∃ L T n, (target ← memmove (realloc junk (zl_bytes es2 n2) (11 + bsize es1 + (11 + bsize es2) - 10 - 1)) (11 + bsize es1 - 1) 10 (11 + bsize es2 - 10);
    l ← slice (zl_bytes es1 n1) 0 (11 + bsize es1 - 1); blit target 0 l) =
  Some (header L T n ++ body 0 es1 ++ body 0 es2 ++ [ZIP_END]).
Proof.
  pose proof (bsize_bounds es1). pose proof (bsize_bounds es2). eexists _, _, _. unfold zl_bytes.
  match goal with |- context [realloc junk ?z _] => rewrite <-(app_nil_r z) end.
  match goal with |- context [realloc junk (?a ++ ?y) ?n] => destruct (realloc_prefix a y n) as (r & -> & Hr) end;
    [rewrite (assoc_L (++)), length_app, Nat2Z.inj_add, header_body_length; cbn [length]; lia|].
  rewrite (assoc_L (++)), length_app, Nat2Z.inj_add, header_body_length in Hr. cbn [length] in Hr. rewrite <-(assoc_L (++)), <-(app_nil_r r).
  rewrite <-(assoc_L (++)). rewrite (assoc_L (++) (body 0 es2)).
  rewrite memmove_gap; [|by rewrite header_length|rewrite header_length; lia|rewrite length_app, Nat2Z.inj_add, body_length; cbn [length]; lia].
  cbn [mbind option_bind]. rewrite (assoc_L (++) (header _ _ n1)). rewrite slice_front by (rewrite header_body_length; lia).
  cbn [mbind option_bind]. rewrite (assoc_L (++) (header _ _ n2)). rewrite blit_front.
  - rewrite app_nil_r. f_equal.
  - rewrite !length_app, length_take, !length_app, !header_length. pose proof (body_length 0 es1). pose proof (body_length 0 es2). cbn [length]. lia.
Qed.

Lemma merge_spec es1 es2 n1 n2 :
  fits 0 es1 → fits 0 es2 → len_ok n1 es1 → len_ok n2 es2 → (es2 = [] → es1 = []) →
  11 + bsize es1 + bsize es2 + 4 * zlen es2 + 11 < 2 ^ 32 →
  ∃ es2' n, ziplistMerge junk (Some (zl_bytes es1 n1)) (Some (zl_bytes es2 n2)) false = Some (Some (zl_bytes (es1 ++ es2') n)) ∧
    es2'.*2 = es2.*2 ∧ fits 0 (es1 ++ es2') ∧ len_ok n (es1 ++ es2').
Proof.
  intros Hf1 Hf2 Hn1 Hn2 Hne Hb. pose proof (bsize_bounds es1). pose proof (bsize_bounds es2). unfold ziplistMerge.
  rewrite !get_bytes_zl by lia. rewrite !get_length_zl, !get_tail_zl by (done || lia). cbn [mbind option_bind].
  unfold ZIPLIST_HEADER_SIZE, ZIPLIST_END_SIZE.
  set (n := if n1 + n2 <? UINT16_MAX then n1 + n2 else UINT16_MAX).
  set (L := 11 + bsize es1 + (11 + bsize es2) - 10 - 1).
  set (T := 11 + bsize es1 - 1 + (10 + tail_rel es2 - 10)).
  assert (∃ es2' : list zent, ziplistCascadeUpdate junk (header L T n ++ body 0 es1 ++ body 0 es2 ++ [ZIP_END]) (10 + tail_rel es1) =
    Some (zl_bytes (es1 ++ es2') n) ∧ es2'.*2 = es2.*2 ∧ fits 0 (es1 ++ es2')) as (es2' & Hcas & Hsnd & Hfit).
  { destruct es1 as [|[b1 s1] es0 _] using rev_ind.
    - destruct es2 as [|[b2 s2] t].
      + exists []. split; [|done]. unfold ziplistCascadeUpdate. cbn [body app]. rewrite get_bytes by (unfold in_u, L; cbn; lia). done.
      + destruct Hf2 as (Hp2 & Hs2 & Hft). rewrite bsize_cons in *. pose proof (bsize_bounds t).
        destruct (cascade_update t [] b2 0 s2 (esize b2 s2) T n L 10) as (t' & Hc & Hsnd & Hft' & _);
          [done|done|done|unfold L; rewrite ?bsize_cons; cbn [length]; change (bsize []) with 0; lia|unfold L; rewrite ?bsize_cons; cbn [length] in *; change (bsize []) with 0 in *; lia|
           unfold T; change (bsize []) with 0; cbn [length]; lia|done|].
        exists ((b2, s2) :: t'). cbn [body tail_rel app] in *. change (10 + 0) with 10. rewrite <-!(assoc_L (++)). rewrite Hc.
        pose proof (zl_bytes_split [] b2 s2 t' n) as Hz. cbn [app] in Hz. rewrite Hz. split; [done|]. split; [by cbn; rewrite Hsnd|done].
    - rewrite tail_rel_last. rewrite bsize_app, bsize_cons in *. change (bsize []) with 0 in *. apply fits_app in Hf1 as [Hf0 (Hp1 & Hs1 & _)].
      pose proof (esize_bounds b1 s1). pose proof (bsize_bounds es0). pose proof (body_length 0 es0) as Hb0.
      destruct (cascade_update es2 (body 0 es0) b1 (last_size 0 es0) s1 0 T n L (10 + bsize es0)) as (t' & Hc & Hsnd & Hft' & _);
        [done|done|done|unfold L; rewrite ?bsize_app, ?bsize_cons; change (bsize []) with 0; lia|unfold L; rewrite ?bsize_app, ?bsize_cons; change (bsize []) with 0; lia| |lia|].
      { destruct es2 as [|e es2]; [by specialize (Hne eq_refl); destruct es0|]. rewrite (tail_rel_cons b1) by done. unfold T. rewrite ?bsize_app, ?bsize_cons. change (bsize []) with 0. lia. }
      exists t'. rewrite body_app. cbn [body]. rewrite app_nil_r, <-!(assoc_L (++)). rewrite Hc. cbn [app].
      split; [by rewrite zl_bytes_split|]. split; [done|]. by apply fits_app. }
  assert (len_ok n (es1 ++ es2')) as Hn.
  { unfold n. destruct Hn1 as [H1 H1'], Hn2 as [H2 H2']. unfold len_ok, UINT16_MAX in *. rewrite length_app, (snd_eq_length es2 es2' Hsnd).
    destruct (Z.ltb_spec (n1 + n2) 65535); lia. }
  assert (∀ L0 T0 n0, (target ← set_bytes (header L0 T0 n0 ++ body 0 es1 ++ body 0 es2 ++ [ZIP_END]) L;
    target ← set_length target n; target ← set_tail_offset target T; target ← ziplistCascadeUpdate junk target (10 + tail_rel es1); Some (Some target)) =
    Some (Some (zl_bytes (es1 ++ es2') n))) as Hrest.
  { intros L0 T0 n0. rewrite set_bytes_eq. cbn [mbind option_bind]. rewrite set_length_eq. cbn [mbind option_bind]. rewrite set_tail_eq. cbn [mbind option_bind].
    by rewrite Hcas. }
  exists es2', n. split; [|done]. destruct (n2 <=? n1); cbn [fst snd].
  - destruct (merge_append es1 es2 n1 n2) as (L0 & T0 & n0 & Hm). fold L in Hm. apply bind_Some in Hm as (l & -> & Hm). cbn [mbind option_bind]. rewrite Hm. apply Hrest.
  - destruct (merge_prepend es1 es2 n1 n2) as (L0 & T0 & n0 & Hm). fold L in Hm. apply bind_Some in Hm as (tg & -> & Hm). cbn [mbind option_bind].
    apply bind_Some in Hm as (l & -> & Hm). cbn [mbind option_bind]. rewrite Hm. apply Hrest.
Qed.

End Ops.
