(* ===== verification/ZiplistRefine.v ===== *)
(** The ziplist as a list of strings: walking, searching, and the refinement theorem. *)

From stdpp Require Import list numbers strings gmap.
From S2P Require Import Prelude Util SdsText Ziplist ZiplistEntry ZiplistList.

Implicit Types es : list zent.

Definition small es : Prop := bsize es + 11 < 2 ^ 32.

(** An entry in its block. *)
Lemma entry_view es1 b s es2 n :
  fits 0 (es1 ++ (b, s) :: es2) → small (es1 ++ (b, s) :: es2) →
  ∃ X Y, zl_bytes (es1 ++ (b, s) :: es2) n = X ++ prev_bytes b (last_size 0 es1) ++ payload s ++ Y ∧ zlen X = 10 + bsize es1 ∧
    prev_ok b (last_size 0 es1) ∧ zlen s < 2 ^ 32 ∧ in_u 32 (esize b s).
Proof.
  intros [_ (Hp & Hs & _)]%fits_app Hsm. unfold small in Hsm. rewrite bsize_app, bsize_cons in Hsm.
  pose proof (bsize_bounds es1). pose proof (bsize_bounds es2). pose proof (esize_bounds b s).
  rewrite zl_bytes_split. rewrite (assoc_L (++) (header _ _ n)). eexists _, _. split; [done|]. split; [apply header_body_length|]. split; [done|].
  split; [done|]. unfold in_u. lia.
Qed.

(** The byte at a position is the end exactly after the last entry. *)
Lemma peek_entry es1 b s es2 n :
  fits 0 (es1 ++ (b, s) :: es2) → small (es1 ++ (b, s) :: es2) →
  ∃ c, peek (zl_bytes (es1 ++ (b, s) :: es2) n) (10 + bsize es1) = Some c ∧ (c =? ZIP_END) = false.
Proof. intros Hf Hs. destruct (entry_view es1 b s es2 n Hf Hs) as (X & Y & Hz & HX & Hp & _). by eapply entry_first. Qed.

Lemma peek_last es n : peek (zl_bytes es n) (10 + bsize es) = Some ZIP_END.
Proof. apply (end_first _ (header (11 + bsize es) (10 + tail_rel es) n ++ body 0 es)); [unfold zl_bytes; app_solve|by rewrite header_body_length]. Qed.

Lemma raw_length es1 b s es2 n :
  fits 0 (es1 ++ (b, s) :: es2) → small (es1 ++ (b, s) :: es2) →
  zipRawEntryLength (zl_bytes (es1 ++ (b, s) :: es2) n) (10 + bsize es1) = Some (esize b s).
Proof. intros Hf Hs. destruct (entry_view es1 b s es2 n Hf Hs) as (X & Y & -> & HX & Hp & Hl & He). by apply zipRawEntryLength_eq. Qed.

Lemma raw_prevlen es1 b s es2 n :
  fits 0 (es1 ++ (b, s) :: es2) → small (es1 ++ (b, s) :: es2) →
  ZIP_DECODE_PREVLEN (zl_bytes (es1 ++ (b, s) :: es2) n) (10 + bsize es1) = Some (psize b, last_size 0 es1).
Proof. intros Hf Hs. destruct (entry_view es1 b s es2 n Hf Hs) as (X & Y & -> & HX & Hp & Hl & He). by apply decode_prevlen. Qed.

(** ** Reading *)

(** What a reader gets of a string. *)
Definition stored (s : list Z) : list Z + Z := match try_int s with Some v => inr v | None => inl s end.

Lemma payload_data X s Y p :
  p = zlen X + hsize s → zlen s < 2 ^ 32 →
  match try_int s with
  | Some v => zipLoadInteger (X ++ payload s ++ Y) p (encoding_of s) = Some v
  | None => slice (X ++ payload s ++ Y) p (zlen s) = Some s
  end.
Proof.
  intros Hp Hs. unfold payload, hsize, encoding_of in *. destruct (try_int s) as [v|] eqn:Ev.
  - cbn [app]. rewrite (cons_middle _ X), (assoc_L (++) X). apply zipLoadInteger_eq; [rewrite length_app; simpl; lia|]. by apply try_int_Some in Ev as [_ ?].
  - rewrite <-(assoc_L (++)), (assoc_L (++) X). apply slice_app; [rewrite length_app; lia|done].
Qed.

Lemma get_spec es1 b s es2 n :
  fits 0 (es1 ++ (b, s) :: es2) → small (es1 ++ (b, s) :: es2) →
  ziplistGet (zl_bytes (es1 ++ (b, s) :: es2) n) (Some (10 + bsize es1)) = Some (Some (stored s)).
Proof.
  intros Hf Hs. unfold ziplistGet. destruct (peek_entry es1 b s es2 n Hf Hs) as (c & -> & Hc). cbn [mbind option_bind]. rewrite Hc.
  destruct (entry_view es1 b s es2 n Hf Hs) as (X & Y & -> & HX & Hp & Hl & He). rewrite zipEntry_eq by done.
  cbn [mbind option_bind encoding headersize elen]. rewrite is_str_encoding by done. unfold stored.
  pose proof (payload_data (X ++ prev_bytes b (last_size 0 es1)) s Y (10 + bsize es1 + (psize b + hsize s))) as Hd.
  rewrite <-(assoc_L (++)) in Hd. specialize (Hd ltac:(rewrite length_app, Nat2Z.inj_add, prev_bytes_length; lia) Hl).
  unfold dsize. destruct (try_int s) as [v|]; by rewrite Hd.
Qed.

Lemma try_int_eq s s' v v' : try_int s = Some v → try_int s' = Some v' → (v =? v') = bool_decide (s = s').
Proof.
  intros Hs Hs'. destruct (Z.eqb_spec v v') as [->|Hne].
  - symmetry. apply bool_decide_eq_true. apply try_int_Some in Hs as [Hc _], Hs' as [Hc' _]. by eapply canonical_unique.
  - symmetry. apply bool_decide_eq_false. intros ->. congruence.
Qed.

Lemma compare_spec es1 b s es2 n str :
  fits 0 (es1 ++ (b, s) :: es2) → small (es1 ++ (b, s) :: es2) →
  ziplistCompare (zl_bytes (es1 ++ (b, s) :: es2) n) (10 + bsize es1) str = Some (bool_decide (s = str)).
Proof.
  intros Hf Hs. unfold ziplistCompare. destruct (peek_entry es1 b s es2 n Hf Hs) as (c & -> & Hc). cbn [mbind option_bind]. rewrite Hc.
  destruct (entry_view es1 b s es2 n Hf Hs) as (X & Y & -> & HX & Hp & Hl & He). rewrite zipEntry_eq by done.
  cbn [mbind option_bind encoding headersize elen]. rewrite is_str_encoding by done.
  pose proof (payload_data (X ++ prev_bytes b (last_size 0 es1)) s Y (10 + bsize es1 + (psize b + hsize s))) as Hd.
  rewrite <-(assoc_L (++)) in Hd. specialize (Hd ltac:(rewrite length_app, Nat2Z.inj_add, prev_bytes_length; lia) Hl).
  unfold dsize. destruct (try_int s) as [v|] eqn:Ev.
  - rewrite zipTryEncoding_eq. cbn [mbind option_bind]. destruct (try_int str) as [v'|] eqn:Ev'; cbn.
    + rewrite Hd. cbn. f_equal. by apply try_int_eq.
    + f_equal. symmetry. apply bool_decide_eq_false. intros ->. congruence.
  - destruct (Z.eqb_spec (zlen s) (zlen str)) as [E|E].
    + rewrite <-E, Hd. done.
    + f_equal. symmetry. apply bool_decide_eq_false. intros ->. congruence.
Qed.

(** ** Walking *)

(** The offset of the entry at an index. *)
Definition off es (k : nat) : Z := 10 + bsize (take k es).

Lemma off_app es1 es2 : off (es1 ++ es2) (length es1) = 10 + bsize es1.
Proof. unfold off. by rewrite take_app_length. Qed.

Lemma es_split es k e : es !! k = Some e → ∃ es1 es2, es = es1 ++ e :: es2 ∧ length es1 = k.
Proof.
  intros Hk. exists (take k es), (drop (S k) es). split; [by rewrite take_drop_middle|]. rewrite length_take. apply lookup_lt_Some in Hk. lia.
Qed.

Lemma last_size_pos es b s prev : 0 < last_size prev (es ++ [(b, s)]).
Proof. unfold last_size. rewrite foldl_app. cbn. pose proof (esize_bounds b s). lia. Qed.

Lemma forward_spec es2 : ∀ fuel es1 n index,
  fits 0 (es1 ++ es2) → small (es1 ++ es2) → (length es2 < fuel)%nat → 0 ≤ index →
  forward_loop fuel (zl_bytes (es1 ++ es2) n) (10 + bsize es1) index =
    if index <? zlen es2 then Some (off (es1 ++ es2) (length es1 + Z.to_nat index), -1)
    else Some (10 + bsize (es1 ++ es2), index - zlen es2).
Proof.
  induction es2 as [|[b s] es2 IH]; intros fuel es1 n index Hf Hs Hfuel Hi; (destruct fuel as [|fuel]; [simpl in Hfuel; lia|]); cbn [forward_loop length] in *.
  - rewrite app_nil_r. rewrite peek_last. cbn [mbind option_bind]. rewrite Z.eqb_refl. cbn [negb]. rewrite (proj2 (Z.ltb_ge _ _)) by done. do 2 f_equal. lia.
  - destruct (peek_entry es1 b s es2 n Hf Hs) as (c & -> & Hc). cbn [mbind option_bind]. rewrite Hc. cbn [negb].
    destruct (Z.eqb_spec index 0) as [->|Hne].
    + rewrite (proj2 (Z.ltb_lt _ _)) by lia. do 2 f_equal. rewrite <-(off_app es1 ((b, s) :: es2)). f_equal. lia.
    + rewrite raw_length by done. cbn [mbind option_bind]. rewrite (cons_middle _ es1), (assoc_L (++)) in *.
      replace (10 + bsize es1 + esize b s) with (10 + bsize (es1 ++ [(b, s)])) by (rewrite bsize_app, bsize_cons; change (bsize []) with 0; lia).
      rewrite IH by (done || lia). rewrite length_app. cbn [length].
      destruct (Z.ltb_spec (index - 1) (zlen es2)), (Z.ltb_spec index (Z.of_nat (S (length es2)))); try lia; do 2 f_equal; try lia.
      f_equal. lia.
Qed.

Lemma back_spec es1 : ∀ fuel b s es2 n index,
  fits 0 (es1 ++ (b, s) :: es2) → small (es1 ++ (b, s) :: es2) → (length es1 < fuel)%nat → 0 ≤ index →
  back_loop fuel (zl_bytes (es1 ++ (b, s) :: es2) n) (10 + bsize es1) (last_size 0 es1) index =
    if index <? zlen es1 then Some (off (es1 ++ (b, s) :: es2) (length es1 - Z.to_nat index), -1) else Some (10, index - zlen es1).
Proof.
  induction es1 as [|[b1 s1] es1 IH] using rev_ind; intros fuel b s es2 n index Hf Hs Hfuel Hi; (destruct fuel as [|fuel]; [simpl in Hfuel; lia|]); cbn [back_loop].
  - change (last_size 0 []) with 0. cbn [Z.ltb Z.compare length]. rewrite (proj2 (Z.ltb_ge _ _)) by done. do 2 f_equal. lia.
  - pose proof (last_size_pos es1 b1 s1 0). rewrite (proj2 (Z.ltb_lt _ _)) by done. rewrite !length_app in *. cbn [length] in *.
    destruct (Z.eqb_spec index 0) as [->|Hne].
    + rewrite (proj2 (Z.ltb_lt _ _)) by lia. do 2 f_equal. rewrite Nat.sub_0_r. rewrite <-(off_app (es1 ++ [(b1, s1)]) ((b, s) :: es2)), length_app. done.
    + assert (last_size 0 (es1 ++ [(b1, s1)]) = esize b1 s1) as Hls by (unfold last_size; by rewrite foldl_app). rewrite Hls.
      replace (10 + bsize (es1 ++ [(b1, s1)]) - esize b1 s1) with (10 + bsize es1) by (rewrite bsize_app, bsize_cons; change (bsize []) with 0; lia).
      rewrite <-(assoc_L (++)) in *. cbn [app] in *. rewrite raw_prevlen by done. cbn [mbind option_bind]. rewrite IH by (done || lia).
      destruct (Z.ltb_spec (index - 1) (zlen es1)), (Z.ltb_spec index (Z.of_nat (length es1 + 1))); try lia; do 2 f_equal; try lia.
      f_equal. lia.
Qed.

(** The position of an index, counted from the end when it is negative. *)
Definition a_index (len : nat) (index : Z) : option nat :=
  if index <? 0 then (if - index <=? Z.of_nat len then Some (Z.to_nat (Z.of_nat len + index)) else None)
  else if index <? Z.of_nat len then Some (Z.to_nat index) else None.

Lemma zl_bytes_length es n : zlen (zl_bytes es n) = 11 + bsize es.
Proof. unfold zl_bytes. rewrite (assoc_L (++)), length_app, Nat2Z.inj_add, header_body_length. cbn [length]. lia. Qed.

Lemma index_spec es n index :
  fits 0 es → small es → - 2 ^ 31 < index → ziplistIndex (zl_bytes es n) index = Some (off es <$> a_index (length es) index).
Proof.
  intros Hf Hs Hmin. pose proof (bsize_bounds es) as Hbs. pose proof (zl_bytes_length es n) as Hzl. unfold ziplistIndex, a_index.
  assert (∀ k, (k < length es)%nat → ∃ c, peek (zl_bytes es n) (off es k) = Some c ∧ (c =? ZIP_END) = false) as Hpeek.
  { intros k Hk. destruct (lookup_lt_is_Some_2 es k Hk) as [[b s] Hl]. destruct (es_split es k _ Hl) as (es1 & es2 & -> & <-).
    rewrite off_app. by apply peek_entry. }
  destruct (Z.ltb_spec index 0) as [Hneg|Hpos].
  - rewrite (proj2 (Z.eqb_neq index _)) by lia. unfold ZIPLIST_ENTRY_TAIL. cbn [mbind option_bind]. rewrite get_tail_zl by (unfold small in Hs; lia).
    cbn [mbind option_bind]. destruct es as [|[b s] es _] using rev_ind.
    + change (10 + tail_rel []) with (10 + bsize []). rewrite peek_last. cbn [mbind option_bind]. rewrite Z.eqb_refl. cbn [negb mbind option_bind].
      rewrite peek_last. cbn [mbind option_bind]. rewrite Z.eqb_refl. cbn [orb length]. by rewrite (proj2 (Z.leb_gt _ _)) by lia.
    + rewrite tail_rel_last. destruct (peek_entry es b s [] n Hf Hs) as (c & -> & Hc). cbn [mbind option_bind]. rewrite Hc. cbn [negb].
      rewrite raw_prevlen by done. cbn [mbind option_bind]. rewrite length_app in *. cbn [length] in *. rewrite back_spec by (done || lia).
      destruct (Z.ltb_spec (- index - 1) (zlen es)) as [Hlt|Hge]; cbn [mbind option_bind].
      * destruct (Hpeek (length es - Z.to_nat (- index - 1))%nat) as (c2 & -> & Hc2); [lia|]. cbn [mbind option_bind]. rewrite Hc2. cbn [orb Z.ltb Z.compare].
        rewrite (proj2 (Z.leb_le _ _)) by lia. cbn [fmap option_fmap option_map]. do 3 f_equal. lia.
      * destruct (Hpeek 0%nat) as (c2 & Hp2 & Hc2); [lia|]. change (off (es ++ [(b, s)]) 0) with 10 in Hp2. rewrite Hp2. cbn [mbind option_bind]. rewrite Hc2. cbn [orb].
        destruct (Z.ltb_spec 0 (- index - 1 - zlen es)), (Z.leb_spec (- index) (Z.of_nat (length es + 1))); try lia; [done|].
        cbn [fmap option_fmap option_map]. do 2 f_equal. replace (Z.to_nat (Z.of_nat (length es + 1) + index)) with 0%nat by lia. done.
  - unfold ZIPLIST_ENTRY_HEAD, ZIPLIST_HEADER_SIZE. pose proof (forward_spec es (length (zl_bytes es n)) [] n index) as Hfw. cbn [app] in Hfw.
    change (10 + bsize []) with 10 in Hfw. rewrite Hfw by (done || lia). destruct (Z.ltb_spec index (zlen es)); cbn [mbind option_bind].
    + cbn [length Nat.add]. destruct (Hpeek (Z.to_nat index)) as (c2 & -> & Hc2); [lia|]. cbn [mbind option_bind]. rewrite Hc2. done.
    + rewrite peek_last. cbn [mbind option_bind]. rewrite Z.eqb_refl. done.
Qed.

Lemma off_S es1 b s es2 : off (es1 ++ (b, s) :: es2) (S (length es1)) = 10 + bsize es1 + esize b s.
Proof.
  unfold off. rewrite (cons_middle _ es1), (assoc_L (++)), take_app_le, take_ge by (rewrite length_app; simpl; lia).
  rewrite bsize_app, bsize_cons. change (bsize []) with 0. lia.
Qed.

Lemma peek_off es n k :
  fits 0 es → small es → (k ≤ length es)%nat → ∃ c, peek (zl_bytes es n) (off es k) = Some c ∧ (c =? ZIP_END) = bool_decide (k = length es).
Proof.
  intros Hf Hs Hk. destruct (decide (k = length es)) as [->|Hne].
  - exists ZIP_END. unfold off. rewrite take_ge by done. rewrite peek_last, bool_decide_true by done. done.
  - destruct (lookup_lt_is_Some_2 es k) as [[b s] Hl]; [lia|]. destruct (es_split es k _ Hl) as (es1 & es2 & -> & <-). rewrite off_app.
    rewrite bool_decide_false by done. by apply peek_entry.
Qed.

Lemma next_spec es n k :
  fits 0 es → small es → (k ≤ length es)%nat →
  ziplistNext (zl_bytes es n) (off es k) = Some (if decide (S k < length es)%nat then Some (off es (S k)) else None).
Proof.
  intros Hf Hs Hk. unfold ziplistNext. destruct (peek_off es n k Hf Hs Hk) as (c & -> & Hc). cbn [mbind option_bind]. rewrite Hc.
  case_bool_decide as Hend; [by rewrite decide_False by lia|].
  destruct (lookup_lt_is_Some_2 es k) as [[b s] Hl]; [lia|]. destruct (es_split es k _ Hl) as (es1 & es2 & -> & <-).
  rewrite off_app, raw_length by done. cbn [mbind option_bind]. rewrite <-off_S with (es2 := es2).
  destruct (peek_off (es1 ++ (b, s) :: es2) n (S (length es1)) Hf Hs) as (c2 & -> & Hc2); [rewrite length_app; simpl; lia|]. cbn [mbind option_bind]. rewrite Hc2.
  case_bool_decide as He; [rewrite decide_False by lia|rewrite decide_True by (rewrite length_app in *; simpl in *; lia)]; done.
Qed.

Lemma prev_spec es n k :
  fits 0 es → small es → (k ≤ length es)%nat →
  ziplistPrev (zl_bytes es n) (off es k) = Some (match k with O => None | S k => Some (off es k) end).
Proof.
  intros Hf Hs Hk. unfold ziplistPrev. destruct (peek_off es n k Hf Hs Hk) as (c & -> & Hc). cbn [mbind option_bind]. rewrite Hc.
  case_bool_decide as Hend.
  - subst k. unfold ZIPLIST_ENTRY_TAIL. rewrite get_tail_zl by (unfold small in Hs; lia). cbn [mbind option_bind]. destruct es as [|[b s] es _] using rev_ind.
    + by rewrite (peek_last []).
    + rewrite tail_rel_last, length_app, Nat.add_1_r. destruct (peek_entry es b s [] n Hf Hs) as (c2 & -> & Hc2). cbn [mbind option_bind].
      by rewrite Hc2, off_app.
  - destruct (lookup_lt_is_Some_2 es k) as [[b s] Hl]; [lia|]. destruct (es_split es k _ Hl) as (es1 & es2 & -> & <-). rewrite off_app.
    unfold ZIPLIST_ENTRY_HEAD, ZIPLIST_HEADER_SIZE. destruct es1 as [|[b1 s1] es1 _] using rev_ind; [done|].
    pose proof (last_size_pos es1 b1 s1 0) as Hpos. pose proof (bsize_bounds (es1 ++ [(b1, s1)])) as Hb. rewrite length_app in Hb. cbn [length] in Hb.
    rewrite (proj2 (Z.eqb_neq _ _)) by lia. rewrite raw_prevlen by done. cbn [mbind option_bind]. rewrite (proj2 (Z.ltb_lt _ _)) by done.
    rewrite length_app, Nat.add_1_r. do 2 f_equal. rewrite <-(assoc_L (++)). cbn [app]. rewrite off_app.
    assert (last_size 0 (es1 ++ [(b1, s1)]) = esize b1 s1) as -> by (unfold last_size; by rewrite foldl_app).
    rewrite bsize_app, bsize_cons. change (bsize []) with 0. lia.
Qed.

(** ** Length *)

Lemma count_spec es2 : ∀ fuel es1 n len,
  fits 0 (es1 ++ es2) → small (es1 ++ es2) → (length es2 < fuel)%nat → 0 ≤ len → len + zlen es2 < 2 ^ 32 →
  count_loop fuel (zl_bytes (es1 ++ es2) n) (10 + bsize es1) len = Some (len + zlen es2).
Proof.
  induction es2 as [|[b s] es2 IH]; intros fuel es1 n len Hf Hs Hfuel Hl Hb; (destruct fuel as [|fuel]; [simpl in Hfuel; lia|]); cbn [count_loop length] in *.
  - rewrite app_nil_r, peek_last. cbn [mbind option_bind]. rewrite Z.eqb_refl. f_equal. lia.
  - destruct (peek_entry es1 b s es2 n Hf Hs) as (c & -> & Hc). cbn [mbind option_bind]. rewrite Hc. rewrite raw_length by done. cbn [mbind option_bind].
    rewrite (cons_middle _ es1), (assoc_L (++)) in *. rewrite wrap_u_small by (unfold in_u; lia).
    replace (10 + bsize es1 + esize b s) with (10 + bsize (es1 ++ [(b, s)])) by (rewrite bsize_app, bsize_cons; change (bsize []) with 0; lia).
    rewrite IH by (done || lia). f_equal. lia.
Qed.

Lemma len_spec es n :
  fits 0 es → small es → len_ok n es → ∃ n', ziplistLen (zl_bytes es n) = Some (zl_bytes es n', zlen es) ∧ len_ok n' es.
Proof.
  intros Hf Hs Hn. pose proof (bsize_bounds es) as Hb. unfold small in Hs. unfold ziplistLen. rewrite get_length_zl by done. cbn [mbind option_bind]. destruct Hn as [Hn Hex].
  destruct (Z.ltb_spec n UINT16_MAX) as [Hlt|Hge].
  { exists n. split; [do 2 f_equal; by apply Hex|done]. }
  pose proof (count_spec es (length (zl_bytes es n)) [] n 0 Hf Hs) as Hc. change (10 + bsize []) with 10 in Hc. cbn [app] in Hc. unfold ZIPLIST_HEADER_SIZE.
  rewrite Hc; [|pose proof (zl_bytes_length es n); lia|done|lia]. cbn [mbind option_bind]. destruct (Z.ltb_spec (0 + zlen es) UINT16_MAX).
  - exists (zlen es). unfold zl_bytes. rewrite set_length_eq. cbn [mbind option_bind]. split; [by rewrite Z.add_0_l|]. unfold len_ok. lia.
  - exists n. split; [done|]. unfold len_ok. lia.
Qed.

(** ** Searching *)

(** The first entry, of every [skip + 1]th one, that is the string. *)
Fixpoint a_find (l : list (list Z)) (str : list Z) (skip cnt : Z) (pos : nat) : option nat :=
  match l with
  | [] => None
  | s :: l =>
      if cnt =? 0 then if bool_decide (s = str) then Some pos else a_find l str skip skip (S pos)
      else a_find l str skip (cnt - 1) (S pos)
  end.

Lemma entry_parts es1 b s es2 n :
  fits 0 (es1 ++ (b, s) :: es2) → small (es1 ++ (b, s) :: es2) →
  let zl := zl_bytes (es1 ++ (b, s) :: es2) n in
  let p := 10 + bsize es1 in
  ZIP_DECODE_PREVLENSIZE zl p = Some (psize b) ∧
  ZIP_DECODE_LENGTH zl (p + psize b) = Some (encoding_of s, hsize s, dsize s) ∧
  match try_int s with
  | Some v => zipLoadInteger zl (p + psize b + hsize s) (encoding_of s) = Some v
  | None => slice zl (p + psize b + hsize s) (zlen s) = Some s
  end ∧ zlen s < 2 ^ 32.
Proof.
  intros Hf Hs. cbv zeta. destruct (entry_view es1 b s es2 n Hf Hs) as (X & Y & -> & HX & Hp & Hl & He).
  assert (zlen (X ++ prev_bytes b (last_size 0 es1)) = 10 + bsize es1 + psize b) as HX2 by (rewrite length_app, Nat2Z.inj_add, prev_bytes_length; lia).
  split; [by apply decode_prevlensize|]. rewrite (assoc_L (++) X). split; [by apply decode_length|]. split; [|done]. apply payload_data; [lia|done].
Qed.

(** What the loop remembers about the string. *)
Definition tried (str : list Z) (vencoding vll : Z) : Prop :=
  vencoding = 0 ∨ match try_int str with Some v => vencoding = int_encoding v ∧ vll = v | None => vencoding = 255 end.

Lemma find_spec es2 : ∀ fuel es1 n str skip cnt venc vll,
  fits 0 (es1 ++ es2) → small (es1 ++ es2) → (length es2 < fuel)%nat → in_s 32 skip → tried str venc vll →
  find_loop fuel (zl_bytes (es1 ++ es2) n) (10 + bsize es1) str skip cnt venc vll =
    Some (off (es1 ++ es2) <$> a_find es2.*2 str skip cnt (length es1)).
Proof.
  induction es2 as [|[b s] es2 IH]; intros fuel es1 n str skip cnt venc vll Hf Hs Hfuel Hsk Htr; (destruct fuel as [|fuel]; [simpl in Hfuel; lia|]).
  { cbn [find_loop]. rewrite app_nil_r, peek_last. done. }
  cbn [find_loop length] in *. destruct (peek_entry es1 b s es2 n Hf Hs) as (c & -> & Hc). cbn [mbind option_bind]. rewrite Hc.
  assert (∀ cnt venc vll, tried str venc vll →
    find_loop fuel (zl_bytes (es1 ++ (b, s) :: es2) n) (10 + bsize es1 + psize b + hsize s + dsize s) str skip cnt venc vll =
      Some (off (es1 ++ (b, s) :: es2) <$> a_find es2.*2 str skip cnt (S (length es1)))) as Hrec.
  { intros cnt' venc' vll' Htr'. replace (10 + bsize es1 + psize b + hsize s + dsize s) with (10 + bsize (es1 ++ [(b, s)]))
      by (rewrite bsize_app, bsize_cons, <-rawlen_eq; change (bsize []) with 0; lia).
    rewrite (cons_middle _ es1), (assoc_L (++)) in *. rewrite IH by (done || lia). by rewrite length_app, Nat.add_1_r. }
  destruct (entry_parts es1 b s es2 n Hf Hs) as (E1 & E2 & E3 & Hl). rewrite E1. cbn [mbind option_bind]. rewrite E2. cbn [mbind option_bind].
  cbn [fmap list_fmap a_find snd]. rewrite is_str_encoding by done. destruct (Z.eqb_spec cnt 0) as [->|Hcnt]; [|by apply Hrec].
  rewrite (wrap_s_small 32 skip) by (lia || done). unfold dsize in *. destruct (try_int s) as [v|] eqn:Ev.
  - destruct (int_encoding_range v) as [Hr _].
    assert (∃ venc' vll', (if venc =? 0
        then r ← zipTryEncoding str; let '(vll, vencoding) := default (vll, 255) r in if vencoding =? 0 then None else Some (vencoding, vll)
        else Some (venc, vll)) = Some (venc', vll') ∧ venc' ≠ 0 ∧ tried str venc' vll') as (venc' & vll' & -> & Hne & Htr').
    { destruct (Z.eqb_spec venc 0) as [->|Hv0]; [|by exists venc, vll]. rewrite zipTryEncoding_eq. cbn [mbind option_bind].
      unfold tried. destruct (try_int str) as [v'|]; cbn.
      - destruct (int_encoding_range v') as [Hr' _]. rewrite (proj2 (Z.eqb_neq _ _)) by lia. eexists _, _. split; [done|]. split; [lia|by right].
      - eexists _, _. split; [done|]. split; [lia|by right]. }
    cbn [mbind option_bind]. destruct Htr' as [->|Htr']; [done|]. destruct (try_int str) as [v'|] eqn:Ev'.
    + destruct Htr' as [-> ->]. destruct (int_encoding_range v') as [Hr' _]. rewrite (proj2 (Z.eqb_neq _ _)) by lia. cbn [negb]. rewrite E3. cbn [mbind option_bind].
      rewrite (try_int_eq s str v v' Ev Ev'). case_bool_decide; [by cbn; rewrite off_app|]. apply Hrec. right. by rewrite Ev'.
    + rewrite Htr', Z.eqb_refl. cbn [negb mbind option_bind]. rewrite bool_decide_false by (intros ->; congruence). apply Hrec. right. by rewrite Ev'.
  - destruct (Z.eqb_spec (zlen s) (zlen str)) as [E|E].
    + rewrite <-E, E3. cbn [mbind option_bind]. case_bool_decide; [by cbn; rewrite off_app|]. by apply Hrec.
    + cbn [mbind option_bind]. rewrite bool_decide_false by (intros ->; congruence). by apply Hrec.
Qed.

(** ** The abstraction *)

(** A bound on the size of a block that holds the strings, whatever their fields are. *)
Definition csize (l : list (list Z)) : Z := 22 + foldr (λ s a, 18 + zlen s + a) 0 l.

Definition zrep (zl : list Z) (l : list (list Z)) : Prop :=
  ∃ es n, zl = zl_bytes es n ∧ es.*2 = l ∧ fits 0 es ∧ len_ok n es ∧ csize l < 2 ^ 32.

Lemma csize_cons s l : csize (s :: l) = 18 + zlen s + csize l.
Proof. unfold csize. simpl. lia. Qed.

Lemma csize_app l1 l2 : csize (l1 ++ l2) = csize l1 + csize l2 - 22.
Proof. induction l1 as [|s l1 IH]; [unfold csize at 2; simpl; lia|]. cbn [app]. rewrite !csize_cons. lia. Qed.

Lemma csize_pos l : 22 ≤ csize l.
Proof. induction l as [|s l IH]; [done|]. rewrite csize_cons. lia. Qed.

Lemma csize_bound es : bsize es + 4 * zlen es + 22 ≤ csize es.*2.
Proof.
  induction es as [|[b s] es IH]; [done|]. change (((b, s) :: es).*2) with (s :: es.*2). rewrite csize_cons, bsize_cons. cbn [length].
  pose proof (esize_bounds b s). lia.
Qed.

Lemma csize_small es : csize es.*2 < 2 ^ 32 → small es.
Proof. intros H. pose proof (csize_bound es). unfold small. lia. Qed.

Lemma csize_sub l1 d l2 : csize (l1 ++ l2) ≤ csize (l1 ++ d ++ l2).
Proof. rewrite !csize_app. pose proof (csize_pos d). lia. Qed.

Lemma fits_lengths prev es : fits prev es → ∀ s, s ∈ es.*2 → zlen s < 2 ^ 32.
Proof.
  revert prev. induction es as [|[b s] es IH]; intros prev Hf s' Hs; [by apply elem_of_nil in Hs|]. destruct Hf as (_ & Hl & Hf).
  cbn in Hs. apply elem_of_cons in Hs as [->|Hs]; [done|]. by eapply IH.
Qed.

Section Machine.

Context (junk : nat → Z).

Lemma zrep_new : ∃ zl, ziplistNew junk = Some zl ∧ zrep zl [].
Proof. exists (zl_bytes [] 0). split; [by vm_compute|]. exists [], 0. by split_and!. Qed.

Lemma zrep_push zl l s where_ :
  zrep zl l → csize (s :: l) < 2 ^ 32 →
  ∃ zl', ziplistPush junk zl s where_ = Some zl' ∧ zrep zl' (if where_ =? ZIPLIST_HEAD then s :: l else l ++ [s]).
Proof.
  intros (es & n & -> & <- & Hf & Hn & Hc) Hs. rewrite csize_cons in Hs. pose proof (csize_bound es). pose proof (bsize_bounds es). unfold ziplistPush.
  assert (zlen s < 2 ^ 32) as Hsl by (pose proof (csize_pos es.*2); lia).
  destruct (Z.eqb_spec where_ ZIPLIST_HEAD) as [->|_].
  - cbn [mbind option_bind]. destruct es as [|[b2 s2] t].
    + destruct (insert_end junk [] n s Hf Hsl) as (n' & Hi & Hn'); [cbn; lia|done|]. exists (zl_bytes [(false, s)] n'). split; [done|].
      eexists _, _. split_and!; [done|done|split; [done|done]|done|]. cbn [fmap list_fmap] in *. rewrite csize_cons. lia.
    + rewrite bsize_cons in *. destruct (insert_mid junk [] b2 s2 t n s Hf Hsl) as (es2 & n' & Hi & Hsnd & Hf' & Hn'); [cbn [app]; rewrite bsize_cons; cbn [length] in *; lia|done|].
      eexists. split; [exact Hi|]. eexists _, _. split_and!; [done| |done|done|].
      * cbn [app fmap list_fmap snd]. by f_equal.
      * cbn [fmap list_fmap snd] in *. rewrite !csize_cons in *. lia.
  - unfold ZIPLIST_ENTRY_END. rewrite get_bytes_zl by lia. cbn [mbind option_bind]. replace (11 + bsize es - 1) with (10 + bsize es) by lia.
    destruct (insert_end junk es n s Hf Hsl) as (n' & -> & Hn'); [lia|done|]. eexists. split; [done|]. eexists _, _. split_and!; [done|by rewrite fmap_app| |done|].
    + apply fits_app. split; [done|]. split; [|done]. apply big_ok, last_size_range; [lia|unfold in_u; lia].
    + rewrite csize_app. unfold csize at 2. simpl. lia.
Qed.

(** The pointer to the entry at an index. *)
Definition points (zl : list Z) (l : list (list Z)) (k : nat) (p : Z) : Prop :=
  ∃ es n, zl = zl_bytes es n ∧ es.*2 = l ∧ fits 0 es ∧ len_ok n es ∧ csize l < 2 ^ 32 ∧ (k ≤ length es)%nat ∧ p = off es k.

Lemma points_split zl l k p :
  points zl l k p → ∃ es1 es2 n, zl = zl_bytes (es1 ++ es2) n ∧ l = es1.*2 ++ es2.*2 ∧ fits 0 (es1 ++ es2) ∧ len_ok n (es1 ++ es2) ∧
    csize (es1.*2 ++ es2.*2) < 2 ^ 32 ∧ k = length es1.*2 ∧ p = 10 + bsize es1.
Proof.
  intros (es & n & -> & <- & Hf & Hn & Hc & Hk & ->). exists (take k es), (drop k es), n. rewrite <-fmap_app, take_drop. split_and!; try done.
  rewrite length_fmap, length_take. lia.
Qed.

Lemma points_intro es1 es2 n l k p :
  fits 0 (es1 ++ es2) → len_ok n (es1 ++ es2) → es1.*2 ++ es2.*2 = l → csize l < 2 ^ 32 → k = length es1.*2 → p = 10 + bsize es1 →
  points (zl_bytes (es1 ++ es2) n) l k p.
Proof.
  intros Hf Hn <- Hc -> ->. exists (es1 ++ es2), n. rewrite fmap_app, length_fmap, off_app, length_app. split_and!; (done || lia).
Qed.

Lemma points_zrep zl l k p : points zl l k p → zrep zl l.
Proof. intros (es & n & H1 & H2 & H3 & H4 & H5 & _). by exists es, n. Qed.

(** A new entry is where the pointer was. *)
Lemma points_insert zl l k p s :
  points zl l k p → csize (s :: l) < 2 ^ 32 → ∃ zl', ziplistInsert junk zl p s = Some zl' ∧ points zl' (take k l ++ s :: drop k l) k p.
Proof.
  intros (es1 & es2 & n & -> & -> & Hf & Hn & Hc & -> & ->)%points_split Hs. rewrite csize_cons in Hs.
  assert (zlen s < 2 ^ 32) as Hsl by (pose proof (csize_pos (es1.*2 ++ es2.*2)); lia).
  pose proof (csize_bound (es1 ++ es2)) as Hcb. rewrite fmap_app, bsize_app, length_app in Hcb. rewrite take_app_length, drop_app_length.
  pose proof (bsize_bounds es1). pose proof (bsize_bounds es2).
  assert (csize (es1.*2 ++ s :: es2.*2) < 2 ^ 32) as Hc' by (rewrite csize_app in *; rewrite csize_cons; lia).
  destruct es2 as [|[b2 s2] t].
  - rewrite app_nil_r in *. destruct (insert_end junk es1 n s Hf Hsl) as (n' & -> & Hn'); [cbn in *; lia|done|]. eexists. split; [done|]. apply points_intro; [|done|done|done|done|done].
    apply fits_app. split; [done|]. split; [|done]. apply big_ok, last_size_range; [cbn in *; lia|unfold in_u; lia].
  - destruct (insert_mid junk es1 b2 s2 t n s Hf Hsl) as (es3 & n' & -> & Hsnd & Hf' & Hn'); [rewrite bsize_app; cbn [length] in *; lia|done|].
    eexists. split; [done|]. apply points_intro; try done. cbn [fmap list_fmap snd]. by rewrite <-Hsnd.
Qed.

Lemma zrep_insert zl l k p s :
  points zl l k p → csize (s :: l) < 2 ^ 32 → ∃ zl', ziplistInsert junk zl p s = Some zl' ∧ zrep zl' (take k l ++ s :: drop k l).
Proof. intros Hp Hs. destruct (points_insert zl l k p s Hp Hs) as (zl' & E & Hp'). exists zl'. split; [done|]. by eapply points_zrep. Qed.

(** Nothing is deleted. *)
Lemma delete_none es1 b s t n :
  fits 0 (es1 ++ (b, s) :: t) → small (es1 ++ (b, s) :: t) →
  ziplistDelete_ junk (zl_bytes (es1 ++ (b, s) :: t) n) (10 + bsize es1) 0 = Some (zl_bytes (es1 ++ (b, s) :: t) n).
Proof.
  intros Hf Hs. unfold ziplistDelete_. destruct (entry_view es1 b s t n Hf Hs) as (X & Y & -> & HX & Hp & Hl & He).
  rewrite zipEntry_eq by done. cbn [mbind option_bind ep skip_entries].
  destruct (prev_first b (last_size 0 es1) X (payload s ++ Y) (10 + bsize es1)) as (c & -> & _ & _); [done|done|].
  cbn [mbind option_bind Z.ltb Z.compare]. rewrite andb_false_r. cbn [mbind option_bind]. by rewrite Z.sub_diag.
Qed.

Lemma zrep_delete zl l k p num :
  points zl l k p → (k < length l)%nat → 0 ≤ num →
  ∃ zl', ziplistDelete_ junk zl p num = Some zl' ∧ points zl' (take k l ++ drop (k + Z.to_nat num) l) k p.
Proof.
  intros (es1 & es & n & -> & -> & Hf & Hn & Hc & -> & ->)%points_split Hkl Hnum. rewrite length_app in Hkl.
  rewrite <-drop_drop, take_app_length, drop_app_length.
  assert (∃ d es2, es = d ++ es2 ∧ (es2 = [] ∧ zlen d ≤ num ∨ zlen d = num)) as (d & es2 & -> & Hd).
  { exists (take (Z.to_nat num) es), (drop (Z.to_nat num) es). rewrite take_drop. split; [done|]. rewrite length_take.
    destruct (decide (length es ≤ Z.to_nat num)%nat); [left; split; [by apply drop_ge|lia]|right; lia]. }
  assert (drop (Z.to_nat num) (d ++ es2).*2 = es2.*2) as ->.
  { rewrite fmap_app. destruct Hd as [[-> Hd]|Hd]; [rewrite app_nil_r, drop_ge; [done|rewrite length_fmap; lia]|].
    rewrite drop_app_ge, length_fmap by (rewrite length_fmap; lia). by replace (Z.to_nat num - length d)%nat with 0%nat by lia. }
  pose proof (csize_bound (es1 ++ d ++ es2)) as Hcb. rewrite !fmap_app, !length_app in Hcb. rewrite fmap_app in Hc.
  assert (csize (es1.*2 ++ es2.*2) < 2 ^ 32) as Hc2 by (pose proof (csize_sub es1.*2 d.*2 es2.*2); lia).
  destruct (decide (num = 0)) as [->|Hn0].
  - assert (d = []) as -> by (destruct d; [done|]; destruct Hd as [[_ Hd]|Hd]; simpl in Hd; lia). cbn [app] in *.
    destruct es2 as [|[b2 s2] t]; [cbn in Hkl; lia|]. rewrite delete_none; [|done|by apply csize_small; rewrite fmap_app].
    eexists. split; [done|]. by apply points_intro.
  - assert (d ≠ []) as Hne. { intros ->. destruct Hd as [[-> _]|Hd]; cbn in *; lia. }
    destruct es2 as [|[b2 s2] t].
    + rewrite !app_nil_r in *. destruct (delete_tail junk es1 d n num Hne Hf) as (n' & -> & Hn'); [cbn [length] in *; lia|destruct Hd as [[_ Hd]|Hd]; lia|done|].
      eexists. split; [done|].
      rewrite <-(app_nil_r es1) at 1. apply points_intro; rewrite ?app_nil_r; try done. by apply fits_app in Hf as [? _].
    + destruct Hd as [[Hd _]|<-]; [done|]. destruct (delete_mid junk es1 d b2 s2 t n Hne Hf) as (es3 & n' & -> & Hsnd & Hf' & Hn'); [cbn [length] in *; lia|done|].
      eexists. split; [done|]. apply points_intro; try done. by rewrite Hsnd.
Qed.

(** ** What a reader gets *)

Lemma points_get zl l k p : points zl l k p → ziplistGet zl (Some p) = Some (stored <$> l !! k).
Proof.
  intros (es & n & -> & <- & Hf & Hn & Hc & Hk & ->). rewrite list_lookup_fmap. destruct (es !! k) as [[b s]|] eqn:E; cbn [fmap option_fmap option_map snd].
  - destruct (es_split es k _ E) as (es1 & es2 & -> & <-). rewrite off_app. apply get_spec; [done|]. by apply csize_small.
  - apply lookup_ge_None in E. replace k with (length es) by lia. unfold off. rewrite take_ge by done. unfold ziplistGet. by rewrite peek_last.
Qed.

Lemma points_compare zl l k p s str : points zl l k p → l !! k = Some s → ziplistCompare zl p str = Some (bool_decide (s = str)).
Proof.
  intros (es & n & -> & <- & Hf & Hn & Hc & Hk & ->) Hl. rewrite list_lookup_fmap in Hl. destruct (es !! k) as [[b s']|] eqn:E; [|done]. injection Hl as <-.
  destruct (es_split es k _ E) as (es1 & es2 & -> & <-). rewrite off_app. apply compare_spec; [done|]. by apply csize_small.
Qed.

Lemma points_next zl l k p :
  points zl l k p → ∃ q, ziplistNext zl p = Some q ∧
    match q with Some q => (S k < length l)%nat ∧ points zl l (S k) q | None => l !! S k = None end.
Proof.
  intros (es & n & -> & <- & Hf & Hn & Hc & Hk & ->). rewrite next_spec by (done || by apply csize_small). eexists. split; [done|]. case_decide.
  - split; [by rewrite length_fmap|]. exists es, n. split_and!; (done || lia).
  - apply lookup_ge_None. rewrite length_fmap. lia.
Qed.

Lemma points_prev zl l k p :
  points zl l k p → ∃ q, ziplistPrev zl p = Some q ∧ match q with Some q => ∃ j, k = S j ∧ points zl l j q | None => k = 0%nat end.
Proof.
  intros (es & n & -> & <- & Hf & Hn & Hc & Hk & ->). rewrite prev_spec by (done || by apply csize_small). eexists. split; [done|]. destruct k as [|j]; [done|].
  exists j. split; [done|]. exists es, n. split_and!; (done || lia).
Qed.

Lemma zrep_index zl l index :
  zrep zl l → - 2 ^ 31 < index → ∃ q, ziplistIndex zl index = Some q ∧
    match q with Some q => ∃ k, a_index (length l) index = Some k ∧ (k < length l)%nat ∧ points zl l k q | None => a_index (length l) index = None end.
Proof.
  intros (es & n & -> & <- & Hf & Hn & Hc) Hmin. rewrite index_spec by (done || by apply csize_small). eexists. split; [done|]. rewrite length_fmap.
  destruct (a_index (length es) index) as [k|] eqn:E; cbn; [|done]. exists k. split; [done|].
  assert (k < length es)%nat as Hk. { unfold a_index in E. repeat case_match; simplify_eq; lia. }
  split; [done|]. exists es, n. split_and!; (done || lia).
Qed.

Lemma zrep_find zl l str skip :
  zrep zl l → in_s 32 skip → ∃ q, ziplistFind zl ZIPLIST_ENTRY_HEAD str skip = Some q ∧
    match q with Some q => ∃ k, a_find l str skip 0 0 = Some k ∧ (k < length l)%nat ∧ points zl l k q | None => a_find l str skip 0 0 = None end.
Proof.
  intros (es & n & -> & <- & Hf & Hn & Hc) Hsk. unfold ziplistFind.
  pose proof (find_spec es (length (zl_bytes es n)) [] n str skip 0 0 0 Hf ltac:(by apply csize_small)) as Hfs. cbn [app] in Hfs.
  change (10 + bsize []) with ZIPLIST_ENTRY_HEAD in Hfs. rewrite Hfs; [|pose proof (zl_bytes_length es n); pose proof (bsize_bounds es); lia|done|by left].
  eexists. split; [done|]. cbn [length]. destruct (a_find es.*2 str skip 0 0) as [k|] eqn:E; cbn; [|done]. exists k. split; [done|].
  assert (∀ l cnt pos k, a_find l str skip cnt pos = Some k → (k < pos + length l)%nat) as Hlt.
  { clear. induction l as [|s l IH]; intros cnt pos k; cbn [a_find length]; [done|]. repeat case_match; intros; simplify_eq; try lia; (apply IH in H || apply IH in H0 || apply IH in H1); lia. }
  apply Hlt in E. rewrite length_fmap in *. split; [lia|]. exists es, n. split_and!; (done || lia).
Qed.

Lemma zrep_len zl l : zrep zl l → ∃ zl', ziplistLen zl = Some (zl', zlen l) ∧ zrep zl' l.
Proof.
  intros (es & n & -> & <- & Hf & Hn & Hc). destruct (len_spec es n Hf (csize_small es Hc) Hn) as (n' & -> & Hn'). rewrite length_fmap.
  eexists. split; [done|]. by exists es, n'.
Qed.

Lemma zrep_delete_range z l i num :
  zrep z l → 0 ≤ i → 0 ≤ num → ∃ z', ziplistDeleteRange junk z i num = Some z' ∧ zrep z' (take (Z.to_nat i) l ++ drop (Z.to_nat (i + num)) l).
Proof.
  intros Hz Hi Hnum. unfold ziplistDeleteRange. destruct (zrep_index z l i Hz ltac:(lia)) as ([p|] & -> & Hm); cbn [mbind option_bind].
  - destruct Hm as (k & Ek & Hk & Hp). unfold a_index in Ek. rewrite (proj2 (Z.ltb_ge _ _)) in Ek by lia. destruct (Z.ltb_spec i (zlen l)); [|done]. injection Ek as <-.
    destruct (zrep_delete z l (Z.to_nat i) p num Hp Hk Hnum) as (z' & -> & Hp'). exists z'. split; [done|]. replace (Z.to_nat (i + num)) with (Z.to_nat i + Z.to_nat num)%nat by lia. by eapply points_zrep.
  - unfold a_index in Hm. rewrite (proj2 (Z.ltb_ge _ _)) in Hm by lia. destruct (Z.ltb_spec i (zlen l)); [done|]. exists z. split; [done|]. rewrite take_ge, drop_ge, app_nil_r by lia. done.
Qed.

Lemma zrep_merge zl1 zl2 l1 l2 :
  zrep zl1 l1 → zrep zl2 l2 → (l2 = [] → l1 = []) → csize (l1 ++ l2) < 2 ^ 32 →
  ∃ zl', ziplistMerge junk (Some zl1) (Some zl2) false = Some (Some zl') ∧ zrep zl' (l1 ++ l2).
Proof.
  intros (es1 & n1 & -> & <- & Hf1 & Hn1 & Hc1) (es2 & n2 & -> & <- & Hf2 & Hn2 & Hc2) Hne Hc. rewrite <-fmap_app in Hc.
  pose proof (csize_bound (es1 ++ es2)) as Hcb. rewrite bsize_app, length_app in Hcb.
  destruct (merge_spec junk es1 es2 n1 n2 Hf1 Hf2 Hn1 Hn2) as (es3 & n & -> & Hsnd & Hf & Hn); [|lia|].
  { intros ->. specialize (Hne eq_refl). by destruct es1. }
  eexists. split; [done|]. exists (es1 ++ es3), n. split_and!; [done|by rewrite fmap_app, Hsnd|done|done|by rewrite fmap_app in Hc].
Qed.

End Machine.

(** ** Sequences of operations *)

(** Operations on ziplists that are kept under numbers. *)
Inductive zlop :=
  | ZlNew (i : nat)
  | ZlPush (i : nat) (s : list Z) (where_ : Z)
  | ZlInsert (i : nat) (index : Z) (s : list Z)
  | ZlDelete (i : nat) (index : Z)
  | ZlDeleteRange (i : nat) (index num : Z)
  | ZlMerge (i j : nat)
  | ZlGet (i : nat) (index : Z)
  | ZlNext (i : nat) (index : Z)
  | ZlPrev (i : nat) (index : Z)
  | ZlCompare (i : nat) (index : Z) (s : list Z)
  | ZlFind (i : nat) (s : list Z) (skip : Z)
  | ZlLen (i : nat).

Inductive zlreply := RDone | RNull | RVal (s : option (list Z)) | RBool (b : bool) | RLen (n : Z).

Definition read_at (zl : list Z) (p : option Z) : option zlreply :=
  v ← ziplistGet zl p; match v with Some v => s ← text v; Some (RVal (Some s)) | None => Some (RVal None) end.

Abbreviation heap := (gmap nat (list Z)).

Section Run.

Context (junk : nat → Z).

(** An operation at the entry of an index. *)
Definition at_index (h : heap) (i : nat) (index : Z) (k : list Z → Z → option (heap * zlreply)) : option (heap * zlreply) :=
  zl ← h !! i; p ← ziplistIndex zl index; match p with Some p => k zl p | None => Some (h, RNull) end.

Definition zl_step (h : heap) (op : zlop) : option (heap * zlreply) :=
  match op with
  | ZlNew i => zl ← ziplistNew junk; Some (<[i := zl]> h, RDone)
  | ZlPush i s w => zl ← h !! i; zl ← ziplistPush junk zl s w; Some (<[i := zl]> h, RDone)
  | ZlInsert i index s => at_index h i index (λ zl p, zl ← ziplistInsert junk zl p s; Some (<[i := zl]> h, RDone))
  | ZlDelete i index => at_index h i index (λ zl p,
      '(zl, p) ← ziplistDelete junk zl p; r ← read_at zl (Some p); Some (<[i := zl]> h, r))
  | ZlDeleteRange i index num => zl ← h !! i; zl ← ziplistDeleteRange junk zl index num; Some (<[i := zl]> h, RDone)
  | ZlMerge i j =>
      r ← ziplistMerge junk (h !! i) (h !! j) (bool_decide (i = j));
      Some (match r with Some zl => (<[i := zl]> (delete j h), RDone) | None => (h, RNull) end)
  | ZlGet i index => at_index h i index (λ zl p, r ← read_at zl (Some p); Some (h, r))
  | ZlNext i index => at_index h i index (λ zl p, q ← ziplistNext zl p; r ← read_at zl q; Some (h, r))
  | ZlPrev i index => at_index h i index (λ zl p, q ← ziplistPrev zl p; r ← read_at zl q; Some (h, r))
  | ZlCompare i index s => at_index h i index (λ zl p, b ← ziplistCompare zl p s; Some (h, RBool b))
  | ZlFind i s skip =>
      zl ← h !! i;
      p ← ziplistFind zl ZIPLIST_ENTRY_HEAD s skip;
      match p with Some p => q ← ziplistNext zl p; r ← read_at zl q; Some (h, r) | None => Some (h, RNull) end
  | ZlLen i => zl ← h !! i; '(zl, n) ← ziplistLen zl; Some (<[i := zl]> h, RLen n)
  end.

Fixpoint zl_run (h : heap) (ops : list zlop) : option (heap * list zlreply) :=
  match ops with
  | [] => Some (h, [])
  | op :: ops => '(h, r) ← zl_step h op; '(h, rs) ← zl_run h ops; Some (h, r :: rs)
  end.

End Run.

(** The same operations on lists of strings.  [None]: the caller breaks a rule, that is, uses
    a number without a ziplist, makes a ziplist of 4 GB, passes INT_MIN as an index, or merges
    an empty ziplist into one that is not empty. *)
Abbreviation lists := (gmap nat (list (list Z))).

Definition a_at_index (h : lists) (i : nat) (index : Z) (k : list (list Z) → nat → option (lists * zlreply)) : option (lists * zlreply) :=
  if index <=? - 2 ^ 31 then None
  else l ← h !! i; match a_index (length l) index with Some p => k l p | None => Some (h, RNull) end.

Definition a_step (h : lists) (op : zlop) : option (lists * zlreply) :=
  let limit (l : list (list Z)) (k : option (lists * zlreply)) := if bool_decide (csize l < 2 ^ 32) then k else None in
  match op with
  | ZlNew i => Some (<[i := []]> h, RDone)
  | ZlPush i s w => l ← h !! i; limit (s :: l) (Some (<[i := if w =? ZIPLIST_HEAD then s :: l else l ++ [s]]> h, RDone))
  | ZlInsert i index s => a_at_index h i index (λ l k, limit (s :: l) (Some (<[i := take k l ++ s :: drop k l]> h, RDone)))
  | ZlDelete i index => a_at_index h i index (λ l k, Some (<[i := take k l ++ drop (S k) l]> h, RVal (l !! S k)))
  | ZlDeleteRange i index num =>
      if (index <=? - 2 ^ 31) || (num <? 0) then None
      else
        l ← h !! i;
        Some (<[i := match a_index (length l) index with Some k => take k l ++ drop (k + Z.to_nat num) l | None => l end]> h, RDone)
  | ZlMerge i j =>
      match h !! i, h !! j with
      | Some l1, Some l2 =>
          if bool_decide (i = j) then Some (h, RNull)
          else if bool_decide (l2 = [] ∧ l1 ≠ []) then None
          else limit (l1 ++ l2) (Some (<[i := l1 ++ l2]> (delete j h), RDone))
      | _, _ => Some (h, RNull)
      end
  | ZlGet i index => a_at_index h i index (λ l k, Some (h, RVal (l !! k)))
  | ZlNext i index => a_at_index h i index (λ l k, Some (h, RVal (l !! S k)))
  | ZlPrev i index => a_at_index h i index (λ l k, Some (h, RVal (match k with O => None | S k => l !! k end)))
  | ZlCompare i index s => a_at_index h i index (λ l k, Some (h, RBool (bool_decide (l !! k = Some s))))
  | ZlFind i s skip =>
      if bool_decide (in_s 32 skip) then
        l ← h !! i; Some (h, match a_find l s skip 0 0 with Some k => RVal (l !! S k) | None => RNull end)
      else None
  | ZlLen i => l ← h !! i; Some (h, RLen (zlen l))
  end.

Fixpoint a_run (h : lists) (ops : list zlop) : option (lists * list zlreply) :=
  match ops with
  | [] => Some (h, [])
  | op :: ops => '(h, r) ← a_step h op; '(h, rs) ← a_run h ops; Some (h, r :: rs)
  end.

Definition heap_rep (h : heap) (a : lists) : Prop := ∀ i : nat, option_Forall2 zrep (h !! i) (a !! i).

Lemma text_stored s : text (stored s) = Some s.
Proof.
  unfold stored. destruct (try_int s) as [v|] eqn:E; cbn [text]; [|done]. apply try_int_Some in E as [Hc Hv].
  destruct (sdsll2str_spec v Hv) as (s' & -> & Hc' & _). f_equal. by eapply canonical_unique.
Qed.

Lemma read_points zl l k p : points zl l k p → read_at zl (Some p) = Some (RVal (l !! k)).
Proof.
  intros Hp. unfold read_at. rewrite (points_get zl l k p Hp). cbn [mbind option_bind]. destruct (l !! k) as [s|]; cbn [fmap option_fmap option_map]; [|done].
  by rewrite text_stored.
Qed.

Lemma heap_rep_insert h a i zl l : heap_rep h a → zrep zl l → heap_rep (<[i := zl]> h) (<[i := l]> a).
Proof.
  intros Hh Hz j. destruct (decide (i = j)) as [->|Hne]; [rewrite !lookup_insert_eq; by constructor|rewrite !lookup_insert_ne by done; apply Hh].
Qed.

Lemma heap_rep_delete h a i : heap_rep h a → heap_rep (delete i h) (delete i a).
Proof.
  intros Hh j. destruct (decide (i = j)) as [->|Hne]; [rewrite !lookup_delete_eq; by constructor|rewrite !lookup_delete_ne by done; apply Hh].
Qed.

Lemma heap_rep_lookup h a i l : heap_rep h a → a !! i = Some l → ∃ zl, h !! i = Some zl ∧ zrep zl l.
Proof. intros Hh Ha. specialize (Hh i). rewrite Ha in Hh. inversion Hh; subst. by eexists. Qed.

(** An operation at an index, by cases on whether there is an entry. *)
Lemma at_index_refines h a i index (K : list Z → Z → option (heap * zlreply)) (A : list (list Z) → nat → option (lists * zlreply)) a' r :
  heap_rep h a → a_at_index a i index A = Some (a', r) →
  (∀ zl l k p, (k < length l)%nat → points zl l k p → A l k = Some (a', r) → ∃ h', K zl p = Some (h', r) ∧ heap_rep h' a') →
  ∃ h', at_index h i index K = Some (h', r) ∧ heap_rep h' a'.
Proof.
  intros Hh Ha HK. unfold a_at_index in Ha. destruct (Z.leb_spec index (- 2 ^ 31)) as [|Hi]; [done|]. apply bind_Some in Ha as (l & Hl & Ha).
  destruct (heap_rep_lookup h a i l Hh Hl) as (zl & Hz & Hr). unfold at_index. rewrite Hz. cbn [mbind option_bind].
  destruct (zrep_index zl l index Hr Hi) as (q & -> & Hq). cbn [mbind option_bind]. destruct q as [q|].
  - destruct Hq as (k & Hk & Hlt & Hp). rewrite Hk in Ha. by apply (HK zl l k q).
  - rewrite Hq in Ha. injection Ha as <- <-. by eexists.
Qed.

(** The value after an entry. *)
Lemma read_next zl l k p : points zl l k p → (q ← ziplistNext zl p; read_at zl q) = Some (RVal (l !! S k)).
Proof.
  intros Hp. destruct (points_next zl l k p Hp) as (q & -> & Hq). cbn [mbind option_bind]. destruct q as [q|].
  - destruct Hq as [_ Hq]. by apply read_points.
  - by rewrite Hq.
Qed.

Lemma read_prev zl l k p : points zl l k p → (q ← ziplistPrev zl p; read_at zl q) = Some (RVal (match k with O => None | S k => l !! k end)).
Proof.
  intros Hp. destruct (points_prev zl l k p Hp) as (q & -> & Hq). cbn [mbind option_bind]. destruct q as [q|].
  - destruct Hq as (j & -> & Hq). by apply read_points.
  - by rewrite Hq.
Qed.

Lemma merge_refines junk h a i j a' r :
  heap_rep h a → a_step a (ZlMerge i j) = Some (a', r) → ∃ h', zl_step junk h (ZlMerge i j) = Some (h', r) ∧ heap_rep h' a'.
Proof.
  intros Hh Ha. cbn [a_step zl_step] in *. destruct (a !! i) as [l1|] eqn:H1, (a !! j) as [l2|] eqn:H2.
  - destruct (heap_rep_lookup h a i l1 Hh H1) as (z1 & -> & Hr1). destruct (heap_rep_lookup h a j l2 Hh H2) as (z2 & -> & Hr2).
    destruct (bool_decide (i = j)).
    + injection Ha as <- <-. cbn. by eexists.
    + case_bool_decide as He; [done|]. case_bool_decide as Hc; [|done]. injection Ha as <- <-.
      destruct (zrep_merge junk z1 z2 l1 l2 Hr1 Hr2) as (zl' & -> & Hr'); [|done|].
      { intros ->. destruct l1; [done|]. by destruct He. }
      cbn [mbind option_bind]. eexists. split; [done|]. apply heap_rep_insert; [by apply heap_rep_delete|done].
  - injection Ha as <- <-. pose proof (Hh j) as Hj. rewrite H2 in Hj. inversion Hj. exists h. split; [|done]. by destruct (h !! i).
  - injection Ha as <- <-. pose proof (Hh i) as Hj. rewrite H1 in Hj. inversion Hj. exists h. by split.
  - injection Ha as <- <-. pose proof (Hh i) as Hj. rewrite H1 in Hj. inversion Hj. exists h. by split.
Qed.

(** A step of the lists is a step of the ziplists. *)
Lemma step_refines junk h a op a' r :
  heap_rep h a → a_step a op = Some (a', r) → ∃ h', zl_step junk h op = Some (h', r) ∧ heap_rep h' a'.
Proof.
  intros Hh Ha. destruct op as [i|i s w|i index s|i index|i index num|i j|i index|i index|i index|i index s|i s skip|i]; cbn [a_step zl_step] in *.
  - injection Ha as <- <-. destruct (zrep_new junk) as (zl & -> & Hz). eexists. split; [done|]. by apply heap_rep_insert.
  - apply bind_Some in Ha as (l & Hl & Ha). destruct (heap_rep_lookup h a i l Hh Hl) as (zl & -> & Hr). case_bool_decide as Hc; [|done]. injection Ha as <- <-.
    cbn [mbind option_bind]. destruct (zrep_push junk zl l s w Hr Hc) as (zl' & -> & Hr'). eexists. split; [done|]. by apply heap_rep_insert.
  - eapply at_index_refines; [done|done|]. intros zl l k p Hk Hp HA. cbn beta in HA. case_bool_decide as Hc; [|done]. injection HA as <- <-.
    destruct (zrep_insert junk zl l k p s Hp Hc) as (zl' & -> & Hr'). eexists. split; [done|]. by apply heap_rep_insert.
  - eapply at_index_refines; [done|done|]. intros zl l k p Hk Hp HA. injection HA as <- <-. unfold ziplistDelete.
    destruct (zrep_delete junk zl l k p 1 Hp Hk) as (zl' & -> & Hp'); [lia|]. cbn [mbind option_bind]. change (Z.to_nat 1) with 1%nat in Hp'. rewrite Nat.add_1_r in Hp'.
    rewrite (read_points _ _ _ _ Hp'). cbn [mbind option_bind]. eexists. split; [|apply heap_rep_insert; [done|by eapply points_zrep]].
    do 3 f_equal. rewrite lookup_app_r, length_take, lookup_drop by (rewrite length_take; lia). f_equal. lia.
  - destruct ((index <=? - 2 ^ 31) || (num <? 0)) eqn:Hi; [done|]. apply orb_false_iff in Hi as [Hi%Z.leb_gt Hnum%Z.ltb_ge].
    apply bind_Some in Ha as (l & Hl & Ha). injection Ha as <- <-. destruct (heap_rep_lookup h a i l Hh Hl) as (zl & -> & Hr).
    cbn [mbind option_bind]. unfold ziplistDeleteRange. destruct (zrep_index zl l index Hr Hi) as (q & -> & Hm). cbn [mbind option_bind]. destruct q as [q|].
    + destruct Hm as (k & -> & Hk & Hp). destruct (zrep_delete junk zl l k q num Hp Hk Hnum) as (zl' & -> & Hp'). eexists. split; [done|].
      apply heap_rep_insert; [done|]. by eapply points_zrep.
    + rewrite Hm. eexists. split; [done|]. by apply heap_rep_insert.
  - by apply (merge_refines junk h a).
  - eapply at_index_refines; [done|done|]. intros zl l k p Hk Hp HA. injection HA as <- <-. rewrite (read_points zl l k p Hp). by eexists.
  - eapply at_index_refines; [done|done|]. intros zl l k p Hk Hp HA. injection HA as <- <-. pose proof (read_next zl l k p Hp) as Hn.
    apply bind_Some in Hn as (q & -> & Hn). cbn [mbind option_bind]. rewrite Hn. by eexists.
  - eapply at_index_refines; [done|done|]. intros zl l k p Hk Hp HA. injection HA as <- <-. pose proof (read_prev zl l k p Hp) as Hn.
    apply bind_Some in Hn as (q & -> & Hn). cbn [mbind option_bind]. rewrite Hn. by eexists.
  - eapply at_index_refines; [done|done|]. intros zl l k p Hk Hp HA. injection HA as <- <-. destruct (lookup_lt_is_Some_2 l k Hk) as [s' Hs'].
    rewrite (points_compare zl l k p s' s Hp Hs'). cbn [mbind option_bind]. eexists. split; [|done]. do 3 f_equal. apply bool_decide_ext. rewrite Hs'. split; congruence.
  - case_bool_decide as Hsk; [|done]. apply bind_Some in Ha as (l & Hl & Ha). injection Ha as <- <-. destruct (heap_rep_lookup h a i l Hh Hl) as (zl & -> & Hr).
    cbn [mbind option_bind]. destruct (zrep_find zl l s skip Hr Hsk) as (q & -> & Hm). cbn [mbind option_bind]. destruct q as [q|]; [|rewrite Hm; by eexists].
    destruct Hm as (k & -> & Hk & Hp). pose proof (read_next zl l k q Hp) as Hn.
    apply bind_Some in Hn as (q' & -> & Hn). cbn [mbind option_bind]. rewrite Hn. by eexists.
  - apply bind_Some in Ha as (l & Hl & Ha). injection Ha as <- <-. destruct (heap_rep_lookup h a i l Hh Hl) as (zl & -> & Hr). cbn [mbind option_bind].
    destruct (zrep_len zl l Hr) as (zl' & -> & Hr'). cbn [mbind option_bind]. eexists. split; [done|]. intros j. destruct (decide (i = j)) as [<-|Hne].
    + rewrite lookup_insert_eq, Hl. by constructor.
    + rewrite lookup_insert_ne by done. apply Hh.
Qed.

(** C35: a ziplist is a list of strings.  Any sequence of creations, pushes, insertions,
    deletions, merges, walks, searches and length queries that keeps the rules of the callers
    runs without an access outside of a block, a failed assertion or a loop that does not end,
    and replies what the lists of strings reply: integers and strings come back as the text
    that was stored, in every combination of encodings, field sizes and cascading updates.
    At the end every block holds its own length in its header and still represents its list,
    from which the lengths of the previous entries, the offset of the last entry and the
    number of entries are right. *)
Theorem ziplist_refines_list junk ops (a : gmap nat (list (list Z))) rs :
  a_run ∅ ops = Some (a, rs) →
  ∃ h : gmap nat (list Z), zl_run junk ∅ ops = Some (h, rs) ∧
    ∀ i : nat, option_Forall2 (λ zl l, zrep zl l ∧ ziplistBlobLen zl = Some (zlen zl)) (h !! i) (a !! i).
Proof.
  intros Ha. assert (∀ ops h a0 a rs, heap_rep h a0 → a_run a0 ops = Some (a, rs) → ∃ h', zl_run junk h ops = Some (h', rs) ∧ heap_rep h' a) as Hrun.
  { clear. induction ops as [|op ops IH]; intros h a0 a rs Hh Ha; cbn [a_run zl_run] in *; [injection Ha as <- <-; by exists h|].
    apply bind_Some in Ha as ([a1 r1] & H1 & Ha). apply bind_Some in Ha as ([a2 r2] & H2 & Ha). injection Ha as <- <-.
    destruct (step_refines junk h a0 op a1 r1 Hh H1) as (h1 & -> & Hh1). cbn [mbind option_bind]. destruct (IH h1 a1 a2 r2 Hh1 H2) as (h2 & -> & Hh2). by exists h2. }
  destruct (Hrun ops ∅ ∅ a rs) as (h & Hh & Hrep); [intros i; rewrite !lookup_empty; constructor|done|]. exists h. split; [done|]. intros i.
  specialize (Hrep i). inversion Hrep as [zl l Hz|]; constructor. split; [done|]. destruct Hz as (es & n & -> & <- & _ & _ & Hc).
  unfold ziplistBlobLen. rewrite zl_bytes_length. pose proof (csize_small es Hc). by apply get_bytes_zl.
Qed.

(** Four entries of 253 bytes grow one after the other when a long one is put in front. *)
Definition demo_zl : list zlop :=
  let a := replicate 250 97 in
  [ZlNew 0; ZlPush 0 a 1; ZlPush 0 a 1; ZlPush 0 a 1; ZlPush 0 (str "-129") 1; ZlPush 0 (replicate 300 98) 0; ZlGet 0 (-1); ZlPrev 0 2;
   ZlNew 1; ZlPush 1 (str "7") 0; ZlInsert 1 0 (str "field"); ZlFind 1 (str "field") 1; ZlMerge 1 0; ZlLen 1; ZlNext 1 (-2);
   ZlDeleteRange 1 2 4; ZlDelete 1 (-2); ZlCompare 1 (-1) (str "-129"); ZlGet 1 5].

Lemma ziplist_refines_list_witness :
  ∃ h : gmap nat (list Z), zl_run (λ _, 7) ∅ demo_zl =
    Some (h, [RDone; RDone; RDone; RDone; RDone; RDone; RVal (Some (str "-129")); RVal (Some (replicate 250 97));
      RDone; RDone; RDone; RVal (Some (str "7")); RDone; RLen 7; RVal (Some (str "-129"));
      RDone; RVal (Some (str "-129")); RBool true; RNull]) ∧
    ∀ i : nat, option_Forall2 (λ zl l, zrep zl l ∧ ziplistBlobLen zl = Some (zlen zl)) (h !! i)
      (({[1%nat := [str "field"; str "-129"]]} : gmap nat (list (list Z))) !! i).
Proof. apply ziplist_refines_list. vm_compute. reflexivity. Defined.

(** Merging an empty ziplist into another one leaves the offset of the last entry at the end
    of the list: walking back from there finds nothing. *)
Lemma ziplist_merge_empty :
  ∃ h : gmap nat (list Z), zl_run (λ _, 7) ∅ [ZlNew 0; ZlPush 0 (str "a") 1; ZlNew 1; ZlMerge 0 1; ZlGet 0 0; ZlGet 0 (-1)] =
    Some (h, [RDone; RDone; RDone; RDone; RVal (Some (str "a")); RNull]).
Proof. eexists. vm_compute. reflexivity. Qed.
