(* ===== verification/Listpack.v ===== *)
(** Listpacks (listpack.c): a sequence of strings in one block of memory, each entry followed by its
    length in a form that is read from right to left.

    The block is a list of bytes, a pointer into it is an offset.  A function that may return NULL
    has a result of type [option (option _)]: the outer [None] is an access outside of the block. *)

From stdpp Require Import list numbers strings.
From S2P Require Import Prelude Util SdsText.

(** ** Constants and the header *)

Definition LP_HDR_SIZE : Z := 6.
Definition LP_HDR_NUMELE_UNKNOWN : Z := 65535.
Definition LP_EOF : Z := 255.
Definition LP_INTBUF_SIZE : Z := 21.

Definition LP_ENCODING_7BIT_UINT : Z := 0.
Definition LP_ENCODING_6BIT_STR : Z := 0x80.
Definition LP_ENCODING_13BIT_INT : Z := 0xC0.
Definition LP_ENCODING_12BIT_STR : Z := 0xE0.
Definition LP_ENCODING_16BIT_INT : Z := 0xF1.
Definition LP_ENCODING_24BIT_INT : Z := 0xF2.
Definition LP_ENCODING_32BIT_INT : Z := 0xF3.
Definition LP_ENCODING_64BIT_INT : Z := 0xF4.
Definition LP_ENCODING_32BIT_STR : Z := 0xF0.

Definition LP_ENCODING_IS_7BIT_UINT (b : Z) : bool := Z.land b 0x80 =? LP_ENCODING_7BIT_UINT.
Definition LP_ENCODING_IS_6BIT_STR (b : Z) : bool := Z.land b 0xC0 =? LP_ENCODING_6BIT_STR.
Definition LP_ENCODING_IS_13BIT_INT (b : Z) : bool := Z.land b 0xE0 =? LP_ENCODING_13BIT_INT.
Definition LP_ENCODING_IS_12BIT_STR (b : Z) : bool := Z.land b 0xF0 =? LP_ENCODING_12BIT_STR.
Definition LP_ENCODING_IS_16BIT_INT (b : Z) : bool := Z.land b 0xFF =? LP_ENCODING_16BIT_INT.
Definition LP_ENCODING_IS_24BIT_INT (b : Z) : bool := Z.land b 0xFF =? LP_ENCODING_24BIT_INT.
Definition LP_ENCODING_IS_32BIT_INT (b : Z) : bool := Z.land b 0xFF =? LP_ENCODING_32BIT_INT.
Definition LP_ENCODING_IS_64BIT_INT (b : Z) : bool := Z.land b 0xFF =? LP_ENCODING_64BIT_INT.
Definition LP_ENCODING_IS_32BIT_STR (b : Z) : bool := Z.land b 0xFF =? LP_ENCODING_32BIT_STR.

(** [bs[0]<<shift | bs[1]<<(shift+8) | ...] *)
Fixpoint lor_bytes (bs : list Z) (shift : Z) : Z :=
  match bs with [] => 0 | b :: bs => Z.lor (Z.shiftl b shift) (lor_bytes bs (shift + 8)) end.

(** [v & 0xff, (v >> 8) & 0xff, ...] *)
Fixpoint low_bytes (n : nat) (v : Z) : list Z :=
  match n with O => [] | S n => Z.land v 0xFF :: low_bytes n (Z.shiftr v 8) end.

(** The unsigned integer in [n] bytes at [p]. *)
Definition load_bytes (lp : list Z) (p n : Z) : option Z := bs ← slice lp p n; Some (lor_bytes bs 0).

Definition LP_ENCODING_6BIT_STR_LEN (lp : list Z) (p : Z) : option Z := b ← peek lp p; Some (Z.land b 0x3F).
Definition LP_ENCODING_12BIT_STR_LEN (lp : list Z) (p : Z) : option Z := b0 ← peek lp p; b1 ← peek lp (p + 1); Some (Z.lor (Z.shiftl (Z.land b0 0xF) 8) b1).
Definition LP_ENCODING_32BIT_STR_LEN (lp : list Z) (p : Z) : option Z := load_bytes lp (p + 1) 4.

Definition lpGetTotalBytes (lp : list Z) : option Z := load_bytes lp 0 4.
Definition lpGetNumElements (lp : list Z) : option Z := load_bytes lp 4 2.
Definition lpSetTotalBytes (lp : list Z) (v : Z) : option (list Z) := blit lp 0 (low_bytes 4 v).
Definition lpSetNumElements (lp : list Z) (v : Z) : option (list Z) := blit lp 4 (low_bytes 2 v).

(** ** Entries *)

(** The loop is the one of [string2ll], from which the function was adapted. *)
Definition lpStringToInt64 (s : list Z) (slen : Z) : option (option Z) :=
  if slen =? 0 then Some None
  else
    c0 ← peek s 0;
    if (slen =? 1) && (c0 =? 48) then Some (Some 0)
    else
      let negative := c0 =? 45 in
      let plen := b2z negative in
      if negative && (plen =? slen) then Some None
      else
        c ← peek s plen;
        if (49 <=? c) && (c <=? 57) then
          r ← string2ll_loop (S (Z.to_nat slen)) s slen (plen + 1) (c - 48);
          match r with
          | None => Some None
          | Some (plen, v) =>
              if plen <? slen then Some None
              else if negative then
                if u64 (- (LLONG_MIN + 1)) + 1 <? v then Some None else Some (Some (s64 (u64 (- v))))
              else if LLONG_MAX <? v then Some None
              else Some (Some v)
          end
        else if (c =? 48) && (slen =? 1) then Some (Some 0)
        else Some None.

(** The integer encodings, as the bytes that are written to [intenc]. *)
Definition int_bytes (v : Z) : list Z :=
  if (0 <=? v) && (v <=? 127) then [u8 v]
  else if (-4096 <=? v) && (v <=? 4095) then
    let v := if v <? 0 then Z.shiftl 1 13 + v else v in
    [u8 (Z.lor (Z.shiftr v 8) LP_ENCODING_13BIT_INT); Z.land v 0xFF]
  else if (-32768 <=? v) && (v <=? 32767) then
    let v := if v <? 0 then Z.shiftl 1 16 + v else v in LP_ENCODING_16BIT_INT :: low_bytes 2 v
  else if (-8388608 <=? v) && (v <=? 8388607) then
    let v := if v <? 0 then Z.shiftl 1 24 + v else v in LP_ENCODING_24BIT_INT :: low_bytes 3 v
  else if (-2147483648 <=? v) && (v <=? 2147483647) then
    let v := if v <? 0 then Z.shiftl 1 32 + v else v in LP_ENCODING_32BIT_INT :: low_bytes 4 v
  else LP_ENCODING_64BIT_INT :: low_bytes 8 (u64 v).

(** [Some intenc]: LP_ENCODING_INT.  The length of a string is computed with 32 bits. *)
Definition lpEncodeGetType (ele : list Z) (size : Z) : option (option (list Z) * Z) :=
  v ← lpStringToInt64 ele size;
  Some (match v with
        | Some v => (Some (int_bytes v), zlen (int_bytes v))
        | None => (None, if size <? 64 then u32 (1 + size) else if size <? 4096 then u32 (2 + size) else u32 (5 + size))
        end).

(** The bytes of the length; their number is the result of the function. *)
Definition lpEncodeBacklen (l : Z) : list Z :=
  if l <=? 127 then [u8 l]
  else if l <? 16383 then [u8 (Z.shiftr l 7); Z.lor (Z.land l 127) 128]
  else if l <? 2097151 then [u8 (Z.shiftr l 14); Z.lor (Z.land (Z.shiftr l 7) 127) 128; Z.lor (Z.land l 127) 128]
  else if l <? 268435455 then [u8 (Z.shiftr l 21); Z.lor (Z.land (Z.shiftr l 14) 127) 128; Z.lor (Z.land (Z.shiftr l 7) 127) 128; Z.lor (Z.land l 127) 128]
  else [u8 (Z.shiftr l 28); Z.lor (Z.land (Z.shiftr l 21) 127) 128; Z.lor (Z.land (Z.shiftr l 14) 127) 128; Z.lor (Z.land (Z.shiftr l 7) 127) 128; Z.lor (Z.land l 127) 128].

(** [do ... while(1)]; the shifts are 0, 7, 14, 21 and 28. *)
Fixpoint decode_loop (fuel : nat) (lp : list Z) (p val shift : Z) : option Z :=
  match fuel with
  | O => None
  | S fuel =>
      b ← peek lp p;
      let val := Z.lor val (Z.shiftl (Z.land b 127) shift) in
      if Z.land b 128 =? 0 then Some val
      else if 28 <? shift + 7 then Some ULLONG_MAX
      else decode_loop fuel lp (p - 1) val (shift + 7)
  end.

Definition lpDecodeBacklen (lp : list Z) (p : Z) : option Z := decode_loop 5 lp p 0 0.

(** The bytes before a string. *)
Definition string_header (len : Z) : list Z :=
  if len <? 64 then [u8 (Z.lor len LP_ENCODING_6BIT_STR)]
  else if len <? 4096 then [u8 (Z.lor (Z.shiftr len 8) LP_ENCODING_12BIT_STR); Z.land len 0xFF]
  else LP_ENCODING_32BIT_STR :: low_bytes 4 len.

Definition lpEncodeString (lp : list Z) (p : Z) (s : list Z) (len : Z) : option (list Z) :=
  lp ← blit lp p (string_header len);
  s ← slice s 0 len;
  blit lp (p + zlen (string_header len)) s.

Definition lpCurrentEncodedSize (lp : list Z) (p : Z) : option Z :=
  b ← peek lp p;
  if LP_ENCODING_IS_7BIT_UINT b then Some 1
  else if LP_ENCODING_IS_6BIT_STR b then n ← LP_ENCODING_6BIT_STR_LEN lp p; Some (1 + n)
  else if LP_ENCODING_IS_13BIT_INT b then Some 2
  else if LP_ENCODING_IS_16BIT_INT b then Some 3
  else if LP_ENCODING_IS_24BIT_INT b then Some 4
  else if LP_ENCODING_IS_32BIT_INT b then Some 5
  else if LP_ENCODING_IS_64BIT_INT b then Some 9
  else if LP_ENCODING_IS_12BIT_STR b then n ← LP_ENCODING_12BIT_STR_LEN lp p; Some (2 + n)
  else if LP_ENCODING_IS_32BIT_STR b then n ← LP_ENCODING_32BIT_STR_LEN lp p; Some (u32 (5 + n))
  else if b =? LP_EOF then Some 1
  else Some 0.

(** ** Walking *)

Definition lpSkip (lp : list Z) (p : Z) : option Z := entrylen ← lpCurrentEncodedSize lp p; Some (p + (entrylen + zlen (lpEncodeBacklen entrylen))).

Definition lpNext (lp : list Z) (p : Z) : option (option Z) :=
  p ← lpSkip lp p; b ← peek lp p; Some (if b =? LP_EOF then None else Some p).

Definition lpPrev (lp : list Z) (p : Z) : option (option Z) :=
  if p =? LP_HDR_SIZE then Some None
  else
    let p := p - 1 in
    prevlen ← lpDecodeBacklen lp p;
    let prevlen := u64 (prevlen + zlen (lpEncodeBacklen prevlen)) in
    Some (Some (p - prevlen + 1)).

Definition lpFirst (lp : list Z) : option (option Z) := b ← peek lp LP_HDR_SIZE; Some (if b =? LP_EOF then None else Some LP_HDR_SIZE).

Definition lpLast (lp : list Z) : option (option Z) := n ← lpGetTotalBytes lp; lpPrev lp (n - 1).

(** [while(p)] *)
Fixpoint lp_count (fuel : nat) (lp : list Z) (p : option Z) (count : Z) : option Z :=
  match fuel with
  | O => None
  | S fuel => match p with None => Some count | Some p => q ← lpNext lp p; lp_count fuel lp q (u32 (count + 1)) end
  end.

(** The header is changed when the count fits again. *)
Definition lpLength (lp : list Z) : option (list Z * Z) :=
  numele ← lpGetNumElements lp;
  if negb (numele =? LP_HDR_NUMELE_UNKNOWN) then Some (lp, numele)
  else
    p ← lpFirst lp;
    count ← lp_count (S (length lp)) lp p 0;
    lp ← (if count <? LP_HDR_NUMELE_UNKNOWN then lpSetNumElements lp count else Some lp);
    Some (lp, count).

(** A string inside of the block, or an integer. *)
Inductive lpvalue := LpString (p count : Z) | LpInteger (val : Z).

(** The conversion of the unsigned value. *)
Definition lp_signed (uval negstart negmax : Z) : Z := if negstart <=? uval then s64 (- s64 (u64 (negmax - uval)) - 1) else s64 uval.

(** [lpGet] without a buffer. *)
Definition lpGet (lp : list Z) (p : Z) : option lpvalue :=
  b ← peek lp p;
  if LP_ENCODING_IS_7BIT_UINT b then Some (LpInteger (lp_signed (Z.land b 0x7F) ULLONG_MAX 0))
  else if LP_ENCODING_IS_6BIT_STR b then n ← LP_ENCODING_6BIT_STR_LEN lp p; Some (LpString (p + 1) n)
  else if LP_ENCODING_IS_13BIT_INT b then b1 ← peek lp (p + 1); Some (LpInteger (lp_signed (Z.lor (Z.shiftl (Z.land b 0x1F) 8) b1) (Z.shiftl 1 12) 8191))
  else if LP_ENCODING_IS_16BIT_INT b then n ← load_bytes lp (p + 1) 2; Some (LpInteger (lp_signed n (Z.shiftl 1 15) 65535))
  else if LP_ENCODING_IS_24BIT_INT b then n ← load_bytes lp (p + 1) 3; Some (LpInteger (lp_signed n (Z.shiftl 1 23) (Z.shiftr 4294967295 8)))
  else if LP_ENCODING_IS_32BIT_INT b then n ← load_bytes lp (p + 1) 4; Some (LpInteger (lp_signed n (Z.shiftl 1 31) 4294967295))
  else if LP_ENCODING_IS_64BIT_INT b then n ← load_bytes lp (p + 1) 8; Some (LpInteger (lp_signed n (Z.shiftl 1 63) ULLONG_MAX))
  else if LP_ENCODING_IS_12BIT_STR b then n ← LP_ENCODING_12BIT_STR_LEN lp p; Some (LpString (p + 2) n)
  else if LP_ENCODING_IS_32BIT_STR b then n ← LP_ENCODING_32BIT_STR_LEN lp p; Some (LpString (p + 5) n)
  else Some (LpInteger (lp_signed (12345678900000000 + b) ULLONG_MAX 0)).

(** [lpGet] with a buffer: the text of an integer is printed into it, and must fit with its
    terminator. *)
Definition lpGet_text (lp : list Z) (p : Z) : option (list Z) :=
  v ← lpGet lp p;
  match v with
  | LpString q n => slice lp q n
  | LpInteger val => t ← sdsll2str val; if zlen t <? LP_INTBUF_SIZE then Some t else None
  end.

(** ** Changing a listpack *)

Section Listpack.

Context (junk : nat → Z).

Definition lpNew : option (list Z) :=
  let lp := realloc junk [] (LP_HDR_SIZE + 1) in
  lp ← lpSetTotalBytes lp (LP_HDR_SIZE + 1);
  lp ← lpSetNumElements lp 0;
  poke lp LP_HDR_SIZE LP_EOF.

Inductive lpwhere := LP_BEFORE | LP_AFTER | LP_REPLACE.

(** Makes room for [room] bytes at [poff] in the place of [replaced] bytes: realloc, memmove, realloc. *)
Definition lp_move (lp : list Z) (poff room replaced old new : Z) : option (list Z) :=
  let lp := if old <? new then realloc junk lp new else lp in
  lp ← memmove lp (poff + room) (poff + replaced) (old - poff - replaced);
  Some (if new <? old then realloc junk lp new else lp).

(** [ele = None] deletes.  [Some None]: NULL is returned.  Otherwise the listpack and [newp]. *)
Definition lpInsert (lp : list Z) (ele : option (list Z)) (size p : Z) (where_ : lpwhere) : option (option (list Z * option Z)) :=
  let where_ := match ele with None => LP_REPLACE | Some _ => where_ end in
  '(p, where_) ← (match where_ with LP_AFTER => p ← lpSkip lp p; Some (p, LP_BEFORE) | _ => Some (p, where_) end);
  let poff := p in
  '(intenc, enclen) ← (match ele with Some ele => lpEncodeGetType ele size | None => Some (None, 0) end);
  let backlen := match ele with Some _ => lpEncodeBacklen enclen | None => [] end in
  let backlen_size := zlen backlen in
  old ← lpGetTotalBytes lp;
  replaced_len ← (match where_ with LP_REPLACE => n ← lpCurrentEncodedSize lp p; Some (u32 (n + zlen (lpEncodeBacklen n))) | _ => Some 0 end);
  let new := u64 (old + enclen + backlen_size - replaced_len) in
  if 4294967295 <? new then Some None
  else
    lp ← lp_move lp poff (enclen + backlen_size) replaced_len old new;
    newp ← (match ele with Some _ => Some (Some poff) | None => b ← peek lp poff; Some (if b =? LP_EOF then None else Some poff) end);
    lp ← (match ele with
          | Some ele =>
              lp ← (match intenc with Some bs => blit lp poff bs | None => lpEncodeString lp poff ele size end);
              blit lp (poff + enclen) backlen
          | None => Some lp
          end);
    lp ← (match where_, ele with
          | LP_REPLACE, Some _ => Some lp
          | _, _ =>
              n ← lpGetNumElements lp;
              if negb (n =? LP_HDR_NUMELE_UNKNOWN) then lpSetNumElements lp (match ele with Some _ => n + 1 | None => u32 (n - 1) end) else Some lp
          end);
    lp ← lpSetTotalBytes lp new;
    Some (Some (lp, newp)).

Definition lpAppend (lp ele : list Z) (size : Z) : option (option (list Z)) :=
  n ← lpGetTotalBytes lp;
  r ← lpInsert lp (Some ele) size (n - 1) LP_BEFORE;
  Some (match r with Some (lp, _) => Some lp | None => None end).

Definition lpDelete (lp : list Z) (p : Z) : option (option (list Z * option Z)) := lpInsert lp None 0 p LP_REPLACE.

End Listpack.

Definition lpBytes (lp : list Z) : option Z := lpGetTotalBytes lp.

(** [while (index > 0 && ele)] *)
Fixpoint seek_forward (fuel : nat) (lp : list Z) (ele : option Z) (index : Z) : option (option Z) :=
  match fuel with
  | O => None
  | S fuel =>
      match ele with
      | Some p => if 0 <? index then ele ← lpNext lp p; seek_forward fuel lp ele (index - 1) else Some ele
      | None => Some None
      end
  end.

(** [while (index < -1 && ele)] *)
Fixpoint seek_backward (fuel : nat) (lp : list Z) (ele : option Z) (index : Z) : option (option Z) :=
  match fuel with
  | O => None
  | S fuel =>
      match ele with
      | Some p => if index <? -1 then ele ← lpPrev lp p; seek_backward fuel lp ele (index + 1) else Some ele
      | None => Some None
      end
  end.

Definition lp_scan (lp : list Z) (forward : bool) (index : Z) : option (option Z) :=
  if forward then ele ← lpFirst lp; seek_forward (S (length lp)) lp ele index
  else ele ← lpLast lp; seek_backward (S (length lp)) lp ele index.

Definition lpSeek (lp : list Z) (index : Z) : option (option Z) :=
  numele ← lpGetNumElements lp;
  if negb (numele =? LP_HDR_NUMELE_UNKNOWN) then
    let index := if index <? 0 then numele + index else index in
    if index <? 0 then Some None
    else if numele <=? index then Some None
    else if numele / 2 <? index then lp_scan lp false (index - numele)
    else lp_scan lp true index
  else lp_scan lp (negb (index <? 0)) index.

Section Examples.

Let append (r : option (list Z)) (s : string) : option (list Z) := lp ← r; r ← lpAppend (λ _, 7) lp (str s) (zlen (str s)); r.

Example listpack_ex : append (append (append (lpNew (λ _, 7)) "hello") "-5000") "12" =
  Some [20; 0; 0; 0; 3; 0; 133; 104; 101; 108; 108; 111; 6; 241; 120; 236; 3; 12; 1; 255].
Proof. reflexivity. Qed.

End Examples.
