(* ===== verification/ListpackSpec.v ===== *)
(** Listpacks: which list of strings a block represents, and that every operation acts on it as the
    operation on lists does. *)

From stdpp Require Import list numbers strings.
From S2P Require Import Prelude Util SdsText Listpack.

(** ** Bytes of integers *)

Lemma low_bytes_eq n v : low_bytes n v = le_encode n v.
Proof.
  revert v. induction n as [|n IH]; intros v; [done|]. cbn [low_bytes le_encode]. rewrite IH. f_equal; [apply (Z.land_ones v 8); lia|f_equal; by rewrite Z.shiftr_div_pow2 by lia].
Qed.

Lemma lor_bytes_shift bs k : 0 ≤ k → Forall is_byte bs → lor_bytes bs k = le_decode bs * 2 ^ k.
Proof.
  intros Hk Hb. revert k Hk. induction Hb as [|b bs Hb Hbs IH]; intros k Hk; [done|]. cbn [lor_bytes le_decode]. rewrite IH by lia. rewrite <-(Z.shiftl_mul_pow2 _ (k + 8)) by lia. rewrite <-(Z.shiftl_shiftl _ k 8) by lia. rewrite (Z.shiftl_shiftl _ k 8), (Z.add_comm k 8), <-(Z.shiftl_shiftl _ 8 k) by lia. rewrite <-Z.shiftl_lor. rewrite lor_shift by (unfold is_byte in Hb; lia). rewrite Z.shiftl_mul_pow2 by lia. lia.
Qed.

Lemma load_bytes_spec a n v r : load_bytes (a ++ le_encode n v ++ r) (zlen a) (Z.of_nat n) = Some (v mod 2 ^ (8 * Z.of_nat n)).
Proof.
  unfold load_bytes. rewrite (slice_app a (le_encode n v) r) by (rewrite ?le_encode_length; lia). cbn [mbind option_bind]. f_equal. rewrite lor_bytes_shift by (lia || apply le_encode_bytes). rewrite le_decode_encode. lia.
Qed.

Lemma load_after a t n v r : load_bytes (a ++ t :: le_encode n v ++ r) (zlen a + 1) (Z.of_nat n) = Some (v mod 2 ^ (8 * Z.of_nat n)).
Proof. pose proof (load_bytes_spec (a ++ [t]) n v r) as H. rewrite <-app_assoc in H. rewrite length_app in H. replace (Z.of_nat (length a + length [t])) with (zlen a + 1) in H by (cbn; lia). exact H. Qed.

(** ** The first byte of an entry *)

Lemma class_7 b : 0 ≤ b < 128 → LP_ENCODING_IS_7BIT_UINT b = true ∧ Z.land b 0x7F = b ∧ u8 b = b.
Proof.
  intros Hb. pose proof (check_range (λ b, LP_ENCODING_IS_7BIT_UINT b && (Z.land b 0x7F =? b) && (u8 b =? b)) 128 eq_refl b Hb) as H. cbn beta in H. rewrite !andb_true_iff, !Z.eqb_eq in H. tauto.
Qed.

Lemma class_6 k : 0 ≤ k < 64 → u8 (Z.lor k LP_ENCODING_6BIT_STR) = 128 + k ∧ LP_ENCODING_IS_7BIT_UINT (128 + k) = false ∧ LP_ENCODING_IS_6BIT_STR (128 + k) = true ∧ Z.land (128 + k) 0x3F = k.
Proof.
  intros Hk. pose proof (check_range (λ k, (u8 (Z.lor k LP_ENCODING_6BIT_STR) =? 128 + k) && negb (LP_ENCODING_IS_7BIT_UINT (128 + k)) && LP_ENCODING_IS_6BIT_STR (128 + k) && (Z.land (128 + k) 0x3F =? k)) 64 eq_refl k Hk) as H. cbn beta in H. rewrite !andb_true_iff, !Z.eqb_eq, !negb_true_iff in H. tauto.
Qed.

Lemma class_13 k : 0 ≤ k < 32 → u8 (Z.lor k LP_ENCODING_13BIT_INT) = 192 + k ∧ LP_ENCODING_IS_7BIT_UINT (192 + k) = false ∧ LP_ENCODING_IS_6BIT_STR (192 + k) = false ∧ LP_ENCODING_IS_13BIT_INT (192 + k) = true ∧ Z.land (192 + k) 0x1F = k.
Proof.
  intros Hk. pose proof (check_range (λ k, (u8 (Z.lor k LP_ENCODING_13BIT_INT) =? 192 + k) && negb (LP_ENCODING_IS_7BIT_UINT (192 + k)) && negb (LP_ENCODING_IS_6BIT_STR (192 + k)) && LP_ENCODING_IS_13BIT_INT (192 + k) && (Z.land (192 + k) 0x1F =? k)) 32 eq_refl k Hk) as H. cbn beta in H. rewrite !andb_true_iff, !Z.eqb_eq, !negb_true_iff in H. tauto.
Qed.

Lemma class_12 k : 0 ≤ k < 16 →
  u8 (Z.lor k LP_ENCODING_12BIT_STR) = 224 + k ∧ LP_ENCODING_IS_7BIT_UINT (224 + k) = false ∧ LP_ENCODING_IS_6BIT_STR (224 + k) = false ∧ LP_ENCODING_IS_13BIT_INT (224 + k) = false ∧ LP_ENCODING_IS_16BIT_INT (224 + k) = false ∧
  LP_ENCODING_IS_24BIT_INT (224 + k) = false ∧ LP_ENCODING_IS_32BIT_INT (224 + k) = false ∧ LP_ENCODING_IS_64BIT_INT (224 + k) = false ∧ LP_ENCODING_IS_12BIT_STR (224 + k) = true ∧ Z.land (224 + k) 0xF = k.
Proof.
  intros Hk. pose proof (check_range (λ k, (u8 (Z.lor k LP_ENCODING_12BIT_STR) =? 224 + k) && negb (LP_ENCODING_IS_7BIT_UINT (224 + k)) && negb (LP_ENCODING_IS_6BIT_STR (224 + k)) && negb (LP_ENCODING_IS_13BIT_INT (224 + k)) && negb (LP_ENCODING_IS_16BIT_INT (224 + k)) &&
    negb (LP_ENCODING_IS_24BIT_INT (224 + k)) && negb (LP_ENCODING_IS_32BIT_INT (224 + k)) && negb (LP_ENCODING_IS_64BIT_INT (224 + k)) && LP_ENCODING_IS_12BIT_STR (224 + k) && (Z.land (224 + k) 0xF =? k)) 16 eq_refl k Hk) as H. cbn beta in H. rewrite !andb_true_iff, !Z.eqb_eq, !negb_true_iff in H. tauto.
Qed.

(** ** Integers *)

(** Two's complement in [w] bits. *)
Lemma lp_signed_spec w v : 0 < w ≤ 64 → in_s w v → lp_signed (v mod 2 ^ w) (2 ^ (w - 1)) (2 ^ w - 1) = v.
Proof.
  intros Hw Hv. unfold in_s in Hv. assert (2 ^ w = 2 * 2 ^ (w - 1)) as Ew by (rewrite <-Z.pow_succ_r by lia; f_equal; lia). assert (2 ^ (w - 1) ≤ 2 ^ 63) as Hle by (apply Z.pow_le_mono_r; lia). assert (v mod 2 ^ w = if v <? 0 then v + 2 ^ w else v) as ->. { destruct (Z.ltb_spec v 0); [symmetry; apply Z.mod_unique with (-1); lia|apply Z.mod_small; lia]. }
  unfold lp_signed. destruct (Z.ltb_spec v 0).
  - rewrite (proj2 (Z.leb_le _ _)) by lia. rewrite (wrap_u_small 64) by (unfold in_u; lia). rewrite (wrap_s_small 64 (2 ^ w - 1 - (v + 2 ^ w))) by (unfold in_s; lia). rewrite wrap_s_small by (unfold in_s; lia). lia.
  - rewrite (proj2 (Z.leb_gt _ _)) by lia. apply wrap_s_small; [lia|]. unfold in_s. lia.
Qed.

Lemma signed_mod w v : 0 < w → in_s w v → (if v <? 0 then Z.shiftl 1 w + v else v) = v mod 2 ^ w.
Proof.
  intros Hw Hv. unfold in_s in Hv. assert (2 ^ w = 2 * 2 ^ (w - 1)) as Ew by (rewrite <-Z.pow_succ_r by lia; f_equal; lia). rewrite Z.shiftl_mul_pow2 by lia. destruct (Z.ltb_spec v 0); [apply Z.mod_unique with (-1); lia|symmetry; apply Z.mod_small; lia].
Qed.

(** The integers with a tag and whole bytes. *)
Definition wide_tags : list (Z * nat) := [(LP_ENCODING_16BIT_INT, 2%nat); (LP_ENCODING_24BIT_INT, 3%nat); (LP_ENCODING_32BIT_INT, 4%nat); (LP_ENCODING_64BIT_INT, 8%nat)].

Lemma wide_class t n lp p : (t, n) ∈ wide_tags → peek lp p = Some t →
  lpCurrentEncodedSize lp p = Some (Z.of_nat n + 1) ∧ lpGet lp p = (x ← load_bytes lp (p + 1) (Z.of_nat n); Some (LpInteger (lp_signed x (2 ^ (8 * Z.of_nat n - 1)) (2 ^ (8 * Z.of_nat n) - 1)))).
Proof.
  intros Ht Hp. unfold lpCurrentEncodedSize, lpGet. rewrite Hp. cbn [mbind option_bind]. unfold wide_tags in Ht. rewrite !elem_of_cons, elem_of_nil in Ht. destruct_or! Ht; try done; injection Ht as -> ->; done.
Qed.

Lemma wide_entry a t n v r : (t, n) ∈ wide_tags → in_s (8 * Z.of_nat n) v →
  let bs := t :: low_bytes n (v mod 2 ^ (8 * Z.of_nat n)) in
  lpCurrentEncodedSize (a ++ bs ++ r) (zlen a) = Some (zlen bs) ∧ lpGet (a ++ bs ++ r) (zlen a) = Some (LpInteger v) ∧ hd_error bs ≠ Some LP_EOF.
Proof.
  intros Ht Hv. cbn zeta. rewrite low_bytes_eq, le_encode_mod. destruct (wide_class t n (a ++ (t :: le_encode n v) ++ r) (zlen a) Ht) as [-> ->]; [by apply peek_app|]. cbn [app]. rewrite load_after. cbn [mbind option_bind length]. rewrite le_encode_length.
  assert (0 < 8 * Z.of_nat n ≤ 64 ∧ t ≠ LP_EOF) as [Hn Hne]. { unfold wide_tags in Ht. rewrite !elem_of_cons, elem_of_nil in Ht. destruct_or! Ht; try done; injection Ht as -> ->; split; done || lia. }
  rewrite lp_signed_spec by done. split_and!; [f_equal; lia|done|]. cbn. congruence.
Qed.

Lemma lp_get_tagged a t bs r : peek (a ++ (t :: bs) ++ r) (zlen a) = Some t.
Proof. by apply peek_app. Qed.

Lemma int_entry a v r : in_s 64 v → lpCurrentEncodedSize (a ++ int_bytes v ++ r) (zlen a) = Some (zlen (int_bytes v)) ∧ lpGet (a ++ int_bytes v ++ r) (zlen a) = Some (LpInteger v) ∧ hd_error (int_bytes v) ≠ Some LP_EOF.
Proof.
  intros Hv. unfold int_bytes. destruct ((0 <=? v) && (v <=? 127)) eqn:E1.
  { apply andb_true_iff in E1 as [H1%Z.leb_le H2%Z.leb_le]. destruct (class_7 v) as (Hc & Hl & Hu); [lia|]. rewrite Hu. unfold lpCurrentEncodedSize, lpGet. rewrite !lp_get_tagged. cbn [mbind option_bind]. rewrite Hc, Hl. split_and!; [done| |cbn; intros [= ->]; unfold LP_EOF in *; lia]. unfold lp_signed, ULLONG_MAX. rewrite (proj2 (Z.leb_gt _ _)) by lia. do 2 f_equal. apply wrap_s_small; [lia|done]. }
  destruct ((-4096 <=? v) && (v <=? 4095)) eqn:E2.
  { apply andb_true_iff in E2 as [H1%Z.leb_le H2%Z.leb_le]. rewrite (signed_mod 13) by (unfold in_s; lia). set (u := v mod 2 ^ 13). assert (0 ≤ u < 2 ^ 13) as Hu by (apply Z.mod_pos_bound; lia). cbn zeta. rewrite Z.shiftr_div_pow2 by lia. assert (0 ≤ u / 2 ^ 8 < 32) as Hk by (split; [apply Z.div_pos; lia|apply Z.div_lt_upper_bound; lia]). destruct (class_13 (u / 2 ^ 8) Hk) as (Eb & H7 & H6 & H13 & Hl). rewrite Eb.
    unfold lpCurrentEncodedSize, lpGet. rewrite !lp_get_tagged. cbn [mbind option_bind]. rewrite H7, H6, H13, Hl. split_and!; [done| |cbn; intros [= H]; unfold LP_EOF in *; lia]. replace (a ++ [192 + u / 2 ^ 8; Z.land u 255] ++ r) with ((a ++ [192 + u / 2 ^ 8]) ++ Z.land u 255 :: r) by (by rewrite <-app_assoc). rewrite peek_app by (rewrite length_app; cbn; lia). cbn [mbind option_bind]. do 2 f_equal.
    assert (Z.lor (Z.shiftl (u / 2 ^ 8) 8) (Z.land u 255) = u) as ->. { rewrite Z.lor_comm. change 255 with (Z.ones 8). rewrite Z.land_ones by lia. rewrite lor_shift by (lia || (apply Z.mod_pos_bound; lia)). rewrite (Z.div_mod u (2 ^ 8)) at 3 by lia. lia. }
    apply (lp_signed_spec 13 v); [lia|unfold in_s; lia]. }
  destruct ((-32768 <=? v) && (v <=? 32767)) eqn:E3.
  { apply andb_true_iff in E3 as [H1%Z.leb_le H2%Z.leb_le]. rewrite (signed_mod 16) by (unfold in_s; lia). apply (wide_entry a _ 2); [apply list_elem_of_In; cbn; tauto|unfold in_s; lia]. }
  destruct ((-8388608 <=? v) && (v <=? 8388607)) eqn:E4.
  { apply andb_true_iff in E4 as [H1%Z.leb_le H2%Z.leb_le]. rewrite (signed_mod 24) by (unfold in_s; lia). apply (wide_entry a _ 3); [apply list_elem_of_In; cbn; tauto|unfold in_s; lia]. }
  destruct ((-2147483648 <=? v) && (v <=? 2147483647)) eqn:E5.
  { apply andb_true_iff in E5 as [H1%Z.leb_le H2%Z.leb_le]. rewrite (signed_mod 32) by (unfold in_s; lia). apply (wide_entry a _ 4); [apply list_elem_of_In; cbn; tauto|unfold in_s; lia]. }
  apply (wide_entry a _ 8); [apply list_elem_of_In; cbn; tauto|done].
Qed.

(** ** Strings *)

Definition fits (s : list Z) : Prop := zlen s + 5 < 2 ^ 32.

Lemma string_entry a s r : fits s → let bs := string_header (zlen s) ++ s in
  lpCurrentEncodedSize (a ++ bs ++ r) (zlen a) = Some (zlen bs) ∧ lpGet (a ++ bs ++ r) (zlen a) = Some (LpString (zlen a + zlen (string_header (zlen s))) (zlen s)) ∧ hd_error bs ≠ Some LP_EOF.
Proof.
  intros Hs. cbn zeta. unfold fits in Hs. unfold string_header. rewrite length_app. destruct (Z.ltb_spec (zlen s) 64) as [H6|H6].
  { destruct (class_6 (zlen s)) as (-> & E7 & E6 & El); [lia|]. unfold lpCurrentEncodedSize, lpGet, LP_ENCODING_6BIT_STR_LEN. cbn [app]. rewrite peek_app by done. cbn [mbind option_bind]. rewrite E7, E6, El. split_and!; [f_equal; cbn; lia|done|cbn; intros [= H]; unfold LP_EOF in H; lia]. }
  destruct (Z.ltb_spec (zlen s) 4096) as [H12|H12].
  { rewrite Z.shiftr_div_pow2 by lia. assert (0 ≤ zlen s / 2 ^ 8 < 16) as Hk by (split; [apply Z.div_pos; lia|apply Z.div_lt_upper_bound; lia]). destruct (class_12 (zlen s / 2 ^ 8) Hk) as (-> & E7 & E6 & E13 & E16 & E24 & E32 & E64 & E12 & El). unfold lpCurrentEncodedSize, lpGet, LP_ENCODING_12BIT_STR_LEN. cbn [app]. rewrite !(peek_app a _ _ (zlen a)) by done. cbn [mbind option_bind]. rewrite E7, E6, E13, E16, E24, E32, E64, E12, El.
    set (b := 224 + zlen s / 2 ^ 8). replace (a ++ b :: Z.land (zlen s) 255 :: s ++ r) with ((a ++ [b]) ++ Z.land (zlen s) 255 :: s ++ r) by (by rewrite <-app_assoc). rewrite peek_app by (rewrite length_app; cbn; lia). cbn [mbind option_bind].
    assert (Z.lor (Z.shiftl (zlen s / 2 ^ 8) 8) (Z.land (zlen s) 255) = zlen s) as ->. { rewrite Z.lor_comm. change 255 with (Z.ones 8). rewrite Z.land_ones by lia. rewrite lor_shift by (lia || (apply Z.mod_pos_bound; lia)). rewrite (Z.div_mod (zlen s) (2 ^ 8)) at 3 by lia. lia. }
    split_and!; [f_equal; cbn; lia|done|cbn; intros [= H]; unfold LP_EOF, b in H; lia]. }
  rewrite low_bytes_eq. unfold lpCurrentEncodedSize, lpGet, LP_ENCODING_32BIT_STR_LEN. cbn [app]. rewrite !peek_app by done. cbn [mbind option_bind]. rewrite <-!app_assoc. pose proof (load_after a LP_ENCODING_32BIT_STR 4 (zlen s) (s ++ r)) as Hl. change (Z.of_nat 4) with 4 in Hl. rewrite Hl, Z.mod_small by (cbn; lia). cbn -[le_encode]. rewrite le_encode_length. rewrite wrap_u_small by (unfold in_u; lia). split_and!; [f_equal; lia|done|done].
Qed.

(** ** Entries *)

Lemma lpStringToInt64_eq s : lpStringToInt64 s (zlen s) = string2ll s (zlen s).
Proof.
  unfold lpStringToInt64, string2ll. destruct (zlen s =? 0); [done|]. destruct (peek s 0) as [c0|] eqn:E0; [|done]. cbn [mbind option_bind]. destruct ((zlen s =? 1) && (c0 =? 48)) eqn:E1; [done|]. destruct (Z.eqb_spec c0 45) as [Eneg|Eneg]; cbn [b2z andb].
  - destruct (Z.eqb_spec 1 (zlen s)) as [El|El]; [done|]. destruct (peek s 1) as [c|]; [|done]. cbn [mbind option_bind]. destruct ((49 <=? c) && (c <=? 57)); [done|]. rewrite (proj2 (Z.eqb_neq (zlen s) 1)) by lia. by rewrite andb_false_r.
  - rewrite E0. cbn [mbind option_bind]. destruct ((49 <=? c0) && (c0 <=? 57)); [done|]. by rewrite andb_comm, E1.
Qed.

(** The integer that an element is stored as. *)
Definition lp_int (s : list Z) : option Z := default None (lpStringToInt64 s (zlen s)).

Lemma lp_int_spec s : lpStringToInt64 s (zlen s) = Some (lp_int s) ∧ ∀ v, lp_int s = Some v ↔ canonical s v ∧ in_s 64 v.
Proof. unfold lp_int. rewrite lpStringToInt64_eq. by destruct (string2ll_spec s) as (r & -> & Hr). Qed.

Definition enc (s : list Z) : list Z := match lp_int s with Some v => int_bytes v | None => string_header (zlen s) ++ s end.
Definition entry (s : list Z) : list Z := enc s ++ lpEncodeBacklen (zlen (enc s)).

Lemma enc_read a s r : fits s → lpCurrentEncodedSize (a ++ enc s ++ r) (zlen a) = Some (zlen (enc s)) ∧ lpGet_text (a ++ enc s ++ r) (zlen a) = Some s ∧ hd_error (enc s) ≠ Some LP_EOF.
Proof.
  intros Hs. unfold enc, lpGet_text. destruct (lp_int s) as [v|] eqn:Ei.
  - destruct (proj1 (proj2 (lp_int_spec s) v) Ei) as [Hc Hv]. destruct (int_entry a v r Hv) as (-> & -> & Hh). cbn [mbind option_bind]. destruct (sdsll2str_spec v Hv) as (t & -> & Ht & Hl). cbn [mbind option_bind]. unfold LP_INTBUF_SIZE. rewrite (proj2 (Z.ltb_lt _ _)) by lia. split_and!; [done| |done]. f_equal. by eapply canonical_unique.
  - destruct (string_entry a s r Hs) as (-> & -> & Hh). cbn [mbind option_bind]. split_and!; [done| |done]. rewrite <-app_assoc, app_assoc. apply slice_app; [rewrite length_app; lia|done].
Qed.

Lemma int_bytes_length v : 0 < zlen (int_bytes v) ≤ 9.
Proof. unfold int_bytes. repeat case_match; cbn -[low_bytes]; rewrite ?low_bytes_eq, ?le_encode_length; lia. Qed.

Lemma string_header_length n : 0 < zlen (string_header n) ≤ 5.
Proof. unfold string_header. repeat case_match; cbn -[low_bytes]; rewrite ?low_bytes_eq, ?le_encode_length; lia. Qed.

Lemma enc_length s : fits s → 0 < zlen (enc s) < 2 ^ 32.
Proof.
  unfold fits. intros Hs. unfold enc. destruct (lp_int s) as [v|]; [pose proof (int_bytes_length v); lia|]. rewrite length_app. pose proof (string_header_length (zlen s)). lia.
Qed.

(** The encoding that is chosen is the one that is written. *)
Lemma lpEncodeGetType_spec s : fits s → lpEncodeGetType s (zlen s) = Some (int_bytes <$> lp_int s, zlen (enc s)).
Proof.
  unfold fits. intros Hs. unfold lpEncodeGetType. rewrite (proj1 (lp_int_spec s)). cbn [mbind option_bind]. unfold enc. destruct (lp_int s) as [v|]; [done|]. do 2 f_equal. cbn [fmap]. rewrite length_app. unfold string_header. destruct (zlen s <? 64); [rewrite wrap_u_small by (unfold in_u; lia); cbn; lia|]. destruct (zlen s <? 4096); [rewrite wrap_u_small by (unfold in_u; lia); cbn; lia|]. rewrite wrap_u_small by (unfold in_u; lia). cbn [length]. rewrite low_bytes_eq, le_encode_length. lia.
Qed.

(** ** Lengths that are read backwards *)

Lemma peek_mid a bs r (i : nat) x p : bs !! i = Some x → p = zlen a + Z.of_nat i → peek (a ++ bs ++ r) p = Some x.
Proof.
  intros Hx ->. pose proof (lookup_lt_Some _ _ _ Hx). replace (zlen a + Z.of_nat i) with (Z.of_nat (length a + i)) by lia. rewrite peek_lookup. rewrite lookup_app_r by lia. rewrite lookup_app_l by lia. rewrite <-Hx. f_equal. lia.
Qed.

Lemma more_byte d : 0 ≤ d < 128 → Z.land (Z.lor d 128) 127 = d ∧ (Z.land (Z.lor d 128) 128 =? 0) = false ∧ Z.land d 127 = d ∧ (Z.land d 128 =? 0) = true ∧ u8 d = d.
Proof.
  intros Hd. pose proof (check_range (λ d, (Z.land (Z.lor d 128) 127 =? d) && negb (Z.land (Z.lor d 128) 128 =? 0) && (Z.land d 127 =? d) && (Z.land d 128 =? 0) && (u8 d =? d)) 128 eq_refl d Hd) as H. cbn beta in H. rewrite !andb_true_iff, negb_true_iff in H. destruct H as ((((H1%Z.eqb_eq & H2) & H3%Z.eqb_eq) & H4) & H5%Z.eqb_eq). done.
Qed.

Lemma decode_more fuel lp p val shift d : peek lp p = Some (Z.lor d 128) → 0 ≤ d < 128 → 0 ≤ shift ≤ 21 → 0 ≤ val < 2 ^ shift → decode_loop (S fuel) lp p val shift = decode_loop fuel lp (p - 1) (val + d * 2 ^ shift) (shift + 7).
Proof.
  intros Hp Hd Hs Hv. cbn [decode_loop]. rewrite Hp. cbn [mbind option_bind]. destruct (more_byte d Hd) as (-> & -> & _). rewrite lor_shift by lia. by rewrite (proj2 (Z.ltb_ge _ _)) by lia.
Qed.

Lemma decode_last fuel lp p val shift d : peek lp p = Some d → 0 ≤ d < 128 → 0 ≤ shift → 0 ≤ val < 2 ^ shift → decode_loop (S fuel) lp p val shift = Some (val + d * 2 ^ shift).
Proof.
  intros Hp Hd Hs Hv. cbn [decode_loop]. rewrite Hp. cbn [mbind option_bind]. destruct (more_byte d Hd) as (_ & _ & -> & -> & _). by rewrite lor_shift by lia.
Qed.

(** A digit of seven bits. *)
Definition digit7 (l k : Z) : Z := Z.land (Z.shiftr l k) 127.

Lemma digit7_spec l k : 0 ≤ k → digit7 l k = (l / 2 ^ k) mod 128 ∧ 0 ≤ digit7 l k < 128.
Proof. intros Hk. unfold digit7. rewrite Z.shiftr_div_pow2 by lia. change 127 with (Z.ones 7). rewrite Z.land_ones by lia. split; [done|apply Z.mod_pos_bound; lia]. Qed.

Lemma split7 l k : 0 ≤ k → l mod 2 ^ (k + 7) = l mod 2 ^ k + digit7 l k * 2 ^ k.
Proof. intros Hk. rewrite (proj1 (digit7_spec l k Hk)). rewrite Z.pow_add_r by lia. rewrite Z.rem_mul_r by lia. change (2 ^ 7) with 128. lia. Qed.

(** The last byte to be read. *)
Lemma top7 l k : 0 ≤ k → 0 ≤ l < 2 ^ (k + 7) → u8 (Z.shiftr l k) = digit7 l k ∧ l mod 2 ^ k + digit7 l k * 2 ^ k = l.
Proof.
  intros Hk Hl. rewrite <-split7 by lia. rewrite (Z.mod_small l (2 ^ (k + 7))) by lia. split; [|done]. assert (0 ≤ Z.shiftr l k < 128) as H by (rewrite Z.shiftr_div_pow2 by lia; rewrite Z.pow_add_r in Hl by lia; split; [apply Z.div_pos; lia|apply Z.div_lt_upper_bound; lia]). destruct (more_byte _ H) as (_ & _ & Hd & _ & ->). by symmetry.
Qed.

Lemma mod_pow l k : 0 ≤ k → 0 ≤ l mod 2 ^ k < 2 ^ k.
Proof. intros. apply Z.mod_pos_bound. lia. Qed.

Lemma digit7_0 l : Z.land l 127 = digit7 l 0.
Proof. unfold digit7. by rewrite Z.shiftr_0_r. Qed.

Lemma backlen_length l : 1 ≤ zlen (lpEncodeBacklen l) ≤ 5.
Proof. unfold lpEncodeBacklen. repeat case_match; cbn; lia. Qed.

Lemma decode_backlen a l r : 0 ≤ l < 2 ^ 35 → lpDecodeBacklen (a ++ lpEncodeBacklen l ++ r) (zlen a + zlen (lpEncodeBacklen l) - 1) = Some l.
Proof.
  intros Hl. unfold lpDecodeBacklen, lpEncodeBacklen.
  assert (∀ bs n p, bs !! n = Some (Z.lor (digit7 l 0) 128) → p = zlen a + Z.of_nat n → decode_loop 5 (a ++ bs ++ r) p 0 0 = decode_loop 4 (a ++ bs ++ r) (p - 1) (l mod 2 ^ 7) 7) as Hfirst.
  { intros bs n p Hb Hp. rewrite (decode_more _ _ _ _ _ (digit7 l 0)); [|by eapply peek_mid|by apply digit7_spec|lia|lia]. f_equal. pose proof (split7 l 0 ltac:(lia)) as H. rewrite Z.mod_1_r in H. change (0 + 7) with 7 in H. lia. }
  assert (∀ fuel bs n p k, bs !! n = Some (Z.lor (digit7 l k) 128) → p = zlen a + Z.of_nat n → 0 ≤ k ≤ 21 → decode_loop (S fuel) (a ++ bs ++ r) p (l mod 2 ^ k) k = decode_loop fuel (a ++ bs ++ r) (p - 1) (l mod 2 ^ (k + 7)) (k + 7)) as Hmore.
  { intros fuel bs n p k Hb Hp Hk. rewrite (decode_more _ _ _ _ _ (digit7 l k)); [|by eapply peek_mid|apply digit7_spec; lia|lia|apply mod_pow; lia]. by rewrite split7 by lia. }
  assert (∀ fuel bs p k, bs !! 0%nat = Some (u8 (Z.shiftr l k)) → p = zlen a → 0 ≤ k → l < 2 ^ (k + 7) → decode_loop (S fuel) (a ++ bs ++ r) p (l mod 2 ^ k) k = Some l) as Hlast.
  { intros fuel bs p k Hb Hp Hk Hl'. destruct (top7 l k) as [Ed El]; [lia|lia|]. rewrite Ed in Hb. rewrite (decode_last _ _ _ _ _ (digit7 l k)); [by rewrite El|eapply peek_mid; [exact Hb|lia]|apply digit7_spec; lia|lia|apply mod_pow; lia]. }
  rewrite !digit7_0. fold (digit7 l 7) (digit7 l 14) (digit7 l 21).
  destruct (Z.leb_spec l 127) as [H1|H1]; [|destruct (Z.ltb_spec l 16383) as [H2|H2]; [|destruct (Z.ltb_spec l 2097151) as [H3|H3]; [|destruct (Z.ltb_spec l 268435455) as [H4|H4]]]].
  - pose proof (Hlast 4%nat [u8 l] (zlen a + zlen [u8 l] - 1) 0) as H. rewrite Z.mod_1_r in H. apply H; [cbn; by rewrite Z.shiftr_0_r|cbn; lia|lia|lia].
  - rewrite (Hfirst _ 1%nat) by (done || (cbn; lia)). apply Hlast; [done|cbn; lia|lia|lia].
  - rewrite (Hfirst _ 2%nat) by (done || (cbn; lia)). rewrite (Hmore _ _ 1%nat) by (done || (cbn; lia)). apply Hlast; [done|cbn; lia|lia|lia].
  - rewrite (Hfirst _ 3%nat) by (done || (cbn; lia)). rewrite (Hmore _ _ 2%nat) by (done || (cbn; lia)). rewrite (Hmore _ _ 1%nat) by (done || (cbn; lia)). apply Hlast; [done|cbn; lia|lia|lia].
  - rewrite (Hfirst _ 4%nat) by (done || (cbn; lia)). rewrite (Hmore _ _ 3%nat) by (done || (cbn; lia)). rewrite (Hmore _ _ 2%nat) by (done || (cbn; lia)). rewrite (Hmore _ _ 1%nat) by (done || (cbn; lia)). apply Hlast; [done|cbn; lia|lia|lia].
Qed.

(** ** Blocks *)

Definition body (l : list (list Z)) : list Z := mjoin (entry <$> l).
Definition header (total n : Z) : list Z := le_encode 4 total ++ le_encode 2 n.
Definition block (l : list (list Z)) (n : Z) : list Z := header (7 + zlen (body l)) n ++ body l ++ [LP_EOF].

(** The pointer after the entries of [l]. *)
Definition ptr (l : list (list Z)) : Z := LP_HDR_SIZE + zlen (body l).

(** The count of the header is right, or unknown. *)
Definition num_ok (n : Z) (l : list (list Z)) : Prop := (n = zlen l ∧ n < LP_HDR_NUMELE_UNKNOWN) ∨ n = LP_HDR_NUMELE_UNKNOWN.

Definition small (l : list (list Z)) : Prop := 7 + zlen (body l) < 2 ^ 32.

Record lp_ok (n : Z) (l : list (list Z)) : Prop := { ok_num : num_ok n l; ok_fits : Forall fits l; ok_small : small l }.

Lemma lp_body_app l1 l2 : body (l1 ++ l2) = body l1 ++ body l2.
Proof. unfold body. by rewrite fmap_app, join_app. Qed.

Lemma body_cons s l : body (s :: l) = entry s ++ body l.
Proof. done. Qed.

Lemma body_snoc l s : body (l ++ [s]) = body l ++ entry s.
Proof. rewrite lp_body_app, body_cons. change (body []) with (@nil Z). by rewrite app_nil_r. Qed.

Lemma lp_header_length total n : zlen (header total n) = LP_HDR_SIZE.
Proof. unfold header. rewrite length_app, !le_encode_length. done. Qed.

Lemma entry_length s : fits s → 2 ≤ zlen (entry s).
Proof. intros Hs. unfold entry. rewrite length_app. pose proof (enc_length s Hs). pose proof (backlen_length (zlen (enc s))). lia. Qed.

Lemma block_split l1 l2 n : ∃ a, block (l1 ++ l2) n = a ++ body l2 ++ [LP_EOF] ∧ zlen a = ptr l1.
Proof.
  exists (header (7 + zlen (body (l1 ++ l2))) n ++ body l1). unfold block. rewrite lp_body_app at 2. split; [by rewrite <-!app_assoc|]. rewrite length_app. pose proof (lp_header_length (7 + zlen (body (l1 ++ l2))) n). unfold ptr. lia.
Qed.

Lemma ptr_snoc l s : ptr (l ++ [s]) = ptr l + zlen (entry s).
Proof. unfold ptr. rewrite body_snoc, length_app. lia. Qed.

Lemma get_total l n : small l → lpGetTotalBytes (block l n) = Some (7 + zlen (body l)).
Proof.
  unfold small. intros Hs. unfold lpGetTotalBytes, block, header. rewrite <-!app_assoc. pose proof (load_bytes_spec [] 4 (7 + zlen (body l)) (le_encode 2 n ++ body l ++ [LP_EOF])) as H. change (zlen []) with 0 in H. cbn [app] in H. change (Z.of_nat 4) with 4 in H. rewrite H. rewrite Z.mod_small; [done|]. split; [lia|]. change (2 ^ (8 * 4)) with (2 ^ 32). lia.
Qed.

Lemma num_range n l : num_ok n l → 0 ≤ n ≤ 65535.
Proof. unfold num_ok, LP_HDR_NUMELE_UNKNOWN. lia. Qed.

Lemma get_num total n r : 0 ≤ n ≤ 65535 → lpGetNumElements (header total n ++ r) = Some n.
Proof.
  intros Hn. unfold lpGetNumElements, header. rewrite <-app_assoc. pose proof (load_bytes_spec (le_encode 4 total) 2 n r) as H. rewrite le_encode_length in H. change (Z.of_nat 2) with 2 in H. change (Z.of_nat 4) with 4 in H. rewrite H. rewrite Z.mod_small; [done|]. change (2 ^ (8 * 2)) with 65536. lia.
Qed.

Lemma set_num total n n' r : lpSetNumElements (header total n ++ r) n' = Some (header total n' ++ r).
Proof.
  unfold lpSetNumElements, header. rewrite low_bytes_eq, <-!app_assoc. apply blit_app; rewrite ?le_encode_length; done.
Qed.

Lemma set_total total total' n r : lpSetTotalBytes (header total n ++ r) total' = Some (header total' n ++ r).
Proof.
  unfold lpSetTotalBytes, header. rewrite low_bytes_eq, <-!app_assoc. apply (blit_app []); rewrite ?le_encode_length; done.
Qed.

(** ** At an entry *)

Section Block.

Context (n : Z) (l : list (list Z)) (Hok : lp_ok n l).

Lemma at_entry l1 s l2 : l = l1 ++ s :: l2 →
  lpCurrentEncodedSize (block l n) (ptr l1) = Some (zlen (enc s)) ∧ lpGet_text (block l n) (ptr l1) = Some s ∧ ∃ b, peek (block l n) (ptr l1) = Some b ∧ b ≠ LP_EOF.
Proof.
  intros ->. destruct (block_split l1 (s :: l2) n) as (a & -> & <-). rewrite body_cons. unfold entry. rewrite <-!app_assoc. assert (fits s) as Hs. { pose proof (ok_fits _ _ Hok) as H. apply Forall_app in H as [_ H]. by apply Forall_cons in H as [? _]. }
  destruct (enc_read a s (lpEncodeBacklen (zlen (enc s)) ++ body l2 ++ [LP_EOF]) Hs) as (H1 & H2 & H3). split_and!; [done|done|]. pose proof (enc_length s Hs) as Hl. destruct (enc s) as [|b bs]; [cbn in Hl; lia|]. exists b. split; [by apply peek_app|]. cbn in H3. congruence.
Qed.

Lemma at_end : peek (block l n) (ptr l) = Some LP_EOF.
Proof. destruct (block_split l [] n) as (a & E & <-). rewrite app_nil_r in E. rewrite E. by apply peek_app. Qed.

Lemma lp_skip_spec l1 s l2 : l = l1 ++ s :: l2 → lpSkip (block l n) (ptr l1) = Some (ptr (l1 ++ [s])).
Proof.
  intros E. unfold lpSkip. destruct (at_entry l1 s l2 E) as (-> & _). cbn [mbind option_bind]. f_equal. rewrite ptr_snoc. unfold entry. rewrite length_app. lia.
Qed.

(** What the pointer after [l1] is, as a result. *)
Definition ptr_or_null (l1 l2 : list (list Z)) : option Z := match l2 with [] => None | _ => Some (ptr l1) end.

Lemma peek_ptr l1 l2 : l = l1 ++ l2 → ∃ b, peek (block l n) (ptr l1) = Some b ∧ (if b =? LP_EOF then None else Some (ptr l1)) = ptr_or_null l1 l2.
Proof.
  intros E. destruct l2 as [|s l2]; cbn [ptr_or_null].
  - rewrite app_nil_r in E. subst l1. exists LP_EOF. split; [apply at_end|done].
  - destruct (at_entry l1 s l2 E) as (_ & _ & b & Hb & Hne). exists b. split; [done|]. by rewrite (proj2 (Z.eqb_neq _ _)).
Qed.

Lemma lp_next_spec l1 s l2 : l = l1 ++ s :: l2 → lpNext (block l n) (ptr l1) = Some (ptr_or_null (l1 ++ [s]) l2).
Proof.
  intros E. unfold lpNext. rewrite (lp_skip_spec l1 s l2 E). cbn [mbind option_bind]. destruct (peek_ptr (l1 ++ [s]) l2) as (b & -> & H); [by rewrite <-app_assoc|]. cbn [mbind option_bind]. by rewrite H.
Qed.

Lemma lp_first_spec : lpFirst (block l n) = Some (ptr_or_null [] l).
Proof. unfold lpFirst. destruct (peek_ptr [] l eq_refl) as (b & Hb & H). change (ptr []) with LP_HDR_SIZE in *. rewrite Hb. cbn [mbind option_bind]. by rewrite H. Qed.

Lemma lp_prev_first : lpPrev (block l n) (ptr []) = Some None.
Proof. done. Qed.

Lemma lp_prev_spec l1 s l2 : l = l1 ++ s :: l2 → lpPrev (block l n) (ptr (l1 ++ [s])) = Some (Some (ptr l1)).
Proof.
  intros E. assert (fits s) as Hs. { pose proof (ok_fits _ _ Hok) as H. rewrite E in H. apply Forall_app in H as [_ H]. by apply Forall_cons in H as [? _]. }
  unfold lpPrev. rewrite ptr_snoc. pose proof (entry_length s Hs). pose proof (enc_length s Hs). rewrite (proj2 (Z.eqb_neq _ _)) by (unfold ptr in *; lia). pose proof (backlen_length (zlen (enc s))) as Hbl.
  assert (lpDecodeBacklen (block l n) (ptr l1 + zlen (entry s) - 1) = Some (zlen (enc s))) as ->.
  { rewrite E. destruct (block_split l1 (s :: l2) n) as (a & -> & <-). rewrite body_cons. unfold entry. rewrite <-!app_assoc. rewrite (app_assoc a). rewrite length_app. pose proof (decode_backlen (a ++ enc s) (zlen (enc s)) (body l2 ++ [LP_EOF]) ltac:(lia)) as H'. rewrite length_app in H'. rewrite <-H'. f_equal. lia. }
  cbn [mbind option_bind]. rewrite wrap_u_small by (unfold in_u; lia). do 2 f_equal. unfold entry. rewrite length_app. lia.
Qed.

Lemma lp_last_spec : lpLast (block l n) = Some (match last l with Some _ => Some (ptr (removelast l)) | None => None end).
Proof.
  unfold lpLast. rewrite get_total by apply Hok. cbn [mbind option_bind]. replace (7 + zlen (body l) - 1) with (ptr l) by (unfold ptr, LP_HDR_SIZE; lia). destruct (last l) as [s|] eqn:El; [|apply last_None in El; by rewrite El]. apply last_Some in El as [l' E]. assert (removelast l = l') as -> by (by rewrite E, removelast_last). rewrite <-(lp_prev_spec l' s [] E). by rewrite E at 2.
Qed.

End Block.

(** ** Counting and seeking *)

Lemma get_num_block n l : lp_ok n l → lpGetNumElements (block l n) = Some n.
Proof. intros Hok. apply get_num. eapply num_range, Hok. Qed.

Lemma lp_body_length l : Forall fits l → zlen l ≤ zlen (body l).
Proof. induction 1 as [|s l Hs _ IH]; [done|]. rewrite body_cons, length_app. cbn [length]. pose proof (entry_length s Hs). lia. Qed.

Lemma block_length l n : zlen (block l n) = 7 + zlen (body l).
Proof. unfold block. rewrite !length_app. pose proof (lp_header_length (7 + zlen (body l)) n). cbn [length]. unfold LP_HDR_SIZE in *. lia. Qed.

Section Seek.

Context (n : Z) (l : list (list Z)) (Hok : lp_ok n l).

Lemma length_small : zlen l < 2 ^ 32 - 7.
Proof. pose proof (ok_small _ _ Hok) as Hs. pose proof (lp_body_length l (ok_fits _ _ Hok)). unfold small in Hs. lia. Qed.

Lemma lp_count_spec l2 : ∀ fuel l1 c, l = l1 ++ l2 → (length l2 < fuel)%nat → 0 ≤ c → c + zlen l2 < 2 ^ 32 → lp_count fuel (block l n) (ptr_or_null l1 l2) c = Some (c + zlen l2).
Proof.
  induction l2 as [|s l2 IH]; intros fuel l1 c E Hf Hc Hb; (destruct fuel as [|fuel]; [lia|]); cbn [lp_count ptr_or_null]; [f_equal; cbn; lia|]. rewrite (lp_next_spec n l Hok l1 s l2 E). cbn [mbind option_bind]. cbn [length] in *. rewrite wrap_u_small by (unfold in_u; lia). rewrite IH; [f_equal; lia|by rewrite <-app_assoc|lia|lia|lia].
Qed.

Lemma lp_length_spec : ∃ n', lpLength (block l n) = Some (block l n', zlen l) ∧ lp_ok n' l.
Proof.
  unfold lpLength. rewrite (get_num_block _ _ Hok). cbn [mbind option_bind]. destruct (ok_num _ _ Hok) as [[En Hn]|En].
  - rewrite (proj2 (Z.eqb_neq _ _)) by lia. exists n. split; [by rewrite En|exact Hok].
  - rewrite (proj2 (Z.eqb_eq n LP_HDR_NUMELE_UNKNOWN) En). cbn [negb]. rewrite (lp_first_spec _ _ Hok). cbn [mbind option_bind]. pose proof length_small. pose proof (lp_body_length l (ok_fits _ _ Hok)). pose proof (block_length l n). rewrite (lp_count_spec l _ []) by (done || lia). cbn [mbind option_bind]. rewrite Z.add_0_l. destruct (Z.ltb_spec (zlen l) LP_HDR_NUMELE_UNKNOWN).
    + unfold block. rewrite set_num. cbn [mbind option_bind]. exists (zlen l). split; [done|]. split; [by left|apply Hok|apply Hok].
    + cbn [mbind option_bind]. by exists n.
Qed.

Lemma lp_forward_spec l2 : ∀ fuel l1 index, l = l1 ++ l2 → (length l2 < fuel)%nat → 0 ≤ index →
  seek_forward fuel (block l n) (ptr_or_null l1 l2) index = Some (if index <? zlen l2 then Some (ptr (l1 ++ take (Z.to_nat index) l2)) else None).
Proof.
  induction l2 as [|s l2 IH]; intros fuel l1 index E Hf Hi; (destruct fuel as [|fuel]; [lia|]); cbn [seek_forward ptr_or_null]; [rewrite (proj2 (Z.ltb_ge _ _)); [done|cbn; lia]|]. destruct (Z.ltb_spec 0 index) as [Hp|Hp].
  - rewrite (lp_next_spec n l Hok l1 s l2 E). cbn [mbind option_bind]. cbn [length] in *. rewrite IH; [|by rewrite <-app_assoc|lia|lia]. replace (index <? Z.of_nat (S (length l2))) with (index - 1 <? zlen l2) by (destruct (Z.ltb_spec (index - 1) (zlen l2)), (Z.ltb_spec index (Z.of_nat (S (length l2)))); lia). destruct (_ <? _); [|done]. do 3 f_equal. replace (Z.to_nat index) with (S (Z.to_nat (index - 1))) by lia. cbn [take]. by rewrite <-app_assoc.
  - replace index with 0 by lia. cbn. by rewrite app_nil_r.
Qed.

(** The pointer to the last entry of [l1]. *)
Definition back (l1 : list (list Z)) : option Z := match last l1 with Some _ => Some (ptr (removelast l1)) | None => None end.

Lemma back_snoc l1 s : back (l1 ++ [s]) = Some (ptr l1).
Proof. unfold back. by rewrite last_snoc, removelast_last. Qed.

Lemma prev_back l1 l2 : l = l1 ++ l2 → lpPrev (block l n) (ptr l1) = Some (back l1).
Proof.
  intros E. induction l1 as [|s l1 _] using rev_ind; [done|]. rewrite back_snoc. apply (lp_prev_spec n l Hok l1 s l2). by rewrite E, <-app_assoc.
Qed.

Lemma backward_spec l1 : ∀ fuel l2 index, l = l1 ++ l2 → (length l1 < fuel)%nat → index ≤ -1 →
  seek_backward fuel (block l n) (back l1) index = Some (if - zlen l1 <=? index then Some (ptr (take (Z.to_nat (zlen l1 + index)) l1)) else None).
Proof.
  induction l1 as [|s l1 IH] using rev_ind; intros fuel l2 index E Hf Hi; (destruct fuel as [|fuel]; [lia|]).
  - cbn -[Z.leb]. by rewrite (proj2 (Z.leb_gt _ _)) by lia.
  - rewrite back_snoc. cbn [seek_backward]. rewrite length_app in *. cbn [length] in *. destruct (Z.ltb_spec index (-1)) as [Hp|Hp].
    + rewrite (prev_back l1 (s :: l2)) by (by rewrite E, <-app_assoc). cbn [mbind option_bind]. rewrite (IH _ (s :: l2)); [|by rewrite E, <-app_assoc|lia|lia]. replace (- Z.of_nat (length l1 + 1) <=? index) with (- zlen l1 <=? index + 1) by (destruct (Z.leb_spec (- zlen l1) (index + 1)), (Z.leb_spec (- Z.of_nat (length l1 + 1)) index); lia). destruct (Z.leb_spec (- zlen l1) (index + 1)); [|done]. do 3 f_equal. rewrite take_app_le by lia. f_equal. lia.
    + replace index with (-1) by lia. rewrite (proj2 (Z.leb_le _ _)) by lia. replace (Z.to_nat (Z.of_nat (length l1 + 1) + -1)) with (length l1) by lia. by rewrite take_app_length.
Qed.

(** The index of an element, from either end. *)
Definition a_seek (len : nat) (index : Z) : option nat :=
  let i := if index <? 0 then Z.of_nat len + index else index in if (0 <=? i) && (i <? Z.of_nat len) then Some (Z.to_nat i) else None.

Lemma scan_forward index : 0 ≤ index → lp_scan (block l n) true index = Some ((λ k, ptr (take k l)) <$> a_seek (length l) index).
Proof.
  intros Hi. unfold lp_scan, a_seek. rewrite (lp_first_spec _ _ Hok). cbn [mbind option_bind]. pose proof (lp_body_length l (ok_fits _ _ Hok)). pose proof (block_length l n). rewrite (lp_forward_spec l _ []) by (done || lia). rewrite (proj2 (Z.ltb_ge index 0)) by lia. rewrite (proj2 (Z.leb_le 0 index)) by lia. cbn [andb]. by destruct (index <? zlen l).
Qed.

Lemma scan_backward index : index ≤ -1 → lp_scan (block l n) false index = Some ((λ k, ptr (take k l)) <$> a_seek (length l) index).
Proof.
  intros Hi. unfold lp_scan, a_seek. rewrite (lp_last_spec _ _ Hok). cbn [mbind option_bind]. fold (back l). pose proof (lp_body_length l (ok_fits _ _ Hok)). pose proof (block_length l n). rewrite (backward_spec l _ []) by (by rewrite ?app_nil_r || lia). rewrite (proj2 (Z.ltb_lt index 0)) by lia. rewrite (proj2 (Z.ltb_lt (zlen l + index) (zlen l))) by lia. rewrite andb_true_r. replace (0 <=? zlen l + index) with (- zlen l <=? index) by (destruct (Z.leb_spec (- zlen l) index), (Z.leb_spec 0 (zlen l + index)); lia). by destruct (_ <=? _).
Qed.

Lemma seek_spec index : lpSeek (block l n) index = Some ((λ k, ptr (take k l)) <$> a_seek (length l) index).
Proof.
  unfold lpSeek. rewrite (get_num_block _ _ Hok). cbn [mbind option_bind]. destruct (ok_num _ _ Hok) as [[En Hn]| En].
  - rewrite (proj2 (Z.eqb_neq _ _)) by lia. cbn [negb]. set (i := if index <? 0 then n + index else index). assert (a_seek (length l) index = if (0 <=? i) && (i <? n) then Some (Z.to_nat i) else None) as Ea by (unfold a_seek; by rewrite <-En). rewrite Ea. destruct (Z.ltb_spec i 0) as [H0|H0]; [by rewrite (proj2 (Z.leb_gt 0 i))|]. rewrite (proj2 (Z.leb_le 0 i)) by lia. cbn [andb]. destruct (Z.leb_spec n i) as [H1|H1]; [by rewrite (proj2 (Z.ltb_ge i n))|]. rewrite (proj2 (Z.ltb_lt i n)) by lia. destruct (n / 2 <? i).
    + rewrite scan_backward by lia. unfold a_seek. rewrite (proj2 (Z.ltb_lt (i - n) 0)) by lia. replace (zlen l + (i - n)) with i by lia. by rewrite (proj2 (Z.leb_le 0 i)), (proj2 (Z.ltb_lt i (zlen l))) by lia.
    + rewrite scan_forward by lia. unfold a_seek. rewrite (proj2 (Z.ltb_ge i 0)) by lia. by rewrite (proj2 (Z.leb_le 0 i)), (proj2 (Z.ltb_lt i (zlen l))) by lia.
  - rewrite En at 1. rewrite Z.eqb_refl. cbn [negb]. destruct (Z.ltb_spec index 0); [apply scan_backward|apply scan_forward]; lia.
Qed.

End Seek.

(** ** Changing a block *)

Section Change.

Context (junk : nat → Z).

(** The bytes [x] become a gap of [m] bytes. *)
Lemma move_spec a x b m old new : old = zlen (a ++ x ++ b) → 0 ≤ m → new = old + m - zlen x →
  ∃ g, lp_move junk (a ++ x ++ b) (zlen a) m (zlen x) old new = Some (a ++ g ++ b) ∧ zlen g = m.
Proof.
  intros -> Hm ->. unfold lp_move. set (old := zlen (a ++ x ++ b)). set (lp := if old <? _ then _ else _). assert (old = zlen a + zlen x + zlen b) as Eold by (unfold old; rewrite !length_app; lia).
  assert (∃ j, lp = (a ++ x ++ b) ++ j ∧ zlen lp = Z.max old (old + m - zlen x)) as (j & Ej & Hj).
  { unfold lp. destruct (Z.ltb_spec old (old + m - zlen x)); [|exists []; rewrite app_nil_r; split; [done|unfold old in *; lia]]. pose proof (realloc_length junk (a ++ x ++ b) (old + m - zlen x) ltac:(lia)) as Hl. exists (drop (Z.to_nat old) (realloc junk (a ++ x ++ b) (old + m - zlen x))). split; [|lia]. rewrite <-(take_drop (Z.to_nat old) (realloc junk _ _)) at 1. f_equal. unfold old. rewrite Nat2Z.id. apply realloc_take. unfold old in *. lia. }
  unfold memmove. rewrite Ej. rewrite <-!app_assoc. rewrite (app_assoc a x). rewrite (slice_app (a ++ x) b j) by (rewrite ?length_app; lia). cbn [mbind option_bind]. rewrite <-app_assoc. rewrite Ej in Hj. rewrite <-!app_assoc in Hj. rewrite blit_Some by lia. cbn [mbind option_bind].
  exists (take (Z.to_nat m) (x ++ b ++ j)). rewrite !length_app in Hj. assert (zlen (take (Z.to_nat m) (x ++ b ++ j)) = m) as Hg by (rewrite length_take, !length_app; lia). split; [|done]. f_equal. rewrite take_app_ge by lia. replace (Z.to_nat (zlen a + m) - length a)%nat with (Z.to_nat m) by lia. set (g := take (Z.to_nat m) (x ++ b ++ j)) in *. destruct (Z.ltb_spec (old + m - zlen x) old).
  - rewrite realloc_shrink by (rewrite ?length_app in *; lia). rewrite (app_assoc (a ++ g)). rewrite take_app_le by (rewrite !length_app; lia). rewrite take_ge by (rewrite !length_app; lia). by rewrite <-app_assoc.
  - rewrite drop_ge by (rewrite !length_app; lia). by rewrite app_nil_r, <-app_assoc.
Qed.

(** An entry is written into its gap. *)
Lemma write_spec a g b s : fits s → zlen g = zlen (entry s) →
  (lp ← (match int_bytes <$> lp_int s with Some bs => blit (a ++ g ++ b) (zlen a) bs | None => lpEncodeString (a ++ g ++ b) (zlen a) s (zlen s) end);
   blit lp (zlen a + zlen (enc s)) (lpEncodeBacklen (zlen (enc s)))) = Some (a ++ entry s ++ b).
Proof.
  intros Hs Hg. unfold entry in *. rewrite length_app in Hg. assert ((match int_bytes <$> lp_int s with Some bs => blit (a ++ g ++ b) (zlen a) bs | None => lpEncodeString (a ++ g ++ b) (zlen a) s (zlen s) end) = Some (a ++ enc s ++ drop (length (enc s)) g ++ b)) as ->.
  { unfold enc in *. destruct (lp_int s) as [v|]; cbn [fmap option_fmap option_map]; [apply blit_gap; lia|]. unfold lpEncodeString. rewrite length_app in *. rewrite blit_gap by lia. cbn [mbind option_bind]. pose proof (slice_app [] s [] 0 (zlen s) eq_refl eq_refl) as Hsl. cbn [app] in Hsl. rewrite app_nil_r in Hsl. rewrite Hsl. cbn [mbind option_bind]. rewrite (app_assoc a). rewrite blit_gap by (rewrite ?length_app, ?length_drop; lia). rewrite drop_drop. by rewrite <-!app_assoc. }
  cbn [mbind option_bind]. rewrite (app_assoc a). rewrite blit_gap by (rewrite ?length_app, ?length_drop; lia). rewrite drop_drop. rewrite (drop_ge g) by lia. by rewrite <-!app_assoc.
Qed.

(** The sizes of the whole of an insertion. *)
Lemma block_parts l1 x l2 n : block (l1 ++ x ++ l2) n = (header (7 + zlen (body (l1 ++ x ++ l2))) n ++ body l1) ++ body x ++ body l2 ++ [LP_EOF].
Proof. unfold block. rewrite !lp_body_app, <-!app_assoc. done. Qed.

Lemma prefix_length total n l1 : zlen (header total n ++ body l1) = ptr l1.
Proof. rewrite length_app. pose proof (lp_header_length total n). unfold ptr. lia. Qed.

Lemma fits_parts l1 x l2 : Forall fits (l1 ++ x ++ l2) ↔ Forall fits l1 ∧ Forall fits x ∧ Forall fits l2.
Proof. by rewrite !Forall_app. Qed.

Lemma count_insert n (l1 l2 : list (list Z)) s : num_ok n (l1 ++ l2) → num_ok (if n =? LP_HDR_NUMELE_UNKNOWN then n else n + 1) (l1 ++ [s] ++ l2).
Proof.
  unfold num_ok. rewrite !length_app. cbn [length]. intros [[-> Hn]| ->]; [|rewrite Z.eqb_refl; by right]. rewrite (proj2 (Z.eqb_neq _ _)) by lia. unfold LP_HDR_NUMELE_UNKNOWN in *. lia.
Qed.

Lemma count_delete n (l1 l2 : list (list Z)) s : num_ok n (l1 ++ [s] ++ l2) → num_ok (if n =? LP_HDR_NUMELE_UNKNOWN then n else n - 1) (l1 ++ l2).
Proof.
  unfold num_ok. rewrite !length_app. cbn [length]. intros [[-> Hn]| ->]; [|rewrite Z.eqb_refl; by right]. rewrite (proj2 (Z.eqb_neq _ _)) by lia. unfold LP_HDR_NUMELE_UNKNOWN in *. lia.
Qed.

(** The entries [x] are replaced: none, or the one that the pointer is at. *)
Definition replaces (w : lpwhere) (x : list (list Z)) : Prop := match w with LP_BEFORE => x = [] | LP_REPLACE => ∃ s, x = [s] | LP_AFTER => False end.

Lemma replaced_length n l1 x l2 w : lp_ok n (l1 ++ x ++ l2) → replaces w x →
  (match w with LP_REPLACE => n ← lpCurrentEncodedSize (block (l1 ++ x ++ l2) n) (ptr l1); Some (u32 (n + zlen (lpEncodeBacklen n))) | _ => Some 0 end) = Some (zlen (body x)).
Proof.
  intros Hok Hw. destruct w; cbn in Hw; [by subst x|done|]. destruct Hw as [s ->]. destruct (at_entry n _ Hok l1 s l2 eq_refl) as (-> & _). cbn [mbind option_bind]. f_equal. change (body [s]) with (entry s ++ []). rewrite app_nil_r. pose proof (ok_small _ _ Hok) as Hsm. unfold small in Hsm. rewrite !lp_body_app, !length_app in Hsm. change (body [s]) with (entry s ++ []) in Hsm. rewrite app_nil_r in Hsm. unfold entry in *. rewrite length_app in *. rewrite wrap_u_small by (unfold in_u; lia). lia.
Qed.

Lemma body_one s : body [s] = entry s.
Proof. unfold body. cbn. by rewrite app_nil_r. Qed.

(** The count after an insertion or a replacement. *)
Definition count_after (w : lpwhere) (n : Z) : Z := match w with LP_REPLACE => n | _ => if n =? LP_HDR_NUMELE_UNKNOWN then n else n + 1 end.

Lemma insert_core n l1 x l2 s w : lp_ok n (l1 ++ x ++ l2) → fits s → replaces w x →
  lpInsert junk (block (l1 ++ x ++ l2) n) (Some s) (zlen s) (ptr l1) w =
    Some (if bool_decide (small (l1 ++ [s] ++ l2)) then Some (block (l1 ++ [s] ++ l2) (count_after w n), Some (ptr l1)) else None).
Proof.
  intros Hok Hs Hw. pose proof (replaced_length _ _ _ _ _ Hok Hw) as Er. unfold lpInsert. set (total := 7 + zlen (body (l1 ++ x ++ l2))) in *. set (new := 7 + zlen (body (l1 ++ [s] ++ l2))).
  assert ((match w with LP_AFTER => p ← lpSkip (block (l1 ++ x ++ l2) n) (ptr l1); Some (p, LP_BEFORE) | _ => Some (ptr l1, w) end) = Some (ptr l1, w)) as -> by (by destruct w). cbn [mbind option_bind]. rewrite lpEncodeGetType_spec by done. cbn [mbind option_bind]. rewrite get_total by apply Hok. fold total. cbn [mbind option_bind]. rewrite Er. cbn [mbind option_bind].
  pose proof (ok_small _ _ Hok) as Hsm. unfold small in *. fold new. fold total in Hsm. pose proof (enc_length s Hs) as He. pose proof (backlen_length (zlen (enc s))) as Hl. assert (zlen (entry s) = zlen (enc s) + zlen (lpEncodeBacklen (zlen (enc s)))) as Ee by (unfold entry; rewrite length_app; lia).
  assert (new = total + zlen (entry s) - zlen (body x) ∧ zlen (body x) ≤ total) as [En Hx] by (unfold new, total; rewrite !lp_body_app, !length_app, body_one; lia). rewrite wrap_u_small by (unfold in_u; lia). replace (total + zlen (enc s) + zlen (lpEncodeBacklen (zlen (enc s))) - zlen (body x)) with new by lia.
  destruct (Z.ltb_spec 4294967295 new) as [Hb|Hb]; [by rewrite bool_decide_eq_false_2 by lia|]. rewrite bool_decide_eq_true_2 by lia. set (a := header total n ++ body l1). assert (ptr l1 = zlen a) as Ep by (symmetry; apply prefix_length). rewrite Ep. rewrite (block_parts l1 x l2 n). fold total. fold a.
  destruct (move_spec a (body x) (body l2 ++ [LP_EOF]) (zlen (enc s) + zlen (lpEncodeBacklen (zlen (enc s)))) total new) as (g & -> & Hg); [unfold total; rewrite <-(block_length _ n); f_equal; f_equal; exact (block_parts l1 x l2 n)|lia|lia|]. cbn [mbind option_bind]. rewrite write_spec by (done || lia). cbn [mbind option_bind].
  assert (∀ n', header new n' ++ body l1 ++ entry s ++ body l2 ++ [LP_EOF] = block (l1 ++ [s] ++ l2) n') as Ebl by (intros n'; unfold block; fold new; f_equal; rewrite !lp_body_app, body_one; by rewrite <-!app_assoc). assert (a ++ entry s ++ body l2 ++ [LP_EOF] = header total n ++ body l1 ++ entry s ++ body l2 ++ [LP_EOF]) as -> by (unfold a; by rewrite <-app_assoc).
  rewrite get_num by (eapply num_range, Hok). cbn [mbind option_bind]. destruct w; cbn [count_after] in *; [|done|cbn [mbind option_bind]; rewrite set_total; cbn [mbind option_bind]; by rewrite Ebl].
  destruct (n =? LP_HDR_NUMELE_UNKNOWN); cbn [negb]; [cbn [mbind option_bind]|rewrite set_num; cbn [mbind option_bind]]; rewrite set_total; cbn [mbind option_bind]; by rewrite Ebl.
Qed.

Lemma delete_core n l1 s l2 : lp_ok n (l1 ++ [s] ++ l2) →
  lpDelete junk (block (l1 ++ [s] ++ l2) n) (ptr l1) = Some (Some (block (l1 ++ l2) (if n =? LP_HDR_NUMELE_UNKNOWN then n else n - 1), ptr_or_null l1 l2)).
Proof.
  intros Hok. pose proof (replaced_length _ _ [s] _ LP_REPLACE Hok (ex_intro _ s eq_refl)) as Er. unfold lpDelete, lpInsert. set (total := 7 + zlen (body (l1 ++ [s] ++ l2))) in *. set (new := 7 + zlen (body (l1 ++ l2))). cbn [mbind option_bind] in *. rewrite get_total by apply Hok. fold total. cbn [mbind option_bind] in *. rewrite Er. cbn [mbind option_bind]. change (zlen []) with 0. pose proof (ok_small _ _ Hok) as Hsm. unfold small in Hsm. fold total in Hsm.
  assert (new = total - zlen (body [s])) as En by (unfold new, total; rewrite !lp_body_app, !length_app; lia). rewrite wrap_u_small by (unfold in_u; lia). replace (total + 0 + 0 - zlen (body [s])) with new by lia. rewrite (proj2 (Z.ltb_ge 4294967295 new)) by lia. set (a := header total n ++ body l1). assert (ptr l1 = zlen a) as Ep by (symmetry; apply prefix_length). rewrite (block_parts l1 [s] l2 n). fold total. fold a. rewrite Ep at 1.
  destruct (move_spec a (body [s]) (body l2 ++ [LP_EOF]) (0 + 0) total new) as (g & -> & Hg); [unfold total; rewrite <-(block_length _ n); f_equal; f_equal; exact (block_parts l1 [s] l2 n)|lia|lia|]. cbn [mbind option_bind]. destruct g; [cbn [app]|cbn in Hg; lia].
  set (n' := if n =? LP_HDR_NUMELE_UNKNOWN then n else n - 1). assert (lp_ok n' (l1 ++ l2)) as Hok'. { pose proof (ok_fits _ _ Hok) as Hf. apply fits_parts in Hf as (H1 & _ & H2). split; [eapply count_delete, Hok|by apply Forall_app|unfold small; fold new; lia]. }
  destruct (peek_ptr n' _ Hok' l1 l2 eq_refl) as (b & Hb & Eb). assert (peek (a ++ body l2 ++ [LP_EOF]) (ptr l1) = Some b) as ->. { rewrite <-Hb. destruct (block_split l1 l2 n') as (a' & -> & El). rewrite Ep in *. assert (body l2 ++ [LP_EOF] ≠ []) as Hne by (by destruct (body l2)). destruct (body l2 ++ [LP_EOF]) as [|y ys]; [done|]. by rewrite !peek_app by (done || lia). }
  cbn [mbind option_bind]. rewrite Eb. assert (∀ n', header new n' ++ body l1 ++ body l2 ++ [LP_EOF] = block (l1 ++ l2) n') as Ebl by (intros m; unfold block; fold new; f_equal; rewrite lp_body_app; by rewrite <-app_assoc). assert (a ++ body l2 ++ [LP_EOF] = header total n ++ body l1 ++ body l2 ++ [LP_EOF]) as -> by (unfold a; by rewrite <-app_assoc).
  pose proof (num_range _ _ (ok_num _ _ Hok)) as Hnr. rewrite get_num by done. cbn [mbind option_bind]. unfold n'. pose proof (ok_num _ _ Hok) as Hnum. destruct (Z.eqb_spec n LP_HDR_NUMELE_UNKNOWN) as [En'|En']; cbn [negb]; cbn [mbind option_bind]; [rewrite set_total; cbn [mbind option_bind]; by rewrite Ebl|].
  destruct Hnum as [[Hnum _]|?]; [|done]. rewrite !length_app in Hnum. cbn [length] in Hnum. rewrite wrap_u_small by (unfold in_u; lia). rewrite set_num. cbn [mbind option_bind]. rewrite set_total. cbn [mbind option_bind]. by rewrite Ebl.
Qed.

End Change.

(** ** Sequences of operations *)

(** Operations of a client that keeps a pointer to an element. *)
Inductive lpop :=
  | LpFirst
  | LpLast
  | LpSeek (index : Z)
  | LpNext
  | LpPrev
  | LpGet
  | LpInsert (w : lpwhere) (s : list Z)
  | LpDelete
  | LpAppend (s : list Z)
  | LpLength
  | LpBytes.

(** Whether a pointer is not NULL, an element, a number, or whether the change was made. *)
Inductive lpreply := RPointer (b : bool) | RElement (s : list Z) | RNumber (n : Z) | RChanged (b : bool).

(** [None]: the operation needs a pointer and the client has none, or it runs into an invalid access.
    After an append the old pointer may be dangling. *)
Definition lp_step (junk : nat → Z) (op : lpop) (st : list Z * option Z) : option (list Z * option Z * lpreply) :=
  let '(lp, cur) := st in
  let go (r : option (option Z)) := q ← r; Some (lp, q, RPointer (bool_decide (is_Some q))) in
  let change (r : option (option (list Z * option Z))) := r ← r; Some (match r with Some st => (st, RChanged true) | None => (st, RChanged false) end) in
  match op with
  | LpFirst => go (lpFirst lp)
  | LpLast => go (lpLast lp)
  | LpSeek index => go (lpSeek lp index)
  | LpNext => p ← cur; go (lpNext lp p)
  | LpPrev => p ← cur; go (lpPrev lp p)
  | LpGet => p ← cur; t ← lpGet_text lp p; Some (st, RElement t)
  | LpInsert w s => p ← cur; change (lpInsert junk lp (Some s) (zlen s) p w)
  | LpDelete => p ← cur; change (lpDelete junk lp p)
  | LpAppend s => r ← lpAppend junk lp s (zlen s); Some (match r with Some lp => (lp, None, RChanged true) | None => (st, RChanged false) end)
  | LpLength => '(lp, n) ← lpLength lp; Some (lp, cur, RNumber n)
  | LpBytes => n ← lpBytes lp; Some (st, RNumber n)
  end.

Fixpoint lp_run (junk : nat → Z) (ops : list lpop) (st : list Z * option Z) : option (list Z * option Z * list lpreply) :=
  match ops with
  | [] => Some (st, [])
  | op :: ops => '(st, r) ← lp_step junk op st; '(st, rs) ← lp_run junk ops st; Some (st, r :: rs)
  end.

(** The same on a list of strings and an index.  The size of an element must be less than 4 GB with
    its header; a change that makes the listpack too large is refused. *)
Abbreviation astate := (list (list Z) * option nat)%type.

Definition a_change (st : astate) (l : list (list Z)) (k : option nat) : astate * lpreply := if bool_decide (small l) then (l, k, RChanged true) else (st, RChanged false).

Definition a_insert (w : lpwhere) (s : list Z) (k : nat) (l : list (list Z)) : list (list Z) * nat :=
  match w with
  | LP_BEFORE => (take k l ++ [s] ++ drop k l, k)
  | LP_AFTER => (take (S k) l ++ [s] ++ drop (S k) l, S k)
  | LP_REPLACE => (take k l ++ [s] ++ drop (S k) l, k)
  end.

Definition a_step (op : lpop) (st : astate) : option (astate * lpreply) :=
  let '(l, cur) := st in
  let go (q : option nat) := Some (l, q, RPointer (bool_decide (is_Some q))) in
  match op with
  | LpFirst => go (a_seek (length l) 0)
  | LpLast => go (a_seek (length l) (-1))
  | LpSeek index => go (a_seek (length l) index)
  | LpNext => k ← cur; go (if bool_decide (S k < length l)%nat then Some (S k) else None)
  | LpPrev => k ← cur; go (match k with O => None | S k => Some k end)
  | LpGet => k ← cur; s ← l !! k; Some (st, RElement s)
  | LpInsert w s => k ← cur; if bool_decide (fits s) then let '(l, k) := a_insert w s k l in Some (a_change st l (Some k)) else None
  | LpDelete => k ← cur; Some (take k l ++ drop (S k) l, if bool_decide (S k < length l)%nat then Some k else None, RChanged true)
  | LpAppend s => if bool_decide (fits s) then Some (a_change st (l ++ [s]) None) else None
  | LpLength => Some (st, RNumber (zlen l))
  | LpBytes => Some (st, RNumber (7 + zlen (body l)))
  end.

Fixpoint a_run (ops : list lpop) (st : astate) : option (astate * list lpreply) :=
  match ops with
  | [] => Some (st, [])
  | op :: ops => '(st, r) ← a_step op st; '(st, rs) ← a_run ops st; Some (st, r :: rs)
  end.

(** The block of a list, with the pointer of an index. *)
Definition at_index (l : list (list Z)) (k : nat) : Z := ptr (take k l).

Definition represents (st : list Z * option Z) (a : astate) : Prop :=
  ∃ n, st.1 = block a.1 n ∧ lp_ok n a.1 ∧ st.2 = at_index a.1 <$> a.2 ∧ (∀ k, a.2 = Some k → (k < length a.1)%nat).

Lemma a_seek_lt len index k : a_seek len index = Some k → (k < len)%nat.
Proof. unfold a_seek. destruct (_ && _) eqn:E; [|done]. apply andb_true_iff in E as [H1%Z.leb_le H2%Z.ltb_lt]. intros [= <-]. lia. Qed.

Lemma split_at (l : list (list Z)) k : (k < length l)%nat → ∃ s, l !! k = Some s ∧ l = take k l ++ s :: drop (S k) l ∧ take (S k) l = take k l ++ [s].
Proof. intros Hk. destruct (lookup_lt_is_Some_2 l k Hk) as [s Hs]. exists s. split_and!; [done|symmetry; by apply take_drop_middle|by apply take_S_r]. Qed.

(** A pointer that is moved. *)
Lemma go_spec l n q : lp_ok n l → (∀ k, q = Some k → (k < length l)%nat) → represents (block l n, at_index l <$> q) (l, q).
Proof. intros Hok Hq. by exists n. Qed.

Lemma ptr_or_null_index l k : ptr_or_null (take k l) (drop k l) = at_index l <$> (if bool_decide (k < length l)%nat then Some k else None).
Proof. case_bool_decide as H; [destruct (split_at l k H) as (s & Hs & _); by rewrite (drop_S l s k Hs)|by rewrite drop_ge by lia]. Qed.

Lemma is_some_fmap {A B} (f : A → B) (o : option A) : bool_decide (is_Some (f <$> o)) = bool_decide (is_Some o).
Proof. apply bool_decide_ext. by rewrite fmap_is_Some. Qed.

Lemma first_index n l : lp_ok n l → lpFirst (block l n) = Some (at_index l <$> a_seek (length l) 0).
Proof.
  intros Hok. rewrite (lp_first_spec _ _ Hok). f_equal. pose proof (ptr_or_null_index l 0) as H. rewrite take_0, drop_0 in H. rewrite H. f_equal. unfold a_seek. cbn [Z.ltb Z.compare Z.leb andb]. case_bool_decide; [by rewrite (proj2 (Z.ltb_lt 0 (zlen l))) by lia|by rewrite (proj2 (Z.ltb_ge 0 (zlen l))) by lia].
Qed.

Lemma back_index l1 l2 : back l1 = at_index (l1 ++ l2) <$> (match length l1 with O => None | S k => Some k end).
Proof.
  induction l1 as [|s l1 _] using rev_ind; [done|]. rewrite back_snoc, length_app, Nat.add_1_r. cbn [fmap option_fmap option_map]. unfold at_index. by rewrite <-app_assoc, take_app_length.
Qed.

Lemma last_index n l : lp_ok n l → lpLast (block l n) = Some (at_index l <$> a_seek (length l) (-1)).
Proof.
  intros Hok. rewrite (lp_last_spec _ _ Hok). fold (back l). rewrite (back_index l []), app_nil_r. do 2 f_equal. unfold a_seek. cbn [Z.ltb Z.compare]. destruct (length l) as [|k]; [done|]. rewrite (proj2 (Z.leb_le _ _)), (proj2 (Z.ltb_lt _ _)) by lia. cbn [andb]. f_equal. lia.
Qed.

Lemma append_spec junk n l s : lp_ok n l → fits s → lpAppend junk (block l n) s (zlen s) = Some (if bool_decide (small (l ++ [s])) then Some (block (l ++ [s]) (count_after LP_BEFORE n)) else None).
Proof.
  intros Hok Hs. unfold lpAppend. rewrite get_total by apply Hok. cbn [mbind option_bind]. replace (7 + zlen (body l) - 1) with (ptr l) by (unfold ptr, LP_HDR_SIZE; lia). pose proof (insert_core junk n l [] [] s LP_BEFORE) as H. cbn [app] in H. rewrite app_nil_r in H. rewrite H by done. cbn [mbind option_bind]. by case_bool_decide.
Qed.

Lemma new_spec junk : lpNew junk = Some (block [] 0).
Proof.
  unfold lpNew. assert (∃ b0 b1 b2 b3 b4 b5 b6, realloc junk [] (LP_HDR_SIZE + 1) = [b0; b1; b2; b3; b4; b5; b6]) as (b0 & b1 & b2 & b3 & b4 & b5 & b6 & ->) by (by repeat eexists). reflexivity.
Qed.

Lemma ok_fits_insert n l1 x l2 s w : lp_ok n (l1 ++ x ++ l2) → fits s → replaces w x → small (l1 ++ [s] ++ l2) → lp_ok (count_after w n) (l1 ++ [s] ++ l2).
Proof.
  intros [Hn Hf Hs] Hfit Hw Hsm. apply fits_parts in Hf as (H1 & _ & H2). split; [|apply fits_parts; split_and!; [done|by constructor|done]|done]. destruct w; cbn in Hw; [subst x; by apply count_insert|done|]. destruct Hw as [s0 ->]. unfold num_ok in *. by rewrite !length_app in *.
Qed.

(** The whole of an insertion at an element. *)
Lemma insert_index junk n l k w s : lp_ok n l → fits s → (k < length l)%nat → let '(l', k') := a_insert w s k l in
  (∃ n', lpInsert junk (block l n) (Some s) (zlen s) (at_index l k) w = Some (if bool_decide (small l') then Some (block l' n', Some (at_index l' k')) else None) ∧ (small l' → lp_ok n' l')) ∧ (k' < length l')%nat.
Proof.
  intros Hok Hs Hk. destruct (split_at l k Hk) as (s0 & Hs0 & El & Et). assert (∀ x j l2, (j ≤ length l)%nat → take j (take j l ++ x ++ l2) = take j l) as Htake. { intros x j l2 Hj. by rewrite take_app_le, take_take, Nat.min_id by (rewrite length_take; lia). }
  destruct w; cbn [a_insert]; (split; [|rewrite !length_app, length_take, length_drop; cbn [length]; lia]).
  - exists (count_after LP_BEFORE n). pose proof (insert_core junk n (take k l) [] (drop k l) s LP_BEFORE) as H. pose proof (ok_fits_insert n (take k l) [] (drop k l) s LP_BEFORE) as Hok'. cbn [app] in H, Hok'. rewrite take_drop in H, Hok'. unfold at_index. rewrite Htake by lia. split; [by apply H|by apply Hok'].
  - exists (count_after LP_BEFORE n). pose proof (insert_core junk n (take (S k) l) [] (drop (S k) l) s LP_BEFORE) as H. pose proof (ok_fits_insert n (take (S k) l) [] (drop (S k) l) s LP_BEFORE) as Hok'. cbn [app] in H, Hok'. rewrite take_drop in H, Hok'. unfold at_index. rewrite Htake by lia. split; [|by apply Hok'].
    etrans; [|by apply H]. unfold lpInsert. rewrite (lp_skip_spec n l Hok (take k l) s0 (drop (S k) l) El). by rewrite Et.
  - exists (count_after LP_REPLACE n). pose proof (insert_core junk n (take k l) [s0] (drop (S k) l) s LP_REPLACE) as H. pose proof (ok_fits_insert n (take k l) [s0] (drop (S k) l) s LP_REPLACE) as Hok'. change ([s0] ++ drop (S k) l) with (s0 :: drop (S k) l) in H, Hok'. rewrite <-El in H, Hok'. unfold at_index. rewrite Htake by lia. split; [apply H; [done|done|by eexists]|intros Hsm; apply Hok'; [done|done|by eexists|done]].
Qed.

Lemma delete_index junk n l k : lp_ok n l → (k < length l)%nat → let l' := take k l ++ drop (S k) l in let k' := if bool_decide (S k < length l)%nat then Some k else None in
  ∃ n', lpDelete junk (block l n) (at_index l k) = Some (Some (block l' n', at_index l' <$> k')) ∧ lp_ok n' l' ∧ (∀ j, k' = Some j → (j < length l')%nat).
Proof.
  intros Hok Hk. cbn zeta. destruct (split_at l k Hk) as (s & Hs & El & Et). pose proof (delete_core junk n (take k l) s (drop (S k) l)) as H. change ([s] ++ drop (S k) l) with (s :: drop (S k) l) in H. rewrite <-El in H. eexists. unfold at_index at 1. rewrite H by done. assert (length (take k l ++ drop (S k) l) = (length l - 1)%nat) as Hl by (rewrite length_app, length_take, length_drop; lia). split_and!.
  - do 3 f_equal. pose proof (ptr_or_null_index (take k l ++ drop (S k) l) k) as Hp. rewrite take_app_le, take_take, Nat.min_id in Hp by (rewrite length_take; lia). rewrite drop_app_ge in Hp by (rewrite length_take; lia). rewrite length_take, Nat.min_l, Nat.sub_diag, drop_0 in Hp by lia. rewrite Hp. f_equal. rewrite Hl. repeat case_bool_decide; done || lia.
  - pose proof Hok as [Hn Hf Hsm]. rewrite El in Hn, Hf, Hsm. change (s :: drop (S k) l) with ([s] ++ drop (S k) l) in Hn, Hf, Hsm. apply fits_parts in Hf as (H1 & _ & H2). split; [by eapply count_delete|by apply Forall_app|]. unfold small in *. rewrite !lp_body_app, !length_app in *. lia.
  - intros j. case_bool_decide; [|done]. intros [= <-]. lia.
Qed.

Lemma step_spec junk op st a a' r : represents st a → a_step op a = Some (a', r) → ∃ st', lp_step junk op st = Some (st', r) ∧ represents st' a'.
Proof.
  destruct st as [lp cur], a as [l k]. intros (n & Elp & Hok & Ecur & Hk) Ha. cbn [fst snd] in Elp, Hok, Ecur, Hk. subst lp cur.
  assert (∀ q q', q = at_index l <$> q' → (∀ j, q' = Some j → (j < length l)%nat) → Some (l, q', RPointer (bool_decide (is_Some q'))) = Some (a', r) → ∃ st', Some (block l n, q, RPointer (bool_decide (is_Some q))) = Some (st', r) ∧ represents st' a') as Hgo. { intros q q' -> Hq [= <- <-]. eexists. rewrite is_some_fmap. split; [done|by apply go_spec]. }
  destruct op; cbn [lp_step a_step] in *.
  - rewrite (first_index _ _ Hok). cbn [mbind option_bind]. eapply Hgo; [done|apply a_seek_lt|done].
  - rewrite (last_index _ _ Hok). cbn [mbind option_bind]. eapply Hgo; [done|apply a_seek_lt|done].
  - rewrite (seek_spec _ _ Hok). cbn [mbind option_bind]. eapply (Hgo _ (a_seek (length l) index)); [done|apply a_seek_lt|done].
  - destruct k as [k|]; [|done]. cbn [fmap option_fmap option_map mbind option_bind] in *. specialize (Hk k eq_refl). destruct (split_at l k Hk) as (s & Hs & El & Et). unfold at_index at 1. rewrite (lp_next_spec n l Hok (take k l) s (drop (S k) l) El). cbn [mbind option_bind]. rewrite <-Et, ptr_or_null_index. eapply Hgo; [done| |done]. intros j. case_bool_decide; [|done]. by intros [= <-].
  - destruct k as [k|]; [|done]. cbn [fmap option_fmap option_map mbind option_bind] in *. specialize (Hk k eq_refl). unfold at_index at 1. rewrite (prev_back n l Hok (take k l) (drop k l)) by (by rewrite take_drop). cbn [mbind option_bind]. rewrite (back_index (take k l) (drop k l)), take_drop, length_take, Nat.min_l by lia. eapply Hgo; [done| |done]. intros j. destruct k; [done|]. intros [= <-]. lia.
  - destruct k as [k|]; [|done]. cbn [fmap option_fmap option_map mbind option_bind] in *. specialize (Hk k eq_refl). destruct (split_at l k Hk) as (s & Hs & El & Et). rewrite Hs in Ha. cbn [mbind option_bind] in Ha. injection Ha as <- <-. change (lpGet_text (block l n) (at_index l k)) with (lpGet_text (block l n) (ptr (take k l))). destruct (at_entry n l Hok (take k l) s (drop (S k) l) El) as (_ & -> & _). cbn [mbind option_bind]. eexists. split; [done|]. exists n. split_and!; [done|done|done|]. intros j [= <-]. done.
  - destruct k as [k|]; [|done]. cbn [fmap option_fmap option_map mbind option_bind] in *. specialize (Hk k eq_refl). case_bool_decide as Hs; [|done]. pose proof (insert_index junk n l k w s Hok Hs Hk) as H. destruct (a_insert w s k l) as [l' k']. destruct H as [(n' & -> & Hok') Hk']. cbn [mbind option_bind]. unfold a_change in Ha. case_bool_decide as Hsm; injection Ha as <- <-; (eexists; split; [done|]).
    + exists n'. split_and!; [done|by apply Hok'|done|]. by intros j [= <-].
    + exists n. split_and!; [done|done|done|]. by intros j [= <-].
  - destruct k as [k|]; [|done]. cbn [fmap option_fmap option_map mbind option_bind] in *. specialize (Hk k eq_refl). injection Ha as <- <-. destruct (delete_index junk n l k Hok Hk) as (n' & -> & Hok' & Hk'). cbn [mbind option_bind]. eexists. split; [done|]. by exists n'.
  - case_bool_decide as Hs; [|done]. rewrite (append_spec junk n l s Hok Hs). cbn [mbind option_bind]. unfold a_change in Ha. case_bool_decide as Hsm; injection Ha as <- <-; (eexists; split; [done|]).
    + exists (count_after LP_BEFORE n). split_and!; [done| |done|done]. pose proof (ok_fits_insert n l [] [] s LP_BEFORE) as H. cbn [app] in H. rewrite app_nil_r in H. by apply H.
    + by exists n.
  - destruct (lp_length_spec n l Hok) as (n' & -> & Hok'). cbn [mbind option_bind]. injection Ha as <- <-. eexists. split; [done|]. by exists n'.
  - unfold lpBytes. rewrite get_total by apply Hok. cbn [mbind option_bind]. injection Ha as <- <-. eexists. split; [done|]. by exists n.
Qed.

Lemma run_spec junk ops : ∀ st a a' rs, represents st a → a_run ops a = Some (a', rs) → ∃ st', lp_run junk ops st = Some (st', rs) ∧ represents st' a'.
Proof.
  induction ops as [|op ops IH]; intros st a a' rs Hr Ha; cbn [lp_run a_run] in *; [injection Ha as <- <-; by exists st|]. destruct (a_step op a) as [[a1 r]|] eqn:E1; [|done]. cbn [mbind option_bind] in Ha. destruct (a_run ops a1) as [[a2 rs']|] eqn:E2; [|done]. cbn [mbind option_bind] in Ha. injection Ha as <- <-. destruct (step_spec junk op st a a1 r Hr E1) as (st1 & -> & Hr1). cbn [mbind option_bind]. destruct (IH _ _ _ _ Hr1 E2) as (st2 & -> & Hr2). cbn [mbind option_bind]. by exists st2.
Qed.

(** C21: any sequence of operations on a listpack, from its creation on, by a client that keeps a
    pointer to an element, uses it only when it has one, and stores only elements that are more than
    five bytes shorter than 4 GB ([fits]), stays inside of the block, ends, and has the results of the
    same operations on a list of strings with an index: integers come back as the texts that were
    stored, pointers after a change are at the new element, and a change is refused exactly when the
    block would reach 4 GB.  At the end the block is the canonical encoding of the list.  For longer
    elements the 32 bit sum of the length and its header wraps around, and the change is not refused
    ([length_wraps]). *)
Theorem listpack_refines_list junk ops a rs : a_run ops ([], None) = Some (a, rs) →
  ∃ lp st, lpNew junk = Some lp ∧ lp_run junk ops (lp, None) = Some (st, rs) ∧ represents st a.
Proof.
  intros Ha. exists (block [] 0). destruct (run_spec junk ops (block [] 0, None) ([], None) a rs) as (st & E & Hr); [|done|].
  - exists 0. split_and!; [done| |done|done]. split; [by left|by constructor|done].
  - exists st. split; [apply new_spec|done].
Qed.

Definition demo_ops : list lpop :=
  [LpAppend (str "one"); LpAppend (str "-5000"); LpAppend (str "007"); LpSeek (-2); LpGet; LpInsert LP_AFTER (str "9223372036854775807"); LpGet; LpNext; LpGet; LpInsert LP_REPLACE []; LpPrev; LpPrev; LpPrev; LpDelete; LpGet; LpNext; LpNext; LpGet; LpNext; LpLength; LpBytes].

Lemma listpack_refines_list_witness :
  a_run demo_ops ([], None) = Some ([str "-5000"; str "9223372036854775807"; []], None,
    [RChanged true; RChanged true; RChanged true; RPointer true; RElement (str "-5000"); RChanged true; RElement (str "9223372036854775807"); RPointer true; RElement (str "007"); RChanged true; RPointer true; RPointer true; RPointer true; RChanged true;
     RElement (str "-5000"); RPointer true; RPointer true; RElement []; RPointer false; RNumber 3; RNumber 23]) ∧
  ∃ lp st, lpNew (λ _, 7) = Some lp ∧ lp_run (λ _, 7) demo_ops (lp, None) = Some (st,
    [RChanged true; RChanged true; RChanged true; RPointer true; RElement (str "-5000"); RChanged true; RElement (str "9223372036854775807"); RPointer true; RElement (str "007"); RChanged true; RPointer true; RPointer true; RPointer true; RChanged true;
     RElement (str "-5000"); RPointer true; RPointer true; RElement []; RPointer false; RNumber 3; RNumber 23]) ∧ represents st ([str "-5000"; str "9223372036854775807"; []], None).
Proof.
  assert (a_run demo_ops ([], None) = Some ([str "-5000"; str "9223372036854775807"; []], None,
    [RChanged true; RChanged true; RChanged true; RPointer true; RElement (str "-5000"); RChanged true; RElement (str "9223372036854775807"); RPointer true; RElement (str "007"); RChanged true; RPointer true; RPointer true; RPointer true; RChanged true;
     RElement (str "-5000"); RPointer true; RPointer true; RElement []; RPointer false; RNumber 3; RNumber 23])) as H by (vm_compute; reflexivity).
  split; [exact H|]. exact (listpack_refines_list (λ _, 7) demo_ops _ _ H).
Defined.

(** The length of a string near 4 GB: the encoded length wraps around, and the room that is made is
    far too small for the string that is written. *)
Lemma length_wraps s : lp_int s = None → zlen s = 2 ^ 32 - 3 → lpEncodeGetType s (zlen s) = Some (None, 2).
Proof. intros Hi Hl. unfold lpEncodeGetType. rewrite (proj1 (lp_int_spec s)), Hi. cbn [mbind option_bind]. by rewrite Hl. Qed.
