(* ===== verification/Object.v ===== *)
(** What the types of values share: replies, integers that are kept as strings (object.c), and
    hash tables with strings as keys. *)

From stdpp Require Import list numbers strings gmap.
From S2P Require Import Prelude Util Glob SdsText Dict.

(** What the handlers send to a client. *)
Inductive reply :=
  | RInt (n : Z)
  | ROk
  | RStatus (msg : string)
  | RNullBulk
  | RBulk (s : bytes)
  | RMultiBulk (n : Z) (l : list (option bytes))
  | RError (msg : string).

(** The value of a key: an object of the type a command expects, or of another type. *)
Inductive dbval {A} := VObj (o : A) | VOther (v : Z).
Arguments dbval : clear implicits.

(** [signalModifiedKey] and [notifyKeyspaceEvent] *)
Inductive effect := Signal (key : bytes) | Notify (event : string) (key : bytes).

Definition wrongtypeerr : reply := RError "-WRONGTYPE Operation against a key holding the wrong kind of value".

Definition nokeyerr : reply := RError "-ERR no such key".
Definition syntaxerr : reply := RError "-ERR syntax error".
Definition outofrangeerr : reply := RError "-ERR index out of range".
Definition notintegererr : reply := RError "-ERR value is not an integer or out of range".

(** ** Words *)

(** The string up to its terminator, compared without case: [strcasecmp(s, t) == 0]. *)
Fixpoint c_text (s : bytes) : bytes := match s with [] => [] | c :: s => if c =? 0 then [] else c :: c_text s end.
Definition strcasecmp_eq (s t : bytes) : bool := bool_decide ((tolower <$> c_text s) = t).

(** Arguments in pairs. *)
Fixpoint pairs {A} (l : list A) : list (A * A) := match l with k :: v :: l => (k, v) :: pairs l | _ => [] end.

Lemma pairs_forall {A} (P : A → Prop) : ∀ l : list A, Forall P l → Forall P (pairs l).*2 ∧ zlen (pairs l) ≤ zlen l.
Proof.
  fix IH 1. intros [|k [|v l]] H; cbn [pairs fmap list_fmap length]; [split; [constructor|lia]..|]. apply Forall_cons in H as [_ [Hv H]%Forall_cons]. destruct (IH l H). split; [by constructor|lia].
Qed.

(** ** Integers *)

(** [getLongFromObjectOrReply] for a string and a [long] of 64 bits; [None]: C_ERR. *)
Definition getLongFromObject (s : bytes) : option (option Z) := string2ll s (zlen s).

(** [Some z]: C_OK with [*llval]; [None]: C_ERR. *)
Definition isSdsRepresentableAsLongLong (s : bytes) : option (option Z) := string2ll s (zlen s).

(** The integer a string denotes and the text of an integer. *)
Definition to_int (s : bytes) : option Z := default None (string2ll s (zlen s)).
Definition of_int (z : Z) : bytes := default [] (sdsll2str z).

Lemma to_int_spec s z : to_int s = Some z ↔ canonical s z ∧ in_s 64 z.
Proof. unfold to_int. destruct (string2ll_spec s) as (r & -> & Hr). apply Hr. Qed.

Lemma to_int_eq s : string2ll s (zlen s) = Some (to_int s).
Proof. unfold to_int. by destruct (string2ll_spec s) as (r & -> & _). Qed.

Lemma of_int_eq z : in_s 64 z → sdsll2str z = Some (of_int z) ∧ canonical (of_int z) z.
Proof. intros Hz. unfold of_int. destruct (sdsll2str_spec z Hz) as (s & -> & Hc & _). done. Qed.

Lemma to_of_int z : in_s 64 z → to_int (of_int z) = Some z.
Proof. intros Hz. apply to_int_spec. split; [by apply of_int_eq|done]. Qed.

Lemma of_to_int s z : to_int s = Some z → s = of_int z ∧ in_s 64 z.
Proof. intros [Hc Hz]%to_int_spec. split; [|done]. eapply canonical_unique; [done|]. by apply of_int_eq. Qed.

Lemma of_int_inj z z' : in_s 64 z → in_s 64 z' → of_int z = of_int z' → z = z'.
Proof. intros Hz Hz' E. apply (f_equal to_int) in E. rewrite !to_of_int in E by done. by injection E. Qed.

(** [ll2string] into a buffer of [size] bytes. *)
Definition ll_text (junk : nat → Z) (size n : Z) : option bytes := '(buf, len) ← ll2string (realloc junk [] size) size n; slice buf 0 len.

Lemma ll_text_spec junk size i : 32 ≤ size → in_s 64 i → ll_text junk size i = Some (of_int i).
Proof.
  intros Hs Hi. unfold ll_text. destruct (ll2string_spec (realloc junk [] size) size i Hi) as (t & Hc & Hl & ->); [unfold realloc; rewrite length_app, length_take, length_fmap, length_seq; cbn [length]; lia|].
  rewrite (proj2 (Z.leb_gt _ _)) by lia. cbn [mbind option_bind]. etrans; [by apply (slice_app [] t)|]. f_equal. eapply canonical_unique; [done|]. by apply of_int_eq.
Qed.

(** ** Tables with strings as keys *)

Definition HASHTABLE_MIN_FILL : Z := 10.

Section Table.

Context {V : Type} (ty : dictType bytes) `{!DictTypeOk ty}.

Implicit Types (d : dict bytes V).

Definition htNeedsResize d : bool :=
  (DICT_HT_INITIAL_SIZE <? dictSlots d) && (Z.quot (dictSize d * 100) (dictSlots d) <? HASHTABLE_MIN_FILL).

(** A deletion, after which the table may shrink. *)
Lemma delete_resize_spec cr d k :
  dict_inv ty d → Z.of_nat (size (dict_map d)) < 2 ^ 62 →
  ∃ d' st, dictDelete ty d k = Some (d', st) ∧ dict_inv ty d' ∧ dict_map d' = delete k (dict_map d) ∧
    st = (if decide (is_Some (dict_map d !! k)) then DICT_OK else DICT_ERR) ∧
    ∃ d2, (if htNeedsResize d' then '(d, _) ← dictResize cr d'; Some d else Some d') = Some d2 ∧ dict_inv ty d2 ∧ dict_map d2 = dict_map d'.
Proof.
  intros Hd Hsz. unfold dictDelete. destruct (dictGenericDelete_spec ty d k Hd) as (d1 & -> & Hd1 & Hm1 & _). cbn [mbind option_bind].
  eexists d1, _. split; [done|]. split; [done|]. split; [done|]. split; [by destruct (dict_map d !! k)|].
  destruct (htNeedsResize d1); [|by exists d1]. destruct (run_op_spec ty d1 (OpResize cr) Hd1 I) as (d2 & He & Hd2 & Hm2).
  { rewrite Hm1, map_size_delete. destruct (_ !! _); cbn; lia. }
  cbn [run_op map_op fst snd] in *. destruct (dictResize cr d1) as [[d3 st]|]; [|done]. cbn [mbind option_bind] in *. injection He as ->. by exists d2.
Qed.

End Table.

(** A table whose keys are hashed and compared by their bytes. *)
Definition bytesDictType : dictType bytes :=
  {| hashFunction k := foldr (λ c h, (h * 33 + c) mod 2 ^ 64) 5381 k; keyCompare k1 k2 := bool_decide (k1 = k2) |}.

#[export] Instance bytesDictType_ok : DictTypeOk bytesDictType.
Proof.
  split; cbn [hashFunction keyCompare bytesDictType].
  - intros [|c k]; cbn [foldr]; [unfold in_u; lia|]. by apply Z.mod_pos_bound.
  - intros k1 k2. apply bool_decide_eq_true.
Qed.
