(* ===== verification/Replication.v ===== *)
(** Replication (replication.c): the backlog, the stream of a master to its replicas, and partial
    and full resynchronizations.

    A server is seen from its replicas: [Replica]s that wait for a dump or follow the stream, and the
    backlog, a circular buffer with the last bytes of the stream.  The output of a replica is
    everything that was put into its output buffer, including what was sent already.  Random
    replication IDs, the outcomes of forks and writes and the timers are arguments of the events.
    [None] is a failed assertion or an access outside of a buffer.  Offsets do not overflow. *)

From stdpp Require Import list numbers strings gmap.
From S2P Require Import Prelude Util Glob SdsText Resp Object.

(** ** State *)

Definition CONFIG_REPL_BACKLOG_MIN_SIZE : Z := 1024 * 16.
Definition PROTO_SHARED_SELECT_CMDS : Z := 10.
Definition LONG_STR_SIZE : Z := 21.
Definition OBJ_SHARED_BULKHDR_LEN : Z := 32.
Definition CONFIG_RUN_ID_SIZE : Z := 40.
Definition SLAVE_CAPA_EOF : Z := 1.
Definition SLAVE_CAPA_PSYNC2 : Z := 2.

Inductive replstate := WAIT_BGSAVE_START | WAIT_BGSAVE_END | SEND_BULK | ONLINE.

#[export] Instance replstate_eq_dec : EqDecision replstate.
Proof. solve_decision. Defined.

Record replica := Replica { r_id : Z; r_state : replstate; psync_initial_offset : Z; r_out : bytes; slave_capa : Z; pre_psync : bool }.

Record backlog := Backlog { bl_buf : bytes; histlen : Z; idx : Z; off : Z }.

(** The link to the master: REPL_STATE_TRANSFER, REPL_STATE_CONNECTED, or another state. *)
Inductive replink := LinkDown | LinkTransfer | LinkUp.

#[export] Instance replink_eq_dec : EqDecision replink.
Proof. solve_decision. Defined.

(** [masterhost]: the server is a replica itself.  [rdb_child]: a child that saves a dump, to sockets
    when the boolean is true. *)
Record server := Server {
  masterhost : bool;
  repl_state : replink;
  replid : bytes;
  replid2 : bytes;
  master_repl_offset : Z;
  second_replid_offset : Z;
  repl_backlog : option backlog;
  repl_backlog_size : Z;
  slaveseldb : Z;
  slaves : list replica;
  rdb_child : option bool;
  aof_child : bool;
  repl_diskless_sync : bool;
}.

Definition set_backlog (b : option backlog) (s : server) : server := Server (masterhost s) (repl_state s) (replid s) (replid2 s) (master_repl_offset s) (second_replid_offset s) b (repl_backlog_size s) (slaveseldb s) (slaves s) (rdb_child s) (aof_child s) (repl_diskless_sync s).
Definition set_slaves (l : list replica) (s : server) : server := Server (masterhost s) (repl_state s) (replid s) (replid2 s) (master_repl_offset s) (second_replid_offset s) (repl_backlog s) (repl_backlog_size s) (slaveseldb s) l (rdb_child s) (aof_child s) (repl_diskless_sync s).
Definition set_seldb (db : Z) (s : server) : server := Server (masterhost s) (repl_state s) (replid s) (replid2 s) (master_repl_offset s) (second_replid_offset s) (repl_backlog s) (repl_backlog_size s) db (slaves s) (rdb_child s) (aof_child s) (repl_diskless_sync s).
Definition set_offset (n : Z) (s : server) : server := Server (masterhost s) (repl_state s) (replid s) (replid2 s) n (second_replid_offset s) (repl_backlog s) (repl_backlog_size s) (slaveseldb s) (slaves s) (rdb_child s) (aof_child s) (repl_diskless_sync s).
Definition set_size (n : Z) (s : server) : server := Server (masterhost s) (repl_state s) (replid s) (replid2 s) (master_repl_offset s) (second_replid_offset s) (repl_backlog s) n (slaveseldb s) (slaves s) (rdb_child s) (aof_child s) (repl_diskless_sync s).
Definition set_ids (id id2 : bytes) (second : Z) (s : server) : server := Server (masterhost s) (repl_state s) id id2 (master_repl_offset s) second (repl_backlog s) (repl_backlog_size s) (slaveseldb s) (slaves s) (rdb_child s) (aof_child s) (repl_diskless_sync s).
Definition set_role (host : bool) (up : replink) (s : server) : server := Server host up (replid s) (replid2 s) (master_repl_offset s) (second_replid_offset s) (repl_backlog s) (repl_backlog_size s) (slaveseldb s) (slaves s) (rdb_child s) (aof_child s) (repl_diskless_sync s).
Definition set_child (c : option bool) (s : server) : server := Server (masterhost s) (repl_state s) (replid s) (replid2 s) (master_repl_offset s) (second_replid_offset s) (repl_backlog s) (repl_backlog_size s) (slaveseldb s) (slaves s) c (aof_child s) (repl_diskless_sync s).

Definition set_aof (c : bool) (s : server) : server := Server (masterhost s) (repl_state s) (replid s) (replid2 s) (master_repl_offset s) (second_replid_offset s) (repl_backlog s) (repl_backlog_size s) (slaveseldb s) (slaves s) (rdb_child s) c (repl_diskless_sync s).

Definition set_rstate (st : replstate) (r : replica) : replica := Replica (r_id r) st (psync_initial_offset r) (r_out r) (slave_capa r) (pre_psync r).
Definition add_out (p : bytes) (r : replica) : replica := Replica (r_id r) (r_state r) (psync_initial_offset r) (r_out r ++ p) (slave_capa r) (pre_psync r).

Section Replication.

(** The bytes of memory that is not initialized. *)
Context (junk : nat → Z).

(** ** The backlog *)

Definition zeros : bytes := replicate (Z.to_nat CONFIG_RUN_ID_SIZE) 48.

Definition new_backlog (s : server) : backlog := Backlog (realloc junk [] (repl_backlog_size s)) 0 0 (master_repl_offset s + 1).

Definition createReplicationBacklog (s : server) : option server :=
  match repl_backlog s with Some _ => None | None => Some (set_backlog (Some (new_backlog s)) s) end.

Definition resizeReplicationBacklog (newsize : Z) (s : server) : server :=
  let newsize := if newsize <? CONFIG_REPL_BACKLOG_MIN_SIZE then CONFIG_REPL_BACKLOG_MIN_SIZE else newsize in
  if repl_backlog_size s =? newsize then s
  else
    let s := set_size newsize s in
    match repl_backlog s with Some _ => set_backlog (Some (new_backlog s)) s | None => s end.

Definition freeReplicationBacklog (s : server) : option server :=
  match slaves s with [] => Some (set_backlog None s) | _ => None end.

(** [while(len)] *)
Fixpoint feed_loop (fuel : nat) (size : Z) (b : backlog) (p : bytes) : option backlog :=
  match fuel with
  | O => None
  | S fuel =>
      match p with
      | [] => Some b
      | _ =>
          let thislen := size - idx b in
          let thislen := if zlen p <? thislen then zlen p else thislen in
          buf ← blit (bl_buf b) (idx b) (take (Z.to_nat thislen) p);
          let i := idx b + thislen in
          let i := if i =? size then 0 else i in
          feed_loop fuel size (Backlog buf (histlen b + thislen) i (off b)) (drop (Z.to_nat thislen) p)
      end
  end.

Definition feedReplicationBacklog (p : bytes) (s : server) : option server :=
  match repl_backlog s with
  | None => None
  | Some b =>
      let s := set_offset (master_repl_offset s + zlen p) s in
      b ← feed_loop (S (length p)) (repl_backlog_size s) b p;
      let hl := if repl_backlog_size s <? histlen b then repl_backlog_size s else histlen b in
      Some (set_backlog (Some (Backlog (bl_buf b) hl (idx b) (master_repl_offset s - hl + 1))) s)
  end.

(** The chunks of a command. *)
Fixpoint feed_all (ps : list bytes) (s : server) : option server :=
  match ps with [] => Some s | p :: ps => s ← feedReplicationBacklog p s; feed_all ps s end.

(** ** Feeding the replicas *)

(** [addReply] to every replica that does not wait for a BGSAVE to start. *)
Definition add_reply (p : bytes) (r : replica) : replica := if bool_decide (r_state r = WAIT_BGSAVE_START) then r else add_out p r.
Definition feed_slaves (p : bytes) (s : server) : server := set_slaves (add_reply p <$> slaves s) s.

(** The text of a SELECT command, with the number printed into a buffer. *)
Definition select_text (size dictid : Z) : option bytes :=
  '(buf, k) ← ll2string (realloc junk [] size) size dictid;
  Some (str "*2" ++ [13; 10] ++ str "$6" ++ [13; 10] ++ str "SELECT" ++ [13; 10] ++ str "$" ++ decimal k ++ [13; 10] ++ take (Z.to_nat k) buf ++ [13; 10]).

(** [shared.select], computed when the server starts. *)
Definition shared_select (dictid : Z) : option bytes := select_text 64 dictid.

Definition select_cmd (dictid : Z) : option bytes :=
  if (0 <=? dictid) && (dictid <? PROTO_SHARED_SELECT_CMDS) then shared_select dictid else select_text LONG_STR_SIZE dictid.

(** The chunks that are fed for the arguments, given as texts; [aux] is the local buffer. *)
Fixpoint backlog_args (aux : bytes) (argv : list bytes) : option (list bytes) :=
  match argv with
  | [] => Some []
  | o :: argv =>
      '(line, aux) ← cat_length_line [] aux 36 (zlen o);
      crlf ← slice aux (zlen line - 2) 2;
      ps ← backlog_args aux argv;
      Some (line :: o :: crlf :: ps)
  end.

Definition backlog_cmd (argv : list bytes) : option (list bytes) :=
  '(line, aux) ← cat_length_line [] (realloc junk [] (LONG_STR_SIZE + 3)) 42 (zlen argv);
  ps ← backlog_args aux argv;
  Some (line :: ps).

(** [addReplyMultiBulkLen] and [addReplyBulkLen] with their shared headers. *)
Definition reply_line (type n : Z) : option bytes :=
  if n <? OBJ_SHARED_BULKHDR_LEN then Some (enc_line type n) else fst <$> cat_length_line [] (realloc junk [] 128) type n.

Fixpoint reply_args (argv : list bytes) : option bytes :=
  match argv with
  | [] => Some []
  | o :: argv => line ← reply_line 36 (zlen o); rest ← reply_args argv; Some (line ++ o ++ [13; 10] ++ rest)
  end.

Definition reply_cmd (argv : list bytes) : option bytes := line ← reply_line 42 (zlen argv); rest ← reply_args argv; Some (line ++ rest).

Definition replicationFeedSlaves (dictid : Z) (argv : list bytes) (s : server) : option server :=
  if masterhost s then Some s
  else
    match repl_backlog s, slaves s with
    | None, [] => Some s
    | None, _ => None
    | Some _, _ =>
        s ← (if slaveseldb s =? dictid then Some s
             else sel ← select_cmd dictid; s ← feedReplicationBacklog sel s; Some (feed_slaves sel s));
        let s := set_seldb dictid s in
        ps ← backlog_cmd argv;
        s ← feed_all ps s;
        p ← reply_cmd argv;
        Some (feed_slaves p s)
    end.

Definition replicationFeedSlavesFromMasterStream (buf : bytes) (s : server) : option server :=
  s ← (match repl_backlog s with Some _ => feedReplicationBacklog buf s | None => Some s end);
  Some (feed_slaves buf s).

(** ** Partial resynchronization *)

(** [while(len)]: the bytes that are added to the reply. *)
Fixpoint reply_loop (fuel : nat) (size : Z) (buf : bytes) (j len : Z) : option bytes :=
  match fuel with
  | O => None
  | S fuel =>
      if len =? 0 then Some []
      else
        let thislen := if size - j <? len then size - j else len in
        p ← slice buf j thislen;
        rest ← reply_loop fuel size buf 0 (len - thislen);
        Some (p ++ rest)
  end.

Definition addReplyReplicationBacklog (offset : Z) (s : server) : option bytes :=
  match repl_backlog s with
  | None => None
  | Some b =>
      if histlen b =? 0 then Some []
      else
        let size := repl_backlog_size s in
        let skip := offset - off b in
        let j := (idx b + (size - histlen b)) mod size in
        let j := (j + skip) mod size in
        let len := histlen b - skip in
        reply_loop (S (Z.to_nat len)) size (bl_buf b) j len
  end.

(** [strcasecmp] of a request with an ID. *)
Definition same_id (s t : bytes) : bool := bool_decide (tolower <$> c_text s = tolower <$> c_text t).

(** What is written to the socket. *)
Inductive sockwrite := WContinue (c : Z) (id : option bytes) | WFullResync (c : Z) (id : bytes) (offset : Z) | WError (c : Z).

(** The text of an error reply, as it is put into the output buffer. *)
Definition notintegertext : bytes := str "-ERR value is not an integer or out of range" ++ [13; 10].

(** [inl out]: need_full_resync, with what is in the output buffer of the client.  [wok]: the write of
    the answer succeeds. *)
Definition masterTryPartialResynchronization (c capa : Z) (id offset : bytes) (wok : bool) (s : server) : option (bytes + server * list sockwrite) :=
  o ← getLongFromObject offset;
  match o with
  | None => Some (inl notintegertext)
  | Some o =>
      if negb (same_id id (replid s)) && (negb (same_id id (replid2 s)) || (second_replid_offset s <? o)) then Some (inl [])
      else
        match repl_backlog s with
        | None => Some (inl [])
        | Some b =>
            if (o <? off b) || (off b + histlen b <? o) then Some (inl [])
            else
              let w := [WContinue c (if negb (Z.land capa SLAVE_CAPA_PSYNC2 =? 0) then Some (replid s) else None)] in
              if wok then p ← addReplyReplicationBacklog o s; Some (inr (set_slaves (slaves s ++ [Replica c ONLINE 0 p capa false]) s, w))
              else Some (inr (set_slaves (slaves s ++ [Replica c ONLINE 0 [] capa false]) s, w))
        end
  end.

(** ** Full resynchronization *)

Definition setup_full (offset : Z) (r : replica) : replica := Replica (r_id r) WAIT_BGSAVE_END offset (r_out r) (slave_capa r) (pre_psync r).
Definition full_write (s : server) (offset : Z) (r : replica) : list sockwrite := if pre_psync r then [] else [WFullResync (r_id r) (replid s) offset].

Definition is_waiting (r : replica) : bool := bool_decide (r_state r = WAIT_BGSAVE_START).

(** [replicationSetupSlaveForFullResync] for all the replicas that wait. *)
Definition setup_waiting (s : server) : server * list sockwrite :=
  let l := (λ r, if is_waiting r then setup_full (master_repl_offset s) r else r) <$> slaves s in
  let w := slaves s ≫= (λ r, if is_waiting r then full_write s (master_repl_offset s) r else []) in
  (set_slaves l (if existsb is_waiting (slaves s) then set_seldb (-1) s else s), w).

(** The replicas that wait are removed from the list and informed. *)
Definition drop_waiting (s : server) : server * list sockwrite :=
  (set_slaves (filter (λ r, is_waiting r = false) (slaves s)) s, (λ r, WError (r_id r)) <$> filter (λ r, is_waiting r = true) (slaves s)).

(** The outcome of starting a child: it runs, it cannot be started, or fork fails. *)
Inductive fork_outcome := ForkOk | NotStarted | ForkFailed.

Definition startBgsaveForReplication (mincapa : Z) (fork : fork_outcome) (s : server) : server * list sockwrite :=
  let socket_target := repl_diskless_sync s && negb (Z.land mincapa SLAVE_CAPA_EOF =? 0) in
  let fork := if aof_child s || bool_decide (is_Some (rdb_child s)) then NotStarted else fork in
  match fork with
  | ForkOk => let '(s, w) := setup_waiting s in (set_child (Some socket_target) s, w)
  | NotStarted => drop_waiting s
  | ForkFailed =>
      if socket_target then
        let '(s1, w) := setup_waiting s in
        let '(s2, w') := drop_waiting (set_slaves (slaves s) s1) in (s2, w ++ w')
      else drop_waiting s
  end.

Definition changeReplicationId (newid : bytes) (s : server) : server := set_ids newid (replid2 s) (second_replid_offset s) s.
Definition clearReplicationId2 (s : server) : server := set_ids (replid s) zeros (-1) s.
Definition shiftReplicationId (newid : bytes) (s : server) : server := changeReplicationId newid (set_ids (replid s) (replid s) (master_repl_offset s + 1) s).

Definition is_attached (c : Z) (s : server) : bool := existsb (λ r, r_id r =? c) (slaves s).

(** The first replica that registers differences since the fork. *)
Definition saving (s : server) : option replica := snd <$> list_find (λ r, r_state r = WAIT_BGSAVE_END) (slaves s).

(** SYNC and PSYNC of the client [c], after the attempt of a partial resynchronization. *)
Definition full_resync (c capa : Z) (pre : bool) (out newid : bytes) (fork : fork_outcome) (s : server) : option (server * list sockwrite) :=
  let r := Replica c WAIT_BGSAVE_START 0 out capa pre in
  let s := set_slaves (slaves s ++ [r]) s in
  s ← (if (zlen (slaves s) =? 1) && negb (bool_decide (is_Some (repl_backlog s)))
       then createReplicationBacklog (clearReplicationId2 (changeReplicationId newid s)) else Some s);
  match rdb_child s with
  | Some false =>
      match saving s with
      | Some slave =>
          if Z.land capa (slave_capa slave) =? slave_capa slave then
            let r := setup_full (psync_initial_offset slave) (Replica c WAIT_BGSAVE_START 0 (r_out slave) capa pre) in
            Some (set_slaves (take (length (slaves s) - 1) (slaves s) ++ [r]) (set_seldb (-1) s), full_write s (psync_initial_offset slave) r)
          else Some (s, [])
      | None => Some (s, [])
      end
  | Some true => Some (s, [])
  | None =>
      if repl_diskless_sync s && negb (Z.land capa SLAVE_CAPA_EOF =? 0) then Some (s, [])
      else if aof_child s then Some (s, [])
      else Some (startBgsaveForReplication capa fork s)
  end.

Definition syncCommand (c capa : Z) (psync : option (bytes * bytes)) (pending wok : bool) (newid : bytes) (fork : fork_outcome) (s : server) : option (server * list sockwrite) :=
  if is_attached c s then Some (s, [])
  else if masterhost s && negb (bool_decide (repl_state s = LinkUp)) then Some (s, [WError c])
  else if pending then Some (s, [WError c])
  else
    match psync with
    | Some (id, offset) =>
        r ← masterTryPartialResynchronization c capa id offset wok s;
        match r with inr r => Some r | inl out => full_resync c capa false out newid fork s end
    | None => full_resync c capa true [] newid fork s
    end.

(** ** The life of a replica *)

(** [mincapa]: the capabilities that all the replicas that wait have. *)
Definition mincapa (s : server) : Z := foldl (λ m r, if is_waiting r then (if m =? -1 then slave_capa r else Z.land m (slave_capa r)) else m) (-1) (slaves s).

Definition freeClient (c : Z) (s : server) : server := set_slaves (filter (λ r, r_id r ≠ c) (slaves s)) s.
Definition disconnectSlaves (s : server) : server := set_slaves [] s.

(** A child has ended: [ok] when it succeeded; [bad] are the replicas whose transfer failed, or for
    which the file cannot be opened or the event cannot be created. *)
Definition failed (ok : bool) (bad : list Z) (r : replica) : bool := bool_decide (r_state r = WAIT_BGSAVE_END) && (negb ok || bool_decide (r_id r ∈ bad)).

(** [type]: the child wrote to the sockets. *)
Definition updateSlavesWaitingBgsave (ok type : bool) (bad : list Z) (fork : fork_outcome) (s : server) : server * list sockwrite :=
  let gone (r : replica) := negb type && failed ok bad r in
  let next (r : replica) := if bool_decide (r_state r = WAIT_BGSAVE_END) then set_rstate (if type then ONLINE else SEND_BULK) r else r in
  let s := set_slaves (next <$> filter (λ r, gone r = false) (slaves s)) s in
  if existsb is_waiting (slaves s) then startBgsaveForReplication (mincapa s) fork s else (s, []).

(** The replicas that the child reports no success for are closed. *)
Definition close_failed (ok : bool) (bad : list Z) (s : server) : server := set_slaves (filter (λ r, failed ok bad r = false) (slaves s)) s.

Definition backgroundSaveDoneHandlerDisk (ok : bool) (bad : list Z) (fork : fork_outcome) (s : server) : server * list sockwrite := updateSlavesWaitingBgsave ok false bad fork (set_child None s).
Definition backgroundSaveDoneHandlerSocket (ok : bool) (bad : list Z) (fork : fork_outcome) (s : server) : server * list sockwrite := updateSlavesWaitingBgsave ok true bad fork (close_failed ok bad (set_child None s)).

Definition backgroundSaveDoneHandler (type ok : bool) (bad : list Z) (fork : fork_outcome) (s : server) : server * list sockwrite :=
  if type then backgroundSaveDoneHandlerSocket ok bad fork s else backgroundSaveDoneHandlerDisk ok bad fork s.

(** The whole dump was sent. *)
Definition putSlaveOnline (c : Z) (s : server) : server :=
  set_slaves ((λ r, if (r_id r =? c) && bool_decide (r_state r = SEND_BULK) then set_rstate ONLINE r else r) <$> slaves s) s.

(** ** The parts of [replicationCron] that change this state *)

Definition cron_ping (s : server) : option server := match slaves s with [] => Some s | _ => replicationFeedSlaves (slaveseldb s) [str "PING"] s end.

(** [idle]: the time limit without replicas has passed. *)
Definition cron_backlog (idle : bool) (newid : bytes) (s : server) : option server :=
  match slaves s, repl_backlog s with
  | [], Some _ => if idle && negb (masterhost s) then freeReplicationBacklog (clearReplicationId2 (changeReplicationId newid s)) else Some s
  | _, _ => Some s
  end.

(** [delayed]: the delay of diskless replication has passed. *)
Definition cron_bgsave (delayed : bool) (fork : fork_outcome) (s : server) : server * list sockwrite :=
  if negb (bool_decide (is_Some (rdb_child s))) && negb (aof_child s) then
    if existsb is_waiting (slaves s) && (negb (repl_diskless_sync s) || delayed) then startBgsaveForReplication (mincapa s) fork s else (s, [])
  else (s, []).

(** ** The role of the server *)

Definition replicationSetMaster (s : server) : server := disconnectSlaves (set_role true LinkDown s).

(** PSYNC with the master was refused: sub-replicas must resynchronize as well. *)
Definition full_sync_starts (s : server) : option server := freeReplicationBacklog (disconnectSlaves (set_role true LinkTransfer s)).

(** The dump of the master was loaded: [readSyncBulkPayload]. *)
Definition full_sync_done (id : bytes) (offset : Z) (s : server) : option server :=
  let s := clearReplicationId2 (set_offset offset (set_ids id (replid2 s) (second_replid_offset s) (set_role true LinkUp s))) in
  match repl_backlog s with None => createReplicationBacklog s | Some _ => Some s end.

(** The master answered +CONTINUE, with a new ID when it changed: [slaveTryPartialResynchronization].
    The cached master has the ID of this server. *)
Definition psync_continue (new : option bytes) (s : server) : option server :=
  let s := match new with
           | Some id => if bool_decide (id = replid s) then s else disconnectSlaves (set_ids id (replid s) (master_repl_offset s + 1) s)
           | None => s
           end in
  let s := set_role true LinkUp s in
  match repl_backlog s with None => createReplicationBacklog s | Some _ => Some s end.

Definition replicationUnsetMaster (newid : bytes) (s : server) : server :=
  if masterhost s then set_seldb (-1) (disconnectSlaves (shiftReplicationId newid (set_role false LinkDown s))) else s.

(** ** Sessions *)

Inductive revent :=
  | Write (dictid : Z) (argv : list bytes)
  | MasterStream (buf : bytes)
  | Sync (c capa : Z) (psync : option (bytes * bytes)) (pending wok : bool) (newid : bytes) (fork : fork_outcome)
  | BgsaveDone (ok : bool) (bad : list Z) (fork : fork_outcome)
  | BulkSent (c : Z)
  | Close (c : Z)
  | CronPing
  | CronBacklog (idle : bool) (newid : bytes)
  | CronBgsave (delayed : bool) (fork : fork_outcome)
  | Resize (size : Z)
  | SetMaster
  | FullSyncStarts
  | FullSyncDone (id : bytes) (offset : Z)
  | PsyncContinue (new : option bytes)
  | MasterLost
  | UnsetMaster (newid : bytes)
  | BgsaveCommand
  | AofChild (b : bool).

(** The server is a replica whose link is in a state; the events of other states do not occur. *)
Definition has_link (l : replink) (s : server) : bool := masterhost s && bool_decide (repl_state s = l).

Definition rstep (e : revent) (s : server) : option (server * list sockwrite) :=
  let quiet (s : option server) := s ← s; Some (s, []) in
  match e with
  | Write dictid argv => quiet (replicationFeedSlaves dictid argv s)
  | MasterStream buf => quiet (if has_link LinkUp s then replicationFeedSlavesFromMasterStream buf s else Some s)
  | Sync c capa psync pending wok newid fork => syncCommand c capa psync pending wok newid fork s
  | BgsaveDone ok bad fork => match rdb_child s with Some type => Some (backgroundSaveDoneHandler type ok bad fork s) | None => Some (s, []) end
  | BulkSent c => quiet (Some (putSlaveOnline c s))
  | Close c => quiet (Some (freeClient c s))
  | CronPing => quiet (cron_ping s)
  | CronBacklog idle newid => quiet (cron_backlog idle newid s)
  | CronBgsave delayed fork => Some (cron_bgsave delayed fork s)
  | Resize size => quiet (Some (resizeReplicationBacklog size s))
  | SetMaster => quiet (Some (replicationSetMaster s))
  | FullSyncStarts => quiet (if has_link LinkDown s then full_sync_starts s else Some s)
  | FullSyncDone id offset => quiet (if has_link LinkTransfer s then full_sync_done id offset s else Some s)
  | PsyncContinue new => quiet (if has_link LinkDown s then psync_continue new s else Some s)
  | BgsaveCommand => quiet (Some (if aof_child s || bool_decide (is_Some (rdb_child s)) then s else set_child (Some false) s))
  | AofChild b => quiet (Some (set_aof b s))
  | MasterLost => quiet (Some (set_role (masterhost s) LinkDown s))
  | UnsetMaster newid => quiet (Some (replicationUnsetMaster newid s))
  end.

Fixpoint rsession (es : list revent) (s : server) : option (server * list sockwrite) :=
  match es with
  | [] => Some (s, [])
  | e :: es => '(s, w) ← rstep e s; '(s, w') ← rsession es s; Some (s, w ++ w')
  end.

(** The server when it starts, with a configured size of the backlog. *)
Definition initServer (id : bytes) (size : Z) (diskless : bool) : server :=
  resizeReplicationBacklog size (Server false LinkDown id zeros 0 (-1) None (1024 * 1024) (-1) [] None false diskless).

End Replication.
