(* ===== verification/ReplicationSpec.v ===== *)
(** Replication: the output of every replica is the end of one stream of bytes, and a partial
    resynchronization continues the stream at the offset that was asked for. *)

From stdpp Require Import list numbers strings gmap.
From S2P Require Import Prelude Util Glob SdsText Resp Object Replication.

(** ** The circular buffer *)

(** The last [n] bytes of [h] end before the index [i] of the buffer. *)
Definition ring (size : Z) (buf : bytes) (i : Z) (h : bytes) (n : Z) : Prop :=
  zlen buf = size ∧ 0 ≤ i < size ∧ 0 ≤ n ≤ size ∧ n ≤ zlen h ∧ ∀ k, 1 ≤ k ≤ n → buf !! Z.to_nat ((i - k) mod size) = h !! Z.to_nat (zlen h - k).

Lemma mod_sub i k size : 0 ≤ i < size → 0 ≤ k ≤ size → (i - k) mod size = if i <? k then i - k + size else i - k.
Proof.
  intros Hi Hk. destruct (Z.ltb_spec i k).
  - symmetry. apply Z.mod_unique with (-1); lia.
  - apply Z.mod_small. lia.
Qed.

(** Writing a chunk that does not pass the end of the buffer. *)
Lemma ring_write size buf i h n p buf' :
  ring size buf i h n → blit buf i p = Some buf' → i + zlen p ≤ size →
  ring size buf' (if i + zlen p =? size then 0 else i + zlen p) (h ++ p) (Z.min size (n + zlen p)).
Proof.
  intros (Hl & Hi & Hn & Hh & Hr) Hb Hp. pose proof (blit_length _ _ _ _ Hb) as Hl'. set (i' := if _ =? _ then _ else _). assert (0 ≤ i' < size ∧ (i' = i + zlen p ∨ (i' = 0 ∧ i + zlen p = size))) as [Hi' Hc] by (unfold i'; destruct (Z.eqb_spec (i + zlen p) size); lia).
  assert (Hat : ∀ m, (m < length buf)%nat → buf' !! m = if decide (i ≤ Z.of_nat m < i + zlen p) then p !! (m - Z.to_nat i)%nat else buf !! m).
  { intros m Hm. unfold blit in Hb. rewrite decide_True in Hb by lia. injection Hb as <-. destruct (decide (Z.of_nat m < i)).
    - rewrite decide_False by lia. by rewrite lookup_app_l, lookup_take_lt by (rewrite ?length_take; lia).
    - rewrite lookup_app_r by (rewrite length_take; lia). rewrite length_take, Nat.min_l by lia. case_decide; [by rewrite lookup_app_l by lia|]. rewrite lookup_app_r by lia. rewrite lookup_drop. f_equal. lia. }
  split_and!; [lia|lia|lia|lia|lia|rewrite length_app; lia|]. intros k Hk. rewrite mod_sub by lia. rewrite Hat by (destruct (Z.ltb_spec i' k); lia). destruct (decide (k ≤ zlen p)) as [Hkp|Hkp].
  - rewrite lookup_app_r by (rewrite length_app; lia). rewrite decide_True by (destruct (Z.ltb_spec i' k); lia). f_equal. rewrite length_app. destruct (Z.ltb_spec i' k); lia.
  - rewrite lookup_app_l by (rewrite length_app; lia). rewrite decide_False by (destruct (Z.ltb_spec i' k); lia). specialize (Hr (k - zlen p) ltac:(lia)). rewrite mod_sub in Hr by lia. rewrite length_app. replace (Z.to_nat (zlen h - (k - zlen p))) with (Z.to_nat (Z.of_nat (length h + length p) - k)) in Hr by lia. rewrite <-Hr. f_equal. destruct (Z.ltb_spec i' k), (Z.ltb_spec i (k - zlen p)); lia.
Qed.

Lemma feed_loop_spec size fuel : ∀ b p h n, (length p < fuel)%nat → ring size (bl_buf b) (idx b) h n → n = Z.min size (histlen b) →
  ∃ buf i, feed_loop fuel size b p = Some (Backlog buf (histlen b + zlen p) i (off b)) ∧ ring size buf i (h ++ p) (Z.min size (histlen b + zlen p)).
Proof.
  induction fuel as [|fuel IH]; intros b p h n Hf Hr Hn; [lia|]. cbn [feed_loop]. destruct p as [|x p]; [exists (bl_buf b), (idx b); rewrite Z.add_0_r, app_nil_r, <-Hn; by destruct b|]. set (q := x :: p) in *. destruct Hr as (Hl & Hi & Hr0).
  set (t := if zlen q <? size - idx b then zlen q else size - idx b). assert (0 < t ≤ zlen q ∧ idx b + t ≤ size) as [Ht1 Ht2] by (unfold t; destruct (Z.ltb_spec (zlen q) (size - idx b)); cbn in *; lia). assert (zlen (take (Z.to_nat t) q) = t) as Hlt by (rewrite length_take; lia).
  destruct (blit (bl_buf b) (idx b) (take (Z.to_nat t) q)) as [buf|] eqn:Eb; [|unfold blit in Eb; rewrite decide_True in Eb by lia; done]. cbn [mbind option_bind]. pose proof (ring_write size (bl_buf b) (idx b) h n _ buf (conj Hl (conj Hi Hr0)) Eb) as Hw. rewrite Hlt in Hw. specialize (Hw Ht2).
  destruct (IH (Backlog buf (histlen b + t) (if idx b + t =? size then 0 else idx b + t) (off b)) (drop (Z.to_nat t) q) (h ++ take (Z.to_nat t) q) (Z.min size (n + t))) as (buf' & i' & E & Hring); [rewrite length_drop; lia|done|cbn; lia|]. cbn [histlen off] in *. exists buf', i'. rewrite E. rewrite length_drop in *. replace (histlen b + t + Z.of_nat (length q - Z.to_nat t)) with (histlen b + zlen q) in * by lia. split; [done|]. by rewrite <-app_assoc, take_drop in Hring.
Qed.

(** Reading the last [len] bytes. *)
Lemma reply_loop_spec size buf i h n fuel : ring size buf i h n → ∀ j len, 0 ≤ len ≤ n → len < Z.of_nat fuel → len = 0 ∨ j = (i - len) mod size → reply_loop fuel size buf j len = Some (drop (Z.to_nat (zlen h - len)) h).
Proof.
  intros (Hl & Hi & Hn & Hh & Hr). induction fuel as [|fuel IH]; intros j len Hlen Hf Hj; [lia|]. cbn [reply_loop]. destruct (Z.eqb_spec len 0) as [-> |Hz]; [rewrite drop_ge by lia; done|]. destruct Hj as [?|Hj]; [done|]. rewrite mod_sub in Hj by lia. assert (0 ≤ j < size) by (destruct (Z.ltb_spec i len); lia).
  set (t := if size - j <? len then size - j else len). assert (0 < t ≤ len ∧ j + t ≤ size ∧ (t = len ∨ j + t = size)) as (Ht1 & Ht2 & Ht3) by (unfold t; destruct (Z.ltb_spec (size - j) len); lia). rewrite slice_Some by lia. cbn [mbind option_bind]. rewrite IH; [|lia|lia|].
  - cbn [mbind option_bind]. f_equal. replace (Z.to_nat (zlen h - (len - t))) with (Z.to_nat (zlen h - len) + Z.to_nat t)%nat by lia. rewrite <-drop_drop. rewrite <-(take_drop (Z.to_nat t) (drop (Z.to_nat (zlen h - len)) h)) at 2. f_equal. apply list_eq. intros m. destruct (decide (m < Z.to_nat t)%nat); [|rewrite !lookup_take_ge by lia; done].
    rewrite !lookup_take_lt, !lookup_drop by lia. specialize (Hr (len - Z.of_nat m) ltac:(lia)). rewrite mod_sub in Hr by lia. replace (Z.to_nat (zlen h - (len - Z.of_nat m))) with (Z.to_nat (zlen h - len) + m)%nat in Hr by lia. rewrite <-Hr. f_equal. destruct (Z.ltb_spec i len), (Z.ltb_spec i (len - Z.of_nat m)); lia.
  - destruct (decide (len - t = 0)); [by left|right]. rewrite mod_sub by lia. destruct (Z.ltb_spec i len), (Z.ltb_spec i (len - t)); lia.
Qed.

(** ** What is fed *)

(** The text of a command with the SELECT that it needs. *)
Definition select_bytes (dictid : Z) : bytes := enc_cmd [str "SELECT"; decimal dictid].

Definition cmd_bytes (dictid : Z) (argv : list bytes) (s : server) : bytes :=
  if masterhost s || negb (bool_decide (is_Some (repl_backlog s))) then []
  else (if slaveseldb s =? dictid then [] else select_bytes dictid) ++ enc_cmd argv.

(** The bytes that an event adds to the stream. *)
Definition fed (e : revent) (s : server) : bytes :=
  match e with
  | Write dictid argv => cmd_bytes dictid argv s
  | CronPing => if bool_decide (slaves s = []) then [] else cmd_bytes (slaveseldb s) [str "PING"] s
  | MasterStream buf => if has_link LinkUp s then buf else []
  | _ => []
  end.

(** The stream since its first byte, which has the offset [base + 1]; it begins when a backlog is
    created. *)
Definition history_step (e : revent) (s s' : server) (base : Z) (h : bytes) : Z * bytes :=
  if negb (bool_decide (is_Some (repl_backlog s))) && bool_decide (is_Some (repl_backlog s')) then (master_repl_offset s', []) else (base, h ++ fed e s).

(** The limits of arguments, and a number for the offset of PSYNC. *)
Definition args_ok (argv : list bytes) : Prop := zlen argv < 2 ^ 63 ∧ Forall (λ a, zlen a < 2 ^ 63) argv.

Definition event_ok (e : revent) : Prop :=
  match e with
  | Write dictid argv => 0 ≤ dictid < 2 ^ 63 ∧ args_ok argv
  | Sync _ _ (Some (_, offset)) _ _ _ _ => is_Some (to_int offset)
  | _ => True
  end.

Section Encoding.

Context (junk : nat → Z).

Lemma mjoin_cons (x : bytes) (l : list bytes) : mjoin (x :: l) = x ++ mjoin l.
Proof. done. Qed.

Lemma junk_length n : 0 ≤ n → length (realloc junk [] n) = Z.to_nat n.
Proof. intros Hn. pose proof (realloc_length junk [] n Hn). lia. Qed.

Lemma enc_line_long type n : (3 ≤ length (enc_line type n))%nat.
Proof. unfold enc_line. cbn [length]. rewrite length_app. cbn [length]. lia. Qed.

(** The end of the line is still in the buffer. *)
Lemma length_line aux type n : (24 ≤ length aux)%nat → 0 ≤ n < 2 ^ 63 → ∃ aux', length aux' = length aux ∧ cat_length_line [] aux type n = Some (enc_line type n, aux') ∧ slice aux' (zlen (enc_line type n) - 2) 2 = Some [13; 10].
Proof.
  intros Ha Hn. destruct (cat_length_line_spec [] aux type n Ha Hn) as (aux' & Hl & E). exists aux'. split_and!; [done|done|]. cbn [app] in E. unfold cat_length_line in E.
  destruct (poke aux 0 type) as [b|]; [|done]. cbn [mbind option_bind] in E. destruct (ll2string _ _ n) as [[digits k]|]; [|done]. cbn [mbind option_bind] in E. destruct (poke _ (1 + k) 13) as [b1|]; [|done]. cbn [mbind option_bind] in E. destruct (poke b1 (1 + k + 1) 10) as [b2|] eqn:E2; [|done]. cbn [mbind option_bind] in E. destruct (slice b2 0 (1 + k + 2)) as [line|] eqn:Es; [|done]. cbn [mbind option_bind app] in E. injection E as -> ->.
  unfold slice in *. case_decide as Hd; [|done]. injection Es as Es. rewrite drop_0 in Es. assert (zlen (enc_line type n) = 1 + k + 2) as Hz by (rewrite <-Es, length_take; lia). pose proof (enc_line_long type n). rewrite decide_True by lia. f_equal.
  rewrite <-(take_drop (Z.to_nat (1 + k + 2)) aux') at 1. rewrite Es. rewrite drop_app_le by lia. unfold enc_line. change (type :: decimal n ++ [13; 10]) with ((type :: decimal n) ++ [13; 10]). rewrite drop_app_ge; [|unfold enc_line in *; cbn [length] in *; rewrite length_app in *; cbn [length] in *; lia].
  unfold enc_line in Hz |- *. cbn [length] in *. rewrite length_app in *. cbn [length] in *. replace (Z.to_nat _ - _)%nat with O by lia. done.
Qed.

Lemma backlog_args_spec argv : ∀ aux, (24 ≤ length aux)%nat → Forall (λ a, zlen a < 2 ^ 63) argv → ∃ ps, backlog_args aux argv = Some ps ∧ mjoin ps = enc_bulks argv.
Proof.
  induction argv as [|o argv IH]; intros aux Ha Hall; [by exists []|]. apply Forall_cons in Hall as [Ho Hall]. cbn [backlog_args]. destruct (length_line aux 36 (zlen o)) as (aux' & Hl & -> & Hs); [done|lia|]. cbn [mbind option_bind]. rewrite Hs. cbn [mbind option_bind]. destruct (IH aux') as (ps & -> & E); [lia|done|]. cbn [mbind option_bind]. eexists. split; [done|].
  unfold enc_bulks in *. rewrite fmap_cons, !mjoin_cons, E. unfold enc_bulk. by rewrite <-!app_assoc.
Qed.

Lemma backlog_cmd_spec argv : args_ok argv → ∃ ps, backlog_cmd junk argv = Some ps ∧ mjoin ps = enc_cmd argv.
Proof.
  intros [Hl Hall]. unfold backlog_cmd. destruct (length_line (realloc junk [] (LONG_STR_SIZE + 3)) 42 (zlen argv)) as (aux & Ha & -> & _); [rewrite junk_length; unfold LONG_STR_SIZE; lia|lia|]. cbn [mbind option_bind]. destruct (backlog_args_spec argv aux) as (ps & -> & E); [rewrite Ha, junk_length; unfold LONG_STR_SIZE; lia|done|]. cbn [mbind option_bind]. eexists. split; [done|]. by rewrite mjoin_cons, E.
Qed.

Lemma reply_line_spec type n : 0 ≤ n < 2 ^ 63 → reply_line junk type n = Some (enc_line type n).
Proof.
  intros Hn. unfold reply_line. destruct (n <? _); [done|]. destruct (length_line (realloc junk [] 128) type n) as (aux & _ & -> & _); [rewrite junk_length; lia|done|done].
Qed.

Lemma reply_args_spec argv : Forall (λ a, zlen a < 2 ^ 63) argv → reply_args junk argv = Some (enc_bulks argv).
Proof.
  induction 1 as [|o argv Ho _ IH]; [done|]. cbn [reply_args]. rewrite reply_line_spec by lia. cbn [mbind option_bind]. rewrite IH. cbn [mbind option_bind]. unfold enc_bulks. rewrite fmap_cons, mjoin_cons. unfold enc_bulk. by rewrite <-!app_assoc.
Qed.

Lemma reply_cmd_spec argv : args_ok argv → reply_cmd junk argv = Some (enc_cmd argv).
Proof. intros [Hl Hall]. unfold reply_cmd. rewrite reply_line_spec by lia. cbn [mbind option_bind]. by rewrite reply_args_spec. Qed.

Lemma select_text_spec size dictid : 21 ≤ size → 0 ≤ dictid < 2 ^ 63 → select_text junk size dictid = Some (select_bytes dictid).
Proof.
  intros Hsz Hd. unfold select_text. destruct (ll2string_spec (realloc junk [] size) size dictid) as (t & Ht & Hl & ->); [unfold in_s; lia|rewrite junk_length; lia|]. unfold canonical in Ht. rewrite (proj2 (Z.ltb_ge _ _)) in Ht by lia. apply decimal_unique in Ht; [|unfold in_u; lia]. subst t. rewrite (proj2 (Z.leb_gt _ _)) by lia. cbn [mbind option_bind]. rewrite Nat2Z.id, take_app_length. f_equal.
  unfold select_bytes, enc_cmd, enc_bulks. rewrite !fmap_cons, !mjoin_cons. unfold enc_bulk. change (mjoin (_ <$> [])) with (@nil Z). rewrite app_nil_r. change (enc_line 42 (zlen [str "SELECT"; decimal dictid])) with (str "*2" ++ [13; 10]). change (enc_line 36 (zlen (str "SELECT"))) with (str "$6" ++ [13; 10]). unfold enc_line. change (36 :: ?x) with (str "$" ++ x). by rewrite <-!app_assoc.
Qed.

Lemma select_cmd_spec dictid : 0 ≤ dictid < 2 ^ 63 → select_cmd junk dictid = Some (select_bytes dictid).
Proof. intros Hd. unfold select_cmd, shared_select, LONG_STR_SIZE. by destruct (_ && _); apply select_text_spec. Qed.

End Encoding.

(** ** The invariant *)

(** What a replica has got: nothing before the child that saves its dump runs; then the end of the
    stream, from the offset that it was told while it waits for the dump. *)
Definition slave_ok (moff : Z) (h : bytes) (r : replica) : Prop :=
  match r_state r with
  | WAIT_BGSAVE_START => r_out r = []
  | ONLINE => r_out r `suffix_of` h
  | _ => r_out r `suffix_of` h ∧ psync_initial_offset r + zlen (r_out r) = moff
  end.

Record consistent (s : server) (base : Z) (h : bytes) : Prop := {
  c_size : 0 < repl_backlog_size s;
  c_offset : master_repl_offset s = base + zlen h;
  c_backlog : match repl_backlog s with
              | None => slaves s = []
              | Some b => ring (repl_backlog_size s) (bl_buf b) (idx b) h (histlen b) ∧ off b = master_repl_offset s - histlen b + 1
              end;
  c_slaves : Forall (slave_ok (master_repl_offset s) h) (slaves s);
  c_ids : NoDup (r_id <$> slaves s);
  c_up : has_link LinkUp s = true → is_Some (repl_backlog s);
  c_transfer : has_link LinkTransfer s = true → repl_backlog s = None;
}.

(** The replica [r'] was a replica of [l]; unless it waited, it got [p]. *)
Definition comes_from (p : bytes) (l : list replica) (r' : replica) : Prop :=
  ∃ r, r ∈ l ∧ r_id r = r_id r' ∧ (r_state r ≠ WAIT_BGSAVE_START → r_state r' ≠ WAIT_BGSAVE_START ∧ r_out r' = r_out r ++ p).

Definition evolves (p : bytes) (l l' : list replica) : Prop := ∀ r', r' ∈ l' → comes_from p l r' ∨ (r_id r' ∉ r_id <$> l).
Definition stays (l l' : list replica) : Prop := ∀ r', r' ∈ l' → comes_from [] l r'.

(** A change of a replica that keeps its output but for [p]. *)
Definition appends (p : bytes) (f : replica → replica) : Prop := ∀ r, r_id (f r) = r_id r ∧ (r_state r ≠ WAIT_BGSAVE_START → r_state (f r) ≠ WAIT_BGSAVE_START ∧ r_out (f r) = r_out r ++ p).

Lemma evolves_fmap p f l : appends p f → evolves p l (f <$> l).
Proof. intros Hf r' Hr'. apply list_elem_of_fmap in Hr' as (r & -> & Hr). left. exists r. destruct (Hf r). done. Qed.

Lemma stays_map f (P : replica → Prop) `{∀ r, Decision (P r)} l : appends [] f → stays l (f <$> filter P l).
Proof. intros Hf r' Hr'. apply list_elem_of_fmap in Hr' as (r & -> & [_ Hr]%list_elem_of_filter). exists r. destruct (Hf r). done. Qed.

Lemma stays_fmap f l : appends [] f → stays l (f <$> l).
Proof. intros Hf r' Hr'. apply list_elem_of_fmap in Hr' as (r & -> & Hr). exists r. destruct (Hf r). done. Qed.

Lemma stays_filter (P : replica → Prop) `{∀ r, Decision (P r)} l : stays l (filter P l).
Proof. intros r [_ Hr]%list_elem_of_filter. exists r. by rewrite app_nil_r. Qed.

Lemma stays_refl l : stays l l.
Proof. intros r Hr. exists r. by rewrite app_nil_r. Qed.

Lemma evolves_stays p l1 l2 l3 : evolves p l1 l2 → stays l2 l3 → evolves p l1 l3.
Proof.
  intros H12 H23 r3 Hr3. destruct (H23 r3 Hr3) as (r2 & Hr2 & Eid & Hout). destruct (H12 r2 Hr2) as [(r1 & Hr1 & Eid1 & Hout1)|Hn]; [left|right; congruence]. exists r1. split_and!; [done|congruence|]. intros Hst. destruct (Hout1 Hst) as [Hst2 E2]. destruct (Hout Hst2) as [Hst3 E3]. rewrite app_nil_r in E3. by rewrite E3, E2.
Qed.

Lemma stays_evolves l l' : stays l l' → evolves [] l l'.
Proof. intros H r Hr. left. by apply H. Qed.

Lemma stays_trans l1 l2 l3 : stays l1 l2 → stays l2 l3 → stays l1 l3.
Proof.
  intros H12 H23 r3 Hr3. destruct (H23 r3 Hr3) as (r2 & Hr2 & Eid & Hout). destruct (H12 r2 Hr2) as (r1 & Hr1 & Eid1 & Hout1). exists r1. split_and!; [done|congruence|]. intros Hst. destruct (Hout1 Hst) as [Hst2 E2]. destruct (Hout Hst2) as [Hst3 E3]. split; [done|]. by rewrite E3, E2, !app_nil_r.
Qed.

(** A replica that is added is new. *)
Lemma evolves_new l r l' : r_id r ∉ r_id <$> l → stays (l ++ [r]) l' → evolves [] l l'.
Proof.
  intros Hn H r' Hr'. destruct (H r' Hr') as (r0 & Hr0 & Eid & Hout). apply elem_of_app in Hr0 as [Hr0|Hr0]; [left; by exists r0|right]. apply list_elem_of_singleton in Hr0 as ->. by rewrite <-Eid.
Qed.

(** *** Feeding *)

Lemma feed_spec p s b h : repl_backlog s = Some b → ring (repl_backlog_size s) (bl_buf b) (idx b) h (histlen b) →
  ∃ b', feedReplicationBacklog p s = Some (set_backlog (Some b') (set_offset (master_repl_offset s + zlen p) s)) ∧
    ring (repl_backlog_size s) (bl_buf b') (idx b') (h ++ p) (histlen b') ∧ off b' = master_repl_offset s + zlen p - histlen b' + 1 ∧ histlen b' = Z.min (repl_backlog_size s) (histlen b + zlen p).
Proof.
  intros Eb Hr. pose proof Hr as (_ & _ & Hn & _). unfold feedReplicationBacklog. rewrite Eb. destruct (feed_loop_spec (repl_backlog_size s) (S (length p)) b p h (histlen b)) as (buf & i & E & Hring); [lia|done|lia|]. cbn [set_offset repl_backlog_size master_repl_offset]. rewrite E. cbn [mbind option_bind histlen bl_buf idx off]. eexists. split; [done|]. cbn [bl_buf idx histlen off].
  replace (if _ <? _ then _ else _) with (Z.min (repl_backlog_size s) (histlen b + zlen p)); [done|]. destruct (Z.ltb_spec (repl_backlog_size s) (histlen b + zlen p)); lia.
Qed.

Lemma feed_all_spec ps : ∀ s b h, repl_backlog s = Some b → ring (repl_backlog_size s) (bl_buf b) (idx b) h (histlen b) → off b = master_repl_offset s - histlen b + 1 →
  ∃ b', feed_all ps s = Some (set_backlog (Some b') (set_offset (master_repl_offset s + zlen (mjoin ps)) s)) ∧
    ring (repl_backlog_size s) (bl_buf b') (idx b') (h ++ mjoin ps) (histlen b') ∧ off b' = master_repl_offset s + zlen (mjoin ps) - histlen b' + 1 ∧ histlen b' = Z.min (repl_backlog_size s) (histlen b + zlen (mjoin ps)).
Proof.
  induction ps as [|p ps IH]; intros s b h Eb Hr Ho; cbn [feed_all].
  - exists b. change (mjoin []) with (@nil Z). rewrite app_nil_r. cbn [length]. rewrite !Z.add_0_r. split_and!; [|done|done|destruct Hr as (_ & _ & Hn & _); lia]. rewrite <-Eb. by destruct s.
  - destruct (feed_spec p s b h Eb Hr) as (b1 & -> & Hr1 & Ho1 & Hl1). cbn [mbind option_bind]. destruct (IH (set_backlog (Some b1) (set_offset (master_repl_offset s + zlen p) s)) b1 (h ++ p)) as (b2 & E & Hr2 & Ho2 & Hl2); [done..|]. exists b2. rewrite E. rewrite mjoin_cons. rewrite app_assoc. rewrite length_app. cbn [set_backlog set_offset repl_backlog_size master_repl_offset] in *. replace (master_repl_offset s + Z.of_nat (length p + length (mjoin ps))) with (master_repl_offset s + zlen p + zlen (mjoin ps)) by lia. split_and!; [done..|]. destruct Hr as (_ & _ & Hn & _). lia.
Qed.

(** The whole of a feed: the backlog and the replicas get [p]. *)
Lemma feed_consistent s base h b' p db :
  consistent s base h → is_Some (repl_backlog s) → ring (repl_backlog_size s) (bl_buf b') (idx b') (h ++ p) (histlen b') → off b' = master_repl_offset s + zlen p - histlen b' + 1 →
  let s' := set_slaves (add_reply p <$> slaves s) (set_seldb db (set_backlog (Some b') (set_offset (master_repl_offset s + zlen p) s))) in
  consistent s' base (h ++ p) ∧ evolves p (slaves s) (slaves s').
Proof.
  intros [Hz Ho Hb Hs Hi Hu Ht] Hsome Hr Hoff. cbn zeta. assert (∀ r, r_id (add_reply p r) = r_id r) as Hid by (intros r; unfold add_reply; by case_bool_decide). split.
  - constructor; cbn.
    + done.
    + rewrite length_app. lia.
    + done.
    + apply Forall_fmap. eapply Forall_impl; [exact Hs|]. intros r Hr'. unfold slave_ok, add_reply in *. cbn. case_bool_decide as E; [by rewrite E in *|]. cbn. assert (r_out r `suffix_of` h → (r_out r ++ p) `suffix_of` (h ++ p)) as Hsuf. { intros [k ->]. exists k. by rewrite app_assoc. } destruct (r_state r); [done| | |by apply Hsuf]; (destruct Hr' as [H1 H2]; split; [by apply Hsuf|]; rewrite length_app; lia).
    + rewrite <-list_fmap_compose. erewrite list_fmap_ext; [exact Hi|]. intros i r _. apply Hid.
    + done.
    + intros E. apply Ht in E. rewrite E in Hsome. by destruct Hsome.
  - apply evolves_fmap. intros r. split; [apply Hid|]. intros Hst. unfold add_reply. by rewrite bool_decide_eq_false_2.
Qed.

(** The backlog gets [p], and forgets only what does not fit. *)
Definition retains (p : bytes) (s s' : server) : Prop :=
  ∀ b b', repl_backlog s = Some b → repl_backlog s' = Some b' → repl_backlog_size s' = repl_backlog_size s → histlen b' = Z.min (repl_backlog_size s) (histlen b + zlen p).

(** The backlog is kept, freed, or replaced by one of another size. *)
Definition keeps (s s' : server) : Prop := repl_backlog s' = None ∨ repl_backlog s' = repl_backlog s ∨ is_Some (repl_backlog s) ∧ repl_backlog_size s' ≠ repl_backlog_size s.

Lemma keeps_retains s s' base h : consistent s base h → keeps s s' → retains [] s s'.
Proof.
  intros Hc Hk b b' E E' Ez. pose proof (c_backlog _ _ _ Hc) as Hb. rewrite E in Hb. destruct Hb as [(_ & _ & Hn & _) _]. cbn [length]. destruct Hk as [H|[H|[_ H]]]; [congruence| |done]. replace b' with b by congruence. lia.
Qed.

Lemma keeps_some s s' : keeps s s' → is_Some (repl_backlog s') → is_Some (repl_backlog s).
Proof. intros [-> |[-> |[H _]]]; [by intros [? ?]|done|done]. Qed.

Lemma retains_trans p q s s1 s2 base h :
  consistent s base h → is_Some (repl_backlog s1) → repl_backlog_size s1 = repl_backlog_size s → retains p s s1 → retains q s1 s2 → retains (p ++ q) s s2.
Proof.
  intros Hc [b1 E1] Ez H1 H2 b b2 E E2 Ez2. specialize (H1 b b1 E E1 Ez). specialize (H2 b1 b2 E1 E2 ltac:(congruence)). pose proof (c_size _ _ _ Hc). rewrite length_app. lia.
Qed.

(** What a step keeps: the stream grows by [p], and so do the outputs. *)
Record grows (p : bytes) (s s' : server) (base : Z) (h : bytes) : Prop := {
  g_consistent : consistent s' base (h ++ p);
  g_evolves : evolves p (slaves s) (slaves s');
  g_some : is_Some (repl_backlog s') → is_Some (repl_backlog s);
  g_retains : retains p s s';
  g_ids : r_id <$> slaves s' = r_id <$> slaves s;
}.

Lemma grows_same s base h : consistent s base h → grows [] s s base h.
Proof. intros Hc. split; [by rewrite app_nil_r|apply stays_evolves, stays_refl|done| |done]. eapply keeps_retains; [done|by right; left]. Qed.

Lemma add_reply_ids p (l : list replica) : r_id <$> (add_reply p <$> l) = r_id <$> l.
Proof. rewrite <-list_fmap_compose. apply list_fmap_ext. intros i r _. cbn. unfold add_reply. by case_bool_decide. Qed.

Lemma add_reply_twice p q l : evolves (p ++ q) l (add_reply q <$> (add_reply p <$> l)).
Proof.
  rewrite <-list_fmap_compose. apply evolves_fmap. intros r. cbn. unfold add_reply. split; [by repeat case_bool_decide|]. intros Hst. rewrite (bool_decide_eq_false_2 (r_state r = _)) by done. cbn. rewrite bool_decide_eq_false_2 by done. cbn. by rewrite app_assoc.
Qed.

Lemma feed_slaves_spec junk dictid argv s base h :
  consistent s base h → slaveseldb s = dictid ∨ 0 ≤ dictid < 2 ^ 63 → args_ok argv →
  ∃ s', replicationFeedSlaves junk dictid argv s = Some s' ∧ grows (cmd_bytes dictid argv s) s s' base h.
Proof.
  intros Hc Hd Ha. pose proof (c_backlog _ _ _ Hc) as Hb. unfold replicationFeedSlaves, cmd_bytes. destruct (masterhost s) eqn:Em; [eexists; split; [done|]; by apply grows_same|]. destruct (repl_backlog s) as [b|] eqn:Eb; [|rewrite Hb; cbn; eexists; split; [done|]; by apply grows_same]. destruct Hb as [Hr Ho]. rewrite bool_decide_eq_true_2 by by eexists. cbn [negb orb].
  destruct (backlog_cmd_spec junk argv Ha) as (ps & Eps & Ejoin).
  assert (∃ s1, (if slaveseldb s =? dictid then Some s else sel ← select_cmd junk dictid; s ← feedReplicationBacklog sel s; Some (feed_slaves sel s)) = Some s1 ∧
    consistent s1 base (h ++ (if slaveseldb s =? dictid then [] else select_bytes dictid)) ∧ slaves s1 = add_reply (if slaveseldb s =? dictid then [] else select_bytes dictid) <$> slaves s ∧ is_Some (repl_backlog s1) ∧
    repl_backlog_size s1 = repl_backlog_size s ∧ retains (if slaveseldb s =? dictid then [] else select_bytes dictid) s s1) as (s1 & E1 & Hc1 & Hsl1 & [b1 Eb1] & Ez1 & Hre1).
  { destruct (Z.eqb_spec (slaveseldb s) dictid) as [Eq|Eq].
    - exists s. rewrite app_nil_r. split_and!; [done|done| |by rewrite Eb|done|eapply keeps_retains; [done|by right; left]]. trans (id <$> slaves s); [by rewrite list_fmap_id|]. apply list_fmap_ext. intros i r _. unfold add_reply, add_out. case_bool_decide; [done|]. rewrite app_nil_r. by destruct r.
    - rewrite select_cmd_spec by (destruct Hd; done || lia). cbn [mbind option_bind]. destruct (feed_spec (select_bytes dictid) s b h Eb Hr) as (b' & -> & Hr' & Ho' & Hl'). cbn [mbind option_bind]. eexists. split; [done|].
      destruct (feed_consistent s base h b' (select_bytes dictid) (slaveseldb s) Hc ltac:(by rewrite Eb) Hr' Ho') as [Hc' _]. split_and!; [exact Hc'|done|by eexists|done|]. intros c c' Ec Ec' _. cbn in Ec'. by simplify_eq. }
  rewrite E1. cbn [mbind option_bind]. rewrite Eps. cbn [mbind option_bind]. pose proof (c_backlog _ _ _ Hc1) as Hb1. rewrite Eb1 in Hb1. destruct Hb1 as [Hr1 Ho1]. destruct (feed_all_spec ps (set_seldb dictid s1) b1 _ Eb1 Hr1 Ho1) as (b2 & -> & Hr2 & Ho2 & Hl2). rewrite Ejoin in *. cbn [mbind option_bind]. rewrite reply_cmd_spec by done. cbn [mbind option_bind]. eexists. split; [done|].
  destruct (feed_consistent s1 base _ b2 (enc_cmd argv) dictid Hc1 ltac:(by rewrite Eb1) Hr2 Ho2) as [Hc2 _]. split; [rewrite app_assoc; exact Hc2| |by rewrite Eb| |].
  - cbn [feed_slaves set_slaves slaves set_backlog set_offset set_seldb]. rewrite Hsl1. apply add_reply_twice.
  - eapply retains_trans; [exact Hc|by eexists|done|exact Hre1|]. intros c c' Ec Ec' _. cbn in Ec'. by simplify_eq.
  - cbn [feed_slaves set_slaves slaves set_backlog set_offset set_seldb]. by rewrite Hsl1, !add_reply_ids.
Qed.

Lemma master_stream_spec buf s base h : consistent s base h → has_link LinkUp s = true → ∃ s', replicationFeedSlavesFromMasterStream buf s = Some s' ∧ grows buf s s' base h.
Proof.
  intros Hc Hl. destruct (c_up _ _ _ Hc Hl) as [b Eb]. pose proof (c_backlog _ _ _ Hc) as Hb. rewrite Eb in Hb. destruct Hb as [Hr Ho]. unfold replicationFeedSlavesFromMasterStream. rewrite Eb. destruct (feed_spec buf s b h Eb Hr) as (b' & -> & Hr' & Ho' & Hl'). cbn [mbind option_bind]. eexists. split; [done|].
  destruct (feed_consistent s base h b' buf (slaveseldb s) Hc ltac:(by rewrite Eb) Hr' Ho') as [Hc' He]. split; [exact Hc'|exact He|by rewrite Eb| |apply add_reply_ids]. intros c c' Ec Ec' _. cbn in Ec'. by simplify_eq.
Qed.

(** *** Replicas that come, change and go *)

Lemma consistent_seldb s base h db : consistent s base h → consistent (set_seldb db s) base h.
Proof. intros []. by constructor. Qed.

Lemma consistent_child s base h c : consistent s base h → consistent (set_child c s) base h.
Proof. intros []. by constructor. Qed.

Lemma consistent_aof s base h c : consistent s base h → consistent (set_aof c s) base h.
Proof. intros []. by constructor. Qed.

Lemma consistent_ids s base h id id2 n : consistent s base h → consistent (set_ids id id2 n s) base h.
Proof. intros []. by constructor. Qed.

Lemma consistent_slaves s base h l : consistent s base h → Forall (slave_ok (master_repl_offset s) h) l → NoDup (r_id <$> l) → (repl_backlog s = None → l = []) → consistent (set_slaves l s) base h.
Proof. intros [Hz Ho Hb Hs Hi Hu Ht] Hl Hn He. constructor; try done. cbn. destruct (repl_backlog s); [done|by apply He]. Qed.

(** Some replicas stay, with a change that keeps what they are. *)
Lemma consistent_some s base h (f : replica → replica) (P : replica → Prop) `{∀ r, Decision (P r)} :
  consistent s base h → (∀ r, r ∈ slaves s → slave_ok (master_repl_offset s) h (f r)) → (∀ r, r_id (f r) = r_id r) → consistent (set_slaves (f <$> filter P (slaves s)) s) base h.
Proof.
  intros Hc Hf Hid. apply consistent_slaves; [done| | |].
  - apply Forall_fmap, Forall_forall. intros r [_ Hr]%list_elem_of_filter. by apply Hf.
  - rewrite <-list_fmap_compose. erewrite (list_fmap_ext _ r_id) by (intros; apply Hid). eapply sublist_NoDup; [apply (c_ids _ _ _ Hc)|]. apply fmap_sublist, sublist_filter.
  - intros En. pose proof (c_backlog _ _ _ Hc) as Hb. rewrite En in Hb. by rewrite Hb.
Qed.

Lemma filter_every (l : list replica) : filter (λ _, True) l = l.
Proof. induction l as [|r l IH]; [done|]. rewrite filter_cons_True by done. by rewrite IH. Qed.

Lemma consistent_all s base h (f : replica → replica) :
  consistent s base h → (∀ r, r ∈ slaves s → slave_ok (master_repl_offset s) h (f r)) → (∀ r, r_id (f r) = r_id r) → consistent (set_slaves (f <$> slaves s) s) base h.
Proof. intros Hc Hf Hid. pose proof (consistent_some s base h f (λ _, True) Hc Hf Hid) as H. by rewrite filter_every in H. Qed.

Lemma consistent_kept s base h (P : replica → Prop) `{∀ r, Decision (P r)} : consistent s base h → consistent (set_slaves (filter P (slaves s)) s) base h.
Proof.
  intros Hc. pose proof (consistent_some s base h id P Hc) as Hs. rewrite list_fmap_id in Hs. apply Hs; [|done]. intros r Hr. eapply Forall_forall; [apply (c_slaves _ _ _ Hc)|done].
Qed.

Lemma slave_in s base h r : consistent s base h → r ∈ slaves s → slave_ok (master_repl_offset s) h r.
Proof. intros Hc Hr. eapply Forall_forall; [apply (c_slaves _ _ _ Hc)|done]. Qed.

(** A replica that waits gets the stream from now on. *)
Lemma setup_ok moff h r : slave_ok moff h r → slave_ok moff h (if is_waiting r then setup_full moff r else r).
Proof.
  unfold is_waiting. case_bool_decide as E; [|done]. unfold slave_ok. rewrite E. cbn. intros ->. split; [apply suffix_nil|]. cbn. lia.
Qed.

Lemma setup_waiting_spec s base h : consistent s base h → consistent (setup_waiting s).1 base h ∧ stays (slaves s) (slaves (setup_waiting s).1) ∧ repl_backlog (setup_waiting s).1 = repl_backlog s.
Proof.
  intros Hc. unfold setup_waiting. cbn [fst]. set (f := λ r, if is_waiting r then setup_full (master_repl_offset s) r else r). assert (consistent (set_slaves (f <$> slaves s) s) base h) as Hc'. { apply consistent_all; [done| |]; intros r; [intros Hr; by apply setup_ok, slave_in with base|]. unfold f. by destruct (is_waiting r). }
  split_and!.
  - destruct (existsb _ _); [|done]. by apply (consistent_seldb _ _ _ (-1)) in Hc'.
  - destruct (existsb _ _); (apply stays_fmap; intros r; unfold f, is_waiting; case_bool_decide; by rewrite ?app_nil_r).
  - by destruct (existsb _ _).
Qed.

Lemma drop_waiting_spec s base h : consistent s base h → consistent (drop_waiting s).1 base h ∧ stays (slaves s) (slaves (drop_waiting s).1) ∧ repl_backlog (drop_waiting s).1 = repl_backlog s.
Proof. intros Hc. split_and!; [by apply (consistent_kept s)|apply stays_filter|done]. Qed.

Lemma start_bgsave_spec m fork s base h : consistent s base h → consistent (startBgsaveForReplication m fork s).1 base h ∧ stays (slaves s) (slaves (startBgsaveForReplication m fork s).1) ∧ repl_backlog (startBgsaveForReplication m fork s).1 = repl_backlog s.
Proof.
  intros Hc. unfold startBgsaveForReplication. set (t := _ && _). set (k := if _ || _ then _ else _). destruct k; [|by apply drop_waiting_spec|].
  - destruct (setup_waiting_spec s base h Hc) as (Hc1 & He & Hb). destruct (setup_waiting s) as [s1 w]. cbn in *. split_and!; [by apply consistent_child|done|done].
  - destruct t; [|by apply drop_waiting_spec]. cbn. split_and!; [|apply stays_filter|by destruct (existsb _ _)]. destruct (existsb _ _); [apply (consistent_kept (set_seldb (-1) s)); by apply consistent_seldb|by apply (consistent_kept s)].
Qed.

Lemma update_slaves_spec ok type bad fork s base h : consistent s base h →
  let s' := (updateSlavesWaitingBgsave ok type bad fork s).1 in consistent s' base h ∧ stays (slaves s) (slaves s') ∧ repl_backlog s' = repl_backlog s.
Proof.
  intros Hc. cbn zeta. unfold updateSlavesWaitingBgsave. cbn zeta. set (f := λ r : replica, if bool_decide (r_state r = WAIT_BGSAVE_END) then _ else r). set (s1 := set_slaves _ _).
  assert (appends [] f) as Hf. { intros r. unfold f. case_bool_decide as E; [|by rewrite app_nil_r]. cbn. rewrite app_nil_r. by destruct type. }
  assert (consistent s1 base h) as Hc1.
  { apply (consistent_some s base h f); [done| |intros r; apply Hf]. intros r Hr. pose proof (slave_in s base h r Hc Hr) as Hok. unfold f. case_bool_decide as E; [|done]. unfold slave_ok in *. rewrite E in Hok. destruct type; cbn; [apply Hok|done]. }
  assert (stays (slaves s) (slaves s1)) as He1 by by apply stays_map. destruct (existsb is_waiting (slaves s1)); [|done]. destruct (start_bgsave_spec (mincapa s1) fork s1 base h Hc1) as (Hc2 & He2 & Hb2). split_and!; [done|by eapply stays_trans|by rewrite Hb2].
Qed.

Lemma bgsave_done_spec type ok bad fork s base h : consistent s base h →
  let s' := (backgroundSaveDoneHandler type ok bad fork s).1 in consistent s' base h ∧ stays (slaves s) (slaves s') ∧ repl_backlog s' = repl_backlog s.
Proof.
  intros Hc. apply (consistent_child _ _ _ None) in Hc. unfold backgroundSaveDoneHandler. destruct type.
  - assert (consistent (close_failed ok bad (set_child None s)) base h) as Hc1 by by apply (consistent_kept (set_child None s)). destruct (update_slaves_spec ok true bad fork _ base h Hc1) as (Hc2 & He & Hb). split_and!; [done| |done]. eapply stays_trans; [|exact He]. apply stays_filter.
  - apply (update_slaves_spec ok false bad fork _ base h Hc).
Qed.

(** ** Partial resynchronization *)

(** The requests that are accepted: an ID of this history, and an offset that the backlog has. *)
Definition id_ok (id : bytes) (o : Z) (s : server) : bool := same_id id (replid s) || same_id id (replid2 s) && (o <=? second_replid_offset s).
Definition offset_ok (o : Z) (s : server) : bool := match repl_backlog s with None => false | Some b => (off b <=? o) && (o <=? master_repl_offset s + 1) end.

(** What is sent is the stream from the offset on. *)
Lemma backlog_reply o s base h : consistent s base h → offset_ok o s = true → addReplyReplicationBacklog o s = Some (drop (Z.to_nat (o - 1 - base)) h) ∧ base < o.
Proof.
  intros Hc Ho. pose proof (c_offset _ _ _ Hc) as Hoff. pose proof (c_backlog _ _ _ Hc) as Hb. unfold offset_ok in Ho. unfold addReplyReplicationBacklog. destruct (repl_backlog s) as [b|]; [|done]. destruct Hb as [Hr Eo]. apply andb_true_iff in Ho as [H1%Z.leb_le H2%Z.leb_le]. pose proof Hr as (Hl & Hi & Hn & Hh & _). split; [|lia]. destruct (Z.eqb_spec (histlen b) 0) as [E0|E0]; [rewrite drop_ge by lia; done|].
  assert (((idx b + (repl_backlog_size s - histlen b)) mod repl_backlog_size s + (o - off b)) mod repl_backlog_size s = (idx b - (histlen b - (o - off b))) mod repl_backlog_size s) as ->. { rewrite Z.add_mod_idemp_l by lia. rewrite <-(Z_mod_plus_full (idx b - (histlen b - (o - off b))) 1). f_equal. lia. }
  rewrite (reply_loop_spec _ _ (idx b) h (histlen b)); [|done|lia|lia|by right]. do 2 f_equal. lia.
Qed.

Lemma partial_spec c capa id offset wok s base h o :
  consistent s base h → to_int offset = Some o →
  masterTryPartialResynchronization c capa id offset wok s =
    Some (if id_ok id o s && offset_ok o s
          then inr (set_slaves (slaves s ++ [Replica c ONLINE 0 (if wok then drop (Z.to_nat (o - 1 - base)) h else []) capa false]) s, [WContinue c (if negb (Z.land capa SLAVE_CAPA_PSYNC2 =? 0) then Some (replid s) else None)])
          else inl []).
Proof.
  intros Hc Eo. unfold masterTryPartialResynchronization, getLongFromObject. rewrite to_int_eq, Eo. cbn [mbind option_bind].
  assert (negb (same_id id (replid s)) && (negb (same_id id (replid2 s)) || (second_replid_offset s <? o)) = negb (id_ok id o s)) as ->. { unfold id_ok. rewrite negb_orb, negb_andb. f_equal. f_equal. rewrite Z.leb_antisym. by rewrite negb_involutive. }
  destruct (id_ok id o s); cbn [negb andb]; [|done]. pose proof (backlog_reply o s base h Hc) as Hrep. pose proof (c_backlog _ _ _ Hc) as Hb. unfold offset_ok in *. destruct (repl_backlog s) as [b|]; [|done]. destruct Hb as [_ Eoff]. replace (off b + histlen b) with (master_repl_offset s + 1) by lia.
  assert ((o <? off b) || (master_repl_offset s + 1 <? o) = negb ((off b <=? o) && (o <=? master_repl_offset s + 1))) as ->. { rewrite negb_andb, !Z.leb_antisym. by rewrite !negb_involutive. }
  destruct (_ && _); cbn [negb]; [|done]. destruct wok; [|done]. destruct (Hrep eq_refl) as [-> _]. done.
Qed.

(** ** Full resynchronization *)

(** The rest of SYNC for a replica [r] at the end of the list. *)
Lemma attach_new s base h r : consistent s base h → is_Some (repl_backlog s) → (r_id r ∉ r_id <$> slaves s) → slave_ok (master_repl_offset s) h r → consistent (set_slaves (slaves s ++ [r]) s) base h.
Proof.
  intros Hc [b Eb] Hn Hok. apply consistent_slaves; [done| | |congruence].
  - apply Forall_app. split; [apply (c_slaves _ _ _ Hc)|]. by constructor.
  - rewrite fmap_app. cbn. apply NoDup_app. split_and!; [apply (c_ids _ _ _ Hc)| |apply NoDup_singleton]. intros x Hx Hx'. apply list_elem_of_singleton in Hx' as ->. done.
Qed.

Lemma new_ring junk s h : 0 < repl_backlog_size s → ring (repl_backlog_size s) (bl_buf (new_backlog junk s)) (idx (new_backlog junk s)) h 0.
Proof. intros Hz. cbn. split_and!; try lia. apply realloc_length. lia. Qed.

Lemma saving_is s slave : saving s = Some slave → slave ∈ slaves s ∧ r_state slave = WAIT_BGSAVE_END.
Proof. unfold saving. destruct (list_find _ _) as [[i r]|] eqn:E; [|done]. cbn. intros [= <-]. apply list_find_Some in E as (Hi & Hst & _). split; [by eapply list_elem_of_lookup_2|done]. Qed.

(** A state whose last replica is the new one. *)
Lemma full_resync_tail c capa pre fork s base h l :
  consistent s base h → is_Some (repl_backlog s) → slaves s = l ++ [Replica c WAIT_BGSAVE_START 0 [] capa pre] → (c ∉ r_id <$> l) →
  ∃ s' w, match rdb_child s with
    | Some false =>
        match saving s with
        | Some slave =>
            if Z.land capa (slave_capa slave) =? slave_capa slave then
              let r := setup_full (psync_initial_offset slave) (Replica c WAIT_BGSAVE_START 0 (r_out slave) capa pre) in
              Some (set_slaves (take (length (slaves s) - 1) (slaves s) ++ [r]) (set_seldb (-1) s), full_write s (psync_initial_offset slave) r)
            else Some (s, [])
        | None => Some (s, [])
        end
    | Some true => Some (s, [])
    | None =>
        if repl_diskless_sync s && negb (Z.land capa SLAVE_CAPA_EOF =? 0) then Some (s, [])
        else if aof_child s then Some (s, [])
        else Some (startBgsaveForReplication capa fork s)
    end = Some (s', w) ∧ consistent s' base h ∧ evolves [] l (slaves s') ∧ repl_backlog s' = repl_backlog s.
Proof.
  intros Hc Hb El Hn. assert (evolves [] l (slaves s)) as He by (rewrite El; apply (evolves_new l (Replica c WAIT_BGSAVE_START 0 [] capa pre)); [done|apply stays_refl]). assert (∃ s' w, Some (s, @nil sockwrite) = Some (s', w) ∧ consistent s' base h ∧ evolves [] l (slaves s') ∧ repl_backlog s' = repl_backlog s) as Hsame by (by eexists _, _).
  destruct (rdb_child s) as [[|]|]; [done| |].
  - destruct (saving s) as [slave|] eqn:Esv; [|done]. destruct (_ =? _); [|done]. apply saving_is in Esv as [Hin Hst]. pose proof (slave_in s base h slave Hc Hin) as Hok. unfold slave_ok in Hok. rewrite Hst in Hok. eexists _, _. split; [done|]. assert (take (length (slaves s) - 1) (slaves s) = l) as -> by (rewrite El, length_app; cbn; rewrite Nat.add_sub; by rewrite take_app_length).
    assert (consistent (set_slaves l s) base h) as Hcl.
    { apply consistent_slaves; [done| | |by destruct Hb as [? ->]].
      - pose proof (c_slaves _ _ _ Hc) as H. rewrite El in H. by apply Forall_app in H as [? _].
      - pose proof (c_ids _ _ _ Hc) as H. rewrite El, fmap_app in H. by apply NoDup_app in H as [? _]. }
    split_and!; [|apply (evolves_new l (setup_full (psync_initial_offset slave) (Replica c WAIT_BGSAVE_START 0 (r_out slave) capa pre))); [done|apply stays_refl]|done].
    apply (consistent_seldb _ _ _ (-1)) in Hcl. apply (attach_new _ _ _ (setup_full (psync_initial_offset slave) (Replica c WAIT_BGSAVE_START 0 (r_out slave) capa pre))) in Hcl; [exact Hcl|done|done|done].
  - destruct (_ && _); [done|]. destruct (aof_child s); [done|]. destruct (start_bgsave_spec capa fork s base h Hc) as (Hc' & He' & Hb'). destruct (startBgsaveForReplication capa fork s) as [s' w]. cbn in *. eexists _, _. split_and!; [done|done|by eapply evolves_stays|done].
Qed.

(** ** Steps *)

Record step_ok (e : revent) (s s' : server) (base : Z) (h : bytes) : Prop := {
  st_consistent : consistent s' (history_step e s s' base h).1 (history_step e s s' base h).2;
  st_evolves : evolves (fed e s) (slaves s) (slaves s');
  st_retains : retains (fed e s) s s';
  st_ids : fed e s ≠ [] → r_id <$> slaves s' = r_id <$> slaves s;
}.

Lemma grows_step e s s' base h : grows (fed e s) s s' base h → step_ok e s s' base h.
Proof.
  intros [Hc He Hb Hr Hi]. split; [|done|done|done]. unfold history_step. destruct (repl_backlog s) eqn:E; [by rewrite bool_decide_eq_true_2 by by eexists|]. rewrite (bool_decide_eq_false_2 (is_Some (repl_backlog s'))); [by rewrite andb_false_r|]. intros H. apply Hb in H. by destruct H.
Qed.

(** A step that feeds nothing and keeps the backlog. *)
Lemma stays_step e s s' base h : consistent s base h → fed e s = [] → consistent s' base h → evolves [] (slaves s) (slaves s') → keeps s s' → step_ok e s s' base h.
Proof.
  intros Hs Ef Hc He Hk. pose proof (keeps_retains _ _ _ _ Hs Hk) as Hr. pose proof (keeps_some _ _ Hk) as Hb. split; rewrite ?Ef; try done. unfold history_step. rewrite Ef. destruct (repl_backlog s) eqn:E; [rewrite (bool_decide_eq_true_2 (is_Some (Some _))) by (by eexists); cbn; by rewrite app_nil_r|]. rewrite (bool_decide_eq_false_2 (is_Some (repl_backlog s'))); [rewrite andb_false_r; cbn; by rewrite app_nil_r|]. intros H. apply Hb in H. by destruct H.
Qed.

(** A step that creates the backlog. *)
Lemma new_step e s s' base h : fed e s = [] → repl_backlog s = None → is_Some (repl_backlog s') → consistent s' (master_repl_offset s') [] → evolves [] (slaves s) (slaves s') → step_ok e s s' base h.
Proof. intros Ef En Hs Hc He. split; rewrite ?Ef; [|done|intros b b' Eb; congruence|done]. unfold history_step. rewrite En. by rewrite (bool_decide_eq_true_2 (is_Some (repl_backlog s'))). Qed.

(** A new backlog, for a server without replicas or with replicas that wait. *)
Lemma create_consistent junk s : 0 < repl_backlog_size s → repl_backlog s = None → Forall (λ r, r_state r = WAIT_BGSAVE_START ∧ r_out r = []) (slaves s) → NoDup (r_id <$> slaves s) → has_link LinkTransfer s = false →
  consistent (set_backlog (Some (new_backlog junk s)) s) (master_repl_offset s) [].
Proof.
  intros Hz En Hs Hn Ht. constructor; cbn; [done|lia| | |done|by eexists|].
  - split; [by apply new_ring|]. cbn. lia.
  - eapply Forall_impl; [exact Hs|]. intros r [E1 E2]. unfold slave_ok. by rewrite E1.
  - unfold has_link in *. cbn. by rewrite Ht.
Qed.

Lemma full_resync_spec junk e c capa pre newid fork s base h : fed e s = [] → consistent s base h → (c ∉ r_id <$> slaves s) → has_link LinkTransfer s = false → ∃ s' w, full_resync junk c capa pre [] newid fork s = Some (s', w) ∧ step_ok e s s' base h.
Proof.
  intros Ef Hc Hn Ht. unfold full_resync. set (r := Replica c WAIT_BGSAVE_START 0 [] capa pre). pose proof (c_backlog _ _ _ Hc) as Hb. cbn [set_slaves slaves repl_backlog]. destruct (repl_backlog s) as [b|] eqn:Eb.
  - rewrite (bool_decide_eq_true_2 (is_Some (Some b))) by by eexists. rewrite andb_false_r. cbn [mbind option_bind]. assert (consistent (set_slaves (slaves s ++ [r]) s) base h) as Hc1 by (apply attach_new; [done|by rewrite Eb|done|done]).
    destruct (full_resync_tail c capa pre fork _ base h (slaves s) Hc1) as (s' & w & E & Hc' & He & Hb'); [cbn; by rewrite Eb|done|done|]. exists s', w. split; [exact E|]. apply (stays_step _ _ _ _ _ Hc); [done|done|done|by right; left].
  - rewrite Hb in *. cbn [app length]. rewrite bool_decide_eq_false_2 by (intros [? ?]; done). cbn [Z.of_nat Pos.of_succ_nat Z.eqb Pos.eqb negb andb]. unfold createReplicationBacklog, clearReplicationId2, changeReplicationId. cbn [set_ids set_slaves repl_backlog]. rewrite Eb. cbn [mbind option_bind].
    set (s1 := set_ids _ _ _ _). assert (consistent (set_backlog (Some (new_backlog junk s1)) s1) (master_repl_offset s) []) as Hc1. { apply (create_consistent junk s1); [apply (c_size _ _ _ Hc)|done| |apply NoDup_singleton|done]. by constructor. }
    destruct (full_resync_tail c capa pre fork _ _ [] [] Hc1) as (s' & w & E & Hc' & He & Hb'); [by eexists|done|apply not_elem_of_nil|]. exists s', w. split; [exact E|]. apply new_step; [done|done|rewrite Hb'; by eexists| |by rewrite Hb]. pose proof (c_offset _ _ _ Hc') as Ho. cbn [length] in Ho. replace (master_repl_offset s') with (master_repl_offset s) by lia. done.
Qed.

Lemma not_attached c s : is_attached c s = false → (c ∉ r_id <$> slaves s).
Proof.
  unfold is_attached. intros H Hc. apply list_elem_of_fmap in Hc as (r & -> & Hr). rewrite <-not_true_iff_false in H. apply H. apply existsb_exists. exists r. split; [by apply list_elem_of_In|apply Z.eqb_refl].
Qed.

Lemma sync_spec junk c capa psync pending wok newid fork s base h :
  let e := Sync c capa psync pending wok newid fork in
  consistent s base h → event_ok e → ∃ s' w, syncCommand junk c capa psync pending wok newid fork s = Some (s', w) ∧ step_ok e s s' base h.
Proof.
  intros e Hc Hok. unfold syncCommand. assert (step_ok e s s base h) as Hsame by (apply (stays_step _ _ _ _ _ Hc); [done|done|apply stays_evolves, stays_refl|by right; left]). destruct (is_attached c s) eqn:Ea; [by eexists _, _|]. apply not_attached in Ea. destruct (masterhost s && negb (bool_decide (repl_state s = LinkUp))) eqn:El; [by eexists _, _|]. destruct pending; [by eexists _, _|].
  assert (has_link LinkTransfer s = false) as Ht. { unfold has_link. destruct (masterhost s); [|done]. cbn in *. apply negb_false_iff, bool_decide_eq_true in El. by rewrite El. }
  destruct psync as [[id offset]|]; [|by apply (full_resync_spec junk e)]. destruct Hok as [o Eo]. rewrite (partial_spec c capa id offset wok s base h o) by done. cbn [mbind option_bind]. destruct (id_ok id o s && offset_ok o s) eqn:Eok; [|by apply (full_resync_spec junk e)]. eexists _, _. split; [done|]. apply andb_true_iff in Eok as [_ Eoff]. destruct (backlog_reply o s base h Hc Eoff) as [_ Hbo].
  assert (is_Some (repl_backlog s)) as Hb by (unfold offset_ok in Eoff; by destruct (repl_backlog s)). apply (stays_step _ _ _ _ _ Hc); [done| |apply (evolves_new (slaves s) (Replica c ONLINE 0 (if wok then drop (Z.to_nat (o - 1 - base)) h else []) capa false)); [done|apply stays_refl]|by right; left].
  apply attach_new; [done|done|done|]. unfold slave_ok. cbn. destruct wok; [|apply suffix_nil]. apply suffix_drop.
Qed.

Lemma resize_spec junk size s base h : consistent s base h → consistent (resizeReplicationBacklog junk size s) base h ∧ slaves (resizeReplicationBacklog junk size s) = slaves s ∧ keeps s (resizeReplicationBacklog junk size s).
Proof.
  intros Hc. unfold resizeReplicationBacklog. set (n := if size <? _ then _ else _). assert (0 < n) as Hn by (unfold n, CONFIG_REPL_BACKLOG_MIN_SIZE; destruct (Z.ltb_spec size (1024 * 16)); lia). destruct (Z.eqb_spec (repl_backlog_size s) n) as [E|E]; [split_and!; [done|done|by right; left]|]. destruct Hc as [Hz Ho Hb Hs Hi Hu Ht]. cbn [set_size repl_backlog]. destruct (repl_backlog s) as [b|] eqn:Eb.
  - split_and!; [|done|right; right; split; [by rewrite Eb|]; cbn; congruence]. constructor; cbn; [done|done| |done|done|by eexists|intros H; by apply Ht in H]. split; [by apply (new_ring junk (set_size n s))|lia].
  - split_and!; [|done|by right; left]. constructor; cbn; rewrite ?Eb; done.
Qed.

Lemma disconnect_consistent s base h (host : bool) up : consistent s base h → (host = true → up ≠ LinkUp) → (host = true → up ≠ LinkTransfer) → consistent (disconnectSlaves (set_role host up s)) base h.
Proof.
  intros [Hz Ho Hb Hs Hi Hu Ht] H1 H2. constructor; cbn; [done|done| |done|apply NoDup_nil_2| |].
  - by destruct (repl_backlog s).
  - unfold has_link. cbn. intros [-> H%bool_decide_eq_true]%andb_true_iff. by apply H1 in H.
  - unfold has_link. cbn. intros [-> H%bool_decide_eq_true]%andb_true_iff. by apply H2 in H.
Qed.

Lemma evolves_gone p l : evolves p l [].
Proof. intros r Hr. by apply not_elem_of_nil in Hr. Qed.

Lemma role_step_spec junk e s base h : consistent s base h →
  match e with SetMaster | FullSyncStarts | FullSyncDone _ _ | PsyncContinue _ | MasterLost | UnsetMaster _ => True | _ => False end →
  ∃ s' w, rstep junk e s = Some (s', w) ∧ step_ok e s s' base h.
Proof.
  intros Hc He. assert (fed e s = [] → step_ok e s s base h) as Hsame by (intros Ef; apply (stays_step _ _ _ _ _ Hc); [done|done|apply stays_evolves, stays_refl|by right; left]). destruct e; try done; cbn [rstep].
  - eexists _, _. split; [done|]. apply (stays_step _ _ _ _ _ Hc); [done|by apply disconnect_consistent|apply evolves_gone|by right; left].
  - destruct (has_link LinkDown s); [|eexists _, _; split; [done|by apply Hsame]]. unfold full_sync_starts, freeReplicationBacklog. cbn. eexists _, _. split; [done|]. apply (stays_step _ _ _ _ _ Hc); [done| |apply evolves_gone|by left]. destruct Hc as [Hz Ho Hb Hs Hi Hu Ht]. constructor; cbn; try done; apply NoDup_nil_2.
  - destruct (has_link LinkTransfer s) eqn:El; [|eexists _, _; split; [done|by apply Hsame]]. pose proof (c_transfer _ _ _ Hc El) as En. pose proof (c_backlog _ _ _ Hc) as Hb. rewrite En in Hb. unfold full_sync_done, clearReplicationId2, createReplicationBacklog. cbn [set_ids set_offset set_role repl_backlog]. rewrite En. cbn [mbind option_bind]. eexists _, _. split; [done|].
    apply new_step; [done|done|by eexists| |by rewrite Hb; apply stays_evolves; cbn; rewrite Hb; apply stays_refl]. apply (create_consistent junk (set_ids id zeros (-1) (set_offset offset (set_ids id (replid2 s) (second_replid_offset s) (set_role true LinkUp s))))); cbn; [apply (c_size _ _ _ Hc)|done|by rewrite Hb|by rewrite Hb; apply NoDup_nil_2|done].
  - destruct (has_link LinkDown s) eqn:El; [|eexists _, _; split; [done|by apply Hsame]]. unfold psync_continue. set (s1 := match new with Some id => _ | None => s end). assert (consistent s1 base h ∧ stays (slaves s) (slaves s1) ∧ repl_backlog s1 = repl_backlog s) as (Hc1 & Hs1 & Hb1).
    { unfold s1. destruct new as [id|]; [|split_and!; [done|apply stays_refl|done]]. case_bool_decide; [split_and!; [done|apply stays_refl|done]|]. split_and!; [|intros r Hr; by apply not_elem_of_nil in Hr|done]. apply (consistent_ids _ _ _ id (replid s) (master_repl_offset s + 1)) in Hc. destruct Hc as [Hz Ho Hb Hs Hi Hu Ht]. constructor; cbn; try done; [|apply NoDup_nil_2]. cbn in *. by destruct (repl_backlog s). }
    pose proof (c_backlog _ _ _ Hc1) as Hb. cbn [set_role repl_backlog]. destruct (repl_backlog s1) as [b|] eqn:Eb1.
    + eexists _, _. split; [done|]. apply (stays_step _ _ _ _ _ Hc); [done| |by apply stays_evolves|right; left; cbn; congruence]. destruct Hc1 as [Hz Ho _ Hs Hi Hu Ht]. constructor; cbn; rewrite ?Eb1; done || by eexists.
    + unfold createReplicationBacklog. cbn [set_role repl_backlog]. rewrite Eb1. cbn [mbind option_bind]. eexists _, _. split; [done|]. apply new_step; [done|by rewrite <-Hb1|by eexists| |by apply stays_evolves]. apply (create_consistent junk (set_role true LinkUp s1)); cbn; [apply (c_size _ _ _ Hc1)|done|by rewrite Hb|by rewrite Hb; apply NoDup_nil_2|done].
  - eexists _, _. split; [done|]. apply (stays_step _ _ _ _ _ Hc); [done| |apply stays_evolves, stays_refl|by right; left]. destruct Hc as [Hz Ho Hb Hs Hi Hu Ht]. constructor; cbn; try done; unfold has_link; cbn; by rewrite andb_false_r.
  - unfold replicationUnsetMaster. destruct (masterhost s); [|eexists _, _; split; [done|by apply Hsame]]. eexists _, _. split; [done|]. apply (stays_step _ _ _ _ _ Hc); [done| |apply evolves_gone|by right; left]. apply consistent_seldb. unfold shiftReplicationId, changeReplicationId, disconnectSlaves.
    assert (consistent (disconnectSlaves (set_role false LinkDown s)) base h) as H by by apply disconnect_consistent. by apply (consistent_ids _ _ _ newid (replid s) (master_repl_offset s + 1)) in H.
Qed.

Lemma rstep_spec junk e s base h : consistent s base h → event_ok e → ∃ s' w, rstep junk e s = Some (s', w) ∧ step_ok e s s' base h.
Proof.
  intros Hc Hok. assert (fed e s = [] → step_ok e s s base h) as Hsame by (intros Ef; apply (stays_step _ _ _ _ _ Hc); [done|done|apply stays_evolves, stays_refl|by right; left]). destruct e; try (by apply role_step_spec); cbn [rstep].
  - destruct Hok as [Hd Ha]. destruct (feed_slaves_spec junk dictid argv s base h Hc (or_intror Hd) Ha) as (s' & -> & Hg). eexists _, _. split; [done|by apply grows_step].
  - destruct (has_link LinkUp s) eqn:El; [|eexists _, _; split; [done|apply Hsame; cbn; by rewrite El]]. destruct (master_stream_spec buf s base h Hc El) as (s' & -> & Hg). eexists _, _. split; [done|]. apply grows_step. cbn. by rewrite El.
  - by apply sync_spec.
  - destruct (rdb_child s) as [type|]; [|eexists _, _; split; [done|by apply Hsame]]. destruct (bgsave_done_spec type ok bad fork s base h Hc) as (Hc' & He & Hb). destruct (backgroundSaveDoneHandler _ _ _ _ _) as [s' w]. eexists _, _. split; [done|]. apply (stays_step _ _ _ _ _ Hc); [done|done|by apply stays_evolves|right; left; exact Hb].
  - eexists _, _. split; [done|]. apply (stays_step _ _ _ _ _ Hc); [done| | |by right; left].
    + apply consistent_all; [done| |]; intros r; [intros Hr; pose proof (slave_in s base h r Hc Hr) as Hr'|]; (destruct (_ =? _); cbn [andb]; [|done]); case_bool_decide as E; [|done| |done]; [|done]. unfold slave_ok in *. rewrite E in Hr'. cbn. apply Hr'.
    + apply stays_evolves, stays_fmap. intros r. destruct (_ =? _); cbn [andb]; [|by rewrite app_nil_r]. case_bool_decide; cbn; by rewrite app_nil_r.
  - eexists _, _. split; [done|]. apply (stays_step _ _ _ _ _ Hc); [done|by apply consistent_kept|apply stays_evolves, stays_filter|by right; left].
  - unfold cron_ping. destruct (slaves s) as [|r l] eqn:El; [eexists _, _; split; [done|]; apply Hsame; cbn; by rewrite El|]. destruct (feed_slaves_spec junk (slaveseldb s) [str "PING"] s base h Hc (or_introl eq_refl)) as (s' & -> & Hg); [split; [done|by constructor]|]. eexists _, _. split; [done|]. apply grows_step. cbn. rewrite El. by rewrite bool_decide_eq_false_2.
  - unfold cron_backlog. destruct (slaves s) as [|r l] eqn:El; [|eexists _, _; split; [done|by apply Hsame]]. destruct (repl_backlog s) as [b|] eqn:Eb; [|eexists _, _; split; [done|by apply Hsame]]. destruct (idle && negb (masterhost s)) eqn:Ei; [|eexists _, _; split; [done|by apply Hsame]]. unfold freeReplicationBacklog. cbn. rewrite El. eexists _, _. split; [done|]. apply (stays_step _ _ _ _ _ Hc); [done| |cbn; rewrite El; apply stays_evolves, stays_refl|by left].
    destruct Hc as [Hz Ho Hb Hs Hi Hu Ht]. apply andb_true_iff in Ei as [_ Em%negb_true_iff]. constructor; cbn; try done. unfold has_link. cbn. by rewrite Em.
  - unfold cron_bgsave. destruct (_ && _); [|eexists _, _; split; [done|by apply Hsame]]. destruct (_ && _); [|eexists _, _; split; [done|by apply Hsame]]. destruct (start_bgsave_spec (mincapa s) fork s base h Hc) as (Hc' & He & Hb). destruct (startBgsaveForReplication _ _ _) as [s' w]. eexists _, _. split; [done|]. apply (stays_step _ _ _ _ _ Hc); [done|done|by apply stays_evolves|right; left; exact Hb].
  - destruct (resize_spec junk size s base h Hc) as (Hc' & Hs & Hb). eexists _, _. split; [done|]. apply (stays_step _ _ _ _ _ Hc); [done|done|rewrite Hs; apply stays_evolves, stays_refl|done].
  - eexists _, _. split; [done|]. destruct (_ || _); [by apply Hsame|]. apply (stays_step _ _ _ _ _ Hc); [done|by apply consistent_child|apply stays_evolves, stays_refl|by right; left].
  - eexists _, _. split; [done|]. apply (stays_step _ _ _ _ _ Hc); [done|by apply consistent_aof|apply stays_evolves, stays_refl|by right; left].
Qed.

(** ** Sessions *)

(** The stream of a session: the offset before its first byte, and its bytes. *)
Fixpoint rhistory (junk : nat → Z) (es : list revent) (s : server) (base : Z) (h : bytes) : Z * bytes :=
  match es with
  | [] => (base, h)
  | e :: es =>
      match rstep junk e s with
      | Some (s', _) => rhistory junk es s' (history_step e s s' base h).1 (history_step e s s' base h).2
      | None => (base, h)
      end
  end.

Lemma init_consistent junk id size diskless : consistent (initServer junk id size diskless) 0 [].
Proof. apply resize_spec. constructor; cbn; [lia|done|done|by constructor|apply NoDup_nil_2|done|done]. Qed.

Lemma session_consistent junk es : ∀ s base h, consistent s base h → Forall event_ok es → ∃ s' w, rsession junk es s = Some (s', w) ∧ consistent s' (rhistory junk es s base h).1 (rhistory junk es s base h).2.
Proof.
  induction es as [|e es IH]; intros s base h Hc Hok; [by eexists _, _|]. apply Forall_cons in Hok as [He Hok]. cbn [rsession rhistory]. destruct (rstep_spec junk e s base h Hc He) as (s1 & w1 & -> & [Hc1 _ _ _]). cbn [mbind option_bind]. destruct (IH s1 _ _ Hc1 Hok) as (s2 & w2 & -> & Hc2). cbn [mbind option_bind]. eexists _, _. split; [done|exact Hc2].
Qed.

(** *** Full resynchronizations do not continue the stream *)

Definition is_continue (w : sockwrite) : bool := match w with WContinue _ _ => true | _ => false end.

(** The client [c] is a replica that waits for a dump, or it is told that the dump failed. *)
Definition served (c : Z) (s : server) (w : list sockwrite) : Prop :=
  (∃ r, r ∈ slaves s ∧ r_id r = c ∧ (r_state r = WAIT_BGSAVE_START ∨ r_state r = WAIT_BGSAVE_END)) ∨ ((c ∉ r_id <$> slaves s) ∧ WError c ∈ w).

Lemma full_write_spec s o r : Forall (λ w, is_continue w = false) (full_write s o r).
Proof. unfold full_write. destruct (pre_psync r); [done|by apply Forall_singleton]. Qed.

Lemma setup_writes s : Forall (λ w, is_continue w = false) (setup_waiting s).2.
Proof.
  unfold setup_waiting. cbn [snd]. induction (slaves s) as [|r l IH]; [by apply Forall_nil|]. rewrite bind_cons. apply Forall_app. split; [|done]. destruct (is_waiting r); [apply full_write_spec|by apply Forall_nil].
Qed.

Lemma drop_writes s : Forall (λ w, is_continue w = false) (drop_waiting s).2.
Proof. apply Forall_fmap, Forall_true. done. Qed.

(** A replica that was just added and waits. *)
Lemma setup_served s l r w : slaves s = l ++ [r] → is_waiting r = true → served (r_id r) (setup_waiting s).1 w.
Proof.
  intros El Hr. left. exists (setup_full (master_repl_offset s) r). split_and!; [|done|by right]. change (slaves (setup_waiting s).1) with ((λ r, if is_waiting r then setup_full (master_repl_offset s) r else r) <$> slaves s). rewrite El. apply list_elem_of_fmap. exists r. rewrite Hr. split; [done|]. apply elem_of_app. right. by apply list_elem_of_singleton.
Qed.

Lemma drop_served s l r w : slaves s = l ++ [r] → is_waiting r = true → (r_id r ∉ r_id <$> l) → served (r_id r) (drop_waiting s).1 (w ++ (drop_waiting s).2).
Proof.
  intros El Hr Hn. right. unfold drop_waiting. cbn [fst snd set_slaves slaves]. split.
  - intros (r' & E & Hr')%list_elem_of_fmap. apply list_elem_of_filter in Hr' as [Hw Hin]. rewrite El in Hin. apply elem_of_app in Hin as [Hin| ->%list_elem_of_singleton]; [|congruence]. apply Hn. rewrite E. by apply list_elem_of_fmap_2.
  - apply elem_of_app. right. apply list_elem_of_fmap. exists r. split; [done|]. apply list_elem_of_filter. split; [done|]. rewrite El. apply elem_of_app. right. by apply list_elem_of_singleton.
Qed.

Lemma start_bgsave_served m fork s l r : slaves s = l ++ [r] → is_waiting r = true → (r_id r ∉ r_id <$> l) →
  let '(s', w) := startBgsaveForReplication m fork s in served (r_id r) s' w ∧ Forall (λ w, is_continue w = false) w.
Proof.
  intros El Hr Hn. pose proof (setup_writes s) as Hws. pose proof (drop_writes s) as Hwd. pose proof (drop_served s l r [] El Hr Hn) as Hd. cbn [app] in Hd. unfold startBgsaveForReplication. destruct (if _ || _ then _ else _).
  - pose proof (setup_served s l r (setup_waiting s).2 El Hr) as Hs. destruct (setup_waiting s) as [s1 w]. done.
  - by destruct (drop_waiting s) as [s1 w].
  - destruct (_ && _); [|by destruct (drop_waiting s) as [s1 w]]. destruct (setup_waiting s) as [s1 w]. pose proof (drop_served (set_slaves (slaves s) s1) l r w El Hr Hn) as Hd'. change (drop_waiting (set_slaves (slaves s) s1)).2 with (drop_waiting s).2 in Hd'. change (let '(s2, w') := drop_waiting (set_slaves (slaves s) s1) in (s2, w ++ w')) with ((drop_waiting (set_slaves (slaves s) s1)).1, w ++ (drop_waiting s).2). split; [done|]. by apply Forall_app.
Qed.

(** A full resynchronization always has a result, and the client waits or is informed. *)
Lemma full_resync_served junk c capa pre out newid fork s : (c ∉ r_id <$> slaves s) → ∃ s' w, full_resync junk c capa pre out newid fork s = Some (s', w) ∧ served c s' w ∧ Forall (λ w, is_continue w = false) w.
Proof.
  intros Hn. unfold full_resync. set (r := Replica c WAIT_BGSAVE_START 0 out capa pre). assert (∃ s1, (if (zlen (slaves (set_slaves (slaves s ++ [r]) s)) =? 1) && negb (bool_decide (is_Some (repl_backlog (set_slaves (slaves s ++ [r]) s)))) then createReplicationBacklog junk (clearReplicationId2 (changeReplicationId newid (set_slaves (slaves s ++ [r]) s))) else Some (set_slaves (slaves s ++ [r]) s)) = Some s1 ∧ slaves s1 = slaves s ++ [r]) as (s1 & -> & Es1).
  { destruct (_ =? 1); cbn [andb]; [|by eexists]. case_bool_decide as Hb; cbn [negb]; [by eexists|]. unfold createReplicationBacklog. change (repl_backlog (clearReplicationId2 _)) with (repl_backlog s). change (repl_backlog (set_slaves _ s)) with (repl_backlog s) in Hb. destruct (repl_backlog s); [destruct Hb; by eexists|]. by eexists. }
  cbn [mbind option_bind]. assert (∃ s' w, Some (s1, []) = Some (s', w) ∧ served c s' w ∧ Forall (λ w, is_continue w = false) w) as Hsame. { eexists _, _. split; [done|]. split; [|by apply Forall_nil]. left. exists r. split_and!; [|done|by left]. rewrite Es1. apply elem_of_app. right. by apply list_elem_of_singleton. }
  destruct (rdb_child s1) as [[|]|]; [done| |].
  - destruct (saving s1) as [slave|]; [|done]. destruct (Z.land capa (slave_capa slave) =? slave_capa slave); [|done]. eexists _, _. split; [done|]. split; [|apply full_write_spec]. left. eexists. split_and!; [apply elem_of_app; right; by apply list_elem_of_singleton|done|by right].
  - destruct (_ && _); [done|]. destruct (aof_child s1); [done|]. pose proof (start_bgsave_served capa fork s1 (slaves s) r Es1 eq_refl Hn) as H. destruct (startBgsaveForReplication capa fork s1) as [s' w]. by exists s', w.
Qed.

(** ** The stream of replication *)

(** C18: any session of writes, streams of a master, SYNC and PSYNC, ends of dumps, timers, changes
    of the backlog and changes of role, in which the offset of every PSYNC is a number (otherwise the
    server puts an error into the output, see [psync_error_in_stream]) and the sizes of the arguments
    and the number of the database are in range ([event_ok]), runs without a failed assertion or an
    access outside of a buffer.  The replication offset counts the bytes of the stream since the
    backlog was created; the output of every replica is the end of this stream, and of a replica that
    waits for its dump the part after the offset that it was told with the dump.  Each further such
    event appends exactly its bytes, the same ones and in the same order, to the output of every
    replica that does not wait for a child and to the backlog, which forgets only what does not
    fit. *)
Theorem replication_stream junk id size diskless es : Forall event_ok es →
  ∃ s w base h, rsession junk es (initServer junk id size diskless) = Some (s, w) ∧ rhistory junk es (initServer junk id size diskless) 0 [] = (base, h) ∧
    master_repl_offset s = base + zlen h ∧ Forall (slave_ok (master_repl_offset s) h) (slaves s) ∧
    ∀ e, event_ok e → ∃ s' w', rstep junk e s = Some (s', w') ∧ evolves (fed e s) (slaves s) (slaves s') ∧ retains (fed e s) s s' ∧ (fed e s ≠ [] → r_id <$> slaves s' = r_id <$> slaves s).
Proof.
  intros Hok. destruct (session_consistent junk es _ _ _ (init_consistent junk id size diskless) Hok) as (s & w & E & Hc). destruct (rhistory _ _ _ _ _) as [base h]. exists s, w, base, h. split_and!; [done|done|apply (c_offset _ _ _ Hc)|apply (c_slaves _ _ _ Hc)|].
  intros e He. destruct (rstep_spec junk e s base h Hc He) as (s' & w' & E' & [_ Hev Hre Hid]). by exists s', w'.
Qed.

(** C4: every outcome of a PSYNC, with any ID and offset, after any session with numeric offsets
    ([event_ok]).  A client that is a replica already is ignored; a server that is a replica itself
    and whose link to its master is not up refuses with an error, and so does one that has pending
    output for the client.  Otherwise, when the offset is a number, the ID is the one of this history
    (or the one before, up to the offset of the change) and the backlog has the bytes from the offset
    on, the client is told to continue and gets exactly the part [out] of the stream that follows the
    [o - 1 - base] bytes before its offset, unless the answer cannot be written (the client is then
    closed later): with what it had already it has the whole stream, with no byte lost or repeated.
    In all other cases it is not told to continue; it becomes a replica that waits for a dump, or is
    told that the dump could not be started. *)
Theorem psync_continues junk id size diskless es c capa rid offset pending wok newid fork : Forall event_ok es →
  ∃ s w base h, rsession junk es (initServer junk id size diskless) = Some (s, w) ∧ rhistory junk es (initServer junk id size diskless) 0 [] = (base, h) ∧
    ∃ s' w', rstep junk (Sync c capa (Some (rid, offset)) pending wok newid fork) s = Some (s', w') ∧
      if is_attached c s then s' = s ∧ w' = []
      else if (masterhost s && negb (bool_decide (repl_state s = LinkUp))) || pending then s' = s ∧ w' = [WError c]
      else if (match to_int offset with Some o => id_ok rid o s && offset_ok o s | None => false end)
      then ∃ p out, h = p ++ out ∧ to_int offset = Some (base + zlen p + 1) ∧
        s' = set_slaves (slaves s ++ [Replica c ONLINE 0 (if wok then out else []) capa false]) s ∧ w' = [WContinue c (if negb (Z.land capa SLAVE_CAPA_PSYNC2 =? 0) then Some (replid s) else None)]
      else served c s' w' ∧ Forall (λ w, is_continue w = false) w'.
Proof.
  intros Hok. destruct (session_consistent junk es _ _ _ (init_consistent junk id size diskless) Hok) as (s & w & E & Hc). destruct (rhistory _ _ _ _ _) as [base h]. cbn [fst snd] in Hc. exists s, w, base, h. split_and!; [done|done|]. cbn [rstep]. unfold syncCommand. destruct (is_attached c s) eqn:Ha; [by eexists _, _|]. apply not_attached in Ha. destruct (masterhost s && negb (bool_decide (repl_state s = LinkUp))); cbn [orb]; [by eexists _, _|]. destruct pending; [by eexists _, _|].
  destruct (to_int offset) as [o|] eqn:Eo.
  - rewrite (partial_spec c capa rid offset wok s base h o Hc Eo). cbn [mbind option_bind]. destruct (id_ok rid o s && offset_ok o s) eqn:Eok; [|by apply full_resync_served]. eexists _, _. split; [done|].
    apply andb_true_iff in Eok as [_ Eoff]. destruct (backlog_reply o s base h Hc Eoff) as [_ Hb]. exists (take (Z.to_nat (o - 1 - base)) h), (drop (Z.to_nat (o - 1 - base)) h). rewrite take_drop. split_and!; [done| |done|done]. pose proof (c_offset _ _ _ Hc) as Ho. unfold offset_ok in Eoff. destruct (repl_backlog s); [|done]. apply andb_true_iff in Eoff as [_ H%Z.leb_le]. rewrite length_take. f_equal. lia.
  - unfold masterTryPartialResynchronization, getLongFromObject. rewrite to_int_eq, Eo. cbn [mbind option_bind]. by apply full_resync_served.
Qed.

(** ** Concrete sessions *)

Definition demo_id : bytes := replicate 40 97.
Definition demo_newid : bytes := replicate 40 98.

(** A replica gets a dump while commands are written, follows the stream, and loses its connection. *)
Definition demo_events : list revent :=
  [Sync 1 3 (Some (str "?", str "-1")) false true demo_newid ForkOk; Write 0 [str "SET"; str "k"; str "v"]; BgsaveDone true [] ForkOk; BulkSent 1;
   Write 0 [str "DEL"; str "k"]; Sync 2 2 None false true demo_newid NotStarted; CronPing; Close 1; Write 1 [str "FLUSHDB"]].

Lemma demo_events_ok : Forall event_ok demo_events.
Proof. unfold demo_events, event_ok, args_ok. repeat constructor; cbn; try lia. by eexists. Defined.

Lemma replication_stream_witness : Forall event_ok demo_events ∧
  ∃ s w base h, rsession (λ _, 7) demo_events (initServer (λ _, 7) demo_id 1 false) = Some (s, w) ∧ rhistory (λ _, 7) demo_events (initServer (λ _, 7) demo_id 1 false) 0 [] = (base, h) ∧
    master_repl_offset s = base + zlen h ∧ Forall (slave_ok (master_repl_offset s) h) (slaves s) ∧
    ∀ e, event_ok e → ∃ s' w', rstep (λ _, 7) e s = Some (s', w') ∧ evolves (fed e s) (slaves s) (slaves s') ∧ retains (fed e s) s s' ∧ (fed e s ≠ [] → r_id <$> slaves s' = r_id <$> slaves s).
Proof. split; [apply demo_events_ok|]. apply (replication_stream (λ _, 7) demo_id 1 false demo_events), demo_events_ok. Defined.

Lemma psync_continues_witness : Forall event_ok demo_events ∧
  ∃ s w base h, rsession (λ _, 7) demo_events (initServer (λ _, 7) demo_id 1 false) = Some (s, w) ∧ rhistory (λ _, 7) demo_events (initServer (λ _, 7) demo_id 1 false) 0 [] = (base, h) ∧
    ∃ s' w', rstep (λ _, 7) (Sync 1 3 (Some (demo_newid, str "51")) false true demo_id ForkOk) s = Some (s', w') ∧
      if is_attached 1 s then s' = s ∧ w' = []
      else if (masterhost s && negb (bool_decide (repl_state s = LinkUp))) || false then s' = s ∧ w' = [WError 1]
      else if (match to_int (str "51") with Some o => id_ok demo_newid o s && offset_ok o s | None => false end)
      then ∃ p out, h = p ++ out ∧ to_int (str "51") = Some (base + zlen p + 1) ∧
        s' = set_slaves (slaves s ++ [Replica 1 ONLINE 0 out 3 false]) s ∧ w' = [WContinue 1 (Some (replid s))]
      else served 1 s' w' ∧ Forall (λ w, is_continue w = false) w'.
Proof. split; [apply demo_events_ok|]. apply (psync_continues (λ _, 7) demo_id 1 false demo_events 1 3 demo_newid (str "51") false true demo_id ForkOk). apply demo_events_ok. Defined.

(** The replica that comes back after the sixth event gets the rest of the stream. *)
Definition outputs (r : option (server * list sockwrite)) : option (list (Z * replstate * bytes) * list sockwrite) := '(s, w) ← r; Some ((λ r, (r_id r, r_state r, r_out r)) <$> slaves s, w).

Lemma demo_resync : outputs (rsession (λ _, 7) (demo_events ++ [Sync 1 3 (Some (demo_newid, str "85")) false true demo_id ForkOk]) (initServer (λ _, 7) demo_id 1 false)) =
  Some ([(1, ONLINE, select_bytes 1 ++ enc_cmd [str "FLUSHDB"])], [WFullResync 1 demo_newid 0; WError 2; WContinue 1 (Some demo_newid)]).
Proof. vm_compute. reflexivity. Qed.

(** An offset that is not a number: the error is put into the output buffer of the replica, before
    the stream. *)
Lemma psync_error_in_stream : outputs (rsession (λ _, 7) [Sync 1 3 (Some (str "?", str "x")) false true demo_newid ForkOk; Write 0 [str "PING"]] (initServer (λ _, 7) demo_id 1 false)) =
  Some ([(1, WAIT_BGSAVE_END, notintegertext ++ select_bytes 0 ++ enc_cmd [str "PING"])], [WFullResync 1 demo_newid 0]).
Proof. vm_compute. reflexivity. Qed.

(** A change of its size empties the backlog. *)
Lemma resize_forgets : (λ s, (histlen <$> repl_backlog s.1, histlen <$> repl_backlog (resizeReplicationBacklog (λ _, 7) 20000 s.1))) <$> rsession (λ _, 7) demo_events (initServer (λ _, 7) demo_id 1 false) = Some (Some 124, Some 0).
Proof. vm_compute. reflexivity. Qed.
