(* ===== verification/DbRel.v ===== *)
(** Databases whose values represent abstract values: the relation the refinement theorems of the
    types of values share, and maps from which keys are deleted. *)

From stdpp Require Import list numbers strings gmap.
From S2P Require Import Prelude Util SdsText Object.

(** ** Maps without some keys *)

Section Without.

Context {V : Type}.

Implicit Types m : gmap bytes V.

Definition without m (l : list bytes) : gmap bytes V := foldl (λ m e, delete e m) m l.

Lemma without_empty l : without ∅ l = ∅.
Proof. unfold without. induction l as [|e l IH]; [done|]. cbn [foldl]. by rewrite delete_empty. Qed.

Lemma size_delete m e : Z.of_nat (size m) = Z.of_nat (size (delete e m)) + b2z (bool_decide (is_Some (m !! e))).
Proof.
  rewrite map_size_delete. destruct (m !! e) as [v|] eqn:E; cbn; [|lia]. assert (size m ≠ 0)%nat; [|lia].
  intros Hz. apply map_size_empty_iff in Hz. subst. by rewrite lookup_empty in E.
Qed.

Lemma without_size l : ∀ m, (size (without m l) ≤ size m)%nat.
Proof.
  induction l as [|e l IH]; intros m; [done|]. change (without m (e :: l)) with (without (delete e m) l). pose proof (size_delete m e). specialize (IH (delete e m)). destruct (bool_decide _); cbn [b2z] in *; lia.
Qed.

(** Nothing changes when no key is there. *)
Lemma without_same l : ∀ m, size (without m l) = size m → without m l = m.
Proof.
  induction l as [|e l IH]; intros m Hz; [done|]. change (without m (e :: l)) with (without (delete e m) l) in *. pose proof (size_delete m e) as Hs. pose proof (without_size l (delete e m)). destruct (m !! e) as [v|] eqn:E.
  - rewrite bool_decide_eq_true_2 in Hs by by eexists. cbn [b2z] in Hs. lia.
  - rewrite delete_id in * by done. by apply IH.
Qed.

End Without.

(** ** Databases *)

Section DbRel.

Context {A B T : Type} (R : A → B → Prop).

Implicit Types (h : gmap bytes (dbval A)) (a : gmap bytes (dbval B)) (key : bytes).

(** The objects are related; the values of other types are the same. *)
Definition val_rel (v : dbval A) (w : dbval B) : Prop :=
  match v, w with VObj o, VObj x => R o x | VOther n, VOther n' => n = n' | _, _ => False end.

Definition db_rel h a : Prop := ∀ key : bytes, option_Forall2 val_rel (h !! key) (a !! key).

(** Keys with values of other types only. *)
Lemma db_rel_other (others : gmap bytes Z) : db_rel (VOther <$> others) (VOther <$> others).
Proof. intros key. rewrite !lookup_fmap. destruct (others !! key); by constructor. Qed.

Lemma db_rel_insert h a key o x : db_rel h a → R o x → db_rel (<[key := VObj o]> h) (<[key := VObj x]> a).
Proof. intros Hr Ho k. destruct (decide (key = k)) as [-> |]; [rewrite !lookup_insert_eq; by constructor|]. rewrite !lookup_insert_ne by done. apply Hr. Qed.

Lemma db_rel_delete h a key : db_rel h a → db_rel (delete key h) (delete key a).
Proof. intros Hr k. destruct (decide (key = k)) as [-> |]; [rewrite !lookup_delete_eq; constructor|]. rewrite !lookup_delete_ne by done. apply Hr. Qed.

(** The object of a key that was only read. *)
Lemma db_rel_same h a key o x : db_rel h a → a !! key = Some (VObj x) → R o x → db_rel (<[key := VObj o]> h) a.
Proof. intros Hr Hk Ho. rewrite <-(insert_id a key (VObj x)) by done. by apply db_rel_insert. Qed.

(** What a lookup finds on both sides. *)
Lemma db_rel_cases h a key :
  db_rel h a →
  (h !! key = None ∧ a !! key = None) ∨ (∃ o x, h !! key = Some (VObj o) ∧ a !! key = Some (VObj x) ∧ R o x) ∨ (∃ v, h !! key = Some (VOther v) ∧ a !! key = Some (VOther v)).
Proof. intros Hr. specialize (Hr key). destruct Hr as [[o|v] [x|w] Hv|]; try done; [right; left; by exists o, x|right; right; exists v; by rewrite Hv|by left]. Qed.

(** The result of a command refines the abstract one: when the abstract command is defined, the
    command does not fail, it has the same reply, effects and number of changes, and the
    databases are related again. *)
Definition cmd_refines (x : option (gmap bytes (dbval A) * T * list effect * Z)) (y : option (gmap bytes (dbval B) * T * list effect * Z)) : Prop :=
  ∀ a r es d, y = Some (a, r, es, d) → ∃ h, x = Some (h, r, es, d) ∧ db_rel h a.

Lemma cmd_refines_some h a (r : T) es d : db_rel h a → cmd_refines (Some (h, r, es, d)) (Some (a, r, es, d)).
Proof. intros Hr ? ? ? ? [= <- <- <- <-]. eauto. Qed.

End DbRel.
