(* ===== verification/Bitops.v ===== *)
(** Strings as arrays of bits (bitops.c): counting and searching bits, integers of any width at
    any position, and the commands SETBIT, GETBIT, BITOP, BITCOUNT, BITPOS and BITFIELD.

    A string object is its bytes; encodings and reference counts are those of [Keyspace].  Words
    are loaded on a little endian machine.  [None] is an access outside of a string, a panic, the
    use of a variable that was not set, or a shift by the width of its operand.  Signed sums wrap
    around. *)

From stdpp Require Import list numbers strings gmap.
From S2P Require Import Prelude Util Glob SdsText Object.

(** ** Counting and searching *)

Definition bitsinbyte : list Z :=
  [0;1;1;2;1;2;2;3;1;2;2;3;2;3;3;4;1;2;2;3;2;3;3;4;2;3;3;4;3;4;4;5;1;2;2;3;2;3;3;4;2;3;3;4;3;4;4;5;2;3;3;4;3;4;4;5;3;4;4;5;4;5;5;6;
   1;2;2;3;2;3;3;4;2;3;3;4;3;4;4;5;2;3;3;4;3;4;4;5;3;4;4;5;4;5;5;6;2;3;3;4;3;4;4;5;3;4;4;5;4;5;5;6;3;4;4;5;4;5;5;6;4;5;5;6;5;6;6;7;
   1;2;2;3;2;3;3;4;2;3;3;4;3;4;4;5;2;3;3;4;3;4;4;5;3;4;4;5;4;5;5;6;2;3;3;4;3;4;4;5;3;4;4;5;4;5;5;6;3;4;4;5;4;5;5;6;4;5;5;6;5;6;6;7;
   2;3;3;4;3;4;4;5;3;4;4;5;4;5;5;6;3;4;4;5;4;5;5;6;4;5;5;6;5;6;6;7;3;4;4;5;4;5;5;6;4;5;5;6;5;6;6;7;4;5;5;6;5;6;6;7;5;6;6;7;6;7;7;8].

(** [while((unsigned long)p & 3 && count)], with the string at the address [addr]. *)
Fixpoint popcount_head (fuel : nat) (addr : Z) (s : bytes) (p count bits : Z) : option (Z * Z * Z) :=
  match fuel with
  | O => None
  | S fuel =>
      if negb (Z.land (addr + p) 3 =? 0) && negb (count =? 0) then
        b ← peek s p;
        n ← peek bitsinbyte b;
        popcount_head fuel addr s (p + 1) (count - 1) (bits + n)
      else Some (p, count, bits)
  end.

(** The two steps for one of the seven words. *)
Definition popcount_aux (aux : Z) : Z :=
  let aux := u32 (aux - Z.land (Z.shiftr aux 1) 0x55555555) in
  u32 (Z.land aux 0x33333333 + Z.land (Z.shiftr aux 2) 0x33333333).

Definition popcount_nibbles (aux : Z) : Z := Z.land (u32 (aux + Z.shiftr aux 4)) 0x0F0F0F0F.

Definition load4 (s : bytes) (p : Z) : option Z := le_decode <$> slice s p 4.

Fixpoint popcount_blocks (fuel : nat) (s : bytes) (p count bits : Z) : option (Z * Z * Z) :=
  match fuel with
  | O => None
  | S fuel =>
      if 28 <=? count then
        aux1 ← load4 s p;
        aux2 ← load4 s (p + 4);
        aux3 ← load4 s (p + 8);
        aux4 ← load4 s (p + 12);
        aux5 ← load4 s (p + 16);
        aux6 ← load4 s (p + 20);
        aux7 ← load4 s (p + 24);
        let sum := u32 (foldl Z.add 0 (popcount_nibbles <$> (popcount_aux <$> [aux1; aux2; aux3; aux4; aux5; aux6; aux7]))) in
        popcount_blocks fuel s (p + 28) (count - 28) (bits + Z.shiftr (u32 (sum * 0x01010101)) 24)
      else Some (p, count, bits)
  end.

(** [while(count--) bits += bitsinbyte[*p++]] *)
Fixpoint popcount_tail (count : nat) (s : bytes) (p bits : Z) : option Z :=
  match count with
  | O => Some bits
  | S count => b ← peek s p; n ← peek bitsinbyte b; popcount_tail count s (p + 1) (bits + n)
  end.

(** [redisPopcount(s + start, count)], with [s] at the address [addr]. *)
Definition redisPopcount (addr : Z) (s : bytes) (start count : Z) : option Z :=
  '(p, count, bits) ← popcount_head 4 addr s start count 0;
  '(p, count, bits) ← popcount_blocks (S (Z.to_nat count)) s p count bits;
  popcount_tail (Z.to_nat count) s p bits.

(** [while((unsigned long)c & (sizeof( *l)-1) && count)]: the position in the string, the bytes
    left, the position of the bit, and [found]. *)
Fixpoint bitpos_head (fuel : nat) (addr : Z) (s : bytes) (skipval c count pos : Z) : option (Z * Z * Z * bool) :=
  match fuel with
  | O => None
  | S fuel =>
      if negb (Z.land (addr + c) 7 =? 0) && negb (count =? 0) then
        b ← peek s c;
        if negb (b =? skipval) then Some (c, count, pos, true)
        else bitpos_head fuel addr s skipval (c + 1) (count - 1) (pos + 8)
      else Some (c, count, pos, false)
  end.

Definition load8 (s : bytes) (p : Z) : option Z := le_decode <$> slice s p 8.

Fixpoint bitpos_words (fuel : nat) (s : bytes) (skipval l count pos : Z) : option (Z * Z * Z) :=
  match fuel with
  | O => None
  | S fuel =>
      if 8 <=? count then
        w ← load8 s l;
        if negb (w =? skipval) then Some (l, count, pos) else bitpos_words fuel s skipval (l + 8) (count - 8) (pos + 64)
      else Some (l, count, pos)
  end.

(** [for (j = 0; j < sizeof( *l); j++)] *)
Fixpoint bitpos_load (j : nat) (s : bytes) (c count word : Z) : option Z :=
  match j with
  | O => Some word
  | S j =>
      let word := u64 (Z.shiftl word 8) in
      if negb (count =? 0) then b ← peek s c; bitpos_load j s (c + 1) (count - 1) (Z.lor word b)
      else bitpos_load j s c count word
  end.

(** [while(one)]; after the loop the function panics. *)
Fixpoint bitpos_scan (fuel : nat) (one word bit pos : Z) : option Z :=
  match fuel with
  | O => None
  | S fuel =>
      if one =? 0 then None
      else if b2z (negb (Z.land one word =? 0)) =? bit then Some pos
      else bitpos_scan fuel (Z.shiftr one 1) word bit (pos + 1)
  end.

Definition redisBitpos (addr : Z) (s : bytes) (start count bit : Z) : option Z :=
  '(c, count, pos, found) ← bitpos_head 8 addr s (if bit =? 0 then 255 else 0) start count 0;
  '(c, count, pos) ← (if (found : bool) then Some (c, count, pos) else bitpos_words (S (Z.to_nat count)) s (if bit =? 0 then 2 ^ 64 - 1 else 0) c count pos);
  word ← bitpos_load 8 s c count 0;
  if (bit =? 1) && (word =? 0) then Some (-1)
  else bitpos_scan 65 (2 ^ 63) word bit pos.

(** ** Bit fields *)

(** [for (j = 0; j < bits; j++)]; [n] is [bits - j]. *)
Fixpoint set_field_loop (n : nat) (p : bytes) (offset value : Z) : option bytes :=
  match n with
  | O => Some p
  | S n =>
      let bitval := b2z (negb (Z.land value (Z.shiftl 1 (Z.of_nat n)) =? 0)) in
      let byte := Z.shiftr offset 3 in
      let bit := 7 - Z.land offset 7 in
      byteval ← peek p byte;
      let byteval := Z.land byteval (Z.lnot (Z.shiftl 1 bit)) in
      let byteval := Z.lor byteval (Z.shiftl bitval bit) in
      p ← poke p byte (Z.land byteval 255);
      set_field_loop n p (offset + 1) value
  end.

Definition setUnsignedBitfield (p : bytes) (offset bits value : Z) : option bytes := set_field_loop (Z.to_nat bits) p offset value.

Definition setSignedBitfield (p : bytes) (offset bits value : Z) : option bytes := setUnsignedBitfield p offset bits (u64 value).

Fixpoint get_field_loop (n : nat) (p : bytes) (offset value : Z) : option Z :=
  match n with
  | O => Some value
  | S n =>
      let byte := Z.shiftr offset 3 in
      let bit := 7 - Z.land offset 7 in
      byteval ← peek p byte;
      let bitval := Z.land (Z.shiftr byteval bit) 1 in
      get_field_loop n p (offset + 1) (Z.lor (u64 (Z.shiftl value 1)) bitval)
  end.

Definition getUnsignedBitfield (p : bytes) (offset bits : Z) : option Z := get_field_loop (Z.to_nat bits) p offset 0.

(** A shift of a [uint64_t] to the left, which is defined for less than 64 positions. *)
Definition shl64 (x n : Z) : option Z := if (0 <=? n) && (n <? 64) then Some (u64 (Z.shiftl x n)) else None.

Definition getSignedBitfield (p : bytes) (offset bits : Z) : option Z :=
  value ← getUnsignedBitfield p offset bits;
  top ← shl64 1 (bits - 1);
  if negb (Z.land value top =? 0) then mask ← shl64 (2 ^ 64 - 1) bits; Some (s64 (Z.lor value mask))
  else Some (s64 value).

Definition BFOVERFLOW_WRAP : Z := 0.
Definition BFOVERFLOW_SAT : Z := 1.
Definition BFOVERFLOW_FAIL : Z := 2.

(** The result and [*limit], which is [None] when it is not set. *)
Definition checkUnsignedBitfieldOverflow (value incr bits owtype : Z) : option (Z * option Z) :=
  max ← (if bits =? 64 then Some (2 ^ 64 - 1) else one ← shl64 1 bits; Some (u64 (one - 1)));
  let maxincr := s64 (u64 (max - value)) in
  let minincr := s64 (u64 (- value)) in
  let handle_wrap := mask ← shl64 (2 ^ 64 - 1) bits; Some (1, Some (Z.land (u64 (value + incr)) (u64 (Z.lnot mask)))) in
  if (max <? value) || ((0 <? incr) && (maxincr <? incr)) then
    if owtype =? BFOVERFLOW_WRAP then handle_wrap else Some (1, if owtype =? BFOVERFLOW_SAT then Some max else None)
  else if (incr <? 0) && (incr <? minincr) then
    if owtype =? BFOVERFLOW_WRAP then handle_wrap else Some (-1, if owtype =? BFOVERFLOW_SAT then Some 0 else None)
  else Some (0, None).

Definition checkSignedBitfieldOverflow (value incr bits owtype : Z) : option (Z * option Z) :=
  max ← (if bits =? 64 then Some (2 ^ 63 - 1) else one ← shl64 1 (bits - 1); Some (s64 (one - 1)));
  let min := s64 (- max - 1) in
  let maxincr := s64 (max - value) in
  let minincr := s64 (min - value) in
  let handle_wrap :=
    mask ← shl64 (2 ^ 64 - 1) bits;
    msb ← shl64 1 (bits - 1);
    let c := u64 (u64 value + u64 incr) in
    Some (1, Some (s64 (if negb (Z.land c msb =? 0) then Z.lor c mask else Z.land c (u64 (Z.lnot mask))))) in
  if (max <? value) || (negb (bits =? 64) && (maxincr <? incr)) || ((0 <=? value) && (0 <? incr) && (maxincr <? incr)) then
    if owtype =? BFOVERFLOW_WRAP then handle_wrap else Some (1, if owtype =? BFOVERFLOW_SAT then Some max else None)
  else if (value <? min) || (negb (bits =? 64) && (incr <? minincr)) || ((value <? 0) && (incr <? 0) && (incr <? minincr)) then
    if owtype =? BFOVERFLOW_WRAP then handle_wrap else Some (-1, if owtype =? BFOVERFLOW_SAT then Some min else None)
  else Some (0, None).

(** ** Arguments *)

Definition biterr : reply := RError "-ERR bit offset is not an integer or out of range".
Definition bitvalerr : reply := RError "-ERR bit is not an integer or out of range".
Definition typeerr : reply := RError "-ERR Invalid bitfield type. Use something like i16 u8. Note that u64 is not supported but i64 is.".
Definition bitargerr : reply := RError "-ERR The bit argument must be 1 or 0.".
Definition noterr : reply := RError "-ERR BITOP NOT must be called with a single source key.".
Definition owerr : reply := RError "-ERR Invalid OVERFLOW type specified".

(** The inner [None] is C_ERR. *)
Definition getBitOffsetFromArgument (p : bytes) (hash : bool) (bits : Z) : option (option Z) :=
  let usehash := match p with 35 :: _ => hash && (0 <? bits) | _ => false end in
  let t := if usehash then tail p else p in
  loffset ← string2ll t (zlen t);
  match loffset with
  | None => Some None
  | Some loffset =>
      let loffset := if usehash then s64 (loffset * bits) else loffset in
      if (loffset <? 0) || (512 * 1024 * 1024 <=? Z.shiftr loffset 3) then Some None else Some (Some loffset)
  end.

(** The sign and the width. *)
Definition getBitfieldTypeFromArgument (p : bytes) : option (option (bool * Z)) :=
  match (match p with 105 :: t => Some (true, t) | 117 :: t => Some (false, t) | _ => None end) with
  | None => Some None
  | Some (sign, t) =>
      let t := c_text t in
      llbits ← string2ll t (zlen t);
      match llbits with
      | None => Some None
      | Some n => if (n <? 1) || (sign && (64 <? n)) || (negb sign && (63 <? n)) then Some None else Some (Some (sign, n))
      end
  end.

(** ** Commands *)

Inductive bcommand :=
  | SetBit (key offset value : bytes)
  | GetBit (key offset : bytes)
  | BitOp (opname target : bytes) (keys : list bytes)
  | BitCount (key : bytes) (range : list bytes)
  | BitPos (key bit : bytes) (range : list bytes)
  | BitField (key : bytes) (args : list bytes).

(** BITFIELD replies with integers, or nothing for an operation that fails. *)
Inductive breply := BReply (r : reply) | BInts (n : Z) (l : list (option Z)).

Abbreviation bdb := (gmap bytes (dbval bytes)).
Abbreviation bresult := (bdb * breply * list effect * Z)%type.

Definition only (h : bdb) (r : reply) : option bresult := Some (h, BReply r, [], 0).

(** [getLongFromObjectOrReply] *)
Definition long_arg (h : bdb) (s : bytes) (err : reply) (c : Z → option bresult) : option bresult :=
  r ← getLongFromObject s; match r with None => only h err | Some n => c n end.

(** [sdsgrowzero] *)
Definition grow_zero (s : bytes) (n : Z) : bytes := s ++ replicate (Z.to_nat (n - zlen s)) 0.

(** The string with room for [maxbit]; [None]: a value of another type. *)
Definition lookupStringForBitCommand (h : bdb) (key : bytes) (maxbit : Z) : option bytes :=
  let byte := Z.shiftr maxbit 3 in
  match h !! key with
  | None => Some (replicate (Z.to_nat (byte + 1)) 0)
  | Some (VObj s) => Some (grow_zero s (byte + 1))
  | Some (VOther _) => None
  end.

Definition setbitCommand (h : bdb) (key offset value : bytes) : option bresult :=
  bitoffset ← getBitOffsetFromArgument offset false 0;
  match bitoffset with
  | None => only h biterr
  | Some bitoffset =>
      long_arg h value bitvalerr (λ on,
        if negb (Z.land on (Z.lnot 1) =? 0) then only h bitvalerr
        else
          match lookupStringForBitCommand h key bitoffset with
          | None => only h wrongtypeerr
          | Some s =>
              let byte := Z.shiftr bitoffset 3 in
              byteval ← peek s byte;
              let bit := 7 - Z.land bitoffset 7 in
              let bitval := Z.land byteval (Z.shiftl 1 bit) in
              let byteval := Z.land byteval (Z.lnot (Z.shiftl 1 bit)) in
              let byteval := Z.lor byteval (Z.shiftl (Z.land on 1) bit) in
              s ← poke s byte (u8 byteval);
              Some (<[key := VObj s]> h, BReply (RInt (if bitval =? 0 then 0 else 1)), [Signal key; Notify "setbit" key], 1)
          end)
  end.

Definition lookup_string_or (h : bdb) (key : bytes) (r : reply) (c : bytes → option bresult) : option bresult :=
  match h !! key with
  | None => only h r
  | Some (VObj s) => c s
  | Some (VOther _) => only h wrongtypeerr
  end.

Definition getbitCommand (h : bdb) (key offset : bytes) : option bresult :=
  bitoffset ← getBitOffsetFromArgument offset false 0;
  match bitoffset with
  | None => only h biterr
  | Some bitoffset =>
      lookup_string_or h key (RInt 0) (λ s,
        let byte := Z.shiftr bitoffset 3 in
        let bit := 7 - Z.land bitoffset 7 in
        bitval ← (if byte <? zlen s then b ← peek s byte; Some (Z.land b (Z.shiftl 1 bit)) else Some 0);
        only h (RInt (if bitval =? 0 then 0 else 1)))
  end.

(** *** BITOP *)

Definition BITOP_AND : Z := 0.
Definition BITOP_OR : Z := 1.
Definition BITOP_XOR : Z := 2.
Definition BITOP_NOT : Z := 3.

Definition bitop_name (opname : bytes) : option Z :=
  if strcasecmp_eq opname (str "and") then Some BITOP_AND
  else if strcasecmp_eq opname (str "or") then Some BITOP_OR
  else if strcasecmp_eq opname (str "xor") then Some BITOP_XOR
  else if strcasecmp_eq opname (str "not") then Some BITOP_NOT
  else None.

(** The sources, [maxlen] and [minlen]; [None]: a value of another type.  A key without a value is
    an empty string. *)
Fixpoint bitop_sources (h : bdb) (j : nat) (keys : list bytes) (maxlen minlen : Z) : option (list bytes * Z * Z) :=
  match keys with
  | [] => Some ([], maxlen, minlen)
  | key :: keys =>
      match h !! key with
      | None => '(src, maxlen, minlen) ← bitop_sources h (S j) keys maxlen 0; Some ([] :: src, maxlen, minlen)
      | Some (VOther _) => None
      | Some (VObj s) =>
          '(src, maxlen, minlen) ← bitop_sources h (S j) keys (if maxlen <? zlen s then zlen s else maxlen) (if (j =? 0)%nat || (zlen s <? minlen) then zlen s else minlen);
          Some (s :: src, maxlen, minlen)
      end
  end.

Definition bitop_word (op x y : Z) : Z :=
  if op =? BITOP_AND then Z.land x y else if op =? BITOP_OR then Z.lor x y else if op =? BITOP_XOR then Z.lxor x y else x.

(** [lres[k] op= lp[i][k]] for the four words at [j]. *)
Fixpoint bitop_words (k : nat) (op : Z) (res src : bytes) (j : Z) : option bytes :=
  match k with
  | O => Some res
  | S k =>
      x ← load8 res j;
      y ← load8 src j;
      res ← blit res j (le_encode 8 (bitop_word op x y));
      bitop_words k op res src (j + 8)
  end.

(** [for (i = 1; i < numkeys; i++)] *)
Fixpoint bitop_block (op : Z) (res : bytes) (src : list bytes) (j : Z) : option bytes :=
  match src with
  | [] => Some res
  | s :: src => res ← bitop_words 4 op res s j; bitop_block op res src j
  end.

Fixpoint bitop_not_words (k : nat) (res : bytes) (j : Z) : option bytes :=
  match k with
  | O => Some res
  | S k => x ← load8 res j; res ← blit res j (le_encode 8 (u64 (Z.lnot x))); bitop_not_words k res (j + 8)
  end.

(** [while(minlen >= sizeof(unsigned long)*4)] *)
Fixpoint bitop_fast (fuel : nat) (op : Z) (res : bytes) (src : list bytes) (j minlen : Z) : option (bytes * Z) :=
  match fuel with
  | O => None
  | S fuel =>
      if 32 <=? minlen then
        res ← (if op =? BITOP_NOT then bitop_not_words 4 res j else bitop_block op res src j);
        bitop_fast fuel op res src (j + 32) (minlen - 32)
      else Some (res, j)
  end.

(** The byte of a source, which is padded with zeros. *)
Definition src_byte (s : bytes) (j : Z) : option Z := if zlen s <=? j then Some 0 else peek s j.

Fixpoint bitop_byte (op output : Z) (src : list bytes) (j : Z) : option Z :=
  match src with
  | [] => Some output
  | s :: src => byte ← src_byte s j; bitop_byte op (bitop_word op output byte) src j
  end.

Fixpoint bitop_slow (n : nat) (op : Z) (res : bytes) (src0 : bytes) (src : list bytes) (j : Z) : option bytes :=
  match n with
  | O => Some res
  | S n =>
      output ← src_byte src0 j;
      let output := if op =? BITOP_NOT then u8 (Z.lnot output) else output in
      output ← bitop_byte op output src j;
      res ← poke res j output;
      bitop_slow n op res src0 src (j + 1)
  end.

(** The result, for sources that are not all empty. *)
Definition bitop_result (op : Z) (src : list bytes) (maxlen minlen : Z) : option bytes :=
  match src with
  | [] => None
  | src0 :: rest =>
      let res := replicate (Z.to_nat maxlen) 0 in
      '(res, j) ←
        (if (32 <=? minlen) && (zlen src <=? 16) then
           start ← slice src0 0 minlen;
           res ← blit res 0 start;
           bitop_fast (S (Z.to_nat minlen)) op res rest 0 minlen
         else Some (res, 0));
      bitop_slow (Z.to_nat (maxlen - j)) op res src0 rest j
  end.

Definition bitopCommand (h : bdb) (opname target : bytes) (keys : list bytes) : option bresult :=
  match bitop_name opname with
  | None => only h syntaxerr
  | Some op =>
      if (op =? BITOP_NOT) && negb (zlen keys =? 1) then only h noterr
      else
        match bitop_sources h 0 keys 0 0 with
        | None => only h wrongtypeerr
        | Some (src, maxlen, minlen) =>
            if maxlen =? 0 then
              Some (delete target h, BReply (RInt 0), if bool_decide (is_Some (h !! target)) then [Signal target; Notify "del" target] else [], 1)
            else
              res ← bitop_result op src maxlen minlen;
              Some (<[target := VObj res]> h, BReply (RInt maxlen), [Signal target; Notify "set" target], 1)
        end
  end.

(** *** BITCOUNT and BITPOS *)

(** The bounds of a range of bytes: from the second negative indexes on. *)
Definition clip_range (strlen start end_ : Z) : Z * Z :=
  let start := if start <? 0 then strlen + start else start in
  let end_ := if end_ <? 0 then strlen + end_ else end_ in
  let start := if start <? 0 then 0 else start in
  let end_ := if end_ <? 0 then 0 else end_ in
  (start, if strlen <=? end_ then strlen - 1 else end_).

Section Addresses.

(** The address of a string. *)
Context (addr_of : bytes → Z).

Definition bitcountCommand (h : bdb) (key : bytes) (range : list bytes) : option bresult :=
  lookup_string_or h key (RInt 0) (λ s,
    let count (start end_ : Z) : option bresult :=
      if end_ <? start then only h (RInt 0) else n ← redisPopcount (addr_of s) s start (end_ - start + 1); only h (RInt n) in
    match range with
    | [] => count 0 (zlen s - 1)
    | [start; end_] =>
        long_arg h start notintegererr (λ start,
          long_arg h end_ notintegererr (λ end_,
            if (start <? 0) && (end_ <? 0) && (end_ <? start) then only h (RInt 0)
            else let '(start, end_) := clip_range (zlen s) start end_ in count start end_))
    | _ => only h syntaxerr
    end).

Definition bitposCommand (h : bdb) (key bit : bytes) (range : list bytes) : option bresult :=
  long_arg h bit notintegererr (λ bit,
    if negb (bit =? 0) && negb (bit =? 1) then only h bitargerr
    else
      lookup_string_or h key (RInt (if bit =? 0 then 0 else -1)) (λ s,
        let search (start end_ : Z) (end_given : bool) : option bresult :=
          if end_ <? start then only h (RInt (-1))
          else
            let bytes := end_ - start + 1 in
            pos ← redisBitpos (addr_of s) s start bytes bit;
            if end_given && (bit =? 0) && (pos =? bytes * 8) then only h (RInt (-1))
            else only h (RInt (if pos =? -1 then pos else pos + start * 8)) in
        match range with
        | [] => search 0 (zlen s - 1) false
        | [start] => long_arg h start notintegererr (λ start, let '(start, end_) := clip_range (zlen s) start (zlen s - 1) in search start end_ false)
        | [start; end_] =>
            long_arg h start notintegererr (λ start,
              long_arg h end_ notintegererr (λ end_, let '(start, end_) := clip_range (zlen s) start end_ in search start end_ true))
        | _ => only h syntaxerr
        end)).

End Addresses.

(** *** BITFIELD *)

Definition BITFIELDOP_GET : Z := 0.
Definition BITFIELDOP_SET : Z := 1.
Definition BITFIELDOP_INCRBY : Z := 2.

Record bitfieldOp := BitfieldOp { bf_offset : Z; bf_i64 : Z; bf_opcode : Z; bf_owtype : Z; bf_bits : Z; bf_sign : bool }.

(** The parsed operations, or an error. *)
Inductive bf_parsed := BfOps (ops : list bitfieldOp) (readonly : bool) (highest_write_offset : Z) | BfError (e : reply).

(** The loop over the arguments; [fuel] bounds their number. *)
Fixpoint bitfield_parse (fuel : nat) (args : list bytes) (ops : list bitfieldOp) (owtype : Z) (readonly : bool) (highest : Z) : option bf_parsed :=
  match fuel with
  | O => None
  | S fuel =>
      match args with
      | [] => Some (BfOps ops readonly highest)
      | subcmd :: rest =>
          let opcode :=
            if strcasecmp_eq subcmd (str "get") && (2 <=? zlen rest) then Some BITFIELDOP_GET
            else if strcasecmp_eq subcmd (str "set") && (3 <=? zlen rest) then Some BITFIELDOP_SET
            else if strcasecmp_eq subcmd (str "incrby") && (3 <=? zlen rest) then Some BITFIELDOP_INCRBY
            else None in
          match opcode, rest with
          | Some opcode, ty :: off :: rest =>
              t ← getBitfieldTypeFromArgument ty;
              match t with
              | None => Some (BfError typeerr)
              | Some (sign, bits) =>
                  bitoffset ← getBitOffsetFromArgument off true bits;
                  match bitoffset with
                  | None => Some (BfError biterr)
                  | Some bitoffset =>
                      if opcode =? BITFIELDOP_GET then bitfield_parse fuel rest (ops ++ [BitfieldOp bitoffset 0 opcode owtype bits sign]) owtype readonly highest
                      else
                        match rest with
                        | [] => None
                        | v :: rest =>
                            i64 ← getLongFromObject v;
                            match i64 with
                            | None => Some (BfError notintegererr)
                            | Some i64 =>
                                bitfield_parse fuel rest (ops ++ [BitfieldOp bitoffset i64 opcode owtype bits sign]) owtype false
                                  (if highest <? bitoffset + bits - 1 then bitoffset + bits - 1 else highest)
                            end
                        end
                  end
              end
          | _, ow :: rest =>
              if strcasecmp_eq subcmd (str "overflow") then
                if strcasecmp_eq ow (str "wrap") then bitfield_parse fuel rest ops BFOVERFLOW_WRAP readonly highest
                else if strcasecmp_eq ow (str "sat") then bitfield_parse fuel rest ops BFOVERFLOW_SAT readonly highest
                else if strcasecmp_eq ow (str "fail") then bitfield_parse fuel rest ops BFOVERFLOW_FAIL readonly highest
                else Some (BfError owerr)
              else Some (BfError syntaxerr)
          | _, [] => Some (BfError syntaxerr)
          end
      end
  end.

(** SET and INCRBY: the string, and the reply or [None] for a failure.  A limit that is not set is
    not used. *)
Definition bitfield_write (s : bytes) (op : bitfieldOp) : option (bytes * option Z) :=
  oldval ← (if bf_sign op then getSignedBitfield s (bf_offset op) (bf_bits op) else getUnsignedBitfield s (bf_offset op) (bf_bits op));
  let incr := bf_opcode op =? BITFIELDOP_INCRBY in
  let wrap := if bf_sign op then s64 else u64 in
  let check := if bf_sign op then checkSignedBitfieldOverflow else checkUnsignedBitfieldOverflow in
  let value := if incr then oldval else wrap (bf_i64 op) in
  '(overflow, wrapped) ← check value (if incr then bf_i64 op else 0) (bf_bits op) (bf_owtype op);
  if negb (overflow =? 0) && (bf_owtype op =? BFOVERFLOW_FAIL) then Some (s, None)
  else
    newval ← (if overflow =? 0 then Some (if incr then wrap (oldval + bf_i64 op) else wrap (bf_i64 op)) else wrapped);
    s ← (if bf_sign op then setSignedBitfield else setUnsignedBitfield) s (bf_offset op) (bf_bits op) newval;
    Some (s, Some (s64 (if incr then newval else oldval))).

(** The nine bytes of the string, padded with zeros, that a GET copies. *)
Definition bitfield_buf (s : option bytes) (byte : Z) : bytes :=
  let t := match s with Some s => take 9 (drop (Z.to_nat byte) s) | None => [] end in t ++ replicate (9 - length t) 0.

Definition bitfield_get (s : option bytes) (op : bitfieldOp) : option Z :=
  let byte := Z.shiftr (bf_offset op) 3 in
  let buf := bitfield_buf s byte in
  val ← (if bf_sign op then getSignedBitfield else getUnsignedBitfield) buf (bf_offset op - byte * 8) (bf_bits op);
  Some (s64 val).

(** The operations: the string, the replies and the number of writes. *)
Fixpoint bitfield_run (ops : list bitfieldOp) (s : option bytes) : option (option bytes * list (option Z) * Z) :=
  match ops with
  | [] => Some (s, [], 0)
  | op :: ops =>
      if bf_opcode op =? BITFIELDOP_GET then
        v ← bitfield_get s op;
        '(s, rs, n) ← bitfield_run ops s;
        Some (s, Some v :: rs, n)
      else
        s ← s;
        '(s, r) ← bitfield_write s op;
        '(s, rs, n) ← bitfield_run ops (Some s);
        Some (s, r :: rs, n + 1)
  end.

Definition bitfieldCommand (h : bdb) (key : bytes) (args : list bytes) : option bresult :=
  p ← bitfield_parse (S (length args)) args [] BFOVERFLOW_WRAP true 0;
  match p with
  | BfError e => only h e
  | BfOps ops readonly highest =>
      let run (s : option bytes) : option bresult :=
        '(s, rs, changes) ← bitfield_run ops s;
        Some (match s with Some s => <[key := VObj s]> h | None => h end, BInts (zlen ops) rs,
          if changes =? 0 then [] else [Signal key; Notify "setbit" key], changes) in
      if readonly then
        match h !! key with
        | None => run None
        | Some (VObj s) => run (Some s)
        | Some (VOther _) => only h wrongtypeerr
        end
      else
        match lookupStringForBitCommand h key highest with
        | None => only h wrongtypeerr
        | Some s => run (Some s)
        end
  end.

Definition run_bcommand (addr_of : bytes → Z) (h : bdb) (cmd : bcommand) : option bresult :=
  match cmd with
  | SetBit key offset value => setbitCommand h key offset value
  | GetBit key offset => getbitCommand h key offset
  | BitOp opname target keys => bitopCommand h opname target keys
  | BitCount key range => bitcountCommand addr_of h key range
  | BitPos key bit range => bitposCommand addr_of h key bit range
  | BitField key args => bitfieldCommand h key args
  end.

(** A session; strings may move between the commands. *)
Fixpoint run_bcommands (addr_of : nat → bytes → Z) (n : nat) (h : bdb) (cmds : list bcommand) : option (bdb * list (breply * list effect * Z)) :=
  match cmds with
  | [] => Some (h, [])
  | cmd :: cmds =>
      '(h, r, ev, d) ← run_bcommand (addr_of n) h cmd;
      '(h, rs) ← run_bcommands addr_of (S n) h cmds;
      Some (h, (r, ev, d) :: rs)
  end.
