(* ===== verification/BitopsBits.v ===== *)
(** Strings as lists of bits: what the routines of [Bitops] that count, search, read and write bits
    compute. *)

From stdpp Require Import list numbers strings gmap.
From S2P Require Import Prelude Util Glob SdsText Object Bitops.

(** ** Bits *)

(** The bits of a byte, the most significant one first. *)
Definition byte_bits (b : Z) : list bool := (λ i, Z.testbit b i) <$> [7; 6; 5; 4; 3; 2; 1; 0].
Definition bits_of (s : bytes) : list bool := s ≫= byte_bits.

(** The number that bits denote, and the [n] low bits of a number. *)
Definition value_of (l : list bool) : Z := foldl (λ v b, 2 * v + b2z b) 0 l.
Definition field_of (n : nat) (v : Z) : list bool := (λ i, Z.testbit v (Z.of_nat i)) <$> reverse (seq 0 n).

Definition ones (l : list bool) : Z := zlen (filter (λ b, b = true) l).

(** The position of the first bit [b]. *)
Fixpoint first_bit (b : bool) (l : list bool) : option nat :=
  match l with
  | [] => None
  | c :: l => if eqb c b then Some O else S <$> first_bit b l
  end.

(** The bit at a position, the bits after the last one being zeros. *)
Definition bit_at (l : list bool) (i : Z) : bool := default false (l !! Z.to_nat i).

(** [l] with zeros up to a length. *)
Definition padded (n : nat) (l : list bool) : list bool := l ++ replicate (n - length l) false.

Lemma bits_cons b s : bits_of (b :: s) = byte_bits b ++ bits_of s.
Proof. done. Qed.

Lemma bits_app s t : bits_of (s ++ t) = bits_of s ++ bits_of t.
Proof. apply bind_app. Qed.

Lemma bits_length s : length (bits_of s) = (8 * length s)%nat.
Proof. induction s as [|b s IH]; [done|]. rewrite bits_cons, length_app, IH. cbn [length]. change (length (byte_bits b)) with 8%nat. lia. Qed.

Lemma bits_zlen s : zlen (bits_of s) = 8 * zlen s.
Proof. rewrite bits_length. lia. Qed.

Lemma bits_take n s : bits_of (take n s) = take (8 * n) (bits_of s).
Proof.
  revert n. induction s as [|b s IH]; intros [|n]; try done. cbn [take]. rewrite !bits_cons, IH. replace (8 * S n)%nat with (length (byte_bits b) + 8 * n)%nat by (change (length (byte_bits b)) with 8%nat; lia). by rewrite take_app_add.
Qed.

Lemma bits_drop n s : bits_of (drop n s) = drop (8 * n) (bits_of s).
Proof.
  revert n. induction s as [|b s IH]; intros [|n]; try done. cbn [drop]. rewrite !bits_cons, IH. replace (8 * S n)%nat with (length (byte_bits b) + 8 * n)%nat by (change (length (byte_bits b)) with 8%nat; lia). by rewrite drop_app_add.
Qed.

Lemma bits_zeros n : bits_of (replicate n 0) = replicate (8 * n) false.
Proof. induction n as [|n IH]; [done|]. rewrite replicate_S, bits_cons, IH. replace (8 * S n)%nat with (8 + 8 * n)%nat by lia. by rewrite replicate_add. Qed.

(** The bit at a position. *)
Lemma bits_lookup s i : 0 ≤ i → bits_of s !! Z.to_nat i = (λ b, Z.testbit b (7 - i mod 8)) <$> s !! Z.to_nat (i / 8).
Proof.
  revert i. induction s as [|b s IH]; intros i Hi; [done|]. rewrite bits_cons. destruct (decide (i < 8)) as [H8|H8].
  - rewrite (Z.div_small i 8), (Z.mod_small i 8) by lia. assert (i = 0 ∨ i = 1 ∨ i = 2 ∨ i = 3 ∨ i = 4 ∨ i = 5 ∨ i = 6 ∨ i = 7) as Hc by lia. repeat destruct Hc as [-> |Hc]; [done..|by subst].
  - rewrite lookup_app_r by (change (length (byte_bits b)) with 8%nat; lia). change (length (byte_bits b)) with 8%nat. replace (Z.to_nat i - 8)%nat with (Z.to_nat (i - 8)) by lia. rewrite IH by lia.
    replace ((i - 8) mod 8) with (i mod 8) by (replace i with (i - 8 + 1 * 8) at 1 by lia; apply Z_mod_plus_full). replace (Z.to_nat (i / 8)) with (S (Z.to_nat ((i - 8) / 8))); [done|]. replace (i / 8) with ((i - 8) / 8 + 1) by (rewrite <-Z.div_add by lia; f_equal; lia). pose proof (Z.div_pos (i - 8) 8). lia.
Qed.

(** ** Counting *)

(** The number of bits of a byte, as the table has it. *)
Definition popbyte (b : Z) : Z := ones (byte_bits b).

Lemma ones_app l k : ones (l ++ k) = ones l + ones k.
Proof. unfold ones. rewrite filter_app, length_app. lia. Qed.

(** A decidable property of bytes is decided by evaluation. *)
Lemma check_byte (P : Z → Prop) `{∀ b, Decision (P b)} : forallb (λ i, bool_decide (P (Z.of_nat i))) (seq 0 256) = true → ∀ b, is_byte b → P b.
Proof. intros Hf b Hb. apply (bool_decide_eq_true (P b)). exact (check_range (λ i, bool_decide (P i)) 256 Hf b Hb). Qed.

Lemma bitsinbyte_ok : ∀ b, is_byte b → peek bitsinbyte b = Some (popbyte b).
Proof. apply (check_byte _). vm_compute. reflexivity. Qed.

Lemma ones_bits s : ones (bits_of s) = foldr Z.add 0 (popbyte <$> s).
Proof. induction s as [|b s IH]; [done|]. rewrite bits_cons, ones_app, IH. done. Qed.

(** The low byte and the rest of a conjunction. *)
Lemma land_split x m n : 0 ≤ x → is_byte m → 0 ≤ n → Z.land x (m + 256 * n) = Z.land (x mod 256) m + 256 * Z.land (x / 256) n.
Proof.
  intros Hx Hm Hn. pose proof (Z.mod_pos_bound x 256). pose proof (Z.div_pos x 256). rewrite (Z.div_mod x 256) at 1 by lia. rewrite (Z.add_comm (256 * _)). set (r := x mod 256). set (q := x / 256).
  assert (0 ≤ Z.land r m < 2 ^ 8) as Hl. { apply (in_u_bits 8); [lia|apply Z.land_nonneg; lia|]. intros i Hi. rewrite Z.land_spec, (in_u_high 8 m) by done. apply andb_false_r. }
  rewrite !(Z.mul_comm 256). change 256 with (2 ^ 8). rewrite <-!lor_shift by (unfold is_byte in Hm; lia). apply Z.bits_inj'. intros i Hi. rewrite Z.land_spec, !Z.lor_spec, Z.land_spec. destruct (Z.ltb_spec i 8).
  - rewrite !Z.shiftl_spec_low by lia. by rewrite !orb_false_r.
  - rewrite !Z.shiftl_spec by lia. rewrite Z.land_spec, (in_u_high 8 r), (in_u_high 8 m) by (unfold in_u, is_byte in *; lia). done.
Qed.

(** *** The words *)

(** The steps for a byte. *)
Definition pop1 (b : Z) : Z := b - Z.land (Z.shiftr b 1) 0x55.
Definition pop2 (b : Z) : Z := Z.land b 0x33 + Z.land (Z.shiftr b 2) 0x33.
Definition pop4 (b : Z) : Z := Z.land (b + Z.shiftr b 4) 0x0F.

(** Two counts of at most four. *)
Definition nibbles (b : Z) : Prop := 0 ≤ b < 128 ∧ b mod 16 ≤ 4.

#[local] Instance nibbles_dec b : Decision (nibbles b).
Proof. unfold nibbles. apply _. Defined.

Lemma pop_steps : ∀ b, is_byte b → is_byte (pop1 b) ∧ nibbles (pop2 (pop1 b)) ∧ pop4 (pop2 (pop1 b)) = popbyte b ∧ 0 ≤ popbyte b ≤ 8.
Proof. apply (check_byte _). vm_compute. reflexivity. Qed.

Lemma shiftr_low x m k : 0 ≤ x → 0 < k ≤ 4 → is_byte m → m < 2 ^ (8 - k) → Z.land (Z.shiftr x k mod 256) m = Z.land (Z.shiftr (x mod 256) k) m.
Proof.
  intros Hx Hk Hm Hlt. apply Z.bits_inj'. intros i Hi. rewrite !Z.land_spec, Z.shiftr_spec by done. change 256 with (2 ^ 8). destruct (Z.ltb_spec i (8 - k)).
  - rewrite !Z.mod_pow2_bits_low by lia. by rewrite Z.shiftr_spec by done.
  - rewrite (in_u_high (8 - k) m) by (unfold in_u, is_byte in *; lia). by rewrite !andb_false_r.
Qed.

Lemma shiftr_high x k : 0 ≤ x → 0 ≤ k → Z.shiftr x k / 256 = Z.shiftr (x / 256) k.
Proof. intros Hx Hk. rewrite !Z.shiftr_div_pow2 by done. rewrite !Z.div_div by lia. f_equal. lia. Qed.

(** A conjunction with a mask that is the same in every byte, after a shift. *)
Lemma land_shiftr_cons b y m n k : is_byte b → 0 ≤ y → 0 ≤ k ≤ 4 → is_byte m → m < 2 ^ (8 - k) → 0 ≤ n → Z.land (Z.shiftr (b + 256 * y) k) (m + 256 * n) = Z.land (Z.shiftr b k) m + 256 * Z.land (Z.shiftr y k) n.
Proof.
  intros Hb Hy Hk Hm Hlt Hn. unfold is_byte in Hb. assert ((b + 256 * y) mod 256 = b) as Em by (rewrite (Z.mul_comm 256), Z_mod_plus_full; apply Z.mod_small; lia). assert ((b + 256 * y) / 256 = y) as Ed by (rewrite (Z.mul_comm 256), Z.div_add, Z.div_small by lia; lia).
  rewrite land_split by (try apply Z.shiftr_nonneg; try done; lia). rewrite shiftr_high, Ed by lia. f_equal. destruct (decide (k = 0)) as [-> |]; [by rewrite !Z.shiftr_0_r, Em|]. by rewrite shiftr_low, Em by (done || lia).
Qed.

Abbreviation mask n m := (le_decode (replicate n m)).

Lemma mask_nonneg n m : is_byte m → 0 ≤ mask n m.
Proof. intros Hm. apply le_decode_bound, Forall_replicate, Hm. Qed.

Lemma pop1_word l : Forall is_byte l → le_decode l - Z.land (Z.shiftr (le_decode l) 1) (mask (length l) 0x55) = le_decode (pop1 <$> l).
Proof.
  induction 1 as [|b l Hb Hl IH]; [done|]. cbn [length replicate le_decode fmap list_fmap]. pose proof (proj1 (le_decode_bound l Hl)). assert (0 ≤ mask (length l) 0x55) by by apply mask_nonneg. rewrite land_shiftr_cons by (done || lia). unfold pop1 at 1. rewrite <-IH. lia.
Qed.

Lemma pop2_word l : Forall is_byte l → Z.land (le_decode l) (mask (length l) 0x33) + Z.land (Z.shiftr (le_decode l) 2) (mask (length l) 0x33) = le_decode (pop2 <$> l).
Proof.
  induction 1 as [|b l Hb Hl IH]; [done|]. cbn [length replicate le_decode fmap list_fmap]. pose proof (proj1 (le_decode_bound l Hl)). assert (0 ≤ mask (length l) 0x33) by by apply mask_nonneg. pose proof (land_shiftr_cons b (le_decode l) 0x33 (mask (length l) 0x33) 0) as Hz. rewrite !Z.shiftr_0_r in Hz.
  rewrite Hz, land_shiftr_cons by (done || lia). unfold pop2 at 1. rewrite <-IH. lia.
Qed.

Lemma le_decode_nibbles l : Forall nibbles l → 0 ≤ le_decode l ∧ le_decode l mod 16 ≤ 4.
Proof.
  intros Hl. split.
  - apply le_decode_bound. eapply Forall_impl; [done|]. unfold nibbles, is_byte. lia.
  - destruct Hl as [|b l Hb Hl]; [done|]. cbn [le_decode]. replace (b + 256 * le_decode l) with (b + 16 * le_decode l * 16) by lia. rewrite Z_mod_plus_full. apply Hb.
Qed.

Lemma pop4_word l : Forall nibbles l → Z.land (le_decode l + Z.shiftr (le_decode l) 4) (mask (length l) 0x0F) = le_decode (pop4 <$> l).
Proof.
  induction 1 as [|b l Hb Hl IH]; [done|]. cbn [length replicate le_decode fmap list_fmap]. assert (0 ≤ mask (length l) 0x0F) by by apply mask_nonneg. destruct (le_decode_nibbles l Hl) as [Hy Hm]. destruct Hb as [Hb _]. rewrite <-IH. clear IH. set (y := le_decode l) in *. set (n := mask (length l) 0x0F) in *. unfold pop4. rewrite !Z.shiftr_div_pow2 by lia. change (2 ^ 4) with 16.
  assert (b + 256 * y + (b + 256 * y) / 16 = b + b / 16 + 16 * (y mod 16) + (y + y / 16) * 256) as ->.
  { replace (b + 256 * y) with (b + 16 * y * 16) at 2 by lia. rewrite Z.div_add by lia. pose proof (Z.div_mod y 16). lia. }
  pose proof (Z.mod_pos_bound y 16). pose proof (Z.div_pos b 16). pose proof (Z.div_lt_upper_bound b 16 8). pose proof (Z.div_pos y 16). rewrite land_split by (done || lia). rewrite Z_mod_plus_full, Z.div_add, Z.mod_small, (Z.div_small (b + _ + _)) by lia. f_equal.
  change 15 with (Z.ones 4). rewrite !Z.land_ones by lia. change (2 ^ 4) with 16. rewrite (Z.mul_comm 16). apply Z_mod_plus_full.
Qed.

(** A word of four bytes: the counts of its bytes. *)
Lemma popcount_word l : length l = 4%nat → Forall is_byte l → popcount_nibbles (popcount_aux (le_decode l)) = le_decode (popbyte <$> l).
Proof.
  intros Hlen Hl. pose proof (pop1_word l Hl) as E1. assert (Forall is_byte (pop1 <$> l)) as Hl1 by (apply Forall_fmap; eapply Forall_impl; [done|]; intros b Hb; by apply pop_steps).
  assert (Forall nibbles (pop2 <$> (pop1 <$> l))) as Hl2 by (do 2 apply Forall_fmap; eapply Forall_impl; [done|]; intros b Hb; by apply pop_steps). pose proof (pop2_word _ Hl1) as E2. pose proof (pop4_word _ Hl2) as E4. rewrite Hlen in E1. rewrite length_fmap, Hlen in E2. rewrite !length_fmap, Hlen in E4.
  change (mask 4 0x55) with 0x55555555 in E1. change (mask 4 0x33) with 0x33333333 in E2. change (mask 4 0x0F) with 0x0F0F0F0F in E4. unfold popcount_nibbles, popcount_aux. rewrite E1, (wrap_u_small 32 (le_decode (pop1 <$> l))), E2.
  2: { pose proof (le_decode_bound _ Hl1) as Hb. rewrite length_fmap, Hlen in Hb. exact Hb. }
  assert (0 ≤ le_decode (pop2 <$> (pop1 <$> l)) < 2 ^ 31) as Hb2.
  { destruct l as [|b0 [|b1 [|b2 [|b3 [|]]]]]; try done. cbn [fmap list_fmap le_decode] in *. repeat (apply Forall_cons in Hl2 as [[? _] Hl2]). lia. }
  rewrite (wrap_u_small 32 (le_decode (pop2 <$> (pop1 <$> l)))) by (unfold in_u; lia). rewrite wrap_u_small, E4.
  - f_equal. rewrite <-!list_fmap_compose. apply list_fmap_ext. intros i b Hb. eapply Forall_lookup in Hb; [|exact Hl]. by apply pop_steps.
  - unfold in_u. rewrite Z.shiftr_div_pow2 by lia. pose proof (Z.div_pos (le_decode (pop2 <$> (pop1 <$> l))) (2 ^ 4)). pose proof (Z.div_le_upper_bound (le_decode (pop2 <$> (pop1 <$> l))) (2 ^ 4) (2 ^ 27)). lia.
Qed.

(** The multiplication adds the four bytes. *)
Lemma sum_bytes a b c d : 0 ≤ a ≤ 56 → 0 ≤ b ≤ 56 → 0 ≤ c ≤ 56 → 0 ≤ d ≤ 56 → Z.shiftr (u32 (u32 (le_decode [a; b; c; d]) * 0x01010101)) 24 = a + b + c + d.
Proof.
  intros. cbn [le_decode]. rewrite Z.mul_0_r, Z.add_0_r. rewrite (wrap_u_small 32 (a + _)) by (unfold in_u; lia). rewrite Z.shiftr_div_pow2 by lia. unfold wrap_u.
  replace ((a + 256 * (b + 256 * (c + 256 * d))) * 0x01010101) with (a + 256 * (a + b) + 65536 * (a + b + c) + 2 ^ 24 * (a + b + c + d) + (b + c + d + 256 * (c + d) + 65536 * d) * 2 ^ 32) by lia. rewrite Z_mod_plus_full, Z.mod_small by lia.
  rewrite (Z.mul_comm (2 ^ 24)), Z.div_add, Z.div_small by lia. lia.
Qed.

Lemma le_decode_add : ∀ l k, length l = length k → le_decode l + le_decode k = le_decode (zip_with Z.add l k).
Proof. induction l as [|b l IH]; intros [|c k] H; try done. cbn [le_decode zip_with]. rewrite <-IH by (cbn in H; lia). lia. Qed.

Lemma load4_drop s p k : 0 ≤ p → p + Z.of_nat k + 4 ≤ zlen s → load4 s (p + Z.of_nat k) = Some (le_decode (take 4 (drop k (drop (Z.to_nat p) s)))).
Proof. intros Hp Hl. unfold load4. rewrite slice_Some by lia. rewrite drop_drop. cbn [fmap option_fmap option_map]. repeat f_equal. lia. Qed.

(** Seven words. *)
Lemma popcount_block s p bits :
  Forall is_byte s → 0 ≤ p → p + 28 ≤ zlen s →
  (aux1 ← load4 s p; aux2 ← load4 s (p + 4); aux3 ← load4 s (p + 8); aux4 ← load4 s (p + 12); aux5 ← load4 s (p + 16); aux6 ← load4 s (p + 20); aux7 ← load4 s (p + 24);
   Some (bits + Z.shiftr (u32 (u32 (foldl Z.add 0 (popcount_nibbles <$> (popcount_aux <$> [aux1; aux2; aux3; aux4; aux5; aux6; aux7]))) * 0x01010101)) 24))
  = Some (bits + ones (bits_of (take 28 (drop (Z.to_nat p) s)))).
Proof.
  intros Hs Hp Hl. replace p with (p + Z.of_nat 0) at 1 by lia. change 4 with (Z.of_nat 4). change 8 with (Z.of_nat 8). change 12 with (Z.of_nat 12). change 16 with (Z.of_nat 16). change 20 with (Z.of_nat 20). change (p + 24) with (p + Z.of_nat 24).
  rewrite !load4_drop by lia. cbn [mbind option_bind]. apply Forall_drop with (n := Z.to_nat p) in Hs. assert (28 ≤ length (drop (Z.to_nat p) s))%nat as Ht by (rewrite length_drop; lia). set (t := drop (Z.to_nat p) s) in *. clearbody t. clear Hl Hp p s.
  do 28 (destruct t as [|? t]; [cbn [length] in Ht; lia|]). cbn [take drop]. rewrite take_0, ones_bits. repeat (apply Forall_cons in Hs as [? Hs]). cbn [fmap list_fmap].
  rewrite !popcount_word by (done || (repeat apply Forall_cons_2; [done..|by apply Forall_nil])). clear Hs Ht. f_equal. f_equal. cbn [fmap list_fmap foldl foldr]. rewrite Z.add_0_l, !le_decode_add by done. cbn [zip_with].
  repeat match goal with H : is_byte ?b |- _ => apply pop_steps in H as (_ & _ & _ & H); revert H; generalize (popbyte b); clear b; intros b H end. rewrite sum_bytes by lia. lia.
Qed.

(** *** The loops *)

(** The bits of the [count] bytes at [p]. *)
Definition bits_at (s : bytes) (p count : Z) : list bool := bits_of (take (Z.to_nat count) (drop (Z.to_nat p) s)).

Lemma bits_at_split s p n count : 0 ≤ p → 0 ≤ n ≤ count → p + count ≤ zlen s → bits_at s p count = bits_at s p n ++ bits_at s (p + n) (count - n).
Proof.
  intros Hp Hn Hl. unfold bits_at. rewrite <-bits_app. f_equal. replace (Z.to_nat count) with (Z.to_nat n + Z.to_nat (count - n))%nat by lia. rewrite <-take_take_drop, drop_drop. repeat f_equal. lia.
Qed.

Lemma bits_at_one s p b : 0 ≤ p → s !! Z.to_nat p = Some b → bits_at s p 1 = byte_bits b.
Proof. intros Hp Hb. unfold bits_at. rewrite (drop_S _ _ _ Hb). cbn. apply app_nil_r. Qed.

Lemma peek_is s p : Forall is_byte s → 0 ≤ p < zlen s → ∃ b, peek s p = Some b ∧ s !! Z.to_nat p = Some b ∧ is_byte b.
Proof.
  intros Hs Hp. destruct (lookup_lt_is_Some_2 s (Z.to_nat p)) as [b Hb]; [lia|]. exists b. split_and!; [|done|by eapply Forall_lookup]. unfold peek. by rewrite decide_True by lia.
Qed.

Lemma popcount_head_spec fuel addr s : ∀ p count bits, Forall is_byte s → 0 ≤ p → 0 ≤ count → p + count ≤ zlen s → (- (addr + p)) mod 4 < Z.of_nat fuel →
  ∃ p' count' bits', popcount_head fuel addr s p count bits = Some (p', count', bits') ∧ 0 ≤ p' ∧ 0 ≤ count' ∧ p' + count' = p + count ∧ bits' + ones (bits_at s p' count') = bits + ones (bits_at s p count).
Proof.
  induction fuel as [|fuel IH]; intros p count bits Hs Hp Hc Hl Hf; [pose proof (Z.mod_pos_bound (- (addr + p)) 4); lia|]. cbn [popcount_head]. change 3 with (Z.ones 2). rewrite Z.land_ones by lia. change (2 ^ 2) with 4. destruct (Z.eqb_spec ((addr + p) mod 4) 0) as [H0|H0]; cbn [negb andb]; [by eexists _, _, _|]. destruct (Z.eqb_spec count 0) as [Hz|Hz]; cbn [negb]; [by eexists _, _, _|].
  destruct (peek_is s p Hs) as (b & -> & Hb & Hbyte); [lia|]. cbn [mbind option_bind]. rewrite bitsinbyte_ok by done. cbn [mbind option_bind]. destruct (IH (p + 1) (count - 1) (bits + popbyte b)) as (p' & c' & bits' & -> & ? & ? & ? & E); [done|lia..| |].
  - assert ((- (addr + (p + 1))) mod 4 = (- (addr + p)) mod 4 - 1); [|lia]. pose proof (Z.div_mod (addr + p) 4). pose proof (Z.mod_pos_bound (addr + p) 4). 
    rewrite <-(Z.mod_unique (- (addr + p)) 4 (- ((addr + p) / 4) - 1) (4 - (addr + p) mod 4)) by lia. symmetry. apply Z.mod_unique with (- ((addr + p) / 4) - 1); lia.
  - eexists _, _, _. split_and!; [done|lia..|]. rewrite E. rewrite (bits_at_split s p 1 count) by lia. rewrite ones_app, (bits_at_one s p b) by done. unfold popbyte. lia.
Qed.

Lemma popcount_blocks_spec fuel s : ∀ p count bits, Forall is_byte s → 0 ≤ p → 0 ≤ count → p + count ≤ zlen s → count < Z.of_nat fuel →
  ∃ p' count' bits', popcount_blocks fuel s p count bits = Some (p', count', bits') ∧ 0 ≤ p' ∧ 0 ≤ count' ∧ p' + count' = p + count ∧ bits' + ones (bits_at s p' count') = bits + ones (bits_at s p count).
Proof.
  induction fuel as [|fuel IH]; intros p count bits Hs Hp Hc Hl Hf; [lia|]. cbn [popcount_blocks]. destruct (Z.leb_spec 28 count) as [H28|H28]; [|by eexists _, _, _]. pose proof (popcount_block s p bits Hs Hp ltac:(lia)) as Hb.
  repeat match type of Hb with context [load4 s ?q] => destruct (load4 s q); cbn [mbind option_bind] in *; [|done] end. apply (inj Some) in Hb. rewrite Hb. destruct (IH (p + 28) (count - 28) (bits + ones (bits_of (take 28 (drop (Z.to_nat p) s))))) as (p' & c' & bits' & -> & ? & ? & ? & E); [done|lia..|].
  eexists _, _, _. split_and!; [done|lia..|]. rewrite E, (bits_at_split s p 28 count) by lia. rewrite ones_app. unfold bits_at at 2. change (Z.to_nat 28) with 28%nat. lia.
Qed.

Lemma popcount_tail_spec s n : ∀ p bits, Forall is_byte s → 0 ≤ p → p + Z.of_nat n ≤ zlen s → popcount_tail n s p bits = Some (bits + ones (bits_at s p (Z.of_nat n))).
Proof.
  induction n as [|n IH]; intros p bits Hs Hp Hl; cbn [popcount_tail]; [by rewrite Z.add_0_r|]. destruct (peek_is s p Hs) as (b & -> & Hb & Hbyte); [lia|]. cbn [mbind option_bind]. rewrite bitsinbyte_ok by done. cbn [mbind option_bind]. rewrite IH by (done || lia).
  rewrite (bits_at_split s p 1 (Z.of_nat (S n))) by lia. rewrite ones_app, (bits_at_one s p b) by done. replace (Z.of_nat (S n) - 1) with (Z.of_nat n) by lia. unfold popbyte. f_equal. lia.
Qed.

Lemma redisPopcount_spec addr s start count : Forall is_byte s → 0 ≤ start → 0 ≤ count → start + count ≤ zlen s → redisPopcount addr s start count = Some (ones (bits_at s start count)).
Proof.
  intros Hs Hp Hc Hl. unfold redisPopcount. destruct (popcount_head_spec 4 addr s start count 0) as (p & c & b & -> & ? & ? & ? & E); [done..|apply Z.mod_pos_bound; lia|]. cbn [mbind option_bind]. destruct (popcount_blocks_spec (S (Z.to_nat c)) s p c b) as (p' & c' & b' & -> & ? & ? & ? & E'); [done|lia..|].
  cbn [mbind option_bind]. rewrite popcount_tail_spec by (done || lia). rewrite Z2Nat.id by lia. f_equal. lia.
Qed.

(** ** Searching *)

Lemma field_S n v : field_of (S n) v = Z.testbit v (Z.of_nat n) :: field_of n v.
Proof. unfold field_of. by rewrite seq_S, reverse_snoc. Qed.

Lemma field_length n v : length (field_of n v) = n.
Proof. unfold field_of. by rewrite length_fmap, length_reverse, length_seq. Qed.

Lemma testbit_byte b x i : is_byte b → 0 ≤ i → Z.testbit (b + x * 2 ^ 8) i = if i <? 8 then Z.testbit b i else Z.testbit x (i - 8).
Proof.
  intros Hb Hi. rewrite <-lor_shift by (unfold is_byte in *; lia). rewrite Z.lor_spec. destruct (Z.ltb_spec i 8).
  - rewrite Z.shiftl_spec_low by lia. apply orb_false_r.
  - rewrite Z.shiftl_spec, (in_u_high 8 b) by done. done.
Qed.

Lemma field_byte m b x : is_byte b → field_of (8 + m) (b + x * 2 ^ 8) = field_of m x ++ byte_bits b.
Proof.
  intros Hb. induction m as [|m IH].
  - unfold field_of, byte_bits. cbn [Nat.add seq reverse rev_append fmap list_fmap app]. rewrite !testbit_byte by (done || lia). done.
  - replace (8 + S m)%nat with (S (8 + m)) by lia. rewrite !field_S, IH, testbit_byte by (done || lia). rewrite (proj2 (Z.ltb_ge _ _)) by lia. cbn [app]. f_equal. f_equal. lia.
Qed.

Lemma field_zero n v : in_u (Z.of_nat n) v → (first_bit true (field_of n v) = None ↔ v = 0).
Proof.
  revert v. induction n as [|n IH]; intros v Hv; [unfold in_u in Hv; cbn in *; split; [lia|done]|]. rewrite field_S. cbn [first_bit]. destruct (Z.testbit v (Z.of_nat n)) eqn:E; cbn [eqb].
  - split; [done|]. intros ->. by rewrite Z.testbit_0_l in E.
  - assert (in_u (Z.of_nat n) v) as Hv'. { apply in_u_bits; [lia|apply Hv|]. intros i Hi. destruct (decide (i = Z.of_nat n)) as [-> |]; [done|]. apply (in_u_high (Z.of_nat (S n))); [done|lia]. }
    rewrite <-(IH v Hv'). by destruct (first_bit true (field_of n v)).
Qed.

Lemma first_bit_app b l k : first_bit b (l ++ k) = match first_bit b l with Some i => Some i | None => Nat.add (length l) <$> first_bit b k end.
Proof.
  induction l as [|c l IH]; [cbn [app first_bit length]; by destruct (first_bit b k)|]. cbn [app first_bit length]. destruct (eqb c b); [done|]. rewrite IH. destruct (first_bit b l); [done|]. by destruct (first_bit b k).
Qed.

Lemma first_bit_zeros n : first_bit true (replicate n false) = None.
Proof. induction n as [|n IH]; [done|]. cbn. by rewrite IH. Qed.

(** The position of the first bit, when the search starts at [pos]; a string is followed by zeros. *)
Definition found_at (bit pos : Z) (l : list bool) : Z :=
  match first_bit (bit =? 1) l with
  | Some i => pos + Z.of_nat i
  | None => if bit =? 0 then pos + zlen l else -1
  end.

Lemma found_skip bit pos l k : first_bit (bit =? 1) l = None → found_at bit pos (l ++ k) = found_at bit (pos + zlen l) k.
Proof.
  intros H. unfold found_at. rewrite first_bit_app, H. destruct (first_bit (bit =? 1) k); cbn [fmap option_fmap option_map]; [lia|]. rewrite length_app. destruct (bit =? 0); lia.
Qed.

Lemma land_pow2 x k : 0 ≤ k → negb (Z.land x (2 ^ k) =? 0) = Z.testbit x k.
Proof.
  intros Hk. destruct (Z.testbit x k) eqn:E.
  - apply negb_true_iff, Z.eqb_neq. intros H. apply (f_equal (λ y, Z.testbit y k)) in H. rewrite Z.land_spec, E, Z.pow2_bits_true, Z.testbit_0_l in H by lia. done.
  - apply negb_false_iff, Z.eqb_eq. apply Z.bits_inj'. intros i Hi. rewrite Z.land_spec, Z.testbit_0_l. destruct (decide (i = k)) as [-> |]; [by rewrite E|]. rewrite Z.pow2_bits_false by done. apply andb_false_r.
Qed.

Lemma bitpos_scan_spec n word bit : bit = 0 ∨ bit = 1 → ∀ pos, bitpos_scan (S n) (match n with O => 0 | S n => 2 ^ Z.of_nat n end) word bit pos = (λ i, pos + Z.of_nat i) <$> first_bit (bit =? 1) (field_of n word).
Proof.
  intros Hbit. induction n as [|n IH]; intros pos; [done|]. rewrite field_S. cbn [first_bit]. remember (S n) as k eqn:Ek. cbn [bitpos_scan]. subst k. rewrite (proj2 (Z.eqb_neq _ _)) by lia.
  rewrite Z.land_comm, land_pow2 by lia.
  assert ((b2z (Z.testbit word (Z.of_nat n)) =? bit) = eqb (Z.testbit word (Z.of_nat n)) (bit =? 1)) as -> by (destruct Hbit as [-> | ->]; by destruct (Z.testbit _ _)). destruct (eqb _ _); [cbn; f_equal; lia|].
  replace (Z.shiftr (2 ^ Z.of_nat n) 1) with (match n with O => 0 | S n => 2 ^ Z.of_nat n end).
  - rewrite IH. destruct (first_bit _ _); cbn; [f_equal; lia|done].
  - destruct n as [|n]; [done|]. rewrite Z.shiftr_div_pow2 by lia. replace (Z.of_nat (S n)) with (Z.of_nat n + 1) by lia. rewrite Z.pow_add_r by lia. by rewrite Z.div_mul.
Qed.

Lemma bits_at_zero s c : bits_at s c 0 = [].
Proof. done. Qed.

Lemma bits_at_length s p count : 0 ≤ p → 0 ≤ count → p + count ≤ zlen s → length (bits_at s p count) = Z.to_nat (8 * count).
Proof. intros. unfold bits_at. rewrite bits_length, length_take, length_drop. lia. Qed.

Lemma padded_cons_byte n b l : padded (8 + n) (byte_bits b ++ l) = byte_bits b ++ padded n l.
Proof. unfold padded. by rewrite length_app, <-app_assoc. Qed.

(** The next eight bytes as a big endian number. *)
Lemma bitpos_load_spec j s m : ∀ c count word, Forall is_byte s → 0 ≤ c → 0 ≤ count → c + count ≤ zlen s → in_u (Z.of_nat m) word → (m + 8 * j ≤ 64)%nat →
  ∃ w, bitpos_load j s c count word = Some w ∧ in_u (Z.of_nat (8 * j + m)) w ∧ field_of (8 * j + m) w = field_of m word ++ padded (8 * j) (take (8 * j) (bits_at s c count)).
Proof.
  revert m. induction j as [|j IH]; intros m c count word Hs Hc Hn Hl Hw Hm; cbn [bitpos_load].
  - exists word. by rewrite app_nil_r.
  - assert (u64 (Z.shiftl word 8) = word * 2 ^ 8) as ->. { rewrite Z.shiftl_mul_pow2 by lia. apply wrap_u_small. unfold in_u in *. assert (2 ^ Z.of_nat m ≤ 2 ^ 56) by (apply Z.pow_le_mono_r; lia). lia. }
    assert (∀ b, is_byte b → in_u (Z.of_nat (8 + m)) (b + word * 2 ^ 8)) as Hin. { intros b Hb. unfold in_u, is_byte in *. rewrite Nat2Z.inj_add, Z.pow_add_r by lia. change (2 ^ Z.of_nat 8) with 256. lia. }
    replace (8 * S j + m)%nat with (8 * j + (8 + m))%nat by lia. replace (8 * S j)%nat with (8 + 8 * j)%nat by lia. destruct (Z.eqb_spec count 0) as [-> |Hz]; cbn [negb].
    + destruct (IH (8 + m)%nat c 0 (0 + word * 2 ^ 8)) as (w & E & Hwu & Hf); [done|lia..|by apply Hin|lia|]. rewrite Z.add_0_l in E. exists w. rewrite E, Hf, field_byte by done. split_and!; [done..|]. rewrite <-app_assoc. f_equal. rewrite !bits_at_zero, !take_nil. unfold padded. cbn [length app]. rewrite !Nat.sub_0_r, replicate_add. done.
    + destruct (peek_is s c Hs) as (b & -> & Hb & Hbyte); [lia|]. cbn [mbind option_bind]. rewrite Z.lor_comm, <-Z.shiftl_mul_pow2, lor_shift by (unfold is_byte in *; lia). destruct (IH (8 + m)%nat (c + 1) (count - 1) (b + word * 2 ^ 8)) as (w & E & Hwu & Hf); [done|lia..|by apply Hin|lia|].
      exists w. rewrite E, Hf, field_byte by done. split_and!; [done..|]. rewrite <-app_assoc. f_equal. rewrite (bits_at_split s c 1 count), (bits_at_one s c b) by (done || lia). change (8 + 8 * j)%nat with (length (byte_bits b) + 8 * j)%nat at 2. rewrite take_app_add. by rewrite padded_cons_byte.
Qed.

(** The bytes without the bit that is searched. *)
Definition skipbyte (bit : Z) : Z := if bit =? 0 then 255 else 0.

Lemma skip_bits bit b : bit = 0 ∨ bit = 1 → is_byte b → first_bit (bit =? 1) (byte_bits b) = None ↔ b = skipbyte bit.
Proof.
  intros [-> | ->]; revert b; refine (check_byte (λ b, first_bit _ (byte_bits b) = None ↔ b = _) _); vm_compute; reflexivity.
Qed.

Lemma bitpos_head_spec fuel addr s bit : bit = 0 ∨ bit = 1 → ∀ c count pos, Forall is_byte s → 0 ≤ c → 0 ≤ count → c + count ≤ zlen s → (- (addr + c)) mod 8 < Z.of_nat fuel →
  ∃ c' count' pos' found, bitpos_head fuel addr s (skipbyte bit) c count pos = Some (c', count', pos', found) ∧ 0 ≤ c' ∧ 0 ≤ count' ∧ c' + count' = c + count ∧
    found_at bit pos' (bits_at s c' count') = found_at bit pos (bits_at s c count) ∧ (found = true → first_bit (bit =? 1) (take 64 (bits_at s c' count')) ≠ None).
Proof.
  intros Hbit. induction fuel as [|fuel IH]; intros c count pos Hs Hc Hn Hl Hf; [pose proof (Z.mod_pos_bound (- (addr + c)) 8); lia|]. cbn [bitpos_head]. change 7 with (Z.ones 3). rewrite Z.land_ones by lia. change (2 ^ 3) with 8. destruct (Z.eqb_spec ((addr + c) mod 8) 0) as [H0|H0]; cbn [negb andb]; [by eexists _, _, _, _|]. destruct (Z.eqb_spec count 0) as [Hz|Hz]; cbn [negb]; [by eexists _, _, _, _|].
  destruct (peek_is s c Hs) as (b & -> & Hb & Hbyte); [lia|]. cbn [mbind option_bind]. pose proof (bits_at_split s c 1 count) as Hsp. rewrite (bits_at_one s c b) in Hsp by done. pose proof (skip_bits bit b Hbit Hbyte) as Hsk. destruct (Z.eqb_spec b (skipbyte bit)) as [Eb|Eb]; cbn [negb].
  - destruct (IH (c + 1) (count - 1) (pos + 8)) as (c' & n' & p' & f & -> & ? & ? & ? & E & ?); [done|lia..| |].
    + assert ((- (addr + (c + 1))) mod 8 = (- (addr + c)) mod 8 - 1); [|lia]. pose proof (Z.div_mod (addr + c) 8). pose proof (Z.mod_pos_bound (addr + c) 8).
      rewrite <-(Z.mod_unique (- (addr + c)) 8 (- ((addr + c) / 8) - 1) (8 - (addr + c) mod 8)) by lia. symmetry. apply Z.mod_unique with (- ((addr + c) / 8) - 1); lia.
    + eexists _, _, _, _. split_and!; [done|lia..| |done]. rewrite E, Hsp by lia. rewrite found_skip by by apply Hsk. done.
  - eexists _, _, _, _. split_and!; [done..|]. intros _. rewrite Hsp by lia. change 64%nat with (length (byte_bits b) + 56)%nat. rewrite take_app_add, first_bit_app. destruct (first_bit _ (byte_bits b)) eqn:E; [done|]. tauto.
Qed.

Lemma bits_skip bit l : bit = 0 ∨ bit = 1 → Forall is_byte l → first_bit (bit =? 1) (bits_of l) = None ↔ le_decode l = mask (length l) (skipbyte bit).
Proof.
  intros Hbit. induction 1 as [|b l Hb Hl IH]; [done|]. rewrite bits_cons, first_bit_app. cbn [le_decode length replicate]. pose proof (skip_bits bit b Hbit Hb) as Hsk. assert (is_byte (skipbyte bit)) by (by destruct Hbit as [-> | ->]). unfold is_byte in *. destruct (first_bit _ (byte_bits b)) eqn:E.
  - split; [done|]. intros Hd. assert (b = skipbyte bit) as Eb by lia. by apply Hsk in Eb.
  - assert (b = skipbyte bit) as Eb by tauto. destruct (first_bit _ (bits_of l)) eqn:E'; cbn [fmap option_fmap option_map].
    + split; [done|]. intros Hd. assert (le_decode l = mask (length l) (skipbyte bit)) as Hl' by lia. apply IH in Hl'. done.
    + split; [|done]. intros _. assert (le_decode l = mask (length l) (skipbyte bit)) by by apply IH. lia.
Qed.

Lemma bitpos_words_spec fuel s bit : bit = 0 ∨ bit = 1 → ∀ c count pos, Forall is_byte s → 0 ≤ c → 0 ≤ count → c + count ≤ zlen s → count < Z.of_nat fuel →
  ∃ c' count' pos', bitpos_words fuel s (if bit =? 0 then 2 ^ 64 - 1 else 0) c count pos = Some (c', count', pos') ∧ 0 ≤ c' ∧ 0 ≤ count' ∧ c' + count' = c + count ∧
    found_at bit pos' (bits_at s c' count') = found_at bit pos (bits_at s c count) ∧ (count' < 8 ∨ first_bit (bit =? 1) (take 64 (bits_at s c' count')) ≠ None).
Proof.
  intros Hbit. induction fuel as [|fuel IH]; intros c count pos Hs Hc Hn Hl Hf; [lia|]. cbn [bitpos_words]. destruct (Z.leb_spec 8 count) as [H8|H8]; [|eexists _, _, _; split_and!; [done..|by left]]. unfold load8. rewrite slice_Some by lia. cbn [fmap option_fmap option_map mbind option_bind].
  set (t := take (Z.to_nat 8) (drop (Z.to_nat c) s)). assert (Forall is_byte t) as Ht by by apply Forall_take, Forall_drop. assert (length t = 8%nat) as Hlen by (unfold t; rewrite length_take, length_drop; lia). pose proof (bits_skip bit t Hbit Ht) as Hsk. rewrite Hlen in Hsk.
  replace (mask 8 (skipbyte bit)) with (if bit =? 0 then 2 ^ 64 - 1 else 0) in Hsk by (by destruct Hbit as [-> | ->]). pose proof (bits_at_split s c 8 count Hc ltac:(lia) Hl) as Hsp. change (bits_at s c 8) with (bits_of t) in Hsp. pose proof (bits_zlen t) as Hz. rewrite Hlen in Hz. destruct (Z.eqb_spec (le_decode t) (if bit =? 0 then 2 ^ 64 - 1 else 0)) as [Eb|Eb]; cbn [negb].
  - destruct (IH (c + 8) (count - 8) (pos + 64)) as (c' & n' & p' & -> & ? & ? & ? & E & ?); [done|lia..|]. eexists _, _, _. split_and!; [done|lia..| |done]. rewrite E, Hsp, found_skip by by apply Hsk. by rewrite Hz.
  - eexists _, _, _. split_and!; [done..|]. right. rewrite Hsp. rewrite take_app_le, take_ge by lia. tauto.
Qed.

Lemma redisBitpos_spec addr s start count bit : bit = 0 ∨ bit = 1 → Forall is_byte s → 0 ≤ start → 0 ≤ count → start + count ≤ zlen s → redisBitpos addr s start count bit = Some (found_at bit 0 (bits_at s start count)).
Proof.
  intros Hbit Hs Hp Hc Hl. unfold redisBitpos. destruct (bitpos_head_spec 8 addr s bit Hbit start count 0) as (c & n & pos & f & E & ? & ? & ? & <- & Hf); [done..|apply Z.mod_pos_bound; lia|]. unfold skipbyte in E. rewrite E. cbn [mbind option_bind]. clear E.
  assert (∃ c' n' pos', (if f then Some (c, n, pos) else bitpos_words (S (Z.to_nat n)) s (if bit =? 0 then 2 ^ 64 - 1 else 0) c n pos) = Some (c', n', pos') ∧ 0 ≤ c' ∧ 0 ≤ n' ∧ c' + n' = c + n ∧ found_at bit pos' (bits_at s c' n') = found_at bit pos (bits_at s c n) ∧ (n' < 8 ∨ first_bit (bit =? 1) (take 64 (bits_at s c' n')) ≠ None)) as (c' & n' & pos' & -> & ? & ? & ? & <- & Hn).
  { destruct f; [eexists _, _, _; split_and!; [done..|by right; apply Hf]|]. apply bitpos_words_spec; [done..|lia|lia]. }
  clear Hf f. cbn [mbind option_bind]. destruct (bitpos_load_spec 8 s 0 c' n' 0) as (w & -> & Hw & Hfield); [done..|lia|done|lia|]. cbn [mbind option_bind]. change (8 * 8 + 0)%nat with 64%nat in *. change (8 * 8)%nat with 64%nat in *. change (field_of 0 0) with (@nil bool) in Hfield. cbn [app] in Hfield.
  rewrite (bitpos_scan_spec 64 w bit Hbit pos' : bitpos_scan 65 (2 ^ 63) w bit pos' = _), Hfield. pose proof (field_zero 64 w Hw) as Hzero. rewrite Hfield in Hzero. pose proof (bits_at_length s c' n') as Hlen. set (L := bits_at s c' n') in *. unfold padded in *. rewrite first_bit_app in *. unfold found_at.
  assert (first_bit (bit =? 1) L = match first_bit (bit =? 1) (take 64 L) with Some i => Some i | None => Nat.add (length (take 64 L)) <$> first_bit (bit =? 1) (drop 64 L) end) as -> by (rewrite <-(take_drop 64 L) at 1; apply first_bit_app).
  destruct (first_bit (bit =? 1) (take 64 L)) as [i|] eqn:E.
  - destruct Hbit as [-> | ->]; [done|]. cbn [Z.eqb Pos.eqb andb] in *. rewrite E in Hzero. destruct (Z.eqb_spec w 0) as [Hz|Hz]; [by apply Hzero in Hz|done].
  - destruct Hn as [Hn|Hn]; [|done]. specialize (Hlen ltac:(done) ltac:(done) ltac:(lia)). rewrite (drop_ge L) by lia. rewrite (take_ge L) in * by lia. cbn [first_bit fmap option_fmap option_map]. destruct Hbit as [-> | ->]; cbn [Z.eqb Pos.eqb andb] in *.
    + destruct (64 - length L)%nat as [|k] eqn:Ek; [lia|]. cbn. f_equal. lia.
    + rewrite E, first_bit_zeros in Hzero. rewrite (proj1 Hzero) by done. done.
Qed.

(** ** Bit fields *)

(** The bits of a field. *)
Definition field_at (l : list bool) (offset bits : Z) : list bool := take (Z.to_nat bits) (drop (Z.to_nat offset) l).

Lemma bit_address i : Z.shiftr i 3 = i / 8 ∧ Z.land i 7 = i mod 8.
Proof. split; [by rewrite Z.shiftr_div_pow2|]. change 7 with (Z.ones 3). by rewrite Z.land_ones. Qed.

(** The byte of a bit. *)
Lemma bit_read s i : Forall is_byte s → 0 ≤ i < 8 * zlen s →
  ∃ b, peek s (Z.shiftr i 3) = Some b ∧ is_byte b ∧ 0 ≤ i / 8 < zlen s ∧ s !! Z.to_nat (i / 8) = Some b ∧ bits_of s !! Z.to_nat i = Some (Z.testbit b (7 - Z.land i 7)).
Proof.
  intros Hs Hi. destruct (bit_address i) as [-> ->]. assert (0 ≤ i / 8 < zlen s) by (pose proof (Z.div_pos i 8); pose proof (Z.div_lt_upper_bound i 8 (zlen s)); lia). destruct (peek_is s (i / 8) Hs) as (b & -> & Hb & Hbyte); [done|]. exists b. split_and!; try done; try lia. rewrite bits_lookup, Hb by lia. done.
Qed.

Lemma land_one x k : 0 ≤ k → Z.land (Z.shiftr x k) 1 = b2z (Z.testbit x k).
Proof. intros Hk. change 1 with (Z.ones 1). rewrite Z.land_ones by lia. change (2 ^ 1) with 2. rewrite <-Z.bit0_mod, Z.shiftr_spec by lia. rewrite Z.add_0_l. by destruct (Z.testbit x k). Qed.

Lemma get_field_spec n : ∀ m p offset v, Forall is_byte p → 0 ≤ offset → offset + Z.of_nat n ≤ 8 * zlen p → in_u (Z.of_nat m) v → (m + n ≤ 64)%nat →
  get_field_loop n p offset v = Some (foldl (λ v b, 2 * v + b2z b) v (field_at (bits_of p) offset (Z.of_nat n))).
Proof.
  induction n as [|n IH]; intros m p offset v Hp Ho Hl Hv Hm; cbn [get_field_loop]; [done|]. destruct (bit_read p offset Hp) as (b & -> & Hb & _ & _ & Hbit); [lia|]. cbn [mbind option_bind]. pose proof (proj2 (bit_address offset)) as Ha. pose proof (Z.mod_pos_bound offset 8). rewrite land_one by lia. set (c := Z.testbit b (7 - Z.land offset 7)) in *.
  assert (Z.lor (u64 (Z.shiftl v 1)) (b2z c) = 2 * v + b2z c) as ->.
  { rewrite wrap_u_small. 2: { rewrite Z.shiftl_mul_pow2 by lia. unfold in_u in *. assert (2 ^ Z.of_nat m ≤ 2 ^ 63) by (apply Z.pow_le_mono_r; lia). lia. } rewrite Z.lor_comm, lor_shift; [lia|lia|]. destruct c; cbn; lia. }
  rewrite (IH (S m)); [|done|lia|lia| |lia].
  - f_equal. unfold field_at. replace (Z.to_nat (Z.of_nat (S n))) with (S (Z.to_nat (Z.of_nat n))) by lia. rewrite (drop_S _ _ _ Hbit). cbn [take foldl]. repeat f_equal. lia.
  - unfold in_u in *. rewrite Nat2Z.inj_succ, Z.pow_succ_r by lia. destruct c; cbn; lia.
Qed.

Lemma value_bound l : in_u (zlen l) (value_of l).
Proof.
  assert (∀ v m, 0 ≤ v < 2 ^ Z.of_nat m → 0 ≤ foldl (λ v b, 2 * v + b2z b) v l < 2 ^ Z.of_nat (m + length l)) as H.
  { induction l as [|b l IH]; intros v m Hv; cbn [foldl length]; [by rewrite Nat.add_0_r|]. replace (m + S (length l))%nat with (S m + length l)%nat by lia. apply IH. rewrite Nat2Z.inj_succ, Z.pow_succ_r by lia. destruct b; cbn; lia. }
  by apply (H 0 0%nat).
Qed.

Lemma getUnsigned_spec p offset bits : Forall is_byte p → 0 ≤ offset → 0 ≤ bits ≤ 64 → offset + bits ≤ 8 * zlen p → getUnsignedBitfield p offset bits = Some (value_of (field_at (bits_of p) offset bits)).
Proof. intros. unfold getUnsignedBitfield. rewrite (get_field_spec _ 0) by (done || lia). by rewrite Z2Nat.id by lia. Qed.

Lemma field_at_length l offset bits : 0 ≤ offset → 0 ≤ bits → offset + bits ≤ zlen l → zlen (field_at l offset bits) = bits.
Proof. intros. unfold field_at. rewrite length_take, length_drop. lia. Qed.

(** *** Numbers in fields *)

(** The number in a field of [bits] bits. *)
Definition a_number (sign : bool) (bits : Z) (f : list bool) : Z := if sign then to_signed bits (value_of f) else value_of f.

Definition field_min (sign : bool) (bits : Z) : Z := if sign then - 2 ^ (bits - 1) else 0.
Definition field_max (sign : bool) (bits : Z) : Z := if sign then 2 ^ (bits - 1) - 1 else 2 ^ bits - 1.

(** A number that may not fit into a field: what is stored, or nothing. *)
Definition a_fit (sign : bool) (bits owtype v : Z) : option Z :=
  if (field_min sign bits <=? v) && (v <=? field_max sign bits) then Some v
  else if owtype =? BFOVERFLOW_WRAP then Some (if sign then wrap_s bits v else wrap_u bits v)
  else if owtype =? BFOVERFLOW_SAT then Some (if v <? field_min sign bits then field_min sign bits else field_max sign bits)
  else None.

Lemma pow2_range b : 0 ≤ b ≤ 64 → 1 ≤ 2 ^ b ≤ 2 ^ 64.
Proof. intros Hb. split; [pose proof (Z.pow_pos_nonneg 2 b); lia|apply Z.pow_le_mono_r; lia]. Qed.

Lemma pow2_half b : 1 ≤ b → 2 ^ b = 2 * 2 ^ (b - 1).
Proof. intros. rewrite <-Z.pow_succ_r by lia. f_equal. lia. Qed.

Lemma mod_mod_pow2 x a b : 0 ≤ a ≤ b → (x mod 2 ^ b) mod 2 ^ a = x mod 2 ^ a.
Proof. intros Hab. apply Z.mod_mod_divide. exists (2 ^ (b - a)). rewrite <-Z.pow_add_r by lia. f_equal. lia. Qed.

(** The bits from [b] on. *)
Lemma shl64_mask b : 0 ≤ b < 64 → shl64 (2 ^ 64 - 1) b = Some (2 ^ 64 - 2 ^ b).
Proof.
  intros Hb. unfold shl64. rewrite (proj2 (Z.leb_le 0 b)), (proj2 (Z.ltb_lt b 64)) by lia. cbn [andb]. f_equal. rewrite Z.shiftl_mul_pow2 by lia. unfold wrap_u. symmetry. pose proof (pow2_range b). apply Z.mod_unique with (2 ^ b - 1); lia.
Qed.

Lemma shl64_one b : 0 ≤ b < 64 → shl64 1 b = Some (2 ^ b).
Proof.
  intros Hb. unfold shl64. rewrite (proj2 (Z.leb_le 0 b)), (proj2 (Z.ltb_lt b 64)) by lia. cbn [andb]. f_equal. rewrite Z.shiftl_mul_pow2, Z.mul_1_l by lia. apply wrap_u_small. unfold in_u. split; [lia|]. apply Z.pow_lt_mono_r; lia.
Qed.

Lemma mask_shift b : 0 ≤ b ≤ 64 → 2 ^ 64 - 2 ^ b = Z.shiftl (Z.ones (64 - b)) b.
Proof. intros Hb. rewrite Z.shiftl_mul_pow2, Z.ones_equiv by lia. rewrite <-Z.sub_1_r, Z.mul_sub_distr_r, <-Z.pow_add_r by lia. rewrite Z.mul_1_l. do 2 f_equal. lia. Qed.

Lemma land_mask x b : 0 ≤ b < 64 → Z.land x (u64 (Z.lnot (2 ^ 64 - 2 ^ b))) = x mod 2 ^ b.
Proof.
  intros Hb. replace (u64 (Z.lnot (2 ^ 64 - 2 ^ b))) with (Z.ones b); [apply Z.land_ones; lia|]. rewrite Z.ones_equiv. unfold Z.lnot, wrap_u. pose proof (pow2_range b). apply Z.mod_unique with (-1); lia.
Qed.

Lemma lor_mask x b : 0 ≤ b ≤ 64 → in_u 64 x → Z.lor x (2 ^ 64 - 2 ^ b) = x mod 2 ^ b + (2 ^ 64 - 2 ^ b).
Proof.
  intros Hb Hx. rewrite mask_shift by done. rewrite (Z.shiftl_mul_pow2 _ b), <-lor_shift, <-Z.shiftl_mul_pow2 by (try apply Z.mod_pos_bound; lia). apply Z.bits_inj'. intros i Hi. rewrite !Z.lor_spec. destruct (Z.ltb_spec i b).
  - by rewrite Z.mod_pow2_bits_low by lia.
  - rewrite Z.mod_pow2_bits_high by lia. rewrite Z.shiftl_spec by lia. destruct (Z.ltb_spec i 64).
    + rewrite Z.ones_spec_low by lia. by rewrite orb_true_r.
    + rewrite Z.ones_spec_high by lia. by rewrite (in_u_high 64 x) by done.
Qed.

Lemma testbit_top x b : 1 ≤ b → Z.testbit x (b - 1) = (2 ^ (b - 1) <=? x mod 2 ^ b).
Proof.
  intros Hb. rewrite <-(Z.mod_pow2_bits_low x b (b - 1)) by lia. pose proof (Z.mod_pos_bound x (2 ^ b)) as Hr. pose proof (pow2_half b Hb) as Hp. pose proof (Z.pow_pos_nonneg 2 (b - 1)) as Hq. set (r := x mod 2 ^ b) in *. apply eq_true_iff_eq. rewrite Z.testbit_true, Z.leb_le by lia. split; intros H.
  - destruct (Z.le_gt_cases (2 ^ (b - 1)) r); [done|]. rewrite Z.div_small in H by lia. done.
  - replace (r / 2 ^ (b - 1)) with 1; [done|]. apply Z.div_unique with (r - 2 ^ (b - 1)); lia.
Qed.

(** The sign extension of [x]. *)
Lemma sign_extend x b : 1 ≤ b < 64 → in_u 64 x → s64 (if Z.testbit x (b - 1) then Z.lor x (2 ^ 64 - 2 ^ b) else x mod 2 ^ b) = to_signed b (x mod 2 ^ b).
Proof.
  intros Hb Hx. rewrite testbit_top, lor_mask by (done || lia). pose proof (Z.mod_pos_bound x (2 ^ b)). pose proof (pow2_half b). pose proof (Z.pow_pos_nonneg 2 (b - 1)). assert (2 ^ b ≤ 2 ^ 63) by (apply Z.pow_le_mono_r; lia). set (r := x mod 2 ^ b) in *. unfold to_signed. destruct (Z.leb_spec (2 ^ (b - 1)) r).
  - rewrite (proj2 (Z.ltb_ge _ _)) by lia. unfold wrap_s. rewrite wrap_u_small by (unfold in_u; lia). unfold to_signed. rewrite (proj2 (Z.ltb_ge _ _)) by lia. lia.
  - rewrite (proj2 (Z.ltb_lt _ _)) by lia. apply wrap_s_small; [lia|]. unfold in_s. lia.
Qed.

Lemma getSigned_spec p offset bits : Forall is_byte p → 0 ≤ offset → 1 ≤ bits ≤ 64 → offset + bits ≤ 8 * zlen p → (bits = 64 → 0 ≤ a_number true bits (field_at (bits_of p) offset bits)) →
  getSignedBitfield p offset bits = Some (a_number true bits (field_at (bits_of p) offset bits)).
Proof.
  intros Hp Ho Hb Hl H64. unfold getSignedBitfield. rewrite getUnsigned_spec by (done || lia). cbn [mbind option_bind]. rewrite shl64_one by lia. cbn [mbind option_bind]. rewrite land_pow2 by lia. unfold a_number in *. pose proof (value_bound (field_at (bits_of p) offset bits)) as Hv. rewrite field_at_length in Hv by (try rewrite bits_zlen; lia). set (v := value_of _) in *.
  assert (v mod 2 ^ bits = v) as Hm by by apply wrap_u_small. assert (in_u 64 v) as Hu by (unfold in_u in *; pose proof (pow2_range bits); lia). destruct (decide (bits = 64)) as [-> |Hn].
  - rewrite testbit_top, Hm by lia. specialize (H64 eq_refl). unfold to_signed in *. change (64 - 1) with 63 in *. unfold in_u in Hv. destruct (Z.ltb_spec v (2 ^ 63)); [|lia]. rewrite (proj2 (Z.leb_gt _ _)) by lia. f_equal. apply wrap_s_small; [lia|]. unfold in_s. lia.
  - rewrite shl64_mask by lia. pose proof (sign_extend v bits) as Hs. rewrite Hm in Hs. rewrite <-Hs by (done || lia). by destruct (Z.testbit v (bits - 1)).
Qed.

(** The kinds of overflow handling. *)
Definition is_owtype (ow : Z) : Prop := ow = BFOVERFLOW_WRAP ∨ ow = BFOVERFLOW_SAT ∨ ow = BFOVERFLOW_FAIL.

(** What a check reports about the number [v]: whether it fits and, when it does not, what is stored
    instead. *)
Definition reports (sign : bool) (bits ow v : Z) (r : option (Z * option Z)) : Prop :=
  ∃ o lim, r = Some (o, lim) ∧ (o = 0 ↔ field_min sign bits ≤ v ≤ field_max sign bits) ∧ (o ≠ 0 → lim = a_fit sign bits ow v).

Lemma reports_fits sign bits ow v : field_min sign bits ≤ v ≤ field_max sign bits → reports sign bits ow v (Some (0, None)).
Proof. intros H. exists 0, None. by split_and!. Qed.

Lemma reports_limit (sign : bool) bits ow v o w lim :
  is_owtype ow → o ≠ 0 → ¬ (field_min sign bits ≤ v ≤ field_max sign bits) →
  (ow = BFOVERFLOW_WRAP → w = Some (1, Some (if sign then wrap_s bits v else wrap_u bits v))) →
  lim = (if v <? field_min sign bits then field_min sign bits else field_max sign bits) →
  reports sign bits ow v (if ow =? BFOVERFLOW_WRAP then w else Some (o, if ow =? BFOVERFLOW_SAT then Some lim else None)).
Proof.
  intros How Ho Hv Hw Hl. assert ((field_min sign bits <=? v) && (v <=? field_max sign bits) = false) as Hf. { apply not_true_is_false. rewrite andb_true_iff, !Z.leb_le. done. }
  unfold reports, a_fit. rewrite Hf. destruct How as [-> |[-> | ->]]; cbn [BFOVERFLOW_WRAP BFOVERFLOW_SAT BFOVERFLOW_FAIL Z.eqb Pos.eqb].
  - rewrite Hw by done. eexists _, _. split_and!; [done| |done]. split; [done|]. by intros ?%Hv.
  - rewrite Hl. eexists _, _. split_and!; [done| |done]. split; [done|]. by intros ?%Hv.
  - eexists _, _. split_and!; [done| |done]. split; [done|]. by intros ?%Hv.
Qed.

Lemma checkUnsigned_spec value incr bits ow : 1 ≤ bits ≤ 63 → in_u 64 value → in_s 64 incr → in_u bits value ∨ incr = 0 → is_owtype ow → reports false bits ow (value + incr) (checkUnsignedBitfieldOverflow value incr bits ow).
Proof.
  intros Hb Hv Hi Hc How. unfold checkUnsignedBitfieldOverflow. rewrite (proj2 (Z.eqb_neq bits 64)) by lia. rewrite shl64_one, shl64_mask by lia. cbn [mbind option_bind]. assert (2 ^ bits ≤ 2 ^ 63) as Hp by (apply Z.pow_le_mono_r; lia). pose proof (pow2_range bits ltac:(lia)) as Hp'. rewrite (wrap_u_small 64 (2 ^ bits - 1)) by (unfold in_u; lia).
  assert (∀ x, in_s 64 x → s64 (u64 x) = x) as Hs by (intros x Hx; rewrite wrap_s_wrap_u by lia; by apply wrap_s_small). unfold in_u, in_s in *. change (64 - 1) with 63 in *.
  assert (Z.land (u64 (value + incr)) (u64 (Z.lnot (2 ^ 64 - 2 ^ bits))) = wrap_u bits (value + incr)) as Hw. { rewrite land_mask by lia. unfold wrap_u. apply mod_mod_pow2; lia. }
  destruct (Z.ltb_spec (2 ^ bits - 1) value) as [Hlt|Hlt]; cbn [orb].
  { apply reports_limit; [done|done|cbn; lia|by rewrite Hw|cbn]. by rewrite (proj2 (Z.ltb_ge _ _)) by lia. }
  rewrite (Hs (2 ^ bits - 1 - value)) by lia. rewrite (Hs (- value)) by lia. destruct (Z.ltb_spec 0 incr), (Z.ltb_spec (2 ^ bits - 1 - value) incr); cbn [andb].
  1: { apply reports_limit; [done|done|cbn; lia|by rewrite Hw|cbn]. by rewrite (proj2 (Z.ltb_ge _ _)) by lia. }
  all: destruct (Z.ltb_spec incr 0), (Z.ltb_spec incr (- value)); cbn [andb]; try (apply reports_fits; cbn; lia); try lia.
  all: apply reports_limit; [done|done|cbn; lia|by rewrite Hw|cbn]; by rewrite (proj2 (Z.ltb_lt _ _)) by lia.
Qed.

Lemma signed_wrap c bits : 1 ≤ bits < 64 →
  (mask ← shl64 (2 ^ 64 - 1) bits; msb ← shl64 1 (bits - 1);
   Some (1, Some (s64 (if negb (Z.land (u64 c) msb =? 0) then Z.lor (u64 c) mask else Z.land (u64 c) (u64 (Z.lnot mask)))))) = Some (1, Some (wrap_s bits c)).
Proof.
  intros Hb. rewrite shl64_mask, shl64_one by lia. cbn [mbind option_bind]. rewrite land_pow2, land_mask by lia. rewrite sign_extend by (done || apply wrap_u_range; lia). do 2 f_equal. unfold wrap_s, wrap_u. do 2 f_equal. apply mod_mod_pow2; lia.
Qed.

Lemma checkSigned_spec value incr bits ow :
  1 ≤ bits ≤ 64 → in_s 64 value → in_s 64 incr → in_s bits value ∨ (incr = 0 ∧ field_max true bits - value < 2 ^ 63) → is_owtype ow →
  (bits = 64 → ow = BFOVERFLOW_WRAP → field_min true 64 ≤ value + incr ≤ field_max true 64) →
  reports true bits ow (value + incr) (checkSignedBitfieldOverflow value incr bits ow).
Proof.
  intros Hb Hv Hi Hc How H64. unfold checkSignedBitfieldOverflow. pose proof (pow2_half bits ltac:(lia)) as Hh. assert (1 ≤ 2 ^ (bits - 1) ≤ 2 ^ 63) as Hp. { split; [pose proof (Z.pow_pos_nonneg 2 (bits - 1)); lia|apply Z.pow_le_mono_r; lia]. }
  assert (∀ x, in_s 64 x → s64 x = x) as Hs by (intros x Hx; by apply wrap_s_small). unfold in_s in *. change (64 - 1) with 63 in *. cbn [field_min field_max] in *.
  assert ((if bits =? 64 then Some (2 ^ 63 - 1) else one ← shl64 1 (bits - 1); Some (s64 (one - 1))) = Some (2 ^ (bits - 1) - 1)) as ->.
  { destruct (Z.eqb_spec bits 64) as [-> |]; [done|]. rewrite shl64_one by lia. cbn [mbind option_bind]. rewrite Hs by lia. done. }
  cbn [mbind option_bind]. replace (- (2 ^ (bits - 1) - 1) - 1) with (- 2 ^ (bits - 1)) by lia. rewrite (Hs (- 2 ^ (bits - 1))) by lia.
  assert (u64 (u64 value + u64 incr) = u64 (value + incr)) as -> by (unfold wrap_u; rewrite <-Z.add_mod by lia; done).
  assert (bits ≠ 64 → (mask ← shl64 (2 ^ 64 - 1) bits; msb ← shl64 1 (bits - 1); Some (1, Some (s64 (if negb (Z.land (u64 (value + incr)) msb =? 0) then Z.lor (u64 (value + incr)) mask else Z.land (u64 (value + incr)) (u64 (Z.lnot mask)))))) = Some (1, Some (wrap_s bits (value + incr)))) as Hw by (intros; apply signed_wrap; lia).
  set (W := (mask ← shl64 _ bits; _)) in *. clearbody W.
  assert (∀ o lim, o ≠ 0 → ¬ (- 2 ^ (bits - 1) ≤ value + incr ≤ 2 ^ (bits - 1) - 1) → lim = (if value + incr <? - 2 ^ (bits - 1) then - 2 ^ (bits - 1) else 2 ^ (bits - 1) - 1) → reports true bits ow (value + incr) (if ow =? BFOVERFLOW_WRAP then W else Some (o, if ow =? BFOVERFLOW_SAT then Some lim else None))) as Hlim.
  { intros o lim Ho Hn Hl. apply reports_limit; [done..| |done]. intros ->. apply Hw. intros ->. by apply Hn, H64. }
  set (A := 2 ^ (bits - 1)) in *.
  assert (bits = 64 → A = 2 ^ 63) as HA by (intros ->; done). assert (bits ≠ 64 → A ≤ 2 ^ 62) as HA' by (intros; apply Z.pow_le_mono_r; lia).
  assert ((A - 1 <? value) || negb (bits =? 64) && (s64 (A - 1 - value) <? incr) || (0 <=? value) && (0 <? incr) && (s64 (A - 1 - value) <? incr) = (A - 1 <? value + incr)) as ->.
  { destruct (Z.ltb_spec (A - 1) value); cbn [orb]; [symmetry; apply Z.ltb_lt; lia|]. destruct (Z.eqb_spec bits 64) as [E|E]; cbn [negb andb orb].
    - destruct (Z.leb_spec 0 value); cbn [andb]; [|symmetry; apply Z.ltb_ge; lia]. rewrite Hs by lia. destruct (Z.ltb_spec 0 incr), (Z.ltb_spec (A - 1 - value) incr), (Z.ltb_spec (A - 1) (value + incr)); cbn [andb]; lia || done.
    - rewrite Hs by lia. destruct (Z.ltb_spec (A - 1 - value) incr), (Z.ltb_spec (A - 1) (value + incr)); cbn [orb]; lia. }
  destruct (Z.ltb_spec (A - 1) (value + incr)) as [Hov|Hov]; [apply Hlim; [done|lia|by rewrite (proj2 (Z.ltb_ge _ _)) by lia]|].
  assert ((value <? - A) || negb (bits =? 64) && (incr <? s64 (- A - value)) || (value <? 0) && (incr <? 0) && (incr <? s64 (- A - value)) = (value + incr <? - A)) as ->.
  { destruct (Z.ltb_spec value (- A)); cbn [orb]; [symmetry; apply Z.ltb_lt; lia|]. destruct (Z.eqb_spec bits 64) as [E|E]; cbn [negb andb orb].
    - destruct (Z.ltb_spec value 0); cbn [andb]; [|symmetry; apply Z.ltb_ge; lia]. rewrite Hs by lia. destruct (Z.ltb_spec incr 0), (Z.ltb_spec incr (- A - value)), (Z.ltb_spec (value + incr) (- A)); cbn [andb]; lia || done.
    - rewrite Hs by lia. destruct (Z.ltb_spec incr (- A - value)), (Z.ltb_spec (value + incr) (- A)); cbn [orb]; lia. }
  destruct (Z.ltb_spec (value + incr) (- A)) as [Hun|Hun]; [apply Hlim; [done|lia|done]|]. apply reports_fits. cbn. fold A. lia.
Qed.

(** *** Writing *)

(** [l] with the [n] low bits of [v] from [offset] on. *)
Definition a_put (l : list bool) (offset n v : Z) : list bool := take (Z.to_nat offset) l ++ field_of (Z.to_nat n) v ++ drop (Z.to_nat (offset + n)) l.

(** The byte with a bit that is cleared and set again. *)
Lemma set_bit_byte (c : bool) k : 0 ≤ k ≤ 7 → ∀ b, is_byte b →
  u8 (Z.lor (Z.land b (Z.lnot (Z.shiftl 1 k))) (Z.shiftl (b2z c) k)) = Z.lor (Z.land b (Z.lnot (Z.shiftl 1 k))) (Z.shiftl (b2z c) k) ∧
  ∀ i, 0 ≤ i ≤ 7 → Z.testbit (Z.lor (Z.land b (Z.lnot (Z.shiftl 1 k))) (Z.shiftl (b2z c) k)) i = if i =? k then c else Z.testbit b i.
Proof.
  intros Hk b Hb. assert (∀ i, 0 ≤ i → Z.testbit (Z.lor (Z.land b (Z.lnot (Z.shiftl 1 k))) (Z.shiftl (b2z c) k)) i = if i =? k then c else Z.testbit b i) as Hbits.
  { intros i Hi. rewrite Z.lor_spec, Z.land_spec, Z.lnot_spec by done. replace (b2z c) with (Z.b2z c) by (by destruct c). destruct (Z.eqb_spec i k) as [-> |Hne].
    - rewrite !Z.shiftl_spec, Z.sub_diag by lia. cbn [negb]. rewrite Z.b2z_bit0, andb_false_r. done.
    - destruct (Z.ltb_spec i k); [rewrite !Z.shiftl_spec_low by lia|rewrite !Z.shiftl_spec by lia; rewrite (in_u_high 1 1), (in_u_high 1 (Z.b2z c)) by (unfold in_u; destruct c; cbn; lia)]; by rewrite andb_true_r, orb_false_r. }
  split; [|intros i Hi; apply Hbits; lia]. apply wrap_u_small, in_u_bits; [lia| |].
  - apply Z.lor_nonneg. split; [apply Z.land_nonneg; unfold is_byte in Hb; lia|]. apply Z.shiftl_nonneg. destruct c; cbn; lia.
  - intros i Hi. rewrite Hbits by lia. rewrite (proj2 (Z.eqb_neq _ _)) by lia. by apply (in_u_high 8).
Qed.

(** Writing a bit into its byte. *)
Lemma bit_write (c : bool) s i : Forall is_byte s → 0 ≤ i < 8 * zlen s →
  ∃ b s', peek s (Z.shiftr i 3) = Some b ∧ is_byte b ∧ Z.testbit b (7 - Z.land i 7) = bit_at (bits_of s) i ∧
    poke s (Z.shiftr i 3) (u8 (Z.lor (Z.land b (Z.lnot (Z.shiftl 1 (7 - Z.land i 7)))) (Z.shiftl (b2z c) (7 - Z.land i 7)))) = Some s' ∧
    Forall is_byte s' ∧ length s' = length s ∧ bits_of s' = <[Z.to_nat i := c]> (bits_of s).
Proof.
  intros Hs Hi. destruct (bit_read s i Hs Hi) as (b & Hpk & Hb & Hrange & Hlk & Hbit). pose proof (Z.mod_pos_bound i 8) as Hm. destruct (bit_address i) as [E3 E7]. rewrite Hpk, E3, E7 in *. destruct (set_bit_byte c (7 - i mod 8) ltac:(lia) b Hb) as [Hu Htest].
  set (v := Z.lor _ _) in *. assert (is_byte (u8 v)) by (apply (wrap_u_range 8); lia). rewrite Hu in *. exists b, (<[Z.to_nat (i / 8) := v]> s). split_and!; [done|done|by unfold bit_at; rewrite Hbit| | |by rewrite length_insert|].
  - fold v. rewrite Hu. unfold poke. by rewrite decide_True by lia.
  - by apply Forall_insert.
  - apply list_eq. intros j. destruct (decide (j = Z.to_nat i)) as [-> |Hj].
    + rewrite list_lookup_insert_eq by (rewrite bits_length; lia). rewrite bits_lookup, list_lookup_insert_eq by lia. cbn. rewrite Htest by lia. by rewrite Z.eqb_refl.
    + rewrite (list_lookup_insert_ne (bits_of s)) by done. replace j with (Z.to_nat (Z.of_nat j)) by lia. rewrite !bits_lookup by lia. pose proof (Z.mod_pos_bound (Z.of_nat j) 8). destruct (decide (Z.of_nat j / 8 = i / 8)) as [Ed|Ed].
      * rewrite Ed, list_lookup_insert_eq, Hlk by lia. cbn. rewrite Htest by lia. rewrite (proj2 (Z.eqb_neq _ _)); [done|]. pose proof (Z.div_mod (Z.of_nat j) 8). pose proof (Z.div_mod i 8). lia.
      * rewrite list_lookup_insert_ne; [done|]. pose proof (Z.div_pos (Z.of_nat j) 8). lia.
Qed.

Lemma a_put_cons l offset n v : 0 ≤ offset → offset + Z.of_nat (S n) ≤ zlen l → a_put (<[Z.to_nat offset := Z.testbit v (Z.of_nat n)]> l) (offset + 1) (Z.of_nat n) v = a_put l offset (Z.of_nat (S n)) v.
Proof.
  intros Ho Hl. unfold a_put. replace (offset + 1 + Z.of_nat n) with (offset + Z.of_nat (S n)) by lia. rewrite !Nat2Z.id, field_S. replace (Z.to_nat (offset + 1)) with (S (Z.to_nat offset)) by lia. rewrite (take_S_r _ _ (Z.testbit v (Z.of_nat n))) by (apply list_lookup_insert_eq; lia). rewrite take_insert_ge by lia. rewrite drop_insert_lt by lia. by rewrite <-!app_assoc.
Qed.

Lemma set_field_spec n : ∀ p offset v, Forall is_byte p → 0 ≤ offset → offset + Z.of_nat n ≤ 8 * zlen p → ∃ p', set_field_loop n p offset v = Some p' ∧ Forall is_byte p' ∧ length p' = length p ∧ bits_of p' = a_put (bits_of p) offset (Z.of_nat n) v.
Proof.
  induction n as [|n IH]; intros p offset v Hp Ho Hl; cbn [set_field_loop].
  - exists p. split_and!; [done..|]. unfold a_put. change (field_of (Z.to_nat (Z.of_nat 0)) v) with (@nil bool). rewrite Z.add_0_r. by rewrite app_nil_l, take_drop.
  - rewrite (Z.shiftl_1_l (Z.of_nat n)), land_pow2 by lia. destruct (bit_write (Z.testbit v (Z.of_nat n)) p offset Hp) as (b & p1 & Hpk & _ & _ & Hpoke & Hp1 & Hlen & Hbits); [lia|]. rewrite Hpk. cbn [mbind option_bind]. change 255 with (Z.ones 8). rewrite Z.land_ones by lia. unfold wrap_u in Hpoke. rewrite Hpoke. cbn [mbind option_bind].
    destruct (IH p1 (offset + 1) v Hp1) as (p' & -> & Hp' & Hlen' & Hbits'); [lia..|]. exists p'. split_and!; [done..|congruence|]. rewrite Hbits', Hbits. apply a_put_cons; [done|]. rewrite bits_zlen. lia.
Qed.
