(* ===== verification/BitopsOp.v ===== *)
(** BITOP: the routine that works on words of eight bytes and then byte by byte computes the operation
    on every bit. *)

From stdpp Require Import list numbers strings gmap.
From S2P Require Import Prelude Util Glob SdsText Object Bitops BitopsBits.

(** ** The operations on bits *)

Definition a_op (op : Z) (x y : bool) : bool := if op =? BITOP_AND then x && y else if op =? BITOP_OR then x || y else xorb x y.

(** The operations with several sources. *)
Definition is_op (op : Z) : Prop := op = BITOP_AND ∨ op = BITOP_OR ∨ op = BITOP_XOR.

Lemma word_spec op x y i : is_op op → 0 ≤ i → Z.testbit (bitop_word op x y) i = a_op op (Z.testbit x i) (Z.testbit y i).
Proof. intros [-> |[-> | ->]] Hi; cbn; [apply Z.land_spec|apply Z.lor_spec|apply Z.lxor_spec]. Qed.

Lemma a_op_false op : is_op op → a_op op false false = false.
Proof. by intros [-> |[-> | ->]]. Qed.

Lemma word_nonneg op x y : is_op op → 0 ≤ x → 0 ≤ y → 0 ≤ bitop_word op x y.
Proof. intros [-> |[-> | ->]] Hx Hy; cbn; [apply Z.land_nonneg; lia|by apply Z.lor_nonneg|apply Z.lxor_nonneg; lia]. Qed.

Lemma word_byte op b c : is_op op → is_byte b → is_byte c → is_byte (bitop_word op b c).
Proof.
  intros Hop Hb Hc. apply (in_u_bits 8); [lia|apply word_nonneg; [done|apply Hb|apply Hc]|]. intros i Hi. rewrite word_spec by (done || lia). rewrite !(in_u_high 8) by done. by apply a_op_false.
Qed.

Lemma word_split op b c x y : is_op op → is_byte b → is_byte c → bitop_word op (b + x * 2 ^ 8) (c + y * 2 ^ 8) = bitop_word op b c + bitop_word op x y * 2 ^ 8.
Proof.
  intros Hop Hb Hc. apply Z.bits_inj'. intros i Hi. rewrite word_spec, !testbit_byte by (try apply word_byte; done). destruct (Z.ltb_spec i 8); by rewrite word_spec by (done || lia).
Qed.

(** An operation on words is one on their bytes. *)
Lemma word_bytes op l k : is_op op → length l = length k → Forall is_byte l → Forall is_byte k → le_encode (length l) (bitop_word op (le_decode l) (le_decode k)) = zip_with (bitop_word op) l k.
Proof.
  intros Hop Hlen Hl. revert k Hlen. induction Hl as [|b l Hb Hl IH]; intros [|c k] Hlen Hk; try done. apply Forall_cons in Hk as [Hc Hk]. cbn [le_decode length le_encode zip_with]. rewrite !(Z.mul_comm 256). change 256 with (2 ^ 8). rewrite word_split by done. pose proof (word_byte op b c Hop Hb Hc) as Hbc. unfold is_byte in Hbc.
  rewrite Z_mod_plus_full, Z.div_add, Z.mod_small, (Z.div_small (bitop_word op b c)), Z.add_0_l by lia. rewrite IH; [done|cbn in Hlen; lia|done].
Qed.

Definition not_byte (b : Z) : Z := u8 (Z.lnot b).

Lemma not_byte_eq b : is_byte b → not_byte b = 255 - b.
Proof. intros Hb. unfold not_byte, wrap_u, Z.lnot, is_byte in *. symmetry. apply Z.mod_unique with (-1); lia. Qed.

Lemma not_word l : Forall is_byte l → le_decode (not_byte <$> l) = 2 ^ (8 * zlen l) - 1 - le_decode l.
Proof. induction 1 as [|b l Hb Hl IH]; [done|]. cbn [fmap list_fmap le_decode length]. change (list_fmap _ _ not_byte l) with (not_byte <$> l). rewrite IH, pow_256_S, not_byte_eq by done. lia. Qed.

Lemma not_bytes l : length l = 8%nat → Forall is_byte l → le_encode 8 (u64 (Z.lnot (le_decode l))) = not_byte <$> l.
Proof.
  intros Hlen Hl. assert (Forall is_byte (not_byte <$> l)) as Hn. { apply Forall_fmap. eapply Forall_impl; [done|]. intros b Hb. by apply (wrap_u_range 8). }
  pose proof (not_word l Hl) as Hw. pose proof (le_decode_bound l Hl) as Hb. rewrite Hlen in Hw, Hb. change (8 * Z.of_nat 8) with 64 in *. pose proof (le_encode_decode _ Hn) as E. rewrite length_fmap, Hlen, Hw in E. rewrite <-E. f_equal. unfold wrap_u, Z.lnot. symmetry. apply Z.mod_unique with (-1); lia.
Qed.

(** ** Bytes at positions *)

(** The byte at a position, a string being continued by zeros. *)
Definition byte_at (s : bytes) (i : nat) : Z := default 0 (s !! i).

Lemma byte_at_eq l k : length l = length k → (∀ i, (i < length l)%nat → byte_at l i = byte_at k i) → l = k.
Proof.
  intros Hlen Hb. apply list_eq_same_length with (length l); [done|done|]. intros i x y Hi Hx Hy. specialize (Hb i Hi). unfold byte_at in Hb. by rewrite Hx, Hy in Hb.
Qed.

Lemma byte_at_blit l i bs r : blit l i bs = Some r → ∀ k, byte_at r k = if decide (i ≤ Z.of_nat k < i + zlen bs) then byte_at bs (k - Z.to_nat i) else byte_at l k.
Proof.
  unfold blit. case_decide as Hd; [|done]. intros [= <-] k. unfold byte_at. destruct (decide (Z.of_nat k < i)).
  - rewrite decide_False by lia. by rewrite lookup_app_l, lookup_take_lt by (rewrite ?length_take; lia).
  - rewrite lookup_app_r by (rewrite length_take; lia). rewrite length_take, Nat.min_l by lia. case_decide.
    + by rewrite lookup_app_l by lia.
    + rewrite lookup_app_r by lia. rewrite lookup_drop. do 2 f_equal. lia.
Qed.

Lemma byte_at_window s i n k : byte_at (take n (drop i s)) k = if decide (k < n)%nat then byte_at s (i + k) else 0.
Proof. unfold byte_at. case_decide; [by rewrite lookup_take_lt, lookup_drop|by rewrite lookup_take_ge by lia]. Qed.

Lemma byte_at_zip op l k i : length l = length k → (i < length l)%nat → byte_at (zip_with (bitop_word op) l k) i = bitop_word op (byte_at l i) (byte_at k i).
Proof.
  intros Hlen Hi. unfold byte_at. rewrite lookup_zip_with. destruct (lookup_lt_is_Some_2 l i Hi) as [b Hb]. destruct (lookup_lt_is_Some_2 k i) as [c Hc]; [lia|]. by rewrite Hb, Hc.
Qed.

Lemma byte_at_map f l i : (i < length l)%nat → byte_at (f <$> l) i = f (byte_at l i).
Proof. intros Hi. unfold byte_at. rewrite list_lookup_fmap. by destruct (lookup_lt_is_Some_2 l i Hi) as [b ->]. Qed.

Lemma byte_at_byte s i : Forall is_byte s → is_byte (byte_at s i).
Proof. intros Hs. unfold byte_at. destruct (s !! i) eqn:E; [by eapply Forall_lookup|done]. Qed.

Lemma blit_bytes l i bs r : Forall is_byte l → Forall is_byte bs → blit l i bs = Some r → Forall is_byte r.
Proof. intros Hl Hbs. unfold blit. case_decide; [|done]. intros [= <-]. apply Forall_app. split; [by apply Forall_take|]. apply Forall_app. split; [done|by apply Forall_drop]. Qed.

(** ** The loops *)

(** [r] is [res] with the bytes from [j] to [j + n] changed by [g]. *)
Definition rewritten (res r : bytes) (j n : Z) (g : Z → nat → Z) : Prop :=
  Forall is_byte r ∧ length r = length res ∧ ∀ i, byte_at r i = if decide (j ≤ Z.of_nat i < j + n) then g (byte_at res i) i else byte_at res i.

Lemma rewritten_none res j g : Forall is_byte res → rewritten res res j 0 g.
Proof. intros H. split_and!; [done..|]. intros i. by rewrite decide_False by lia. Qed.

Lemma rewritten_next res r r' j n m g : 0 ≤ n → 0 ≤ m → rewritten res r j n g → rewritten r r' (j + n) m g → rewritten res r' j (n + m) g.
Proof.
  intros Hn Hm (_ & Hl & Hr) (Hb & Hl' & Hr'). split_and!; [done|congruence|]. intros i. rewrite Hr', Hr. repeat case_decide; done || lia.
Qed.

Lemma rewritten_again res r r' j n g f : rewritten res r j n g → rewritten r r' j n f → rewritten res r' j n (λ o i, f (g o i) i).
Proof. intros (_ & Hl & Hr) (Hb & Hl' & Hr'). split_and!; [done|congruence|]. intros i. rewrite Hr', Hr. by case_decide. Qed.

Lemma rewritten_ext res r j n g f : (∀ o i, g o i = f o i) → rewritten res r j n g → rewritten res r j n f.
Proof. intros Hgf (Hb & Hl & Hr). split_and!; [done..|]. intros i. rewrite Hr. case_decide; [apply Hgf|done]. Qed.

(** Changing the eight bytes of a word. *)
Lemma rewritten_word res j bs g : Forall is_byte res → Forall is_byte bs → 0 ≤ j → j + 8 ≤ zlen res → length bs = 8%nat →
  (∀ k, (k < 8)%nat → byte_at bs k = g (byte_at res (Z.to_nat j + k)) (Z.to_nat j + k)%nat) → ∃ r, blit res j bs = Some r ∧ rewritten res r j 8 g.
Proof.
  intros Hres Hbs Hj Hl Hlen Hg. destruct (blit res j bs) as [r|] eqn:E; [|unfold blit in E; rewrite decide_True in E by lia; done]. exists r. split; [done|]. split_and!; [by apply (blit_bytes res j bs)|by apply (blit_length res j bs)|]. intros i. rewrite (byte_at_blit _ _ _ _ E), Hlen. change (Z.of_nat 8) with 8. case_decide; [|done]. rewrite Hg by lia. replace (Z.to_nat j + (i - Z.to_nat j))%nat with i by lia. done.
Qed.

Lemma window_bytes s j : Forall is_byte s → 0 ≤ j → j + 8 ≤ zlen s → load8 s j = Some (le_decode (take 8 (drop (Z.to_nat j) s))) ∧ Forall is_byte (take 8 (drop (Z.to_nat j) s)) ∧ length (take 8 (drop (Z.to_nat j) s)) = 8%nat.
Proof. intros Hs Hj Hl. unfold load8. rewrite slice_Some by lia. split_and!; [done|by apply Forall_take, Forall_drop|rewrite length_take, length_drop; lia]. Qed.

Lemma bitop_words_spec op src : is_op op → Forall is_byte src → ∀ k res j, Forall is_byte res → 0 ≤ j → j + 8 * Z.of_nat k ≤ zlen res → j + 8 * Z.of_nat k ≤ zlen src →
  ∃ r, bitop_words k op res src j = Some r ∧ rewritten res r j (8 * Z.of_nat k) (λ o i, bitop_word op o (byte_at src i)).
Proof.
  intros Hop Hsrc. induction k as [|k IH]; intros res j Hres Hj Hl Hl'; cbn [bitop_words]; [exists res; split; [done|by apply rewritten_none]|]. destruct (window_bytes res j) as (-> & Hx & Hxl); [done|lia..|]. destruct (window_bytes src j) as (-> & Hy & Hyl); [done|lia..|]. cbn [mbind option_bind].
  replace (le_encode 8) with (le_encode (length (take 8 (drop (Z.to_nat j) res)))) by (by rewrite Hxl). rewrite word_bytes by (done || congruence).
  destruct (rewritten_word res j (zip_with (bitop_word op) (take 8 (drop (Z.to_nat j) res)) (take 8 (drop (Z.to_nat j) src))) (λ o i, bitop_word op o (byte_at src i))) as (r & -> & Hr); [done| |lia..| | |].
  - rewrite <-word_bytes by (done || congruence). apply le_encode_bytes.
  - rewrite length_zip_with, Hxl, Hyl. done.
  - intros i Hi. rewrite byte_at_zip by (rewrite ?Hxl; congruence || lia). by rewrite !byte_at_window, !decide_True.
  - cbn [mbind option_bind]. destruct Hr as (Hrb & Hrl & Hr). destruct (IH r (j + 8)) as (r' & -> & Hr'); [done|lia..|]. exists r'. split; [done|]. replace (8 * Z.of_nat (S k)) with (8 + 8 * Z.of_nat k) by lia. eapply rewritten_next; [lia|lia| |exact Hr']. by split_and!.
Qed.

Lemma bitop_not_words_spec : ∀ k res j, Forall is_byte res → 0 ≤ j → j + 8 * Z.of_nat k ≤ zlen res → ∃ r, bitop_not_words k res j = Some r ∧ rewritten res r j (8 * Z.of_nat k) (λ o _, not_byte o).
Proof.
  induction k as [|k IH]; intros res j Hres Hj Hl; cbn [bitop_not_words]; [exists res; split; [done|by apply rewritten_none]|]. destruct (window_bytes res j) as (-> & Hx & Hxl); [done|lia..|]. cbn [mbind option_bind]. rewrite not_bytes by done.
  destruct (rewritten_word res j (not_byte <$> take 8 (drop (Z.to_nat j) res)) (λ o _, not_byte o)) as (r & -> & Hr); [done| |lia..|by rewrite length_fmap| |].
  - rewrite <-not_bytes by done. apply le_encode_bytes.
  - intros i Hi. rewrite byte_at_map by lia. by rewrite !byte_at_window, !decide_True.
  - cbn [mbind option_bind]. destruct Hr as (Hrb & Hrl & Hr). destruct (IH r (j + 8)) as (r' & -> & Hr'); [done|lia..|]. exists r'. split; [done|]. replace (8 * Z.of_nat (S k)) with (8 + 8 * Z.of_nat k) by lia. eapply rewritten_next; [lia|lia| |exact Hr']. by split_and!.
Qed.

(** The operation with the sources [src] at a position. *)
Definition out_byte (op : Z) (src : list bytes) (o : Z) (i : nat) : Z := foldl (λ o s, bitop_word op o (byte_at s i)) (if op =? BITOP_NOT then not_byte o else o) src.

Lemma out_not src o i : out_byte BITOP_NOT src o i = not_byte o.
Proof. unfold out_byte. rewrite Z.eqb_refl. generalize (not_byte o). induction src as [|s src IH]; intros x; [done|]. apply IH. Qed.

Lemma is_op_not op : is_op op → (op =? BITOP_NOT) = false.
Proof. by intros [-> |[-> | ->]]. Qed.

Lemma bitop_block_spec op : is_op op → ∀ src res j, Forall (Forall is_byte) src → Forall is_byte res → 0 ≤ j → j + 32 ≤ zlen res → Forall (λ s, j + 32 ≤ zlen s) src →
  ∃ r, bitop_block op res src j = Some r ∧ rewritten res r j 32 (out_byte op src).
Proof.
  intros Hop. induction src as [|s src IH]; intros res j Hsrc Hres Hj Hl Hls; cbn [bitop_block].
  - exists res. split; [done|]. split_and!; [done..|]. intros i. unfold out_byte. rewrite is_op_not by done. cbn [foldl]. by case_decide.
  - apply Forall_cons in Hsrc as [Hs Hsrc]. apply Forall_cons in Hls as [Hl' Hls]. destruct (bitop_words_spec op s Hop Hs 4 res j Hres Hj) as (r & -> & Hr); [lia..|]. cbn [mbind option_bind]. destruct (IH r j Hsrc) as (r' & -> & Hr'); [apply Hr|done|destruct Hr as (_ & -> & _); lia|done|].
    exists r'. split; [done|]. eapply rewritten_ext, rewritten_again; [|exact Hr|exact Hr']. intros o i. unfold out_byte. by rewrite is_op_not.
Qed.

Lemma bitop_fast_spec op src : is_op op ∨ op = BITOP_NOT → Forall (Forall is_byte) src → ∀ fuel res j minlen, Forall is_byte res → 0 ≤ j → 0 ≤ minlen < Z.of_nat fuel → j + minlen ≤ zlen res → Forall (λ s, j + minlen ≤ zlen s) src →
  ∃ r n, bitop_fast fuel op res src j minlen = Some (r, j + n) ∧ 0 ≤ n ≤ minlen ∧ rewritten res r j n (out_byte op src).
Proof.
  intros Hop Hsrc. induction fuel as [|fuel IH]; intros res j minlen Hres Hj Hm Hl Hls; [lia|]. cbn [bitop_fast]. destruct (Z.leb_spec 32 minlen) as [H32|H32]; [|exists res, 0; rewrite Z.add_0_r; split_and!; [done|lia|lia|by apply rewritten_none..]].
  assert (∃ r, (if op =? BITOP_NOT then bitop_not_words 4 res j else bitop_block op res src j) = Some r ∧ rewritten res r j 32 (out_byte op src)) as (r & -> & Hr).
  { destruct Hop as [Hop| ->].
    - rewrite is_op_not by done. apply bitop_block_spec; [done..|lia|]. eapply Forall_impl; [done|]. cbn. lia.
    - destruct (bitop_not_words_spec 4 res j) as (r & E & Hr); [done..|lia|]. exists r. split; [done|]. eapply rewritten_ext; [|exact Hr]. intros o i. by rewrite out_not. }
  cbn [mbind option_bind]. destruct (IH r (j + 32) (minlen - 32)) as (r' & n & E & Hn & Hr'); [apply Hr|lia|lia|destruct Hr as (_ & -> & _); lia|eapply Forall_impl; [done|]; cbn; lia|]. rewrite E. exists r', (32 + n). split_and!; [by rewrite Z.add_assoc|lia|lia|..]; eapply rewritten_next; try exact Hr; try exact Hr'; lia.
Qed.

Lemma src_byte_eq s j : 0 ≤ j → src_byte s j = Some (byte_at s (Z.to_nat j)).
Proof.
  intros Hj. unfold src_byte, byte_at. destruct (Z.leb_spec (zlen s) j); [by rewrite lookup_ge_None_2 by lia|]. unfold peek. rewrite decide_True by lia. by destruct (lookup_lt_is_Some_2 s (Z.to_nat j)) as [b ->]; [lia|].
Qed.

Lemma bitop_byte_eq op src : ∀ o j, 0 ≤ j → bitop_byte op o src j = Some (foldl (λ o s, bitop_word op o (byte_at s (Z.to_nat j))) o src).
Proof. induction src as [|s src IH]; intros o j Hj; [done|]. cbn [bitop_byte]. rewrite src_byte_eq by done. cbn [mbind option_bind]. by rewrite IH. Qed.

Lemma out_byte_is op src o i : is_op op ∨ op = BITOP_NOT → Forall (Forall is_byte) src → is_byte o → is_byte (out_byte op src o i).
Proof.
  intros [Hop| ->] Hsrc Ho; [|rewrite out_not; by apply (wrap_u_range 8)]. unfold out_byte. rewrite is_op_not by done. revert o Ho. induction Hsrc as [|s src Hs _ IH]; intros o Ho; [done|]. cbn [foldl]. apply IH, word_byte; [done..|by apply byte_at_byte].
Qed.

Lemma bitop_slow_spec op src0 src : is_op op ∨ op = BITOP_NOT → Forall is_byte src0 → Forall (Forall is_byte) src → ∀ n res j, Forall is_byte res → 0 ≤ j → j + Z.of_nat n ≤ zlen res →
  ∃ r, bitop_slow n op res src0 src j = Some r ∧ rewritten res r j (Z.of_nat n) (λ _ i, out_byte op src (byte_at src0 i) i).
Proof.
  intros Hop Hs0 Hsrc. induction n as [|n IH]; intros res j Hres Hj Hl; cbn [bitop_slow]; [exists res; split; [done|by apply rewritten_none]|]. rewrite src_byte_eq by done. cbn [mbind option_bind]. rewrite bitop_byte_eq by done. cbn [mbind option_bind].
  change (foldl _ _ src) with (out_byte op src (byte_at src0 (Z.to_nat j)) (Z.to_nat j)). set (o := out_byte _ _ _ _). assert (is_byte o) as Ho by (apply out_byte_is; [done..|by apply byte_at_byte]). unfold poke. rewrite decide_True by lia. cbn [mbind option_bind].
  destruct (IH (<[Z.to_nat j := o]> res) (j + 1)) as (r & -> & Hr); [by apply Forall_insert|lia|rewrite length_insert; lia|]. exists r. split; [done|]. replace (Z.of_nat (S n)) with (1 + Z.of_nat n) by lia. eapply rewritten_next; [lia|lia| |exact Hr]. split_and!; [by apply Forall_insert|by rewrite length_insert|]. intros i. unfold byte_at at 1. case_decide.
  - replace i with (Z.to_nat j) by lia. by rewrite list_lookup_insert_eq by lia.
  - by rewrite list_lookup_insert_ne by lia.
Qed.

(** ** The result *)

(** A string that is continued by zeros. *)
Definition pad (m : nat) (s : bytes) : bytes := s ++ replicate (m - length s) 0.

(** The operation on strings of the same length. *)
Definition combine_bytes (op : Z) (m : nat) (src0 : bytes) (src : list bytes) : bytes :=
  foldl (zip_with (bitop_word op)) (if op =? BITOP_NOT then not_byte <$> pad m src0 else pad m src0) (if op =? BITOP_NOT then [] else pad m <$> src).

Lemma byte_at_pad m s i : byte_at (pad m s) i = byte_at s i.
Proof.
  unfold byte_at, pad. destruct (decide (i < length s)%nat); [by rewrite lookup_app_l|]. rewrite lookup_app_r, (lookup_ge_None_2 s) by lia. destruct (replicate _ _ !! _) eqn:E; [|done]. by apply lookup_replicate in E as [-> _].
Qed.

Lemma pad_length m s : (length s ≤ m)%nat → length (pad m s) = m.
Proof. intros H. unfold pad. rewrite length_app, length_replicate. lia. Qed.

Lemma fold_zip_length op m l src : length l = m → Forall (λ s, (length s ≤ m)%nat) src → length (foldl (zip_with (bitop_word op)) l (pad m <$> src)) = m.
Proof. intros Hl Hs. revert l Hl. induction Hs as [|s src Hs _ IH]; intros l Hl; [done|]. cbn [fmap list_fmap foldl]. apply IH. rewrite length_zip_with, pad_length by done. lia. Qed.

Lemma fold_zip_byte op m l src i : (i < m)%nat → length l = m → Forall (λ s, (length s ≤ m)%nat) src → byte_at (foldl (zip_with (bitop_word op)) l (pad m <$> src)) i = foldl (λ o s, bitop_word op o (byte_at s i)) (byte_at l i) src.
Proof.
  intros Hi Hl Hs. revert l Hl. induction Hs as [|s src Hs _ IH]; intros l Hl; [done|]. cbn [fmap list_fmap foldl]. pose proof (pad_length m s Hs) as Hp. change (list_fmap _ _ (pad m) src) with (pad m <$> src). rewrite IH by (rewrite length_zip_with; lia). by rewrite byte_at_zip, byte_at_pad by lia.
Qed.

Lemma combine_length op m src0 src : (length src0 ≤ m)%nat → Forall (λ s, (length s ≤ m)%nat) src → length (combine_bytes op m src0 src) = m.
Proof. intros Hl Hs. unfold combine_bytes. destruct (op =? BITOP_NOT); [cbn [foldl]; rewrite length_fmap; by apply pad_length|]. apply fold_zip_length; [by apply pad_length|done]. Qed.

Lemma combine_byte op m src0 src i : is_op op ∨ op = BITOP_NOT → (i < m)%nat → (length src0 ≤ m)%nat → Forall (λ s, (length s ≤ m)%nat) src → byte_at (combine_bytes op m src0 src) i = out_byte op src (byte_at src0 i) i.
Proof.
  intros Hop Hi Hl Hs. pose proof (pad_length m src0 Hl) as Hp. unfold combine_bytes. destruct Hop as [Hop| ->].
  - unfold out_byte. rewrite is_op_not by done. rewrite fold_zip_byte by done. by rewrite byte_at_pad.
  - rewrite Z.eqb_refl, out_not. cbn [foldl]. by rewrite byte_at_map, byte_at_pad by lia.
Qed.

Lemma bitop_result_spec op src0 src maxlen minlen :
  is_op op ∨ op = BITOP_NOT → Forall (Forall is_byte) (src0 :: src) → 0 ≤ minlen → Forall (λ s, minlen ≤ zlen s ≤ maxlen) (src0 :: src) →
  bitop_result op (src0 :: src) maxlen minlen = Some (combine_bytes op (Z.to_nat maxlen) src0 src).
Proof.
  intros Hop [Hs0 Hsrc]%Forall_cons Hm [Hl0 Hls]%Forall_cons. unfold bitop_result. set (zeros := replicate (Z.to_nat maxlen) 0). assert (Forall is_byte zeros) as Hz by by apply Forall_replicate. assert (zlen zeros = maxlen) as Hzl by (unfold zeros; rewrite length_replicate; lia).
  assert (∃ r j, (if (32 <=? minlen) && (zlen (src0 :: src) <=? 16) then start ← slice src0 0 minlen; res ← blit zeros 0 start; bitop_fast (S (Z.to_nat minlen)) op res src 0 minlen else Some (zeros, 0)) = Some (r, j) ∧ 0 ≤ j ≤ maxlen ∧ Forall is_byte r ∧ length r = length zeros ∧ (∀ i, Z.of_nat i < j → byte_at r i = out_byte op src (byte_at src0 i) i)) as (r & j & -> & Hj & Hrb & Hrl & Hr).
  { destruct (_ && _); [|exists zeros, 0; split_and!; [done|lia|lia|done|done|lia]]. rewrite slice_Some by lia. cbn [mbind option_bind drop]. rewrite drop_0. destruct (blit zeros 0 (take (Z.to_nat minlen) src0)) as [res|] eqn:E; [|unfold blit in E; rewrite decide_True in E by (rewrite length_take; lia); done].
    pose proof (byte_at_blit _ _ _ _ E) as Hres. pose proof (blit_length _ _ _ _ E) as Hrl. assert (Forall is_byte res) as Hrb by (apply (blit_bytes zeros 0 (take (Z.to_nat minlen) src0)); [done|by apply Forall_take|done]). cbn [mbind option_bind].
    destruct (bitop_fast_spec op src Hop Hsrc (S (Z.to_nat minlen)) res 0 minlen) as (r & n & -> & Hn & Hr1 & Hr2 & Hr3); [done|lia..|eapply Forall_impl; [done|]; cbn; lia|]. exists r, n. split_and!; [done|lia|lia|done|congruence|]. intros i Hi. rewrite Hr3, Hres, length_take, !decide_True by lia. f_equal. unfold byte_at. by rewrite lookup_take_lt, Nat.sub_0_r by lia. }
  cbn [mbind option_bind]. destruct (bitop_slow_spec op src0 src Hop Hs0 Hsrc (Z.to_nat (maxlen - j)) r j) as (r' & -> & Hr1 & Hr2 & Hr3); [done|lia..|]. f_equal.
  assert (length src0 ≤ Z.to_nat maxlen)%nat by lia. assert (Forall (λ s, (length s ≤ Z.to_nat maxlen)%nat) src) by (eapply Forall_impl; [done|]; cbn; lia). apply byte_at_eq; [rewrite combine_length by done; lia|]. intros i Hi. rewrite combine_byte by (done || lia). rewrite Hr3. case_decide; [done|]. apply Hr. lia.
Qed.

(** ** The result as bits *)

(** The operation on sources that are padded to the same length. *)
Definition a_bitop (op : Z) (src : list (list bool)) : list bool :=
  let n := foldr Nat.max O (length <$> src) in
  match padded n <$> src with
  | [] => []
  | l :: ls => if op =? BITOP_NOT then negb <$> l else foldl (zip_with (a_op op)) l ls
  end.

Lemma padded_bits m s : padded (8 * m) (bits_of s) = bits_of (pad m s).
Proof. unfold padded, pad. rewrite bits_app, bits_zeros, bits_length. do 2 f_equal. lia. Qed.

Lemma bits_zip op l k : is_op op → length l = length k → bits_of (zip_with (bitop_word op) l k) = zip_with (a_op op) (bits_of l) (bits_of k).
Proof.
  intros Hop. revert k. induction l as [|b l IH]; intros [|c k] Hlen; try done. cbn [zip_with]. rewrite !bits_cons, IH by (cbn in Hlen; lia). rewrite zip_with_app by done. f_equal. unfold byte_bits. cbn [fmap list_fmap zip_with]. by rewrite !word_spec by (done || lia).
Qed.

Lemma bits_not l : Forall is_byte l → bits_of (not_byte <$> l) = negb <$> bits_of l.
Proof.
  induction 1 as [|b l Hb Hl IH]; [done|]. cbn [fmap list_fmap]. change (list_fmap _ _ not_byte l) with (not_byte <$> l). rewrite !bits_cons, fmap_app, IH. f_equal. revert b Hb. apply (check_byte _). vm_compute. reflexivity.
Qed.

Lemma bits_fold op m l src : is_op op → length l = m → Forall (λ s, (length s ≤ m)%nat) src → bits_of (foldl (zip_with (bitop_word op)) l (pad m <$> src)) = foldl (zip_with (a_op op)) (bits_of l) (padded (8 * m) <$> (bits_of <$> src)).
Proof.
  intros Hop Hl Hs. revert l Hl. induction Hs as [|s src Hs _ IH]; intros l Hl; [done|]. cbn [fmap list_fmap foldl]. pose proof (pad_length m s Hs). change (list_fmap _ _ (pad m) src) with (pad m <$> src). rewrite IH by (rewrite length_zip_with; lia). by rewrite bits_zip, padded_bits by (done || lia).
Qed.

Lemma max_bits src : foldr Nat.max O (length <$> (bits_of <$> src)) = (8 * foldr Nat.max O (length <$> src))%nat.
Proof. induction src as [|s src IH]; [done|]. cbn [fmap list_fmap foldr]. change (list_fmap _ _ length ?l) with (length <$> l). change (list_fmap _ _ bits_of src) with (bits_of <$> src). rewrite IH, bits_length. lia. Qed.

Lemma max_all (src : list bytes) : Forall (λ s, (length s ≤ foldr Nat.max O (length <$> src))%nat) src.
Proof. induction src as [|s src IH]; constructor; cbn [fmap list_fmap foldr]; [lia|]. eapply Forall_impl; [exact IH|]. cbn. lia. Qed.

Lemma a_bitop_eq op src0 src m : is_op op ∨ op = BITOP_NOT → Forall is_byte src0 → m = foldr Nat.max O (length <$> src0 :: src) → a_bitop op (bits_of <$> src0 :: src) = bits_of (combine_bytes op m src0 src).
Proof.
  intros Hop Hs0 Hm. unfold a_bitop, combine_bytes. rewrite max_bits, <-Hm. cbn [fmap list_fmap]. pose proof (max_all (src0 :: src)) as Hall. rewrite <-Hm in Hall. apply Forall_cons in Hall as [H0 Hall]. rewrite padded_bits. destruct Hop as [Hop| ->].
  - rewrite is_op_not by done. rewrite bits_fold; [done|done|by apply pad_length|done].
  - rewrite Z.eqb_refl. cbn [foldl]. rewrite bits_not; [done|]. apply Forall_app. split; [done|by apply Forall_replicate].
Qed.
