(* ===== verification/BitopsSpec.v ===== *)
(** Strings as arrays of bits: the commands on lists of booleans, which are shown to be what the
    commands of [Bitops] compute; the properties of counting, searching and overflow; and examples of
    what BITFIELD does with numbers that it does not support. *)

From stdpp Require Import list numbers strings gmap.
From S2P Require Import Prelude Util Glob SdsText Object DbRel Bitops BitopsBits BitopsOp.

(** ** The abstract commands *)

Abbreviation bits := (list bool).
Abbreviation adb := (gmap bytes (dbval bits)).
Abbreviation aresult := (adb * breply * list effect * Z)%type.

Definition a_only (a : adb) (r : reply) : option aresult := Some (a, BReply r, [], 0).
Definition a_num (a : adb) (s : bytes) (err : reply) (c : Z → option aresult) : option aresult := match to_int s with Some n => c n | None => a_only a err end.

Definition a_bits (a : adb) (key : bytes) (r : reply) (c : bits → option aresult) : option aresult :=
  match a !! key with
  | None => a_only a r
  | Some (VObj l) => c l
  | Some (VOther _) => a_only a wrongtypeerr
  end.

(** Strings have whole bytes, at most 512 MB of them. *)
Definition a_offset (p : bytes) : option Z := n ← to_int p; if (0 <=? n) && (n <? 2 ^ 32) then Some n else None.

(** A string with room for a bit. *)
Definition a_room (a : adb) (key : bytes) (maxbit : Z) : option bits :=
  match a !! key with
  | None => Some (padded (Z.to_nat (8 * (maxbit / 8 + 1))) [])
  | Some (VObj l) => Some (padded (Z.to_nat (8 * (maxbit / 8 + 1))) l)
  | Some (VOther _) => None
  end.

Fixpoint a_sources (a : adb) (keys : list bytes) : option (list bits) :=
  match keys with
  | [] => Some []
  | key :: keys =>
      match a !! key with
      | Some (VOther _) => None
      | v => ls ← a_sources a keys; Some ((match v with Some (VObj l) => l | _ => [] end) :: ls)
      end
  end.

(** The bits of the bytes from [start] to [end_], which count from the end when they are negative. *)
Definition byte_range (n start end_ : Z) : Z * Z :=
  (Z.max 0 (if start <? 0 then n + start else start), Z.min (n - 1) (Z.max 0 (if end_ <? 0 then n + end_ else end_))).

Definition a_slice (l : bits) (start end_ : Z) : bits := take (Z.to_nat (8 * (end_ - start + 1))) (drop (Z.to_nat (8 * start)) l).

Definition bytes_in (l : bits) : Z := zlen l / 8.

(** The first bit in a range; the bits after the string are zeros when the range has no end. *)
Definition a_search (bit : Z) (l : bits) (start end_ : Z) (end_given : bool) : Z :=
  if end_ <? start then -1
  else
    match first_bit (negb (bit =? 0)) (a_slice l start end_) with
    | Some i => 8 * start + Z.of_nat i
    | None => if (bit =? 0) && negb end_given then 8 * (end_ + 1) else -1
    end.

(** ** Bit fields *)

(** The bits of a field, the string being continued by zeros. *)
Definition a_field (l : bits) (offset bits : Z) : list bool := take (Z.to_nat bits) (drop (Z.to_nat offset) (padded (Z.to_nat (offset + bits)) l)).

(** SET and INCRBY.  A negative number counts as 2^64 more when it is set in an unsigned field. *)
Definition a_write (l : bits) (op : bitfieldOp) : bits * option Z :=
  let old := a_number (bf_sign op) (bf_bits op) (a_field l (bf_offset op) (bf_bits op)) in
  let incr := bf_opcode op =? BITFIELDOP_INCRBY in
  let v := if incr then old + bf_i64 op else if bf_sign op then bf_i64 op else u64 (bf_i64 op) in
  match a_fit (bf_sign op) (bf_bits op) (bf_owtype op) v with
  | None => (l, None)
  | Some new => (a_put l (bf_offset op) (bf_bits op) new, Some (if incr then new else old))
  end.

(** When an operation is defined.  A signed field of 64 bits does not hold a negative number and
    does not wrap around; a number that is set in a smaller signed field is not too small. *)
Definition a_allowed (l : bits) (op : bitfieldOp) : bool :=
  let old := a_number (bf_sign op) (bf_bits op) (a_field l (bf_offset op) (bf_bits op)) in
  negb (bf_sign op) ||
  (if bf_bits op =? 64 then
     (0 <=? old) && ((bf_opcode op =? BITFIELDOP_GET) || negb (bf_owtype op =? BFOVERFLOW_WRAP) || negb (bf_opcode op =? BITFIELDOP_INCRBY) || (old + bf_i64 op <? 2 ^ 63))
   else negb (bf_opcode op =? BITFIELDOP_SET) || (field_max true (bf_bits op) - bf_i64 op <? 2 ^ 63)).

Fixpoint a_fields (ops : list bitfieldOp) (l : option bits) : option (option bits * list (option Z) * Z) :=
  match ops with
  | [] => Some (l, [], 0)
  | op :: ops =>
      if a_allowed (default [] l) op then
        if bf_opcode op =? BITFIELDOP_GET then
          '(l', rs, n) ← a_fields ops l;
          Some (l', Some (a_number (bf_sign op) (bf_bits op) (a_field (default [] l) (bf_offset op) (bf_bits op))) :: rs, n)
        else
          let '(l1, r) := a_write (default [] l) op in
          '(l', rs, n) ← a_fields ops (Some l1);
          Some (l', r :: rs, n + 1)
      else None
  end.

Definition a_bitfield (a : adb) (key : bytes) (args : list bytes) : option aresult :=
  match bitfield_parse (S (length args)) args [] BFOVERFLOW_WRAP true 0 with
  | None => None
  | Some (BfError e) => a_only a e
  | Some (BfOps ops readonly highest) =>
      match a !! key with
      | Some (VOther _) => a_only a wrongtypeerr
      | v =>
          '(l, rs, n) ← a_fields ops (if readonly then match v with Some (VObj l) => Some l | _ => None end else a_room a key highest);
          Some (match l with Some l => <[key := VObj l]> a | None => a end, BInts (zlen ops) rs, if n =? 0 then [] else [Signal key; Notify "setbit" key], n)
      end
  end.

(** [None]: an operation of BITFIELD that is not defined. *)
Definition a_bcommand (a : adb) (cmd : bcommand) : option aresult :=
  match cmd with
  | SetBit key offset value =>
      match a_offset offset with
      | None => a_only a biterr
      | Some i =>
          a_num a value bitvalerr (λ on,
            if (on =? 0) || (on =? 1) then
              match a_room a key i with
              | None => a_only a wrongtypeerr
              | Some l => Some (<[key := VObj (<[Z.to_nat i := on =? 1]> l)]> a, BReply (RInt (b2z (bit_at l i))), [Signal key; Notify "setbit" key], 1)
              end
            else a_only a bitvalerr)
      end
  | GetBit key offset =>
      match a_offset offset with
      | None => a_only a biterr
      | Some i => a_bits a key (RInt 0) (λ l, a_only a (RInt (b2z (bit_at l i))))
      end
  | BitOp opname target keys =>
      match bitop_name opname with
      | None => a_only a syntaxerr
      | Some op =>
          if (op =? BITOP_NOT) && negb (zlen keys =? 1) then a_only a noterr
          else
            match a_sources a keys with
            | None => a_only a wrongtypeerr
            | Some ls =>
                let l := a_bitop op ls in
                Some (if bool_decide (l = []) then delete target a else <[target := VObj l]> a, BReply (RInt (bytes_in l)),
                  if bool_decide (l = []) then (if bool_decide (is_Some (a !! target)) then [Signal target; Notify "del" target] else []) else [Signal target; Notify "set" target], 1)
            end
      end
  | BitCount key range =>
      a_bits a key (RInt 0) (λ l,
        let count (start end_ : Z) := a_only a (RInt (ones (a_slice l start end_))) in
        match range with
        | [] => count 0 (bytes_in l - 1)
        | [start; end_] =>
            a_num a start notintegererr (λ start, a_num a end_ notintegererr (λ end_,
              if (start <? 0) && (end_ <? 0) && (end_ <? start) then a_only a (RInt 0)
              else let '(start, end_) := byte_range (bytes_in l) start end_ in count start end_))
        | _ => a_only a syntaxerr
        end)
  | BitPos key bit range =>
      a_num a bit notintegererr (λ bit,
        if (bit =? 0) || (bit =? 1) then
          a_bits a key (RInt (if bit =? 0 then 0 else -1)) (λ l,
            let search (start end_ : Z) (end_given : bool) := let '(start, end_) := byte_range (bytes_in l) start end_ in a_only a (RInt (a_search bit l start end_ end_given)) in
            match range with
            | [] => a_only a (RInt (a_search bit l 0 (bytes_in l - 1) false))
            | [start] => a_num a start notintegererr (λ start, search start (bytes_in l - 1) false)
            | [start; end_] => a_num a start notintegererr (λ start, a_num a end_ notintegererr (λ end_, search start end_ true))
            | _ => a_only a syntaxerr
            end)
        else a_only a bitargerr)
  | BitField key args => a_bitfield a key args
  end.

Fixpoint a_bcommands (a : adb) (cmds : list bcommand) : option (adb * list (breply * list effect * Z)) :=
  match cmds with
  | [] => Some (a, [])
  | cmd :: cmds => '(a, r, ev, d) ← a_bcommand a cmd; '(a, rs) ← a_bcommands a cmds; Some (a, (r, ev, d) :: rs)
  end.

(** ** The relation *)

(** A string and its bits. *)
Definition R (s : bytes) (l : bits) : Prop := Forall is_byte s ∧ bits_of s = l.

Abbreviation refines := (cmd_refines (T := breply) R).
Abbreviation related := (db_rel R).

Lemma refines_only h a r : related h a → refines (only h r) (a_only a r).
Proof. apply cmd_refines_some. Qed.

Lemma refines_num h a s e c c' : related h a → (∀ n, in_s 64 n → refines (c n) (c' n)) → refines (long_arg h s e c) (a_num a s e c').
Proof.
  intros Hr Hc. unfold long_arg, a_num, getLongFromObject. rewrite to_int_eq. cbn [mbind option_bind]. destruct (to_int s) as [n|] eqn:E; [|by apply refines_only]. apply Hc. by apply to_int_spec in E as [_ ?].
Qed.

Lemma refines_string h a key r c c' : related h a → (∀ s, Forall is_byte s → refines (c s) (c' (bits_of s))) → refines (lookup_string_or h key r c) (a_bits a key r c').
Proof.
  intros Hr Hc. unfold lookup_string_or, a_bits. destruct (db_rel_cases R h a key Hr) as [[-> ->]|[(s & l & -> & -> & Hs & <-)|(v & -> & ->)]]; [by apply refines_only|by apply Hc|by apply refines_only].
Qed.

Lemma bytes_in_bits s : bytes_in (bits_of s) = zlen s.
Proof. unfold bytes_in. rewrite bits_zlen, Z.mul_comm. by apply Z.div_mul. Qed.

(** ** Offsets and room *)

Lemma offset_limit n : ((n <? 0) || (512 * 1024 * 1024 <=? Z.shiftr n 3)) = negb ((0 <=? n) && (n <? 2 ^ 32)).
Proof.
  rewrite Z.shiftr_div_pow2 by lia. change (512 * 1024 * 1024) with (2 ^ 29). change (2 ^ 3) with 8. pose proof (Z.div_mod n 8). pose proof (Z.mod_pos_bound n 8). destruct (Z.ltb_spec n 0), (Z.leb_spec (2 ^ 29) (n / 8)), (Z.leb_spec 0 n), (Z.ltb_spec n (2 ^ 32)); cbn; lia || done.
Qed.

Lemma getBitOffset_plain p : getBitOffsetFromArgument p false 0 = Some (a_offset p).
Proof.
  unfold getBitOffsetFromArgument, a_offset. assert (match p with 35 :: _ => false && (0 <? 0) | _ => false end = false) as -> by (repeat case_match; done). rewrite to_int_eq. cbn [mbind option_bind]. destruct (to_int p) as [n|]; [|done]. cbn [mbind option_bind]. rewrite offset_limit. by destruct (_ && _).
Qed.

Lemma a_offset_range p i : a_offset p = Some i → 0 ≤ i < 2 ^ 32.
Proof. unfold a_offset. destruct (to_int p) as [n|]; [|done]. cbn [mbind option_bind]. destruct (Z.leb_spec 0 n), (Z.ltb_spec n (2 ^ 32)); cbn [andb]; try done. intros [= <-]. done. Qed.

Lemma room_refines h a key maxbit : related h a → 0 ≤ maxbit →
  (lookupStringForBitCommand h key maxbit = None ∧ a_room a key maxbit = None ∧ (∃ v, a !! key = Some (VOther v))) ∨
  (∃ s, lookupStringForBitCommand h key maxbit = Some s ∧ a_room a key maxbit = Some (bits_of s) ∧ Forall is_byte s ∧ maxbit < 8 * zlen s ∧ (∀ v, a !! key ≠ Some (VOther v))).
Proof.
  intros Hr Hm. unfold lookupStringForBitCommand, a_room. rewrite Z.shiftr_div_pow2 by lia. change (2 ^ 3) with 8. pose proof (Z.div_mod maxbit 8). pose proof (Z.mod_pos_bound maxbit 8). pose proof (Z.div_pos maxbit 8).
  assert (∀ s, bits_of (pad (Z.to_nat (maxbit / 8 + 1)) s) = padded (Z.to_nat (8 * (maxbit / 8 + 1))) (bits_of s)) as Hp by (intros s; rewrite <-padded_bits; f_equal; lia).
  assert (∀ s, Forall is_byte s → Forall is_byte (pad (Z.to_nat (maxbit / 8 + 1)) s)) as Hb by (intros s Hs; apply Forall_app; split; [done|by apply Forall_replicate]).
  assert (∀ s, maxbit < 8 * zlen (pad (Z.to_nat (maxbit / 8 + 1)) s)) as Hl by (intros s; unfold pad; rewrite length_app, length_replicate; lia).
  destruct (db_rel_cases R h a key Hr) as [[-> ->]|[(s & l & -> & -> & Hs & <-)|(v & -> & ->)]]; [right..|left; split_and!; [done..|by exists v]].
  - exists (pad (Z.to_nat (maxbit / 8 + 1)) []). split_and!; [|by rewrite Hp|by apply Hb|done|done]. unfold pad. by rewrite Nat.sub_0_r.
  - exists (pad (Z.to_nat (maxbit / 8 + 1)) s). split_and!; [|by rewrite Hp|by apply Hb|done|done]. unfold grow_zero, pad. do 3 f_equal. lia.
Qed.

(** ** SETBIT and GETBIT *)

Lemma bit_flag (n : Z) : negb (Z.land n (Z.lnot 1) =? 0) = negb ((n =? 0) || (n =? 1)).
Proof.
  f_equal. rewrite <-Z.ldiff_land. change 1 with (Z.ones 1) at 1. rewrite Z.ldiff_ones_r, Z.shiftl_mul_pow2, Z.shiftr_div_pow2 by lia. change (2 ^ 1) with 2. pose proof (Z.div_mod n 2). pose proof (Z.mod_pos_bound n 2). destruct (Z.eqb_spec (n / 2 * 2) 0), (Z.eqb_spec n 0), (Z.eqb_spec n 1); cbn; lia || done.
Qed.

Lemma bit_reply b k : 0 ≤ k → (if Z.land b (Z.shiftl 1 k) =? 0 then 0 else 1) = b2z (Z.testbit b k).
Proof. intros Hk. rewrite <-land_pow2, Z.shiftl_1_l by done. by destruct (_ =? _). Qed.

Lemma setbit_refines h a key offset value : related h a → refines (setbitCommand h key offset value) (a_bcommand a (SetBit key offset value)).
Proof.
  intros Hr. unfold setbitCommand. cbn [a_bcommand]. rewrite getBitOffset_plain. cbn [mbind option_bind]. destruct (a_offset offset) as [i|] eqn:Ei; [|by apply refines_only]. apply a_offset_range in Ei. apply refines_num; [done|]. intros on _. rewrite bit_flag. destruct ((on =? 0) || (on =? 1)) eqn:Eon; cbn [negb]; [|by apply refines_only].
  destruct (room_refines h a key i Hr) as [(-> & -> & _)|(s & -> & -> & Hs & Hi & _)]; [lia|by apply refines_only|]. destruct (bit_write (on =? 1) s i Hs) as (b & s' & -> & Hb & Hbit & Hpoke & Hs' & _ & Hbits); [lia|]. cbn [mbind option_bind].
  assert (Z.land on 1 = b2z (on =? 1)) as -> by (apply orb_true_iff in Eon as [E|E]; apply Z.eqb_eq in E; by rewrite E). rewrite Hpoke. cbn [mbind option_bind]. rewrite bit_reply by (rewrite (proj2 (bit_address i)); pose proof (Z.mod_pos_bound i 8); lia). rewrite Hbit, <-Hbits. apply cmd_refines_some. by apply db_rel_insert.
Qed.

Lemma getbit_refines h a key offset : related h a → refines (getbitCommand h key offset) (a_bcommand a (GetBit key offset)).
Proof.
  intros Hr. unfold getbitCommand. cbn [a_bcommand]. rewrite getBitOffset_plain. cbn [mbind option_bind]. destruct (a_offset offset) as [i|] eqn:Ei; [|by apply refines_only]. apply a_offset_range in Ei. apply refines_string; [done|]. intros s Hs. destruct (Z.ltb_spec (Z.shiftr i 3) (zlen s)) as [Hl|Hl]; rewrite (proj1 (bit_address i)) in Hl; pose proof (Z.div_mod i 8); pose proof (Z.mod_pos_bound i 8).
  - destruct (bit_read s i Hs) as (b & -> & Hb & _ & _ & Hbit); [lia|]. cbn [mbind option_bind]. unfold bit_at. rewrite Hbit, bit_reply; [by apply refines_only|]. rewrite (proj2 (bit_address i)). lia.
  - cbn [mbind option_bind]. unfold bit_at. rewrite lookup_ge_None_2; [by apply refines_only|]. rewrite bits_length. lia.
Qed.

(** ** BITOP *)

Lemma bitop_name_is opname op : bitop_name opname = Some op → is_op op ∨ op = BITOP_NOT.
Proof. unfold bitop_name, is_op. repeat case_match; intros [= <-]; tauto. Qed.

(** The longest source, and at most the shortest one. *)
Lemma sources_refine h a keys : related h a → ∀ j maxlen minlen, 0 ≤ maxlen → 0 ≤ minlen →
  (bitop_sources h j keys maxlen minlen = None ∧ a_sources a keys = None) ∨
  (∃ src m, bitop_sources h j keys maxlen minlen = Some (src, Z.max maxlen (Z.of_nat (foldr Nat.max O (length <$> src))), m) ∧ a_sources a keys = Some (bits_of <$> src) ∧
    Forall (Forall is_byte) src ∧ 0 ≤ m ∧ Forall (λ s, m ≤ zlen s) src ∧ (j ≠ O → m ≤ minlen)).
Proof.
  intros Hr. induction keys as [|key keys IH]; intros j maxlen minlen HM Hm; cbn [bitop_sources a_sources].
  - right. exists [], minlen. split_and!; try done. cbn. by rewrite Z.max_l.
  - destruct (db_rel_cases R h a key Hr) as [[-> ->]|[(s & l & -> & -> & Hs & <-)|(v & -> & ->)]]; [| |by left].
    + destruct (IH (S j) maxlen 0) as [[-> ->]|(src & m & -> & -> & Hsrc & H0 & Hmin & Hle)]; [done..|by left|]. right. exists ([] :: src), m. specialize (Hle ltac:(lia)). split_and!; [done|done|by constructor|done| |lia]. constructor; [cbn; lia|done].
    + set (minlen' := if (j =? 0)%nat || (zlen s <? minlen) then zlen s else minlen). assert (0 ≤ minlen' ≤ zlen s ∧ (j ≠ O → minlen' ≤ minlen)) as [Hm1 Hm2]. { unfold minlen'. destruct (Nat.eqb_spec j 0), (Z.ltb_spec (zlen s) minlen); cbn [orb]; lia. }
      destruct (IH (S j) (if maxlen <? zlen s then zlen s else maxlen) minlen') as [[-> ->]|(src & m & -> & -> & Hsrc & H0 & Hmin & Hle)]; [destruct (Z.ltb_spec maxlen (zlen s)); lia|lia|by left|]. right. exists (s :: src), m. specialize (Hle ltac:(lia)). split_and!; [|done|by constructor|done| |lia].
      * cbn [mbind option_bind fmap list_fmap foldr]. change (list_fmap _ _ length src) with (length <$> src). do 3 f_equal. destruct (Z.ltb_spec maxlen (zlen s)); lia.
      * constructor; [lia|done].
Qed.

Lemma bitop_refines h a opname target keys : related h a → refines (bitopCommand h opname target keys) (a_bcommand a (BitOp opname target keys)).
Proof.
  intros Hr. unfold bitopCommand. cbn [a_bcommand]. destruct (bitop_name opname) as [op|] eqn:Eop; [|by apply refines_only]. apply bitop_name_is in Eop. destruct (_ && _); [by apply refines_only|]. destruct (sources_refine h a keys Hr 0 0 0) as [[-> ->]|(src & m & -> & -> & Hsrc & H0 & Hmin & _)]; [done..|by apply refines_only|]. rewrite Z.max_r by lia. set (n := foldr Nat.max O (length <$> src)).
  assert (bool_decide (is_Some (h !! target)) = bool_decide (is_Some (a !! target))) as Ht. { apply bool_decide_ext. destruct (db_rel_cases R h a target Hr) as [[-> ->]|[(s & l & -> & -> & _)|(v & -> & ->)]]; [done|split; by eexists..]. }
  assert (length (a_bitop op (bits_of <$> src)) = (8 * n)%nat ∧ (n ≠ O → ∃ res, bitop_result op src (Z.of_nat n) m = Some res ∧ Forall is_byte res ∧ bits_of res = a_bitop op (bits_of <$> src))) as [Hlen Hres].
  { destruct src as [|src0 src]; [done|]. apply Forall_cons in Hsrc as [Hs0 Hsrc]. pose proof (max_all (src0 :: src)) as Hmax. fold n in Hmax. pose proof Hmax as [Hm0 Hmax']%Forall_cons. rewrite (a_bitop_eq op src0 src n) by done. split; [rewrite bits_length, combine_length by done; done|]. intros _. eexists. split_and!; [| |reflexivity].
    - rewrite bitop_result_spec; [by rewrite Nat2Z.id|done|by constructor|done|]. apply Forall_forall. intros s Hs. rewrite Forall_forall in Hmin, Hmax. specialize (Hmin s Hs). specialize (Hmax s Hs). cbn in *. lia.
    - apply Forall_lookup_2. intros i b Hb. pose proof (lookup_lt_Some _ _ _ Hb) as Hi. rewrite combine_length in Hi by done. pose proof (combine_byte op n src0 src i Eop Hi Hm0 Hmax') as E. unfold byte_at at 1 in E. rewrite Hb in E. cbn in E. rewrite E. apply out_byte_is; [done..|by apply byte_at_byte]. }
  set (l := a_bitop op (bits_of <$> src)) in *. destruct (Z.eqb_spec (Z.of_nat n) 0) as [Hn|Hn].
  - assert (l = []) as El by (apply length_zero_iff_nil; lia). rewrite (bool_decide_eq_true_2 (l = [])), Ht, El by done. apply cmd_refines_some. by apply db_rel_delete.
  - destruct Hres as (res & -> & Hb & E); [lia|]. cbn [mbind option_bind]. rewrite bool_decide_eq_false_2 by (intros E'; rewrite E' in Hlen; cbn in Hlen; lia). unfold bytes_in. rewrite Hlen. replace (Z.of_nat (8 * n)) with (Z.of_nat n * 8) by lia. rewrite Z.div_mul by done. apply cmd_refines_some. by apply db_rel_insert.
Qed.

(** ** BITCOUNT and BITPOS *)

Lemma clip_range_eq n start end_ : 0 ≤ n → clip_range n start end_ = byte_range n start end_.
Proof.
  intros Hn. unfold clip_range, byte_range. f_equal; repeat match goal with |- context [?x <? ?y] => destruct (Z.ltb_spec x y) | |- context [?x <=? ?y] => destruct (Z.leb_spec x y) end; lia.
Qed.

Lemma a_slice_eq s start end_ : 0 ≤ start → a_slice (bits_of s) start end_ = bits_at s start (end_ - start + 1).
Proof. intros Hs. unfold a_slice, bits_at. rewrite bits_take, bits_drop. do 2 f_equal; [|f_equal]; lia. Qed.

Lemma bitcount_refines addr h a key range : related h a → refines (bitcountCommand addr h key range) (a_bcommand a (BitCount key range)).
Proof.
  intros Hr. unfold bitcountCommand. cbn [a_bcommand]. apply refines_string; [done|]. intros s Hs. rewrite bytes_in_bits.
  assert (∀ start end_, 0 ≤ start → end_ ≤ zlen s - 1 → refines (if end_ <? start then only h (RInt 0) else n ← redisPopcount (addr s) s start (end_ - start + 1); only h (RInt n)) (a_only a (RInt (ones (a_slice (bits_of s) start end_))))) as Hc.
  { intros start end_ Hst Hen. rewrite a_slice_eq by done. destruct (Z.ltb_spec end_ start) as [Hlt|Hge].
    - unfold bits_at. replace (Z.to_nat (end_ - start + 1)) with O by lia. by apply refines_only.
    - rewrite redisPopcount_spec by (done || lia). by apply refines_only. }
  destruct range as [|start [|end_ [|]]]; [apply Hc; lia|by apply refines_only| |by apply refines_only]. apply refines_num; [done|]. intros st _. apply refines_num; [done|]. intros en _. destruct (_ && _); [by apply refines_only|]. rewrite clip_range_eq by lia. cbn [byte_range]. unfold byte_range. apply Hc; lia.
Qed.

Lemma first_bit_bound b l i : first_bit b l = Some i → (i < length l)%nat.
Proof. revert i. induction l as [|c l IH]; intros i; cbn [first_bit length]; [done|]. destruct (eqb c b); [intros [= <-]; lia|]. destruct (first_bit b l) as [k|]; [|done]. intros [= <-]. specialize (IH k eq_refl). lia. Qed.

Lemma bitpos_refines addr h a key bit range : related h a → refines (bitposCommand addr h key bit range) (a_bcommand a (BitPos key bit range)).
Proof.
  intros Hr. unfold bitposCommand. cbn [a_bcommand]. apply refines_num; [done|]. intros b _. rewrite <-negb_orb. destruct ((b =? 0) || (b =? 1)) eqn:Eb; cbn [negb]; [|by apply refines_only]. assert (b = 0 ∨ b = 1) as Hb by (apply orb_true_iff in Eb as [E|E]; apply Z.eqb_eq in E; tauto). apply refines_string; [done|]. intros s Hs. rewrite bytes_in_bits.
  assert (∀ start end_ (given : bool), 0 ≤ start → end_ ≤ zlen s - 1 →
    refines (if end_ <? start then only h (RInt (-1)) else pos ← redisBitpos (addr s) s start (end_ - start + 1) b;
               if given && (b =? 0) && (pos =? (end_ - start + 1) * 8) then only h (RInt (-1)) else only h (RInt (if pos =? -1 then pos else pos + start * 8))) (a_only a (RInt (a_search b (bits_of s) start end_ given)))) as Hc.
  { intros start end_ given Hst Hen. unfold a_search. destruct (Z.ltb_spec end_ start) as [Hlt|Hge]; [by apply refines_only|]. rewrite redisBitpos_spec by (done || lia). cbn [mbind option_bind]. rewrite a_slice_eq by done. pose proof (bits_at_length s start (end_ - start + 1)) as Hlen. unfold found_at.
    replace (negb (b =? 0)) with (b =? 1) by (by destruct Hb as [-> | ->]). destruct (first_bit (b =? 1) _) as [i|] eqn:E.
    - apply first_bit_bound in E. rewrite Hlen in E by lia. rewrite (proj2 (Z.eqb_neq (0 + Z.of_nat i) ((end_ - start + 1) * 8))), andb_false_r by lia. rewrite (proj2 (Z.eqb_neq (0 + Z.of_nat i) (-1))) by lia. replace (0 + Z.of_nat i + start * 8) with (8 * start + Z.of_nat i) by lia. by apply refines_only.
    - destruct Hb as [-> | ->]; cbn [Z.eqb Pos.eqb andb]; rewrite ?andb_false_r, ?andb_true_r; [|by apply refines_only]. rewrite Hlen by lia. rewrite (proj2 (Z.eqb_eq (0 + _) _)) by lia. rewrite andb_true_r. destruct given; cbn [negb]; [by apply refines_only|]. rewrite (proj2 (Z.eqb_neq _ (-1))) by lia. replace (0 + Z.of_nat (Z.to_nat (8 * (end_ - start + 1))) + start * 8) with (8 * (end_ + 1)) by lia. by apply refines_only. }
  destruct range as [|start [|end_ [|]]]; [apply Hc; lia| | |by apply refines_only]; (apply refines_num; [done|]; intros st _).
  - rewrite clip_range_eq by lia. unfold byte_range. apply Hc; lia.
  - apply refines_num; [done|]. intros en _. rewrite clip_range_eq by lia. unfold byte_range. apply Hc; lia.
Qed.

(** ** BITFIELD: the arguments *)

Definition is_opcode (opcode : Z) : Prop := opcode = BITFIELDOP_GET ∨ opcode = BITFIELDOP_SET ∨ opcode = BITFIELDOP_INCRBY.

(** What the parser guarantees of an operation. *)
Record op_ok (op : bitfieldOp) : Prop := {
  ok_offset : 0 ≤ bf_offset op < 2 ^ 32;
  ok_bits : 1 ≤ bf_bits op ≤ if bf_sign op then 64 else 63;
  ok_i64 : in_s 64 (bf_i64 op);
  ok_owtype : is_owtype (bf_owtype op);
  ok_opcode : is_opcode (bf_opcode op);
}.

(** A write is not read only, and it is within the string. *)
Definition write_ok (readonly : bool) (highest : Z) (op : bitfieldOp) : Prop := bf_opcode op ≠ BITFIELDOP_GET → readonly = false ∧ bf_offset op + bf_bits op - 1 ≤ highest.

Lemma getBitOffset_range p hash bits : ∃ r, getBitOffsetFromArgument p hash bits = Some r ∧ (∀ i, r = Some i → 0 ≤ i < 2 ^ 32).
Proof.
  unfold getBitOffsetFromArgument. set (usehash := match p with 35 :: _ => _ | _ => _ end). rewrite to_int_eq. cbn [mbind option_bind]. destruct (to_int _) as [n|]; [|eexists; by split]. rewrite offset_limit. set (m := if usehash then _ else n). destruct (Z.leb_spec 0 m), (Z.ltb_spec m (2 ^ 32)); cbn [andb negb]; (eexists; split; [done|]); by intros i [= <-].
Qed.

Lemma getBitfieldType_range p : ∃ r, getBitfieldTypeFromArgument p = Some r ∧ (∀ sign bits, r = Some (sign, bits) → 1 ≤ bits ≤ if sign then 64 else 63).
Proof.
  unfold getBitfieldTypeFromArgument. destruct (match p with 105 :: t => _ | _ => _ end) as [[sign t]|]; [|eexists; by split]. rewrite to_int_eq. cbn [mbind option_bind]. destruct (to_int _) as [n|]; [|eexists; by split]. destruct (Z.ltb_spec n 1); cbn [orb]; [eexists; by split|]. destruct sign; cbn [andb orb negb].
  - destruct (Z.ltb_spec 64 n); cbn [orb]; (eexists; split; [done|]); try done; intros ? ? [= <- <-]; lia.
  - destruct (Z.ltb_spec 63 n); cbn [orb]; (eexists; split; [done|]); try done; intros ? ? [= <- <-]; lia.
Qed.

(** The parser ends with operations that are in range, or with an error. *)
Lemma bitfield_parse_spec fuel : ∀ args ops ow readonly highest, (length args < fuel)%nat → is_owtype ow → 0 ≤ highest → Forall op_ok ops → Forall (write_ok readonly highest) ops →
  ∃ p, bitfield_parse fuel args ops ow readonly highest = Some p ∧ match p with BfError _ => True | BfOps ops' readonly' highest' => 0 ≤ highest' ∧ Forall op_ok ops' ∧ Forall (write_ok readonly' highest') ops' end.
Proof.
  induction fuel as [|fuel IH]; intros args ops ow ro hi Hf How Hhi Hops Hw; [lia|]. cbn [bitfield_parse]. destruct args as [|subcmd rest]; [by eexists|]. cbn [length] in Hf.
  set (opc := if strcasecmp_eq subcmd (str "get") && (2 <=? zlen rest) then _ else _).
  assert (match opc with Some opcode => is_opcode opcode ∧ (2 ≤ length rest)%nat ∧ (opcode ≠ BITFIELDOP_GET → (3 ≤ length rest)%nat) | None => True end) as Hopc.
  { unfold opc, is_opcode. destruct (strcasecmp_eq subcmd (str "get")), (Z.leb_spec 2 (zlen rest)); cbn [andb]; try (split_and!; [tauto|lia|done]). all: destruct (strcasecmp_eq subcmd (str "set")), (Z.leb_spec 3 (zlen rest)); cbn [andb]; try (split_and!; [tauto|lia..]). all: destruct (strcasecmp_eq subcmd (str "incrby")); cbn [andb]; try (split_and!; [tauto|lia..]); done. }
  destruct opc as [opcode|]; [destruct Hopc as (Hopc & H2 & H3)|].
  - destruct rest as [|ty [|off rest]]; [cbn in H2; lia..|]. cbn [length] in *. destruct (getBitfieldType_range ty) as (t & -> & Ht). cbn [mbind option_bind]. destruct t as [[sign bits]|]; [|by eexists]. specialize (Ht sign bits eq_refl). destruct (getBitOffset_range off true bits) as (o & -> & Ho). cbn [mbind option_bind]. destruct o as [offset|]; [|by eexists]. specialize (Ho offset eq_refl).
    destruct (Z.eqb_spec opcode BITFIELDOP_GET) as [Eg|Eg].
    + apply IH; [lia|done|done| |]; (apply Forall_app; split; [done|]; constructor; [|done]); [by constructor|]. by intros H.
    + destruct rest as [|v rest]; [cbn in H3; specialize (H3 Eg); lia|]. cbn [length] in *. unfold getLongFromObject. rewrite to_int_eq. cbn [mbind option_bind]. destruct (to_int v) as [i64|] eqn:Ei; [|by eexists]. apply to_int_spec in Ei as [_ Hi64]. set (hi' := if hi <? offset + bits - 1 then offset + bits - 1 else hi). assert (hi ≤ hi' ∧ offset + bits - 1 ≤ hi') as [Hh1 Hh2] by (unfold hi'; destruct (Z.ltb_spec hi (offset + bits - 1)); lia).
      apply IH; [lia|done|lia| |]; (apply Forall_app; split; [|constructor; [|done]]); [done|by constructor| |by intros _].
      eapply Forall_impl; [exact Hw|]. intros op Hop Hne. specialize (Hop Hne). split; [done|lia].
  - destruct rest as [|ow' rest]; [by eexists|]. cbn [length] in *. destruct (strcasecmp_eq subcmd (str "overflow")); [|by eexists]. destruct (strcasecmp_eq ow' (str "wrap")); [apply IH; [lia|by left|done..]|]. destruct (strcasecmp_eq ow' (str "sat")); [apply IH; [lia|by right; left|done..]|]. destruct (strcasecmp_eq ow' (str "fail")); [apply IH; [lia|by right; right|done..]|]. by eexists.
Qed.

(** ** BITFIELD: the fields *)

Lemma bit_at_padded n l i : bit_at (padded n l) i = bit_at l i.
Proof.
  unfold bit_at, padded. destruct (decide (Z.to_nat i < length l)%nat); [by rewrite lookup_app_l|]. rewrite lookup_app_r, (lookup_ge_None_2 l) by lia. destruct (replicate _ _ !! _) eqn:E; [|done]. by apply lookup_replicate in E as [-> _].
Qed.

Lemma bit_at_field l offset bits i : 0 ≤ offset → 0 ≤ i < bits → bit_at (field_at l offset bits) i = bit_at l (offset + i).
Proof. intros Ho Hi. unfold bit_at, field_at. rewrite lookup_take_lt, lookup_drop by lia. do 2 f_equal. lia. Qed.

Lemma bit_at_eq l k : length l = length k → (∀ i, 0 ≤ i < zlen l → bit_at l i = bit_at k i) → l = k.
Proof.
  intros Hlen Hb. apply list_eq_same_length with (length l); [done|done|]. intros i x y Hi Hx Hy. specialize (Hb (Z.of_nat i) ltac:(lia)). unfold bit_at in Hb. rewrite Nat2Z.id, Hx, Hy in Hb. done.
Qed.

Lemma a_field_length l offset bits : 0 ≤ offset → 0 ≤ bits → zlen (a_field l offset bits) = bits.
Proof. intros Ho Hb. apply field_at_length; [done..|]. unfold padded. rewrite length_app, length_replicate. lia. Qed.

Lemma a_field_bit l offset bits i : 0 ≤ offset → 0 ≤ i < bits → bit_at (a_field l offset bits) i = bit_at l (offset + i).
Proof. intros Ho Hi. unfold a_field. change (take _ _) with (field_at (padded (Z.to_nat (offset + bits)) l) offset bits). by rewrite bit_at_field, bit_at_padded. Qed.

(** A field within the string, and one of the copy that GET makes. *)
Lemma a_field_in l offset bits : 0 ≤ offset → 0 ≤ bits → offset + bits ≤ zlen l → a_field l offset bits = field_at l offset bits.
Proof. intros Ho Hb Hl. unfold a_field, padded. replace (Z.to_nat (offset + bits) - length l)%nat with O by lia. by rewrite app_nil_r. Qed.

Lemma bitfield_buf_ok s byte : Forall is_byte (default [] s) → Forall is_byte (bitfield_buf s byte) ∧ length (bitfield_buf s byte) = 9%nat ∧ bits_of (bitfield_buf s byte) = padded 72 (take 72 (drop (8 * Z.to_nat byte) (bits_of (default [] s)))).
Proof.
  intros Hs. unfold bitfield_buf. replace (match s with Some s => take 9 (drop (Z.to_nat byte) s) | None => [] end) with (take 9 (drop (Z.to_nat byte) (default [] s))) by (destruct s; [done|cbn; by rewrite drop_nil]). set (t := take 9 _). assert (length t ≤ 9)%nat by (unfold t; rewrite length_take; lia). split_and!.
  - apply Forall_app. split; [by apply Forall_take, Forall_drop|by apply Forall_replicate].
  - rewrite length_app, length_replicate. lia.
  - change (t ++ replicate (9 - length t) 0) with (pad 9 t). rewrite <-padded_bits. unfold t. by rewrite bits_take, bits_drop.
Qed.

Lemma buf_field s offset bits : Forall is_byte (default [] s) → 0 ≤ offset → 0 ≤ bits ≤ 64 →
  field_at (bits_of (bitfield_buf s (Z.shiftr offset 3))) (offset - Z.shiftr offset 3 * 8) bits = a_field (bits_of (default [] s)) offset bits.
Proof.
  intros Hs Ho Hb. destruct (bitfield_buf_ok s (Z.shiftr offset 3) Hs) as (_ & Hlen & Hbits). pose proof (bits_zlen (bitfield_buf s (Z.shiftr offset 3))) as Hz. rewrite Hlen in Hz. destruct (bit_address offset) as [E _]. rewrite E in *. pose proof (Z.div_mod offset 8). pose proof (Z.mod_pos_bound offset 8). pose proof (Z.div_pos offset 8).
  pose proof (field_at_length (bits_of (bitfield_buf s (offset / 8))) (offset - offset / 8 * 8) bits) as Hf. rewrite Hz in Hf. pose proof (a_field_length (bits_of (default [] s)) offset bits) as Ha. apply bit_at_eq; [lia|]. intros i Hi. rewrite Hf in Hi by lia. rewrite bit_at_field, a_field_bit, Hbits, bit_at_padded by lia.
  unfold bit_at. rewrite lookup_take_lt, lookup_drop by lia. do 2 f_equal. lia.
Qed.

Lemma a_number_range sign bits f : 1 ≤ bits → zlen f = bits → field_min sign bits ≤ a_number sign bits f ≤ field_max sign bits.
Proof.
  intros Hb Hf. pose proof (value_bound f) as Hv. rewrite Hf in Hv. unfold in_u in Hv. pose proof (pow2_half bits Hb). pose proof (Z.pow_pos_nonneg 2 (bits - 1)). unfold a_number, field_min, field_max, to_signed. destruct sign; [|lia]. destruct (Z.ltb_spec (value_of f) (2 ^ (bits - 1))); lia.
Qed.

(** Numbers in fields of at most 64 bits, or 63 bits without a sign, are numbers of C. *)
Lemma field_s64 (sign : bool) bits v : 1 ≤ bits ≤ (if sign then 64 else 63) → field_min sign bits ≤ v ≤ field_max sign bits → in_s 64 v.
Proof.
  intros Hb Hv. unfold in_s. change (64 - 1) with 63. unfold field_min, field_max in Hv. destruct sign.
  - assert (2 ^ (bits - 1) ≤ 2 ^ 63) by (apply Z.pow_le_mono_r; lia). lia.
  - assert (2 ^ bits ≤ 2 ^ 63) by (apply Z.pow_le_mono_r; lia). lia.
Qed.

Lemma a_fit_range (sign : bool) bits ow v w : 1 ≤ bits → a_fit sign bits ow v = Some w → field_min sign bits ≤ w ≤ field_max sign bits.
Proof.
  intros Hb. unfold a_fit. pose proof (Z.pow_pos_nonneg 2 (bits - 1)). pose proof (Z.pow_pos_nonneg 2 bits). destruct (Z.leb_spec (field_min sign bits) v), (Z.leb_spec v (field_max sign bits)); cbn [andb]; [intros [= <-]; lia|..].
  all: destruct (ow =? BFOVERFLOW_WRAP); [intros [= <-]; destruct sign; [pose proof (wrap_s_range bits v ltac:(lia)) as Hr; unfold in_s in Hr|pose proof (wrap_u_range bits v ltac:(lia)) as Hr; unfold in_u in Hr]; unfold field_min, field_max; lia|].
  all: destruct (ow =? BFOVERFLOW_SAT); [|done]; intros [= <-]; unfold field_min, field_max; repeat case_match; lia.
Qed.

Lemma field_of_u64 n v : (n ≤ 64)%nat → field_of n (u64 v) = field_of n v.
Proof.
  intros Hn. induction n as [|n IH]; [done|]. rewrite !field_S, IH by lia. f_equal. rewrite testbit_wrap_u by lia. rewrite bool_decide_eq_true_2 by lia. done.
Qed.

(** ** BITFIELD: the operations *)

Lemma get_number (sign : bool) p offset bits : Forall is_byte p → 0 ≤ offset → 1 ≤ bits ≤ (if sign then 64 else 63) → offset + bits ≤ 8 * zlen p → (sign = true → bits = 64 → 0 ≤ a_number true bits (field_at (bits_of p) offset bits)) →
  (if sign then getSignedBitfield else getUnsignedBitfield) p offset bits = Some (a_number sign bits (field_at (bits_of p) offset bits)).
Proof. intros Hp Ho Hb Hl H64. destruct sign; [apply getSigned_spec; auto|apply getUnsigned_spec; done || lia]. Qed.

Lemma allowed_old l op : a_allowed l op = true → bf_sign op = true → bf_bits op = 64 → 0 ≤ a_number true 64 (a_field l (bf_offset op) 64).
Proof. unfold a_allowed. intros H E1 E2. rewrite E1, E2 in H. cbn [negb orb] in H. rewrite Z.eqb_refl in H. apply andb_true_iff in H as [H _]. by apply Z.leb_le. Qed.

Lemma field_get_refines s op : Forall is_byte (default [] s) → op_ok op → a_allowed (bits_of (default [] s)) op = true →
  bitfield_get s op = Some (a_number (bf_sign op) (bf_bits op) (a_field (bits_of (default [] s)) (bf_offset op) (bf_bits op))).
Proof.
  intros Hs [Ho Hb _ _ _] Ha. assert (1 ≤ bf_bits op ≤ 64) by (destruct (bf_sign op); lia). unfold bitfield_get. destruct (bitfield_buf_ok s (Z.shiftr (bf_offset op) 3) Hs) as (Hbuf & Hlen & _). destruct (bit_address (bf_offset op)) as [E _]. pose proof (Z.div_mod (bf_offset op) 8). pose proof (Z.mod_pos_bound (bf_offset op) 8).
  pose proof (buf_field s (bf_offset op) (bf_bits op) Hs ltac:(lia) ltac:(lia)) as Hf. rewrite get_number; [|done|lia|done|lia|].
  - cbn [mbind option_bind]. rewrite Hf. f_equal. apply wrap_s_small; [lia|]. eapply field_s64; [exact Hb|]. apply a_number_range; [lia|]. apply a_field_length; lia.
  - intros E1 E2. rewrite Hf. rewrite E2 in *. by apply allowed_old.
Qed.

Lemma set_field (sign : bool) s offset bits v : Forall is_byte s → 0 ≤ offset → 1 ≤ bits ≤ 64 → offset + bits ≤ 8 * zlen s →
  ∃ s', (if sign then setSignedBitfield else setUnsignedBitfield) s offset bits v = Some s' ∧ Forall is_byte s' ∧ length s' = length s ∧ bits_of s' = a_put (bits_of s) offset bits v.
Proof.
  intros Hs Ho Hb Hl. destruct (set_field_spec (Z.to_nat bits) s offset (if sign then u64 v else v) Hs Ho) as (s' & E & Hs' & Hlen & Hbits); [lia|]. exists s'. split_and!; [by destruct sign|done|done|]. rewrite Hbits, Z2Nat.id by lia. destruct sign; [|done]. unfold a_put. by rewrite field_of_u64 by lia.
Qed.

(** What SET and INCRBY store when there is no limit. *)
Definition op_target (old : Z) (op : bitfieldOp) : Z := if bf_opcode op =? BITFIELDOP_INCRBY then old + bf_i64 op else if bf_sign op then bf_i64 op else u64 (bf_i64 op).

Lemma check_refines l op : op_ok op → bf_opcode op ≠ BITFIELDOP_GET → a_allowed l op = true →
  let old := a_number (bf_sign op) (bf_bits op) (a_field l (bf_offset op) (bf_bits op)) in
  let incr := bf_opcode op =? BITFIELDOP_INCRBY in
  reports (bf_sign op) (bf_bits op) (bf_owtype op) (op_target old op)
    ((if bf_sign op then checkSignedBitfieldOverflow else checkUnsignedBitfieldOverflow) (if incr then old else (if bf_sign op then s64 else u64) (bf_i64 op)) (if incr then bf_i64 op else 0) (bf_bits op) (bf_owtype op)).
Proof.
  intros [Ho Hb Hi How Hop] Hg Ha old incr. assert (field_min (bf_sign op) (bf_bits op) ≤ old ≤ field_max (bf_sign op) (bf_bits op)) as Hold. { apply a_number_range; [lia|]. apply a_field_length; lia. }
  pose proof (field_s64 _ _ _ Hb Hold) as Hold64. unfold op_target. fold incr. unfold a_allowed in Ha. fold old in Ha. destruct (bf_sign op); cbn [negb orb] in Ha.
  - cbn [field_min field_max] in Hold. rewrite (wrap_s_small 64 (bf_i64 op)) by (done || lia). unfold incr. destruct Hop as [Hop|[Hop|Hop]]; [done|rewrite Hop in *; cbn [Z.eqb Pos.eqb BITFIELDOP_SET BITFIELDOP_INCRBY BITFIELDOP_GET negb orb] in *..].
    + replace (bf_i64 op) with (bf_i64 op + 0) at 1 by lia. apply checkSigned_spec; [done|done|unfold in_s; lia| |done|].
      * destruct (Z.eqb_spec (bf_bits op) 64) as [E|E]; [left; rewrite E; done|]. apply Z.ltb_lt in Ha. by right.
      * intros _ _. unfold in_s in Hi. cbn. lia.
    + apply checkSigned_spec; [done|done|done|left; unfold in_s; lia|done|]. intros E How'. rewrite E, How' in Ha. cbn [Z.eqb Pos.eqb BFOVERFLOW_WRAP negb orb] in Ha. apply andb_true_iff in Ha as [Ha1%Z.leb_le Ha2%Z.ltb_lt]. unfold in_s in Hi. cbn [field_min field_max]. lia.
  - cbn [field_min field_max] in Hold. assert (2 ^ bf_bits op ≤ 2 ^ 63) by (apply Z.pow_le_mono_r; lia). unfold incr. destruct (bf_opcode op =? BITFIELDOP_INCRBY).
    + apply checkUnsigned_spec; [lia|unfold in_u; lia|done|left; unfold in_u; lia|done].
    + replace (u64 (bf_i64 op)) with (u64 (bf_i64 op) + 0) at 1 by lia. apply checkUnsigned_spec; [lia|by apply wrap_u_range|unfold in_s; lia|by right|done].
Qed.

Lemma a_fit_in (sign : bool) bits ow v : field_min sign bits ≤ v ≤ field_max sign bits → a_fit sign bits ow v = Some v.
Proof. intros Hv. unfold a_fit. by rewrite (proj2 (Z.leb_le _ _)), (proj2 (Z.leb_le _ _)) by lia. Qed.

Lemma a_fit_out (sign : bool) bits ow v : ¬ (field_min sign bits ≤ v ≤ field_max sign bits) → is_owtype ow → if ow =? BFOVERFLOW_FAIL then a_fit sign bits ow v = None else is_Some (a_fit sign bits ow v).
Proof.
  intros Hv How. unfold a_fit. assert ((field_min sign bits <=? v) && (v <=? field_max sign bits) = false) as ->. { apply not_true_is_false. by rewrite andb_true_iff, !Z.leb_le. } by destruct How as [-> |[-> | ->]]; cbn.
Qed.

(** A number that fits is not changed by its C type. *)
Lemma op_target_fits op old : 1 ≤ bf_bits op ≤ (if bf_sign op then 64 else 63) → in_s 64 (bf_i64 op) → field_min (bf_sign op) (bf_bits op) ≤ op_target old op ≤ field_max (bf_sign op) (bf_bits op) →
  (if bf_opcode op =? BITFIELDOP_INCRBY then (if bf_sign op then s64 else u64) (old + bf_i64 op) else (if bf_sign op then s64 else u64) (bf_i64 op)) = op_target old op.
Proof.
  intros Hb Hi Hf. pose proof (field_s64 _ _ _ Hb Hf) as Hs. unfold op_target in *. destruct (bf_opcode op =? BITFIELDOP_INCRBY), (bf_sign op); [by apply wrap_s_small| |by apply wrap_s_small|done]. apply wrap_u_small. unfold in_u, in_s in *. cbn [field_min] in Hf. lia.
Qed.

Lemma field_write_refines s op : Forall is_byte s → op_ok op → bf_opcode op ≠ BITFIELDOP_GET → bf_offset op + bf_bits op ≤ 8 * zlen s → a_allowed (bits_of s) op = true →
  ∃ s' r, bitfield_write s op = Some (s', r) ∧ a_write (bits_of s) op = (bits_of s', r) ∧ Forall is_byte s' ∧ length s' = length s.
Proof.
  intros Hs Hop Hg Hl Ha. pose proof (check_refines (bits_of s) op Hop Hg Ha) as Hc. destruct Hop as [Ho Hb Hi How _]. assert (1 ≤ bf_bits op ≤ 64) as Hb' by (destruct (bf_sign op); lia). cbv zeta in Hc.
  unfold bitfield_write, a_write. pose proof (allowed_old (bits_of s) op Ha) as H64. rewrite a_field_in in * by (rewrite ?bits_zlen; lia). set (old := a_number (bf_sign op) (bf_bits op) _) in *.
  assert ((if bf_sign op then getSignedBitfield s (bf_offset op) (bf_bits op) else getUnsignedBitfield s (bf_offset op) (bf_bits op)) = Some old) as ->.
  { pose proof (get_number (bf_sign op) s (bf_offset op) (bf_bits op)) as H. destruct (bf_sign op) eqn:Es; (rewrite H; [done|done|lia|done|lia|]); [|done]. intros _ E. rewrite E in *. rewrite a_field_in in H64 by (rewrite ?bits_zlen; lia). by apply H64. }
  assert (field_min (bf_sign op) (bf_bits op) ≤ old ≤ field_max (bf_sign op) (bf_bits op)) as Hold. { apply a_number_range; [lia|]. apply field_at_length; rewrite ?bits_zlen; lia. }
  cbn [mbind option_bind]. destruct Hc as (o & lim & -> & Hfit & Hlim). fold (op_target old op). cbn [mbind option_bind].
  destruct (Z.eqb_spec o 0) as [Eo|Eo]; cbn [negb andb].
  - apply Hfit in Eo. rewrite op_target_fits, a_fit_in by done. cbn [mbind option_bind]. destruct (set_field (bf_sign op) s (bf_offset op) (bf_bits op) (op_target old op)) as (s' & -> & Hs' & Hlen & Hbits); [done|lia..|]. eexists s', _. cbn [mbind option_bind]. split_and!; [done| |done|done]. rewrite Hbits. do 2 f_equal. symmetry. apply wrap_s_small; [lia|]. destruct (_ =? _); by eapply field_s64.
  - specialize (Hlim Eo). assert (¬ (field_min (bf_sign op) (bf_bits op) ≤ op_target old op ≤ field_max (bf_sign op) (bf_bits op))) as Hn by tauto. pose proof (a_fit_out _ _ _ _ Hn How) as Hout. destruct (bf_owtype op =? BFOVERFLOW_FAIL); [exists s, None; by rewrite Hout|].
    destruct Hout as [new Hnew]. rewrite Hlim, Hnew. pose proof (a_fit_range _ _ _ _ _ (proj1 Hb) Hnew) as Hr. cbn [mbind option_bind]. destruct (set_field (bf_sign op) s (bf_offset op) (bf_bits op) new) as (s' & -> & Hs' & Hlen & Hbits); [done|lia..|]. eexists s', _. cbn [mbind option_bind]. split_and!; [done| |done|done]. rewrite Hbits. do 2 f_equal. symmetry. apply wrap_s_small; [lia|]. destruct (_ =? _); by eapply field_s64.
Qed.

(** The string of a key without a value has no bits. *)
Lemma run_refines ops : ∀ s l' rs n, Forall op_ok ops → Forall is_byte (default [] s) → Forall (λ op, bf_opcode op ≠ BITFIELDOP_GET → ∃ t, s = Some t ∧ bf_offset op + bf_bits op ≤ 8 * zlen t) ops →
  a_fields ops (bits_of <$> s) = Some (l', rs, n) → ∃ s', bitfield_run ops s = Some (s', rs, n) ∧ l' = bits_of <$> s' ∧ Forall is_byte (default [] s').
Proof.
  induction ops as [|op ops IH]; intros s l' rs n Hops Hs Hw Ha; cbn [a_fields bitfield_run] in *; [injection Ha as <- <- <-; by exists s|]. apply Forall_cons in Hops as [Hop Hops]. apply Forall_cons in Hw as [Hwop Hw]. assert (default [] (bits_of <$> s) = bits_of (default [] s)) as Ed by by destruct s. rewrite Ed in Ha. destruct (a_allowed _ op) eqn:Eal; [|done]. destruct (Z.eqb_spec (bf_opcode op) BITFIELDOP_GET) as [Eg|Eg].
  - rewrite field_get_refines by done. cbn [mbind option_bind]. destruct (a_fields ops (bits_of <$> s)) as [[[l1 rs1] n1]|] eqn:E; [|done]. cbn [mbind option_bind] in Ha. injection Ha as <- <- <-. destruct (IH _ _ _ _ Hops Hs Hw E) as (s' & -> & -> & Hs'). by exists s'.
  - destruct (Hwop Eg) as (t & -> & Ht). cbn [default] in *. destruct (field_write_refines t op Hs Hop Eg Ht Eal) as (t' & r & Hrun & Habs & Ht' & Hlen). cbn [from_option] in Ha. change (id t) with t in Ha. rewrite Habs in Ha. destruct (a_fields ops (Some (bits_of t'))) as [[[l1 rs1] n1]|] eqn:E; [|done]. cbn [mbind option_bind] in *. injection Ha as <- <- <-. rewrite Hrun. cbn [mbind option_bind].
    destruct (IH (Some t') l1 rs1 n1 Hops Ht') as (s' & -> & -> & Hs'); [|done|by exists s']. eapply Forall_impl; [exact Hw|]. intros op' H' Hne. destruct (H' Hne) as (? & [= <-] & ?). exists t'. split; [done|lia].
Qed.

Lemma bitfield_refines h a key args : related h a → refines (bitfieldCommand h key args) (a_bcommand a (BitField key args)).
Proof.
  intros Hr. unfold bitfieldCommand. cbn [a_bcommand]. unfold a_bitfield. destruct (bitfield_parse_spec (S (length args)) args [] BFOVERFLOW_WRAP true 0) as (p & -> & Hp); [lia|by left|done..|]. cbn [mbind option_bind]. destruct p as [ops readonly highest|e]; [|by apply refines_only]. destruct Hp as (Hh & Hops & Hw).
  set (run := λ s : option bytes, '(s, rs, changes) ← bitfield_run ops s; Some (match s with Some s => <[key := VObj s]> h | None => h end, BInts (zlen ops) rs, if changes =? 0 then [] else [Signal key; Notify "setbit" key], changes) : option bresult). assert (∀ s, Forall is_byte (default [] s) → Forall (λ op, bf_opcode op ≠ BITFIELDOP_GET → ∃ t, s = Some t ∧ bf_offset op + bf_bits op ≤ 8 * zlen t) ops →
    refines (run s) ('(l, rs, n) ← a_fields ops (bits_of <$> s); Some (match l with Some l => <[key := VObj l]> a | None => a end, BInts (zlen ops) rs, if n =? 0 then [] else [Signal key; Notify "setbit" key], n))) as Hrun.
  { intros s Hs Hws. destruct (a_fields ops (bits_of <$> s)) as [[[l rs] n]|] eqn:E; [|done]. destruct (run_refines ops s l rs n Hops Hs Hws E) as (s' & Er & -> & Hs'). unfold run. rewrite Er. cbn [mbind option_bind]. apply cmd_refines_some. destruct s' as [s'|]; [|done]. by apply db_rel_insert. }
  destruct readonly.
  - assert (∀ s, Forall (λ op, bf_opcode op ≠ BITFIELDOP_GET → ∃ t : bytes, s = Some t ∧ bf_offset op + bf_bits op ≤ 8 * zlen t) ops) as Hw'. { intros s. eapply Forall_impl; [exact Hw|]. intros op H Hne. by destruct (H Hne). }
    destruct (db_rel_cases R h a key Hr) as [[-> ->]|[(s & l & -> & -> & Hs & <-)|(v & -> & ->)]]; [by apply (Hrun None)|by apply (Hrun (Some s))|by apply refines_only].
  - destruct (room_refines h a key highest Hr Hh) as [(-> & _ & v & ->)|(s & -> & -> & Hs & Hl & Hv)]; [by apply refines_only|]. destruct (a !! key) as [[l|v]|]; [|by destruct (Hv v)|].
    all: apply (Hrun (Some s)); [done|]; eapply Forall_impl; [exact Hw|]; intros op H Hne; destruct (H Hne); exists s; split; [done|lia].
Qed.

(** ** Sessions *)

Lemma bcommand_refines addr h a cmd : related h a → refines (run_bcommand addr h cmd) (a_bcommand a cmd).
Proof. destruct cmd; [apply setbit_refines|apply getbit_refines|apply bitop_refines|apply bitcount_refines|apply bitpos_refines|apply bitfield_refines]. Qed.

Lemma bcommands_refine addr cmds : ∀ n h a, related h a → ∀ a' rs, a_bcommands a cmds = Some (a', rs) → ∃ h', run_bcommands addr n h cmds = Some (h', rs) ∧ related h' a'.
Proof.
  induction cmds as [|cmd cmds IH]; intros n h a Hr a' rs; cbn [a_bcommands run_bcommands]; [intros [= <- <-]; eauto|]. destruct (a_bcommand a cmd) as [[[[a1 r] ev] d]|] eqn:E; [|done]. cbn [mbind option_bind]. destruct (bcommand_refines (addr n) h a cmd Hr a1 r ev d E) as (h1 & -> & Hr1). cbn [mbind option_bind].
  destruct (a_bcommands a1 cmds) as [[a2 rs2]|] eqn:E2; [|done]. cbn [mbind option_bind]. intros [= <- <-]. destruct (IH (S n) h1 a1 Hr1 a2 rs2 E2) as (h2 & -> & Hr2). eauto.
Qed.

(** The bits of the strings of a database. *)
Definition db_bits (h : bdb) : adb := (λ v, match v with VObj s => VObj (bits_of s) | VOther n => VOther n end) <$> h.

Lemma db_bits_related h : (∀ key s, h !! key = Some (VObj s) → Forall is_byte s) → related h (db_bits h).
Proof. intros Hh key. unfold db_bits. rewrite lookup_fmap. specialize (Hh key). destruct (h !! key) as [[s|n]|]; constructor; [|done]. split; [by apply Hh|done]. Qed.

Lemma related_bits h a : related h a → db_bits h = a.
Proof.
  intros Hr. apply map_eq. intros key. unfold db_bits. rewrite lookup_fmap. destruct (db_rel_cases R h a key Hr) as [[-> ->]|[(s & l & -> & -> & _ & <-)|(v & -> & ->)]]; done.
Qed.

(** Every command but BITFIELD is defined. *)
Lemma a_bcommand_defined a cmd : match cmd with BitField _ _ => False | _ => True end → is_Some (a_bcommand a cmd).
Proof.
  unfold is_Some. destruct cmd; cbn [a_bcommand]; unfold a_num, a_bits, a_only; intros H; try done; repeat case_match; try done; by eexists.
Qed.

(** C17: Strings are arrays of bits, the most significant bit of a byte first.  Any session of SETBIT,
    GETBIT, BITOP, BITCOUNT, BITPOS and BITFIELD, on any strings and wherever they are in memory, runs
    without an access outside of a string, a panic or an undefined shift; it replies, notifies,
    signals and counts changes as the commands on lists of booleans do, for which BITOP is an
    operation on every bit, BITCOUNT counts, BITPOS finds the first bit, and BITFIELD reads and writes
    numbers at any position; and the strings hold these bits at the end.  The commands on booleans are
    defined, but for the fields that BITFIELD cannot handle. *)
Theorem bitmaps_refine_bits (addr_of : nat → bytes → Z) (h : bdb) (cmds : list bcommand) (a : adb) (rs : list (breply * list effect * Z)) :
  (∀ key s, h !! key = Some (VObj s) → Forall is_byte s) →
  a_bcommands (db_bits h) cmds = Some (a, rs) →
  (∃ h', run_bcommands addr_of 0 h cmds = Some (h', rs) ∧ db_bits h' = a ∧ ∀ key s, h' !! key = Some (VObj s) → Forall is_byte s) ∧
  (∀ a cmd, match cmd with BitField _ _ => False | _ => True end → is_Some (a_bcommand a cmd)).
Proof.
  intros Hh Ha. split; [|exact a_bcommand_defined]. destruct (bcommands_refine addr_of cmds 0 h _ (db_bits_related h Hh) a rs Ha) as (h' & Hrun & Hr). exists h'. split_and!; [done|by apply related_bits|]. intros key s Hs. destruct (db_rel_cases R h' a key Hr) as [[E _]|[(o & x & E & _ & Ho & _)|(v & E & _)]]; rewrite Hs in E; [done| |done]. by injection E as <-.
Qed.

(** C12: At any address, redisPopcount is the number of the bits that are set in the bytes, and
    redisBitpos is the position of the first bit with the value that is searched; when there is none it
    is -1, or for a zero the position after the last bit.  Both stay inside of the string. *)
Theorem popcount_bitpos_exact (addr : Z) (s : bytes) (start count bit : Z) :
  Forall is_byte s → 0 ≤ start → 0 ≤ count → start + count ≤ zlen s → bit = 0 ∨ bit = 1 →
  let l := take (Z.to_nat (8 * count)) (drop (Z.to_nat (8 * start)) (bits_of s)) in
  redisPopcount addr s start count = Some (ones l) ∧
  redisBitpos addr s start count bit =
    Some (match first_bit (bit =? 1) l with Some i => Z.of_nat i | None => if bit =? 0 then 8 * count else -1 end).
Proof.
  intros Hs Hst Hc Hl Hb l. assert (l = bits_at s start count) as El. { unfold l, bits_at. rewrite bits_take, bits_drop. do 2 f_equal; [|f_equal]; lia. }
  rewrite El. split; [by apply redisPopcount_spec|]. rewrite redisBitpos_spec by done. unfold found_at. rewrite bits_at_length by done. f_equal. destruct (first_bit _ _); [lia|]. destruct (bit =? 0); lia.
Qed.

(** C22: The overflow checks of BITFIELD are exact on machine integers, under the following
    conditions.  The number to be incremented fits in the field, or the increment is 0 (a SET).
    Unsigned fields have 1 to 63 bits, signed ones 1 to 64.  In a signed field a number that is set has
    a distance to the maximum below 2^63 (for smaller numbers the distance overflows and SAT stores the
    maximum, see [signed_sat_minimum]), and with WRAP the result of an operation on 64 bits is a 64 bit
    integer (otherwise a shift is undefined, see [signed_64_shift]).  Then the checks report 0 exactly
    when the mathematical result is within the range of the field; otherwise the limit is the result
    modulo the width for WRAP, the nearest bound for SAT, and not set for FAIL. *)
Theorem bitfield_overflow_exact (value incr bits ow : Z) :
  in_s 64 incr → ow = BFOVERFLOW_WRAP ∨ ow = BFOVERFLOW_SAT ∨ ow = BFOVERFLOW_FAIL →
  let exact (sign : bool) r := ∃ o lim, r = Some (o, lim) ∧ (o = 0 ↔ field_min sign bits ≤ value + incr ≤ field_max sign bits) ∧ (o ≠ 0 → lim = a_fit sign bits ow (value + incr)) in
  (1 ≤ bits ≤ 63 → in_u 64 value → in_u bits value ∨ incr = 0 → exact false (checkUnsignedBitfieldOverflow value incr bits ow)) ∧
  (1 ≤ bits ≤ 64 → in_s 64 value → in_s bits value ∨ (incr = 0 ∧ field_max true bits - value < 2 ^ 63) → (bits = 64 → ow = BFOVERFLOW_WRAP → in_s 64 (value + incr)) → exact true (checkSignedBitfieldOverflow value incr bits ow)).
Proof.
  intros Hi How exact. split; intros Hb Hv Hc; [by apply checkUnsigned_spec|]. intros Hw. apply checkSigned_spec; [done..|]. intros E1 E2. specialize (Hw E1 E2). unfold in_s in Hw. cbn. lia.
Qed.

(** ** Examples *)

Definition example_bdb : bdb := <[str "s" := VObj (str "foobar")]> {[str "o" := VOther 1]}.

(** A session in which the second BITOP takes the words. *)
Definition example_bits : list bcommand :=
  [SetBit (str "k") (str "7") (str "1"); SetBit (str "k") (str "300") (str "1"); GetBit (str "k") (str "7"); SetBit (str "k") (str "4294967296") (str "1"); BitCount (str "s") []; BitCount (str "s") [str "1"; str "-2"];
   BitPos (str "k") (str "1") [str "1"]; BitPos (str "s") (str "0") []; BitOp (str "NOT") (str "n") [str "s"]; BitOp (str "XOR") (str "x") [str "k"; str "k"]; BitOp (str "or") (str "x") [str "o"];
   BitField (str "f") [str "set"; str "u8"; str "0"; str "255"; str "get"; str "i8"; str "0"; str "incrby"; str "i5"; str "#3"; str "11"; str "incrby"; str "i5"; str "#3"; str "11"];
   BitField (str "f") [str "overflow"; str "sat"; str "incrby"; str "i5"; str "#3"; str "-100"; str "overflow"; str "fail"; str "incrby"; str "u8"; str "0"; str "1"; str "get"; str "i64"; str "200"];
   BitField (str "f") [str "get"; str "u64"; str "0"]].

Definition example_bit_replies : list breply :=
  [BReply (RInt 0); BReply (RInt 0); BReply (RInt 1); BReply biterr; BReply (RInt 26); BReply (RInt 18);
   BReply (RInt 300); BReply (RInt 0); BReply (RInt 6); BReply (RInt 38); BReply wrongtypeerr;
   BInts 4 [Some 0; Some (-1); Some 11; Some (-10)]; BInts 3 [Some (-16); None; Some 0]; BReply typeerr].

Lemma bitmaps_refine_bits_witness :
  ∃ h' rs, run_bcommands (λ n _, Z.of_nat n) 0 example_bdb example_bits = Some (h', rs) ∧ rs.*1.*1 = example_bit_replies ∧ h' !! str "n" = Some (VObj [0x99; 0x90; 0x90; 0x9D; 0x9E; 0x8D]) ∧ Some (db_bits h') = fst <$> a_bcommands (db_bits example_bdb) example_bits.
Proof.
  assert ((λ x, x.2.*1.*1) <$> a_bcommands (db_bits example_bdb) example_bits = Some example_bit_replies) as Er by (vm_compute; reflexivity).
  assert ((λ x, x.1 !! str "n") <$> run_bcommands (λ n _, Z.of_nat n) 0 example_bdb example_bits = Some (Some (VObj [0x99; 0x90; 0x90; 0x9D; 0x9E; 0x8D]))) as En by (vm_compute; reflexivity).
  apply fmap_Some in Er as ([a rs] & Ea & Er). apply fmap_Some in En as ([h1 rs1] & Erun & En). cbn [fst snd] in Er, En.
  destruct (bitmaps_refine_bits (λ n _, Z.of_nat n) example_bdb example_bits a rs) as [(h' & Hrun & Hbits & _) _].
  - intros key s. unfold example_bdb. intros [[_ E]|[_ E]]%lookup_insert_Some; [injection E as <-; bytes_solve|]. by apply lookup_singleton_Some in E as [_ E].
  - exact Ea.
  - exists h', rs. split; [exact Hrun|]. split; [by rewrite Er|]. rewrite Erun in Hrun. injection Hrun as <- <-. split; [by rewrite En|]. rewrite Ea, Hbits. reflexivity.
Defined.

Lemma popcount_bitpos_exact_witness : redisPopcount 1 (str "foobar") 1 5 = Some 22 ∧ redisBitpos 1 (str "foobar") 1 5 0 = Some 0.
Proof.
  destruct (popcount_bitpos_exact 1 (str "foobar") 1 5 0) as [H1 H2]; [bytes_solve|lia|lia|vm_compute; discriminate|by left|]. rewrite H1, H2. split; vm_compute; reflexivity.
Defined.

Lemma bitfield_overflow_exact_witness : ∃ lim, checkSignedBitfieldOverflow 127 1 8 BFOVERFLOW_WRAP = Some lim ∧ lim.2 = Some (-128).
Proof.
  destruct (bitfield_overflow_exact 127 1 8 BFOVERFLOW_WRAP) as [_ H]; [split; vm_compute; discriminate || reflexivity|by left|]. destruct H as (o & lim & -> & Ho & Hl); [lia|split; vm_compute; discriminate || reflexivity|left; split; vm_compute; discriminate || reflexivity|discriminate|].
  exists (o, lim). split; [done|]. cbn. rewrite Hl; [vm_compute; reflexivity|]. intros E. apply Ho in E. destruct E as [_ E]. vm_compute in E. by apply E.
Defined.

(** *** Numbers that BITFIELD does not handle *)

(** Reading a negative number of 64 bits shifts by 64, and so does a WRAP of such a field. *)
Lemma signed_64_shift : getSignedBitfield (replicate 8 255) 0 64 = None ∧ checkSignedBitfieldOverflow (2 ^ 63 - 1) 1 64 BFOVERFLOW_WRAP = None.
Proof. split; vm_compute; reflexivity. Qed.

(** The smallest integer is stored as the largest one of the field. *)
Lemma signed_sat_minimum : checkSignedBitfieldOverflow (- 2 ^ 63) 0 8 BFOVERFLOW_SAT = Some (1, Some 127).
Proof. vm_compute. reflexivity. Qed.

(** An underflow that wraps around is reported as an overflow. *)
Lemma underflow_wrap_result : checkSignedBitfieldOverflow (-128) (-1) 8 BFOVERFLOW_WRAP = Some (1, Some 127) ∧ checkUnsignedBitfieldOverflow 0 (-1) 8 BFOVERFLOW_WRAP = Some (1, Some 255).
Proof. split; vm_compute; reflexivity. Qed.

(** An offset of 2^64 bits is accepted as the offset 0. *)
Lemma offset_product_wraps : getBitOffsetFromArgument (str "#288230376151711744") true 64 = Some (Some 0).
Proof. vm_compute. reflexivity. Qed.

(** A write at the last offset needs a byte after the first 512 MB. *)
Lemma bitfield_past_limit : bitfield_parse 5 [str "set"; str "u8"; str "4294967295"; str "1"] [] BFOVERFLOW_WRAP true 0 = Some (BfOps [BitfieldOp 4294967295 1 BITFIELDOP_SET BFOVERFLOW_WRAP 8 false] false (8 * (512 * 1024 * 1024) + 6)).
Proof. vm_compute. reflexivity. Qed.
