(* ===== verification/DictIter.v ===== *)
(** Iterators over hash tables (dict.c: [dictGetIterator], [dictNext]): a walk over a table
    that is not modified visits every entry once.  The fingerprint with which an unsafe
    iterator detects modifications is not part of the model. *)

From stdpp Require Import list gmap.
From S2P Require Import Prelude Dict.

Section Iter.
Context {K V : Type}.

(** [entry] is NULL, or an entry with [nextEntry], the rest of its chain. *)
Record dictIterator := DictIterator {
  it_table : bool;
  it_index : Z;
  it_entry : option (list (K * V));
}.

Definition dictGetIterator : dictIterator := DictIterator false (-1) None.

(** The loop of [dictNext]; the result is [None] at the end. *)
Fixpoint dictNext_loop (fuel : nat) (d : dict K V) (it : dictIterator) : option (dictIterator * option (K * V)) :=
  match fuel with
  | O => None
  | S fuel =>
      let visit t i (chain : list (K * V)) :=
        match chain with
        | e :: l => Some (DictIterator t i (Some l), Some e)
        | [] => dictNext_loop fuel d (DictIterator t i None)
        end in
      match it_entry it with
      | Some l => visit (it_table it) (it_index it) l
      | None =>
          let index := it_index it + 1 in
          if htsize (ht (it_table it) d) <=? index then
            if dictIsRehashing d && negb (it_table it) then
              chain ← get_bucket (ht1 d) 0; visit true 0 chain
            else Some (DictIterator (it_table it) index None, None)
          else
            chain ← get_bucket (ht (it_table it) d) index; visit (it_table it) index chain
      end
  end.

(** Every iteration but the first goes to another bucket. *)
Definition dictNext (d : dict K V) (it : dictIterator) : option (dictIterator * option (K * V)) :=
  dictNext_loop (Z.to_nat (dictSlots d) + 5) d it.

(** ** The entries ahead *)

Context `{Countable K} (ty : dictType K).

Implicit Types (d : dict K V) (it : dictIterator).

Definition buckets d (t : bool) : list (list (K * V)) := default [] (table (ht t d)).

Lemma buckets_ok d t :
  dict_shape ty d → zlen (buckets d t) = htsize (ht t d) ∧ ∀ i, 0 ≤ i < htsize (ht t d) → get_bucket (ht t d) i = buckets d t !! Z.to_nat i.
Proof.
  intros Hs. assert (ht t d = dictReset ∨ ∃ tbl, ht_ok ty (ht t d) tbl) as [E|[tbl Hok]].
  { destruct Hs as [_ E0 E1|tbl _ Hok E1|tbl0 tbl1 _ H0 H1 _]; destruct t; cbn [ht]; eauto. }
  - unfold buckets. rewrite E. split; [done|]. cbn. intros i Hi. lia.
  - unfold buckets, get_bucket. rewrite (ok_table _ _ _ Hok). cbn [default from_option id mbind option_bind]. split; [apply (ok_size _ _ _ Hok)|].
    intros i Hi. by rewrite decide_True by lia.
Qed.

Definition ahead d it : list (K * V) :=
  default [] (it_entry it) ++ mjoin (drop (Z.to_nat (it_index it + 1)) (buckets d (it_table it))) ++
    (if it_table it then [] else mjoin (buckets d true)).

Definition it_ok it : Prop := -1 ≤ it_index it ∧ (it_table it = true → 0 ≤ it_index it).

(** The buckets ahead. *)
Definition left d it : Z :=
  Z.max 0 (htsize (ht (it_table it) d) - it_index it) + (if it_table it then 1 else htsize (ht1 d) + 2) + (match it_entry it with Some _ => 1 | None => 0 end).

Lemma dictNext_loop_spec d fuel it :
  dict_shape ty d → it_ok it → left d it < Z.of_nat fuel →
  ∃ it', dictNext_loop fuel d it = Some (it', head (ahead d it)) ∧ it_ok it' ∧ ahead d it' = tail (ahead d it).
Proof.
  intros Hs. revert it. induction fuel as [|fuel IH]; intros it Hok Hl.
  { exfalso. unfold left, it_ok in *. destruct (buckets_ok d true Hs) as [Hb1 _]. cbn [ht] in Hb1. destruct (it_table it), (it_entry it); cbn in *; lia. }
  destruct (buckets_ok d (it_table it) Hs) as [Hlen Hget]. destruct (buckets_ok d true Hs) as [Hlen1 Hget1]. destruct it as [t i e]. unfold it_ok, left in *. cbn [it_table it_index it_entry] in *.
  assert (∀ t' i' chain, it_ok (DictIterator t' i' None) → left d (DictIterator t' i' None) < Z.of_nat fuel →
    ∃ it', match chain with e :: l => Some (DictIterator t' i' (Some l), Some e) | [] => dictNext_loop fuel d (DictIterator t' i' None) end =
      Some (it', head (chain ++ ahead d (DictIterator t' i' None))) ∧ it_ok it' ∧ ahead d it' = tail (chain ++ ahead d (DictIterator t' i' None))) as Hvisit.
  { intros t' i' chain Hok' Hl'. destruct chain as [|x l]; [by apply IH|]. eexists. split; [done|]. split; [done|]. unfold ahead. cbn. done. }
  cbn [dictNext_loop it_table it_index it_entry]. destruct e as [l|].
  - apply (Hvisit t i l); [done|]. unfold left. cbn [it_table it_index it_entry]. lia.
  - destruct (Z.leb_spec (htsize (ht t d)) (i + 1)) as [Hend|Hin].
    + assert (mjoin (drop (Z.to_nat (i + 1)) (buckets d t)) = []) as Hnil by (rewrite drop_ge by lia; done).
      destruct (dictIsRehashing d && negb t) eqn:Er.
      * apply andb_true_iff in Er as [Er Et]. destruct t; [done|]. destruct (isRehashing_shape ty d Hs Er) as (u0 & u1 & _ & _ & H1 & _).
        assert (0 < htsize (ht1 d)) as Hpos by (destruct (ok_pow _ _ _ H1) as (n & _ & ->); lia). cbn [ht] in Hget1, Hlen1.
        rewrite (Hget1 0) by lia. destruct (buckets d true) as [|b bs] eqn:Eb; [simpl in Hlen1; lia|]. change ((b :: bs) !! Z.to_nat 0) with (Some b). cbn [mbind option_bind].
        destruct (Hvisit true 0 b) as (it' & -> & Hok' & Ha); [unfold it_ok; cbn; lia|unfold left; cbn [it_table it_index it_entry ht]; lia|].
        exists it'. assert (ahead d (DictIterator false i None) = b ++ ahead d (DictIterator true 0 None)) as ->; [|done].
        unfold ahead. cbn [it_table it_index it_entry default from_option id app]. rewrite Hnil, Eb. change (Z.to_nat (0 + 1)) with 1%nat.
        cbn [app drop]. by rewrite app_nil_r.
      * eexists. split; [|split].
        -- unfold ahead. cbn [it_table it_index it_entry default from_option id app]. rewrite Hnil. cbn [app]. do 2 f_equal.
           destruct t; [done|]. rewrite andb_true_r in Er. unfold buckets. destruct Hs as [_ _ E1|tbl _ _ E1|tbl0 tbl1 Hr _ _ _]; [cbn [ht]; by rewrite E1..|].
           unfold dictIsRehashing in Er. lia.
        -- unfold it_ok. cbn. destruct Hok as [? Ht]. split; [lia|]. intros ->. specialize (Ht eq_refl). lia.
        -- unfold ahead. cbn [it_table it_index it_entry default from_option id app]. rewrite Hnil. rewrite drop_ge by lia. cbn [mjoin list_join app].
           destruct t; [done|]. rewrite andb_true_r in Er. unfold buckets. destruct Hs as [_ _ E1|tbl _ _ E1|tbl0 tbl1 Hr _ _ _]; [cbn [ht]; by rewrite E1..|].
           unfold dictIsRehashing in Er. lia.
    + rewrite Hget by lia. destruct (lookup_lt_is_Some_2 (buckets d t) (Z.to_nat (i + 1))) as [b Hb]; [lia|]. rewrite Hb. cbn [mbind option_bind].
      destruct (Hvisit t (i + 1) b) as (it' & -> & Hok' & Ha); [unfold it_ok; cbn; split; [lia|]; intros ->; destruct Hok; lia|unfold left; cbn [it_table it_index it_entry]; lia|].
      exists it'. assert (ahead d (DictIterator t i None) = b ++ ahead d (DictIterator t (i + 1) None)) as ->; [|done].
      unfold ahead. cbn [it_table it_index it_entry default from_option id app]. rewrite (drop_S _ b) by done. cbn [mjoin list_join].
      replace (S (Z.to_nat (i + 1))) with (Z.to_nat (i + 1 + 1)) by lia. by rewrite (assoc_L (++)).
Qed.

Lemma dictNext_spec d it :
  dict_shape ty d → it_ok it → ∃ it', dictNext d it = Some (it', head (ahead d it)) ∧ it_ok it' ∧ ahead d it' = tail (ahead d it).
Proof.
  intros Hs Hok. apply dictNext_loop_spec; [done|done|]. destruct (buckets_ok d false Hs) as [H0 _]. destruct (buckets_ok d true Hs) as [H1 _].
  unfold left, it_ok, dictSlots in *. cbn [ht] in *. destruct (it_table it), (it_entry it); cbn [ht] in *; lia.
Qed.

Lemma ahead_start d : ahead d dictGetIterator = entries d ∧ (dict_shape ty d → it_ok dictGetIterator).
Proof.
  split; [done|]. intros Hs. unfold it_ok. cbn. destruct (buckets_ok d false Hs) as [H0 _]. cbn [ht] in H0. lia.
Qed.

End Iter.

Arguments dictIterator : clear implicits.
