(* ===== verification/PackedList.v ===== *)
(** What the types of values use of ziplist.c: a list of strings in one block, with pointers
    to its entries.  The clients are written and proved against this interface; ziplists are
    an instance of it. *)

From stdpp Require Import list numbers strings gmap.
From S2P Require Import Prelude Util SdsText Ziplist ZiplistEntry ZiplistList ZiplistRefine.

Class PackedList (T : Type) := {
  pl_new : option T;
  pl_push : T → list Z → Z → option T;
  pl_index : T → Z → option (option Z);
  pl_find : T → Z → list Z → Z → option (option Z);
  pl_next : T → Z → option (option Z);
  pl_prev : T → Z → option (option Z);
  pl_get : T → option Z → option (option (list Z + Z));
  pl_compare : T → Z → list Z → option bool;
  pl_delete : T → Z → option (T * Z);
  pl_delete_range : T → Z → Z → option T;
  pl_insert : T → Z → list Z → option T;
  pl_len : T → option (T * Z);
}.

(** [pl_rep t l]: the block holds [l]; [pl_at t l k p]: moreover [p] points to its [k]th
    entry, or to the end.  A reader gets the text of a string or the integer it denotes. *)
Class PackedListLaws (T : Type) `{PackedList T} := {
  pl_rep : T → list (list Z) → Prop;
  pl_at : T → list (list Z) → nat → Z → Prop;
  pl_at_rep t l k p : pl_at t l k p → pl_rep t l;
  pl_new_law : ∃ t, pl_new = Some t ∧ pl_rep t [];
  pl_push_law t l s :
    pl_rep t l → csize (s :: l) < 2 ^ 32 → ∃ t', pl_push t s ZIPLIST_TAIL = Some t' ∧ pl_rep t' (l ++ [s]);
  pl_index_law t l i :
    pl_rep t l → - 2 ^ 31 < i → ∃ q, pl_index t i = Some q ∧
      match q with Some p => ∃ k, a_index (length l) i = Some k ∧ (k < length l)%nat ∧ pl_at t l k p | None => a_index (length l) i = None end;
  pl_find_law t l p s :
    pl_at t l 0 p → ∃ q, pl_find t p s 1 = Some q ∧
      match q with Some p => ∃ k, a_find l s 1 0 0 = Some k ∧ pl_at t l k p | None => a_find l s 1 0 0 = None end;
  pl_next_law t l k p :
    pl_at t l k p → ∃ q, pl_next t p = Some q ∧
      match q with Some q => (S k < length l)%nat ∧ pl_at t l (S k) q | None => l !! S k = None end;
  pl_prev_law t l k p :
    pl_at t l k p → ∃ q, pl_prev t p = Some q ∧ match q with Some q => ∃ j, k = S j ∧ pl_at t l j q | None => k = 0%nat end;
  pl_compare_law t l k p s s' : pl_at t l k p → l !! k = Some s → pl_compare t p s' = Some (bool_decide (s = s'));
  pl_get_law t l k p s :
    pl_at t l k p → l !! k = Some s → ∃ v, pl_get t (Some p) = Some (Some v) ∧ text v = Some s ∧
      (∀ z, v = inr z → canonical s z ∧ in_s 64 z) ∧ (∀ s', v = inl s' → s' = s);
  pl_delete_law t l k p :
    pl_at t l k p → (k < length l)%nat → ∃ t', pl_delete t p = Some (t', p) ∧ pl_at t' (take k l ++ drop (S k) l) k p;
  pl_delete_range_law t l i num :
    pl_rep t l → 0 ≤ i → 0 ≤ num → ∃ t', pl_delete_range t i num = Some t' ∧ pl_rep t' (take (Z.to_nat i) l ++ drop (Z.to_nat (i + num)) l);
  pl_insert_law t l k p s :
    pl_at t l k p → csize (s :: l) < 2 ^ 32 → ∃ t', pl_insert t p s = Some t' ∧ pl_at t' (take k l ++ s :: drop k l) k p;
  pl_len_law t l : pl_rep t l → ∃ t', pl_len t = Some (t', zlen l) ∧ pl_rep t' l;
}.

(** The first entry. *)
Lemma pl_head_law `{PackedListLaws T} (t : T) l :
  pl_rep t l → ∃ q, pl_index t 0 = Some q ∧ match q with Some p => l ≠ [] ∧ pl_at t l 0 p | None => l = [] end.
Proof.
  intros Hr. destruct (pl_index_law t l 0 Hr) as (q & Hq & Hm); [lia|]. exists q. split; [done|]. unfold a_index in Hm. cbn [Z.ltb Z.compare] in Hm. destruct q as [p|].
  - destruct Hm as (k & Hk & Hlt & Hp). destruct (0 <? zlen l); [|done]. injection Hk as <-. split; [intros ->; cbn in Hlt; lia|done].
  - destruct (Z.ltb_spec 0 (zlen l)); [done|]. by destruct l; [|simpl in *; lia].
Qed.

(** ** Pairs of strings *)

(** A list of pairs, one entry after the other. *)
Definition unpair (ps : list (bytes * bytes)) : list bytes := ps ≫= λ p, [p.1; p.2].

Lemma unpair_cons p ps : unpair (p :: ps) = p.1 :: p.2 :: unpair ps.
Proof. done. Qed.

Lemma unpair_app ps1 ps2 : unpair (ps1 ++ ps2) = unpair ps1 ++ unpair ps2.
Proof. apply bind_app. Qed.

Lemma unpair_length ps : length (unpair ps) = (2 * length ps)%nat.
Proof. induction ps as [|p ps IH]; [done|]. rewrite unpair_cons. cbn [length]. lia. Qed.

Lemma unpair_lookup ps1 f v ps2 :
  unpair (ps1 ++ (f, v) :: ps2) !! (2 * length ps1)%nat = Some f ∧ unpair (ps1 ++ (f, v) :: ps2) !! S (2 * length ps1) = Some v.
Proof.
  rewrite unpair_app, unpair_cons. split; rewrite lookup_app_r; rewrite unpair_length; try lia.
  - by rewrite Nat.sub_diag.
  - by replace (S (2 * length ps1) - 2 * length ps1)%nat with 1%nat by lia.
Qed.

Lemma take_unpair ps1 l : take (2 * length ps1) (unpair ps1 ++ l) = unpair ps1.
Proof. rewrite <-unpair_length. apply take_app_length. Qed.

Lemma drop_unpair ps1 l k : drop (2 * length ps1 + k) (unpair ps1 ++ l) = drop k l.
Proof. rewrite <-unpair_length. by rewrite <-drop_drop, drop_app_length. Qed.

#[export] Instance unpair_proper : Proper ((≡ₚ) ==> (≡ₚ)) unpair.
Proof. intros ps ps' Hp. unfold unpair. by rewrite Hp. Qed.

#[export] Instance csize_proper : Proper ((≡ₚ) ==> (=)) csize.
Proof. induction 1 as [|s l l' _ IH|s s' l|l1 l2 l3 _ IH1 _ IH2]; rewrite ?csize_cons; lia. Qed.

(** What a reader gets of a string that is stored. *)
Definition reads (v : bytes + Z) (s : bytes) : Prop :=
  text v = Some s ∧ (∀ z, v = inr z → canonical s z ∧ in_s 64 z) ∧ (∀ s', v = inl s' → s' = s).

Lemma reads_inl s : reads (inl s) s.
Proof. split; [done|]. split; [done|]. by intros s' [= ->]. Qed.

Section Entries.

Context {T : Type} `{PackedListLaws T}.

Implicit Types (zl : T).

Lemma pl_next_at zl l k p s :
  pl_at zl l k p → l !! S k = Some s → ∃ q, pl_next zl p = Some (Some q) ∧ pl_at zl l (S k) q.
Proof.
  intros Hp Hs. destruct (pl_next_law zl l k p Hp) as (q & Hq & Hm). destruct q as [q|]; [|congruence]. destruct Hm as [_ Hm]. by exists q.
Qed.

Lemma pl_get_at zl l k p s : pl_at zl l k p → l !! k = Some s → ∃ v, pl_get zl (Some p) = Some (Some v) ∧ reads v s.
Proof. intros Hp Hs. destruct (pl_get_law zl l k p s Hp Hs) as (v & Hv & Hr). by exists v. Qed.

End Entries.

(** ** Ziplists *)

Section Instance_.

Context (junk : nat → Z).

#[export] Instance ziplist_packed : PackedList (list Z) := {
  pl_new := ziplistNew junk;
  pl_push := ziplistPush junk;
  pl_index := ziplistIndex;
  pl_find := ziplistFind;
  pl_next := ziplistNext;
  pl_prev := ziplistPrev;
  pl_get := ziplistGet;
  pl_compare := ziplistCompare;
  pl_delete := ziplistDelete junk;
  pl_delete_range := ziplistDeleteRange junk;
  pl_insert := ziplistInsert junk;
  pl_len := ziplistLen;
}.

#[export, program] Instance ziplist_packed_laws : PackedListLaws (list Z) := {
  pl_rep := zrep;
  pl_at := points;
}.
Next Obligation. exact points_zrep. Qed.
Next Obligation. apply zrep_new. Qed.
Next Obligation. intros t l s Hr Hc. by apply (zrep_push junk t l s ZIPLIST_TAIL). Qed.
Next Obligation. exact zrep_index. Qed.
Next Obligation.
  intros t l p s Hp. assert (p = ZIPLIST_ENTRY_HEAD) as -> by by destruct Hp as (es & n & _ & _ & _ & _ & _ & _ & ->).
  destruct (zrep_find t l s 1) as (q & Hq & Hm); [by eapply points_zrep|unfold in_s; lia|]. exists q. split; [done|]. destruct q as [q|]; [|done].
  destruct Hm as (k & ? & _ & ?). by exists k.
Qed.
Next Obligation. exact points_next. Qed.
Next Obligation. exact points_prev. Qed.
Next Obligation. intros t l k p s s' Hp Hs. by eapply points_compare. Qed.
Next Obligation.
  intros t l k p s Hp Hs. exists (stored s). cbn [pl_get ziplist_packed]. rewrite (points_get t l k p Hp), Hs. split; [done|]. split; [apply text_stored|]. unfold stored.
  split; [intros z|intros s']; destruct (try_int s) as [v|] eqn:E; try done; intros [= <-]; [|done]. by apply try_int_Some.
Qed.
Next Obligation.
  intros t l k p Hp Hk. cbn [pl_delete ziplist_packed]. unfold ziplistDelete. destruct (zrep_delete junk t l k p 1 Hp Hk) as (t' & -> & Hp'); [lia|].
  exists t'. split; [done|]. change (Z.to_nat 1) with 1%nat in Hp'. by rewrite Nat.add_1_r in Hp'.
Qed.
Next Obligation. apply zrep_delete_range. Qed.
Next Obligation. apply points_insert. Qed.
Next Obligation. exact zrep_len. Qed.

End Instance_.
