(* ===== verification/Double.v ===== *)
(** Doubles as texts: [d2string] (util.c), [getDoubleFromObject] (object.c) and
    [addReplyDouble] (networking.c).

    The type of doubles is a parameter.  A number is not NaN; a double that may be NaN is an
    [option], with [None] for NaN.  What the functions use of the machine and of the C library
    is a class of operations, and what the server relies on is the class of its laws: a number
    that is printed with 17 significant digits is read back. *)

From stdpp Require Import list numbers strings.
From S2P Require Import Prelude Util Glob SdsText Object Ziplist ZiplistEntry ZiplistRefine PackedList.

Class DoubleOps (Sc : Type) := {
  isinf : Sc → option bool;  (** for an infinity, whether it is negative *)
  iszero : Sc → option bool;  (** for a zero, whether it is negative *)
  safe_ll : Sc → option Z;  (** [(long long)value], when [value] is between [min] and [max] of [d2string] and is the same number *)
  of_ll : Z → Sc;  (** the conversion of a [long long] *)
  fmt17 : Sc → bytes;  (** the format [%.17g] *)
  strtod : bytes → option Sc * Z * bool;  (** the value, the number of bytes that are used, and whether [errno] is ERANGE *)
}.

Class DoubleLaws (Sc : Type) `{DoubleOps Sc} : Prop := {
  isinf_law s neg : isinf s = Some neg → (strtod (str (if neg then "-inf" else "inf"))).1.1 = Some s;
  iszero_law s neg : iszero s = Some neg → (strtod (str (if neg then "-0" else "0"))).1.1 = Some s ∧ (neg = false → of_ll 0 = s);
  safe_ll_law s z : safe_ll s = Some z → -4503599627370495 < z < 4503599627370496 ∧ of_ll z = s ∧ (strtod (of_int z)).1.1 = Some s;
  fmt17_law s : isinf s = None → (strtod (fmt17 s)).1.1 = Some s ∧ zlen (fmt17 s) < 128;
  (** a text of digits only is also read as an integer *)
  fmt17_int_law s z : isinf s = None → canonical (fmt17 s) z → in_s 64 z → of_ll z = s;
}.

Section Double.

Context (junk : nat → Z) {Sc : Type} `{!DoubleOps Sc}.

(** [snprintf] into a buffer of [len] bytes that is then read: the text and its terminator must
    fit. *)
Definition snprintf_text (len : Z) (t : bytes) : option bytes := if zlen t <? len then Some t else None.

Definition d2string (len : Z) (value : option Sc) : option bytes :=
  match value with
  | None => snprintf_text len (str "nan")
  | Some value =>
      match isinf value with
      | Some neg => snprintf_text len (str (if neg then "-inf" else "inf"))
      | None =>
          match iszero value with
          | Some neg => snprintf_text len (str (if neg then "-0" else "0"))
          | None =>
              match safe_ll value with
              | Some n => ll_text junk len n
              | None => snprintf_text len (fmt17 value)
              end
          end
      end
  end.

(** A number from a string; [None]: C_ERR. *)
Definition getDoubleFromObject (s : bytes) : option Sc :=
  let '(value, used, erange) := strtod s in
  match value with
  | None => None
  | Some v =>
      if (zlen s =? 0) || isspace (default 0 (head s)) || negb (used =? zlen s) || (erange && (bool_decide (is_Some (isinf v)) || bool_decide (is_Some (iszero v)))) then None
      else Some v
  end.

Definition addReplyDouble (d : Sc) : option reply :=
  match isinf d with
  | Some neg => Some (RBulk (str (if neg then "-inf" else "inf")))
  | None => t ← snprintf_text 128 (fmt17 d); Some (RBulk t)
  end.

End Double.

(** ** Reading back *)

(** What a packed list returns of a text: [None] stands for a text that is too long for the
    reader's buffer. *)
Definition read_double `{DoubleOps Sc} (v : bytes + Z) : option Sc :=
  match v with
  | inl s => if zlen s <? 128 then (strtod s).1.1 else None
  | inr n => Some (of_ll n)
  end.

Section Laws.

Context (junk : nat → Z) {Sc : Type} `{DoubleLaws Sc}.

(** The text of a number. *)
Definition double_text (s : Sc) : bytes := default [] (d2string junk 128 (Some s)).

Lemma canonical_to_int s z : canonical s z → in_s 64 z → to_int s = Some z.
Proof. intros Hc Hz. by apply to_int_spec. Qed.

Lemma double_text_spec s :
  d2string junk 128 (Some s) = Some (double_text s) ∧ zlen (double_text s) < 128 ∧ (strtod (double_text s)).1.1 = Some s ∧
  (∀ z, canonical (double_text s) z → in_s 64 z → of_ll z = s).
Proof.
  unfold double_text, d2string, snprintf_text. destruct (isinf s) as [neg|] eqn:Ei.
  { pose proof (isinf_law s neg Ei). destruct neg; (split_and!; [done|done|done|]); intros z Hc Hz; by pose proof (canonical_to_int _ z Hc Hz). }
  destruct (iszero s) as [neg|] eqn:Ez.
  { pose proof (iszero_law s neg Ez) as [H1 H2]. destruct neg; (split_and!; [done|done|done|]); intros z Hc Hz; [by pose proof (canonical_to_int _ z Hc Hz)|].
    pose proof (canonical_to_int _ z Hc Hz) as E. vm_compute in E. injection E as <-. by apply H2. }
  destruct (safe_ll s) as [n|] eqn:En.
  { destruct (safe_ll_law s n En) as (Hn & Hof & Hs). assert (in_s 64 n) as Hn64 by (unfold in_s; lia). rewrite ll_text_spec by (done || lia). cbn [default from_option id]. split_and!; [done| |done|].
    - pose proof (of_int_eq n Hn64) as [_ Hc]. pose proof (canonical_length _ _ Hc Hn64). lia.
    - intros z Hc Hz. pose proof (canonical_to_int _ z Hc Hz) as E. rewrite to_of_int in E by done. by injection E as <-. }
  destruct (fmt17_law s Ei) as [H1 H2]. rewrite (proj2 (Z.ltb_lt _ _)) by done. cbn [default from_option id]. split_and!; [done|done|done|]. intros z. by apply fmt17_int_law.
Qed.

(** A score that is stored is read back. *)
Lemma read_double_text v s : reads v (double_text s) → read_double v = Some s.
Proof.
  destruct (double_text_spec s) as (_ & Hl & Hs & Hz). intros (_ & H1 & H2). destruct v as [t|z]; cbn [read_double].
  - rewrite (H2 t eq_refl), (proj2 (Z.ltb_lt _ _)) by done. done.
  - destruct (H1 z eq_refl) as [Hc Hin]. by rewrite (Hz z).
Qed.

Lemma addReplyDouble_spec s : addReplyDouble s = Some (RBulk (match isinf s with Some neg => str (if neg then "-inf" else "inf") | None => fmt17 s end)).
Proof.
  unfold addReplyDouble, snprintf_text. destruct (isinf s) as [neg|] eqn:Ei; [done|]. destruct (fmt17_law s Ei) as [_ H2]. by rewrite (proj2 (Z.ltb_lt _ _)).
Qed.

End Laws.
