(* ===== verification/ZsetZiplist.v ===== *)
(** Sorted sets in one ziplist (t_zset.c): the elements in the order of the set, each followed
    by the text of its score.

    The functions are over the interface [PackedList].  A pointer into the list is an [option],
    with [None] for NULL, where the code tests it.  [None] as a result is a failed assertion, an
    access outside of memory or a loop that has used up its fuel, which is the number of entries
    of the list and one more.  The elements of a range are collected with their scores, of which
    the commands reply what they are asked for. *)

From stdpp Require Import list numbers strings gmap.
From S2P Require Import Prelude Util Glob SdsText Object Ziplist PackedList Skiplist SkiplistRange Double.

Section Zzl.

Context (junk : nat → Z) {T : Type} `{!PackedList T} {Sc : Type} `{!ScoreOrder Sc} `{!DoubleOps Sc}.

Implicit Types (zl : T).

Definition zl_fuel zl : nat := match pl_len zl with Some (_, n) => S (Z.to_nat n) | None => O end.

(** [ziplistGet] of an entry that must exist. *)
Definition get_entry zl (p : Z) : option (bytes + Z) := v ← pl_get zl (Some p); v.

(** A string that is read is copied into a buffer of 128 bytes. *)
Definition zzlGetScore zl (sptr : Z) : option Sc := v ← get_entry zl sptr; read_double v.

Definition ziplistGetObject zl (sptr : Z) : option bytes := v ← get_entry zl sptr; text v.

Definition zzlCompareElements zl (eptr : Z) (cstr : bytes) : option Z :=
  v ← get_entry zl eptr;
  vstr ← match v with inl s => Some s | inr vlong => ll_text junk 32 vlong end;
  let vlen := zlen vstr in
  let clen := zlen cstr in
  let minlen := if vlen <? clen then vlen else clen in
  let cmp := memcmp (take (Z.to_nat minlen) vstr) (take (Z.to_nat minlen) cstr) in
  Some (if cmp =? 0 then s32 (u32 (vlen - clen)) else cmp).

Definition zzlLength zl : option (T * Z) := '(zl, n) ← pl_len zl; Some (zl, n / 2).

(** An entry that must exist after another one. *)
Definition must_next zl (p : Z) : option Z := q ← pl_next zl p; q.

(** The pointers to an element and to its score. *)
Definition zzlNext zl (sptr : Z) : option (option (Z * Z)) :=
  eptr ← pl_next zl sptr;
  match eptr with Some eptr => sptr ← must_next zl eptr; Some (Some (eptr, sptr)) | None => Some None end.

Definition zzlPrev zl (eptr : Z) : option (option (Z * Z)) :=
  sptr ← pl_prev zl eptr;
  match sptr with Some sptr => eptr ← pl_prev zl sptr; eptr ← eptr; Some (Some (eptr, sptr)) | None => Some None end.

(** ** Ranges *)

Definition zzlIsInRange zl (r : zrangespec Sc) : option bool :=
  if sgt (rmin r) (rmax r) || (seqb (rmin r) (rmax r) && (minex r || maxex r)) then Some false
  else
    p ← pl_index zl (-1);
    match p with
    | None => Some false
    | Some p =>
        score ← zzlGetScore zl p;
        if negb (zslValueGteMin score r) then Some false
        else
          p ← pl_index zl 1;
          p ← p;
          score ← zzlGetScore zl p;
          Some (zslValueLteMax score r)
    end.

Definition zzlIsInLexRange zl (r : zlexrangespec) : option bool :=
  let cmp := sdscmplex (lmin r) (lmax r) in
  if (0 <? cmp) || ((cmp =? 0) && (lminex r || lmaxex r)) then Some false
  else
    p ← pl_index zl (-2);
    match p with
    | None => Some false
    | Some p =>
        e ← ziplistGetObject zl p;
        if negb (zslLexValueGteMin e r) then Some false
        else
          p ← pl_index zl 0;
          p ← p;
          e ← ziplistGetObject zl p;
          Some (zslLexValueLteMax e r)
    end.

(** The score of an element, or the element itself: what the bounds of a range are compared
    with. *)
Definition score_of_elem zl (eptr : Z) : option Sc := sptr ← must_next zl eptr; zzlGetScore zl sptr.

Section Bounds.

Context {V : Type} (value : T → Z → option V) (gte lte : V → bool).

(** The loop of [zzlFirstInRange] and [zzlFirstInLexRange]. *)
Fixpoint zzl_first_loop (fuel : nat) zl (eptr : option Z) : option (option Z) :=
  match fuel with
  | O => None
  | S fuel =>
      match eptr with
      | None => Some None
      | Some e =>
          v ← value zl e;
          if gte v then Some (if lte v then Some e else None)
          else sptr ← must_next zl e; next ← pl_next zl sptr; zzl_first_loop fuel zl next
      end
  end.

(** The loop of [zzlLastInRange] and [zzlLastInLexRange]. *)
Fixpoint zzl_last_loop (fuel : nat) zl (eptr : option Z) : option (option Z) :=
  match fuel with
  | O => None
  | S fuel =>
      match eptr with
      | None => Some None
      | Some e =>
          v ← value zl e;
          if lte v then Some (if gte v then Some e else None)
          else
            sptr ← pl_prev zl e;
            match sptr with
            | Some sptr => prev ← pl_prev zl sptr; prev ← prev; zzl_last_loop fuel zl (Some prev)
            | None => Some None
            end
      end
  end.

(** The loop of [zzlDeleteRangeByScore] and [zzlDeleteRangeByLex]. *)
Fixpoint zzl_delete_loop (fuel : nat) zl (eptr : Z) (num : Z) : option (T * Z) :=
  match fuel with
  | O => None
  | S fuel =>
      sptr ← pl_next zl eptr;
      match sptr with
      | None => Some (zl, num)
      | Some _ =>
          v ← value zl eptr;
          if lte v then '(zl, eptr) ← pl_delete zl eptr; '(zl, eptr) ← pl_delete zl eptr; zzl_delete_loop fuel zl eptr (num + 1)
          else Some (zl, num)
      end
  end.

End Bounds.

Definition zzlFirstInRange zl (r : zrangespec Sc) : option (option Z) :=
  eptr ← pl_index zl 0;
  b ← zzlIsInRange zl r;
  if negb b then Some None else zzl_first_loop score_of_elem (λ s, zslValueGteMin s r) (λ s, zslValueLteMax s r) (zl_fuel zl) zl eptr.

Definition zzlLastInRange zl (r : zrangespec Sc) : option (option Z) :=
  eptr ← pl_index zl (-2);
  b ← zzlIsInRange zl r;
  if negb b then Some None else zzl_last_loop score_of_elem (λ s, zslValueGteMin s r) (λ s, zslValueLteMax s r) (zl_fuel zl) zl eptr.

Definition zzlFirstInLexRange zl (r : zlexrangespec) : option (option Z) :=
  eptr ← pl_index zl 0;
  b ← zzlIsInLexRange zl r;
  if negb b then Some None else zzl_first_loop ziplistGetObject (λ e, zslLexValueGteMin e r) (λ e, zslLexValueLteMax e r) (zl_fuel zl) zl eptr.

Definition zzlLastInLexRange zl (r : zlexrangespec) : option (option Z) :=
  eptr ← pl_index zl (-2);
  b ← zzlIsInLexRange zl r;
  if negb b then Some None else zzl_last_loop ziplistGetObject (λ e, zslLexValueGteMin e r) (λ e, zslLexValueLteMax e r) (zl_fuel zl) zl eptr.

(** ** Searching, inserting and deleting *)

Fixpoint zzl_find_loop (fuel : nat) zl (ele : bytes) (eptr : option Z) : option (option (Z * Z)) :=
  match fuel with
  | O => None
  | S fuel =>
      match eptr with
      | None => Some None
      | Some e =>
          sptr ← must_next zl e;
          b ← pl_compare zl e ele;
          if (b : bool) then Some (Some (e, sptr)) else next ← pl_next zl sptr; zzl_find_loop fuel zl ele next
      end
  end.

(** With a pointer for the score. *)
Definition zzlFind zl (ele : bytes) : option (option (Z * Sc)) :=
  eptr ← pl_index zl 0;
  r ← zzl_find_loop (zl_fuel zl) zl ele eptr;
  match r with Some (e, sptr) => score ← zzlGetScore zl sptr; Some (Some (e, score)) | None => Some None end.

(** Without. *)
Definition zzlFind_null zl (ele : bytes) : option (option Z) :=
  eptr ← pl_index zl 0;
  r ← zzl_find_loop (zl_fuel zl) zl ele eptr;
  Some (match r with Some (e, _) => Some e | None => None end).

Definition zzlDelete zl (eptr : Z) : option T := '(zl, p) ← pl_delete zl eptr; '(zl, _) ← pl_delete zl p; Some zl.

Definition zzlInsertAt zl (eptr : option Z) (ele : bytes) (score : Sc) : option T :=
  scorebuf ← d2string junk 128 (Some score);
  match eptr with
  | None => zl ← pl_push zl ele ZIPLIST_TAIL; pl_push zl scorebuf ZIPLIST_TAIL
  | Some eptr => zl ← pl_insert zl eptr ele; sptr ← must_next zl eptr; pl_insert zl sptr scorebuf
  end.

(** Where [zzlInsert] puts a new element. *)
Fixpoint zzl_insert_loop (fuel : nat) zl (ele : bytes) (score : Sc) (eptr : option Z) : option (option Z) :=
  match fuel with
  | O => None
  | S fuel =>
      match eptr with
      | None => Some None
      | Some e =>
          sptr ← must_next zl e;
          s ← zzlGetScore zl sptr;
          here ← (if sgt s score then Some true else if seqb s score then c ← zzlCompareElements zl e ele; Some (0 <? c) else Some false);
          if (here : bool) then Some (Some e) else next ← pl_next zl sptr; zzl_insert_loop fuel zl ele score next
      end
  end.

Definition zzlInsert zl (ele : bytes) (score : Sc) : option T :=
  eptr ← pl_index zl 0;
  pos ← zzl_insert_loop (zl_fuel zl) zl ele score eptr;
  zzlInsertAt zl pos ele score.

Definition zzlDeleteRangeByScore zl (r : zrangespec Sc) : option (T * Z) :=
  eptr ← zzlFirstInRange zl r;
  match eptr with None => Some (zl, 0) | Some e => zzl_delete_loop score_of_elem (λ s, zslValueLteMax s r) (zl_fuel zl) zl e 0 end.

Definition zzlDeleteRangeByLex zl (r : zlexrangespec) : option (T * Z) :=
  eptr ← zzlFirstInLexRange zl r;
  match eptr with None => Some (zl, 0) | Some e => zzl_delete_loop ziplistGetObject (λ e, zslLexValueLteMax e r) (zl_fuel zl) zl e 0 end.

Definition zzlDeleteRangeByRank zl (start end_ : Z) : option (T * Z) :=
  let num := u32 (u32 (end_ - start) + 1) in
  zl ← pl_delete_range zl (s32 (u32 (2 * (start - 1)))) (u32 (2 * num));
  Some (zl, num).

(** ** The parts of the commands for this encoding *)

Fixpoint zzl_rank_loop (fuel : nat) zl (ele : bytes) (cur : option (Z * Z)) (rank : Z) : option (option Z) :=
  match fuel with
  | O => None
  | S fuel =>
      match cur with
      | None => Some None
      | Some (e, sptr) => b ← pl_compare zl e ele; if (b : bool) then Some (Some rank) else next ← zzlNext zl sptr; zzl_rank_loop fuel zl ele next (rank + 1)
      end
  end.

(** The part of [zsetRank] *)
Definition zzlRank zl (ele : bytes) (reverse : bool) : option (T * Z) :=
  '(zl, llen) ← zzlLength zl;
  eptr ← pl_index zl 0;
  eptr ← eptr;
  sptr ← must_next zl eptr;
  r ← zzl_rank_loop (zl_fuel zl) zl ele (Some (eptr, sptr)) 1;
  Some (zl, match r with Some rank => if reverse then llen - rank else rank - 1 | None => -1 end).

(** The element and the score under a cursor, and the next one. *)
Definition at_cursor zl (cur : Z * Z) : option (Sc * bytes) := e ← ziplistGetObject zl cur.1; s ← zzlGetScore zl cur.2; Some (s, e).
Definition move_cursor zl (reverse : bool) (cur : Z * Z) : option (option (Z * Z)) := if reverse then zzlPrev zl cur.1 else zzlNext zl cur.2.

(** [while (rangelen--)] of [zrangeGenericCommand] *)
Fixpoint zzl_emit_entries (rangelen : nat) zl (reverse : bool) (cur : option (Z * Z)) : option (list (Sc * bytes)) :=
  match rangelen with
  | O => Some []
  | S n =>
      cur ← cur;
      p ← at_cursor zl cur;
      next ← move_cursor zl reverse cur;
      r ← zzl_emit_entries n zl reverse next;
      Some (p :: r)
  end.

Definition zzlRange zl (start end_ : Z) (reverse : bool) : option (T * list (Sc * bytes)) :=
  '(zl, llen) ← zzlLength zl;
  match sane_range llen start end_ with
  | None => Some (zl, [])
  | Some (start, end_) =>
      eptr ← pl_index zl (s32 (if reverse then -2 - 2 * start else 2 * start));
      eptr ← eptr;
      sptr ← must_next zl eptr;
      l ← zzl_emit_entries (Z.to_nat (end_ - start + 1)) zl reverse (Some (eptr, sptr));
      Some (zl, l)
  end.

(** [while (eptr && offset--)] *)
Fixpoint zzl_skip_entries (fuel : nat) zl (reverse : bool) (cur : option (Z * Z)) (offset : Z) : option (option (Z * Z)) :=
  match fuel with
  | O => None
  | S fuel =>
      match cur with
      | None => Some None
      | Some c => if offset =? 0 then Some cur else next ← move_cursor zl reverse c; zzl_skip_entries fuel zl reverse next (offset - 1)
      end
  end.

(** [while (eptr && limit--)], with [more] the test that the element is still in the range. *)
Fixpoint zzl_emit_entries_while (fuel : nat) zl (reverse : bool) (more : Sc → bytes → bool) (cur : option (Z * Z)) (limit : Z) : option (list (Sc * bytes)) :=
  match fuel with
  | O => None
  | S fuel =>
      match cur with
      | None => Some []
      | Some c =>
          if limit =? 0 then Some []
          else
            '(s, e) ← at_cursor zl c;
            if negb (more s e) then Some []
            else next ← move_cursor zl reverse c; r ← zzl_emit_entries_while fuel zl reverse more next (limit - 1); Some ((s, e) :: r)
      end
  end.

Definition zzl_emit_from zl (reverse : bool) (more : Sc → bytes → bool) (eptr : option Z) (offset limit : Z) : option (list (Sc * bytes)) :=
  match eptr with
  | None => Some []
  | Some eptr =>
      sptr ← must_next zl eptr;
      cur ← zzl_skip_entries (zl_fuel zl) zl reverse (Some (eptr, sptr)) offset;
      zzl_emit_entries_while (zl_fuel zl) zl reverse more cur limit
  end.

Definition zzlRangeByScore zl (r : zrangespec Sc) (offset limit : Z) (reverse : bool) : option (list (Sc * bytes)) :=
  eptr ← (if reverse then zzlLastInRange zl r else zzlFirstInRange zl r);
  zzl_emit_from zl reverse (λ s _, if reverse then zslValueGteMin s r else zslValueLteMax s r) eptr offset limit.

Definition zzlRangeByLex zl (r : zlexrangespec) (offset limit : Z) (reverse : bool) : option (list (Sc * bytes)) :=
  eptr ← (if reverse then zzlLastInLexRange zl r else zzlFirstInLexRange zl r);
  zzl_emit_from zl reverse (λ _ e, if reverse then zslLexValueGteMin e r else zslLexValueLteMax e r) eptr offset limit.

(** [while (eptr)] of [zcountCommand] and [zlexcountCommand] *)
Fixpoint zzl_count_loop {V} (value : T → Z → option V) (lte : V → bool) (fuel : nat) zl (cur : option (Z * Z)) (count : Z) : option Z :=
  match fuel with
  | O => None
  | S fuel =>
      match cur with
      | None => Some count
      | Some (e, sptr) => v ← value zl e; if negb (lte v) then Some count else next ← zzlNext zl sptr; zzl_count_loop value lte fuel zl next (count + 1)
      end
  end.

Definition zzl_count_from {V} (value : T → Z → option V) (lte : V → bool) zl (eptr : option Z) : option Z :=
  match eptr with
  | None => Some 0
  | Some e =>
      sptr ← must_next zl e;
      v ← value zl e;
      if lte v then zzl_count_loop value lte (zl_fuel zl) zl (Some (e, sptr)) 0 else None
  end.

Definition zzlCount zl (r : zrangespec Sc) : option Z := eptr ← zzlFirstInRange zl r; zzl_count_from score_of_elem (λ s, zslValueLteMax s r) zl eptr.
Definition zzlLexCount zl (r : zlexrangespec) : option Z := eptr ← zzlFirstInLexRange zl r; zzl_count_from ziplistGetObject (λ e, zslLexValueLteMax e r) zl eptr.

End Zzl.
