(* ===== verification/ZsetObject.v ===== *)
(** Sorted sets in both encodings (t_zset.c): a ziplist while the set is small, a dictionary and
    a skiplist otherwise, and the commands on the keys of a database.

    [None] is a failed assertion, a panic, an access outside of memory or the use of a variable
    that was not set.  The skiplist branches are the functions of [Zset], the ziplist branches
    those of [ZsetZiplist].  [env] gives the address of each new skiplist node and the random
    numbers for its level; a command numbers its additions.  A sorted set belongs to one key, so
    that a pointer to it is modelled by the key.  The expiration of keys and blocked clients are
    not part of this model. *)

From stdpp Require Import list numbers strings gmap.
From S2P Require Import Prelude Util Glob SdsText Object Ziplist PackedList Skiplist SkiplistRange Double Zset ZsetZiplist.

Definition ZADD_CH : Z := 65536.
Definition ZSET_MIN : Z := 0.
Definition ZSET_MAX : Z := 1.

Definition notfloaterr : reply := RError "-ERR value is not a valid float".
Definition notrangeerr : reply := RError "-ERR min or max is not a float".
Definition notlexerr : reply := RError "-ERR min or max not valid string range item".
Definition nanerr : reply := RError "-ERR resulting score is not a number (NaN)".
Definition nxxxerr : reply := RError "-ERR XX and NX options at the same time are not compatible".
Definition incrpairerr : reply := RError "-ERR INCR option supports a single increment-element pair".
Definition emptymultibulk : reply := RMultiBulk 0 [].

(** [rangetype]: 0, 1 and 2 are ZRANGE_RANK, ZRANGE_SCORE and ZRANGE_LEX. *)
Inductive zcommand :=
  | Zadd (key : bytes) (args : list bytes) (flags : Z)
  | Zrem (key : bytes) (members : list bytes)
  | Zremrange (key min max : bytes) (rangetype : Z)
  | Zrange (key start end_ : bytes) (options : list bytes) (reverse : bool)
  | Zrangebyscore (key a b : bytes) (options : list bytes) (reverse : bool)
  | Zrangebylex (key a b : bytes) (options : list bytes) (reverse : bool)
  | Zcount (key min max : bytes)
  | Zlexcount (key min max : bytes)
  | Zcard (key : bytes)
  | Zscore (key member : bytes)
  | Zrank (key member : bytes) (reverse : bool)
  | Zpop (key : bytes) (count : option bytes) (where_ : Z).

Section Object_.

Context (junk : nat → Z) {T : Type} `{!PackedList T} {Sc : Type} `{!ScoreOrder Sc} `{!ScoreAdd Sc} `{!DoubleOps Sc}.
Context (header_addr : addr) (zset_max_ziplist_entries zset_max_ziplist_value : Z).

(** OBJ_ENCODING_ZIPLIST and OBJ_ENCODING_SKIPLIST *)
Inductive zobj := ZZl (zl : T) | ZSkip (zs : zset Sc).

Definition createZsetObject : option zobj := zs ← Zset.createZsetObject header_addr; Some (ZSkip zs).
Definition createZsetZiplistObject : option zobj := zl ← pl_new; Some (ZZl zl).

(** ** The common functions *)

Section Common.

Context (env : nat → zskiplist Sc → addr * list Z).

Definition zsetLength (o : zobj) : option (zobj * Z) :=
  match o with ZZl zl => '(zl, n) ← zzlLength zl; Some (ZZl zl, n) | ZSkip zs => Some (o, Zset.zsetLength zs) end.

(** The loops of [zsetConvert]. *)
Fixpoint to_skiplist_loop (fuel : nat) (j : nat) (zl : T) (cur : option (Z * Z)) (zs : zset Sc) : option (zset Sc) :=
  match fuel with
  | O => None
  | S fuel =>
      match cur with
      | None => Some zs
      | Some (eptr, sptr) =>
          score ← zzlGetScore zl sptr;
          ele ← ziplistGetObject zl eptr;
          let '(a, rs) := env j (zsl zs) in
          z ← zslInsert (zsl zs) rs a score ele;
          if bool_decide (is_Some (zdict zs !! ele)) then None
          else next ← zzlNext zl sptr; to_skiplist_loop fuel j zl next (ZSet (<[ele := a]> (zdict zs)) z)
      end
  end.

Fixpoint to_ziplist_loop (fuel : nat) (z : zskiplist Sc) (node : option addr) (zl : T) : option T :=
  match fuel with
  | O => None
  | S fuel =>
      match node with
      | None => Some zl
      | Some x =>
          '(score, ele) ← nodes z !! x;
          zl ← zzlInsertAt junk zl None ele score;
          next ← next0 z x;
          to_ziplist_loop fuel z next zl
      end
  end.

Definition zsetConvert (j : nat) (o : zobj) (to_ziplist : bool) : option zobj :=
  match o, to_ziplist with
  | ZZl zl, false =>
      zs ← Zset.createZsetObject header_addr;
      eptr ← pl_index zl 0;
      eptr ← eptr;
      sptr ← must_next zl eptr;
      zs ← to_skiplist_loop (zl_fuel zl) j zl (Some (eptr, sptr)) zs;
      Some (ZSkip zs)
  | ZSkip zs, true =>
      zl ← pl_new;
      node ← next0 (zsl zs) (header (zsl zs));
      zl ← to_ziplist_loop (walk_fuel (zsl zs)) (zsl zs) node zl;
      Some (ZZl zl)
  | _, _ => Some o
  end.

Definition zsetConvertToZiplistIfNeeded (j : nat) (o : zobj) (maxelelen : Z) : option zobj :=
  match o with
  | ZZl _ => Some o
  | ZSkip zs => if (zlength (zsl zs) <=? zset_max_ziplist_entries) && (maxelelen <=? zset_max_ziplist_value) then zsetConvert j o true else Some o
  end.

(** The inner option is C_ERR. *)
Definition zsetScore (o : zobj) (member : bytes) : option (option Sc) :=
  match o with
  | ZZl zl => r ← zzlFind zl member; Some (match r with Some (_, s) => Some s | None => None end)
  | ZSkip zs => Zset.zsetScore zs member
  end.

(** The set, the return value, the flags and [newscore], which is [None] when it is not set. *)
Definition zsetAdd (j : nat) (o : zobj) (score : option Sc) (ele : bytes) (flags : Z) : option (zobj * Z * Z * option Sc) :=
  let incr := negb (Z.land flags ZADD_INCR =? 0) in
  let nx := negb (Z.land flags ZADD_NX =? 0) in
  let xx := negb (Z.land flags ZADD_XX =? 0) in
  match score with
  | None => Some (o, 0, ZADD_NAN, None)
  | Some score =>
      match o with
      | ZZl zl =>
          r ← zzlFind zl ele;
          match r with
          | Some (eptr, curscore) =>
              if nx then Some (o, 1, ZADD_NOP, None)
              else
                match (if incr then sadd score curscore else Some score) with
                | None => Some (o, 0, ZADD_NAN, None)
                | Some score =>
                    let newscore := if incr then Some score else None in
                    if negb (seqb score curscore) then
                      zl ← zzlDelete zl eptr;
                      zl ← zzlInsert junk zl ele score;
                      Some (ZZl zl, 1, ZADD_UPDATED, newscore)
                    else Some (o, 1, 0, newscore)
                end
          | None =>
              if negb xx then
                zl ← zzlInsert junk zl ele score;
                '(zl, n) ← zzlLength zl;
                o ← (if (zset_max_ziplist_entries <? n) || (zset_max_ziplist_value <? zlen ele) then zsetConvert j (ZZl zl) false else Some (ZZl zl));
                Some (o, 1, ZADD_ADDED, Some score)
              else Some (o, 1, ZADD_NOP, None)
          end
      | ZSkip zs =>
          let '(a, rs) := env j (zsl zs) in
          r ← Zset.zsetAdd zs (Some score) ele flags rs a;
          Some (ZSkip (za_set r), za_ret r, za_flags r, za_new r)
      end
  end.

Definition zsetDel (o : zobj) (ele : bytes) : option (zobj * Z) :=
  match o with
  | ZZl zl =>
      r ← zzlFind_null zl ele;
      match r with Some eptr => zl ← zzlDelete zl eptr; Some (ZZl zl, 1) | None => Some (o, 0) end
  | ZSkip zs => '(zs, n) ← Zset.zsetDel zs ele; Some (ZSkip zs, n)
  end.

Definition zsetRank (o : zobj) (ele : bytes) (reverse : bool) : option (zobj * Z) :=
  match o with
  | ZZl zl => '(zl, n) ← zzlRank zl ele reverse; Some (ZZl zl, n)
  | ZSkip zs => n ← Zset.zsetRank zs ele reverse; Some (o, n)
  end.

(** The removal of a range: the set and the number of its elements that are deleted. *)
Definition zset_remrange (o : zobj) (r : zrem_range Sc) : option (zobj * Z) :=
  match o with
  | ZZl zl =>
      match r with
      | ZRANGE_RANK start end_ =>
          '(zl, llen) ← zzlLength zl;
          match sane_range llen start end_ with
          | None => Some (ZZl zl, 0)
          | Some (start, end_) => '(zl, n) ← zzlDeleteRangeByRank zl (start + 1) (end_ + 1); Some (ZZl zl, n)
          end
      | ZRANGE_SCORE r => '(zl, n) ← zzlDeleteRangeByScore zl r; Some (ZZl zl, n)
      | ZRANGE_LEX r => '(zl, n) ← zzlDeleteRangeByLex zl r; Some (ZZl zl, n)
      end
  | ZSkip zs => '(zs, n) ← zremrange zs r; Some (ZSkip zs, n)
  end.

(** The number of elements that are left. *)
Definition zset_left (o : zobj) : option (zobj * Z) :=
  match o with ZZl zl => '(zl, n) ← zzlLength zl; Some (ZZl zl, n) | ZSkip zs => Some (o, Z.of_nat (size (zdict zs))) end.

(** The elements of a range, with their scores. *)
Definition zset_range (o : zobj) (start end_ : Z) (reverse : bool) : option (zobj * list (Sc * bytes)) :=
  match o with
  | ZZl zl => '(zl, l) ← zzlRange zl start end_ reverse; Some (ZZl zl, l)
  | ZSkip zs => l ← zrange (zsl zs) start end_ reverse; Some (o, l)
  end.

Definition zset_rangebyscore (o : zobj) (r : zrangespec Sc) (offset limit : Z) (reverse : bool) : option (list (Sc * bytes)) :=
  match o with ZZl zl => zzlRangeByScore zl r offset limit reverse | ZSkip zs => zrangebyscore (zsl zs) r offset limit reverse end.

Definition zset_rangebylex (o : zobj) (r : zlexrangespec) (offset limit : Z) (reverse : bool) : option (list (Sc * bytes)) :=
  match o with ZZl zl => zzlRangeByLex zl r offset limit reverse | ZSkip zs => zrangebylex (zsl zs) r offset limit reverse end.

Definition zset_count (o : zobj) (r : zrangespec Sc) : option Z := match o with ZZl zl => zzlCount zl r | ZSkip zs => zcount (zsl zs) r end.
Definition zset_lexcount (o : zobj) (r : zlexrangespec) : option Z := match o with ZZl zl => zzlLexCount zl r | ZSkip zs => zlexcount (zsl zs) r end.

(** The first or the last element, which must exist. *)
Definition zset_end (o : zobj) (where_ : Z) : option (Sc * bytes) :=
  match o with
  | ZZl zl =>
      eptr ← pl_index zl (if where_ =? ZSET_MAX then -2 else 0);
      eptr ← eptr;
      ele ← ziplistGetObject zl eptr;
      sptr ← must_next zl eptr;
      score ← zzlGetScore zl sptr;
      Some (score, ele)
  | ZSkip zs =>
      zln ← (if where_ =? ZSET_MAX then Some (tail (zsl zs)) else next0 (zsl zs) (header (zsl zs)));
      zln ← zln;
      nodes (zsl zs) !! zln
  end.

End Common.

End Object_.

Arguments zobj : clear implicits.
