(* ===== verification/ZsetCommands.v ===== *)
(** The commands on sorted sets (t_zset.c): their arguments, the keys of the database, the replies
    and the events, in both encodings of the sets. *)

From stdpp Require Import list numbers strings gmap.
From S2P Require Import Prelude Util Glob SdsText Object Ziplist PackedList Skiplist SkiplistRange Double Zset ZsetZiplist ZsetObject.

(** ** Arguments *)

Section Arguments_.

Context {Sc : Type} `{!ScoreOrder Sc} `{!DoubleOps Sc}.

(** A bound of [zslParseRange]: the number and whether it is excluded; [None]: C_ERR.  The text
    of the number ends at a terminator. *)
Definition parse_bound (s : bytes) : option (Sc * bool) :=
  let '(ex, t) := match s with 40 :: t => (true, t) | _ => (false, s) end in
  let '(v, used, _) := strtod t in
  match v with
  | Some v => if match t !! Z.to_nat used with Some c => c =? 0 | None => true end then Some (v, ex) else None
  | None => None
  end.

Definition zslParseRange (min max : bytes) : option (zrangespec Sc) :=
  '(mn, minex) ← parse_bound min; '(mx, maxex) ← parse_bound max; Some (ZRange mn mx minex maxex).

Definition zslParseLexRangeItem (item : bytes) : option (lexbound * bool) :=
  match item with
  | 43 :: c => if match c with [] => true | c :: _ => c =? 0 end then Some (maxstring, true) else None
  | 45 :: c => if match c with [] => true | c :: _ => c =? 0 end then Some (minstring, true) else None
  | 40 :: s => Some (lexstring s, true)
  | 91 :: s => Some (lexstring s, false)
  | _ => None
  end.

Definition zslParseLexRange (min max : bytes) : option zlexrangespec :=
  '(mn, minex) ← zslParseLexRangeItem min; '(mx, maxex) ← zslParseLexRangeItem max; Some (ZLexRange mn mx minex maxex).

(** The options of ZADD: the flags and the scores and elements. *)
Fixpoint zadd_options (args : list bytes) (flags : Z) : Z * list bytes :=
  match args with
  | [] => (flags, [])
  | opt :: rest =>
      if strcasecmp_eq opt (str "nx") then zadd_options rest (Z.lor flags ZADD_NX)
      else if strcasecmp_eq opt (str "xx") then zadd_options rest (Z.lor flags ZADD_XX)
      else if strcasecmp_eq opt (str "ch") then zadd_options rest (Z.lor flags ZADD_CH)
      else if strcasecmp_eq opt (str "incr") then zadd_options rest (Z.lor flags ZADD_INCR)
      else (flags, args)
  end.

Fixpoint parse_scores (l : list (bytes * bytes)) : option (list (Sc * bytes)) :=
  match l with
  | [] => Some []
  | (s, ele) :: l => score ← getDoubleFromObject s; l ← parse_scores l; Some ((score, ele) :: l)
  end.

End Arguments_.

(** The options of a range by score or by element: [withscores], the offset and the limit, or an
    error. *)
Inductive range_opts := RangeOpts (withscores : bool) (offset limit : Z) | RangeError (e : reply).

Fixpoint range_options (scores : bool) (opts : list bytes) (withscores : bool) (offset limit : Z) : option range_opts :=
  match opts with
  | [] => Some (RangeOpts withscores offset limit)
  | a :: rest =>
      if scores && strcasecmp_eq a (str "withscores") then range_options scores rest true offset limit
      else
        match rest with
        | off :: lim :: rest =>
            if strcasecmp_eq a (str "limit") then
              off ← getLongFromObject off;
              match off with
              | None => Some (RangeError notintegererr)
              | Some offset =>
                  lim ← getLongFromObject lim;
                  match lim with
                  | None => Some (RangeError notintegererr)
                  | Some limit => range_options scores rest withscores offset limit
                  end
              end
            else Some (RangeError syntaxerr)
        | _ => Some (RangeError syntaxerr)
        end
  end.

(** ** Commands *)

Section Commands_.

Context (junk : nat → Z) {T : Type} `{!PackedList T} {Sc : Type} `{!ScoreOrder Sc} `{!ScoreAdd Sc} `{!DoubleOps Sc}.
Context (header_addr : addr) (zset_max_ziplist_entries zset_max_ziplist_value : Z) (env : nat → zskiplist Sc → addr * list Z).

Abbreviation zobj := (zobj T Sc).
Abbreviation db := (gmap bytes (dbval zobj)).
Abbreviation result := (db * reply * list effect * Z)%type.
Abbreviation zsetAdd := (zsetAdd junk header_addr zset_max_ziplist_entries zset_max_ziplist_value env).

(** [lookupKeyReadOrReply], [lookupKeyWriteOrReply] and [checkType] *)
Definition lookup_zset_or (h : db) (key : bytes) (r : reply) (c : zobj → option result) : option result :=
  match h !! key with
  | None => Some (h, r, [], 0)
  | Some (VObj o) => c o
  | Some (VOther _) => Some (h, wrongtypeerr, [], 0)
  end.

Definition reply_only (h : db) (r : reply) : option result := Some (h, r, [], 0).

Definition bulk_double (d : Sc) : option (option bytes) := r ← addReplyDouble d; match r with RBulk t => Some (Some t) | _ => None end.

(** The elements of a range, with their scores when they are asked for. *)
Fixpoint range_bulks (withscores : bool) (l : list (Sc * bytes)) : option (list (option bytes)) :=
  match l with
  | [] => Some []
  | (s, e) :: l =>
      r ← range_bulks withscores l;
      if withscores then t ← bulk_double s; Some (Some e :: t :: r) else Some (Some e :: r)
  end.

Definition range_reply (withscores : bool) (l : list (Sc * bytes)) : option reply :=
  r ← range_bulks withscores l; Some (RMultiBulk (if withscores then 2 * zlen l else zlen l) r).

(** What [zaddGenericCommand] counts; [za_nan]: an addition gave NaN. *)
Record zadd_state := ZAddState { za_obj : zobj; za_added : Z; za_updated : Z; za_processed : Z; za_score : option Sc; za_nan : bool }.

Fixpoint zadd_loop (j : nat) (l : list (Sc * bytes)) (flags : Z) (st : zadd_state) : option zadd_state :=
  match l with
  | [] => Some st
  | (score, ele) :: l =>
      '(o, retval, retflags, newscore) ← zsetAdd j (za_obj st) (Some score) ele flags;
      if retval =? 0 then Some (ZAddState o (za_added st) (za_updated st) (za_processed st) (za_score st) true)
      else
        zadd_loop (S j) l flags
          (ZAddState o (if Z.land retflags ZADD_ADDED =? 0 then za_added st else za_added st + 1) (if Z.land retflags ZADD_UPDATED =? 0 then za_updated st else za_updated st + 1)
            (if Z.land retflags ZADD_NOP =? 0 then za_processed st + 1 else za_processed st) newscore false)
  end.

Definition zadd_reply (flags added updated processed : Z) (score : option Sc) : option reply :=
  if negb (Z.land flags ZADD_INCR =? 0) then
    if processed =? 0 then Some RNullBulk else s ← score; addReplyDouble s
  else Some (RInt (if negb (Z.land flags ZADD_CH =? 0) then added + updated else added)).

Definition zaddGenericCommand (h : db) (key : bytes) (args : list bytes) (flags : Z) : option result :=
  let '(flags, rest) := zadd_options args flags in
  let incr := negb (Z.land flags ZADD_INCR =? 0) in
  let nx := negb (Z.land flags ZADD_NX =? 0) in
  let xx := negb (Z.land flags ZADD_XX =? 0) in
  let elements := zlen rest in
  if Z.odd elements || (elements =? 0) then reply_only h syntaxerr
  else if nx && xx then reply_only h nxxxerr
  else if incr && (1 <? elements / 2) then reply_only h incrpairerr
  else
    match parse_scores (pairs rest) with
    | None => reply_only h notfloaterr
    | Some l =>
        let add (o : zobj) : option result :=
          st ← zadd_loop 0 l flags (ZAddState o 0 0 0 None false);
          let changes := za_added st + za_updated st in
          let events := if changes =? 0 then [] else [Signal key; Notify (if incr then "zincr" else "zadd") key] in
          let h := <[key := VObj (za_obj st)]> h in
          if za_nan st then Some (h, nanerr, events, 0)
          else r ← zadd_reply flags (za_added st) (za_updated st) (za_processed st) (za_score st); Some (h, r, events, changes) in
        match h !! key with
        | None =>
            if xx then r ← zadd_reply flags 0 0 0 None; reply_only h r
            else
              ele ← rest !! 1%nat;
              o ← (if (zset_max_ziplist_entries =? 0) || (zset_max_ziplist_value <? zlen ele) then createZsetObject header_addr else createZsetZiplistObject);
              add o
        | Some (VOther _) => reply_only h wrongtypeerr
        | Some (VObj o) => add o
        end
    end.

(** The set, the number of elements that are deleted, and whether none is left. *)
Fixpoint zrem_loop (o : zobj) (members : list bytes) (deleted : Z) : option (zobj * Z * bool) :=
  match members with
  | [] => Some (o, deleted, false)
  | m :: members =>
      '(o, n) ← zsetDel o m;
      let deleted := deleted + n in
      '(o, len) ← zsetLength o;
      if len =? 0 then Some (o, deleted, true) else zrem_loop o members deleted
  end.

Definition zremCommand (h : db) (key : bytes) (members : list bytes) : option result :=
  lookup_zset_or h key (RInt 0) (λ o,
    '(o, deleted, keyremoved) ← zrem_loop o members 0;
    Some (if (keyremoved : bool) then delete key h else <[key := VObj o]> h, RInt deleted,
      if deleted =? 0 then [] else [Notify "zrem" key] ++ (if keyremoved then [Notify "del" key] else []) ++ [Signal key], deleted)).

Definition zrem_event (rangetype : Z) : string :=
  if rangetype =? 0 then "zremrangebyrank" else if rangetype =? 1 then "zremrangebyscore" else "zremrangebylex".

Definition zremrangeGenericCommand (h : db) (key min max : bytes) (rangetype : Z) : option result :=
  let remove (r : zrem_range Sc) : option result :=
    lookup_zset_or h key (RInt 0) (λ o,
      '(o, deleted) ← zset_remrange o r;
      '(o, len) ← zset_left o;
      let keyremoved := len =? 0 in
      Some (if keyremoved then delete key h else <[key := VObj o]> h, RInt deleted,
        if deleted =? 0 then [] else [Signal key; Notify (zrem_event rangetype) key] ++ (if keyremoved then [Notify "del" key] else []), deleted)) in
  if rangetype =? 0 then
    start ← getLongFromObject min;
    match start with
    | None => reply_only h notintegererr
    | Some start => end_ ← getLongFromObject max; match end_ with None => reply_only h notintegererr | Some end_ => remove (ZRANGE_RANK start end_) end
    end
  else if rangetype =? 1 then match zslParseRange min max with None => reply_only h notrangeerr | Some r => remove (ZRANGE_SCORE r) end
  else match zslParseLexRange min max with None => reply_only h notlexerr | Some r => remove (ZRANGE_LEX r) end.

Definition zrangeGenericCommand (h : db) (key start end_ : bytes) (options : list bytes) (reverse : bool) : option result :=
  start ← getLongFromObject start;
  match start with
  | None => reply_only h notintegererr
  | Some start =>
      end_ ← getLongFromObject end_;
      match end_ with
      | None => reply_only h notintegererr
      | Some end_ =>
          match (match options with [] => Some false | [w] => if strcasecmp_eq w (str "withscores") then Some true else None | _ => None end) with
          | None => reply_only h syntaxerr
          | Some withscores =>
              lookup_zset_or h key emptymultibulk (λ o,
                '(o, l) ← zset_range o start end_ reverse;
                r ← range_reply withscores l;
                Some (<[key := VObj o]> h, r, [], 0))
          end
      end
  end.

(** A range by score or by element, after its bounds are parsed. *)
Definition range_query (h : db) (key : bytes) (scores : bool) (options : list bytes) (query : zobj → Z → Z → option (list (Sc * bytes))) : option result :=
  o ← range_options scores options false 0 (-1);
  match o with
  | RangeError e => reply_only h e
  | RangeOpts withscores offset limit => lookup_zset_or h key emptymultibulk (λ o, l ← query o offset limit; r ← range_reply withscores l; reply_only h r)
  end.

Definition genericZrangebyscoreCommand (h : db) (key a b : bytes) (options : list bytes) (reverse : bool) : option result :=
  match (if reverse then zslParseRange b a else zslParseRange a b) with
  | None => reply_only h notrangeerr
  | Some r => range_query h key true options (λ o offset limit, zset_rangebyscore o r offset limit reverse)
  end.

Definition genericZrangebylexCommand (h : db) (key a b : bytes) (options : list bytes) (reverse : bool) : option result :=
  match (if reverse then zslParseLexRange b a else zslParseLexRange a b) with
  | None => reply_only h notlexerr
  | Some r => range_query h key false options (λ o offset limit, zset_rangebylex o r offset limit reverse)
  end.

Definition zcountCommand (h : db) (key min max : bytes) : option result :=
  match zslParseRange min max with
  | None => reply_only h notrangeerr
  | Some r => lookup_zset_or h key (RInt 0) (λ o, n ← zset_count o r; reply_only h (RInt n))
  end.

Definition zlexcountCommand (h : db) (key min max : bytes) : option result :=
  match zslParseLexRange min max with
  | None => reply_only h notlexerr
  | Some r => lookup_zset_or h key (RInt 0) (λ o, n ← zset_lexcount o r; reply_only h (RInt n))
  end.

Definition zcardCommand (h : db) (key : bytes) : option result :=
  lookup_zset_or h key (RInt 0) (λ o, '(o, n) ← zsetLength o; Some (<[key := VObj o]> h, RInt n, [], 0)).

Definition zscoreCommand (h : db) (key member : bytes) : option result :=
  lookup_zset_or h key RNullBulk (λ o, s ← zsetScore o member; match s with None => reply_only h RNullBulk | Some s => r ← addReplyDouble s; reply_only h r end).

Definition zrankGenericCommand (h : db) (key member : bytes) (reverse : bool) : option result :=
  lookup_zset_or h key RNullBulk (λ o, '(o, n) ← zsetRank o member reverse; Some (<[key := VObj o]> h, if 0 <=? n then RInt n else RNullBulk, [], 0)).

(** The loop of [genericZpopCommand]: the set, whether none is left, the elements. *)
Fixpoint zpop_loop (count : nat) (o : zobj) (where_ : Z) : option (zobj * bool * list (Sc * bytes)) :=
  match count with
  | O => Some (o, false, [])
  | S count =>
      '(score, ele) ← zset_end o where_;
      '(o, n) ← zsetDel o ele;
      if n =? 0 then None
      else
        '(o, len) ← zsetLength o;
        if len =? 0 then Some (o, true, [(score, ele)])
        else '(o, removed, l) ← zpop_loop count o where_; Some (o, removed, (score, ele) :: l)
  end.

(** With one key, for ZPOPMIN and ZPOPMAX.  The loop runs at least once. *)
Definition genericZpopCommand (h : db) (key : bytes) (where_ : Z) (countarg : option bytes) : option result :=
  let pop (count : Z) : option result :=
    lookup_zset_or h key emptymultibulk (λ o,
      '(o, keyremoved, l) ← zpop_loop (Z.to_nat count) o where_;
      r ← range_bulks true l;
      Some (if (keyremoved : bool) then delete key h else <[key := VObj o]> h, RMultiBulk (2 * zlen l) r,
        [Notify (if where_ =? ZSET_MAX then "zpopmax" else "zpopmin") key; Signal key] ++ (if keyremoved then [Notify "del" key] else []), zlen l)) in
  match countarg with
  | None => pop 1
  | Some c =>
      count ← getLongFromObject c;
      match count with None => reply_only h notintegererr | Some count => if count <=? 0 then reply_only h emptymultibulk else pop count end
  end.

Definition run_zcommand (h : db) (cmd : zcommand) : option result :=
  match cmd with
  | Zadd key args flags => zaddGenericCommand h key args flags
  | Zrem key members => zremCommand h key members
  | Zremrange key min max rangetype => zremrangeGenericCommand h key min max rangetype
  | Zrange key start end_ options reverse => zrangeGenericCommand h key start end_ options reverse
  | Zrangebyscore key a b options reverse => genericZrangebyscoreCommand h key a b options reverse
  | Zrangebylex key a b options reverse => genericZrangebylexCommand h key a b options reverse
  | Zcount key min max => zcountCommand h key min max
  | Zlexcount key min max => zlexcountCommand h key min max
  | Zcard key => zcardCommand h key
  | Zscore key member => zscoreCommand h key member
  | Zrank key member reverse => zrankGenericCommand h key member reverse
  | Zpop key count where_ => genericZpopCommand h key where_ count
  end.

End Commands_.

(** A session; each command has its own allocations and random numbers. *)
Fixpoint run_zcommands (junk : nat → Z) `{PackedList T} `{ScoreOrder Sc} `{!ScoreAdd Sc} `{!DoubleOps Sc} (header_addr : addr) (entries value : Z) (env : nat → nat → zskiplist Sc → addr * list Z)
    (n : nat) (h : gmap bytes (dbval (zobj T Sc))) (cmds : list zcommand) : option (gmap bytes (dbval (zobj T Sc)) * list (reply * list effect * Z)) :=
  match cmds with
  | [] => Some (h, [])
  | cmd :: cmds =>
      '(h, r, ev, d) ← run_zcommand junk header_addr entries value (env n) h cmd;
      '(h, rs) ← run_zcommands junk header_addr entries value env (S n) h cmds;
      Some (h, (r, ev, d) :: rs)
  end.
