(* ===== verification/ZsetZiplistRep.v ===== *)
(** What a ziplist with the elements and scores of a sorted set represents, and what the
    functions of [ZsetZiplist] do to the sorted list of its elements. *)

From stdpp Require Import list numbers strings gmap sorting.
From S2P Require Import Prelude Util Glob SdsText Object Ziplist ZiplistEntry ZiplistRefine PackedList Skiplist SkiplistRange SkiplistSpec Double Zset ZsetSpec ZsetZiplist.

Section Rep.

Context (junk : nat → Z) {T : Type} `{PackedListLaws T} {Sc : Type} `{!ScoreOrder Sc} `{!ScoreLaws Sc} `{!DoubleOps Sc} `{!DoubleLaws Sc}.

Implicit Types (zl : T) (x : nd Sc) (A B C D L : list (nd Sc)).

(** The entries of the elements. *)
Definition entries L : list bytes := unpair ((λ x, (ne x, double_text junk (ns x))) <$> L).

Lemma entries_app A B : entries (A ++ B) = entries A ++ entries B.
Proof. unfold entries. by rewrite fmap_app, unpair_app. Qed.

Lemma entries_length L : length (entries L) = (2 * length L)%nat.
Proof. unfold entries. by rewrite unpair_length, length_fmap. Qed.

Lemma entries_lookup A x B : entries (A ++ x :: B) !! (2 * length A)%nat = Some (ne x) ∧ entries (A ++ x :: B) !! S (2 * length A) = Some (double_text junk (ns x)).
Proof. unfold entries. rewrite fmap_app, fmap_cons, <-(length_fmap (λ x, (ne x, double_text junk (ns x))) A). apply unpair_lookup. Qed.

Lemma take_entries A B : take (2 * length A) (entries (A ++ B)) = entries A.
Proof. rewrite entries_app, <-entries_length. apply take_app_length. Qed.

Lemma drop_entries A B k : drop (2 * length A + k) (entries (A ++ B)) = drop k (entries B).
Proof. rewrite entries_app, <-entries_length, <-drop_drop. by rewrite drop_app_length. Qed.

(** ** Pointers *)

(** The pointer to the first element of [B], which follows [A], or to the end. *)
Definition elem_at zl A B (p : Z) : Prop := pl_at zl (entries (A ++ B)) (2 * length A) p.
Definition score_at_ zl A B (p : Z) : Prop := pl_at zl (entries (A ++ B)) (S (2 * length A)) p.
Definition elem_opt zl A B (o : option Z) : Prop := match B with [] => o = None | _ :: _ => ∃ p, o = Some p ∧ elem_at zl A B p end.

Lemma must_next_elem zl A x B p : elem_at zl A (x :: B) p → ∃ q, must_next zl p = Some q ∧ score_at_ zl A (x :: B) q.
Proof. intros Hp. destruct (pl_next_at _ _ _ _ _ Hp (proj2 (entries_lookup A x B))) as (q & Hq & Hat). exists q. unfold must_next. by rewrite Hq. Qed.

Lemma get_elem zl A x B p : elem_at zl A (x :: B) p → ziplistGetObject zl p = Some (ne x).
Proof.
  intros Hp. destruct (pl_get_at _ _ _ _ _ Hp (proj1 (entries_lookup A x B))) as (v & Hv & Ht & _). unfold ziplistGetObject, get_entry. by rewrite Hv.
Qed.

Lemma get_score zl A x B q : score_at_ zl A (x :: B) q → zzlGetScore zl q = Some (ns x).
Proof.
  intros Hq. destruct (pl_get_at _ _ _ _ _ Hq (proj2 (entries_lookup A x B))) as (v & Hv & Hr). unfold zzlGetScore, get_entry. rewrite Hv. by apply (read_double_text junk).
Qed.

Lemma score_of_elem_spec zl A x B p : elem_at zl A (x :: B) p → score_of_elem zl p = Some (ns x).
Proof. intros Hp. unfold score_of_elem. destruct (must_next_elem _ _ _ _ _ Hp) as (q & -> & Hq). by apply get_score with A B. Qed.

Lemma compare_elem zl A x B p ele : elem_at zl A (x :: B) p → pl_compare zl p ele = Some (bool_decide (ne x = ele)).
Proof. intros Hp. exact (pl_compare_law _ _ _ _ _ _ Hp (proj1 (entries_lookup A x B))). Qed.

Lemma snoc_cons {X} (l : list X) (a : X) (r : list X) : l ++ a :: r = (l ++ [a]) ++ r.
Proof. by rewrite <-(assoc_L (++)). Qed.

Lemma next_elem zl A x B q : score_at_ zl A (x :: B) q → ∃ o, pl_next zl q = Some o ∧ elem_opt zl (A ++ [x]) B o.
Proof.
  intros Hq. destruct (pl_next_law _ _ _ _ Hq) as (o & Ho & Hm). exists o. split; [done|]. unfold elem_opt, elem_at. rewrite <-snoc_cons, length_app. cbn [length].
  replace (2 * (length A + 1))%nat with (S (S (2 * length A))) by lia. destruct B as [|y B].
  - destruct o as [o|]; [|done]. destruct Hm as [Hm _]. rewrite entries_length, length_app in Hm. cbn [length] in Hm. lia.
  - destruct o as [o|]; [destruct Hm as [_ Hm]; by exists o|]. apply lookup_ge_None in Hm. rewrite entries_length, length_app in Hm. cbn [length] in Hm. lia.
Qed.

(** Backwards from an element, or from the end. *)
Definition back_opt zl A B (o : option Z) : Prop := (A = [] ∧ o = None) ∨ ∃ A' y q, A = A' ++ [y] ∧ o = Some q ∧ score_at_ zl A' (y :: B) q.

Lemma prev_elem zl A B p : elem_at zl A B p → ∃ o, pl_prev zl p = Some o ∧ back_opt zl A B o.
Proof.
  intros Hp. destruct (pl_prev_law _ _ _ _ Hp) as (o & Ho & Hm). exists o. split; [done|]. destruct o as [q|].
  - destruct Hm as (j & Hj & Hq). right. destruct A as [|y A' _] using rev_ind; [done|]. exists A', y, q. split_and!; [done|done|]. unfold score_at_. rewrite snoc_cons.
    rewrite length_app in Hj. cbn [length] in Hj. by replace (S (2 * length A')) with j by lia.
  - left. split; [|done]. destruct A; [done|]. cbn [length] in Hm. lia.
Qed.

Lemma prev_score zl A x B q : score_at_ zl A (x :: B) q → ∃ p, pl_prev zl q = Some (Some p) ∧ elem_at zl A (x :: B) p.
Proof.
  intros Hq. destruct (pl_prev_law _ _ _ _ Hq) as (o & Ho & Hm). destruct o as [p|]; [|lia]. destruct Hm as (j & Hj & Hp). exists p. split; [done|]. unfold elem_at. by replace (2 * length A)%nat with j by lia.
Qed.

Lemma zl_fuel_spec zl L : pl_rep zl (entries L) → zl_fuel zl = S (2 * length L).
Proof. intros Hr. unfold zl_fuel. destruct (pl_len_law _ _ Hr) as (t & -> & _). rewrite entries_length. f_equal. lia. Qed.

Lemma zzlLength_spec zl L : pl_rep zl (entries L) → ∃ zl', zzlLength zl = Some (zl', zlen L) ∧ pl_rep zl' (entries L).
Proof.
  intros Hr. unfold zzlLength. destruct (pl_len_law _ _ Hr) as (t & -> & Ht). cbn [mbind option_bind]. exists t. split; [|done]. rewrite entries_length. do 2 f_equal. rewrite Nat2Z.inj_mul, Z.mul_comm. by apply Z.div_mul.
Qed.

(** The first element, and the last one. *)
Lemma first_elem zl L : pl_rep zl (entries L) → ∃ o, pl_index zl 0 = Some o ∧ elem_opt zl [] L o.
Proof.
  intros Hr. destruct (pl_head_law zl _ Hr) as (o & Ho & Hm). exists o. split; [done|]. destruct o as [p|].
  - destruct Hm as [Hne Hp]. destruct L; [done|]. by exists p.
  - destruct L; [done|]. discriminate Hm.
Qed.

(** An entry counted from the end. *)
Lemma last_elem zl L : pl_rep zl (entries L) → ∃ o, pl_index zl (-2) = Some o ∧ match o with Some p => ∃ A x, L = A ++ [x] ∧ elem_at zl A [x] p | None => L = [] end.
Proof.
  intros Hr. destruct (pl_index_law zl _ (-2) Hr) as (o & Ho & Hm); [lia|]. exists o. split; [done|]. unfold a_index in Hm. rewrite entries_length in Hm. cbn [Z.ltb Z.compare Z.opp] in Hm.
  destruct L as [|x A _] using rev_ind; [destruct o as [p|]; [by destruct Hm as (? & ? & _)|done]|]. rewrite length_app in Hm. cbn [length] in Hm. rewrite (proj2 (Z.leb_le _ _)) in Hm by lia. destruct o as [p|]; [|done].
  destruct Hm as (k & [= <-] & _ & Hp). exists A, x. split; [done|]. unfold elem_at. by replace (2 * length A)%nat with (Z.to_nat (Z.of_nat (2 * (length A + 1)) + -2)) by lia.
Qed.

Lemma last_score_entry zl L : pl_rep zl (entries L) → ∃ o, pl_index zl (-1) = Some o ∧ match o with Some p => ∃ A x, L = A ++ [x] ∧ score_at_ zl A [x] p | None => L = [] end.
Proof.
  intros Hr. destruct (pl_index_law zl _ (-1) Hr) as (o & Ho & Hm); [lia|]. exists o. split; [done|]. unfold a_index in Hm. rewrite entries_length in Hm. cbn [Z.ltb Z.compare Z.opp] in Hm.
  destruct L as [|x A _] using rev_ind; [destruct o as [p|]; [by destruct Hm as (? & ? & _)|done]|]. rewrite length_app in Hm. cbn [length] in Hm. rewrite (proj2 (Z.leb_le _ _)) in Hm by lia. destruct o as [p|]; [|done].
  destruct Hm as (k & [= <-] & _ & Hp). exists A, x. split; [done|]. unfold score_at_. by replace (S (2 * length A)) with (Z.to_nat (Z.of_nat (2 * (length A + 1)) + -1)) by lia.
Qed.

Lemma first_score zl x L : pl_rep zl (entries (x :: L)) → ∃ p, pl_index zl 1 = Some (Some p) ∧ score_at_ zl [] (x :: L) p.
Proof.
  intros Hr. destruct (pl_index_law zl _ 1 Hr) as (o & Ho & Hm); [lia|]. unfold a_index in Hm. rewrite entries_length in Hm. cbn [Z.ltb Z.compare length] in Hm. rewrite (proj2 (Z.ltb_lt _ _)) in Hm by lia.
  destruct o as [p|]; [|done]. destruct Hm as (k & [= <-] & _ & Hp). by exists p.
Qed.

(** The pointer to the last element of [A], which [B] follows. *)
Definition last_opt zl A B (o : option Z) : Prop := (A = [] ∧ o = None) ∨ (∃ A' y p, A = A' ++ [y] ∧ o = Some p ∧ elem_at zl A' (y :: B) p).

Lemma prev_pair zl A x B p :
  elem_at zl A (x :: B) p → ∃ o, pl_prev zl p = Some o ∧ match o with None => A = [] | Some q => ∃ p', pl_prev zl q = Some (Some p') ∧ last_opt zl A (x :: B) (Some p') ∧ ∃ A' y, A = A' ++ [y] ∧ score_at_ zl A' (y :: x :: B) q end.
Proof.
  intros Hp. destruct (prev_elem _ _ _ _ Hp) as (o & Ho & [[-> ->]|(A' & y & q & -> & -> & Hq)]); eexists; (split; [exact Ho|]); [done|].
  destruct (prev_score _ _ _ _ _ Hq) as (p' & Hp' & Hat). exists p'. split; [done|]. split; [right; by exists A', y, p'|]. by exists A', y.
Qed.

(** An element and its score are deleted. *)
Lemma delete_pair zl A x B p : elem_at zl A (x :: B) p → ∃ zl1 zl2, pl_delete zl p = Some (zl1, p) ∧ pl_delete zl1 p = Some (zl2, p) ∧ elem_at zl2 A B p.
Proof.
  unfold elem_at. intros Hp. destruct (pl_delete_law _ _ _ _ Hp) as (zl1 & E1 & Hp1); [rewrite entries_length, length_app; cbn [length]; lia|]. exists zl1.
  rewrite take_entries, <-Nat.add_1_r, drop_entries in Hp1. destruct (pl_delete_law _ _ _ _ Hp1) as (zl2 & E2 & Hp2); [rewrite length_app, !entries_length; cbn; lia|]. exists zl2. split; [done|]. split; [done|].
  rewrite <-entries_length, take_app_length, <-Nat.add_1_r, <-drop_drop, drop_app_length, entries_length in Hp2. change (drop 1 (drop 1 (entries (x :: B)))) with (entries B) in Hp2. by rewrite <-entries_app in Hp2.
Qed.

(** ** Ranges *)

Section Range_.

Context {V : Type} (value : T → Z → option V) (val : nd Sc → V) (gte lte : V → bool).
Hypothesis value_spec : ∀ zl A x B p, elem_at zl A (x :: B) p → value zl p = Some (val x).

(** The pointer to a range [D] that follows [A]. *)
Definition start_of zl A D C (o : option Z) : Prop := (D = [] ∧ o = None) ∨ (D ≠ [] ∧ ∃ p, o = Some p ∧ elem_at zl A (D ++ C) p).
Definition end_of zl A D C (o : option Z) : Prop := (D = [] ∧ o = None) ∨ (∃ D' y p, D = D' ++ [y] ∧ o = Some p ∧ elem_at zl (A ++ D') (y :: C) p).


Lemma first_loop_spec zl D C :
  Forall (λ x, gte (val x) = true) (D ++ C) → Forall (λ x, lte (val x) = true) D → Forall (λ x, lte (val x) = false) C →
  ∀ A P fuel o, Forall (λ x, gte (val x) = false) A → elem_opt zl P (A ++ D ++ C) o → (length (A ++ D ++ C) < fuel)%nat →
  ∃ o', zzl_first_loop value gte lte fuel zl o = Some o' ∧ start_of zl (P ++ A) D C o'.
Proof.
  intros HDC HD HC A. induction A as [|x A IH]; intros P fuel o HA Ho Hf; (destruct fuel as [|fuel]; [lia|]); cbn [zzl_first_loop app] in *.
  - rewrite app_nil_r. destruct D as [|d D]; cbn [app] in *; [|].
    + destruct C as [|c C]; cbn [elem_opt] in Ho; [subst o; exists None; split; [done|by left]|]. destruct Ho as (p & -> & Hp). rewrite (value_spec _ _ _ _ _ Hp). cbn [mbind option_bind].
      apply Forall_cons in HDC as [-> _], HC as [-> _]. exists None. split; [done|by left].
    + destruct Ho as (p & -> & Hp). rewrite (value_spec _ _ _ _ _ Hp). cbn [mbind option_bind]. apply Forall_cons in HDC as [-> _], HD as [-> _]. exists (Some p). split; [done|]. right. split; [done|]. by exists p.
  - destruct Ho as (p & -> & Hp). apply Forall_cons in HA as [Hx HA]. rewrite (value_spec _ _ _ _ _ Hp). cbn [mbind option_bind]. rewrite Hx. destruct (must_next_elem _ _ _ _ _ Hp) as (q & -> & Hq). cbn [mbind option_bind].
    destruct (next_elem _ _ _ _ _ Hq) as (o & -> & Ho). cbn [mbind option_bind]. rewrite (snoc_cons P x A). apply IH; [done|done|cbn [length] in Hf; lia].
Qed.

Lemma last_loop_none zl A : Forall (λ x, gte (val x) = false) A → ∀ B fuel o, last_opt zl A B o → (length A < fuel)%nat → zzl_last_loop value gte lte fuel zl o = Some None.
Proof.
  induction A as [|x A IH] using rev_ind; intros HA B fuel o Ho Hf; (destruct fuel as [|fuel]; [lia|]); cbn [zzl_last_loop]; destruct Ho as [[E ->]|(A' & y & p & E & -> & Hp)]; try done; [by destruct A'|].
  apply app_inj_tail in E as [<- <-]. apply Forall_app in HA as [HA [Hx _]%Forall_cons]. rewrite (value_spec _ _ _ _ _ Hp). cbn [mbind option_bind]. rewrite Hx. destruct (lte (val x)); [done|].
  destruct (prev_pair _ _ _ _ _ Hp) as (o & -> & Ho). cbn [mbind option_bind]. destruct o as [q|]; [|done]. destruct Ho as (p' & -> & Hl & _). cbn [mbind option_bind]. eapply IH; [done|done|]. rewrite length_app in Hf. cbn [length] in Hf. lia.
Qed.

Lemma last_loop_spec zl A D :
  Forall (λ x, gte (val x) = false) A → Forall (λ x, gte (val x) = true) D → Forall (λ x, lte (val x) = true) D →
  ∀ C B fuel o, Forall (λ x, lte (val x) = false) C → last_opt zl (A ++ D ++ C) B o → (length (A ++ D ++ C) < fuel)%nat →
  ∃ o', zzl_last_loop value gte lte fuel zl o = Some o' ∧ end_of zl A D (C ++ B) o'.
Proof.
  intros HA HD HD' C. induction C as [|x C IH] using rev_ind; intros B fuel o HC Ho Hf; (destruct fuel as [|fuel]; [lia|]).
  - rewrite app_nil_r in *. destruct D as [|y D _] using rev_ind.
    + rewrite app_nil_r in *. exists None. split; [by eapply last_loop_none|by left].
    + cbn [zzl_last_loop]. destruct Ho as [[E _]|(A' & z & p & E & -> & Hp)]; [by destruct A, D|]. rewrite (assoc_L (++)) in E. apply app_inj_tail in E as [<- <-].
      rewrite (value_spec _ _ _ _ _ Hp). cbn [mbind option_bind]. apply Forall_app in HD as [_ [-> _]%Forall_cons], HD' as [_ [-> _]%Forall_cons]. exists (Some p). split; [done|]. right. by exists D, y, p.
  - cbn [zzl_last_loop]. rewrite !(assoc_L (++)) in Ho. destruct Ho as [[E _]|(A' & z & p & E & -> & Hp)]; [by destruct A, D, C|]. apply app_inj_tail in E as [<- <-]. apply Forall_app in HC as [HC [Hx _]%Forall_cons].
    rewrite (value_spec _ _ _ _ _ Hp). cbn [mbind option_bind]. rewrite Hx. rewrite <-(assoc_L (++)) in Hp. destruct (prev_pair _ _ _ _ _ Hp) as (o & -> & Ho). cbn [mbind option_bind].
    rewrite !length_app in Hf. cbn [length] in Hf. destruct o as [q|].
    + destruct Ho as (p' & -> & Hl & _). cbn [mbind option_bind]. destruct (IH (x :: B) fuel (Some p') HC Hl) as (o' & -> & Hend); [rewrite !length_app; lia|]. exists o'. by rewrite <-(assoc_L (++)).
    + exists None. split; [done|]. left. split; [|done]. by destruct A, D.
Qed.

(** Deleting from the start of a range to its end. *)
Lemma delete_loop_spec C : (∀ x, head C = Some x → lte (val x) = false) → ∀ D A zl fuel p num,
  Forall (λ x, lte (val x) = true) D → elem_at zl A (D ++ C) p → (length D < fuel)%nat →
  ∃ zl', zzl_delete_loop value lte fuel zl p num = Some (zl', num + zlen D) ∧ pl_rep zl' (entries (A ++ C)).
Proof.
  intros HC D. induction D as [|x D IH]; intros A zl fuel p num HD Hp Hf; (destruct fuel as [|fuel]; [lia|]); cbn [zzl_delete_loop app] in *.
  - rewrite Z.add_0_r. destruct C as [|c C].
    + destruct (pl_next_law _ _ _ _ Hp) as (o & -> & Ho). cbn [mbind option_bind]. destruct o as [q|]; [destruct Ho as [Ho _]; rewrite app_nil_r, entries_length in Ho; lia|]. exists zl. split; [done|]. by eapply pl_at_rep.
    + destruct (must_next_elem _ _ _ _ _ Hp) as (q & Hn & _). unfold must_next in Hn. destruct (pl_next zl p) as [[?|]|]; try done. cbn [mbind option_bind]. rewrite (value_spec _ _ _ _ _ Hp). cbn [mbind option_bind].
      rewrite (HC c eq_refl). exists zl. split; [done|]. by eapply pl_at_rep.
  - destruct (must_next_elem _ _ _ _ _ Hp) as (q & Hn & _). unfold must_next in Hn. destruct (pl_next zl p) as [[?|]|]; try done. cbn [mbind option_bind]. rewrite (value_spec _ _ _ _ _ Hp). cbn [mbind option_bind].
    apply Forall_cons in HD as [-> HD]. destruct (delete_pair _ _ _ _ _ Hp) as (zl1 & zl2 & -> & E2 & Hp2). cbn [mbind option_bind]. rewrite E2. cbn [mbind option_bind].
    destruct (IH A zl2 fuel p (num + 1) HD Hp2) as (zl' & -> & Hr); [cbn [length] in Hf; lia|]. exists zl'. split; [|done]. do 2 f_equal. cbn [length]. lia.
Qed.

End Range_.

(** ** The ends of a range *)

(** The part of the list that is in a range, between what is before and what is after it. *)
Record segment (gte lte : Sc → bytes → bool) L A D C : Prop := {
  sg_list : L = A ++ D ++ C;
  sg_before : Forall (λ x, gte (ns x) (ne x) = false) A;
  sg_gte : Forall (λ x, gte (ns x) (ne x) = true) (D ++ C);
  sg_lte : Forall (λ x, lte (ns x) (ne x) = true) D;
  sg_after : Forall (λ x, lte (ns x) (ne x) = false) C;
  sg_inside : filter (inside gte lte) L = D;
}.

Section Ends_.

Context (L : list (nd Sc)) (gte lte : Sc → bytes → bool).
Context (Hs : zsorted L) (Hgte : down_closed (λ s e, negb (gte s e)) L) (Hlte : down_closed lte L).

Lemma segment_exists : ∃ A D C, segment gte lte L A D C.
Proof using Hs Hgte Hlte. destruct (ends_split L gte lte Hs Hgte Hlte) as (A & D & C & H1 & H2 & H3 & H4 & H5 & H6). by exists A, D, C. Qed.

Lemma empty_by : (∀ x, x ∈ L → inside gte lte x → False) → filter (inside gte lte) L = [].
Proof using. intros HP. apply filter_none, Forall_forall. intros x Hx Hin. by eapply HP. Qed.

(** The last element is below the range, or the first one is above it. *)
Lemma empty_last A y : L = A ++ [y] → gte (ns y) (ne y) = false → filter (inside gte lte) L = [].
Proof using Hs Hgte.
  intros HL Hy. apply empty_by. intros x Hx [Hg _]%andb_true_iff. rewrite HL in Hx. apply elem_of_app in Hx as [Hx| ->%list_elem_of_singleton]; [|congruence].
  rewrite HL in Hs. destruct (zsorted_app _ A [y] eq_refl Hs) as (_ & _ & Hlt). assert (negb (gte (ns x) (ne x)) = true) as E; [|rewrite Hg in E; done].
  apply (Hgte x y); [rewrite HL; apply elem_of_app; by left|rewrite HL; apply elem_of_app; right; by left|apply Hlt; [done|by left]|by rewrite Hy].
Qed.

Lemma empty_first y B : L = y :: B → lte (ns y) (ne y) = false → filter (inside gte lte) L = [].
Proof using Hs Hlte.
  intros HL Hy. apply empty_by. intros x Hx [_ Hl]%andb_true_iff. rewrite HL in Hx. apply elem_of_cons in Hx as [->|Hx]; [congruence|].
  rewrite HL in Hs. apply StronglySorted_inv in Hs as [_ Hlt]. rewrite Forall_forall in Hlt. rewrite (Hlte y x) in Hy; [done|rewrite HL; by left|rewrite HL; by right|by apply Hlt|done].
Qed.

End Ends_.

Lemma zzlIsInRange_spec zl L r :
  pl_rep zl (entries L) → zsorted L → ∃ b, zzlIsInRange zl r = Some b ∧ (b = false → filter (inside (λ s _, zslValueGteMin s r) (λ s _, zslValueLteMax s r)) L = []).
Proof.
  intros Hr Hs. unfold zzlIsInRange. destruct (sgt _ _ || _) eqn:Eb.
  { exists false. split; [done|]. intros _. apply empty_by. intros x _ [Hg Hl]%andb_true_iff. by eapply bad_range. }
  destruct (last_score_entry zl L Hr) as (o & -> & Ho). cbn [mbind option_bind]. destruct o as [p|]; [|exists false; split; [done|]; by rewrite Ho].
  destruct Ho as (A & y & HL & Hp). rewrite (get_score _ _ _ _ _ Hp). cbn [mbind option_bind]. destruct (zslValueGteMin (ns y) r) eqn:Ey; cbn [negb].
  2:{ exists false. split; [done|]. intros _. eapply empty_last; [done|apply below_min_closed|done|done]. }
  destruct L as [|w B]; [by destruct A|]. destruct (first_score zl w B Hr) as (q & -> & Hq). cbn [mbind option_bind]. rewrite (get_score _ _ _ _ _ Hq). cbn [mbind option_bind].
  eexists. split; [done|]. intros E. eapply empty_first; [done|apply upto_max_closed|done|done].
Qed.

Lemma zzlIsInLexRange_spec zl L r :
  pl_rep zl (entries L) → zsorted L → flat L → ∃ b, zzlIsInLexRange zl r = Some b ∧ (b = false → filter (inside (λ _ e, zslLexValueGteMin e r) (λ _ e, zslLexValueLteMax e r)) L = []).
Proof.
  intros Hr Hs Hfl. unfold zzlIsInLexRange. cbv zeta. destruct ((0 <? _) || _) eqn:Eb.
  { exists false. split; [done|]. intros _. apply empty_by. intros x _ [Hg Hl]%andb_true_iff. by eapply bad_lex_range. }
  destruct (last_elem zl L Hr) as (o & -> & Ho). cbn [mbind option_bind]. destruct o as [p|]; [|exists false; split; [done|]; by rewrite Ho].
  destruct Ho as (A & y & HL & Hp). rewrite (get_elem _ _ _ _ _ Hp). cbn [mbind option_bind]. destruct (zslLexValueGteMin (ne y) r) eqn:Ey; cbn [negb].
  2:{ exists false. split; [done|]. intros _. eapply empty_last; [done|by apply lex_below_min_closed|done|done]. }
  destruct L as [|w B]; [by destruct A|]. destruct (first_elem zl (w :: B) Hr) as (o & -> & (q & -> & Hq)). cbn [mbind option_bind]. rewrite (get_elem _ _ _ _ _ Hq). cbn [mbind option_bind].
  eexists. split; [done|]. intros E. eapply empty_first; [done|by apply lex_upto_max_closed|done|done].
Qed.

(** Both ends of a range. *)
Lemma segment_ends {V} (value : T → Z → option V) (val : Sc → bytes → V) (g l : V → bool) zl L A D C o1 o2 (b : bool) :
  (∀ zl A x B p, elem_at zl A (x :: B) p → value zl p = Some (val (ns x) (ne x))) → pl_rep zl (entries L) → segment (λ s e, g (val s e)) (λ s e, l (val s e)) L A D C →
  (b = false → D = []) → elem_opt zl [] L o1 → last_opt zl L [] o2 →
  (∃ o, (if negb b then Some None else zzl_first_loop value g l (zl_fuel zl) zl o1) = Some o ∧ start_of zl A D C o) ∧
  (∃ o, (if negb b then Some None else zzl_last_loop value g l (zl_fuel zl) zl o2) = Some o ∧ end_of zl A D C o).
Proof.
  intros Hv Hr [HL H1 H2 H3 H4 _] Hb Ho1 Ho2. destruct b; cbn [negb]; [|rewrite (Hb eq_refl); split; exists None; (split; [done|by left])]. rewrite (zl_fuel_spec zl L Hr). rewrite HL in Ho1, Ho2 |- *. split.
  - apply (first_loop_spec value (λ x, val (ns x) (ne x)) g l Hv zl D C H2 H3 H4 A []); [done|done|lia].
  - destruct (last_loop_spec value (λ x, val (ns x) (ne x)) g l Hv zl A D H1 (proj1 (proj1 (Forall_app _ _ _) H2)) H3 C [] (S (2 * length (A ++ D ++ C))) o2 H4 Ho2) as (o & E & Ho); [lia|]. rewrite app_nil_r in Ho. by exists o.
Qed.

Lemma last_elem_opt zl L : pl_rep zl (entries L) → ∃ o, pl_index zl (-2) = Some o ∧ last_opt zl L [] o.
Proof.
  intros Hr. destruct (last_elem zl L Hr) as (o & E & Ho). exists o. split; [done|]. destruct o as [p|]; [|by left]. destruct Ho as (A & x & -> & Hp). right. by exists A, x, p.
Qed.

Abbreviation in_score r := (inside (λ s _, zslValueGteMin s r) (λ s _, zslValueLteMax s r)).
Abbreviation in_lex r := (inside (λ _ e, zslLexValueGteMin e r) (λ _ e, zslLexValueLteMax e r)).

Lemma score_ends zl L r :
  pl_rep zl (entries L) → zsorted L → ∃ A D C o1 o2, segment (λ s _, zslValueGteMin s r) (λ s _, zslValueLteMax s r) L A D C ∧
    zzlFirstInRange zl r = Some o1 ∧ start_of zl A D C o1 ∧ zzlLastInRange zl r = Some o2 ∧ end_of zl A D C o2.
Proof.
  intros Hr Hs. destruct (segment_exists L _ _ Hs (below_min_closed r L) (upto_max_closed r L)) as (A & D & C & Hsg). exists A, D, C. unfold zzlFirstInRange, zzlLastInRange.
  destruct (first_elem zl L Hr) as (p1 & -> & Hp1), (last_elem_opt zl L Hr) as (p2 & -> & Hp2). destruct (zzlIsInRange_spec zl L r Hr Hs) as (b & -> & Hb). cbn [mbind option_bind]. rewrite (sg_inside _ _ _ _ _ _ Hsg) in Hb.
  destruct (segment_ends score_of_elem (λ s _, s) (λ s, zslValueGteMin s r) (λ s, zslValueLteMax s r) zl L A D C p1 p2 b score_of_elem_spec Hr Hsg Hb Hp1 Hp2) as [(o1 & E1 & H1) (o2 & E2 & H2)]. by exists o1, o2.
Qed.

Lemma lex_ends zl L r :
  pl_rep zl (entries L) → zsorted L → flat L → ∃ A D C o1 o2, segment (λ _ e, zslLexValueGteMin e r) (λ _ e, zslLexValueLteMax e r) L A D C ∧
    zzlFirstInLexRange zl r = Some o1 ∧ start_of zl A D C o1 ∧ zzlLastInLexRange zl r = Some o2 ∧ end_of zl A D C o2.
Proof.
  intros Hr Hs Hfl. destruct (segment_exists L _ _ Hs (lex_below_min_closed r L Hfl) (lex_upto_max_closed r L Hfl)) as (A & D & C & Hsg). exists A, D, C. unfold zzlFirstInLexRange, zzlLastInLexRange.
  destruct (first_elem zl L Hr) as (p1 & -> & Hp1), (last_elem_opt zl L Hr) as (p2 & -> & Hp2). destruct (zzlIsInLexRange_spec zl L r Hr Hs Hfl) as (b & -> & Hb). cbn [mbind option_bind]. rewrite (sg_inside _ _ _ _ _ _ Hsg) in Hb.
  destruct (segment_ends ziplistGetObject (λ _ e, e) (λ e, zslLexValueGteMin e r) (λ e, zslLexValueLteMax e r) zl L A D C p1 p2 b get_elem Hr Hsg Hb Hp1 Hp2) as [(o1 & E1 & H1) (o2 & E2 & H2)]. by exists o1, o2.
Qed.

(** ** Removing ranges *)

Lemma segment_filter (f gte lte : Sc → bytes → bool) L A D C :
  segment gte lte L A D C → (∀ s e, f s e = gte s e && lte s e) → filter (λ x, f (ns x) (ne x) = true) L = D ∧ filter (λ x, f (ns x) (ne x) = false) L = A ++ C.
Proof.
  intros [HL H1 H2 H3 H4 H5] Hf. split; [by rewrite (select_inside f gte lte L Hf)|]. apply Forall_app in H2 as [H2 _]. rewrite HL, !filter_app, filter_all, (filter_none _ D), (filter_all _ C); [done| | |].
  - eapply Forall_impl; [exact H4|]. intros x Hx. by rewrite Hf, Hx, andb_false_r.
  - rewrite Forall_forall in H2, H3 |- *. intros x Hx. by rewrite Hf, (H2 x Hx), (H3 x Hx).
  - eapply Forall_impl; [exact H1|]. intros x Hx. by rewrite Hf, Hx.
Qed.

Lemma delete_segment {V} (value : T → Z → option V) (val : Sc → bytes → V) gte (l : V → bool) zl L A D C o :
  (∀ zl A x B p, elem_at zl A (x :: B) p → value zl p = Some (val (ns x) (ne x))) → pl_rep zl (entries L) → segment gte (λ s e, l (val s e)) L A D C → start_of zl A D C o →
  ∃ zl', match o with None => Some (zl, 0) | Some e => zzl_delete_loop value l (zl_fuel zl) zl e 0 end = Some (zl', zlen D) ∧ pl_rep zl' (entries (A ++ C)).
Proof.
  intros Hv Hr [HL H1 H2 H3 H4 _] [[-> ->]|[_ (p & -> & Hp)]]; [exists zl; by rewrite HL in Hr|]. rewrite (zl_fuel_spec zl L Hr).
  destruct (delete_loop_spec value (λ x, val (ns x) (ne x)) l Hv C) with (D := D) (A := A) (zl := zl) (fuel := S (2 * length L)) (p := p) (num := 0) as (zl' & E & Hr'); [|done|done|rewrite HL, !length_app; lia|by exists zl'].
  intros x Hx. destruct C; [done|]. injection Hx as ->. by apply Forall_cons in H4 as [? _].
Qed.

Lemma zzlDeleteRangeByScore_spec zl L r : pl_rep zl (entries L) → zsorted L →
  ∃ zl', zzlDeleteRangeByScore zl r = Some (zl', zlen (filter (λ x, in_range r (ns x) = true) L)) ∧ pl_rep zl' (entries (filter (λ x, in_range r (ns x) = false) L)).
Proof.
  intros Hr Hs. destruct (score_ends zl L r Hr Hs) as (A & D & C & o1 & o2 & Hsg & E1 & H1 & _). destruct (segment_filter (λ s _, in_range r s) _ _ L A D C Hsg ltac:(done)) as [-> ->].
  unfold zzlDeleteRangeByScore. rewrite E1. cbn [mbind option_bind]. exact (delete_segment score_of_elem (λ s _, s) _ (λ s, zslValueLteMax s r) zl L A D C o1 score_of_elem_spec Hr Hsg H1).
Qed.

Lemma zzlDeleteRangeByLex_spec zl L r : pl_rep zl (entries L) → zsorted L → flat L →
  ∃ zl', zzlDeleteRangeByLex zl r = Some (zl', zlen (filter (λ x, in_lex_range r (ne x) = true) L)) ∧ pl_rep zl' (entries (filter (λ x, in_lex_range r (ne x) = false) L)).
Proof.
  intros Hr Hs Hfl. destruct (lex_ends zl L r Hr Hs Hfl) as (A & D & C & o1 & o2 & Hsg & E1 & H1 & _). destruct (segment_filter (λ _ e, in_lex_range r e) _ _ L A D C Hsg ltac:(done)) as [-> ->].
  unfold zzlDeleteRangeByLex. rewrite E1. cbn [mbind option_bind]. exact (delete_segment ziplistGetObject (λ _ e, e) _ (λ e, zslLexValueLteMax e r) zl L A D C o1 get_elem Hr Hsg H1).
Qed.

Lemma zzlDeleteRangeByRank_spec zl L start end_ : pl_rep zl (entries L) → 1 ≤ start → start ≤ end_ → end_ ≤ zlen L → zlen L < 2 ^ 30 →
  ∃ zl', zzlDeleteRangeByRank zl start end_ = Some (zl', end_ - start + 1) ∧ pl_rep zl' (entries (take (Z.to_nat (start - 1)) L ++ drop (Z.to_nat (end_ - (start - 1))) (drop (Z.to_nat (start - 1)) L))).
Proof.
  intros Hr H1 H2 H3 H4. unfold zzlDeleteRangeByRank. cbv zeta. rewrite (wrap_u_small 32 (end_ - start)) by (unfold in_u; lia). rewrite (wrap_u_small 32 (end_ - start + 1)) by (unfold in_u; lia).
  rewrite !wrap_u_small by (unfold in_u; lia). rewrite wrap_s_small by (unfold in_s; lia).
  destruct (pl_delete_range_law zl _ (2 * (start - 1)) (2 * (end_ - start + 1)) Hr) as (zl' & -> & Hr'); [lia|lia|]. exists zl'. split; [done|]. rewrite entries_app, drop_drop.
  assert (∀ k, take (2 * k) (entries L) = entries (take k L) ∧ drop (2 * k) (entries L) = entries (drop k L)) as Hk.
  { intros k. destruct (decide (k ≤ length L)%nat) as [Hle|].
    - pose proof (conj (take_entries (take k L) (drop k L)) (drop_entries (take k L) (drop k L) 0)) as Hx. rewrite take_drop, length_take_le, Nat.add_0_r in Hx by done. exact Hx.
    - rewrite !take_ge, !drop_ge by (rewrite ?entries_length; lia). done. }
  replace (Z.to_nat (2 * (start - 1))) with (2 * Z.to_nat (start - 1))%nat in Hr' by lia. replace (Z.to_nat (2 * (start - 1) + 2 * (end_ - start + 1))) with (2 * (Z.to_nat (start - 1) + Z.to_nat (end_ - (start - 1))))%nat in Hr' by lia.
  by rewrite (proj1 (Hk _)), (proj2 (Hk _)) in Hr'.
Qed.

(** ** Searching, inserting and deleting *)

Lemma find_loop_spec zl ele : ∀ B A fuel o, elem_opt zl A B o → (length B < fuel)%nat → ∃ r, zzl_find_loop fuel zl ele o = Some r ∧
  match r with
  | None => ele ∉ ne <$> B
  | Some (e, q) => ∃ B1 x B2, B = B1 ++ x :: B2 ∧ ne x = ele ∧ elem_at zl (A ++ B1) (x :: B2) e ∧ score_at_ zl (A ++ B1) (x :: B2) q
  end.
Proof.
  induction B as [|x B IH]; intros A fuel o Ho Hf; (destruct fuel as [|fuel]; [lia|]); cbn [zzl_find_loop].
  - cbn in Ho. subst o. exists None. split; [done|]. apply not_elem_of_nil.
  - destruct Ho as (p & -> & Hp). destruct (must_next_elem _ _ _ _ _ Hp) as (q & -> & Hq). cbn [mbind option_bind]. rewrite (compare_elem _ _ _ _ _ _ Hp). cbn [mbind option_bind]. case_bool_decide as E.
    + exists (Some (p, q)). split; [done|]. exists [], x, B. rewrite app_nil_r. by split_and!.
    + destruct (next_elem _ _ _ _ _ Hq) as (o & -> & Ho). cbn [mbind option_bind]. destruct (IH (A ++ [x]) fuel o Ho) as (r & -> & Hr); [cbn [length] in Hf; lia|]. exists r. split; [done|]. destruct r as [[e q']|].
      * destruct Hr as (B1 & y & B2 & -> & Hy & H1 & H2). exists (x :: B1), y, B2. rewrite (snoc_cons A x B1). by split_and!.
      * rewrite fmap_cons. apply not_elem_of_cons. split; [by apply not_eq_sym|done].
Qed.

Lemma zzlFind_spec zl L ele : pl_rep zl (entries L) → ∃ r, zzlFind zl ele = Some r ∧
  zzlFind_null zl ele = Some (match r with Some (e, _) => Some e | None => None end) ∧
  match r with
  | None => ele ∉ ne <$> L
  | Some (e, s) => ∃ A x B, L = A ++ x :: B ∧ ne x = ele ∧ ns x = s ∧ elem_at zl A (x :: B) e
  end.
Proof.
  intros Hr. unfold zzlFind, zzlFind_null. destruct (first_elem zl L Hr) as (o & -> & Ho). cbn [mbind option_bind]. rewrite (zl_fuel_spec zl L Hr). destruct (find_loop_spec zl ele L [] (S (2 * length L)) o Ho) as (r & -> & Hm); [lia|]. cbn [mbind option_bind].
  destruct r as [[e q]|]; [|by exists None]. destruct Hm as (A & x & B & HL & Hx & He & Hq). rewrite (get_score _ _ _ _ _ Hq). cbn [mbind option_bind]. exists (Some (e, ns x)). split; [done|]. split; [done|]. by exists A, x, B.
Qed.

Lemma zzlDelete_spec zl A x B p : elem_at zl A (x :: B) p → ∃ zl', zzlDelete zl p = Some zl' ∧ pl_rep zl' (entries (A ++ B)).
Proof.
  intros Hp. destruct (delete_pair _ _ _ _ _ Hp) as (zl1 & zl2 & E1 & E2 & Hp2). unfold zzlDelete. rewrite E1. cbn [mbind option_bind]. rewrite E2. cbn [mbind option_bind]. exists zl2. split; [done|]. by eapply pl_at_rep.
Qed.

Lemma zzlCompareElements_spec zl A x B p ele : elem_at zl A (x :: B) p → zlen (ne x) < 2 ^ 31 → zlen ele < 2 ^ 31 → ∃ c, zzlCompareElements junk zl p ele = Some c ∧ (0 <? c) = (0 <? sdscmp (ne x) ele).
Proof.
  intros Hp Hx He. destruct (pl_get_at _ _ _ _ _ Hp (proj1 (entries_lookup A x B))) as (v & Hv & Ht & Hz & Hs). unfold zzlCompareElements, get_entry. rewrite Hv. cbn [mbind option_bind].
  assert (match v with inl s => Some s | inr vlong => ll_text junk 32 vlong end = Some (ne x)) as ->.
  { destruct v as [t|z]; [by rewrite (Hs t eq_refl)|]. destruct (Hz z eq_refl) as [Hc Hin]. rewrite ll_text_spec by (done || lia). f_equal. eapply canonical_unique; [|done]. by apply of_int_eq. }
  cbn [mbind option_bind]. eexists. split; [done|]. unfold sdscmp. cbv zeta. destruct (memcmp _ _ =? 0); [|done].
  assert (s32 (u32 (zlen (ne x) - zlen ele)) = zlen (ne x) - zlen ele) as -> by (rewrite wrap_s_wrap_u by lia; apply wrap_s_small; [lia|unfold in_s; lia]).
  destruct (Z.ltb_spec (zlen ele) (zlen (ne x))); [rewrite (proj2 (Z.ltb_lt _ _)) by lia; done|]. rewrite (proj2 (Z.ltb_ge _ _)) by lia. by destruct (zlen (ne x) <? zlen ele).
Qed.

(** The test of [zzlInsert] is that the new element is before another one. *)
Lemma insert_here score ele (s : Sc) (e : bytes) :
  (if sgt s score then true else if seqb s score then 0 <? sdscmp e ele else false) = node_lt score ele s e.
Proof.
  unfold sgt, node_lt. destruct (slt score s); [done|]. cbn [orb]. rewrite (seqb_sym s score). destruct (seqb score s); [|done]. cbn [andb].
  destruct (sdscmp_spec ele e) as [H1 _]. pose proof (sdscmp_pos e ele) as H2. apply eq_true_iff_eq. by rewrite !Z.ltb_lt, H1, H2.
Qed.

Lemma insert_loop_spec zl score ele : zlen ele < 2 ^ 31 → ∀ B A fuel o,
  Forall (λ x, zlen (ne x) < 2 ^ 31) B → elem_opt zl A B o → (length B < fuel)%nat → ∃ o' B1 B2, B = B1 ++ B2 ∧
    zzl_insert_loop junk fuel zl ele score o = Some o' ∧ elem_opt zl (A ++ B1) B2 o' ∧
    Forall (λ x, node_lt score ele (ns x) (ne x) = false) B1 ∧ (∀ x, head B2 = Some x → node_lt score ele (ns x) (ne x) = true).
Proof.
  intros He B. induction B as [|x B IH]; intros A fuel o Hsm Ho Hf; (destruct fuel as [|fuel]; [lia|]); cbn [zzl_insert_loop].
  - cbn in Ho. subst o. exists None, [], []. by split_and!.
  - destruct Ho as (p & -> & Hp). apply Forall_cons in Hsm as [Hx Hsm]. destruct (must_next_elem _ _ _ _ _ Hp) as (q & -> & Hq). cbn [mbind option_bind]. rewrite (get_score _ _ _ _ _ Hq). cbn [mbind option_bind].
    assert ((if sgt (ns x) score then Some true else if seqb (ns x) score then c ← zzlCompareElements junk zl p ele; Some (0 <? c) else Some false) = Some (node_lt score ele (ns x) (ne x))) as ->.
    { rewrite <-insert_here. destruct (sgt (ns x) score); [done|]. destruct (seqb (ns x) score); [|done]. destruct (zzlCompareElements_spec _ _ _ _ _ ele Hp Hx He) as (c & -> & Hc). cbn [mbind option_bind]. by rewrite Hc. }
    cbn [mbind option_bind]. destruct (node_lt score ele (ns x) (ne x)) eqn:E.
    + exists (Some p), [], (x :: B). rewrite app_nil_r. split_and!; [done|done|by exists p|done|by intros y [= <-]].
    + destruct (next_elem _ _ _ _ _ Hq) as (o & -> & Ho). cbn [mbind option_bind]. destruct (IH (A ++ [x]) fuel o Hsm Ho) as (o' & B1 & B2 & -> & -> & H1 & H2 & H3); [cbn [length] in Hf; lia|].
      exists o', (x :: B1), B2. rewrite (snoc_cons A x B1). split_and!; [done|done|done|by constructor|done].
Qed.

Lemma zzlInsertAt_spec zl A x B o : pl_rep zl (entries (A ++ B)) → elem_opt zl A B o → csize (entries (A ++ x :: B)) < 2 ^ 32 →
  ∃ zl', zzlInsertAt junk zl o (ne x) (ns x) = Some zl' ∧ pl_rep zl' (entries (A ++ x :: B)).
Proof.
  intros Hr Ho Hc. unfold zzlInsertAt. destruct (double_text_spec junk (ns x)) as (-> & _). cbn [mbind option_bind].
  assert (csize (ne x :: double_text junk (ns x) :: entries (A ++ B)) < 2 ^ 32) as Hc2.
  { rewrite entries_app in Hc. change (entries (x :: B)) with (ne x :: double_text junk (ns x) :: entries B) in Hc. rewrite entries_app. rewrite !csize_cons, csize_app in *. rewrite !csize_cons in Hc. lia. }
  assert (csize (ne x :: entries (A ++ B)) < 2 ^ 32) as Hc1 by (rewrite !csize_cons in *; lia). destruct B as [|y B].
  - cbn in Ho. subst o. rewrite app_nil_r in *. destruct (pl_push_law _ _ (ne x) Hr Hc1) as (zl1 & -> & Hr1). cbn [mbind option_bind].
    destruct (pl_push_law _ _ (double_text junk (ns x)) Hr1) as (zl2 & -> & Hr2); [rewrite csize_cons, csize_app, !csize_cons in *; change (csize []) with 22; lia|]. exists zl2. split; [done|]. rewrite entries_app. by rewrite <-(assoc_L (++)) in Hr2.
  - destruct Ho as (p & -> & Hp). destruct (pl_insert_law _ _ _ _ (ne x) Hp Hc1) as (zl1 & -> & Hp1). cbn [mbind option_bind]. rewrite take_entries in Hp1.
    rewrite <-(Nat.add_0_r (2 * length A)), drop_entries, Nat.add_0_r, drop_0 in Hp1. destruct (pl_next_at _ _ _ _ (ne y) Hp1) as (q & Hq & Hq1).
    { rewrite lookup_app_r by (rewrite entries_length; lia). rewrite entries_length. by replace (S (2 * length A) - 2 * length A)%nat with 1%nat by lia. }
    unfold must_next. rewrite Hq. cbn [mbind option_bind]. destruct (pl_insert_law _ _ _ _ (double_text junk (ns x)) Hq1) as (zl2 & -> & Hp2).
    { rewrite entries_app in Hc2. rewrite !csize_cons, csize_app in *. rewrite !csize_cons. lia. }
    exists zl2. split; [done|]. apply pl_at_rep in Hp2. assert (S (2 * length A) = length (entries A ++ [ne x])) as El by (rewrite length_app, entries_length; cbn; lia).
    rewrite (snoc_cons (entries A) (ne x)), El, take_app_length, drop_app_length, <-(assoc_L (++)) in Hp2. by rewrite entries_app.
Qed.

Lemma zzlInsert_spec zl L score ele : pl_rep zl (entries L) → Forall (λ x, zlen (ne x) < 2 ^ 31) L → zlen ele < 2 ^ 31 → csize (ele :: double_text junk score :: entries L) < 2 ^ 32 →
  ∃ zl' A B, L = A ++ B ∧ zzlInsert junk zl ele score = Some zl' ∧ pl_rep zl' (entries (A ++ Nd 0 score ele 0 :: B)) ∧
    Forall (λ x, node_lt score ele (ns x) (ne x) = false) A ∧ (∀ x, head B = Some x → node_lt score ele (ns x) (ne x) = true).
Proof.
  intros Hr Hsm He Hc. unfold zzlInsert. destruct (first_elem zl L Hr) as (o & -> & Ho). cbn [mbind option_bind]. rewrite (zl_fuel_spec zl L Hr).
  destruct (insert_loop_spec zl score ele He L [] (S (2 * length L)) o Hsm Ho) as (o' & A & B & -> & -> & Ho' & HA & HB); [lia|]. cbn [mbind option_bind].
  destruct (zzlInsertAt_spec zl A (Nd 0 score ele 0) B o' Hr Ho') as (zl' & E & Hr').
  { rewrite entries_app in *. change (entries (Nd 0 score ele 0 :: B)) with (ele :: double_text junk score :: entries B). rewrite !csize_cons, csize_app in *. rewrite !csize_cons. lia. }
  cbn [ne ns] in E. rewrite E. by exists zl', A, B.
Qed.

(** ** Cursors *)

Definition cur_at zl A x B (c : Z * Z) : Prop := elem_at zl A (x :: B) c.1 ∧ score_at_ zl A (x :: B) c.2.
Definition cur_opt zl A B (o : option (Z * Z)) : Prop := match B with [] => o = None | x :: B => ∃ c, o = Some c ∧ cur_at zl A x B c end.

Lemma cursor_of zl A x B p : elem_at zl A (x :: B) p → ∃ q, must_next zl p = Some q ∧ cur_at zl A x B (p, q).
Proof. intros Hp. destruct (must_next_elem _ _ _ _ _ Hp) as (q & E & Hq). by exists q. Qed.

Lemma at_cursor_spec zl A x B c : cur_at zl A x B c → at_cursor zl c = Some (ns x, ne x).
Proof. intros [H1 H2]. unfold at_cursor. rewrite (get_elem _ _ _ _ _ H1). cbn [mbind option_bind]. by rewrite (get_score _ _ _ _ _ H2). Qed.

Lemma zzlNext_spec zl A x B c : cur_at zl A x B c → ∃ o, zzlNext zl c.2 = Some o ∧ cur_opt zl (A ++ [x]) B o.
Proof.
  intros [_ H2]. unfold zzlNext. destruct (next_elem _ _ _ _ _ H2) as (o & -> & Ho). cbn [mbind option_bind]. destruct B as [|y B]; cbn in Ho; [subst o; by exists None|].
  destruct Ho as (p & -> & Hp). destruct (cursor_of _ _ _ _ _ Hp) as (q & -> & Hc). cbn [mbind option_bind]. exists (Some (p, q)). split; [done|]. by exists (p, q).
Qed.

Lemma zzlPrev_spec zl A x B c : cur_at zl A x B c → ∃ o, zzlPrev zl c.1 = Some o ∧ match o with None => A = [] | Some c' => ∃ A' y, A = A' ++ [y] ∧ cur_at zl A' y (x :: B) c' end.
Proof.
  intros [H1 _]. unfold zzlPrev. destruct (prev_pair _ _ _ _ _ H1) as (o & -> & Ho). cbn [mbind option_bind]. destruct o as [q|]; [|by exists None].
  destruct Ho as (p & -> & Hl & A' & y & HA & Hq). cbn [mbind option_bind]. exists (Some (p, q)). split; [done|]. exists A', y. split; [done|]. split; [|done].
  destruct Hl as [[-> _]|(A'' & z & p' & E & [= <-] & Hp)]; [by destruct A'|]. rewrite HA in E. by apply app_inj_tail in E as [<- <-].
Qed.

(** The cursor leads through the elements [W]. *)
Fixpoint zchain zl (rev : bool) (cur : option (Z * Z)) (W : list (nd Sc)) : Prop :=
  match W with
  | [] => cur = None
  | x :: W => ∃ c, cur = Some c ∧ at_cursor zl c = Some (ns x, ne x) ∧ ∃ next, move_cursor zl rev c = Some next ∧ zchain zl rev next W
  end.

Lemma zchain_forward zl : ∀ B A o, cur_opt zl A B o → zchain zl false o B.
Proof.
  induction B as [|x B IH]; intros A o Ho; [done|]. destruct Ho as (c & -> & Hc). exists c. split; [done|]. split; [by eapply at_cursor_spec|]. destruct (zzlNext_spec _ _ _ _ _ Hc) as (o & Eo & Ho). exists o. split; [done|]. by eapply IH.
Qed.

Lemma zchain_backward zl A : ∀ x B c, cur_at zl A x B c → zchain zl true (Some c) (x :: reverse A).
Proof.
  induction A as [|y A IH] using rev_ind; intros x B c Hc; exists c; (split; [done|]); (split; [by eapply at_cursor_spec|]); destruct (zzlPrev_spec _ _ _ _ _ Hc) as (o & Eo & Ho); exists o; (split; [done|]); destruct o as [c'|].
  - destruct Ho as (A' & y & E & _). by destruct A'.
  - done.
  - destruct Ho as (A' & z & E & Hc'). apply app_inj_tail in E as [<- <-]. rewrite reverse_snoc. by eapply IH.
  - by destruct A.
Qed.

Lemma emit_entries_spec zl rev : ∀ n cur W, zchain zl rev cur W → (n ≤ length W)%nat → zzl_emit_entries n zl rev cur = Some (abs (take n W)).
Proof.
  induction n as [|n IH]; intros cur W Hc Hn; [done|]. destruct W as [|x W]; [cbn in Hn; lia|]. destruct Hc as (c & -> & Hx & next & Hm & Hc). cbn [zzl_emit_entries mbind option_bind]. rewrite Hx. cbn [mbind option_bind]. rewrite Hm. cbn [mbind option_bind].
  rewrite (IH next W Hc) by (cbn [length] in Hn; lia). done.
Qed.

Lemma skip_entries_spec zl rev : ∀ fuel cur W offset, zchain zl rev cur W → (length W < fuel)%nat →
  ∃ cur', zzl_skip_entries fuel zl rev cur offset = Some cur' ∧ zchain zl rev cur' (if offset <? 0 then [] else drop (Z.to_nat offset) W).
Proof.
  induction fuel as [|fuel IH]; intros cur W offset Hc Hf; [lia|]. cbn [zzl_skip_entries]. destruct W as [|x W].
  { cbn in Hc. subst cur. exists None. split; [done|]. by destruct (offset <? 0); rewrite ?drop_nil. }
  destruct Hc as (c & -> & Hx & next & Hn & Hc). destruct (Z.eqb_spec offset 0) as [->|Hne]; [exists (Some c); split; [done|]; exists c; split_and!; [done|done|by exists next]|].
  rewrite Hn. cbn [mbind option_bind]. destruct (IH next W (offset - 1) Hc ltac:(cbn [length] in Hf; lia)) as (cur' & -> & Hc'). exists cur'. split; [done|].
  destruct (Z.ltb_spec offset 0); [by rewrite (proj2 (Z.ltb_lt _ _)) in Hc' by lia|]. rewrite (proj2 (Z.ltb_ge _ _)) in Hc' by lia. by replace (Z.to_nat offset) with (S (Z.to_nat (offset - 1))) by lia.
Qed.

Lemma emit_entries_while_spec zl rev more : ∀ fuel cur W1 W2 limit, zchain zl rev cur (W1 ++ W2) → (length (W1 ++ W2) < fuel)%nat →
  Forall (λ x, more (ns x) (ne x) = true) W1 → Forall (λ x, more (ns x) (ne x) = false) W2 →
  zzl_emit_entries_while fuel zl rev more cur limit = Some (abs (if limit <? 0 then W1 else take (Z.to_nat limit) W1)).
Proof.
  induction fuel as [|fuel IH]; intros cur W1 W2 limit Hc Hf H1 H2; [lia|]. cbn [zzl_emit_entries_while]. destruct W1 as [|x W1]; cbn [app] in *.
  { rewrite take_nil. assert ((if limit <? 0 then [] else []) = @nil (nd Sc)) as -> by (by destruct (limit <? 0)). destruct W2 as [|y W2]; [by cbn in Hc; subst cur|].
    destruct Hc as (c & -> & Hy & _). destruct (limit =? 0); [done|]. rewrite Hy. cbn [mbind option_bind]. by apply Forall_cons in H2 as [-> _]. }
  destruct Hc as (c & -> & Hx & next & Hn & Hc). destruct (Z.eqb_spec limit 0) as [->|Hne]; [done|]. rewrite Hx. cbn [mbind option_bind]. apply Forall_cons in H1 as [-> H1]. cbn [negb]. rewrite Hn. cbn [mbind option_bind].
  rewrite (IH next W1 W2 (limit - 1) Hc ltac:(cbn [length] in Hf; lia) H1 H2). cbn [mbind option_bind].
  destruct (Z.ltb_spec limit 0); [by rewrite (proj2 (Z.ltb_lt _ _)) by lia|]. rewrite (proj2 (Z.ltb_ge _ _)) by lia. by replace (Z.to_nat limit) with (S (Z.to_nat (limit - 1))) by lia.
Qed.

(** ** Range queries *)

Lemma emit_from_spec zl (rev : bool) more p A x B W1 W2 offset limit :
  elem_at zl A (x :: B) p → (if rev then x :: reverse A else x :: B) = W1 ++ W2 → Forall (λ x, more (ns x) (ne x) = true) W1 → Forall (λ x, more (ns x) (ne x) = false) W2 →
  zzl_emit_from zl rev more (Some p) offset limit = Some (abs (a_limit offset limit W1)).
Proof.
  intros Hp HW H1 H2. unfold zzl_emit_from, a_limit. destruct (cursor_of _ _ _ _ _ Hp) as (q & -> & Hc). cbn [mbind option_bind].
  assert (zchain zl rev (Some (p, q)) (W1 ++ W2)) as Hch by (rewrite <-HW; destruct rev; [by eapply zchain_backward|eapply zchain_forward; by exists (p, q)]).
  assert ((length (W1 ++ W2) ≤ length (A ++ x :: B))%nat) as Hlen by (rewrite <-HW, length_app; destruct rev; cbn [length]; rewrite ?length_reverse; lia).
  pose proof (pl_at_rep _ _ _ _ Hp) as Hr. rewrite (zl_fuel_spec zl (A ++ x :: B) Hr). destruct (skip_entries_spec zl rev (S (2 * length (A ++ x :: B))) (Some (p, q)) (W1 ++ W2) offset Hch) as (cur & -> & Hc'); [lia|]. cbn [mbind option_bind].
  destruct (offset <? 0).
  - rewrite (emit_entries_while_spec zl rev more _ cur [] [] limit); [|done|cbn [length app]; lia|constructor|constructor]. rewrite take_nil. by destruct (limit <? 0).
  - rewrite drop_app in Hc'. rewrite (emit_entries_while_spec zl rev more _ cur _ _ limit Hc'); [done| |by apply Forall_drop|by apply Forall_drop]. rewrite length_app, !length_drop. rewrite length_app in Hlen. lia.
Qed.

Lemma emit_segment zl gte lte L A D C o1 o2 offset limit (rev : bool) :
  segment gte lte L A D C → start_of zl A D C o1 → end_of zl A D C o2 →
  zzl_emit_from zl rev (λ s e, if rev then gte s e else lte s e) (if rev then o2 else o1) offset limit = Some (abs (a_limit offset limit (turn rev D))).
Proof.
  intros [_ H1 H2 H3 H4 _] Ho1 Ho2. unfold turn. destruct rev.
  - destruct Ho2 as [[-> ->]|(D' & y & p & -> & -> & Hp)]; [by rewrite reverse_nil, a_limit_nil|]. apply (emit_from_spec zl true _ p (A ++ D') y C _ (reverse A)); [done|by rewrite reverse_snoc, reverse_app| |].
    + apply Forall_app in H2 as [H2 _]. by rewrite reverse_Permutation.
    + by rewrite reverse_Permutation.
  - destruct Ho1 as [[-> ->]|[Hne (p & -> & Hp)]]; [by rewrite a_limit_nil|]. destruct D as [|x D]; [done|]. by apply (emit_from_spec zl false _ p A x (D ++ C) _ C).
Qed.

Lemma zzlRangeByScore_spec zl L r offset limit (rev : bool) : pl_rep zl (entries L) → zsorted L →
  zzlRangeByScore zl r offset limit rev = Some (abs (a_limit offset limit (turn rev (filter (λ x, in_range r (ns x) = true) L)))).
Proof.
  intros Hr Hs. destruct (score_ends zl L r Hr Hs) as (A & D & C & o1 & o2 & Hsg & E1 & H1 & E2 & H2). rewrite (proj1 (segment_filter (λ s _, in_range r s) _ _ L A D C Hsg ltac:(done))).
  rewrite <-(emit_segment zl _ _ L A D C o1 o2 offset limit rev Hsg H1 H2). unfold zzlRangeByScore. rewrite E1, E2. by destruct rev.
Qed.

Lemma zzlRangeByLex_spec zl L r offset limit (rev : bool) : pl_rep zl (entries L) → zsorted L → flat L →
  zzlRangeByLex zl r offset limit rev = Some (abs (a_limit offset limit (turn rev (filter (λ x, in_lex_range r (ne x) = true) L)))).
Proof.
  intros Hr Hs Hfl. destruct (lex_ends zl L r Hr Hs Hfl) as (A & D & C & o1 & o2 & Hsg & E1 & H1 & E2 & H2). rewrite (proj1 (segment_filter (λ _ e, in_lex_range r e) _ _ L A D C Hsg ltac:(done))).
  rewrite <-(emit_segment zl _ _ L A D C o1 o2 offset limit rev Hsg H1 H2). unfold zzlRangeByLex. rewrite E1, E2. by destruct rev.
Qed.

Lemma count_loop_spec_ {V} (value : T → Z → option V) (val : Sc → bytes → V) (l : V → bool) zl C :
  (∀ zl A x B p, elem_at zl A (x :: B) p → value zl p = Some (val (ns x) (ne x))) → Forall (λ x, l (val (ns x) (ne x)) = false) C →
  ∀ D A fuel cur num, Forall (λ x, l (val (ns x) (ne x)) = true) D → cur_opt zl A (D ++ C) cur → (length (D ++ C) < fuel)%nat → zzl_count_loop value l fuel zl cur num = Some (num + zlen D).
Proof.
  intros Hv HC D. induction D as [|x D IH]; intros A fuel cur num HD Hc Hf; (destruct fuel as [|fuel]; [lia|]); cbn [zzl_count_loop app] in *.
  - rewrite Z.add_0_r. destruct C as [|y C]; [by cbn in Hc; subst cur|]. destruct Hc as ([e q] & -> & [He _]). cbn [fst] in He. rewrite (Hv _ _ _ _ _ He). cbn [mbind option_bind]. by apply Forall_cons in HC as [-> _].
  - destruct Hc as ([e q] & -> & Hc). pose proof (proj1 Hc) as He. cbn [fst] in He. rewrite (Hv _ _ _ _ _ He). cbn [mbind option_bind]. apply Forall_cons in HD as [-> HD]. cbn [negb]. destruct (zzlNext_spec _ _ _ _ _ Hc) as (o & Eo & Ho). cbn [snd] in Eo. rewrite Eo. cbn [mbind option_bind].
    rewrite (IH _ fuel o (num + 1) HD Ho) by (cbn [length] in Hf; lia). f_equal. cbn [length]. lia.
Qed.

Lemma count_segment {V} (value : T → Z → option V) (val : Sc → bytes → V) gte (l : V → bool) zl L A D C o :
  (∀ zl A x B p, elem_at zl A (x :: B) p → value zl p = Some (val (ns x) (ne x))) → pl_rep zl (entries L) → segment gte (λ s e, l (val s e)) L A D C → start_of zl A D C o →
  zzl_count_from value l zl o = Some (zlen D).
Proof.
  intros Hv Hr [HL H1 H2 H3 H4 _] [[-> ->]|[Hne (p & -> & Hp)]]; [done|]. destruct D as [|x D]; [done|]. cbn [zzl_count_from app] in *. destruct (cursor_of _ _ _ _ _ Hp) as (q & -> & Hc). cbn [mbind option_bind].
  rewrite (Hv _ _ _ _ _ Hp). cbn [mbind option_bind]. pose proof H3 as H3'. apply Forall_cons in H3' as [-> _]. rewrite (zl_fuel_spec zl L Hr). rewrite (count_loop_spec_ value val l zl C Hv H4 (x :: D) A); [done|done|by exists (p, q)|]. rewrite HL, !length_app. cbn [app length]. rewrite ?length_app. lia.
Qed.

Lemma zzlCount_spec zl L r : pl_rep zl (entries L) → zsorted L → zzlCount zl r = Some (zlen (filter (λ x, in_range r (ns x) = true) L)).
Proof.
  intros Hr Hs. destruct (score_ends zl L r Hr Hs) as (A & D & C & o1 & o2 & Hsg & E1 & H1 & _). rewrite (proj1 (segment_filter (λ s _, in_range r s) _ _ L A D C Hsg ltac:(done))).
  unfold zzlCount. rewrite E1. exact (count_segment score_of_elem (λ s _, s) _ (λ s, zslValueLteMax s r) zl L A D C o1 score_of_elem_spec Hr Hsg H1).
Qed.

Lemma zzlLexCount_spec zl L r : pl_rep zl (entries L) → zsorted L → flat L → zzlLexCount zl r = Some (zlen (filter (λ x, in_lex_range r (ne x) = true) L)).
Proof.
  intros Hr Hs Hfl. destruct (lex_ends zl L r Hr Hs Hfl) as (A & D & C & o1 & o2 & Hsg & E1 & H1 & _). rewrite (proj1 (segment_filter (λ _ e, in_lex_range r e) _ _ L A D C Hsg ltac:(done))).
  unfold zzlLexCount. rewrite E1. exact (count_segment ziplistGetObject (λ _ e, e) _ (λ e, zslLexValueLteMax e r) zl L A D C o1 get_elem Hr Hsg H1).
Qed.

(** ** Ranks *)

Lemma rank_loop_spec_ zl ele : ∀ B A fuel cur rank, cur_opt zl A B cur → (length B < fuel)%nat →
  ∃ r, zzl_rank_loop fuel zl ele cur rank = Some r ∧ match r with None => ele ∉ ne <$> B | Some k => ∃ B1 x B2, B = B1 ++ x :: B2 ∧ ne x = ele ∧ k = rank + zlen B1 end.
Proof.
  induction B as [|x B IH]; intros A fuel cur rank Hc Hf; (destruct fuel as [|fuel]; [lia|]); cbn [zzl_rank_loop].
  - cbn in Hc. subst cur. exists None. split; [done|]. apply not_elem_of_nil.
  - destruct Hc as ([e q] & -> & Hc). pose proof (proj1 Hc) as He. cbn [fst] in He. rewrite (compare_elem _ _ _ _ _ ele He). cbn [mbind option_bind]. case_bool_decide as E; [exists (Some rank); split; [done|]; exists [], x, B; split_and!; [done|done|cbn; lia]|].
    destruct (zzlNext_spec _ _ _ _ _ Hc) as (o & Eo & Ho). cbn [snd] in Eo. rewrite Eo. cbn [mbind option_bind]. destruct (IH _ fuel o (rank + 1) Ho) as (r & -> & Hm); [cbn [length] in Hf; lia|]. exists r. split; [done|]. destruct r as [k|].
    + destruct Hm as (B1 & y & B2 & -> & Hy & ->). exists (x :: B1), y, B2. split_and!; [done|done|cbn [length]; lia].
    + rewrite fmap_cons. apply not_elem_of_cons. split; [by apply not_eq_sym|done].
Qed.

Lemma zzlRank_spec zl L ele (rev : bool) : pl_rep zl (entries L) → L ≠ [] → ∃ zl' n, zzlRank zl ele rev = Some (zl', n) ∧ pl_rep zl' (entries L) ∧
  ((n = -1 ∧ ele ∉ ne <$> L) ∨ ∃ A x B, L = A ++ x :: B ∧ ne x = ele ∧ n = if rev then zlen L - 1 - zlen A else zlen A).
Proof.
  intros Hr Hne. unfold zzlRank. destruct (zzlLength_spec zl L Hr) as (zl1 & -> & Hr1). cbn [mbind option_bind]. destruct (first_elem zl1 L Hr1) as (o & -> & Ho). cbn [mbind option_bind]. destruct L as [|x0 L0]; [done|].
  destruct Ho as (p & -> & Hp). cbn [mbind option_bind]. destruct (cursor_of _ _ _ _ _ Hp) as (q & -> & Hc). cbn [mbind option_bind]. rewrite (zl_fuel_spec zl1 _ Hr1).
  destruct (rank_loop_spec_ zl1 ele (x0 :: L0) [] (S (2 * length (x0 :: L0))) (Some (p, q)) 1) as (r & -> & Hm); [by exists (p, q)|lia|]. cbn [mbind option_bind]. eexists zl1, _. split; [done|]. split; [done|].
  destruct r as [k|]; [|by left]. right. destruct Hm as (A & x & B & HL & Hx & ->). exists A, x, B. split_and!; [done|done|]. destruct rev; lia.
Qed.

(** ** Ranges of ranks *)

Lemma sane_range_spec {X} (l : list X) start end_ :
  match sane_range (zlen l) start end_ with
  | None => a_range start end_ l = []
  | Some (lo, hi) => 0 ≤ lo ∧ lo ≤ hi ∧ hi < zlen l ∧ a_range start end_ l = take (Z.to_nat (hi - lo + 1)) (drop (Z.to_nat lo) l)
  end.
Proof.
  unfold sane_range, a_range, norm_index. set (n := zlen l). set (lo0 := if start <? 0 then _ else _). set (hi := if end_ <? 0 then _ else _).
  assert ((if lo0 <? 0 then 0 else lo0) = Z.max 0 lo0) as -> by (destruct (Z.ltb_spec lo0 0); lia). set (lo := Z.max 0 lo0). cbv zeta.
  destruct (Z.ltb_spec hi lo); cbn [orb]; [by rewrite Z2Nat.nonpos by lia|]. destruct (Z.leb_spec n lo); [rewrite drop_ge by lia; by rewrite take_nil|].
  destruct (Z.leb_spec n hi); split_and!; try lia; [|done]. rewrite !take_ge; [done| |]; rewrite length_drop; lia.
Qed.

Lemma elem_index zl L i k x : pl_rep zl (entries L) → a_index (2 * length L) i = Some (2 * k)%nat → - 2 ^ 31 < i → L !! k = Some x → ∃ p, pl_index zl i = Some (Some p) ∧ elem_at zl (take k L) (x :: drop (S k) L) p.
Proof.
  intros Hr Hi Hlo Hk. destruct (pl_index_law zl _ i Hr Hlo) as (o & E & Ho). rewrite entries_length, Hi in Ho. destruct o as [p|]; [|done]. destruct Ho as (j & [= <-] & _ & Hp). exists p. split; [done|]. unfold elem_at. rewrite (take_drop_middle _ _ _ Hk), length_take_le; [done|].
  apply lookup_lt_Some in Hk. lia.
Qed.

Lemma zzlRange_spec zl L start end_ (rev : bool) : pl_rep zl (entries L) → zlen L < 2 ^ 29 →
  ∃ zl', zzlRange zl start end_ rev = Some (zl', abs (a_range start end_ (turn rev L))) ∧ pl_rep zl' (entries L).
Proof.
  intros Hr Hlen. unfold zzlRange. destruct (zzlLength_spec zl L Hr) as (zl1 & -> & Hr1). cbn [mbind option_bind]. exists zl1. split; [|done].
  assert (zlen (turn rev L) = zlen L) as El by (unfold turn; destruct rev; by rewrite ?length_reverse). pose proof (sane_range_spec (turn rev L) start end_) as Hsane. rewrite El in Hsane.
  destruct (sane_range (zlen L) start end_) as [[lo hi]|]; [|by rewrite Hsane]. destruct Hsane as (H1 & H2 & H3 & ->). rewrite wrap_s_small by (try unfold in_s; destruct rev; lia). set (n := Z.to_nat (hi - lo + 1)).
  set (k := if rev then (length L - 1 - Z.to_nat lo)%nat else Z.to_nat lo). destruct (lookup_lt_is_Some_2 L k) as [x Hx]; [unfold k; destruct rev; lia|].
  destruct (elem_index zl1 L (if rev then -2 - 2 * lo else 2 * lo) k x Hr1) as (p & -> & Hp); [|destruct rev; lia|done|].
  { unfold a_index, k. destruct rev.
    - rewrite (proj2 (Z.ltb_lt _ _)) by lia. rewrite (proj2 (Z.leb_le _ _)) by lia. f_equal. lia.
    - rewrite (proj2 (Z.ltb_ge _ _)) by lia. rewrite (proj2 (Z.ltb_lt _ _)) by lia. f_equal. lia. }
  cbn [mbind option_bind]. destruct (cursor_of _ _ _ _ _ Hp) as (q & -> & Hc). cbn [mbind option_bind].
  assert (zchain zl1 rev (Some (p, q)) (drop (Z.to_nat lo) (turn rev L))) as Hch.
  { unfold k in *. destruct rev; cbn [turn].
    - rewrite <-reverse_take by lia. replace (length L - Z.to_nat lo)%nat with (S (length L - 1 - Z.to_nat lo)) by lia. rewrite (take_S_r _ _ _ Hx), reverse_snoc. by eapply zchain_backward.
    - rewrite (drop_S _ _ _ Hx). eapply zchain_forward. by exists (p, q). }
  rewrite (emit_entries_spec zl1 rev n _ _ Hch); [done|]. rewrite length_drop. unfold n. lia.
Qed.

End Rep.
