(* ===== verification/ZsetObjectSpec.v ===== *)
(** Sorted sets in both encodings represent a map from elements to scores, and the functions of
    [ZsetObject] do to the map what the abstract machine of [ZsetSpec] does. *)

From stdpp Require Import list numbers strings gmap sorting.
From S2P Require Import Prelude Util Glob SdsText Object Ziplist ZiplistEntry ZiplistRefine PackedList Skiplist SkiplistRange SkiplistSpec Double Zset ZsetSpec ZsetZiplist ZsetObject ZsetZiplistRep.

Section Objects.

Context (junk : nat → Z) {T : Type} `{PackedListLaws T} {Sc : Type} `{!ScoreOrder Sc} `{!ScoreLaws Sc} `{!ScoreAdd Sc} `{!DoubleOps Sc} `{!DoubleLaws Sc}.
Context (header_addr : addr) (zset_max_ziplist_entries zset_max_ziplist_value : Z).

(** The limits of the configuration: a ziplist, and the element that makes it too large, fit
    into 4 GB. *)
Definition limits_ok : Prop :=
  0 ≤ zset_max_ziplist_entries ∧ 0 ≤ zset_max_ziplist_value ∧ zset_max_ziplist_value ≤ 2 ^ 29 ∧
  zset_max_ziplist_entries * (zset_max_ziplist_value + 164) + 2 ^ 29 + 200 < 2 ^ 32.

(** The addresses of new nodes are free. *)
Definition env_fresh (env : nat → zskiplist Sc → addr * list Z) : Prop :=
  ∀ j z, (env j z).1 ≠ header z ∧ nodes z !! (env j z).1 = None.

Context (limits : limits_ok) (env : nat → zskiplist Sc → addr * list Z) (fresh_env : env_fresh env).

Abbreviation zobj := (zobj T Sc).
Abbreviation zmap := (gmap bytes Sc).
Abbreviation entries := (entries junk).
Abbreviation zsetAdd := (ZsetObject.zsetAdd junk header_addr zset_max_ziplist_entries zset_max_ziplist_value env).

Implicit Types (zl : T) (x : nd Sc) (A B L : list (nd Sc)) (o : zobj) (m : zmap).

(** ** The representation *)

(** The sorted list of the members of [m]. *)
Record lrep L m : Prop := {
  lr_sorted : zsorted L;
  lr_nodup : NoDup (ne <$> L);
  lr_map : m_of m (abs L);
}.

(** A ziplist is within the limits of the configuration. *)
Definition orep o m : Prop :=
  match o with
  | ZZl zl => ∃ L, pl_rep zl (entries L) ∧ lrep L m ∧ zlen L ≤ zset_max_ziplist_entries ∧ Forall (λ x, zlen (ne x) ≤ zset_max_ziplist_value) L
  | ZSkip zs => ∃ L, ZsetSpec.zrep zs L ∧ m_of m (abs L)
  end.

Lemma lrep_nil : lrep [] ∅.
Proof. split; [constructor|constructor|]. intros e s. rewrite lookup_empty. split; [done|]. by intros ?%not_elem_of_nil. Qed.

Lemma lrep_size L m : lrep L m → Z.of_nat (size m) = zlen L.
Proof. intros [_ Hnd Hm]. by apply m_of_size. Qed.

Lemma lrep_found A x B m : lrep (A ++ x :: B) m → m !! ne x = Some (ns x).
Proof. intros [_ _ Hm]. apply Hm, abs_elem, elem_of_app. right. by left. Qed.

Lemma lrep_absent L m ele : lrep L m → ele ∉ ne <$> L → m !! ele = None.
Proof.
  intros [_ _ Hm] He. apply eq_None_not_Some. intros (s & Hs). apply He. rewrite <-abs_elements. apply Hm in Hs. by apply (list_elem_of_fmap_2 snd) in Hs.
Qed.

Lemma lrep_nonempty L m : lrep L m → (m = ∅ ↔ L = []).
Proof. intros Hl. rewrite <-map_size_empty_iff. pose proof (lrep_size L m Hl). destruct L; [split; [done|simpl in *; lia]|]. split; [simpl in *; lia|done]. Qed.

Lemma middle_perm A x B : A ++ x :: B ≡ₚ (A ++ B) ++ [x].
Proof. rewrite <-Permutation_middle. apply Permutation_cons_append. Qed.

Lemma lrep_remove A x B m : lrep (A ++ x :: B) m → lrep (A ++ B) (delete (ne x) m).
Proof.
  intros [Hs Hnd Hm]. split.
  - by apply (zsorted_drop_middle A [x] B).
  - rewrite middle_perm, fmap_app in Hnd. by apply NoDup_app in Hnd as [Hnd _].
  - pose proof (m_of_remove m _ _ [x] Hm Hnd (middle_perm A x B)) as Hr. cbn in Hr. by rewrite <-delete_difference, map_difference_empty in Hr.
Qed.

(** An element that is put at its place. *)
Lemma lrep_insert A x B m :
  lrep (A ++ B) m → (ne x ∉ ne <$> A ++ B) → Forall (λ y, node_lt (ns x) (ne x) (ns y) (ne y) = false) A → (∀ y, head B = Some y → node_lt (ns x) (ne x) (ns y) (ne y) = true) →
  lrep (A ++ x :: B) (<[ne x := ns x]> m).
Proof.
  intros [Hs Hnd Hm] He HA HB. destruct (zsorted_app _ A B eq_refl Hs) as (SA & SB & Hlt).
  assert (Forall (λ y, node_lt (ns y) (ne y) (ns x) (ne x) = true) A) as HA'.
  { apply Forall_forall. intros y Hy. rewrite Forall_forall in HA. destruct (node_lt (ns y) (ne y) (ns x) (ne x)) eqn:E; [done|]. destruct (node_lt_total _ _ _ _ (HA y Hy) E) as [_ Ee].
    exfalso. apply He. rewrite Ee. apply list_elem_of_fmap_2, elem_of_app. by left. }
  assert (Forall (λ y, node_lt (ns x) (ne x) (ns y) (ne y) = true) B) as HB'.
  { destruct B as [|b B]; [constructor|]. apply StronglySorted_inv in SB as [_ SB]. specialize (HB b eq_refl). constructor; [done|]. eapply Forall_impl; [exact SB|]. intros y Hy. by eapply node_lt_trans. }
  split.
  - apply zsorted_join; [done|by constructor|]. rewrite Forall_forall in HA'. intros y w Hy [-> |Hw]%elem_of_cons; [by apply HA'|by apply Hlt].
  - rewrite middle_perm, fmap_app, Permutation_app_comm. by apply NoDup_cons.
  - intros e s. unfold abs in *. rewrite middle_perm, fmap_app, elem_of_app, <-(Hm e s). cbn [fmap list_fmap]. rewrite list_elem_of_singleton. destruct (decide (e = ne x)) as [-> |Hne].
    + rewrite lookup_insert_eq, (lrep_absent (A ++ B) m (ne x)) by done. split; [intros [= <-]; by right|]. by intros [?|[= ->]].
    + rewrite lookup_insert_ne by done. split; [by left|]. by intros [?|[= _ ?]].
Qed.

(** ** Sizes *)

Lemma entries_csize L v : Forall (λ x, zlen (ne x) ≤ v) L → csize (entries L) ≤ 22 + zlen L * (v + 164).
Proof.
  induction 1 as [|x L Hx HL IH]; [change (csize (entries [])) with 22; simpl; lia|]. change (entries (x :: L)) with (ne x :: double_text junk (ns x) :: entries L). rewrite !csize_cons.
  destruct (double_text_spec junk (ns x)) as (_ & Ht & _). cbn [length]. lia.
Qed.

(** There is room for one more element. *)
Lemma room L score ele :
  zlen L ≤ zset_max_ziplist_entries → Forall (λ x, zlen (ne x) ≤ zset_max_ziplist_value) L → zlen ele ≤ 2 ^ 29 →
  csize (ele :: double_text junk score :: entries L) < 2 ^ 32 ∧ Forall (λ x, zlen (ne x) < 2 ^ 31) L.
Proof.
  destruct limits as (H1 & H2 & H3 & H4). intros Hn Hv He. split.
  - rewrite !csize_cons. pose proof (entries_csize L _ Hv). destruct (double_text_spec junk score) as (_ & Ht & _).
    assert (zlen L * (zset_max_ziplist_value + 164) ≤ zset_max_ziplist_entries * (zset_max_ziplist_value + 164)) by (apply Z.mul_le_mono_nonneg_r; lia). lia.
  - eapply Forall_impl; [exact Hv|]. intros x Hx. cbn in *. lia.
Qed.

Lemma few L : zlen L ≤ zset_max_ziplist_entries → zlen L < 2 ^ 29.
Proof. destruct limits as (H1 & H2 & H3 & H4). nia. Qed.

(** ** The functions *)

(** What a step of the skiplist gives. *)
Lemma skip_step j zs L m c : ZsetSpec.zrep zs L → m_of m (abs L) → m_pre m c = true → c_ok (env j (zsl zs)).1 zs m c.
Proof. intros Hz Hm Hp. destruct (fresh_env j (zsl zs)). by apply (c_step_refines _ zs L). Qed.

Lemma create_zset_spec : ∃ o, createZsetObject (T := T) (Sc := Sc) header_addr = Some o ∧ orep o ∅.
Proof.
  unfold createZsetObject, Zset.createZsetObject. destruct (zslCreate_rep (Sc := Sc) header_addr) as (z0 & -> & Hr & _). cbn [mbind option_bind]. eexists. split; [done|]. exists []. split; [|apply lrep_nil].
  split; [done|constructor|constructor|]. intros e a. cbn [zdict]. rewrite lookup_empty. split; [done|]. by intros (x & ?%not_elem_of_nil & _).
Qed.

Lemma create_ziplist_spec : ∃ o, createZsetZiplistObject (T := T) (Sc := Sc) = Some o ∧ orep o ∅.
Proof.
  unfold createZsetZiplistObject. destruct pl_new_law as (zl & -> & Hr). cbn [mbind option_bind]. eexists. split; [done|]. exists []. split; [done|]. split; [apply lrep_nil|]. split; [apply limits|constructor].
Qed.

Lemma zsetLength_ok o m : orep o m → ∃ o', zsetLength o = Some (o', Z.of_nat (size m)) ∧ orep o' m.
Proof.
  intros Ho. destruct o as [zl|zs].
  - destruct Ho as (L & Hr & Hl & Hb). destruct (zzlLength_spec junk zl L Hr) as (zl' & E & Hr'). cbn [zsetLength]. rewrite E, (lrep_size L m Hl). cbn [mbind option_bind]. eexists. split; [done|]. by exists L.
  - destruct Ho as (L & Hz & Hm). eexists. cbn [zsetLength]. unfold Zset.zsetLength. rewrite (rep_length _ _ (zr_rep _ _ Hz)), (m_of_size m L Hm (zr_nodup _ _ Hz)). split; [done|]. by exists L.
Qed.

Lemma zset_left_ok o m : orep o m → ∃ o', zset_left o = Some (o', Z.of_nat (size m)) ∧ orep o' m.
Proof.
  intros Ho. destruct o as [zl|zs]; [by apply (zsetLength_ok (ZZl zl))|]. pose proof Ho as (L & Hz & Hm). exists (ZSkip zs). split; [|done]. cbn [zset_left]. by rewrite <-(size_dom (D := gset bytes) (zdict zs)), (zrep_dom zs L m Hz Hm), size_dom.
Qed.

Lemma zsetScore_ok o m ele : orep o m → zsetScore o ele = Some (m !! ele).
Proof.
  intros Ho. destruct o as [zl|zs].
  - destruct Ho as (L & Hr & Hl & Hb). cbn [zsetScore]. destruct (zzlFind_spec junk zl L ele Hr) as (r & -> & _ & Hf). cbn [mbind option_bind]. destruct r as [[e s]|].
    + destruct Hf as (A & x & B & -> & <- & <- & _). by rewrite (lrep_found A x B m Hl).
    + by rewrite (lrep_absent L m ele Hl Hf).
  - destruct Ho as (L & Hz & Hm). destruct (skip_step 0 zs L m (CScore ele) Hz Hm eq_refl) as (zs' & L' & E & _). cbn [c_step m_step snd zsetScore] in *. destruct (Zset.zsetScore zs ele) as [s|]; [|done]. cbn [mbind option_bind] in E. congruence.
Qed.

Lemma zsetDel_ok o m ele : orep o m → ∃ o', zsetDel o ele = Some (o', match m !! ele with Some _ => 1 | None => 0 end) ∧ orep o' (delete ele m).
Proof.
  intros Ho. destruct o as [zl|zs].
  - destruct Ho as (L & Hr & Hl & Hn & Hv). cbn [zsetDel]. destruct (zzlFind_spec junk zl L ele Hr) as (r & _ & -> & Hf). cbn [mbind option_bind]. destruct r as [[e s]|].
    + destruct Hf as (A & x & B & -> & <- & <- & Hp). destruct (zzlDelete_spec junk zl A x B e Hp) as (zl' & -> & Hr'). rewrite (lrep_found A x B m Hl). cbn [mbind option_bind]. eexists. split; [done|].
      exists (A ++ B). split; [done|]. split; [by apply lrep_remove|]. rewrite length_app in *. cbn [length] in Hn. split; [lia|]. rewrite middle_perm in Hv. by apply Forall_app in Hv as [Hv _].
    + rewrite (lrep_absent L m ele Hl Hf). eexists. split; [done|]. rewrite delete_id by (by eapply lrep_absent). by exists L.
  - destruct Ho as (L & Hz & Hm). destruct (skip_step 0 zs L m (CDel ele) Hz Hm eq_refl) as (zs' & L' & E & Hz' & Hm'). cbn [c_step m_step fst snd zsetDel] in *. destruct (Zset.zsetDel zs ele) as [[zs1 n]|]; [|done]. cbn [mbind option_bind] in E |- *.
    injection E as -> ->. eexists. split; [done|]. by exists L'.
Qed.

Lemma zsetRank_ok o m ele (rev : bool) : orep o m → m ≠ ∅ → ∃ o', zsetRank o ele rev = Some (o', m_rank m ele rev) ∧ orep o' m.
Proof.
  intros Ho Hne. destruct o as [zl|zs].
  - destruct Ho as (L & Hr & Hl & Hb). assert (L ≠ []) as HL by (by rewrite <-(lrep_nonempty L m Hl)). destruct (zzlRank_spec junk zl L ele rev Hr HL) as (zl' & n & E & Hr' & Hn). cbn [zsetRank]. rewrite E. cbn [mbind option_bind].
    exists (ZZl zl'). split; [|by exists L]. do 3 f_equal. unfold m_rank. destruct Hn as [[-> Hn]|(A & x & B & HL' & <- & ->)]; [by rewrite (lrep_absent L m ele Hl Hn)|].
    rewrite (lrep_size L m Hl). rewrite HL' in Hl at 1. rewrite (lrep_found A x B m Hl), (before_rank m L A B x) by (done || rewrite HL'; apply Hl). done.
  - destruct Ho as (L & Hz & Hm). destruct (skip_step 0 zs L m (CRank ele rev) Hz Hm eq_refl) as (zs' & L' & E & Hz' & Hm'). cbn [c_step m_step fst snd zsetRank] in *. destruct (Zset.zsetRank zs ele rev) as [n|]; [|done]. cbn [mbind option_bind] in E |- *.
    injection E as -> ->. eexists. split; [done|]. by exists L'.
Qed.

(** ** Removing ranges *)

Lemma lrep_select L m f b : lrep L m → lrep (filter (λ x, f (ns x) (ne x) = b) L) (m_select f b m).
Proof. intros [Hs Hnd Hm]. split; [by apply zsorted_filter|by apply NoDup_ne_filter|by apply m_of_select]. Qed.

Lemma filter_lengths (f : Sc → bytes → bool) L : zlen (filter (λ x, f (ns x) (ne x) = true) L) = zlen L - zlen (filter (λ x, f (ns x) (ne x) = false) L).
Proof. rewrite (Permutation_length (filter_both f L)), length_app. lia. Qed.

Lemma small_filter L (P : nd Sc → Prop) `{∀ x, Decision (P x)} :
  zlen L ≤ zset_max_ziplist_entries → Forall (λ x, zlen (ne x) ≤ zset_max_ziplist_value) L →
  zlen (filter P L) ≤ zset_max_ziplist_entries ∧ Forall (λ x, zlen (ne x) ≤ zset_max_ziplist_value) (filter P L).
Proof. intros Hn Hv. pose proof (length_filter P L). split; [lia|]. apply Forall_forall. intros x [_ Hx]%list_elem_of_filter. by eapply Forall_forall in Hv. Qed.

Lemma select_ok zl L m f :
  lrep L m → zlen L ≤ zset_max_ziplist_entries → Forall (λ x, zlen (ne x) ≤ zset_max_ziplist_value) L → pl_rep zl (entries (filter (λ x, f (ns x) (ne x) = false) L)) →
  zlen (filter (λ x, f (ns x) (ne x) = true) L) = Z.of_nat (size m) - Z.of_nat (size (m_select f false m)) ∧ orep (ZZl zl) (m_select f false m).
Proof.
  intros Hl Hn Hv Hr. pose proof (lrep_select L m f false Hl) as Hl'. split; [by rewrite (lrep_size _ _ Hl), (lrep_size _ _ Hl'), filter_lengths|]. eexists. split; [done|]. split; [done|]. by apply small_filter.
Qed.

(** The removal of a range of ranks. *)
Lemma rank_remrange_ok zl L m start end_ :
  pl_rep zl (entries L) → lrep L m → zlen L ≤ zset_max_ziplist_entries → Forall (λ x, zlen (ne x) ≤ zset_max_ziplist_value) L →
  ∃ o', zset_remrange (ZZl zl) (ZRANGE_RANK start end_) = Some (o', Z.of_nat (size m) - Z.of_nat (size (m_remove (ZRANGE_RANK start end_) m))) ∧ orep o' (m_remove (ZRANGE_RANK start end_) m).
Proof.
  intros Hr Hl Hn Hv. pose proof Hl as [Hs Hnd Hm]. cbn [zset_remrange m_remove]. destruct (zzlLength_spec junk zl L Hr) as (zl1 & -> & Hr1). cbn [mbind option_bind].
  rewrite (sorted_members_unique m L Hm Hs Hnd), <-(abs_range start end_ false L). pose proof (sane_range_spec L start end_) as Hsr. destruct (sane_range (zlen L) start end_) as [[lo hi]|].
  - destruct Hsr as (Hlo & Hle & Hhi & ->). destruct (zzlDeleteRangeByRank_spec junk zl1 L (lo + 1) (hi + 1) Hr1) as (zl2 & -> & Hr2); [lia..|pose proof (few L Hn); lia|]. replace (lo + 1 - 1) with lo in Hr2 by lia.
    replace (hi + 1 - lo) with (hi - lo + 1) in Hr2 by lia. cbn [mbind option_bind]. pose proof (slice_perm (Z.to_nat lo) (Z.to_nat (hi - lo + 1)) L) as HP. set (D := take (Z.to_nat (hi - lo + 1)) (drop (Z.to_nat lo) L)) in *. set (R := take _ L ++ _) in *.
    assert (lrep R (m ∖ list_to_map ((λ p, (p.2, p.1)) <$> abs D))) as Hl'.
    { split; [|rewrite HP, fmap_app in Hnd; by apply NoDup_app in Hnd as [Hnd _]|by apply (m_of_remove m L)]. apply (zsorted_drop_middle _ D). unfold D. by rewrite !take_drop. }
    exists (ZZl zl2). split; [|exists R; split; [done|]; split; [done|]].
    + do 2 f_equal. rewrite (lrep_size _ _ Hl), (lrep_size _ _ Hl'), (Permutation_length HP), length_app. unfold D. rewrite length_take, length_drop. lia.
    + rewrite (Permutation_length HP), length_app in Hn. rewrite HP, Forall_app in Hv. split; [lia|apply Hv].
  - rewrite Hsr. cbn [abs fmap list_fmap list_to_map foldr]. rewrite map_difference_empty, Z.sub_diag. eexists. split; [done|]. by exists L.
Qed.

Lemma zset_remrange_ok o m r :
  orep o m → m_pre m (CRemRange r) = true → ∃ o', zset_remrange o r = Some (o', Z.of_nat (size m) - Z.of_nat (size (m_remove r m))) ∧ orep o' (m_remove r m).
Proof.
  intros Ho Hp. destruct o as [zl|zs].
  - destruct Ho as (L & Hr & Hl & Hn & Hv). pose proof Hl as [Hs Hnd Hm]. destruct r as [start end_|r|r]; [by eapply rank_remrange_ok|..]; cbn [zset_remrange m_remove m_pre] in *.
    + destruct (zzlDeleteRangeByScore_spec junk zl L r Hr Hs) as (zl' & -> & Hr'). cbn [mbind option_bind]. destruct (select_ok zl' L m (λ s _, in_range r s) Hl Hn Hv Hr') as [-> Ho']. by eexists.
    + destruct (zzlDeleteRangeByLex_spec junk zl L r Hr Hs) as (zl' & -> & Hr'); [by eapply m_flat_spec|]. cbn [mbind option_bind]. destruct (select_ok zl' L m (λ _ e, in_lex_range r e) Hl Hn Hv Hr') as [-> Ho']. by eexists.
  - destruct Ho as (L & Hz & Hm). destruct (skip_step 0 zs L m (CRemRange r) Hz Hm Hp) as (zs' & L' & E & Hz' & Hm'). cbn [c_step m_step fst snd zset_remrange] in *. destruct (zremrange zs r) as [[zs1 n]|]; [|done]. cbn [mbind option_bind] in E |- *.
    injection E as -> ->. eexists. split; [done|]. by exists L'.
Qed.

(** ** Queries *)

Lemma zset_range_ok o m start end_ (rev : bool) : orep o m → ∃ o', zset_range o start end_ rev = Some (o', a_range start end_ (turn rev (sorted_members m))) ∧ orep o' m.
Proof.
  intros Ho. destruct o as [zl|zs].
  - destruct Ho as (L & Hr & Hl & Hn & Hv). pose proof Hl as [Hs Hnd Hm]. destruct (zzlRange_spec junk zl L start end_ rev Hr (few L Hn)) as (zl' & E & Hr'). cbn [zset_range]. rewrite E. cbn [mbind option_bind].
    exists (ZZl zl'). split; [|by exists L]. rewrite (sorted_members_unique m L Hm Hs Hnd). unfold turn. by rewrite abs_range.
  - destruct Ho as (L & Hz & Hm). destruct (skip_step 0 zs L m (CRange start end_ rev) Hz Hm eq_refl) as (zs' & L' & E & Hz' & Hm'). cbn [c_step m_step fst snd zset_range] in *. destruct (zrange (zsl zs) start end_ rev) as [l|]; [|done]. cbn [mbind option_bind] in E |- *.
    injection E as -> ->. eexists. split; [done|]. by exists L'.
Qed.

Lemma zset_rangebyscore_ok o m r offset limit (rev : bool) : orep o m →
  zset_rangebyscore o r offset limit rev = Some (a_limit offset limit (turn rev (sorted_members (m_select (λ s _, in_range r s) true m)))).
Proof.
  intros Ho. destruct o as [zl|zs].
  - destruct Ho as (L & Hr & Hl & Hn & Hv). pose proof Hl as [Hs Hnd Hm]. cbn [zset_rangebyscore]. by rewrite (zzlRangeByScore_spec junk zl L r offset limit rev Hr Hs), (proj1 (sorted_select m L (λ s _, in_range r s) true Hm Hs Hnd)), abs_limit_turn.
  - destruct Ho as (L & Hz & Hm). destruct (skip_step 0 zs L m (CRangeByScore r offset limit rev) Hz Hm eq_refl) as (zs' & L' & E & _). cbn [c_step m_step snd zset_rangebyscore] in *. destruct (zrangebyscore (zsl zs) r offset limit rev) as [l|]; [|done]. cbn [mbind option_bind] in E. congruence.
Qed.

Lemma zset_rangebylex_ok o m r offset limit (rev : bool) : orep o m → m_flat m = true →
  zset_rangebylex o r offset limit rev = Some (a_limit offset limit (turn rev (sorted_members (m_select (λ _ e, in_lex_range r e) true m)))).
Proof.
  intros Ho Hf. destruct o as [zl|zs].
  - destruct Ho as (L & Hr & Hl & Hn & Hv). pose proof Hl as [Hs Hnd Hm]. cbn [zset_rangebylex].
    by rewrite (zzlRangeByLex_spec junk zl L r offset limit rev Hr Hs (m_flat_spec m L Hm Hf)), (proj1 (sorted_select m L (λ _ e, in_lex_range r e) true Hm Hs Hnd)), abs_limit_turn.
  - destruct Ho as (L & Hz & Hm). destruct (skip_step 0 zs L m (CRangeByLex r offset limit rev) Hz Hm Hf) as (zs' & L' & E & _). cbn [c_step m_step snd zset_rangebylex] in *. destruct (zrangebylex (zsl zs) r offset limit rev) as [l|]; [|done]. cbn [mbind option_bind] in E. congruence.
Qed.

Lemma zset_count_ok o m r : orep o m → zset_count o r = Some (Z.of_nat (size (m_select (λ s _, in_range r s) true m))).
Proof.
  intros Ho. destruct o as [zl|zs].
  - destruct Ho as (L & Hr & Hl & Hn & Hv). pose proof Hl as [Hs Hnd Hm]. cbn [zset_count]. by rewrite (zzlCount_spec junk zl L r Hr Hs), (proj2 (sorted_select m L (λ s _, in_range r s) true Hm Hs Hnd)).
  - destruct Ho as (L & Hz & Hm). destruct (skip_step 0 zs L m (CCount r) Hz Hm eq_refl) as (zs' & L' & E & _). cbn [c_step m_step snd zset_count] in *. destruct (zcount (zsl zs) r) as [n|]; [|done]. cbn [mbind option_bind] in E. congruence.
Qed.

Lemma zset_lexcount_ok o m r : orep o m → m_flat m = true → zset_lexcount o r = Some (Z.of_nat (size (m_select (λ _ e, in_lex_range r e) true m))).
Proof.
  intros Ho Hf. destruct o as [zl|zs].
  - destruct Ho as (L & Hr & Hl & Hn & Hv). pose proof Hl as [Hs Hnd Hm]. cbn [zset_lexcount]. by rewrite (zzlLexCount_spec junk zl L r Hr Hs (m_flat_spec m L Hm Hf)), (proj2 (sorted_select m L (λ _ e, in_lex_range r e) true Hm Hs Hnd)).
  - destruct Ho as (L & Hz & Hm). destruct (skip_step 0 zs L m (CLexCount r) Hz Hm Hf) as (zs' & L' & E & _). cbn [c_step m_step snd zset_lexcount] in *. destruct (zlexcount (zsl zs) r) as [n|]; [|done]. cbn [mbind option_bind] in E. congruence.
Qed.

(** The element at an end. *)
Definition m_end (where_ : Z) m : option (Sc * bytes) := if where_ =? ZSET_MAX then last (sorted_members m) else head (sorted_members m).

Lemma skip_head zs L : ZsetSpec.zrep zs L → next0 (zsl zs) (header (zsl zs)) = Some (na <$> head L).
Proof. intros Hz. apply (next0_spec (zsl zs) L [] L (header (zsl zs)) L (zlevel (zsl zs))); [apply Hz|done|constructor]. Qed.

Lemma zset_end_ok o m where_ : orep o m → m ≠ ∅ → zset_end o where_ = m_end where_ m.
Proof.
  intros Ho Hne. destruct o as [zl|zs]; cbn [zset_end]; unfold m_end.
  - destruct Ho as (L & Hr & Hl & _). pose proof Hl as [Hs Hnd Hm]. rewrite (sorted_members_unique m L Hm Hs Hnd). assert (L ≠ []) as HL by (by rewrite <-(lrep_nonempty L m Hl)).
    destruct (where_ =? ZSET_MAX).
    + destruct (last_elem junk zl L Hr) as (o & -> & Ho). cbn [mbind option_bind]. destruct o as [p|]; [|done]. destruct Ho as (A & x & -> & Hp). cbn [mbind option_bind]. rewrite (get_elem junk _ _ _ _ _ Hp). cbn [mbind option_bind].
      destruct (must_next_elem junk _ _ _ _ _ Hp) as (q & -> & Hq). cbn [mbind option_bind]. rewrite (get_score junk _ _ _ _ _ Hq). by rewrite <-abs_last, last_snoc.
    + destruct (first_elem junk zl L Hr) as (o & -> & Ho). destruct L as [|x L]; [done|]. destruct Ho as (p & -> & Hp). cbn [mbind option_bind]. rewrite (get_elem junk _ _ _ _ _ Hp). cbn [mbind option_bind].
      destruct (must_next_elem junk _ _ _ _ _ Hp) as (q & -> & Hq). cbn [mbind option_bind]. by rewrite (get_score junk _ _ _ _ _ Hq).
  - destruct Ho as (L & Hz & Hm). rewrite (sorted_members_unique m L Hm (zr_sorted _ _ Hz) (zr_nodup _ _ Hz)). rewrite (skip_head zs L Hz), (rep_tail _ _ (zr_rep _ _ Hz)). destruct (where_ =? ZSET_MAX); cbn [mbind option_bind].
    + rewrite <-abs_last. destruct (last L) as [x|] eqn:E; [|done]. apply (rep_nodes _ _ (zr_rep _ _ Hz)). by apply last_Some_elem_of in E.
    + destruct L as [|x L]; [done|]. apply (rep_nodes _ _ (zr_rep _ _ Hz)). by left.
Qed.

(** ** Conversions *)

Lemma m_of_unique m1 m2 (l : list (Sc * bytes)) : m_of m1 l → m_of m2 l → m1 = m2.
Proof. intros H1 H2. apply map_eq. intros e. apply option_eq. intros s. by rewrite (H1 e s), (H2 e s). Qed.

Lemma m_of_snoc m A x : m_of m (abs A) → (ne x ∉ ne <$> A) → m_of (<[ne x := ns x]> m) (abs (A ++ [x])) ∧ m !! ne x = None.
Proof.
  intros Hm Hx. assert (m !! ne x = None) as E.
  { apply eq_None_not_Some. intros (s & Hs). apply Hx. rewrite <-abs_elements. apply Hm in Hs. by apply (list_elem_of_fmap_2 snd) in Hs. }
  split; [|done]. intros e s. unfold abs in *. rewrite fmap_app, elem_of_app, <-(Hm e s). cbn [fmap list_fmap]. rewrite list_elem_of_singleton. destruct (decide (e = ne x)) as [-> |Hne].
  - rewrite lookup_insert_eq, E. split; [intros [= <-]; by right|]. by intros [?|[= ->]].
  - rewrite lookup_insert_ne by done. split; [by left|]. by intros [?|[= _ ?]].
Qed.

Lemma to_skiplist_spec j zl : ∀ B A fuel cur zs L0 m0,
  cur_opt junk zl A B cur → ZsetSpec.zrep zs L0 → m_of m0 (abs L0) → m_of m0 (abs A) → NoDup (ne <$> A ++ B) → (length B < fuel)%nat →
  ∃ zs' L' m', to_skiplist_loop env fuel j zl cur zs = Some zs' ∧ ZsetSpec.zrep zs' L' ∧ m_of m' (abs L') ∧ m_of m' (abs (A ++ B)).
Proof.
  induction B as [|x B IH]; intros A fuel cur zs L0 m0 Hc Hz Hm0 HmA Hnd Hf; (destruct fuel as [|fuel]; [lia|]); cbn [to_skiplist_loop].
  - cbn in Hc. subst cur. rewrite app_nil_r. by exists zs, L0, m0.
  - destruct Hc as ([p q] & -> & Hc). pose proof Hc as [Hp Hq]. cbn [fst snd] in Hp, Hq. rewrite (get_score junk _ _ _ _ _ Hq). cbn [mbind option_bind]. rewrite (get_elem junk _ _ _ _ _ Hp). cbn [mbind option_bind].
    assert (ne x ∉ ne <$> A) as HxA. { rewrite fmap_app, fmap_cons in Hnd. apply NoDup_app in Hnd as (_ & Hd & _). intros Hin. apply (Hd _ Hin). by left. }
    destruct (m_of_snoc m0 A x HmA HxA) as [HmA' Hnone]. destruct (fresh_env j (zsl zs)) as [Hf1 Hf2]. destruct (env j (zsl zs)) as [a rs]. cbn [fst] in Hf1, Hf2.
    pose proof (m_of_lookup m0 zs L0 (ne x) Hm0 Hz) as Hl. destruct (zdict zs !! ne x) as [b|] eqn:Ed; [destruct Hl as (? & _ & _ & _ & _ & ?); congruence|]. destruct Hl as [HxL _].
    destruct (add_new zs L0 m0 rs a (ns x) (ne x) Hz Hm0 Hf1 Hf2 HxL) as (z' & L1 & -> & Hz1 & Hm1). cbn [mbind option_bind]. rewrite bool_decide_eq_false_2 by (by intros [? ?]).
    destruct (zzlNext_spec junk _ _ _ _ _ Hc) as (cur & Hn & Hc'). cbn [snd] in Hn. rewrite Hn. cbn [mbind option_bind].
    destruct (IH (A ++ [x]) fuel cur _ L1 _ Hc' Hz1 Hm1 HmA') as (zs' & L' & m' & E & H1 & H2 & H3); [by rewrite <-(assoc_L (++))|cbn [length] in Hf; lia|].
    exists zs', L', m'. split_and!; [done..|]. by rewrite <-(assoc_L (++)) in H3.
Qed.

Lemma zsetConvert_skiplist_ok j zl L m : pl_rep zl (entries L) → lrep L m → L ≠ [] → ∃ o', zsetConvert junk header_addr env j (ZZl zl) false = Some o' ∧ orep o' m.
Proof.
  intros Hr [Hs Hnd Hm] Hne. cbn [zsetConvert]. unfold Zset.createZsetObject. destruct (zslCreate_rep (Sc := Sc) header_addr) as (z0 & -> & Hr0 & _). cbn [mbind option_bind].
  destruct (first_elem junk zl L Hr) as (o & -> & Ho). destruct L as [|x L]; [done|]. destruct Ho as (p & -> & Hp). cbn [mbind option_bind]. destruct (cursor_of junk _ _ _ _ _ Hp) as (q & -> & Hc). cbn [mbind option_bind]. rewrite (zl_fuel_spec junk zl _ Hr).
  destruct (to_skiplist_spec j zl (x :: L) [] (S (2 * length (x :: L))) (Some (p, q)) (ZSet ∅ z0) [] ∅) as (zs' & L' & m' & -> & Hz' & Hm' & Hm2); [by exists (p, q)| |apply lrep_nil|apply lrep_nil|done|lia|].
  { split; [done|constructor|constructor|]. intros e a. cbn [zdict]. rewrite lookup_empty. split; [done|]. by intros (y & ?%not_elem_of_nil & _). }
  cbn [mbind option_bind app] in *. eexists. split; [done|]. exists L'. split; [done|]. by rewrite (m_of_unique m m' _ Hm Hm2).
Qed.

Lemma to_ziplist_spec zs L : ZsetSpec.zrep zs L → ∀ B A fuel zl, L = A ++ B → pl_rep zl (entries A) → csize (entries L) < 2 ^ 32 → (length B < fuel)%nat →
  ∃ zl', to_ziplist_loop junk fuel (zsl zs) (na <$> head B) zl = Some zl' ∧ pl_rep zl' (entries L).
Proof.
  intros Hz. induction B as [|x B IH]; intros A fuel zl HL Hr Hc Hf; (destruct fuel as [|fuel]; [lia|]); cbn [to_ziplist_loop head fmap option_fmap option_map].
  - rewrite app_nil_r in HL. subst A. by exists zl.
  - rewrite (rep_nodes _ _ (zr_rep _ _ Hz) x) by (rewrite HL; apply elem_of_app; right; by left). cbn [mbind option_bind].
    destruct (zzlInsertAt_spec junk zl A x [] None) as (zl1 & -> & Hr1); [by rewrite app_nil_r|done| |].
    { rewrite HL, entries_app, csize_app in Hc. rewrite entries_app, csize_app. change (entries (x :: B)) with (ne x :: double_text junk (ns x) :: entries B) in Hc. change (entries [x]) with [ne x; double_text junk (ns x)]. rewrite !csize_cons in *. pose proof (csize_pos (entries B)). change (csize []) with 22. lia. }
    cbn [mbind option_bind]. rewrite (next0_node (zsl zs) L A x B (zr_rep _ _ Hz) HL). cbn [mbind option_bind]. apply (IH (A ++ [x])); [by rewrite HL, <-(assoc_L (++))|done|done|cbn [length] in Hf; lia].
Qed.

(** A set within the limits becomes a ziplist. *)
Lemma convert_if_needed_ok j o m maxelelen :
  orep o m → (∀ e s, m !! e = Some s → zlen e ≤ maxelelen) → ∃ o', zsetConvertToZiplistIfNeeded junk header_addr zset_max_ziplist_entries zset_max_ziplist_value env j o maxelelen = Some o' ∧ orep o' m.
Proof.
  intros Ho Hmax. destruct o as [zl|zs]; [by eexists|]. pose proof Ho as (L & Hz & Hm). cbn [zsetConvertToZiplistIfNeeded]. rewrite (rep_length _ _ (zr_rep _ _ Hz)). destruct (Z.leb_spec (zlen L) zset_max_ziplist_entries) as [Hn|]; cbn [andb]; [|by eexists].
  destruct (Z.leb_spec maxelelen zset_max_ziplist_value) as [Hv|]; [|by eexists]. assert (Forall (λ x, zlen (ne x) ≤ zset_max_ziplist_value) L) as HL.
  { apply Forall_forall. intros x Hx. etrans; [|exact Hv]. apply (Hmax _ (ns x)), Hm. by apply abs_elem. }
  cbn [zsetConvert]. destruct pl_new_law as (zl & -> & Hr). cbn [mbind option_bind]. rewrite (skip_head zs L Hz). cbn [mbind option_bind]. destruct (room L (of_ll 0) [] Hn HL) as [Hc _]; [cbn; lia|].
  destruct (to_ziplist_spec zs L Hz L [] (walk_fuel (zsl zs)) zl) as (zl' & -> & Hr'); [done|done|rewrite !csize_cons in Hc; lia|unfold walk_fuel; rewrite (rep_length _ _ (zr_rep _ _ Hz)); lia|].
  cbn [mbind option_bind]. eexists. split; [done|]. exists L. split; [done|]. split; [|done]. split; [apply Hz|apply Hz|done].
Qed.

(** ** Adding *)

Lemma zzlInsert_ok zl L m score ele :
  pl_rep zl (entries L) → lrep L m → zlen L ≤ zset_max_ziplist_entries → Forall (λ x, zlen (ne x) ≤ zset_max_ziplist_value) L → zlen ele ≤ 2 ^ 29 → (ele ∉ ne <$> L) →
  ∃ zl' L', zzlInsert junk zl ele score = Some zl' ∧ pl_rep zl' (entries L') ∧ lrep L' (<[ele := score]> m) ∧ L' ≡ₚ Nd 0 score ele 0 :: L.
Proof.
  intros Hr Hl Hn Hv He Hnew. destruct (room L score ele Hn Hv He) as [Hc Hsm]. destruct (zzlInsert_spec junk zl L score ele Hr Hsm) as (zl' & A & B & -> & -> & Hr' & HA & HB); [lia|done|].
  exists zl', (A ++ Nd 0 score ele 0 :: B). split; [done|]. split; [done|]. split; [by apply (lrep_insert A (Nd 0 score ele 0) B)|]. symmetry. apply Permutation_middle.
Qed.

(** The element is found with the score [ns x]. *)
Lemma zl_update_ok zl A x B m p score :
  pl_rep zl (entries (A ++ x :: B)) → lrep (A ++ x :: B) m → zlen (A ++ x :: B) ≤ zset_max_ziplist_entries → Forall (λ x, zlen (ne x) ≤ zset_max_ziplist_value) (A ++ x :: B) → elem_at junk zl A (x :: B) p → zlen (ne x) ≤ 2 ^ 29 →
  ∃ zl1 zl2, zzlDelete zl p = Some zl1 ∧ zzlInsert junk zl1 (ne x) score = Some zl2 ∧ orep (ZZl zl2) (<[ne x := score]> m).
Proof.
  intros Hr Hl Hn Hv Hp He. destruct (zzlDelete_spec junk zl A x B p Hp) as (zl1 & E1 & Hr1). pose proof (lrep_remove A x B m Hl) as Hl1.
  rewrite middle_perm, Forall_app in Hv. destruct Hv as [Hv [Hx _]%Forall_cons]. rewrite (Permutation_length (middle_perm A x B)), length_app in Hn. cbn [length] in Hn.
  assert (ne x ∉ ne <$> A ++ B) as Hnew. { pose proof (lr_nodup _ _ Hl) as Hnd. rewrite <-Permutation_middle, fmap_cons in Hnd. by apply NoDup_cons in Hnd as [? _]. }
  destruct (zzlInsert_ok zl1 (A ++ B) (delete (ne x) m) score (ne x) Hr1 Hl1) as (zl2 & L' & E2 & Hr2 & Hl2 & HP); [lia|done|done|done|]. exists zl1, zl2. split; [done|]. split; [done|].
  exists L'. split; [done|]. rewrite insert_delete_eq in Hl2. split; [done|]. rewrite (Permutation_length HP), HP. cbn [length]. split; [lia|]. by constructor.
Qed.

Lemma zsetAdd_ok j o m score ele flags :
  orep o m → zlen ele ≤ 2 ^ 29 → ∃ o' ret rf new, zsetAdd j o (Some score) ele flags = Some (o', ret, rf, new) ∧ (m_add m (Some score) ele flags).2 = RAdd ret rf new ∧ orep o' (m_add m (Some score) ele flags).1.
Proof.
  intros Ho He. destruct o as [zl|zs].
  2:{ destruct Ho as (L & Hz & Hm). unfold ZsetObject.zsetAdd. destruct (env j (zsl zs)) as [a rs] eqn:Ee. destruct (skip_step j zs L m (CAdd (Some score) ele flags rs) Hz Hm eq_refl) as (zs' & L' & E & Hz' & Hm'). rewrite Ee in E. cbn [c_step m_step fst snd] in *.
      destruct (Zset.zsetAdd zs (Some score) ele flags rs a) as [r|]; [|done]. cbn [mbind option_bind] in E |- *. injection E as -> E. eexists _, _, _, _. split; [done|]. split; [done|]. by exists L'. }
  pose proof Ho as (L & Hr & Hl & Hn & Hv). unfold ZsetObject.zsetAdd, m_add. destruct (zzlFind_spec junk zl L ele Hr) as (r & -> & _ & Hf). cbn [mbind option_bind]. destruct r as [[p cur]|].
  - destruct Hf as (A & x & B & -> & <- & <- & Hp). rewrite (lrep_found A x B m Hl). destruct (negb (Z.land flags ZADD_NX =? 0)); [by eexists _, _, _, _|].
    destruct (negb (Z.land flags ZADD_INCR =? 0)); [destruct (sadd score (ns x)) as [s|]; [|by eexists _, _, _, _]|];
      (destruct (seqb _ (ns x)); cbn [negb]; [by eexists _, _, _, _|]); edestruct (zl_update_ok zl A x B m p) as (zl1 & zl2 & -> & E & Ho'); try done; cbn [mbind option_bind]; rewrite E; cbn [mbind option_bind]; by eexists _, _, _, _.
  - rewrite (lrep_absent L m ele Hl Hf). destruct (negb (Z.land flags ZADD_XX =? 0)); cbn [negb]; [by eexists _, _, _, _|].
    destruct (zzlInsert_ok zl L m score ele Hr Hl Hn Hv He Hf) as (zl1 & L1 & -> & Hr1 & Hl1 & HP). cbn [mbind option_bind]. destruct (zzlLength_spec junk zl1 L1 Hr1) as (zl2 & -> & Hr2). cbn [mbind option_bind].
    destruct (Z.ltb_spec zset_max_ziplist_entries (zlen L1)); cbn [orb].
    2:destruct (Z.ltb_spec zset_max_ziplist_value (zlen ele)).
    3:{ cbn [mbind option_bind]. eexists _, _, _, _. split; [done|]. split; [done|]. exists L1. split; [done|]. split; [done|]. split; [done|]. rewrite HP. by constructor. }
    all: destruct (zsetConvert_skiplist_ok j zl2 L1 _ Hr2 Hl1) as (o' & -> & Ho'); [by intros ->; apply Permutation_nil_cons in HP|]; cbn [mbind option_bind]; by eexists _, _, _, _.
Qed.

End Objects.
