(* ===== verification/ZsetCommandsSpec.v ===== *)
(** The commands on sorted sets as operations on maps from elements to scores, and the refinement
    theorem for sequences of commands on the keys of a database. *)

From stdpp Require Import list numbers strings gmap sorting.
From S2P Require Import Prelude Util Glob SdsText Object DbRel Ziplist ZiplistEntry ZiplistRefine PackedList Skiplist SkiplistRange SkiplistSpec Double Zset ZsetSpec.
From S2P Require Import ZsetZiplist ZsetObject ZsetCommands ZsetZiplistRep ZsetObjectSpec.

(** ** The specification *)

Section Abstract.

Context {Sc : Type} `{!ScoreOrder Sc} `{!ScoreAdd Sc} `{!DoubleOps Sc}.

Abbreviation zmap := (gmap bytes Sc).
Abbreviation zdb := (gmap bytes (dbval zmap)).
Abbreviation zresult := (zdb * reply * list effect * Z)%type.

Implicit Types (a : zdb) (m : zmap) (key : bytes).

(** A set without members has no key. *)
Definition put_zset a key m : zdb := if decide (m = ∅) then delete key a else <[key := VObj m]> a.

Definition a_just a (r : reply) : option zresult := Some (a, r, [], 0).

Definition a_zset a key (r : reply) (c : zmap → option zresult) : option zresult :=
  match a !! key with
  | None => a_just a r
  | Some (VObj m) => c m
  | Some (VOther _) => a_just a wrongtypeerr
  end.

Definition a_zlong a (s : bytes) (c : Z → option zresult) : option zresult := match to_int s with Some n => c n | None => a_just a notintegererr end.

(** The text of a score in a reply. *)
Definition score_text (s : Sc) : bytes := match isinf s with Some neg => str (if neg then "-inf" else "inf") | None => fmt17 s end.

Definition a_members (withscores : bool) (l : list (Sc * bytes)) : list (option bytes) :=
  l ≫= λ p, Some p.2 :: (if withscores then [Some (score_text p.1)] else []).

Definition a_list (withscores : bool) (l : list (Sc * bytes)) : reply := RMultiBulk (zlen (a_members withscores l)) (a_members withscores l).

(** ** ZADD *)

(** Several additions: the set and the number of members whose score changed. *)
Fixpoint a_adds (flags : Z) (l : list (Sc * bytes)) m : zmap * Z :=
  match l with
  | [] => (m, 0)
  | (s, e) :: l =>
      let '(m1, r) := m_add m (Some s) e flags in
      let '(m2, n) := a_adds flags l m1 in
      (m2, n + match r with RAdd _ f _ => if f =? ZADD_UPDATED then 1 else 0 | _ => 0 end)
  end.

(** The set, the reply and the number of members that are new or have a new score.  ZINCRBY and
    ZADD with INCR reply the score, or nothing when a condition does not hold. *)
Definition a_add (flags : Z) (l : list (Sc * bytes)) m : zmap * reply * Z :=
  let '(m', updated) := a_adds flags l m in
  let added := Z.of_nat (size m') - Z.of_nat (size m) in
  (m',
   if negb (Z.land flags ZADD_INCR =? 0) then
     match l with
     | (s, e) :: _ => match (m_add m (Some s) e flags).2 with RAdd 0 _ _ => nanerr | RAdd _ _ (Some s) => RBulk (score_text s) | _ => RNullBulk end
     | [] => RNullBulk
     end
   else Object.RInt (if negb (Z.land flags ZADD_CH =? 0) then added + updated else added),
   added + updated).

Definition a_zadd a key (args : list bytes) (flags : Z) : option zresult :=
  let '(flags, rest) := zadd_options args flags in
  let incr := negb (Z.land flags ZADD_INCR =? 0) in
  if Z.odd (zlen rest) || bool_decide (rest = []) then a_just a syntaxerr
  else if negb (Z.land flags ZADD_NX =? 0) && negb (Z.land flags ZADD_XX =? 0) then a_just a nxxxerr
  else if incr && (2 <? zlen rest) then a_just a incrpairerr
  else
    match parse_scores (pairs rest) with
    | None => a_just a notfloaterr
    | Some l =>
        match a !! key with
        | Some (VOther _) => a_just a wrongtypeerr
        | v =>
            if forallb (λ p, zlen p.2 <=? 2 ^ 29) l then
              let '(m', r, changes) := a_add flags l (match v with Some (VObj m) => m | _ => ∅ end) in
              Some (put_zset a key m', r, if changes =? 0 then [] else [Signal key; Notify (if incr then "zincr" else "zadd") key], changes)
            else None
        end
    end.

(** ** The other commands *)

(** The set after removals, and the events. *)
Definition a_removed a key m m' (r : reply) (before : list effect) (after : list effect) : option zresult :=
  let n := Z.of_nat (size m) - Z.of_nat (size m') in
  Some (put_zset a key m', r, if n =? 0 then [] else before ++ (if decide (m' = ∅) then [Notify "del" key] else []) ++ after, n).

Definition a_remrange a key (r : zrem_range Sc) (rangetype : Z) : option zresult :=
  a_zset a key (Object.RInt 0) (λ m,
    if m_pre m (CRemRange r) then
      a_removed a key m (m_remove r m) (Object.RInt (Z.of_nat (size m) - Z.of_nat (size (m_remove r m)))) [Signal key; Notify (zrem_event rangetype) key] []
    else None).

Definition a_range_query a key (scores : bool) (options : list bytes) (c : zmap → Z → Z → option (list (Sc * bytes))) : option zresult :=
  match range_options scores options false 0 (-1) with
  | Some (RangeOpts withscores offset limit) => a_zset a key emptymultibulk (λ m, l ← c m offset limit; a_just a (a_list withscores l))
  | Some (RangeError e) => a_just a e
  | None => None
  end.

(** The [count] first or last members. *)
Definition a_pop a key (where_ count : Z) : option zresult :=
  a_zset a key emptymultibulk (λ m,
    let l := take (Z.to_nat count) (turn (where_ =? ZSET_MAX) (sorted_members m)) in
    let m' := without m l.*2 in
    Some (put_zset a key m', a_list true l,
      [Notify (if where_ =? ZSET_MAX then "zpopmax" else "zpopmin") key; Signal key] ++ (if decide (m' = ∅) then [Notify "del" key] else []), zlen l)).

(** [None]: the caller breaks a rule.  The elements have at most 512 MB, and a range by elements
    is asked of a set whose scores are equal. *)
Definition a_zcommand a (cmd : zcommand) : option zresult :=
  match cmd with
  | Zadd key args flags => a_zadd a key args flags
  | Zrem key members =>
      a_zset a key (Object.RInt 0) (λ m,
        let m' := without m members in
        a_removed a key m m' (Object.RInt (Z.of_nat (size m) - Z.of_nat (size m'))) [Notify "zrem" key] [Signal key])
  | Zremrange key min max rangetype =>
      if rangetype =? 0 then a_zlong a min (λ start, a_zlong a max (λ end_, a_remrange a key (ZRANGE_RANK start end_) rangetype))
      else if rangetype =? 1 then match zslParseRange min max with None => a_just a notrangeerr | Some r => a_remrange a key (ZRANGE_SCORE r) rangetype end
      else match zslParseLexRange min max with None => a_just a notlexerr | Some r => a_remrange a key (ZRANGE_LEX r) rangetype end
  | Zrange key start end_ options rev =>
      a_zlong a start (λ start, a_zlong a end_ (λ end_,
        match (match options with [] => Some false | [w] => if strcasecmp_eq w (str "withscores") then Some true else None | _ => None end) with
        | None => a_just a syntaxerr
        | Some withscores => a_zset a key emptymultibulk (λ m, a_just a (a_list withscores (a_range start end_ (turn rev (sorted_members m)))))
        end))
  | Zrangebyscore key x y options rev =>
      match (if rev then zslParseRange y x else zslParseRange x y) with
      | None => a_just a notrangeerr
      | Some r => a_range_query a key true options (λ m offset limit, Some (a_limit offset limit (turn rev (sorted_members (m_select (λ s _, in_range r s) true m)))))
      end
  | Zrangebylex key x y options rev =>
      match (if rev then zslParseLexRange y x else zslParseLexRange x y) with
      | None => a_just a notlexerr
      | Some r => a_range_query a key false options (λ m offset limit, if m_flat m then Some (a_limit offset limit (turn rev (sorted_members (m_select (λ _ e, in_lex_range r e) true m)))) else None)
      end
  | Zcount key min max =>
      match zslParseRange min max with
      | None => a_just a notrangeerr
      | Some r => a_zset a key (Object.RInt 0) (λ m, a_just a (Object.RInt (Z.of_nat (size (m_select (λ s _, in_range r s) true m)))))
      end
  | Zlexcount key min max =>
      match zslParseLexRange min max with
      | None => a_just a notlexerr
      | Some r => a_zset a key (Object.RInt 0) (λ m, if m_flat m then a_just a (Object.RInt (Z.of_nat (size (m_select (λ _ e, in_lex_range r e) true m)))) else None)
      end
  | Zcard key => a_zset a key (Object.RInt 0) (λ m, a_just a (Object.RInt (Z.of_nat (size m))))
  | Zscore key member => a_zset a key RNullBulk (λ m, a_just a (match m !! member with Some s => RBulk (score_text s) | None => RNullBulk end))
  | Zrank key member rev => a_zset a key RNullBulk (λ m, a_just a (match m !! member with Some _ => Object.RInt (m_rank m member rev) | None => RNullBulk end))
  | Zpop key None where_ => a_pop a key where_ 1
  | Zpop key (Some count) where_ => a_zlong a count (λ count, if count <=? 0 then a_just a emptymultibulk else a_pop a key where_ count)
  end.

Fixpoint a_zcommands a (cmds : list zcommand) : option (zdb * list (reply * list effect * Z)) :=
  match cmds with
  | [] => Some (a, [])
  | cmd :: cmds => '(a, r, ev, d) ← a_zcommand a cmd; '(a, rs) ← a_zcommands a cmds; Some (a, (r, ev, d) :: rs)
  end.

End Abstract.

(** ** The refinement *)

Section Refine.

Context (junk : nat → Z) {T : Type} `{PackedListLaws T} {Sc : Type} `{!ScoreOrder Sc} `{!ScoreLaws Sc} `{!ScoreAdd Sc} `{!DoubleOps Sc} `{!DoubleLaws Sc}.
Context (header_addr : addr) (zset_max_ziplist_entries zset_max_ziplist_value : Z).
Context (limits : limits_ok zset_max_ziplist_entries zset_max_ziplist_value) (env : nat → zskiplist Sc → addr * list Z) (fresh_env : env_fresh env).

Abbreviation orep := (orep (T := T) junk zset_max_ziplist_entries zset_max_ziplist_value).
Abbreviation zobj := (zobj T Sc).
Abbreviation zmap := (gmap bytes Sc).
Abbreviation cdb := (gmap bytes (dbval zobj)).
Abbreviation zdb := (gmap bytes (dbval zmap)).
Abbreviation run := (run_zcommand junk header_addr zset_max_ziplist_entries zset_max_ziplist_value env).

Definition zset_ok (o : zobj) (m : zmap) : Prop := orep o m ∧ m ≠ ∅.

Definition zdb_rel : cdb → zdb → Prop := db_rel zset_ok.

Abbreviation refines := (cmd_refines zset_ok).

Implicit Types (h : cdb) (a : zdb) (m : zmap) (o : zobj) (key : bytes) (l : list (Sc * bytes)).

Lemma just_refines h a r : zdb_rel h a → refines (reply_only h r) (a_just a r).
Proof. apply cmd_refines_some. Qed.

Lemma zlookup_refines h a key r c d :
  zdb_rel h a → (∀ o m, h !! key = Some (VObj o) → a !! key = Some (VObj m) → orep o m → m ≠ ∅ → refines (c o) (d m)) → refines (lookup_zset_or h key r c) (a_zset a key r d).
Proof.
  intros Hr Hc. unfold lookup_zset_or, a_zset. destruct (db_rel_cases zset_ok h a key Hr) as [[-> ->]|[(o & m & E1 & E2 & Ho & Hne)|(v & -> & ->)]]; [by apply just_refines| |by apply just_refines]. rewrite E1, E2. by apply Hc.
Qed.

Lemma zlong_refines h a s c d :
  zdb_rel h a → (∀ n, refines (c n) (d n)) → refines (x ← getLongFromObject s; match x with None => reply_only h notintegererr | Some n => c n end) (a_zlong a s d).
Proof. intros Hr Hc. unfold a_zlong, getLongFromObject. rewrite to_int_eq. cbn [mbind option_bind]. destruct (to_int s) as [n|]; [apply Hc|by apply just_refines]. Qed.

Lemma bulk_double_spec (s : Sc) : bulk_double s = Some (Some (score_text s)).
Proof. unfold bulk_double. by rewrite addReplyDouble_spec. Qed.

Lemma range_bulks_spec (withscores : bool) l : range_bulks withscores l = Some (a_members withscores l).
Proof. induction l as [|[s e] l IH]; [done|]. cbn [range_bulks]. rewrite IH. cbn [mbind option_bind]. destruct withscores; [|done]. by rewrite bulk_double_spec. Qed.

Lemma a_members_length (withscores : bool) l : zlen (a_members withscores l) = if withscores then 2 * zlen l else zlen l.
Proof. unfold a_members. induction l as [|[s e] l IH]; [by destruct withscores|]. cbn [mbind list_bind]. rewrite length_app. destruct withscores; cbn [length]; cbn [mbind] in IH; lia. Qed.

Lemma range_reply_spec (withscores : bool) l : range_reply withscores l = Some (a_list withscores l).
Proof. unfold range_reply, a_list. rewrite range_bulks_spec. cbn [mbind option_bind]. by rewrite a_members_length. Qed.

(** The set of a key is put back, or the key is deleted. *)
Lemma put_rel h a key o m (gone : bool) :
  zdb_rel h a → orep o m → (gone = true ↔ m = ∅) → zdb_rel (if gone then delete key h else <[key := VObj o]> h) (put_zset a key m).
Proof.
  intros Hr Ho Hg. unfold put_zset. destruct (decide (m = ∅)) as [E|E].
  - rewrite (proj2 Hg E). by apply db_rel_delete.
  - destruct gone; [by destruct E; apply Hg|]. by apply db_rel_insert.
Qed.

Lemma size_zero_spec m : ((Z.of_nat (size m) =? 0) = true ↔ m = ∅).
Proof. rewrite Z.eqb_eq, <-map_size_empty_iff. lia. Qed.

(** ** Queries *)

Lemma range_options_total scores opts : ∀ withscores offset limit, is_Some (range_options scores opts withscores offset limit).
Proof.
  revert opts. fix IH 1. intros [|x rest] withscores offset limit; cbn [range_options]; [by eexists|]. destruct (scores && strcasecmp_eq x (str "withscores")); [apply IH|].
  destruct rest as [|off [|lim rest]]; [by eexists..|]. destruct (strcasecmp_eq x (str "limit")); [|by eexists]. unfold getLongFromObject. rewrite !to_int_eq. cbn [mbind option_bind]. destruct (to_int off); [|by eexists]. destruct (to_int lim); [|by eexists]. apply IH.
Qed.

Lemma range_query_refines h a key scores options query d :
  zdb_rel h a → (∀ o m offset limit l, orep o m → d m offset limit = Some l → query o offset limit = Some l) → refines (range_query h key scores options query) (a_range_query a key scores options d).
Proof.
  intros Hr Hq. unfold range_query, a_range_query. destruct (range_options_total scores options false 0 (-1)) as [[withscores offset limit|e] ->]; cbn [mbind option_bind]; [|by apply just_refines].
  apply zlookup_refines; [done|]. intros o m _ _ Ho _ a' r es n Ha. apply bind_Some in Ha as (l & E & Ha). rewrite (Hq o m offset limit l Ho E). cbn [mbind option_bind]. rewrite range_reply_spec. cbn [mbind option_bind]. by apply (just_refines h a).
Qed.

Lemma zrange_refines h a key start end_ options (rev : bool) : zdb_rel h a → refines (run h (Zrange key start end_ options rev)) (a_zcommand a (Zrange key start end_ options rev)).
Proof.
  intros Hr. cbn [run_zcommand a_zcommand]. apply zlong_refines; [done|]. intros s. apply zlong_refines; [done|]. intros e. destruct (match options with [] => _ | _ => _ end) as [withscores|]; [|by apply just_refines].
  apply zlookup_refines; [done|]. intros o m _ E2 Ho Hne. destruct (zset_range_ok junk _ _ limits env fresh_env o m s e rev Ho) as (o' & -> & Ho'). cbn [mbind option_bind]. rewrite range_reply_spec. cbn [mbind option_bind]. apply cmd_refines_some. by eapply db_rel_same.
Qed.

Lemma zcounts_refine h a cmd :
  zdb_rel h a → match cmd with Zrangebyscore _ _ _ _ _ | Zrangebylex _ _ _ _ _ | Zcount _ _ _ | Zlexcount _ _ _ => True | _ => False end → refines (run h cmd) (a_zcommand a cmd).
Proof.
  intros Hr Hc. destruct cmd as [| | | |key x y options rev|key x y options rev|key min max|key min max| | | |]; try done; cbn [run_zcommand a_zcommand].
  - unfold genericZrangebyscoreCommand. destruct (if rev then _ else _) as [r|]; [|by apply just_refines]. apply range_query_refines; [done|]. intros o m offset limit l Ho [= <-]. by eapply zset_rangebyscore_ok.
  - unfold genericZrangebylexCommand. destruct (if rev then _ else _) as [r|]; [|by apply just_refines]. apply range_query_refines; [done|]. intros o m offset limit l Ho. destruct (m_flat m) eqn:Hf; [|done]. intros [= <-]. by eapply zset_rangebylex_ok.
  - unfold zcountCommand. destruct (zslParseRange min max) as [r|]; [|by apply just_refines]. apply zlookup_refines; [done|]. intros o m _ _ Ho _. erewrite zset_count_ok by done. by apply just_refines.
  - unfold zlexcountCommand. destruct (zslParseLexRange min max) as [r|]; [|by apply just_refines]. apply zlookup_refines; [done|]. intros o m _ _ Ho _. destruct (m_flat m) eqn:Hf; [|done]. erewrite zset_lexcount_ok by done. by apply just_refines.
Qed.

Lemma m_rank_sign m ele (rev : bool) s : m !! ele = Some s → 0 ≤ m_rank m ele rev.
Proof.
  intros E. unfold m_rank. rewrite E. unfold m_before. destruct rev; [|lia]. set (f := filter _ m). assert (size f < size m)%nat; [|lia]. apply map_subset_size. apply strict_spec_alt. split; [apply map_filter_subseteq|].
  intros E2. assert (f !! ele = Some s) as E3 by (by rewrite E2). apply map_lookup_filter_Some in E3 as [_ E3]. cbn in E3. by rewrite node_lt_irrefl in E3.
Qed.

Lemma zpoints_refine h a cmd : zdb_rel h a → match cmd with Zcard _ | Zscore _ _ | Zrank _ _ _ => True | _ => False end → refines (run h cmd) (a_zcommand a cmd).
Proof.
  intros Hr Hc. destruct cmd as [| | | | | | | |key|key member|key member rev|]; try done; cbn [run_zcommand a_zcommand]; (apply zlookup_refines; [done|]); intros o m _ E2 Ho Hne.
  - edestruct zsetLength_ok as (o' & -> & Ho'); [done..|]. cbn [mbind option_bind]. apply cmd_refines_some. by eapply db_rel_same.
  - erewrite zsetScore_ok by done. cbn [mbind option_bind]. destruct (m !! member) as [s|]; [|by apply just_refines]. rewrite addReplyDouble_spec. cbn [mbind option_bind]. by apply just_refines.
  - edestruct zsetRank_ok as (o' & -> & Ho'); [done..|]. cbn [mbind option_bind]. destruct (m !! member) as [s|] eqn:E.
    + rewrite (proj2 (Z.leb_le _ _)) by (by eapply m_rank_sign). apply cmd_refines_some. by eapply db_rel_same.
    + unfold m_rank. rewrite E. apply cmd_refines_some. by eapply db_rel_same.
Qed.

(** ** Removals *)

Lemma removed_count m e : (match m !! e with Some _ => 1 | None => 0 end) = Z.of_nat (size m) - Z.of_nat (size (delete e m)).
Proof. pose proof (size_delete m e) as Hs. destruct (m !! e); [rewrite bool_decide_eq_true_2 in Hs by by eexists|rewrite bool_decide_eq_false_2 in Hs by by intros [? ?]]; cbn [b2z] in Hs; lia. Qed.

Lemma zrem_loop_spec members : ∀ o m deleted, orep o m → m ≠ ∅ →
  ∃ o', zrem_loop o members deleted = Some (o', deleted + (Z.of_nat (size m) - Z.of_nat (size (without m members))), bool_decide (without m members = ∅)) ∧ orep o' (without m members).
Proof.
  induction members as [|e members IH]; intros o m deleted Ho Hne; cbn [zrem_loop].
  { exists o. split; [|done]. change (without m []) with m. rewrite bool_decide_eq_false_2 by done. do 3 f_equal. lia. }
  change (without m (e :: members)) with (without (delete e m) members). destruct (zsetDel_ok junk _ _ env fresh_env o m e Ho) as (o1 & -> & Ho1). cbn [mbind option_bind]. rewrite removed_count.
  destruct (zsetLength_ok junk _ _ o1 (delete e m) Ho1) as (o2 & -> & Ho2). cbn [mbind option_bind]. destruct (Z.of_nat (size (delete e m)) =? 0) eqn:Ez.
  - apply size_zero_spec in Ez. rewrite Ez in *. rewrite without_empty, map_size_empty. exists o2. split; [|done]. rewrite bool_decide_eq_true_2 by done. do 3 f_equal.
  - destruct (IH o2 (delete e m) (deleted + (Z.of_nat (size m) - Z.of_nat (size (delete e m)))) Ho2) as (o' & -> & Ho'); [by intros E%size_zero_spec; congruence|]. exists o'. split; [|done]. do 3 f_equal. lia.
Qed.

Lemma gone_spec m : (bool_decide (m = ∅) = true ↔ m = ∅).
Proof. apply bool_decide_eq_true. Qed.

Lemma zrem_refines h a key members : zdb_rel h a → refines (run h (Zrem key members)) (a_zcommand a (Zrem key members)).
Proof.
  intros Hr. cbn [run_zcommand a_zcommand]. apply zlookup_refines; [done|]. intros o m _ _ Ho Hne. destruct (zrem_loop_spec members o m 0 Ho Hne) as (o' & -> & Ho'). cbn [mbind option_bind]. rewrite Z.add_0_l. unfold a_removed. set (m' := without m members) in *.
  intros a' r es d [= <- <- <- <-]. eexists. split; [|apply (put_rel h a key o' m' (bool_decide (m' = ∅)) Hr Ho' (gone_spec m'))]. do 3 f_equal. destruct (_ =? 0); [done|]. case_bool_decide; by destruct (decide (m' = ∅)).
Qed.

Lemma remrange_refines h a key r rangetype : zdb_rel h a →
  refines (lookup_zset_or h key (Object.RInt 0) (λ o,
      '(o, deleted) ← zset_remrange o r;
      '(o, len) ← zset_left o;
      let keyremoved := len =? 0 in
      Some (if keyremoved then delete key h else <[key := VObj o]> h, Object.RInt deleted,
        if deleted =? 0 then [] else [Signal key; Notify (zrem_event rangetype) key] ++ (if keyremoved then [Notify "del" key] else []), deleted)))
    (a_remrange a key r rangetype).
Proof.
  intros Hr. apply zlookup_refines; [done|]. intros o m _ _ Ho Hne. destruct (m_pre m (CRemRange r)) eqn:Hp; [|done]. destruct (zset_remrange_ok junk _ _ limits env fresh_env o m r Ho Hp) as (o1 & -> & Ho1). cbn [mbind option_bind].
  set (m' := m_remove r m) in *. destruct (zset_left_ok junk _ _ o1 m' Ho1) as (o2 & -> & Ho2). cbn [mbind option_bind]. intros a' r' es d [= <- <- <- <-]. eexists. split; [|apply (put_rel h a key o2 m' _ Hr Ho2 (size_zero_spec m'))]. cbv zeta. do 3 f_equal.
  destruct (_ - _ =? 0); [done|]. rewrite app_nil_r. pose proof (size_zero_spec m') as Hz. destruct (decide (m' = ∅)) as [E|E]; [by rewrite (proj2 Hz E)|]. destruct (Z.of_nat (size m') =? 0); [by destruct E; apply Hz|done].
Qed.

Lemma zremrange_refines h a key min max rangetype : zdb_rel h a → refines (run h (Zremrange key min max rangetype)) (a_zcommand a (Zremrange key min max rangetype)).
Proof.
  intros Hr. cbn [run_zcommand a_zcommand]. unfold zremrangeGenericCommand. destruct (rangetype =? 0).
  - apply zlong_refines; [done|]. intros start. apply zlong_refines; [done|]. intros end_. by apply remrange_refines.
  - destruct (rangetype =? 1); [destruct (zslParseRange min max)|destruct (zslParseLexRange min max)]; by (apply remrange_refines || apply just_refines).
Qed.

(** ** Pops *)

Lemma orep_list o m : orep o m → ∃ L, lrep L m.
Proof. intros Ho. destruct o; [destruct Ho as (L & _ & Hl & _); by exists L|]. destruct Ho as (L & Hz & Hm). exists L. split; [apply Hz|apply Hz|done]. Qed.

(** The member at an end, and those that remain. *)
Lemma pop_end o m where_ :
  orep o m → m ≠ ∅ → ∃ s e, m_end where_ m = Some (s, e) ∧ m !! e = Some s ∧ turn (where_ =? ZSET_MAX) (sorted_members m) = (s, e) :: turn (where_ =? ZSET_MAX) (sorted_members (delete e m)).
Proof.
  intros Ho Hne. destruct (orep_list o m Ho) as (L & Hl). pose proof (proj1 (lrep_nonempty L m Hl)) as Hnil. assert (∀ L m, lrep L m → sorted_members m = abs L) as Hs by (intros ? ? [? ? ?]; by apply sorted_members_unique).
  unfold m_end, turn. rewrite (Hs L m Hl). destruct (where_ =? ZSET_MAX).
  - destruct L as [|x L _] using rev_ind; [by destruct Hne; apply (lrep_nonempty [] m Hl)|]. pose proof (lrep_remove L x [] m Hl) as Hl'. rewrite app_nil_r in Hl'. exists (ns x), (ne x). rewrite <-abs_last, last_snoc, (Hs L _ Hl'), (lrep_found L x [] m Hl).
    split; [done|]. split; [done|]. unfold abs. by rewrite fmap_app, reverse_app.
  - destruct L as [|x L]; [by destruct Hne; apply (lrep_nonempty [] m Hl)|]. exists (ns x), (ne x). by rewrite (Hs L _ (lrep_remove [] x L m Hl)), (lrep_found [] x L m Hl).
Qed.

Lemma sorted_members_empty : sorted_members (∅ : zmap) = [].
Proof. done. Qed.

Lemma zpop_loop_spec where_ : ∀ count o m, orep o m → m ≠ ∅ →
  let l := take count (turn (where_ =? ZSET_MAX) (sorted_members m)) in
  ∃ o', zpop_loop count o where_ = Some (o', bool_decide (without m l.*2 = ∅), l) ∧ orep o' (without m l.*2).
Proof.
  induction count as [|count IH]; intros o m Ho Hne l; cbn [zpop_loop].
  { exists o. unfold l. cbn [take fmap list_fmap]. change (without m []) with m. by rewrite bool_decide_eq_false_2. }
  rewrite (zset_end_ok junk _ _ o m where_ Ho Hne). destruct (pop_end o m where_ Ho Hne) as (s & e & E1 & E2 & E3). unfold l. rewrite E1, E3. cbn [mbind option_bind take fmap list_fmap snd]. change (without m (e :: ?r)) with (without (delete e m) r).
  destruct (zsetDel_ok junk _ _ env fresh_env o m e Ho) as (o1 & -> & Ho1). rewrite E2. cbn [mbind option_bind Z.eqb]. destruct (zsetLength_ok junk _ _ o1 (delete e m) Ho1) as (o2 & -> & Ho2). cbn [mbind option_bind].
  destruct (Z.of_nat (size (delete e m)) =? 0) eqn:Ez.
  - apply size_zero_spec in Ez. rewrite Ez in *. exists o2. rewrite sorted_members_empty. assert (turn (where_ =? ZSET_MAX) (@nil (Sc * bytes)) = []) as -> by (by destruct (where_ =? ZSET_MAX)). rewrite take_nil. cbn [fmap list_fmap].
    rewrite without_empty. by rewrite bool_decide_eq_true_2.
  - destruct (IH o2 (delete e m) Ho2) as (o' & -> & Ho'); [by intros E%size_zero_spec; congruence|]. by exists o'.
Qed.

Lemma zpop_key_refines h a key where_ count : zdb_rel h a →
  refines (lookup_zset_or h key emptymultibulk (λ o,
      '(o, keyremoved, l) ← zpop_loop (Z.to_nat count) o where_;
      r ← range_bulks true l;
      Some (if (keyremoved : bool) then delete key h else <[key := VObj o]> h, RMultiBulk (2 * zlen l) r,
        [Notify (if where_ =? ZSET_MAX then "zpopmax" else "zpopmin") key; Signal key] ++ (if keyremoved then [Notify "del" key] else []), zlen l)))
    (a_pop a key where_ count).
Proof.
  intros Hr. apply zlookup_refines; [done|]. intros o m _ _ Ho Hne. destruct (zpop_loop_spec where_ (Z.to_nat count) o m Ho Hne) as (o' & -> & Ho'). cbn [mbind option_bind]. rewrite range_bulks_spec. cbn [mbind option_bind]. cbv zeta. set (l := take _ _) in *. set (m' := without m l.*2) in *.
  intros a' r es d [= <- <- <- <-]. eexists. split; [|apply (put_rel h a key o' m' _ Hr Ho' (gone_spec m'))]. unfold a_list. rewrite a_members_length. do 3 f_equal. case_bool_decide; by destruct (decide (m' = ∅)).
Qed.

Lemma zpop_refines h a key count where_ : zdb_rel h a → refines (run h (Zpop key count where_)) (a_zcommand a (Zpop key count where_)).
Proof.
  intros Hr. cbn [run_zcommand a_zcommand]. unfold genericZpopCommand. destruct count as [count|]; [|by apply zpop_key_refines]. apply zlong_refines; [done|]. intros n. destruct (n <=? 0); [by apply just_refines|by apply zpop_key_refines].
Qed.

(** ** Additions *)

(** What an addition does, as far as ZADD looks at it. *)
Record added (m : zmap) (flags : Z) (m' : zmap) (ret rf : Z) (new : option Sc) : Prop := {
  ad_ret : (ret = 0 ∧ Z.land flags ZADD_INCR ≠ 0 ∧ m' = m ∧ rf = ZADD_NAN) ∨ ret = 1;
  ad_size : Z.of_nat (size m') = Z.of_nat (size m) + (if Z.land rf ZADD_ADDED =? 0 then 0 else 1);
  ad_updated : (Z.land rf ZADD_UPDATED =? 0) = negb (rf =? ZADD_UPDATED);
  ad_empty : m' = ∅ → m = ∅ ∧ Z.land flags ZADD_XX ≠ 0;
  ad_new : Z.land flags ZADD_INCR ≠ 0 → ret = 1 → if Z.land rf ZADD_NOP =? 0 then is_Some new else new = None;
}.

Lemma m_add_added m s e flags : ∃ m' ret rf new, m_add m (Some s) e flags = (m', RAdd ret rf new) ∧ added m flags m' ret rf new.
Proof.
  unfold m_add. destruct (m !! e) as [cur|] eqn:Em.
  - assert (m ≠ ∅) as Hne by (intros ->; by rewrite lookup_empty in Em).
    assert (∀ s, Z.of_nat (size (<[e := s]> m)) = Z.of_nat (size m)) as Hsz by (intros; rewrite map_size_insert_Some; [done|by eexists]).
    assert (∀ s, <[e := s]> m ≠ ∅) as Hne' by (intros; apply insert_non_empty).
    destruct (negb (Z.land flags ZADD_NX =? 0)); [by eexists _, _, _, _; split; [done|]; split; [by right|symmetry; apply Z.add_0_r|done|done|done]|].
    destruct (Z.eqb_spec (Z.land flags ZADD_INCR) 0) as [Hi|Hi]; cbn [negb].
    + destruct (seqb s cur); eexists _, _, _, _; (split; [done|]); split; try done; try (by right); rewrite ?Hsz; try (symmetry; apply Z.add_0_r); intros E; by edestruct Hne'.
    + destruct (sadd s cur) as [s'|]; [|eexists _, _, _, _; split; [done|]; split; [by left|symmetry; apply Z.add_0_r|done|done|done]].
      destruct (seqb s' cur); eexists _, _, _, _; (split; [done|]); split; try done; try (by right); rewrite ?Hsz; try (symmetry; apply Z.add_0_r); intros; try (by eexists); by edestruct Hne'.
  - destruct (Z.eqb_spec (Z.land flags ZADD_XX) 0) as [Hx|Hx]; cbn [negb]; eexists _, _, _, _; (split; [done|]); split; try done; try (by right).
    + rewrite map_size_insert_None by done. exact (Nat2Z.inj_succ _).
    + intros E. by apply insert_non_empty in E.
    + intros _ _. by eexists.
    + symmetry. apply Z.add_0_r.
Qed.

Lemma a_adds_empty flags l m : (a_adds flags l m).1 = ∅ → m = ∅ ∧ (l = [] ∨ Z.land flags ZADD_XX ≠ 0).
Proof.
  revert m. induction l as [|[s e] l IH]; intros m; cbn [a_adds]; [by intros E; split; [exact E|left]|]. destruct (m_add_added m s e flags) as (m1 & ret & rf & new & -> & Had). destruct (a_adds flags l m1) as [m2 n] eqn:E. cbn [fst]. intros ->.
  specialize (IH m1). rewrite E in IH. destruct (IH eq_refl) as [-> _]. destruct (ad_empty _ _ _ _ _ _ Had eq_refl) as [-> Hx]. split; [done|by right].
Qed.

(** Nothing is added with XX when there is no key. *)
Lemma a_adds_xx flags l : Z.land flags ZADD_XX ≠ 0 → a_adds flags l ∅ = (∅, 0).
Proof.
  intros Hx. induction l as [|[s e] l IH]; [done|]. cbn [a_adds m_add]. rewrite lookup_empty. rewrite (proj2 (Z.eqb_neq _ _) Hx). cbn [negb]. by rewrite IH.
Qed.

Abbreviation zadd_loop := (zadd_loop junk header_addr zset_max_ziplist_entries zset_max_ziplist_value env).

Lemma zadd_loop_spec flags l : Z.land flags ZADD_INCR = 0 → Forall (λ p : Sc * bytes, zlen p.2 ≤ 2 ^ 29) l → ∀ j (st : zadd_state (T := T)) m, orep (za_obj st) m → za_nan st = false →
  ∃ st', zadd_loop j l flags st = Some st' ∧ za_nan st' = false ∧ orep (za_obj st') (a_adds flags l m).1 ∧
    za_added st' = za_added st + (Z.of_nat (size (a_adds flags l m).1) - Z.of_nat (size m)) ∧ za_updated st' = za_updated st + (a_adds flags l m).2.
Proof.
  intros Hi Hl. induction Hl as [|[s e] l He Hl IH]; intros j st m Ho Hn; cbn [ZsetCommands.zadd_loop a_adds].
  { exists st. cbn [fst snd]. split_and!; [done|done|done|lia|lia]. }
  destruct (zsetAdd_ok junk header_addr _ _ limits env fresh_env j _ m s e flags Ho He) as (o1 & ret & rf & new & -> & E & Ho1). destruct (m_add_added m s e flags) as (m1 & ret' & rf' & new' & Em & [Hret Hsz Hup _ _]).
  rewrite Em in *. cbn [fst snd] in *. injection E as -> -> ->. cbn [mbind option_bind]. destruct Hret as [(_ & ? & _)| ->]; [done|]. cbn [Z.eqb]. set (st1 := ZAddState _ _ _ _ _ _). destruct (IH (S j) st1 m1 Ho1 eq_refl) as (st' & -> & Hn' & Ho' & Ha & Hu).
  destruct (a_adds flags l m1) as [m2 n]. cbn [fst snd] in *. exists st'. split; [done|]. split; [done|]. split; [done|]. rewrite Ha, Hu. cbn [st1 za_added za_updated]. rewrite Hup. split.
  - destruct (Z.land rf ZADD_ADDED =? 0); lia.
  - destruct (rf =? ZADD_UPDATED); cbn [negb]; lia.
Qed.

(** The additions to a set that exists or was just created. *)
Lemma zadd_add_refines h a key o m l flags :
  zdb_rel h a → orep o m → Forall (λ p : Sc * bytes, zlen p.2 ≤ 2 ^ 29) l → (m = ∅ → l ≠ [] ∧ Z.land flags ZADD_XX = 0) → (Z.land flags ZADD_INCR ≠ 0 → ∃ p, l = [p]) →
  let incr := negb (Z.land flags ZADD_INCR =? 0) in
  refines
    (st ← zadd_loop 0 l flags (ZAddState o 0 0 0 None false);
     let changes := za_added st + za_updated st in
     let events := if changes =? 0 then [] else [Signal key; Notify (if incr then "zincr" else "zadd") key] in
     let h := <[key := VObj (za_obj st)]> h in
     if za_nan st then Some (h, nanerr, events, 0)
     else r ← zadd_reply flags (za_added st) (za_updated st) (za_processed st) (za_score st); Some (h, r, events, changes))
    (let '(m', r, changes) := a_add flags l m in
     Some (put_zset a key m', r, if changes =? 0 then [] else [Signal key; Notify (if incr then "zincr" else "zadd") key], changes)).
Proof.
  intros Hr Ho Hl Hm Hone incr. unfold a_add. pose proof (a_adds_empty flags l m) as Hne. assert (∀ o', orep o' (a_adds flags l m).1 → zdb_rel (<[key := VObj o']> h) (put_zset a key (a_adds flags l m).1)) as Hput.
  { intros o' Ho'. apply (put_rel h a key o' _ false Hr Ho'). split; [done|]. intros E. destruct (Hne E) as [E1 E2]. destruct (Hm E1) as [? ?]. by destruct E2. }
  unfold zadd_reply. destruct (Z.eqb_spec (Z.land flags ZADD_INCR) 0) as [Hi|Hi].
  - destruct (zadd_loop_spec flags l Hi Hl 0 (ZAddState o 0 0 0 None false) m Ho eq_refl) as (st & -> & Hn & Ho' & Ha & Hu). cbn [za_added za_updated] in Ha, Hu. cbn [mbind option_bind]. rewrite Hn, Ha, Hu. unfold incr. cbn [negb mbind option_bind]. specialize (Hput _ Ho').
    destruct (a_adds flags l m) as [m' n]. cbn [fst snd] in *. rewrite !Z.add_0_l. by apply cmd_refines_some.
  - destruct (Hone Hi) as [[s e] ->]. apply Forall_cons in Hl as [He _]. cbn [a_adds ZsetCommands.zadd_loop za_obj snd] in *.
    destruct (zsetAdd_ok junk header_addr _ _ limits env fresh_env 0 o m s e flags Ho He) as (o1 & ret & rf & new & -> & E & Ho1). destruct (m_add_added m s e flags) as (m1 & ret' & rf' & new' & Em & [Hret Hsz Hup _ Hnew]).
    rewrite Em in *. cbn [fst snd] in *. injection E as -> -> ->. specialize (Hput _ Ho1). unfold incr. cbn [mbind option_bind negb]. destruct Hret as [(-> & _ & -> & ->)| ->].
    + cbn [Z.eqb za_added za_updated za_nan za_obj mbind option_bind Z.add]. rewrite Z.sub_diag. by apply cmd_refines_some.
    + specialize (Hnew Hi eq_refl). cbn [Z.eqb mbind option_bind za_added za_updated za_nan za_processed za_score za_obj]. rewrite Hup. replace (Z.of_nat (size m1) - Z.of_nat (size m)) with (if Z.land rf ZADD_ADDED =? 0 then 0 else 0 + 1) by (destruct (Z.land rf ZADD_ADDED =? 0); lia).
      replace (0 + (if rf =? ZADD_UPDATED then 1 else 0)) with (if negb (rf =? ZADD_UPDATED) then 0 else 0 + 1) by (by destruct (rf =? ZADD_UPDATED)).
      destruct (Z.land rf ZADD_NOP =? 0); [destruct Hnew as [s' ->]|subst new]; cbn [Z.eqb Z.add mbind option_bind]; [rewrite addReplyDouble_spec; cbn [mbind option_bind]|]; by apply cmd_refines_some.
Qed.

Lemma pairs_length {X} : ∀ l : list X, Z.odd (zlen l) = false → zlen l = 2 * zlen (pairs l).
Proof.
  fix IH 1. intros [|x [|y l]] Hl; [done|done|]. cbn [pairs length] in *. assert (zlen l = 2 * zlen (pairs l)); [|lia]. apply IH. rewrite <-Hl. replace (Z.of_nat (S (S (length l)))) with (zlen l + 2 * 1) by lia. by rewrite Z.odd_add_mul_2.
Qed.

Lemma parse_scores_length (ps : list (bytes * bytes)) : ∀ l, parse_scores (Sc := Sc) ps = Some l → length l = length ps.
Proof.
  induction ps as [|[s e] ps IH]; intros l; cbn [parse_scores]; [by intros [= <-]|]. intros (x & _ & Hl)%bind_Some. apply bind_Some in Hl as (l' & Hl' & [= <-]). cbn [length]. by rewrite (IH l').
Qed.

(** What is replied when there is no key and XX asks for one. *)
Lemma zadd_absent_xx h a key flags l incr :
  zdb_rel h a → a !! key = None → Z.land flags ZADD_XX ≠ 0 →
  refines (r ← zadd_reply (Sc := Sc) flags 0 0 0 None; reply_only h r)
    (let '(m', r, changes) := a_add flags l ∅ in Some (put_zset a key m', r, if changes =? 0 then [] else [Signal key; Notify (if (incr : bool) then "zincr" else "zadd") key], changes)).
Proof.
  intros Hr Ha Hx. unfold a_add. rewrite (a_adds_xx flags l Hx). unfold put_zset. rewrite decide_True by done. rewrite delete_id by done. rewrite Z.sub_diag. unfold zadd_reply. destruct (Z.land flags ZADD_INCR =? 0); cbn [negb Z.eqb mbind option_bind Z.add].
  - replace (if negb (Z.land flags ZADD_CH =? 0) then 0 else 0) with 0 by (by destruct (negb _)). by apply cmd_refines_some.
  - destruct l as [|[s e] l]; [by apply cmd_refines_some|]. cbn [m_add]. rewrite lookup_empty, (proj2 (Z.eqb_neq _ _) Hx). by apply cmd_refines_some.
Qed.

Lemma zadd_refines h a key args flags : zdb_rel h a → refines (run h (Zadd key args flags)) (a_zcommand a (Zadd key args flags)).
Proof.
  intros Hr. cbn [run_zcommand a_zcommand]. unfold zaddGenericCommand, a_zadd. destruct (zadd_options args flags) as [fl rest]. replace (bool_decide (rest = [])) with (zlen rest =? 0) by (destruct rest; [by rewrite bool_decide_eq_true_2|by rewrite bool_decide_eq_false_2]).
  destruct (Z.odd (zlen rest)) eqn:Hodd; cbn [orb]; [by apply just_refines|]. destruct (Z.eqb_spec (zlen rest) 0) as [Hz|Hz]; [by apply just_refines|]. destruct (negb (Z.land fl ZADD_NX =? 0) && negb (Z.land fl ZADD_XX =? 0)); [by apply just_refines|].
  pose proof (pairs_length rest Hodd) as Hp. assert ((1 <? zlen rest / 2) = (2 <? zlen rest)) as ->.
  { rewrite Hp, Z.mul_comm, Z.div_mul by lia. apply eq_true_iff_eq. rewrite !Z.ltb_lt. lia. }
  destruct (negb (Z.land fl ZADD_INCR =? 0) && (2 <? zlen rest)) eqn:Hone; [by apply just_refines|]. destruct (parse_scores (pairs rest)) as [l|] eqn:Hl; [|by apply just_refines]. apply parse_scores_length in Hl.
  assert (l ≠ []) as Hne by (intros ->; cbn [length] in Hl; lia). assert (Z.land fl ZADD_INCR ≠ 0 → ∃ p, l = [p]) as Hone'.
  { intros Hi%Z.eqb_neq. rewrite Hi in Hone. cbn [negb andb] in Hone. apply Z.ltb_ge in Hone. destruct l as [|p [|q l]]; [done|by exists p|]. cbn [length] in Hl. lia. }
  assert (forallb (λ p, zlen p.2 <=? 2 ^ 29) l = true → Forall (λ p : Sc * bytes, zlen p.2 ≤ 2 ^ 29) l) as Hsz. { rewrite forallb_forall, Forall_forall. intros Hf p Hp'. apply Z.leb_le, Hf. by apply list_elem_of_In. }
  destruct (db_rel_cases zset_ok h a key Hr) as [[E1 E2]|[(o & m & E1 & E2 & Ho & Hm)|(v & E1 & E2)]]; rewrite E1, E2; [| |by apply just_refines]; (destruct (forallb _ l); [|done]).
  - destruct (Z.eqb_spec (Z.land fl ZADD_XX) 0) as [Hx|Hx]; cbn [negb]; [|by apply zadd_absent_xx]. destruct rest as [|s [|ele rest]]; [done|done|]. cbn [lookup list_lookup mbind option_bind].
    destruct (_ || _); [destruct (create_zset_spec (T := T) (Sc := Sc) junk header_addr zset_max_ziplist_entries zset_max_ziplist_value) as (o & -> & Ho)|destruct (create_ziplist_spec (T := T) (Sc := Sc) junk _ _ limits) as (o & -> & Ho)]; cbn [mbind option_bind]; apply zadd_add_refines; auto.
  - apply zadd_add_refines; auto. by intros ->.
Qed.

Lemma zcommand_refines h a cmd : zdb_rel h a → refines (run h cmd) (a_zcommand a cmd).
Proof.
  intros Hr. destruct cmd; [by apply zadd_refines|by apply zrem_refines|by apply zremrange_refines|by apply zrange_refines|by apply zcounts_refine..|by apply zpoints_refine|by apply zpoints_refine|by apply zpoints_refine|by apply zpop_refines].
Qed.

End Refine.

Section Session.

Context (junk : nat → Z) {T : Type} `{PackedListLaws T} {Sc : Type} `{!ScoreOrder Sc} `{!ScoreLaws Sc} `{!ScoreAdd Sc} `{!DoubleOps Sc} `{!DoubleLaws Sc}.
Context (header_addr : addr) (zset_max_ziplist_entries zset_max_ziplist_value : Z) (env : nat → nat → zskiplist Sc → addr * list Z).

Lemma zcommands_refine (cmds : list zcommand) : ∀ n (h : gmap bytes (dbval (zobj T Sc))) (a a' : gmap bytes (dbval (gmap bytes Sc))) outs,
  limits_ok zset_max_ziplist_entries zset_max_ziplist_value → (∀ n, env_fresh (env n)) → zdb_rel junk zset_max_ziplist_entries zset_max_ziplist_value h a → a_zcommands a cmds = Some (a', outs) →
  ∃ h', run_zcommands junk header_addr zset_max_ziplist_entries zset_max_ziplist_value env n h cmds = Some (h', outs) ∧ zdb_rel junk zset_max_ziplist_entries zset_max_ziplist_value h' a'.
Proof.
  induction cmds as [|cmd cmds IH]; intros n h a a' outs Hlim Henv Hr Ha; cbn [run_zcommands a_zcommands] in *; [injection Ha as <- <-; by exists h|].
  apply bind_Some in Ha as ([[[a1 r] ev] d] & H1 & Ha). apply bind_Some in Ha as ([a2 rs] & H2 & Ha). injection Ha as <- <-.
  destruct (zcommand_refines junk header_addr _ _ Hlim (env n) (Henv n) h a cmd Hr a1 r ev d H1) as (h1 & -> & Hr1). cbn [mbind option_bind].
  destruct (IH (S n) h1 a1 a2 rs Hlim Henv Hr1 H2) as (h2 & -> & Hr2). by exists h2.
Qed.

(** C31: a sorted set is a map from its members to their scores, in both encodings.  A session in
    which ranges by elements (ZRANGEBYLEX, ZREVRANGEBYLEX, ZLEXCOUNT and ZREMRANGEBYLEX) are only
    asked of sets whose members all have the same score (the commands do not check it, and on other
    sets the answers depend on the levels of the nodes) and members have at most 512 MB, made of
    ZADD and ZINCRBY with their options, ZREM, ZREMRANGEBYRANK, -BYSCORE and -BYLEX, ZRANGE,
    ZRANGEBYSCORE and ZRANGEBYLEX forwards and backwards with limits, ZCOUNT, ZLEXCOUNT, ZCARD,
    ZSCORE, ZRANK, ZREVRANK, ZPOPMIN and ZPOPMAX on the keys of a database, some of which may
    have values of other types, runs without a failed
    assertion, a read outside of a ziplist or the use of a node that was released, and has the
    replies, events and numbers of changes that the maps determine: ranges list the selected
    members in the order of score and element, ranks count the members before, errors leave the
    database as it was, and a key goes with its last member.  The sets are kept in ziplists as
    long as they are within the limits, whatever the addresses and levels of skiplist nodes; a
    score is read back from its text as the number that was stored.  At the end each key has the
    same map, and every set that can be asked has its members in order. *)
Theorem zsets_refine_maps (others : gmap bytes Z) (cmds : list zcommand) (a : gmap bytes (dbval (gmap bytes Sc))) outs :
  limits_ok zset_max_ziplist_entries zset_max_ziplist_value → (∀ n, env_fresh (env n)) → a_zcommands (VOther <$> others) cmds = Some (a, outs) →
  ∃ h : gmap bytes (dbval (zobj T Sc)), run_zcommands junk header_addr zset_max_ziplist_entries zset_max_ziplist_value env 0 (VOther <$> others) cmds = Some (h, outs) ∧ dom h = dom a ∧
    ∀ key o, h !! key = Some (VObj o) → ∃ m o', a !! key = Some (VObj m) ∧ m ≠ ∅ ∧ (∀ e, zsetScore o e = Some (m !! e)) ∧ zset_range o 0 (-1) false = Some (o', sorted_members m) ∧
      match o with ZZl _ => Z.of_nat (size m) ≤ zset_max_ziplist_entries ∧ ∀ e s, m !! e = Some s → zlen e ≤ zset_max_ziplist_value | ZSkip zs => dom (zdict zs) = dom m end.
Proof.
  intros Hlim Henv Ha. destruct (zcommands_refine cmds 0 _ _ a outs Hlim Henv (db_rel_other _ others) Ha) as (h & E & Hr). exists h. split; [done|]. split.
  - apply set_eq. intros key. rewrite !elem_of_dom. destruct (db_rel_cases _ h a key Hr) as [[-> ->]|[(o & m & -> & -> & _)|(v & -> & ->)]]; [done|split; by eexists..].
  - intros key o Eo. destruct (db_rel_cases _ h a key Hr) as [[? _]|[(o' & m & E1 & E2 & Ho & Hne)|(v & ? & _)]]; [congruence| |congruence]. assert (o' = o) as -> by congruence.
    destruct (zset_range_ok junk _ _ Hlim (env 0%nat) (Henv 0%nat) o m 0 (-1) false Ho) as (o' & E3 & _). exists m, o'. split; [done|]. split; [done|]. split; [intros e; by eapply (zsetScore_ok junk _ _ (env 0%nat) (Henv 0%nat))|]. split; [by rewrite E3, range_all|].
    destruct o as [zl|zs].
    + destruct Ho as (L & _ & Hl & Hn & Hv). split; [by rewrite (lrep_size L m Hl)|]. intros e s Es. apply (lr_map _ _ Hl) in Es. apply list_elem_of_fmap in Es as (x & [= -> ->] & Hx). by eapply Forall_forall in Hv.
    + destruct Ho as (L & Hz & Hm). by eapply zrep_dom.
Qed.

End Session.

(** ** The integers up to 2^53 as scores *)

(** An instance of doubles: the integers that doubles represent exactly, and the infinities. *)
Definition representable (x : ext) : bool := match x with Fin n => (- 2 ^ 53 <=? n) && (n <=? 2 ^ 53) | _ => true end.

Record dbl := Dbl { dbl_val : ext; dbl_ok : representable dbl_val = true }.

(** A number that is too large becomes an infinity. *)
Definition round (x : ext) : dbl :=
  match decide (representable x = true) with
  | left H => Dbl x H
  | right _ => if slt (Fin 0) x then Dbl PosInf eq_refl else Dbl NegInf eq_refl
  end.

Lemma round_id (s : dbl) : round (dbl_val s) = s.
Proof.
  unfold round. destruct s as [x Hx]. cbn [dbl_val]. destruct (decide (representable x = true)) as [H|H]; [|done]. by rewrite (proof_irrel H Hx).
Qed.

#[global] Instance dbl_score : ScoreOrder dbl := {
  slt s t := slt (dbl_val s) (dbl_val t);
  seqb s t := seqb (dbl_val s) (dbl_val t);
}.

#[global] Instance dbl_score_laws : ScoreLaws dbl.
Proof.
  split; unfold slt, seqb, dbl_score.
  - intros s. apply slt_irrefl.
  - intros s t u. apply slt_trans.
  - intros s t u. apply slt_weak.
  - intros s t. apply seqb_spec.
Qed.

#[global] Instance dbl_add : ScoreAdd dbl := λ s t, round <$> sadd (dbl_val s) (dbl_val t).

Definition dbl_read (s : bytes) : option dbl * Z * bool :=
  if bool_decide (s = str "inf") then (Some (round PosInf), 3, false)
  else if bool_decide (s = str "-inf") then (Some (round NegInf), 4, false)
  else match to_int s with Some n => (Some (round (Fin n)), zlen s, false) | None => (Some (round (Fin 0)), 0, false) end.

#[global] Instance dbl_ops : DoubleOps dbl := {
  isinf s := match dbl_val s with PosInf => Some false | NegInf => Some true | Fin _ => None end;
  iszero s := match dbl_val s with Fin 0 => Some false | _ => None end;
  safe_ll s := match dbl_val s with Fin n => if (-4503599627370495 <? n) && (n <? 4503599627370496) then Some n else None | _ => None end;
  of_ll n := round (Fin n);
  fmt17 s := match dbl_val s with Fin n => of_int n | _ => [] end;
  strtod := dbl_read;
}.

#[global] Instance dbl_laws : DoubleLaws dbl.
Proof.
  assert (∀ n : Z, - 2 ^ 53 ≤ n ≤ 2 ^ 53 → (dbl_read (of_int n)).1.1 = Some (round (Fin n)) ∧ zlen (of_int n) < 128) as Hread.
  { intros n Hn. assert (in_s 64 n) as Hn64 by (unfold in_s; lia). pose proof (to_of_int n Hn64) as Ht. split.
    - unfold dbl_read. rewrite !bool_decide_eq_false_2 by (intros E; by rewrite E in Ht). by rewrite Ht.
    - pose proof (of_int_eq n Hn64) as [_ Hc]. pose proof (canonical_length _ _ Hc Hn64). lia. }
  assert (∀ (s : dbl) n, dbl_val s = Fin n → - 2 ^ 53 ≤ n ≤ 2 ^ 53) as Hrep by (intros s n E; pose proof (dbl_ok s) as Hr; rewrite E in Hr; by apply andb_true_iff in Hr as [?%Z.leb_le ?%Z.leb_le]).
  split; cbn [isinf iszero safe_ll of_ll fmt17 strtod dbl_ops].
  - intros s neg E. pose proof (round_id s) as Hs. destruct (dbl_val s); [|done|]; injection E as <-; by rewrite <-Hs.
  - intros s neg E. pose proof (round_id s) as Hs. destruct (dbl_val s) as [|[]|]; try done. injection E as <-. split; [by rewrite <-Hs|done].
  - intros s n E. pose proof (round_id s) as Hs. pose proof (Hrep s) as Hr. destruct (dbl_val s) as [|x|]; try done. specialize (Hr x eq_refl). destruct ((_ <? x) && (x <? _)) eqn:Hb; [|done]. injection E as <-. apply andb_true_iff in Hb as [?%Z.ltb_lt ?%Z.ltb_lt].
    split; [lia|]. split; [done|]. by rewrite (proj1 (Hread x Hr)), Hs.
  - intros s E. pose proof (round_id s) as Hs. pose proof (Hrep s) as Hr. destruct (dbl_val s) as [|x|]; try done. specialize (Hr x eq_refl). destruct (Hread x Hr) as [-> ?]. by rewrite Hs.
  - intros s z E Hc Hz. pose proof (round_id s) as Hs. pose proof (Hrep s) as Hr. destruct (dbl_val s) as [|x|]; try done. specialize (Hr x eq_refl). assert (in_s 64 x) as Hx64 by (unfold in_s; lia).
    pose proof (canonical_to_int _ _ Hc Hz) as Ht. rewrite to_of_int in Ht by done. by injection Ht as <-.
Qed.

(** An address that is not in use, and random numbers for the level of a node. *)
Definition zset_env (n j : nat) (z : zskiplist dbl) : addr * list Z := (fresh ({[header z]} ∪ dom (nodes z)), [1; Z.of_nat n; Z.of_nat j]).

Lemma zset_env_fresh n : env_fresh (zset_env n).
Proof.
  intros j z. cbn [zset_env fst]. pose proof (is_fresh ({[header z]} ∪ dom (nodes z))) as H. by rewrite not_elem_of_union, elem_of_singleton, not_elem_of_dom in H.
Qed.

(** A session with errors; the first set outgrows its ziplist and loses all its members. *)
Definition demo_zset : list zcommand :=
  let k := str "k" in let q := str "q" in
  [Zadd k [str "2"; str "b"; str "1"; str "a"; str "-3"; str "c"] 0; Zrange k (str "0") (str "-1") [str "WITHSCORES"] false;
   Zadd k [str "xx"; str "ch"; str "5"; str "c"; str "9"; str "d"] 0; Zadd k [str "incr"; str "4"; str "a"] 0; Zadd k [str "1"; str "x"; str "1"] 0;
   Zadd k [str "NX"; str "inf"; str "d"; str "2"; str "a"] 0; Zrank k (str "a") false; Zrank k (str "d") true; Zadd k [str "-inf"; str "d"] ZADD_INCR;
   Zadd k [str "one"; str "d"] 0; Zrangebyscore k (str "(2") (str "inf") [str "limit"; str "1"; str "1"; str "withscores"] false;
   Zcount k (str "(5") (str "inf"); Zscore k (str "d"); Zpop k None ZSET_MIN; Zpop k (Some (str "2")) ZSET_MAX; Zremrange k (str "0") (str "-1") 0; Zcard k;
   Zadd q [str "0"; str "a"; str "0"; str "b"; str "0"; str "c"] 0; Zrangebylex q (str "[b") (str "+") [] false; Zlexcount q (str "-") (str "(b"); Zremrange q (str "(a") (str "[b") 2;
   Zrem q [str "c"; str "c"; str "z"]; Zcard (str "s"); Zrangebylex q (str "[b") (str "b") [] true].

Definition demo_zset_outs : list (reply * list effect * Z) :=
  let k := str "k" in let q := str "q" in
  let bulk l := RMultiBulk (zlen l) (map (λ s, Some (str s)) l) in
  [(Object.RInt 3, [Signal k; Notify "zadd" k], 3); (bulk ["c"; "-3"; "a"; "1"; "b"; "2"]%string, [], 0);
   (Object.RInt 1, [Signal k; Notify "zadd" k], 1); (RBulk (str "5"), [Signal k; Notify "zincr" k], 1); (syntaxerr, [], 0);
   (Object.RInt 1, [Signal k; Notify "zadd" k], 1); (Object.RInt 1, [], 0); (Object.RInt 0, [], 0); (nanerr, [], 0);
   (notfloaterr, [], 0); (bulk ["c"; "5"]%string, [], 0);
   (Object.RInt 1, [], 0); (RBulk (str "inf"), [], 0); (bulk ["b"; "2"]%string, [Notify "zpopmin" k; Signal k], 1); (bulk ["d"; "inf"; "c"; "5"]%string, [Notify "zpopmax" k; Signal k], 2);
   (Object.RInt 1, [Signal k; Notify "zremrangebyrank" k; Notify "del" k], 1); (Object.RInt 0, [], 0);
   (Object.RInt 3, [Signal q; Notify "zadd" q], 3); (bulk ["b"; "c"]%string, [], 0); (Object.RInt 1, [], 0); (Object.RInt 1, [Signal q; Notify "zremrangebylex" q], 1);
   (Object.RInt 1, [Notify "zrem" q; Signal q], 1); (wrongtypeerr, [], 0); (notlexerr, [], 0)].

Lemma zsets_refine_maps_witness :
  ∃ h, run_zcommands (H := ziplist_packed (λ _, 7)) (λ _, 7) 7 3 10 zset_env 0 (VOther <$> {[str "s" := 5]}) demo_zset = Some (h, demo_zset_outs) ∧ dom h = {[str "q"; str "s"]} ∧
    ∀ o : zobj (list Z) dbl, h !! str "q" = Some (VObj o) → zsetScore (PackedList0 := ziplist_packed (λ _, 7)) o (str "a") = Some (Some (round (Fin 0))).
Proof.
  destruct (zsets_refine_maps (H := ziplist_packed (λ _, 7)) (λ _, 7) 7 3 10 zset_env {[str "s" := 5]} demo_zset {[str "q" := VObj {[str "a" := round (Fin 0)]}; str "s" := VOther 5]} demo_zset_outs) as (h & E & Hd & Hk).
  - unfold limits_ok. lia.
  - exact zset_env_fresh.
  - vm_compute. reflexivity.
  - exists h. split; [exact E|]. split; [rewrite Hd; by rewrite dom_insert_L, dom_singleton_L|]. intros o Ho. destruct (Hk _ o Ho) as (m & o' & Em & _ & Hs & _). rewrite Hs. rewrite lookup_insert_eq in Em. injection Em as <-. by rewrite lookup_singleton_eq.
Defined.
