(* ===== verification/Hash.v ===== *)
(** The hash type (t_hash.c): a map from fields to values that is a ziplist while it is small
    and a hash table afterwards, and the commands on one key.

    The ziplist is used through the interface [PackedList] and the hash table is the one of
    dict.c.  [None] is a failed assertion, a panic or an access outside of memory.  A command
    gives the value of the key, the reply, the names of the keyspace events and what is added
    to [server.dirty].  Looking a field up in a hash table may move buckets, so the hash is a
    result of the functions that only read it. *)

From stdpp Require Import list numbers strings gmap.
From S2P Require Import Prelude Util SdsText Dict DictIter Object Ziplist ZiplistRefine PackedList.

Definition OBJ_HASH_KEY : Z := 1.
Definition OBJ_HASH_VALUE : Z := 2.

Inductive hcmd :=
  | HSetNX (f v : bytes)
  | HSet (hmset : bool) (args : list bytes)
  | HIncrBy (f incr : bytes)
  | HGet (f : bytes)
  | HMGet (fs : list bytes)
  | HDel (fs : list bytes)
  | HLen
  | HStrlen (f : bytes)
  | HGetAll (flags : Z)
  | HExists (f : bytes).

Section Hash.

Context {T : Type} `{PackedList T} (ty : dictType bytes).

(** The configuration and the global [dict_can_resize]. *)
Context (hash_max_ziplist_entries hash_max_ziplist_value : Z) (dict_can_resize : bool).

(** OBJ_ENCODING_ZIPLIST and OBJ_ENCODING_HT *)
Inductive hash := HZl (zl : T) | HHt (d : dict bytes bytes).

Definition createHashObject : option hash := zl ← pl_new; Some (HZl zl).

(** "fptr = ziplistIndex(zl, ZIPLIST_HEAD); if (fptr != NULL) fptr = ziplistFind(...)" *)
Definition find_field (zl : T) (field : bytes) : option (option Z) :=
  fptr ← pl_index zl ZIPLIST_HEAD;
  match fptr with Some p => pl_find zl p field 1 | None => Some None end.

Definition hashTypeGetFromZiplist (zl : T) (field : bytes) : option (option (bytes + Z)) :=
  fptr ← find_field zl field;
  match fptr with
  | None => Some None
  | Some fptr =>
      vptr ← pl_next zl fptr;
      match vptr with
      | None => None
      | Some vptr => r ← pl_get zl (Some vptr); match r with Some v => Some (Some v) | None => None end
      end
  end.

Definition hashTypeGetFromHashTable (d : dict bytes bytes) (field : bytes) : option (dict bytes bytes * option bytes) :=
  '(d, de) ← dictFind ty d field; Some (d, option_map snd de).

(** [Some (inl s)]: [*vstr]; [Some (inr n)]: [*vll]; [None]: C_ERR. *)
Definition hashTypeGetValue (o : hash) (field : bytes) : option (hash * option (bytes + Z)) :=
  match o with
  | HZl zl => r ← hashTypeGetFromZiplist zl field; Some (o, r)
  | HHt d => '(d, r) ← hashTypeGetFromHashTable d field; Some (HHt d, option_map inl r)
  end.

Definition hashTypeGetValueLength (o : hash) (field : bytes) : option (hash * Z) :=
  match o with
  | HZl zl =>
      r ← hashTypeGetFromZiplist zl field;
      match r with
      | Some (inl vstr) => Some (o, zlen vstr)
      | Some (inr vll) => n ← sdigits10 vll; Some (o, n)
      | None => Some (o, 0)
      end
  | HHt d => '(d, r) ← hashTypeGetFromHashTable d field; Some (HHt d, match r with Some aux => zlen aux | None => 0 end)
  end.

Definition hashTypeExists (o : hash) (field : bytes) : option (hash * bool) :=
  match o with
  | HZl zl => r ← hashTypeGetFromZiplist zl field; Some (o, match r with Some _ => true | None => false end)
  | HHt d => '(d, r) ← hashTypeGetFromHashTable d field; Some (HHt d, match r with Some _ => true | None => false end)
  end.

(** ziplistLen may store the length it counted. *)
Definition hashTypeLength (o : hash) : option (hash * Z) :=
  match o with
  | HZl zl => '(zl, n) ← pl_len zl; Some (HZl zl, n / 2)
  | HHt d => Some (o, dictSize d)
  end.

(** ** Iterators *)

Inductive hashTypeIterator :=
  | HiZl (fptr vptr : option Z)
  | HiHt (di : dictIterator bytes bytes) (de : option (bytes * bytes)).

Definition hashTypeInitIterator (o : hash) : hashTypeIterator :=
  match o with HZl _ => HiZl None None | HHt _ => HiHt dictGetIterator None end.

(** [true]: C_OK. *)
Definition hashTypeNext (o : hash) (hi : hashTypeIterator) : option (hashTypeIterator * bool) :=
  match o, hi with
  | HZl zl, HiZl fptr vptr =>
      fptr' ← match fptr, vptr with
              | None, None => pl_index zl 0
              | Some _, Some vptr => pl_next zl vptr
              | _, _ => None
              end;
      match fptr' with
      | None => Some (hi, false)
      | Some p =>
          vptr' ← pl_next zl p;
          match vptr' with Some q => Some (HiZl (Some p) (Some q), true) | None => None end
      end
  | HHt d, HiHt di _ =>
      '(di, de) ← dictNext d di; Some (HiHt di de, match de with Some _ => true | None => false end)
  | _, _ => None
  end.

(** [hashTypeCurrentObject] with [hashTypeCurrentFromZiplist] and [hashTypeCurrentFromHashTable]. *)
Definition hashTypeCurrentObject (o : hash) (hi : hashTypeIterator) (what : Z) : option (bytes + Z) :=
  match o, hi with
  | HZl zl, HiZl fptr vptr => r ← pl_get zl (if negb (Z.land what OBJ_HASH_KEY =? 0) then fptr else vptr); r
  | HHt _, HiHt _ de => '(k, v) ← de; Some (inl (if negb (Z.land what OBJ_HASH_KEY =? 0) then k else v))
  | _, _ => None
  end.

Definition hashTypeCurrentObjectNewSds (o : hash) (hi : hashTypeIterator) (what : Z) : option bytes :=
  v ← hashTypeCurrentObject o hi what; text v.

(** The loop of [hashTypeConvertZiplist]. *)
Fixpoint convert_loop (fuel : nat) (o : hash) (hi : hashTypeIterator) (d : dict bytes bytes) : option (dict bytes bytes) :=
  match fuel with
  | O => None
  | S fuel =>
      '(hi, more) ← hashTypeNext o hi;
      if (more : bool) then
        key ← hashTypeCurrentObjectNewSds o hi OBJ_HASH_KEY;
        value ← hashTypeCurrentObjectNewSds o hi OBJ_HASH_VALUE;
        '(d, ret) ← dictAdd ty dict_can_resize d key value;
        match ret with DICT_OK => convert_loop fuel o hi d | DICT_ERR => None end
      else Some d
  end.

(** [hashTypeConvert (o, OBJ_ENCODING_HT)]; the loop ends after the fields of the hash. *)
Definition hashTypeConvert (o : hash) : option hash :=
  match o with
  | HZl _ =>
      '(_, n) ← hashTypeLength o;
      d ← convert_loop (S (Z.to_nat n)) o (hashTypeInitIterator o) dictCreate;
      Some (HHt d)
  | HHt _ => None
  end.

(** [hashTypeTryConversion] on the arguments from [start] to [end]. *)
Definition hashTypeTryConversion (o : hash) (argv : list bytes) : option hash :=
  match o with
  | HZl _ => if existsb (λ a, hash_max_ziplist_value <? zlen a) argv then hashTypeConvert o else Some o
  | HHt _ => Some o
  end.

(** ** Updates *)

(** [dictFind] when the entry is going to be changed: its position. *)
Definition dict_find_entry (d : dict bytes bytes) (key : bytes) : option (dict bytes bytes * option (bool * Z * nat)) :=
  if used (ht0 d) + used (ht1 d) =? 0 then Some (d, None)
  else
    d ← maybeRehashStep ty d;
    r ← search_tables ty d key;
    Some (d, match r with inl pos => Some pos | inr _ => None end).

(** [true]: an update.  Who owns the strings, the [flags], does not matter to the model. *)
Definition hashTypeSet (o : hash) (field value : bytes) : option (hash * bool) :=
  match o with
  | HZl zl =>
      fptr ← find_field zl field;
      '(zl, update) ← match fptr with
        | Some fptr =>
            vptr ← pl_next zl fptr;
            match vptr with
            | None => None
            | Some vptr => '(zl, vptr) ← pl_delete zl vptr; zl ← pl_insert zl vptr value; Some (zl, true)
            end
        | None => zl ← pl_push zl field ZIPLIST_TAIL; zl ← pl_push zl value ZIPLIST_TAIL; Some (zl, false)
        end;
      '(o, n) ← hashTypeLength (HZl zl);
      o ← (if hash_max_ziplist_entries <? n then hashTypeConvert o else Some o);
      Some (o, update)
  | HHt d =>
      '(d, de) ← dict_find_entry d field;
      match de with
      | Some pos => d ← set_val_at d pos value; Some (HHt d, true)
      | None => '(d, _) ← dictAdd ty dict_can_resize d field value; Some (HHt d, false)
      end
  end.

Definition hashTypeDelete (o : hash) (field : bytes) : option (hash * bool) :=
  match o with
  | HZl zl =>
      fptr ← find_field zl field;
      match fptr with
      | Some fptr => '(zl, fptr) ← pl_delete zl fptr; '(zl, _) ← pl_delete zl fptr; Some (HZl zl, true)
      | None => Some (o, false)
      end
  | HHt d =>
      '(d, st) ← dictDelete ty d field;
      match st with
      | DICT_OK =>
          d ← (if htNeedsResize d then '(d, _) ← dictResize dict_can_resize d; Some d else Some d);
          Some (HHt d, true)
      | DICT_ERR => Some (HHt d, false)
      end
  end.

(** ** Commands *)

(** What the key holds: nothing, a hash, or a value of another type. *)
Inductive kval := KNone | KHash (o : hash) | KOther.

Abbreviation result := (kval * reply * list string * Z)%type.

(** [hashTypeLookupWriteOrCreate]; NULL after the reply of a wrong type. *)
Definition hashTypeLookupWriteOrCreate (k : kval) (c : hash → option result) : option result :=
  match k with
  | KNone => o ← createHashObject; c o
  | KHash o => c o
  | KOther => Some (k, wrongtypeerr, [], 0)
  end.

(** [lookupKeyReadOrReply] and [checkType] *)
Definition lookup_or (k : kval) (r : reply) (c : hash → option result) : option result :=
  match k with
  | KNone => Some (k, r, [], 0)
  | KHash o => c o
  | KOther => Some (k, wrongtypeerr, [], 0)
  end.

Definition hsetnxCommand (k : kval) (f v : bytes) : option result :=
  hashTypeLookupWriteOrCreate k (λ o,
    o ← hashTypeTryConversion o [f; v];
    '(o, exists_) ← hashTypeExists o f;
    if (exists_ : bool) then Some (KHash o, RInt 0, [], 0)
    else '(o, _) ← hashTypeSet o f v; Some (KHash o, RInt 1, ["hset"%string], 1)).

(** [for (i = 2; i < c->argc; i += 2)] *)
Fixpoint hset_loop (o : hash) (args : list bytes) (created : Z) : option (hash * Z) :=
  match args with
  | f :: v :: args => '(o, update) ← hashTypeSet o f v; hset_loop o args (created + b2z (negb update))
  | _ => Some (o, created)
  end.

Definition hsetCommand (k : kval) (hmset : bool) (args : list bytes) : option result :=
  if Z.odd (zlen args) then Some (k, RError "-ERR wrong number of arguments for HMSET", [], 0)
  else
    hashTypeLookupWriteOrCreate k (λ o,
      o ← hashTypeTryConversion o args;
      '(o, created) ← hset_loop o args 0;
      Some (KHash o, if hmset then ROk else RInt created, ["hset"%string], 1)).

Definition hincrbyCommand (k : kval) (f incr : bytes) : option result :=
  r ← string2ll incr (zlen incr);
  match r with
  | None => Some (k, RError "-ERR value is not an integer or out of range", [], 0)
  | Some incr =>
      hashTypeLookupWriteOrCreate k (λ o,
        '(o, v) ← hashTypeGetValue o f;
        value ← match v with
                | Some (inl vstr) => string2ll vstr (zlen vstr)
                | Some (inr vll) => Some (Some vll)
                | None => Some (Some 0)
                end;
        match value with
        | None => Some (KHash o, RError "-ERR hash value is not an integer", [], 0)
        | Some oldvalue =>
            if ((incr <? 0) && (oldvalue <? 0) && (incr <? LLONG_MIN - oldvalue))
               || ((0 <? incr) && (0 <? oldvalue) && (LLONG_MAX - oldvalue <? incr))
            then Some (KHash o, RError "-ERR increment or decrement would overflow", [], 0)
            else
              let value := oldvalue + incr in
              new ← sdsll2str value;
              '(o, _) ← hashTypeSet o f new;
              Some (KHash o, RInt value, ["hincrby"%string], 1)
        end)
  end.

(** [addHashFieldToReply] *)
Definition field_reply (o : hash) (field : bytes) : option (hash * option bytes) :=
  match o with
  | HZl zl =>
      r ← hashTypeGetFromZiplist zl field;
      match r with Some v => s ← text v; Some (o, Some s) | None => Some (o, None) end
  | HHt d => '(d, r) ← hashTypeGetFromHashTable d field; Some (HHt d, r)
  end.

Definition hgetCommand (k : kval) (f : bytes) : option result :=
  lookup_or k RNullBulk (λ o,
    '(o, r) ← field_reply o f;
    Some (KHash o, match r with Some s => RBulk s | None => RNullBulk end, [], 0)).

Fixpoint hmget_loop (o : hash) (fs : list bytes) : option (hash * list (option bytes)) :=
  match fs with
  | [] => Some (o, [])
  | f :: fs => '(o, r) ← field_reply o f; '(o, rs) ← hmget_loop o fs; Some (o, r :: rs)
  end.

Definition hmgetCommand (k : kval) (fs : list bytes) : option result :=
  match k with
  | KOther => Some (k, wrongtypeerr, [], 0)
  | KNone => Some (k, RMultiBulk (zlen fs) (map (λ _, None) fs), [], 0)
  | KHash o => '(o, rs) ← hmget_loop o fs; Some (KHash o, RMultiBulk (zlen fs) rs, [], 0)
  end.

(** The hash, the number of deletions, and whether the key was removed. *)
Fixpoint hdel_loop (o : hash) (fs : list bytes) (deleted : Z) : option (hash * Z * bool) :=
  match fs with
  | [] => Some (o, deleted, false)
  | f :: fs =>
      '(o, b) ← hashTypeDelete o f;
      if (b : bool) then
        '(o, n) ← hashTypeLength o;
        if n =? 0 then Some (o, deleted + 1, true) else hdel_loop o fs (deleted + 1)
      else hdel_loop o fs deleted
  end.

Definition hdelCommand (k : kval) (fs : list bytes) : option result :=
  lookup_or k (RInt 0) (λ o,
    '(o, deleted, keyremoved) ← hdel_loop o fs 0;
    Some (if (keyremoved : bool) then KNone else KHash o, RInt deleted,
      if deleted =? 0 then [] else "hdel"%string :: (if keyremoved then ["del"%string] else []), deleted)).

Definition hlenCommand (k : kval) : option result :=
  lookup_or k (RInt 0) (λ o, '(o, n) ← hashTypeLength o; Some (KHash o, RInt n, [], 0)).

Definition hstrlenCommand (k : kval) (f : bytes) : option result :=
  lookup_or k (RInt 0) (λ o, '(o, n) ← hashTypeGetValueLength o f; Some (KHash o, RInt n, [], 0)).

Definition hexistsCommand (k : kval) (f : bytes) : option result :=
  lookup_or k (RInt 0) (λ o, '(o, b) ← hashTypeExists o f; Some (KHash o, RInt (b2z b), [], 0)).

(** The loop of [genericHgetallCommand] with [addHashIteratorCursorToReply]. *)
Fixpoint hgetall_loop (fuel : nat) (o : hash) (hi : hashTypeIterator) (flags : Z) : option (list (option bytes)) :=
  match fuel with
  | O => None
  | S fuel =>
      '(hi, more) ← hashTypeNext o hi;
      if (more : bool) then
        ks ← (if negb (Z.land flags OBJ_HASH_KEY =? 0) then k ← hashTypeCurrentObjectNewSds o hi OBJ_HASH_KEY; Some [Some k] else Some []);
        vs ← (if negb (Z.land flags OBJ_HASH_VALUE =? 0) then v ← hashTypeCurrentObjectNewSds o hi OBJ_HASH_VALUE; Some [Some v] else Some []);
        l ← hgetall_loop fuel o hi flags;
        Some (ks ++ vs ++ l)
      else Some []
  end.

(** The announced length is an int, and the number of replies is asserted to be equal to it. *)
Definition genericHgetallCommand (k : kval) (flags : Z) : option result :=
  lookup_or k (RMultiBulk 0 []) (λ o,
    let multiplier := b2z (negb (Z.land flags OBJ_HASH_KEY =? 0)) + b2z (negb (Z.land flags OBJ_HASH_VALUE =? 0)) in
    '(o, n) ← hashTypeLength o;
    let length := s32 (n * multiplier) in
    l ← hgetall_loop (S (Z.to_nat n)) o (hashTypeInitIterator o) flags;
    if zlen l =? length then Some (KHash o, RMultiBulk length l, [], 0) else None).

Definition run_hcmd (k : kval) (cmd : hcmd) : option result :=
  match cmd with
  | HSetNX f v => hsetnxCommand k f v
  | HSet hmset args => hsetCommand k hmset args
  | HIncrBy f incr => hincrbyCommand k f incr
  | HGet f => hgetCommand k f
  | HMGet fs => hmgetCommand k fs
  | HDel fs => hdelCommand k fs
  | HLen => hlenCommand k
  | HStrlen f => hstrlenCommand k f
  | HGetAll flags => genericHgetallCommand k flags
  | HExists f => hexistsCommand k f
  end.

End Hash.
