(* ===== verification/HashSpec.v ===== *)
(** The hash type as a finite map from fields to values: the functions of t_hash.c in both
    encodings, the conversion between them, and the refinement theorem for the commands. *)

From stdpp Require Import list numbers strings gmap.
From S2P Require Import Prelude Util SdsText Dict DictIter Object DbRel Ziplist ZiplistEntry ZiplistRefine PackedList Hash.

Abbreviation fvs := (list (bytes * bytes)).
Abbreviation fmap_ := (gmap bytes bytes).

(** ** Fields and values in one list *)

(** Searching every second entry finds the fields. *)
Lemma a_find_unpair ps f pos :
  match a_find (unpair ps) f 1 0 pos with
  | Some k => ∃ ps1 v ps2, ps = ps1 ++ (f, v) :: ps2 ∧ k = (pos + 2 * length ps1)%nat
  | None => f ∉ ps.*1
  end.
Proof.
  revert pos. induction ps as [|[f' v] ps IH]; intros pos; [apply not_elem_of_nil|].
  rewrite unpair_cons. cbn [a_find fst snd]. change (0 =? 0) with true. cbv iota. case_bool_decide as Heq.
  - subst. exists [], v, ps. split; [done|]. simpl. lia.
  - change (1 =? 0) with false. cbv iota. change (1 - 1) with 0. specialize (IH (S (S pos))). destruct (a_find (unpair ps) f 1 0 (S (S pos))) as [k|].
    + destruct IH as (ps1 & w & ps2 & -> & ->). exists ((f', v) :: ps1), w, ps2. split; [done|]. cbn [length]. lia.
    + rewrite fmap_cons. apply not_elem_of_cons. by split; [apply not_eq_sym|].
Qed.

Section Spec.

Context {T : Type} `{PackedListLaws T} (ty : dictType bytes) `{!DictTypeOk ty}.
Context (max_entries max_value : Z) (cr : bool).

Implicit Types (zl : T) (d : dict bytes bytes) (ps : fvs) (m : fmap_) (o : hash (T := T)).

(** ** The ziplist encoding *)

Lemma find_field_spec zl ps f :
  pl_rep zl (unpair ps) → ∃ q, find_field zl f = Some q ∧
    match q with
    | Some p => ∃ ps1 v ps2, ps = ps1 ++ (f, v) :: ps2 ∧ pl_at zl (unpair ps) (2 * length ps1) p
    | None => f ∉ ps.*1
    end.
Proof.
  intros Hr. unfold find_field. change ZIPLIST_HEAD with 0. destruct (pl_head_law zl _ Hr) as (q & -> & Hq). cbn [mbind option_bind].
  destruct q as [p|]; [|exists None; split; [done|]; destruct ps; [apply not_elem_of_nil|done]].
  destruct Hq as [_ Hp]. destruct (pl_find_law zl _ p f Hp) as (q & -> & Hq). exists q. split; [done|]. pose proof (a_find_unpair ps f 0) as Hf.
  destruct q as [q|]; [|by rewrite Hq in Hf]. destruct Hq as (k & Hk & Hat). rewrite Hk in Hf. destruct Hf as (ps1 & v & ps2 & E & ->). by exists ps1, v, ps2.
Qed.

Lemma get_ziplist_spec zl ps f :
  pl_rep zl (unpair ps) → NoDup ps.*1 → ∃ r, hashTypeGetFromZiplist zl f = Some r ∧
    match (list_to_map ps : fmap_) !! f with Some s => ∃ v, r = Some v ∧ reads v s | None => r = None end.
Proof.
  intros Hr Hnd. unfold hashTypeGetFromZiplist. destruct (find_field_spec zl ps f Hr) as (q & -> & Hq). cbn [mbind option_bind]. destruct q as [p|].
  - destruct Hq as (ps1 & v & ps2 & -> & Hp). destruct (unpair_lookup ps1 f v ps2) as [_ Hv]. destruct (pl_next_at _ _ _ _ _ Hp Hv) as (q & -> & Hq).
    cbn [mbind option_bind]. destruct (pl_get_at _ _ _ _ _ Hq Hv) as (r & -> & Hrd). cbn [mbind option_bind]. exists (Some r). split; [done|].
    destruct (dict_map_app_cons ps1 ps2 f v Hnd) as (-> & _). rewrite lookup_insert_eq. by exists r.
  - exists None. split; [done|]. by rewrite not_elem_of_list_to_map_1.
Qed.

(** ** The map of a hash *)

Definition hrep o m : Prop :=
  match o with
  | HZl zl => ∃ ps, pl_rep zl (unpair ps) ∧ NoDup ps.*1 ∧ list_to_map ps = m ∧ zlen ps ≤ max_entries
  | HHt d => dict_inv ty d ∧ dict_map d = m
  end.

Lemma size_list_to_map ps : NoDup ps.*1 → size (list_to_map ps : fmap_) = length ps.
Proof. intros Hnd. rewrite <-(size_dom (list_to_map ps : fmap_)), dom_list_to_map_L, size_list_to_set by done. apply length_fmap. Qed.

Lemma create_spec : 0 ≤ max_entries → ∃ o, createHashObject = Some o ∧ hrep o ∅.
Proof. intros Hn0. destruct pl_new_law as (zl & Hn & Hr). unfold createHashObject. rewrite Hn. eexists. split; [done|]. exists []. by repeat split; try constructor. Qed.

Lemma length_spec o m : hrep o m → ∃ o', hashTypeLength o = Some (o', Z.of_nat (size m)) ∧ hrep o' m.
Proof.
  intros Ho. destruct o as [zl|d]; cbn [hashTypeLength].
  - destruct Ho as (ps & Hr & Hnd & <- & Hle). destruct (pl_len_law zl _ Hr) as (zl' & -> & Hr'). cbn [mbind option_bind]. exists (HZl zl'). split.
    + rewrite size_list_to_map, unpair_length by done. do 2 f_equal. rewrite Nat2Z.inj_mul, Z.mul_comm. by apply Z.div_mul.
    + by exists ps.
  - destruct Ho as [Hd <-]. exists (HHt d). split; [by rewrite (dictSize_map ty d Hd)|by split].
Qed.

Lemma get_dict_spec d f :
  dict_inv ty d → ∃ d', hashTypeGetFromHashTable ty d f = Some (d', dict_map d !! f) ∧ dict_inv ty d' ∧ dict_map d' = dict_map d.
Proof.
  intros Hd. unfold hashTypeGetFromHashTable. destruct (dictFind_spec ty d f Hd) as (d' & -> & Hd' & Hm & _). cbn [mbind option_bind]. exists d'.
  split; [|done]. by destruct (dict_map d !! f).
Qed.

(** A reader, in both encodings. *)
Lemma read_both {A} o m f (kz : option (bytes + Z) → option A) (kd : option bytes → option A) (Q : A → Prop) :
  hrep o m →
  (∀ r, match m !! f with Some s => ∃ v, r = Some v ∧ reads v s | None => r = None end → ∃ a, kz r = Some a ∧ Q a) →
  (∃ a, kd (m !! f) = Some a ∧ Q a) →
  ∃ o' a, match o with
    | HZl zl => r ← hashTypeGetFromZiplist zl f; a ← kz r; Some (o, a)
    | HHt d => '(d, r) ← hashTypeGetFromHashTable ty d f; a ← kd r; Some (HHt d, a)
    end = Some (o', a) ∧ hrep o' m ∧ Q a.
Proof.
  intros Ho Hz Hd. destruct o as [zl|d].
  - pose proof Ho as (ps & Hr & Hnd & <- & Hle). destruct (get_ziplist_spec zl ps f Hr Hnd) as (r & -> & Hm). cbn [mbind option_bind].
    destruct (Hz r Hm) as (a & -> & Ha). by eexists _, _.
  - destruct Ho as [Hi <-]. destruct (get_dict_spec d f Hi) as (d' & -> & Hd' & Hm). cbn [mbind option_bind].
    destruct Hd as (a & -> & Ha). eexists _, _. split; [done|]. by split.
Qed.

Lemma getvalue_spec o m f :
  hrep o m → ∃ o' r, hashTypeGetValue ty o f = Some (o', r) ∧ hrep o' m ∧
    match m !! f with Some s => ∃ v, r = Some v ∧ reads v s | None => r = None end.
Proof.
  intros Ho. apply (read_both o m f Some (λ r, Some (option_map inl r))); [done|by eauto|]. eexists. split; [done|].
  destruct (m !! f) as [s|]; [|done]. exists (inl s). split; [done|apply reads_inl].
Qed.

Lemma field_reply_spec o m f : hrep o m → ∃ o', field_reply ty o f = Some (o', m !! f) ∧ hrep o' m.
Proof.
  intros Ho. destruct (read_both o m f (λ r, match r with Some v => s ← text v; Some (Some s) | None => Some None end) Some (λ a, a = m !! f) Ho)
    as (o' & a & He & Ho' & ->); [|by eauto|].
  - intros r Hr. destruct (m !! f) as [s|]; [|by subst; eauto]. destruct Hr as (v & -> & -> & _). by eauto.
  - exists o'. split; [|done]. rewrite <-He. unfold field_reply. destruct o; [|done]. destruct (hashTypeGetFromZiplist zl f) as [[v|]|]; [|done..]. cbn. by destruct (text v).
Qed.

Lemma exists_spec o m f : hrep o m → ∃ o', hashTypeExists ty o f = Some (o', bool_decide (is_Some (m !! f))) ∧ hrep o' m.
Proof.
  intros Ho. destruct (read_both o m f (λ r, Some (match r with Some _ => true | None => false end)) (λ r, Some (match r with Some _ => true | None => false end))
    (λ a, a = bool_decide (is_Some (m !! f))) Ho) as (o' & a & He & Ho' & ->); [..|by exists o'].
  - intros r Hr. eexists. split; [done|]. destruct (m !! f); [by destruct Hr as (v & -> & _)|by subst].
  - eexists. split; [done|]. by destruct (m !! f).
Qed.

Lemma strlen_spec o m f : hrep o m → ∃ o', hashTypeGetValueLength ty o f = Some (o', zlen (default [] (m !! f))) ∧ hrep o' m.
Proof.
  intros Ho. destruct (read_both o m f (λ r, match r with Some (inl s) => Some (zlen s) | Some (inr z) => sdigits10 z | None => Some 0 end)
    (λ r, Some (match r with Some s => zlen s | None => 0 end)) (λ a, a = zlen (default [] (m !! f))) Ho) as (o' & a & He & Ho' & ->).
  - intros r Hr. destruct (m !! f) as [s|]; [|by subst; eauto]. destruct Hr as ([s'|z] & -> & _ & Hi & Hl); [rewrite (Hl s' eq_refl); by eauto|].
    destruct (Hi z eq_refl) as [Hc Hz]. rewrite (sdigits10_canonical s z Hz Hc). by eauto.
  - eexists. split; [done|]. by destruct (m !! f).
  - exists o'. split; [|done]. rewrite <-He. unfold hashTypeGetValueLength. destruct o; [|done]. by destruct (hashTypeGetFromZiplist zl f) as [[[]|]|].
Qed.

(** ** Iterators *)

(** The fields and values an iterator has still to visit. *)
Definition hi_rep o (hi : hashTypeIterator) (rest : fvs) : Prop :=
  match o, hi with
  | HZl zl, HiZl None None => pl_rep zl (unpair rest)
  | HZl zl, HiZl (Some p) (Some q) => ∃ ps f v, pl_at zl (unpair (ps ++ (f, v) :: rest)) (S (2 * length ps)) q
  | HHt d, HiHt di _ => dict_shape ty d ∧ it_ok di ∧ ahead d di = rest
  | _, _ => False
  end.

Lemma pl_cur_at zl ps f v rest p :
  pl_at zl (unpair (ps ++ (f, v) :: rest)) (2 * length ps) p →
  ∃ q, pl_next zl p = Some (Some q) ∧ hi_rep (HZl zl) (HiZl (Some p) (Some q)) rest ∧
    hashTypeCurrentObjectNewSds (HZl zl) (HiZl (Some p) (Some q)) OBJ_HASH_KEY = Some f ∧
    hashTypeCurrentObjectNewSds (HZl zl) (HiZl (Some p) (Some q)) OBJ_HASH_VALUE = Some v.
Proof.
  intros Hp. destruct (unpair_lookup ps f v rest) as [Hf Hv]. destruct (pl_next_at _ _ _ _ _ Hp Hv) as (q & Hn & Hq). exists q. split; [done|].
  split; [by exists ps, f, v|]. unfold hashTypeCurrentObjectNewSds, hashTypeCurrentObject.
  destruct (pl_get_at _ _ _ _ _ Hp Hf) as (w & Hw & [Htw _]). destruct (pl_get_at _ _ _ _ _ Hq Hv) as (w' & Hw' & [Htw' _]).
  change (Z.land OBJ_HASH_KEY OBJ_HASH_KEY =? 0) with false. change (Z.land OBJ_HASH_VALUE OBJ_HASH_KEY =? 0) with true. cbn [negb].
  rewrite Hw, Hw'. by split.
Qed.

Lemma hash_next_spec o hi rest :
  hi_rep o hi rest → ∃ hi', hashTypeNext o hi = Some (hi', match rest with [] => false | _ => true end) ∧
    match rest with
    | [] => True
    | (f, v) :: rest => hi_rep o hi' rest ∧ hashTypeCurrentObjectNewSds o hi' OBJ_HASH_KEY = Some f ∧
        hashTypeCurrentObjectNewSds o hi' OBJ_HASH_VALUE = Some v
    end.
Proof.
  destruct o as [zl|d], hi as [fptr vptr|di de]; try done; cbn [hashTypeNext].
  - assert (∀ ps f, pl_rep zl (unpair (ps ++ rest)) → (∀ q, f = Some q → pl_at zl (unpair (ps ++ rest)) (2 * length ps) q) → (f = None → rest = []) → (rest = [] → f = None) →
      ∃ hi', match f with
        | None => Some (HiZl fptr vptr, false)
        | Some p => vptr' ← pl_next zl p; match vptr' with Some q => Some (HiZl (Some p) (Some q), true) | None => None end
        end = Some (hi', match rest with [] => false | _ => true end) ∧
      match rest with
      | [] => True
      | (f, v) :: rest => hi_rep (HZl zl) hi' rest ∧ hashTypeCurrentObjectNewSds (HZl zl) hi' OBJ_HASH_KEY = Some f ∧
          hashTypeCurrentObjectNewSds (HZl zl) hi' OBJ_HASH_VALUE = Some v
      end) as Hstep.
    { intros ps f Hr Hq Hn Hn'. destruct rest as [|[k v] rest]; [rewrite Hn' by done; by eexists|]. destruct f as [p|]; [|by specialize (Hn eq_refl)].
      destruct (pl_cur_at zl ps k v rest p (Hq p eq_refl)) as (q & -> & Hc). by eexists. }
    destruct fptr as [p|], vptr as [q|]; try done.
    + intros (ps & f & v & Hq). destruct (pl_next_law zl _ _ q Hq) as (r & -> & Hr). cbn [mbind option_bind].
      assert (ps ++ (f, v) :: rest = (ps ++ [(f, v)]) ++ rest) as E by by rewrite <-(assoc_L (++)).
      assert (S (S (2 * length ps)) = 2 * length (ps ++ [(f, v)]))%nat as El by (rewrite length_app; simpl; lia).
      rewrite E, El in Hr. rewrite E in Hq. apply (Hstep (ps ++ [(f, v)])).
      * by eapply pl_at_rep.
      * intros r' ->. apply Hr.
      * intros ->. apply lookup_ge_None in Hr. rewrite unpair_length, length_app in Hr. destruct rest; [done|]. cbn [length] in Hr. lia.
      * intros ->. destruct r; [|done]. destruct Hr as [Hlt _]. rewrite unpair_length, app_nil_r in Hlt. lia.
    + intros Hr. destruct (pl_head_law zl _ Hr) as (r & -> & Hm). cbn [mbind option_bind]. apply (Hstep []).
      * done.
      * intros r' ->. apply Hm.
      * intros ->. by destruct rest.
      * intros ->. destruct r; [|done]. by destruct Hm.
  - intros (Hs & Hi & Ha). destruct (dictNext_spec ty d di Hs Hi) as (di' & -> & Hi' & Ha'). cbn [mbind option_bind]. eexists. rewrite Ha in *. split; [by destruct rest|].
    destruct rest as [|[f v] rest]; [done|]. by split.
Qed.

Lemma init_spec o m : hrep o m → ∃ ps, hi_rep o (hashTypeInitIterator o) ps ∧ NoDup ps.*1 ∧ list_to_map ps = m.
Proof.
  destruct o as [zl|d].
  - intros (ps & Hr & Hnd & Hm & _). by exists ps.
  - intros [[Hs Hnd] Hm]. destruct (ahead_start ty d) as [Ha Hi]. exists (entries d). split; [|done]. split; [done|]. split; [by apply Hi|done].
Qed.

(** ** Conversion *)

Lemma convert_loop_spec o ps : ∀ fuel hi d,
  hi_rep o hi ps → (length ps < fuel)%nat → dict_inv ty d → NoDup ps.*1 → (∀ f, f ∈ ps.*1 → dict_map d !! f = None) →
  Z.of_nat (size (dict_map d)) + zlen ps < 2 ^ 62 →
  ∃ d', convert_loop ty cr fuel o hi d = Some d' ∧ dict_inv ty d' ∧ dict_map d' = list_to_map ps ∪ dict_map d.
Proof.
  induction ps as [|[f v] ps IH]; intros fuel hi d Hh Hf Hd Hnd Hdis Hsz; (destruct fuel as [|fuel]; [simpl in Hf; lia|]); cbn [convert_loop];
    destruct (hash_next_spec o hi _ Hh) as (hi' & -> & Hn); cbn [mbind option_bind].
  - exists d. split; [done|]. split; [done|]. by rewrite list_to_map_nil, (left_id_L ∅ (∪)).
  - destruct Hn as (Hh' & -> & ->). cbn [mbind option_bind]. unfold dictAdd. rewrite fmap_cons in Hnd, Hdis. apply NoDup_cons in Hnd as [Hni Hnd]. cbn [fst] in *.
    assert (dict_map d !! f = None) as Hnone by (apply Hdis; left).
    destruct (dictAddRaw_spec ty cr d f v Hd) as (d' & r & -> & Hd' & _ & Hr); [apply (size_small ty d Hd); lia|]. rewrite Hnone in Hr. destruct Hr as [-> Hm].
    cbn [mbind option_bind]. destruct (IH fuel hi' d') as (d2 & -> & Hd2 & Hm2); [done|simpl in Hf; lia|done|done| | |].
    + intros g Hg. rewrite Hm, lookup_insert_ne by (intros ->; done). apply Hdis. by right.
    + rewrite Hm, map_size_insert_None by done. cbn [length] in Hsz. lia.
    + exists d2. split; [done|]. split; [done|]. rewrite Hm2, Hm, list_to_map_cons. cbn [fst snd]. rewrite <-insert_union_l.
      rewrite insert_union_r; [done|]. by apply not_elem_of_list_to_map_1.
Qed.

Lemma convert_spec zl m : hrep (HZl zl) m → Z.of_nat (size m) < 2 ^ 62 → ∃ d, hashTypeConvert ty cr (HZl zl) = Some (HHt d) ∧ dict_inv ty d ∧ dict_map d = m.
Proof.
  intros Ho Hsz. unfold hashTypeConvert. destruct (length_spec _ _ Ho) as (o1 & -> & _). cbn [mbind option_bind].
  destruct (init_spec _ _ Ho) as (ps & Hi & Hnd & <-). rewrite size_list_to_map in * by done.
  destruct (convert_loop_spec (HZl zl) ps (S (Z.to_nat (zlen ps))) (hashTypeInitIterator (HZl zl)) dictCreate) as (d & -> & Hd & Hm);
    [done|lia|by apply dictCreate_inv|done|by intros|exact Hsz|].
  exists d. split; [done|]. split; [done|]. rewrite Hm. apply map_union_empty.
Qed.

Lemma try_conversion_spec o m args :
  hrep o m → Z.of_nat (size m) < 2 ^ 62 → ∃ o', hashTypeTryConversion ty max_value cr o args = Some o' ∧ hrep o' m.
Proof.
  intros Ho Hsz. destruct o as [zl|d]; cbn [hashTypeTryConversion]; [|by eexists]. destruct (existsb _ _); [|by eexists].
  destruct (convert_spec zl m Ho Hsz) as (d & -> & Hd). by exists (HHt d).
Qed.

End Spec.

(** ** Updates *)

Section Update.

Context {T : Type} `{PackedListLaws T} (ty : dictType bytes) `{!DictTypeOk ty}.
Context (max_entries max_value : Z) (cr : bool).
Context (max_entries_nonneg : 0 ≤ max_entries).

Implicit Types (zl : T) (d : dict bytes bytes) (ps : fvs) (m : fmap_) (o : hash (T := T)).

Abbreviation hrep := (hrep ty max_entries).

(** A map a hash can hold: while it may still be in a ziplist, that fits into 4 GB. *)
Definition roomy m : Prop := Z.of_nat (size m) < 2 ^ 62 ∧ (Z.of_nat (size m) ≤ max_entries + 1 → csize (unpair (map_to_list m)) < 2 ^ 32).

#[export] Instance roomy_dec m : Decision (roomy m).
Proof. unfold roomy. apply _. Defined.

Lemma roomy_unpair ps :
  NoDup ps.*1 → roomy (list_to_map ps) → zlen ps ≤ max_entries + 1 → csize (unpair ps) < 2 ^ 32.
Proof.
  intros Hnd [_ Hr] Hle. rewrite size_list_to_map in Hr by done. specialize (Hr Hle). by rewrite map_to_list_to_map in Hr.
Qed.

(** The ziplist after an update or an addition of a field. *)
Definition zl_set zl (f v : bytes) : option (T * bool) :=
  fptr ← find_field zl f;
  match fptr with
  | Some fptr =>
      vptr ← pl_next zl fptr;
      match vptr with
      | None => None
      | Some vptr => '(zl, vptr) ← pl_delete zl vptr; zl ← pl_insert zl vptr v; Some (zl, true)
      end
  | None => zl ← pl_push zl f ZIPLIST_TAIL; zl ← pl_push zl v ZIPLIST_TAIL; Some (zl, false)
  end.

Lemma zl_set_spec zl ps f v :
  pl_rep zl (unpair ps) → NoDup ps.*1 → zlen ps ≤ max_entries → roomy (<[f := v]> (list_to_map ps)) →
  ∃ zl' ps', zl_set zl f v = Some (zl', bool_decide (is_Some ((list_to_map ps : fmap_) !! f))) ∧ pl_rep zl' (unpair ps') ∧ NoDup ps'.*1 ∧
    list_to_map ps' = <[f := v]> (list_to_map ps : fmap_) ∧ zlen ps' ≤ max_entries + 1.
Proof.
  intros Hr Hnd Hle Hroom. unfold zl_set. destruct (find_field_spec zl ps f Hr) as (q & -> & Hq). cbn [mbind option_bind]. destruct q as [p|].
  - destruct Hq as (ps1 & w & ps2 & -> & Hp). destruct (unpair_lookup ps1 f w ps2) as [_ Hv]. destruct (pl_next_at _ _ _ _ _ Hp Hv) as (q & -> & Hq).
    cbn [mbind option_bind]. destruct (pl_delete_law _ _ _ q Hq) as (zl1 & -> & Hd); [by eapply lookup_lt_Some|]. cbn [mbind option_bind].
    assert (NoDup (ps1 ++ (f, v) :: ps2).*1) as Hnd' by (rewrite fmap_app in *; done).
    destruct (dict_map_app_cons ps1 ps2 f w Hnd) as (Hm & _). destruct (dict_map_app_cons ps1 ps2 f v Hnd') as (Hm' & _).
    rewrite Hm, insert_insert_eq, <-Hm' in Hroom. rewrite Hm, lookup_insert_eq, insert_insert_eq, <-Hm'. rewrite length_app in *. cbn [length] in *.
    assert (csize (unpair (ps1 ++ (f, v) :: ps2)) < 2 ^ 32) as Hc by (apply roomy_unpair; [done|done|rewrite length_app; cbn [length]; lia]).
    rewrite unpair_app, unpair_cons in Hd. cbn [fst snd] in Hd.
    assert (take (S (2 * length ps1)) (unpair ps1 ++ f :: w :: unpair ps2) = unpair ps1 ++ [f]) as Et.
    { change (f :: w :: unpair ps2) with ([f] ++ w :: unpair ps2). rewrite (assoc_L (++)). apply take_app_length'. rewrite length_app, unpair_length. simpl. lia. }
    assert (drop (S (S (2 * length ps1))) (unpair ps1 ++ f :: w :: unpair ps2) = unpair ps2) as Ed.
    { replace (S (S (2 * length ps1))) with (2 * length ps1 + 2)%nat by lia. by rewrite drop_unpair. }
    rewrite Et, Ed in Hd. destruct (pl_insert_law _ _ _ q v Hd) as (zl2 & -> & Hr2%pl_at_rep).
    { rewrite unpair_app, unpair_cons in Hc. cbn [fst snd] in Hc. rewrite csize_app, !csize_cons in Hc. rewrite csize_cons, !csize_app, csize_cons. unfold csize at 2. cbn [foldr]. lia. }
    cbn [mbind option_bind]. exists zl2, (ps1 ++ (f, v) :: ps2). split; [done|].
    assert (S (2 * length ps1) = length (unpair ps1 ++ [f])) as El by (rewrite length_app, unpair_length; simpl; lia).
    rewrite El, take_app_length, drop_app_length, <-(assoc_L (++)) in Hr2. split; [by rewrite unpair_app, unpair_cons|]. split; [done|]. split; [done|].
    rewrite length_app. cbn [length]. lia.
  - assert ((list_to_map ps : fmap_) !! f = None) as Hnone by by apply not_elem_of_list_to_map_1.
    assert (NoDup (ps ++ [(f, v)]).*1) as Hnd'.
    { rewrite <-Permutation_cons_append. rewrite fmap_cons. by apply NoDup_cons. }
    assert (list_to_map (ps ++ [(f, v)]) = <[f := v]> (list_to_map ps : fmap_)) as Hm.
    { destruct (dict_map_app_cons ps [] f v Hnd') as (-> & _). by rewrite app_nil_r. }
    rewrite <-Hm in *. assert (zlen (ps ++ [(f, v)]) ≤ max_entries + 1) as Hl by (rewrite length_app; cbn [length]; lia).
    pose proof (roomy_unpair _ Hnd' Hroom Hl) as Hc. rewrite unpair_app in Hc. change (unpair [(f, v)]) with [f; v] in Hc. rewrite csize_app, !csize_cons in Hc. unfold csize at 2 in Hc. cbn [foldr] in Hc.
    destruct (pl_push_law zl _ f Hr) as (zl1 & -> & Hr1); [rewrite csize_cons; lia|]. cbn [mbind option_bind].
    destruct (pl_push_law zl1 _ v Hr1) as (zl2 & -> & Hr2); [rewrite csize_cons, csize_app, csize_cons; unfold csize at 2; cbn [foldr]; lia|]. cbn [mbind option_bind].
    exists zl2, (ps ++ [(f, v)]). rewrite Hnone. split; [done|]. split; [|done]. rewrite unpair_app. by rewrite <-(assoc_L (++)) in Hr2.
Qed.

(** A ziplist that has grown over the limit is converted. *)
Lemma limit_spec zl ps :
  pl_rep zl (unpair ps) → NoDup ps.*1 → zlen ps ≤ max_entries + 1 → zlen ps < 2 ^ 62 →
  ∃ o', ('(o, n) ← hashTypeLength (HZl zl); if max_entries <? n then hashTypeConvert ty cr o else Some o) = Some o' ∧ hrep o' (list_to_map ps).
Proof.
  intros Hr Hnd Hle Hsz. assert (HashSpec.hrep ty (max_entries + 1) (HZl zl) (list_to_map ps)) as Ho by by exists ps.
  destruct (pl_len_law zl _ Hr) as (zl' & Hl & Hr'). pose proof (length_spec ty _ _ _ Ho) as (o' & Hlen & _). cbn [hashTypeLength] in *. rewrite Hl in *. cbn [mbind option_bind] in *.
  injection Hlen as Ho' Hn. rewrite Hn, size_list_to_map by done. destruct (Z.ltb_spec max_entries (zlen ps)) as [Hgt|Hsm].
  - destruct (convert_spec ty (max_entries + 1) cr zl' (list_to_map ps)) as (d & -> & Hd); [by exists ps|by rewrite size_list_to_map|].
    by exists (HHt d).
  - exists (HZl zl'). split; [done|]. by exists ps.
Qed.

Lemma set_spec o m f v :
  hrep o m → Z.of_nat (size m) < 2 ^ 62 → roomy (<[f := v]> m) →
  ∃ o', hashTypeSet ty max_entries cr o f v = Some (o', bool_decide (is_Some (m !! f))) ∧ hrep o' (<[f := v]> m).
Proof.
  intros Ho Hsz Hroom. destruct o as [zl|d]; cbn [hashTypeSet].
  - destruct Ho as (ps & Hr & Hnd & <- & Hle). destruct (zl_set_spec zl ps f v Hr Hnd Hle Hroom) as (zl' & ps' & Hset & Hr' & Hnd' & Hm & Hle').
    unfold zl_set in Hset. destruct (find_field zl f) as [q|]; [|done]. cbn [mbind option_bind] in *. rewrite Hset. cbn [mbind option_bind].
    rewrite <-Hm in *. destruct Hroom as [Hsz' _]. rewrite size_list_to_map in Hsz' by done.
    destruct (limit_spec zl' ps' Hr' Hnd' Hle' Hsz') as (o' & He & Ho'). destruct (hashTypeLength (HZl zl')) as [[o1 n]|]; [|done].
    cbn [mbind option_bind] in *. rewrite He. by exists o'.
  - destruct Ho as [Hd <-]. unfold dict_find_entry. destruct (Z.eqb_spec (used (ht0 d) + used (ht1 d)) 0) as [Hz|Hz].
    + cbn [mbind option_bind]. assert (dict_map d !! f = None) as Hnone by (unfold dict_map; by rewrite (entries_nil ty d (proj1 Hd) Hz)).
      destruct (run_op_spec ty d (OpAdd cr f v) Hd I Hsz) as (d' & He & Hd' & Hm). cbn [run_op map_op] in *. rewrite Hnone in *.
      destruct (dictAdd ty cr d f v) as [[d1 st]|]; [|done]. cbn [mbind option_bind] in *. injection He as -> _. exists (HHt d'). split; [done|]. by split.
    + destruct (maybeRehashStep_spec ty d Hd) as (d1 & -> & Hd1 & Hm1 & Hp1 & _). cbn [mbind option_bind].
      destruct (search_tables_spec ty d1 f Hd1) as (r & -> & Hr).
      { apply (entries_table ty); [apply Hd1|]. intros E. rewrite E in Hp1. pose proof (dictSize_entries ty d (proj1 Hd)) as Hs. rewrite <-Hp1 in Hs. done. }
      cbn [mbind option_bind]. rewrite <-Hm1 in *. destruct r as [pos|idx].
      * destruct Hr as [w Hl]. rewrite (located_map ty _ _ _ _ Hd1 Hl). destruct (set_val_at_spec ty d1 f w v pos Hd1 Hl) as (d2 & -> & Hd2 & Hm2 & _).
        cbn [mbind option_bind]. exists (HHt d2). split; [done|]. by split.
      * destruct Hr as [Hnone _]. destruct (run_op_spec ty d1 (OpAdd cr f v) Hd1 I Hsz) as (d' & He & Hd' & Hm). cbn [run_op map_op] in *. rewrite Hnone in *.
        destruct (dictAdd ty cr d1 f v) as [[d2 st]|]; [|done]. cbn [mbind option_bind] in *. injection He as -> _. exists (HHt d'). split; [done|]. by split.
Qed.

Lemma delete_spec o m f :
  hrep o m → Z.of_nat (size m) < 2 ^ 62 →
  ∃ o', hashTypeDelete ty cr o f = Some (o', bool_decide (is_Some (m !! f))) ∧ hrep o' (delete f m).
Proof.
  intros Ho Hsz. destruct o as [zl|d]; cbn [hashTypeDelete].
  - pose proof Ho as (ps & Hr & Hnd & <- & Hle). destruct (find_field_spec zl ps f Hr) as (q & -> & Hq). cbn [mbind option_bind]. destruct q as [p|].
    + destruct Hq as (ps1 & w & ps2 & -> & Hp). rewrite unpair_app, unpair_cons in Hp. cbn [fst snd] in Hp.
      destruct (pl_delete_law _ _ _ p Hp) as (zl1 & -> & Hp1); [rewrite length_app, unpair_length; simpl; lia|]. cbn [mbind option_bind].
      rewrite take_unpair, <-Nat.add_1_r, drop_unpair in Hp1. cbn [drop] in Hp1.
      destruct (pl_delete_law _ _ _ p Hp1) as (zl2 & -> & Hp2); [rewrite length_app, unpair_length; simpl; lia|]. cbn [mbind option_bind].
      rewrite take_unpair, <-Nat.add_1_r, drop_unpair in Hp2. cbn [drop] in Hp2.
      destruct (dict_map_app_cons ps1 ps2 f w Hnd) as (-> & Hnone & Hnd'). exists (HZl zl2). rewrite lookup_insert_eq. split; [done|].
      exists (ps1 ++ ps2). split; [rewrite unpair_app; by eapply pl_at_rep|]. split; [done|]. split; [by rewrite delete_insert_id|].
      rewrite !length_app in *. cbn [length] in *. lia.
    + exists (HZl zl). rewrite not_elem_of_list_to_map_1 by done. split; [done|]. by rewrite delete_id by by apply not_elem_of_list_to_map_1.
  - destruct Ho as [Hd <-]. destruct (delete_resize_spec ty cr d f Hd Hsz) as (d1 & st & -> & Hd1 & Hm1 & -> & d2 & He & Hd2 & Hm2). cbn [mbind option_bind].
    rewrite <-Hm1. destruct (decide _) as [Hs|Hs].
    + rewrite He. exists (HHt d2). rewrite bool_decide_eq_true_2 by done. split; [done|]. by split.
    + exists (HHt d1). rewrite bool_decide_eq_false_2 by done. split; [done|]. by split.
Qed.

(** ** The commands on a map *)

Inductive aval := ANone | AHash (m : fmap_) | AOther.

(** The reply, or the fields and values of a map in any order. *)
Inductive areply := Exact (r : reply) | AnyOrder (flags : Z) (m : fmap_).

Abbreviation aresult := (aval * areply * list string * Z)%type.

(** What the flags select of a field and its value. *)
Definition selected (flags : Z) (p : bytes * bytes) : list (option bytes) :=
  (if Z.land flags OBJ_HASH_KEY =? 0 then [] else [Some p.1]) ++ (if Z.land flags OBJ_HASH_VALUE =? 0 then [] else [Some p.2]).

Definition reply_ok (a : areply) (r : reply) : Prop :=
  match a with
  | Exact r' => r = r'
  | AnyOrder flags m => ∃ ps, ps ≡ₚ map_to_list m ∧ r = RMultiBulk (zlen (ps ≫= selected flags)) (ps ≫= selected flags)
  end.

Definition as_map (a : aval) : option fmap_ := match a with ANone => Some ∅ | AHash m => Some m | AOther => None end.

Definition on_map (a : aval) (c : fmap_ → option aresult) : option aresult :=
  match as_map a with Some m => c m | None => Some (a, Exact wrongtypeerr, [], 0) end.

Definition a_set m (f v : bytes) : option fmap_ := if decide (roomy (<[f := v]> m)) then Some (<[f := v]> m) else None.

Fixpoint a_sets m (args : list bytes) : option fmap_ :=
  match args with f :: v :: args => m ← a_set m f v; a_sets m args | _ => Some m end.

(** [None]: the caller breaks a rule.  HSET has a field and a value at least, a map in a
    ziplist fits into 4 GB, and the reply to HGETALL has less than 2^31 elements. *)
Definition a_hcmd (a : aval) (cmd : hcmd) : option aresult :=
  match cmd with
  | HSetNX f v =>
      on_map a (λ m, match m !! f with
        | Some _ => Some (a, Exact (RInt 0), [], 0)
        | None => m ← a_set m f v; Some (AHash m, Exact (RInt 1), ["hset"%string], 1)
        end)
  | HSet hmset args =>
      if Z.odd (zlen args) then Some (a, Exact (RError "-ERR wrong number of arguments for HMSET"), [], 0)
      else if bool_decide (args = []) then None
      else on_map a (λ m,
        m' ← a_sets m args;
        Some (AHash m', Exact (if hmset then ROk else RInt (Z.of_nat (size m') - Z.of_nat (size m))), ["hset"%string], 1))
  | HIncrBy f incr =>
      match to_int incr with
      | None => Some (a, Exact (RError "-ERR value is not an integer or out of range"), [], 0)
      | Some incr =>
          on_map a (λ m,
            match to_int (default (of_int 0) (m !! f)) with
            | None => Some (a, Exact (RError "-ERR hash value is not an integer"), [], 0)
            | Some old =>
                if bool_decide (in_s 64 (old + incr)) then
                  m ← a_set m f (of_int (old + incr)); Some (AHash m, Exact (RInt (old + incr)), ["hincrby"%string], 1)
                else Some (a, Exact (RError "-ERR increment or decrement would overflow"), [], 0)
            end)
      end
  | HGet f => on_map a (λ m, Some (a, Exact (match m !! f with Some s => RBulk s | None => RNullBulk end), [], 0))
  | HMGet fs => on_map a (λ m, Some (a, Exact (RMultiBulk (zlen fs) (map (λ f, m !! f) fs)), [], 0))
  | HDel fs =>
      on_map a (λ m,
        let m' := without m fs in
        let deleted := Z.of_nat (size m) - Z.of_nat (size m') in
        if deleted =? 0 then Some (a, Exact (RInt 0), [], 0)
        else if bool_decide (m' = ∅) then Some (ANone, Exact (RInt deleted), ["hdel"%string; "del"%string], deleted)
        else Some (AHash m', Exact (RInt deleted), ["hdel"%string], deleted))
  | HLen => on_map a (λ m, Some (a, Exact (RInt (Z.of_nat (size m))), [], 0))
  | HStrlen f => on_map a (λ m, Some (a, Exact (RInt (zlen (default [] (m !! f)))), [], 0))
  | HGetAll flags => on_map a (λ m, if bool_decide (2 * Z.of_nat (size m) < 2 ^ 31) then Some (a, AnyOrder flags m, [], 0) else None)
  | HExists f => on_map a (λ m, Some (a, Exact (RInt (b2z (bool_decide (is_Some (m !! f))))), [], 0))
  end.

Definition krep (k : kval (T := T)) (a : aval) : Prop :=
  match k, a with
  | KNone, ANone => True
  | KHash o, AHash m => hrep o m ∧ m ≠ ∅ ∧ Z.of_nat (size m) < 2 ^ 62
  | KOther, AOther => True
  | _, _ => False
  end.

Definition res_ok (r : kval * reply * list string * Z) (a : aresult) : Prop :=
  let '(k, x, ev, n) := r in let '(a, y, ev', n') := a in krep k a ∧ reply_ok y x ∧ ev = ev' ∧ n = n'.

Lemma write_or_create k a c C ra :
  krep k a → on_map a c = Some ra →
  (∀ o m, hrep o m → Z.of_nat (size m) < 2 ^ 62 → as_map a = Some m → c m = Some ra → ∃ r, C o = Some r ∧ res_ok r ra) →
  ∃ r, hashTypeLookupWriteOrCreate k C = Some r ∧ res_ok r ra.
Proof.
  intros Hk Hc HC. destruct k as [|o|], a as [|m|]; try done; cbn [hashTypeLookupWriteOrCreate on_map as_map] in *.
  - destruct (create_spec ty max_entries max_entries_nonneg) as (o & -> & Ho). cbn [mbind option_bind]. by apply (HC o ∅).
  - destruct Hk as (Ho & _ & Hsz). by apply (HC o m).
  - injection Hc as <-. by eexists.
Qed.

Lemma lookup_or_spec k a c C x ra :
  krep k a → on_map a c = Some ra → (a = ANone → c ∅ = Some ra → res_ok (KNone, x, [], 0) ra) →
  (∀ o m, hrep o m → m ≠ ∅ → Z.of_nat (size m) < 2 ^ 62 → a = AHash m → c m = Some ra → ∃ r, C o = Some r ∧ res_ok r ra) →
  ∃ r, lookup_or k x C = Some r ∧ res_ok r ra.
Proof.
  intros Hk Hc Hn HC. destruct k as [|o|], a as [|m|]; try done; cbn [lookup_or on_map as_map] in *.
  - eexists. split; [done|]. by apply Hn.
  - destruct Hk as (Ho & Hne & Hsz). by apply (HC o m).
  - injection Hc as <-. by eexists.
Qed.

Lemma a_set_spec o m f v m' :
  hrep o m → Z.of_nat (size m) < 2 ^ 62 → a_set m f v = Some m' →
  m' = <[f := v]> m ∧ ∃ o', hashTypeSet ty max_entries cr o f v = Some (o', bool_decide (is_Some (m !! f))) ∧ krep (KHash o') (AHash m').
Proof.
  intros Ho Hsz Ha. unfold a_set in Ha. destruct (decide _) as [Hr|]; [|done]. injection Ha as <-. split; [done|].
  destruct (set_spec o m f v Ho Hsz Hr) as (o' & -> & Ho'). exists o'. split; [done|]. split; [done|]. split; [apply insert_non_empty|apply Hr].
Qed.

Lemma krep_same o m a f v : hrep o m → Z.of_nat (size m) < 2 ^ 62 → as_map a = Some m → m !! f = Some v → krep (KHash o) a.
Proof.
  intros Ho Hsz Ha Hf. destruct a as [|m'|]; [|injection Ha as ->|done]; [injection Ha as <-; by rewrite lookup_empty in Hf|]. split; [done|]. split; [|done].
  intros ->. by rewrite lookup_empty in Hf.
Qed.

Lemma hsetnx_refines k a f v ra :
  krep k a → a_hcmd a (HSetNX f v) = Some ra → ∃ r, hsetnxCommand ty max_entries max_value cr k f v = Some r ∧ res_ok r ra.
Proof.
  intros Hk Ha. eapply write_or_create; [done|exact Ha|]. intros o m Ho Hsz Has Hc. cbn beta in Hc.
  destruct (try_conversion_spec ty max_entries max_value cr o m [f; v] Ho Hsz) as (o1 & -> & Ho1). cbn [mbind option_bind].
  destruct (exists_spec ty max_entries o1 m f Ho1) as (o2 & -> & Ho2). cbn [mbind option_bind]. destruct (m !! f) as [w|] eqn:Ef.
  - injection Hc as <-. eexists. split; [done|]. split; [by eapply krep_same|done].
  - apply bind_Some in Hc as (m' & Hs & Hc). injection Hc as <-. destruct (a_set_spec o2 m f v m' Ho2 Hsz Hs) as (-> & o3 & He & Hk3).
    change (bool_decide (is_Some None)) with false. cbv iota. rewrite He. cbn [mbind option_bind]. by eexists.
Qed.

Lemma hset_loop_spec : ∀ args o m created m',
  hrep o m → Z.of_nat (size m) < 2 ^ 62 → a_sets m args = Some m' →
  ∃ o', hset_loop ty max_entries cr o args created = Some (o', created + (Z.of_nat (size m') - Z.of_nat (size m))) ∧ hrep o' m' ∧ Z.of_nat (size m') < 2 ^ 62 ∧
    ((2 ≤ length args)%nat ∨ m ≠ ∅ → m' ≠ ∅).
Proof.
  fix IH 1. intros [|f [|v args]] o m created m' Ho Hsz Ha; cbn [a_sets hset_loop] in *.
  - injection Ha as <-. exists o. split; [do 2 f_equal; lia|]. split_and!; [done|done|]. intros [Hl|]; [simpl in Hl; lia|done].
  - injection Ha as <-. exists o. split; [do 2 f_equal; lia|]. split_and!; [done|done|]. intros [Hl|]; [simpl in Hl; lia|done].
  - apply bind_Some in Ha as (m1 & Hs & Ha). destruct (a_set_spec o m f v m1 Ho Hsz Hs) as (-> & o1 & -> & Ho1 & Hne & Hsz1). cbn [mbind option_bind].
    destruct (IH args o1 _ (created + b2z (negb (bool_decide (is_Some (m !! f))))) m' Ho1 Hsz1 Ha) as (o2 & -> & Ho2 & Hsz2 & Hne2). exists o2.
    split; [|split_and!; [done|done|intros _; by apply Hne2; right]]. do 2 f_equal. rewrite map_size_insert. destruct (m !! f); cbn; lia.
Qed.

Lemma hset_refines k a hmset args ra :
  krep k a → a_hcmd a (HSet hmset args) = Some ra → ∃ r, hsetCommand ty max_entries max_value cr k hmset args = Some r ∧ res_ok r ra.
Proof.
  intros Hk Ha. cbn [a_hcmd] in Ha. unfold hsetCommand. destruct (Z.odd (zlen args)) eqn:Eo; [injection Ha as <-; by eexists|]. case_bool_decide as He; [done|].
  eapply write_or_create; [done|exact Ha|]. intros o m Ho Hsz Has Hc. cbn beta in Hc. apply bind_Some in Hc as (m' & Hs & Hc). injection Hc as <-.
  destruct (try_conversion_spec ty max_entries max_value cr o m args Ho Hsz) as (o1 & -> & Ho1). cbn [mbind option_bind].
  destruct (hset_loop_spec args o1 m 0 m' Ho1 Hsz Hs) as (o2 & -> & Ho2 & Hsz2 & Hne). cbn [mbind option_bind]. eexists. split; [done|].
  split; [|done]. split; [done|]. split; [|done]. apply Hne. left. destruct args as [|x [|y l]]; [done|done|simpl; lia].
Qed.

Lemma overflow_check x y :
  in_s 64 x → in_s 64 y →
  ((x <? 0) && (y <? 0) && (x <? LLONG_MIN - y)) || ((0 <? x) && (0 <? y) && (LLONG_MAX - y <? x)) = negb (bool_decide (in_s 64 (y + x))).
Proof.
  unfold in_s, LLONG_MIN, LLONG_MAX. intros Hx Hy. case_bool_decide as Hs; cbn [negb].
  - apply orb_false_iff. split; apply andb_false_iff; rewrite andb_false_iff, !Z.ltb_ge; lia.
  - apply orb_true_iff. rewrite !andb_true_iff, !Z.ltb_lt. lia.
Qed.

Lemma hincrby_refines k a f incr ra :
  krep k a → a_hcmd a (HIncrBy f incr) = Some ra → ∃ r, hincrbyCommand ty max_entries cr k f incr = Some r ∧ res_ok r ra.
Proof.
  intros Hk Ha. cbn [a_hcmd] in Ha. unfold hincrbyCommand. rewrite to_int_eq. cbn [mbind option_bind]. destruct (to_int incr) as [x|] eqn:Ex; [|injection Ha as <-; by eexists].
  apply to_int_spec in Ex as [_ Hx]. eapply write_or_create; [done|exact Ha|]. intros o m Ho Hsz Has Hc. cbn beta in Hc.
  destruct (getvalue_spec ty max_entries o m f Ho) as (o1 & r & -> & Ho1 & Hr). cbn [mbind option_bind].
  assert (match r with Some (inl vstr) => string2ll vstr (zlen vstr) | Some (inr vll) => Some (Some vll) | None => Some (Some 0) end =
    Some (to_int (default (of_int 0) (m !! f)))) as ->.
  { destruct (m !! f) as [s|]; [|by subst]. destruct Hr as ([s'|z] & -> & Ht & Hi & Hl); cbn [default from_option id].
    - by rewrite (Hl s' eq_refl), to_int_eq.
    - f_equal. symmetry. apply to_int_spec. by apply Hi. }
  cbn [mbind option_bind]. destruct (to_int (default (of_int 0) (m !! f))) as [old|] eqn:Eo.
  - assert (in_s 64 old) as Hold by by apply to_int_spec in Eo as [_ ?]. rewrite overflow_check by done. case_bool_decide as Hs; cbn [negb].
    + apply bind_Some in Hc as (m' & Hset & Hc). injection Hc as <-. destruct (sdsll2str_spec (old + x) Hs) as (s & Es & _). unfold of_int in Hset. rewrite Es in *. cbn [mbind option_bind default from_option id] in *.
      destruct (a_set_spec o1 m f s m' Ho1 Hsz Hset) as (-> & o2 & -> & Hk2). cbn [mbind option_bind]. by eexists.
    + injection Hc as <-. eexists. split; [done|]. split; [|done]. destruct (m !! f) as [s|] eqn:Ef; [by eapply krep_same|]. exfalso.
      cbn [default from_option id] in Eo. vm_compute in Eo. injection Eo as <-. rewrite Z.add_0_l in Hs. done.
  - injection Hc as <-. eexists. split; [done|]. split; [|done]. destruct (m !! f) as [s|] eqn:Ef; [by eapply krep_same|]. exfalso. cbn [default from_option id] in Eo. vm_compute in Eo. done.
Qed.

Lemma hget_refines k a f ra : krep k a → a_hcmd a (HGet f) = Some ra → ∃ r, hgetCommand ty k f = Some r ∧ res_ok r ra.
Proof.
  intros Hk Ha. eapply lookup_or_spec; [done|exact Ha|by intros -> [= <-]|]. intros o m Ho Hne Hsz -> [= <-].
  destruct (field_reply_spec ty max_entries o m f Ho) as (o' & -> & Ho'). by eexists.
Qed.

Lemma hlen_refines k a ra : krep k a → a_hcmd a HLen = Some ra → ∃ r, hlenCommand k = Some r ∧ res_ok r ra.
Proof.
  intros Hk Ha. eapply lookup_or_spec; [done|exact Ha|by intros -> [= <-]|]. intros o m Ho Hne Hsz -> [= <-].
  destruct (length_spec ty max_entries o m Ho) as (o' & -> & Ho'). by eexists.
Qed.

Lemma hstrlen_refines k a f ra : krep k a → a_hcmd a (HStrlen f) = Some ra → ∃ r, hstrlenCommand ty k f = Some r ∧ res_ok r ra.
Proof.
  intros Hk Ha. eapply lookup_or_spec; [done|exact Ha|by intros -> [= <-]|]. intros o m Ho Hne Hsz -> [= <-].
  destruct (strlen_spec ty max_entries o m f Ho) as (o' & -> & Ho'). by eexists.
Qed.

Lemma hexists_refines k a f ra : krep k a → a_hcmd a (HExists f) = Some ra → ∃ r, hexistsCommand ty k f = Some r ∧ res_ok r ra.
Proof.
  intros Hk Ha. eapply lookup_or_spec; [done|exact Ha|by intros -> [= <-]|]. intros o m Ho Hne Hsz -> [= <-].
  destruct (exists_spec ty max_entries o m f Ho) as (o' & -> & Ho'). by eexists.
Qed.

Lemma hmget_loop_spec fs o m : hrep o m → ∃ o', hmget_loop ty o fs = Some (o', map (λ f, m !! f) fs) ∧ hrep o' m.
Proof.
  revert o. induction fs as [|f fs IH]; intros o Ho; cbn [hmget_loop map]; [by exists o|].
  destruct (field_reply_spec ty max_entries o m f Ho) as (o1 & -> & Ho1). cbn [mbind option_bind]. destruct (IH o1 Ho1) as (o2 & -> & Ho2). by exists o2.
Qed.

Lemma hmget_refines k a fs ra : krep k a → a_hcmd a (HMGet fs) = Some ra → ∃ r, hmgetCommand ty k fs = Some r ∧ res_ok r ra.
Proof.
  intros Hk Ha. cbn [a_hcmd] in Ha. destruct k as [|o|], a as [|m|]; try done; cbn [hmgetCommand on_map as_map] in *; injection Ha as <-.
  - by eexists.
  - destruct Hk as (Ho & Hne & Hsz). destruct (hmget_loop_spec fs o m Ho) as (o' & -> & Ho'). by eexists.
  - by eexists.
Qed.

Lemma hdel_loop_spec fs : ∀ o m deleted,
  hrep o m → m ≠ ∅ → Z.of_nat (size m) < 2 ^ 62 → 0 ≤ deleted →
  ∃ o', hdel_loop ty cr o fs deleted = Some (o', deleted + (Z.of_nat (size m) - Z.of_nat (size (without m fs))), bool_decide (without m fs = ∅)) ∧
    hrep o' (without m fs) ∧ (size (without m fs) ≤ size m)%nat.
Proof.
  induction fs as [|f fs IH]; intros o m deleted Ho Hne Hsz Hdel; cbn [hdel_loop].
  { exists o. split; [|done]. change (without m []) with m. rewrite bool_decide_eq_false_2 by done. do 3 f_equal. lia. }
  change (without m (f :: fs)) with (without (delete f m) fs). pose proof (size_delete m f) as Hd.
  destruct (delete_spec o m f Ho Hsz) as (o1 & -> & Ho1). cbn [mbind option_bind]. destruct (bool_decide (is_Some (m !! f))) eqn:Eb; cbn [b2z] in Hd.
  - destruct (length_spec ty max_entries o1 _ Ho1) as (o2 & -> & Ho2). cbn [mbind option_bind]. destruct (Z.eqb_spec (Z.of_nat (size (delete f m))) 0) as [Hz|Hz].
    + assert (delete f m = ∅) as E by (apply map_size_empty_iff; lia). rewrite E in *. rewrite without_empty. exists o2. split; [|split; [done|lia]].
      rewrite bool_decide_eq_true_2 by done. do 3 f_equal. lia.
    + assert (delete f m ≠ ∅) as Hne1 by (intros E; by rewrite E in Hz). destruct (IH o2 (delete f m) (deleted + 1) Ho2 Hne1) as (o3 & -> & Ho3 & Hle); [lia|lia|].
      exists o3. split; [|split; [done|lia]]. do 3 f_equal. lia.
  - assert (delete f m = m) as E by (apply delete_id; apply bool_decide_eq_false_1 in Eb; by apply eq_None_not_Some). rewrite E in *. by apply IH.
Qed.

Lemma hdel_refines k a fs ra : krep k a → a_hcmd a (HDel fs) = Some ra → ∃ r, hdelCommand ty cr k fs = Some r ∧ res_ok r ra.
Proof.
  intros Hk Ha. eapply lookup_or_spec; [done|exact Ha|..]; cbn beta zeta; change (λ m f, delete f m) with (λ (m : fmap_) f, delete f m).
  - intros -> Hc.  rewrite without_empty in Hc. by injection Hc as <-.
  - intros o m Ho Hne Hsz -> Hc.  destruct (hdel_loop_spec fs o m 0 Ho Hne Hsz) as (o' & -> & Ho' & Hle); [done|]. cbn [mbind option_bind].
    rewrite Z.add_0_l. eexists. split; [done|]. destruct (Z.eqb_spec (Z.of_nat (size m) - Z.of_nat (size (without m fs))) 0) as [Hz|Hz].
    + injection Hc as <-. rewrite bool_decide_eq_false_2.
      2:{ intros E. rewrite E, map_size_empty in Hz. apply Hne. apply map_size_empty_iff. lia. }
      split; [|by rewrite Hz]. assert (without m fs = m) as E; [|by rewrite E in Ho'].
      apply without_same. lia.
    + case_bool_decide as He; injection Hc as <-; (split; [|done]); [done|]. split; [done|]. split; [done|lia].
Qed.

Lemma hgetall_loop_spec o flags ps : ∀ fuel hi,
  hi_rep ty o hi ps → (length ps < fuel)%nat → hgetall_loop fuel o hi flags = Some (ps ≫= selected flags).
Proof.
  induction ps as [|[f v] ps IH]; intros fuel hi Hh Hf; (destruct fuel as [|fuel]; [simpl in Hf; lia|]); cbn [hgetall_loop];
    destruct (hash_next_spec ty o hi _ Hh) as (hi' & -> & Hn); cbn [mbind option_bind]; [done|].
  destruct Hn as (Hh' & -> & ->). rewrite (IH fuel hi') by (done || (simpl in Hf; lia)). rewrite bind_cons. unfold selected at 2. cbn [fst snd].
  destruct (Z.land flags OBJ_HASH_KEY =? 0), (Z.land flags OBJ_HASH_VALUE =? 0); done.
Qed.

Lemma selected_length flags ps :
  zlen (ps ≫= selected flags) = zlen ps * (b2z (negb (Z.land flags OBJ_HASH_KEY =? 0)) + b2z (negb (Z.land flags OBJ_HASH_VALUE =? 0))).
Proof.
  induction ps as [|p ps IH]; [done|]. rewrite bind_cons, length_app, Nat2Z.inj_add, IH. unfold selected. cbn [length].
  destruct (Z.land flags OBJ_HASH_KEY =? 0), (Z.land flags OBJ_HASH_VALUE =? 0); cbn [app length b2z negb]; lia.
Qed.

Lemma hgetall_refines k a flags ra : krep k a → a_hcmd a (HGetAll flags) = Some ra → ∃ r, genericHgetallCommand k flags = Some r ∧ res_ok r ra.
Proof.
  intros Hk Ha. eapply lookup_or_spec; [done|exact Ha|..]; cbn beta zeta.
  - intros -> [= <-]. split; [done|]. split; [|done]. by exists [].
  - intros o m Ho Hne Hsz -> Hc. case_bool_decide as Hg; [|done]. injection Hc as <-. destruct (length_spec ty max_entries o m Ho) as (o1 & -> & Ho1). cbn [mbind option_bind].
    destruct (init_spec ty max_entries o1 m Ho1) as (ps & Hi & Hnd & <-). rewrite size_list_to_map in * by done.
    rewrite (hgetall_loop_spec o1 flags ps) by (done || lia). cbn [mbind option_bind]. rewrite selected_length.
    set (n := zlen ps * _). assert (0 ≤ n < 2 ^ 31) as Hn. { unfold n. destruct (Z.land flags OBJ_HASH_KEY =? 0), (Z.land flags OBJ_HASH_VALUE =? 0); cbn [b2z negb]; lia. }
    rewrite wrap_s_small by (unfold in_s; lia). rewrite Z.eqb_refl. eexists. split; [done|]. split; [|split; [|done]].
    + split; [done|]. split; [done|]. by rewrite size_list_to_map.
    + exists ps. split; [by rewrite map_to_list_to_map|]. unfold n. by rewrite selected_length.
Qed.

Lemma hcmd_refines k a cmd ra :
  krep k a → a_hcmd a cmd = Some ra → ∃ r, run_hcmd ty max_entries max_value cr k cmd = Some r ∧ res_ok r ra.
Proof.
  intros Hk Ha. destruct cmd; cbn [run_hcmd].
  - by eapply hsetnx_refines.
  - by eapply hset_refines.
  - by eapply hincrby_refines.
  - by eapply hget_refines.
  - by eapply hmget_refines.
  - by eapply hdel_refines.
  - by eapply hlen_refines.
  - by eapply hstrlen_refines.
  - by eapply hgetall_refines.
  - by eapply hexists_refines.
Qed.

End Update.

(** ** Sequences of commands *)

Section Run.

Context {T : Type} `{PackedListLaws T} (ty : dictType bytes) `{!DictTypeOk ty}.
Context (max_entries max_value : Z).

(** Commands, each with the value of [dict_can_resize] at its time. *)
Fixpoint run_hcmds (k : kval (T := T)) (cmds : list (bool * hcmd)) : option (kval (T := T) * list (reply * list string * Z)) :=
  match cmds with
  | [] => Some (k, [])
  | (cr, cmd) :: cmds =>
      '(k, r, ev, n) ← run_hcmd ty max_entries max_value cr k cmd;
      '(k, rs) ← run_hcmds k cmds;
      Some (k, (r, ev, n) :: rs)
  end.

Fixpoint a_hcmds (a : aval) (cmds : list (bool * hcmd)) : option (aval * list (areply * list string * Z)) :=
  match cmds with
  | [] => Some (a, [])
  | (_, cmd) :: cmds =>
      '(a, r, ev, n) ← a_hcmd max_entries a cmd;
      '(a, rs) ← a_hcmds a cmds;
      Some (a, (r, ev, n) :: rs)
  end.

Definition out_ok (x : reply * list string * Z) (y : areply * list string * Z) : Prop :=
  reply_ok y.1.1 x.1.1 ∧ x.1.2 = y.1.2 ∧ x.2 = y.2.

Lemma hcmds_refine (cmds : list (bool * hcmd)) : ∀ k a0 a outs,
  0 ≤ max_entries → krep ty max_entries k a0 → a_hcmds a0 cmds = Some (a, outs) →
  ∃ k' rs, run_hcmds k cmds = Some (k', rs) ∧ krep ty max_entries k' a ∧ Forall2 out_ok rs outs.
Proof.
  induction cmds as [|[cr cmd] cmds IH]; intros k a0 a outs Hmax Hk Ha; cbn [run_hcmds a_hcmds] in *; [injection Ha as <- <-; by exists k, []|].
  apply bind_Some in Ha as ([[[a1 x] ev] n] & H1 & Ha). apply bind_Some in Ha as ([a2 xs] & H2 & Ha). injection Ha as <- <-.
  destruct (hcmd_refines ty max_entries max_value cr Hmax k a0 cmd _ Hk H1) as ([[[k1 r] ev'] n'] & -> & Hk1 & Hr & -> & ->). cbn [mbind option_bind].
  destruct (IH k1 a1 a2 xs Hmax Hk1 H2) as (k2 & rs & -> & Hk2 & Hrs). cbn [mbind option_bind]. eexists _, _. split; [done|]. split; [done|]. by constructor.
Qed.

(** C36: a hash is a finite map from fields to values, whatever its encoding.  Any sequence of
    HSETNX, HSET, HMSET, HINCRBY, HGET, HMGET, HDEL, HLEN, HSTRLEN, HEXISTS, HGETALL, HKEYS
    and HVALS on one key that starts without a value and keeps the stated limits runs without a
    failed assertion, a panic or a loop that does not end, through the conversion from a
    ziplist to a hash table and any rehashing of the table, and gives the replies, the
    keyspace events and the changes of [server.dirty] of the map: errors of type, of
    arguments, of integers and of overflow included; the fields of HGETALL come each once, in
    any order.  The key exists exactly when the map is not empty, and a hash that is still a
    ziplist has at most [hash_max_ziplist_entries] fields. *)
Theorem hash_refines_map (cmds : list (bool * hcmd)) a outs :
  0 ≤ max_entries → a_hcmds ANone cmds = Some (a, outs) →
  ∃ k rs, run_hcmds KNone cmds = Some (k, rs) ∧ krep ty max_entries k a ∧ Forall2 out_ok rs outs.
Proof.
  intros Hmax. apply hcmds_refine; done.
Qed.

End Run.

(** ** A hash that outgrows its ziplist *)

Definition demo_hash : list (bool * hcmd) :=
  [(true, HGet (str "a")); (true, HSet false [str "a"; str "1"; str "b"; str "xyz"]); (true, HIncrBy (str "a") (str "41")); (true, HStrlen (str "a"));
   (true, HSet false [str "a"]); (true, HSetNX (str "b") (str "0")); (true, HIncrBy (str "b") (str "1")); (true, HGetAll 3);
   (true, HSetNX (str "c") (str "9223372036854775807")); (true, HIncrBy (str "c") (str "1")); (true, HLen); (true, HMGet [str "b"; str "z"; str "a"]);
   (true, HDel [str "a"; str "z"; str "a"]); (true, HExists (str "a")); (true, HDel [str "b"; str "c"; str "d"]); (true, HLen)].

Lemma hash_refines_map_witness :
  ∃ k rs, run_hcmds (H := ziplist_packed (λ _, 7)) bytesDictType 2 64 KNone demo_hash = Some (k, rs) ∧ krep (H0 := ziplist_packed_laws (λ _, 7)) bytesDictType 2 k ANone ∧
    Forall2 out_ok rs
      [(Exact RNullBulk, [], 0); (Exact (RInt 2), ["hset"%string], 1); (Exact (RInt 42), ["hincrby"%string], 1); (Exact (RInt 2), [], 0);
       (Exact (RError "-ERR wrong number of arguments for HMSET"), [], 0); (Exact (RInt 0), [], 0); (Exact (RError "-ERR hash value is not an integer"), [], 0);
       (AnyOrder 3 {[str "a" := str "42"; str "b" := str "xyz"]}, [], 0);
       (Exact (RInt 1), ["hset"%string], 1); (Exact (RError "-ERR increment or decrement would overflow"), [], 0); (Exact (RInt 3), [], 0);
       (Exact (RMultiBulk 3 [Some (str "xyz"); None; Some (str "42")]), [], 0);
       (Exact (RInt 1), ["hdel"%string], 1); (Exact (RInt 0), [], 0); (Exact (RInt 2), ["hdel"%string; "del"%string], 2); (Exact (RInt 0), [], 0)].
Proof. apply (hash_refines_map (H0 := ziplist_packed_laws (λ _, 7)) bytesDictType 2 64 demo_hash); [lia|]. vm_compute. reflexivity. Defined.

(** HINCRBY does not look at [hash_max_ziplist_value]: here it is 2, and a field of three
    bytes is stored in the ziplist. *)
Lemma hincrby_keeps_ziplist :
  ∃ zl rs, run_hcmds (H := ziplist_packed (λ _, 7)) bytesDictType 2 2 KNone [(true, HIncrBy (str "abc") (str "1"))] = Some (KHash (HZl zl), rs).
Proof. eexists _, _. vm_compute. reflexivity. Qed.
