(* ===== verification/SetType.v ===== *)
(** The set type (t_set.c): a set of strings that is an intset while all its elements are
    integers and there are few of them, and a hash table otherwise, and the commands on the
    keys of a database.

    [None] is a failed assertion, a panic, an overflow of a counter or an access outside of
    memory.  A set object belongs to one key, so that a pointer to it is modelled by the key;
    two arguments are the same object when they are the same key.  Searching a hash table may
    move its buckets, so the functions that only read give the object back.  The expiration of
    keys is not part of this model, and [qsort] is a parameter that permutes its argument. *)

From stdpp Require Import list numbers strings gmap.
From S2P Require Import Prelude Util SdsText Intset Dict Object DictIter.

Inductive scmd :=
  | SAdd (key : bytes) (ms : list bytes)
  | SRem (key : bytes) (ms : list bytes)
  | SMove (src dst m : bytes)
  | SIsMember (key m : bytes)
  | SCard (key : bytes)
  | SInter (keys : list bytes) (dstkey : option bytes)
  | SUnionDiff (keys : list bytes) (dstkey : option bytes) (op : Z).

Definition SET_OP_UNION : Z := 0.
Definition SET_OP_DIFF : Z := 1.

Section Set_.

Context (be : bool) (junk : nat → Z) (ty : dictType bytes).
Context (qsort : ∀ A : Type, (A → A → Z) → list A → list A).
Context (set_max_intset_entries : Z) (dict_can_resize : bool).

(** OBJ_ENCODING_INTSET and OBJ_ENCODING_HT *)
Inductive setobj := SInt (s : intset) | SHt (d : dict bytes ()).

Definition createIntsetObject : option setobj := s ← intsetNew be; Some (SInt s).
Definition createSetObject : setobj := SHt dictCreate.

Definition setTypeCreate (value : bytes) : option setobj :=
  r ← isSdsRepresentableAsLongLong value;
  match r with Some _ => createIntsetObject | None => Some createSetObject end.

Definition setTypeSize (o : setobj) : option Z :=
  match o with SHt d => Some (dictSize d) | SInt s => intsetLen be s end.

(** ** Iterators *)

Inductive setTypeIterator := SiInt (ii : Z) | SiHt (di : dictIterator bytes ()).

Definition setTypeInitIterator (o : setobj) : setTypeIterator :=
  match o with SHt _ => SiHt dictGetIterator | SInt _ => SiInt 0 end.

(** The element with its encoding; [None] is the result -1. *)
Definition setTypeNext (o : setobj) (si : setTypeIterator) : option (setTypeIterator * option (bytes + Z)) :=
  match o, si with
  | SHt d, SiHt di => '(di, de) ← dictNext d di; Some (SiHt di, option_map (λ e, inl e.1) de)
  | SInt s, SiInt ii => r ← intsetGet be s ii; Some (SiInt (ii + 1), option_map inr r)
  | _, _ => None
  end.

Definition setTypeNextObject (o : setobj) (si : setTypeIterator) : option (setTypeIterator * option bytes) :=
  '(si, e) ← setTypeNext o si;
  match e with Some e => t ← text e; Some (si, Some t) | None => Some (si, None) end.

(** ** Conversion, additions and removals *)

(** The loop of [setTypeConvert]: an intset gives integers only. *)
Fixpoint setTypeConvert_loop (fuel : nat) (o : setobj) (si : setTypeIterator) (d : dict bytes ()) : option (dict bytes ()) :=
  match fuel with
  | O => None
  | S fuel =>
      '(si, e) ← setTypeNext o si;
      match e with
      | None => Some d
      | Some (inr intele) =>
          element ← sdsll2str intele;
          '(d, ret) ← dictAdd ty dict_can_resize d element ();
          match ret with DICT_OK => setTypeConvert_loop fuel o si d | DICT_ERR => None end
      | Some (inl _) => None
      end
  end.

Definition setTypeConvert (o : setobj) : option setobj :=
  match o with
  | SInt s =>
      n ← intsetLen be s;
      '(d, _) ← dictExpand dictCreate n;
      d ← setTypeConvert_loop (S (Z.to_nat n)) o (setTypeInitIterator o) d;
      Some (SHt d)
  | SHt _ => None
  end.

Definition setTypeAdd (o : setobj) (value : bytes) : option (setobj * bool) :=
  match o with
  | SHt d =>
      '(d, de) ← dictAddRaw ty dict_can_resize d value ();
      Some (SHt d, match de with Added => true | NotAdded _ => false end)
  | SInt s =>
      r ← isSdsRepresentableAsLongLong value;
      match r with
      | Some llval =>
          '(s, success) ← intsetAdd be junk s llval;
          if (success : bool) then
            n ← intsetLen be s;
            o ← (if set_max_intset_entries <? n then setTypeConvert (SInt s) else Some (SInt s));
            Some (o, true)
          else Some (SInt s, false)
      | None =>
          o ← setTypeConvert o;
          match o with
          | SHt d =>
              '(d, ret) ← dictAdd ty dict_can_resize d value ();
              match ret with DICT_OK => Some (SHt d, true) | DICT_ERR => None end
          | SInt _ => None
          end
      end
  end.

Definition setTypeRemove (o : setobj) (value : bytes) : option (setobj * bool) :=
  match o with
  | SHt d =>
      '(d, st) ← dictDelete ty d value;
      match st with
      | DICT_OK =>
          d ← (if htNeedsResize d then '(d, _) ← dictResize dict_can_resize d; Some d else Some d);
          Some (SHt d, true)
      | DICT_ERR => Some (SHt d, false)
      end
  | SInt s =>
      r ← isSdsRepresentableAsLongLong value;
      match r with
      | Some llval => '(s, success) ← intsetRemove be junk s llval; Some (SInt s, success)
      | None => Some (o, false)
      end
  end.

Definition setTypeIsMember (o : setobj) (value : bytes) : option (setobj * bool) :=
  match o with
  | SHt d => '(d, de) ← dictFind ty d value; Some (SHt d, match de with Some _ => true | None => false end)
  | SInt s =>
      r ← isSdsRepresentableAsLongLong value;
      match r with Some llval => b ← intsetFind be s llval; Some (o, b) | None => Some (o, false) end
  end.

(** ** Commands on one set *)

Abbreviation db := (gmap bytes (dbval setobj)).
Abbreviation result := (db * reply * list effect * Z)%type.

Definition lookup_set_or (h : db) (key : bytes) (r : reply) (c : setobj → option result) : option result :=
  match h !! key with
  | None => Some (h, r, [], 0)
  | Some (VObj o) => c o
  | Some (VOther _) => Some (h, wrongtypeerr, [], 0)
  end.

Fixpoint sadd_loop (o : setobj) (ms : list bytes) (added : Z) : option (setobj * Z) :=
  match ms with
  | [] => Some (o, added)
  | m :: ms => '(o, b) ← setTypeAdd o m; sadd_loop o ms (added + b2z b)
  end.

(** [c->argv[2]] exists, by the arity of the command. *)
Definition saddCommand (h : db) (key : bytes) (ms : list bytes) : option result :=
  let add o :=
    '(o, added) ← sadd_loop o ms 0;
    Some (<[key := VObj o]> h, RInt added, if added =? 0 then [] else [Signal key; Notify "sadd" key], added) in
  match h !! key, ms with
  | None, m :: _ => o ← setTypeCreate m; add o
  | None, [] => None
  | Some (VObj o), _ => add o
  | Some (VOther _), _ => Some (h, wrongtypeerr, [], 0)
  end.

(** The set, the number of deletions, and whether the key was removed. *)
Fixpoint srem_loop (o : setobj) (ms : list bytes) (deleted : Z) : option (setobj * Z * bool) :=
  match ms with
  | [] => Some (o, deleted, false)
  | m :: ms =>
      '(o, b) ← setTypeRemove o m;
      if (b : bool) then
        n ← setTypeSize o;
        if n =? 0 then Some (o, deleted + 1, true) else srem_loop o ms (deleted + 1)
      else srem_loop o ms deleted
  end.

Definition sremCommand (h : db) (key : bytes) (ms : list bytes) : option result :=
  lookup_set_or h key (RInt 0) (λ o,
    '(o, deleted, keyremoved) ← srem_loop o ms 0;
    Some (if (keyremoved : bool) then delete key h else <[key := VObj o]> h, RInt deleted,
      if deleted =? 0 then [] else Signal key :: Notify "srem" key :: (if keyremoved then [Notify "del" key] else []), deleted)).

(** [smoveCommand] after the tests of the types. *)
Definition smove_sets (h : db) (src dst ele : bytes) (srcset : setobj) (dstset : option setobj) : option result :=
  if bool_decide (src = dst) then '(o, b) ← setTypeIsMember srcset ele; Some (<[src := VObj o]> h, RInt (b2z b), [], 0)
  else
    '(o, removed) ← setTypeRemove srcset ele;
    if negb removed then Some (<[src := VObj o]> h, RInt 0, [], 0)
    else
      n ← setTypeSize o;
      let h := if n =? 0 then delete src h else <[src := VObj o]> h in
      d ← match dstset with Some d => Some d | None => setTypeCreate ele end;
      '(d, added) ← setTypeAdd d ele;
      Some (<[dst := VObj d]> h, RInt 1,
        Notify "srem" src :: (if n =? 0 then [Notify "del" src] else []) ++ [Signal src; Signal dst] ++ (if (added : bool) then [Notify "sadd" dst] else []),
        1 + b2z added).

Definition smoveCommand (h : db) (src dst ele : bytes) : option result :=
  match h !! src, h !! dst with
  | None, _ => Some (h, RInt 0, [], 0)
  | Some (VOther _), _ | Some (VObj _), Some (VOther _) => Some (h, wrongtypeerr, [], 0)
  | Some (VObj srcset), Some (VObj dstset) => smove_sets h src dst ele srcset (Some dstset)
  | Some (VObj srcset), None => smove_sets h src dst ele srcset None
  end.

Definition sismemberCommand (h : db) (key m : bytes) : option result :=
  lookup_set_or h key (RInt 0) (λ o, '(o, b) ← setTypeIsMember o m; Some (<[key := VObj o]> h, RInt (b2z b), [], 0)).

Definition scardCommand (h : db) (key : bytes) : option result :=
  lookup_set_or h key (RInt 0) (λ o, n ← setTypeSize o; Some (h, RInt n, [], 0)).

(** ** Intersections *)

(** The object of a key that was looked up before. *)
Definition obj_of (h : db) (key : bytes) : option setobj := v ← h !! key; match v with VObj o => Some o | VOther _ => None end.

(** A set with its cardinality, as [qsort] compares them. *)
Definition with_size (h : db) (key : bytes) : option (bytes * Z) := o ← obj_of h key; n ← setTypeSize o; Some (key, n).

Definition qsortCompareSetsByCardinality (s1 s2 : bytes * Z) : Z := if s2.2 <? s1.2 then 1 else if s1.2 <? s2.2 then -1 else 0.

(** The loop over the other sets for one element of [sets[0]]; [true]: it is in all of them. *)
Fixpoint inter_test (h : db) (first : bytes) (e : bytes + Z) (others : list bytes) : option (db * bool) :=
  match others with
  | [] => Some (h, true)
  | key :: others =>
      if bool_decide (key = first) then inter_test h first e others
      else
        o ← obj_of h key;
        '(o, b) ← match e, o with
                  | inr intobj, SInt s => b ← intsetFind be s intobj; Some (o, b)
                  | inr intobj, SHt _ => t ← sdsll2str intobj; setTypeIsMember o t
                  | inl elesds, _ => setTypeIsMember o elesds
                  end;
        let h := <[key := VObj o]> h in
        if (b : bool) then inter_test h first e others else Some (h, false)
  end.

(** The loop over the elements of the first set, with the elements of the reply or the set
    that will be stored. *)
Fixpoint inter_loop (fuel : nat) (h : db) (first : bytes) (o : setobj) (si : setTypeIterator) (others : list bytes) (dstset : option setobj)
    (out : list bytes) : option (db * option setobj * list bytes) :=
  match fuel with
  | O => None
  | S fuel =>
      '(si, e) ← setTypeNext o si;
      match e with
      | None => Some (h, dstset, out)
      | Some e =>
          '(h, all) ← inter_test h first e others;
          if (all : bool) then
            t ← text e;
            match dstset with
            | None => inter_loop fuel h first o si others None (out ++ [t])
            | Some d => '(d, _) ← setTypeAdd d t; inter_loop fuel h first o si others (Some d) out
            end
          else inter_loop fuel h first o si others dstset out
      end
  end.

(** What the loop over the keys finds first: a missing key, or a value of another type. *)
Inductive found := Missing | WrongType | AllSets.

Fixpoint inter_lookup {A} (h : gmap bytes (dbval A)) (keys : list bytes) : found :=
  match keys with
  | [] => AllSets
  | key :: keys => match h !! key with None => Missing | Some (VOther _) => WrongType | Some (VObj _) => inter_lookup h keys end
  end.

(** The end of the STORE variants. *)
Definition store_result (h : db) (dstkey : bytes) (dstset : setobj) (event : string) : option result :=
  let deleted := bool_decide (is_Some (h !! dstkey)) in
  let h := delete dstkey h in
  n ← setTypeSize dstset;
  Some (if 0 <? n then (<[dstkey := VObj dstset]> h, RInt n, [Notify event dstkey; Signal dstkey], 1)
        else (h, RInt 0, (if deleted then [Notify "del" dstkey] else []) ++ [Signal dstkey], 1)).

Definition sinterGenericCommand (h : db) (setkeys : list bytes) (dstkey : option bytes) : option result :=
  match inter_lookup h setkeys with
  | Missing =>
      Some (match dstkey with
            | Some dstkey => if bool_decide (is_Some (h !! dstkey)) then (delete dstkey h, RInt 0, [Signal dstkey], 1) else (h, RInt 0, [], 0)
            | None => (h, RMultiBulk 0 [], [], 0)
            end)
  | WrongType => Some (h, wrongtypeerr, [], 0)
  | AllSets =>
      sets ← mapM (with_size h) setkeys;
      match qsort _ qsortCompareSetsByCardinality sets with
      | [] => None
      | (first, n) :: others =>
          o ← obj_of h first;
          dstset ← match dstkey with Some _ => d ← createIntsetObject; Some (Some d) | None => Some None end;
          '(h, dstset, out) ← inter_loop (S (Z.to_nat n)) h first o (setTypeInitIterator o) others.*1 dstset [];
          match dstkey, dstset with
          | Some dstkey, Some dstset => store_result h dstkey dstset "sinterstore"
          | _, _ => Some (h, RMultiBulk (zlen out) (map Some out), [], 0)
          end
      end
  end.

(** ** Unions and differences *)

(** The keys without a set are NULL; [None]: the reply is an error. *)
Fixpoint sets_lookup {A} (h : gmap bytes (dbval A)) (keys : list bytes) : option (list (option bytes)) :=
  match keys with
  | [] => Some []
  | key :: keys =>
      match h !! key with
      | None => l ← sets_lookup h keys; Some (None :: l)
      | Some (VObj _) => l ← sets_lookup h keys; Some (Some key :: l)
      | Some (VOther _) => None
      end
  end.

Definition size_of (h : db) (key : option bytes) : option Z := match key with Some key => o ← obj_of h key; setTypeSize o | None => Some 0 end.

Definition qsortCompareSetsByRevCardinality (s1 s2 : option bytes * Z) : Z := if s1.2 <? s2.2 then 1 else if s2.2 <? s1.2 then -1 else 0.

Definition incr_int (n : Z) : option Z := if n <? 2 ^ 31 - 1 then Some (n + 1) else None.

(** Every element of a set, added to or removed from [dstset]. *)
Fixpoint each_loop (fuel : nat) (o : setobj) (si : setTypeIterator) (remove : bool) (dstset : setobj) (cardinality : Z) : option (setobj * Z) :=
  match fuel with
  | O => None
  | S fuel =>
      '(si, ele) ← setTypeNextObject o si;
      match ele with
      | None => Some (dstset, cardinality)
      | Some ele =>
          if remove then
            '(dstset, b) ← setTypeRemove dstset ele;
            each_loop fuel o si remove dstset (cardinality - b2z b)
          else
            '(dstset, b) ← setTypeAdd dstset ele;
            cardinality ← (if (b : bool) then incr_int cardinality else Some cardinality);
            each_loop fuel o si remove dstset cardinality
      end
  end.

Definition each (h : db) (key : bytes) (remove : bool) (dstset : setobj) (cardinality : Z) : option (setobj * Z) :=
  o ← obj_of h key; n ← setTypeSize o; each_loop (S (Z.to_nat n)) o (setTypeInitIterator o) remove dstset cardinality.

Fixpoint union_loop (h : db) (sets : list (option bytes)) (dstset : setobj) (cardinality : Z) : option (setobj * Z) :=
  match sets with
  | [] => Some (dstset, cardinality)
  | None :: sets => union_loop h sets dstset cardinality
  | Some key :: sets => '(dstset, cardinality) ← each h key false dstset cardinality; union_loop h sets dstset cardinality
  end.

(** Algorithm 1, the loop over the other sets; [true]: no one has the element. *)
Fixpoint diff_test (h : db) (first ele : bytes) (others : list (option bytes)) : option (db * bool) :=
  match others with
  | [] => Some (h, true)
  | None :: others => diff_test h first ele others
  | Some key :: others =>
      if bool_decide (key = first) then Some (h, false)
      else
        o ← obj_of h key;
        '(o, b) ← setTypeIsMember o ele;
        let h := <[key := VObj o]> h in
        if (b : bool) then Some (h, false) else diff_test h first ele others
  end.

Fixpoint diff1_loop (fuel : nat) (h : db) (first : bytes) (o : setobj) (si : setTypeIterator) (others : list (option bytes)) (dstset : setobj)
    (cardinality : Z) : option (db * setobj * Z) :=
  match fuel with
  | O => None
  | S fuel =>
      '(si, ele) ← setTypeNextObject o si;
      match ele with
      | None => Some (h, dstset, cardinality)
      | Some ele =>
          '(h, none) ← diff_test h first ele others;
          if (none : bool) then
            '(dstset, _) ← setTypeAdd dstset ele;
            cardinality ← incr_int cardinality;
            diff1_loop fuel h first o si others dstset cardinality
          else diff1_loop fuel h first o si others dstset cardinality
      end
  end.

(** Algorithm 2; [remove] is true after the first set. *)
Fixpoint diff2_loop (h : db) (sets : list (option bytes)) (remove : bool) (dstset : setobj) (cardinality : Z) : option (setobj * Z) :=
  match sets with
  | [] => Some (dstset, cardinality)
  | None :: sets => diff2_loop h sets true dstset cardinality
  | Some key :: sets =>
      '(dstset, cardinality) ← each h key remove dstset cardinality;
      if cardinality =? 0 then Some (dstset, cardinality) else diff2_loop h sets true dstset cardinality
  end.

(** The work of the two algorithms, over the sets that exist. *)
Definition diff_algo (first : Z) (sets : list (option bytes * Z)) : Z :=
  let there := filter (λ s, s.1 ≠ None) sets in
  let algo_one_work := first * zlen there in
  let algo_two_work := foldr (λ s n, s.2 + n) 0 there in
  if Z.quot algo_one_work 2 <=? algo_two_work then 1 else 2.

(** The elements of a set, in the order of its iterator. *)
Fixpoint members_loop (fuel : nat) (o : setobj) (si : setTypeIterator) : option (list bytes) :=
  match fuel with
  | O => None
  | S fuel =>
      '(si, ele) ← setTypeNextObject o si;
      match ele with None => Some [] | Some ele => l ← members_loop fuel o si; Some (ele :: l) end
  end.

Definition members (o : setobj) : option (list bytes) := n ← setTypeSize o; members_loop (S (Z.to_nat n)) o (setTypeInitIterator o).

Definition union_diff (h : db) (sets : list (option bytes)) (op : Z) : option (db * setobj * Z) :=
  dstset ← createIntsetObject;
  if op =? SET_OP_UNION then '(d, n) ← union_loop h sets dstset 0; Some (h, d, n)
  else if op =? SET_OP_DIFF then
    match sets with
    | Some first :: others =>
        o ← obj_of h first;
        sized ← mapM (λ s, n ← size_of h s; Some (s, n)) sets;
        size0 ← setTypeSize o;
        if diff_algo size0 sized =? 1 then
          let others := (qsort _ qsortCompareSetsByRevCardinality (tail sized)).*1 in
          diff1_loop (S (Z.to_nat size0)) h first o (setTypeInitIterator o) others dstset 0
        else '(d, n) ← diff2_loop h sets false dstset 0; Some (h, d, n)
    | _ => Some (h, dstset, 0)
    end
  else Some (h, dstset, 0).

Definition sunionDiffGenericCommand (h : db) (setkeys : list bytes) (dstkey : option bytes) (op : Z) : option result :=
  match sets_lookup h setkeys with
  | None => Some (h, wrongtypeerr, [], 0)
  | Some sets =>
      '(h, dstset, cardinality) ← union_diff h sets op;
      match dstkey with
      | None => l ← members dstset; Some (h, RMultiBulk cardinality (map Some l), [], 0)
      | Some dstkey => store_result h dstkey dstset (if op =? SET_OP_UNION then "sunionstore" else "sdiffstore")
      end
  end.

Definition run_scmd (h : db) (cmd : scmd) : option result :=
  match cmd with
  | SAdd key ms => saddCommand h key ms
  | SRem key ms => sremCommand h key ms
  | SMove src dst m => smoveCommand h src dst m
  | SIsMember key m => sismemberCommand h key m
  | SCard key => scardCommand h key
  | SInter keys dstkey => sinterGenericCommand h keys dstkey
  | SUnionDiff keys dstkey op => sunionDiffGenericCommand h keys dstkey op
  end.

End Set_.
