(* ===== verification/SetSpec.v ===== *)
(** The set type as a finite set of strings: the functions of t_set.c in both encodings, and the
    refinement theorem for the commands on the keys of a database. *)

From stdpp Require Import list numbers strings gmap.
From S2P Require Import Prelude Util SdsText Intset Dict Object DictIter SetType DbRel.

Abbreviation sset := (gset bytes).

(** An element as the iterators give it, and its text. *)
Definition txt (e : bytes + Z) : bytes := match e with inl s => s | inr z => of_int z end.
Definition elem_ok (e : bytes + Z) : Prop := match e with inl _ => True | inr z => in_s 64 z end.

Lemma text_txt e : elem_ok e → text e = Some (txt e).
Proof. destruct e as [s|z]; [done|]. intros Hz. by apply of_int_eq. Qed.

(** The strings of a set of integers. *)
Definition strings_of (Zs : gset Z) : sset := list_to_set (of_int <$> elements Zs).

Definition ints_ok (Zs : gset Z) : Prop := ∀ z, z ∈ Zs → in_s 64 z.

Lemma strings_NoDup l : NoDup l → (∀ z, z ∈ l → in_s 64 z) → NoDup (of_int <$> l).
Proof. intros Hnd Hl. apply NoDup_fmap_2_strong; [|done]. intros z z' Hz Hz'. apply of_int_inj; by apply Hl. Qed.

Lemma strings_size Zs : ints_ok Zs → size (strings_of Zs) = size Zs.
Proof.
  intros Hok. unfold strings_of. rewrite size_list_to_set; [by rewrite length_fmap|]. apply strings_NoDup; [apply NoDup_elements|].
  intros z Hz. apply Hok. by apply elem_of_elements.
Qed.

Lemma elem_of_strings Zs m : ints_ok Zs → m ∈ strings_of Zs ↔ ∃ z, to_int m = Some z ∧ z ∈ Zs.
Proof.
  intros Hok. unfold strings_of. rewrite elem_of_list_to_set, list_elem_of_fmap. setoid_rewrite elem_of_elements. split.
  - intros (z & -> & Hz). exists z. split; [|done]. by apply to_of_int, Hok.
  - intros (z & Hz & Hin). exists z. split; [|done]. by apply of_to_int in Hz as [-> _].
Qed.

Lemma strings_add Zs m z : ints_ok Zs → to_int m = Some z → ints_ok ({[z]} ∪ Zs) ∧ strings_of ({[z]} ∪ Zs) = {[m]} ∪ strings_of Zs.
Proof.
  intros Hok Hm. apply of_to_int in Hm as [-> Hz]. assert (ints_ok ({[z]} ∪ Zs)) as Hok' by (intros x; set_solver). split; [done|].
  apply set_eq. intros x. rewrite elem_of_union, elem_of_singleton, !elem_of_strings by done. split.
  - intros (y & Hy & Hin). apply of_to_int in Hy as Hx. destruct Hx as [-> _]. set_solver.
  - intros [-> |(y & Hy & Hin)]; [exists z; split; [by apply to_of_int|set_solver]|exists y; set_solver].
Qed.

Lemma strings_del Zs m z : ints_ok Zs → to_int m = Some z → ints_ok (Zs ∖ {[z]}) ∧ strings_of (Zs ∖ {[z]}) = strings_of Zs ∖ {[m]}.
Proof.
  intros Hok Hm. apply of_to_int in Hm as [-> Hz]. assert (ints_ok (Zs ∖ {[z]})) as Hok' by (intros x; set_solver). split; [done|].
  apply set_eq. intros x. rewrite elem_of_difference, elem_of_singleton, !elem_of_strings by done. split.
  - intros (y & Hy & Hin). split; [exists y; set_solver|]. intros ->. rewrite to_of_int in Hy by done. injection Hy as <-. set_solver.
  - intros [(y & Hy & Hin) Hne]. exists y. split; [done|]. apply elem_of_difference. split; [done|]. intros ->%elem_of_singleton.
    apply of_to_int in Hy as [-> _]. done.
Qed.

Lemma fmap_drop_head {A B} (f : A → B) (l : list A) n : head (f <$> drop n l) = f <$> l !! n ∧ tail (f <$> drop n l) = f <$> drop (S n) l.
Proof. revert n. induction l as [|x l IH]; intros [|n]; [done..|apply (IH n)]. Qed.

Section Spec.

Context (be : bool) (ty : dictType bytes) `{!DictTypeOk ty} (cr : bool).

(** The largest intset. *)
Context (limit : Z).

Implicit Types (o : setobj) (X : sset) (d : dict bytes ()).

Definition srep o X : Prop :=
  match o with
  | SInt s => ∃ Zs, intset_rep be s Zs ∧ ints_ok Zs ∧ strings_of Zs = X ∧ Z.of_nat (size Zs) ≤ limit
  | SHt d => dict_inv ty d ∧ dom (dict_map d) = X
  end.

Lemma size_spec o X : srep o X → setTypeSize be o = Some (Z.of_nat (size X)).
Proof.
  destruct o as [s|d].
  - intros (Zs & Hr & Hok & <- & _). cbn [setTypeSize]. by rewrite (intsetLen_correct be s Zs Hr), strings_size.
  - intros [Hd <-]. cbn [setTypeSize]. by rewrite (dictSize_map ty d Hd), size_dom.
Qed.

Lemma create_int_spec : 0 ≤ limit → ∃ o, createIntsetObject be = Some o ∧ srep o ∅.
Proof.
  intros Hl. unfold createIntsetObject. destruct (intsetNew_correct be) as (s & -> & Hr). exists (SInt s). split; [done|]. exists ∅. split_and!; [done|by intros x|done|done].
Qed.

Lemma create_set_spec m : 0 ≤ limit → ∃ o, setTypeCreate be m = Some o ∧ srep o ∅.
Proof.
  intros Hl. unfold setTypeCreate, isSdsRepresentableAsLongLong. rewrite to_int_eq. cbn [mbind option_bind]. destruct (to_int m); [by apply create_int_spec|].
  eexists. split; [done|]. split; [by apply dictCreate_inv|]. apply dom_empty_L.
Qed.

Lemma is_member_spec o X m :
  limit ≤ max_entries → srep o X → ∃ o', setTypeIsMember be ty o m = Some (o', bool_decide (m ∈ X)) ∧ srep o' X.
Proof.
  intros Hl Ho. destruct o as [s|d]; cbn [setTypeIsMember].
  - pose proof Ho as (Zs & Hr & Hok & <- & Hsz). unfold isSdsRepresentableAsLongLong. rewrite to_int_eq. cbn [mbind option_bind]. exists (SInt s). split; [|done].
    destruct (to_int m) as [z|] eqn:Em.
    + rewrite (intsetFind_correct be s Zs z Hr) by (lia || by apply to_int_spec in Em as [_ ?]). cbn [mbind option_bind]. do 2 f_equal. apply bool_decide_ext.
      rewrite elem_of_strings by done. split; [by exists z|]. intros (z' & Hz' & Hin). congruence.
    + do 2 f_equal. symmetry. apply bool_decide_eq_false. rewrite elem_of_strings by done. intros (z & Hz & _). congruence.
  - destruct Ho as [Hd <-]. destruct (dictFind_spec ty d m Hd) as (d' & -> & Hd' & Hm & _). cbn [mbind option_bind]. exists (SHt d'). split.
    + do 2 f_equal. rewrite (bool_decide_ext _ (is_Some (dict_map d !! m))) by apply elem_of_dom. by destruct (dict_map d !! m).
    + split; [done|]. by rewrite Hm.
Qed.

(** ** Iterators *)

Definition si_rep o (si : setTypeIterator) (rest : list (bytes + Z)) : Prop :=
  match o, si with
  | SInt s, SiInt ii => ∃ Zs, intset_rep be s Zs ∧ Z.of_nat (size Zs) ≤ limit ∧ 0 ≤ ii ∧ rest = inr <$> drop (Z.to_nat ii) (ascending Zs)
  | SHt d, SiHt di => dict_shape ty d ∧ it_ok di ∧ rest = (λ e, inl e.1) <$> ahead d di
  | _, _ => False
  end.

Lemma set_next_spec o si rest :
  limit ≤ max_entries → si_rep o si rest → ∃ si', setTypeNext be o si = Some (si', head rest) ∧ si_rep o si' (tail rest).
Proof.
  intros Hl. destruct o as [s|d], si as [ii|di]; try done; cbn [setTypeNext].
  - intros (Zs & Hr & Hsz & Hi & ->). rewrite (intsetGet_correct be s Zs ii Hr Hi) by lia. cbn [mbind option_bind].
    destruct (fmap_drop_head (inr (A := bytes)) (ascending Zs) (Z.to_nat ii)) as [Hh Ht]. rewrite Hh, Ht. eexists. split; [done|].
    exists Zs. split_and!; [done|done|lia|]. by replace (Z.to_nat (ii + 1)) with (S (Z.to_nat ii)) by lia.
  - intros (Hs & Hi & ->). destruct (dictNext_spec ty d di Hs Hi) as (di' & -> & Hi' & Ha). cbn [mbind option_bind]. eexists. split; [by destruct (ahead d di)|].
    split; [done|]. split; [done|]. rewrite Ha. by destruct (ahead d di).
Qed.

Lemma set_init_spec o X :
  srep o X → ∃ es, si_rep o (setTypeInitIterator o) es ∧ NoDup (txt <$> es) ∧ list_to_set (txt <$> es) = X ∧ Forall elem_ok es.
Proof.
  destruct o as [s|d]; cbn [setTypeInitIterator].
  - intros (Zs & Hr & Hok & <- & Hsz). exists (inr <$> ascending Zs). split; [by exists Zs|]. rewrite <-list_fmap_compose. change (txt ∘ inr) with of_int.
    assert (ascending Zs ≡ₚ elements Zs) as Hp by apply merge_sort_Permutation. split; [|split].
    + rewrite Hp. apply strings_NoDup; [apply NoDup_elements|]. intros z Hz. apply Hok. by apply elem_of_elements.
    + unfold strings_of. apply set_eq. intros x. rewrite !elem_of_list_to_set. by rewrite Hp.
    + apply Forall_fmap, Forall_forall. intros z Hz. rewrite Hp in Hz. apply Hok. by apply elem_of_elements.
  - intros [[Hs Hnd] <-]. destruct (ahead_start ty d) as [Ha Hi]. exists ((λ e, inl e.1) <$> entries d). split; [split; [done|split; [by apply Hi|by rewrite Ha]]|].
    rewrite <-list_fmap_compose. change (txt ∘ (λ e : bytes * (), inl e.1)) with (fst (A := bytes) (B := ())). split; [done|]. split.
    + unfold dict_map. by rewrite dom_list_to_map_L.
    + by apply Forall_fmap, Forall_forall.
Qed.

Lemma set_next_object o si rest :
  limit ≤ max_entries → si_rep o si rest → Forall elem_ok rest →
  ∃ si', setTypeNextObject be o si = Some (si', txt <$> head rest) ∧ si_rep o si' (tail rest).
Proof.
  intros Hl Hs Hok. unfold setTypeNextObject. destruct (set_next_spec o si rest Hl Hs) as (si' & -> & Hs'). cbn [mbind option_bind]. exists si'. split; [|done].
  destruct Hok as [|e es He]; [done|]. cbn [head]. by rewrite text_txt.
Qed.

Lemma members_loop_spec o es : ∀ fuel si,
  limit ≤ max_entries → si_rep o si es → Forall elem_ok es → (length es < fuel)%nat → members_loop be fuel o si = Some (txt <$> es).
Proof.
  induction es as [|e es IH]; intros fuel si Hl Hs Hok Hf; (destruct fuel as [|fuel]; [simpl in Hf; lia|]); cbn [members_loop];
    destruct (set_next_object o si _ Hl Hs Hok) as (si' & -> & Hs'); cbn [mbind option_bind head fmap option_fmap option_map]; [done|].
  inversion Hok; subst. rewrite (IH fuel si') by (done || (simpl in Hf; lia)). done.
Qed.

Lemma members_spec o X : limit ≤ max_entries → srep o X → ∃ l, members be o = Some l ∧ l ≡ₚ elements X.
Proof.
  intros Hl Ho. unfold members. rewrite (size_spec o X Ho). cbn [mbind option_bind]. destruct (set_init_spec o X Ho) as (es & Hs & Hnd & Hes & Hok).
  exists (txt <$> es). split.
  - apply members_loop_spec; [done..|]. rewrite <-Hes, size_list_to_set, length_fmap by done. lia.
  - rewrite <-Hes. by rewrite elements_list_to_set.
Qed.

(** ** Conversion *)

Lemma set_convert_loop_spec s zs : ∀ fuel si d,
  limit ≤ max_entries → si_rep (SInt s) si (inr <$> zs) → Forall (in_s 64) zs → (length zs < fuel)%nat → dict_inv ty d → NoDup (of_int <$> zs) →
  (∀ x, x ∈ of_int <$> zs → x ∉ dom (dict_map d)) → Z.of_nat (size (dict_map d)) + zlen zs < 2 ^ 62 →
  ∃ d', setTypeConvert_loop be ty cr fuel (SInt s) si d = Some d' ∧ dict_inv ty d' ∧ dom (dict_map d') = list_to_set (of_int <$> zs) ∪ dom (dict_map d).
Proof.
  induction zs as [|z zs IH]; intros fuel si d Hl Hs Hok Hf Hd Hnd Hdis Hsz; (destruct fuel as [|fuel]; [simpl in Hf; lia|]); cbn [setTypeConvert_loop];
    destruct (set_next_spec _ si _ Hl Hs) as (si' & -> & Hs'); cbn [mbind option_bind fmap list_fmap head].
  - exists d. split; [done|]. split; [done|]. set_solver.
  - inversion Hok; subst. destruct (of_int_eq z) as [-> _]; [done|]. cbn [mbind option_bind]. rewrite fmap_cons in Hnd, Hdis. apply NoDup_cons in Hnd as [Hni Hnd].
    assert (dict_map d !! of_int z = None) as Hnone by (apply not_elem_of_dom, Hdis; left). unfold dictAdd.
    destruct (dictAddRaw_spec ty cr d (of_int z) () Hd) as (d' & r & -> & Hd' & _ & Hr); [apply (size_small ty d Hd); lia|]. rewrite Hnone in Hr. destruct Hr as [-> Hm].
    cbn [mbind option_bind]. destruct (IH fuel si' d') as (d2 & -> & Hd2 & Hm2); [done|done|done|simpl in Hf; lia|done|done| | |].
    + intros x Hx. rewrite Hm, dom_insert_L, not_elem_of_union, not_elem_of_singleton. split; [by intros ->|]. apply Hdis. by right.
    + rewrite Hm, map_size_insert_None by done. cbn [length] in Hsz. lia.
    + exists d2. split; [done|]. split; [done|]. rewrite Hm2, Hm, dom_insert_L. cbn [list_to_set]. set_solver.
Qed.

Lemma set_convert_spec s X : limit ≤ max_entries → srep (SInt s) X → ∃ d, setTypeConvert be ty cr (SInt s) = Some (SHt d) ∧ dict_inv ty d ∧ dom (dict_map d) = X.
Proof.
  intros Hl Ho. pose proof Ho as (Zs & Hr & Hok & <- & Hsz). unfold setTypeConvert. rewrite (intsetLen_correct be s Zs Hr). cbn [mbind option_bind].
  destruct (dictExpand_op ty (dictCreate (K:=bytes) (V:=())) (Z.of_nat (size Zs))) as (d0 & st & -> & Hd0 & Hm0); [by apply dictCreate_inv|unfold max_entries in *; lia|].
  cbn [mbind option_bind]. assert (ascending Zs ≡ₚ elements Zs) as Hp by apply merge_sort_Permutation.
  assert (dict_map d0 = ∅) as He by by rewrite Hm0.
  destruct (set_convert_loop_spec s (ascending Zs) (S (Z.to_nat (Z.of_nat (size Zs)))) (SiInt 0) d0) as (d & Hc & Hd & Hm).
  - done.
  - by exists Zs.
  - apply Forall_forall. intros z Hz. rewrite Hp in Hz. apply Hok. by apply elem_of_elements.
  - rewrite Hp. change (length (elements Zs)) with (size Zs). lia.
  - done.
  - rewrite Hp. apply strings_NoDup; [apply NoDup_elements|]. intros z Hz. apply Hok. by apply elem_of_elements.
  - rewrite He. set_solver.
  - rewrite He, map_size_empty, Hp. change (length (elements Zs)) with (size Zs). unfold max_entries in *. lia.
  - cbn [setTypeInitIterator]. rewrite Hc. cbn [mbind option_bind]. exists d. split; [done|]. split; [done|]. rewrite Hm, He, dom_empty_L, (right_id_L ∅ (∪)).
    unfold strings_of. apply set_eq. intros x. rewrite !elem_of_list_to_set. by rewrite Hp.
Qed.

End Spec.

(** ** Additions and removals *)

Section Update.

Context (be : bool) (junk : nat → Z) (ty : dictType bytes) `{!DictTypeOk ty} (cr : bool).
Context (max : Z) (max_range : 0 ≤ max < 2 ^ 29 - 1).

Implicit Types (o : setobj) (X D : sset).

Abbreviation srep := (srep be ty max).

Lemma limit_max : max ≤ max_entries.
Proof. unfold max_entries. lia. Qed.

(** The dictionary of a set that grows by an element. *)
Lemma dict_add_spec (d : dict bytes ()) m :
  dict_inv ty d → Z.of_nat (size (dict_map d)) < 2 ^ 62 →
  ∃ (d' : dict bytes ()) r, dictAddRaw ty cr d m () = Some (d', r) ∧ dict_inv ty d' ∧ dom (dict_map d') = {[m]} ∪ dom (dict_map d) ∧
    (match r with Added => true | NotAdded _ => false end) = bool_decide (m ∉ dom (dict_map d)).
Proof.
  intros Hd Hsz. destruct (dictAddRaw_spec ty cr d m () Hd) as (d' & r & -> & Hd' & _ & Hr); [by apply (size_small ty d Hd)|]. exists d', r.
  split; [done|]. split; [done|]. destruct (dict_map d !! m) as [[]|] eqn:Em.
  - destruct Hr as (pos & -> & _ & ->). assert (m ∈ dom (dict_map d)) by by apply elem_of_dom_2 in Em. split; [set_solver|]. symmetry. apply bool_decide_eq_false. set_solver.
  - destruct Hr as (-> & ->). rewrite dom_insert_L. split; [done|]. symmetry. apply bool_decide_eq_true. by apply not_elem_of_dom.
Qed.

Lemma add_spec o X m :
  srep o X → Z.of_nat (size X) < 2 ^ 62 →
  ∃ o', setTypeAdd be junk ty max cr o m = Some (o', bool_decide (m ∉ X)) ∧ srep o' ({[m]} ∪ X).
Proof.
  intros Ho Hsz. pose proof limit_max as Hl. destruct o as [s|d]; cbn [setTypeAdd].
  - pose proof Ho as (Zs & Hr & Hok & <- & Hle). unfold isSdsRepresentableAsLongLong. rewrite to_int_eq. cbn [mbind option_bind]. destruct (to_int m) as [z|] eqn:Em.
    + destruct (intsetAdd_correct be junk s Zs z Hr) as (s' & -> & Hr'); [by apply to_int_spec in Em as [_ ?]|unfold max_entries; lia|]. cbn [mbind option_bind].
      destruct (strings_add Zs m z Hok Em) as [Hok' Hx]. assert (bool_decide (z ∉ Zs) = bool_decide (m ∉ strings_of Zs)) as Hb.
      { apply bool_decide_ext. rewrite elem_of_strings by done. split; [intros Hz (z' & ? & ?); congruence|intros Hz ?; apply Hz; by exists z]. }
      rewrite Hb. destruct (bool_decide (m ∉ strings_of Zs)) eqn:Hm.
      * rewrite (intsetLen_correct be s' _ Hr'). cbn [mbind option_bind]. assert (Z.of_nat (size ({[z]} ∪ Zs)) ≤ max + 1) as Hle'.
        { rewrite size_union_alt, size_singleton. assert (size ((Zs : gset Z) ∖ {[z]}) ≤ size Zs)%nat by (apply subseteq_size; set_solver). lia. }
        destruct (Z.ltb_spec max (Z.of_nat (size ({[z]} ∪ Zs)))) as [Hgt|Hlt].
        -- destruct (set_convert_spec be ty cr (max + 1) s' ({[m]} ∪ strings_of Zs)) as (d & -> & Hd); [unfold max_entries; lia|by exists ({[z]} ∪ Zs)|].
           by exists (SHt d).
        -- exists (SInt s'). split; [done|]. by exists ({[z]} ∪ Zs).
      * exists (SInt s'). split; [done|]. assert (z ∈ Zs) as Hz by (apply bool_decide_eq_false in Hb; by apply dec_stable).
        exists ({[z]} ∪ Zs). split_and!; [done|done|done|]. by replace ({[z]} ∪ Zs) with Zs by set_solver.
    + destruct (set_convert_spec be ty cr max s _ Hl Ho) as (d & -> & Hd & Hm). cbn [mbind option_bind]. unfold dictAdd.
      destruct (dict_add_spec d m Hd) as (d' & r & -> & Hd' & Hm' & Hb); [rewrite <-size_dom, Hm; done|]. cbn [mbind option_bind]. rewrite Hm in *.
      assert (m ∉ strings_of Zs) as Hni by (rewrite elem_of_strings by done; intros (z & ? & _); congruence). rewrite bool_decide_eq_true_2 in * by done.
      destruct r; [|done]. exists (SHt d'). split; [done|]. by split.
  - destruct Ho as [Hd <-]. destruct (dict_add_spec d m Hd) as (d' & r & -> & Hd' & Hm' & Hb); [by rewrite <-size_dom|]. cbn [mbind option_bind]. rewrite Hb.
    exists (SHt d'). split; [done|]. by split.
Qed.

Lemma remove_spec o X m :
  srep o X → Z.of_nat (size X) < 2 ^ 62 →
  ∃ o', setTypeRemove be junk ty cr o m = Some (o', bool_decide (m ∈ X)) ∧ srep o' (X ∖ {[m]}).
Proof.
  intros Ho Hsz. pose proof limit_max as Hl. destruct o as [s|d]; cbn [setTypeRemove].
  - pose proof Ho as (Zs & Hr & Hok & <- & Hle). unfold isSdsRepresentableAsLongLong. rewrite to_int_eq. cbn [mbind option_bind]. destruct (to_int m) as [z|] eqn:Em.
    + destruct (intsetRemove_correct be junk s Zs z Hr) as (s' & -> & Hr'); [by apply to_int_spec in Em as [_ ?]|lia|]. cbn [mbind option_bind].
      destruct (strings_del Zs m z Hok Em) as [Hok' Hx]. exists (SInt s'). split.
      * do 2 f_equal. apply bool_decide_ext. rewrite elem_of_strings by done. split; [by exists z|intros (z' & ? & ?); congruence].
      * exists (Zs ∖ {[z]}). split_and!; [done|done|done|]. assert (size ((Zs : gset Z) ∖ {[z]}) ≤ size Zs)%nat by (apply subseteq_size; set_solver). lia.
    + assert (m ∉ strings_of Zs) as Hni by (rewrite elem_of_strings by done; intros (z & ? & _); congruence). exists (SInt s).
      rewrite bool_decide_eq_false_2 by done. split; [done|]. by replace (strings_of Zs ∖ {[m]}) with (strings_of Zs) by set_solver.
  - destruct Ho as [Hd <-]. rewrite size_dom in Hsz. destruct (delete_resize_spec ty cr d m Hd Hsz) as (d1 & st & -> & Hd1 & Hm1 & -> & d2 & He & Hd2 & Hm2). cbn [mbind option_bind].
    rewrite (bool_decide_ext _ (is_Some (dict_map d !! m))) by apply elem_of_dom. rewrite <-dom_delete_L, <-Hm1. destruct (decide _) as [Hs|Hs].
    + rewrite He. exists (SHt d2). rewrite bool_decide_eq_true_2 by done. split; [done|]. split; [done|]. by rewrite Hm2.
    + exists (SHt d1). rewrite bool_decide_eq_false_2 by done. split; [done|]. by split.
Qed.

(** ** Commands on sets *)

Abbreviation adb := (gmap bytes (dbval sset)).
Abbreviation db := (gmap bytes (dbval setobj)).

Definition set_of (a : adb) (key : bytes) : sset := match a !! key with Some (VObj X) => X | _ => ∅ end.

(** The reply, or the elements of a set in any order. *)
Inductive sreply := SExact (r : reply) | SMembers (X : sset).

Abbreviation aresult := (adb * sreply * list effect * Z)%type.

Definition sreply_ok (x : sreply) (r : reply) : Prop :=
  match x with
  | SExact r' => r = r'
  | SMembers X => ∃ l, l ≡ₚ elements X ∧ r = RMultiBulk (Z.of_nat (size X)) (map Some l)
  end.

Definition small_set (X : sset) : Prop := Z.of_nat (size X) < 2 ^ 62.

Definition a_store (a : adb) (dstkey : bytes) (X : sset) (event : string) : aresult :=
  if decide (X = ∅) then
    (delete dstkey a, SExact (RInt 0), (if decide (is_Some (a !! dstkey)) then [Notify "del" dstkey] else []) ++ [Signal dstkey], 1)
  else (<[dstkey := VObj X]> a, SExact (RInt (Z.of_nat (size X))), [Notify event dstkey; Signal dstkey], 1).

Definition a_output (a : adb) (dstkey : option bytes) (X : sset) (event : string) : aresult :=
  match dstkey with Some dstkey => a_store a dstkey X event | None => (a, SMembers X, [], 0) end.

Definition inter_of (a : adb) (keys : list bytes) : sset :=
  match keys with [] => ∅ | key :: keys => filter (λ t, Forall (λ k, t ∈ set_of a k) keys) (set_of a key) end.

Definition union_of (a : adb) (keys : list bytes) : sset := ⋃ (set_of a <$> keys).

Definition put_set (a : adb) (key : bytes) (X : sset) : adb := if decide (X = ∅) then delete key a else <[key := VObj X]> a.

Definition a_add (a : adb) (key : bytes) (X X' : sset) : aresult :=
  let added := Z.of_nat (size X') - Z.of_nat (size X) in
  (<[key := VObj X']> a, SExact (RInt added), if added =? 0 then [] else [Signal key; Notify "sadd" key], added).

Definition a_smove (a : adb) (src dst m : bytes) (X Y : sset) : option aresult :=
  if decide (src = dst ∨ m ∉ X) then Some (a, SExact (RInt (b2z (bool_decide (m ∈ X)))), [], 0)
  else if decide (small_set ({[m]} ∪ Y)) then
    Some (<[dst := VObj ({[m]} ∪ Y)]> (put_set a src (X ∖ {[m]})), SExact (RInt 1),
      Notify "srem" src :: (if decide (X ∖ {[m]} = ∅) then [Notify "del" src] else []) ++ [Signal src; Signal dst] ++
        (if bool_decide (m ∉ Y) then [Notify "sadd" dst] else []),
      1 + b2z (bool_decide (m ∉ Y)))
  else None.

(** [None]: the caller breaks a rule, that is, passes no argument where the arity of the
    command asks for one, makes a set of 2^62 elements, or asks for the union or the difference
    of sets that have 2^31 elements together. *)
Definition a_scmd (a : adb) (cmd : scmd) : option aresult :=
  let on_set key (c : sset → option aresult) :=
    match a !! key with Some (VOther _) => Some (a, SExact wrongtypeerr, [], 0) | _ => c (set_of a key) end in
  match cmd with
  | SAdd key ms =>
      on_set key (λ X, if decide (ms ≠ [] ∧ small_set (list_to_set ms ∪ X)) then Some (a_add a key X (list_to_set ms ∪ X)) else None)
  | SRem key ms =>
      on_set key (λ X,
        let X' := X ∖ list_to_set ms in
        let deleted := Z.of_nat (size X) - Z.of_nat (size X') in
        Some (put_set a key X', SExact (RInt deleted),
          if deleted =? 0 then [] else Signal key :: Notify "srem" key :: (if decide (X' = ∅) then [Notify "del" key] else []), deleted))
  | SMove src dst m =>
      match a !! src, a !! dst with
      | None, _ => Some (a, SExact (RInt 0), [], 0)
      | Some (VOther _), _ | Some (VObj _), Some (VOther _) => Some (a, SExact wrongtypeerr, [], 0)
      | Some (VObj X), _ => a_smove a src dst m X (set_of a dst)
      end
  | SIsMember key m => on_set key (λ X, Some (a, SExact (RInt (b2z (bool_decide (m ∈ X)))), [], 0))
  | SCard key => on_set key (λ X, Some (a, SExact (RInt (Z.of_nat (size X))), [], 0))
  | SInter keys dstkey =>
      match inter_lookup a keys, keys with
      | _, [] => None
      | WrongType, _ => Some (a, SExact wrongtypeerr, [], 0)
      | Missing, _ =>
          Some (match dstkey with
                | Some dst => (delete dst a, SExact (RInt 0), if decide (is_Some (a !! dst)) then [Signal dst] else [], if decide (is_Some (a !! dst)) then 1 else 0)
                | None => (a, SMembers ∅, [], 0)
                end)
      | AllSets, _ => Some (a_output a dstkey (inter_of a keys) "sinterstore")
      end
  | SUnionDiff keys dstkey op =>
      match sets_lookup a keys with
      | None => Some (a, SExact wrongtypeerr, [], 0)
      | Some _ =>
          let X := if op =? SET_OP_UNION then union_of a keys else if op =? SET_OP_DIFF then set_of a (hd [] keys) ∖ union_of a (tail keys) else ∅ in
          if decide (keys ≠ [] ∧ Z.of_nat (size (union_of a keys)) < 2 ^ 31) then
            Some (a_output a dstkey X (if op =? SET_OP_UNION then "sunionstore" else "sdiffstore"))
          else None
      end
  end.

(** ** The database *)

Definition set_ok (o : setobj) (X : sset) : Prop := srep o X ∧ X ≠ ∅ ∧ small_set X.

Definition drep : db → adb → Prop := db_rel set_ok.

Lemma drep_touch h a k o X : drep h a → a !! k = Some (VObj X) → srep o X → drep (<[k := VObj o]> h) a.
Proof.
  intros Hh Ha Ho j. destruct (decide (k = j)) as [<-|Hne]; [|rewrite lookup_insert_ne by done; apply Hh]. rewrite lookup_insert_eq, Ha. constructor.
  destruct (db_rel_cases set_ok h a k Hh) as [[_ Hn]|[(o' & X' & _ & Hx & _ & Hne & Hs)|(x & _ & Hx)]]; [congruence| |congruence].
  rewrite Ha in Hx. injection Hx as <-. by split.
Qed.

Lemma drep_put h a k o X : drep h a → srep o X → small_set X → drep (if Z.of_nat (size X) =? 0 then delete k h else <[k := VObj o]> h) (put_set a k X).
Proof.
  intros Hh Ho Hs. unfold put_set. destruct (decide (X = ∅)) as [->|Hne].
  - rewrite size_empty. by apply db_rel_delete.
  - destruct (Z.eqb_spec (Z.of_nat (size X)) 0) as [Hz|Hz]; [exfalso; apply Hne, leibniz_equiv, size_empty_iff; lia|]. by apply db_rel_insert.
Qed.

Lemma drep_obj h a k X : drep h a → a !! k = Some (VObj X) → ∃ o, h !! k = Some (VObj o) ∧ obj_of h k = Some o ∧ srep o X ∧ X ≠ ∅ ∧ small_set X.
Proof.
  intros Hh Ha. destruct (db_rel_cases set_ok h a k Hh) as [[_ Hn]|[(o & X' & Ho & Hx & Hr)|(x & _ & Hx)]]; [congruence| |congruence].
  rewrite Ha in Hx. injection Hx as <-. exists o. split; [done|]. split; [|done]. unfold obj_of. by rewrite Ho.
Qed.

Lemma inter_lookup_eq h a keys : drep h a → inter_lookup h keys = inter_lookup a keys.
Proof.
  intros Hh. induction keys as [|k keys IH]; [done|]. cbn [inter_lookup].
  destruct (db_rel_cases set_ok h a k Hh) as [[-> ->]|[(o & X & -> & -> & _)|(x & -> & ->)]]; done.
Qed.

Lemma sets_lookup_eq h a keys : drep h a → sets_lookup h keys = sets_lookup a keys.
Proof.
  intros Hh. induction keys as [|k keys IH]; [done|]. cbn [sets_lookup].
  destruct (db_rel_cases set_ok h a k Hh) as [[-> ->]|[(o & X & -> & -> & _)|(x & -> & ->)]]; by rewrite ?IH.
Qed.

Definition sres_ok (r : db * reply * list effect * Z) (x : aresult) : Prop :=
  let '(h, y, ev, n) := r in let '(a, x, ev', n') := x in drep h a ∧ sreply_ok x y ∧ ev = ev' ∧ n = n'.

Lemma subset_size X D : X ⊆ D → Z.of_nat (size X) ≤ Z.of_nat (size D).
Proof. intros Hs. apply inj_le. by apply subseteq_size. Qed.

Lemma empty_diff X : (∅ : sset) ∖ X = ∅.
Proof. set_solver. Qed.

Lemma size_add m X : Z.of_nat (size ({[m]} ∪ X)) = Z.of_nat (size X) + b2z (bool_decide (m ∉ X)).
Proof.
  case_bool_decide as Hm; cbn [b2z].
  - rewrite size_union by set_solver. rewrite size_singleton. lia.
  - replace ({[m]} ∪ X) with X by set_solver. lia.
Qed.

Lemma size_del m X : Z.of_nat (size X) = Z.of_nat (size (X ∖ {[m]})) + b2z (bool_decide (m ∈ X)).
Proof.
  case_bool_decide as Hm; cbn [b2z].
  - assert (X = {[m]} ∪ X ∖ {[m]}) as E by (apply set_eq; intros x; destruct (decide (x = m)); set_solver). rewrite E at 1. rewrite size_union by set_solver. rewrite size_singleton. lia.
  - replace (X ∖ {[m]}) with X by set_solver. lia.
Qed.

Lemma sadd_loop_spec ms : ∀ o X added,
  srep o X → small_set (list_to_set ms ∪ X) →
  ∃ o', sadd_loop be junk ty max cr o ms added = Some (o', added + (Z.of_nat (size (list_to_set ms ∪ X)) - Z.of_nat (size X))) ∧ srep o' (list_to_set ms ∪ X).
Proof.
  induction ms as [|m ms IH]; intros o X added Ho Hs; cbn [sadd_loop list_to_set] in *.
  - exists o. rewrite (left_id_L ∅ (∪)). split; [do 2 f_equal; lia|done].
  - unfold small_set in *. assert (Z.of_nat (size X) ≤ Z.of_nat (size (({[m]} ∪ list_to_set ms) ∪ X))) by (apply subset_size; set_solver).
    destruct (add_spec o X m Ho) as (o1 & -> & Ho1); [lia|]. cbn [mbind option_bind].
    assert (({[m]} ∪ list_to_set ms) ∪ X = list_to_set ms ∪ ({[m]} ∪ X)) as E by set_solver. rewrite E in *.
    destruct (IH o1 ({[m]} ∪ X) (added + b2z (bool_decide (m ∉ X))) Ho1 Hs) as (o2 & -> & Ho2). exists o2. split; [|done]. do 2 f_equal. rewrite (size_add m X). lia.
Qed.

Lemma sadd_end h a key o X ms :
  drep h a → srep o X → ms ≠ [] → small_set (list_to_set ms ∪ X) →
  ∃ r, ('(o, added) ← sadd_loop be junk ty max cr o ms 0;
        Some (<[key := VObj o]> h, RInt added, if added =? 0 then [] else [Signal key; Notify "sadd" key], added)) = Some r ∧ sres_ok r (a_add a key X (list_to_set ms ∪ X)).
Proof.
  intros Hh Ho Hne Hs. destruct (sadd_loop_spec ms o X 0 Ho Hs) as (o' & -> & Ho'). cbn [mbind option_bind]. rewrite Z.add_0_l. eexists. split; [done|]. split; [|done].
  apply db_rel_insert; [done|]. split; [done|]. split; [|done]. destruct ms as [|m ms]; [done|]. cbn [list_to_set]. set_solver.
Qed.

Lemma sadd_refines h a key ms ra :
  drep h a → a_scmd a (SAdd key ms) = Some ra → ∃ r, saddCommand be junk ty max cr h key ms = Some r ∧ sres_ok r ra.
Proof.
  intros Hh Ha. cbn [a_scmd] in Ha. unfold saddCommand. unfold set_of in Ha.
  destruct (db_rel_cases set_ok h a key Hh) as [[E1 E2]|[(o & X & E1 & E2 & Ho & _)|(x & E1 & E2)]]; rewrite E1; rewrite E2 in *;
    [destruct (decide _) as [[Hne Hs]|]; [|done]; injection Ha as <-..|].
  - destruct ms as [|m ms]; [done|]. destruct (create_set_spec be ty max m) as (o & -> & Ho); [lia|]. by apply (sadd_end h a key o ∅).
  - by apply (sadd_end h a key o X).
  - injection Ha as <-. by eexists.
Qed.

(** A command on a key that holds a set or nothing. *)
Lemma lookup_set_spec h a key r c C ra :
  drep h a →
  match a !! key with Some (VOther _) => Some (a, SExact wrongtypeerr, [], 0) | _ => c (set_of a key) end = Some ra →
  (a !! key = None → c ∅ = Some ra → sres_ok (h, r, [], 0) ra) →
  (∀ o X, srep o X → X ≠ ∅ → small_set X → a !! key = Some (VObj X) → c X = Some ra → ∃ x, C o = Some x ∧ sres_ok x ra) →
  ∃ x, lookup_set_or h key r C = Some x ∧ sres_ok x ra.
Proof.
  intros Hh Ha Hn HC. unfold lookup_set_or, set_of in *. destruct (db_rel_cases set_ok h a key Hh) as [[E1 E2]|[(o & X & E1 & E2 & Ho & Hne & Hs)|(x & E1 & E2)]]; rewrite E1; rewrite E2 in *.
  - eexists. split; [done|]. by apply Hn.
  - by apply (HC o X).
  - injection Ha as <-. by eexists.
Qed.

Lemma srem_loop_spec ms : ∀ o X deleted,
  srep o X → X ≠ ∅ → small_set X →
  ∃ o', srem_loop be junk ty cr o ms deleted =
      Some (o', deleted + (Z.of_nat (size X) - Z.of_nat (size (X ∖ list_to_set ms))), Z.of_nat (size (X ∖ list_to_set ms)) =? 0) ∧
    srep o' (X ∖ list_to_set ms).
Proof.
  induction ms as [|m ms IH]; intros o X deleted Ho Hne Hs; cbn [srem_loop list_to_set].
  - rewrite difference_empty_L. exists o. split; [|done]. do 2 f_equal; [f_equal; lia|]. symmetry. apply Z.eqb_neq. intros Hz. apply Hne, leibniz_equiv, size_empty_iff. lia.
  - assert (X ∖ ({[m]} ∪ list_to_set ms) = (X ∖ {[m]}) ∖ list_to_set ms) as -> by set_solver. pose proof (size_del m X) as Hd.
    destruct (remove_spec o X m Ho Hs) as (o1 & -> & Ho1). cbn [mbind option_bind]. case_bool_decide as Hm; cbn [b2z] in Hd.
    + rewrite (size_spec be ty max o1 _ Ho1). cbn [mbind option_bind]. destruct (Z.eqb_spec (Z.of_nat (size (X ∖ {[m]}))) 0) as [Hz|Hz].
      * assert (X ∖ {[m]} = ∅) as E by (apply leibniz_equiv, size_empty_iff; lia). rewrite E in *. rewrite empty_diff. exists o1. rewrite size_empty. split; [|done].
        do 3 f_equal. lia.
      * assert (X ∖ {[m]} ≠ ∅) as Hne1 by (intros E; by rewrite E in Hz). unfold small_set in *.
        destruct (IH o1 (X ∖ {[m]}) (deleted + 1) Ho1 Hne1) as (o2 & -> & Ho2); [lia|]. exists o2. split; [|done]. do 3 f_equal. lia.
    + replace (X ∖ {[m]}) with X in * by set_solver. by apply IH.
Qed.

Lemma srem_refines h a key ms ra :
  drep h a → a_scmd a (SRem key ms) = Some ra → ∃ r, sremCommand be junk ty cr h key ms = Some r ∧ sres_ok r ra.
Proof.
  intros Hh Ha. eapply lookup_set_spec; [done|exact Ha|..]; cbn beta zeta.
  - intros E [= <-]. rewrite empty_diff, size_empty. split; [|done]. unfold put_set. rewrite decide_True by done. by rewrite delete_id.
  - intros o X Ho Hne Hs E [= <-]. destruct (srem_loop_spec ms o X 0 Ho Hne Hs) as (o' & -> & Ho'). cbn [mbind option_bind]. rewrite Z.add_0_l.
    eexists. split; [done|]. split; [|split; [done|]].
    + apply drep_put; [done|done|]. unfold small_set in *. assert (Z.of_nat (size (X ∖ list_to_set ms)) ≤ Z.of_nat (size X)) by (apply subset_size; set_solver). lia.
    + split; [|done]. destruct (_ =? 0); [done|]. do 2 f_equal. destruct (Z.eqb_spec (Z.of_nat (size (X ∖ list_to_set ms))) 0) as [Hz|Hz], (decide _) as [He|He]; try done.
      * exfalso. apply He, leibniz_equiv, size_empty_iff. lia.
      * exfalso. apply Hz. by rewrite He.
Qed.

Lemma size_zero X (P Q : list effect) : (if Z.of_nat (size X) =? 0 then P else Q) = if decide (X = ∅) then P else Q.
Proof.
  destruct (Z.eqb_spec (Z.of_nat (size X)) 0) as [Hz|Hz], (decide _) as [He|He]; try done; exfalso.
  - apply He, leibniz_equiv, size_empty_iff. lia.
  - apply Hz. by rewrite He.
Qed.

Lemma smove_sets_refines h a src dst m o X dstset Y (d0 : setobj) ra :
  drep h a → a !! src = Some (VObj X) → srep o X → small_set X → match dstset with Some d => Some d | None => setTypeCreate be m end = Some d0 → srep d0 Y → small_set Y →
  a_smove a src dst m X Y = Some ra → ∃ r, smove_sets be junk ty max cr h src dst m o dstset = Some r ∧ sres_ok r ra.
Proof.
  intros Hh E Ho Hs Hd0 Hrd HsY Ha. unfold a_smove in Ha. unfold smove_sets. destruct (decide (src = dst ∨ m ∉ X)) as [Hc|Hc].
  - injection Ha as <-. case_bool_decide as Hsd.
    + destruct (is_member_spec be ty max o X m) as (o' & -> & Ho'); [apply limit_max|done|]. cbn [mbind option_bind]. eexists. split; [done|]. split; [by eapply drep_touch|done].
    + destruct (remove_spec o X m Ho Hs) as (o' & -> & Ho'). cbn [mbind option_bind]. assert (m ∉ X) as Hm by tauto. rewrite bool_decide_eq_false_2 by done. cbn [negb].
      eexists. split; [done|]. split; [|done]. eapply drep_touch; [done|done|]. by replace (X ∖ {[m]}) with X in Ho' by set_solver.
  - assert (src ≠ dst ∧ m ∈ X) as [Hsd Hm] by (split; [tauto|apply dec_stable; tauto]). rewrite (bool_decide_eq_false_2 (src = dst)) by done.
    destruct (decide _) as [HsY'|]; [|done]. injection Ha as <-.
    destruct (remove_spec o X m Ho Hs) as (o' & -> & Ho'). cbn [mbind option_bind]. rewrite (bool_decide_eq_true_2 (m ∈ X)) by done. cbn [negb].
    rewrite (size_spec be ty max o' _ Ho'). cbn [mbind option_bind]. rewrite Hd0. cbn [mbind option_bind].
    destruct (add_spec d0 Y m Hrd HsY) as (d1 & -> & Hd1). cbn [mbind option_bind]. rewrite size_zero. eexists. split; [done|]. split; [|done].
    apply db_rel_insert; [|split; [done|split; [set_solver|done]]]. apply drep_put; [done|done|]. unfold small_set in *.
    assert (Z.of_nat (size (X ∖ {[m]})) ≤ Z.of_nat (size X)) by (apply subset_size; set_solver). lia.
Qed.

Lemma smove_refines h a src dst m ra :
  drep h a → a_scmd a (SMove src dst m) = Some ra → ∃ r, smoveCommand be junk ty max cr h src dst m = Some r ∧ sres_ok r ra.
Proof.
  intros Hh Ha. cbn [a_scmd] in Ha. unfold smoveCommand.
  destruct (db_rel_cases set_ok h a src Hh) as [[E1 E2]|[(o & X & E1 & E2 & Ho & Hne & Hs)|(x & E1 & E2)]]; rewrite E1; rewrite E2 in Ha; [injection Ha as <-; by eexists| |injection Ha as <-; by eexists].
  unfold set_of in Ha. destruct (db_rel_cases set_ok h a dst Hh) as [[F1 F2]|[(d & Y & F1 & F2 & Hd & _ & HY)|(y & F1 & F2)]]; rewrite F1; rewrite F2 in Ha.
  - destruct (create_set_spec be ty max m) as (d & Hc & Hd); [lia|]. by eapply smove_sets_refines.
  - by eapply smove_sets_refines.
  - injection Ha as <-. by eexists.
Qed.

Lemma sismember_refines h a key m ra :
  drep h a → a_scmd a (SIsMember key m) = Some ra → ∃ r, sismemberCommand be ty h key m = Some r ∧ sres_ok r ra.
Proof.
  intros Hh Ha. eapply lookup_set_spec; [done|exact Ha|by intros _ [= <-]|]. intros o X Ho _ _ E [= <-].
  destruct (is_member_spec be ty max o X m) as (o' & -> & Ho'); [apply limit_max|done|]. cbn [mbind option_bind]. eexists. split; [done|]. split; [by eapply drep_touch|done].
Qed.

Lemma scard_refines h a key ra : drep h a → a_scmd a (SCard key) = Some ra → ∃ r, scardCommand be h key = Some r ∧ sres_ok r ra.
Proof.
  intros Hh Ha. eapply lookup_set_spec; [done|exact Ha|by intros _ [= <-]|]. intros o X Ho _ _ E [= <-]. rewrite (size_spec be ty max o X Ho). by eexists.
Qed.

(** ** Intersections *)

Definition is_set (a : adb) (key : bytes) : Prop := ∃ X, a !! key = Some (VObj X).

Lemma is_set_of a key : is_set a key → a !! key = Some (VObj (set_of a key)).
Proof. intros [X HX]. unfold set_of. by rewrite HX. Qed.

Lemma store_spec h a dst o X event :
  drep h a → srep o X → small_set X → ∃ r, store_result be h dst o event = Some r ∧ sres_ok r (a_store a dst X event).
Proof.
  intros Hh Ho Hs. unfold store_result, a_store. rewrite (size_spec be ty max o X Ho). cbn [mbind option_bind].
  assert (is_Some (h !! dst) ↔ is_Some (a !! dst)) as Hi by (destruct (Hh dst); split; by eauto). destruct (decide (X = ∅)) as [->|Hne].
  - rewrite size_empty. eexists. split; [done|]. split; [by apply db_rel_delete|]. split; [done|]. split; [|done]. f_equal.
    rewrite (bool_decide_ext _ _ Hi). by destruct (decide _) as [H|H]; [rewrite bool_decide_eq_true_2|rewrite bool_decide_eq_false_2].
  - assert (0 < Z.of_nat (size X)) as Hpos. { destruct (decide (size X = 0)%nat) as [Hz|]; [|lia]. apply size_empty_iff, leibniz_equiv in Hz. done. }
    rewrite (proj2 (Z.ltb_lt _ _) Hpos). eexists. split; [done|]. split; [|done].
    rewrite <-(insert_delete_eq a). apply db_rel_insert; [by apply db_rel_delete|]. by split.
Qed.

(** The sets but [first] that an element is in. *)
Definition in_all (a : adb) (first t : bytes) (others : list bytes) : bool := forallb (λ k, bool_decide (k = first) || bool_decide (t ∈ set_of a k)) others.

Lemma inter_test_spec a first e others : ∀ h,
  drep h a → Forall (is_set a) others → elem_ok e → ∃ h', inter_test be ty h first e others = Some (h', in_all a first (txt e) others) ∧ drep h' a.
Proof.
  intros h Hh Hall He. revert h Hh. induction Hall as [|k others Hk _ IH]; intros h Hh; cbn [inter_test in_all forallb]; [by exists h|].
  case_bool_decide as Hf; [by apply IH|]. cbn [orb]. apply is_set_of in Hk. destruct (drep_obj h a k _ Hh Hk) as (o & _ & -> & Ho & _). cbn [mbind option_bind].
  assert (∃ o', match e, o with
      | inr z, SInt s => b ← intsetFind be s z; Some (o, b)
      | inr z, SHt _ => t ← sdsll2str z; setTypeIsMember be ty o t
      | inl t, _ => setTypeIsMember be ty o t
      end = Some (o', bool_decide (txt e ∈ set_of a k)) ∧ srep o' (set_of a k)) as (o' & -> & Ho').
  { destruct e as [t|z]; [apply (is_member_spec be ty max o _ t); [apply limit_max|done]|]. cbn [elem_ok] in He. destruct (of_int_eq z He) as [Hz _]. destruct o as [s|d].
    - destruct (is_member_spec be ty max (SInt s) _ (of_int z) limit_max Ho) as (o' & Hm & Ho'). cbn [setTypeIsMember] in Hm. unfold isSdsRepresentableAsLongLong in Hm.
      rewrite to_int_eq, to_of_int in Hm by done. cbn [mbind option_bind] in Hm. exists o'. split; [|done]. exact Hm.
    - rewrite Hz. cbn [mbind option_bind]. apply (is_member_spec be ty max (SHt d)); [apply limit_max|done]. }
  cbn [mbind option_bind]. assert (drep (<[k := VObj o']> h) a) as Hh' by by eapply drep_touch. case_bool_decide as Hm; cbn [andb]; [by apply IH|by eexists].
Qed.

(** The elements of a list that are in all the sets. *)
Definition selected (a : adb) (first : bytes) (others : list bytes) (ts : list bytes) : list bytes := filter (λ t, in_all a first t others = true) ts.

Lemma inter_loop_reply a first o others es : ∀ fuel h si out,
  drep h a → Forall (is_set a) others → si_rep be ty max o si es → Forall elem_ok es → (length es < fuel)%nat →
  ∃ h', inter_loop be junk ty max cr fuel h first o si others None out = Some (h', None, out ++ selected a first others (txt <$> es)) ∧ drep h' a.
Proof.
  induction es as [|e es IH]; intros fuel h si out Hh Hall Hs Hok Hf; (destruct fuel as [|fuel]; [simpl in Hf; lia|]); cbn [inter_loop];
    destruct (set_next_spec be ty max o si _ limit_max Hs) as (si' & -> & Hs'); cbn [mbind option_bind head].
  - exists h. split; [|done]. cbn. by rewrite app_nil_r.
  - inversion Hok; subst. destruct (inter_test_spec a first e others h Hh Hall) as (h1 & -> & Hh1); [done|]. cbn [mbind option_bind]. unfold selected. rewrite fmap_cons, filter_cons.
    destruct (in_all a first (txt e) others) eqn:Ei; [rewrite decide_True by done|rewrite decide_False by done].
    + rewrite text_txt by done. cbn [mbind option_bind]. destruct (IH fuel h1 si' (out ++ [txt e])) as (h2 & -> & Hh2); [done|done|done|done|simpl in Hf; lia|].
      exists h2. split; [|done]. do 2 f_equal. by rewrite <-(assoc_L (++)).
    + apply IH; [done..|simpl in Hf; lia].
Qed.

Lemma inter_loop_store a first o others es : ∀ fuel h si (d : setobj) D out,
  drep h a → Forall (is_set a) others → si_rep be ty max o si es → Forall elem_ok es → (length es < fuel)%nat → srep d D →
  small_set (list_to_set (txt <$> es) ∪ D) →
  ∃ h' d', inter_loop be junk ty max cr fuel h first o si others (Some d) out = Some (h', Some d', out) ∧ drep h' a ∧
    srep d' (list_to_set (selected a first others (txt <$> es)) ∪ D).
Proof.
  induction es as [|e es IH]; intros fuel h si d D out Hh Hall Hs Hok Hf Hd Hsm; (destruct fuel as [|fuel]; [simpl in Hf; lia|]); cbn [inter_loop];
    destruct (set_next_spec be ty max o si _ limit_max Hs) as (si' & -> & Hs'); cbn [mbind option_bind head].
  - exists h, d. split; [done|]. split; [done|]. cbn. by rewrite (left_id_L ∅ (∪)).
  - inversion Hok; subst. destruct (inter_test_spec a first e others h Hh Hall) as (h1 & -> & Hh1); [done|]. cbn [mbind option_bind]. unfold selected. rewrite fmap_cons, filter_cons.
    rewrite fmap_cons in Hsm. cbn [list_to_set] in Hsm. unfold small_set in *.
    destruct (in_all a first (txt e) others) eqn:Ei; [rewrite decide_True by done|rewrite decide_False by done].
    + rewrite text_txt by done. cbn [mbind option_bind]. destruct (add_spec d D (txt e) Hd) as (d1 & -> & Hd1).
      { assert (Z.of_nat (size D) ≤ Z.of_nat (size ({[txt e]} ∪ list_to_set (txt <$> es) ∪ D))) by (apply subset_size; set_solver). lia. }
      cbn [mbind option_bind]. destruct (IH fuel h1 si' d1 ({[txt e]} ∪ D) out) as (h2 & d2 & -> & Hh2 & Hd2); [done|done|done|done|simpl in Hf; lia|done| |].
      { by replace (list_to_set (txt <$> es) ∪ ({[txt e]} ∪ D)) with ({[txt e]} ∪ list_to_set (txt <$> es) ∪ D) by set_solver. }
      exists h2, d2. split; [done|]. split; [done|]. unfold selected in Hd2. cbn [list_to_set].
      by rewrite <-(assoc_L (∪)), (comm_L (∪) {[txt e]}), <-(assoc_L (∪)), (comm_L (∪) D).
    + apply IH; [done..|simpl in Hf; lia|done|].
      assert (Z.of_nat (size (list_to_set (txt <$> es) ∪ D)) ≤ Z.of_nat (size ({[txt e]} ∪ list_to_set (txt <$> es) ∪ D))) by (apply subset_size; set_solver). unfold small_set. lia.
Qed.

Lemma elem_of_inter a keys t : keys ≠ [] → t ∈ inter_of a keys ↔ Forall (λ k, t ∈ set_of a k) keys.
Proof. destruct keys as [|k keys]; [done|]. intros _. cbn [inter_of]. rewrite elem_of_filter, Forall_cons. tauto. Qed.

Lemma in_all_spec a first t others : in_all a first t others = true ↔ Forall (λ k, k = first ∨ t ∈ set_of a k) others.
Proof.
  unfold in_all. rewrite forallb_forall, Forall_forall. setoid_rewrite orb_true_iff. setoid_rewrite bool_decide_eq_true. setoid_rewrite list_elem_of_In. done.
Qed.

Lemma selected_inter a keys first others ts :
  first :: others ≡ₚ keys → list_to_set ts = set_of a first → list_to_set (selected a first others ts) = inter_of a keys.
Proof.
  intros Hp Hts. apply set_eq. intros t. assert (keys ≠ []) as Hne by (intros ->; by apply Permutation_nil_r in Hp).
  rewrite elem_of_inter by done. rewrite <-Hp, Forall_cons, elem_of_list_to_set. unfold selected. rewrite list_elem_of_filter, in_all_spec. rewrite <-Hts, elem_of_list_to_set.
  split; intros [H1 H2].
  - split; [done|]. eapply Forall_impl; [exact H1|]. intros k [->|Hk]; [by rewrite <-Hts, elem_of_list_to_set|done].
  - split; [|done]. eapply Forall_impl; [exact H2|]. intros k Hk. by right.
Qed.

Lemma inter_lookup_all (a : adb) keys : inter_lookup a keys = AllSets → Forall (is_set a) keys.
Proof.
  induction keys as [|k keys IH]; [constructor|]. cbn [inter_lookup]. destruct (a !! k) as [[X|]|] eqn:E; try done. constructor; [by exists X|by apply IH].
Qed.

Lemma with_sizes h a keys :
  drep h a → Forall (is_set a) keys → mapM (with_size be h) keys = Some ((λ k, (k, Z.of_nat (size (set_of a k)))) <$> keys).
Proof.
  intros Hh. induction 1 as [|k keys Hk _ IH]; [done|]. cbn [mapM]. rewrite IH. unfold with_size. apply is_set_of in Hk.
  destruct (drep_obj h a k _ Hh Hk) as (o & _ & -> & Ho & _). cbn [mbind option_bind]. by rewrite (size_spec be ty max o _ Ho).
Qed.

Context (qsort : ∀ A : Type, (A → A → Z) → list A → list A) (qsort_perm : ∀ A cmp l, qsort A cmp l ≡ₚ l).

Lemma sinter_all h a keys dstkey :
  drep h a → keys ≠ [] → Forall (is_set a) keys → inter_lookup h keys = AllSets →
  ∃ r, sinterGenericCommand be junk ty qsort max cr h keys dstkey = Some r ∧ sres_ok r (a_output a dstkey (inter_of a keys) "sinterstore").
Proof.
  intros Hh Hne Hall Hl. unfold sinterGenericCommand. rewrite Hl, (with_sizes h a keys Hh Hall). cbn [mbind option_bind].
  pose proof (qsort_perm _ qsortCompareSetsByCardinality ((λ k, (k, Z.of_nat (size (set_of a k)))) <$> keys)) as Hp.
  destruct (qsort _ _ _) as [|[first n] others]; [apply Permutation_nil_l in Hp; symmetry in Hp; by apply fmap_nil_inv in Hp|].
  assert (first :: others.*1 ≡ₚ keys) as Hp'. { apply (fmap_Permutation fst) in Hp. by rewrite <-list_fmap_compose, list_fmap_id in Hp. }
  assert (n = Z.of_nat (size (set_of a first))) as ->.
  { assert ((first, n) ∈ (λ k, (k, Z.of_nat (size (set_of a k)))) <$> keys) as Hin by (rewrite <-Hp; left). apply list_elem_of_fmap in Hin as (k & [= -> ->] & _). done. }
  rewrite <-Hp' in Hall. apply Forall_cons in Hall as [Hf Hall]. apply is_set_of in Hf. destruct (drep_obj h a first _ Hh Hf) as (o & _ & -> & Ho & _ & Hs). cbn [mbind option_bind].
  destruct (set_init_spec be ty max o _ Ho) as (es & Hsi & Hnd & Hes & Hok).
  assert (length es < S (Z.to_nat (Z.of_nat (size (set_of a first)))))%nat as Hlen by (rewrite <-Hes, size_list_to_set, length_fmap by done; lia).
  pose proof (selected_inter a keys first others.*1 (txt <$> es) Hp' Hes) as Hsel. destruct dstkey as [dst|]; cbn [a_output].
  - destruct (create_int_spec be ty max) as (d & -> & Hd); [lia|]. cbn [mbind option_bind].
    destruct (inter_loop_store a first o others.*1 es (S (Z.to_nat (Z.of_nat (size (set_of a first))))) h (setTypeInitIterator o) d ∅ []) as (h' & d' & -> & Hh' & Hd'); [done..| |].
    { by rewrite (right_id_L ∅ (∪)), Hes. }
    cbn [mbind option_bind]. rewrite (right_id_L ∅ (∪)), Hsel in Hd'. apply store_spec; [done|done|]. unfold small_set in *.
    assert (Z.of_nat (size (inter_of a keys)) ≤ Z.of_nat (size (set_of a first))); [|lia]. apply subset_size. intros t. rewrite elem_of_inter by done. rewrite <-Hp', Forall_cons. tauto.
  - cbn [mbind option_bind]. destruct (inter_loop_reply a first o others.*1 es (S (Z.to_nat (Z.of_nat (size (set_of a first))))) h (setTypeInitIterator o) []) as (h' & -> & Hh'); [done..|].
    cbn [mbind option_bind app]. eexists. split; [done|]. split; [done|]. split; [|done]. exists (selected a first others.*1 (txt <$> es)).
    assert (NoDup (selected a first others.*1 (txt <$> es))) as Hnd' by by apply NoDup_filter.
    rewrite <-Hsel. split; [by rewrite elements_list_to_set|]. by rewrite size_list_to_set.
Qed.

Lemma sinter_refines h a keys dstkey ra :
  drep h a → a_scmd a (SInter keys dstkey) = Some ra → ∃ r, sinterGenericCommand be junk ty qsort max cr h keys dstkey = Some r ∧ sres_ok r ra.
Proof.
  intros Hh Ha. cbn [a_scmd] in Ha. pose proof (inter_lookup_eq h a keys Hh) as El. destruct keys as [|k keys]; [by destruct (inter_lookup a [])|].
  destruct (inter_lookup a (k :: keys)) eqn:E.
  - injection Ha as <-. unfold sinterGenericCommand. rewrite El. destruct dstkey as [dst|].
    + assert (is_Some (h !! dst) ↔ is_Some (a !! dst)) as Hi by (destruct (Hh dst); split; by eauto). rewrite (bool_decide_ext _ _ Hi). eexists. split; [done|].
      destruct (decide (is_Some (a !! dst))) as [Hs|Hs]; [rewrite bool_decide_eq_true_2 by done|rewrite bool_decide_eq_false_2 by done].
      * split; [by apply db_rel_delete|done].
      * rewrite delete_id by by apply eq_None_not_Some. done.
    + eexists. split; [done|]. split; [done|]. split; [|done]. exists []. by rewrite elements_empty.
  - injection Ha as <-. unfold sinterGenericCommand. rewrite El. by eexists.
  - injection Ha as <-. apply sinter_all; [done|done|by apply inter_lookup_all|done].
Qed.

(** ** Unions and differences *)

(** A set, or none for a missing key. *)
Definition oset (a : adb) (k : option bytes) : sset := match k with Some k => set_of a k | None => ∅ end.
Definition is_oset (a : adb) (k : option bytes) : Prop := match k with Some k => is_set a k | None => True end.
Definition osets (a : adb) (sets : list (option bytes)) : sset := ⋃ (oset a <$> sets).

Lemma sets_lookup_spec (a : adb) keys sets :
  sets_lookup a keys = Some sets → Forall (is_oset a) sets ∧ oset a <$> sets = set_of a <$> keys.
Proof.
  revert sets. induction keys as [|k keys IH]; intros sets; cbn [sets_lookup]; [by intros [= <-]|]. destruct (a !! k) as [[X|]|] eqn:E; [|done|];
    intros (l & Hl & [= <-])%bind_Some; destruct (IH l Hl) as [Hf Hm]; rewrite !fmap_cons, Hm.
  - split; [constructor; [by exists X|done]|done].
  - split; [by constructor|]. assert (set_of a k = ∅) as -> by (unfold set_of; by rewrite E). done.
Qed.

Lemma each_add_spec o es : ∀ fuel si d D,
  si_rep be ty max o si es → Forall elem_ok es → (length es < fuel)%nat → srep d D → Z.of_nat (size (list_to_set (txt <$> es) ∪ D)) < 2 ^ 31 →
  ∃ d', each_loop be junk ty max cr fuel o si false d (Z.of_nat (size D)) = Some (d', Z.of_nat (size (list_to_set (txt <$> es) ∪ D))) ∧
    srep d' (list_to_set (txt <$> es) ∪ D).
Proof.
  induction es as [|e es IH]; intros fuel si d D Hs Hok Hf Hd Hsm; (destruct fuel as [|fuel]; [simpl in Hf; lia|]); cbn [each_loop];
    destruct (set_next_object be ty max o si _ limit_max Hs Hok) as (si' & -> & Hs'); cbn [mbind option_bind head fmap option_fmap option_map list_fmap list_to_set] in *.
  - exists d. by rewrite (left_id_L ∅ (∪)).
  - inversion Hok; subst. assert ({[txt e]} ∪ list_to_set (txt <$> es) ∪ D = list_to_set (txt <$> es) ∪ ({[txt e]} ∪ D)) as E by set_solver. rewrite E in *.
    assert (Z.of_nat (size ({[txt e]} ∪ D)) ≤ Z.of_nat (size (list_to_set (txt <$> es) ∪ ({[txt e]} ∪ D)))) as Hle by (apply subset_size; set_solver).
    pose proof (size_add (txt e) D) as Ha. assert (0 ≤ b2z (bool_decide (txt e ∉ D)) ≤ 1) by (case_bool_decide; cbn; lia).
    destruct (add_spec d D (txt e) Hd) as (d1 & -> & Hd1); [lia|]. cbn [mbind option_bind].
    assert ((if bool_decide (txt e ∉ D) then incr_int (Z.of_nat (size D)) else Some (Z.of_nat (size D))) = Some (Z.of_nat (size ({[txt e]} ∪ D)))) as ->.
    { unfold incr_int. rewrite Ha. case_bool_decide; cbn [b2z] in *; [rewrite (proj2 (Z.ltb_lt _ _)) by lia; done|f_equal; lia]. }
    cbn [mbind option_bind]. apply IH; [done|done|simpl in Hf; lia|done|done].
Qed.

Lemma each_del_spec o es : ∀ fuel si d D,
  si_rep be ty max o si es → Forall elem_ok es → (length es < fuel)%nat → srep d D → small_set D →
  ∃ d', each_loop be junk ty max cr fuel o si true d (Z.of_nat (size D)) = Some (d', Z.of_nat (size (D ∖ list_to_set (txt <$> es)))) ∧
    srep d' (D ∖ list_to_set (txt <$> es)).
Proof.
  induction es as [|e es IH]; intros fuel si d D Hs Hok Hf Hd Hsm; (destruct fuel as [|fuel]; [simpl in Hf; lia|]); cbn [each_loop];
    destruct (set_next_object be ty max o si _ limit_max Hs Hok) as (si' & -> & Hs'); cbn [mbind option_bind head fmap option_fmap option_map list_fmap list_to_set] in *.
  - exists d. by rewrite difference_empty_L.
  - inversion Hok; subst. assert (D ∖ ({[txt e]} ∪ list_to_set (txt <$> es)) = (D ∖ {[txt e]}) ∖ list_to_set (txt <$> es)) as -> by set_solver.
    pose proof (size_del (txt e) D) as Ha. assert (0 ≤ b2z (bool_decide (txt e ∈ D)) ≤ 1) by (case_bool_decide; cbn; lia).
    destruct (remove_spec d D (txt e) Hd Hsm) as (d1 & -> & Hd1). cbn [mbind option_bind].
    replace (Z.of_nat (size D) - b2z (bool_decide (txt e ∈ D))) with (Z.of_nat (size (D ∖ {[txt e]}))) by lia.
    apply IH; [done|done|simpl in Hf; lia|done|unfold small_set in *; lia].
Qed.

Lemma each_spec h a k (remove : bool) d D :
  drep h a → is_set a k → srep d D → small_set D → (remove = false → Z.of_nat (size (set_of a k ∪ D)) < 2 ^ 31) →
  let D' := if remove then D ∖ set_of a k else set_of a k ∪ D in
  ∃ d', each be junk ty max cr h k remove d (Z.of_nat (size D)) = Some (d', Z.of_nat (size D')) ∧ srep d' D'.
Proof.
  intros Hh Hk Hd Hsm Hg. cbv zeta. unfold each. apply is_set_of in Hk. destruct (drep_obj h a k _ Hh Hk) as (o & _ & -> & Ho & _ & Hs). cbn [mbind option_bind].
  rewrite (size_spec be ty max o _ Ho). cbn [mbind option_bind]. destruct (set_init_spec be ty max o _ Ho) as (es & Hsi & Hnd & Hes & Hok). rewrite <-Hes in *.
  assert (length es < S (Z.to_nat (Z.of_nat (size (list_to_set (txt <$> es) : sset)))))%nat as Hlen by (rewrite size_list_to_set, length_fmap by done; lia).
  destruct remove; [by apply each_del_spec|apply each_add_spec; by auto].
Qed.

Lemma osets_cons a k sets : osets a (k :: sets) = oset a k ∪ osets a sets.
Proof. done. Qed.

Lemma union_loop_spec h a sets : ∀ d D,
  drep h a → Forall (is_oset a) sets → srep d D → Z.of_nat (size (osets a sets ∪ D)) < 2 ^ 31 →
  ∃ d', union_loop be junk ty max cr h sets d (Z.of_nat (size D)) = Some (d', Z.of_nat (size (osets a sets ∪ D))) ∧ srep d' (osets a sets ∪ D).
Proof.
  induction sets as [|[k|] sets IH]; intros d D Hh Hall Hd Hsm; cbn [union_loop]; rewrite ?osets_cons in *; cbn [oset] in *.
  - change (osets a []) with (∅ : sset). rewrite (left_id_L ∅ (∪)). by exists d.
  - apply Forall_cons in Hall as [Hk Hall]. assert (set_of a k ∪ osets a sets ∪ D = osets a sets ∪ (set_of a k ∪ D)) as E by set_solver. rewrite E in *.
    assert (Z.of_nat (size (set_of a k ∪ D)) ≤ Z.of_nat (size (osets a sets ∪ (set_of a k ∪ D)))) as Hle by (apply subset_size; set_solver).
    assert (Z.of_nat (size D) ≤ Z.of_nat (size (set_of a k ∪ D))) as Hle' by (apply subset_size; set_solver).
    destruct (each_spec h a k false d D Hh Hk Hd) as (d1 & -> & Hd1); [unfold small_set; lia|lia|]. cbn [mbind option_bind]. by apply IH.
  - apply Forall_cons in Hall as [_ Hall]. rewrite (left_id_L ∅ (∪)) in *. by apply IH.
Qed.

Lemma diff2_loop_spec h a sets : ∀ d D,
  drep h a → Forall (is_oset a) sets → srep d D → small_set D →
  ∃ d', diff2_loop be junk ty max cr h sets true d (Z.of_nat (size D)) = Some (d', Z.of_nat (size (D ∖ osets a sets))) ∧ srep d' (D ∖ osets a sets).
Proof.
  induction sets as [|[k|] sets IH]; intros d D Hh Hall Hd Hsm; cbn [diff2_loop]; rewrite ?osets_cons in *; cbn [oset] in *.
  - change (osets a []) with (∅ : sset). rewrite difference_empty_L. by exists d.
  - apply Forall_cons in Hall as [Hk Hall]. assert (D ∖ (set_of a k ∪ osets a sets) = D ∖ set_of a k ∖ osets a sets) as -> by set_solver.
    assert (Z.of_nat (size (D ∖ set_of a k)) ≤ Z.of_nat (size D)) as Hle by (apply subset_size; set_solver).
    destruct (each_spec h a k true d D Hh Hk Hd Hsm) as (d1 & -> & Hd1); [done|]. cbn [mbind option_bind].
    destruct (Z.eqb_spec (Z.of_nat (size (D ∖ set_of a k))) 0) as [Hz|Hz].
    + assert (D ∖ set_of a k = ∅) as E' by (apply leibniz_equiv, size_empty_iff; lia). rewrite E' in *. rewrite empty_diff. by exists d1.
    + apply IH; [done|done|done|]. unfold small_set in *. lia.
  - apply Forall_cons in Hall as [_ Hall]. rewrite (left_id_L ∅ (∪)) in *. by apply IH.
Qed.

(** No other set has the element. *)
Definition in_none (a : adb) (first t : bytes) (others : list (option bytes)) : bool :=
  forallb (λ k, match k with Some k => negb (bool_decide (k = first)) && negb (bool_decide (t ∈ set_of a k)) | None => true end) others.

Lemma diff_test_spec a first t others : ∀ h,
  drep h a → Forall (is_oset a) others → ∃ h', diff_test be ty h first t others = Some (h', in_none a first t others) ∧ drep h' a.
Proof.
  intros h Hh Hall. revert h Hh. induction Hall as [|[k|] others Hk _ IH]; intros h Hh; cbn [diff_test in_none forallb]; [by exists h| |by apply IH].
  case_bool_decide as Hf; cbn [negb andb]; [by exists h|]. cbn [is_oset] in Hk. apply is_set_of in Hk. destruct (drep_obj h a k _ Hh Hk) as (o & _ & -> & Ho & _). cbn [mbind option_bind].
  destruct (is_member_spec be ty max o _ t limit_max Ho) as (o' & -> & Ho'). cbn [mbind option_bind]. assert (drep (<[k := VObj o']> h) a) as Hh' by by eapply drep_touch.
  case_bool_decide; cbn [negb andb]; [by eexists|by apply IH].
Qed.

Lemma in_none_spec a first t others : t ∈ set_of a first → in_none a first t others = true ↔ t ∉ osets a others.
Proof.
  intros Ht. induction others as [|[k|] others IH]; cbn [in_none forallb]; [split; [intros _; apply not_elem_of_empty|done]| |]; rewrite osets_cons; cbn [oset].
  - rewrite !andb_true_iff, !negb_true_iff, !bool_decide_eq_false. unfold in_none in IH. rewrite IH, not_elem_of_union. split; [tauto|]. intros [H1 H2]. split; [|done].
    split; [|done]. by intros ->.
  - unfold in_none in IH. rewrite (left_id_L ∅ (∪)). cbn [andb]. exact IH.
Qed.

Lemma diff1_loop_spec a first o others es : ∀ fuel h si d D,
  drep h a → Forall (is_oset a) others → si_rep be ty max o si es → Forall elem_ok es → (length es < fuel)%nat → srep d D → NoDup (txt <$> es) →
  list_to_set (txt <$> es) ⊆ set_of a first → D ## list_to_set (txt <$> es) → Z.of_nat (size (list_to_set (txt <$> es) ∪ D)) < 2 ^ 31 →
  let D' := (list_to_set (txt <$> es) ∖ osets a others) ∪ D in
  ∃ h' d', diff1_loop be junk ty max cr fuel h first o si others d (Z.of_nat (size D)) = Some (h', d', Z.of_nat (size D')) ∧ drep h' a ∧ srep d' D'.
Proof.
  cbv zeta. induction es as [|e es IH]; intros fuel h si d D Hh Hall Hs Hok Hf Hd Hnd Hsub Hdis Hsm; (destruct fuel as [|fuel]; [simpl in Hf; lia|]); cbn [diff1_loop];
    destruct (set_next_object be ty max o si _ limit_max Hs Hok) as (si' & -> & Hs'); cbn [mbind option_bind head fmap option_fmap option_map list_fmap list_to_set] in *.
  - exists h, d. rewrite empty_diff, (left_id_L ∅ (∪)). done.
  - apply Forall_cons in Hok as [He Hok]. apply NoDup_cons in Hnd as [Hni Hnd]. rewrite <-(elem_of_list_to_set (C:=sset)) in Hni.
    destruct (diff_test_spec a first (txt e) others h Hh Hall) as (h1 & -> & Hh1). cbn [mbind option_bind].
    pose proof (in_none_spec a first (txt e) others) as Hin. assert (txt e ∉ D) as HeD by set_solver.
    assert (Z.of_nat (size ({[txt e]} ∪ D)) ≤ Z.of_nat (size ({[txt e]} ∪ list_to_set (txt <$> es) ∪ D))) as Hle by (apply subset_size; set_solver).
    assert (Z.of_nat (size (list_to_set (txt <$> es) ∪ D)) ≤ Z.of_nat (size ({[txt e]} ∪ list_to_set (txt <$> es) ∪ D))) as Hle' by (apply subset_size; set_solver).
    pose proof (size_add (txt e) D) as Ha. rewrite bool_decide_eq_true_2 in Ha by done. cbn [b2z] in Ha.
    destruct (in_none a first (txt e) others).
    + assert (txt e ∉ osets a others) as Hno by (apply Hin; [set_solver|done]). destruct (add_spec d D (txt e) Hd) as (d1 & -> & Hd1); [lia|]. cbn [mbind option_bind].
      unfold incr_int. rewrite (proj2 (Z.ltb_lt _ _)) by lia. cbn [mbind option_bind]. rewrite <-Ha.
      assert (({[txt e]} ∪ list_to_set (txt <$> es)) ∖ osets a others ∪ D = (list_to_set (txt <$> es) ∖ osets a others) ∪ ({[txt e]} ∪ D)) as -> by set_solver.
      apply IH; [done|done|done|done|simpl in Hf; lia|done|done|set_solver|set_solver|].
      by replace (list_to_set (txt <$> es) ∪ ({[txt e]} ∪ D)) with ({[txt e]} ∪ list_to_set (txt <$> es) ∪ D) by set_solver.
    + assert (txt e ∈ osets a others) as Hno. { apply dec_stable. intros Hno. by apply Hin in Hno; [|set_solver]. }
      assert (({[txt e]} ∪ list_to_set (txt <$> es)) ∖ osets a others ∪ D = (list_to_set (txt <$> es) ∖ osets a others) ∪ D) as -> by set_solver.
      apply IH; [done|done|done|done|simpl in Hf; lia|done|done|set_solver|set_solver|lia].
Qed.

Lemma osizes h a sets :
  drep h a → Forall (is_oset a) sets → mapM (λ s, n ← size_of be h s; Some (s, n)) sets = Some ((λ s, (s, Z.of_nat (size (oset a s)))) <$> sets).
Proof.
  intros Hh. induction 1 as [|[k|] sets Hk _ IH]; [done|..]; cbn [mapM]; rewrite IH; cbn [size_of oset is_oset] in *; [|done]. apply is_set_of in Hk.
  destruct (drep_obj h a k _ Hh Hk) as (o & _ & -> & Ho & _). cbn [mbind option_bind]. by rewrite (size_spec be ty max o _ Ho).
Qed.

Lemma osets_perm a sets sets' : sets ≡ₚ sets' → osets a sets = osets a sets'.
Proof. intros Hp. unfold osets. apply leibniz_equiv. by rewrite Hp. Qed.

Lemma union_diff_spec h a sets op :
  drep h a → Forall (is_oset a) sets → sets ≠ [] → Z.of_nat (size (osets a sets)) < 2 ^ 31 →
  let X := if op =? SET_OP_UNION then osets a sets else if op =? SET_OP_DIFF then oset a (hd None sets) ∖ osets a (tail sets) else ∅ in
  ∃ h' d, union_diff be junk ty qsort max cr h sets op = Some (h', d, Z.of_nat (size X)) ∧ drep h' a ∧ srep d X.
Proof.
  intros Hh Hall Hne Hsm. cbv zeta. unfold union_diff. destruct (create_int_spec be ty max) as (d0 & -> & Hd0); [lia|]. cbn [mbind option_bind].
  change 0 with (Z.of_nat (size (∅ : sset))). destruct (op =? SET_OP_UNION).
  { destruct (union_loop_spec h a sets d0 ∅ Hh Hall Hd0) as (d & -> & Hd); rewrite ?(right_id_L ∅ (∪)) in *; [done|]. by exists h, d. }
  destruct (op =? SET_OP_DIFF); [|by exists h, d0]. destruct sets as [|[first|] others]; [done| |]; cbn [hd tail oset].
  2:{ rewrite empty_diff. by exists h, d0. }
  pose proof Hall as Hall'. apply Forall_cons in Hall' as [Hf Ho]. cbn [is_oset] in Hf. apply is_set_of in Hf as Hf'. rewrite osets_cons in Hsm. cbn [oset] in Hsm.
  destruct (drep_obj h a first _ Hh Hf') as (o & _ & Hobj & Hro & _ & Hs). rewrite Hobj. cbn [mbind option_bind]. rewrite (osizes h a _ Hh Hall). cbn [mbind option_bind].
  rewrite (size_spec be ty max o _ Hro). cbn [mbind option_bind].
  assert (Z.of_nat (size (set_of a first)) ≤ Z.of_nat (size (set_of a first ∪ osets a others))) as Hle by (apply subset_size; set_solver).
  destruct (diff_algo _ _ =? 1).
  - rewrite fmap_cons. cbn [tail]. set (others' := (qsort _ _ _).*1). assert (others' ≡ₚ others) as Hp.
    { unfold others'. rewrite (qsort_perm _ qsortCompareSetsByRevCardinality). rewrite <-list_fmap_compose. by rewrite list_fmap_id. }
    rewrite <-(osets_perm a _ _ Hp). destruct (set_init_spec be ty max o _ Hro) as (es & Hsi & Hnd & Hes & Hok). rewrite <-Hes in Hle, Hsm.
    destruct (diff1_loop_spec a first o others' es (S (Z.to_nat (Z.of_nat (size (set_of a first))))) h (setTypeInitIterator o) d0 ∅) as (h' & d & He & Hh' & Hd);
      rewrite ?(right_id_L ∅ (∪)) in *; [done|by rewrite Hp|done|done|rewrite <-Hes, size_list_to_set, length_fmap by done; lia|done|done|set_solver|set_solver|lia|].
    rewrite Hes in *. by exists h', d.
  - cbn [diff2_loop]. destruct (each_spec h a first false d0 ∅ Hh Hf Hd0) as (d1 & -> & Hd1); [done|rewrite (right_id_L ∅ (∪)); lia|].
    rewrite (right_id_L ∅ (∪)) in *. cbn [mbind option_bind]. destruct (Z.eqb_spec (Z.of_nat (size (set_of a first))) 0) as [Hz|Hz].
    + assert (set_of a first = ∅) as E by (apply leibniz_equiv, size_empty_iff; lia). rewrite E in *. rewrite empty_diff. by exists h, d1.
    + destruct (diff2_loop_spec h a others d1 (set_of a first) Hh Ho Hd1 Hs) as (d2 & -> & Hd2). by exists h, d2.
Qed.

Lemma sunion_diff_refines h a keys dstkey op ra :
  drep h a → a_scmd a (SUnionDiff keys dstkey op) = Some ra → ∃ r, sunionDiffGenericCommand be junk ty qsort max cr h keys dstkey op = Some r ∧ sres_ok r ra.
Proof.
  intros Hh Ha. cbn [a_scmd] in Ha. unfold sunionDiffGenericCommand. rewrite (sets_lookup_eq h a keys Hh). destruct (sets_lookup a keys) as [sets|] eqn:E; [|injection Ha as <-; by eexists].
  destruct (decide _) as [[Hne Hsm]|]; [|done]. injection Ha as <-. destruct (sets_lookup_spec a keys sets E) as [Hall Hm].
  assert (osets a sets = union_of a keys) as Hu by (unfold osets, union_of; by rewrite Hm). rewrite <-Hu in *.
  destruct (union_diff_spec h a sets op Hh Hall) as (h' & d & -> & Hh' & Hd); [intros ->; by destruct keys|done|]. cbn [mbind option_bind].
  assert (oset a (hd None sets) ∖ osets a (tail sets) = set_of a (hd [] keys) ∖ union_of a (tail keys)) as Ed.
  { destruct keys as [|k keys], sets as [|s sets]; [done..|]. rewrite !fmap_cons in Hm. injection Hm as Hm1 Hm2. cbn [hd tail]. unfold osets, union_of. by rewrite Hm1, Hm2. }
  rewrite Ed in *. set (X := if op =? SET_OP_UNION then _ else _) in *. destruct dstkey as [dst|]; cbn [a_output].
  - apply store_spec; [done|done|]. unfold small_set. assert (Z.of_nat (size X) ≤ Z.of_nat (size (osets a sets))); [|lia]. apply subset_size. unfold X.
    destruct (op =? SET_OP_UNION); [done|]. destruct (op =? SET_OP_DIFF); [|set_solver]. rewrite <-Ed. destruct sets as [|s sets]; [set_solver|]. rewrite osets_cons. cbn [hd tail]. set_solver.
  - destruct (members_spec be ty max d X limit_max Hd) as (l & -> & Hl). cbn [mbind option_bind]. eexists. split; [done|]. split; [done|]. split; [|done]. by exists l.
Qed.

Lemma scmd_refines h a cmd ra :
  drep h a → a_scmd a cmd = Some ra → ∃ r, run_scmd be junk ty qsort max cr h cmd = Some r ∧ sres_ok r ra.
Proof.
  intros Hh Ha. destruct cmd; cbn [run_scmd].
  - by eapply sadd_refines.
  - by eapply srem_refines.
  - by eapply smove_refines.
  - by eapply sismember_refines.
  - by eapply scard_refines.
  - by eapply sinter_refines.
  - by eapply sunion_diff_refines.
Qed.

End Update.

(** ** Sequences of commands *)

Section Run.

Context (be : bool) (junk : nat → Z) (ty : dictType bytes) `{!DictTypeOk ty}.
Context (qsort : ∀ A : Type, (A → A → Z) → list A → list A) (qsort_perm : ∀ A cmp l, qsort A cmp l ≡ₚ l).
Context (max : Z).

(** Commands, each with the value of [dict_can_resize] at its time. *)
Fixpoint run_scmds (h : gmap bytes (dbval setobj)) (cmds : list (bool * scmd)) : option (gmap bytes (dbval setobj) * list (reply * list effect * Z)) :=
  match cmds with
  | [] => Some (h, [])
  | (cr, cmd) :: cmds =>
      '(h, r, ev, n) ← run_scmd be junk ty qsort max cr h cmd;
      '(h, rs) ← run_scmds h cmds;
      Some (h, (r, ev, n) :: rs)
  end.

Fixpoint a_scmds (a : gmap bytes (dbval sset)) (cmds : list (bool * scmd)) : option (gmap bytes (dbval sset) * list (sreply * list effect * Z)) :=
  match cmds with
  | [] => Some (a, [])
  | (_, cmd) :: cmds =>
      '(a, r, ev, n) ← a_scmd a cmd;
      '(a, rs) ← a_scmds a cmds;
      Some (a, (r, ev, n) :: rs)
  end.

Definition sout_ok (x : reply * list effect * Z) (y : sreply * list effect * Z) : Prop :=
  sreply_ok y.1.1 x.1.1 ∧ x.1.2 = y.1.2 ∧ x.2 = y.2.

(** C37: the sets of a database are finite sets of strings, whatever their encodings.  From a
    database that represents such sets, any sequence of SADD, SREM, SMOVE, SISMEMBER, SCARD, SINTER, SUNION,
    SDIFF, SMEMBERS and the STORE variants on any keys, the same key as source and destination
    included, that keeps the stated limits runs without a failed assertion, an overflow or a
    loop that does not end, through the conversions from intsets to hash tables, in any order
    in which [qsort] puts sets of the same size and with either algorithm for differences, and
    gives the replies, the keyspace events, the signals of modified keys and the changes of
    [server.dirty] of the sets, errors included; elements that are announced are sent, each
    once, in any order.  No key holds an empty set, and a set that is an intset has at most
    [set_max_intset_entries] elements. *)
Theorem sets_refine_finite_sets (h : gmap bytes (dbval setobj)) (a : gmap bytes (dbval sset)) (cmds : list (bool * scmd)) a' outs :
  0 ≤ max < 2 ^ 29 - 1 → drep be ty max h a → a_scmds a cmds = Some (a', outs) →
  ∃ h' rs, run_scmds h cmds = Some (h', rs) ∧ drep be ty max h' a' ∧ Forall2 sout_ok rs outs.
Proof.
  intros Hmax. revert h a a' outs. induction cmds as [|[cr cmd] cmds IH]; intros h a a' outs Hh Ha; cbn [run_scmds a_scmds] in *; [injection Ha as <- <-; by exists h, []|].
  apply bind_Some in Ha as ([[[a1 x] ev] n] & H1 & Ha). apply bind_Some in Ha as ([a2 xs] & H2 & Ha). injection Ha as <- <-.
  destruct (scmd_refines be junk ty cr max Hmax qsort qsort_perm h a cmd _ Hh H1) as ([[[h1 r] ev'] n'] & -> & Hh1 & Hr & -> & ->). cbn [mbind option_bind].
  destruct (IH h1 a1 a2 xs Hh1 H2) as (h2 & rs & -> & Hh2 & Hrs). cbn [mbind option_bind]. eexists _, _. split; [done|]. split; [done|]. by constructor.
Qed.

End Run.

(** ** A session with sets that outgrow their intsets *)

(** A sorting function, to run the commands. *)
Definition insert_sort (A : Type) (cmp : A → A → Z) : list A → list A :=
  fix go l := match l with [] => [] | x :: l =>
    (fix ins l := match l with [] => [x] | y :: l' => if 0 <? cmp x y then y :: ins l' else x :: l end) (go l) end.

Lemma insert_sort_perm A cmp l : insert_sort A cmp l ≡ₚ l.
Proof.
  induction l as [|x l IH]; [done|]. cbn [insert_sort]. fold (insert_sort A cmp). rewrite <-IH at 2. generalize (insert_sort A cmp l). clear. intros l.
  induction l as [|y l IH]; [done|]. destruct (0 <? cmp x y); [|done]. rewrite IH. apply perm_swap.
Qed.

Definition demo_sets : list (bool * scmd) :=
  [(true, SAdd (str "a") [str "1"; str "2"; str "1"]); (true, SAdd (str "b") [str "2"; str "x"]); (true, SAdd (str "a") [str "-7"]);
   (true, SInter [str "a"; str "b"; str "a"] None); (true, SMove (str "b") (str "a") (str "x")); (true, SUnionDiff [str "a"; str "none"; str "b"] (Some (str "c")) 1);
   (true, SCard (str "c")); (true, SUnionDiff [str "b"; str "c"] None 0); (true, SRem (str "b") [str "9"; str "2"; str "3"]);
   (true, SInter [str "a"; str "b"] (Some (str "c"))); (true, SIsMember (str "a") (str "-7")); (true, SAdd (str "s") [str "1"])].

Lemma sets_refine_finite_sets_witness :
  ∃ h' rs, run_scmds false (λ _, 7) bytesDictType insert_sort 2 {[str "s" := VOther 0]} demo_sets = Some (h', rs) ∧
    drep false bytesDictType 2 h' {[str "a" := VObj {[str "1"; str "2"; str "-7"; str "x"]}; str "s" := VOther 0]} ∧
    Forall2 sout_ok rs
      [(SExact (RInt 2), [Signal (str "a"); Notify "sadd" (str "a")], 2); (SExact (RInt 2), [Signal (str "b"); Notify "sadd" (str "b")], 2);
       (SExact (RInt 1), [Signal (str "a"); Notify "sadd" (str "a")], 1); (SMembers {[str "2"]}, [], 0);
       (SExact (RInt 1), [Notify "srem" (str "b"); Signal (str "b"); Signal (str "a"); Notify "sadd" (str "a")], 2);
       (SExact (RInt 3), [Notify "sdiffstore" (str "c"); Signal (str "c")], 1); (SExact (RInt 3), [], 0);
       (SMembers {[str "1"; str "2"; str "-7"; str "x"]}, [], 0);
       (SExact (RInt 1), [Signal (str "b"); Notify "srem" (str "b"); Notify "del" (str "b")], 1);
       (SExact (RInt 0), [Signal (str "c")], 1); (SExact (RInt 1), [], 0); (SExact wrongtypeerr, [], 0)].
Proof.
  apply (sets_refine_finite_sets false (λ _, 7) bytesDictType insert_sort insert_sort_perm 2 {[str "s" := VOther 0]} {[str "s" := VOther 0]} demo_sets); [lia| |].
  - intros k. destruct (decide (k = str "s")) as [->|Hne]; [rewrite !lookup_singleton_eq; by constructor|rewrite !lookup_singleton_ne by done; constructor].
  - vm_compute. reflexivity.
Defined.
