(* ===== verification/QuickList.v ===== *)
(** Quicklists (quicklist.c): a doubly linked list of ziplists, whose inner nodes may be
    compressed.

    The heap is split by field: [links] holds the pointers [prev] and [next] of every node,
    [ndata] the rest of it.  [zl] is NULL, a ziplist or compressed data, as [encoding] says.
    [None] is an access to a node that does not exist, to compressed data as to a ziplist, or
    outside of a ziplist; a loop that does not end; the overflow of a signed integer.  A new
    node is put at the address [alloc] gives for the set of addresses in use, [junk] is the
    contents of new memory and [htab] the hash table [lzf_compress] does not initialize. *)

From stdpp Require Import list numbers strings gmap.
From S2P Require Import Prelude Util SdsText Lzf Ziplist.

Abbreviation addr := Z (only parsing).

Definition SIZE_SAFETY_LIMIT : Z := 8192.
Definition MIN_COMPRESS_BYTES : Z := 48.
Definition MIN_COMPRESS_IMPROVE : Z := 8.
Definition COMPRESS_MAX : Z := Z.shiftl 1 16.
Definition FILL_MAX : Z := Z.shiftl 1 15.
Definition QUICKLIST_HEAD : Z := 0.
Definition QUICKLIST_TAIL : Z := -1.
Definition optimization_level : list Z := [4096; 8192; 16384; 32768; 65536].

Inductive zlptr := ZNull | ZRaw (zl : list Z) | ZLzf (compressed : list Z).

(** [count] has 16 bits, [sz] 32. *)
Record quicklistNode := Node { zl : zlptr; sz : Z; ncount : Z; recompress : bool }.

(** [fill] is a signed field of 16 bits, [compress] an unsigned one. *)
Record quicklist := Ql {
  qhead : option addr;
  qtail : option addr;
  qcount : Z;
  qlen : Z;
  fill : Z;
  compress : Z;
  links : gmap addr (option addr * option addr);
  ndata : gmap addr quicklistNode;
}.

Definition set_links (m : gmap addr (option addr * option addr)) (q : quicklist) : quicklist :=
  Ql (qhead q) (qtail q) (qcount q) (qlen q) (fill q) (compress q) m (ndata q).
Definition set_data (m : gmap addr quicklistNode) (q : quicklist) : quicklist :=
  Ql (qhead q) (qtail q) (qcount q) (qlen q) (fill q) (compress q) (links q) m.
Definition set_ends (h t : option addr) (q : quicklist) : quicklist :=
  Ql h t (qcount q) (qlen q) (fill q) (compress q) (links q) (ndata q).
Definition set_counts (c l : Z) (q : quicklist) : quicklist :=
  Ql (qhead q) (qtail q) c l (fill q) (compress q) (links q) (ndata q).
Definition set_opts (f c : Z) (q : quicklist) : quicklist :=
  Ql (qhead q) (qtail q) (qcount q) (qlen q) f c (links q) (ndata q).
Definition set_node (a : addr) (n : quicklistNode) (q : quicklist) : quicklist := set_data (<[a := n]> (ndata q)) q.

(** A field of a node that exists is assigned. *)
Definition set_prev (a : addr) (p : option addr) (q : quicklist) : option quicklist :=
  '(_, n) ← links q !! a; Some (set_links (<[a := (p, n)]> (links q)) q).
Definition set_next (a : addr) (n : option addr) (q : quicklist) : option quicklist :=
  '(p, _) ← links q !! a; Some (set_links (<[a := (p, n)]> (links q)) q).
Definition next (q : quicklist) (a : addr) : option (option addr) := snd <$> links q !! a.
Definition prev (q : quicklist) (a : addr) : option (option addr) := fst <$> links q !! a.

(** [zl] used as a ziplist. *)
Definition ziplist_of (n : quicklistNode) : option (list Z) := match zl n with ZRaw z => Some z | _ => None end.

(** ** Creation and options *)

Definition quicklistCreate : quicklist := Ql None None 0 0 (-2) 0 ∅ ∅.

Definition quicklistSetCompressDepth (q : quicklist) (c : Z) : quicklist :=
  let c := if COMPRESS_MAX <? c then COMPRESS_MAX else if c <? 0 then 0 else c in
  set_opts (fill q) (wrap_u 16 c) q.

Definition quicklistSetFill (q : quicklist) (f : Z) : quicklist :=
  let f := if FILL_MAX <? f then FILL_MAX else if f <? -5 then -5 else f in
  set_opts (wrap_s 16 f) (compress q) q.

Definition quicklistSetOptions (q : quicklist) (f depth : Z) : quicklist :=
  quicklistSetCompressDepth (quicklistSetFill q f) depth.

Definition quicklistNew (f c : Z) : quicklist := quicklistSetOptions quicklistCreate f c.

Definition quicklistCount (q : quicklist) : Z := qcount q.

(** ** Sizes *)

Definition _quicklistNodeSizeMeetsOptimizationRequirement (sz fill : Z) : bool :=
  if 0 <=? fill then false
  else
    let offset := - fill - 1 in
    match optimization_level !! Z.to_nat offset with Some limit => sz <=? limit | None => false end.

Definition sizeMeetsSafetyLimit (sz : Z) : bool := sz <=? SIZE_SAFETY_LIMIT.

Definition _quicklistNodeAllowInsert (n : option quicklistNode) (fill size : Z) : bool :=
  match n with
  | None => false
  | Some n =>
      let ziplist_overhead := if size <? 254 then 1 else 5 in
      let ziplist_overhead := ziplist_overhead + (if size <? 64 then 1 else if size <? 16384 then 2 else 5) in
      let new_sz := u32 (sz n + size + ziplist_overhead) in
      if _quicklistNodeSizeMeetsOptimizationRequirement new_sz fill then true
      else if negb (sizeMeetsSafetyLimit new_sz) then false
      else ncount n <? fill
  end.

Definition _quicklistNodeAllowMerge (a b : option quicklistNode) (fill : Z) : bool :=
  match a, b with
  | Some a, Some b =>
      let merge_sz := u32 (sz a + sz b - 11) in
      if _quicklistNodeSizeMeetsOptimizationRequirement merge_sz fill then true
      else if negb (sizeMeetsSafetyLimit merge_sz) then false
      else ncount a + ncount b <=? fill
  | _, _ => false
  end.

(** The node behind a pointer that may be NULL. *)
Definition deref (q : quicklist) (a : option addr) : option (option quicklistNode) :=
  match a with Some a => n ← ndata q !! a; Some (Some n) | None => Some None end.

Section Quicklist.

Context (junk : nat → Z) (htab : list Z → Z → Z) (alloc : gset addr → addr).

Definition quicklistCreateNode (q : quicklist) : addr * quicklist :=
  let a := alloc (dom (ndata q)) in
  (a, set_links (<[a := (None, None)]> (links q)) (set_node a (Node ZNull 0 0 false) q)).

(** ** Compression *)

Definition compress_zl (n : quicklistNode) : option quicklistNode :=
  if sz n <? MIN_COMPRESS_BYTES then Some n
  else
    z ← ziplist_of n;
    inp ← slice z 0 (sz n);
    '(out, lsz) ← lzf_compress inp (htab inp) (realloc junk [] (sz n));
    if (lsz =? 0) || (sz n <=? u32 (lsz + MIN_COMPRESS_IMPROVE)) then Some n
    else Some (Node (ZLzf (take (Z.to_nat lsz) out)) (sz n) (ncount n) false).

Definition __quicklistCompressNode (q : quicklist) (a : addr) : option quicklist :=
  n ← ndata q !! a; n ← compress_zl n; Some (set_node a n q).

Definition quicklistCompressNode (q : quicklist) (a : option addr) : option quicklist :=
  match a with
  | None => Some q
  | Some a =>
      n ← ndata q !! a;
      match zl n with ZLzf _ => Some q | _ => __quicklistCompressNode q a end
  end.

(** The result 0 leaves the node as it is. *)
Definition decompress_zl (n : quicklistNode) (c : list Z) : option quicklistNode :=
  '(out, r) ← lzf_decompress c (realloc junk [] (sz n));
  match r with
  | inl _ => Some n
  | inr k => Some (if k =? 0 then n else Node (ZRaw out) (sz n) (ncount n) (recompress n))
  end.

Definition quicklistDecompressNode (q : quicklist) (a : option addr) : option quicklist :=
  match a with
  | None => Some q
  | Some a =>
      n ← ndata q !! a;
      match zl n with ZLzf c => n ← decompress_zl n c; Some (set_node a n q) | _ => Some q end
  end.

Definition quicklistDecompressNodeForUse (q : quicklist) (a : option addr) : option quicklist :=
  match a with
  | None => Some q
  | Some a =>
      n ← ndata q !! a;
      match zl n with
      | ZLzf c => n ← decompress_zl n c; Some (set_node a (Node (zl n) (sz n) (ncount n) true) q)
      | _ => Some q
      end
  end.

(** The loop of [__quicklistCompress] with [n] iterations left: the early return, or the
    nodes beyond the depth and [in_depth]. *)
Fixpoint depth_loop (n : nat) (q : quicklist) (forward reverse node : option addr) (in_depth : bool)
    : option (quicklist + quicklist * option addr * option addr * bool) :=
  match n with
  | O => Some (inr (q, forward, reverse, in_depth))
  | S n =>
      q ← quicklistDecompressNode q forward;
      q ← quicklistDecompressNode q reverse;
      let in_depth := in_depth || bool_decide (forward = node) || bool_decide (reverse = node) in
      if bool_decide (forward = reverse) then Some (inl q)
      else
        f ← forward;
        r ← reverse;
        forward ← next q f;
        reverse ← prev q r;
        depth_loop n q forward reverse node in_depth
  end.

Definition __quicklistCompress (q : quicklist) (node : option addr) : option quicklist :=
  if (compress q =? 0) || (qlen q <? compress q * 2) then Some q
  else
    r ← depth_loop (Z.to_nat (compress q)) q (qhead q) (qtail q) node false;
    match r with
    | inl q => Some q
    | inr (q, forward, reverse, in_depth) =>
        let depth := compress q + 1 in
        q ← (if (in_depth : bool) then Some q else quicklistCompressNode q node);
        if 2 <? depth then
          q ← quicklistCompressNode q forward;
          quicklistCompressNode q reverse
        else Some q
    end.

Definition quicklistCompress (q : quicklist) (a : addr) : option quicklist :=
  n ← ndata q !! a;
  if recompress n then quicklistCompressNode q (Some a) else __quicklistCompress q (Some a).

Definition quicklistRecompressOnly (q : quicklist) (a : addr) : option quicklist :=
  n ← ndata q !! a;
  if recompress n then quicklistCompressNode q (Some a) else Some q.

(** ** Nodes *)

(** The pointers of [__quicklistInsertNode]. *)
Definition link_node (q : quicklist) (old_node : option addr) (new_node : addr) (after : bool) : option quicklist :=
  q ← (if after then
         q ← set_prev new_node old_node q;
         q ← match old_node with
             | Some o =>
                 on ← next q o;
                 q ← set_next new_node on q;
                 q ← match on with Some x => set_prev x (Some new_node) q | None => Some q end;
                 set_next o (Some new_node) q
             | None => Some q
             end;
         Some (if bool_decide (qtail q = old_node) then set_ends (qhead q) (Some new_node) q else q)
       else
         q ← set_next new_node old_node q;
         q ← match old_node with
             | Some o =>
                 op ← prev q o;
                 q ← set_prev new_node op q;
                 q ← match op with Some x => set_next x (Some new_node) q | None => Some q end;
                 set_prev o (Some new_node) q
             | None => Some q
             end;
         Some (if bool_decide (qhead q = old_node) then set_ends (Some new_node) (qtail q) q else q));
  Some (if qlen q =? 0 then set_ends (Some new_node) (Some new_node) q else q).

Definition __quicklistInsertNode (q : quicklist) (old_node : option addr) (new_node : addr) (after : bool) : option quicklist :=
  q ← link_node q old_node new_node after;
  q ← match old_node with Some o => quicklistCompress q o | None => Some q end;
  Some (set_counts (qcount q) (qlen q + 1) q).

Definition __quicklistDelNode (q : quicklist) (a : addr) : option quicklist :=
  '(p, n) ← links q !! a;
  q ← match n with Some n => set_prev n p q | None => Some q end;
  q ← match p with Some p => set_next p n q | None => Some q end;
  let q := if bool_decide (qtail q = Some a) then set_ends (qhead q) p q else q in
  let q := if bool_decide (qhead q = Some a) then set_ends n (qtail q) q else q in
  q ← __quicklistCompress q None;
  d ← ndata q !! a;
  Some (set_counts (u64 (qcount q - ncount d)) (qlen q - 1)
         (set_links (delete a (links q)) (set_data (delete a (ndata q)) q))).

(** A new value of [zl], followed by [quicklistNodeUpdateSz]. *)
Definition update_zl (a : addr) (z : list Z) (c : Z) (q : quicklist) : option quicklist :=
  n ← ndata q !! a;
  s ← ziplistBlobLen z;
  Some (set_node a (Node (ZRaw z) s (wrap_u 16 c) (recompress n)) q).

(** ** Pushing *)

(** [quicklistCreateNode] with one entry, not yet counted in [count]. *)
Definition node_with (q : quicklist) (value : list Z) (where_ c : Z) : option (addr * quicklist) :=
  let '(a, q) := quicklistCreateNode q in
  z ← ziplistNew junk;
  z ← ziplistPush junk z value where_;
  q ← update_zl a z c q;
  Some (a, q).

(** [node->count++] *)
Definition incr_count (q : quicklist) (a : addr) : option quicklist :=
  n ← ndata q !! a; Some (set_node a (Node (zl n) (sz n) (wrap_u 16 (ncount n + 1)) (recompress n)) q).

Definition quicklistPushHead (q : quicklist) (value : list Z) : option (quicklist * bool) :=
  let orig_head := qhead q in
  n ← deref q orig_head;
  q ← (if _quicklistNodeAllowInsert n (fill q) (zlen value) then
         a ← orig_head;
         n ← n;
         z ← ziplist_of n;
         z ← ziplistPush junk z value ZIPLIST_HEAD;
         update_zl a z (ncount n) q
       else
         '(a, q) ← node_with q value ZIPLIST_HEAD 0;
         __quicklistInsertNode q (qhead q) a false);
  h ← qhead q;
  q ← incr_count (set_counts (u64 (qcount q + 1)) (qlen q) q) h;
  Some (q, negb (bool_decide (orig_head = qhead q))).

Definition quicklistPushTail (q : quicklist) (value : list Z) : option (quicklist * bool) :=
  let orig_tail := qtail q in
  n ← deref q orig_tail;
  q ← (if _quicklistNodeAllowInsert n (fill q) (zlen value) then
         a ← orig_tail;
         n ← n;
         z ← ziplist_of n;
         z ← ziplistPush junk z value ZIPLIST_TAIL;
         update_zl a z (ncount n) q
       else
         '(a, q) ← node_with q value ZIPLIST_TAIL 0;
         __quicklistInsertNode q (qtail q) a true);
  t ← qtail q;
  q ← incr_count (set_counts (u64 (qcount q + 1)) (qlen q) q) t;
  Some (q, negb (bool_decide (orig_tail = qtail q))).

Definition quicklistPush (q : quicklist) (value : list Z) (where_ : Z) : option quicklist :=
  if where_ =? QUICKLIST_HEAD then fst <$> quicklistPushHead q value
  else if where_ =? QUICKLIST_TAIL then fst <$> quicklistPushTail q value
  else Some q.

(** ** Deleting one entry *)

(** The node is gone or not, with the pointer to the next entry. *)
Definition quicklistDelIndex (q : quicklist) (a : addr) (p : Z) : option (quicklist * bool * Z) :=
  n ← ndata q !! a;
  z ← ziplist_of n;
  '(z, p) ← ziplistDelete junk z p;
  let c := wrap_u 16 (ncount n - 1) in
  '(q, gone) ← (if c =? 0 then
                  q ← __quicklistDelNode (set_node a (Node (ZRaw z) (sz n) c (recompress n)) q) a; Some (q, true)
                else q ← update_zl a z c q; Some (q, false));
  Some (set_counts (u64 (qcount q - 1)) (qlen q) q, gone, p).

(** ** Positions *)

Inductive direction := AL_START_HEAD | AL_START_TAIL.

(** [value] with [sz], or [longval]. *)
Record quicklistEntry := Entry { e_node : option addr; e_zi : option Z; e_value : list Z + Z; e_offset : Z }.

Record quicklistIter := Iter { current : option addr; zi : option Z; offset : Z; dir : direction }.

Definition initEntry : quicklistEntry := Entry None None (inr (-123456789)) 123456789.

(** [ziplistGet] into the fields of an entry. *)
Definition get_entry (q : quicklist) (a : addr) (p : option Z) (offset : Z) : option quicklistEntry :=
  n ← ndata q !! a;
  z ← ziplist_of n;
  r ← ziplistGet z p;
  Some (Entry (Some a) p (default (e_value initEntry) r) offset).

(** The loop of [quicklistIndex]: the node and [accum]. *)
Fixpoint index_loop (fuel : nat) (q : quicklist) (forward : bool) (n : option addr) (accum index : Z) : option (option addr * Z) :=
  match fuel with
  | O => None
  | S fuel =>
      match n with
      | None => Some (None, accum)
      | Some a =>
          d ← ndata q !! a;
          if index <? u64 (accum + ncount d) then Some (Some a, accum)
          else
            n ← (if forward then next q a else prev q a);
            index_loop fuel q forward n (u64 (accum + ncount d)) index
      end
  end.

(** [Some (q, None)] is the result 0. *)
Definition quicklistIndex (q : quicklist) (idx : Z) : option (quicklist * option quicklistEntry) :=
  let forward := negb (idx <? 0) in
  '(index, n) ← (if forward then Some (idx, qhead q)
                 else if idx =? - 2 ^ 63 then None else Some (- idx - 1, qtail q));
  if qcount q <=? index then Some (q, None)
  else
    '(n, accum) ← index_loop (S (size (ndata q))) q forward n 0 index;
    match n with
    | None => Some (q, None)
    | Some a =>
        let offset := s32 (if forward then index - accum else - index - 1 + accum) in
        q ← quicklistDecompressNodeForUse q (Some a);
        d ← ndata q !! a;
        z ← ziplist_of d;
        p ← ziplistIndex z offset;
        e ← get_entry q a p offset;
        Some (q, Some e)
    end.

Definition quicklistGetIterator (q : quicklist) (direction : direction) : quicklistIter :=
  match direction with
  | AL_START_HEAD => Iter (qhead q) None 0 direction
  | AL_START_TAIL => Iter (qtail q) None (-1) direction
  end.

Definition quicklistGetIteratorAtIdx (q : quicklist) (direction : direction) (idx : Z) : option (quicklist * option quicklistIter) :=
  '(q, e) ← quicklistIndex q idx;
  Some (q, match e with Some e => Some (Iter (e_node e) None (e_offset e) direction) | None => None end).

Definition quicklistReleaseIterator (q : quicklist) (iter : quicklistIter) : option quicklist :=
  match current iter with Some a => quicklistCompress q a | None => Some q end.

(** The result 0 is [None] in the last component. *)
Fixpoint next_loop (fuel : nat) (q : quicklist) (iter : quicklistIter) : option (quicklist * quicklistIter * option quicklistEntry) :=
  match fuel with
  | O => None
  | S fuel =>
      match current iter with
      | None => Some (q, iter, None)
      | Some a =>
          '(q, p, off) ← match zi iter with
                         | None =>
                             q ← quicklistDecompressNodeForUse q (Some a);
                             n ← ndata q !! a;
                             z ← ziplist_of n;
                             p ← ziplistIndex z (s32 (offset iter));
                             Some (q, p, offset iter)
                         | Some p =>
                             n ← ndata q !! a;
                             z ← ziplist_of n;
                             match dir iter with
                             | AL_START_HEAD => p ← ziplistNext z p; Some (q, p, offset iter + 1)
                             | AL_START_TAIL => p ← ziplistPrev z p; Some (q, p, offset iter - 1)
                             end
                         end;
          match p with
          | Some p =>
              e ← get_entry q a (Some p) (s32 off);
              Some (q, Iter (Some a) (Some p) off (dir iter), Some e)
          | None =>
              q ← quicklistCompress q a;
              match dir iter with
              | AL_START_HEAD => b ← next q a; next_loop fuel q (Iter b None 0 (dir iter))
              | AL_START_TAIL => b ← prev q a; next_loop fuel q (Iter b None (-1) (dir iter))
              end
          end
      end
  end.

(** Each call recurs at most once per node. *)
Definition quicklistNext (q : quicklist) (iter : option quicklistIter)
    : option (quicklist * option quicklistIter * option quicklistEntry) :=
  match iter with
  | None => Some (q, None, None)
  | Some iter => '(q, iter, e) ← next_loop (S (S (size (ndata q)))) q iter; Some (q, Some iter, e)
  end.

Definition quicklistDelEntry (q : quicklist) (iter : quicklistIter) (e : quicklistEntry) : option (quicklist * quicklistIter) :=
  a ← e_node e;
  p ← prev q a;
  n ← next q a;
  zi ← e_zi e;
  '(q, deleted_node, _) ← quicklistDelIndex q a zi;
  Some (q, if (deleted_node : bool) then
             match dir iter with
             | AL_START_HEAD => Iter n None 0 (dir iter)
             | AL_START_TAIL => Iter p None (-1) (dir iter)
             end
           else Iter (current iter) None (offset iter) (dir iter)).

Definition quicklistReplaceAtIndex (q : quicklist) (index : Z) (data : list Z) : option (quicklist * bool) :=
  '(q, e) ← quicklistIndex q index;
  match e with
  | Some e =>
      a ← e_node e;
      n ← ndata q !! a;
      z ← ziplist_of n;
      zi ← e_zi e;
      '(z, zi) ← ziplistDelete junk z zi;
      z ← ziplistInsert junk z zi data;
      q ← update_zl a z (ncount n) q;
      q ← quicklistCompress q a;
      Some (q, true)
  | None => Some (q, false)
  end.

(** ** Inserting in the middle *)

(** The pointer [ziplistMerge] does not set to NULL: the longer ziplist grows. *)
Definition merge_keeps_first (first second : list Z) : option bool :=
  first_len ← ZIPLIST_LENGTH first; second_len ← ZIPLIST_LENGTH second; Some (second_len <=? first_len).

(** [None] is NULL. *)
Definition _quicklistZiplistMerge (q : quicklist) (a b : addr) : option (quicklist * option addr) :=
  q ← quicklistDecompressNode q (Some a);
  q ← quicklistDecompressNode q (Some b);
  na ← ndata q !! a;
  nb ← ndata q !! b;
  za ← ziplist_of na;
  zb ← ziplist_of nb;
  r ← ziplistMerge junk (Some za) (Some zb) (bool_decide (a = b));
  match r with
  | Some z =>
      first ← merge_keeps_first za zb;
      let '(keep, nokeep) := if (first : bool) then (a, b) else (b, a) in
      '(z, c) ← ziplistLen z;
      q ← update_zl keep z c q;
      nn ← ndata q !! nokeep;
      let q := set_node nokeep (Node ZNull (sz nn) 0 (recompress nn)) q in
      q ← __quicklistDelNode q nokeep;
      q ← quicklistCompress q keep;
      Some (q, Some keep)
  | None => Some (q, None)
  end.

(** [if (_quicklistNodeAllowMerge(a, b, fill))] then merge [x] and [y]. *)
Definition try_merge (q : quicklist) (a b : option addr) (merge : quicklist → option (quicklist * option addr))
    (otherwise : option addr) : option (quicklist * option addr) :=
  na ← deref q a;
  nb ← deref q b;
  if _quicklistNodeAllowMerge na nb (fill q) then merge q else Some (q, otherwise).

(** Both pointers of a merge are not NULL when it is allowed. *)
Definition merge_ptrs (a b : option addr) (q : quicklist) : option (quicklist * option addr) :=
  a ← a; b ← b; _quicklistZiplistMerge q a b.

Definition _quicklistMergeNodes (q : quicklist) (center : addr) : option quicklist :=
  p ← prev q center;
  pp ← match p with Some p => prev q p | None => Some None end;
  n ← next q center;
  nn ← match n with Some n => next q n | None => Some None end;
  '(q, _) ← try_merge q p pp (merge_ptrs pp p) None;
  '(q, _) ← try_merge q n nn (merge_ptrs n nn) None;
  p ← prev q center;
  '(q, target) ← try_merge q (Some center) p (merge_ptrs p (Some center)) (Some center);
  t ← target;
  n ← next q t;
  '(q, _) ← try_merge q target n (merge_ptrs target n) None;
  Some q.

Definition _quicklistSplitNode (q : quicklist) (a : addr) (offset : Z) (after : bool) : option (quicklist * addr) :=
  n ← ndata q !! a;
  let zl_sz := sz n in
  let '(x, q) := quicklistCreateNode q in
  z ← ziplist_of n;
  copy ← slice z 0 zl_sz;
  let '(orig_start, orig_extent, new_start, new_extent) :=
    if after then (offset + 1, -1, 0, offset + 1) else (0, offset, offset, -1) in
  z ← ziplistDeleteRange junk z orig_start (u32 orig_extent);
  '(z, c) ← ziplistLen z;
  q ← update_zl a z c q;
  copy ← ziplistDeleteRange junk copy new_start (u32 new_extent);
  '(copy, c) ← ziplistLen copy;
  q ← update_zl x copy c q;
  Some (q, x).

(** A value pushed or inserted in a node that is uncompressed for it. *)
Definition insert_in (q : quicklist) (a : addr) (ins : list Z → option (list Z)) : option quicklist :=
  q ← quicklistDecompressNodeForUse q (Some a);
  n ← ndata q !! a;
  z ← ziplist_of n;
  z ← ins z;
  q ← update_zl a z (ncount n + 1) q;
  quicklistRecompressOnly q a.

Definition _quicklistInsert (q : quicklist) (e : quicklistEntry) (value : list Z) (after : bool) : option quicklist :=
  match e_node e with
  | None =>
      let '(x, q) := quicklistCreateNode q in
      z ← ziplistNew junk;
      z ← ziplistPush junk z value ZIPLIST_HEAD;
      q ← __quicklistInsertNode (set_node x (Node (ZRaw z) 0 0 false) q) None x after;
      q ← incr_count q x;
      Some (set_counts (u64 (qcount q + 1)) (qlen q) q)
  | Some a =>
      n ← ndata q !! a;
      nx ← next q a;
      pv ← prev q a;
      dn ← deref q nx;
      dp ← deref q pv;
      let full := negb (_quicklistNodeAllowInsert (Some n) (fill q) (zlen value)) in
      let at_tail := after && (e_offset e =? ncount n) in
      let full_next := at_tail && negb (_quicklistNodeAllowInsert dn (fill q) (zlen value)) in
      let at_head := negb after && (e_offset e =? 0) in
      let full_prev := at_head && negb (_quicklistNodeAllowInsert dp (fill q) (zlen value)) in
      let has_next := bool_decide (is_Some nx) in
      let has_prev := bool_decide (is_Some pv) in
      q ← (if negb full && after then
             insert_in q a (λ z,
               p ← e_zi e;
               nxt ← ziplistNext z p;
               match nxt with None => ziplistPush junk z value ZIPLIST_TAIL | Some nxt => ziplistInsert junk z nxt value end)
           else if negb full && negb after then insert_in q a (λ z, p ← e_zi e; ziplistInsert junk z p value)
           else if full && at_tail && has_next && negb full_next && after then
             x ← nx; insert_in q x (λ z, ziplistPush junk z value ZIPLIST_HEAD)
           else if full && at_head && has_prev && negb full_prev && negb after then
             x ← pv; insert_in q x (λ z, ziplistPush junk z value ZIPLIST_TAIL)
           else if full && ((at_tail && has_next && full_next && after) || (at_head && has_prev && full_prev && negb after)) then
             '(x, q) ← node_with q value ZIPLIST_HEAD 1;
             __quicklistInsertNode q (Some a) x after
           else if full then
             q ← quicklistDecompressNodeForUse q (Some a);
             '(q, x) ← _quicklistSplitNode q a (e_offset e) after;
             nd ← ndata q !! x;
             z ← ziplist_of nd;
             z ← ziplistPush junk z value (if after then ZIPLIST_HEAD else ZIPLIST_TAIL);
             q ← update_zl x z (ncount nd + 1) q;
             q ← __quicklistInsertNode q (Some a) x after;
             _quicklistMergeNodes q a
           else Some q);
      Some (set_counts (u64 (qcount q + 1)) (qlen q) q)
  end.

Definition quicklistInsertBefore (q : quicklist) (e : quicklistEntry) (value : list Z) : option quicklist := _quicklistInsert q e value false.
Definition quicklistInsertAfter (q : quicklist) (e : quicklistEntry) (value : list Z) : option quicklist := _quicklistInsert q e value true.

(** ** Deleting a range *)

(** A part of a node is deleted, and the node when nothing is left of it. *)
Definition del_in_node (q : quicklist) (a : addr) (offset del : Z) : option quicklist :=
  q ← quicklistDecompressNodeForUse q (Some a);
  n ← ndata q !! a;
  z ← ziplist_of n;
  z ← ziplistDeleteRange junk z offset (u32 del);
  q ← update_zl a z (ncount n - del) q;
  let q := set_counts (u64 (qcount q - del)) (qlen q) q in
  n ← ndata q !! a;
  if ncount n =? 0 then __quicklistDelNode q a else quicklistRecompressOnly q a.

Fixpoint del_loop (fuel : nat) (q : quicklist) (node : option addr) (offset extent : Z) : option quicklist :=
  match fuel with
  | O => None
  | S fuel =>
      if extent =? 0 then Some q
      else
        a ← node;
        nx ← next q a;
        n ← ndata q !! a;
        let '(del, delete_entire_node) :=
          if (offset =? 0) && (ncount n <=? extent) then (ncount n, true)
          else if (0 <=? offset) && (ncount n <=? extent) then (ncount n - offset, false)
          else if offset <? 0 then ((if extent <? - offset then extent else - offset), false)
          else (extent, false) in
        q ← (if delete_entire_node then __quicklistDelNode q a else del_in_node q a offset del);
        del_loop fuel q nx 0 (u64 (extent - del))
  end.

Definition quicklistDelRange (q : quicklist) (start count : Z) : option (quicklist * bool) :=
  if count <=? 0 then Some (q, false)
  else
    let extent :=
      if (0 <=? start) && (u64 (qcount q - start) <? count) then u64 (qcount q - start)
      else if (start <? 0) && (- start <? count) then - start
      else count in
    '(q, e) ← quicklistIndex q start;
    match e with
    | None => Some (q, false)
    | Some e => q ← del_loop (S (size (ndata q))) q (e_node e) (e_offset e) extent; Some (q, true)
    end.

(** ** Reading and popping *)

(** What [saver] copies, or the integer; [None] is the result 0. *)
Definition quicklistPopCustom (q : quicklist) (where_ : Z) : option (quicklist * option (list Z + Z)) :=
  let pos := if where_ =? QUICKLIST_HEAD then 0 else -1 in
  if qcount q =? 0 then Some (q, None)
  else
    let node := if where_ =? QUICKLIST_HEAD then qhead q else if where_ =? QUICKLIST_TAIL then qtail q else None in
    match node with
    | None => Some (q, None)
    | Some a =>
        n ← ndata q !! a;
        z ← ziplist_of n;
        p ← ziplistIndex z pos;
        r ← ziplistGet z p;
        match r with
        | Some v => p ← p; '(q, _, _) ← quicklistDelIndex q a p; Some (q, Some v)
        | None => Some (q, None)
        end
    end.

(** The entry [e_zi] points to, compared with a string. *)
Definition quicklistCompare (q : quicklist) (e : quicklistEntry) (s : list Z) : option bool :=
  a ← e_node e; n ← ndata q !! a; z ← ziplist_of n; p ← e_zi e; ziplistCompare z p s.

End Quicklist.
