(* ===== verification/QuickListNode.v ===== *)
(** The nodes of a quicklist: what a node holds, compressed or not, the chain of nodes, and
    what compressing a part of the list leaves unchanged. *)

From stdpp Require Import list numbers strings gmap.
From S2P Require Import Prelude Util SdsText Lzf Ziplist ZiplistEntry ZiplistList ZiplistRefine QuickList.

(** ** The bytes of a ziplist *)

Abbreviation all_bytes := (Forall (Forall is_byte)).

Lemma land_byte x : is_byte (Z.land x 255).
Proof. unfold is_byte. change 255 with (Z.ones 8). rewrite Z.land_ones by lia. apply Z.mod_pos_bound. lia. Qed.

Lemma header_bytes n : 0 ≤ n → Forall is_byte (str_header n).
Proof.
  intros Hn. destruct (Z_le_gt_dec n 63).
  - destruct (str_header_6 n) as (c & -> & ? & _); [lia|]. apply Forall_singleton. unfold is_byte. lia.
  - destruct (Z_le_gt_dec n 16383) as [H|H].
    + destruct (str_header_14 n ltac:(lia)) as (c & d & E & Hc & _). unfold entry_encoding in *. cbn [ZIP_IS_STR Z.land Z.ltb Z.compare] in *.
      rewrite (proj2 (Z.leb_gt _ _)), (proj2 (Z.leb_le n 16383)) in * by lia. injection E as E _. rewrite E.
      repeat (apply Forall_cons; split; [first [unfold is_byte; lia|apply land_byte]|]); by apply Forall_nil.
    + unfold entry_encoding. cbn [ZIP_IS_STR Z.land Z.ltb Z.compare]. rewrite (proj2 (Z.leb_gt _ _)), (proj2 (Z.leb_gt n 16383)) by lia.
      repeat (apply Forall_cons; split; [first [done|apply land_byte]|]); by apply Forall_nil.
Qed.

Lemma payload_bytes s : Forall is_byte s → Forall is_byte (payload s).
Proof.
  intros Hs. unfold payload. destruct (try_int s) as [v|].
  - apply Forall_cons. split; [pose proof (int_encoding_range v); unfold is_byte; lia|]. unfold int_data. repeat case_match; try apply le_encode_bytes. by apply Forall_nil.
  - apply Forall_app. split; [apply header_bytes; lia|done].
Qed.

Lemma body_bytes es : ∀ prev, fits prev es → all_bytes es.*2 → Forall is_byte (body prev es).
Proof.
  induction es as [|[b s] es IH]; intros prev Hf Hb; [by apply Forall_nil|]. cbn [fmap list_fmap snd] in Hb. apply Forall_cons in Hb as [Hs Hb].
  destruct Hf as ([Hp Hsmall] & _ & Hf). cbn [body]. rewrite !Forall_app. split_and!; [|by apply payload_bytes|by apply IH].
  destruct b; cbn [prev_bytes].
  - apply Forall_cons. split; [done|apply le_encode_bytes].
  - apply Forall_singleton. specialize (Hsmall eq_refl). unfold is_byte, in_u, ZIP_BIG_PREVLEN in *. lia.
Qed.

Lemma zrep_bytes z l : zrep z l → all_bytes l → Forall is_byte z.
Proof.
  intros (es & n & -> & <- & Hf & _) Hb. unfold zl_bytes, header. rewrite !Forall_app.
  split_and!; try apply le_encode_bytes; [by apply body_bytes|by apply Forall_singleton].
Qed.

Lemma zrep_size z l : zrep z l → 11 + 2 * zlen l ≤ zlen z ≤ csize l - 11 ∧ zlen z < 2 ^ 32 ∧ ziplistBlobLen z = Some (zlen z).
Proof.
  intros (es & n & -> & <- & Hf & Hn & Hc). rewrite zl_bytes_length, length_fmap. pose proof (csize_bound es). pose proof (bsize_bounds es).
  split; [lia|]. split; [lia|]. unfold ziplistBlobLen. apply get_bytes_zl. lia.
Qed.

Lemma slice_whole (z : list Z) : slice z 0 (zlen z) = Some z.
Proof. pose proof (slice_front z [] (zlen z) eq_refl) as H. by rewrite app_nil_r in H. Qed.

(** ** What a node holds *)

(** The node holds the strings [l], as a ziplist or compressed; [k] of them are not counted
    yet.  Without compression nothing is compressed and no node is marked for it. *)
Definition holds (k c : Z) (n : quicklistNode) (l : list (list Z)) : Prop :=
  ∃ z, zrep z l ∧ all_bytes l ∧ sz n = zlen z ∧ ncount n + k = zlen l ∧ zlen l < 2 ^ 16 ∧ (c = 0 → recompress n = false) ∧
    (zl n = ZRaw z ∨ ∃ cs, zl n = ZLzf cs ∧ c ≠ 0 ∧ ∀ buf, zlen z ≤ zlen buf → lzf_decompress cs buf = Some (z ++ drop (length z) buf, inr (zlen z))).

Definition raw (n : quicklistNode) : Prop := ∃ z, zl n = ZRaw z.

Lemma holds_flat k n l : holds k 0 n l → raw n.
Proof. intros (z & _ & _ & _ & _ & _ & _ & [H|(? & _ & ? & _)]); [by exists z|done]. Qed.

Lemma holds_raw k c n l : holds k c n l → raw n → ∃ z, ziplist_of n = Some z ∧ zl n = ZRaw z ∧ zrep z l.
Proof.
  intros (z & Hz & _ & _ & _ & _ & _ & Hr) [z' E]. exists z. destruct Hr as [Hr|(? & Hr & _)]; [|congruence]. unfold ziplist_of. by rewrite Hr.
Qed.

Lemma holds_intro k c z l r n :
  zrep z l → all_bytes l → n + k = zlen l → zlen l < 2 ^ 16 → (c = 0 → r = false) → holds k c (Node (ZRaw z) (zlen z) n r) l.
Proof. intros. exists z. split_and!; auto. Qed.

(** The rest of a node that is replaced by another one with the same contents. *)
Lemma holds_count k c n l : holds k c n l → ncount n + k = zlen l ∧ zlen l < 2 ^ 16 ∧ all_bytes l ∧ (c = 0 → recompress n = false) ∧ 11 + 2 * zlen l ≤ sz n ≤ csize l - 11.
Proof. intros (z & Hz & Hb & Hs & Hn & Hl & Hr & _). rewrite Hs. by destruct (zrep_size z l Hz) as [? _]. Qed.

Section Compression.

Context (junk : nat → Z).

Lemma decompress_zl_spec k c n l cs : holds k c n l → zl n = ZLzf cs → ∃ z, decompress_zl junk n cs = Some (Node (ZRaw z) (sz n) (ncount n) (recompress n)) ∧ ∀ r, holds k c (Node (ZRaw z) (sz n) (ncount n) r) l.
Proof.
  intros (z & Hz & Hb & Hs & Hn & Hl & _ & Hor) E. destruct Hor as [E'|(cs' & E' & Hc & Hd)]; [congruence|]. rewrite E in E'. injection E' as <-.
  exists z. unfold decompress_zl. rewrite Hs. rewrite Hd by (rewrite realloc_length; lia). cbn [mbind option_bind].
  destruct (zrep_size z l Hz) as (Hmin & _ & _). rewrite (proj2 (Z.eqb_neq _ _)) by lia.
  rewrite drop_ge by (pose proof (realloc_length junk [] (zlen z)); lia). rewrite app_nil_r. split; [done|]. intros r. exists z. cbn.
  split_and!; try done. by left.
Qed.

(** ** States that differ in the compression of nodes *)

Definition good (q : quicklist) (a : addr) : Prop := ∃ n l k, ndata q !! a = Some n ∧ holds k (compress q) n l.
Definition raw_at (q : quicklist) (a : addr) : Prop := ∃ n, ndata q !! a = Some n ∧ raw n.

Definition recoded (q q' : quicklist) : Prop :=
  q' = set_data (ndata q') q ∧ dom (ndata q') = dom (ndata q) ∧
  ∀ a n, ndata q !! a = Some n → ∃ n', ndata q' !! a = Some n' ∧ ncount n' = ncount n ∧ ∀ k l, holds k (compress q) n l → holds k (compress q) n' l.

#[export] Instance recoded_preorder : PreOrder recoded.
Proof.
  split.
  - intros q. split; [by destruct q|]. split; [done|]. intros a n H. eauto.
  - intros q1 q2 q3 (E1 & D1 & H1) (E2 & D2 & H2). split; [rewrite E2, E1; done|]. split; [congruence|]. intros a n Hn.
    destruct (H1 a n Hn) as (n2 & Hn2 & En & Hh). destruct (H2 a n2 Hn2) as (n3 & Hn3 & En2 & Hh2). exists n3. split; [done|]. split; [congruence|].
    assert (compress q2 = compress q1) as Ec by by rewrite E1. rewrite Ec in Hh2. auto.
Qed.

Lemma recoded_fields q q' :
  recoded q q' → qhead q' = qhead q ∧ qtail q' = qtail q ∧ qcount q' = qcount q ∧ qlen q' = qlen q ∧ fill q' = fill q ∧ compress q' = compress q ∧ links q' = links q.
Proof. intros [-> _]. done. Qed.

Lemma recoded_good q q' a : recoded q q' → good q a → good q' a.
Proof.
  intros Hr (n & l & k & Hn & Hh). destruct (recoded_fields q q' Hr) as (_ & _ & _ & _ & _ & Ec & _). destruct Hr as (_ & _ & H). destruct (H a n Hn) as (n' & Hn' & _ & Hh').
  exists n', l, k. rewrite Ec. auto.
Qed.

Lemma recoded_holds k q q' a n l : recoded q q' → ndata q !! a = Some n → holds k (compress q) n l → ∃ n', ndata q' !! a = Some n' ∧ holds k (compress q') n' l.
Proof.
  intros Hr Hn Hh. destruct (recoded_fields q q' Hr) as (_ & _ & _ & _ & _ & -> & _). destruct Hr as (_ & _ & H). destruct (H a n Hn) as (n' & Hn' & _ & Hh'); eauto.
Qed.

(** The contents of the nodes are the same. *)
Definition kept (q q' : quicklist) : Prop :=
  compress q' = compress q ∧ dom (ndata q') = dom (ndata q) ∧
  ∀ a n, ndata q !! a = Some n → ∃ n', ndata q' !! a = Some n' ∧ ncount n' = ncount n ∧ ∀ k l, holds k (compress q) n l → holds k (compress q) n' l.

Lemma recoded_kept q q' : recoded q q' → kept q q'.
Proof. intros Hr. destruct (recoded_fields q q' Hr) as (_ & _ & _ & _ & _ & Ec & _). by destruct Hr as (_ & ? & ?). Qed.

Lemma kept_same q q1 q2 q' : ndata q1 = ndata q → compress q1 = compress q → kept q1 q2 → ndata q' = ndata q2 → compress q' = compress q2 → kept q q'.
Proof. unfold kept. intros E1 E2 H E3 E4. by rewrite E3, E4, <-E1, <-E2. Qed.

(** One node is replaced. *)
Lemma recoded_set q a n n' :
  ndata q !! a = Some n → ncount n' = ncount n → (∀ k l, holds k (compress q) n l → holds k (compress q) n' l) → recoded q (set_node a n' q).
Proof.
  intros Hn En Hh. split; [done|]. split.
  - cbn. rewrite dom_insert_L. apply elem_of_dom_2 in Hn. set_solver.
  - intros b m Hb. cbn. destruct (decide (a = b)) as [->|Hne].
    + exists n'. rewrite lookup_insert_eq. split; [done|]. rewrite Hn in Hb. by injection Hb as <-.
    + exists m. rewrite lookup_insert_ne by done. auto.
Qed.

Lemma raw_at_set q a n b : (a = b → raw n) → (a ≠ b → raw_at q b) → raw_at (set_node a n q) b.
Proof.
  intros He Hne. unfold raw_at. cbn. destruct (decide (a = b)) as [->|H]; [rewrite lookup_insert_eq; eauto|]. rewrite lookup_insert_ne by done. by apply Hne.
Qed.

Lemma decompress_spec q a :
  (∀ x, a = Some x → good q x) →
  ∃ q', quicklistDecompressNode junk q a = Some q' ∧ recoded q q' ∧ (∀ x, a = Some x → raw_at q' x) ∧ ∀ b, raw_at q b → raw_at q' b.
Proof.
  destruct a as [a|]; [|by exists q]. intros Hg. destruct (Hg a eq_refl) as (n & l & k & Hn & Hh). unfold quicklistDecompressNode. rewrite Hn. cbn [mbind option_bind].
  destruct (zl n) as [|z|cs] eqn:Ez.
  - destruct Hh as (? & _ & _ & _ & _ & _ & _ & [?|(? & ? & _)]); congruence.
  - exists q. split_and!; try done. intros x [= <-]. exists n. split; [done|by exists z].
  - destruct (decompress_zl_spec _ _ _ _ _ Hh Ez) as (z & Ed & _). rewrite Ed. cbn [mbind option_bind]. eexists. split; [done|]. split_and!.
    + eapply recoded_set; [done|done|]. intros k' l' Hl'. destruct (decompress_zl_spec _ _ _ _ _ Hl' Ez) as (z2 & E2 & H2). rewrite Ed in E2. by injection E2 as ->.
    + intros x [= <-]. apply raw_at_set; [by exists z|done].
    + intros b Hb. apply raw_at_set; [by exists z|done].
Qed.

Lemma decompress_use_spec q a :
  good q a → ∃ q', quicklistDecompressNodeForUse junk q (Some a) = Some q' ∧ recoded q q' ∧ raw_at q' a ∧ ∀ b, raw_at q b → raw_at q' b.
Proof.
  intros (n & l & k & Hn & Hh). unfold quicklistDecompressNodeForUse. rewrite Hn. cbn [mbind option_bind]. destruct (zl n) as [|z|cs] eqn:Ez.
  - destruct Hh as (? & _ & _ & _ & _ & _ & _ & [?|(? & ? & _)]); congruence.
  - exists q. split_and!; try done. exists n. split; [done|by exists z].
  - destruct (decompress_zl_spec _ _ _ _ _ Hh Ez) as (z & Ed & _). rewrite Ed. cbn [mbind option_bind zl sz ncount]. eexists. split; [done|]. split_and!.
    + eapply recoded_set; [done|done|]. intros k' l' Hl'. destruct (decompress_zl_spec _ _ _ _ _ Hl' Ez) as (z2 & E2 & H2). rewrite Ed in E2. by injection E2 as ->.
    + apply raw_at_set; [by exists z|done].
    + intros b Hb. apply raw_at_set; [by exists z|done].
Qed.

Context (htab : list Z → Z → Z).
Hypothesis htab_u32 : ∀ inp i, in_u 32 (htab inp i).

Lemma compress_zl_spec k c n l : holds k c n l → raw n → c ≠ 0 → ∃ n', compress_zl junk htab n = Some n' ∧ ncount n' = ncount n ∧ holds k c n' l.
Proof using htab_u32.
  intros H Hraw Hc. destruct (holds_raw k c n l H Hraw) as (z & Hzl & Ez & Hz). pose proof H as (z' & Hz' & Hb & Hs & Hn & Hl & _ & Hor).
  destruct Hor as [E|(? & E & _)]; [|congruence]. rewrite Ez in E. injection E as <-. unfold compress_zl.
  destruct (Z.ltb_spec (sz n) MIN_COMPRESS_BYTES) as [|Hmin]; [by exists n|]. rewrite Hzl. cbn [mbind option_bind]. rewrite Hs in Hmin |- *.
  rewrite slice_whole. cbn [mbind option_bind]. unfold MIN_COMPRESS_BYTES in Hmin.
  destruct (zrep_size z l Hz) as (_ & Hu & _).
  assert (∀ buf2, zlen z ≤ zlen buf2 → ∃ out' ln, lzf_compress z (htab z) (realloc junk [] (zlen z)) = Some (out', ln) ∧ length out' = length (realloc junk [] (zlen z)) ∧ 0 ≤ ln ≤ zlen (realloc junk [] (zlen z)) ∧
    (0 < ln → lzf_decompress (take (Z.to_nat ln) out') buf2 = Some (z ++ drop (length z) buf2, inr (zlen z)))) as Hl2.
  { intros buf2 Hb2. apply lzf_lossless; [by eapply zrep_bytes|lia|done|done]. }
  destruct (Hl2 z) as (out' & ln & Ec & _ & Hk & _); [done|]. rewrite Ec. cbn [mbind option_bind].
  destruct ((ln =? 0) || (zlen z <=? u32 (ln + MIN_COMPRESS_IMPROVE))) eqn:Eb; [by exists n|]. apply orb_false_iff in Eb as [Ek _]. apply Z.eqb_neq in Ek.
  eexists. split; [done|]. split; [done|]. exists z. cbn. split_and!; try done. right. exists (take (Z.to_nat ln) out'). split_and!; [done|done|]. intros buf Hbuf.
  destruct (Hl2 buf Hbuf) as (out2 & k2 & Ec2 & _ & _ & Hd). rewrite Ec in Ec2. injection Ec2 as <- <-. apply Hd. lia.
Qed.

Lemma compress_spec q a :
  compress q ≠ 0 → (∀ x, a = Some x → good q x) →
  ∃ q', quicklistCompressNode junk htab q a = Some q' ∧ recoded q q' ∧ ∀ b, a ≠ Some b → raw_at q b → raw_at q' b.
Proof using htab_u32.
  intros Hc. destruct a as [a|]; [|by exists q]. intros Hg. destruct (Hg a eq_refl) as (n & l & k & Hn & Hh). unfold quicklistCompressNode. rewrite Hn. cbn [mbind option_bind].
  destruct (zl n) as [|z|cs] eqn:Ez.
  - destruct Hh as (? & _ & _ & _ & _ & _ & _ & [?|(? & ? & _)]); congruence.
  - unfold __quicklistCompressNode. rewrite Hn. cbn [mbind option_bind]. destruct (compress_zl_spec _ _ _ _ Hh ltac:(by exists z) Hc) as (n' & E & En & _).
    rewrite E. cbn [mbind option_bind]. eexists. split; [done|]. split.
    + eapply recoded_set; [done|done|]. intros k' l' Hl'. destruct (compress_zl_spec _ _ _ _ Hl' ltac:(by exists z) Hc) as (n2 & E2 & _ & H2). rewrite E in E2. by injection E2 as ->.
    + intros b Hb Hr. apply raw_at_set; [congruence|done].
  - by exists q.
Qed.

End Compression.

(** ** The chain of nodes *)

Abbreviation linkmap := (gmap addr (option addr * option addr)).

Definition first_or (l : list addr) (n : option addr) : option addr := match l with [] => n | a :: _ => Some a end.
Fixpoint last_or (p : option addr) (l : list addr) : option addr := match l with [] => p | a :: l => last_or (Some a) l end.

Fixpoint chain (m : linkmap) (p : option addr) (l : list addr) (n : option addr) : Prop :=
  match l with
  | [] => True
  | a :: l => m !! a = Some (p, first_or l n) ∧ chain m (Some a) l n
  end.

Lemma first_or_app l1 l2 n : first_or (l1 ++ l2) n = first_or l1 (first_or l2 n).
Proof. by destruct l1. Qed.

Lemma last_or_app l1 : ∀ l2 p, last_or p (l1 ++ l2) = last_or (last_or p l1) l2.
Proof. induction l1 as [|a l1 IH]; intros l2 p; [done|]. apply IH. Qed.

Lemma chain_app m l1 : ∀ p l2 n, chain m p (l1 ++ l2) n ↔ chain m p l1 (first_or l2 n) ∧ chain m (last_or p l1) l2 n.
Proof.
  induction l1 as [|a l1 IH]; intros p l2 n; [cbn; tauto|]. cbn [app chain last_or]. rewrite IH, first_or_app. tauto.
Qed.

Lemma chain_frame m m' l : (∀ a, a ∈ l → m' !! a = m !! a) → ∀ p n, chain m p l n → chain m' p l n.
Proof.
  induction l as [|a l IH]; intros Hm p n; [done|]. intros [H1 H2]. split; [rewrite Hm by set_solver; done|]. apply IH; [|done]. intros b Hb. apply Hm. set_solver.
Qed.

Lemma chain_insert m a x l p n : a ∉ l → chain m p l n → chain (<[a := x]> m) p l n.
Proof. intros Ha. apply chain_frame. intros b Hb. rewrite lookup_insert_ne; [done|]. set_solver. Qed.

Lemma chain_delete m a l p n : a ∉ l → chain m p l n → chain (delete a m) p l n.
Proof. intros Ha. apply chain_frame. intros b Hb. rewrite lookup_delete_ne; [done|]. set_solver. Qed.

(** A new neighbour on the left and on the right. *)
Lemma chain_prev m a l p p' n : a ∉ l → chain m p (a :: l) n → chain (<[a := (p', first_or l n)]> m) p' (a :: l) n.
Proof. intros Ha [_ Hc]. split; [by rewrite lookup_insert_eq|by apply chain_insert]. Qed.

Lemma chain_next m a l p n n' : a ∉ l → chain m p (l ++ [a]) n → chain (<[a := (last_or p l, n')]> m) p (l ++ [a]) n'.
Proof.
  intros Ha [H1 H2]%chain_app. apply chain_app. split; [by apply chain_insert|]. split; [by rewrite lookup_insert_eq|done].
Qed.

(** The node at a position, and its neighbours. *)
Lemma chain_node m p l1 a l2 n : chain m p (l1 ++ a :: l2) n → m !! a = Some (last_or p l1, first_or l2 n).
Proof. intros [_ [H _]]%chain_app. done. Qed.

Lemma last_or_snoc p l a : last_or p (l ++ [a]) = Some a.
Proof. by rewrite last_or_app. Qed.

Lemma first_or_lookup l : first_or l None = l !! 0%nat.
Proof. by destruct l. Qed.

Lemma last_or_lookup l : last_or None l = l !! (length l - 1)%nat.
Proof.
  destruct l as [|a l _] using rev_ind; [done|]. rewrite last_or_snoc, length_app. simpl. rewrite lookup_app_r by lia. by replace (length l + 1 - 1 - length l)%nat with 0%nat by lia.
Qed.

Lemma chain_lookup m l i a : chain m None l None → l !! i = Some a → m !! a = Some (match i with O => None | S j => l !! j end, l !! S i).
Proof.
  intros Hc Hi. rewrite <-(take_drop_middle l i a Hi) in Hc. apply chain_node in Hc. rewrite Hc, first_or_lookup, lookup_drop, Nat.add_0_r. do 2 f_equal.
  rewrite last_or_lookup. pose proof (lookup_lt_Some _ _ _ Hi). rewrite length_take, Nat.min_l by lia. destruct i as [|i]; [done|].
  rewrite lookup_take_lt by lia. f_equal. lia.
Qed.

(** A neighbour is found at the end of the nodes before, or at the start of those after. *)
Lemma last_or_cases p l : (l = [] ∧ last_or p l = p) ∨ ∃ l' o, l = l' ++ [o] ∧ last_or p l = Some o.
Proof. destruct l as [|o l' _] using rev_ind; [by left|]. right. exists l', o. by rewrite last_or_snoc. Qed.

Lemma first_or_cases l n : (l = [] ∧ first_or l n = n) ∨ ∃ b l', l = b :: l' ∧ first_or l n = Some b.
Proof. destruct l as [|b l']; [by left|]. right. by exists b, l'. Qed.

(** The links of the neighbours of a position are changed, and nothing else of the chain. *)
Lemma chain_change m m' A B p n p0 n0 :
  NoDup (A ++ B) → chain m None A n0 → chain m p0 B None →
  (∀ A' o, A = A' ++ [o] → m' !! o = Some (last_or None A', n)) →
  (∀ b B', B = b :: B' → m' !! b = Some (p, first_or B' None)) →
  (∀ c, c ∈ A ++ B → last_or None A ≠ Some c → first_or B None ≠ Some c → m' !! c = m !! c) →
  chain m' None A n ∧ chain m' p B None.
Proof.
  intros Hnd HA HB Ho Hb Hf. apply NoDup_app in Hnd as (HdA & Hdis & HdB). split.
  - destruct (last_or_cases None A) as [[-> _]|(A' & o & -> & El)]; [done|]. apply chain_app in HA as [HA _]. apply NoDup_app in HdA as (_ & Hdo & _).
    apply chain_app. split.
    + eapply chain_frame; [|exact HA]. intros c Hc. apply Hf; [set_solver| |].
      * rewrite El. intros [= <-]. apply (Hdo _ Hc). set_solver.
      * destruct (first_or_cases B None) as [[_ ->]|(b & B' & -> & ->)]; [done|]. intros [= <-]. apply (Hdis b); set_solver.
    + split; [by apply Ho|done].
  - destruct B as [|b B']; [done|]. destruct HB as [_ HB]. apply NoDup_cons in HdB as [HbB _]. split; [by apply Hb|]. eapply chain_frame; [|exact HB].
    intros c Hc. apply Hf; [set_solver| |].
    + destruct (last_or_cases None A) as [[-> ->]|(A' & o & -> & ->)]; [done|]. intros [= <-]. apply (Hdis o); set_solver.
    + simpl. intros [= <-]. done.
Qed.

Lemma last_or_elem l : ∀ p c, last_or p l = Some c → p = Some c ∨ c ∈ l.
Proof.
  induction l as [|a l IH]; intros p c; cbn [last_or]; [by left|]. intros [[= <-]|?]%IH; right; set_solver.
Qed.

Lemma last_or_ne p l : l ≠ [] → last_or p l = last_or None l.
Proof. by destruct l. Qed.
