(* ===== verification/QuickListRep.v ===== *)
(** Quicklists as lists of nodes: the invariant of a quicklist, and what compressing the
    list, inserting a node and deleting a node do to it. *)

From stdpp Require Import list numbers strings gmap.
From S2P Require Import Prelude Util SdsText Lzf Ziplist ZiplistEntry ZiplistList ZiplistRefine QuickList QuickListNode.

Section Rep.

Context (junk : nat → Z) (htab : list Z → Z → Z) (alloc : gset addr → addr).
Hypothesis htab_u32 : ∀ inp i, in_u 32 (htab inp i).

Implicit Types q : quicklist.

(** The pointers of the list and of its nodes. *)
Record listed q (ns : list addr) : Prop := {
  l_chain : chain (links q) None ns None;
  l_nodup : NoDup ns;
  l_head : qhead q = first_or ns None;
  l_tail : qtail q = last_or None ns;
}.

Lemma listed_recoded q q' ns : recoded q q' → listed q ns → listed q' ns.
Proof. intros (H1 & H2 & _ & _ & _ & _ & H3)%recoded_fields [? ? ? ?]. split; congruence. Qed.

Lemma Forall_recoded q q' ns : recoded q q' → Forall (good q) ns → Forall (good q') ns.
Proof. intros Hr Hg. eapply Forall_impl; [exact Hg|]. intros a. by apply recoded_good. Qed.

Definition keeps_raw q q' : Prop := ∀ b, raw_at q b → raw_at q' b.
Definition is_end q (b : addr) : Prop := qhead q = Some b ∨ qtail q = Some b.

(** ** Compressing the list *)

Lemma depth_loop_spec ns n : ∀ q i node ind,
  chain (links q) None ns None → Forall (good q) ns → (2 * i ≤ length ns)%nat → (2 * (i + n) ≤ length ns + 1)%nat →
  ∃ r, depth_loop junk n q (ns !! i) (ns !! (length ns - 1 - i)%nat) node ind = Some r ∧
    match r with
    | inl q' => recoded q q' ∧ keeps_raw q q'
    | inr (q', f, b, ind') => recoded q q' ∧ keeps_raw q q' ∧ f = ns !! (i + n)%nat ∧ b = ns !! (length ns - 1 - (i + n))%nat ∧
        (2 * (i + n) ≤ length ns)%nat ∧ (ind' = false → ind = false ∧ (n ≠ 0%nat → node ≠ ns !! i ∧ node ≠ ns !! (length ns - 1 - i)%nat))
    end.
Proof.
  induction n as [|n IH]; intros q i node ind Hc Hg Hi Hn.
  - eexists. split; [done|]. rewrite Nat.add_0_r. split_and!; try done. by intros b.
  - cbn [depth_loop]. destruct (lookup_lt_is_Some_2 ns i) as [f Hf]; [lia|]. destruct (lookup_lt_is_Some_2 ns (length ns - 1 - i)) as [b Hb]; [lia|].
    destruct (decompress_spec junk q (ns !! i)) as (q1 & -> & Hr1 & _ & Hk1). { intros x Hx. rewrite Forall_forall in Hg. apply Hg. by eapply list_elem_of_lookup_2. }
    cbn [mbind option_bind].
    destruct (decompress_spec junk q1 (ns !! (length ns - 1 - i)%nat)) as (q2 & -> & Hr2 & _ & Hk2).
    { intros x Hx. rewrite Forall_forall in Hg. eapply recoded_good; [done|]. apply Hg. by eapply list_elem_of_lookup_2. }
    cbn [mbind option_bind]. assert (recoded q q2) as Hr by by etrans. assert (keeps_raw q q2) as Hk by (intros x Hx; auto).
    destruct (bool_decide_reflect (ns !! i = ns !! (length ns - 1 - i)%nat)) as [He|Hne]; [eexists; split; [done|]; done|].
    rewrite Hf, Hb. cbn [mbind option_bind]. unfold next, prev.
    assert (links q2 = links q) as El by by apply recoded_fields in Hr as (_ & _ & _ & _ & _ & _ & ?).
    rewrite !El, (chain_lookup _ _ _ _ Hc Hf), (chain_lookup _ _ _ _ Hc Hb). cbn [fmap option_fmap option_map snd fst mbind option_bind].
    assert (i ≠ length ns - 1 - i)%nat as Hne' by congruence.
    destruct (length ns - 1 - i)%nat as [|j] eqn:Ej; [lia|]. replace j with (length ns - 1 - S i)%nat by lia.
    destruct (IH q2 (S i) node (ind || bool_decide (Some f = node) || bool_decide (Some b = node))) as (r & Er & Hm); [by rewrite El|by eapply Forall_recoded|lia|lia|].
    exists r. split; [done|]. destruct r as [q'|[[[q' f'] b'] ind']].
    + destruct Hm as [Hr' Hk']. split; [by etrans|intros x Hx; auto].
    + destruct Hm as (Hr' & Hk' & -> & -> & Hl & Hind). replace (S i + n)%nat with (i + S n)%nat by lia. split_and!; try done; [by etrans|intros x Hx; auto|lia|].
      intros E. destruct (Hind E) as [Ho _]. apply orb_false_iff in Ho as [[Ho H1]%orb_false_iff H2]. apply bool_decide_eq_false in H1, H2. done.
Qed.

Lemma compress_list_spec q ns node :
  listed q ns → Forall (good q) ns → 0 ≤ compress q → qlen q ≤ zlen ns + 1 → (∀ x, node = Some x → good q x) →
  ∃ q', __quicklistCompress junk htab q node = Some q' ∧ recoded q q' ∧ ∀ b, is_end q b → raw_at q b → raw_at q' b.
Proof using htab_u32.
  intros HL Hg Hc Hlen Hnode. unfold __quicklistCompress.
  destruct ((compress q =? 0) || (qlen q <? compress q * 2)) eqn:E; [by exists q|]. apply orb_false_iff in E as [E1%Z.eqb_neq E2%Z.ltb_ge].
  destruct (depth_loop_spec ns (Z.to_nat (compress q)) q 0 node false (l_chain _ _ HL) Hg ltac:(lia) ltac:(lia)) as (r & Er & Hm).
  rewrite Nat.sub_0_r in Er. rewrite (l_head _ _ HL), (l_tail _ _ HL), first_or_lookup, last_or_lookup, Er. cbn [mbind option_bind].
  destruct r as [q1|[[[q1 f] b] ind]]; [exists q1; destruct Hm as [? Hk]; split; [done|]; split; [done|]; intros x _; apply Hk|].
  destruct Hm as (Hr1 & Hk1 & -> & -> & Hl & Hind). cbn [Nat.add] in *. set (c := Z.to_nat (compress q)) in *.
  assert (compress q1 = compress q) as Ec by by apply recoded_fields in Hr1 as (_ & _ & _ & _ & _ & ? & _).
  assert (∀ j, (0 < j < length ns - 1)%nat → ∀ x, is_end q x → ns !! j ≠ Some x) as Hends.
  { intros j Hj x Hx Hxj. unfold is_end in Hx. rewrite (l_head _ _ HL), (l_tail _ _ HL), first_or_lookup, last_or_lookup in Hx.
    destruct Hx as [Hx|Hx]; pose proof (NoDup_lookup _ _ _ _ (l_nodup _ _ HL) Hxj Hx); lia. }
  assert (∀ q2 j x, recoded q q2 → ns !! j = Some x → good q2 x) as Hgood.
  { intros q2 j x Hr2 Hx. eapply recoded_good; [done|]. rewrite Forall_forall in Hg. apply Hg. by eapply list_elem_of_lookup_2. }
  assert (∃ q2, (if ind then Some q1 else quicklistCompressNode junk htab q1 node) = Some q2 ∧ recoded q1 q2 ∧ ∀ x, is_end q x → raw_at q1 x → raw_at q2 x) as (q2 & -> & Hr2 & Hk2).
  { destruct ind; [by exists q1|]. destruct (compress_spec junk htab htab_u32 q1 node) as (q2 & -> & Hr2 & Hk2); [by rewrite Ec|intros x Hx; eapply recoded_good; eauto|].
    exists q2. split_and!; try done. intros x Hx. apply Hk2. destruct (Hind eq_refl) as [_ [H1 H2]]; [lia|]. rewrite Nat.sub_0_r in H2.
    unfold is_end in Hx. rewrite (l_head _ _ HL), (l_tail _ _ HL), first_or_lookup, last_or_lookup in Hx. destruct Hx; congruence. }
  cbn [mbind option_bind]. assert (recoded q q2) as Hrq2 by by etrans. assert (compress q2 = compress q) as Ec2 by by apply recoded_fields in Hrq2 as (_ & _ & _ & _ & _ & ? & _).
  assert (∀ x, is_end q x → raw_at q x → raw_at q2 x) as Hkq2 by auto. destruct (Z.ltb_spec 2 (compress q1 + 1)); [|by exists q2].
  destruct (compress_spec junk htab htab_u32 q2 (ns !! c)) as (q3 & -> & Hr3 & Hk3); [congruence|eauto|]. cbn [mbind option_bind].
  assert (recoded q q3) as Hrq3 by by etrans. assert (compress q3 = compress q) as Ec3 by by apply recoded_fields in Hrq3 as (_ & _ & _ & _ & _ & ? & _).
  destruct (compress_spec junk htab htab_u32 q3 (ns !! (length ns - 1 - c)%nat)) as (q4 & -> & Hr4 & Hk4); [congruence|eauto|].
  exists q4. split; [done|]. split; [by etrans|]. intros x Hx Hraw. apply Hk4; [apply Hends; [lia|done]|]. apply Hk3; [apply Hends; [lia|done]|]. auto.
Qed.

(** [quicklistCompress]: the node itself may be an end of the list. *)
Lemma compress_node_spec q ns a :
  listed q ns → Forall (good q) ns → 0 ≤ compress q → qlen q ≤ zlen ns + 1 → good q a →
  ∃ q', quicklistCompress junk htab q a = Some q' ∧ recoded q q' ∧ ∀ b, is_end q b → b ≠ a → raw_at q b → raw_at q' b.
Proof using htab_u32.
  intros HL Hg Hc Hlen Ha. unfold quicklistCompress. pose proof Ha as (n & l & k & Hn & Hh). rewrite Hn. cbn [mbind option_bind].
  destruct (recompress n) eqn:Er.
  - destruct (compress_spec junk htab htab_u32 q (Some a)) as (q' & -> & Hr & Hk).
    { intros Hz. pose proof (holds_count _ _ _ _ Hh) as (_ & _ & _ & H & _). specialize (H Hz). congruence. }
    { by intros x [= <-]. }
    exists q'. split_and!; try done. intros b _ Hb. apply Hk. congruence.
  - destruct (compress_list_spec q ns (Some a)) as (q' & -> & Hr & Hk); try done; [by intros x [= <-]|]. exists q'. split_and!; try done. intros b Hb _. by apply Hk.
Qed.

Lemma recompress_spec q a : good q a → ∃ q', quicklistRecompressOnly junk htab q a = Some q' ∧ recoded q q'.
Proof using htab_u32.
  intros Ha. unfold quicklistRecompressOnly. pose proof Ha as (n & l & k & Hn & Hh). rewrite Hn. cbn [mbind option_bind]. destruct (recompress n) eqn:Er; [|by exists q].
  destruct (compress_spec junk htab htab_u32 q (Some a)) as (q' & -> & Hr & Hk).
  - intros Hz. pose proof (holds_count _ _ _ _ Hh) as (_ & _ & _ & H & _). specialize (H Hz). congruence.
  - by intros x [= <-].
  - by exists q'.
Qed.

(** ** Nodes and their contents *)

Definition node_at q (a : addr) (l : list (list Z)) : Prop := ∃ n, ndata q !! a = Some n ∧ holds 0 (compress q) n l.

Record reps q (ns : list addr) (ls : list (list (list Z))) : Prop := {
  r_listed : listed q ns;
  r_nodes : Forall2 (node_at q) ns ls;
  r_compress : 0 ≤ compress q;
}.

Lemma node_at_good q a l : node_at q a l → good q a.
Proof. intros (n & Hn & Hh). by exists n, l, 0. Qed.

Lemma Forall2_good q ns ls : Forall2 (node_at q) ns ls → Forall (good q) ns.
Proof. intros H. apply Forall_forall. intros a (i & Hi)%list_elem_of_lookup_1. destruct (Forall2_lookup_l _ _ _ _ _ H Hi) as (l & _ & Hl). by eapply node_at_good. Qed.

Lemma reps_good q ns ls : reps q ns ls → Forall (good q) ns.
Proof. intros H. eapply Forall2_good, r_nodes, H. Qed.

Lemma node_at_kept q q' a l : kept q q' → node_at q a l → node_at q' a l.
Proof. intros (Ec & _ & H) (n & Hn & Hh). destruct (H a n Hn) as (n' & Hn' & _ & Hh'). exists n'. rewrite Ec. auto. Qed.

Lemma node_at_recoded q q' a l : recoded q q' → node_at q a l → node_at q' a l.
Proof. intros Hr. by apply node_at_kept, recoded_kept. Qed.

Lemma reps_recoded q q' ns ls : recoded q q' → reps q ns ls → reps q' ns ls.
Proof.
  intros Hr [HL Hn Hc]. split; [by eapply listed_recoded|eapply Forall2_impl; [exact Hn|]; intros; by eapply node_at_recoded|].
  by apply recoded_fields in Hr as (_ & _ & _ & _ & _ & -> & _).
Qed.

(** States with the same nodes and other pointers. *)
Lemma node_at_same q q' a l : ndata q' = ndata q → compress q' = compress q → node_at q a l → node_at q' a l.
Proof. intros E1 E2. unfold node_at. by rewrite E1, E2. Qed.

Lemma Forall2_same q q' ns ls : ndata q' = ndata q → compress q' = compress q → Forall2 (node_at q) ns ls → Forall2 (node_at q') ns ls.
Proof. intros E1 E2 H. eapply Forall2_impl; [exact H|]. intros. by eapply node_at_same. Qed.

Lemma raw_at_same q q' a : ndata q' = ndata q → raw_at q a → raw_at q' a.
Proof. unfold raw_at. by intros ->. Qed.

Lemma Forall2_recoded q q' ns ls : recoded q q' → Forall2 (node_at q) ns ls → Forall2 (node_at q') ns ls.
Proof. intros Hr H. eapply Forall2_impl; [exact H|]. intros. by eapply node_at_recoded. Qed.

(** Nodes that are not in the list change. *)
Lemma Forall2_frame q q' ns ls :
  (∀ a, a ∈ ns → ndata q' !! a = ndata q !! a) → compress q' = compress q → Forall2 (node_at q) ns ls → Forall2 (node_at q') ns ls.
Proof.
  intros Hm Ec H. apply Forall2_same_length_lookup in H as [Hl H]. apply Forall2_same_length_lookup. split; [done|]. intros i a l Ha Hl'.
  destruct (H i a l Ha Hl') as (n & Hn & Hh). exists n. rewrite Hm, Ec by by eapply list_elem_of_lookup_2. done.
Qed.

(** ** Deleting a node *)

(** The part of [__quicklistDelNode] before the list is compressed. *)
Lemma unlink_spec q A a B :
  listed q (A ++ a :: B) →
  ∃ q1, (q ← match first_or B None with Some n => set_prev n (last_or None A) q | None => Some q end;
         q ← match last_or None A with Some p => set_next p (first_or B None) q | None => Some q end;
         let q := if bool_decide (qtail q = Some a) then set_ends (qhead q) (last_or None A) q else q in
         Some (if bool_decide (qhead q = Some a) then set_ends (first_or B None) (qtail q) q else q)) = Some q1 ∧
    listed q1 (A ++ B) ∧ ndata q1 = ndata q ∧ qcount q1 = qcount q ∧ qlen q1 = qlen q ∧ fill q1 = fill q ∧ compress q1 = compress q.
Proof.
  intros [Hc Hnd Hh Ht]. apply chain_app in Hc as [HcA [_ HcB]]. simpl in HcA.
  assert (NoDup (A ++ B) ∧ a ∉ A ++ B) as [Hnd2 Ha].
  { apply NoDup_app in Hnd as (H1 & H2 & [H3 H4]%NoDup_cons). split; [|set_solver]. apply NoDup_app. split_and!; try done. set_solver. }
  set (m1 := match first_or B None with Some b => <[b := (last_or None A, first_or (tail B) None)]> (links q) | None => links q end).
  set (m2 := match last_or None A with Some o => <[o := (last_or None (removelast A), first_or B None)]> m1 | None => m1 end).
  exists (Ql (first_or (A ++ B) None) (last_or None (A ++ B)) (qcount q) (qlen q) (fill q) (compress q) m2 (ndata q)). split.
  - assert (match first_or B None with Some n => set_prev n (last_or None A) q | None => Some q end = Some (set_links m1 q)) as ->.
    { destruct B as [|b B']; [by destruct q|]. destruct HcB as [Hb _]. unfold set_prev, m1. simpl. by rewrite Hb. }
    cbn [mbind option_bind]. 
    assert (match last_or None A with Some p => set_next p (first_or B None) (set_links m1 q) | None => Some (set_links m1 q) end = Some (set_links m2 q)) as ->.
    { destruct (last_or_cases None A) as [[-> _]|(A' & o & -> & Eo)]; [done|]. unfold m2. rewrite Eo, removelast_last. unfold set_next. cbn [links set_links].
      apply chain_app in HcA as [_ [Ho _]]. assert (m1 !! o = links q !! o) as ->; [|by rewrite Ho].
      unfold m1. destruct B as [|b B']; [done|]. simpl. rewrite lookup_insert_ne; [done|]. intros ->. apply NoDup_app in Hnd2 as (_ & H & _). apply (H o); set_solver. }
    cbn [mbind option_bind]. f_equal.
    assert ((if bool_decide (qtail q = Some a) then last_or None A else qtail q) = last_or None (A ++ B)) as E1.
    { rewrite Ht, !last_or_app. cbn [last_or]. destruct B as [|b B']; [by rewrite bool_decide_eq_true_2|].
      rewrite bool_decide_eq_false_2; [done|]. cbn [last_or]. intros [[= ->]|Hin]%last_or_elem; set_solver. }
    assert ((if bool_decide (qhead q = Some a) then first_or B None else qhead q) = first_or (A ++ B) None) as E2.
    { rewrite Hh, !first_or_app. destruct A as [|c A']; [by rewrite bool_decide_eq_true_2|]. rewrite bool_decide_eq_false_2; [done|]. simpl. intros [= ->]. set_solver. }
    rewrite <-E1, <-E2. clear. destruct q as [h t c l f cm lk nd]. cbn. repeat case_bool_decide; done.
  - split_and!; try done. split; cbn; [|done|done|done]. apply chain_app.
    eapply (chain_change (links q) m2 A B (last_or None A) (first_or B None)); [done|exact HcA|exact HcB|..].
    + intros A' o ->. unfold m2. rewrite last_or_snoc, lookup_insert_eq, removelast_last. done.
    + intros b B' ->. unfold m2, m1. simpl. destruct (last_or_cases None A) as [[_ ->]|(A' & o & -> & Eo)]; [by rewrite lookup_insert_eq|].
      rewrite Eo, lookup_insert_ne, lookup_insert_eq by (intros ->; apply NoDup_app in Hnd2 as (_ & H & _); apply (H b); set_solver). done.
    + intros c _ H1 H2. unfold m2, m1. destruct (last_or None A), (first_or B None); rewrite ?lookup_insert_ne by congruence; done.
Qed.

Lemma Forall2_middle {X Y} (P : X → Y → Prop) A a B ls :
  Forall2 P (A ++ a :: B) ls → ∃ la l lb, ls = la ++ l :: lb ∧ Forall2 P A la ∧ P a l ∧ Forall2 P B lb.
Proof.
  intros (la & ls2 & HA & H2 & ->)%Forall2_app_inv_l. inversion H2 as [|? l ? lb Ha HB]; subst. by exists la, l, lb.
Qed.

(** The contents of the node do not matter. *)
Lemma del_node_spec q A a B la lb n :
  listed q (A ++ a :: B) → Forall2 (node_at q) (A ++ B) (la ++ lb) → 0 ≤ compress q → ndata q !! a = Some n → qlen q = zlen (A ++ a :: B) →
  ∃ q', __quicklistDelNode junk htab q a = Some q' ∧ reps q' (A ++ B) (la ++ lb) ∧ dom (ndata q') = dom (ndata q) ∖ {[a]} ∧
    qcount q' = u64 (qcount q - ncount n) ∧ qlen q' = zlen (A ++ B) ∧ fill q' = fill q ∧ compress q' = compress q ∧
    ∀ b, b ≠ a → is_end q' b → raw_at q b → raw_at q' b.
Proof using htab_u32.
  intros HL Hn Hc Ha Hlen. unfold __quicklistDelNode. rewrite (chain_node _ _ _ _ _ _ (l_chain _ _ HL)). cbn [mbind option_bind].
  destruct (unlink_spec q A a B HL) as (q1 & E & HL1 & Ed & Eq & El & Ef & Ecm).
  destruct (match first_or B None with Some n => set_prev n (last_or None A) q | None => Some q end) as [q2|]; [|done]. cbn [mbind option_bind] in *.
  destruct (match last_or None A with Some p => set_next p (first_or B None) q2 | None => Some q2 end) as [q3|]; [|done]. cbn [mbind option_bind] in *.
  injection E as ->.
  assert (Forall2 (node_at q1) (A ++ B) (la ++ lb)) as Hn1 by by eapply Forall2_same.
  destruct (compress_list_spec q1 (A ++ B) None HL1) as (q4 & -> & Hr & Hk); [by eapply Forall2_good|by rewrite Ecm|rewrite El, Hlen, !length_app; simpl; lia|done|].
  cbn [mbind option_bind]. pose proof Hr as (_ & Hdom & Hd). destruct (Hd a n) as (n' & Hn' & En & _); [by rewrite Ed|]. rewrite Hn'. cbn [mbind option_bind]. eexists. split; [done|].
  assert (a ∉ A ++ B) as Hni. { pose proof (l_nodup _ _ HL) as (_ & H2 & [H3 _]%NoDup_cons)%NoDup_app. set_solver. }
  destruct (recoded_fields _ _ Hr) as (Eh & Et & Ecn & Eln & Efl & Ecp & Elk). cbn. split_and!.
  - split; [|by eapply (Forall2_frame q4), Forall2_recoded; [intros x Hx; cbn; rewrite lookup_delete_ne; [done|set_solver]|..]|cbn; by rewrite Ecp, Ecm].
    pose proof (listed_recoded _ _ _ Hr HL1) as [H1 H2 H3 H4]. split; try done. cbn. by apply chain_delete.
  - rewrite dom_delete_L, Hdom, Ed. done.
  - by rewrite Ecn, Eq, En.
  - rewrite Eln, El, Hlen, !length_app. simpl. lia.
  - congruence.
  - congruence.
  - intros b Hb He Hraw. destruct (Hk b) as (nb & Hnb & Hrb); [unfold is_end in *; cbn in He; congruence|by eapply raw_at_same|].
    exists nb. cbn. by rewrite lookup_delete_ne.
Qed.

(** ** Inserting a node *)

(** The pointers of the list and the map of links are new. *)
Definition relinked q (ns : list addr) (m : linkmap) : quicklist :=
  Ql (first_or ns None) (last_or None ns) (qcount q) (qlen q) (fill q) (compress q) m (ndata q).

Lemma set_prev_eq m q a p p0 n : m !! a = Some (p0, n) → set_prev a p (set_links m q) = Some (set_links (<[a := (p, n)]> m) q).
Proof. intros H. unfold set_prev. cbn. by rewrite H. Qed.

Lemma set_next_eq m q a p n0 n : m !! a = Some (p, n0) → set_next a n (set_links m q) = Some (set_links (<[a := (p, n)]> m) q).
Proof. intros H. unfold set_next. cbn. by rewrite H. Qed.

Lemma set_prev_q q a p p0 n : links q !! a = Some (p0, n) → set_prev a p q = Some (set_links (<[a := (p, n)]> (links q)) q).
Proof. intros H. unfold set_prev. by rewrite H. Qed.

Lemma set_next_q q a p n0 n : links q !! a = Some (p, n0) → set_next a n q = Some (set_links (<[a := (p, n)]> (links q)) q).
Proof. intros H. unfold set_next. by rewrite H. Qed.

Lemma link_after_spec q A B x :
  listed q (A ++ B) → x ∉ A ++ B → links q !! x = Some (None, None) → (A = [] → B = []) → qlen q = zlen (A ++ B) →
  ∃ m, link_node q (last_or None A) x true = Some (relinked q (A ++ x :: B) m) ∧ chain m None (A ++ x :: B) None.
Proof.
  intros [Hc Hnd Hh Ht] Hx Hlx HAB Hlen. unfold link_node. rewrite (set_prev_q _ _ _ _ _ Hlx). cbn [mbind option_bind].
  apply chain_app in Hc as [HcA HcB].
  destruct (last_or_cases None A) as [[-> El]|(A' & o & -> & El)].
  - rewrite (HAB eq_refl) in *. cbn. rewrite Ht, bool_decide_eq_true_2 by done. cbn. rewrite Hlen. cbn. eexists. split; [done|]. cbn. by rewrite lookup_insert_eq.
  - rewrite El. rewrite last_or_snoc in HcB. assert (o ≠ x) as Hox by set_solver. apply chain_app in HcA as HcA2. destruct HcA2 as [_ [Ho _]].
    set (m1 := <[x := (Some o, None)]> (links q)).
    assert (next (set_links m1 q) o = Some (first_or B None)) as ->. { unfold next, m1. cbn. by rewrite lookup_insert_ne, Ho. }
    cbn [mbind option_bind]. rewrite (set_next_eq m1 q x (Some o) None) by apply lookup_insert_eq. cbn [mbind option_bind].
    set (m2 := <[x := (Some o, first_or B None)]> m1).
    set (m3 := match first_or B None with Some b => <[b := (Some x, first_or (tail B) None)]> m2 | None => m2 end).
    set (m4 := <[o := (last_or None A', Some x)]> m3).
    assert (∀ b B', B = b :: B' → b ≠ o ∧ b ≠ x) as Hbo.
    { intros b B' ->. split; [|set_solver]. intros ->. apply NoDup_app in Hnd as (_ & H & _). apply (H o); set_solver. }
    assert (match first_or B None with Some y => set_prev y (Some x) (set_links m2 q) | None => Some (set_links m2 q) end = Some (set_links m3 q)) as ->.
    { unfold m3. destruct B as [|b B']; [done|]. simpl. destruct HcB as [Hb _]. destruct (Hbo b B' eq_refl) as [? ?].
      apply set_prev_eq with (Some o). unfold m2, m1. by rewrite !lookup_insert_ne. }
    cbn [mbind option_bind]. rewrite (set_next_eq m3 q o (last_or None A') (first_or B None)).
    2: { unfold m3, m2, m1. destruct B as [|b B']; simpl; [by rewrite !lookup_insert_ne|]. destruct (Hbo b B' eq_refl) as [? ?]. by rewrite !lookup_insert_ne. }
    cbn [mbind option_bind]. fold m4. exists m4. split.
    + f_equal. assert ((qlen q =? 0) = false) as El0 by (apply Z.eqb_neq; rewrite Hlen, !length_app; simpl; lia).
      assert ((if bool_decide (qtail q = Some o) then Some x else qtail q) = last_or None ((A' ++ [o]) ++ x :: B)) as E1.
      { rewrite Ht, !last_or_app. cbn [last_or]. destruct B as [|b B']; [by rewrite bool_decide_eq_true_2|]. rewrite bool_decide_eq_false_2; [done|].
        cbn [last_or]. apply NoDup_app in Hnd as (_ & H & _). intros [[= ->]|Hin]%last_or_elem; apply (H o); set_solver. }
      assert (qhead q = first_or ((A' ++ [o]) ++ x :: B) None) as E2 by by rewrite Hh; destruct A'.
      unfold relinked. rewrite <-E1, <-E2. destruct q. cbn in *. case_bool_decide; cbn; rewrite El0; done.
    + assert (chain m4 None (A' ++ [o]) (Some x) ∧ chain m4 (Some x) B None) as [H1 H2].
      { eapply (chain_change (links q) m4 (A' ++ [o]) B); [done|exact HcA|exact HcB|..].
        - intros A2 o2 [-> [= ->]]%app_inj_2; [|done]. unfold m4. by rewrite lookup_insert_eq.
        - intros b B' ->. destruct (Hbo b B' eq_refl) as [? ?]. unfold m4, m3. simpl. by rewrite lookup_insert_ne, lookup_insert_eq.
        - intros c Hc H1 H2. rewrite last_or_snoc in H1. assert (c ≠ x) by set_solver. unfold m4, m3, m2, m1. destruct (first_or B None); rewrite ?lookup_insert_ne by congruence; done. }
      apply chain_app. split; [done|]. rewrite last_or_snoc. split; [|done]. unfold m4, m3, m2.
      rewrite lookup_insert_ne by done. destruct B as [|b B']; simpl; [by rewrite lookup_insert_eq|]. destruct (Hbo b B' eq_refl) as [? ?]. by rewrite lookup_insert_ne, lookup_insert_eq.
Qed.

Lemma link_before_spec q A B x :
  listed q (A ++ B) → x ∉ A ++ B → links q !! x = Some (None, None) → (B = [] → A = []) → qlen q = zlen (A ++ B) →
  ∃ m, link_node q (first_or B None) x false = Some (relinked q (A ++ x :: B) m) ∧ chain m None (A ++ x :: B) None.
Proof.
  intros [Hc Hnd Hh Ht] Hx Hlx HAB Hlen. unfold link_node. rewrite (set_next_q _ _ _ _ _ Hlx). cbn [mbind option_bind].
  apply chain_app in Hc as [HcA HcB]. destruct B as [|b B'].
  - rewrite (HAB eq_refl) in *. cbn. rewrite Hh, bool_decide_eq_true_2 by done. cbn. rewrite Hlen. cbn. eexists. split; [done|]. cbn. by rewrite lookup_insert_eq.
  - cbn [first_or] in *. assert (b ≠ x) as Hbx by set_solver. destruct HcB as [Hb HcB].
    set (m1 := <[x := (None, Some b)]> (links q)).
    assert (prev (set_links m1 q) b = Some (last_or None A)) as ->. { unfold prev, m1. cbn. by rewrite lookup_insert_ne, Hb. }
    cbn [mbind option_bind]. rewrite (set_prev_eq m1 q x _ None (Some b)) by apply lookup_insert_eq. cbn [mbind option_bind].
    set (m2 := <[x := (last_or None A, Some b)]> m1).
    set (m3 := match last_or None A with Some o => <[o := (last_or None (removelast A), Some x)]> m2 | None => m2 end).
    set (m4 := <[b := (Some x, first_or B' None)]> m3).
    assert (∀ A' o, A = A' ++ [o] → o ≠ b ∧ o ≠ x) as Hbo.
    { intros A' o ->. split; [|set_solver]. intros ->. apply NoDup_app in Hnd as (_ & H & _). apply (H b); set_solver. }
    assert (match last_or None A with Some y => set_next y (Some x) (set_links m2 q) | None => Some (set_links m2 q) end = Some (set_links m3 q)) as ->.
    { unfold m3. destruct (last_or_cases None A) as [[-> ->]|(A' & o & -> & Eo)]; [done|]. rewrite Eo, removelast_last. destruct (Hbo A' o eq_refl) as [? ?].
      apply chain_app in HcA as [_ [Ho _]]. apply set_next_eq with (Some b). unfold m2, m1. by rewrite !lookup_insert_ne. }
    cbn [mbind option_bind]. rewrite (set_prev_eq m3 q b _ (last_or None A) (first_or B' None)).
    2: { unfold m3, m2, m1. destruct (last_or_cases None A) as [[-> ->]|(A' & o & -> & Eo)]; [by rewrite !lookup_insert_ne|]. rewrite Eo. destruct (Hbo A' o eq_refl) as [? ?].
         rewrite !lookup_insert_ne by done. by rewrite Hb, Eo. }
    cbn [mbind option_bind]. fold m4. exists m4. split.
    + f_equal. assert ((qlen q =? 0) = false) as El0 by (apply Z.eqb_neq; rewrite Hlen, !length_app; simpl; lia).
      assert ((if bool_decide (qhead q = Some b) then Some x else qhead q) = first_or (A ++ x :: b :: B') None) as E1.
      { rewrite Hh, !first_or_app. destruct A as [|c A']; [by rewrite bool_decide_eq_true_2|]. rewrite bool_decide_eq_false_2; [done|].
        simpl. intros [= ->]. apply NoDup_app in Hnd as (_ & H & _). apply (H b); set_solver. }
      assert (qtail q = last_or None (A ++ x :: b :: B')) as E2 by by rewrite Ht, !last_or_app.
      unfold relinked. rewrite <-E1, <-E2. destruct q. cbn in *. case_bool_decide; cbn; rewrite El0; done.
    + assert (chain m4 None A (Some x) ∧ chain m4 (Some x) (b :: B') None) as [H1 H2].
      { eapply (chain_change (links q) m4 A (b :: B') _ _ (last_or None A) (Some b)); [done|exact HcA|by split|..].
        - intros A' o ->. destruct (Hbo A' o eq_refl) as [? ?]. unfold m4, m3. rewrite last_or_snoc, removelast_last. by rewrite lookup_insert_ne, lookup_insert_eq.
        - intros b2 B2 [= <- <-]. unfold m4. by rewrite lookup_insert_eq.
        - intros c Hc H1 H2. cbn in H2. assert (c ≠ x) by set_solver. unfold m4, m3, m2, m1. destruct (last_or None A); rewrite ?lookup_insert_ne by congruence; done. }
      apply chain_app. split; [done|]. split; [|done]. unfold m4, m3, m2. rewrite lookup_insert_ne by done.
      destruct (last_or_cases None A) as [[-> ->]|(A' & o & -> & Eo)]; [by rewrite lookup_insert_eq|]. rewrite Eo. destruct (Hbo A' o eq_refl) as [? ?]. by rewrite lookup_insert_ne, lookup_insert_eq.
Qed.

Lemma insert_node_spec q A B la lb x (after : bool) :
  let old := if after then last_or None A else first_or B None in
  listed q (A ++ B) → Forall2 (node_at q) A la → Forall2 (node_at q) B lb → 0 ≤ compress q →
  x ∉ A ++ B → links q !! x = Some (None, None) → good q x → (old = None → A ++ B = []) → qlen q = zlen (A ++ B) →
  ∃ q', __quicklistInsertNode junk htab q old x after = Some q' ∧ listed q' (A ++ x :: B) ∧ kept q q' ∧
    qcount q' = qcount q ∧ qlen q' = zlen (A ++ x :: B) ∧ fill q' = fill q ∧
    ∀ b, is_end q' b → Some b ≠ old → raw_at q b → raw_at q' b.
Proof using htab_u32.
  intros old HL HA HB Hc Hx Hlx Hg Hold Hlen. unfold __quicklistInsertNode.
  assert (∃ m, link_node q old x after = Some (relinked q (A ++ x :: B) m) ∧ chain m None (A ++ x :: B) None) as (m & -> & Hm).
  { unfold old in *. destruct after; [apply link_after_spec|apply link_before_spec]; try done; intros ->; specialize (Hold eq_refl); by apply app_nil in Hold as [? ?]. }
  cbn [mbind option_bind]. set (q1 := relinked q (A ++ x :: B) m).
  assert (listed q1 (A ++ x :: B)) as HL1. { split; try done. pose proof (l_nodup _ _ HL). apply NoDup_app in H as (? & ? & ?). apply NoDup_app. split; [done|]. split; [set_solver|]. apply NoDup_cons. set_solver. }
  assert (Forall (good q1) (A ++ x :: B)) as Hg1.
  { apply Forall_app. split; [by eapply Forall2_good|]. apply Forall_cons. split; [done|by eapply Forall2_good]. }
  assert (∀ o, old = Some o → o ∈ A ++ B) as Hino.
  { intros o. unfold old. destruct after; [|destruct B; set_solver]. intros [?|?]%last_or_elem; [done|set_solver]. }
  assert (∃ q2, match old with Some o => quicklistCompress junk htab q1 o | None => Some q1 end = Some q2 ∧ recoded q1 q2 ∧ ∀ b, is_end q1 b → Some b ≠ old → raw_at q1 b → raw_at q2 b) as (q2 & -> & Hr & Hk).
  { destruct old as [o|]; [|by exists q1]. destruct (compress_node_spec q1 (A ++ x :: B) o HL1 Hg1) as (q2 & -> & Hr & Hk); [done| |  |].
    - cbn. rewrite Hlen, !length_app. simpl. lia.
    - rewrite Forall_forall in Hg1. apply Hg1. specialize (Hino o eq_refl). set_solver.
    - exists q2. split_and!; try done. intros b He Hb. apply Hk; [done|congruence]. }
  cbn [mbind option_bind]. destruct (recoded_fields _ _ Hr) as (Eh & Et & Ecn & Eln & Efl & Ecp & Elk).
  eexists. split; [done|]. split_and!; try done.
  - pose proof (listed_recoded _ _ _ Hr HL1) as [? ? ? ?]. by split.
  - apply (kept_same q q1 q2); [done|done|by apply recoded_kept|done|done].
  - cbn. rewrite Eln. cbn. rewrite Hlen, !length_app. simpl. lia.
  - intros b He Hb Hraw. destruct (Hk b) as (n & Hn & Hrn); [unfold is_end in *; cbn in He; congruence|done|done|]. by exists n.
Qed.

End Rep.
