(* ===== verification/QuickListOps.v ===== *)
(** What the operations of a quicklist do to the list of its strings: pushing, popping,
    searching by index, iterating and deleting. *)

From stdpp Require Import list numbers strings gmap.
From S2P Require Import Prelude Util SdsText Lzf Ziplist ZiplistEntry ZiplistList ZiplistRefine QuickList QuickListNode QuickListRep.

(** The list of the nodes [ns] with the contents [ls]. *)
Record rep (q : quicklist) (ns : list addr) (ls : list (list (list Z))) : Prop := {
  p_reps : reps q ns ls;
  p_dom : dom (ndata q) = list_to_set ns;
  p_len : qlen q = zlen ns;
  p_count : qcount q = zlen (concat ls);
  p_full : Forall (λ l, l ≠ []) ls;
  p_size : csize (concat ls) < 2 ^ 32;
}.

Definition same_opts (q q' : quicklist) : Prop := fill q' = fill q ∧ compress q' = compress q.

#[export] Instance same_opts_preorder : PreOrder same_opts.
Proof. split; [done|]. unfold same_opts. intros ? ? ? [? ?] [? ?]. split; congruence. Qed.

Lemma recoded_opts q q' : recoded q q' → same_opts q q'.
Proof. intros (_ & _ & _ & _ & ? & ? & _)%recoded_fields. done. Qed.

Lemma rep_recoded q q' ns ls : recoded q q' → rep q ns ls → rep q' ns ls.
Proof.
  intros Hr [H1 H2 H3 H4 H5 H6]. destruct (recoded_fields q q' Hr) as (_ & _ & E1 & E2 & _ & _ & _). split; try congruence; [by eapply reps_recoded|].
  destruct Hr as (_ & E3 & _). congruence.
Qed.

Lemma csize_length l : 18 * zlen l + 22 ≤ csize l.
Proof. induction l as [|s l IH]; [done|]. rewrite csize_cons. cbn [length]. lia. Qed.

Lemma csize_concat la l lb : csize l ≤ csize (concat (la ++ l :: lb)).
Proof. rewrite concat_app. cbn [concat]. rewrite !csize_app. pose proof (csize_pos (concat la)). pose proof (csize_pos (concat lb)). lia. Qed.

Lemma csize_concat_cons v la l lb : csize (v :: l) ≤ csize (v :: concat (la ++ l :: lb)).
Proof. rewrite !csize_cons. pose proof (csize_concat la l lb). lia. Qed.

Lemma rep_count q ns ls : rep q ns ls → 0 ≤ qcount q < 2 ^ 32 - 1.
Proof. intros H. rewrite (p_count _ _ _ H). pose proof (csize_length (concat ls)). pose proof (p_size _ _ _ H). lia. Qed.

(** ** Replacing the contents of a node *)

Lemma node_at_set q a n' b l : a ≠ b → node_at q b l → node_at (set_node a n' q) b l.
Proof. intros Hne (n & Hn & Hh). exists n. cbn. by rewrite lookup_insert_ne. Qed.

Lemma Forall2_set q a n' ns ls : a ∉ ns → Forall2 (node_at q) ns ls → Forall2 (node_at (set_node a n' q)) ns ls.
Proof. intros Ha. apply Forall2_frame; [|done]. intros b Hb. cbn. rewrite lookup_insert_ne; [done|]. set_solver. Qed.

Lemma Forall2_set_middle q A a B la l lb n' l' :
  NoDup (A ++ a :: B) → Forall2 (node_at q) (A ++ a :: B) (la ++ l :: lb) → length A = length la → holds 0 (compress q) n' l' →
  Forall2 (node_at (set_node a n' q)) (A ++ a :: B) (la ++ l' :: lb).
Proof.
  intros (_ & H1 & [H2 _]%NoDup_cons)%NoDup_app Hn Hl Hh. apply Forall2_app_inv in Hn as [HA HB]; [|done]. inversion HB; subst.
  apply Forall2_app; [apply Forall2_set; [set_solver|done]|]. constructor; [|apply Forall2_set; [set_solver|done]]. exists n'. cbn. by rewrite lookup_insert_eq.
Qed.

Lemma reps_set q A a B la l lb n' l' :
  reps q (A ++ a :: B) (la ++ l :: lb) → length A = length la → holds 0 (compress q) n' l' → reps (set_node a n' q) (A ++ a :: B) (la ++ l' :: lb).
Proof. intros [HL Hn Hc] Hl Hh. split; [by destruct HL; split|eapply Forall2_set_middle; eauto; apply HL|done]. Qed.

Lemma reps_counts q ns ls c k : reps q ns ls → reps (set_counts c k q) ns ls.
Proof. intros [[? ? ? ?] ? ?]. by split. Qed.

(** A node in the middle of the list. *)
Lemma reps_middle q A a B ls :
  reps q (A ++ a :: B) ls → ∃ la l lb, ls = la ++ l :: lb ∧ length A = length la ∧ length B = length lb ∧ node_at q a l.
Proof.
  intros [_ Hn _]. destruct (Forall2_middle _ _ _ _ _ Hn) as (la & l & lb & -> & H1 & H2 & H3). exists la, l, lb. split_and!; try done; by eapply Forall2_length.
Qed.

Lemma update_zl_eq q a n z l c :
  ndata q !! a = Some n → zrep z l → update_zl a z c q = Some (set_node a (Node (ZRaw z) (zlen z) (wrap_u 16 c) (recompress n)) q).
Proof. intros Hn Hz. unfold update_zl. rewrite Hn. cbn [mbind option_bind]. destruct (zrep_size z l Hz) as (_ & _ & ->). done. Qed.

Lemma holds_incr c n l : holds 1 c n l → holds 0 c (Node (zl n) (sz n) (wrap_u 16 (ncount n + 1)) (recompress n)) l.
Proof.
  intros (z & Hz & Hb & Hs & Hn & Hl & Hr & Hor). exists z. cbn. rewrite wrap_u_small by (unfold in_u; lia). split_and!; try done. lia.
Qed.

Lemma holds_incr0 c n l : holds 0 c n l → zlen l + 1 < 2 ^ 16 → wrap_u 16 (ncount n) = zlen l ∧ wrap_u 16 (ncount n + 1) = zlen l + 1.
Proof. intros (z & Hz & Hb & Hs & Hn & Hl & _) H. rewrite !wrap_u_small by (unfold in_u; lia). lia. Qed.

(** ** Sizes *)

Lemma optimization_bound s f : _quicklistNodeSizeMeetsOptimizationRequirement s f = true → s ≤ 65536.
Proof.
  unfold _quicklistNodeSizeMeetsOptimizationRequirement. destruct (0 <=? f); [done|].
  destruct (optimization_level !! _) as [limit|] eqn:E; [|done]. intros Hs%Z.leb_le. apply list_elem_of_lookup_2 in E. unfold optimization_level in E. set_solver by lia.
Qed.

Lemma allow_insert_bound k c n l v f :
  holds k c n l → csize (v :: l) < 2 ^ 32 → _quicklistNodeAllowInsert (Some n) f (zlen v) = true → zlen l + 1 < 2 ^ 16.
Proof.
  intros H Hs. pose proof (holds_count _ _ _ _ H) as (_ & _ & _ & _ & Hsz). rewrite csize_cons in Hs. unfold _quicklistNodeAllowInsert.
  set (ov := (if zlen v <? 254 then 1 else 5) + _). assert (2 ≤ ov ≤ 10) as Hov by (unfold ov; repeat case_match; lia).
  rewrite wrap_u_small by (unfold in_u; lia). destruct (_quicklistNodeSizeMeetsOptimizationRequirement _ _) eqn:E.
  - intros _. apply optimization_bound in E. lia.
  - unfold sizeMeetsSafetyLimit, SIZE_SAFETY_LIMIT. destruct (Z.leb_spec (sz n + zlen v + ov) 8192); [|done]. intros _. lia.
Qed.

Lemma allow_merge_bound c na nb la lb f :
  holds 0 c na la → holds 0 c nb lb → csize (la ++ lb) < 2 ^ 32 → _quicklistNodeAllowMerge (Some na) (Some nb) f = true → zlen (la ++ lb) < 2 ^ 16 - 1.
Proof.
  intros (_ & _ & _ & _ & Ha)%holds_count (_ & _ & _ & _ & Hb)%holds_count Hs. rewrite csize_app in Hs. rewrite length_app. unfold _quicklistNodeAllowMerge.
  pose proof (csize_pos la). pose proof (csize_pos lb).
  rewrite wrap_u_small by (unfold in_u; lia). destruct (_quicklistNodeSizeMeetsOptimizationRequirement _ _) eqn:E.
  - intros _. apply optimization_bound in E. lia.
  - unfold sizeMeetsSafetyLimit, SIZE_SAFETY_LIMIT. destruct (Z.leb_spec (sz na + sz nb - 11) 8192); [|done]. intros _. lia.
Qed.

Definition head_raw (q : quicklist) : Prop := ∀ a, qhead q = Some a → raw_at q a.
Definition tail_raw (q : quicklist) : Prop := ∀ a, qtail q = Some a → raw_at q a.

(** ** States that differ in one node *)

Lemma holds_new c z v r k : zrep z [v] → Forall is_byte v → (c = 0 → r = false) → 0 ≤ k ≤ 1 → holds (1 - k) c (Node (ZRaw z) (zlen z) (wrap_u 16 k) r) [v].
Proof. intros Hz Hv Hr Hk. apply holds_intro; [done|by apply Forall_singleton| |done|done]. rewrite wrap_u_small by (unfold in_u; lia). simpl. lia. Qed.

Lemma qhead_rep q ns ls : rep q ns ls → qhead q = first_or ns None.
Proof. intros H. apply H. Qed.

Lemma qtail_rep q ns ls : rep q ns ls → qtail q = last_or None ns.
Proof. intros H. apply H. Qed.

Lemma deref_node q a n : ndata q !! a = Some n → deref q (Some a) = Some (Some n).
Proof. intros H. unfold deref. by rewrite H. Qed.

Lemma u64_count q ns ls d : rep q ns ls → 0 ≤ zlen (concat ls) + d < 2 ^ 32 → wrap_u 64 (qcount q + d) = zlen (concat ls) + d.
Proof. intros H Hd. rewrite (p_count _ _ _ H). apply wrap_u_small. unfold in_u. lia. Qed.

(** The state after a value was added, with its count. *)
Lemma rep_added q q' ns ls ns' ls' v :
  rep q ns ls → csize (v :: concat ls) < 2 ^ 32 → reps q' ns' ls' → Forall (λ l, l ≠ []) ls' → dom (ndata q') = list_to_set ns' → qlen q' = zlen ns' →
  (∃ l1 l2, concat ls = l1 ++ l2 ∧ concat ls' = l1 ++ v :: l2) → rep (set_counts (wrap_u 64 (qcount q + 1)) (qlen q') q') ns' ls'.
Proof.
  intros HR Hs Hr' Hf Hd Hl (l1 & l2 & E1 & E2). pose proof (csize_length (concat ls)). pose proof (csize_pos (v :: concat ls)). rewrite csize_cons in *. split; cbn; try done.
  - by apply reps_counts.
  - rewrite (u64_count _ _ _ _ HR) by lia. rewrite E1, E2, !length_app. simpl. lia.
  - rewrite E1, csize_app in Hs. rewrite E2, csize_app, csize_cons. lia.
Qed.

Lemma incr_count_eq q a n :
  ndata q !! a = Some n → incr_count q a = Some (set_node a (Node (zl n) (sz n) (wrap_u 16 (ncount n + 1)) (recompress n)) q).
Proof. intros H. unfold incr_count. by rewrite H. Qed.

Lemma set_node_twice q a n1 n2 c k : set_node a n1 (set_counts c k (set_node a n2 q)) = set_counts c k (set_node a n1 q).
Proof. unfold set_node, set_data, set_counts. cbn. by rewrite insert_insert_eq. Qed.

Lemma raw_at_node q a z s c r : raw_at (set_node a (Node (ZRaw z) s c r) q) a.
Proof. eexists. cbn. rewrite lookup_insert_eq. split; [done|]. by exists z. Qed.

(** A node that was not counted is counted. *)
Lemma reps_incr q A x B la lb l n :
  listed q (A ++ x :: B) → Forall2 (node_at q) A la → Forall2 (node_at q) B lb → 0 ≤ compress q → ndata q !! x = Some n → holds 1 (compress q) n l →
  reps (set_node x (Node (zl n) (sz n) (wrap_u 16 (ncount n + 1)) (recompress n)) q) (A ++ x :: B) (la ++ l :: lb).
Proof.
  intros HL HA HB Hc Hn Hh. pose proof (l_nodup _ _ HL) as (_ & H1 & [H2 _]%NoDup_cons)%NoDup_app. split; [by destruct HL; split| |done].
  apply Forall2_app; [apply Forall2_set; [set_solver|done]|]. constructor; [|apply Forall2_set; [set_solver|done]].
  eexists. cbn. rewrite lookup_insert_eq. split; [done|]. by apply holds_incr.
Qed.

Lemma rep_middle q A a B ls :
  rep q (A ++ a :: B) ls → ∃ la l lb n, ls = la ++ l :: lb ∧ length A = length la ∧ length B = length lb ∧ l ≠ [] ∧ ndata q !! a = Some n ∧ holds 0 (compress q) n l.
Proof.
  intros HR. destruct (reps_middle _ _ _ _ _ (p_reps _ _ _ HR)) as (la & l & lb & -> & H1 & H2 & (n & Hn & Hh)). exists la, l, lb, n. split_and!; try done.
  pose proof (p_full _ _ _ HR) as [_ [? _]%Forall_cons]%Forall_app. done.
Qed.

Lemma u16_zlen n : 0 ≤ n < 2 ^ 16 → wrap_u 16 n = n.
Proof. intros H. apply wrap_u_small. done. Qed.

(** The state after the strings of a node were replaced by fewer ones. *)
Lemma rep_shrunk q q' A a B la l lb l' d :
  rep q (A ++ a :: B) (la ++ l :: lb) → reps q' (A ++ a :: B) (la ++ l' :: lb) → l' ≠ [] → dom (ndata q') = dom (ndata q) → qlen q' = qlen q →
  csize l' ≤ csize l → zlen l' = zlen l - d → 0 ≤ d → rep (set_counts (wrap_u 64 (qcount q - d)) (qlen q') q') (A ++ a :: B) (la ++ l' :: lb).
Proof.
  intros HR Hr' Hne Hd Hl Hs Hlen Hd0. pose proof (p_count _ _ _ HR) as Hc. pose proof (rep_count _ _ _ HR) as Hb. rewrite concat_app in Hc. cbn [concat] in Hc. rewrite !length_app in Hc. split; cbn.
  - by apply reps_counts.
  - rewrite Hd. apply HR.
  - rewrite Hl. apply HR.
  - rewrite wrap_u_small by (unfold in_u; lia). rewrite concat_app. cbn [concat]. rewrite !length_app. lia.
  - pose proof (p_full _ _ _ HR) as [? [_ ?]%Forall_cons]%Forall_app. apply Forall_app. split; [done|]. by apply Forall_cons.
  - pose proof (p_size _ _ _ HR) as H. rewrite !concat_app in *. cbn [concat] in *. rewrite !csize_app in *. lia.
Qed.

(** The state after a node was removed from the list. *)
Lemma rep_removed q q' A a B la l lb :
  rep q (A ++ a :: B) (la ++ l :: lb) → reps q' (A ++ B) (la ++ lb) → dom (ndata q') = dom (ndata q) ∖ {[a]} → qlen q' = zlen (A ++ B) →
  rep (set_counts (wrap_u 64 (qcount q - zlen l)) (qlen q') q') (A ++ B) (la ++ lb).
Proof.
  intros HR Hr' Hd Hl. pose proof (p_count _ _ _ HR) as Hc. pose proof (rep_count _ _ _ HR) as Hb. rewrite concat_app in Hc. cbn [concat] in Hc. rewrite !length_app in Hc. split; cbn.
  - by apply reps_counts.
  - rewrite Hd, (p_dom _ _ _ HR). pose proof (l_nodup _ _ (r_listed _ _ _ (p_reps _ _ _ HR))) as (_ & H1 & [H2 _]%NoDup_cons)%NoDup_app.
    rewrite !list_to_set_app_L. cbn. set_solver.
  - done.
  - rewrite wrap_u_small by (unfold in_u; lia). rewrite concat_app, !length_app. lia.
  - pose proof (p_full _ _ _ HR) as [? [_ ?]%Forall_cons]%Forall_app. by apply Forall_app.
  - pose proof (p_size _ _ _ HR) as H. rewrite !concat_app in *. cbn [concat] in *. rewrite !csize_app in *. pose proof (csize_pos l). lia.
Qed.

Lemma u64_small q ns ls : rep q ns ls → wrap_u 64 (qcount q) = qcount q.
Proof. intros H. pose proof (rep_count _ _ _ H). apply wrap_u_small. unfold in_u. lia. Qed.

Lemma csize_take_drop k j (l : list (list Z)) : (k ≤ j)%nat → csize (take k l ++ drop j l) ≤ csize l.
Proof.
  intros Hkj. replace (csize l) with (csize (take k l ++ (take (j - k) (drop k l)) ++ drop j l)); [apply csize_sub|].
  f_equal. replace (drop j l) with (drop (j - k) (drop k l)) by (rewrite drop_drop; f_equal; lia). by rewrite !take_drop.
Qed.

(** The lemmas of the section take all its variables. *)
Set Default Proof Using "All".

Section Ops.

Context (junk : nat → Z) (htab : list Z → Z → Z) (alloc : gset addr → addr).
Hypothesis htab_u32 : ∀ inp i, in_u 32 (htab inp i).
Hypothesis alloc_fresh : ∀ X, alloc X ∉ X.

Implicit Types q : quicklist.

(** ** New nodes *)

Lemma create_node_spec q ns ls n :
  reps q ns ls → dom (ndata q) = list_to_set ns → ∃ x q', quicklistCreateNode alloc q = (x, q') ∧ (x ∉ ns) ∧ links q' !! x = Some (None, None) ∧
    ndata q' !! x = Some (Node ZNull 0 0 false) ∧ ndata (set_node x n q') = <[x := n]> (ndata q) ∧ reps (set_node x n q') ns ls ∧
    qcount q' = qcount q ∧ qlen q' = qlen q ∧ same_opts q q' ∧ qhead q' = qhead q ∧ qtail q' = qtail q.
Proof.
  intros [[Hc Hnd Hh Ht] Hn Hcm] Hdom. unfold quicklistCreateNode. set (x := alloc (dom (ndata q))). assert (x ∉ ns) as Hx.
  { pose proof (alloc_fresh (dom (ndata q))) as H. fold x in H. rewrite Hdom in H. set_solver. }
  eexists x, _. split; [done|]. split_and!; try done; cbn.
  - by rewrite lookup_insert_eq.
  - by rewrite lookup_insert_eq.
  - by rewrite insert_insert_eq.
  - split; [split; try done; cbn; by apply chain_insert| |done]. eapply (Forall2_frame q); [|done|exact Hn]. intros a Ha. cbn. rewrite !lookup_insert_ne; [done|set_solver..].
Qed.

Lemma zrep_single v w : csize [v] < 2 ^ 32 → ∃ z, (z ← ziplistNew junk; ziplistPush junk z v w) = Some z ∧ zrep z [v].
Proof.
  intros Hs. destruct (zrep_new junk) as (z0 & -> & Hz0). cbn [mbind option_bind]. destruct (zrep_push junk z0 [] v w Hz0 Hs) as (z & -> & Hz). exists z. split; [done|]. by destruct (w =? ZIPLIST_HEAD).
Qed.

(** A new node with one value is put at a position of the list. *)
Lemma new_node_spec q A B la lb v w c (after : bool) :
  let old := if after then last_or None A else first_or B None in
  rep q (A ++ B) (la ++ lb) → length A = length la → csize [v] < 2 ^ 32 → Forall is_byte v → 0 ≤ c ≤ 1 → (old = None → A ++ B = []) →
  ∃ x q0 q', node_with junk alloc q v w c = Some (x, q0) ∧ qhead q0 = qhead q ∧ qtail q0 = qtail q ∧ __quicklistInsertNode junk htab q0 old x after = Some q' ∧
    listed q' (A ++ x :: B) ∧ Forall2 (node_at q') A la ∧ Forall2 (node_at q') B lb ∧ (∃ n, ndata q' !! x = Some n ∧ holds (1 - c) (compress q') n [v]) ∧
    dom (ndata q') = list_to_set (A ++ x :: B) ∧ qcount q' = qcount q ∧ qlen q' = zlen (A ++ x :: B) ∧ same_opts q q' ∧
    (is_end q' x → raw_at q' x) ∧ (x ∉ A ++ B) ∧ ∀ b, is_end q' b → Some b ≠ old → raw_at q b → raw_at q' b.
Proof.
  intros old HR Hl Hs Hv Hc Hold. destruct (zrep_single v w Hs) as (z & Ez & Hz). pose proof (p_reps _ _ _ HR) as Hreps.
  destruct (create_node_spec q (A ++ B) (la ++ lb) (Node (ZRaw z) (zlen z) (wrap_u 16 c) false) Hreps (p_dom _ _ _ HR)) as (x & q1 & Ecr & Hx & Hlx & Hdx & Edata & Hr1 & Ecn & Eln & [Ef Ecp] & Eh & Et).
  set (q0 := set_node x (Node (ZRaw z) (zlen z) (wrap_u 16 c) false) q1) in *.
  assert (node_with junk alloc q v w c = Some (x, q0)) as Enw.
  { unfold node_with. rewrite Ecr. destruct (ziplistNew junk) as [z0|]; [|done]. cbn [mbind option_bind] in *. rewrite Ez. cbn [mbind option_bind]. rewrite (update_zl_eq _ _ _ _ _ _ Hdx Hz). done. }
  destruct Hr1 as [HL1 Hn1 Hc1]. apply Forall2_app_inv in Hn1 as [HA1 HB1]; [|done].
  assert (ndata q0 !! x = Some (Node (ZRaw z) (zlen z) (wrap_u 16 c) false)) as Hx0 by by (cbn; rewrite lookup_insert_eq).
  assert (holds (1 - c) (compress q0) (Node (ZRaw z) (zlen z) (wrap_u 16 c) false) [v]) as Hhx by by apply holds_new.
  destruct (insert_node_spec junk htab htab_u32 q0 A B la lb x after HL1 HA1 HB1 Hc1 Hx) as (q' & E & HL' & Hk & Ec' & El' & Ef' & Hraw).
  - done.
  - by eexists _, _, _.
  - done.
  - cbn. rewrite Eln. apply HR.
  - exists x, q0, q'. pose proof Hk as (Ecc & Edd & Hkk).
    destruct (Hkk x _ Hx0) as (n' & Hn' & _ & Hh'). split_and!; try done.
    + eapply Forall2_impl; [exact HA1|]. intros. by eapply node_at_kept.
    + eapply Forall2_impl; [exact HB1|]. intros. by eapply node_at_kept.
    + exists n'. rewrite Ecc. auto.
    + rewrite Edd, Edata, dom_insert_L, (p_dom _ _ _ HR), !list_to_set_app_L. simpl. set_solver.
    + by rewrite Ec'.
    + split; [by rewrite Ef'|by rewrite Ecc].
    + intros He. apply Hraw; [done| |exists (Node (ZRaw z) (zlen z) (wrap_u 16 c) false); split; [done|by exists z]].
      intros E2. unfold old in E2. destruct after; symmetry in E2; [apply last_or_elem in E2 as [?|?]; [done|set_solver]|destruct B; set_solver].
    + intros b He Hb (n & Hn & Hrn). apply Hraw; [done|done|]. exists n. rewrite Edata. split; [|done]. rewrite lookup_insert_ne; [done|].
      intros <-. apply elem_of_dom_2 in Hn. rewrite (p_dom _ _ _ HR) in Hn. set_solver.
Qed.

(** ** Pushing *)

(** A value is pushed into a node of the list. *)
Lemma push_in_spec q A a B la l lb v w n z f :
  rep q (A ++ a :: B) (la ++ l :: lb) → length A = length la → csize (v :: concat (la ++ l :: lb)) < 2 ^ 32 → Forall is_byte v →
  ndata q !! a = Some n → holds 0 (compress q) n l → zl n = ZRaw z → _quicklistNodeAllowInsert (Some n) f (zlen v) = true →
  ∃ z', ziplistPush junk z v w = Some z' ∧ 
    let l' := if w =? ZIPLIST_HEAD then v :: l else l ++ [v] in
    zrep z' l' ∧ holds 0 (compress q) (Node (ZRaw z') (zlen z') (wrap_u 16 (wrap_u 16 (ncount n) + 1)) (recompress n)) l'.
Proof.
  intros HR Hl Hs Hv Hn Hh Ez Hallow. pose proof (csize_concat_cons v la l lb) as Hsz.
  pose proof (allow_insert_bound _ _ _ _ v _ Hh ltac:(lia) Hallow) as Hb. destruct (holds_raw _ _ _ _ Hh ltac:(by exists z)) as (z0 & _ & Ez0 & Hz). rewrite Ez in Ez0. injection Ez0 as <-.
  destruct (zrep_push junk z l v w Hz) as (z' & -> & Hz'); [lia|]. exists z'. split; [done|]. cbv zeta. split; [done|].
  destruct (holds_incr0 _ _ _ Hh Hb) as [-> _]. pose proof (holds_count _ _ _ _ Hh) as (_ & _ & Hbs & Hr & _).
  apply holds_intro; [done| | | |done].
  - destruct (w =? ZIPLIST_HEAD); [by apply Forall_cons|]. apply Forall_app. split; [done|by apply Forall_singleton].
  - rewrite wrap_u_small by (unfold in_u; lia). destruct (w =? ZIPLIST_HEAD); rewrite ?length_app; simpl; lia.
  - destruct (w =? ZIPLIST_HEAD); rewrite ?length_app; simpl; lia.
Qed.

Lemma push_head_spec q ns ls v :
  rep q ns ls → csize (v :: concat ls) < 2 ^ 32 → Forall is_byte v → head_raw q →
  ∃ q' b ns' ls', quicklistPushHead junk htab alloc q v = Some (q', b) ∧ rep q' ns' ls' ∧ concat ls' = v :: concat ls ∧ head_raw q' ∧ same_opts q q'.
Proof.
  intros HR Hs Hv Hraw. unfold quicklistPushHead. pose proof (qhead_rep _ _ _ HR) as Eh. pose proof (p_reps _ _ _ HR) as Hreps.
  assert (∃ dn, deref q (qhead q) = Some dn ∧ (_quicklistNodeAllowInsert dn (fill q) (zlen v) = true → ∃ a B l lb n, ns = a :: B ∧ ls = l :: lb ∧ qhead q = Some a ∧ dn = Some n ∧ ndata q !! a = Some n ∧ holds 0 (compress q) n l)) as (dn & -> & Hdn).
  { rewrite Eh. destruct ns as [|a B]; [by exists None|]. destruct (reps_middle q [] a B ls Hreps) as (la & l & lb & -> & Hl & _ & (n & Hn & Hh)). destruct la; [|done].
    exists (Some n). split; [by apply deref_node|]. intros _. by exists a, B, l, lb, n. }
  cbn [mbind option_bind]. destruct (_quicklistNodeAllowInsert dn (fill q) (zlen v)) eqn:Ea.
  - destruct (Hdn eq_refl) as (a & B & l & lb & n & -> & -> & Ehd & -> & Hn & Hh). rewrite Ehd. cbn [mbind option_bind].
    destruct (Hraw a Ehd) as (n' & Hn' & z & Ez). rewrite Hn in Hn'. injection Hn' as <-. unfold ziplist_of. rewrite Ez. cbn [mbind option_bind].
    destruct (push_in_spec q [] a B [] l lb v ZIPLIST_HEAD n z (fill q) HR eq_refl Hs Hv Hn Hh Ez Ea) as (z' & -> & Hz' & Hh'). cbn [mbind option_bind].
    rewrite (update_zl_eq _ _ _ _ _ _ Hn Hz'). cbn [mbind option_bind]. change (qhead (set_node a ?n q)) with (qhead q). rewrite Ehd. cbn [mbind option_bind].
    rewrite (incr_count_eq _ _ (Node (ZRaw z') (zlen z') (wrap_u 16 (ncount n)) (recompress n))) by apply lookup_insert_eq. cbn [mbind option_bind zl sz ncount recompress]. rewrite set_node_twice.
    eexists _, _, (a :: B), ((v :: l) :: lb). split; [done|]. split; [|split; [done|split]].
    + apply (rep_added q (set_node a (Node (ZRaw z') (zlen z') (wrap_u 16 (wrap_u 16 (ncount n) + 1)) (recompress n)) q) (a :: B) (l :: lb)) with v; try done.
      * by apply (reps_set q [] a B [] l lb).
      * pose proof (p_full _ _ _ HR) as [_ ?]%Forall_cons. by apply Forall_cons.
      * cbn. rewrite dom_insert_L, (p_dom _ _ _ HR). set_solver.
      * apply HR.
      * exists [], (concat (l :: lb)). done.
    + intros b. cbn. rewrite Ehd. intros [= <-]. apply raw_at_node.
    + done.
  - destruct (new_node_spec q [] ns [] ls v ZIPLIST_HEAD 0 false HR eq_refl) as (x & q0 & q' & -> & Eh0 & _ & E & HL & _ & Hnl & (nx & Hnx & Hhx) & Hd & Ec & El & Ho & Hrx & Hx & _); [|done|lia|by destruct ns|].
    { rewrite csize_cons in *. pose proof (csize_pos (concat ls)). change (csize []) with 22. lia. }
    cbn [mbind option_bind app] in *. rewrite Eh0, Eh, E. cbn [mbind option_bind]. rewrite (l_head _ _ HL). cbn [first_or mbind option_bind].
    rewrite (incr_count_eq _ _ nx) by done. cbn [mbind option_bind]. rewrite Ec.
    eexists _, _, (x :: ns), ([v] :: ls). split; [done|]. split; [|split; [done|split]].
    + assert (0 ≤ compress q') as Hcp by (destruct Ho as [_ ->]; apply Hreps).
      apply (rep_added q (set_node x (Node (zl nx) (sz nx) (wrap_u 16 (ncount nx + 1)) (recompress nx)) q') ns ls) with v; try done.
      * by apply (reps_incr q' [] x ns [] ls [v]).
      * apply Forall_cons. split; [done|apply HR].
      * cbn. rewrite dom_insert_L, Hd. set_solver.
      * by exists [], (concat ls).
    + intros b. cbn. rewrite (l_head _ _ HL). intros [= <-]. destruct Hrx as (nx' & Hnx' & z & Ez); [left; by rewrite (l_head _ _ HL)|]. rewrite Hnx in Hnx'. injection Hnx' as <-.
      rewrite Ez. apply raw_at_node.
    + done.
Qed.

Lemma push_tail_spec q ns ls v :
  rep q ns ls → csize (v :: concat ls) < 2 ^ 32 → Forall is_byte v → tail_raw q →
  ∃ q' b ns' ls', quicklistPushTail junk htab alloc q v = Some (q', b) ∧ rep q' ns' ls' ∧ concat ls' = concat ls ++ [v] ∧ tail_raw q' ∧ same_opts q q'.
Proof.
  intros HR Hs Hv Hraw. unfold quicklistPushTail. pose proof (qtail_rep _ _ _ HR) as Et. pose proof (p_reps _ _ _ HR) as Hreps.
  assert (∃ dn, deref q (qtail q) = Some dn ∧ (_quicklistNodeAllowInsert dn (fill q) (zlen v) = true → ∃ A a la l n, ns = A ++ [a] ∧ ls = la ++ [l] ∧ length A = length la ∧ qtail q = Some a ∧ dn = Some n ∧ ndata q !! a = Some n ∧ holds 0 (compress q) n l)) as (dn & -> & Hdn).
  { rewrite Et. destruct (last_or_cases None ns) as [[-> ->]|(A & a & -> & ->)]; [by exists None|]. destruct (reps_middle q A a [] ls Hreps) as (la & l & lb & -> & Hl & Hlb & (n & Hn & Hh)). destruct lb; [|done].
    exists (Some n). split; [by apply deref_node|]. intros _. by exists A, a, la, l, n. }
  cbn [mbind option_bind]. destruct (_quicklistNodeAllowInsert dn (fill q) (zlen v)) eqn:Ea.
  - destruct (Hdn eq_refl) as (A & a & la & l & n & -> & -> & Hl & Etl & -> & Hn & Hh). rewrite Etl. cbn [mbind option_bind].
    destruct (Hraw a Etl) as (n' & Hn' & z & Ez). rewrite Hn in Hn'. injection Hn' as <-. unfold ziplist_of. rewrite Ez. cbn [mbind option_bind].
    destruct (push_in_spec q A a [] la l [] v ZIPLIST_TAIL n z (fill q) HR Hl Hs Hv Hn Hh Ez Ea) as (z' & -> & Hz' & Hh'). cbn [mbind option_bind].
    rewrite (update_zl_eq _ _ _ _ _ _ Hn Hz'). cbn [mbind option_bind]. change (qtail (set_node a ?n q)) with (qtail q). rewrite Etl. cbn [mbind option_bind].
    rewrite (incr_count_eq _ _ (Node (ZRaw z') (zlen z') (wrap_u 16 (ncount n)) (recompress n))) by apply lookup_insert_eq. cbn [mbind option_bind zl sz ncount recompress]. rewrite set_node_twice.
    assert (concat (la ++ [l ++ [v]]) = concat (la ++ [l]) ++ [v]) as Ecc by by rewrite !concat_app, <-(assoc_L (++)); cbn; rewrite !app_nil_r.
    eexists _, _, (A ++ [a]), (la ++ [l ++ [v]]). split; [done|]. split; [|split; [done|split]].
    + apply (rep_added q (set_node a (Node (ZRaw z') (zlen z') (wrap_u 16 (wrap_u 16 (ncount n) + 1)) (recompress n)) q) (A ++ [a]) (la ++ [l])) with v; try done.
      * by apply (reps_set q A a [] la l []).
      * pose proof (p_full _ _ _ HR) as [? _]%Forall_app. apply Forall_app. split; [done|]. apply Forall_singleton. by destruct l.
      * cbn. rewrite dom_insert_L, (p_dom _ _ _ HR). set_solver.
      * apply HR.
      * exists (concat (la ++ [l])), []. by rewrite app_nil_r.
    + intros b. cbn. rewrite Etl. intros [= <-]. apply raw_at_node.
    + done.
  - destruct (new_node_spec q ns [] ls [] v ZIPLIST_TAIL 0 true) as (x & q0 & q' & -> & _ & Et0 & E & HL & Hnl & _ & (nx & Hnx & Hhx) & Hd & Ec & El & Ho & Hrx & Hx & _).
    { by rewrite !app_nil_r. }
    { by eapply Forall2_length, Hreps. }
    { rewrite csize_cons in *. pose proof (csize_pos (concat ls)). change (csize []) with 22. lia. }
    { done. }
    { lia. }
    { rewrite app_nil_r. by destruct (last_or_cases None ns) as [[-> _]|(A & a & -> & ->)]. }
    cbn [mbind option_bind] in *. rewrite Et0, Et, E. cbn [mbind option_bind]. rewrite (l_tail _ _ HL), last_or_snoc. cbn [mbind option_bind].
    rewrite (incr_count_eq _ _ nx) by done. cbn [mbind option_bind]. rewrite Ec.
    eexists _, _, (ns ++ [x]), (ls ++ [[v]]). split; [done|]. split; [|split; [by rewrite concat_app|split]].
    + assert (0 ≤ compress q') as Hcp by (destruct Ho as [_ ->]; apply Hreps).
      apply (rep_added q (set_node x (Node (zl nx) (sz nx) (wrap_u 16 (ncount nx + 1)) (recompress nx)) q') ns ls) with v; try done.
      * by apply (reps_incr q' ns x [] ls [] [v]).
      * apply Forall_app. split; [apply HR|by apply Forall_singleton].
      * cbn. rewrite dom_insert_L, Hd. set_solver.
      * exists (concat ls), []. by rewrite app_nil_r, concat_app.
    + intros b. cbn. rewrite (l_tail _ _ HL), last_or_snoc. intros [= <-]. destruct Hrx as (nx' & Hnx' & z & Ez); [right; by rewrite (l_tail _ _ HL), last_or_snoc|].
      rewrite Hnx in Hnx'. injection Hnx' as <-. rewrite Ez. apply raw_at_node.
    + done.
Qed.

(** ** Deleting an entry *)

(** [__quicklistDelNode] of a node of the list whose record was changed. *)
Lemma del_node_rep q A a B la l lb nn c :
  rep q (A ++ a :: B) (la ++ l :: lb) → length A = length la →
  ∃ q', __quicklistDelNode junk htab (set_counts c (qlen q) (set_node a nn q)) a = Some q' ∧ reps q' (A ++ B) (la ++ lb) ∧ dom (ndata q') = dom (ndata q) ∖ {[a]} ∧
    qcount q' = wrap_u 64 (c - ncount nn) ∧ qlen q' = zlen (A ++ B) ∧ same_opts q q' ∧ ∀ b, b ≠ a → is_end q' b → raw_at q b → raw_at q' b.
Proof.
  intros HR Hl. pose proof (p_reps _ _ _ HR) as [HL Hn Hc]. pose proof (l_nodup _ _ HL) as (_ & H1 & [H2 _]%NoDup_cons)%NoDup_app.
  destruct (del_node_spec junk htab htab_u32 (set_counts c (qlen q) (set_node a nn q)) A a B la lb nn) as (q' & E & Hr & Hd & Ecn & Eln & Ef & Ecp & Hraw).
  - by destruct HL; split.
  - apply (Forall2_same (set_node a nn q)); [done|done|]. apply Forall2_set; [set_solver|]. apply Forall2_app_inv in Hn as [HA HB]; [|done]. inversion HB; subst. by apply Forall2_app.
  - done.
  - cbn. apply lookup_insert_eq.
  - apply HR.
  - exists q'. split_and!; try done.
    + rewrite Hd. cbn. rewrite dom_insert_L, (p_dom _ _ _ HR). set_solver.
    + intros b Hb He Hrb. apply Hraw; [done|done|]. apply (raw_at_same (set_node a nn q)); [done|]. by apply raw_at_set.
Qed.

Lemma del_index_spec q A a B la l lb n z k p :
  rep q (A ++ a :: B) (la ++ l :: lb) → length A = length la → ndata q !! a = Some n → holds 0 (compress q) n l → zl n = ZRaw z → points z l k p → (k < length l)%nat →
  ∃ q' gone p', quicklistDelIndex junk htab q a p = Some (q', gone, p') ∧ same_opts q q' ∧ (∀ b, b ≠ a → is_end q' b → raw_at q b → raw_at q' b) ∧
    if (gone : bool) then length l = 1%nat ∧ rep q' (A ++ B) (la ++ lb)
    else length l ≠ 1%nat ∧ rep q' (A ++ a :: B) (la ++ (take k l ++ drop (S k) l) :: lb) ∧ raw_at q' a.
Proof.
  intros HR Hl Hn Hh Ez Hp Hk. unfold quicklistDelIndex. rewrite Hn. cbn [mbind option_bind]. unfold ziplist_of. rewrite Ez. cbn [mbind option_bind]. unfold ziplistDelete.
  destruct (zrep_delete junk z l k p 1 Hp Hk ltac:(lia)) as (z' & -> & Hp'). cbn [mbind option_bind]. change (Z.to_nat 1) with 1%nat in Hp'. rewrite Nat.add_1_r in Hp'.
  destruct (holds_count _ _ _ _ Hh) as (Hnc & Hlt & Hbs & Hrc & _). rewrite Z.add_0_r in Hnc. rewrite u16_zlen by lia.
  assert (length (take k l ++ drop (S k) l) = (length l - 1)%nat) as Hl' by (rewrite length_app, length_take, length_drop; lia).
  destruct (Z.eqb_spec (ncount n - 1) 0) as [E|E].
  - destruct (del_node_rep q A a B la l lb (Node (ZRaw z') (sz n) (ncount n - 1) (recompress n)) (qcount q) HR Hl) as (q' & Edl & Hr & Hd & Ecn & Eln & Ho & Hraw). change (set_counts (qcount q) (qlen q) (set_node ?a ?n q)) with (set_node a n q) in Edl. rewrite Edl. cbn [mbind option_bind ncount] in *.
    eexists _, true, _. split; [done|]. split; [done|]. split; [done|]. split; [lia|]. rewrite Ecn, E, Z.sub_0_r, (u64_small _ _ _ HR).
    replace (qcount q - 1) with (qcount q - zlen l) by lia. by eapply rep_removed.
  - rewrite (update_zl_eq _ _ _ _ _ _ Hn (points_zrep _ _ _ _ Hp')). cbn [mbind option_bind]. rewrite u16_zlen by lia. eexists _, false, _. split; [done|]. split; [done|]. split; [|split; [lia|split]].
    + intros b Hb _ Hr. by apply raw_at_set.
    + eapply (rep_shrunk q (set_node a _ q)); [exact HR| | | | | | |].
      * apply (reps_set q A a B la l lb); [apply HR|done|]. apply holds_intro; [by eapply points_zrep| | | |done].
        -- apply Forall_app. split; [by apply Forall_take|by apply Forall_drop].
        -- rewrite Hl'. lia.
        -- rewrite Hl'. lia.
      * intros Hnil. rewrite Hnil in Hl'. simpl in Hl'. lia.
      * cbn. rewrite dom_insert_L, (p_dom _ _ _ HR). set_solver.
      * done.
      * apply csize_take_drop. lia.
      * rewrite Hl'. lia.
      * lia.
    + apply raw_at_node.
Qed.

(** ** Popping *)

Lemma pop_head_spec q ns ls :
  rep q ns ls → head_raw q →
  match concat ls with
  | [] => quicklistPopCustom junk htab q QUICKLIST_HEAD = Some (q, None)
  | s :: L => ∃ q' ns' ls', quicklistPopCustom junk htab q QUICKLIST_HEAD = Some (q', Some (stored s)) ∧ rep q' ns' ls' ∧ concat ls' = L ∧ same_opts q q'
  end.
Proof.
  intros HR Hraw. unfold quicklistPopCustom. rewrite (p_count _ _ _ HR). destruct ns as [|a B].
  - pose proof (r_nodes _ _ _ (p_reps _ _ _ HR)) as Hn. inversion Hn; subst. done.
  - destruct (rep_middle q [] a B ls HR) as (la & l & lb & n & -> & Hl & _ & Hne & Hn & Hh). destruct la; [|done]. destruct l as [|s l]; [done|]. cbn [app concat] in *.
    rewrite (proj2 (Z.eqb_neq _ _)) by (simpl; lia). cbn [Z.eqb QUICKLIST_HEAD]. pose proof (qhead_rep _ _ _ HR) as Eh. cbn in Eh. rewrite Eh.
    destruct (Hraw a Eh) as (n' & Hn' & z & Ez). rewrite Hn in Hn'. injection Hn' as <-. rewrite Hn. cbn [mbind option_bind]. unfold ziplist_of at 1. rewrite Ez. cbn [mbind option_bind].
    destruct (holds_raw _ _ _ _ Hh ltac:(by exists z)) as (z0 & _ & Ez0 & Hz). rewrite Ez in Ez0. injection Ez0 as <-.
    destruct (zrep_index z (s :: l) 0 Hz ltac:(lia)) as ([p|] & -> & Hm); [|by destruct l]. destruct Hm as (k & Ek & Hk & Hp).
    assert (k = 0%nat) as -> by (unfold a_index in Ek; cbn in Ek; by injection Ek as <-). cbn [mbind option_bind]. rewrite (points_get _ _ _ _ Hp). cbn [lookup list_lookup fmap option_fmap option_map mbind option_bind].
    destruct (del_index_spec q [] a B [] (s :: l) lb n z 0 p HR eq_refl Hn Hh Ez Hp Hk) as (q' & gone & p' & -> & Ho & _ & Hg). cbn [mbind option_bind].
    destruct gone; destruct Hg as [Hlen Hg]; eexists _, _, _; (split; [done|]).
    + split; [exact Hg|]. destruct l; [done|]. simpl in Hlen. lia.
    + destruct Hg as [Hg _]. split; [exact Hg|]. cbn. by rewrite drop_0.
Qed.

Lemma pop_tail_spec q ns ls :
  rep q ns ls → tail_raw q →
  (concat ls = [] ∧ quicklistPopCustom junk htab q QUICKLIST_TAIL = Some (q, None)) ∨
  ∃ L s q' ns' ls', concat ls = L ++ [s] ∧ quicklistPopCustom junk htab q QUICKLIST_TAIL = Some (q', Some (stored s)) ∧ rep q' ns' ls' ∧ concat ls' = L ∧ same_opts q q' ∧
    (head_raw q → head_raw q').
Proof.
  intros HR Hraw. unfold quicklistPopCustom. rewrite (p_count _ _ _ HR). destruct (last_or_cases None ns) as [[-> _]|(A & a & -> & El)].
  - pose proof (r_nodes _ _ _ (p_reps _ _ _ HR)) as Hn. inversion Hn; subst. by left.
  - right. destruct (rep_middle q A a [] ls HR) as (la & l & lb & n & -> & Hl & Hlb & Hne & Hn & Hh). destruct lb; [|done].
    destruct l as [|s l _] using rev_ind; [done|]. rewrite concat_app. cbn [concat]. rewrite app_nil_r.
    rewrite (proj2 (Z.eqb_neq _ _)) by (rewrite !length_app; simpl; lia). cbn [Z.eqb QUICKLIST_HEAD QUICKLIST_TAIL Pos.eqb]. pose proof (qtail_rep _ _ _ HR) as Et. rewrite El in Et. rewrite Et.
    destruct (Hraw a Et) as (n' & Hn' & z & Ez). rewrite Hn in Hn'. injection Hn' as <-. rewrite Hn. cbn [mbind option_bind]. unfold ziplist_of at 1. rewrite Ez. cbn [mbind option_bind].
    destruct (holds_raw _ _ _ _ Hh ltac:(by exists z)) as (z0 & _ & Ez0 & Hz). rewrite Ez in Ez0. injection Ez0 as <-.
    assert (a_index (length (l ++ [s])) (-1) = Some (length l)) as Ea.
    { unfold a_index. rewrite length_app. cbn [length Z.ltb Z.compare]. rewrite (proj2 (Z.leb_le _ _)) by lia. f_equal. lia. }
    destruct (zrep_index z (l ++ [s]) (-1) Hz ltac:(lia)) as ([p|] & -> & Hm); [|congruence]. destruct Hm as (k & Ek & Hk & Hp). rewrite Ea in Ek. injection Ek as <-.
    cbn [mbind option_bind]. rewrite (points_get _ _ _ _ Hp). rewrite lookup_app_r, Nat.sub_diag by lia. cbn [lookup list_lookup fmap option_fmap option_map mbind option_bind].
    destruct (del_index_spec q A a [] la (l ++ [s]) [] n z (length l) p HR Hl Hn Hh Ez Hp Hk) as (q' & gone & p' & -> & Ho & Hk' & Hg). cbn [mbind option_bind].
    exists (concat la ++ l), s, q'. rewrite take_app_length, drop_ge, !app_nil_r in Hg by (rewrite length_app; simpl; lia).
    destruct gone; destruct Hg as [Hlen Hg]; [exists A, la|exists (A ++ [a]), (la ++ [l])].
    + rewrite length_app in Hlen. destruct l as [|? l]; [|simpl in Hlen; lia]. split_and!; try done; [by rewrite app_nil_r|by rewrite app_nil_r|].
      intros Hh' b Hb. pose proof Hb as Hb2. rewrite (qhead_rep _ _ _ Hg) in Hb. destruct A as [|c A]; [done|]. injection Hb as <-. apply Hk'; [|by left|].
      * pose proof (l_nodup _ _ (r_listed _ _ _ (p_reps _ _ _ HR))) as [Hnd _]%NoDup_cons. intros ->. set_solver.
      * apply Hh'. by rewrite (qhead_rep _ _ _ HR).
    + destruct Hg as [Hg Hra]. split_and!; try done; [by rewrite <-(assoc_L (++))|by rewrite concat_app; cbn; rewrite app_nil_r|].
      intros Hh' b Hb. pose proof Hb as Hb2. rewrite (qhead_rep _ _ _ Hg) in Hb. destruct (decide (b = a)) as [->|Hne']; [done|]. apply Hk'; [done|by left|]. apply Hh'. rewrite (qhead_rep _ _ _ HR). done.
Qed.

End Ops.
