(* ===== verification/QuickListIter.v ===== *)
(** Positions in a quicklist: the entry at an index, iterators in both directions and the
    deletion of the entries an iterator has reached. *)

From stdpp Require Import list numbers strings gmap.
From S2P Require Import Prelude Util SdsText Lzf Ziplist ZiplistEntry ZiplistList ZiplistRefine QuickList QuickListNode QuickListRep QuickListOps.

Set Default Proof Using "All".

(** The entry points to the [j]th string of [l], which the node [a] holds. *)
Definition entry_at (q : quicklist) (e : quicklistEntry) (a : addr) (l : list (list Z)) (j : nat) : Prop :=
  ∃ n z p s, ndata q !! a = Some n ∧ holds 0 (compress q) n l ∧ zl n = ZRaw z ∧ points z l j p ∧ l !! j = Some s ∧
    e_node e = Some a ∧ e_zi e = Some p ∧ e_value e = stored s.

(** The nodes around the position [j] of the node [a]. *)
Definition placed (ns : list addr) (ls : list (list (list Z))) (A : list addr) (a : addr) (B : list addr) (la : list (list (list Z))) (l : list (list Z))
    (lb : list (list (list Z))) : Prop :=
  ns = A ++ a :: B ∧ ls = la ++ l :: lb ∧ length A = length la.

Lemma NoDup_split_unique {X} (A A' : list X) a B B' : NoDup (A ++ a :: B) → A ++ a :: B = A' ++ a :: B' → A' = A ∧ B' = B.
Proof.
  revert A'. induction A as [|c A IH]; intros [|c' A'] Hnd E; cbn [app] in *; apply NoDup_cons in Hnd as [H Hnd].
  - by injection E as ->.
  - injection E as -> ->. set_solver.
  - injection E as <- E. set_solver.
  - injection E as -> E. by destruct (IH A' Hnd E) as [-> ->].
Qed.

Section Iter.

Context (junk : nat → Z) (htab : list Z → Z → Z) (alloc : gset addr → addr).
Hypothesis htab_u32 : ∀ inp i, in_u 32 (htab inp i).
Hypothesis alloc_fresh : ∀ X, alloc X ∉ X.

Implicit Types q : quicklist.

Lemma size_nodes q ns ls : rep q ns ls → size (ndata q) = length ns.
Proof.
  intros HR. rewrite <-size_dom, (p_dom _ _ _ HR). apply size_list_to_set. apply (p_reps _ _ _ HR).
Qed.

Lemma next_rep q A a B ls : rep q (A ++ a :: B) ls → next q a = Some (first_or B None) ∧ prev q a = Some (last_or None A).
Proof.
  intros HR. pose proof (chain_node _ _ _ _ _ _ (l_chain _ _ (r_listed _ _ _ (p_reps _ _ _ HR)))) as H. unfold next, prev. by rewrite H.
Qed.

Lemma concat_bound q la l lb ns : rep q ns (la ++ l :: lb) → 0 ≤ zlen (concat la) + zlen l + zlen (concat lb) < 2 ^ 32 - 1.
Proof. intros HR. pose proof (rep_count _ _ _ HR) as H. rewrite (p_count _ _ _ HR), concat_app in H. cbn [concat] in H. rewrite !length_app in H. lia. Qed.

Lemma index_forward fuel : ∀ q A B la lb index,
  rep q (A ++ B) (la ++ lb) → length A = length la → zlen (concat la) ≤ index < zlen (concat (la ++ lb)) → (length B < fuel)%nat →
  ∃ A' a B' la' l lb', placed (A ++ B) (la ++ lb) A' a B' la' l lb' ∧
    index_loop fuel q true (first_or B None) (zlen (concat la)) index = Some (Some a, zlen (concat la')) ∧ zlen (concat la') ≤ index < zlen (concat la') + zlen l.
Proof.
  induction fuel as [|fuel IH]; intros q A B la lb index HR Hl Hi Hf; [lia|]. destruct B as [|a B].
  - pose proof (Forall2_length _ _ _ (r_nodes _ _ _ (p_reps _ _ _ HR))) as Hl2. rewrite !length_app in Hl2. destruct lb; [|simpl in Hl2; lia]. rewrite app_nil_r in Hi. lia.
  - destruct (rep_middle q A a B (la ++ lb) HR) as (la' & l & lb' & n & E & Hl' & _ & Hne & Hn & Hh). apply app_inj_1 in E as [<- ->]; [|congruence].
    pose proof (concat_bound _ _ _ _ _ HR) as Hb. destruct (holds_count _ _ _ _ Hh) as (Hc & _). rewrite Z.add_0_r in Hc. cbn [index_loop first_or]. rewrite Hn. cbn [mbind option_bind].
    rewrite wrap_u_small by (unfold in_u; lia). rewrite Hc. destruct (Z.ltb_spec index (zlen (concat la) + zlen l)) as [Hlt|Hge].
    + exists A, a, B, la, l, lb'. split; [done|]. split; [done|]. lia.
    + destruct (next_rep _ _ _ _ _ HR) as [-> _]. cbn [mbind option_bind].
      replace (A ++ a :: B) with ((A ++ [a]) ++ B) in * by by rewrite <-(assoc_L (++)). replace (la ++ l :: lb') with ((la ++ [l]) ++ lb') in * by by rewrite <-(assoc_L (++)).
      assert (zlen (concat (la ++ [l])) = zlen (concat la) + zlen l) as Ec by (rewrite concat_app; cbn [concat]; rewrite !length_app; simpl; lia).
      rewrite <-Ec. apply IH; [done|rewrite !length_app; simpl; lia|lia|simpl in Hf; lia].
Qed.

Lemma index_backward fuel : ∀ q A B la lb index,
  rep q (A ++ B) (la ++ lb) → length A = length la → zlen (concat lb) ≤ index < zlen (concat (la ++ lb)) → (length A < fuel)%nat →
  ∃ A' a B' la' l lb', placed (A ++ B) (la ++ lb) A' a B' la' l lb' ∧
    index_loop fuel q false (last_or None A) (zlen (concat lb)) index = Some (Some a, zlen (concat lb')) ∧ zlen (concat lb') ≤ index < zlen (concat lb') + zlen l.
Proof.
  induction fuel as [|fuel IH]; intros q A B la lb index HR Hl Hi Hf; [lia|]. destruct (last_or_cases None A) as [[-> _]|(A0 & a & -> & Ea)].
  - destruct la; [|done]. cbn [app] in *. lia.
  - destruct la as [|l la0 _] using rev_ind; [rewrite length_app in Hl; simpl in Hl; lia|]. rewrite !length_app in Hl. cbn [length] in Hl.
    rewrite <-!(assoc_L (++)) in *. cbn [app] in *. destruct (rep_middle q A0 a B _ HR) as (la' & l' & lb' & n & E & Hl' & _ & Hne & Hn & Hh).
    apply app_inj_1 in E as [<- [= <- <-]]; [|lia].
    pose proof (concat_bound _ _ _ _ _ HR) as Hb. destruct (holds_count _ _ _ _ Hh) as (Hc & _). rewrite Z.add_0_r in Hc. cbn [index_loop]. rewrite Ea, Hn. cbn [mbind option_bind].
    rewrite wrap_u_small by (unfold in_u; lia). rewrite Hc. destruct (Z.ltb_spec index (zlen (concat lb) + zlen l)) as [Hlt|Hge].
    + exists A0, a, B, la0, l, lb. split; [split_and!; try done; lia|]. split; [done|]. lia.
    + destruct (next_rep _ _ _ _ _ HR) as [_ ->]. cbn [mbind option_bind].
      assert (zlen (concat (l :: lb)) = zlen (concat lb) + zlen l) as Ec by (cbn [concat]; rewrite !length_app; lia).
      rewrite <-Ec. apply IH; [done|lia|lia|rewrite length_app in Hf; simpl in Hf; lia].
Qed.

Lemma node_good q A a B la l lb : rep q (A ++ a :: B) (la ++ l :: lb) → length A = length la → ∃ n, ndata q !! a = Some n ∧ holds 0 (compress q) n l ∧ good q a.
Proof.
  intros HR Hl. destruct (rep_middle _ _ _ _ _ HR) as (la' & l' & lb' & n & E & Hl' & _ & _ & Hn & Hh). apply app_inj_1 in E as [_ [= <- _]]; [|congruence].
  exists n. split_and!; try done. by exists n, l, 0.
Qed.

(** A node is uncompressed to be read. *)
Lemma use_node q A a B la l lb :
  rep q (A ++ a :: B) (la ++ l :: lb) → length A = length la →
  ∃ q' n z, quicklistDecompressNodeForUse junk q (Some a) = Some q' ∧ recoded q q' ∧ keeps_raw q q' ∧ ndata q' !! a = Some n ∧ holds 0 (compress q') n l ∧ zl n = ZRaw z ∧ zrep z l.
Proof.
  intros HR Hl. destruct (node_good _ _ _ _ _ _ _ HR Hl) as (n & Hn & Hh & Hg).
  destruct (decompress_use_spec junk q a Hg) as (q' & -> & Hr & (n' & Hn' & Hraw) & Hk). destruct (recoded_holds 0 _ _ _ _ _ Hr Hn Hh) as (n2 & Hn2 & Hh2).
  rewrite Hn' in Hn2. injection Hn2 as <-. destruct (holds_raw _ _ _ _ Hh2 Hraw) as (z & _ & Ez & Hz). by exists q', n', z.
Qed.

Lemma get_entry_eq q a n z l j p s off :
  ndata q !! a = Some n → zl n = ZRaw z → points z l j p → l !! j = Some s → get_entry q a (Some p) off = Some (Entry (Some a) (Some p) (stored s) off).
Proof.
  intros Hn Ez Hp Hs. unfold get_entry, ziplist_of. rewrite Hn. cbn [mbind option_bind]. rewrite Ez. cbn [mbind option_bind]. rewrite (points_get _ _ _ _ Hp), Hs. done.
Qed.

Lemma s32_small x : - 2 ^ 16 ≤ x ≤ 2 ^ 16 → s32 x = x.
Proof. intros H. apply wrap_s_small; [lia|]. unfold in_s. lia. Qed.

Lemma a_index_nat l j : (j < l)%nat → a_index l (Z.of_nat j) = Some j.
Proof. intros H. unfold a_index. rewrite (proj2 (Z.ltb_ge _ _)), (proj2 (Z.ltb_lt _ _)) by lia. f_equal. lia. Qed.

Lemma a_index_neg l j : (j < l)%nat → a_index l (Z.of_nat j - Z.of_nat l) = Some j.
Proof. intros H. unfold a_index. rewrite (proj2 (Z.ltb_lt _ _)), (proj2 (Z.leb_le _ _)) by lia. f_equal. lia. Qed.

Lemma ql_index_spec q ns ls idx :
  rep q ns ls → - 2 ^ 63 < idx →
  let i := if idx <? 0 then zlen (concat ls) + idx else idx in
  if decide (0 ≤ i < zlen (concat ls)) then
    ∃ q' e A a B la l lb j, quicklistIndex junk q idx = Some (q', Some e) ∧ recoded q q' ∧ keeps_raw q q' ∧ placed ns ls A a B la l lb ∧ entry_at q' e a l j ∧
      i = zlen (concat la) + Z.of_nat j ∧ (j < length l)%nat ∧ e_offset e = (if idx <? 0 then Z.of_nat j - zlen l else Z.of_nat j)
  else quicklistIndex junk q idx = Some (q, None).
Proof.
  intros HR Hmin i. unfold quicklistIndex. rewrite (p_count _ _ _ HR).
  assert (∃ index n, (if negb (idx <? 0) then Some (idx, qhead q) else if idx =? - 2 ^ 63 then None else Some (- idx - 1, qtail q)) = Some (index, n) ∧
    index = (if idx <? 0 then - idx - 1 else idx) ∧ n = (if idx <? 0 then qtail q else qhead q)) as (index & n & -> & Ei & En).
  { destruct (Z.ltb_spec idx 0); cbn [negb]; [|by eexists _, _]. rewrite (proj2 (Z.eqb_neq _ _)) by lia. by eexists _, _. }
  cbn [mbind option_bind]. destruct (decide (0 ≤ i < zlen (concat ls))) as [Hi|Hi].
  2: { rewrite (proj2 (Z.leb_le _ _)); [done|]. subst i index. destruct (Z.ltb_spec idx 0); lia. }
  rewrite (proj2 (Z.leb_gt _ _)) by (subst i index; destruct (Z.ltb_spec idx 0); lia).
  assert (∃ A a B la l lb accum j, placed ns ls A a B la l lb ∧ index_loop (S (size (ndata q))) q (negb (idx <? 0)) n 0 index = Some (Some a, accum) ∧
    i = zlen (concat la) + Z.of_nat j ∧ (j < length l)%nat ∧ (if negb (idx <? 0) then index - accum else - index - 1 + accum) = (if idx <? 0 then Z.of_nat j - zlen l else Z.of_nat j))
    as (A & a & B & la & l & lb & accum & j & Hpl & -> & Hij & Hj & Eoff).
  { rewrite (size_nodes _ _ _ HR). subst i index n. destruct (Z.ltb_spec idx 0); cbn [negb].
    - destruct (index_backward (S (length ns)) q ns [] ls [] (- idx - 1)) as (A & a & B & la & l & lb & Hpl & E & Hb).
      { by rewrite !app_nil_r. } { by eapply Forall2_length, HR. } { rewrite app_nil_r. cbn. lia. } { lia. }
      rewrite !app_nil_r in Hpl. pose proof Hpl as (_ & -> & _). rewrite concat_app in Hi. cbn [concat] in Hi. rewrite !length_app in Hi.
      rewrite (qtail_rep _ _ _ HR).
      exists A, a, B, la, l, lb, (zlen (concat lb)), (Z.to_nat (zlen l + zlen (concat lb) + idx)). split; [done|]. split; [exact E|]. rewrite concat_app. cbn [concat]. rewrite !length_app. lia.
    - destruct (index_forward (S (length ns)) q [] ns [] ls idx) as (A & a & B & la & l & lb & Hpl & E & Hb); [done|done|cbn; lia|lia|].
      rewrite (qhead_rep _ _ _ HR). exists A, a, B, la, l, lb, (zlen (concat la)), (Z.to_nat (idx - zlen (concat la))). split; [done|]. split; [exact E|]. lia. }
  cbn [mbind option_bind]. rewrite Eoff. destruct Hpl as (-> & -> & Hl). destruct (use_node _ _ _ _ _ _ _ HR Hl) as (q' & n' & z & -> & Hr & Hk & Hn' & Hh' & Ez & Hz).
  cbn [mbind option_bind]. rewrite Hn'. cbn [mbind option_bind]. unfold ziplist_of. rewrite Ez. cbn [mbind option_bind].
  destruct (holds_count _ _ _ _ Hh') as (_ & Hlt & _). set (off := if idx <? 0 then Z.of_nat j - zlen l else Z.of_nat j).
  assert (- 2 ^ 16 ≤ off ≤ 2 ^ 16 ∧ a_index (length l) off = Some j) as [Hoff Ha].
  { unfold off. destruct (idx <? 0); [rewrite a_index_neg by done|rewrite a_index_nat by done]; split; (done || lia). }
  rewrite s32_small by done. destruct (zrep_index z l off Hz ltac:(lia)) as ([p|] & -> & Hm); [|congruence]. destruct Hm as (k & Ek & _ & Hp). rewrite Ha in Ek. injection Ek as <-.
  cbn [mbind option_bind]. destruct (lookup_lt_is_Some_2 l j Hj) as [s Hs]. rewrite (get_entry_eq _ _ _ _ _ _ _ _ _ Hn' Ez Hp Hs). cbn [mbind option_bind].
  eexists q', _, A, a, B, la, l, lb, j. split; [done|]. split_and!; try done. by exists n', z, p, s.
Qed.

(** ** Iterators *)

(** An iterator from the head: [pre] was returned, [post] was not. *)
Definition fwd q ns ls (it : quicklistIter) (pre post : list (list Z)) : Prop :=
  dir it = AL_START_HEAD ∧
  ((current it = None ∧ pre = concat ls ∧ post = []) ∨
   ∃ A a B la l lb, placed ns ls A a B la l lb ∧ current it = Some a ∧
     match zi it with
     | None => ∃ j, offset it = Z.of_nat j ∧ (j ≤ length l)%nat ∧ pre = concat la ++ take j l ∧ post = drop j l ++ concat lb
     | Some p => ∃ j n z, ndata q !! a = Some n ∧ holds 0 (compress q) n l ∧ zl n = ZRaw z ∧ points z l j p ∧ (j < length l)%nat ∧
         offset it = Z.of_nat j ∧ pre = concat la ++ take (S j) l ∧ post = drop (S j) l ++ concat lb
     end).

(** The entry an iterator has just reached. *)
Definition reached q ns ls (it : quicklistIter) (e : quicklistEntry) (pre : list (list Z)) (s : list Z) (post : list (list Z)) : Prop :=
  ∃ A a B la l lb j, placed ns ls A a B la l lb ∧ entry_at q e a l j ∧ l !! j = Some s ∧ pre = concat la ++ take j l ∧ post = drop (S j) l ++ concat lb ∧
    current it = Some a ∧ zi it = e_zi e ∧ e_offset e = offset it ∧
    offset it = match dir it with AL_START_HEAD => Z.of_nat j | AL_START_TAIL => Z.of_nat j - zlen l end.

Lemma reached_fwd q ns ls it e pre s post : dir it = AL_START_HEAD → reached q ns ls it e pre s post → fwd q ns ls it (pre ++ [s]) post.
Proof.
  intros Hd (A & a & B & la & l & lb & j & Hpl & (n & z & p & s' & Hn & Hh & Ez & Hp & _ & _ & Ep & _) & Hs & -> & -> & Hc & Hzi & _ & Ho). rewrite Hd in Ho. split; [done|]. right.
  exists A, a, B, la, l, lb. split; [done|]. split; [done|]. rewrite Hzi, Ep. exists j, n, z. pose proof (lookup_lt_Some _ _ _ Hs). split_and!; try done.
  rewrite (take_S_r _ _ _ Hs). by rewrite (assoc_L (++)).
Qed.

(** An iterator with the position [j] of a node, which is not yet read. *)
Lemma found_entry q A a B la l lb n z j p it off :
  ndata q !! a = Some n → holds 0 (compress q) n l → zl n = ZRaw z → points z l j p → length A = length la → (j < length l)%nat →
  off = match dir it with AL_START_HEAD => Z.of_nat j | AL_START_TAIL => Z.of_nat j - zlen l end →
  ∃ s e, l !! j = Some s ∧ get_entry q a (Some p) (s32 off) = Some e ∧
    reached q (A ++ a :: B) (la ++ l :: lb) (Iter (Some a) (Some p) off (dir it)) e (concat la ++ take j l) s (drop (S j) l ++ concat lb).
Proof.
  intros Hn Hh Ez Hp Hl Hj Ho. destruct (lookup_lt_is_Some_2 l j Hj) as [s Hs]. exists s. eexists. split; [done|]. split; [by eapply get_entry_eq|].
  exists A, a, B, la, l, lb, j. destruct (holds_count _ _ _ _ Hh) as (_ & Hlt & _). split_and!; try done.
  - by exists n, z, p, s.
  - cbn. apply s32_small. destruct (dir it); lia.
Qed.

(** The end of a node: it is compressed again. *)
Lemma leave_node q A a B la l lb :
  rep q (A ++ a :: B) (la ++ l :: lb) → length A = length la → ∃ q', quicklistCompress junk htab q a = Some q' ∧ recoded q q' ∧ next q' a = Some (first_or B None) ∧ prev q' a = Some (last_or None A).
Proof.
  intros HR Hl. destruct (node_good _ _ _ _ _ _ _ HR Hl) as (_ & _ & _ & Hg). pose proof (p_reps _ _ _ HR) as Hreps.
  destruct (compress_node_spec junk htab htab_u32 q (A ++ a :: B) a (r_listed _ _ _ Hreps) (reps_good _ _ _ Hreps) (r_compress _ _ _ Hreps)) as (q' & -> & Hr & _); [rewrite (p_len _ _ _ HR); lia|done|].
  exists q'. split; [done|]. split; [done|]. by apply next_rep with (la ++ l :: lb), rep_recoded with q.
Qed.

Lemma next_forward fuel : ∀ q ns ls it pre post,
  rep q ns ls → fwd q ns ls it pre post → (∀ a, current it = Some a → ∀ A B, ns = A ++ a :: B → length B + 2 ≤ fuel)%nat → (1 ≤ fuel)%nat →
  ∃ q' it' r, next_loop junk htab fuel q it = Some (q', it', r) ∧ recoded q q' ∧ dir it' = AL_START_HEAD ∧
    match post with [] => r = None | s :: post => ∃ e, r = Some e ∧ reached q' ns ls it' e pre s post end.
Proof.
  induction fuel as [|fuel IH]; intros q ns ls it pre post HR [Hd Hit] Hf Hf1; [lia|]. cbn [next_loop].
  destruct Hit as [(Hc & Hpre & ->)|(A & a & B & la & l & lb & Hpl & Hc & Hit)]; rewrite Hc; [by exists q, it, None|].
  pose proof Hpl as (-> & -> & Hl). specialize (Hf a Hc A B eq_refl). rewrite Hd.
  assert (∀ q1, recoded q q1 → pre = concat la ++ l → post = concat lb →
    ∃ q' it' r, (q2 ← quicklistCompress junk htab q1 a; b ← next q2 a; next_loop junk htab fuel q2 (Iter b None 0 AL_START_HEAD)) = Some (q', it', r) ∧ recoded q q' ∧ dir it' = AL_START_HEAD ∧
    match post with [] => r = None | s :: post => ∃ e, r = Some e ∧ reached q' (A ++ a :: B) (la ++ l :: lb) it' e pre s post end) as Hleave.
  { intros q1 Hr1 -> ->. pose proof (rep_recoded _ _ _ _ Hr1 HR) as HR1. destruct (leave_node _ _ _ _ _ _ _ HR1 Hl) as (q2 & -> & Hr2 & Enx & _). cbn [mbind option_bind]. rewrite Enx. cbn [mbind option_bind].
    assert (recoded q q2) as Hr by by etrans.
    destruct (IH q2 (A ++ a :: B) (la ++ l :: lb) (Iter (first_or B None) None 0 AL_START_HEAD) (concat la ++ l) (concat lb)) as (q' & it' & r & E & Hr' & Hd' & Hm).
    - by eapply rep_recoded.
    - split; [done|]. destruct B as [|b B].
      + left. pose proof (Forall2_length _ _ _ (r_nodes _ _ _ (p_reps _ _ _ HR))) as Hl2. rewrite !length_app in Hl2. destruct lb; [|simpl in Hl2; lia]. split; [done|]. rewrite concat_app. cbn. by rewrite app_nil_r.
      + right. pose proof (Forall2_length _ _ _ (r_nodes _ _ _ (p_reps _ _ _ HR))) as Hl2. rewrite !length_app in Hl2. destruct lb as [|l2 lb]; [simpl in Hl2; lia|].
        exists (A ++ [a]), b, B, (la ++ [l]), l2, lb. split; [split_and!; [by rewrite <-(assoc_L (++))..|rewrite !length_app; simpl; lia]|]. split; [done|]. exists 0%nat. split_and!; [done|lia| |done].
        rewrite concat_app. cbn. by rewrite !app_nil_r.
    - cbn. intros a' Ha' A' B' E. destruct B as [|b B]; [done|]. injection Ha' as <-. cbn [length] in Hf.
      assert (A' = A ++ [a] ∧ B' = B) as [-> ->]; [|lia].
      pose proof (l_nodup _ _ (r_listed _ _ _ (p_reps _ _ _ HR))) as Hnd. rewrite (cons_middle a A), (assoc_L (++)) in E, Hnd. by apply NoDup_split_unique in E.
    - lia.
    - exists q', it', r. split; [done|]. split; [by etrans|]. done. }
  destruct (zi it) as [p|].
  - destruct Hit as (j & n & z & Hn & Hh & Ez & Hp & Hj & Ho & Hpre & Hpost). rewrite Hn. cbn [mbind option_bind]. unfold ziplist_of. rewrite Ez. cbn [mbind option_bind].
    destruct (points_next z l j p Hp) as ([p2|] & -> & Hnx); cbn [mbind option_bind].
    + destruct Hnx as [Hlt Hp2]. rewrite Ho. destruct (found_entry q A a B la l lb n z (S j) p2 it (Z.of_nat j + 1) Hn Hh Ez Hp2 Hl Hlt) as (s & e & Hs & -> & Hre); [rewrite Hd; lia|].
      cbn [mbind option_bind]. rewrite Hd in Hre. eexists q, _, _. split; [done|]. split; [done|]. split; [done|]. rewrite Hpost, (drop_S _ _ _ Hs). cbn [app]. exists e. split; [done|]. by rewrite Hpre.
    + apply lookup_ge_None in Hnx. rewrite take_ge in Hpre by lia. rewrite drop_ge in Hpost by lia. apply Hleave; done.
  - destruct Hit as (j & Ho & Hj & Hpre & Hpost). destruct (use_node _ _ _ _ _ _ _ HR Hl) as (q1 & n & z & -> & Hr1 & _ & Hn & Hh & Ez & Hz). cbn [mbind option_bind]. rewrite Hn. cbn [mbind option_bind].
    unfold ziplist_of. rewrite Ez. cbn [mbind option_bind]. destruct (holds_count _ _ _ _ Hh) as (_ & Hlt & _). rewrite Ho, s32_small by lia.
    destruct (zrep_index z l (Z.of_nat j) Hz ltac:(lia)) as ([p|] & -> & Hm); cbn [mbind option_bind].
    + destruct Hm as (k & Ek & Hk & Hp). unfold a_index in Ek. rewrite (proj2 (Z.ltb_ge _ _)) in Ek by lia. destruct (Z.ltb_spec (Z.of_nat j) (zlen l)); [|done]. injection Ek as <-. rewrite Nat2Z.id in *.
      destruct (found_entry q1 A a B la l lb n z j p it (Z.of_nat j) Hn Hh Ez Hp Hl Hk) as (s & e & Hs & -> & Hre); [by rewrite Hd|].
      cbn [mbind option_bind]. rewrite Hd in Hre. eexists q1, _, _. split; [done|]. split; [done|]. split; [done|]. rewrite Hpost, (drop_S _ _ _ Hs). cbn [app]. exists e. split; [done|]. by rewrite Hpre.
    + assert (j = length l) as -> by (destruct (decide (j < length l)%nat) as [Hl2|]; [rewrite (a_index_nat _ _ Hl2) in Hm; done|lia]).
      rewrite take_ge in Hpre by lia. rewrite drop_ge in Hpost by lia. by apply Hleave.
Qed.

(** An iterator from the tail: [post] was returned, [pre] was not. *)
Definition bwd q ns ls (it : quicklistIter) (pre post : list (list Z)) : Prop :=
  dir it = AL_START_TAIL ∧
  ((current it = None ∧ pre = [] ∧ post = concat ls) ∨
   ∃ A a B la l lb, placed ns ls A a B la l lb ∧ current it = Some a ∧
     match zi it with
     | None => ∃ j, offset it = Z.of_nat j - 1 - zlen l ∧ (j ≤ length l)%nat ∧ pre = concat la ++ take j l ∧ post = drop j l ++ concat lb
     | Some p => ∃ j n z, ndata q !! a = Some n ∧ holds 0 (compress q) n l ∧ zl n = ZRaw z ∧ points z l j p ∧ (j < length l)%nat ∧
         offset it = Z.of_nat j - zlen l ∧ pre = concat la ++ take j l ∧ post = drop j l ++ concat lb
     end).

Lemma reached_bwd q ns ls it e pre s post : dir it = AL_START_TAIL → reached q ns ls it e pre s post → bwd q ns ls it pre (s :: post).
Proof.
  intros Hd (A & a & B & la & l & lb & j & Hpl & (n & z & p & s' & Hn & Hh & Ez & Hp & _ & _ & Ep & _) & Hs & -> & -> & Hc & Hzi & _ & Ho). rewrite Hd in Ho. split; [done|]. right.
  exists A, a, B, la, l, lb. split; [done|]. split; [done|]. rewrite Hzi, Ep. exists j, n, z. pose proof (lookup_lt_Some _ _ _ Hs). split_and!; try done.
  by rewrite (drop_S _ _ _ Hs).
Qed.

Lemma next_backward fuel : ∀ q ns ls it pre post,
  rep q ns ls → bwd q ns ls it pre post → (∀ a, current it = Some a → ∀ A B, ns = A ++ a :: B → length A + 2 ≤ fuel)%nat → (1 ≤ fuel)%nat →
  ∃ q' it' r, next_loop junk htab fuel q it = Some (q', it', r) ∧ recoded q q' ∧ dir it' = AL_START_TAIL ∧
    ((pre = [] ∧ r = None) ∨ ∃ pre' s e, pre = pre' ++ [s] ∧ r = Some e ∧ reached q' ns ls it' e pre' s post).
Proof.
  induction fuel as [|fuel IH]; intros q ns ls it pre post HR [Hd Hit] Hf Hf1; [lia|]. cbn [next_loop].
  destruct Hit as [(Hc & -> & Hpost)|(A & a & B & la & l & lb & Hpl & Hc & Hit)]; rewrite Hc; [exists q, it, None; split_and!; try done; by left|].
  pose proof Hpl as (-> & -> & Hl). specialize (Hf a Hc A B eq_refl). rewrite Hd.
  assert (∀ q1, recoded q q1 → pre = concat la → post = l ++ concat lb →
    ∃ q' it' r, (q2 ← quicklistCompress junk htab q1 a; b ← prev q2 a; next_loop junk htab fuel q2 (Iter b None (-1) AL_START_TAIL)) = Some (q', it', r) ∧ recoded q q' ∧ dir it' = AL_START_TAIL ∧
    ((pre = [] ∧ r = None) ∨ ∃ pre' s e, pre = pre' ++ [s] ∧ r = Some e ∧ reached q' (A ++ a :: B) (la ++ l :: lb) it' e pre' s post)) as Hleave.
  { intros q1 Hr1 -> ->. pose proof (rep_recoded _ _ _ _ Hr1 HR) as HR1. destruct (leave_node _ _ _ _ _ _ _ HR1 Hl) as (q2 & -> & Hr2 & _ & Epv). cbn [mbind option_bind]. rewrite Epv. cbn [mbind option_bind].
    assert (recoded q q2) as Hr by by etrans.
    destruct (IH q2 (A ++ a :: B) (la ++ l :: lb) (Iter (last_or None A) None (-1) AL_START_TAIL) (concat la) (l ++ concat lb)) as (q' & it' & r & E & Hr' & Hd' & Hm).
    - by eapply rep_recoded.
    - split; [done|]. destruct (last_or_cases None A) as [[-> ->]|(A0 & b & -> & ->)].
      + left. destruct la; [|done]. done.
      + right. destruct la as [|l2 la0 _] using rev_ind; [rewrite length_app in Hl; simpl in Hl; lia|]. rewrite !length_app in Hl. cbn [length] in Hl.
        exists A0, b, (a :: B), la0, l2, (l :: lb). split; [split_and!; [by rewrite <-(assoc_L (++))..|lia]|]. split; [done|]. exists (length l2). split_and!; [cbn; lia|lia| |].
        * rewrite concat_app, take_ge by done. cbn. by rewrite app_nil_r.
        * by rewrite drop_ge.
    - cbn. intros a' Ha' A' B' E. destruct (last_or_cases None A) as [[-> Ea]|(A0 & b & -> & Ea)]; rewrite Ea in Ha'; [done|]. injection Ha' as <-. rewrite length_app in Hf. cbn [length] in Hf.
      assert (A' = A0 ∧ B' = a :: B) as [-> ->]; [|lia].
      pose proof (l_nodup _ _ (r_listed _ _ _ (p_reps _ _ _ HR))) as Hnd. rewrite <-(assoc_L (++)) in E, Hnd. by apply NoDup_split_unique in E.
    - lia.
    - exists q', it', r. split; [done|]. split; [by etrans|]. done. }
  destruct (zi it) as [p|].
  - destruct Hit as (j & n & z & Hn & Hh & Ez & Hp & Hj & Ho & Hpre & Hpost). rewrite Hn. cbn [mbind option_bind]. unfold ziplist_of. rewrite Ez. cbn [mbind option_bind].
    destruct (points_prev z l j p Hp) as ([p2|] & -> & Hnx); cbn [mbind option_bind].
    + destruct Hnx as (i & -> & Hp2). rewrite Ho. destruct (found_entry q A a B la l lb n z i p2 it (Z.of_nat (S i) - zlen l - 1) Hn Hh Ez Hp2 Hl ltac:(lia)) as (s & e & Hs & -> & Hre); [rewrite Hd; lia|].
      cbn [mbind option_bind]. rewrite Hd in Hre. eexists q, _, _. split; [done|]. split; [done|]. split; [done|]. right. eexists _, s, e. split; [|split; [done|by rewrite Hpost]].
      rewrite Hpre, (take_S_r _ _ _ Hs). by rewrite (assoc_L (++)).
    + subst j. rewrite take_0, app_nil_r in Hpre. rewrite drop_0 in Hpost. apply Hleave; done.
  - destruct Hit as (j & Ho & Hj & Hpre & Hpost). destruct (use_node _ _ _ _ _ _ _ HR Hl) as (q1 & n & z & -> & Hr1 & _ & Hn & Hh & Ez & Hz). cbn [mbind option_bind]. rewrite Hn. cbn [mbind option_bind].
    unfold ziplist_of. rewrite Ez. cbn [mbind option_bind]. destruct (holds_count _ _ _ _ Hh) as (_ & Hlt & _). rewrite Ho, s32_small by lia.
    destruct (zrep_index z l (Z.of_nat j - 1 - zlen l) Hz ltac:(lia)) as ([p|] & -> & Hm); cbn [mbind option_bind].
    + destruct Hm as (k & Ek & Hk & Hp). assert (j = S k) as ->. { unfold a_index in Ek. repeat case_match; simplify_eq; lia. }
      destruct (found_entry q1 A a B la l lb n z k p it (Z.of_nat (S k) - 1 - zlen l) Hn Hh Ez Hp Hl Hk) as (s & e & Hs & -> & Hre); [rewrite Hd; lia|].
      cbn [mbind option_bind]. rewrite Hd in Hre. eexists q1, _, _. split; [done|]. split; [done|]. split; [done|]. right. eexists _, s, e. split; [|split; [done|by rewrite Hpost]].
      rewrite Hpre, (take_S_r _ _ _ Hs). by rewrite (assoc_L (++)).
    + assert (j = 0%nat) as ->. { destruct j as [|j]; [done|]. replace (Z.of_nat (S j) - 1 - zlen l) with (Z.of_nat j - zlen l) in Hm by lia. by rewrite a_index_neg in Hm. }
      rewrite take_0, app_nil_r in Hpre. rewrite drop_0 in Hpost. by apply Hleave.
Qed.

(** [quicklistNext] has enough fuel. *)
Lemma fuel_enough q ns ls A a B : rep q ns ls → ns = A ++ a :: B → (length A + 2 ≤ S (S (size (ndata q))) ∧ length B + 2 ≤ S (S (size (ndata q))))%nat.
Proof. intros HR ->. rewrite (size_nodes _ _ _ HR), length_app. simpl. lia. Qed.

Lemma ql_next_forward q ns ls it pre post :
  rep q ns ls → fwd q ns ls it pre post →
  ∃ q' it' r, quicklistNext junk htab q (Some it) = Some (q', Some it', r) ∧ recoded q q' ∧ dir it' = AL_START_HEAD ∧
    match post with [] => r = None | s :: post => ∃ e, r = Some e ∧ reached q' ns ls it' e pre s post end.
Proof.
  intros HR Hit. unfold quicklistNext. destruct (next_forward (S (S (size (ndata q)))) q ns ls it pre post HR Hit) as (q' & it' & r & -> & H); [|lia|by exists q', it', r].
  intros a _ A B E. by apply (fuel_enough q ns ls A a B).
Qed.

Lemma ql_next_backward q ns ls it pre post :
  rep q ns ls → bwd q ns ls it pre post →
  ∃ q' it' r, quicklistNext junk htab q (Some it) = Some (q', Some it', r) ∧ recoded q q' ∧ dir it' = AL_START_TAIL ∧
    ((pre = [] ∧ r = None) ∨ ∃ pre' s e, pre = pre' ++ [s] ∧ r = Some e ∧ reached q' ns ls it' e pre' s post).
Proof.
  intros HR Hit. unfold quicklistNext. destruct (next_backward (S (S (size (ndata q)))) q ns ls it pre post HR Hit) as (q' & it' & r & -> & H); [|lia|by exists q', it', r].
  intros a _ A B E. by apply (fuel_enough q ns ls A a B).
Qed.

(** ** Iterators at an index *)

Lemma take_concat (la : list (list (list Z))) l lb (j : nat) : (j ≤ length l)%nat → take (length (concat la) + j) (concat (la ++ l :: lb)) = concat la ++ take j l.
Proof. intros H. rewrite concat_app. cbn [concat]. rewrite take_app_add. by rewrite take_app_le. Qed.

Lemma drop_concat (la : list (list (list Z))) l lb (j : nat) : (j ≤ length l)%nat → drop (length (concat la) + j) (concat (la ++ l :: lb)) = drop j l ++ concat lb.
Proof. intros H. rewrite concat_app. cbn [concat]. rewrite drop_app_add. by rewrite drop_app_le. Qed.

Lemma iter_at_head q ns ls idx :
  rep q ns ls → 0 ≤ idx →
  if decide (idx < zlen (concat ls)) then
    ∃ q' it, quicklistGetIteratorAtIdx junk q AL_START_HEAD idx = Some (q', Some it) ∧ recoded q q' ∧ fwd q' ns ls it (take (Z.to_nat idx) (concat ls)) (drop (Z.to_nat idx) (concat ls))
  else quicklistGetIteratorAtIdx junk q AL_START_HEAD idx = Some (q, None).
Proof.
  intros HR Hi. unfold quicklistGetIteratorAtIdx. pose proof (ql_index_spec q ns ls idx HR ltac:(lia)) as H. cbv zeta in H. rewrite (proj2 (Z.ltb_ge _ _)) in H by lia.
  destruct (decide (idx < zlen (concat ls))) as [Hlt|Hge].
  - rewrite decide_True in H by lia. destruct H as (q' & e & A & a & B & la & l & lb & j & -> & Hr & _ & Hpl & (n & z & p & s & Hn & Hh & Ez & Hp & Hs & Ena & _) & E & Hj & Eo).
    cbn [mbind option_bind]. exists q'. eexists. split; [done|]. split; [done|]. split; [done|]. right. exists A, a, B, la, l, lb. split; [done|]. split; [done|]. cbn. exists j. split; [done|]. split; [lia|].
    destruct Hpl as (_ & -> & _). replace (Z.to_nat idx) with (length (concat la) + j)%nat by lia. by rewrite take_concat, drop_concat by lia.
  - rewrite decide_False in H by lia. by rewrite H.
Qed.

Lemma iter_at_tail q ns ls idx :
  rep q ns ls → - 2 ^ 63 < idx < 0 →
  if decide (0 ≤ zlen (concat ls) + idx) then
    ∃ q' it, quicklistGetIteratorAtIdx junk q AL_START_TAIL idx = Some (q', Some it) ∧ recoded q q' ∧
      bwd q' ns ls it (take (Z.to_nat (zlen (concat ls) + idx + 1)) (concat ls)) (drop (Z.to_nat (zlen (concat ls) + idx + 1)) (concat ls))
  else quicklistGetIteratorAtIdx junk q AL_START_TAIL idx = Some (q, None).
Proof.
  intros HR Hi. unfold quicklistGetIteratorAtIdx. pose proof (ql_index_spec q ns ls idx HR ltac:(lia)) as H. cbv zeta in H. rewrite (proj2 (Z.ltb_lt _ _)) in H by lia.
  destruct (decide (0 ≤ zlen (concat ls) + idx)) as [Hlt|Hge].
  - rewrite decide_True in H by lia. destruct H as (q' & e & A & a & B & la & l & lb & j & -> & Hr & _ & Hpl & (n & z & p & s & Hn & Hh & Ez & Hp & Hs & Ena & _) & E & Hj & Eo).
    cbn [mbind option_bind]. exists q'. eexists. split; [done|]. split; [done|]. split; [done|]. right. exists A, a, B, la, l, lb. split; [done|]. split; [done|]. cbn. exists (S j). split; [lia|]. split; [lia|].
    destruct Hpl as (_ & -> & _). replace (Z.to_nat (zlen (concat (la ++ l :: lb)) + idx + 1)) with (length (concat la) + S j)%nat by lia. by rewrite take_concat, drop_concat by lia.
  - rewrite decide_False in H by lia. by rewrite H.
Qed.

(** ** Comparing and deleting the entry *)

Lemma reached_compare q ns ls it e pre s post str : reached q ns ls it e pre s post → quicklistCompare q e str = Some (bool_decide (s = str)).
Proof.
  intros (A & a & B & la & l & lb & j & _ & (n & z & p & s' & Hn & Hh & Ez & Hp & Hs' & Ena & Ezi & _) & Hs & _). unfold quicklistCompare, ziplist_of.
  rewrite Ena. cbn [mbind option_bind]. rewrite Hn. cbn [mbind option_bind]. rewrite Ez, Ezi. cbn [mbind option_bind]. by eapply points_compare.
Qed.

Lemma reached_concat q ns ls it e pre s post : reached q ns ls it e pre s post → concat ls = pre ++ s :: post.
Proof.
  intros (A & a & B & la & l & lb & j & (_ & -> & _) & _ & Hs & -> & -> & _). rewrite concat_app. cbn [concat]. rewrite <-(take_drop_middle l j s Hs) at 1.
  by rewrite <-!(assoc_L (++)).
Qed.

Lemma del_entry_spec q ns ls it e pre s post :
  rep q ns ls → reached q ns ls it e pre s post →
  ∃ q' it' ns' ls', quicklistDelEntry junk htab q it e = Some (q', it') ∧ rep q' ns' ls' ∧ same_opts q q' ∧ concat ls' = pre ++ post ∧ dir it' = dir it ∧
    match dir it with AL_START_HEAD => fwd q' ns' ls' it' pre post | AL_START_TAIL => bwd q' ns' ls' it' pre post end.
Proof.
  intros HR (A & a & B & la & l & lb & j & (-> & -> & Hl) & (n & z & p & s' & Hn & Hh & Ez & Hp & _ & Ena & Ezi & _) & Hs & -> & -> & Hc & Hzi & _ & Ho).
  pose proof (lookup_lt_Some _ _ _ Hs) as Hj. unfold quicklistDelEntry. rewrite Ena. cbn [mbind option_bind]. destruct (next_rep _ _ _ _ _ HR) as [-> ->]. cbn [mbind option_bind]. rewrite Ezi. cbn [mbind option_bind].
  destruct (del_index_spec junk htab alloc htab_u32 alloc_fresh q A a B la l lb n z j p HR Hl Hn Hh Ez Hp Hj) as (q' & gone & p' & -> & Ho' & _ & Hg). cbn [mbind option_bind].
  assert (length B = length lb) as HlB by (pose proof (Forall2_length _ _ _ (r_nodes _ _ _ (p_reps _ _ _ HR))) as H; rewrite !length_app in H; simpl in H; lia).
  destruct gone; destruct Hg as [Hlen Hg].
  - assert (j = 0%nat) as -> by lia. cbn [take drop] in *. rewrite app_nil_r. rewrite (drop_ge l 1) by lia. cbn [app].
    exists q'. eexists _, (A ++ B), (la ++ lb). split; [done|]. split; [done|]. split; [done|]. split; [by rewrite concat_app|]. destruct (dir it) eqn:Ed; (split; [done|]); (split; [done|]).
    + destruct B as [|b B]; destruct lb as [|l2 lb]; try done; [left; by rewrite !app_nil_r|]. right. exists A, b, B, la, l2, lb. split; [done|]. split; [done|]. exists 0%nat. split_and!; try done; [lia|]. by rewrite app_nil_r.
    + destruct (last_or_cases None A) as [[-> ->]|(A0 & b & -> & ->)]; [left; by destruct la|]. right. destruct la as [|l2 la0 _] using rev_ind; [rewrite length_app in Hl; simpl in Hl; lia|].
      rewrite !length_app in Hl. cbn [length] in Hl. exists A0, b, B, la0, l2, lb. split; [split_and!; [by rewrite <-(assoc_L (++))..|lia]|]. split; [done|]. exists (length l2). split_and!; [cbn; lia|lia| |].
      * rewrite concat_app, take_ge by done. cbn. by rewrite app_nil_r.
      * by rewrite drop_ge.
  - destruct Hg as [Hg _]. set (l' := take j l ++ drop (S j) l) in *. exists q'. eexists _, _, _. split; [done|]. split; [exact Hg|]. split; [done|].
    split; [rewrite concat_app; cbn; unfold l'; by rewrite <-!(assoc_L (++))|]. split; [done|].
    assert (length (take j l) = j) as Ht by (rewrite length_take; lia). assert (length l' = (length l - 1)%nat) as Hl' by (unfold l'; rewrite length_app, Ht, length_drop; lia).
    assert (take j l' = take j l) as Et by (unfold l'; rewrite take_app_le, take_take, Nat.min_id by lia; done). assert (drop j l' = drop (S j) l) as Edr by (unfold l'; by rewrite drop_app_length').
    destruct (dir it) eqn:Ed; (split; [done|]); right; exists A, a, B, la, l', lb; (split; [done|]); (split; [done|]); cbn; exists j; split_and!; rewrite ?Et, ?Edr; (done || lia).
Qed.

End Iter.
