(* ===== verification/QuickListEdit.v ===== *)
(** Replacing the entry at an index, deleting a range and inserting in the middle of a
    quicklist, with the splitting and merging of nodes. *)

From stdpp Require Import list numbers strings gmap.
From S2P Require Import Prelude Util SdsText Lzf Ziplist ZiplistEntry ZiplistList ZiplistRefine QuickList QuickListNode QuickListRep QuickListOps QuickListIter.

Set Default Proof Using "All".

(** The strings of a node are replaced by as many others. *)
Lemma rep_set_same q A a B la l lb n l' :
  rep q (A ++ a :: B) (la ++ l :: lb) → length A = length la → holds 0 (compress q) n l' → length l' = length l → csize (concat (la ++ l' :: lb)) < 2 ^ 32 →
  rep (set_node a n q) (A ++ a :: B) (la ++ l' :: lb).
Proof.
  intros HR Hl Hh Hlen Hs. split; cbn; try done.
  - by eapply reps_set, Hh; [apply HR|].
  - rewrite dom_insert_L, (p_dom _ _ _ HR). set_solver.
  - apply HR.
  - rewrite (p_count _ _ _ HR), !concat_app. cbn [concat]. rewrite !length_app. lia.
  - pose proof (p_full _ _ _ HR) as [? [Hne ?]%Forall_cons]%Forall_app. apply Forall_app. split; [done|]. apply Forall_cons. split; [|done]. intros ->. by destruct l.
Qed.

Section Edit.

Context (junk : nat → Z) (htab : list Z → Z → Z) (alloc : gset addr → addr).
Hypothesis htab_u32 : ∀ inp i, in_u 32 (htab inp i).
Hypothesis alloc_fresh : ∀ X, alloc X ∉ X.

Implicit Types q : quicklist.

Lemma insert_concat (la : list (list (list Z))) l lb (j : nat) v :
  (j < length l)%nat → <[(length (concat la) + j)%nat := v]> (concat (la ++ l :: lb)) = concat (la ++ <[j := v]> l :: lb).
Proof. intros Hj. rewrite !concat_app. cbn [concat]. rewrite insert_app_r, insert_app_l by done. done. Qed.

Lemma csize_insert (l : list (list Z)) j v : csize (<[j := v]> l) ≤ csize (v :: l).
Proof.
  revert j. induction l as [|s l IH]; intros [|j].
  - change (csize [] ≤ csize [v]). rewrite csize_cons. lia.
  - change (csize [] ≤ csize [v]). rewrite csize_cons. lia.
  - change (csize (v :: l) ≤ csize (v :: s :: l)). rewrite !csize_cons. lia.
  - change (csize (s :: <[j := v]> l) ≤ csize (v :: s :: l)). specialize (IH j). rewrite !csize_cons in *. lia.
Qed.

Lemma replace_spec q ns ls idx v :
  rep q ns ls → - 2 ^ 63 < idx → csize (v :: concat ls) < 2 ^ 32 → Forall is_byte v →
  let i := if idx <? 0 then zlen (concat ls) + idx else idx in
  if decide (0 ≤ i < zlen (concat ls)) then
    ∃ q' ns' ls', quicklistReplaceAtIndex junk htab q idx v = Some (q', true) ∧ rep q' ns' ls' ∧ concat ls' = <[Z.to_nat i := v]> (concat ls) ∧ same_opts q q'
  else quicklistReplaceAtIndex junk htab q idx v = Some (q, false).
Proof.
  intros HR Hmin Hs Hv i. unfold quicklistReplaceAtIndex. pose proof (ql_index_spec junk htab alloc htab_u32 alloc_fresh q ns ls idx HR Hmin) as H. cbv zeta in H. fold i in H.
  destruct (decide (0 ≤ i < zlen (concat ls))) as [Hi|Hi]; [|by rewrite H].
  destruct H as (q1 & e & A & a & B & la & l & lb & j & -> & Hr & _ & (-> & -> & Hl) & (n & z & p & s & Hn & Hh & Ez & Hp & Hsj & Ena & Ezi & _) & E & Hj & _).
  pose proof (rep_recoded _ _ _ _ Hr HR) as HR1. destruct (holds_count _ _ _ _ Hh) as (Hnc & Hlt & Hbs & Hrc & _). rewrite Z.add_0_r in Hnc.
  cbn [mbind option_bind]. rewrite Ena. cbn [mbind option_bind]. rewrite Hn. cbn [mbind option_bind]. unfold ziplist_of. rewrite Ez, Ezi. cbn [mbind option_bind]. unfold ziplistDelete.
  destruct (zrep_delete junk z l j p 1 Hp Hj ltac:(lia)) as (z1 & -> & Hp1). cbn [mbind option_bind]. change (Z.to_nat 1) with 1%nat in Hp1. rewrite Nat.add_1_r in Hp1.
  assert (length (take j l) = j) as Ht by (rewrite length_take; lia). pose proof (csize_take_drop j (S j) l ltac:(lia)) as Hcs. pose proof (csize_concat_cons v la l lb) as Hcv. rewrite csize_cons in Hcv.
  destruct (zrep_insert junk z1 _ j p v Hp1) as (z2 & -> & Hz2); [rewrite csize_cons; lia|]. cbn [mbind option_bind].
  rewrite take_app_length', drop_app_length', <-insert_take_drop in Hz2 by done.
  rewrite (update_zl_eq _ _ _ _ _ _ Hn Hz2). cbn [mbind option_bind]. rewrite Hnc, u16_zlen by lia.
  assert (rep (set_node a (Node (ZRaw z2) (zlen z2) (zlen l) (recompress n)) q1) (A ++ a :: B) (la ++ <[j := v]> l :: lb)) as HR2.
  { apply rep_set_same with l; try done.
    - apply holds_intro; [done| |rewrite length_insert; lia|by rewrite length_insert|done]. by apply Forall_insert.
    - by rewrite length_insert.
    - rewrite <-insert_concat by done. pose proof (csize_insert (concat (la ++ l :: lb)) (length (concat la) + j) v). lia. }
  destruct (leave_node junk htab alloc htab_u32 alloc_fresh _ _ _ _ _ _ _ HR2 Hl) as (q3 & -> & Hr3 & _). cbn [mbind option_bind].
  exists q3. eexists _, _. split; [done|]. split; [by eapply rep_recoded|]. split.
  - rewrite <-insert_concat by done. f_equal. lia.
  - etrans; [by apply recoded_opts|]. by apply recoded_opts in Hr3.
Qed.

(** ** Deleting a range *)

Lemma del_in_node_spec q A a B la l lb off j del :
  rep q (A ++ a :: B) (la ++ l :: lb) → length A = length la → a_index (length l) off = Some j → - 2 ^ 31 < off → 0 < del → Z.of_nat j + del ≤ zlen l →
  ∃ q', del_in_node junk htab q a off del = Some q' ∧ same_opts q q' ∧
    ((del = zlen l ∧ rep q' (A ++ B) (la ++ lb)) ∨ (del ≠ zlen l ∧ rep q' (A ++ a :: B) (la ++ (take j l ++ drop (j + Z.to_nat del) l) :: lb))).
Proof.
  intros HR Hl Ha Hoff Hd0 Hd. unfold del_in_node. destruct (use_node junk htab alloc htab_u32 alloc_fresh _ _ _ _ _ _ _ HR Hl) as (q1 & n & z & -> & Hr & _ & Hn & Hh & Ez & Hz).
  pose proof (rep_recoded _ _ _ _ Hr HR) as HR1. destruct (holds_count _ _ _ _ Hh) as (Hnc & Hlt & Hbs & Hrc & _). rewrite Z.add_0_r in Hnc.
  cbn [mbind option_bind]. rewrite Hn. cbn [mbind option_bind]. unfold ziplist_of. rewrite Ez. cbn [mbind option_bind]. unfold ziplistDeleteRange. rewrite wrap_u_small by (unfold in_u; lia).
  destruct (zrep_index z l off Hz Hoff) as ([p|] & -> & Hm); [|congruence]. destruct Hm as (k & Ek & Hk & Hp). rewrite Ha in Ek. injection Ek as <-.
  cbn [mbind option_bind]. destruct (zrep_delete junk z l j p del Hp Hk ltac:(lia)) as (z1 & -> & Hp1). cbn [mbind option_bind].
  set (l' := take j l ++ drop (j + Z.to_nat del) l) in *. assert (zlen l' = zlen l - del) as Hl' by (unfold l'; rewrite length_app, length_take, length_drop; lia).
  rewrite (update_zl_eq _ _ _ _ _ _ Hn (points_zrep _ _ _ _ Hp1)). cbn [mbind option_bind]. rewrite Hnc, u16_zlen by lia.
  set (n' := Node (ZRaw z1) (zlen z1) (zlen l - del) (recompress n)).
  assert (ndata (set_node a n' q1) !! a = Some n') as Hn' by apply lookup_insert_eq.
  change (ndata (set_counts ?c ?k ?q)) with (ndata q). rewrite Hn'. cbn [mbind option_bind ncount]. change (qcount (set_node a n' q1)) with (qcount q1). change (qlen (set_node a n' q1)) with (qlen q1).
  change (ncount n') with (zlen l - del). destruct (Z.eqb_spec (zlen l - del) 0) as [E|E].
  - destruct (del_node_rep junk htab alloc htab_u32 alloc_fresh q1 A a B la l lb n' (wrap_u 64 (qcount q1 - del)) HR1 Hl) as (q2 & -> & Hr2 & Hdm & Ecn & Eln & Ho & _).
    exists q2. split; [done|]. split; [etrans; [by apply recoded_opts|done]|]. left. split; [lia|]. pose proof (rep_removed q1 q2 A a B la l lb HR1 Hr2 Hdm Eln) as H.
    assert (set_counts (wrap_u 64 (qcount q1 - zlen l)) (qlen q2) q2 = q2) as <-; [|done]. replace (wrap_u 64 (qcount q1 - zlen l)) with (qcount q2); [by destruct q2|].
    rewrite Ecn. cbn [ncount n']. rewrite E, Z.sub_0_r. unfold wrap_u. rewrite Zmod_mod. f_equal. lia.
  - assert (rep (set_counts (wrap_u 64 (qcount q1 - del)) (qlen q1) (set_node a n' q1)) (A ++ a :: B) (la ++ l' :: lb)) as HR2.
    { eapply (rep_shrunk q1 (set_node a n' q1)); [exact HR1| | | | | | |]; try done.
      - apply (reps_set q1 A a B la l lb); [apply HR1|done|]. apply holds_intro; [by eapply points_zrep| |lia|lia|done]. unfold l'. apply Forall_app. split; [by apply Forall_take|by apply Forall_drop].
      - intros Hnil. rewrite Hnil in Hl'. simpl in Hl'. lia.
      - cbn. rewrite dom_insert_L, (p_dom _ _ _ HR1). set_solver.
      - apply csize_take_drop. lia.
      - lia. }
    destruct (node_good junk htab alloc htab_u32 alloc_fresh _ _ _ _ _ _ _ HR2 Hl) as (_ & _ & _ & Hg). destruct (recompress_spec junk htab htab_u32 _ a Hg) as (q3 & -> & Hr3).
    exists q3. split; [done|]. split; [etrans; [by apply recoded_opts|by apply recoded_opts in Hr3]|]. right. split; [lia|]. by eapply rep_recoded.
Qed.

Lemma del_node_front q A a B la l lb :
  rep q (A ++ a :: B) (la ++ l :: lb) → length A = length la → ∃ q', __quicklistDelNode junk htab q a = Some q' ∧ rep q' (A ++ B) (la ++ lb) ∧ same_opts q q'.
Proof.
  intros HR Hl. destruct (node_good junk htab alloc htab_u32 alloc_fresh _ _ _ _ _ _ _ HR Hl) as (n & Hn & Hh & _). destruct (holds_count _ _ _ _ Hh) as (Hnc & _). rewrite Z.add_0_r in Hnc.
  destruct (del_node_rep junk htab alloc htab_u32 alloc_fresh q A a B la l lb n (qcount q) HR Hl) as (q' & E & Hr & Hd & Ecn & Eln & Ho & _).
  assert (set_counts (qcount q) (qlen q) (set_node a n q) = q) as Eq. { unfold set_counts, set_node, set_data. cbn. rewrite insert_id by done. by destruct q. }
  rewrite Eq in E. exists q'. split; [done|]. split; [|done]. pose proof (rep_removed q q' A a B la l lb HR Hr Hd Eln) as H.
  assert (set_counts (wrap_u 64 (qcount q - zlen l)) (qlen q') q' = q') as <-; [|done]. rewrite <-Hnc, <-Ecn. by destruct q'.
Qed.

Lemma del_loop_front fuel : ∀ q A B la lb extent,
  rep q (A ++ B) (la ++ lb) → length A = length la → 0 ≤ extent ≤ zlen (concat lb) → (length B < fuel)%nat →
  ∃ q' ns' ls', del_loop junk htab fuel q (first_or B None) 0 extent = Some q' ∧ rep q' ns' ls' ∧ concat ls' = concat la ++ drop (Z.to_nat extent) (concat lb) ∧ same_opts q q'.
Proof.
  induction fuel as [|fuel IH]; intros q A B la lb extent HR Hl He Hf; [lia|]. cbn [del_loop]. destruct (Z.eqb_spec extent 0) as [->|Hne].
  - exists q, (A ++ B), (la ++ lb). rewrite concat_app, drop_0. done.
  - pose proof (Forall2_length _ _ _ (r_nodes _ _ _ (p_reps _ _ _ HR))) as Hl2. rewrite !length_app in Hl2. destruct B as [|a B].
    { destruct lb; [|simpl in Hl2; lia]. simpl in He. lia. }
    destruct lb as [|l lb]; [simpl in Hl2; lia|]. cbn [first_or mbind option_bind concat] in *. destruct (next_rep junk htab alloc htab_u32 alloc_fresh _ _ _ _ _ HR) as [-> _]. cbn [mbind option_bind].
    destruct (node_good junk htab alloc htab_u32 alloc_fresh _ _ _ _ _ _ _ HR Hl) as (n & Hn & Hh & _). rewrite Hn. cbn [mbind option_bind]. destruct (holds_count _ _ _ _ Hh) as (Hnc & Hlt & _). rewrite Z.add_0_r in Hnc. rewrite Hnc.
    rewrite length_app in He. cbn [Z.eqb Z.leb Z.ltb Z.compare andb]. pose proof (concat_bound junk htab alloc htab_u32 alloc_fresh _ _ _ _ _ HR) as Hb. destruct (Z.leb_spec (zlen l) extent) as [Hge|Hlt2].
    + destruct (del_node_front _ _ _ _ _ _ _ HR Hl) as (q1 & -> & HR1 & Ho1). cbn [mbind option_bind]. rewrite wrap_u_small by (unfold in_u; lia).
      destruct (IH q1 A B la lb (extent - zlen l) HR1 Hl) as (q' & ns' & ls' & E & HR' & Ec & Ho); [lia|simpl in Hf; lia|]. exists q', ns', ls'. split; [done|]. split; [done|]. split; [|by etrans].
      rewrite Ec. f_equal. rewrite drop_app_ge by lia. f_equal. lia.
    + assert (l ≠ []) by (intros ->; simpl in *; lia).
      destruct (del_in_node_spec q A a B la l lb 0 0 extent HR Hl) as (q1 & -> & Ho1 & [[? _]|[_ HR1]]); [by apply (a_index_nat junk htab alloc htab_u32 alloc_fresh _ 0); destruct l; simpl; [done|lia]|lia|lia|lia|lia|].
      cbn [mbind option_bind]. rewrite Z.sub_diag. change (wrap_u 64 0) with 0. destruct fuel as [|fuel]; [simpl in Hf; lia|]. cbn [del_loop Z.eqb].
      eexists q1, _, _. split; [done|]. split; [exact HR1|]. split; [|done]. rewrite concat_app. cbn. by rewrite drop_app_le by lia.
Qed.

(** The first iteration, when the range starts at a negative offset. *)
Lemma del_loop_tail fuel q A a B la l lb j extent :
  rep q (A ++ a :: B) (la ++ l :: lb) → length A = length la → (j < length l)%nat → 0 < extent ≤ zlen (drop j l ++ concat lb) → (length B + 1 < fuel)%nat →
  ∃ q' ns' ls', del_loop junk htab fuel q (Some a) (Z.of_nat j - zlen l) extent = Some q' ∧ rep q' ns' ls' ∧
    concat ls' = concat la ++ take j l ++ drop (Z.to_nat extent) (drop j l ++ concat lb) ∧ same_opts q q'.
Proof.
  intros HR Hl Hj He Hf. destruct fuel as [|fuel]; [lia|]. cbn [del_loop]. rewrite (proj2 (Z.eqb_neq _ _)) by lia. cbn [mbind option_bind].
  destruct (next_rep junk htab alloc htab_u32 alloc_fresh _ _ _ _ _ HR) as [-> _]. cbn [mbind option_bind].
  destruct (node_good junk htab alloc htab_u32 alloc_fresh _ _ _ _ _ _ _ HR Hl) as (n & Hn & Hh & _). rewrite Hn. cbn [mbind option_bind]. destruct (holds_count _ _ _ _ Hh) as (Hnc & Hlt & _).
  pose proof (concat_bound junk htab alloc htab_u32 alloc_fresh _ _ _ _ _ HR) as Hb. rewrite length_app, length_drop in He.
  rewrite (proj2 (Z.eqb_neq (Z.of_nat j - zlen l) 0)), (proj2 (Z.leb_gt 0 (Z.of_nat j - zlen l))), (proj2 (Z.ltb_lt (Z.of_nat j - zlen l) 0)) by lia. cbn [andb].
  set (del := if extent <? - (Z.of_nat j - zlen l) then extent else - (Z.of_nat j - zlen l)).
  assert (del = Z.min extent (zlen l - Z.of_nat j)) as Ed by (unfold del; destruct (Z.ltb_spec extent (- (Z.of_nat j - zlen l))); lia).
  destruct (del_in_node_spec q A a B la l lb (Z.of_nat j - zlen l) j del HR Hl) as (q1 & -> & Ho1 & Hcase); [by apply (a_index_neg junk htab alloc htab_u32 alloc_fresh)|lia|lia|lia|].
  cbn [mbind option_bind]. rewrite wrap_u_small by (unfold in_u; lia).
  assert (∃ A1 la1, rep q1 (A1 ++ B) (la1 ++ lb) ∧ length A1 = length la1 ∧ concat la1 = concat la ++ take j l ++ drop (j + Z.to_nat del) l) as (A1 & la1 & HR1 & Hl1 & Ec1).
  { destruct Hcase as [[E HR1]|[_ HR1]].
    - exists A, la. split; [done|]. split; [done|]. assert (j = 0%nat) as -> by lia. rewrite drop_ge by lia. cbn. by rewrite app_nil_r.
    - exists (A ++ [a]), (la ++ [take j l ++ drop (j + Z.to_nat del) l]). rewrite <-!(assoc_L (++)). split; [done|]. split; [rewrite !length_app; simpl; lia|]. rewrite concat_app. cbn. by rewrite app_nil_r. }
  destruct (del_loop_front fuel q1 A1 B la1 lb (extent - del) HR1 Hl1) as (q' & ns' & ls' & E & HR' & Ec & Ho); [lia|lia|]. exists q', ns', ls'. split; [done|]. split; [done|]. split; [|by etrans].
  rewrite Ec, Ec1, <-!(assoc_L (++)). do 2 f_equal. destruct (decide (extent ≤ zlen l - Z.of_nat j)).
  - replace del with extent by lia. rewrite Z.sub_diag, drop_0, drop_app_le by (rewrite length_drop; lia). by rewrite drop_drop.
  - rewrite drop_ge by lia. rewrite drop_app_ge by (rewrite length_drop; lia). cbn. f_equal. rewrite length_drop. lia.
Qed.

Lemma del_range_spec q ns ls start count :
  rep q ns ls → - 2 ^ 63 < start ≤ 0 → 0 < count < 2 ^ 63 →
  let i := if start <? 0 then zlen (concat ls) + start else start in
  if decide (0 ≤ i < zlen (concat ls)) then
    ∃ q' ns' ls', quicklistDelRange junk htab q start count = Some (q', true) ∧ rep q' ns' ls' ∧
      concat ls' = take (Z.to_nat i) (concat ls) ++ drop (Z.to_nat (i + count)) (concat ls) ∧ same_opts q q'
  else quicklistDelRange junk htab q start count = Some (q, false).
Proof.
  intros HR Hst Hco i. unfold quicklistDelRange. rewrite (proj2 (Z.leb_gt _ _)) by lia. pose proof (rep_count _ _ _ HR) as Hb.
  pose proof (ql_index_spec junk htab alloc htab_u32 alloc_fresh q ns ls start HR ltac:(lia)) as H. cbv zeta in H. fold i in H.
  destruct (decide (0 ≤ i < zlen (concat ls))) as [Hi|Hi]; [|by rewrite H].
  destruct H as (q1 & e & A & a & B & la & l & lb & j & -> & Hr & _ & (-> & -> & Hl) & (n & z & p & s & _ & _ & _ & _ & _ & Ena & _) & E & Hj & Eo). cbn [mbind option_bind].
  pose proof (rep_recoded _ _ _ _ Hr HR) as HR1. rewrite (size_nodes junk htab alloc htab_u32 alloc_fresh _ _ _ HR1), Ena, Eo.
  set (extent := if (0 <=? start) && _ then _ else _).
  assert (extent = Z.min count (zlen (concat (la ++ l :: lb)) - i)) as Ee.
  { unfold extent. rewrite (p_count _ _ _ HR) in *. unfold i in *. destruct (Z.ltb_spec start 0).
    - rewrite (proj2 (Z.leb_gt 0 start)) by lia. cbn [andb]. destruct (Z.ltb_spec (- start) count); lia.
    - assert (start = 0) as -> by lia. rewrite Z.sub_0_r, wrap_u_small by (unfold in_u; lia). cbn [Z.leb Z.compare andb]. destruct (Z.ltb_spec (zlen (concat (la ++ l :: lb))) count); [lia|]. cbn. lia. }
  pose proof Hi as Hi2. rewrite concat_app in Ee, Hi2. cbn [concat] in Ee, Hi2. rewrite !length_app in Ee, Hi2.
  assert (∃ q' ns' ls', del_loop junk htab (S (length (A ++ a :: B))) q1 (Some a) (if start <? 0 then Z.of_nat j - zlen l else Z.of_nat j) extent = Some q' ∧ rep q' ns' ls' ∧
    concat ls' = concat la ++ take j l ++ drop (Z.to_nat extent) (drop j l ++ concat lb) ∧ same_opts q1 q') as (q' & ns' & ls' & -> & HR' & Ec & Ho).
  { unfold i in *. destruct (Z.ltb_spec start 0).
    - apply (del_loop_tail _ q1 A a B la l lb); try done; [rewrite length_app, length_drop; lia|rewrite length_app; simpl; lia].
    - assert (j = 0%nat) as -> by lia. cbn [take drop app].
      destruct (del_loop_front (S (length (A ++ a :: B))) q1 A (a :: B) la (l :: lb) extent HR1 Hl) as (q' & ns' & ls' & Hd); [cbn [concat]; rewrite length_app; lia|rewrite length_app; simpl; lia|]. by exists q', ns', ls'. }
  cbn [mbind option_bind]. exists q', ns', ls'. split; [done|]. split; [done|]. split; [|etrans; [by apply recoded_opts|done]].
  rewrite Ec, (assoc_L (++)). replace (Z.to_nat i) with (length (concat la) + j)%nat by lia. rewrite (take_concat junk htab alloc htab_u32 alloc_fresh) by lia. f_equal.
  replace (Z.to_nat (i + count)) with (length (concat la) + (j + Z.to_nat count))%nat by lia. rewrite concat_app. cbn [concat]. rewrite drop_app_add.
  rewrite <-(drop_drop (l ++ concat lb)), (drop_app_le l) by lia.
  destruct (decide (count ≤ zlen (drop j l ++ concat lb))) as [Hc|Hc]; rewrite length_app, length_drop in Hc.
  - f_equal. lia.
  - rewrite !drop_ge; [done|rewrite length_app, length_drop; lia..].
Qed.

End Edit.
