(* ===== verification/QuickListMerge.v ===== *)
(** Merging and splitting the nodes of a quicklist.  While a node is split the list has one
    value more than it counts. *)

From stdpp Require Import list numbers strings gmap.
From S2P Require Import Prelude Util SdsText Lzf Ziplist ZiplistEntry ZiplistList ZiplistRefine QuickList QuickListNode QuickListRep QuickListOps QuickListIter.

Set Default Proof Using "All".

(** [rep] without the count. *)
Record rep0 (q : quicklist) (ns : list addr) (ls : list (list (list Z))) : Prop := {
  p0_reps : reps q ns ls;
  p0_dom : dom (ndata q) = list_to_set ns;
  p0_len : qlen q = zlen ns;
  p0_full : Forall (λ l, l ≠ []) ls;
  p0_size : csize (concat ls) < 2 ^ 32;
}.

Lemma rep_rep0 q ns ls : rep q ns ls → rep0 q ns ls.
Proof. intros [? ? ? ? ? ?]. by split. Qed.

Lemma rep0_rep q ns ls c : rep0 q ns ls → c = zlen (concat ls) → rep (set_counts c (qlen q) q) ns ls.
Proof. intros [? ? ? ? ?] ->. split; cbn; try done. by apply reps_counts. Qed.

Lemma rep0_recoded q q' ns ls : recoded q q' → rep0 q ns ls → rep0 q' ns ls.
Proof.
  intros Hr [H1 H2 H3 H4 H5]. destruct (recoded_fields q q' Hr) as (_ & _ & _ & E2 & _ & _ & _). split; try congruence; [by eapply reps_recoded|].
  destruct Hr as (_ & E3 & _). congruence.
Qed.

Section Merge.

Context (junk : nat → Z) (htab : list Z → Z → Z) (alloc : gset addr → addr).
Hypothesis htab_u32 : ∀ inp i, in_u 32 (htab inp i).
Hypothesis alloc_fresh : ∀ X, alloc X ∉ X.

Implicit Types q : quicklist.

Lemma rep0_middle q A a B ls :
  rep0 q (A ++ a :: B) ls → ∃ la l lb n, ls = la ++ l :: lb ∧ length A = length la ∧ length B = length lb ∧ l ≠ [] ∧ ndata q !! a = Some n ∧ holds 0 (compress q) n l.
Proof. intros H. apply (rep_middle (set_counts (zlen (concat ls)) (qlen q) q)). by apply rep0_rep. Qed.

Lemma next_rep0 q A a B ls : rep0 q (A ++ a :: B) ls → next q a = Some (first_or B None) ∧ prev q a = Some (last_or None A).
Proof. intros H. eapply (next_rep junk htab alloc htab_u32 alloc_fresh (set_counts (zlen (concat ls)) (qlen q) q)). by apply rep0_rep. Qed.

Lemma zrep_length_field z l : zrep z l → ∃ n, ZIPLIST_LENGTH z = Some n.
Proof.
  intros (es & n & -> & _ & _ & Hn & _). exists n. by apply get_length_zl.
Qed.

(** Both nodes are replaced by one of them. *)
Lemma del_merged q A a b B la l1 l2 lb keep nokeep nk nn :
  rep0 q (A ++ a :: b :: B) (la ++ l1 :: l2 :: lb) → length A = length la → (keep = a ∧ nokeep = b) ∨ (keep = b ∧ nokeep = a) →
  holds 0 (compress q) nk (l1 ++ l2) → ncount nn = 0 → csize (concat (la ++ (l1 ++ l2) :: lb)) < 2 ^ 32 →
  ∃ q', __quicklistDelNode junk htab (set_node nokeep nn (set_node keep nk q)) nokeep = Some q' ∧ rep0 q' (A ++ keep :: B) (la ++ (l1 ++ l2) :: lb) ∧ same_opts q q' ∧
    qcount q' = wrap_u 64 (qcount q).
Proof.
  intros HR Hl Hk Hh Hnn Hs. set (q1 := set_node nokeep nn (set_node keep nk q)). pose proof (p0_reps _ _ _ HR) as [HL Hn Hc]. pose proof (l_nodup _ _ HL) as Hnd.
  assert (∃ A' B' la' lb', A' ++ nokeep :: B' = A ++ a :: b :: B ∧ A' ++ B' = A ++ keep :: B ∧ la' ++ lb' = la ++ (l1 ++ l2) :: lb) as (A' & B' & la' & lb' & E1 & E2 & E3).
  { destruct Hk as [[-> ->]|[-> ->]]; [exists (A ++ [a]), B, (la ++ [l1 ++ l2]), lb|exists A, (b :: B), la, ((l1 ++ l2) :: lb)]; by rewrite <-?(assoc_L (++)). }
  apply NoDup_app in Hnd as (_ & Hd1 & [Hd2 [Hd3 _]%NoDup_cons]%NoDup_cons).
  assert (keep ≠ nokeep ∧ (keep ∉ A) ∧ (keep ∉ B) ∧ (nokeep ∉ A) ∧ (nokeep ∉ B)) as (Hne & HkA & HkB & HnA & HnB) by (destruct Hk as [[-> ->]|[-> ->]]; set_solver).
  apply Forall2_app_inv in Hn as [HA HB]; [|done]. inversion HB as [|? ? ? ? Ha HB1]; subst. inversion HB1 as [|? ? ? ? Hb HB2]; subst.
  destruct (del_node_spec junk htab htab_u32 q1 A' nokeep B' la' lb' nn) as (q' & E & Hr & Hdm & Ecn & Eln & Ef & Ecp & _).
  - rewrite E1. by destruct HL; split.
  - rewrite E2, E3. apply Forall2_app; [by apply Forall2_set, Forall2_set|]. constructor; [|by apply Forall2_set, Forall2_set].
    exists nk. cbn. rewrite lookup_insert_ne, lookup_insert_eq by done. done.
  - done.
  - cbn. apply lookup_insert_eq.
  - cbn. rewrite E1. apply HR.
  - exists q'. split; [done|]. split; [|split; [done|]].
    + rewrite E2, E3 in Hr. split; try done.
      * rewrite Hdm. cbn. rewrite !dom_insert_L, (p0_dom _ _ _ HR), !list_to_set_app_L. cbn. destruct Hk as [[-> ->]|[-> ->]]; set_solver.
      * by rewrite Eln, E2.
      * pose proof (p0_full _ _ _ HR) as [? [? [? ?]%Forall_cons]%Forall_cons]%Forall_app. apply Forall_app. split; [done|]. apply Forall_cons. split; [by destruct l1|done].
    + rewrite Ecn, Hnn. cbn. by rewrite Z.sub_0_r.
Qed.

Lemma concat_merged (la : list (list (list Z))) l1 l2 lb : concat (la ++ (l1 ++ l2) :: lb) = concat (la ++ l1 :: l2 :: lb).
Proof. rewrite !concat_app. cbn. by rewrite <-(assoc_L (++)). Qed.

Lemma ql_merge_spec q A a b B la l1 l2 lb :
  rep0 q (A ++ a :: b :: B) (la ++ l1 :: l2 :: lb) → length A = length la → zlen (l1 ++ l2) < 2 ^ 16 - 1 → in_u 64 (qcount q) →
  ∃ q' c, _quicklistZiplistMerge junk htab q a b = Some (q', Some c) ∧ (c = a ∨ c = b) ∧ rep0 q' (A ++ c :: B) (la ++ (l1 ++ l2) :: lb) ∧ same_opts q q' ∧ qcount q' = qcount q.
Proof.
  intros HR Hl Hbound Hcu. unfold _quicklistZiplistMerge. pose proof (p0_reps _ _ _ HR) as [HL Hn Hc]. pose proof (Forall2_good _ _ _ Hn) as Hg.
  apply Forall_app in Hg as [_ [Hga [Hgb _]%Forall_cons]%Forall_cons].
  destruct (decompress_spec junk q (Some a)) as (q1 & -> & Hr1 & Hra & _); [by intros x [= <-]|]. cbn [mbind option_bind].
  destruct (decompress_spec junk q1 (Some b)) as (q2 & -> & Hr2 & Hrb & Hk2); [intros x [= <-]; by eapply recoded_good|]. cbn [mbind option_bind].
  assert (recoded q q2) as Hr by by etrans. pose proof (rep0_recoded _ _ _ _ Hr HR) as HR2. destruct (Hk2 a (Hra a eq_refl)) as (na & Hna & Hrawa). destruct (Hrb b eq_refl) as (nb & Hnb & Hrawb).
  rewrite Hna, Hnb. cbn [mbind option_bind]. pose proof (p0_reps _ _ _ HR2) as [HL2 Hn2 Hc2]. apply Forall2_app_inv in Hn2 as [_ HB]; [|done].
  inversion HB as [|? ? ? ? (na' & Hna' & Hha) HB1]; subst. inversion HB1 as [|? ? ? ? (nb' & Hnb' & Hhb) HB2]; subst. rewrite Hna in Hna'. injection Hna' as <-. rewrite Hnb in Hnb'. injection Hnb' as <-.
  destruct (holds_raw _ _ _ _ Hha Hrawa) as (za & -> & _ & Hza). destruct (holds_raw _ _ _ _ Hhb Hrawb) as (zb & -> & _ & Hzb). cbn [mbind option_bind].
  assert (a ≠ b) as Hab. { pose proof (l_nodup _ _ HL) as (_ & _ & [? _]%NoDup_cons)%NoDup_app. set_solver. }
  rewrite bool_decide_eq_false_2 by done. pose proof (p0_full _ _ _ HR) as [_ [Hne1 [Hne2 _]%Forall_cons]%Forall_cons]%Forall_app.
  pose proof (p0_size _ _ _ HR) as Hsz. rewrite <-concat_merged in Hsz. pose proof (csize_concat la (l1 ++ l2) lb) as Hcs.
  destruct (zrep_merge junk za zb l1 l2 Hza Hzb) as (z & -> & Hz); [done|lia|]. cbn [mbind option_bind]. unfold merge_keeps_first.
  destruct (zrep_length_field _ _ Hza) as (k1 & ->). destruct (zrep_length_field _ _ Hzb) as (k2 & ->). cbn [mbind option_bind].
  assert (∃ keep nokeep, (if k2 <=? k1 then (a, b) else (b, a)) = (keep, nokeep) ∧ ((keep = a ∧ nokeep = b) ∨ (keep = b ∧ nokeep = a)) ∧ (keep = a ∨ keep = b)) as (keep & nokeep & -> & Hk & Hk').
  { destruct (k2 <=? k1); eauto 10. }
  destruct (zrep_len z (l1 ++ l2) Hz) as (z' & -> & Hz'). cbn [mbind option_bind].
  destruct (holds_count _ _ _ _ Hha) as (_ & _ & Hba & Hrca & _). destruct (holds_count _ _ _ _ Hhb) as (_ & _ & Hbb & Hrcb & _).
  assert (∃ nk0 nn0, ndata q2 !! keep = Some nk0 ∧ ndata q2 !! nokeep = Some nn0 ∧ (compress q2 = 0 → recompress nk0 = false)) as (nk0 & nn0 & Hk0 & Hn0 & Hrc0).
  { destruct Hk as [[-> ->]|[-> ->]]; eauto. }
  rewrite (update_zl_eq _ _ _ _ _ _ Hk0 Hz'). cbn [mbind option_bind]. rewrite u16_zlen by lia.
  assert (keep ≠ nokeep) as Hkn by (destruct Hk as [[-> ->]|[-> ->]]; congruence).
  change (ndata (set_node keep ?n q2)) with (<[keep := n]> (ndata q2)). rewrite lookup_insert_ne, Hn0 by done. cbn [mbind option_bind].
  destruct (del_merged q2 A a b B la l1 l2 lb keep nokeep (Node (ZRaw z') (zlen z') (zlen (l1 ++ l2)) (recompress nk0)) (Node ZNull (sz nn0) 0 (recompress nn0)) HR2 Hl Hk) as (q3 & -> & HR3 & Ho3 & Ec3); [|done|done|].
  { apply holds_intro; [done|by apply Forall_app|lia|lia|done]. }
  cbn [mbind option_bind].
  pose proof (p0_reps _ _ _ HR3) as Hreps3.
  destruct (compress_node_spec junk htab htab_u32 q3 (A ++ keep :: B) keep (r_listed _ _ _ Hreps3) (reps_good _ _ _ Hreps3) (r_compress _ _ _ Hreps3)) as (q4 & -> & Hr4 & _).
  { rewrite (p0_len _ _ _ HR3). lia. }
  { pose proof (reps_good _ _ _ Hreps3) as [_ [? _]%Forall_cons]%Forall_app. done. }
  cbn [mbind option_bind]. exists q4, keep. split; [done|]. split; [done|]. split; [by eapply rep0_recoded|]. split; [etrans; [by apply recoded_opts|]; etrans; [done|by apply recoded_opts]|].
  destruct (recoded_fields _ _ Hr4) as (_ & _ & -> & _). rewrite Ec3. destruct (recoded_fields _ _ Hr) as (_ & _ & -> & _). by apply wrap_u_small.
Qed.

(** ** Merging around a node *)

(** Nothing that is seen from outside has changed. *)
Definition remerged q q' (ls ls' : list (list (list Z))) : Prop := concat ls' = concat ls ∧ same_opts q q' ∧ qcount q' = qcount q.

Lemma remerged_refl q ls : remerged q q ls ls.
Proof. done. Qed.

Lemma remerged_trans q1 q2 q3 l1 l2 l3 : remerged q1 q2 l1 l2 → remerged q2 q3 l2 l3 → remerged q1 q3 l1 l3.
Proof. intros (E1 & O1 & C1) (E2 & O2 & C2). split; [congruence|]. split; [by etrans|congruence]. Qed.

Lemma allow_merge_sym a b f : _quicklistNodeAllowMerge (Some a) (Some b) f = _quicklistNodeAllowMerge (Some b) (Some a) f.
Proof. unfold _quicklistNodeAllowMerge. by rewrite (Z.add_comm (sz a)), (Z.add_comm (ncount a)). Qed.

(** Two neighbours are merged or not; they are given in any order. *)
Lemma try_merge_spec q A x y B ls (swap : bool) other :
  rep0 q (A ++ x :: y :: B) ls → in_u 64 (qcount q) →
  ∃ q' r, try_merge q (Some (if swap then y else x)) (Some (if swap then x else y)) (merge_ptrs junk htab (Some x) (Some y)) other = Some (q', r) ∧
    ((q' = q ∧ r = other) ∨ ∃ c ls', r = Some c ∧ (c = x ∨ c = y) ∧ rep0 q' (A ++ c :: B) ls' ∧ remerged q q' ls ls').
Proof.
  intros HR Hcu. destruct (rep0_middle q A x (y :: B) ls HR) as (la & l1 & lb0 & n1 & -> & Hl & Hlb & _ & Hn1 & Hh1). destruct lb0 as [|l2 lb]; [done|].
  pose proof HR as HR'. rewrite (cons_middle x A), (assoc_L (++)) in HR'. destruct (rep0_middle q (A ++ [x]) y B _ HR') as (la2 & l2' & lb2 & n2 & E & Hl2 & _ & _ & Hn2 & Hh2).
  rewrite (cons_middle l1 la), (assoc_L (++)) in E. apply app_inj_1 in E as [<- [= <- <-]]; [|rewrite !length_app in *; simpl in *; lia].
  unfold try_merge. rewrite (deref_node q (if swap then y else x) (if swap then n2 else n1)) by by destruct swap. rewrite (deref_node q (if swap then x else y) (if swap then n1 else n2)) by by destruct swap. cbn [mbind option_bind].
  destruct (_quicklistNodeAllowMerge _ _ _) eqn:Ea; [|exists q, other; split; [done|by left]].
  assert (_quicklistNodeAllowMerge (Some n1) (Some n2) (fill q) = true) as Ea2 by (destruct swap; [by rewrite allow_merge_sym|done]).
  pose proof (p0_size _ _ _ HR) as Hsz. rewrite <-concat_merged in Hsz. pose proof (csize_concat la (l1 ++ l2) lb) as Hcs.
  pose proof (allow_merge_bound _ _ _ _ _ _ Hh1 Hh2 ltac:(lia) Ea2) as Hb. unfold merge_ptrs. cbn [mbind option_bind].
  destruct (ql_merge_spec q A x y B la l1 l2 lb HR Hl Hb Hcu) as (q' & c & -> & Hc & HR2 & Ho & Ec). exists q', (Some c). split; [done|]. right. exists c, (la ++ (l1 ++ l2) :: lb).
  split; [done|]. split; [done|]. split; [done|]. split; [by rewrite concat_merged|done].
Qed.

(** A pointer is NULL. *)
Lemma try_merge_null q a b m other : (a = None ∨ b = None) → is_Some (deref q a) → is_Some (deref q b) → try_merge q a b m other = Some (q, other).
Proof.
  intros H [na Ha] [nb Hb]. unfold try_merge. rewrite Ha, Hb. cbn [mbind option_bind]. destruct H as [-> | ->]; cbn in *; simplify_eq; [done|]. by destruct na.
Qed.

Lemma deref_some q A a B ls : rep0 q (A ++ a :: B) ls → is_Some (deref q (Some a)).
Proof. intros H. destruct (rep0_middle _ _ _ _ _ H) as (_ & _ & _ & n & _ & _ & _ & _ & Hn & _). by rewrite (deref_node _ _ _ Hn). Qed.

(** [(center->prev->prev, center->prev)] *)
Lemma merge_left q A center B ls :
  rep0 q (A ++ center :: B) ls → in_u 64 (qcount q) →
  ∃ pp q' r A' ls', match last_or None A with Some p => prev q p | None => Some None end = Some pp ∧
    try_merge q (last_or None A) pp (merge_ptrs junk htab pp (last_or None A)) None = Some (q', r) ∧ rep0 q' (A' ++ center :: B) ls' ∧ remerged q q' ls ls'.
Proof.
  intros HR Hcu. destruct (last_or_cases None A) as [[-> E]|(A1 & p & -> & E)]; rewrite E.
  - eexists None, q, None, [], ls. split; [done|]. split; [apply try_merge_null; [by left|by eexists..]|done].
  - pose proof HR as HR'. rewrite <-(assoc_L (++)) in HR'. cbn [app] in HR'. destruct (next_rep0 _ _ _ _ _ HR') as [_ ->].
    destruct (last_or_cases None A1) as [[-> E1]|(A2 & pp & -> & E1)]; rewrite E1.
    + eexists None, q, None, [p], ls. split; [done|]. split; [apply try_merge_null; [by right|by eapply deref_some|by eexists]|done].
    + rewrite <-(assoc_L (++)) in HR'. cbn [app] in HR'. destruct (try_merge_spec q A2 pp p (center :: B) ls true None HR' Hcu) as (q' & r & Et & Hc). exists (Some pp), q', r.
      destruct Hc as [[-> ->]|(c & ls' & -> & _ & HR2 & Hm)]; [by exists ((A2 ++ [pp]) ++ [p]), ls|]. exists (A2 ++ [c]), ls'. by rewrite <-(assoc_L (++)).
Qed.

(** [(center->next, center->next->next)] *)
Lemma merge_right q A center B ls q0 :
  rep0 q (A ++ center :: B) ls → in_u 64 (qcount q) → (∃ A0 ls0, rep0 q0 (A0 ++ center :: B) ls0) →
  ∃ nn q' r B' ls', match first_or B None with Some n => next q0 n | None => Some None end = Some nn ∧
    try_merge q (first_or B None) nn (merge_ptrs junk htab (first_or B None) nn) None = Some (q', r) ∧ rep0 q' (A ++ center :: B') ls' ∧ remerged q q' ls ls'.
Proof.
  intros HR Hcu (A0 & ls0 & HR0). destruct B as [|n B]; cbn [first_or].
  - eexists None, q, None, [], ls. split; [done|]. split; [apply try_merge_null; [by left|by eexists..]|done].
  - rewrite (cons_middle center A0), (assoc_L (++)) in HR0. destruct (next_rep0 _ _ _ _ _ HR0) as [-> _]. pose proof HR as HR'. rewrite (cons_middle center A), (assoc_L (++)) in HR'.
    destruct B as [|nn B]; cbn [first_or].
    + eexists None, q, None, [n], ls. split; [done|]. split; [apply try_merge_null; [by right|by eapply deref_some|by eexists]|done].
    + destruct (try_merge_spec q (A ++ [center]) n nn B ls false None HR' Hcu) as (q' & r & Et & Hc). exists (Some nn), q', r.
      destruct Hc as [[-> ->]|(c & ls' & -> & _ & HR2 & Hm)]; [by exists (n :: nn :: B), ls|]. exists (c :: B), ls'. rewrite <-(assoc_L (++)) in HR2. done.
Qed.

Lemma merge_nodes_spec q A center B ls :
  rep0 q (A ++ center :: B) ls → in_u 64 (qcount q) →
  ∃ q' ns' ls', _quicklistMergeNodes junk htab q center = Some q' ∧ rep0 q' ns' ls' ∧ remerged q q' ls ls'.
Proof.
  intros HR Hcu. unfold _quicklistMergeNodes. destruct (next_rep0 _ _ _ _ _ HR) as [Enx Epv]. rewrite Epv. cbn [mbind option_bind].
  destruct (merge_left q A center B ls HR Hcu) as (pp & q1 & r1 & A1 & ls1 & -> & E1 & HR1 & M1). cbn [mbind option_bind]. rewrite Enx. cbn [mbind option_bind].
  assert (in_u 64 (qcount q1)) as Hcu1 by by destruct M1 as (_ & _ & ->).
  destruct (merge_right q1 A1 center B ls1 q HR1 Hcu1) as (nn & q2 & r2 & B2 & ls2 & -> & E2 & HR2 & M2); [by eexists _, _|]. cbn [mbind option_bind]. rewrite E1. cbn [mbind option_bind]. rewrite E2. cbn [mbind option_bind].
  assert (in_u 64 (qcount q2)) as Hcu2 by by destruct M2 as (_ & _ & ->). pose proof (remerged_trans _ _ _ _ _ _ M1 M2) as M12. destruct (next_rep0 _ _ _ _ _ HR2) as [_ ->]. cbn [mbind option_bind].
  assert (∃ q3 t A3 ls3, try_merge q2 (Some center) (last_or None A1) (merge_ptrs junk htab (last_or None A1) (Some center)) (Some center) = Some (q3, Some t) ∧ rep0 q3 (A3 ++ t :: B2) ls3 ∧ remerged q2 q3 ls2 ls3)
    as (q3 & t & A3 & ls3 & -> & HR3 & M3).
  { destruct (last_or_cases None A1) as [[-> E]|(A2 & p & -> & E)]; rewrite E.
    - exists q2, center, [], ls2. split; [apply try_merge_null; [by right|by eapply deref_some|by eexists]|done].
    - rewrite <-(assoc_L (++)) in HR2. cbn [app] in HR2. destruct (try_merge_spec q2 A2 p center B2 ls2 true (Some center) HR2 Hcu2) as (q3 & r & -> & Hc).
      destruct Hc as [[-> ->]|(c & ls3 & -> & _ & HR3 & M3)]; [exists q2, center, (A2 ++ [p]), ls2; by rewrite <-(assoc_L (++))|]. by exists q3, c, A2, ls3. }
  cbn [mbind option_bind]. assert (in_u 64 (qcount q3)) as Hcu3 by by destruct M3 as (_ & _ & ->). pose proof (remerged_trans _ _ _ _ _ _ M12 M3) as M13. destruct (next_rep0 _ _ _ _ _ HR3) as [-> _]. cbn [mbind option_bind].
  destruct B2 as [|n B2]; cbn [first_or].
  - rewrite try_merge_null; [|by right|by eapply deref_some|by eexists]. cbn [mbind option_bind]. by eexists q3, _, ls3.
  - destruct (try_merge_spec q3 A3 t n B2 ls3 false None HR3 Hcu3) as (q4 & r & -> & Hc). cbn [mbind option_bind].
    destruct Hc as [[-> ->]|(c & ls4 & -> & _ & HR4 & M4)]; [by eexists q3, _, ls3|]. eexists q4, _, ls4. split; [done|]. split; [done|]. by eapply remerged_trans.
Qed.

End Merge.
