(* ===== verification/QuickListInsert.v ===== *)
(** Inserting next to an entry of a quicklist: every branch of [_quicklistInsert] adds the
    value at the same place of the list of strings. *)

From stdpp Require Import list numbers strings gmap.
From S2P Require Import Prelude Util SdsText Lzf Ziplist ZiplistEntry ZiplistList ZiplistRefine QuickList QuickListNode QuickListRep QuickListOps QuickListIter QuickListMerge.

Set Default Proof Using "All".

Section Insert.

Context (junk : nat → Z) (htab : list Z → Z → Z) (alloc : gset addr → addr).
Hypothesis htab_u32 : ∀ inp i, in_u 32 (htab inp i).
Hypothesis alloc_fresh : ∀ X, alloc X ∉ X.

Implicit Types q : quicklist.

Lemma use_raw q a n z : ndata q !! a = Some n → zl n = ZRaw z → quicklistDecompressNodeForUse junk q (Some a) = Some q.
Proof. intros Hn Ez. unfold quicklistDecompressNodeForUse. rewrite Hn. cbn [mbind option_bind]. by rewrite Ez. Qed.

(** A value is added to a node. *)
Lemma insert_in_spec q A a B la l lb l' ins :
  rep q (A ++ a :: B) (la ++ l :: lb) → length A = length la → length l' = S (length l) → zlen l' < 2 ^ 16 → all_bytes l' → csize (concat (la ++ l' :: lb)) < 2 ^ 32 →
  (∀ q1 n z, quicklistDecompressNodeForUse junk q (Some a) = Some q1 → ndata q1 !! a = Some n → zl n = ZRaw z → zrep z l → ∃ z', ins z = Some z' ∧ zrep z' l') →
  ∃ q', insert_in junk htab q a ins = Some q' ∧ rep0 q' (A ++ a :: B) (la ++ l' :: lb) ∧ qcount q' = qcount q ∧ same_opts q q'.
Proof.
  intros HR Hl Hlen Hlt Hb Hs Hins. unfold insert_in. destruct (use_node junk htab alloc htab_u32 alloc_fresh _ _ _ _ _ _ _ HR Hl) as (q1 & n & z & E & Hr & _ & Hn & Hh & Ez & Hz).
  rewrite E. cbn [mbind option_bind]. rewrite Hn. cbn [mbind option_bind]. unfold ziplist_of. rewrite Ez. cbn [mbind option_bind]. destruct (Hins q1 n z E Hn Ez Hz) as (z' & -> & Hz'). cbn [mbind option_bind].
  destruct (holds_count _ _ _ _ Hh) as (Hnc & _ & _ & Hrc & _). rewrite Z.add_0_r in Hnc. rewrite (update_zl_eq _ _ _ _ _ _ Hn Hz'). cbn [mbind option_bind]. rewrite Hnc, u16_zlen by lia.
  pose proof (rep_recoded _ _ _ _ Hr HR) as HR1. set (n' := Node (ZRaw z') (zlen z') (zlen l + 1) (recompress n)).
  assert (holds 0 (compress q1) n' l') as Hh' by (apply holds_intro; try done; lia).
  assert (rep0 (set_node a n' q1) (A ++ a :: B) (la ++ l' :: lb)) as HR2.
  { split; try done.
    - eapply reps_set; [apply HR1|done|done].
    - cbn. rewrite dom_insert_L, (p_dom _ _ _ HR1). set_solver.
    - apply HR1.
    - pose proof (p_full _ _ _ HR1) as [? [_ ?]%Forall_cons]%Forall_app. apply Forall_app. split; [done|]. apply Forall_cons. split; [by destruct l'|done]. }
  assert (good (set_node a n' q1) a) as Hg. { exists n', l', 0. split; [apply lookup_insert_eq|done]. }
  destruct (recompress_spec junk htab htab_u32 _ a Hg) as (q2 & -> & Hr2). exists q2. split; [done|]. split; [by eapply rep0_recoded|].
  destruct (recoded_fields _ _ Hr) as (_ & _ & E1 & _). destruct (recoded_fields _ _ Hr2) as (_ & _ & E2 & _). split; [by rewrite E2|]. etrans; [by apply recoded_opts|]. by apply recoded_opts in Hr2.
Qed.

(** ** Splitting a node *)

(** What the node keeps and what the new node gets. *)
Definition kept_part (after : bool) (l : list (list Z)) (j : nat) : list (list Z) := if after then take (S j) l else drop j l.
Definition new_part (after : bool) (l : list (list Z)) (j : nat) : list (list Z) := if after then drop (S j) l else take j l.

Lemma ql_split_spec q A a B la l lb n z j (after : bool) :
  rep q (A ++ a :: B) (la ++ l :: lb) → length A = length la → ndata q !! a = Some n → holds 0 (compress q) n l → zl n = ZRaw z → (j < length l)%nat →
  ∃ q' x z2, _quicklistSplitNode junk alloc q a (Z.of_nat j) after = Some (q', x) ∧ (x ∉ A ++ a :: B) ∧ links q' !! x = Some (None, None) ∧
    ndata q' !! x = Some (Node (ZRaw z2) (zlen z2) (zlen (new_part after l j)) false) ∧ zrep z2 (new_part after l j) ∧
    (∀ nx, reps (set_node x nx q') (A ++ a :: B) (la ++ kept_part after l j :: lb)) ∧ dom (ndata q') = {[x]} ∪ list_to_set (A ++ a :: B) ∧
    qcount q' = qcount q ∧ qlen q' = qlen q ∧ same_opts q q'.
Proof.
  intros HR Hl Hn Hh Ez Hj. destruct (holds_raw _ _ _ _ Hh ltac:(by exists z)) as (z0 & Ezo & Ez0 & Hz). rewrite Ez in Ez0. injection Ez0 as <-.
  destruct (holds_count _ _ _ _ Hh) as (_ & Hlt & Hbs & Hrc & _). assert (sz n = zlen z) as Esz. { destruct Hh as (z1 & _ & _ & Hsz & _ & _ & _ & [E|(? & E & _)]); rewrite Ez in E; [by injection E as <-|done]. }
  unfold _quicklistSplitNode. rewrite Hn. cbn [mbind option_bind].
  assert (∃ z1 z2, ziplistDeleteRange junk z (if after then Z.of_nat j + 1 else 0) (u32 (if after then -1 else Z.of_nat j)) = Some z1 ∧ zrep z1 (kept_part after l j) ∧
    ziplistDeleteRange junk z (if after then 0 else Z.of_nat j) (u32 (if after then Z.of_nat j + 1 else -1)) = Some z2 ∧ zrep z2 (new_part after l j)) as (z1 & z2 & E1 & Hz1 & E2 & Hz2).
  { change (u32 (-1)) with 4294967295. destruct after; unfold kept_part, new_part.
    - change (u32 (-1)) with 4294967295. rewrite wrap_u_small by (unfold in_u; lia).
      destruct (zrep_delete_range junk z l (Z.of_nat j + 1) 4294967295 Hz) as (z1 & -> & H1); [lia|lia|]. destruct (zrep_delete_range junk z l 0 (Z.of_nat j + 1) Hz) as (z2 & -> & H2); [lia|lia|].
      exists z1, z2. rewrite (drop_ge l) in H1 by lia. rewrite app_nil_r in H1. replace (Z.to_nat (Z.of_nat j + 1)) with (S j) in H1 by lia. replace (Z.to_nat (0 + (Z.of_nat j + 1))) with (S j) in H2 by lia. done.
    - change (u32 (-1)) with 4294967295. rewrite wrap_u_small by (unfold in_u; lia).
      destruct (zrep_delete_range junk z l 0 (Z.of_nat j) Hz) as (z1 & -> & H1); [lia|lia|]. destruct (zrep_delete_range junk z l (Z.of_nat j) 4294967295 Hz) as (z2 & -> & H2); [lia|lia|].
      exists z1, z2. rewrite (drop_ge l) in H2 by lia. rewrite app_nil_r in H2. replace (Z.to_nat (Z.of_nat j)) with j in H2 by lia. replace (Z.to_nat (0 + Z.of_nat j)) with j in H1 by lia. done. }
  destruct (zrep_len _ _ Hz1) as (z1' & El1 & Hz1'). destruct (zrep_len _ _ Hz2) as (z2' & El2 & Hz2').
  set (nx := Node (ZRaw z2') (zlen z2') (zlen (new_part after l j)) false).
  pose proof (λ m, create_node_spec junk htab alloc htab_u32 alloc_fresh q (A ++ a :: B) (la ++ l :: lb) m (p_reps _ _ _ HR) (p_dom _ _ _ HR)) as Hcr.
  destruct (Hcr nx) as (x & q1 & Ecr & Hx & Hlx & Hdx & Edata & _ & Ecn & Eln & Ho & _ & _). rewrite Ecr.
  rewrite Ezo. cbn [mbind option_bind]. rewrite Esz, slice_whole. cbn [mbind option_bind].
  assert ((if after then (Z.of_nat j + 1, -1, 0, Z.of_nat j + 1) else (0, Z.of_nat j, Z.of_nat j, -1)) =
    (if after then Z.of_nat j + 1 else 0, if after then -1 else Z.of_nat j, if after then 0 else Z.of_nat j, if after then Z.of_nat j + 1 else -1)) as -> by by destruct after.
  assert (length (kept_part after l j) ≤ length l ∧ length (new_part after l j) < length l)%nat as [Hk1 Hk2] by (unfold kept_part, new_part; destruct after; rewrite ?length_take, ?length_drop; lia).
  assert (a ≠ x) as Hax by set_solver.
  assert (ndata q1 !! a = Some n) as Hn1. { rewrite <-Hn. apply (f_equal (lookup a)) in Edata. cbn in Edata. by rewrite !lookup_insert_ne in Edata. }
  rewrite E1. cbn [mbind option_bind]. rewrite El1. cbn [mbind option_bind]. rewrite (update_zl_eq _ _ _ _ _ _ Hn1 Hz1'). cbn [mbind option_bind].
  rewrite E2. cbn [mbind option_bind]. rewrite El2. cbn [mbind option_bind]. set (na := Node (ZRaw z1') (zlen z1') (wrap_u 16 (zlen (kept_part after l j))) (recompress n)).
  assert (ndata (set_node a na q1) !! x = Some (Node ZNull 0 0 false)) as Hx1 by (cbn; by rewrite lookup_insert_ne).
  rewrite (update_zl_eq _ _ _ _ _ _ Hx1 Hz2'). cbn [mbind option_bind recompress]. rewrite (u16_zlen (zlen (new_part after l j))) by lia. fold nx.
  exists (set_node x nx (set_node a na q1)), x, z2'. split; [done|]. split; [done|]. split; [done|]. split; [cbn; by rewrite lookup_insert_eq|]. split; [done|]. split; [|split; [|done]].
  - intros m. destruct (Hcr m) as (x' & q1' & Ecr' & _ & _ & _ & _ & Hr' & _). rewrite Ecr in Ecr'. injection Ecr' as <- <-.
    assert (set_node x m (set_node x nx (set_node a na q1)) = set_node a na (set_node x m q1)) as ->.
    { unfold set_node, set_data. cbn. rewrite insert_insert_eq, insert_insert_ne by done. done. }
    eapply reps_set; [done|done|]. destruct Ho as [_ Ecp]. change (compress (set_node x m q1)) with (compress q1). rewrite Ecp. unfold na. rewrite u16_zlen by lia. apply holds_intro; [done| |lia|lia|done].
    unfold kept_part. destruct after; [by apply Forall_take|by apply Forall_drop].
  - cbn. assert (dom (ndata q1) = {[x]} ∪ list_to_set (A ++ a :: B)) as Ed.
    { apply (f_equal dom) in Edata. cbn in Edata. rewrite !dom_insert_L, (p_dom _ _ _ HR) in Edata. rewrite <-Edata. symmetry. apply subseteq_union_1_L, singleton_subseteq_l. by apply elem_of_dom_2 in Hdx. }
    assert (a ∈ dom (ndata q1) ∧ x ∈ dom (ndata q1)) as [Ha1 Hx2] by (split; by eapply elem_of_dom_2).
    rewrite !dom_insert_L, !subseteq_union_1_L by (apply singleton_subseteq_l; rewrite ?subseteq_union_1_L by (by apply singleton_subseteq_l); done). done.
Qed.

(** The list around the position where a value goes. *)
Definition added (after : bool) (l : list (list Z)) (j : nat) (v : list Z) : list (list Z) := if after then take (S j) l ++ v :: drop (S j) l else take j l ++ v :: drop j l.

Lemma added_concat (after : bool) (la : list (list (list Z))) l lb j v : ∃ l1 l2, concat (la ++ l :: lb) = l1 ++ l2 ∧ concat la ++ added after l j v ++ concat lb = l1 ++ v :: l2.
Proof.
  unfold added. rewrite concat_app. cbn [concat].
  destruct after; [exists (concat la ++ take (S j) l), (drop (S j) l ++ concat lb)|exists (concat la ++ take j l), (drop j l ++ concat lb)];
    rewrite <-!(assoc_L (++)); (split; [f_equal; by rewrite (assoc_L (++) (take _ _)), take_drop|done]).
Qed.

(** A new node is put next to a node of the list. *)
Lemma insert_beside q A a B la k lb x lx (after : bool) :
  let ls := la ++ (if after then [k; lx] else [lx; k]) ++ lb in
  reps q (A ++ a :: B) (la ++ k :: lb) → length A = length la → (x ∉ A ++ a :: B) → links q !! x = Some (None, None) → node_at q x lx → qlen q = zlen (A ++ a :: B) →
  dom (ndata q) = {[x]} ∪ list_to_set (A ++ a :: B) → Forall (λ l, l ≠ []) ls → csize (concat ls) < 2 ^ 32 →
  ∃ q' A' B', __quicklistInsertNode junk htab q (Some a) x after = Some q' ∧ rep0 q' (A' ++ a :: B') ls ∧ qcount q' = qcount q ∧ same_opts q q'.
Proof.
  intros ls [HL Hn Hc] Hl Hx Hlx Hxat Hlen Hd Hf Hs. apply Forall2_app_inv in Hn as [HA HB]; [|done]. inversion HB as [|? ? ? ? Ha HB2]; subst. pose proof (node_at_good _ _ _ Hxat) as Hgx.
  assert (∃ A1 B1 la1 lb1, A1 ++ B1 = A ++ a :: B ∧ Forall2 (node_at q) A1 la1 ∧ Forall2 (node_at q) B1 lb1 ∧ la1 ++ lx :: lb1 = ls ∧ (if after then last_or None A1 else first_or B1 None) = Some a ∧
    (∃ A' B', A1 ++ x :: B1 = A' ++ a :: B')) as (A1 & B1 & la1 & lb1 & E1 & HA1 & HB1 & E2 & Eold & (A' & B' & E3)).
  { unfold ls. destruct after.
    - exists (A ++ [a]), B, (la ++ [k]), lb. rewrite last_or_snoc, <-!(assoc_L (++)). split_and!; try done; [by apply Forall2_app; [done|constructor]|]. by exists A, (x :: B).
    - exists A, (a :: B), la, (k :: lb). split_and!; try done. exists (A ++ [x]), B. by rewrite <-(assoc_L (++)). }
  pose proof (insert_node_spec junk htab htab_u32 q A1 B1 la1 lb1 x after) as Hi. cbv zeta in Hi. rewrite Eold, E1 in Hi.
  destruct Hi as (q' & E & HL' & Hk & Hcn & Hln & Hfl & _); try done. exists q', A', B'. split; [exact E|]. rewrite <-E3, <-E2. pose proof Hk as (Ecp & Edm & _). split; [|by split; [|split]]. split.
  - split; [done| |by rewrite Ecp]. apply Forall2_app; [eapply Forall2_impl; [exact HA1|]; intros; by eapply node_at_kept|]. constructor; [by eapply node_at_kept|].
    eapply Forall2_impl; [exact HB1|]. intros. by eapply node_at_kept.
  - rewrite Edm, Hd, <-E1, !list_to_set_app_L. cbn. set_solver.
  - done.
  - by rewrite E2.
  - by rewrite E2.
Qed.

Lemma parts_concat (after : bool) (la : list (list (list Z))) l lb j v w :
  w = (if after then ZIPLIST_HEAD else ZIPLIST_TAIL) →
  concat (la ++ (if after then [kept_part after l j; if w =? ZIPLIST_HEAD then v :: new_part after l j else new_part after l j ++ [v]]
                 else [if w =? ZIPLIST_HEAD then v :: new_part after l j else new_part after l j ++ [v]; kept_part after l j]) ++ lb) = concat la ++ added after l j v ++ concat lb.
Proof. intros ->. unfold added, kept_part, new_part. rewrite !concat_app. destruct after; cbn; by rewrite ?app_nil_r, <-!(assoc_L (++)). Qed.

(** The new node is put next to the one that was split, and the nodes around are merged. *)
Lemma split_insert_spec q A a B la l lb n z j v (after : bool) :
  rep q (A ++ a :: B) (la ++ l :: lb) → length A = length la → ndata q !! a = Some n → holds 0 (compress q) n l → zl n = ZRaw z → (j < length l)%nat →
  csize (v :: concat (la ++ l :: lb)) < 2 ^ 32 → Forall is_byte v →
  ∃ q' ns' ls', (q ← quicklistDecompressNodeForUse junk q (Some a);
      '(q, x) ← _quicklistSplitNode junk alloc q a (Z.of_nat j) after;
      nd ← ndata q !! x;
      z ← ziplist_of nd;
      z ← ziplistPush junk z v (if after then ZIPLIST_HEAD else ZIPLIST_TAIL);
      q ← update_zl x z (ncount nd + 1) q;
      q ← __quicklistInsertNode junk htab q (Some a) x after;
      _quicklistMergeNodes junk htab q a) = Some q' ∧ rep0 q' ns' ls' ∧ concat ls' = concat la ++ added after l j v ++ concat lb ∧ same_opts q q' ∧ qcount q' = qcount q.
Proof.
  intros HR Hl Hn Hh Ez Hj Hs Hv. rewrite (use_raw q a n z Hn Ez). cbn [mbind option_bind].
  destruct (ql_split_spec q A a B la l lb n z j after HR Hl Hn Hh Ez Hj) as (q1 & x & z2 & -> & Hx & Hlx & Hdx & Hz2 & Hr1 & Hd1 & Ec1 & El1 & Ho1). cbn [mbind option_bind]. rewrite Hdx. cbn [mbind option_bind ziplist_of zl ncount].
  destruct (holds_count _ _ _ _ Hh) as (_ & Hlt & Hbs & _). pose proof (csize_concat_cons v la l lb) as Hcv. rewrite csize_cons in Hcv.
  assert (length (new_part after l j) < length l ∧ 0 < length (kept_part after l j))%nat as [Hlnew Hlkept] by (unfold kept_part, new_part; destruct after; rewrite ?length_take, ?length_drop; lia).
  assert (csize (new_part after l j) ≤ csize l) as Hcnew.
  { unfold new_part. destruct after; [pose proof (csize_sub [] (take (S j) l) (drop (S j) l)) as H|pose proof (csize_sub (take j l) (drop j l) []) as H; rewrite !app_nil_r in H]; cbn [app] in H; by rewrite ?take_drop in H. }
  set (w := if after then ZIPLIST_HEAD else ZIPLIST_TAIL). destruct (zrep_push junk z2 (new_part after l j) v w Hz2) as (z3 & -> & Hz3); [rewrite csize_cons; lia|]. cbn [mbind option_bind].
  pose proof (parts_concat after la l lb j v w eq_refl) as Hpc. set (lx := if w =? ZIPLIST_HEAD then v :: new_part after l j else new_part after l j ++ [v]) in *.
  assert (zlen lx = zlen (new_part after l j) + 1 ∧ all_bytes lx) as [Hlx2 Hbx].
  { unfold lx, new_part. split; [destruct (w =? ZIPLIST_HEAD); rewrite ?length_app; cbn [length]; lia|].
    assert (all_bytes (if after then drop (S j) l else take j l)) by (destruct after; [by apply Forall_drop|by apply Forall_take]). destruct (w =? ZIPLIST_HEAD); [by apply Forall_cons|apply Forall_app; split; [done|by apply Forall_singleton]]. }
  rewrite (update_zl_eq _ _ _ _ _ _ Hdx Hz3). cbn [mbind option_bind recompress]. rewrite u16_zlen by lia. set (nx := Node (ZRaw z3) (zlen z3) (zlen (new_part after l j) + 1) false). set (q2 := set_node x nx q1).
  assert (node_at q2 x lx) as Hxat. { exists nx. split; [apply lookup_insert_eq|]. apply holds_intro; try done; lia. }
  destruct (insert_beside q2 A a B la (kept_part after l j) lb x lx after (Hr1 nx) Hl Hx Hlx Hxat) as (q3 & A3 & B3 & -> & HR3 & Ec3 & Ho3).
  - cbn. rewrite El1. apply HR.
  - cbn. rewrite dom_insert_L, Hd1. set_solver.
  - pose proof (p_full _ _ _ HR) as [HfA [_ HfB]%Forall_cons]%Forall_app. assert (kept_part after l j ≠ [] ∧ lx ≠ []) as [Hne1 Hne2] by (split; intros E; rewrite E in *; simpl in *; lia).
    apply Forall_app. split; [done|]. apply Forall_app. split; [|done]. destruct after; by repeat (apply Forall_cons; split).
  - rewrite Hpc. destruct (added_concat after la l lb j v) as (l1 & l2 & E1 & E2). rewrite E1, csize_cons, csize_app in Hs. rewrite E2, csize_app, csize_cons. lia.
  - cbn [mbind option_bind]. assert (qcount q3 = qcount q) as Eq3 by by rewrite Ec3. destruct (merge_nodes_spec junk htab alloc htab_u32 alloc_fresh q3 A3 a B3 _ HR3) as (q4 & ns4 & ls4 & -> & HR4 & (Ec4 & Ho4 & Eq4)).
    { rewrite Eq3. pose proof (rep_count _ _ _ HR). unfold in_u. lia. }
    exists q4, ns4, ls4. split; [done|]. split; [done|]. split; [by rewrite Ec4|]. split; [|congruence]. etrans; [exact Ho1|]. etrans; [exact Ho3|exact Ho4].
Qed.

Lemma added_size (after : bool) (la : list (list (list Z))) l lb j v :
  csize (v :: concat (la ++ l :: lb)) < 2 ^ 32 → csize (concat la ++ added after l j v ++ concat lb) < 2 ^ 32.
Proof. intros Hs. destruct (added_concat after la l lb j v) as (l1 & l2 & E1 & E2). rewrite E1, csize_cons, csize_app in Hs. rewrite E2, csize_app, csize_cons. lia. Qed.

Lemma added_facts (after : bool) l j v : (j < length l)%nat → all_bytes l → Forall is_byte v → length (added after l j v) = S (length l) ∧ all_bytes (added after l j v).
Proof.
  intros Hj Hb Hv. unfold added. split; [destruct after; rewrite length_app; cbn [length]; rewrite length_take, length_drop; lia|].
  destruct after; (apply Forall_app; split; [by apply Forall_take|apply Forall_cons; split; [done|by apply Forall_drop]]).
Qed.

(** The node has room: the value goes into it. *)
Lemma insert_here_spec q A a B la l lb n z j p v (after : bool) :
  rep q (A ++ a :: B) (la ++ l :: lb) → length A = length la → ndata q !! a = Some n → holds 0 (compress q) n l → zl n = ZRaw z → points z l j p → (j < length l)%nat →
  csize (v :: concat (la ++ l :: lb)) < 2 ^ 32 → Forall is_byte v → _quicklistNodeAllowInsert (Some n) (fill q) (zlen v) = true →
  let ins z := if after then nxt ← ziplistNext z p; match nxt with None => ziplistPush junk z v ZIPLIST_TAIL | Some nxt => ziplistInsert junk z nxt v end else ziplistInsert junk z p v in
  ∃ q', insert_in junk htab q a ins = Some q' ∧ rep0 q' (A ++ a :: B) (la ++ added after l j v :: lb) ∧ qcount q' = qcount q ∧ same_opts q q'.
Proof.
  intros HR Hl Hn Hh Ez Hp Hj Hs Hv Ha ins. pose proof (csize_concat_cons v la l lb) as Hcv. destruct (holds_count _ _ _ _ Hh) as (_ & _ & Hbs & _).
  pose proof (allow_insert_bound _ _ _ _ v _ Hh ltac:(lia) Ha) as Hb. destruct (added_facts after l j v Hj Hbs Hv) as [Hlen Hba].
  apply (insert_in_spec q A a B la l lb); try done; [lia|by rewrite concat_app; cbn [concat]; apply added_size|].
  intros q1 n1 z1 Eu Hn1 Ez1 _. rewrite (use_raw q a n z Hn Ez) in Eu. injection Eu as <-. rewrite Hn in Hn1. injection Hn1 as <-. rewrite Ez in Ez1. injection Ez1 as <-.
  unfold ins, added. destruct after.
  - destruct (points_next z l j p Hp) as ([p2|] & -> & Hnx); cbn [mbind option_bind].
    + destruct Hnx as [_ Hp2]. apply zrep_insert; [done|lia].
    + apply lookup_ge_None in Hnx. destruct (zrep_push junk z l v ZIPLIST_TAIL) as (z' & -> & Hz'); [by eapply points_zrep|lia|]. exists z'. split; [done|]. rewrite take_ge, drop_ge by lia. done.
  - apply zrep_insert; [done|lia].
Qed.

(** The previous node has room: the value goes to its end. *)
Lemma insert_prev_spec q A b a B la l0 l lb nb v :
  rep q (A ++ b :: a :: B) (la ++ l0 :: l :: lb) → length A = length la → ndata q !! b = Some nb → holds 0 (compress q) nb l0 →
  csize (v :: concat (la ++ l0 :: l :: lb)) < 2 ^ 32 → Forall is_byte v → _quicklistNodeAllowInsert (Some nb) (fill q) (zlen v) = true →
  ∃ q', insert_in junk htab q b (λ z, ziplistPush junk z v ZIPLIST_TAIL) = Some q' ∧ rep0 q' (A ++ b :: a :: B) (la ++ (l0 ++ [v]) :: l :: lb) ∧ qcount q' = qcount q ∧ same_opts q q'.
Proof.
  intros HR Hl Hn Hh Hs Hv Ha. pose proof (csize_concat_cons v la l0 (l :: lb)) as Hcv. destruct (holds_count _ _ _ _ Hh) as (_ & _ & Hbs & _).
  pose proof (allow_insert_bound _ _ _ _ v _ Hh ltac:(lia) Ha) as Hb.
  apply (insert_in_spec q A b (a :: B) la l0 (l :: lb)); try done.
  - rewrite length_app. simpl. lia.
  - rewrite length_app. simpl. lia.
  - apply Forall_app. split; [done|by apply Forall_singleton].
  - rewrite concat_app in *. cbn [concat] in *. rewrite csize_cons, !csize_app in Hs. rewrite !csize_app, csize_cons. change (csize []) with 22. lia.
  - intros q1 n1 z1 _ _ _ Hz. destruct (zrep_push junk z1 l0 v ZIPLIST_TAIL Hz) as (z' & -> & Hz'); [lia|]. by exists z'.
Qed.

(** The count is the last thing to change. *)
Lemma rep0_counted q q' ns ls ns' ls' v :
  rep q ns ls → csize (v :: concat ls) < 2 ^ 32 → rep0 q' ns' ls' → qcount q' = qcount q → (∃ l1 l2, concat ls = l1 ++ l2 ∧ concat ls' = l1 ++ v :: l2) →
  rep (set_counts (wrap_u 64 (qcount q' + 1)) (qlen q') q') ns' ls'.
Proof. intros HR Hs [H1 H2 H3 H4 H5] Ec Hl. rewrite Ec. by apply (rep_added q q' ns ls ns' ls' v). Qed.

Lemma insert_spec q ns ls e A a B la l lb j v (after : bool) :
  rep q ns ls → placed ns ls A a B la l lb → entry_at q e a l j → e_offset e = Z.of_nat j → csize (v :: concat ls) < 2 ^ 32 → Forall is_byte v →
  ∃ q' ns' ls', _quicklistInsert junk htab alloc q e v after = Some q' ∧ rep q' ns' ls' ∧ concat ls' = concat la ++ added after l j v ++ concat lb ∧ same_opts q q'.
Proof.
  intros HR (-> & -> & Hl) (n & z & p & s & Hn & Hh & Ez & Hp & Hsj & Ena & Ezi & _) Eo Hs Hv. pose proof (lookup_lt_Some _ _ _ Hsj) as Hj.
  destruct (holds_count _ _ _ _ Hh) as (Hnc & Hlt & Hbs & _). rewrite Z.add_0_r in Hnc. unfold _quicklistInsert. rewrite Ena, Hn. cbn [mbind option_bind].
  destruct (next_rep junk htab alloc htab_u32 alloc_fresh _ _ _ _ _ HR) as [-> ->]. cbn [mbind option_bind].
  assert (∃ dn, deref q (first_or B None) = Some dn) as (dn & ->).
  { destruct B as [|b B]; [by eexists|]. pose proof HR as HR'. rewrite (cons_middle a A), (assoc_L (++)) in HR'. apply rep_rep0 in HR'. by eapply (deref_some junk htab alloc htab_u32 alloc_fresh) in HR'. }
  assert (∃ dp, deref q (last_or None A) = Some dp ∧ (∀ b, last_or None A = Some b → ∃ nb, dp = Some nb ∧ ndata q !! b = Some nb)) as (dp & -> & Hdp).
  { destruct (last_or_cases None A) as [[-> ->]|(A' & b & -> & ->)]; [by exists None|]. pose proof HR as HR'. rewrite <-(assoc_L (++)) in HR'. cbn [app] in HR'.
    destruct (rep_middle _ _ _ _ _ HR') as (_ & _ & _ & nb & _ & _ & _ & _ & Hnb & _). exists (Some nb). split; [by apply deref_node|]. intros ? [= <-]. by exists nb. }
  cbn [mbind option_bind]. rewrite Eo, Hnc, (proj2 (Z.eqb_neq (Z.of_nat j) (zlen l))) by lia. rewrite andb_false_r. cbn [andb].
  assert (∀ q2 ns2 ls2, rep0 q2 ns2 ls2 → concat ls2 = concat la ++ added after l j v ++ concat lb → same_opts q q2 → qcount q2 = qcount q →
    ∃ q' ns' ls', Some (set_counts (wrap_u 64 (qcount q2 + 1)) (qlen q2) q2) = Some q' ∧ rep q' ns' ls' ∧ concat ls' = concat la ++ added after l j v ++ concat lb ∧ same_opts q q') as Hdone.
  { intros q2 ns2 ls2 HR2 Ec2 Ho2 Eq2. eexists _, ns2, ls2. split; [done|]. split; [|done]. eapply rep0_counted; [exact HR|exact Hs|done|done|]. rewrite Ec2. apply added_concat. }
  destruct (_quicklistNodeAllowInsert (Some n) (fill q) (zlen v)) eqn:Ea; cbn [negb andb orb].
  - destruct (insert_here_spec q A a B la l lb n z j p v after HR Hl Hn Hh Ez Hp Hj Hs Hv Ea) as (q2 & E2 & HR2 & Ec2 & Ho2). rewrite Ezi. cbn [mbind option_bind].
    destruct after; cbn [negb andb]; cbv zeta in E2; cbn iota in E2; rewrite E2; cbn [mbind option_bind]; eapply Hdone; try done; by rewrite concat_app.
  - destruct (negb after && (Z.of_nat j =? 0) && bool_decide (is_Some (last_or None A))) eqn:Eh; cbn [andb].
    + apply andb_true_iff in Eh as [[Eaf%negb_true_iff Ej%Z.eqb_eq]%andb_true_iff Ep%bool_decide_eq_true]. assert (j = 0%nat) as -> by lia. subst after. cbn [negb andb Z.of_nat Z.eqb].
      destruct (last_or_cases None A) as [[_ E]|(A' & b & -> & E)]; rewrite E in *; [by destruct Ep|]. destruct (Hdp b eq_refl) as (nb & -> & Hnb).
      destruct (_quicklistNodeAllowInsert (Some nb) (fill q) (zlen v)) eqn:Eb; cbn [negb andb mbind option_bind].
      * destruct la as [|l0 la _] using rev_ind; [rewrite length_app in Hl; simpl in Hl; lia|]. rewrite !length_app in Hl. cbn [length] in Hl. rewrite <-(assoc_L (++) la) in HR, Hs. rewrite <-(assoc_L (++) A') in HR. cbn [app] in HR, Hs.
        destruct (node_good junk htab alloc htab_u32 alloc_fresh q A' b (a :: B) la l0 (l :: lb) HR ltac:(lia)) as (nb' & Hnb' & Hhb & _). rewrite Hnb in Hnb'. injection Hnb' as <-.
        destruct (insert_prev_spec q A' b a B la l0 l lb nb v HR ltac:(lia) Hnb Hhb Hs Hv Eb) as (q2 & -> & HR2 & Ec2 & Ho2). cbn [mbind option_bind]. eapply Hdone; try done.
        unfold added. rewrite !concat_app. cbn. by rewrite ?app_nil_r, <-!(assoc_L (++)).
      * destruct (new_node_spec junk htab alloc htab_u32 alloc_fresh q (A' ++ [b]) (a :: B) la (l :: lb) v ZIPLIST_HEAD 1 false HR Hl) as (x & q0 & q2 & -> & _ & _ & E2 & HL2 & HnA & HnB & (nx & Hnx & Hhx) & Hd2 & Ec2 & El2 & Ho2 & _); [|done|lia|done|].
        { pose proof (csize_pos (concat (la ++ l :: lb))). rewrite csize_cons in Hs |- *. change (csize []) with 22. lia. }
        cbn [mbind option_bind first_or] in *. rewrite E2. cbn [mbind option_bind]. eapply (Hdone q2 ((A' ++ [b]) ++ x :: a :: B) (la ++ [v] :: l :: lb)); try done.
        -- pose proof (p_full _ _ _ HR) as [HfA HfB]%Forall_app. split; try done.
           ++ split; [done| |destruct Ho2 as [_ ->]; apply HR]. apply Forall2_app; [done|]. constructor; [by exists nx|done].
           ++ apply Forall_app. split; [done|]. by apply Forall_cons.
           ++ rewrite concat_app. cbn [concat]. apply (added_size false la l lb 0 v Hs).
        -- by rewrite concat_app.
    + destruct (split_insert_spec q A a B la l lb n z j v after HR Hl Hn Hh Ez Hj Hs Hv) as (q2 & ns2 & ls2 & -> & HR2 & Ec2 & Ho2 & Eq2). cbn [mbind option_bind]. by eapply Hdone.
Qed.

End Insert.
