(* ===== verification/ListType.v ===== *)
(** The list type (t_list.c): a quicklist under a key, and the commands on the keys of a
    database.

    [None] is a failed assertion, an access outside of memory or the overflow of a signed
    integer.  A list object belongs to one key, so that a pointer to it is modelled by the key.
    The clients that are blocked on a key are not part of this model. *)

From stdpp Require Import list numbers strings gmap.
From S2P Require Import Prelude Util Glob SdsText Object QuickList.

Inductive lcmd :=
  | LPush (key : bytes) (vals : list bytes) (where_ : Z)
  | LPushX (key : bytes) (vals : list bytes) (where_ : Z)
  | LInsert (key : bytes) (position pivot value : bytes)
  | LLen (key : bytes)
  | LIndex (key index : bytes)
  | LSet (key index value : bytes)
  | LPop (key : bytes) (where_ : Z)
  | LRange (key start end_ : bytes)
  | LTrim (key start end_ : bytes)
  | LRem (key count value : bytes)
  | RPopLPush (src dst : bytes).

Definition LIST_HEAD : Z := 0.
Definition LIST_TAIL : Z := 1.

Definition after_word : bytes := [97; 102; 116; 101; 114].
Definition before_word : bytes := [98; 101; 102; 111; 114; 101].

(** LINSERT's position; [None] is a syntax error. *)
Definition insert_where (position : bytes) : option Z :=
  if strcasecmp_eq position after_word then Some LIST_TAIL
  else if strcasecmp_eq position before_word then Some LIST_HEAD
  else None.

(** The conversion of negative indexes, as in LRANGE and LTRIM. *)
Definition range_start (start llen : Z) : Z := let start := if start <? 0 then llen + start else start in if start <? 0 then 0 else start.
Definition range_end (end_ llen : Z) : Z := if end_ <? 0 then llen + end_ else end_.

Section List_.

Context (junk : nat → Z) (htab : list Z → Z → Z) (alloc : gset addr → addr).
Context (list_max_ziplist_size list_compress_depth : Z).

(** ** The interface of lists *)

Definition createQuicklistObject : quicklist := quicklistSetOptions quicklistCreate list_max_ziplist_size list_compress_depth.

Definition listTypePush (subject : quicklist) (value : bytes) (where_ : Z) : option quicklist :=
  quicklistPush junk htab alloc subject value (if where_ =? LIST_HEAD then QUICKLIST_HEAD else QUICKLIST_TAIL).

(** [None] is NULL. *)
Definition listTypePop (subject : quicklist) (where_ : Z) : option (quicklist * option bytes) :=
  '(q, v) ← quicklistPopCustom junk htab subject (if where_ =? LIST_HEAD then QUICKLIST_HEAD else QUICKLIST_TAIL);
  match v with Some v => t ← text v; Some (q, Some t) | None => Some (q, None) end.

Definition listTypeLength (subject : quicklist) : Z := quicklistCount subject.

(** An iterator that goes to the tail for LIST_TAIL and to the head for LIST_HEAD. *)
Definition listTypeInitIterator (subject : quicklist) (index direction : Z) : option (quicklist * option quicklistIter) :=
  quicklistGetIteratorAtIdx junk subject (if direction =? LIST_HEAD then AL_START_TAIL else AL_START_HEAD) index.

Definition listTypeNext (subject : quicklist) (li : option quicklistIter) : option (quicklist * option quicklistIter * option quicklistEntry) :=
  quicklistNext junk htab subject li.

(** The value of an entry, as a string. *)
Definition listTypeGet (e : quicklistEntry) : option bytes := text (e_value e).

Definition listTypeInsert (subject : quicklist) (e : quicklistEntry) (value : bytes) (where_ : Z) : option quicklist :=
  if where_ =? LIST_TAIL then quicklistInsertAfter junk htab alloc subject e value
  else if where_ =? LIST_HEAD then quicklistInsertBefore junk htab alloc subject e value
  else Some subject.

Definition listTypeEqual (subject : quicklist) (e : quicklistEntry) (o : bytes) : option bool := quicklistCompare subject e o.

Definition listTypeDelete (subject : quicklist) (li : option quicklistIter) (e : quicklistEntry) : option (quicklist * option quicklistIter) :=
  li ← li; '(q, it) ← quicklistDelEntry junk htab subject li e; Some (q, Some it).

(** ** Commands *)

Abbreviation db := (gmap bytes (dbval quicklist)).
Abbreviation result := (db * reply * list effect * Z)%type.

(** [lookupKeyWriteOrReply] and [checkType] *)
Definition lookup_list_or (h : db) (key : bytes) (r : reply) (c : quicklist → option result) : option result :=
  match h !! key with
  | None => Some (h, r, [], 0)
  | Some (VObj o) => c o
  | Some (VOther _) => Some (h, wrongtypeerr, [], 0)
  end.

(** [getLongFromObjectOrReply] *)
Definition long_or_reply (h : db) (s : bytes) (c : Z → option result) : option result :=
  r ← getLongFromObject s;
  match r with Some n => c n | None => Some (h, notintegererr, [], 0) end.

Definition push_event (where_ : Z) : string := if where_ =? LIST_HEAD then "lpush" else "rpush".

(** The list is created by the first value. *)
Fixpoint push_loop (lobj : option quicklist) (vals : list bytes) (where_ pushed : Z) : option (option quicklist * Z) :=
  match vals with
  | [] => Some (lobj, pushed)
  | v :: vals =>
      let o := match lobj with Some o => o | None => createQuicklistObject end in
      o ← listTypePush o v where_;
      push_loop (Some o) vals where_ (pushed + 1)
  end.

Definition pushGenericCommand (h : db) (key : bytes) (vals : list bytes) (where_ : Z) : option result :=
  let push lobj :=
    '(lobj, pushed) ← push_loop lobj vals where_ 0;
    Some (match lobj with Some o => <[key := VObj o]> h | None => h end,
      RInt (match lobj with Some o => listTypeLength o | None => 0 end),
      if pushed =? 0 then [] else [Signal key; Notify (push_event where_) key], pushed) in
  match h !! key with
  | Some (VOther _) => Some (h, wrongtypeerr, [], 0)
  | Some (VObj o) => push (Some o)
  | None => push None
  end.

Definition pushxGenericCommand (h : db) (key : bytes) (vals : list bytes) (where_ : Z) : option result :=
  lookup_list_or h key (RInt 0) (λ o,
    '(lobj, pushed) ← push_loop (Some o) vals where_ 0;
    o ← lobj;
    Some (<[key := VObj o]> h, RInt (listTypeLength o), if pushed =? 0 then [] else [Signal key; Notify (push_event where_) key], pushed)).

(** The search for the pivot. *)
Fixpoint linsert_loop (fuel : nat) (q : quicklist) (li : option quicklistIter) (pivot value : bytes) (where_ : Z) : option (quicklist * bool) :=
  match fuel with
  | O => None
  | S fuel =>
      '(q, li, e) ← listTypeNext q li;
      match e with
      | None => Some (q, false)
      | Some e =>
          b ← listTypeEqual q e pivot;
          if (b : bool) then q ← listTypeInsert q e value where_; Some (q, true)
          else linsert_loop fuel q li pivot value where_
      end
  end.

Definition linsertCommand (h : db) (key position pivot value : bytes) : option result :=
  match insert_where position with
  | None => Some (h, syntaxerr, [], 0)
  | Some where_ =>
      lookup_list_or h key (RInt 0) (λ subject,
        '(q, li) ← listTypeInitIterator subject 0 LIST_TAIL;
        '(q, inserted) ← linsert_loop (S (Z.to_nat (listTypeLength q))) q li pivot value where_;
        let h := <[key := VObj q]> h in
        Some (if (inserted : bool) then (h, RInt (listTypeLength q), [Signal key; Notify "linsert" key], 1) else (h, RInt (-1), [], 0)))
  end.

Definition llenCommand (h : db) (key : bytes) : option result :=
  lookup_list_or h key (RInt 0) (λ o, Some (h, RInt (listTypeLength o), [], 0)).

Definition lindexCommand (h : db) (key index : bytes) : option result :=
  lookup_list_or h key RNullBulk (λ o,
    long_or_reply h index (λ index,
      '(q, e) ← quicklistIndex junk o index;
      let h := <[key := VObj q]> h in
      match e with
      | Some e => t ← text (e_value e); Some (h, RBulk t, [], 0)
      | None => Some (h, RNullBulk, [], 0)
      end)).

Definition lsetCommand (h : db) (key index value : bytes) : option result :=
  lookup_list_or h key nokeyerr (λ o,
    long_or_reply h index (λ index,
      '(q, replaced) ← quicklistReplaceAtIndex junk htab o index value;
      let h := <[key := VObj q]> h in
      Some (if (replaced : bool) then (h, ROk, [Signal key; Notify "lset" key], 1) else (h, outofrangeerr, [], 0)))).

Definition popGenericCommand (h : db) (key : bytes) (where_ : Z) : option result :=
  lookup_list_or h key RNullBulk (λ o,
    '(o, value) ← listTypePop o where_;
    match value with
    | None => Some (<[key := VObj o]> h, RNullBulk, [], 0)
    | Some value =>
        let event := Notify (if where_ =? LIST_HEAD then "lpop" else "rpop") key in
        Some (if listTypeLength o =? 0 then (delete key h, RBulk value, [event; Notify "del" key; Signal key], 1)
              else (<[key := VObj o]> h, RBulk value, [event; Signal key], 1))
    end).

(** [while (rangelen--)]: the result of [listTypeNext] is not tested. *)
Fixpoint lrange_loop (rangelen : nat) (q : quicklist) (li : option quicklistIter) : option (quicklist * list bytes) :=
  match rangelen with
  | O => Some (q, [])
  | S rangelen =>
      '(q, li, e) ← listTypeNext q li;
      t ← listTypeGet (default initEntry e);
      '(q, ts) ← lrange_loop rangelen q li;
      Some (q, t :: ts)
  end.

Definition lrangeCommand (h : db) (key start end_ : bytes) : option result :=
  long_or_reply h start (λ start,
  long_or_reply h end_ (λ end_,
  lookup_list_or h key (RMultiBulk 0 []) (λ o,
    let llen := listTypeLength o in
    let start := range_start start llen in
    let end_ := range_end end_ llen in
    if (end_ <? start) || (llen <=? start) then Some (h, RMultiBulk 0 [], [], 0)
    else
      let end_ := if llen <=? end_ then llen - 1 else end_ in
      let rangelen := end_ - start + 1 in
      '(q, li) ← listTypeInitIterator o start LIST_TAIL;
      '(q, ts) ← lrange_loop (Z.to_nat rangelen) q li;
      Some (<[key := VObj q]> h, RMultiBulk rangelen (map Some ts), [], 0)))).

Definition ltrimCommand (h : db) (key start end_ : bytes) : option result :=
  long_or_reply h start (λ start,
  long_or_reply h end_ (λ end_,
  lookup_list_or h key ROk (λ o,
    let llen := listTypeLength o in
    let start := range_start start llen in
    let end_ := range_end end_ llen in
    let '(ltrim, rtrim) :=
      if (end_ <? start) || (llen <=? start) then (llen, 0)
      else let end_ := if llen <=? end_ then llen - 1 else end_ in (start, llen - end_ - 1) in
    '(q, _) ← quicklistDelRange junk htab o 0 ltrim;
    '(q, _) ← quicklistDelRange junk htab q (- rtrim) rtrim;
    Some (if listTypeLength q =? 0 then (delete key h, ROk, [Notify "ltrim" key; Notify "del" key; Signal key], 1)
          else (<[key := VObj q]> h, ROk, [Notify "ltrim" key; Signal key], 1))))).

Fixpoint lrem_loop (fuel : nat) (q : quicklist) (li : option quicklistIter) (obj : bytes) (toremove removed : Z) : option (quicklist * Z) :=
  match fuel with
  | O => None
  | S fuel =>
      '(q, li, e) ← listTypeNext q li;
      match e with
      | None => Some (q, removed)
      | Some e =>
          b ← listTypeEqual q e obj;
          if (b : bool) then
            '(q, li) ← listTypeDelete q li e;
            if negb (toremove =? 0) && (removed + 1 =? toremove) then Some (q, removed + 1)
            else lrem_loop fuel q li obj toremove (removed + 1)
          else lrem_loop fuel q li obj toremove removed
      end
  end.

Definition lremCommand (h : db) (key count obj : bytes) : option result :=
  long_or_reply h count (λ toremove,
  lookup_list_or h key (RInt 0) (λ subject,
    '(q, li, toremove) ← (if toremove <? 0 then
                            if toremove =? - 2 ^ 63 then None
                            else '(q, li) ← listTypeInitIterator subject (-1) LIST_HEAD; Some (q, li, - toremove)
                          else '(q, li) ← listTypeInitIterator subject 0 LIST_TAIL; Some (q, li, toremove));
    '(q, removed) ← lrem_loop (S (Z.to_nat (listTypeLength q))) q li obj toremove 0;
    let effects := if removed =? 0 then [] else [Signal key; Notify "lrem" key] in
    Some (if listTypeLength q =? 0 then (delete key h, RInt removed, effects ++ [Notify "del" key], removed)
          else (<[key := VObj q]> h, RInt removed, effects, removed)))).

(** The push of RPOPLPUSH, with its effects. *)
Definition rpoplpushHandlePush (dstkey : bytes) (dstobj : option quicklist) (value : bytes) : option (quicklist * list effect) :=
  let o := match dstobj with Some o => o | None => createQuicklistObject end in
  o ← listTypePush o value LIST_HEAD;
  Some (o, [Signal dstkey; Notify "lpush" dstkey]).

(** The two keys may be the same. *)
Definition rpoplpushCommand (h : db) (src dst : bytes) : option result :=
  lookup_list_or h src RNullBulk (λ sobj,
    if listTypeLength sobj =? 0 then Some (h, RNullBulk, [], 0)
    else
      match h !! dst with
      | Some (VOther _) => Some (h, wrongtypeerr, [], 0)
      | dobj =>
          '(sobj, value) ← listTypePop sobj LIST_TAIL;
          value ← value;
          let same := bool_decide (src = dst) in
          let dobj := match dobj with Some (VObj d) => Some (if same then sobj else d) | _ => None end in
          '(d, effects) ← rpoplpushHandlePush dst dobj value;
          let sobj := if same then d else sobj in
          let h := <[dst := VObj d]> (<[src := VObj sobj]> h) in
          Some (if listTypeLength sobj =? 0 then (delete src h, RBulk value, effects ++ [Notify "rpop" src; Notify "del" src; Signal src], 1)
                else (h, RBulk value, effects ++ [Notify "rpop" src; Signal src], 1))
      end).

Definition run_lcmd (h : db) (cmd : lcmd) : option result :=
  match cmd with
  | LPush key vals where_ => pushGenericCommand h key vals where_
  | LPushX key vals where_ => pushxGenericCommand h key vals where_
  | LInsert key position pivot value => linsertCommand h key position pivot value
  | LLen key => llenCommand h key
  | LIndex key index => lindexCommand h key index
  | LSet key index value => lsetCommand h key index value
  | LPop key where_ => popGenericCommand h key where_
  | LRange key start end_ => lrangeCommand h key start end_
  | LTrim key start end_ => ltrimCommand h key start end_
  | LRem key count value => lremCommand h key count value
  | RPopLPush src dst => rpoplpushCommand h src dst
  end.

Fixpoint run_lcmds (h : db) (cmds : list lcmd) : option (db * list (reply * list effect * Z)) :=
  match cmds with
  | [] => Some (h, [])
  | cmd :: cmds => '(h, r, es, d) ← run_lcmd h cmd; '(h, rs) ← run_lcmds h cmds; Some (h, (r, es, d) :: rs)
  end.

End List_.
