(* ===== verification/ListSpec.v ===== *)
(** Lists as lists of strings: the commands on the keys of a database have the results of the
    same operations on mathematical lists. *)

From stdpp Require Import list numbers strings gmap.
From S2P Require Import Prelude Util Glob SdsText Lzf Ziplist ZiplistEntry ZiplistList ZiplistRefine Object QuickList QuickListNode QuickListRep QuickListOps QuickListIter QuickListEdit.
From S2P Require Import QuickListMerge QuickListInsert ListType DbRel.

Set Default Proof Using "All".

(** ** The specification *)

(** The value goes next to the first occurrence of the pivot. *)
Fixpoint insert_near (pivot v : bytes) (after : bool) (l : list bytes) : option (list bytes) :=
  match l with
  | [] => None
  | s :: l => if bool_decide (s = pivot) then Some (if after then s :: v :: l else v :: s :: l) else (s ::.) <$> insert_near pivot v after l
  end.

Lemma insert_near_length pivot v after l l' : insert_near pivot v after l = Some l' → zlen l' = zlen l + 1.
Proof.
  revert l'. induction l as [|s l IH]; intros l' En; cbn in En; [done|]. case_bool_decide; [simplify_eq; destruct after; simpl; lia|].
  destruct (insert_near _ _ _ l); [|done]. injection En as <-. specialize (IH _ eq_refl). cbn [length]. lia.
Qed.

(** The first [k] occurrences are removed. *)
Fixpoint remove_n (k : nat) (x : bytes) (l : list bytes) : list bytes :=
  match k, l with
  | S k', s :: l => if bool_decide (s = x) then remove_n k' x l else s :: remove_n k x l
  | _, _ => l
  end.

(** LREM with a count: from the head, from the tail, or all. *)
Definition remove_count (count : Z) (x : bytes) (l : list bytes) : list bytes :=
  if count <? 0 then reverse (remove_n (Z.to_nat (- count)) x (reverse l))
  else remove_n (if count =? 0 then length l else Z.to_nat count) x l.

(** The elements from [start] to [end_], which count from the end when they are negative. *)
Definition sublist (start end_ : Z) (l : list bytes) : list bytes :=
  let s := Z.max 0 (if start <? 0 then zlen l + start else start) in
  let e := if end_ <? 0 then zlen l + end_ else end_ in
  drop (Z.to_nat s) (take (Z.to_nat (e + 1)) l).

Definition position (index : Z) (l : list bytes) : option nat :=
  let i := if index <? 0 then zlen l + index else index in
  if (0 <=? i) && (i <? zlen l) then Some (Z.to_nat i) else None.

Abbreviation lists := (gmap bytes (dbval (list bytes))).
Abbreviation lresult := (lists * reply * list effect * Z)%type.

(** The strings are bytes and the list stays below 4 gigabytes. *)
Definition fits_list (l : list bytes) : bool := bool_decide (all_bytes l) && (csize l <? 2 ^ 32).

(** The list with other strings; an empty list has no key. *)
Definition put_list (a : lists) (key : bytes) (l : list bytes) : lists := match l with [] => delete key a | _ => <[key := VObj l]> a end.

Definition a_lookup (a : lists) (key : bytes) (r : reply) (c : list bytes → option lresult) : option lresult :=
  match a !! key with
  | None => Some (a, r, [], 0)
  | Some (VObj l) => c l
  | Some (VOther _) => Some (a, wrongtypeerr, [], 0)
  end.

Definition a_long (a : lists) (s : bytes) (c : Z → option lresult) : option lresult :=
  match to_int s with Some n => c n | None => Some (a, notintegererr, [], 0) end.

Definition pushed (where_ : Z) (vals l : list bytes) : list bytes := if where_ =? LIST_HEAD then reverse vals ++ l else l ++ vals.

Definition a_push (a : lists) (key : bytes) (vals l : list bytes) (where_ : Z) : option lresult :=
  if fits_list (vals ++ l) then
    Some (if bool_decide (vals = []) then a else <[key := VObj (pushed where_ vals l)]> a, RInt (zlen vals + zlen l),
      if bool_decide (vals = []) then [] else [Signal key; Notify (push_event where_) key], zlen vals)
  else None.

(** [None]: the caller does not keep the limits.  An index of LONG_MIN overflows. *)
Definition a_lcmd (a : lists) (cmd : lcmd) : option lresult :=
  match cmd with
  | LPush key vals where_ =>
      match a !! key with
      | Some (VOther _) => Some (a, wrongtypeerr, [], 0)
      | Some (VObj l) => a_push a key vals l where_
      | None => a_push a key vals [] where_
      end
  | LPushX key vals where_ => a_lookup a key (RInt 0) (λ l, a_push a key vals l where_)
  | LInsert key pos pivot v =>
      match insert_where pos with
      | None => Some (a, syntaxerr, [], 0)
      | Some where_ =>
          a_lookup a key (RInt 0) (λ l,
            if fits_list (v :: l) then
              Some (match insert_near pivot v (where_ =? LIST_TAIL) l with
                    | Some l' => (<[key := VObj l']> a, RInt (zlen l + 1), [Signal key; Notify "linsert" key], 1)
                    | None => (a, RInt (-1), [], 0)
                    end)
            else None)
      end
  | LLen key => a_lookup a key (RInt 0) (λ l, Some (a, RInt (zlen l), [], 0))
  | LIndex key index =>
      a_lookup a key RNullBulk (λ l,
        a_long a index (λ index,
          if index =? - 2 ^ 63 then None
          else Some (a, match i ← position index l; l !! i with Some s => RBulk s | None => RNullBulk end, [], 0)))
  | LSet key index v =>
      a_lookup a key nokeyerr (λ l,
        a_long a index (λ index,
          if (index =? - 2 ^ 63) || negb (fits_list (v :: l)) then None
          else Some (match position index l with
                     | Some i => (<[key := VObj (<[i := v]> l)]> a, ROk, [Signal key; Notify "lset" key], 1)
                     | None => (a, outofrangeerr, [], 0)
                     end)))
  | LPop key where_ =>
      a_lookup a key RNullBulk (λ l,
        let event := Notify (if where_ =? LIST_HEAD then "lpop" else "rpop") key in
        Some (match (if where_ =? LIST_HEAD then head l else last l) with
              | None => (a, RNullBulk, [], 0)
              | Some v =>
                  let l' := if where_ =? LIST_HEAD then tail l else removelast l in
                  (put_list a key l', RBulk v, event :: (if bool_decide (l' = []) then [Notify "del" key] else []) ++ [Signal key], 1)
              end))
  | LRange key start end_ =>
      a_long a start (λ start, a_long a end_ (λ end_,
        a_lookup a key (RMultiBulk 0 []) (λ l, let r := sublist start end_ l in Some (a, RMultiBulk (zlen r) (map Some r), [], 0))))
  | LTrim key start end_ =>
      a_long a start (λ start, a_long a end_ (λ end_,
        a_lookup a key ROk (λ l,
          let l' := sublist start end_ l in
          Some (put_list a key l', ROk, Notify "ltrim" key :: (if bool_decide (l' = []) then [Notify "del" key] else []) ++ [Signal key], 1))))
  | LRem key count x =>
      a_long a count (λ count,
        a_lookup a key (RInt 0) (λ l,
          if count =? - 2 ^ 63 then None
          else
            let l' := remove_count count x l in
            let removed := zlen l - zlen l' in
            Some (put_list a key l', RInt removed,
              (if removed =? 0 then [] else [Signal key; Notify "lrem" key]) ++ (if bool_decide (l' = []) then [Notify "del" key] else []), removed)))
  | RPopLPush src dst =>
      a_lookup a src RNullBulk (λ l,
        match last l, a !! dst with
        | None, _ => Some (a, RNullBulk, [], 0)
        | Some _, Some (VOther _) => Some (a, wrongtypeerr, [], 0)
        | Some v, d =>
            let l' := removelast l in
            let same := bool_decide (src = dst) in
            let ld := match d with Some (VObj ld) => if same then l' else ld | _ => [] end in
            if fits_list (v :: ld) then
              let gone := negb same && bool_decide (l' = []) in
              Some (<[dst := VObj (v :: ld)]> (put_list a src l'), RBulk v,
                [Signal dst; Notify "lpush" dst; Notify "rpop" src] ++ (if gone then [Notify "del" src] else []) ++ [Signal src], 1)
            else None
        end)
  end.

Fixpoint a_lcmds (a : lists) (cmds : list lcmd) : option (lists * list (reply * list effect * Z)) :=
  match cmds with
  | [] => Some (a, [])
  | cmd :: cmds => '(a, r, es, d) ← a_lcmd a cmd; '(a, rs) ← a_lcmds a cmds; Some (a, (r, es, d) :: rs)
  end.

(** ** The relation *)

Section Spec.

Context (junk : nat → Z) (htab : list Z → Z → Z) (alloc : gset addr → addr) (list_max_ziplist_size list_compress_depth : Z).
Hypothesis htab_u32 : ∀ inp i, in_u 32 (htab inp i).
Hypothesis alloc_fresh : ∀ X, alloc X ∉ X.

Let create := createQuicklistObject list_max_ziplist_size list_compress_depth.

Definition qrep (q : quicklist) (l : list bytes) : Prop := ∃ ns ls, rep q ns ls ∧ concat ls = l ∧ compress q = compress create.

Definition lists_rep : gmap bytes (dbval quicklist) → lists → Prop := db_rel qrep.

(** The ends of all lists are not compressed. *)
Definition ends_raw (h : gmap bytes (dbval quicklist)) : Prop := ∀ (key : bytes) q, h !! key = Some (VObj q) → head_raw q ∧ tail_raw q.

Lemma qrep_intro q0 l0 q ns ls : qrep q0 l0 → same_opts q0 q → rep q ns ls → qrep q (concat ls).
Proof. intros (_ & _ & _ & _ & Ec) [_ E] HR. exists ns, ls. split; [done|]. split; [done|]. congruence. Qed.

Lemma qrep_length q l : qrep q l → qcount q = zlen l.
Proof. intros (ns & ls & HR & <- & _). apply HR. Qed.

Lemma qrep_create : qrep create [].
Proof.
  exists [], []. split; [|done]. unfold create, createQuicklistObject, quicklistSetOptions, quicklistSetCompressDepth, quicklistSetFill. split; try done. split; [|constructor|].
  - split; try done. constructor.
  - cbn. apply Z.mod_pos_bound. lia.
Qed.

Lemma create_raw : head_raw create ∧ tail_raw create.
Proof. done. Qed.

Lemma lists_rep_put h a key q l :
  lists_rep h a → qrep q l → lists_rep (if listTypeLength q =? 0 then delete key h else <[key := VObj q]> h) (put_list a key l).
Proof.
  intros Hr Hq. unfold listTypeLength, quicklistCount. rewrite (qrep_length q l Hq). destruct l as [|s l]; cbn [put_list].
  - cbn. by apply db_rel_delete.
  - rewrite (proj2 (Z.eqb_neq _ _)) by (simpl; lia). by apply db_rel_insert.
Qed.

Abbreviation refines := (cmd_refines qrep).

Lemma lookup_refines h a key r c d :
  lists_rep h a → (∀ q l, h !! key = Some (VObj q) → a !! key = Some (VObj l) → qrep q l → refines (c q) (d l)) → refines (lookup_list_or h key r c) (a_lookup a key r d).
Proof.
  intros Hr Hc. unfold lookup_list_or, a_lookup. destruct (db_rel_cases qrep h a key Hr) as [[-> ->]|[(q & l & E1 & E2 & Hq)|(v & -> & ->)]]; [by apply cmd_refines_some| |by apply cmd_refines_some]. rewrite E1, E2. by apply Hc.
Qed.

Lemma long_refines h a s c d : lists_rep h a → (∀ n, in_s 64 n → refines (c n) (d n)) → refines (long_or_reply h s c) (a_long a s d).
Proof.
  intros Hr Hc. unfold long_or_reply, a_long, getLongFromObject. rewrite to_int_eq. cbn [mbind option_bind]. destruct (to_int s) as [n|] eqn:E; [|by apply cmd_refines_some].
  apply to_int_spec in E as [_ Hn]. by apply Hc.
Qed.

(** ** Pushing *)

Lemma qpush_spec q l v where_ :
  qrep q l → csize (v :: l) < 2 ^ 32 → Forall is_byte v → (if where_ =? LIST_HEAD then head_raw q else tail_raw q) →
  ∃ q', listTypePush junk htab alloc q v where_ = Some q' ∧ qrep q' (if where_ =? LIST_HEAD then v :: l else l ++ [v]) ∧ (if where_ =? LIST_HEAD then head_raw q' else tail_raw q').
Proof.
  intros Hq Hs Hv Hraw. pose proof Hq as (ns & ls & HR & <- & Ec). unfold listTypePush, quicklistPush. destruct (where_ =? LIST_HEAD).
  - destruct (push_head_spec junk htab alloc htab_u32 alloc_fresh q ns ls v HR Hs Hv Hraw) as (q' & b & ns' & ls' & -> & HR' & E & Hraw' & Ho). exists q'. split; [done|]. split; [|done]. rewrite <-E. by eapply qrep_intro.
  - destruct (push_tail_spec junk htab alloc htab_u32 alloc_fresh q ns ls v HR Hs Hv Hraw) as (q' & b & ns' & ls' & -> & HR' & E & Hraw' & Ho). exists q'. split; [done|]. split; [|done]. rewrite <-E. by eapply qrep_intro.
Qed.

Lemma push_loop_spec vals where_ : ∀ q l k,
  qrep q l → csize (vals ++ l) < 2 ^ 32 → all_bytes vals → (if where_ =? LIST_HEAD then head_raw q else tail_raw q) →
  ∃ q', push_loop junk htab alloc list_max_ziplist_size list_compress_depth (Some q) vals where_ k = Some (Some q', k + zlen vals) ∧ qrep q' (pushed where_ vals l).
Proof.
  induction vals as [|v vals IH]; intros q l k Hq Hs Hb Hraw; cbn [push_loop].
  - exists q. split; [do 2 f_equal; simpl; lia|]. unfold pushed. destruct (where_ =? LIST_HEAD); [done|]. by rewrite app_nil_r.
  - apply Forall_cons in Hb as [Hv Hb]. cbn [app] in Hs. rewrite csize_cons, csize_app in Hs. pose proof (csize_pos vals).
    destruct (qpush_spec q l v where_ Hq) as (q1 & -> & Hq1 & Hraw1); [rewrite csize_cons; lia|done|done|]. cbn [mbind option_bind].
    destruct (IH q1 _ (k + 1) Hq1) as (q' & -> & Hq'); [|done|done|].
    + rewrite csize_app. destruct (where_ =? LIST_HEAD); rewrite ?csize_app, ?csize_cons; change (csize []) with 22; lia.
    + exists q'. split; [do 2 f_equal; simpl; lia|]. unfold pushed in *. destruct (where_ =? LIST_HEAD); [by rewrite reverse_cons, <-(assoc_L (++))|by rewrite <-(assoc_L (++)) in Hq'].
Qed.

Lemma fits_list_spec l : fits_list l = true → all_bytes l ∧ csize l < 2 ^ 32.
Proof. unfold fits_list. intros [H1%bool_decide_eq_true H2%Z.ltb_lt]%andb_true_iff. done. Qed.

Lemma pushed_length where_ vals l : zlen (pushed where_ vals l) = zlen vals + zlen l.
Proof. unfold pushed. destruct (where_ =? LIST_HEAD); rewrite length_app, ?length_reverse; lia. Qed.

(** A push on a list that exists or was just created. *)
Lemma push_refines h a key q l vals where_ a' r es d :
  lists_rep h a → qrep q l → head_raw q → tail_raw q → (vals = [] → a !! key = Some (VObj l)) → a_push a key vals l where_ = Some (a', r, es, d) →
  ∃ q', push_loop junk htab alloc list_max_ziplist_size list_compress_depth (Some q) vals where_ 0 = Some (Some q', d) ∧ r = RInt (listTypeLength q') ∧
    es = (if d =? 0 then [] else [Signal key; Notify (push_event where_) key]) ∧ lists_rep (<[key := VObj q']> h) a'.
Proof.
  intros Hr Hq Hh Ht Hnil. unfold a_push. destruct (fits_list (vals ++ l)) eqn:Ef; [|done]. intros [= <- <- <- <-]. apply fits_list_spec in Ef as [[Hb _]%Forall_app Hs].
  destruct (push_loop_spec vals where_ q l 0 Hq Hs Hb) as (q' & -> & Hq'); [by destruct (where_ =? LIST_HEAD)|]. exists q'. split; [done|]. unfold listTypeLength, quicklistCount. rewrite (qrep_length _ _ Hq'), pushed_length.
  split; [done|]. destruct vals as [|v vals]; cbn [bool_decide decide].
  - split; [done|]. apply db_rel_same with l; auto. unfold pushed in Hq'. destruct (where_ =? LIST_HEAD); [done|]. by rewrite app_nil_r in Hq'.
  - split; [by rewrite (proj2 (Z.eqb_neq _ _)) by (simpl; lia)|]. by apply db_rel_insert.
Qed.

Lemma lpush_refines h a key vals where_ : lists_rep h a → ends_raw h →
  refines (run_lcmd junk htab alloc list_max_ziplist_size list_compress_depth h (LPush key vals where_)) (a_lcmd a (LPush key vals where_)).
Proof.
  intros Hr He a' r es d. cbn [run_lcmd a_lcmd]. unfold pushGenericCommand. destruct (db_rel_cases qrep h a key Hr) as [[E1 E2]|[(q & l & E1 & E2 & Hq)|(v & E1 & E2)]]; rewrite E1, E2.
  3:{ intros [= <- <- <- <-]. by exists h. }
  - destruct vals as [|v vals]; [cbn; intros [= <- <- <- <-]; by exists h|]. intros Ha. destruct create_raw as [Hc1 Hc2].
    destruct (push_refines h a key create [] (v :: vals) where_ a' r es d Hr qrep_create Hc1 Hc2 ltac:(done) Ha) as (q' & E & -> & -> & Hr').
    change (push_loop junk htab alloc list_max_ziplist_size list_compress_depth None (v :: vals) where_ 0) with (push_loop junk htab alloc list_max_ziplist_size list_compress_depth (Some create) (v :: vals) where_ 0).
    rewrite E. cbn [mbind option_bind]. by eexists.
  - intros Ha. destruct (He key q E1) as [Hh Ht]. destruct (push_refines h a key q l vals where_ a' r es d Hr Hq Hh Ht ltac:(done) Ha) as (q' & -> & -> & -> & Hr'). cbn [mbind option_bind]. by eexists.
Qed.

Lemma lpushx_refines h a key vals where_ : lists_rep h a → ends_raw h →
  refines (run_lcmd junk htab alloc list_max_ziplist_size list_compress_depth h (LPushX key vals where_)) (a_lcmd a (LPushX key vals where_)).
Proof.
  intros Hr He. apply lookup_refines; [done|]. intros q l E1 E2 Hq a' r es d Ha. destruct (He key q E1) as [Hh Ht].
  destruct (push_refines h a key q l vals where_ a' r es d Hr Hq Hh Ht ltac:(done) Ha) as (q' & -> & -> & -> & Hr'). cbn [mbind option_bind]. by eexists.
Qed.

(** ** Inserting *)

Lemma reached_insert q ns ls it e pre s post v (after : bool) :
  rep q ns ls → dir it = AL_START_HEAD → reached q ns ls it e pre s post → csize (v :: concat ls) < 2 ^ 32 → Forall is_byte v →
  ∃ q' ns' ls', _quicklistInsert junk htab alloc q e v after = Some q' ∧ rep q' ns' ls' ∧ concat ls' = pre ++ (if after then s :: v :: post else v :: s :: post) ∧ same_opts q q'.
Proof.
  intros HR Hd (A & a & B & la & l & lb & j & Hpl & He & Hs & -> & -> & _ & _ & Eo & Ho) Hsz Hv. rewrite Hd in Ho.
  destruct (insert_spec junk htab alloc htab_u32 alloc_fresh q ns ls e A a B la l lb j v after HR Hpl He ltac:(congruence) Hsz Hv) as (q' & ns' & ls' & -> & HR' & Ec & Hop).
  exists q', ns', ls'. split; [done|]. split; [done|]. split; [|done]. rewrite Ec. unfold added. destruct after.
  - rewrite (take_S_r _ _ _ Hs). by rewrite <-!(assoc_L (++)).
  - rewrite (drop_S _ _ _ Hs). by rewrite <-!(assoc_L (++)).
Qed.

Lemma linsert_loop_spec pivot v where_ (after : bool) : (where_ = if after then LIST_TAIL else LIST_HEAD) → ∀ fuel q ns ls it pre post,
  rep q ns ls → fwd q ns ls it pre post → (length post < fuel)%nat → csize (v :: concat ls) < 2 ^ 32 → Forall is_byte v → concat ls = pre ++ post →
  ∃ q' b ns' ls', linsert_loop junk htab alloc fuel q (Some it) pivot v where_ = Some (q', b) ∧ rep q' ns' ls' ∧ same_opts q q' ∧
    match insert_near pivot v after post with Some post' => b = true ∧ concat ls' = pre ++ post' | None => b = false ∧ concat ls' = pre ++ post end.
Proof.
  intros Hw. induction fuel as [|fuel IH]; intros q ns ls it pre post HR Hit Hf Hs Hv Ec; [lia|]. cbn [linsert_loop]. unfold listTypeNext.
  destruct (ql_next_forward junk htab alloc htab_u32 alloc_fresh q ns ls it pre post HR Hit) as (q1 & it1 & r & -> & Hr1 & Hd1 & Hm). cbn [mbind option_bind].
  pose proof (rep_recoded _ _ _ _ Hr1 HR) as HR1. destruct post as [|s post].
  - subst r. exists q1, false, ns, ls. split; [done|]. split; [done|]. split; [by apply recoded_opts|]. done.
  - destruct Hm as (e & -> & Hre). unfold listTypeEqual. rewrite (reached_compare junk htab alloc htab_u32 alloc_fresh _ _ _ _ _ _ _ _ pivot Hre). cbn [mbind option_bind insert_near].
    destruct (bool_decide_reflect (s = pivot)) as [_|_].
    + destruct (reached_insert q1 ns ls it1 e pre s post v after HR1 Hd1 Hre Hs Hv) as (q' & ns' & ls' & E & HR' & Ec' & Ho').
      assert (listTypeInsert junk htab alloc q1 e v where_ = Some q') as ->. { unfold listTypeInsert, quicklistInsertAfter, quicklistInsertBefore. rewrite Hw. by destruct after. }
      cbn [mbind option_bind]. exists q', true, ns', ls'. split; [done|]. split; [done|]. split; [etrans; [by apply recoded_opts|done]|]. done.
    + destruct (IH q1 ns ls it1 (pre ++ [s]) post HR1) as (q' & b & ns' & ls' & E & HR' & Ho' & Hmm); [by eapply (reached_fwd junk htab alloc htab_u32 alloc_fresh)|simpl in Hf; lia|done|done|by rewrite <-(assoc_L (++))|].
      exists q', b, ns', ls'. split; [done|]. split; [done|]. split; [etrans; [by apply recoded_opts|done]|].
      destruct (insert_near pivot v after post) as [post'|]; cbn; rewrite <-(assoc_L (++)) in Hmm; done.
Qed.

Lemma linsert_refines h a key pos pivot v : lists_rep h a →
  refines (run_lcmd junk htab alloc list_max_ziplist_size list_compress_depth h (LInsert key pos pivot v)) (a_lcmd a (LInsert key pos pivot v)).
Proof.
  intros Hr. cbn [run_lcmd a_lcmd]. unfold linsertCommand. destruct (insert_where pos) as [w|] eqn:Ew; [|by apply cmd_refines_some].
  apply lookup_refines; [done|]. intros q l E1 E2 Hq a' r es d. destruct (fits_list (v :: l)) eqn:Ef; [|done]. intros Ha. apply fits_list_spec in Ef as [[Hv Hbl]%Forall_cons Hs].
  pose proof Hq as (ns & ls & HR & Ec & Ecp). unfold listTypeInitIterator. cbn [Z.eqb LIST_TAIL LIST_HEAD].
  assert (w = if w =? LIST_TAIL then LIST_TAIL else LIST_HEAD) as Hw. { unfold insert_where in Ew. repeat case_match; simplify_eq; done. }
  assert (∃ q' b ns' ls', ('(q1, li) ← quicklistGetIteratorAtIdx junk q AL_START_HEAD 0; linsert_loop junk htab alloc (S (Z.to_nat (listTypeLength q1))) q1 li pivot v w) = Some (q', b) ∧ rep q' ns' ls' ∧ same_opts q q' ∧
    match insert_near pivot v (w =? LIST_TAIL) l with Some l' => b = true ∧ concat ls' = l' | None => b = false ∧ concat ls' = l end) as (q' & b & ns' & ls' & E & HR' & Ho & Hm).
  { pose proof (iter_at_head junk htab alloc htab_u32 alloc_fresh q ns ls 0 HR ltac:(lia)) as Hi. destruct (decide (0 < zlen (concat ls))) as [Hlt|Hge].
    - destruct Hi as (q1 & it & -> & Hr1 & Hit). cbn [mbind option_bind]. change (Z.to_nat 0) with 0%nat in Hit. rewrite take_0, drop_0 in Hit.
      pose proof (rep_recoded _ _ _ _ Hr1 HR) as HR1. unfold listTypeLength, quicklistCount.
      destruct (linsert_loop_spec pivot v w (w =? LIST_TAIL) Hw (S (Z.to_nat (qcount q1))) q1 ns ls it [] (concat ls) HR1 Hit) as (q' & b & ns' & ls' & -> & HR' & Ho & Hm); [rewrite (p_count _ _ _ HR1); lia|by rewrite Ec|done|done|].
      exists q', b, ns', ls'. split; [done|]. split; [done|]. split; [etrans; [by apply recoded_opts|done]|]. by rewrite <-Ec.
    - rewrite Hi. cbn [mbind option_bind linsert_loop]. exists q, false, ns, ls. cbn. rewrite Ec in Hge. destruct l; [|simpl in Hge; lia]. done. }
  destruct (quicklistGetIteratorAtIdx junk q AL_START_HEAD 0) as [[q1 li]|]; [|done]. cbn [mbind option_bind] in *. rewrite E. cbn [mbind option_bind].
  pose proof (qrep_intro q l q' ns' ls' Hq Ho HR') as Hq'. unfold listTypeLength, quicklistCount.
  destruct (insert_near pivot v (w =? LIST_TAIL) l) as [l'|] eqn:En; destruct Hm as [-> Ec']; injection Ha as <- <- <- <-; rewrite Ec' in Hq'.
  - pose proof (insert_near_length _ _ _ _ _ En) as Hlen.
    rewrite (qrep_length _ _ Hq'), Hlen. eexists. split; [done|]. by apply db_rel_insert.
  - eexists. split; [done|]. by eapply db_rel_same.
Qed.

(** ** Reading and replacing by index *)

Lemma llen_refines h a key : lists_rep h a → refines (run_lcmd junk htab alloc list_max_ziplist_size list_compress_depth h (LLen key)) (a_lcmd a (LLen key)).
Proof. intros Hr. apply lookup_refines; [done|]. intros q l E1 E2 Hq. unfold listTypeLength, quicklistCount. rewrite (qrep_length _ _ Hq). by apply cmd_refines_some. Qed.

(** The position of an index, as the lemmas on quicklists state it. *)
Lemma position_cases index l :
  let i := if index <? 0 then zlen l + index else index in
  (0 ≤ i < zlen l ∧ position index l = Some (Z.to_nat i)) ∨ (¬ (0 ≤ i < zlen l) ∧ position index l = None).
Proof.
  unfold position. cbv zeta. set (i := if index <? 0 then zlen l + index else index). destruct ((0 <=? i) && (i <? zlen l)) eqn:E; [left|right].
  - apply andb_true_iff in E as [?%Z.leb_le ?%Z.ltb_lt]. done.
  - split; [|done]. apply andb_false_iff in E as [?%Z.leb_gt|?%Z.ltb_ge]; lia.
Qed.

Lemma lindex_refines h a key index : lists_rep h a →
  refines (run_lcmd junk htab alloc list_max_ziplist_size list_compress_depth h (LIndex key index)) (a_lcmd a (LIndex key index)).
Proof.
  intros Hr. apply lookup_refines; [done|]. intros q l E1 E2 Hq. apply long_refines; [done|]. intros idx Hidx a' r es d.
  destruct (Z.eqb_spec idx (- 2 ^ 63)) as [|Hmin]; [done|]. intros [= <- <- <- <-]. pose proof Hq as (ns & ls & HR & <- & Ecp).
  pose proof (ql_index_spec junk htab alloc htab_u32 alloc_fresh q ns ls idx HR ltac:(unfold in_s in Hidx; lia)) as H. cbv zeta in H.
  destruct (position_cases idx (concat ls)) as [[Hi ->]|[Hi ->]]; [rewrite decide_True in H by done|rewrite decide_False in H by done]; cbn [mbind option_bind].
  - destruct H as (q' & e & A & b & B & la & lx & lb & j & -> & Hrec & _ & (_ & -> & _) & (n & z & p & s & _ & _ & _ & _ & Hs & _ & _ & Ev) & E & Hj & _). cbn [mbind option_bind]. rewrite Ev, text_stored. cbn [mbind option_bind].
    assert (concat (la ++ lx :: lb) !! Z.to_nat (if idx <? 0 then zlen (concat (la ++ lx :: lb)) + idx else idx) = Some s) as ->.
    { rewrite E, concat_app. cbn [concat]. replace (Z.to_nat (zlen (concat la) + Z.of_nat j)) with (length (concat la) + j)%nat by lia. rewrite lookup_app_r by lia. rewrite Nat.add_sub', lookup_app_l by done. done. }
    eexists. split; [done|]. eapply db_rel_same; [done|done|]. eapply qrep_intro; [done|by apply recoded_opts|by eapply rep_recoded].
  - rewrite H. cbn [mbind option_bind]. eexists. split; [done|]. by eapply db_rel_same.
Qed.

Lemma lset_refines h a key index v : lists_rep h a →
  refines (run_lcmd junk htab alloc list_max_ziplist_size list_compress_depth h (LSet key index v)) (a_lcmd a (LSet key index v)).
Proof.
  intros Hr. apply lookup_refines; [done|]. intros q l E1 E2 Hq. apply long_refines; [done|]. intros idx Hidx a' r es d.
  destruct (Z.eqb_spec idx (- 2 ^ 63)) as [|Hmin]; [done|]. destruct (fits_list (v :: l)) eqn:Ef; [|done]. cbn [orb negb]. apply fits_list_spec in Ef as [[Hv Hbl]%Forall_cons Hs].
  intros Ha. injection Ha as Ha. pose proof Hq as (ns & ls & HR & <- & Ecp).
  pose proof (replace_spec junk htab alloc htab_u32 alloc_fresh q ns ls idx v HR ltac:(unfold in_s in Hidx; lia) Hs Hv) as H. cbv zeta in H.
  destruct (position_cases idx (concat ls)) as [[Hi Ep]|[Hi Ep]]; rewrite Ep in Ha; injection Ha as <- <- <- <-; [rewrite decide_True in H by done|rewrite decide_False in H by done].
  - destruct H as (q' & ns' & ls' & -> & HR' & Ec & Ho). cbn [mbind option_bind]. eexists. split; [done|]. apply db_rel_insert; [done|]. rewrite <-Ec. by eapply qrep_intro.
  - rewrite H. cbn [mbind option_bind]. eexists. split; [done|]. by eapply db_rel_same.
Qed.

(** ** Popping *)

Lemma pop_spec q l where_ :
  qrep q l → head_raw q → tail_raw q →
  match (if where_ =? LIST_HEAD then head l else last l) with
  | None => l = [] ∧ listTypePop junk htab q where_ = Some (q, None)
  | Some v => ∃ q', listTypePop junk htab q where_ = Some (q', Some v) ∧ qrep q' (if where_ =? LIST_HEAD then tail l else removelast l) ∧ ((where_ =? LIST_HEAD) = false → head_raw q')
  end.
Proof.
  intros Hq Hh Ht. pose proof Hq as (ns & ls & HR & <- & Ecp). unfold listTypePop. destruct (where_ =? LIST_HEAD).
  - pose proof (pop_head_spec junk htab alloc htab_u32 alloc_fresh q ns ls HR Hh) as H. destruct (concat ls) as [|s L] eqn:E; cbn [head tail].
    + by rewrite H.
    + destruct H as (q' & ns' & ls' & -> & HR' & Ec & Ho). cbn [mbind option_bind]. rewrite text_stored. exists q'. split; [done|]. split; [|done]. rewrite <-Ec. by eapply qrep_intro.
  - destruct (pop_tail_spec junk htab alloc htab_u32 alloc_fresh q ns ls HR Ht) as [[-> ->]|(L & s & q' & ns' & ls' & -> & -> & HR' & Ec & Ho & Hhr)]; [done|]. rewrite last_snoc. cbn [mbind option_bind]. rewrite text_stored.
    exists q'. split; [done|]. rewrite removelast_last. split; [|auto]. rewrite <-Ec. by eapply qrep_intro.
Qed.

Lemma length_zero q l : qrep q l → (listTypeLength q =? 0) = bool_decide (l = []).
Proof. intros Hq. unfold listTypeLength, quicklistCount. rewrite (qrep_length _ _ Hq). by destruct l. Qed.

Lemma lpop_refines h a key where_ : lists_rep h a → ends_raw h →
  refines (run_lcmd junk htab alloc list_max_ziplist_size list_compress_depth h (LPop key where_)) (a_lcmd a (LPop key where_)).
Proof.
  intros Hr He. apply lookup_refines; [done|]. intros q l E1 E2 Hq a' r es d Ha. destruct (He key q E1) as [Hh Ht]. pose proof (pop_spec q l where_ Hq Hh Ht) as H.
  destruct (if where_ =? LIST_HEAD then head l else last l) as [v|].
  - destruct H as (q' & -> & Hq' & _). cbn [mbind option_bind]. injection Ha as <- <- <- <-. pose proof (lists_rep_put h a key q' _ Hr Hq') as Hput. rewrite (length_zero _ _ Hq') in *.
    destruct (bool_decide ((if where_ =? LIST_HEAD then tail l else removelast l) = [])); by eexists.
  - destruct H as [-> ->]. cbn [mbind option_bind]. injection Ha as <- <- <- <-. eexists. split; [done|]. by eapply db_rel_same.
Qed.

Lemma rpoplpush_refines h a src dst : lists_rep h a → ends_raw h →
  refines (run_lcmd junk htab alloc list_max_ziplist_size list_compress_depth h (RPopLPush src dst)) (a_lcmd a (RPopLPush src dst)).
Proof.
  intros Hr He. apply lookup_refines; [done|]. intros q l E1 E2 Hq a' r es d. destruct (He src q E1) as [Hh Ht]. pose proof (pop_spec q l LIST_TAIL Hq Hh Ht) as H. cbn [Z.eqb LIST_TAIL LIST_HEAD] in H.
  rewrite (length_zero _ _ Hq). destruct (last l) as [v|] eqn:El.
  2: { destruct H as [-> _]. rewrite bool_decide_eq_true_2 by done. intros [= <- <- <- <-]. by exists h. }
  rewrite (bool_decide_eq_false_2 (l = [])) by (intros E; by rewrite E in El). destruct H as (q' & Ep & Hq' & Hhr). specialize (Hhr eq_refl). set (l' := removelast l) in *.
  assert (∀ o lo (hd : option (dbval quicklist)), qrep o lo → head_raw o → (if bool_decide (src = dst) then o = q' ∧ lo = l' else True) →
    (match match hd with Some (VObj d) => Some (if bool_decide (src = dst) then q' else d) | _ => None end with Some o => o | None => create end) = o → fits_list (v :: lo) = true →
    ∃ h', ('(sobj, value) ← listTypePop junk htab q LIST_TAIL; value ← value;
        let same := bool_decide (src = dst) in
        let dobj := match hd with Some (VObj d) => Some (if same then sobj else d) | _ => None end in
        '(d, effects) ← rpoplpushHandlePush junk htab alloc list_max_ziplist_size list_compress_depth dst dobj value;
        let sobj := if same then d else sobj in
        let h := <[dst := VObj d]> (<[src := VObj sobj]> h) in
        Some (if listTypeLength sobj =? 0 then (delete src h, RBulk value, effects ++ [Notify "rpop" src; Notify "del" src; Signal src], 1)
              else (h, RBulk value, effects ++ [Notify "rpop" src; Signal src], 1))) =
      Some (h', RBulk v, [Signal dst; Notify "lpush" dst; Notify "rpop" src] ++ (if negb (bool_decide (src = dst)) && bool_decide (l' = []) then [Notify "del" src] else []) ++ [Signal src], 1) ∧
      lists_rep h' (<[dst := VObj (v :: lo)]> (put_list a src l'))) as Hgo.
  { intros o lo hd Hqo Hro Hsame Eo Hf. apply fits_list_spec in Hf as [[Hv _]%Forall_cons Hs]. rewrite Ep. cbn [mbind option_bind]. cbv zeta. unfold rpoplpushHandlePush. fold create. rewrite Eo.
    destruct (qpush_spec o lo v LIST_HEAD Hqo Hs Hv Hro) as (d' & -> & Hqd & _). cbn [mbind option_bind Z.eqb LIST_HEAD] in *. case_bool_decide as Hsd.
    - destruct Hsame as [-> ->]. subst dst. rewrite (length_zero _ _ Hqd). cbn [bool_decide decide negb andb]. eexists. split; [done|]. rewrite insert_insert_eq.
      replace (<[src := VObj (v :: l')]> (put_list a src l')) with (<[src := VObj (v :: l')]> a); [by apply db_rel_insert|]. destruct l'; cbn [put_list]; [by rewrite insert_delete_eq|by rewrite insert_insert_eq].
    - rewrite (length_zero _ _ Hq'). cbn [negb andb]. pose proof (lists_rep_put h a src q' l' Hr Hq') as Hput. rewrite (length_zero _ _ Hq') in Hput. destruct (bool_decide (l' = [])).
      + eexists. split; [done|]. rewrite delete_insert_ne, delete_insert_eq by done. by apply db_rel_insert.
      + eexists. split; [done|]. by apply db_rel_insert. }
  destruct (db_rel_cases qrep h a dst Hr) as [[D1 D2]|[(o & lo & D1 & D2 & Hqo)|(x & D1 & D2)]]; rewrite D1, D2.
  3:{ intros [= <- <- <- <-]. by exists h. }
  - cbv zeta. cbn iota. destruct (fits_list [v]) eqn:Ef; [|done]. intros [= <- <- <- <-]. destruct create_raw. apply (Hgo create [] None); try done; [apply qrep_create|]. rewrite bool_decide_eq_false_2 by (intros ->; congruence). done.
  - cbv zeta. cbn iota. destruct (fits_list (v :: (if bool_decide (src = dst) then l' else lo))) eqn:Ef; [|done]. intros [= <- <- <- <-]. destruct (He dst o D1) as [Hho _].
    apply (Hgo (if bool_decide (src = dst) then q' else o) (if bool_decide (src = dst) then l' else lo) (Some (VObj o))); try done; by case_bool_decide.
Qed.

(** ** Ranges *)

Lemma range_start_eq start llen : range_start start llen = Z.max 0 (if start <? 0 then llen + start else start).
Proof. unfold range_start. repeat case_match; lia. Qed.

(** What the code takes of a list. *)
Lemma sublist_cases start end_ l :
  let s := range_start start (zlen l) in let e := range_end end_ (zlen l) in
  if (e <? s) || (zlen l <=? s) then sublist start end_ l = []
  else let e := if zlen l <=? e then zlen l - 1 else e in
    sublist start end_ l = take (Z.to_nat (e - s + 1)) (drop (Z.to_nat s) l) ∧ 0 ≤ s ≤ e ∧ e < zlen l.
Proof.
  cbv zeta. unfold sublist, range_end. cbv zeta. rewrite range_start_eq. set (s := Z.max 0 _). set (e := if end_ <? 0 then _ else _). destruct ((e <? s) || (zlen l <=? s)) eqn:E.
  - apply drop_ge. rewrite length_take. apply orb_true_iff in E as [?%Z.ltb_lt|?%Z.leb_le]; lia.
  - apply orb_false_iff in E as [?%Z.ltb_ge ?%Z.leb_gt]. rewrite take_drop_commute. destruct (Z.leb_spec (zlen l) e).
    + split; [|lia]. f_equal. rewrite !take_ge by lia. done.
    + split; [|lia]. do 2 f_equal. lia.
Qed.

Lemma lrange_loop_spec n : ∀ q ns ls it pre post,
  rep q ns ls → fwd q ns ls it pre post → (n ≤ length post)%nat → ∃ q', lrange_loop junk htab n q (Some it) = Some (q', take n post) ∧ recoded q q'.
Proof.
  induction n as [|n IH]; intros q ns ls it pre post HR Hit Hn; [by exists q|]. cbn [lrange_loop]. unfold listTypeNext.
  destruct (ql_next_forward junk htab alloc htab_u32 alloc_fresh q ns ls it pre post HR Hit) as (q1 & it1 & r & -> & Hr1 & Hd1 & Hm). cbn [mbind option_bind].
  pose proof (rep_recoded _ _ _ _ Hr1 HR) as HR1. destruct post as [|s post]; [simpl in Hn; lia|]. destruct Hm as (e & -> & Hre). cbn [default]. unfold listTypeGet.
  pose proof (reached_fwd junk htab alloc htab_u32 alloc_fresh _ _ _ _ _ _ _ _ Hd1 Hre) as Hf. destruct Hre as (A & a & B & la & l & lb & j & _ & (? & ? & ? & s' & _ & _ & _ & _ & Hs' & _ & _ & Ev) & Hs & _).
  rewrite Hs in Hs'. injection Hs' as <-. cbn [from_option id]. rewrite Ev, text_stored. cbn [mbind option_bind]. destruct (IH q1 ns ls it1 _ post HR1 Hf) as (q' & -> & Hr'); [simpl in Hn; lia|]. exists q'. split; [done|by etrans].
Qed.

Lemma lrange_refines h a key start end_ : lists_rep h a →
  refines (run_lcmd junk htab alloc list_max_ziplist_size list_compress_depth h (LRange key start end_)) (a_lcmd a (LRange key start end_)).
Proof.
  intros Hr. apply long_refines; [done|]. intros st _. apply long_refines; [done|]. intros en _. apply lookup_refines; [done|]. intros q l E1 E2 Hq. cbv zeta. unfold listTypeLength, quicklistCount. rewrite (qrep_length _ _ Hq).
  pose proof (sublist_cases st en l) as H. cbv zeta in H. destruct ((range_end en (zlen l) <? range_start st (zlen l)) || (zlen l <=? range_start st (zlen l))).
  - rewrite H. by apply cmd_refines_some.
  - destruct H as (-> & Hse & Hel). set (e := if zlen l <=? range_end en (zlen l) then zlen l - 1 else range_end en (zlen l)) in *. set (s := range_start st (zlen l)) in *. pose proof Hq as (ns & ls & HR & Ec & Ecp).
    unfold listTypeInitIterator. cbn [Z.eqb LIST_TAIL LIST_HEAD]. pose proof (iter_at_head junk htab alloc htab_u32 alloc_fresh q ns ls s HR ltac:(lia)) as Hi. rewrite Ec in Hi. rewrite decide_True in Hi by lia.
    destruct Hi as (q1 & it & -> & Hr1 & Hit). cbn [mbind option_bind]. pose proof (rep_recoded _ _ _ _ Hr1 HR) as HR1.
    assert (length (drop (Z.to_nat s) l) = (length l - Z.to_nat s)%nat) as Hl by apply length_drop.
    destruct (lrange_loop_spec (Z.to_nat (e - s + 1)) q1 ns ls it _ _ HR1 Hit) as (q2 & -> & Hr2); [lia|]. cbn [mbind option_bind].
    rewrite (length_take (drop (Z.to_nat s) l)), Hl. replace (Z.of_nat (Z.to_nat (e - s + 1) `min` (length l - Z.to_nat s))) with (e - s + 1) by lia.
    apply cmd_refines_some. eapply db_rel_same; [done|done|]. rewrite <-Ec. assert (recoded q q2) as Hrr by by etrans. eapply qrep_intro; [done|by apply recoded_opts|by eapply rep_recoded].
Qed.

(** The two ways LTRIM deletes. *)
Lemma qdel_front q l n : qrep q l → 0 ≤ n ≤ zlen l → ∃ q' b, quicklistDelRange junk htab q 0 n = Some (q', b) ∧ qrep q' (drop (Z.to_nat n) l).
Proof.
  intros Hq Hn. destruct (decide (n = 0)) as [->|Hn0]; [exists q, false; done|]. pose proof Hq as (ns & ls & HR & <- & Ecp). pose proof (rep_count _ _ _ HR) as Hb. rewrite (p_count _ _ _ HR) in Hb.
  pose proof (del_range_spec junk htab alloc htab_u32 alloc_fresh q ns ls 0 n HR ltac:(lia) ltac:(lia)) as H. cbv zeta in H. cbn [Z.ltb Z.compare] in H. rewrite decide_True in H by lia.
  destruct H as (q' & ns' & ls' & -> & HR' & Ec & Ho). exists q', true. split; [done|]. rewrite Z.add_0_l in Ec. change (Z.to_nat 0) with 0%nat in Ec. rewrite take_0 in Ec. cbn [app] in Ec. rewrite <-Ec. by eapply qrep_intro.
Qed.

Lemma qdel_back q l n : qrep q l → 0 ≤ n ≤ zlen l → ∃ q' b, quicklistDelRange junk htab q (- n) n = Some (q', b) ∧ qrep q' (take (Z.to_nat (zlen l - n)) l).
Proof.
  intros Hq Hn. destruct (decide (n = 0)) as [->|Hn0]; [exists q, false; split; [done|]; by rewrite take_ge by lia|]. pose proof Hq as (ns & ls & HR & <- & Ecp). pose proof (rep_count _ _ _ HR) as Hb. rewrite (p_count _ _ _ HR) in Hb.
  pose proof (del_range_spec junk htab alloc htab_u32 alloc_fresh q ns ls (- n) n HR ltac:(lia) ltac:(lia)) as H. cbv zeta in H. rewrite (proj2 (Z.ltb_lt _ _)) in H by lia. rewrite decide_True in H by lia.
  destruct H as (q' & ns' & ls' & -> & HR' & Ec & Ho). exists q', true. split; [done|]. rewrite (drop_ge _ (Z.to_nat (_ + n))) in Ec by lia. rewrite app_nil_r in Ec. rewrite Z.add_opp_r in Ec. rewrite <-Ec. by eapply qrep_intro.
Qed.

Lemma ltrim_refines h a key start end_ : lists_rep h a →
  refines (run_lcmd junk htab alloc list_max_ziplist_size list_compress_depth h (LTrim key start end_)) (a_lcmd a (LTrim key start end_)).
Proof.
  intros Hr. apply long_refines; [done|]. intros st _. apply long_refines; [done|]. intros en _. apply lookup_refines; [done|]. intros q l E1 E2 Hq. cbv zeta.
  assert (listTypeLength q = zlen l) as -> by by apply qrep_length.
  pose proof (sublist_cases st en l) as H. cbv zeta in H.
  assert (∃ lt rt, (if (range_end en (zlen l) <? range_start st (zlen l)) || (zlen l <=? range_start st (zlen l)) then (zlen l, 0)
      else (range_start st (zlen l), zlen l - (if zlen l <=? range_end en (zlen l) then zlen l - 1 else range_end en (zlen l)) - 1)) = (lt, rt) ∧ 0 ≤ lt ∧ 0 ≤ rt ∧ lt + rt ≤ zlen l ∧
      sublist st en l = take (Z.to_nat (zlen l - lt - rt)) (drop (Z.to_nat lt) l)) as (lt & rt & E & Hlt & Hrt & Hsum & Hsub).
  { destruct ((range_end en (zlen l) <? range_start st (zlen l)) || (zlen l <=? range_start st (zlen l))); eexists _, _; (split; [done|]).
    - rewrite H. split_and!; try lia. rewrite drop_ge by lia. by rewrite take_nil.
    - destruct H as (-> & Hse & Hel). split_and!; try lia. f_equal. lia. }
  rewrite E. destruct (qdel_front q l lt Hq ltac:(lia)) as (q1 & b1 & -> & Hq1). cbn [mbind option_bind]. destruct (qdel_back q1 _ rt Hq1) as (q2 & b2 & -> & Hq2); [rewrite length_drop; lia|]. cbn [mbind option_bind].
  rewrite length_drop in Hq2. replace (Z.of_nat (length l - Z.to_nat lt) - rt) with (zlen l - lt - rt) in Hq2 by lia. rewrite <-Hsub in Hq2.
  intros a' r es d [= <- <- <- <-]. pose proof (lists_rep_put h a key q2 _ Hr Hq2) as Hput. rewrite (length_zero _ _ Hq2) in *. destruct (bool_decide (sublist st en l = [])); by eexists.
Qed.

(** ** Removing values *)

(** How many of [n] strings may still be removed. *)
Definition left_to (toremove removed : Z) (k n : nat) : Prop := (toremove = 0 ∧ (n ≤ k)%nat) ∨ (toremove ≠ 0 ∧ (0 < k)%nat ∧ Z.of_nat k = toremove - removed).

Lemma left_to_S toremove removed k n : left_to toremove removed k (S n) → ∃ k', k = S k' ∧
  if negb (toremove =? 0) && (removed + 1 =? toremove) then k' = 0%nat else left_to toremove (removed + 1) k' n.
Proof.
  intros H. destruct k as [|k]; [exfalso; destruct H as [[? ?]|(? & ? & ?)]; lia|]. exists k. split; [done|]. unfold left_to in *.
  destruct (Z.eqb_spec toremove 0), (Z.eqb_spec (removed + 1) toremove); cbn; lia.
Qed.

Lemma left_to_le toremove removed k n n' : left_to toremove removed k n → (n' ≤ n)%nat → left_to toremove removed k n'.
Proof. unfold left_to. lia. Qed.

Lemma remove_n_0 x l : remove_n 0 x l = l.
Proof. by destruct l. Qed.

Lemma remove_n_length k x l : (length (remove_n k x l) ≤ length l)%nat.
Proof. revert k. induction l as [|s l IH]; intros [|k]; simpl; [lia..|]. case_bool_decide; simpl; [specialize (IH k)|specialize (IH (S k))]; lia. Qed.

Lemma lrem_fwd x toremove : ∀ fuel q ns ls it pre post removed k,
  rep q ns ls → fwd q ns ls it pre post → concat ls = pre ++ post → (length post < fuel)%nat → left_to toremove removed k (length post) →
  ∃ q' ns' ls', lrem_loop junk htab fuel q (Some it) x toremove removed = Some (q', removed + zlen post - zlen (remove_n k x post)) ∧ rep q' ns' ls' ∧ same_opts q q' ∧
    concat ls' = pre ++ remove_n k x post.
Proof.
  induction fuel as [|fuel IH]; intros q ns ls it pre post removed k HR Hit Ec Hf Hk; [lia|]. cbn [lrem_loop]. unfold listTypeNext.
  destruct (ql_next_forward junk htab alloc htab_u32 alloc_fresh q ns ls it pre post HR Hit) as (q1 & it1 & r & -> & Hr1 & Hd1 & Hm). cbn [mbind option_bind].
  pose proof (rep_recoded _ _ _ _ Hr1 HR) as HR1. pose proof (recoded_opts _ _ Hr1) as Ho1. destruct post as [|s post].
  { subst r. exists q1, ns, ls. replace (remove_n k x []) with ([] : list bytes) by by destruct k. split; [do 2 f_equal; simpl; lia|done]. }
  destruct Hm as (e & -> & Hre). unfold listTypeEqual. rewrite (reached_compare junk htab alloc htab_u32 alloc_fresh _ _ _ _ _ _ _ _ x Hre). cbn [mbind option_bind].
  cbn [length] in Hf. destruct (left_to_S _ _ _ _ Hk) as (k' & -> & Hk'). cbn [remove_n]. destruct (bool_decide_reflect (s = x)) as [_|_].
  - unfold listTypeDelete. cbn [mbind option_bind]. destruct (del_entry_spec junk htab alloc htab_u32 alloc_fresh q1 ns ls it1 e pre s post HR1 Hre) as (q2 & it2 & ns2 & ls2 & -> & HR2 & Ho2 & Ec2 & Hd2 & Hf2). cbn [mbind option_bind].
    rewrite Hd1 in Hf2. destruct (negb (toremove =? 0) && (removed + 1 =? toremove)).
    + subst k'. rewrite remove_n_0. exists q2, ns2, ls2. split; [do 2 f_equal; simpl; lia|]. split; [done|]. split; [by etrans|done].
    + destruct (IH q2 ns2 ls2 it2 pre post (removed + 1) k' HR2 Hf2 Ec2 ltac:(lia) Hk') as (q' & ns' & ls' & -> & HR' & Ho' & Ec'). exists q', ns', ls'.
      split; [do 2 f_equal; simpl; lia|]. split; [done|]. split; [by repeat (etrans; [done|])|done].
  - pose proof (reached_fwd junk htab alloc htab_u32 alloc_fresh _ _ _ _ _ _ _ _ Hd1 Hre) as Hf1.
    destruct (IH q1 ns ls it1 (pre ++ [s]) post removed (S k') HR1 Hf1) as (q' & ns' & ls' & -> & HR' & Ho' & Ec'); [by rewrite <-(assoc_L (++))|lia|by eapply left_to_le; [|apply Nat.le_succ_diag_r]|].
    exists q', ns', ls'. split; [do 2 f_equal; simpl; lia|]. split; [done|]. split; [by etrans|]. rewrite Ec'. by rewrite <-(assoc_L (++)).
Qed.

Lemma lrem_bwd x toremove : ∀ fuel q ns ls it pre post removed k,
  rep q ns ls → bwd q ns ls it pre post → concat ls = pre ++ post → (length pre < fuel)%nat → left_to toremove removed k (length pre) →
  ∃ q' ns' ls', lrem_loop junk htab fuel q (Some it) x toremove removed = Some (q', removed + zlen pre - zlen (remove_n k x (reverse pre))) ∧ rep q' ns' ls' ∧ same_opts q q' ∧
    concat ls' = reverse (remove_n k x (reverse pre)) ++ post.
Proof.
  induction fuel as [|fuel IH]; intros q ns ls it pre post removed k HR Hit Ec Hf Hk; [lia|]. cbn [lrem_loop]. unfold listTypeNext.
  destruct (ql_next_backward junk htab alloc htab_u32 alloc_fresh q ns ls it pre post HR Hit) as (q1 & it1 & r & -> & Hr1 & Hd1 & Hm). cbn [mbind option_bind].
  pose proof (rep_recoded _ _ _ _ Hr1 HR) as HR1. pose proof (recoded_opts _ _ Hr1) as Ho1. destruct Hm as [[-> ->]|(pre' & s & e & -> & -> & Hre)].
  { exists q1, ns, ls. rewrite reverse_nil. replace (remove_n k x []) with ([] : list bytes) by by destruct k. split; [do 2 f_equal; simpl; lia|done]. }
  unfold listTypeEqual. rewrite (reached_compare junk htab alloc htab_u32 alloc_fresh _ _ _ _ _ _ _ _ x Hre). cbn [mbind option_bind].
  rewrite length_app in Hf, Hk |- *. cbn [length] in Hf, Hk |- *. rewrite Nat.add_1_r in Hk. rewrite reverse_snoc. destruct (left_to_S _ _ _ _ Hk) as (k' & -> & Hk'). cbn [remove_n]. destruct (bool_decide_reflect (s = x)) as [_|_].
  - unfold listTypeDelete. cbn [mbind option_bind]. destruct (del_entry_spec junk htab alloc htab_u32 alloc_fresh q1 ns ls it1 e pre' s post HR1 Hre) as (q2 & it2 & ns2 & ls2 & -> & HR2 & Ho2 & Ec2 & Hd2 & Hf2). cbn [mbind option_bind].
    rewrite Hd1 in Hf2. destruct (negb (toremove =? 0) && (removed + 1 =? toremove)).
    + subst k'. rewrite remove_n_0, reverse_involutive, length_reverse. exists q2, ns2, ls2. split; [do 2 f_equal; lia|]. split; [done|]. split; [by etrans|done].
    + destruct (IH q2 ns2 ls2 it2 pre' post (removed + 1) k' HR2 Hf2 Ec2 ltac:(lia) Hk') as (q' & ns' & ls' & -> & HR' & Ho' & Ec'). exists q', ns', ls'.
      split; [do 2 f_equal; lia|]. split; [done|]. split; [by repeat (etrans; [done|])|done].
  - pose proof (reached_bwd junk htab alloc htab_u32 alloc_fresh _ _ _ _ _ _ _ _ Hd1 Hre) as Hf1.
    destruct (IH q1 ns ls it1 pre' (s :: post) removed (S k') HR1 Hf1) as (q' & ns' & ls' & -> & HR' & Ho' & Ec'); [by rewrite Ec, <-(assoc_L (++))|lia|by eapply left_to_le; [|apply Nat.le_succ_diag_r]|].
    exists q', ns', ls'. split; [do 2 f_equal; cbn [length]; lia|]. split; [done|]. split; [by etrans|]. rewrite Ec', reverse_cons. by rewrite <-(assoc_L (++)).
Qed.

(** The whole search of LREM. *)
Lemma qrem_spec q l x count : qrep q l → - 2 ^ 63 < count →
  ∃ q0 li q', listTypeInitIterator junk q (if count <? 0 then -1 else 0) (if count <? 0 then LIST_HEAD else LIST_TAIL) = Some (q0, li) ∧
    lrem_loop junk htab (S (Z.to_nat (listTypeLength q0))) q0 li x (Z.abs count) 0 = Some (q', zlen l - zlen (remove_count count x l)) ∧ qrep q' (remove_count count x l).
Proof.
  intros Hq Hc. pose proof Hq as (ns & ls & HR & Ec & Ecp). unfold listTypeInitIterator, remove_count, listTypeLength, quicklistCount. destruct (Z.ltb_spec count 0) as [Hn|Hn]; cbn [Z.eqb LIST_HEAD LIST_TAIL].
  - pose proof (iter_at_tail junk htab alloc htab_u32 alloc_fresh q ns ls (-1) HR ltac:(lia)) as Hi. rewrite Ec in Hi. case_decide as Hl.
    + destruct Hi as (q1 & it & -> & Hr1 & Hit). rewrite take_ge, drop_ge in Hit by lia. pose proof (rep_recoded _ _ _ _ Hr1 HR) as HR1.
      destruct (lrem_bwd x (Z.abs count) (S (Z.to_nat (qcount q1))) q1 ns ls it l [] 0 (Z.to_nat (- count)) HR1 Hit) as (q' & ns' & ls' & E & HR' & Ho & Ec');
        [by rewrite app_nil_r|rewrite (p_count _ _ _ HR1), Ec; lia|right; lia|]. rewrite app_nil_r in Ec'. exists q1, (Some it), q'. split; [done|]. rewrite length_reverse, E. split; [done|].
      rewrite <-Ec'. eapply qrep_intro; [done| |done]. etrans; [by apply recoded_opts|done].
    + exists q, None, q. destruct l; [|simpl in Hl; lia]. rewrite reverse_nil. replace (remove_n (Z.to_nat (- count)) x []) with ([] : list bytes) by by destruct (Z.to_nat (- count)). done.
  - pose proof (iter_at_head junk htab alloc htab_u32 alloc_fresh q ns ls 0 HR ltac:(lia)) as Hi. rewrite Ec in Hi. case_decide as Hl.
    + destruct Hi as (q1 & it & -> & Hr1 & Hit). change (Z.to_nat 0) with 0%nat in Hit. rewrite take_0, drop_0 in Hit. pose proof (rep_recoded _ _ _ _ Hr1 HR) as HR1.
      destruct (lrem_fwd x (Z.abs count) (S (Z.to_nat (qcount q1))) q1 ns ls it [] l 0 (if count =? 0 then length l else Z.to_nat count) HR1 Hit Ec) as (q' & ns' & ls' & E & HR' & Ho & Ec');
        [rewrite (p_count _ _ _ HR1), Ec; lia|unfold left_to; destruct (Z.eqb_spec count 0); lia|]. exists q1, (Some it), q'. split; [done|]. rewrite E. split; [done|].
      cbn [app] in Ec'. rewrite <-Ec'. eapply qrep_intro; [done| |done]. etrans; [by apply recoded_opts|done].
    + exists q, None, q. destruct l; [|simpl in Hl; lia]. replace (remove_n _ x []) with ([] : list bytes) by by destruct (if count =? 0 then _ else _). done.
Qed.

Lemma lrem_refines h a key count x : lists_rep h a →
  refines (run_lcmd junk htab alloc list_max_ziplist_size list_compress_depth h (LRem key count x)) (a_lcmd a (LRem key count x)).
Proof.
  intros Hr. apply long_refines; [done|]. intros c Hc. apply lookup_refines; [done|]. intros q l E1 E2 Hq. cbv zeta. unfold in_s in Hc. destruct (Z.eqb_spec c (- 2 ^ 63)) as [_|Hne]; [done|].
  destruct (qrem_spec q l x c Hq ltac:(lia)) as (q0 & li & q' & E & El & Hq').
  assert ((if c <? 0 then '(q, li) ← listTypeInitIterator junk q (-1) LIST_HEAD; Some (q, li, - c) else '(q, li) ← listTypeInitIterator junk q 0 LIST_TAIL; Some (q, li, c)) = Some (q0, li, Z.abs c)) as ->.
  { destruct (Z.ltb_spec c 0); rewrite E; cbn [mbind option_bind]; do 2 f_equal; lia. }
  cbn [mbind option_bind]. rewrite El. cbn [mbind option_bind]. intros a' r es d [= <- <- <- <-]. pose proof (lists_rep_put h a key q' _ Hr Hq') as Hput. rewrite (length_zero _ _ Hq') in *.
  destruct (bool_decide (remove_count c x l = [])); eexists; (split; [|done]); by rewrite ?app_nil_r.
Qed.

(** ** Commands *)

(** The commands that use the ends of lists without decompressing them. *)
Definition at_ends (cmd : lcmd) : bool := match cmd with LPush _ _ _ | LPushX _ _ _ | LPop _ _ | RPopLPush _ _ => true | _ => false end.

Lemma lcmd_refines h a cmd : lists_rep h a → (at_ends cmd = true → ends_raw h) → refines (run_lcmd junk htab alloc list_max_ziplist_size list_compress_depth h cmd) (a_lcmd a cmd).
Proof.
  intros Hr He. destruct cmd; [apply lpush_refines; auto|apply lpushx_refines; auto|by apply linsert_refines|by apply llen_refines|by apply lindex_refines|by apply lset_refines|apply lpop_refines; auto
    |by apply lrange_refines|by apply ltrim_refines|by apply lrem_refines|apply rpoplpush_refines; auto].
Qed.

(** Without compression all nodes are ziplists. *)
Lemma qrep_flat q l : qrep q l → compress create = 0 → head_raw q ∧ tail_raw q.
Proof.
  intros (ns & ls & HR & _ & Ec) E0. assert (∀ a, a ∈ ns → raw_at q a) as Hraw.
  { intros a (i & Hi)%list_elem_of_lookup_1. destruct (Forall2_lookup_l _ _ _ _ _ (r_nodes _ _ _ (p_reps _ _ _ HR)) Hi) as (l' & _ & n & Hn & Hh). exists n. split; [done|]. rewrite Ec, E0 in Hh. by eapply holds_flat. }
  pose proof (r_listed _ _ _ (p_reps _ _ _ HR)) as Hl. split; intros a Ha; apply Hraw.
  - rewrite (l_head _ _ Hl) in Ha. destruct ns; [done|]. injection Ha as <-. by left.
  - rewrite (l_tail _ _ Hl) in Ha. destruct ns as [|b ns] using rev_ind; [done|]. rewrite last_or_snoc in Ha. injection Ha as <-. apply elem_of_app. right. by left.
Qed.

Lemma flat_ends h a : lists_rep h a → compress create = 0 → ends_raw h.
Proof. intros Hr E0 key q Hk. destruct (db_rel_cases qrep h a key Hr) as [[E1 _]|[(q' & l & E1 & _ & Hq)|(v & E1 & _)]]; [congruence| |congruence]. assert (q' = q) as -> by congruence. by eapply qrep_flat. Qed.

End Spec.

#[export] Instance raw_dec n : Decision (raw n).
Proof. destruct (zl n) as [|z|cs] eqn:E; [right; intros [? ?]; congruence|left; by exists z|right; intros [? ?]; congruence]. Defined.

#[export] Instance raw_at_dec q a : Decision (raw_at q a).
Proof. destruct (ndata q !! a) as [n|] eqn:E; [destruct (decide (raw n)) as [H|H]; [left; by exists n|right; intros (n' & ? & ?); congruence]|right; intros (n' & ? & _); congruence]. Defined.

#[export] Instance head_raw_dec q : Decision (head_raw q).
Proof. unfold head_raw. destruct (qhead q) as [a|]; [destruct (decide (raw_at q a)); [left; by intros ? [= <-]|right; auto]|by left]. Defined.

#[export] Instance tail_raw_dec q : Decision (tail_raw q).
Proof. unfold tail_raw. destruct (qtail q) as [a|]; [destruct (decide (raw_at q a)); [left; by intros ? [= <-]|right; auto]|by left]. Defined.

Definition val_raw (v : dbval quicklist) : Prop := match v with VObj q => head_raw q ∧ tail_raw q | VOther _ => True end.

#[export] Instance val_raw_dec v : Decision (val_raw v).
Proof. destruct v; cbn; apply _. Defined.

#[export] Instance ends_raw_dec h : Decision (ends_raw h).
Proof.
  destruct (decide (map_Forall (λ _ v, val_raw v) h)) as [H|H]; [left|right].
  - intros key q Hk. exact (H key _ Hk).
  - intros He. apply H. intros key [q|] Hk; [by eapply He|done].
Defined.

Section Run.

Context (junk : nat → Z) (htab : list Z → Z → Z) (alloc : gset addr → addr) (list_max_ziplist_size list_compress_depth : Z).
Hypothesis htab_u32 : ∀ inp i, in_u 32 (htab inp i).
Hypothesis alloc_fresh : ∀ X, alloc X ∉ X.

Abbreviation run := (run_lcmds junk htab alloc list_max_ziplist_size list_compress_depth).
Abbreviation represents := (lists_rep list_max_ziplist_size list_compress_depth).

(** One more command. *)
Lemma lcmds_step h a cmd cmds a' rs :
  represents h a → (at_ends cmd = true → ends_raw h) → a_lcmds a (cmd :: cmds) = Some (a', rs) →
  ∃ h1 a1 o rs', run_lcmd junk htab alloc list_max_ziplist_size list_compress_depth h cmd = Some (h1, o.1.1, o.1.2, o.2) ∧ a_lcmd a cmd = Some (a1, o.1.1, o.1.2, o.2) ∧
    represents h1 a1 ∧ a_lcmds a1 cmds = Some (a', rs') ∧ rs = o :: rs'.
Proof.
  intros Hr He Ha. cbn [a_lcmds] in Ha. apply bind_Some in Ha as ([[[a1 r] es] d] & H1 & Ha). apply bind_Some in Ha as ([a2 rs'] & H2 & Ha). injection Ha as <- <-.
  destruct (lcmd_refines junk htab alloc _ _ htab_u32 alloc_fresh h a cmd Hr He a1 r es d H1) as (h1 & E & Hr1). by exists h1, a1, (r, es, d), rs'.
Qed.

(** C38: the lists of a database are lists of strings.  With [list-compress-depth] 0 (the
    default) and any value of [list-max-ziplist-size], any sequence of LPUSH, RPUSH, LPUSHX,
    RPUSHX, LINSERT, LLEN, LINDEX, LSET, LPOP, RPOP, LRANGE, LTRIM, LREM and RPOPLPUSH on any
    keys, the same key as source and destination included, that keeps the stated limits runs
    without a failed assertion, an access outside of memory, an overflow or a loop that does
    not end, through the splits and merges of the nodes of the quicklists, and gives the
    replies, the keyspace events, the signals of modified keys and the changes of
    [server.dirty] of the same operations on lists of strings, errors included. *)
Theorem lists_refine_lists (h : gmap bytes (dbval quicklist)) (a : lists) (cmds : list lcmd) a' rs :
  list_compress_depth = 0 → represents h a → a_lcmds a cmds = Some (a', rs) → ∃ h', run h cmds = Some (h', rs) ∧ represents h' a'.
Proof.
  intros E0. revert h a a' rs. induction cmds as [|cmd cmds IH]; intros h a a' rs Hr Ha; [injection Ha as <- <-; by exists h|].
  assert (ends_raw h) as He by (by apply (flat_ends junk htab alloc list_max_ziplist_size list_compress_depth htab_u32 alloc_fresh h a Hr); rewrite E0).
  destruct (lcmds_step h a cmd cmds a' rs Hr (λ _, He) Ha) as (h1 & a1 & [[r es] d] & rs' & E & _ & Hr1 & Ha1 & ->). cbn [run_lcmds]. rewrite E. cbn [mbind option_bind].
  destruct (IH h1 a1 a' rs' Hr1 Ha1) as (h' & -> & Hr'). by exists h'.
Qed.

(** C39: with any [list-compress-depth] a session on lists is right until a command that works
    on the ends of lists (a push or a pop) meets a list with a compressed end: either the
    whole session has the results of C38, or the commands before such a command have them and
    it runs in a database in which the first or the last node of some list is compressed. *)
Theorem lists_right_until_compressed_end (h : gmap bytes (dbval quicklist)) (a : lists) (cmds : list lcmd) a' rs :
  represents h a → a_lcmds a cmds = Some (a', rs) →
  (∃ h', run h cmds = Some (h', rs) ∧ represents h' a') ∨
  ∃ pre cmd post h1 a1 rs1, cmds = pre ++ cmd :: post ∧ a_lcmds a pre = Some (a1, rs1) ∧ run h pre = Some (h1, rs1) ∧ represents h1 a1 ∧ rs1 `prefix_of` rs ∧ at_ends cmd = true ∧ ¬ ends_raw h1.
Proof.
  revert h a a' rs. induction cmds as [|cmd cmds IH]; intros h a a' rs Hr Ha; [injection Ha as <- <-; left; by exists h|]. destruct (decide (at_ends cmd = true → ends_raw h)) as [He|He].
  - destruct (lcmds_step h a cmd cmds a' rs Hr He Ha) as (h1 & a1 & [[r es] d] & rs' & E & E' & Hr1 & Ha1 & ->). cbn [run_lcmds]. rewrite E. cbn [mbind option_bind fst snd] in *.
    destruct (IH h1 a1 a' rs' Hr1 Ha1) as [(h' & -> & Hr')|(pre & c & post & h2 & a2 & rs1 & -> & H1 & H2 & Hr2 & Hp & Hc & Hn)]; [left; by exists h'|right].
    exists (cmd :: pre), c, post, h2, a2, ((r, es, d) :: rs1). cbn [a_lcmds run_lcmds]. rewrite E, E'. cbn [mbind option_bind]. rewrite H1, H2. split_and!; try done. by apply prefix_cons.
  - right. assert (at_ends cmd = true ∧ ¬ ends_raw h) as [Hc Hn] by (destruct (at_ends cmd); [split; [done|]; intros H; by apply He|by exfalso; apply He]).
    exists [], cmd, cmds, h, a, []. split_and!; try done. apply prefix_nil.
Qed.

End Run.

(** ** Sessions *)

(** An allocator, to run the commands. *)
Definition first_gap (X : gset addr) : addr := fresh X.

Lemma first_gap_fresh X : first_gap X ∉ X.
Proof. apply is_fresh. Qed.

Lemma lists_rep_other fill depth key v : lists_rep fill depth {[key := VOther v]} {[key := VOther v]}.
Proof. intros k. destruct (decide (k = key)) as [->|Hne]; [rewrite !lookup_singleton_eq; by constructor|rewrite !lookup_singleton_ne by done; constructor]. Qed.

(** Two strings per node, so that the list has several nodes. *)
Definition demo_lists : list lcmd :=
  [LPush (str "l") [str "b"; str "a"] LIST_HEAD; LPush (str "l") [str "a"; str "c"; str "12"] LIST_TAIL; LPushX (str "m") [str "a"] LIST_HEAD;
   LInsert (str "l") (str "BEFORE") (str "b") (str "n"); LInsert (str "l") (str "after") (str "zz") (str "n"); LLen (str "l"); LIndex (str "l") (str "-1"); LIndex (str "l") (str "x");
   LSet (str "l") (str "1") (str "a"); LSet (str "l") (str "9") (str "a"); LRange (str "l") (str "0") (str "-1"); LRem (str "l") (str "-2") (str "a"); RPopLPush (str "l") (str "l");
   RPopLPush (str "l") (str "m"); LTrim (str "l") (str "1") (str "2"); LRange (str "l") (str "0") (str "-1"); LPop (str "m") LIST_TAIL; LPop (str "m") LIST_HEAD; LLen (str "s")].

Definition demo_replies : list (reply * list effect * Z) :=
  [(RInt 2, [Signal (str "l"); Notify "lpush" (str "l")], 2); (RInt 5, [Signal (str "l"); Notify "rpush" (str "l")], 3); (RInt 0, [], 0);
   (RInt 6, [Signal (str "l"); Notify "linsert" (str "l")], 1); (RInt (-1), [], 0); (RInt 6, [], 0); (RBulk (str "12"), [], 0); (notintegererr, [], 0);
   (ROk, [Signal (str "l"); Notify "lset" (str "l")], 1); (outofrangeerr, [], 0); (RMultiBulk 6 (map (Some ∘ str) ["a"; "a"; "b"; "a"; "c"; "12"]), [], 0);
   (RInt 2, [Signal (str "l"); Notify "lrem" (str "l")], 2); (RBulk (str "12"), [Signal (str "l"); Notify "lpush" (str "l"); Notify "rpop" (str "l"); Signal (str "l")], 1);
   (RBulk (str "c"), [Signal (str "m"); Notify "lpush" (str "m"); Notify "rpop" (str "l"); Signal (str "l")], 1); (ROk, [Notify "ltrim" (str "l"); Signal (str "l")], 1);
   (RMultiBulk 2 (map (Some ∘ str) ["a"; "b"]), [], 0); (RBulk (str "c"), [Notify "rpop" (str "m"); Notify "del" (str "m"); Signal (str "m")], 1); (RNullBulk, [], 0); (wrongtypeerr, [], 0)].

Lemma lists_refine_lists_witness :
  ∃ h', run_lcmds (λ _, 7) (λ _ _, 0) first_gap 2 0 {[str "s" := VOther 0]} demo_lists = Some (h', demo_replies) ∧
    lists_rep 2 0 h' {[str "l" := VObj [str "a"; str "b"]; str "s" := VOther 0]}.
Proof.
  apply (lists_refine_lists (λ _, 7) (λ _ _, 0) first_gap 2 0 ltac:(done) first_gap_fresh {[str "s" := VOther 0]} {[str "s" := VOther 0]} demo_lists); [done|apply lists_rep_other|].
  vm_compute. reflexivity.
Defined.

(** A list whose only node is compressed: the node was in the middle when LINDEX decompressed
    it, and LSET compresses it again although it is now the head and the tail. *)
Definition long_string : bytes := replicate 40 97.
Definition demo_recompress : list lcmd :=
  [LPush (str "l") (replicate 6 long_string) LIST_TAIL; LIndex (str "l") (str "2"); LTrim (str "l") (str "2") (str "3"); LSet (str "l") (str "0") long_string].

Lemma recompress_breaks_pop :
  (∃ h rs, run_lcmds (λ _, 7) (λ _ _, 0) first_gap 2 1 ∅ demo_recompress = Some (h, rs) ∧ bool_decide (ends_raw h) = false) ∧
  run_lcmds (λ _, 7) (λ _ _, 0) first_gap 2 1 ∅ (demo_recompress ++ [LPop (str "l") LIST_HEAD]) = None ∧
  (∃ a rs, a_lcmds ∅ (demo_recompress ++ [LPop (str "l") LIST_HEAD]) = Some (a, rs)).
Proof. split; [|split]; [eexists _, _; split; vm_compute; reflexivity|vm_compute; reflexivity|eexists _, _; vm_compute; reflexivity]. Qed.

Lemma lists_right_until_compressed_end_witness :
  (∃ h', run_lcmds (λ _, 7) (λ _ _, 0) first_gap 2 1 ∅ demo_recompress = Some (h', [(RInt 6, [Signal (str "l"); Notify "rpush" (str "l")], 6); (RBulk long_string, [], 0); (ROk, [Notify "ltrim" (str "l"); Signal (str "l")], 1); (ROk, [Signal (str "l"); Notify "lset" (str "l")], 1)]) ∧
    lists_rep 2 1 h' {[str "l" := VObj [long_string; long_string]]}) ∨
  ∃ pre cmd post h1 a1 rs1, demo_recompress = pre ++ cmd :: post ∧ a_lcmds ∅ pre = Some (a1, rs1) ∧ run_lcmds (λ _, 7) (λ _ _, 0) first_gap 2 1 ∅ pre = Some (h1, rs1) ∧ lists_rep 2 1 h1 a1 ∧
    rs1 `prefix_of` [(RInt 6, [Signal (str "l"); Notify "rpush" (str "l")], 6); (RBulk long_string, [], 0); (ROk, [Notify "ltrim" (str "l"); Signal (str "l")], 1); (ROk, [Signal (str "l"); Notify "lset" (str "l")], 1)] ∧ at_ends cmd = true ∧ ¬ ends_raw h1.
Proof.
  apply (lists_right_until_compressed_end (λ _, 7) (λ _ _, 0) first_gap 2 1 ltac:(done) first_gap_fresh ∅ ∅ demo_recompress).
  - intros k. constructor.
  - vm_compute. reflexivity.
Defined.

(** ** Cases in which a quicklist is not what its comments promise *)

Definition pushes (fill depth : Z) (l : list bytes) : option quicklist :=
  foldl (λ q v, q ← q; quicklistPush (λ _, 7) (λ _ _, 0) first_gap q v QUICKLIST_TAIL) (Some (quicklistNew fill depth)) l.

(** A range that starts inside of a node and is shorter than the node, but goes past its end:
    one string is deleted and the counters decrease by two. *)
Lemma del_range_miscounts : ∃ q q', pushes 3 0 (map str ["a"; "b"; "c"; "d"; "e"; "f"]) = Some q ∧ quicklistDelRange (λ _, 7) (λ _ _, 0) q 2 2 = Some (q', true) ∧ qcount q' = 4 ∧
  map (λ x, (ncount x.2, snd <$> (ziplist_of x.2 ≫= ziplistLen))) (map_to_list (ndata q')) = [(3, Some 3); (1, Some 2)].
Proof. eexists _, _. split; [vm_compute; reflexivity|]. split; [vm_compute; reflexivity|]. split; vm_compute; reflexivity. Qed.

(** With four nodes and a depth of two no node is beyond the depth, but a replacement leaves
    two of them compressed. *)
Lemma depth_two_compresses : ∃ q q', pushes 2 2 (replicate 8 long_string) = Some q ∧ quicklistReplaceAtIndex (λ _, 7) (λ _ _, 0) q 0 long_string = Some (q', true) ∧ qlen q' = 4 ∧
  length (filter (λ n, ¬ raw n) (map snd (map_to_list (ndata q')))) = 2%nat.
Proof. eexists _, _. split; [vm_compute; reflexivity|]. split; [vm_compute; reflexivity|]. split; vm_compute; reflexivity. Qed.
