(* ===== verification/Keyspace.v ===== *)
(** The keys of a database: string objects with reference counts (object.c), the functions on
    the table of keys and the table of expires (db.c, lazyfree.c) and what expires a key
    (expire.c).

    String objects are on a heap and the table of keys holds pointers to them, so that the
    reference counts and the changes of an object in place are part of the model; the small
    integers that are shared by the whole server have a count that does not change.  Values of
    other types are opaque.  A function is a computation on the state that may fail: [None] is a
    failed assertion, a panic, a dangling pointer or the overflow of a signed integer.  Cluster
    mode, the access times of objects and the statistics are not part of this model. *)

From stdpp Require Import list numbers strings gmap.
From S2P Require Import Prelude Util Glob SdsText Object.

(** ** Objects *)

Inductive encoding := ERaw (s : bytes) | EEmbstr (s : bytes) | EInt (n : Z).
Record robj := Robj { enc : encoding; refcount : Z }.

Inductive other_type := TList | TSet | TZset | THash | TStream.

(** A pointer to an object: a shared integer, a string on the heap, or a value of another type. *)
Inductive oref := OShared (n : Z) | OPtr (a : Z) | OOther (t : other_type) (id : Z).

Definition OBJ_SHARED_INTEGERS : Z := 10000.
Definition OBJ_SHARED_REFCOUNT : Z := 2 ^ 31 - 1.
Definition OBJ_ENCODING_EMBSTR_SIZE_LIMIT : Z := 44.
Definition UNIT_SECONDS : Z := 0.
Definition UNIT_MILLISECONDS : Z := 1.

(** What the server does besides the reply: signals and notifications, a command that is
    propagated to the replicas and the log, a key that clients may be blocked on, a command
    that is rewritten before it is propagated. *)
Inductive kevent :=
  | Eff (e : effect)
  | Propagate (cmd : string) (key : bytes)
  | Ready (key : bytes)
  | Rewrite (cmd : string) (key : bytes)
  | Flushed.

Record db := Db {
  keys : gmap bytes oref;
  expires : gmap bytes Z;
  heap : gmap Z robj;
  dirty : Z;
  events : list kevent;
}.

(** The part of the configuration and of the state of the server that the functions read.
    [no_shared_integers]: [maxmemory] is set with a policy that needs access times.
    [readonly_client]: the command is a read only one of a client that is not the master. *)
Record config := Config {
  masterhost : bool;
  loading : bool;
  readonly_client : bool;
  lazyfree_lazy_expire : bool;
  lazyfree_lazy_server_del : bool;
  no_shared_integers : bool;
}.

(** The times a command reads: [server.mstime], which does not change during a command, the
    start of a script, and two readings of [mstime()]. *)
Record clock := Clock { server_mstime : Z; lua_time_start : option Z; fixed_time_expire : Z; mstime1 : Z; mstime2 : Z }.

(** ** Computations *)

Definition M (A : Type) : Type := db → option (A * db).

#[export] Instance M_ret : MRet M := λ A x s, Some (x, s).
#[export] Instance M_bind : MBind M := λ A B f m s, '(x, s) ← m s; f x s.

Definition lift {A} (o : option A) : M A := λ s, x ← o; Some (x, s).
Definition gets {A} (f : db → A) : M A := λ s, Some (f s, s).
Definition modify (f : db → db) : M () := λ s, Some (tt, f s).
Definition serverAssert (b : bool) : M () := λ s, if b then Some (tt, s) else None.

Definition set_keys (m : gmap bytes oref) (s : db) : db := Db m (expires s) (heap s) (dirty s) (events s).
Definition set_expires (m : gmap bytes Z) (s : db) : db := Db (keys s) m (heap s) (dirty s) (events s).
Definition set_heap (h : gmap Z robj) (s : db) : db := Db (keys s) (expires s) h (dirty s) (events s).
Definition set_dirty (d : Z) (s : db) : db := Db (keys s) (expires s) (heap s) d (events s).
Definition set_events (l : list kevent) (s : db) : db := Db (keys s) (expires s) (heap s) (dirty s) l.

Definition put_obj (a : Z) (o : robj) : M () := modify (λ s, set_heap (<[a := o]> (heap s)) s).
Definition log (e : kevent) : M () := modify (λ s, set_events (events s ++ [e]) s).
Definition notifyKeyspaceEvent (event : string) (key : bytes) : M () := log (Eff (Notify event key)).
Definition signalModifiedKey (key : bytes) : M () := log (Eff (Signal key)).
Definition add_dirty (n : Z) : M () := modify (λ s, set_dirty (dirty s + n) s).

(** A [long long] that must not overflow. *)
Definition ll (z : Z) : option Z := if decide (in_s 64 z) then Some z else None.

Section Keyspace.

Context (junk : nat → Z) (alloc : gset Z → Z) (cfg : config) (ck : clock).

(** ** Objects *)

(** [*o]; a value of another type has no string. *)
Definition deref (r : oref) : M robj :=
  match r with
  | OShared n => mret (Robj (EInt n) OBJ_SHARED_REFCOUNT)
  | OPtr a => o ← gets (λ s, heap s !! a); lift o
  | OOther _ _ => lift None
  end.

Definition createObject (e : encoding) : M oref := λ s,
  let a := alloc (dom (heap s)) in Some (OPtr a, set_heap (<[a := Robj e 1]> (heap s)) s).
Definition createRawStringObject (s : bytes) : M oref := createObject (ERaw s).
Definition createEmbeddedStringObject (s : bytes) : M oref := createObject (EEmbstr s).
Definition createStringObject (s : bytes) : M oref :=
  if zlen s <=? OBJ_ENCODING_EMBSTR_SIZE_LIMIT then createEmbeddedStringObject s else createRawStringObject s.

(** The counts of values of other types are not part of the model. *)
Definition incrRefCount (r : oref) : M () :=
  match r with
  | OPtr a =>
      o ← deref r;
      if refcount o =? OBJ_SHARED_REFCOUNT then mret tt else put_obj a (Robj (enc o) (refcount o + 1))
  | _ => mret tt
  end.

Definition decrRefCount (r : oref) : M () :=
  match r with
  | OPtr a =>
      o ← deref r;
      if refcount o =? 1 then modify (λ s, set_heap (delete a (heap s)) s)
      else
        serverAssert (negb (refcount o <=? 0));;
        if refcount o =? OBJ_SHARED_REFCOUNT then mret tt else put_obj a (Robj (enc o) (refcount o - 1))
  | _ => mret tt
  end.

(** [o->ptr] used as an sds string. *)
Definition sds_of (r : oref) : M bytes := o ← deref r; lift (match enc o with ERaw s | EEmbstr s => Some s | EInt _ => None end).

(** What a reply prints of a string object. *)
Definition string_of (r : oref) : M bytes := o ← deref r; lift (match enc o with ERaw s | EEmbstr s => Some s | EInt n => ll_text junk 32 n end).

Definition is_string (r : oref) : bool := match r with OOther _ _ => false | _ => true end.

Definition createStringObjectFromLongLongForValue (value : Z) : M oref :=
  if (0 <=? value) && (value <? OBJ_SHARED_INTEGERS) && negb (no_shared_integers cfg) then mret (OShared value)
  else createObject (EInt value).

(** The free space that the last case may remove is not part of the contents of a string. *)
Definition tryObjectEncoding (r : oref) : M oref :=
  o ← deref r;
  let encode (s : bytes) (raw : bool) : M oref :=
    if 1 <? refcount o then mret r
    else
      v ← (if zlen s <=? 20 then lift (string2l s (zlen s)) else mret None);
      match v with
      | Some value =>
          if negb (no_shared_integers cfg) && (0 <=? value) && (value <? OBJ_SHARED_INTEGERS) then decrRefCount r;; mret (OShared value)
          else if raw then match r with OPtr a => put_obj a (Robj (EInt value) (refcount o)) | _ => lift None end;; mret r
          else decrRefCount r;; createStringObjectFromLongLongForValue value
      | None =>
          if zlen s <=? OBJ_ENCODING_EMBSTR_SIZE_LIMIT then
            if raw then emb ← createEmbeddedStringObject s; decrRefCount r;; mret emb else mret r
          else mret r
      end in
  match enc o with
  | ERaw s => encode s true
  | EEmbstr s => encode s false
  | EInt _ => mret r
  end.

Definition getDecodedObject (r : oref) : M oref :=
  o ← deref r;
  match enc o with
  | EInt n => t ← lift (ll_text junk 32 n); createStringObject t
  | _ => incrRefCount r;; mret r
  end.

Definition stringObjectLen (r : oref) : M Z :=
  o ← deref r; lift (match enc o with ERaw s | EEmbstr s => Some (zlen s) | EInt n => sdigits10 n end).

(** NULL counts as 0; [None]: C_ERR. *)
Definition getLongLongFromObject (r : option oref) : M (option Z) :=
  match r with
  | None => mret (Some 0)
  | Some r => o ← deref r; match enc o with ERaw s | EEmbstr s => lift (string2ll s (zlen s)) | EInt n => mret (Some n) end
  end.

(** ** The tables *)

Definition lookupKey (key : bytes) : M (option oref) := gets (λ s, keys s !! key).

(** -1 when there is none. *)
Definition getExpire (key : bytes) : M Z := λ s,
  match expires s !! key with
  | Some when => if bool_decide (is_Some (keys s !! key)) then Some (when, s) else None
  | None => Some (-1, s)
  end.

Definition removeExpire (key : bytes) : M bool := λ s,
  if bool_decide (is_Some (keys s !! key)) then Some (bool_decide (is_Some (expires s !! key)), set_expires (delete key (expires s)) s) else None.

(** A replica that accepts writes also remembers the key. *)
Definition setExpire (key : bytes) (when : Z) : M () := λ s,
  if bool_decide (is_Some (keys s !! key)) then Some (tt, set_expires (<[key := when]> (expires s)) s) else None.

(** [dictDelete] on the table of keys, which releases the value. *)
Definition dictDelete (key : bytes) : M bool :=
  o ← lookupKey key;
  match o with
  | Some r => modify (λ s, set_keys (delete key (keys s)) s);; decrRefCount r;; mret true
  | None => mret false
  end.

Definition dbSyncDelete (key : bytes) : M bool :=
  modify (λ s, set_expires (delete key (expires s)) s);;
  dictDelete key.

(** A value that is large enough is released by another thread. *)
Definition dbAsyncDelete (key : bytes) : M bool :=
  modify (λ s, set_expires (delete key (expires s)) s);;
  o ← lookupKey key;
  match o with
  | Some r => modify (λ s, set_keys (delete key (keys s)) s);; decrRefCount r;; mret true
  | None => mret false
  end.

Definition dbDelete (key : bytes) : M bool := if lazyfree_lazy_server_del cfg then dbAsyncDelete key else dbSyncDelete key.

(** ** Expired keys *)

Definition propagateExpire (key : bytes) (lazy : bool) : M () := log (Propagate (if lazy then "unlink" else "del") key).

(** The time that decides whether a key is expired. *)
Definition expire_now : Z :=
  match lua_time_start ck with Some t => t | None => if 0 <? fixed_time_expire ck then server_mstime ck else mstime1 ck end.

Definition keyIsExpired (key : bytes) : M bool :=
  when ← getExpire key;
  mret (if when <? 0 then false else if loading cfg then false else when <? expire_now).

Definition expireIfNeeded (key : bytes) : M bool :=
  e ← keyIsExpired key;
  if negb e then mret false
  else if masterhost cfg then mret true
  else
    propagateExpire key (lazyfree_lazy_expire cfg);;
    notifyKeyspaceEvent "expired" key;;
    if lazyfree_lazy_expire cfg then dbAsyncDelete key else dbSyncDelete key.

(** An entry of the table of expires that the expire cycle has sampled. *)
Definition activeExpireCycleTryExpire (key : bytes) (now : Z) : M bool :=
  t ← gets (λ s, expires s !! key);
  t ← lift t;
  if t <? now then
    propagateExpire key (lazyfree_lazy_expire cfg);;
    (if lazyfree_lazy_expire cfg then dbAsyncDelete key else dbSyncDelete key);;
    notifyKeyspaceEvent "expired" key;;
    mret true
  else mret false.

Definition checkAlreadyExpired (when : Z) : bool := (when <=? mstime2 ck) && negb (loading cfg) && negb (masterhost cfg).

(** ** Lookups and changes *)

Definition lookupKeyRead (key : bytes) : M (option oref) :=
  e ← expireIfNeeded key;
  if e && (negb (masterhost cfg) || readonly_client cfg) then mret None else lookupKey key.

Definition lookupKeyWrite (key : bytes) : M (option oref) := expireIfNeeded key;; lookupKey key.

Definition dbAdd (key : bytes) (val : oref) : M () :=
  d ← gets keys;
  serverAssert (bool_decide (d !! key = None));;
  modify (set_keys (<[key := val]> d));;
  match val with OOther TList _ | OOther TZset _ => log (Ready key) | _ => mret tt end.

(** With or without lazy freeing, a string is released at once. *)
Definition dbOverwrite (key : bytes) (val : oref) : M () :=
  d ← gets keys;
  old ← lift (d !! key);
  modify (set_keys (<[key := val]> d));;
  decrRefCount old.

Definition setKey (key : bytes) (val : oref) : M () :=
  o ← lookupKeyWrite key;
  match o with None => dbAdd key val | Some _ => dbOverwrite key val end;;
  incrRefCount val;;
  removeExpire key;;
  signalModifiedKey key.

Definition dbUnshareStringValue (key : bytes) (r : oref) : M oref :=
  serverAssert (is_string r);;
  o ← deref r;
  match refcount o =? 1, enc o with
  | true, ERaw _ => mret r
  | _, _ =>
      decoded ← getDecodedObject r;
      t ← sds_of decoded;
      x ← createRawStringObject t;
      decrRefCount decoded;;
      dbOverwrite key x;;
      mret x
  end.

(** [dictEmpty] on both tables, at once or by another thread: the number of keys. *)
Definition emptyDb : M Z :=
  d ← gets keys;
  modify (λ s, set_expires ∅ (set_keys ∅ s));;
  foldr (λ r m, decrRefCount r;; m) (mret tt) (map_to_list d).*2;;
  mret (Z.of_nat (size d)).

End Keyspace.
