(* ===== verification/KeyCommands.v ===== *)
(** The commands on strings (t_string.c), on keys (db.c) and on expires (expire.c), with the
    life of the objects of their arguments. *)

From stdpp Require Import list numbers strings gmap.
From S2P Require Import Prelude Util Glob SdsText Object Keyspace.

Definition OBJ_SET_NX : Z := 1.
Definition OBJ_SET_XX : Z := 2.
Definition OBJ_SET_EX : Z := 4.
Definition OBJ_SET_PX : Z := 8.

Inductive kcmd :=
  | CSet (key value : bytes) (options : list bytes)
  | CSetnx (key value : bytes)
  | CSetex (key seconds value : bytes)
  | CPsetex (key milliseconds value : bytes)
  | CGet (key : bytes)
  | CGetset (key value : bytes)
  | CSetrange (key offset value : bytes)
  | CGetrange (key start end_ : bytes)
  | CMget (keys : list bytes)
  | CMset (args : list bytes) (nx : bool)
  | CIncrDecr (key : bytes) (incr : Z)
  | CIncrby (key incr : bytes)
  | CDecrby (key decr : bytes)
  | CAppend (key value : bytes)
  | CStrlen (key : bytes)
  | CDel (keys : list bytes) (lazy : bool)
  | CExists (keys : list bytes)
  | CTouch (keys : list bytes)
  | CType (key : bytes)
  | CRename (key newkey : bytes) (nx : bool)
  | CExpire (key time : bytes) (unit : Z)
  | CExpireat (key time : bytes) (unit : Z)
  | CTtl (key : bytes) (output_ms : bool)
  | CPersist (key : bytes)
  | CDbsize
  | CFlushdb (options : list bytes).

Definition emptybulk : reply := RBulk [].
Definition toolongerr : reply := RError "-ERR string exceeds maximum allowed size (512MB)".
Definition overflowerr : reply := RError "-ERR increment or decrement would overflow".
Definition invalid_expire (cmd : string) : reply := RError ("-ERR invalid expire time in " +:+ cmd).

(** ** The options of SET *)

(** The flags, the expire and its unit; [None] is a syntax error. *)
Fixpoint set_options (args : list bytes) (flags : Z) (expire : option bytes) (unit : Z) : option (Z * option bytes * Z) :=
  match args with
  | [] => Some (flags, expire, unit)
  | a :: rest =>
      if strcasecmp_eq a (str "nx") && (Z.land flags OBJ_SET_XX =? 0) then set_options rest (Z.lor flags OBJ_SET_NX) expire unit
      else if strcasecmp_eq a (str "xx") && (Z.land flags OBJ_SET_NX =? 0) then set_options rest (Z.lor flags OBJ_SET_XX) expire unit
      else
        match rest with
        | next :: rest =>
            if strcasecmp_eq a (str "ex") && (Z.land flags OBJ_SET_PX =? 0) then set_options rest (Z.lor flags OBJ_SET_EX) (Some next) UNIT_SECONDS
            else if strcasecmp_eq a (str "px") && (Z.land flags OBJ_SET_EX =? 0) then set_options rest (Z.lor flags OBJ_SET_PX) (Some next) UNIT_MILLISECONDS
            else None
        | [] => None
        end
  end.

(** [sdsgrowzero] *)
Definition sdsgrowzero (s : bytes) (len : Z) : bytes := s ++ replicate (Z.to_nat (len - zlen s)) 0.

Section Commands.

Context (junk : nat → Z) (alloc : gset Z → Z) (cfg : config) (ck : clock).

Abbreviation lookupKeyWrite := (lookupKeyWrite cfg ck).
Abbreviation lookupKeyRead := (lookupKeyRead cfg ck).
Abbreviation expireIfNeeded := (expireIfNeeded cfg ck).
Abbreviation tryObjectEncoding := (tryObjectEncoding alloc cfg).
Abbreviation setKey := (setKey cfg ck).

(** [getLongLongFromObjectOrReply] on an argument *)
Definition ll_or_reply (s : bytes) (c : Z → M reply) : M reply :=
  r ← lift (getLongFromObject s); match r with Some n => c n | None => mret notintegererr end.

Definition checkStringLength (size : Z) : bool := 512 * 1024 * 1024 <? size.

(** A value that must be a string. *)
Definition string_or_reply (o : option oref) (r : reply) (c : oref → M reply) : M reply :=
  match o with None => mret r | Some o => if is_string o then c o else mret wrongtypeerr end.

(** ** Strings *)

Definition setGenericCommand (name : string) (flags : Z) (key : bytes) (val : oref) (expire : option bytes) (unit : Z) (ok_reply abort_reply : reply) : M reply :=
  let set (milliseconds : option Z) : M reply :=
    o1 ← (if Z.land flags OBJ_SET_NX =? 0 then mret None else lookupKeyWrite key);
    if bool_decide (is_Some o1) then mret abort_reply
    else
      xx ← (if Z.land flags OBJ_SET_XX =? 0 then mret false else o ← lookupKeyWrite key; mret (bool_decide (o = None)));
      if (xx : bool) then mret abort_reply
      else
        setKey key val;;
        add_dirty 1;;
        match milliseconds with Some ms => when ← lift (ll (mstime1 ck + ms)); setExpire key when | None => mret tt end;;
        notifyKeyspaceEvent "set" key;;
        match milliseconds with Some _ => notifyKeyspaceEvent "expire" key | None => mret tt end;;
        mret ok_reply in
  match expire with
  | None => set None
  | Some e =>
      ll_or_reply e (λ ms,
        if ms <=? 0 then mret (invalid_expire name)
        else if unit =? UNIT_SECONDS then ms ← lift (ll (ms * 1000)); set (Some ms)
        else set (Some ms))
  end.

(** The value of the client, which is released after the command, is the result. *)
Definition setCommand (key : bytes) (val : oref) (options : list bytes) : M (oref * reply) :=
  match set_options options 0 None UNIT_SECONDS with
  | None => mret (val, syntaxerr)
  | Some (flags, expire, unit) =>
      val ← tryObjectEncoding val;
      r ← setGenericCommand "set" flags key val expire unit ROk RNullBulk;
      mret (val, r)
  end.

Definition setnxCommand (key : bytes) (val : oref) : M (oref * reply) :=
  val ← tryObjectEncoding val;
  r ← setGenericCommand "setnx" OBJ_SET_NX key val None 0 (RInt 1) (RInt 0);
  mret (val, r).

Definition setexCommand (key : bytes) (val : oref) (seconds : bytes) : M (oref * reply) :=
  val ← tryObjectEncoding val;
  r ← setGenericCommand "setex" 0 key val (Some seconds) UNIT_SECONDS ROk RNullBulk;
  mret (val, r).

Definition psetexCommand (key : bytes) (val : oref) (milliseconds : bytes) : M (oref * reply) :=
  val ← tryObjectEncoding val;
  r ← setGenericCommand "psetex" 0 key val (Some milliseconds) UNIT_MILLISECONDS ROk RNullBulk;
  mret (val, r).

(** With true for C_OK. *)
Definition getGenericCommand (key : bytes) : M (reply * bool) :=
  o ← lookupKeyRead key;
  match o with
  | None => mret (RNullBulk, true)
  | Some o => if is_string o then t ← string_of junk o; mret (RBulk t, true) else mret (wrongtypeerr, false)
  end.

Definition getCommand (key : bytes) : M reply := '(r, _) ← getGenericCommand key; mret r.

Definition getsetCommand (key : bytes) (val : oref) : M (oref * reply) :=
  '(r, ok) ← getGenericCommand key;
  if (ok : bool) then
    val ← tryObjectEncoding val;
    setKey key val;;
    notifyKeyspaceEvent "set" key;;
    add_dirty 1;;
    mret (val, r)
  else mret (val, r).

Definition setrangeCommand (key offset value : bytes) : M reply :=
  ll_or_reply offset (λ offset,
    if offset <? 0 then mret (RError "-ERR offset is out of range")
    else
      let len := u64 (offset + zlen value) in
      let write (r : oref) : M reply :=
        s ← sds_of r;
        s ← lift (blit (sdsgrowzero s len) offset value);
        match r with OPtr a => o ← deref r; put_obj a (Robj (ERaw s) (refcount o)) | _ => lift None end;;
        signalModifiedKey key;;
        notifyKeyspaceEvent "setrange" key;;
        add_dirty 1;;
        mret (RInt (zlen s)) in
      o ← lookupKeyWrite key;
      match o with
      | None =>
          if zlen value =? 0 then mret (RInt 0)
          else if checkStringLength (s64 len) then mret toolongerr
          else
            serverAssert (len <? 2 ^ 63);;
            r ← createObject alloc (ERaw (replicate (Z.to_nat len) 0));
            dbAdd key r;;
            write r
      | Some r =>
          if is_string r then
            olen ← stringObjectLen r;
            if zlen value =? 0 then mret (RInt olen)
            else if checkStringLength (s64 len) then mret toolongerr
            else
              serverAssert (len <? 2 ^ 63);;
              r ← dbUnshareStringValue junk alloc key r;
              write r
          else mret wrongtypeerr
      end).

Definition getrangeCommand (key start end_ : bytes) : M reply :=
  ll_or_reply start (λ start, ll_or_reply end_ (λ end_,
    o ← lookupKeyRead key;
    string_or_reply o emptybulk (λ o,
      t ← string_of junk o;
      let strlen := zlen t in
      if (start <? 0) && (end_ <? 0) && (end_ <? start) then mret emptybulk
      else
        let start := if start <? 0 then s64 (strlen + start) else start in
        let end_ := if end_ <? 0 then s64 (strlen + end_) else end_ in
        let start := if start <? 0 then 0 else start in
        let end_ := if end_ <? 0 then 0 else end_ in
        let end_ := if strlen <=? end_ then s64 (u64 (strlen - 1)) else end_ in
        if (end_ <? start) || (strlen =? 0) then mret emptybulk
        else r ← lift (slice t start (end_ - start + 1)); mret (RBulk r)))).

Fixpoint mget_loop (ks : list bytes) : M (list (option bytes)) :=
  match ks with
  | [] => mret []
  | key :: ks =>
      o ← lookupKeyRead key;
      x ← match o with Some o => if is_string o then t ← string_of junk o; mret (Some t) else mret None | None => mret None end;
      l ← mget_loop ks;
      mret (x :: l)
  end.

Definition mgetCommand (ks : list bytes) : M reply := l ← mget_loop ks; mret (RMultiBulk (zlen ks) l).

Fixpoint msetnx_loop (ks : list bytes) : M bool :=
  match ks with
  | [] => mret false
  | key :: ks => o ← lookupKeyWrite key; if bool_decide (is_Some o) then mret true else msetnx_loop ks
  end.

Fixpoint mset_loop (kvs : list (bytes * oref)) : M (list oref) :=
  match kvs with
  | [] => mret []
  | (key, val) :: kvs =>
      val ← tryObjectEncoding val;
      setKey key val;;
      notifyKeyspaceEvent "set" key;;
      vals ← mset_loop kvs;
      mret (val :: vals)
  end.

Definition msetGenericCommand (kvs : list (bytes * oref)) (nx : bool) : M (list oref * reply) :=
  exists_ ← (if nx then msetnx_loop kvs.*1 else mret false);
  if (exists_ : bool) then mret (kvs.*2, RInt 0)
  else
    vals ← mset_loop kvs;
    add_dirty (zlen kvs);;
    mret (vals, if nx then RInt 1 else ROk).

(** The new value replaces the old one in place when nothing else refers to its object. *)
Definition incr_store (key : bytes) (o : option oref) (value : Z) : M () :=
  in_place ← match o with
             | Some (OPtr a as r) =>
                 x ← deref r;
                 match enc x with
                 | EInt _ => if (refcount x =? 1) && ((value <? 0) || (OBJ_SHARED_INTEGERS <=? value)) then put_obj a (Robj (EInt value) (refcount x));; mret true else mret false
                 | _ => mret false
                 end
             | _ => mret false
             end;
  if (in_place : bool) then mret tt
  else
    new ← createStringObjectFromLongLongForValue alloc cfg value;
    match o with Some _ => dbOverwrite key new | None => dbAdd key new end.

Definition incr_by (key : bytes) (o : option oref) (oldvalue incr : Z) : M reply :=
  if ((incr <? 0) && (oldvalue <? 0) && (incr <? LLONG_MIN - oldvalue)) || ((0 <? incr) && (0 <? oldvalue) && (LLONG_MAX - oldvalue <? incr)) then mret overflowerr
  else
    value ← lift (ll (oldvalue + incr));
    incr_store key o value;;
    signalModifiedKey key;;
    notifyKeyspaceEvent "incrby" key;;
    add_dirty 1;;
    mret (RInt value).

Definition incrDecrCommand (key : bytes) (incr : Z) : M reply :=
  o ← lookupKeyWrite key;
  if bool_decide (is_string <$> o = Some false) then mret wrongtypeerr
  else
    v ← getLongLongFromObject o;
    match v with None => mret notintegererr | Some oldvalue => incr_by key o oldvalue incr end.

Definition incrbyCommand (key incr : bytes) : M reply := ll_or_reply incr (incrDecrCommand key).
Definition decrbyCommand (key decr : bytes) : M reply := ll_or_reply decr (λ d, d ← lift (ll (- d)); incrDecrCommand key d).

Definition appendCommand (key : bytes) (append : oref) : M (oref * reply) :=
  let done (append : oref) (totlen : Z) : M (oref * reply) :=
    signalModifiedKey key;;
    notifyKeyspaceEvent "append" key;;
    add_dirty 1;;
    mret (append, RInt totlen) in
  o ← lookupKeyWrite key;
  match o with
  | None =>
      append ← tryObjectEncoding append;
      dbAdd key append;;
      incrRefCount append;;
      totlen ← stringObjectLen append;
      done append totlen
  | Some r =>
      if is_string r then
        olen ← stringObjectLen r;
        t ← sds_of append;
        if checkStringLength (s64 (u64 (olen + zlen t))) then mret (append, toolongerr)
        else
          r ← dbUnshareStringValue junk alloc key r;
          s ← sds_of r;
          match r with OPtr a => o ← deref r; put_obj a (Robj (ERaw (s ++ t)) (refcount o)) | _ => lift None end;;
          done append (zlen (s ++ t))
      else mret (append, wrongtypeerr)
  end.

Definition strlenCommand (key : bytes) : M reply :=
  o ← lookupKeyRead key;
  string_or_reply o (RInt 0) (λ o, len ← stringObjectLen o; mret (RInt len)).

(** ** Keys *)

Fixpoint del_loop (ks : list bytes) (lazy : bool) (numdel : Z) : M reply :=
  match ks with
  | [] => mret (RInt numdel)
  | key :: ks =>
      expireIfNeeded key;;
      deleted ← (if lazy then dbAsyncDelete key else dbSyncDelete key);
      if (deleted : bool) then
        signalModifiedKey key;;
        notifyKeyspaceEvent "del" key;;
        add_dirty 1;;
        del_loop ks lazy (numdel + 1)
      else del_loop ks lazy numdel
  end.

Definition delGenericCommand (ks : list bytes) (lazy : bool) : M reply := del_loop ks lazy 0.

Fixpoint exists_loop (ks : list bytes) (count : Z) : M reply :=
  match ks with
  | [] => mret (RInt count)
  | key :: ks => o ← lookupKeyRead key; exists_loop ks (if bool_decide (is_Some o) then count + 1 else count)
  end.

Definition existsCommand (ks : list bytes) : M reply := exists_loop ks 0.
Definition touchCommand (ks : list bytes) : M reply := exists_loop ks 0.

Definition type_name (o : option oref) : string :=
  match o with
  | None => "none"
  | Some (OOther TList _) => "list"
  | Some (OOther TSet _) => "set"
  | Some (OOther TZset _) => "zset"
  | Some (OOther THash _) => "hash"
  | Some (OOther TStream _) => "stream"
  | Some _ => "string"
  end.

Definition typeCommand (key : bytes) : M reply := o ← lookupKeyRead key; mret (RStatus (type_name o)).

Definition renameGenericCommand (key newkey : bytes) (nx : bool) : M reply :=
  o ← lookupKeyWrite key;
  match o with
  | None => mret nokeyerr
  | Some o =>
      if bool_decide (key = newkey) then mret (if nx then RInt 0 else ROk)
      else
        incrRefCount o;;
        expire ← getExpire key;
        d ← lookupKeyWrite newkey;
        if bool_decide (is_Some d) && nx then decrRefCount o;; mret (RInt 0)
        else
          (if bool_decide (is_Some d) then dbDelete cfg newkey;; mret tt else mret tt);;
          dbAdd newkey o;;
          (if expire =? -1 then mret tt else setExpire newkey expire);;
          dbDelete cfg key;;
          signalModifiedKey key;;
          signalModifiedKey newkey;;
          notifyKeyspaceEvent "rename_from" key;;
          notifyKeyspaceEvent "rename_to" newkey;;
          add_dirty 1;;
          mret (if nx then RInt 1 else ROk)
  end.

Definition dbsizeCommand : M reply := d ← gets keys; mret (RInt (Z.of_nat (size d))).

(** [getFlushCommandFlags]: the flag ASYNC or a syntax error. *)
Definition getFlushCommandFlags (options : list bytes) : option bool :=
  match options with
  | [] => Some false
  | [a] => if strcasecmp_eq a (str "async") then Some true else None
  | _ => None
  end.

Definition flushdbCommand (options : list bytes) : M reply :=
  match getFlushCommandFlags options with
  | None => mret syntaxerr
  | Some _ => log Flushed;; n ← emptyDb; add_dirty n;; mret ROk
  end.

(** ** Expires *)

Definition expireGenericCommand (key param : bytes) (basetime unit : Z) : M reply :=
  ll_or_reply param (λ when,
    when ← lift (if unit =? UNIT_SECONDS then ll (when * 1000) else Some when);
    when ← lift (ll (when + basetime));
    o ← lookupKeyWrite key;
    match o with
    | None => mret (RInt 0)
    | Some _ =>
        if checkAlreadyExpired cfg ck when then
          deleted ← (if lazyfree_lazy_expire cfg then dbAsyncDelete key else dbSyncDelete key);
          serverAssert deleted;;
          add_dirty 1;;
          log (Rewrite (if lazyfree_lazy_expire cfg then "unlink" else "del") key);;
          signalModifiedKey key;;
          notifyKeyspaceEvent "del" key;;
          mret (RInt 1)
        else
          setExpire key when;;
          signalModifiedKey key;;
          notifyKeyspaceEvent "expire" key;;
          add_dirty 1;;
          mret (RInt 1)
    end).

Definition ttlGenericCommand (key : bytes) (output_ms : bool) : M reply :=
  o ← lookupKeyRead key;
  match o with
  | None => mret (RInt (-2))
  | Some _ =>
      expire ← getExpire key;
      ttl ← (if expire =? -1 then mret (-1) else t ← lift (ll (expire - mstime1 ck)); mret (if t <? 0 then 0 else t));
      if ttl =? -1 then mret (RInt (-1))
      else if output_ms then mret (RInt ttl)
      else t ← lift (ll (ttl + 500)); mret (RInt (t `quot` 1000))
  end.

Definition persistCommand (key : bytes) : M reply :=
  o ← lookupKeyWrite key;
  match o with
  | Some _ => b ← removeExpire key; if (b : bool) then add_dirty 1;; mret (RInt 1) else mret (RInt 0)
  | None => mret (RInt 0)
  end.

(** ** Commands and their arguments *)

(** The object of an argument, which is raw when the request is an inline one. *)
Definition create_arg (inline : bool) (v : bytes) : M oref := if inline then createRawStringObject alloc v else createStringObject alloc v.

(** A handler with an argument that may become a value; [freeClientArgv] releases it. *)
Definition with_arg (inline : bool) (v : bytes) (handler : oref → M (oref * reply)) : M reply :=
  r ← create_arg inline v;
  '(r, reply) ← handler r;
  decrRefCount r;;
  mret reply.

Fixpoint create_args (inline : bool) (kvs : list (bytes * bytes)) : M (list (bytes * oref)) :=
  match kvs with
  | [] => mret []
  | (k, v) :: kvs => r ← create_arg inline v; l ← create_args inline kvs; mret ((k, r) :: l)
  end.

Fixpoint free_args (rs : list oref) : M () := match rs with [] => mret tt | r :: rs => decrRefCount r;; free_args rs end.

Definition msetCommand (inline : bool) (args : list bytes) (nx : bool) : M reply :=
  if Z.odd (zlen args) then mret (RError "-ERR wrong number of arguments for MSET")
  else
    kvs ← create_args inline (pairs args);
    '(vals, reply) ← msetGenericCommand kvs nx;
    free_args vals;;
    mret reply.

Definition call (inline : bool) (cmd : kcmd) : M reply :=
  match cmd with
  | CSet key value options => with_arg inline value (λ v, setCommand key v options)
  | CSetnx key value => with_arg inline value (setnxCommand key)
  | CSetex key seconds value => with_arg inline value (λ v, setexCommand key v seconds)
  | CPsetex key milliseconds value => with_arg inline value (λ v, psetexCommand key v milliseconds)
  | CGet key => getCommand key
  | CGetset key value => with_arg inline value (getsetCommand key)
  | CSetrange key offset value => setrangeCommand key offset value
  | CGetrange key start end_ => getrangeCommand key start end_
  | CMget ks => mgetCommand ks
  | CMset args nx => msetCommand inline args nx
  | CIncrDecr key incr => incrDecrCommand key incr
  | CIncrby key incr => incrbyCommand key incr
  | CDecrby key decr => decrbyCommand key decr
  | CAppend key value => with_arg inline value (appendCommand key)
  | CStrlen key => strlenCommand key
  | CDel ks lazy => delGenericCommand ks lazy
  | CExists ks => existsCommand ks
  | CTouch ks => touchCommand ks
  | CType key => typeCommand key
  | CRename key newkey nx => renameGenericCommand key newkey nx
  | CExpire key time unit => expireGenericCommand key time (mstime1 ck) unit
  | CExpireat key time unit => expireGenericCommand key time 0 unit
  | CTtl key output_ms => ttlGenericCommand key output_ms
  | CPersist key => persistCommand key
  | CDbsize => dbsizeCommand
  | CFlushdb options => flushdbCommand options
  end.

End Commands.

(** ** Sessions *)

(** A command at a time, or an entry that the expire cycle samples. *)
Inductive kstep := Call (ck : clock) (inline : bool) (cmd : kcmd) | Cycle (key : bytes) (now : Z).

(** The reply, the events and the change of [dirty] of a step. *)
Definition run_kstep (junk : nat → Z) (alloc : gset Z → Z) (cfg : config) (s : db) (st : kstep) : option (db * (option reply * list kevent * Z)) :=
  let s := set_events [] (set_dirty 0 s) in
  match st with
  | Call ck inline cmd => '(r, s) ← call junk alloc cfg ck inline cmd s; Some (s, (Some r, events s, dirty s))
  | Cycle key now => '(_, s) ← activeExpireCycleTryExpire cfg key now s; Some (s, (None, events s, dirty s))
  end.

Fixpoint run_ksteps (junk : nat → Z) (alloc : gset Z → Z) (cfg : config) (s : db) (sts : list kstep) : option (db * list (option reply * list kevent * Z)) :=
  match sts with
  | [] => Some (s, [])
  | st :: sts => '(s, o) ← run_kstep junk alloc cfg s st; '(s, os) ← run_ksteps junk alloc cfg s sts; Some (s, o :: os)
  end.
