(* ===== verification/KeyspaceRep.v ===== *)
(** What a database represents: a map from keys to values with deadlines, with the references to
    its objects counted. *)

From stdpp Require Import list numbers strings gmap.
From S2P Require Import Prelude Util Glob SdsText Object ZiplistEntry Keyspace.

(** ** The logic of computations *)

(** [m] succeeds in [s], and [Q] holds of its result and the new state. *)
Definition runs {A} (m : M A) (s : db) (Q : A → db → Prop) : Prop := ∃ x s', m s = Some (x, s') ∧ Q x s'.

Lemma runs_ret {A} (x : A) s Q : Q x s → runs (mret x) s Q.
Proof. intros H. by exists x, s. Qed.

Lemma runs_bind {A B} (m : M A) (f : A → M B) s Q : runs m s (λ x s', runs (f x) s' Q) → runs (m ≫= f) s Q.
Proof. intros (x & s1 & E & y & s2 & E' & H). exists y, s2. split; [|done]. unfold mbind, M_bind. rewrite E. cbn. done. Qed.

Lemma runs_mono {A} (m : M A) s (P Q : A → db → Prop) : runs m s P → (∀ x s', P x s' → Q x s') → runs m s Q.
Proof. intros (x & s' & E & H) HPQ. exists x, s'. auto. Qed.

Lemma runs_lift {A} (o : option A) x s Q : o = Some x → Q x s → runs (lift o) s Q.
Proof. intros -> H. by exists x, s. Qed.

Lemma runs_gets {A} (f : db → A) s Q : Q (f s) s → runs (gets f) s Q.
Proof. intros H. by exists (f s), s. Qed.

Lemma runs_modify f s Q : Q tt (f s) → runs (modify f) s Q.
Proof. intros H. by exists tt, (f s). Qed.

Lemma runs_assert b s Q : b = true → Q tt s → runs (serverAssert b) s Q.
Proof. intros -> H. by exists tt, s. Qed.

(** The first computation of a sequence, by what is known of it. *)
Lemma runs_seq {A B} (m : M A) (f : A → M B) s (P : A → db → Prop) Q : runs m s P → (∀ x s', P x s' → runs (f x) s' Q) → runs (m ≫= f) s Q.
Proof. intros H HPQ. apply runs_bind. by eapply runs_mono. Qed.

(** ** Values *)

Inductive kval := KStr (s : bytes) | KOther (t : other_type) (id : Z).
Abbreviation kmap := (gmap bytes (kval * option Z)).

#[export] Instance other_type_eq_dec : EqDecision other_type.
Proof. solve_decision. Defined.
#[export] Instance oref_eq_dec : EqDecision oref.
Proof. solve_decision. Defined.

Definition enc_text (e : encoding) : bytes := match e with ERaw s | EEmbstr s => s | EInt n => of_int n end.
Definition enc_ok (e : encoding) : Prop := match e with EInt n => in_s 64 n | _ => True end.

Definition vrep (h : gmap Z robj) (r : oref) (v : kval) : Prop :=
  match r, v with
  | OShared n, KStr t => 0 ≤ n < OBJ_SHARED_INTEGERS ∧ t = of_int n
  | OPtr a, KStr t => ∃ o, h !! a = Some o ∧ enc_text (enc o) = t
  | OOther t id, KOther t' id' => t = t' ∧ id = id'
  | _, _ => False
  end.

(** What is known of an object that the running code refers to: its value, or that it is a
    string that is not encoded as an integer. *)
Inductive known := HVal (v : kval) | HSds (s : bytes).

Definition arep (h : gmap Z robj) (r : oref) (x : known) : Prop :=
  match x with
  | HVal v => vrep h r v
  | HSds t => ∃ a o, r = OPtr a ∧ h !! a = Some o ∧ (enc o = ERaw t ∨ enc o = EEmbstr t)
  end.

(** The strings a command can make, and deadlines after the epoch. *)
Definition max_string : Z := 2 ^ 29.
Definition good (x : kval * option Z) : Prop :=
  match x.1 with KStr t => zlen t ≤ max_string | KOther _ _ => True end ∧ match x.2 with Some t => 0 ≤ t < 2 ^ 63 | None => True end.

(** ** References *)

Definition one (r : oref) (a : Z) : Z := if decide (r = OPtr a) then 1 else 0.

(** From the table of keys and from the code that runs. *)
Definition nref (d : gmap bytes oref) (a : Z) : Z := Z.of_nat (size (filter (λ x, x.2 = OPtr a) d)).
Fixpoint held (args : list (oref * known)) (a : Z) : Z := match args with [] => 0 | x :: args => one x.1 a + held args a end.

Lemma one_range r a : 0 ≤ one r a ≤ 1.
Proof. unfold one. case_decide; lia. Qed.

Lemma nref_nonneg d a : 0 ≤ nref d a.
Proof. unfold nref. lia. Qed.

Lemma held_range args a : 0 ≤ held args a ≤ zlen args.
Proof. induction args as [|x args IH]; cbn [held length]; [lia|]. pose proof (one_range x.1 a). lia. Qed.

Lemma held_elem args r v a : (r, v) ∈ args → one r a ≤ held args a.
Proof.
  induction args as [|y args IH]; [by intros ?%elem_of_nil|]. intros [<- |Hin]%elem_of_cons; cbn [held fst]; [pose proof (held_range args a); lia|]. specialize (IH Hin). pose proof (one_range y.1 a). lia.
Qed.

Lemma nref_size d a : nref d a ≤ Z.of_nat (size d).
Proof. unfold nref. pose proof (map_subseteq_size (filter (λ x, x.2 = OPtr a) d) d (map_filter_subseteq _ _)). lia. Qed.

Lemma nref_empty a : nref ∅ a = 0.
Proof. done. Qed.

Lemma nref_insert d k r a : d !! k = None → nref (<[k := r]> d) a = nref d a + one r a.
Proof.
  intros Hk. unfold nref, one. case_decide as E.
  - rewrite map_filter_insert_True, map_size_insert_None by (try apply map_lookup_filter_None; auto). lia.
  - rewrite map_filter_insert_False, delete_id by (cbn; auto). lia.
Qed.

Lemma nref_delete d k r a : d !! k = Some r → nref (delete k d) a = nref d a - one r a.
Proof. intros Hk. rewrite <-(insert_delete_id d k r) at 2 by done. rewrite nref_insert by apply lookup_delete_eq. lia. Qed.

Lemma nref_pos d k r a : d !! k = Some r → one r a ≤ nref d a.
Proof. intros Hk. pose proof (nref_delete d k r a Hk). pose proof (nref_nonneg (delete k d) a). lia. Qed.

(** ** The invariant *)

Definition counted (s : db) (args : list (oref * known)) (a : Z) : Prop :=
  match heap s !! a with
  | Some o => refcount o = nref (keys s) a + held args a ∧ 0 < refcount o ∧ enc_ok (enc o)
  | None => nref (keys s) a = 0 ∧ held args a = 0
  end.

(** The state represents [m]; the code that runs owns the references [args] and has logged [ev]
    and counted [d] changes; there are at most [n] references. *)
Record krep (n : Z) (s : db) (m : kmap) (args : list (oref * known)) (ev : list kevent) (d : Z) : Prop := {
  k_heap : ∀ a, counted s args a;
  k_vals : ∀ k, option_Forall2 (λ r x, vrep (heap s) r x.1) (keys s !! k) (m !! k);
  k_exp : ∀ k, expires s !! k = m !! k ≫= snd;
  k_args : Forall (λ x, arep (heap s) x.1 x.2) args;
  k_good : map_Forall (λ _, good) m;
  k_events : events s = ev;
  k_dirty : dirty s = d;
  k_few : Z.of_nat (size (keys s)) + zlen args ≤ n;
}.

(** A value does not change with the counts. *)
Lemma vrep_same h h' r v : vrep h r v → (∀ a, r = OPtr a → enc <$> h' !! a = enc <$> h !! a) → vrep h' r v.
Proof.
  intros Hv He. destruct r as [n|a|t id]; [exact Hv| |exact Hv]. destruct v as [t|]; [|done]. destruct Hv as (o & Ho & Et). specialize (He a eq_refl). rewrite Ho in He.
  destruct (h' !! a) as [o'|] eqn:E; [|done]. exists o'. split; [done|]. cbn in He. congruence.
Qed.

Lemma arep_same h h' r x : arep h r x → (∀ a, r = OPtr a → enc <$> h' !! a = enc <$> h !! a) → arep h' r x.
Proof.
  intros Hv He. destruct x as [v|t]; [by eapply vrep_same|]. destruct Hv as (a & o & -> & Ho & Eo). specialize (He a eq_refl). rewrite Ho in He. destruct (h' !! a) as [o'|] eqn:E; [|done].
  exists a, o'. split_and!; [done|done|]. cbn in He. injection He as ->. done.
Qed.

Lemma arep_heap h a x : arep h (OPtr a) x → ∃ t, vrep h (OPtr a) (KStr t).
Proof. destruct x as [[t|]|t]; [by exists t|done|]. intros (a' & o & [= <-] & Ho & _). exists (enc_text (enc o)), o. done. Qed.

Lemma arep_value h r t : arep h r (HSds t) → vrep h r (KStr t).
Proof. intros (a & o & -> & Ho & Eo). exists o. split; [done|]. by destruct Eo as [-> | ->]. Qed.

(** What is looked up on both sides. *)
Lemma krep_lookup n s m args ev d k : krep n s m args ev d →
  (keys s !! k = None ∧ m !! k = None) ∨ ∃ r v t, keys s !! k = Some r ∧ m !! k = Some (v, t) ∧ vrep (heap s) r v ∧ good (v, t).
Proof.
  intros HK. pose proof (k_vals _ _ _ _ _ _ HK k) as Hv. destruct (keys s !! k) as [r|], (m !! k) as [[v t]|] eqn:E; inversion Hv; subst; [right|by left].
  exists r, v, t. split_and!; try done. exact (k_good _ _ _ _ _ _ HK k _ E).
Qed.

Lemma krep_size n s m args ev d : krep n s m args ev d → size (keys s) = size m.
Proof.
  intros HK. rewrite <-!size_dom. f_equal. apply set_eq. intros k. rewrite !elem_of_dom. destruct (krep_lookup _ _ _ _ _ _ k HK) as [[-> ->]|(r & v & t & -> & -> & _)]; [done|]. split; intros _; by eexists.
Qed.

(** Changes outside of the tables and the heap. *)
Lemma krep_log n s m args ev d e : krep n s m args ev d → krep n (set_events (events s ++ [e]) s) m args (ev ++ [e]) d.
Proof. intros [H1 H2 H3 H4 H5 H6 H7 H8]. split; try done. cbn. by rewrite H6. Qed.

Lemma krep_dirty n s m args ev d k : krep n s m args ev d → krep n (set_dirty (dirty s + k) s) m args ev (d + k).
Proof. intros [H1 H2 H3 H4 H5 H6 H7 H8]. split; try done. cbn. by rewrite H7. Qed.

Lemma log_spec n s m args ev d e Q : krep n s m args ev d → (∀ s', krep n s' m args (ev ++ [e]) d → keys s' = keys s → Q tt s') → runs (log e) s Q.
Proof. intros HK HQ. apply runs_modify, HQ; [by apply krep_log|done]. Qed.

Lemma dirty_spec n s m args ev d k (Q : () → db → Prop) : krep n s m args ev d → (∀ s', krep n s' m args ev (d + k) → keys s' = keys s → Q tt s') → runs (add_dirty k) s Q.
Proof. intros HK HQ. apply runs_modify, HQ; [by apply krep_dirty|done]. Qed.

(** ** Objects *)

Section Objects.

Context (junk : nat → Z) (alloc : gset Z → Z) (cfg : config).
Hypothesis alloc_fresh : ∀ X, alloc X ∉ X.

(** The state after a change of the heap that keeps the encodings of what is used. *)
Lemma krep_heap n n' s m args args' ev d h :
  krep n s m args ev d → Z.of_nat (size (keys s)) + zlen args' ≤ n' → (∀ a, counted (set_heap h s) args' a) → (∀ a, 0 < nref (keys s) a + held args' a → enc <$> h !! a = enc <$> heap s !! a) →
  Forall (λ x, arep (heap s) x.1 x.2) args' → krep n' (set_heap h s) m args' ev d.
Proof.
  intros [H1 H2 H3 H4 H5 H6 H7 H8] Hn Hc He Ha. split; try done.
  - intros k. specialize (H2 k). cbn. destruct (keys s !! k) as [r|] eqn:Ek; inversion H2 as [? ? Hv|]; subst; constructor. eapply vrep_same; [done|]. intros a ->. apply He.
    pose proof (nref_pos _ _ _ a Ek) as Hp. unfold one in Hp. rewrite decide_True in Hp by done. pose proof (held_range args' a). lia.
  - rewrite Forall_forall in Ha |- *. intros [r v] Hin. specialize (Ha _ Hin). cbn in *. eapply arep_same; [done|]. intros a ->. apply He.
    pose proof (held_elem _ _ _ a Hin) as Hp. unfold one in Hp. rewrite decide_True in Hp by done. pose proof (nref_nonneg (keys s) a). lia.
Qed.

Lemma deref_spec n s m args ev d r v (Q : robj → db → Prop) : krep n s m args ev d → vrep (heap s) r (KStr v) →
  (∀ o, enc_text (enc o) = v → enc_ok (enc o) → match r with OPtr a => heap s !! a = Some o ∧ refcount o = nref (keys s) a + held args a ∧ refcount o ≤ n | _ => refcount o = OBJ_SHARED_REFCOUNT ∧ ∃ n, enc o = EInt n end → Q o s) →
  runs (deref r) s Q.
Proof.
  intros HK Hv HQ. destruct r as [i|a|]; [|destruct Hv as (o & Ho & Et)|done].
  - destruct Hv as [Hn ->]. apply runs_ret, HQ; [done| |eauto]. cbn. unfold in_s, OBJ_SHARED_INTEGERS in *. lia.
  - cbn. apply runs_bind, runs_gets. rewrite Ho. eapply runs_lift; [done|]. pose proof (k_heap _ _ _ _ _ _ HK a) as Hc. unfold counted in Hc. rewrite Ho in Hc. destruct Hc as (Hc & _ & Hok). apply HQ; [done|done|]. split_and!; [done|done|]. pose proof (nref_size (keys s) a). pose proof (held_range args a). pose proof (k_few _ _ _ _ _ _ HK). lia.
Qed.

Lemma create_obj_spec n s m args ev d e x (Q : oref → db → Prop) : krep n s m args ev d → enc_ok e → (∀ h a, h !! a = Some (Robj e 1) → arep h (OPtr a) x) →
  (∀ s' a, krep (n + 1) s' m ((OPtr a, x) :: args) ev d → heap s' !! a = Some (Robj e 1) → heap s !! a = None → keys s' = keys s → Q (OPtr a) s') → runs (createObject alloc e) s Q.
Proof.
  intros HK He Hx HQ. set (a := alloc (dom (heap s))). pose proof (alloc_fresh (dom (heap s))) as Hf. fold a in Hf. apply not_elem_of_dom in Hf.
  exists (OPtr a), (set_heap (<[a := Robj e 1]> (heap s)) s). split; [done|]. apply HQ; [|apply lookup_insert_eq|done|done].
  assert (∀ b, b ≠ a → <[a := Robj e 1]> (heap s) !! b = heap s !! b) as Hb by (intros b Hb; by rewrite lookup_insert_ne).
  pose proof (k_heap _ _ _ _ _ _ HK) as Hc. pose proof (Hc a) as Ha. unfold counted in Ha. rewrite Hf in Ha.
  split; try apply HK.
  - intros b. unfold counted. cbn [set_heap heap keys held fst]. destruct (decide (b = a)) as [->|Hne].
    + rewrite lookup_insert_eq. cbn. unfold one. rewrite decide_True by done. split_and!; [lia|lia|done].
    + rewrite Hb by done. unfold one. rewrite decide_False by congruence. specialize (Hc b). unfold counted in Hc. destruct (heap s !! b); [|lia]. destruct Hc as (? & ? & ?). split_and!; [lia|lia|done].
  - intros k. pose proof (k_vals _ _ _ _ _ _ HK k) as Hv. cbn. destruct (keys s !! k) as [r|]; inversion Hv as [? y Hr|]; subst; constructor. eapply vrep_same; [done|]. intros b ->. destruct (decide (b = a)) as [->|]; [|by rewrite Hb].
    destruct y as [[] ?]; [|done]. destruct Hr as (? & ? & _). congruence.
  - constructor; [apply Hx, lookup_insert_eq|]. eapply Forall_impl; [apply HK|]. intros [r v] Hr. cbn in *. eapply arep_same; [done|]. intros b ->. destruct (decide (b = a)) as [->|]; [|by rewrite Hb].
    apply arep_heap in Hr as (? & ? & ? & _). congruence.
  - pose proof (k_few _ _ _ _ _ _ HK). cbn. lia.
Qed.

(** A reference of the running code is given back. *)
Lemma decr_spec n s m r v args ev d (Q : () → db → Prop) :
  krep n s m ((r, v) :: args) ev d → n < OBJ_SHARED_REFCOUNT →
  (∀ s', krep (n - 1) s' m args ev d → keys s' = keys s → (∀ b, r ≠ OPtr b → heap s' !! b = heap s !! b) → Q tt s') → runs (decrRefCount r) s Q.
Proof.
  intros HK Hn HQ. pose proof (k_args _ _ _ _ _ _ HK) as [Hv Hargs]%Forall_cons. cbn in Hv. pose proof (k_few _ _ _ _ _ _ HK) as Hfew. cbn [length] in Hfew.
  assert (∀ b, r ≠ OPtr b → counted s args b) as Hother.
  { intros b Hb. pose proof (k_heap _ _ _ _ _ _ HK b) as H1. unfold counted in *. cbn [held fst] in H1. unfold one in H1. by rewrite decide_False in H1 by congruence. }
  destruct r as [i|a|t id]; cbn [decrRefCount].
  1,3: apply runs_ret, HQ; [|done|done]; destruct HK as [H1 H2 H3 H4 H5 H6 H7 H8]; split; try done; lia.
  destruct (arep_heap _ _ _ Hv) as [t Ht]. apply runs_bind. eapply deref_spec; [done|done|]. intros o Et Hok (Ho & Hc & Hle). cbn [held fst] in Hc. unfold one in Hc. rewrite decide_True in Hc by done. pose proof (nref_nonneg (keys s) a). pose proof (held_range args a).
  destruct (Z.eqb_spec (refcount o) 1) as [E1|E1].
  - apply runs_modify, HQ; [|done|intros b Hb; cbn; rewrite lookup_delete_ne; congruence]. eapply krep_heap; [done|lia| | |done].
    + intros b. destruct (decide (b = a)) as [->|Hb]; [|specialize (Hother b ltac:(congruence))]; unfold counted in *; cbn; [rewrite lookup_delete_eq; lia|by rewrite lookup_delete_ne].
    + intros b Hb. destruct (decide (b = a)) as [->|]; [lia|by rewrite lookup_delete_ne].
  - apply runs_bind, runs_assert; [rewrite negb_true_iff; apply Z.leb_gt; lia|]. rewrite (proj2 (Z.eqb_neq _ _)) by lia. apply runs_modify, HQ; [|done|intros b Hb; cbn; rewrite lookup_insert_ne; congruence]. eapply krep_heap; [done|lia| | |done].
    + intros b. destruct (decide (b = a)) as [->|Hb]; [|specialize (Hother b ltac:(congruence))]; unfold counted in *; cbn; [rewrite lookup_insert_eq; cbn; split_and!; [lia|lia|done]|by rewrite lookup_insert_ne].
    + intros b Hb. destruct (decide (b = a)) as [->|]; [rewrite lookup_insert_eq, Ho; done|by rewrite lookup_insert_ne].
Qed.

(** A reference from the table of keys, or of the running code, is taken again. *)
Lemma incr_spec n s m r v args ev d (Q : () → db → Prop) :
  krep n s m args ev d → n + 1 < OBJ_SHARED_REFCOUNT → arep (heap s) r v → (∀ s', krep (n + 1) s' m ((r, v) :: args) ev d → keys s' = keys s → Q tt s') → runs (incrRefCount r) s Q.
Proof.
  intros HK Hn Hv HQ. pose proof (k_few _ _ _ _ _ _ HK) as Hfew.
  assert (∀ b, r ≠ OPtr b → counted s ((r, v) :: args) b) as Hother.
  { intros b Hb. pose proof (k_heap _ _ _ _ _ _ HK b) as H1. unfold counted in *. cbn [held fst]. unfold one. by rewrite decide_False by congruence. }
  destruct r as [i|a|t id]; cbn [incrRefCount].
  1,3: apply runs_ret, HQ; [|done]; destruct HK as [H1 H2 H3 H4 H5 H6 H7 H8]; split; try done; [by constructor|cbn [length]; lia].
  destruct (arep_heap _ _ _ Hv) as [t Ht]. apply runs_bind. eapply deref_spec; [done|done|]. intros o Et Hok (Ho & Hc & Hle). rewrite (proj2 (Z.eqb_neq _ _)) by lia.
  pose proof (nref_nonneg (keys s) a). pose proof (held_range args a). assert (0 < refcount o) as Hpos. { pose proof (k_heap _ _ _ _ _ _ HK a) as H1. unfold counted in H1. rewrite Ho in H1. apply H1. }
  apply runs_modify, HQ; [|done]. eapply krep_heap; [done|cbn [length]; lia| | |].
  - intros b. destruct (decide (b = a)) as [->|Hb]; [|specialize (Hother b ltac:(congruence))]; unfold counted in *; cbn [set_heap heap keys]; [rewrite lookup_insert_eq; cbn [refcount enc held fst]; unfold one; rewrite decide_True by done; split_and!; [lia|lia|done]|by rewrite lookup_insert_ne].
  - intros b Hb. destruct (decide (b = a)) as [->|]; [rewrite lookup_insert_eq, Ho; done|by rewrite lookup_insert_ne].
  - constructor; [done|apply HK].
Qed.

(** ** Strings *)

Lemma of_int_length i : in_s 64 i → 0 < zlen (of_int i) ≤ 20 ∧ sdigits10 i = Some (zlen (of_int i)).
Proof. intros Hi. pose proof (of_int_eq i Hi) as [_ Hc]. split; [by eapply canonical_length|by apply sdigits10_canonical]. Qed.

Lemma string_of_spec n s m args ev d r t (Q : bytes → db → Prop) : krep n s m args ev d → vrep (heap s) r (KStr t) → Q t s → runs (string_of junk r) s Q.
Proof.
  intros HK Hv HQ. apply runs_bind. eapply deref_spec; [done|done|]. intros o Et Hok _. destruct (enc o) as [x|x|i]; cbn [enc_text enc_ok] in Et, Hok; subst.
  1,2: by eapply runs_lift. eapply runs_lift; [by apply ll_text_spec|done].
Qed.

Lemma object_len_spec n s m args ev d r t (Q : Z → db → Prop) : krep n s m args ev d → vrep (heap s) r (KStr t) → Q (zlen t) s → runs (stringObjectLen r) s Q.
Proof.
  intros HK Hv HQ. apply runs_bind. eapply deref_spec; [done|done|]. intros o Et Hok _. destruct (enc o) as [x|x|i]; cbn [enc_text enc_ok] in Et, Hok; subst.
  1,2: by eapply runs_lift. eapply runs_lift; [by apply of_int_length|done].
Qed.

Lemma get_ll_spec n s m args ev d r t (Q : option Z → db → Prop) : krep n s m args ev d → vrep (heap s) r (KStr t) → Q (to_int t) s → runs (getLongLongFromObject (Some r)) s Q.
Proof.
  intros HK Hv HQ. apply runs_bind. eapply deref_spec; [done|done|]. intros o Et Hok _. destruct (enc o) as [x|x|i]; cbn [enc_text enc_ok] in Et, Hok; subst.
  1,2: eapply runs_lift; [apply to_int_eq|done]. apply runs_ret. by rewrite to_of_int in HQ.
Qed.

Lemma sds_of_spec n s m args ev d r t (Q : bytes → db → Prop) : krep n s m args ev d → arep (heap s) r (HSds t) → Q t s → runs (sds_of r) s Q.
Proof.
  intros HK (a & o & -> & Ho & Eo) HQ. apply runs_bind. cbn. apply runs_bind, runs_gets. rewrite Ho. eapply runs_lift; [done|]. destruct Eo as [-> | ->]; by eapply runs_lift.
Qed.

(** Less may be known of an argument. *)
Lemma krep_forget n s m r t args ev d : krep n s m ((r, HSds t) :: args) ev d → krep n s m ((r, HVal (KStr t)) :: args) ev d.
Proof. intros [H1 H2 H3 [H4 H4']%Forall_cons H5 H6 H7 H8]. split; try done. constructor; [by apply arep_value|done]. Qed.

Lemma krep_le n n' s m args ev d : krep n s m args ev d → n ≤ n' → krep n' s m args ev d.
Proof. intros [H1 H2 H3 H4 H5 H6 H7 H8] Hn. split; try done. lia. Qed.

(** The order of the references does not matter. *)
Lemma krep_swap n s m x y args ev d : krep n s m (x :: y :: args) ev d → krep n s m (y :: x :: args) ev d.
Proof.
  intros [H1 H2 H3 H4 H5 H6 H7 H8]. split; try done; [|by rewrite !Forall_cons in H4 |- *; tauto].
  intros a. specialize (H1 a). unfold counted in *. cbn [held] in *. by replace (one y.1 a + (one x.1 a + held args a)) with (one x.1 a + (one y.1 a + held args a)) by lia.
Qed.

(** The argument at the head is used. *)
Lemma krep_arg n s m r x args ev d : krep n s m ((r, x) :: args) ev d → arep (heap s) r x.
Proof. intros HK. by pose proof (k_args _ _ _ _ _ _ HK) as [? _]%Forall_cons. Qed.

Lemma create_string_spec n s m args ev d t (Q : oref → db → Prop) :
  krep n s m args ev d → (∀ s' r, krep (n + 1) s' m ((r, HSds t) :: args) ev d → keys s' = keys s → Q r s') → runs (createStringObject alloc t) s Q.
Proof.
  intros HK HQ. unfold createStringObject, createEmbeddedStringObject, createRawStringObject. destruct (zlen t <=? OBJ_ENCODING_EMBSTR_SIZE_LIMIT); (eapply (create_obj_spec _ _ _ _ _ _ _ (HSds t)); [done|done| |]).
  1,3: intros h a Ha; do 2 eexists; split_and!; [done|done|cbn; by auto]. all: intros; by eapply HQ.
Qed.

(** A shared integer may be used without counting. *)
Lemma krep_shared n s m args ev d i :
  krep n s m args ev d → (0 <=? i) && (i <? OBJ_SHARED_INTEGERS) = true → krep (n + 1) s m ((OShared i, HVal (KStr (of_int i))) :: args) ev d.
Proof.
  intros [H1 H2 H3 H4 H5 H6 H7 H8] [?%Z.leb_le ?%Z.ltb_lt]%andb_true_iff. split; try done; [constructor; [by split; [lia|]|done]|cbn [length]; lia].
Qed.

Lemma create_ll_spec n s m args ev d i (Q : oref → db → Prop) :
  krep n s m args ev d → in_s 64 i → (∀ s' r, krep (n + 1) s' m ((r, HVal (KStr (of_int i))) :: args) ev d → keys s' = keys s → Q r s') →
  runs (createStringObjectFromLongLongForValue alloc cfg i) s Q.
Proof.
  intros HK Hi HQ. unfold createStringObjectFromLongLongForValue. destruct ((0 <=? i) && (i <? OBJ_SHARED_INTEGERS) && negb (no_shared_integers cfg)) eqn:E.
  - apply andb_true_iff in E as [E _]. apply runs_ret, HQ; [by apply krep_shared|done].
  - eapply (create_obj_spec _ _ _ _ _ _ _ (HVal (KStr (of_int i)))); [done|done| |]; [intros h a Ha; by exists (Robj (EInt i) 1)|]. intros; by eapply HQ.
Qed.

Lemma string2l_eq t : string2l t (zlen t) = Some (to_int t).
Proof.
  unfold string2l. rewrite to_int_eq. cbn [mbind option_bind]. destruct (to_int t) as [i|] eqn:E; [|done]. apply to_int_spec in E as [_ Hi]. unfold in_s, LONG_MIN, LONG_MAX in *.
  by rewrite (proj2 (Z.ltb_ge _ _)), (proj2 (Z.ltb_ge _ _)) by lia.
Qed.

(** An object of the running code alone is changed in place. *)
Lemma put_arg_spec n s m a x y args ev d e (Q : () → db → Prop) :
  krep n s m ((OPtr a, x) :: args) ev d → nref (keys s) a + held args a = 0 → enc_ok e → (∀ h o, h !! a = Some o → enc o = e → arep h (OPtr a) y) →
  (∀ s', krep n s' m ((OPtr a, y) :: args) ev d → keys s' = keys s → Q tt s') → runs (put_obj a (Robj e 1)) s Q.
Proof.
  intros HK H0 He Hy HQ. apply runs_modify, HQ; [|done]. pose proof (nref_nonneg (keys s) a) as Hn1. pose proof (held_range args a) as Hn2. pose proof (k_few _ _ _ _ _ _ HK) as Hn3. destruct HK as [H1 H2 H3 [H4 H4']%Forall_cons H5 H6 H7 H8].
  assert (∀ b, b ≠ a → <[a := Robj e 1]> (heap s) !! b = heap s !! b) as Hb by (intros b Hb; by rewrite lookup_insert_ne). split; try done.
  - intros b. specialize (H1 b). unfold counted in *. cbn [set_heap heap keys held fst] in *. destruct (decide (b = a)) as [->|Hne]; [|by rewrite Hb].
    rewrite lookup_insert_eq. cbn [refcount enc]. unfold one. rewrite decide_True by done. split_and!; [lia|lia|done].
  - intros k. specialize (H2 k). cbn. destruct (keys s !! k) as [r|] eqn:Ek; inversion H2 as [? z Hr|]; subst; constructor. eapply vrep_same; [done|]. intros b ->. rewrite Hb; [done|]. intros ->.
    pose proof (nref_pos _ _ _ a Ek) as Hp. unfold one in Hp. rewrite decide_True in Hp by done. lia.
  - constructor; [apply (Hy _ (Robj e 1)); [apply lookup_insert_eq|done]|]. rewrite Forall_forall in H4' |- *. intros [r v] Hin. specialize (H4' _ Hin). cbn in *. eapply arep_same; [done|]. intros b ->. rewrite Hb; [done|]. intros ->.
    pose proof (held_elem _ _ _ a Hin) as Hp. unfold one in Hp. rewrite decide_True in Hp by done. lia.
Qed.

Lemma encode_spec n s m r t args ev d (Q : oref → db → Prop) :
  krep n s m ((r, HSds t) :: args) ev d → n + 1 < OBJ_SHARED_REFCOUNT →
  (∀ s' r', krep n s' m ((r', HVal (KStr t)) :: args) ev d → keys s' = keys s → Q r' s') → runs (tryObjectEncoding alloc cfg r) s Q.
Proof.
  intros HK Hn HQ. pose proof (krep_arg _ _ _ _ _ _ _ _ HK) as Ha. pose proof (krep_forget _ _ _ _ _ _ _ _ HK) as HK'. apply runs_bind. eapply deref_spec; [done|by apply arep_value|]. intros o Et Hok Hr.
  destruct Ha as (a & o' & -> & Ho' & Eo). destruct Hr as (Ho & Hc & Hle). assert (o' = o) as -> by congruence. cbn [held fst] in Hc. unfold one in Hc. rewrite decide_True in Hc by done.
  pose proof (nref_nonneg (keys s) a). pose proof (held_range args a). cbv zeta.
  (* the integer that a short string denotes *)
  assert (∀ (f : option Z → M oref), runs (f (to_int t)) s Q → runs ((if zlen t <=? 20 then lift (string2l t (zlen t)) else mret None) ≫= f) s Q) as Hint.
  { intros f Hf. apply runs_bind. destruct (Z.leb_spec (zlen t) 20); [eapply runs_lift; [apply string2l_eq|done]|]. apply runs_ret. destruct (to_int t) as [i|] eqn:E; [|done].
    apply to_int_spec in E as [Hcan Hi]. pose proof (canonical_length _ _ Hcan Hi). lia. }
  assert (∀ i, to_int t = Some i → t = of_int i ∧ in_s 64 i) as Hof by (intros i; apply of_to_int).
  assert (refcount o ≤ 1 → refcount o = 1) as H1 by (intros; pose proof (k_heap _ _ _ _ _ _ HK a) as Hh; unfold counted in Hh; rewrite Ho in Hh; lia).
  (* a shared integer *)
  assert (∀ i, t = of_int i → (0 <=? i) && (i <? OBJ_SHARED_INTEGERS) = true → runs (decrRefCount (OPtr a) ;; mret (OShared i)) s Q) as Hsh.
  { intros i -> Hi. apply runs_bind. eapply decr_spec; [done|lia|]. intros s' HK1 Ek _. apply runs_ret, HQ; [|done]. eapply krep_le; [by apply krep_shared|lia]. }
  destruct Eo as [Eo|Eo]; rewrite Eo; (destruct (Z.ltb_spec 1 (refcount o)) as [Hr|Hr]; [by apply runs_ret, HQ|]); apply Hint; (destruct (to_int t) as [i|]; [destruct (Hof i eq_refl) as [Ei Hi]|]).
  - destruct (negb (no_shared_integers cfg) && (0 <=? i) && (i <? OBJ_SHARED_INTEGERS)) eqn:E; [apply Hsh; [done|]; destruct (no_shared_integers cfg); [done|exact E]|].
    apply runs_bind. rewrite (H1 Hr). eapply (put_arg_spec _ _ _ _ _ (HVal (KStr t))); [exact HK|lia|done| |]; [intros h x Hx Ex; exists x; by rewrite Ex, Ei|]. intros s' HK1 Ek. apply runs_ret. by apply HQ.
  - destruct (zlen t <=? OBJ_ENCODING_EMBSTR_SIZE_LIMIT); [|by apply runs_ret, HQ]. apply runs_bind. eapply (create_obj_spec _ _ _ _ _ _ _ (HVal (KStr t))); [exact HK|done| |]; [intros h x Hx; by exists (Robj (EEmbstr t) 1)|].
    intros s' b HK1 Hb _ Ek. apply krep_swap in HK1. apply runs_bind. eapply decr_spec; [done|lia|]. intros s2 HK2 Ek2 _. apply runs_ret, HQ; [eapply krep_le; [done|lia]|congruence].
  - destruct (negb (no_shared_integers cfg) && (0 <=? i) && (i <? OBJ_SHARED_INTEGERS)) eqn:E; [apply Hsh; [done|]; destruct (no_shared_integers cfg); [done|exact E]|].
    apply runs_bind. eapply decr_spec; [done|lia|]. intros s' HK1 Ek _. eapply create_ll_spec; [done|done|]. intros s2 r HK2 Ek2. apply HQ; [|congruence]. rewrite Ei. eapply krep_le; [done|lia].
  - destruct (zlen t <=? OBJ_ENCODING_EMBSTR_SIZE_LIMIT); by apply runs_ret, HQ.
Qed.

End Objects.
