(* ===== verification/KeyspaceTables.v ===== *)
(** The functions on the tables of a database, as operations on the map it represents. *)

From stdpp Require Import list numbers strings gmap.
From S2P Require Import Prelude Util Glob SdsText Object ZiplistEntry Keyspace KeyspaceRep.

(** ** Expired keys *)

Definition is_expired (now : Z) (x : kval * option Z) : bool := match x.2 with Some t => t <? now | None => false end.

(** The map without a key that is expired, and what its expiration logs. *)
Definition gone (now : Z) (key : bytes) (m : kmap) : bool := match m !! key with Some x => is_expired now x | None => false end.
Definition purge (now : Z) (key : bytes) (m : kmap) : kmap := if gone now key m then delete key m else m.
Definition purge_ev (lazy : bool) (now : Z) (key : bytes) (m : kmap) : list kevent :=
  if gone now key m then [Propagate (if lazy then "unlink" else "del") key; Eff (Notify "expired" key)] else [].

(** A list or a sorted set that is added may unblock clients. *)
Definition ready_ev (key : bytes) (v : kval) : list kevent := match v with KOther TList _ | KOther TZset _ => [Ready key] | _ => [] end.

Lemma purge_size now key m : (size (purge now key m) ≤ size m)%nat.
Proof. unfold purge. destruct (gone now key m); [|done]. apply map_subseteq_size, delete_subseteq. Qed.

Lemma gone_purge now key m : gone now key (purge now key m) = false.
Proof. unfold purge. destruct (gone now key m) eqn:E; [|done]. unfold gone. by rewrite lookup_delete_eq. Qed.

(** An expired key is removed once. *)
Lemma purge_idem now key m : purge now key (purge now key m) = purge now key m.
Proof. unfold purge at 1. by rewrite gone_purge. Qed.

Lemma purge_ev_idem lazy now key m : purge_ev lazy now key (purge now key m) = [].
Proof. unfold purge_ev. by rewrite gone_purge. Qed.

Lemma delete_purge now key m : delete key (purge now key m) = delete key m.
Proof. unfold purge. destruct (gone now key m); [|done]. by rewrite delete_delete_eq. Qed.

Lemma purge_insert now key m x : <[key := x]> (purge now key m) = <[key := x]> m.
Proof. unfold purge. destruct (gone now key m); [apply insert_delete_eq|done]. Qed.

(** ** Changes of the tables *)

(** A reference moves from the running code to the table of keys. *)
Lemma krep_insert n s m r x v args ev d key :
  krep n s m ((r, x) :: args) ev d → m !! key = None → vrep (heap s) r v → good (v, None) → krep n (set_keys (<[key := r]> (keys s)) s) (<[key := (v, None)]> m) args ev d.
Proof.
  intros HK Hm Hv Hg. destruct (krep_lookup _ _ _ _ _ _ key HK) as [[Hk _]|(? & ? & ? & _ & ? & _)]; [|congruence]. destruct HK as [H1 H2 H3 [H4 H4']%Forall_cons H5 H6 H7 H8]. split; try done.
  - intros a. specialize (H1 a). unfold counted in *. cbn [set_keys heap keys held fst] in *. rewrite nref_insert by done. destruct (heap s !! a); [|pose proof (nref_nonneg (keys s) a); pose proof (held_range args a); pose proof (one_range r a); lia].
    destruct H1 as (? & ? & ?). split_and!; [lia|lia|done].
  - intros k. cbn. destruct (decide (k = key)) as [->|Hne]; [rewrite !lookup_insert_eq; by constructor|rewrite !lookup_insert_ne by done; apply H2].
  - intros k. cbn. destruct (decide (k = key)) as [->|Hne]; [by rewrite lookup_insert_eq, H3, Hm|rewrite !lookup_insert_ne by done; apply H3].
  - by apply map_Forall_insert_2.
  - cbn. rewrite map_size_insert_None by done. cbn [length] in H8. lia.
Qed.

(** A reference of the table is replaced. *)
Lemma krep_replace n s m r x v args ev d key old v0 t0 :
  krep n s m ((r, x) :: args) ev d → keys s !! key = Some old → m !! key = Some (v0, t0) → vrep (heap s) r v → good (v, None) →
  krep n (set_keys (<[key := r]> (keys s)) s) (<[key := (v, t0)]> m) ((old, HVal v0) :: args) ev d.
Proof.
  intros HK Hk Hm Hv Hg. destruct (krep_lookup _ _ _ _ _ _ key HK) as [[? _]|(old' & v0' & t0' & Hk' & Hm' & Hold & Hgood)]; [congruence|]. simplify_eq.
  destruct HK as [H1 H2 H3 [H4 H4']%Forall_cons H5 H6 H7 H8]. split; try done.
  - intros a. specialize (H1 a). unfold counted in *. cbn [set_keys heap keys held fst] in *. rewrite <-insert_delete_eq, nref_insert by apply lookup_delete_eq. rewrite (nref_delete _ _ _ _ Hk).
    pose proof (nref_pos _ _ _ a Hk). pose proof (one_range old a). pose proof (one_range r a). pose proof (held_range args a). destruct (heap s !! a); [|lia]. destruct H1 as (? & ? & ?). split_and!; [lia|lia|done].
  - intros k. cbn. destruct (decide (k = key)) as [->|Hne]; [rewrite !lookup_insert_eq; by constructor|rewrite !lookup_insert_ne by done; apply H2].
  - intros k. cbn. destruct (decide (k = key)) as [->|Hne]; [by rewrite lookup_insert_eq, H3, Hm|rewrite !lookup_insert_ne by done; apply H3].
  - by constructor.
  - apply map_Forall_insert_2; [|done]. split; [apply Hg|apply Hgood].
  - cbn [set_keys keys]. rewrite map_size_insert_Some by done. done.
Qed.

(** A reference moves from the table to the running code. *)
Lemma krep_delete n s m r v t args ev d key :
  krep n s m args ev d → keys s !! key = Some r → m !! key = Some (v, t) →
  krep n (set_keys (delete key (keys s)) (set_expires (delete key (expires s)) s)) (delete key m) ((r, HVal v) :: args) ev d.
Proof.
  intros HK Hk Hm. destruct (krep_lookup _ _ _ _ _ _ key HK) as [[? _]|(r' & v' & t' & Hk' & Hm' & Hr & Hgood)]; [congruence|]. simplify_eq. destruct HK as [H1 H2 H3 H4 H5 H6 H7 H8]. split; try done.
  - intros a. specialize (H1 a). unfold counted in *. cbn [set_keys set_expires heap keys held fst] in *. rewrite (nref_delete _ _ _ _ Hk). pose proof (nref_pos _ _ _ a Hk). pose proof (one_range r a).
    destruct (heap s !! a); [|lia]. destruct H1 as (? & ? & ?). split_and!; [lia|lia|done].
  - intros k. cbn. destruct (decide (k = key)) as [->|Hne]; [rewrite !lookup_delete_eq; by constructor|rewrite !lookup_delete_ne by done; apply H2].
  - intros k. cbn. destruct (decide (k = key)) as [->|Hne]; [by rewrite !lookup_delete_eq|rewrite !lookup_delete_ne by done; apply H3].
  - by constructor.
  - by apply map_Forall_delete.
  - rewrite <-(insert_delete_id (keys s) key r), map_size_insert_None in H8 by (done || apply lookup_delete_eq). cbn [set_keys keys length]. lia.
Qed.

(** The deadline of a key changes. *)
Lemma krep_deadline n s m v t0 t args ev d key :
  krep n s m args ev d → m !! key = Some (v, t0) → match t with Some t => 0 ≤ t < 2 ^ 63 | None => True end →
  krep n (set_expires (match t with Some t => <[key := t]> (expires s) | None => delete key (expires s) end) s) (<[key := (v, t)]> m) args ev d.
Proof.
  intros HK Hm Ht. destruct (krep_lookup _ _ _ _ _ _ key HK) as [[_ ?]|(r' & v' & t' & Hk' & Hm' & Hr & Hgood)]; [congruence|]. simplify_eq. destruct HK as [H1 H2 H3 H4 H5 H6 H7 H8]. split; try done.
  - intros k. cbn. destruct (decide (k = key)) as [->|Hne]; [rewrite Hk', lookup_insert_eq; by constructor|rewrite lookup_insert_ne by done; apply H2].
  - intros k. cbn. destruct (decide (k = key)) as [->|Hne]; [rewrite lookup_insert_eq; destruct t; [by rewrite lookup_insert_eq|by rewrite lookup_delete_eq]|].
    rewrite lookup_insert_ne by done. destruct t; [rewrite lookup_insert_ne by done|rewrite lookup_delete_ne by done]; apply H3.
  - apply map_Forall_insert_2; [|done]. split; [apply Hgood|done].
Qed.

(** ** Functions *)

Section Tables.

Context (junk : nat → Z) (alloc : gset Z → Z) (cfg : config) (ck : clock).
Hypothesis alloc_fresh : ∀ X, alloc X ∉ X.
Hypothesis is_master : masterhost cfg = false.
Hypothesis is_loaded : loading cfg = false.

Abbreviation now := (expire_now ck).
Abbreviation lazy := (lazyfree_lazy_expire cfg).

Lemma dbAdd_spec n s m r x v args ev d key (Q : () → db → Prop) :
  krep n s m ((r, x) :: args) ev d → m !! key = None → vrep (heap s) r v → good (v, None) →
  (∀ s', krep n s' (<[key := (v, None)]> m) args (ev ++ ready_ev key v) d → keys s' !! key = Some r → heap s' = heap s → Q tt s') → runs (dbAdd key r) s Q.
Proof.
  intros HK Hm Hv Hg HQ. apply runs_bind, runs_gets, runs_bind, runs_assert.
  { destruct (krep_lookup _ _ _ _ _ _ key HK) as [[-> _]|(? & ? & ? & _ & ? & _)]; [done|congruence]. }
  apply runs_bind, runs_modify. pose proof (krep_insert _ _ _ _ _ _ _ _ _ _ HK Hm Hv Hg) as HK'.
  assert (∀ s', ready_ev key v = [] → krep n s' (<[key := (v, None)]> m) args ev d → keys s' !! key = Some r → heap s' = heap s → Q tt s') as HQ'.
  { intros s' E HK1. apply HQ. by rewrite E, app_nil_r. }
  destruct r as [i|a|ty id], v as [t|ty' id']; try done; [| |destruct Hv as [<- <-]; destruct ty].
  all: first [apply runs_ret, HQ'; [done|done|apply lookup_insert_eq|done]|apply runs_modify, HQ; [by apply krep_log|apply lookup_insert_eq|done]].
Qed.

Lemma dbOverwrite_spec n s m r x v args ev d key v0 t0 (Q : () → db → Prop) :
  krep n s m ((r, x) :: args) ev d → n < OBJ_SHARED_REFCOUNT → m !! key = Some (v0, t0) → vrep (heap s) r v → good (v, None) →
  (∀ s', krep (n - 1) s' (<[key := (v, t0)]> m) args ev d → keys s' !! key = Some r → (∀ b, keys s !! key ≠ Some (OPtr b) → heap s' !! b = heap s !! b) → Q tt s') →
  runs (dbOverwrite key r) s Q.
Proof.
  intros HK Hn Hm Hv Hg HQ. apply runs_bind, runs_gets, runs_bind. destruct (krep_lookup _ _ _ _ _ _ key HK) as [[_ ?]|(old & v' & t' & Hk & Hm' & _)]; [congruence|]. simplify_eq.
  eapply runs_lift; [done|]. apply runs_bind, runs_modify. eapply decr_spec; [by eapply krep_replace|done|]. intros s' HK' Ek Hh. apply HQ; [done|rewrite Ek; apply lookup_insert_eq|]. intros b Hb. rewrite Hh; [done|]. congruence.
Qed.

Lemma delete_key_spec n s m args ev d key (Q : bool → db → Prop) :
  krep n s m args ev d → n < OBJ_SHARED_REFCOUNT → (∀ s', krep n s' (delete key m) args ev d → Q (bool_decide (is_Some (m !! key))) s') → runs (dbSyncDelete key) s Q ∧ runs (dbAsyncDelete key) s Q.
Proof.
  intros HK Hn HQ. assert (∀ s1, s1 = set_expires (delete key (expires s)) s → runs (dictDelete key) s1 Q) as H; [|by split; apply runs_bind, runs_modify, H].
  intros s1 ->. apply runs_bind, runs_gets. cbn [set_expires keys]. destruct (krep_lookup _ _ _ _ _ _ key HK) as [[Hk Hm]|(r & v & t & Hk & Hm & _)]; rewrite Hk.
  - apply runs_ret. rewrite Hm in HQ. apply HQ. rewrite (delete_id m) by done. assert (expires s !! key = None) as He by (by rewrite (k_exp _ _ _ _ _ _ HK), Hm). destruct HK as [H1 H2 H3 H4 H5 H6 H7 H8].
    split; try done. intros k. cbn. by rewrite delete_id.
  - apply runs_bind, runs_modify, runs_bind. eapply decr_spec; [exact (krep_delete _ _ _ _ _ _ _ _ _ _ HK Hk Hm)|done|]. intros s' HK' _ _. apply runs_ret. rewrite Hm in HQ. apply HQ. eapply krep_le; [done|lia].
Qed.

Lemma getExpire_spec n s m args ev d key (Q : Z → db → Prop) : krep n s m args ev d → Q (default (-1) (m !! key ≫= snd)) s → runs (getExpire key) s Q.
Proof.
  intros HK HQ. unfold getExpire, runs. rewrite (k_exp _ _ _ _ _ _ HK). destruct (krep_lookup _ _ _ _ _ _ key HK) as [[-> E]|(r & v & t & -> & E & _)]; rewrite E in *; cbn in *; [by eexists _, _|].
  destruct t as [t|]; by eexists _, _.
Qed.

Lemma setExpire_spec n s m v t0 t args ev d key (Q : () → db → Prop) :
  krep n s m args ev d → m !! key = Some (v, t0) → 0 ≤ t < 2 ^ 63 → (∀ s', krep n s' (<[key := (v, Some t)]> m) args ev d → Q tt s') → runs (setExpire key t) s Q.
Proof.
  intros HK Hm Ht HQ. unfold setExpire, runs. pose proof (krep_deadline _ _ _ _ _ (Some t) _ _ _ _ HK Hm Ht) as HK'. destruct (krep_lookup _ _ _ _ _ _ key HK) as [[_ ?]|(r & v' & t' & -> & _)]; [congruence|].
  eexists _, _. split; [done|]. by apply HQ.
Qed.

Lemma removeExpire_spec n s m v t0 args ev d key (Q : bool → db → Prop) :
  krep n s m args ev d → m !! key = Some (v, t0) → (∀ s', krep n s' (<[key := (v, None)]> m) args ev d → keys s' = keys s → Q (bool_decide (is_Some t0)) s') → runs (removeExpire key) s Q.
Proof.
  intros HK Hm HQ. unfold removeExpire, runs. pose proof (krep_deadline _ _ _ _ _ None _ _ _ _ HK Hm I) as HK'. rewrite (k_exp _ _ _ _ _ _ HK), Hm. destruct (krep_lookup _ _ _ _ _ _ key HK) as [[_ ?]|(r & v' & t' & -> & _)]; [congruence|].
  eexists _, _. split; [done|]. by apply HQ.
Qed.

(** A key that is expired disappears when it is looked up. *)
Lemma expire_spec n s m args ev d key (Q : bool → db → Prop) :
  krep n s m args ev d → n < OBJ_SHARED_REFCOUNT → (∀ s', krep n s' (purge now key m) args (ev ++ purge_ev lazy now key m) d → Q (gone now key m) s') → runs (expireIfNeeded cfg ck key) s Q.
Proof.
  intros HK Hn HQ. apply runs_bind, runs_bind. eapply getExpire_spec; [done|]. apply runs_ret. rewrite is_loaded, is_master.
  assert ((if default (-1) (m !! key ≫= snd) <? 0 then false else default (-1) (m !! key ≫= snd) <? now) = gone now key m) as ->.
  { unfold gone. destruct (krep_lookup _ _ _ _ _ _ key HK) as [[_ ->]|(r & v & t & _ & -> & _ & Hg)]; [done|]. destruct Hg as [_ Hg]. cbn [snd] in Hg. cbn. destruct t as [t|]; [|done]. cbn. by rewrite (proj2 (Z.ltb_ge t 0)) by lia. }
  unfold purge, purge_ev in HQ. destruct (gone now key m) eqn:E; cbn [negb]; [|apply runs_ret, HQ; by rewrite app_nil_r].
  apply runs_bind. eapply log_spec; [done|]. intros s1 HK1 _. apply runs_bind. eapply log_spec; [done|]. intros s2 HK2 _. rewrite <-(assoc_L (++)) in HK2.
  assert (bool_decide (is_Some (m !! key)) = true) as Eb by (unfold gone in E; by destruct (m !! key)). pose proof (delete_key_spec _ _ _ _ _ _ key Q HK2 Hn) as Hdel. rewrite Eb in Hdel. destruct Hdel as [Hd1 Hd2]; [done|]. by destruct lazy.
Qed.

Lemma lookup_write_spec n s m args ev d key (Q : option oref → db → Prop) :
  krep n s m args ev d → n < OBJ_SHARED_REFCOUNT →
  (∀ s', krep n s' (purge now key m) args (ev ++ purge_ev lazy now key m) d → purge now key m !! key = None → Q None s') →
  (∀ s' r v t, krep n s' (purge now key m) args (ev ++ purge_ev lazy now key m) d → keys s' !! key = Some r → purge now key m !! key = Some (v, t) → vrep (heap s') r v → good (v, t) → Q (Some r) s') →
  runs (lookupKeyWrite cfg ck key) s Q.
Proof.
  intros HK Hn HQ1 HQ2. apply runs_bind. eapply expire_spec; [done|done|]. intros s' HK'. apply runs_gets. destruct (krep_lookup _ _ _ _ _ _ key HK') as [[-> E]|(r & v & t & Ek & Em & Hv & Hg)]; [by apply HQ1|]. rewrite Ek. by eapply HQ2.
Qed.

Lemma lookup_read_spec n s m args ev d key (Q : option oref → db → Prop) :
  krep n s m args ev d → n < OBJ_SHARED_REFCOUNT →
  (∀ s', krep n s' (purge now key m) args (ev ++ purge_ev lazy now key m) d → purge now key m !! key = None → Q None s') →
  (∀ s' r v t, krep n s' (purge now key m) args (ev ++ purge_ev lazy now key m) d → keys s' !! key = Some r → purge now key m !! key = Some (v, t) → vrep (heap s') r v → good (v, t) → Q (Some r) s') →
  runs (lookupKeyRead cfg ck key) s Q.
Proof.
  intros HK Hn HQ1 HQ2. apply runs_bind. eapply expire_spec; [done|done|]. intros s' HK'. rewrite is_master. cbn [negb orb]. rewrite andb_true_r. destruct (gone now key m) eqn:E.
  - apply runs_ret, HQ1; [done|]. unfold purge. rewrite E. apply lookup_delete_eq.
  - apply runs_gets. destruct (krep_lookup _ _ _ _ _ _ key HK') as [[-> E']|(r & v & t & Ek & Em & Hv & Hg)]; [by apply HQ1|]. rewrite Ek. by eapply HQ2.
Qed.

(** ** Values *)

Lemma good_string t : zlen t ≤ max_string → good (KStr t, None).
Proof. done. Qed.

(** A string becomes the value of a key; the running code keeps its reference. *)
Lemma setKey_spec n s m r t args ev d key (Q : () → db → Prop) :
  krep n s m ((r, HVal (KStr t)) :: args) ev d → n + 1 < OBJ_SHARED_REFCOUNT → zlen t ≤ max_string →
  (∀ s', krep (n + 1) s' (<[key := (KStr t, None)]> m) ((r, HVal (KStr t)) :: args) (ev ++ purge_ev lazy now key m ++ [Eff (Signal key)]) d → Q tt s') → runs (setKey cfg ck key r) s Q.
Proof.
  intros HK Hn Ht HQ. set (P := λ s', ∃ t0, krep n s' (<[key := (KStr t, t0)]> m) args (ev ++ purge_ev lazy now key m) d ∧ keys s' !! key = Some r).
  apply runs_bind. eapply runs_mono with (P := λ o s1, runs (match o with None => dbAdd key r | Some _ => dbOverwrite key r end) s1 (λ _, P)).
  - eapply lookup_write_spec; [done|lia| |].
    + intros s1 HK1 Em. pose proof (krep_arg _ _ _ _ _ _ _ _ HK1) as Hv. eapply dbAdd_spec; [done|done|done|by apply good_string|]. intros s2 HK2 Ek _. exists None. rewrite purge_insert in HK2. cbn [ready_ev] in HK2. by rewrite app_nil_r in HK2.
    + intros s1 r0 v0 t0 HK1 Ek0 Em _ _. pose proof (krep_arg _ _ _ _ _ _ _ _ HK1) as Hv. eapply dbOverwrite_spec; [done|lia|done|done|by apply good_string|]. intros s2 HK2 Ek _. exists t0. rewrite purge_insert in HK2. split; [|done]. eapply krep_le; [done|lia].
  - intros o s1 H1. eapply runs_seq; [exact H1|]. intros _ s2 (t0 & HK2 & Ek2). assert (vrep (heap s2) r (KStr t)) as Hv.
    { destruct (krep_lookup _ _ _ _ _ _ key HK2) as [[? _]|(r' & v' & t' & Ek & Em & Hv & _)]; [congruence|]. rewrite lookup_insert_eq in Em. by simplify_eq. }
    apply runs_bind. eapply (incr_spec _ _ _ _ (HVal (KStr t))); [done|lia|done|]. intros s3 HK3 Ek3. apply runs_bind. eapply removeExpire_spec; [done|apply lookup_insert_eq|]. intros s4 HK4 Ek4. rewrite insert_insert_eq in HK4.
    eapply log_spec; [done|]. intros s5 HK5 _. apply HQ. by rewrite <-(assoc_L (++)) in HK5.
Qed.

(** The value of a key that nothing else refers to is changed in place. *)
Lemma put_key_spec n s m a t t0 t' args ev d key o e (Q : () → db → Prop) :
  krep n s m args ev d → keys s !! key = Some (OPtr a) → m !! key = Some (KStr t, t0) → heap s !! a = Some o → refcount o = 1 → enc_ok e → enc_text e = t' → zlen t' ≤ max_string →
  (∀ s', krep n s' (<[key := (KStr t', t0)]> m) args ev d → keys s' = keys s → Q tt s') → runs (put_obj a (Robj e 1)) s Q.
Proof.
  intros HK Hk Hm Ho Hr He Et Ht HQ. apply runs_modify, HQ; [|done]. pose proof (nref_pos _ _ _ a Hk) as Hp. unfold one in Hp. rewrite decide_True in Hp by done.
  pose proof (k_heap _ _ _ _ _ _ HK a) as Hc. unfold counted in Hc. rewrite Ho in Hc. pose proof (held_range args a) as Hh. pose proof (k_good _ _ _ _ _ _ HK _ _ Hm) as Hg. destruct HK as [H1 H2 H3 H4 H5 H6 H7 H8].
  assert (∀ b, b ≠ a → <[a := Robj e 1]> (heap s) !! b = heap s !! b) as Hb by (intros b Hb; by rewrite lookup_insert_ne). split; try done.
  - intros b. specialize (H1 b). unfold counted in *. cbn [set_heap heap keys] in *. destruct (decide (b = a)) as [->|Hne]; [|by rewrite Hb]. rewrite lookup_insert_eq. cbn. split_and!; [lia|lia|done].
  - intros k. cbn. destruct (decide (k = key)) as [->|Hne]; [rewrite Hk, lookup_insert_eq; constructor; exists (Robj e 1); by rewrite lookup_insert_eq|]. rewrite lookup_insert_ne by done. specialize (H2 k).
    destruct (keys s !! k) as [r|] eqn:Ek; inversion H2 as [? z Hz|]; subst; constructor. eapply vrep_same; [done|]. intros b ->. rewrite Hb; [done|]. intros ->.
    assert (delete key (keys s) !! k = Some (OPtr a)) as Ed by by rewrite lookup_delete_ne. pose proof (nref_pos _ _ _ a Ed) as Hp'. rewrite (nref_delete _ _ _ _ Hk) in Hp'. unfold one in Hp'. rewrite !decide_True in Hp' by done. lia.
  - intros k. cbn. destruct (decide (k = key)) as [->|Hne]; [by rewrite lookup_insert_eq, H3, Hm|rewrite lookup_insert_ne by done; apply H3].
  - rewrite Forall_forall in H4 |- *. intros [r x] Hin. specialize (H4 _ Hin). cbn in *. eapply arep_same; [done|]. intros b ->. rewrite Hb; [done|]. intros ->.
    pose proof (held_elem _ _ _ a Hin) as Hp'. unfold one in Hp'. rewrite decide_True in Hp' by done. lia.
  - apply map_Forall_insert_2; [|done]. split; [done|apply Hg].
Qed.

Lemma unshare_spec n s m r t t0 args ev d key (Q : oref → db → Prop) :
  krep n s m args ev d → n + 2 < OBJ_SHARED_REFCOUNT → keys s !! key = Some r → m !! key = Some (KStr t, t0) →
  (∀ s' a o, krep n s' m args ev d → keys s' !! key = Some (OPtr a) → heap s' !! a = Some o → refcount o = 1 → enc o = ERaw t → Q (OPtr a) s') → runs (dbUnshareStringValue junk alloc key r) s Q.
Proof.
  intros HK Hn Hk Hm HQ. destruct (krep_lookup _ _ _ _ _ _ key HK) as [[? _]|(r' & v' & t' & Ek & Em & Hv & Hg)]; [congruence|]. simplify_eq.
  apply runs_bind, runs_assert; [by destruct r|]. apply runs_bind. eapply deref_spec; [done|done|]. intros o Et Hok Hr.
  assert (runs (getDecodedObject junk alloc r) s (λ x s1, ∃ n1, n1 ≤ n + 1 ∧ krep n1 s1 m ((x, HSds t) :: args) ev d ∧ keys s1 = keys s)) as Hdec.
  { apply runs_bind. eapply deref_spec; [done|done|]. intros o' Et' Hok' Hr'. destruct (enc o') as [x|x|i] eqn:Eo; cbn [enc_text] in Et'.
    1,2: subst x; (destruct r as [i|a|]; [destruct Hr' as [_ [? ?]]; congruence|destruct Hr' as (Ho & Hc & Hle)|done]); apply runs_bind; (eapply (incr_spec _ _ _ _ (HSds t)); [done|lia|exists a, o'; eauto|]); intros s1 HK1 Ek1; apply runs_ret; exists (n + 1); split_and!; [lia|done|done].
    apply runs_bind. eapply runs_lift; [by apply ll_text_spec|]. rewrite Et'. eapply create_string_spec; [done|done|]. intros s1 x HK1 Ek1. exists (n + 1). split_and!; [lia|done|done]. }
  assert (∀ s1 decoded n1, n1 ≤ n + 1 → krep n1 s1 m ((decoded, HSds t) :: args) ev d → keys s1 = keys s →
    runs (t ← sds_of decoded; x ← createRawStringObject alloc t; decrRefCount decoded;; dbOverwrite key x;; mret x) s1 Q) as Hcopy.
  { intros s1 decoded n1 Hn1 HK1 Ek1. apply runs_bind. eapply sds_of_spec; [done|by eapply krep_arg|]. apply runs_bind. eapply (create_obj_spec _ alloc_fresh _ _ _ _ _ _ _ (HVal (KStr t))); [done|done| |]; [intros h a Ha; by exists (Robj (ERaw t) 1)|].
    intros s2 a HK2 Ha Hnew Ek2. assert (keys s1 !! key = Some r) as Hk1 by congruence. assert (r ≠ OPtr a ∧ decoded ≠ OPtr a) as [Hra Hda].
    { split; intros ->; [destruct (krep_lookup _ _ _ _ _ _ key HK1) as [[? _]|(r' & v' & t' & E & Em' & Hv' & _)]; [congruence|]; simplify_eq; destruct Hv' as (? & ? & _); congruence|].
      destruct (krep_arg _ _ _ _ _ _ _ _ HK1) as (a' & ? & [= <-] & ? & _). congruence. }
    apply krep_swap in HK2. apply runs_bind. eapply decr_spec; [done|lia|]. intros s3 HK3 Ek3 Hh3. apply runs_bind. eapply dbOverwrite_spec; [done|lia|done|exact (krep_arg _ _ _ _ _ _ _ _ HK3)|by apply good_string; apply Hg|].
    intros s4 HK4 Ek4 Hh4. apply runs_ret. rewrite (insert_id m) in HK4 by done. apply (HQ _ _ (Robj (ERaw t) 1)); [eapply krep_le; [done|lia]|done| |done|done]. rewrite Hh4, Hh3; [done|done|]. rewrite Ek3, Ek2, Hk1. congruence. }
  assert (runs (decoded ← getDecodedObject junk alloc r; t ← sds_of decoded; x ← createRawStringObject alloc t; decrRefCount decoded;; dbOverwrite key x;; mret x) s Q) as Hslow.
  { eapply runs_seq; [exact Hdec|]. intros x s1 (n1 & Hn1 & HK1 & Ek1). by eapply Hcopy. }
  destruct (Z.eqb_spec (refcount o) 1) as [E1|_]; [|exact Hslow]. destruct (enc o) as [x|x|i] eqn:Eo; [|exact Hslow..].
  destruct r as [i|a|]; [destruct Hr as [? _]; unfold OBJ_SHARED_REFCOUNT in *; lia|destruct Hr as (Ho & _)|done]. apply runs_ret. eapply HQ; [done|done|done|done|]. cbn in Et. by subst t.
Qed.

(** All keys are released. *)
Lemma held_perm l l' a : l ≡ₚ l' → held l a = held l' a.
Proof. induction 1; cbn [held] in *; lia. Qed.

Lemma held_app l l' a : held (l ++ l') a = held l a + held l' a.
Proof. induction l as [|x l IH]; cbn [app held]; [lia|]. rewrite IH. lia. Qed.

Lemma nref_held (f : bytes → known) (e : gmap bytes oref) a : nref e a = held ((λ x, (x.2, f x.1)) <$> map_to_list e) a.
Proof.
  induction e as [|k r e Hk IH] using map_ind; [by rewrite map_to_list_empty|]. rewrite nref_insert, IH by done. rewrite (held_perm (_ <$> map_to_list (<[k := r]> e)) ((λ x, (x.2, f x.1)) <$> ((k, r) :: map_to_list e))).
  - rewrite fmap_cons. cbn [held fst snd]. lia.
  - by rewrite map_to_list_insert.
Qed.

Lemma free_all_spec l : ∀ n s m args ev d (Q : () → db → Prop),
  krep n s m (l ++ args) ev d → n < OBJ_SHARED_REFCOUNT → (∀ s', krep n s' m args ev d → Q tt s') → runs (foldr (λ r m, decrRefCount r;; m) (mret tt) l.*1) s Q.
Proof.
  induction l as [|[r x] l IH]; intros n s m args ev d Q HK Hn HQ; [by apply runs_ret, HQ|]. cbn [fmap list_fmap foldr fst]. apply runs_bind. eapply decr_spec; [done|done|]. intros s1 HK1 _ _.
  eapply IH; [done|lia|]. intros s2 HK2. apply HQ. eapply krep_le; [done|lia].
Qed.

Lemma empty_spec n s m args ev d (Q : Z → db → Prop) :
  krep n s m args ev d → n < OBJ_SHARED_REFCOUNT → (∀ s', krep n s' ∅ args ev d → Q (Z.of_nat (size m)) s') → runs emptyDb s Q.
Proof.
  intros HK Hn HQ. apply runs_bind, runs_gets, runs_bind, runs_modify. set (f k := HVal (default (KStr []) (fst <$> m !! k))). set (l := (λ x, (x.2, f x.1)) <$> map_to_list (keys s)).
  assert (krep n (set_expires ∅ (set_keys ∅ s)) ∅ (l ++ args) ev d) as HK'.
  { destruct HK as [H1 H2 H3 H4 H5 H6 H7 H8]. split; try done.
    - intros a. specialize (H1 a). unfold counted in *. cbn [set_expires set_keys heap keys]. rewrite held_app, nref_empty. unfold l. rewrite <-(nref_held f). destruct (heap s !! a); [done|]. pose proof (nref_nonneg (keys s) a). pose proof (held_range args a). lia.
    - intros k. cbn. rewrite !lookup_empty. constructor.
    - apply Forall_app. split; [|done]. apply Forall_fmap, Forall_forall. intros [k r] Hk%elem_of_map_to_list. cbn. specialize (H2 k). rewrite Hk in H2. unfold f. destruct (m !! k); inversion H2; subst; done.
    - cbn. rewrite length_app. unfold l. rewrite length_fmap, length_map_to_list, map_size_empty. lia. }
  apply runs_bind. replace (map_to_list (keys s)).*2 with l.*1 by (unfold l; rewrite <-list_fmap_compose; done). eapply free_all_spec; [done|done|]. intros s' HK2. apply runs_ret. rewrite (krep_size _ _ _ _ _ _ HK). by apply HQ.
Qed.

End Tables.
