(* ===== verification/KeyspaceSpec.v ===== *)
(** The commands of [KeyCommands] on a map from keys to values with deadlines: what a database
    promises to its clients. *)

From stdpp Require Import list numbers strings gmap.
From S2P Require Import Prelude Util Glob SdsText Object ZiplistEntry Keyspace KeyCommands KeyspaceRep KeyspaceTables.

(** ** The specification *)

Abbreviation kout := (kmap * reply * list kevent * Z)%type.

Definition sig (key : bytes) : kevent := Eff (Signal key).
Definition ntf (event : string) (key : bytes) : kevent := Eff (Notify event key).

(** [v] written at an offset of a string, which grows with zeros. *)
Definition write_at (off : Z) (v t : bytes) : bytes :=
  take (Z.to_nat off) (t ++ replicate (Z.to_nat (off - zlen t)) 0) ++ v ++ drop (Z.to_nat off + length v) t.

(** The bytes from [start] to [end_], which count from the end when they are negative. *)
Definition substring (start end_ : Z) (t : bytes) : bytes :=
  if (start <? 0) && (end_ <? 0) && (end_ <? start) then []
  else
    let from := Z.max 0 (if start <? 0 then zlen t + start else start) in
    let to := Z.max 0 (if end_ <? 0 then zlen t + end_ else end_) in
    drop (Z.to_nat from) (take (Z.to_nat (to + 1)) t).

Section Spec.

Context (cfg : config) (ck : clock).

Abbreviation now := (expire_now ck).
Abbreviation lazy := (lazyfree_lazy_expire cfg).
Abbreviation pm key m := (purge now key m).
Abbreviation pe key m := (purge_ev lazy now key m).

Definition a_ll (m : kmap) (s : bytes) (c : Z → option kout) : option kout := match to_int s with Some n => c n | None => Some (m, notintegererr, [], 0) end.

Definition string_reply (x : option (kval * option Z)) : reply :=
  match x with None => RNullBulk | Some (KStr t, _) => RBulk t | Some (KOther _ _, _) => wrongtypeerr end.

Definition a_put (m : kmap) (flags : Z) (key v : bytes) (deadline : option Z) (ok abort : reply) : kout :=
  let found := bool_decide (is_Some (pm key m !! key)) in
  if (negb (Z.land flags OBJ_SET_NX =? 0) && found) || (negb (Z.land flags OBJ_SET_XX =? 0) && negb found) then (pm key m, abort, pe key m, 0)
  else (<[key := (KStr v, deadline)]> m, ok, pe key m ++ [sig key; ntf "set" key] ++ match deadline with Some _ => [ntf "expire" key] | None => [] end, 1).

Definition a_set (m : kmap) (name : string) (flags : Z) (key v : bytes) (expire : option bytes) (unit : Z) (ok abort : reply) : option kout :=
  match expire with
  | None => Some (a_put m flags key v None ok abort)
  | Some e =>
      a_ll m e (λ ms,
        if ms <=? 0 then Some (m, invalid_expire name, [], 0)
        else
          ms ← (if unit =? UNIT_SECONDS then ll (ms * 1000) else Some ms);
          when ← ll (mstime1 ck + ms);
          Some (a_put m flags key v (Some when) ok abort))
  end.

Fixpoint a_mget (m : kmap) (ks : list bytes) : kmap * list (option bytes) * list kevent :=
  match ks with
  | [] => (m, [], [])
  | key :: ks =>
      let '(m', l, ev) := a_mget (pm key m) ks in
      (m', match pm key m !! key with Some (KStr t, _) => Some t | _ => None end :: l, pe key m ++ ev)
  end.

(** Whether a key exists, for the keys in turn up to the first that does. *)
Fixpoint a_any (m : kmap) (ks : list bytes) : kmap * bool * list kevent :=
  match ks with
  | [] => (m, false, [])
  | key :: ks =>
      if bool_decide (is_Some (pm key m !! key)) then (pm key m, true, pe key m)
      else let '(m', b, ev) := a_any (pm key m) ks in (m', b, pe key m ++ ev)
  end.

Fixpoint a_mset (m : kmap) (kvs : list (bytes * bytes)) : kmap * list kevent :=
  match kvs with
  | [] => (m, [])
  | (key, v) :: kvs => let '(m', ev) := a_mset (<[key := (KStr v, None)]> m) kvs in (m', pe key m ++ [sig key; ntf "set" key] ++ ev)
  end.

Definition a_incr (m : kmap) (key : bytes) (incr : Z) : option kout :=
  let change (old : option Z) (deadline : option Z) : kout :=
    match old with
    | None => (pm key m, notintegererr, pe key m, 0)
    | Some v =>
        if decide (in_s 64 (v + incr)) then (<[key := (KStr (of_int (v + incr)), deadline)]> m, RInt (v + incr), pe key m ++ [sig key; ntf "incrby" key], 1)
        else (pm key m, overflowerr, pe key m, 0)
    end in
  if decide (in_s 64 incr) then
    Some (match pm key m !! key with
          | Some (KOther _ _, _) => (pm key m, wrongtypeerr, pe key m, 0)
          | Some (KStr t, deadline) => change (to_int t) deadline
          | None => change (Some 0) None
          end)
  else None.

Fixpoint a_del (m : kmap) (ks : list bytes) : kmap * Z * list kevent :=
  match ks with
  | [] => (m, 0, [])
  | key :: ks =>
      let '(m', n, ev) := a_del (delete key m) ks in
      if bool_decide (is_Some (pm key m !! key)) then (m', n + 1, pe key m ++ [sig key; ntf "del" key] ++ ev) else (m', n, pe key m ++ ev)
  end.

Fixpoint a_exists (m : kmap) (ks : list bytes) : kmap * Z * list kevent :=
  match ks with
  | [] => (m, 0, [])
  | key :: ks => let '(m', n, ev) := a_exists (pm key m) ks in (m', if bool_decide (is_Some (pm key m !! key)) then n + 1 else n, pe key m ++ ev)
  end.

Definition a_type (x : option (kval * option Z)) : string :=
  match x with
  | None => "none"
  | Some (KStr _, _) => "string"
  | Some (KOther TList _, _) => "list"
  | Some (KOther TSet _, _) => "set"
  | Some (KOther TZset _, _) => "zset"
  | Some (KOther THash _, _) => "hash"
  | Some (KOther TStream _, _) => "stream"
  end.

Definition a_rename (m : kmap) (key newkey : bytes) (nx : bool) : kout :=
  let m1 := pm key m in
  match m1 !! key with
  | None => (m1, nokeyerr, pe key m, 0)
  | Some x =>
      if bool_decide (key = newkey) then (m1, if nx then RInt 0 else ROk, pe key m, 0)
      else if bool_decide (is_Some (pm newkey m1 !! newkey)) && nx then (pm newkey m1, RInt 0, pe key m ++ pe newkey m1, 0)
      else
        (<[newkey := x]> (delete key m1), if nx then RInt 1 else ROk,
         pe key m ++ pe newkey m1 ++ ready_ev newkey x.1 ++ [sig key; sig newkey; ntf "rename_from" key; ntf "rename_to" newkey], 1)
  end.

Definition a_expire (m : kmap) (key param : bytes) (basetime unit : Z) : option kout :=
  a_ll m param (λ when,
    when ← (if unit =? UNIT_SECONDS then ll (when * 1000) else Some when);
    when ← ll (when + basetime);
    Some (match pm key m !! key with
          | None => (pm key m, RInt 0, pe key m, 0)
          | Some (v, _) =>
              if when <=? mstime2 ck then (delete key m, RInt 1, pe key m ++ [Rewrite (if lazy then "unlink" else "del") key; sig key; ntf "del" key], 1)
              else (<[key := (v, Some when)]> m, RInt 1, pe key m ++ [sig key; ntf "expire" key], 1)
          end)).

(** The time to live in seconds is rounded. *)
Definition a_ttl (x : option (kval * option Z)) (output_ms : bool) : Z :=
  match x with
  | None => -2
  | Some (_, None) => -1
  | Some (_, Some t) => let ttl := Z.max 0 (t - mstime1 ck) in if output_ms then ttl else (ttl + 500) / 1000
  end.

Definition fits (v : bytes) : bool := zlen v <=? max_string.

(** [None]: the caller does not keep the limits: strings of at most 512 megabytes, times and
    increments that do not overflow a signed integer. *)
Definition a_kcmd (m : kmap) (cmd : kcmd) : option kout :=
  match cmd with
  | CSet key v options =>
      if fits v then
        match set_options options 0 None UNIT_SECONDS with
        | None => Some (m, syntaxerr, [], 0)
        | Some (flags, expire, unit) => a_set m "set" flags key v expire unit ROk RNullBulk
        end
      else None
  | CSetnx key v => if fits v then a_set m "setnx" OBJ_SET_NX key v None 0 (RInt 1) (RInt 0) else None
  | CSetex key seconds v => if fits v then a_set m "setex" 0 key v (Some seconds) UNIT_SECONDS ROk RNullBulk else None
  | CPsetex key ms v => if fits v then a_set m "psetex" 0 key v (Some ms) UNIT_MILLISECONDS ROk RNullBulk else None
  | CGet key => Some (pm key m, string_reply (pm key m !! key), pe key m, 0)
  | CGetset key v =>
      if fits v then
        Some (match pm key m !! key with
              | Some (KOther _ _, _) => (pm key m, wrongtypeerr, pe key m, 0)
              | x => (<[key := (KStr v, None)]> m, string_reply x, pe key m ++ [sig key; ntf "set" key], 1)
              end)
      else None
  | CSetrange key off v =>
      if fits v then
        a_ll m off (λ off,
          if off <? 0 then Some (m, RError "-ERR offset is out of range", [], 0)
          else if 2 ^ 63 <=? off + zlen v then None
          else
            let change (t : bytes) (deadline : option Z) :=
              if zlen v =? 0 then (pm key m, RInt (zlen t), pe key m, 0)
              else if 512 * 1024 * 1024 <? off + zlen v then (pm key m, toolongerr, pe key m, 0)
              else (<[key := (KStr (write_at off v t), deadline)]> m, RInt (Z.max (zlen t) (off + zlen v)), pe key m ++ [sig key; ntf "setrange" key], 1) in
            Some (match pm key m !! key with
                  | None => change [] None
                  | Some (KStr t, deadline) => change t deadline
                  | Some (KOther _ _, _) => (pm key m, wrongtypeerr, pe key m, 0)
                  end))
      else None
  | CGetrange key start end_ =>
      a_ll m start (λ start, a_ll m end_ (λ end_,
        Some (pm key m, match pm key m !! key with None => emptybulk | Some (KStr t, _) => RBulk (substring start end_ t) | _ => wrongtypeerr end, pe key m, 0)))
  | CMget ks => let '(m', l, ev) := a_mget m ks in Some (m', RMultiBulk (zlen ks) l, ev, 0)
  | CMset args nx =>
      if forallb fits args && (Z.of_nat (size m) + 2 * zlen args <? 2 ^ 30) then
        Some (if Z.odd (zlen args) then (m, RError "-ERR wrong number of arguments for MSET", [], 0)
              else
                let '(m1, found, ev) := if nx then a_any m (pairs args).*1 else (m, false, []) in
                if (found : bool) then (m1, RInt 0, ev, 0)
                else let '(m2, ev') := a_mset m1 (pairs args) in (m2, if nx then RInt 1 else ROk, ev ++ ev', zlen (pairs args)))
      else None
  | CIncrDecr key incr => a_incr m key incr
  | CIncrby key incr => a_ll m incr (a_incr m key)
  | CDecrby key decr => a_ll m decr (λ n, a_incr m key (- n))
  | CAppend key v =>
      if fits v then
        Some (match pm key m !! key with
              | None => (<[key := (KStr v, None)]> m, RInt (zlen v), pe key m ++ [sig key; ntf "append" key], 1)
              | Some (KStr t, deadline) =>
                  if 512 * 1024 * 1024 <? zlen t + zlen v then (pm key m, toolongerr, pe key m, 0)
                  else (<[key := (KStr (t ++ v), deadline)]> m, RInt (zlen t + zlen v), pe key m ++ [sig key; ntf "append" key], 1)
              | Some (KOther _ _, _) => (pm key m, wrongtypeerr, pe key m, 0)
              end)
      else None
  | CStrlen key => Some (pm key m, match pm key m !! key with None => RInt 0 | Some (KStr t, _) => RInt (zlen t) | _ => wrongtypeerr end, pe key m, 0)
  | CDel ks _ => let '(m', n, ev) := a_del m ks in Some (m', RInt n, ev, n)
  | CExists ks | CTouch ks => let '(m', n, ev) := a_exists m ks in Some (m', RInt n, ev, 0)
  | CType key => Some (pm key m, RStatus (a_type (pm key m !! key)), pe key m, 0)
  | CRename key newkey nx => Some (a_rename m key newkey nx)
  | CExpire key time unit => a_expire m key time (mstime1 ck) unit
  | CExpireat key time unit => a_expire m key time 0 unit
  | CTtl key output_ms => Some (pm key m, RInt (a_ttl (pm key m !! key) output_ms), pe key m, 0)
  | CPersist key =>
      Some (match pm key m !! key with
            | Some (v, Some _) => (<[key := (v, None)]> m, RInt 1, pe key m, 1)
            | _ => (pm key m, RInt 0, pe key m, 0)
            end)
  | CDbsize => Some (m, RInt (Z.of_nat (size m)), [], 0)
  | CFlushdb options =>
      Some (match getFlushCommandFlags options with
            | None => (m, syntaxerr, [], 0)
            | Some _ => (∅, ROk, [Flushed], Z.of_nat (size m))
            end)
  end.

End Spec.

(** A step of a master: fewer than 2^30 keys, a clock after the epoch (by half a second, to which
    TTL rounds) and an entry of the table for the expire cycle. *)
Definition a_kstep (cfg : config) (m : kmap) (st : kstep) : option (kmap * (option reply * list kevent * Z)) :=
  if Z.of_nat (size m) <? 2 ^ 30 then
    match st with
    | Call ck _ cmd =>
        if (500 <=? mstime1 ck) && (mstime1 ck <? 2 ^ 63) && (0 <=? mstime2 ck) then '(m, r, ev, d) ← a_kcmd cfg ck m cmd; Some (m, (Some r, ev, d)) else None
    | Cycle key now =>
        x ← m !! key;
        t ← snd x;
        Some (if t <? now then (delete key m, (None, [Propagate (if lazyfree_lazy_expire cfg then "unlink" else "del") key; ntf "expired" key], 0)) else (m, (None, [], 0)))
    end
  else None.

Fixpoint a_ksteps (cfg : config) (m : kmap) (sts : list kstep) : option (kmap * list (option reply * list kevent * Z)) :=
  match sts with
  | [] => Some (m, [])
  | st :: sts => '(m, o) ← a_kstep cfg m st; '(m, os) ← a_ksteps cfg m sts; Some (m, o :: os)
  end.
