(* ===== verification/KeyspaceRefine.v ===== *)
(** The commands on a database have the results of the same commands on the map it represents. *)

From stdpp Require Import list numbers strings gmap.
From S2P Require Import Prelude Util Glob SdsText Object ZiplistEntry Keyspace KeyCommands KeyspaceRep KeyspaceTables KeyspaceSpec.

Set Default Proof Using "All".

Section Refine.

Context (junk : nat → Z) (alloc : gset Z → Z) (cfg : config) (ck : clock).
Hypothesis alloc_fresh : ∀ X, alloc X ∉ X.
Hypothesis is_master : masterhost cfg = false.
Hypothesis is_loaded : loading cfg = false.
Hypothesis clock1 : 500 ≤ mstime1 ck < 2 ^ 63.
Hypothesis clock2 : 0 ≤ mstime2 ck.

Abbreviation now := (expire_now ck).
Abbreviation lazy := (lazyfree_lazy_expire cfg).
Abbreviation pm key m := (purge now key m).
Abbreviation pe key m := (purge_ev lazy now key m).
Abbreviation limit := (OBJ_SHARED_REFCOUNT).

(** The result of a command: the reply and the state, with some more references. *)
Definition done_with (n : Z) (o : kout) (args : list (oref * known)) (r : reply) (s : db) : Prop :=
  r = o.1.1.2 ∧ ∃ n', n' ≤ n ∧ krep n' s o.1.1.1 args o.1.2 o.2.

Lemma done_intro (n n' : Z) (s : db) (m : kmap) (args : list (oref * known)) ev d r r' : krep n' s m args ev d → n' ≤ n → r' = r → done_with n (m, r, ev, d) args r' s.
Proof. intros HK Hn ->. split; [done|]. by exists n'. Qed.

Lemma ll_or_reply_spec (n : Z) (s : db) (m : kmap) (args : list (oref * known)) (t : bytes) (c : Z → M reply) (f : Z → option kout) (o : kout) N :
  krep n s m args [] 0 → n ≤ N → a_ll m t f = Some o → (∀ i, in_s 64 i → f i = Some o → runs (c i) s (done_with N o args)) → runs (ll_or_reply t c) s (done_with N o args).
Proof.
  intros HK Hn Ha Hc. apply runs_bind. unfold getLongFromObject. eapply runs_lift; [apply to_int_eq|]. unfold a_ll in Ha. destruct (to_int t) as [i|] eqn:E; [|].
  - apply Hc; [|done]. by apply to_int_spec in E as [_ ?].
  - injection Ha as <-. apply runs_ret. by eapply done_intro.
Qed.

Lemma ll_spec z w : ll z = Some w → w = z ∧ in_s 64 z.
Proof. unfold ll. case_decide; [|done]. by intros [= <-]. Qed.

(** ** SET *)

(** A key is looked up twice. *)
Definition near (key : bytes) (m m1 : kmap) (ev1 : list kevent) : Prop := (m1 = m ∧ ev1 = []) ∨ (m1 = pm key m ∧ ev1 = pe key m).

Lemma near_purge key m m1 ev1 : near key m m1 ev1 → pm key m1 = pm key m ∧ ev1 ++ pe key m1 = pe key m.
Proof. intros [[-> ->]|[-> ->]]; [done|]. by rewrite purge_idem, purge_ev_idem, app_nil_r. Qed.

Lemma near_insert key m m1 ev1 x : near key m m1 ev1 → <[key := x]> m1 = <[key := x]> m.
Proof. intros [[-> _]|[-> _]]; [done|apply purge_insert]. Qed.

(** The part of a SET after its expire is known. *)
Lemma put_spec (n : Z) (s : db) (m : kmap) (r : oref) (v : bytes) (args : list (oref * known)) (key : bytes) (flags : Z) (ms dl : option Z) (okr ab : reply) (o : kout) (Hms : match ms with Some ms => dl = ll (mstime1 ck + ms) ∧ is_Some dl ∧ 0 < ms | None => dl = None end) :
  krep n s m ((r, HVal (KStr v)) :: args) [] 0 → n + 1 < limit → zlen v ≤ max_string → a_put cfg ck m flags key v dl okr ab = o →
  runs (o1 ← (if Z.land flags OBJ_SET_NX =? 0 then mret None else lookupKeyWrite cfg ck key);
    if bool_decide (is_Some o1) then mret ab
    else
      xx ← (if Z.land flags OBJ_SET_XX =? 0 then mret false else o ← lookupKeyWrite cfg ck key; mret (bool_decide (o = None)));
      if (xx : bool) then mret ab
      else
        setKey cfg ck key r;;
        add_dirty 1;;
        match ms with Some ms => when ← lift (ll (mstime1 ck + ms)); setExpire key when | None => mret tt end;;
        notifyKeyspaceEvent "set" key;;
        match ms with Some _ => notifyKeyspaceEvent "expire" key | None => mret tt end;;
        mret okr) s (done_with (n + 1) o ((r, HVal (KStr v)) :: args)).
Proof.
  intros HK Hn Hv Ha. set (found := bool_decide (is_Some (pm key m !! key))). set (A := (r, HVal (KStr v)) :: args) in *.
  (* a lookup, from either state *)
  assert (∀ s1 m1 ev1, near key m m1 ev1 → krep n s1 m1 A ev1 0 → runs (lookupKeyWrite cfg ck key) s1 (λ o s2, bool_decide (is_Some o) = found ∧ krep n s2 (pm key m) A (pe key m) 0)) as Hlook.
  { intros s1 m1 ev1 Hnear HK1. destruct (near_purge _ _ _ _ Hnear) as [E1 E2]. eapply lookup_write_spec; [done|done|done|lia| |]; rewrite E1, E2; [intros s2 HK2 E|intros s2 r2 v2 t2 HK2 _ E _ _]; (split; [|done]); unfold found; by rewrite E. }
  (* the change, from either state *)
  assert (∀ s1 m1 ev1, near key m m1 ev1 → krep n s1 m1 A ev1 0 → o = (<[key := (KStr v, dl)]> m, okr, pe key m ++ [sig key; ntf "set" key] ++ match dl with Some _ => [ntf "expire" key] | None => [] end, 1) →
    runs (setKey cfg ck key r;; add_dirty 1;; match ms with Some ms => when ← lift (ll (mstime1 ck + ms)); setExpire key when | None => mret tt end;; notifyKeyspaceEvent "set" key;;
      match ms with Some _ => notifyKeyspaceEvent "expire" key | None => mret tt end;; mret okr) s1 (done_with (n + 1) o A)) as Hset.
  { intros s1 m1 ev1 Hnear HK1 ->. destruct (near_purge _ _ _ _ Hnear) as [_ E2]. apply runs_bind. eapply setKey_spec; [done|done|done|lia|done|]. intros s2 HK2. rewrite (assoc_L (++)), E2, (near_insert _ _ _ _ _ Hnear) in HK2.
    apply runs_bind. eapply dirty_spec; [done|]. intros s3 HK3 _. apply runs_bind. destruct ms as [ms|].
    - destruct Hms as (-> & [w Ew] & Hpos). rewrite Ew. destruct (ll_spec _ _ Ew) as [-> Hw]. apply runs_bind. eapply runs_lift; [done|]. eapply setExpire_spec; [done|apply lookup_insert_eq|unfold in_s in Hw; lia|]. intros s4 HK4. rewrite insert_insert_eq in HK4.
      apply runs_bind. eapply log_spec; [done|]. intros s5 HK5 _. apply runs_bind. eapply log_spec; [done|]. intros s6 HK6 _. apply runs_ret. rewrite <-!(assoc_L (++)) in HK6. eapply done_intro; [exact HK6|lia|done].
    - subst dl. apply runs_ret, runs_bind. eapply log_spec; [done|]. intros s5 HK5 _. apply runs_bind, runs_ret, runs_ret. rewrite <-!(assoc_L (++)) in HK5. eapply done_intro; [exact HK5|lia|done]. }
  assert (∀ s1, krep n s1 (pm key m) A (pe key m) 0 → o = (pm key m, ab, pe key m, 0) → runs (mret ab) s1 (done_with (n + 1) o A)) as Habort.
  { intros s1 HK1 ->. apply runs_ret. eapply done_intro; [done|lia|done]. }
  unfold a_put in Ha. fold found in Ha. apply runs_bind. destruct (Z.land flags OBJ_SET_NX =? 0); cbn [negb andb orb] in Ha.
  - apply runs_ret. cbn [bool_decide decide]. apply runs_bind. destruct (Z.land flags OBJ_SET_XX =? 0); cbn [negb andb orb] in Ha; [apply runs_ret; eapply Hset; [by left|done|done]|].
    apply runs_bind. eapply runs_mono; [eapply Hlook; [by left|done]|]. intros o1 s1 [E HK1]. apply runs_ret. replace (bool_decide (o1 = None)) with (negb found) by (rewrite <-E; by destruct o1).
    destruct found; cbn in Ha |- *; [eapply Hset; [by right|done|done]|by apply Habort].
  - eapply runs_mono; [eapply Hlook; [by left|done]|]. intros o1 s1 [E HK1]. rewrite E. destruct found; cbn [negb andb orb] in Ha; [by apply Habort|]. apply runs_bind. rewrite andb_true_r in Ha.
    destruct (Z.land flags OBJ_SET_XX =? 0); cbn [negb] in Ha; [apply runs_ret; eapply Hset; [by right|done|done]|].
    apply runs_bind. eapply runs_mono; [eapply Hlook; [by right|done]|]. intros o2 s2 [E2 HK2]. apply runs_ret. replace (bool_decide (o2 = None)) with true by (by destruct o2). by apply Habort.
Qed.

Lemma set_generic_spec n s m r v args name flags key expire unit okr ab o :
  krep n s m ((r, HVal (KStr v)) :: args) [] 0 → n + 1 < limit → zlen v ≤ max_string → a_set cfg ck m name flags key v expire unit okr ab = Some o →
  runs (setGenericCommand cfg ck name flags key r expire unit okr ab) s (done_with (n + 1) o ((r, HVal (KStr v)) :: args)).
Proof.
  intros HK Hn Hv Ha. unfold a_set in Ha. unfold setGenericCommand. cbv zeta. destruct expire as [e|]; [|injection Ha as Ha; by apply (put_spec n s m r v args key flags None None)].
  eapply ll_or_reply_spec; [done|lia|done|]. intros ms Hms Ha1. cbv beta in Ha1. destruct (Z.leb_spec ms 0) as [Hle|Hlt]; [injection Ha1 as <-; apply runs_ret; eapply done_intro; [done|lia|done]|].
  apply bind_Some in Ha1 as (ms1 & E1 & Ha1). apply bind_Some in Ha1 as (w & Ew & Ha1). injection Ha1 as Ha1. destruct (unit =? UNIT_SECONDS).
  - apply runs_bind. eapply runs_lift; [done|]. destruct (ll_spec _ _ E1) as [-> _]. eapply (put_spec n s m r v args key flags (Some (ms * 1000)) (Some w)); [|done|done|done|done]. rewrite Ew. split_and!; [done|by eexists|lia].
  - injection E1 as <-. eapply (put_spec n s m r v args key flags (Some ms) (Some w)); [|done|done|done|done]. rewrite Ew. split_and!; [done|by eexists|lia].
Qed.

(** ** Arguments *)

Lemma create_arg_spec n s m args ev d inline v (Q : oref → db → Prop) :
  krep n s m args ev d → (∀ s' r, krep (n + 1) s' m ((r, HSds v) :: args) ev d → Q r s') → runs (create_arg alloc inline v) s Q.
Proof.
  intros HK HQ. unfold create_arg. destruct inline; [|eapply create_string_spec; [done|done|]; intros s' r HK' _; by apply HQ].
  eapply (create_obj_spec _ alloc_fresh _ _ _ _ _ _ _ (HSds v)); [done|done| |]; [intros h a Ha; do 2 eexists; split_and!; [done|done|cbn; by auto]|]. intros s' a HK' _ _ _. by apply HQ.
Qed.

Lemma with_arg_spec n s m inline v (handler : oref → M (oref * reply)) N o :
  krep n s m [] [] 0 → N < limit →
  (∀ s1 r, krep (n + 1) s1 m [(r, HSds v)] [] 0 → runs (handler r) s1 (λ x s', ∃ k, done_with N o [(x.1, k)] x.2 s')) → runs (with_arg alloc inline v handler) s (done_with N o []).
Proof.
  intros HK HN Hh. apply runs_bind. eapply create_arg_spec; [done|]. intros s1 r HK1. eapply runs_seq; [by apply Hh|]. intros [r2 rep] s2 (k & Er & n2 & Hn2 & HK2). cbn in *.
  apply runs_bind. eapply decr_spec; [done|lia|]. intros s3 HK3 _ _. apply runs_ret. destruct o as [[[m' r'] ev] d]. eapply done_intro; [done|lia|done].
Qed.

(** An argument is encoded and becomes a value. *)
Lemma encode_set_spec n s m r v name flags key expire unit okr ab o :
  krep n s m [(r, HSds v)] [] 0 → n + 1 < limit → zlen v ≤ max_string → a_set cfg ck m name flags key v expire unit okr ab = Some o →
  runs (val ← tryObjectEncoding alloc cfg r; rep ← setGenericCommand cfg ck name flags key val expire unit okr ab; mret (val, rep)) s (λ x s', ∃ k, done_with (n + 1) o [(x.1, k)] x.2 s').
Proof.
  intros HK Hn Hv Ha. apply runs_bind. eapply encode_spec; [done|done|lia|]. intros s1 r1 HK1 _. eapply runs_seq; [by eapply set_generic_spec|]. intros rep s2 Hd. apply runs_ret. by eexists.
Qed.

(** ** Reading *)

(** A command that reads the value of a key. *)
Lemma read_spec n s m key (f : option oref → M reply) o :
  krep n s m [] [] 0 → n < limit → o.1.1.1 = pm key m → o.1.2 = pe key m → o.2 = 0 →
  (∀ s1, krep n s1 (pm key m) [] (pe key m) 0 → pm key m !! key = None → runs (f None) s1 (λ r s', r = o.1.1.2 ∧ s' = s1)) →
  (∀ s1 r v t, krep n s1 (pm key m) [] (pe key m) 0 → pm key m !! key = Some (v, t) → vrep (heap s1) r v → good (v, t) → runs (f (Some r)) s1 (λ x s', x = o.1.1.2 ∧ s' = s1)) →
  runs (x ← lookupKeyRead cfg ck key; f x) s (done_with n o []).
Proof.
  intros HK Hn E1 E2 E3 H1 H2. destruct o as [[[m' r'] ev] d]. cbn in *. subst. apply runs_bind. eapply lookup_read_spec; [done|done|done|done| |].
  - intros s1 HK1 Em. cbn in HK1. eapply runs_mono; [by apply H1|]. intros r s' [-> ->]. by eapply done_intro.
  - intros s1 r v t HK1 _ Em Hv Hg. cbn in HK1. eapply runs_mono; [by eapply H2|]. intros x s' [-> ->]. by eapply done_intro.
Qed.

Lemma is_string_vrep h r v : vrep h r v → is_string r = match v with KStr _ => true | KOther _ _ => false end.
Proof. by destruct r, v. Qed.

Lemma get_generic_spec n s m args key :
  krep n s m args [] 0 → n < limit → runs (getGenericCommand junk cfg ck key) s (λ x s',
    x = (string_reply (pm key m !! key), match pm key m !! key with Some (KOther _ _, _) => false | _ => true end) ∧ krep n s' (pm key m) args (pe key m) 0).
Proof.
  intros HK Hn. apply runs_bind. eapply lookup_read_spec; [done|done|done|done| |].
  - intros s1 HK1 E. apply runs_ret. by rewrite E.
  - intros s1 r v t HK1 _ E Hv _. rewrite (is_string_vrep _ _ _ Hv), E. destruct v as [x|]; [|by apply runs_ret]. apply runs_bind. eapply string_of_spec; [done|done|]. by apply runs_ret.
Qed.

Lemma get_refines n s m key : krep n s m [] [] 0 → n < limit →
  runs (getCommand junk cfg ck key) s (done_with n (pm key m, string_reply (pm key m !! key), pe key m, 0) []).
Proof. intros HK Hn. eapply runs_seq; [by eapply get_generic_spec|]. intros x s1 [-> HK1]. apply runs_ret. by eapply done_intro. Qed.

Lemma getset_refines n s m r v key o : krep n s m [(r, HSds v)] [] 0 → n + 1 < limit → zlen v ≤ max_string →
  o = match pm key m !! key with
      | Some (KOther _ _, _) => (pm key m, wrongtypeerr, pe key m, 0)
      | x => (<[key := (KStr v, None)]> m, string_reply x, pe key m ++ [sig key; ntf "set" key], 1)
      end →
  runs (getsetCommand junk alloc cfg ck key r) s (λ x s', ∃ k, done_with (n + 1) o [(x.1, k)] x.2 s').
Proof.
  intros HK Hn Hv ->. eapply runs_seq; [eapply get_generic_spec; [done|lia]|]. intros x s1 [-> HK1].
  assert (runs (val ← tryObjectEncoding alloc cfg r; setKey cfg ck key val;; notifyKeyspaceEvent "set" key;; add_dirty 1;; mret (val, string_reply (pm key m !! key))) s1
    (λ x s', ∃ k, done_with (n + 1) (<[key := (KStr v, None)]> m, string_reply (pm key m !! key), pe key m ++ [sig key; ntf "set" key], 1) [(x.1, k)] x.2 s')) as Hset.
  { apply runs_bind. eapply encode_spec; [done|done|lia|]. intros s2 r2 HK2 _. apply runs_bind. eapply setKey_spec; [done|done|done|lia|done|]. intros s3 HK3. rewrite purge_ev_idem, purge_insert in HK3. apply runs_bind.
    eapply log_spec; [done|]. intros s4 HK4 _. apply runs_bind. eapply dirty_spec; [done|]. intros s5 HK5 _. apply runs_ret. eexists. rewrite <-(assoc_L (++)) in HK5. eapply done_intro; [done|lia|done]. }
  destruct (pm key m !! key) as [[[t|] dl]|] eqn:E; cbn in Hset |- *; [exact Hset| |exact Hset]. apply runs_ret. eexists. eapply done_intro; [done|lia|done].
Qed.

Lemma strlen_refines n s m key : krep n s m [] [] 0 → n < limit →
  runs (strlenCommand cfg ck key) s (done_with n (pm key m, match pm key m !! key with None => RInt 0 | Some (KStr t, _) => RInt (zlen t) | _ => wrongtypeerr end, pe key m, 0) []).
Proof.
  intros HK Hn. eapply read_spec; [done|done|done|done|done| |]; cbn.
  - intros s1 HK1 ->. by apply runs_ret.
  - intros s1 r v t HK1 -> Hv _. rewrite (is_string_vrep _ _ _ Hv). destruct v as [x|]; [|by apply runs_ret]. apply runs_bind. eapply object_len_spec; [done|done|]. by apply runs_ret.
Qed.

Lemma type_refines n s m key : krep n s m [] [] 0 → n < limit →
  runs (typeCommand cfg ck key) s (done_with n (pm key m, RStatus (a_type (pm key m !! key)), pe key m, 0) []).
Proof.
  intros HK Hn. eapply read_spec; [done|done|done|done|done| |]; cbn.
  - intros s1 HK1 ->. by apply runs_ret.
  - intros s1 r v t HK1 -> Hv _. apply runs_ret. split; [|done]. destruct r as [| |ty id], v as [|ty' id']; try done. destruct Hv as [<- _]. by destruct ty.
Qed.

(** The indexes of GETRANGE. *)
Lemma getrange_eq start end_ (t : bytes) : in_s 64 start → in_s 64 end_ → zlen t ≤ max_string → (start <? 0) && (end_ <? 0) && (end_ <? start) = false →
  let start' := if start <? 0 then s64 (zlen t + start) else start in
  let end' := if end_ <? 0 then s64 (zlen t + end_) else end_ in
  let start' := if start' <? 0 then 0 else start' in
  let end' := if end' <? 0 then 0 else end' in
  let end' := if zlen t <=? end' then s64 (u64 (zlen t - 1)) else end' in
  if (end' <? start') || (zlen t =? 0) then substring start end_ t = [] else slice t start' (end' - start' + 1) = Some (substring start end_ t).
Proof.
  unfold in_s, max_string. intros Hs He Ht Hneg. cbv zeta. unfold substring. rewrite Hneg. cbv zeta.
  assert (∀ i, - 2 ^ 63 ≤ i < 2 ^ 63 → (let j := if i <? 0 then s64 (zlen t + i) else i in if j <? 0 then 0 else j) = Z.max 0 (if i <? 0 then zlen t + i else i)) as Hnorm.
  { intros i Hi. cbv zeta. destruct (Z.ltb_spec i 0); [rewrite wrap_s_small by (unfold in_s; lia); destruct (Z.ltb_spec (zlen t + i) 0)|destruct (Z.ltb_spec i 0)]; lia. }
  cbv zeta in Hnorm. rewrite !Hnorm by lia. set (a := Z.max 0 (if start <? 0 then _ else _)). set (b := Z.max 0 (if end_ <? 0 then _ else _)).
  destruct (Z.eqb_spec (zlen t) 0) as [E0|E0]; [rewrite orb_true_r; destruct t; [by rewrite take_nil, drop_nil|simpl in E0; lia]|rewrite orb_false_r].
  assert (s64 (u64 (zlen t - 1)) = zlen t - 1) as -> by (rewrite wrap_s_wrap_u, wrap_s_small by (unfold in_s; lia); done).
  set (b' := if zlen t <=? b then zlen t - 1 else b). assert (take (Z.to_nat (b + 1)) t = take (Z.to_nat (b' + 1)) t) as ->.
  { unfold b'. destruct (Z.leb_spec (zlen t) b); [|done]. by rewrite !take_ge by lia. }
  assert (0 ≤ a ∧ 0 ≤ b' < zlen t) as [Ha Hb] by (unfold a, b', b; destruct (Z.leb_spec (zlen t) (Z.max 0 (if end_ <? 0 then zlen t + end_ else end_))); lia).
  destruct (Z.ltb_spec b' a); [apply drop_ge; rewrite length_take; lia|]. unfold slice. rewrite decide_True by lia. f_equal. rewrite take_drop_commute. f_equal. f_equal. lia.
Qed.

Lemma getrange_refines n s m key start end_ o : krep n s m [] [] 0 → n < limit → a_kcmd cfg ck m (CGetrange key start end_) = Some o →
  runs (getrangeCommand junk cfg ck key start end_) s (done_with n o []).
Proof.
  intros HK Hn Ha. cbn [a_kcmd] in Ha. eapply ll_or_reply_spec; [done|done|done|]. intros i Hi Ha1. cbv beta in Ha1. eapply ll_or_reply_spec; [done|done|exact Ha1|]. intros j Hj Ha2. cbv beta in Ha2. injection Ha2 as <-. eapply read_spec; [done|done|done|done|done| |]; cbn.
  - intros s1 HK1 ->. by apply runs_ret.
  - intros s1 r v t HK1 -> Hv [Hg _]. rewrite (is_string_vrep _ _ _ Hv). destruct v as [x|]; [|by apply runs_ret]. apply runs_bind. eapply string_of_spec; [done|done|].
    destruct ((i <? 0) && (j <? 0) && (j <? i)) eqn:E; [apply runs_ret; split; [|done]; unfold substring; by rewrite E|]. pose proof (getrange_eq i j x Hi Hj Hg E) as H. cbv zeta in H |- *.
    destruct (_ || (zlen x =? 0)); [rewrite H; by apply runs_ret|]. apply runs_bind. eapply runs_lift; [exact H|]. by apply runs_ret.
Qed.

(** ** Writing *)

Lemma write_at_blit off (v t : bytes) : 0 ≤ off → blit (sdsgrowzero t (off + zlen v)) off v = Some (write_at off v t).
Proof.
  intros Ho. unfold blit, sdsgrowzero, write_at. rewrite length_app, length_replicate, decide_True by lia. f_equal. f_equal; [|f_equal].
  - rewrite !take_app. f_equal. rewrite !take_replicate. f_equal. lia.
  - replace (Z.to_nat off + length v)%nat with (Z.to_nat (off + zlen v)) by lia. rewrite drop_app. rewrite (drop_ge (replicate _ _)) by (rewrite length_replicate; lia). apply app_nil_r.
Qed.

Lemma write_at_length off (v t : bytes) : 0 ≤ off → zlen (write_at off v t) = Z.max (zlen t) (off + zlen v).
Proof. intros Ho. unfold write_at. rewrite !length_app, length_take, length_app, length_replicate, length_drop. lia. Qed.

(** The end of SETRANGE on a string that is not shared. *)
Lemma setrange_write n s m (key v t : bytes) off dl a x ev len :
  krep n s m [] ev 0 → keys s !! key = Some (OPtr a) → m !! key = Some (KStr t, dl) → heap s !! a = Some x → refcount x = 1 → enc x = ERaw t → zlen t ≤ max_string → 0 ≤ off → off + zlen v ≤ max_string →
  len = off + zlen v →
  runs (y ← sds_of (OPtr a); y ← lift (blit (sdsgrowzero y len) off v); (o ← deref (OPtr a); put_obj a (Robj (ERaw y) (refcount o)));; signalModifiedKey key;; notifyKeyspaceEvent "setrange" key;; add_dirty 1;; mret (RInt (zlen y))) s
    (done_with n (<[key := (KStr (write_at off v t), dl)]> m, RInt (Z.max (zlen t) (off + zlen v)), ev ++ [sig key; ntf "setrange" key], 1) []).
Proof.
  intros HK Hk Hm Hx Hr Hex Ht Ho Hov ->. pose proof (write_at_length off v t Ho) as Hlen. apply runs_bind. eapply sds_of_spec; [done|exists a, x; eauto|]. apply runs_bind. eapply runs_lift; [by apply write_at_blit|].
  apply runs_bind, runs_bind. cbn. apply runs_bind, runs_gets. rewrite Hx. eapply runs_lift; [done|]. rewrite Hr. eapply put_key_spec; [done|done|done|done|done|done|done|cbn [enc_text]; lia|]. intros s1 HK1 _.
  apply runs_bind. eapply log_spec; [done|]. intros s2 HK2 _. apply runs_bind. eapply log_spec; [done|]. intros s3 HK3 _. apply runs_bind. eapply dirty_spec; [done|]. intros s4 HK4 _. apply runs_ret. rewrite <-(assoc_L (++)) in HK4.
  eapply done_intro; [done|lia|]. f_equal. lia.
Qed.

Lemma setrange_refines n s m key off v o : krep n s m [] [] 0 → n + 3 < limit → a_kcmd cfg ck m (CSetrange key off v) = Some o →
  runs (setrangeCommand junk alloc cfg ck key off v) s (done_with (n + 3) o []).
Proof.
  intros HK Hn Ha. cbn [a_kcmd] in Ha. unfold fits in Ha. destruct (Z.leb_spec (zlen v) max_string) as [Hv|]; [|done]. eapply ll_or_reply_spec; [done|lia|done|]. intros i Hi Ha1. cbv beta in Ha1.
  destruct (Z.ltb_spec i 0) as [Hneg|Hpos]; [injection Ha1 as <-; apply runs_ret; eapply done_intro; [done|lia|done]|]. destruct (Z.leb_spec (2 ^ 63) (i + zlen v)) as [|Hsum]; [done|]. cbv zeta in Ha1 |- *. injection Ha1 as <-.
  assert (u64 (i + zlen v) = i + zlen v) as Eu by (apply wrap_u_small; unfold in_u; lia). assert (s64 (i + zlen v) = i + zlen v) as Es by (apply wrap_s_small; [lia|unfold in_s; lia]). rewrite Eu, Es. unfold checkStringLength.
  apply runs_bind. eapply lookup_write_spec; [done|done|done|lia| |].
  - intros s1 HK1 E. cbn [app] in HK1. rewrite E. change (zlen []) with 0. destruct (zlen v =? 0); [apply runs_ret; eapply done_intro; [done|lia|done]|].
    destruct (Z.ltb_spec (512 * 1024 * 1024) (i + zlen v)); [apply runs_ret; eapply done_intro; [done|lia|done]|]. apply runs_bind, runs_assert; [apply Z.ltb_lt; lia|].
    set (z := replicate (Z.to_nat (i + zlen v)) 0). assert (zlen z = i + zlen v) as Hz by (unfold z; rewrite length_replicate; lia).
    apply runs_bind. eapply (create_obj_spec _ alloc_fresh _ _ _ _ _ _ _ (HVal (KStr z))); [done|done| |]; [intros h a Hh; by exists (Robj (ERaw z) 1)|]. intros s2 a HK2 Hh _ _.
    apply runs_bind. eapply dbAdd_spec; [done|done|exact (krep_arg _ _ _ _ _ _ _ _ HK2)|apply good_string; unfold max_string; lia|]. intros s3 HK3 Ek3 Eh3. cbn [ready_ev] in HK3. rewrite app_nil_r in HK3.
    eapply runs_mono; [eapply (setrange_write (n + 1) s3 _ key v z i None a (Robj (ERaw z) 1)); [done|done|apply lookup_insert_eq|by rewrite Eh3|done|done|unfold max_string; lia|done|unfold max_string; lia|done]|].
    intros r s4 (-> & n4 & Hn4 & HK4). cbn in HK4. rewrite insert_insert_eq, purge_insert in HK4. assert (write_at i v z = write_at i v []) as Ew.
    { unfold write_at, z. rewrite app_nil_l, drop_nil. rewrite (drop_ge (replicate _ _)) by (rewrite length_replicate; lia). f_equal. rewrite take_app, !take_replicate, <-replicate_add. f_equal. rewrite length_replicate. cbn [length]. lia. }
    rewrite Ew in HK4. eapply done_intro; [done|lia|]. cbn. f_equal. lia.
  - intros s1 r w t HK1 Ek E Hw [Hg _]. cbn [app] in HK1. rewrite E, (is_string_vrep _ _ _ Hw). destruct w as [t1|]; [|apply runs_ret; eapply done_intro; [done|lia|done]].
    apply runs_bind. eapply object_len_spec; [done|done|]. destruct (zlen v =? 0); [apply runs_ret; eapply done_intro; [done|lia|done]|].
    destruct (Z.ltb_spec (512 * 1024 * 1024) (i + zlen v)); [apply runs_ret; eapply done_intro; [done|lia|done]|]. apply runs_bind, runs_assert; [apply Z.ltb_lt; lia|].
    apply runs_bind. eapply unshare_spec; [done|done|lia|done|done|]. intros s2 a x HK2 Ek2 Hx Hr Hex.
    eapply runs_mono; [eapply (setrange_write n s2 _ key v t1 i t a x); [done|done|done|done|done|done|done|done|unfold max_string; lia|done]|].
    intros rr s4 (-> & n4 & Hn4 & HK4). cbn in HK4. rewrite purge_insert in HK4. eapply done_intro; [done|lia|done].
Qed.

(** The end of a command that changed a key. *)
Lemma finish_spec n s m args ev key e r : krep n s m args ev 0 →
  runs (signalModifiedKey key;; notifyKeyspaceEvent e key;; add_dirty 1;; mret r) s (done_with n (m, r, ev ++ [sig key; ntf e key], 1) args).
Proof.
  intros HK. apply runs_bind. eapply log_spec; [done|]. intros s1 HK1 _. apply runs_bind. eapply log_spec; [done|]. intros s2 HK2 _. apply runs_bind. eapply dirty_spec; [done|]. intros s3 HK3 _. apply runs_ret.
  rewrite <-(assoc_L (++)) in HK3. eapply done_intro; [done|lia|done].
Qed.

Lemma done_le n n' o args r s : done_with n o args r s → n ≤ n' → done_with n' o args r s.
Proof. intros (E & k & Hk & HK) Hn. split; [done|]. exists k. split; [lia|done]. Qed.

(** The overflow test of INCR. *)
Lemma incr_overflow i j : in_s 64 i → in_s 64 j →
  ((j <? 0) && (i <? 0) && (j <? LLONG_MIN - i)) || ((0 <? j) && (0 <? i) && (LLONG_MAX - i <? j)) = negb (bool_decide (in_s 64 (i + j))).
Proof.
  unfold in_s, LLONG_MIN, LLONG_MAX. intros Hi Hj. apply eq_bool_prop_intro. rewrite negb_True, bool_decide_spec, orb_True, !andb_True, !Is_true_true, !Z.ltb_lt. lia.
Qed.

(** The new value of INCR, in place or as a new object. *)
Lemma incr_store_spec n s m key i dl o ev (t : option bytes) :
  krep n s m [] ev 0 → n + 1 < limit → in_s 64 i → m !! key = (λ t, (KStr t, dl)) <$> t → (t = None → dl = None) → o = keys s !! key →
  runs (incr_store alloc cfg key o i) s (λ _ s', krep (n + 1) s' (<[key := (KStr (of_int i), dl)]> m) [] ev 0).
Proof.
  intros HK Hn Hi Hm Hdl ->. pose proof (of_int_length i Hi) as [Hlen _]. assert (good (KStr (of_int i), None)) as Hgood by (apply good_string; unfold max_string; lia).
  assert (runs (new ← createStringObjectFromLongLongForValue alloc cfg i; match keys s !! key with Some _ => dbOverwrite key new | None => dbAdd key new end) s (λ _ s', krep (n + 1) s' (<[key := (KStr (of_int i), dl)]> m) [] ev 0)) as Hnew.
  { apply runs_bind. eapply create_ll_spec; [done|done|done|]. intros s1 r HK1 Ek1. pose proof (krep_arg _ _ _ _ _ _ _ _ HK1) as Hv. destruct (krep_lookup _ _ _ _ _ _ key HK) as [[-> E]|(r0 & v0 & t0 & -> & E & _)]; rewrite E in Hm.
    - destruct t; [done|]. rewrite (Hdl eq_refl). eapply dbAdd_spec; [done|done|exact Hv|done|]. intros s2 HK2 _ _. cbn in HK2. by rewrite app_nil_r in HK2.
    - destruct t as [t|]; [|done]. injection Hm as -> ->. eapply dbOverwrite_spec; [done|done|done|exact Hv|done|]. intros s2 HK2 _ _. eapply krep_le; [done|lia]. }
  apply runs_bind. destruct (keys s !! key) as [r|] eqn:Ek; [|by apply runs_ret]. destruct r as [j|a|]; [by apply runs_ret| |by apply runs_ret].
  destruct (krep_lookup _ _ _ _ _ _ key HK) as [[? _]|(r0 & v0 & t0 & Ek0 & E & Hv & _)]; [congruence|]. assert (r0 = OPtr a) as -> by congruence. rewrite E in Hm. destruct t as [t|]; [|done]. injection Hm as -> ->.
  apply runs_bind. eapply deref_spec; [done|done|]. intros x Et Hok (Hx & _). destruct (enc x) eqn:Ex; [by apply runs_ret..|]. destruct ((refcount x =? 1) && ((i <? 0) || (OBJ_SHARED_INTEGERS <=? i))) eqn:E1; [|by apply runs_ret].
  apply andb_true_iff in E1 as [E1%Z.eqb_eq _]. rewrite E1. apply runs_bind. eapply put_key_spec; [done|done|done|done|done|exact Hi|done|unfold max_string; cbn [enc_text]; lia|]. intros s1 HK1 _. apply runs_ret, runs_ret. eapply krep_le; [done|lia].
Qed.

(** The result of INCR when the value is an integer or missing. *)
Definition incr_result (m : kmap) (key : bytes) (j : Z) (old : option Z) (dl : option Z) : kout :=
  match old with
  | None => (pm key m, notintegererr, pe key m, 0)
  | Some v =>
      if decide (in_s 64 (v + j)) then (<[key := (KStr (of_int (v + j)), dl)]> m, RInt (v + j), pe key m ++ [sig key; ntf "incrby" key], 1)
      else (pm key m, overflowerr, pe key m, 0)
  end.

Lemma incr_by_spec n s m key i j dl o (t : option bytes) :
  krep n s (pm key m) [] (pe key m) 0 → n + 1 < limit → in_s 64 i → in_s 64 j → pm key m !! key = (λ t, (KStr t, dl)) <$> t → (t = None → dl = None) → o = keys s !! key →
  runs (incr_by alloc cfg key o i j) s (done_with (n + 1) (incr_result m key j (Some i) dl) []).
Proof.
  intros HK Hn Hi Hj Em Hdl Eo. unfold incr_by, incr_result. rewrite (incr_overflow i j Hi Hj). destruct (decide (in_s 64 (i + j))) as [Hin|Hout].
  - rewrite bool_decide_eq_true_2 by done. cbn [negb]. apply runs_bind. eapply runs_lift; [unfold ll; by rewrite decide_True|]. eapply runs_seq; [by eapply incr_store_spec|]. intros x s1 HK1. cbv beta in HK1. rewrite purge_insert in HK1. by apply finish_spec.
  - rewrite bool_decide_eq_false_2 by done. apply runs_ret. eapply done_intro; [done|lia|done].
Qed.

Lemma incr_refines n s m key j o : krep n s m [] [] 0 → n + 1 < limit → a_incr cfg ck m key j = Some o → runs (incrDecrCommand alloc cfg ck key j) s (done_with (n + 1) o []).
Proof.
  intros HK Hn Ha. unfold a_incr in Ha. destruct (decide (in_s 64 j)) as [Hj|]; [|done]. cbv zeta in Ha. fold (incr_result m key j (Some 0) None) in Ha. injection Ha as <-. apply runs_bind. eapply lookup_write_spec; [done|done|done|lia| |].
  - intros s1 HK1 E. cbn [app] in HK1. rewrite E. cbn [fmap option_fmap option_map]. rewrite bool_decide_eq_false_2 by done. apply runs_bind, runs_ret. eapply (incr_by_spec _ _ _ _ _ _ _ _ None); try done.
    destruct (krep_lookup _ _ _ _ _ _ key HK1) as [[Ek _]|(? & ? & ? & _ & Em & _)]; congruence.
  - intros s1 r v t HK1 Ek E Hv Hg. cbn [app] in HK1. rewrite E. cbn [fmap option_fmap option_map]. rewrite (is_string_vrep _ _ _ Hv). destruct v as [x|]; [|rewrite bool_decide_eq_true_2 by done; apply runs_ret; eapply done_intro; [done|lia|done]].
    rewrite bool_decide_eq_false_2 by done. apply runs_bind. eapply get_ll_spec; [done|done|]. fold (incr_result m key j (to_int x) t). destruct (to_int x) as [i|] eqn:Ei; [|apply runs_ret; eapply done_intro; [done|lia|done]].
    apply to_int_spec in Ei as [_ Hi]. by eapply (incr_by_spec _ _ _ _ _ _ _ _ (Some x)).
Qed.

Lemma append_refines n s m r key v o : krep n s m [(r, HSds v)] [] 0 → n + 3 < limit → zlen v ≤ max_string → a_kcmd cfg ck m (CAppend key v) = Some o →
  runs (appendCommand junk alloc cfg ck key r) s (λ x s', ∃ k, done_with (n + 3) o [(x.1, k)] x.2 s').
Proof.
  intros HK Hn Hv Ha. cbn [a_kcmd] in Ha. destruct (fits v); [|done]. injection Ha as <-. unfold appendCommand. cbv zeta.
  assert (∀ s1 n1 m1 ev k (r1 : oref) len, n1 ≤ n + 3 → krep n1 s1 m1 [(r1, k)] ev 0 → runs (signalModifiedKey key;; notifyKeyspaceEvent "append" key;; add_dirty 1;; mret (r1, RInt len)) s1
    (λ x s', ∃ k, done_with (n + 3) (m1, RInt len, ev ++ [sig key; ntf "append" key], 1) [(x.1, k)] x.2 s')) as Hend.
  { intros s1 n1 m1 ev k r1 len Hn1 HK1. apply runs_bind. eapply log_spec; [done|]. intros s2 HK2 _. apply runs_bind. eapply log_spec; [done|]. intros s3 HK3 _. apply runs_bind. eapply dirty_spec; [done|]. intros s4 HK4 _. apply runs_ret.
    exists k. rewrite <-(assoc_L (++)) in HK4. eapply done_intro; [done|lia|done]. }
  apply runs_bind. eapply lookup_write_spec; [done|done|done|lia| |].
  - intros s1 HK1 E. cbn [app] in HK1. rewrite E. apply runs_bind. eapply encode_spec; [done|done|lia|]. intros s2 r2 HK2 _. pose proof (krep_arg _ _ _ _ _ _ _ _ HK2) as Hr2. apply runs_bind.
    eapply dbAdd_spec; [done|done|exact Hr2|by apply good_string|]. intros s3 HK3 Ek3 Eh3. cbn [ready_ev] in HK3. rewrite app_nil_r, purge_insert in HK3. cbn [arep] in Hr2. rewrite <-Eh3 in Hr2.
    apply runs_bind. eapply (incr_spec _ _ _ _ (HVal (KStr v))); [done|lia|exact Hr2|]. intros s4 HK4 _. apply runs_bind. eapply object_len_spec; [done|exact (krep_arg _ _ _ _ _ _ _ _ HK4)|]. eapply Hend; [|done]. lia.
  - intros s1 r1 w t HK1 Ek E Hw [Hg _]. cbn [app] in HK1. rewrite E, (is_string_vrep _ _ _ Hw). destruct w as [x|]; [|apply runs_ret; eexists; eapply done_intro; [done|lia|done]].
    apply runs_bind. eapply object_len_spec; [done|done|]. apply runs_bind. eapply sds_of_spec; [done|by eapply krep_arg|]. cbn in Hg. unfold max_string in *.
    assert (u64 (zlen x + zlen v) = zlen x + zlen v) as -> by (apply wrap_u_small; unfold in_u; lia). assert (s64 (zlen x + zlen v) = zlen x + zlen v) as -> by (apply wrap_s_small; [lia|unfold in_s; lia]).
    unfold checkStringLength. destruct (Z.ltb_spec (512 * 1024 * 1024) (zlen x + zlen v)); [apply runs_ret; eexists; eapply done_intro; [done|lia|done]|].
    apply runs_bind. eapply unshare_spec; [done|done|lia|done|done|]. intros s2 a y HK2 Ek2 Hy Hyr Hye. apply runs_bind. eapply sds_of_spec; [done|exists a, y; eauto|]. apply runs_bind, runs_bind. cbn [deref]. apply runs_bind, runs_gets. rewrite Hy. eapply runs_lift; [done|].
    rewrite Hyr. eapply put_key_spec; [done|done|done|done|done|done|done|cbn [enc_text]; rewrite length_app; unfold max_string; lia|]. intros s3 HK3 _. rewrite purge_insert in HK3. cbn [enc_text] in HK3.
    rewrite length_app, Nat2Z.inj_add. eapply Hend; [|done]. lia.
Qed.

(** ** Several keys *)

Lemma mget_spec ks : ∀ n s m ev, krep n s m [] ev 0 → n < limit →
  runs (mget_loop junk cfg ck ks) s (λ l s', let '(m', l', ev') := a_mget cfg ck m ks in l = l' ∧ krep n s' m' [] (ev ++ ev') 0).
Proof.
  induction ks as [|key ks IH]; intros n s m ev HK Hn; cbn [mget_loop a_mget]; [apply runs_ret; by rewrite app_nil_r|].
  assert (∀ s1 x, krep n s1 (pm key m) [] (ev ++ pe key m) 0 → x = match pm key m !! key with Some (KStr t, _) => Some t | _ => None end →
    runs (l ← mget_loop junk cfg ck ks; mret (x :: l)) s1 (λ l s', let '(m', l', ev') := (let '(m', l, ev) := a_mget cfg ck (pm key m) ks in
      (m', match pm key m !! key with Some (KStr t, _) => Some t | _ => None end :: l, pe key m ++ ev)) in l = l' ∧ krep n s' m' [] (ev ++ ev') 0)) as Hrest.
  { intros s1 x HK1 ->. eapply runs_seq; [by apply IH|]. intros l s2. destruct (a_mget cfg ck (pm key m) ks) as [[m' l'] ev']. intros [-> HK2]. apply runs_ret. by rewrite (assoc_L (++)). }
  apply runs_bind. eapply lookup_read_spec; [done|done|done|done| |].
  - intros s1 HK1 E. apply runs_bind, runs_ret, Hrest; [done|]. by rewrite E.
  - intros s1 r v t HK1 _ E Hv _. apply runs_bind. rewrite (is_string_vrep _ _ _ Hv). destruct v as [x|]; [apply runs_bind; (eapply string_of_spec; [done|done|])|]; apply runs_ret, Hrest; try done; by rewrite E.
Qed.

Lemma exists_loop_spec ks : ∀ n s m ev c, krep n s m [] ev 0 → n < limit →
  runs (exists_loop cfg ck ks c) s (λ r s', let '(m', k, ev') := a_exists cfg ck m ks in r = RInt (c + k) ∧ krep n s' m' [] (ev ++ ev') 0).
Proof.
  induction ks as [|key ks IH]; intros n s m ev c HK Hn; cbn [exists_loop a_exists]; [apply runs_ret; rewrite app_nil_r; split; [f_equal; lia|done]|].
  apply runs_bind. eapply lookup_read_spec; [done|done|done|done| |].
  - intros s1 HK1 E. rewrite E. eapply runs_mono; [by apply IH|]. intros r s2. destruct (a_exists cfg ck (pm key m) ks) as [[m' k] ev']. intros [-> HK2]. rewrite (assoc_L (++)). split; [|done]. cbn. f_equal.
  - intros s1 r v t HK1 _ E _ _. rewrite E. eapply runs_mono; [by apply IH|]. intros x s2. destruct (a_exists cfg ck (pm key m) ks) as [[m' k] ev']. intros [-> HK2]. rewrite (assoc_L (++)). split; [|done]. cbn. f_equal. lia.
Qed.

Lemma del_spec ks lz : ∀ n s m ev c d, krep n s m [] ev d → n < limit →
  runs (del_loop cfg ck ks lz c) s (λ r s', let '(m', k, ev') := a_del cfg ck m ks in r = RInt (c + k) ∧ krep n s' m' [] (ev ++ ev') (d + k)).
Proof.
  induction ks as [|key ks IH]; intros n s m ev c d HK Hn; cbn [del_loop a_del]; [apply runs_ret; by rewrite app_nil_r, !Z.add_0_r|].
  apply runs_bind. eapply expire_spec; [done|done|done|done|]. intros s1 HK1. apply runs_bind.
  assert (∀ s2, krep n s2 (delete key (pm key m)) [] (ev ++ pe key m) d → runs (if bool_decide (is_Some (pm key m !! key)) then signalModifiedKey key;; notifyKeyspaceEvent "del" key;; add_dirty 1;; del_loop cfg ck ks lz (c + 1) else del_loop cfg ck ks lz c) s2
    (λ r s', let '(m', k, ev') := (let '(m', n0, ev0) := a_del cfg ck (delete key m) ks in if bool_decide (is_Some (pm key m !! key)) then (m', n0 + 1, pe key m ++ [sig key; ntf "del" key] ++ ev0) else (m', n0, pe key m ++ ev0)) in
      r = RInt (c + k) ∧ krep n s' m' [] (ev ++ ev') (d + k))) as Hrest.
  { intros s2 HK2. rewrite delete_purge in HK2. case_bool_decide.
    - apply runs_bind. eapply log_spec; [done|]. intros s3 HK3 _. apply runs_bind. eapply log_spec; [done|]. intros s4 HK4 _. apply runs_bind. eapply dirty_spec; [done|]. intros s5 HK5 _.
      eapply runs_mono; [by apply IH|]. intros r s6. destruct (a_del cfg ck (delete key m) ks) as [[m' k] ev']. intros [-> HK6]. split; [f_equal; lia|]. replace (d + (k + 1)) with (d + 1 + k) by lia. by rewrite <-!(assoc_L (++)) in HK6.
    - eapply runs_mono; [by apply IH|]. intros r s6. destruct (a_del cfg ck (delete key m) ks) as [[m' k] ev']. intros [-> HK6]. split; [done|]. by rewrite <-!(assoc_L (++)) in HK6. }
  destruct lz; eapply (delete_key_spec _ _ _ _ _ _ key _ HK1 Hn); intros s2 HK2; by apply Hrest.
Qed.

Lemma any_spec ks : ∀ n s m args ev, krep n s m args ev 0 → n < limit →
  runs (msetnx_loop cfg ck ks) s (λ b s', let '(m', b', ev') := a_any cfg ck m ks in b = b' ∧ krep n s' m' args (ev ++ ev') 0).
Proof.
  induction ks as [|key ks IH]; intros n s m args ev HK Hn; cbn [msetnx_loop a_any]; [apply runs_ret; by rewrite app_nil_r|].
  apply runs_bind. eapply lookup_write_spec; [done|done|done|done| |].
  - intros s1 HK1 E. rewrite E, !bool_decide_eq_false_2 by (by intros []). eapply runs_mono; [by apply IH|]. intros b s2. destruct (a_any cfg ck (pm key m) ks) as [[m' b'] ev']. intros [-> HK2]. by rewrite (assoc_L (++)).
  - intros s1 r v t HK1 _ E _ _. rewrite E. rewrite !bool_decide_eq_true_2 by eauto. by apply runs_ret.
Qed.

(** ** Keys and deadlines *)

Lemma persist_refines n s m key : krep n s m [] [] 0 → n < limit →
  runs (persistCommand cfg ck key) s (done_with n (match pm key m !! key with Some (v, Some _) => (<[key := (v, None)]> m, RInt 1, pe key m, 1) | _ => (pm key m, RInt 0, pe key m, 0) end) []).
Proof.
  intros HK Hn. apply runs_bind. eapply lookup_write_spec; [done|done|done|done| |].
  - intros s1 HK1 E. rewrite E. apply runs_ret. by eapply done_intro.
  - intros s1 r v t HK1 _ E _ _. rewrite E. apply runs_bind. eapply removeExpire_spec; [done|done|]. intros s2 HK2 _. destruct t as [t|]; cbn [bool_decide decide].
    + rewrite purge_insert in HK2. apply runs_bind. eapply dirty_spec; [done|]. intros s3 HK3 _. apply runs_ret. by eapply done_intro.
    + rewrite insert_id in HK2 by done. apply runs_ret. by eapply done_intro.
Qed.

Lemma ttl_refines n s m key ms : krep n s m [] [] 0 → n < limit →
  runs (ttlGenericCommand cfg ck key ms) s (done_with n (pm key m, RInt (a_ttl ck (pm key m !! key) ms), pe key m, 0) []).
Proof.
  intros HK Hn. eapply read_spec; [done|done|done|done|done| |]; cbn.
  - intros s1 HK1 ->. by apply runs_ret.
  - intros s1 r v t HK1 E _ [_ Hg]. apply runs_bind. eapply getExpire_spec; [done|]. rewrite E. cbn [mbind option_bind snd] in *. apply runs_bind. destruct t as [t|]; cbn [from_option id]; [|by apply runs_ret, runs_ret].
    rewrite (proj2 (Z.eqb_neq _ _)) by lia. apply runs_bind. eapply runs_lift; [unfold ll; rewrite decide_True by (unfold in_s; lia); done|]. apply runs_ret.
    assert ((if t - mstime1 ck <? 0 then 0 else t - mstime1 ck) = Z.max 0 (t - mstime1 ck)) as -> by (destruct (Z.ltb_spec (t - mstime1 ck) 0); lia). rewrite (proj2 (Z.eqb_neq _ _)) by lia. destruct ms; [by apply runs_ret|].
    apply runs_bind. eapply runs_lift; [unfold ll; rewrite decide_True by (unfold in_s; lia); done|]. apply runs_ret. split; [|done]. cbn [a_ttl]. f_equal. apply Z.quot_div_nonneg; lia.
Qed.

Lemma expire_refines n s m key param base unit o : krep n s m [] [] 0 → n < limit → a_expire cfg ck m key param base unit = Some o →
  runs (expireGenericCommand cfg ck key param base unit) s (done_with n o []).
Proof.
  intros HK Hn Ha. eapply ll_or_reply_spec; [done|done|exact Ha|]. intros w Hw Ha1. cbv beta in Ha1. apply bind_Some in Ha1 as (w1 & E1 & Ha1). apply bind_Some in Ha1 as (w2 & E2 & Ha1). injection Ha1 as <-.
  apply runs_bind. eapply runs_lift; [done|]. apply runs_bind. eapply runs_lift; [done|]. destruct (ll_spec _ _ E2) as [-> Hin]. apply runs_bind. eapply lookup_write_spec; [done|done|done|done| |].
  - intros s1 HK1 E. rewrite E. apply runs_ret. by eapply done_intro.
  - intros s1 r v t HK1 _ E _ _. cbn [app] in HK1. rewrite E. unfold checkAlreadyExpired. rewrite is_loaded, is_master, !andb_true_r. destruct (Z.leb_spec (w1 + base) (mstime2 ck)) as [Hle|Hlt].
    + apply runs_bind. assert (∀ b s2, krep n s2 (delete key (pm key m)) [] (pe key m) 0 → b = true → runs (serverAssert b;; add_dirty 1;; log (Rewrite (if lazy then "unlink" else "del") key);; signalModifiedKey key;; notifyKeyspaceEvent "del" key;; mret (RInt 1)) s2
        (done_with n (delete key m, RInt 1, pe key m ++ [Rewrite (if lazy then "unlink" else "del") key; sig key; ntf "del" key], 1) [])) as Hend.
      { intros b s2 HK2 ->. rewrite delete_purge in HK2. apply runs_bind, runs_assert; [done|]. apply runs_bind. eapply dirty_spec; [done|]. intros s3 HK3 _. apply runs_bind. eapply log_spec; [done|]. intros s4 HK4 _. apply runs_bind. eapply log_spec; [done|]. intros s5 HK5 _. apply runs_bind. eapply log_spec; [done|]. intros s6 HK6 _. apply runs_ret.
        rewrite <-!(assoc_L (++)) in HK6. by eapply done_intro. }
      destruct lazy eqn:El; eapply (delete_key_spec _ _ _ _ _ _ key _ HK1 Hn); intros s2 HK2; (apply Hend; [done|]); by rewrite E.
    + apply runs_bind. eapply setExpire_spec; [done|done|unfold in_s in Hin; lia|]. intros s2 HK2. rewrite purge_insert in HK2. by apply finish_spec.
Qed.

Lemma dbsize_refines n s m : krep n s m [] [] 0 → runs dbsizeCommand s (done_with n (m, RInt (Z.of_nat (size m)), [], 0) []).
Proof. intros HK. apply runs_bind, runs_gets, runs_ret. rewrite (krep_size _ _ _ _ _ _ HK). by eapply done_intro. Qed.

Lemma flush_refines n s m options : krep n s m [] [] 0 → n < limit →
  runs (flushdbCommand options) s (done_with n (match getFlushCommandFlags options with None => (m, syntaxerr, [], 0) | Some _ => (∅, ROk, [Flushed], Z.of_nat (size m)) end) []).
Proof.
  intros HK Hn. unfold flushdbCommand. destruct (getFlushCommandFlags options); [|apply runs_ret; by eapply done_intro]. apply runs_bind. eapply log_spec; [done|]. intros s1 HK1 _. apply runs_bind. eapply empty_spec; [done|done|]. intros s2 HK2.
  apply runs_bind. eapply dirty_spec; [done|]. intros s3 HK3 _. apply runs_ret. by eapply done_intro.
Qed.

Lemma dbDelete_spec n s m args ev d key (Q : bool → db → Prop) :
  krep n s m args ev d → n < limit → (∀ s', krep n s' (delete key m) args ev d → Q (bool_decide (is_Some (m !! key))) s') → runs (dbDelete cfg key) s Q.
Proof. intros HK Hn HQ. unfold dbDelete. pose proof (delete_key_spec _ _ _ _ _ _ key Q HK Hn HQ) as [? ?]. by destruct (lazyfree_lazy_server_del cfg). Qed.

(** The end of RENAME: the running code has a reference to the value. *)
Lemma rename_move (n : Z) (s : db) (m : kmap) (key newkey : bytes) (r : oref) (v : kval) (t : option Z) (nx : bool) (ev : list kevent) (expire : Z) :
  krep n s m [(r, HVal v)] ev 0 → n < limit → key ≠ newkey → m !! key = Some (v, t) → m !! newkey = None → good (v, t) → expire = default (-1) t →
  runs (dbAdd newkey r;; (if expire =? -1 then mret tt else setExpire newkey expire);; dbDelete cfg key;; signalModifiedKey key;; signalModifiedKey newkey;; notifyKeyspaceEvent "rename_from" key;; notifyKeyspaceEvent "rename_to" newkey;; add_dirty 1;;
    mret (if nx then RInt 1 else ROk)) s
    (done_with n (<[newkey := (v, t)]> (delete key m), if nx then RInt 1 else ROk, ev ++ ready_ev newkey v ++ [sig key; sig newkey; ntf "rename_from" key; ntf "rename_to" newkey], 1) []).
Proof.
  intros HK Hn Hne Hm Hm' Hg ->. apply runs_bind. eapply dbAdd_spec; [done|done|exact (krep_arg _ _ _ _ _ _ _ _ HK)|by split; [apply Hg|]|]. intros s1 HK1 _ _. apply runs_bind.
  eapply runs_mono with (P := λ _ s2, krep n s2 (<[newkey := (v, t)]> m) [] (ev ++ ready_ev newkey v) 0).
  - destruct Hg as [_ Hg]. destruct t as [t|]; cbn [default from_option id]; [|by apply runs_ret]. cbn in Hg. rewrite (proj2 (Z.eqb_neq _ _)) by lia. eapply setExpire_spec; [done|apply lookup_insert_eq|done|]. intros s2 HK2. by rewrite insert_insert_eq in HK2.
  - intros x s2 HK2. cbv beta in HK2. apply runs_bind. eapply dbDelete_spec; [done|done|]. intros s3 HK3. rewrite delete_insert_ne in HK3 by done. apply runs_bind. eapply log_spec; [done|]. intros s4 HK4 _. apply runs_bind. eapply log_spec; [done|]. intros s5 HK5 _.
    apply runs_bind. eapply log_spec; [done|]. intros s6 HK6 _. apply runs_bind. eapply log_spec; [done|]. intros s7 HK7 _. apply runs_bind. eapply dirty_spec; [done|]. intros s8 HK8 _. apply runs_ret. rewrite <-!(assoc_L (++)) in HK8. by eapply done_intro.
Qed.

Lemma rename_refines n s m key newkey nx : krep n s m [] [] 0 → n + 1 < limit → runs (renameGenericCommand cfg ck key newkey nx) s (done_with (n + 1) (a_rename cfg ck m key newkey nx) []).
Proof.
  intros HK Hn. unfold a_rename. cbv zeta. apply runs_bind. eapply lookup_write_spec; [done|done|done|lia| |].
  - intros s1 HK1 E. rewrite E. apply runs_ret. eapply done_intro; [done|lia|done].
  - intros s1 r v t HK1 _ E Hv Hg. cbn [app] in HK1. rewrite E. destruct (bool_decide_reflect (key = newkey)) as [Heq|Hne]; [apply runs_ret; eapply done_intro; [done|lia|done]|].
    apply runs_bind. eapply (incr_spec _ _ _ _ (HVal v)); [done|lia|done|]. intros s2 HK2 _. apply runs_bind. eapply getExpire_spec; [done|]. rewrite E. cbn [mbind option_bind snd]. set (m1 := pm key m) in *.
    assert (pm newkey m1 !! key = Some (v, t)) as Em by (unfold purge; destruct (gone now newkey m1); [by rewrite lookup_delete_ne|done]).
    (* the last part, when the new key is free *)
    assert (∀ s3 m3, krep (n + 1) s3 m3 [(r, HVal v)] (pe key m ++ pe newkey m1) 0 → m3 = delete newkey m1 →
      runs (dbAdd newkey r;; (if default (-1) t =? -1 then mret tt else setExpire newkey (default (-1) t));; dbDelete cfg key;; signalModifiedKey key;; signalModifiedKey newkey;; notifyKeyspaceEvent "rename_from" key;; notifyKeyspaceEvent "rename_to" newkey;; add_dirty 1;;
        mret (if nx then RInt 1 else ROk)) s3
        (done_with (n + 1) (<[newkey := (v, t)]> (delete key m1), if nx then RInt 1 else ROk, pe key m ++ pe newkey m1 ++ ready_ev newkey v ++ [sig key; sig newkey; ntf "rename_from" key; ntf "rename_to" newkey], 1) [])) as Hend.
    { intros s3 m3 HK3 ->. eapply runs_mono; [eapply rename_move; [done|done|done|by rewrite lookup_delete_ne|apply lookup_delete_eq|done|done]|]. intros x s4 (-> & n4 & Hn4 & HK4). cbn in HK4. rewrite delete_delete, insert_delete_eq, <-!(assoc_L (++)) in HK4. by eapply done_intro. }
    apply runs_bind. eapply lookup_write_spec; [done|done|done|lia| |]; fold m1.
    + intros s3 HK3 E3. rewrite E3. rewrite bool_decide_eq_false_2 by (by intros []). cbn [andb]. rewrite bool_decide_eq_false_2 by (by intros []). apply runs_bind, runs_ret. eapply Hend; [done|]. rewrite <-(delete_purge now newkey m1). by rewrite delete_id.
    + intros s3 r3 v3 t3 HK3 _ E3 _ _. rewrite E3, !bool_decide_eq_true_2 by eauto. cbn [andb]. destruct nx.
      * apply runs_bind. eapply decr_spec; [done|done|]. intros s4 HK4 _ _. apply runs_ret. eapply done_intro; [done|lia|done].
      * apply runs_bind, runs_bind. eapply dbDelete_spec; [done|done|]. intros s4 HK4. apply runs_ret. eapply Hend; [done|]. apply delete_purge.
Qed.

(** ** MSET *)

Lemma krep_perm n s m args args' ev d : args ≡ₚ args' → krep n s m args ev d → krep n s m args' ev d.
Proof.
  intros Hp [H1 H2 H3 H4 H5 H6 H7 H8]. split; try done; [|by rewrite <-Hp|by rewrite <-Hp].
  intros a. specialize (H1 a). unfold counted in *. by rewrite <-(held_perm _ _ a Hp).
Qed.

Lemma free_args_spec n s m l ev d (Q : () → db → Prop) : krep n s m l ev d → n < limit → (∀ s', krep n s' m [] ev d → Q tt s') → runs (free_args l.*1) s Q.
Proof.
  intros HK Hn HQ. assert (∀ rs, free_args rs = foldr (λ r m, decrRefCount r;; m) (mret tt) rs) as -> by (intros rs; induction rs as [|r rs IH]; cbn [free_args foldr]; by rewrite ?IH).
  eapply (free_all_spec l); [by rewrite app_nil_r|done|done].
Qed.

(** The objects of the arguments, in order. *)
Abbreviation fresh_args l kvs := (zip l.*2 (HSds <$> kvs.*2)).

Lemma create_args_spec inline kvs : ∀ n s m args ev d (Q : list (bytes * oref) → db → Prop),
  krep n s m args ev d → (∀ s' l, krep (n + zlen kvs) s' m (fresh_args l kvs ++ args) ev d → l.*1 = kvs.*1 → Q l s') → runs (create_args alloc inline kvs) s Q.
Proof.
  induction kvs as [|[k v] kvs IH]; intros n s m args ev d Q HK HQ; cbn [create_args].
  - apply runs_ret, HQ; [by rewrite Z.add_0_r|done].
  - apply runs_bind. eapply create_arg_spec; [done|]. intros s1 r HK1. apply runs_bind. eapply IH; [done|]. intros s2 l HK2 El. apply runs_ret, HQ; [|by cbn; f_equal].
    eapply krep_perm; [|eapply krep_le; [exact HK2|cbn [length]; lia]]. cbn. symmetry. apply Permutation_middle.
Qed.

Lemma mset_spec kvs : ∀ l n s m args ev d,
  krep n s m (fresh_args l kvs ++ args) ev d → l.*1 = kvs.*1 → n + zlen kvs < limit → Forall (λ v, fits v) kvs.*2 →
  runs (mset_loop alloc cfg ck l) s (λ vals s', let '(m', ev') := a_mset cfg ck m kvs in ∃ known, known.*1 = vals ∧ krep (n + zlen kvs) s' m' (known ++ args) (ev ++ ev') d).
Proof.
  induction kvs as [|[key v] kvs IH]; intros [|[key' r] l] n s m args ev d HK El Hn Hf; try done; cbn [mset_loop a_mset].
  - apply runs_ret. exists []. by rewrite Z.add_0_r, app_nil_r.
  - injection El as -> El. apply Forall_cons in Hf as [Hv Hf]. cbn [fmap list_fmap zip_with app snd length] in HK, Hn. apply runs_bind. eapply encode_spec; [done|done|lia|]. intros s1 r1 HK1 _.
    apply runs_bind. eapply setKey_spec; [done|done|done|lia|by apply Z.leb_le, Is_true_true|]. intros s2 HK2. apply runs_bind. eapply log_spec; [done|]. intros s3 HK3 _.
    apply (krep_perm _ _ _ _ _ _ _ (Permutation_middle (fresh_args l kvs) args (r1, HVal (KStr v)))) in HK3. eapply runs_seq; [apply (IH _ _ _ _ _ _ _ HK3 El); [lia|done]|].
    intros vals s4. destruct (a_mset cfg ck (<[key := (KStr v, None)]> m) kvs) as [m' ev']. intros (known & <- & HK4). apply runs_ret. exists ((r1, HVal (KStr v)) :: known). split; [done|].
    rewrite <-!(assoc_L (++)) in HK4. eapply krep_perm; [symmetry; apply Permutation_middle|]. eapply krep_le; [exact HK4|cbn [length]; lia].
Qed.

Lemma mset_refines (n : Z) (s : db) (m : kmap) (inline : bool) (args : list bytes) (nx : bool) (o : kout) :
  krep n s m [] [] 0 → n + 2 * zlen args < limit → forallb fits args →
  (if Z.odd (zlen args) then (m, RError "-ERR wrong number of arguments for MSET", [], 0)
   else
     let '(m1, found, ev) := if nx then a_any cfg ck m (pairs args).*1 else (m, false, []) in
     if (found : bool) then (m1, RInt 0, ev, 0)
     else let '(m2, ev') := a_mset cfg ck m1 (pairs args) in (m2, if nx then RInt 1 else ROk, ev ++ ev', zlen (pairs args))) = o →
  runs (msetCommand alloc cfg ck inline args nx) s (done_with (n + 2 * zlen args) o []).
Proof.
  intros HK Hn Hf <-. unfold msetCommand. destruct (Z.odd (zlen args)); [apply runs_ret; eapply done_intro; [done|lia|done]|]. rewrite forallb_True in Hf. destruct (pairs_forall (λ v, fits v) args Hf) as [Hf2 Hlen]. clear Hf. set (kvs := pairs args) in *.
  apply runs_bind. eapply create_args_spec; [done|]. intros s1 l HK1 El. rewrite app_nil_r in HK1. apply runs_bind. unfold msetGenericCommand. rewrite El. apply runs_bind.
  eapply runs_mono with (P := λ b s2, let '(m1, found, ev) := if nx then a_any cfg ck m kvs.*1 else (m, false, []) in b = found ∧ krep (n + zlen kvs) s2 m1 (fresh_args l kvs) ev 0).
  { destruct nx; [|by apply runs_ret]. apply (any_spec kvs.*1 _ _ _ _ _ HK1). lia. }
  intros b s2. destruct (if nx then _ else _) as [[m1 found] ev]. intros [-> HK2]. destruct found.
  - apply runs_ret. apply runs_bind. rewrite <-(fst_zip l.*2 (HSds <$> kvs.*2)) by (rewrite !length_fmap, <-(length_fmap fst l), El, length_fmap; done).
    eapply free_args_spec; [done|lia|]. intros s3 HK3. apply runs_ret. eapply done_intro; [done|lia|done].
  - eapply runs_seq; [eapply (mset_spec kvs l); [by rewrite app_nil_r|done|lia|done]|]. intros vals s3. destruct (a_mset cfg ck m1 kvs) as [m2 ev']. intros (known & <- & HK3). rewrite app_nil_r in HK3.
    apply runs_bind. eapply dirty_spec; [done|]. intros s4 HK4 _. apply runs_ret, runs_bind. eapply free_args_spec; [done|lia|]. intros s5 HK5. apply runs_ret.
    assert (zlen l = zlen kvs) as El2 by (by rewrite <-(length_fmap fst l), El, length_fmap). rewrite El2 in HK5. eapply done_intro; [done|lia|done].
Qed.

(** ** A command *)

Abbreviation top := (OBJ_SHARED_REFCOUNT - 1).

Lemma runs_top k n o (c : M reply) s : runs c s (done_with (n + k) o []) → n + 4 < limit → k ≤ 4 → runs c s (done_with top o []).
Proof. intros Hc Hn Hk. eapply runs_mono; [exact Hc|]. intros r s' Hd. eapply done_le; [done|lia]. Qed.

Lemma runs_top0 n o (c : M reply) s : runs c s (done_with n o []) → n + 4 < limit → runs c s (done_with top o []).
Proof. intros Hc Hn. apply (runs_top 0 n); [by rewrite Z.add_0_r|done|lia]. Qed.

(** A command that makes its argument a value. *)
Lemma arg_refines k n s m inline v h o :
  krep n s m [] [] 0 → n + 4 < limit → k ≤ 3 →
  (∀ s1 r, krep (n + 1) s1 m [(r, HSds v)] [] 0 → runs (h r) s1 (λ x s', ∃ x', done_with (n + 1 + k) o [(x.1, x')] x.2 s')) → runs (with_arg alloc inline v h) s (done_with top o []).
Proof.
  intros HK Hn Hk Hh. apply (runs_top 4 n); [|done|lia]. eapply with_arg_spec; [done|lia|]. intros s1 r HK1. eapply runs_mono; [by apply Hh|]. intros x s2 [x' Hd]. exists x'. eapply done_le; [done|lia].
Qed.

Lemma set_arg_refines n s m inline v name flags key expire unit okr ab o :
  krep n s m [] [] 0 → n + 4 < limit → fits v = true → a_set cfg ck m name flags key v expire unit okr ab = Some o →
  runs (with_arg alloc inline v (λ r, val ← tryObjectEncoding alloc cfg r; rep ← setGenericCommand cfg ck name flags key val expire unit okr ab; mret (val, rep))) s (done_with top o []).
Proof. intros HK Hn Hv%Z.leb_le Ha. apply (arg_refines 1 n s m); [done|done|lia|]. intros s1 r HK1. eapply encode_set_spec; [done|lia|done|done]. Qed.

Lemma set_refines n s m inline key v options o :
  krep n s m [] [] 0 → n + 4 < limit → a_kcmd cfg ck m (CSet key v options) = Some o → runs (call junk alloc cfg ck inline (CSet key v options)) s (done_with top o []).
Proof.
  intros HK Hn Ha. cbn [a_kcmd call] in *. destruct (fits v) eqn:Hv; [|done]. unfold setCommand. destruct (set_options options 0 None UNIT_SECONDS) as [[[flags expire] unit]|]; [by eapply set_arg_refines|].
  injection Ha as <-. apply (arg_refines 0 n s m); [done|done|lia|]. intros s1 r HK1. apply runs_ret. exists (HSds v). eapply done_intro; [done|lia|done].
Qed.

Lemma mset_call_refines n s m inline args nx o :
  krep n s m [] [] 0 → n ≤ Z.of_nat (size m) → a_kcmd cfg ck m (CMset args nx) = Some o → runs (msetCommand alloc cfg ck inline args nx) s (done_with top o []).
Proof.
  intros HK Hn Ha. cbn [a_kcmd] in Ha. destruct (forallb fits args && _) eqn:E; [|done]. apply andb_true_iff in E as [Hf Hlt%Z.ltb_lt]. injection Ha as Ha.
  assert (n + 2 * zlen args < limit) as Hl by (unfold OBJ_SHARED_REFCOUNT; lia). eapply runs_mono; [eapply (mset_refines _ _ _ _ _ _ _ HK Hl); [by rewrite Hf|exact Ha]|]. intros r s' Hd. eapply done_le; [done|lia].
Qed.

Lemma loops_refine n s m : krep n s m [] [] 0 → n + 4 < limit →
  (∀ ks o, a_kcmd cfg ck m (CMget ks) = Some o → runs (mgetCommand junk cfg ck ks) s (done_with top o [])) ∧
  (∀ ks lz o, a_kcmd cfg ck m (CDel ks lz) = Some o → runs (delGenericCommand cfg ck ks lz) s (done_with top o [])) ∧
  (∀ ks o, a_kcmd cfg ck m (CExists ks) = Some o → runs (exists_loop cfg ck ks 0) s (done_with top o [])).
Proof.
  intros HK Hn. split_and!; intros ks; [intros o Ha|intros lz o Ha|intros o Ha]; cbn [a_kcmd] in Ha.
  - eapply runs_seq; [eapply mget_spec; [done|lia]|]. intros l s1. destruct (a_mget cfg ck m ks) as [[m' l'] ev]. injection Ha as <-. intros [-> HK1]. apply runs_ret. eapply done_intro; [done|lia|done].
  - eapply runs_mono; [eapply (del_spec ks lz); [done|lia]|]. intros r s1. destruct (a_del cfg ck m ks) as [[m' k] ev]. injection Ha as <-. intros [-> HK1]. eapply done_intro; [done|lia|done].
  - eapply runs_mono; [eapply (exists_loop_spec ks); [done|lia]|]. intros r s1. destruct (a_exists cfg ck m ks) as [[m' k] ev]. injection Ha as <-. intros [-> HK1]. eapply done_intro; [done|lia|done].
Qed.

Lemma call_refines n s m inline cmd o :
  krep n s m [] [] 0 → n ≤ Z.of_nat (size m) → Z.of_nat (size m) < 2 ^ 30 → a_kcmd cfg ck m cmd = Some o → runs (call junk alloc cfg ck inline cmd) s (done_with top o []).
Proof.
  intros HK Hn Hm Ha. assert (n + 4 < limit) as Hl by (unfold OBJ_SHARED_REFCOUNT; lia). destruct (loops_refine n s m HK Hl) as (Hmget & Hdel & Hex). pose proof (runs_top0 n) as Hup0.
  destruct cmd; [by eapply set_refines|..]; cbn [call].
  1-3: cbn [a_kcmd] in Ha; destruct (fits value) eqn:Hv; [by eapply set_arg_refines|done].
  - injection Ha as <-. apply Hup0; [|done]. apply get_refines; [done|lia].
  - cbn [a_kcmd] in Ha. destruct (fits value) eqn:Hv; [|done]. injection Ha as Ha. apply Z.leb_le in Hv. apply (arg_refines 1 n s m); [done|done|lia|]. intros s1 r HK1. eapply getset_refines; [done|lia|done|by symmetry].
  - apply (runs_top 3 n); [|done|lia]. apply (setrange_refines n s m); [done|lia|done].
  - apply Hup0; [|done]. apply (getrange_refines n s m); [done|lia|done].
  - by apply Hmget.
  - by eapply mset_call_refines.
  - apply (runs_top 1 n); [|done|lia]. apply (incr_refines n s m); [done|lia|done].
  - apply (runs_top 1 n); [|done|lia]. eapply (ll_or_reply_spec n s m); [done|lia|exact Ha|]. intros j Hj Ha1. apply (incr_refines n s m); [done|lia|done].
  - apply (runs_top 1 n); [|done|lia]. eapply (ll_or_reply_spec n s m); [done|lia|exact Ha|]. intros j Hj Ha1. cbv beta in Ha1. apply runs_bind. eapply runs_lift; [|apply (incr_refines n s m); [done|lia|done]].
    unfold a_incr in Ha1. destruct (decide (in_s 64 (- j))) as [Hi|]; [|done]. unfold ll. by rewrite decide_True.
  - cbn [a_kcmd] in Ha. destruct (fits value) eqn:Hv; [|done]. apply (arg_refines 3 n s m); [done|done|lia|]. intros s1 r HK1. eapply append_refines; [done|lia|by apply Z.leb_le|cbn [a_kcmd]; by rewrite Hv].
  - injection Ha as <-. apply Hup0; [|done]. apply strlen_refines; [done|lia].
  - by apply Hdel.
  - by apply Hex.
  - by apply Hex.
  - injection Ha as <-. apply Hup0; [|done]. apply type_refines; [done|lia].
  - injection Ha as <-. apply (runs_top 1 n); [|done|lia]. apply rename_refines; [done|lia].
  - apply Hup0; [|done]. apply (expire_refines n s m); [done|lia|done].
  - apply Hup0; [|done]. apply (expire_refines n s m); [done|lia|done].
  - injection Ha as <-. apply Hup0; [|done]. apply ttl_refines; [done|lia].
  - injection Ha as <-. apply Hup0; [|done]. apply persist_refines; [done|lia].
  - injection Ha as <-. apply Hup0; [|done]. by apply dbsize_refines.
  - injection Ha as <-. apply Hup0; [|done]. apply flush_refines; [done|lia].
Qed.

End Refine.

(** ** Sessions *)

(** Nothing runs: the keys hold all the references. *)
Definition represents (s : db) (m : kmap) : Prop := krep (Z.of_nat (size m)) s m [] (events s) (dirty s).

Lemma represents_krep n s m ev d : krep n s m [] ev d → represents s m ∧ events s = ev ∧ dirty s = d.
Proof.
  intros HK. pose proof (krep_size _ _ _ _ _ _ HK) as E. destruct HK as [H1 H2 H3 H4 H5 H6 H7 H8]. subst. split_and!; [|done|done]. split; try done. rewrite E. cbn. lia.
Qed.

Lemma represents_start s m : represents s m → krep (Z.of_nat (size m)) (set_events [] (set_dirty 0 s)) m [] [] 0.
Proof. intros [H1 H2 H3 H4 H5 H6 H7 H8]. by split. Qed.

Section Sessions.

Context (junk : nat → Z) (alloc : gset Z → Z) (cfg : config).
Hypothesis alloc_fresh : ∀ X, alloc X ∉ X.
Hypothesis is_master : masterhost cfg = false.
Hypothesis is_loaded : loading cfg = false.

Lemma cycle_refines n s m key now v t : krep n s m [] [] 0 → n < OBJ_SHARED_REFCOUNT → m !! key = Some (v, Some t) →
  runs (activeExpireCycleTryExpire cfg key now) s (λ _ s', if t <? now then krep n s' (delete key m) [] [Propagate (if lazyfree_lazy_expire cfg then "unlink" else "del") key; ntf "expired" key] 0 else krep n s' m [] [] 0).
Proof.
  intros HK Hn Hm. apply runs_bind, runs_gets, runs_bind. rewrite (k_exp _ _ _ _ _ _ HK key), Hm. eapply runs_lift; [done|]. destruct (t <? now); [|by apply runs_ret].
  apply runs_bind. eapply log_spec; [done|]. intros s1 HK1 _. apply runs_bind.
  destruct (lazyfree_lazy_expire cfg); eapply (delete_key_spec _ _ _ _ _ _ key _ HK1 Hn); intros s2 HK2; apply runs_bind; (eapply log_spec; [done|]); intros s3 HK3 _; by apply runs_ret.
Qed.

Lemma kstep_refines s m st m' o : represents s m → a_kstep cfg m st = Some (m', o) → ∃ s', run_kstep junk alloc cfg s st = Some (s', o) ∧ represents s' m'.
Proof.
  intros HR%represents_start Ha. unfold a_kstep in Ha. destruct (Z.ltb_spec (Z.of_nat (size m)) (2 ^ 30)) as [Hm|]; [|done]. unfold run_kstep. cbv zeta. destruct st as [ck inline cmd|key now].
  - destruct (_ && _ && _) eqn:E; [|done]. apply andb_true_iff in E as [[E1%Z.leb_le E2%Z.ltb_lt]%andb_true_iff E3%Z.leb_le]. apply bind_Some in Ha as ([[[m1 r] ev] d] & Ha & [= <- <-]).
    destruct (call_refines junk alloc cfg ck alloc_fresh is_master is_loaded (conj E1 E2) E3 _ _ _ inline cmd _ HR ltac:(lia) Hm Ha) as (x & s' & -> & -> & n' & _ & HK). destruct (represents_krep _ _ _ _ _ HK) as (HR' & Eev & Ed). cbn in *. exists s'. by rewrite Eev, Ed.
  - apply bind_Some in Ha as ([v t] & Hk & Ha). cbn [snd] in Ha. apply bind_Some in Ha as (t' & -> & Ha). injection Ha as Ha. destruct (cycle_refines _ _ _ key now v t' HR ltac:(unfold OBJ_SHARED_REFCOUNT; lia) Hk) as (x & s' & -> & HK). cbn [mbind option_bind]. exists s'.
    destruct (t' <? now); injection Ha as <- <-; destruct (represents_krep _ _ _ _ _ HK) as (HR' & Eev & Ed); by rewrite Eev, Ed.
Qed.

(** C40: the database refines a map from keys to values with deadlines. A session of a master is a
    sequence of commands on strings, keys and expires and of entries that the expire cycle samples,
    each at its own time, with arguments in raw or embedded objects. The map accepts the session
    unless it has a value of more than 512 megabytes, 2^30 keys or more, a clock within half a second
    of the epoch, a SETRANGE whose offset plus length reaches 2^63, a SET with an expire, SETEX or
    EXPIRE (and their variants) whose deadline in milliseconds is not a 64 bit integer, or a DECRBY
    of the smallest integer; these arguments of clients overflow in the code (see
    [setrange_overflows], [setex_overflows], [expire_overflows] and [decrby_overflows]). When the
    map accepts the session, the code runs it without a failure, and every reply, every event
    (signals to watching clients, notifications, propagated deletions, rewritten commands) and every
    change of the counter [dirty] are those of the map; at the end the tables represent the map
    again: each object has as many references as its count says, none is leaked and none is used
    after it is freed. *)
Theorem keyspace_refines s m sts m' outs :
  represents s m → a_ksteps cfg m sts = Some (m', outs) → ∃ s', run_ksteps junk alloc cfg s sts = Some (s', outs) ∧ represents s' m'.
Proof.
  revert s m outs. induction sts as [|st sts IH]; intros s m outs HR Ha; cbn [a_ksteps run_ksteps] in *; [injection Ha as <- <-; by exists s|].
  apply bind_Some in Ha as ([m1 o] & Ha & Hb). apply bind_Some in Hb as ([m2 os] & Hb & [= <- <-]). destruct (kstep_refines _ _ _ _ _ HR Ha) as (s1 & -> & HR1). cbn [mbind option_bind].
  destruct (IH _ _ _ HR1 Hb) as (s2 & -> & HR2). by exists s2.
Qed.

End Sessions.

(** ** A session *)

Definition demo_config (lazyfree : bool) : config := Config false false false lazyfree lazyfree lazyfree.
Definition demo_clock (t : Z) : clock := Clock t None 1 t t.

(** A list is there already. *)
Definition demo_db : db := Db {[str "l" := OOther TList 5]} ∅ ∅ 0 [].
Definition demo_map : kmap := {[str "l" := (KOther TList 5, None)]}.

Lemma demo_represents : represents demo_db demo_map.
Proof.
  split; try done.
  - intros k. unfold demo_map. cbn [keys demo_db]. destruct (decide (k = str "l")) as [->|Hk]; [rewrite !lookup_singleton_eq; by constructor|]. rewrite !lookup_singleton_ne by done. constructor.
  - intros k. unfold demo_map. cbn [expires demo_db]. rewrite lookup_empty. destruct (decide (k = str "l")) as [->|Hk]; [by rewrite lookup_singleton_eq|]. by rewrite lookup_singleton_ne.
  - by apply map_Forall_singleton.
Qed.

Definition demo_session : list kstep :=
  [ Call (demo_clock 1000) false (CSet (str "a") (str "12") []); Call (demo_clock 1000) false (CSet (str "b") (str "99999") [str "EX"; str "1"]); Call (demo_clock 1000) true (CSetnx (str "b") (str "7"));
    Call (demo_clock 1000) true (CMset [str "x"; str "1"; str "y"; str "hello"; str "x"; str "123456"] true); Call (demo_clock 1100) true (CIncrby (str "b") (str "5"));
    Call (demo_clock 1100) true (CDecrby (str "a") (str "13")); Call (demo_clock 1100) true (CAppend (str "x") (str "ab")); Call (demo_clock 1100) true (CSetrange (str "y") (str "3") (str "XYZ"));
    Call (demo_clock 1100) true (CGetrange (str "y") (str "-3") (str "-1")); Call (demo_clock 1100) true (CMget [str "a"; str "b"; str "x"; str "zz"; str "l"]);
    Call (demo_clock 1200) true (CRename (str "b") (str "a") false); Call (demo_clock 1200) true (CTtl (str "a") true); Call (demo_clock 2100) true (CGet (str "a"));
    Call (demo_clock 2200) true (CGetset (str "y") (str "100")); Call (demo_clock 2200) true (CGet (str "l")); Call (demo_clock 2200) true (CRename (str "l") (str "q") true); Call (demo_clock 2300) true (CType (str "q"));
    Call (demo_clock 2300) true (CSetex (str "e") (str "1") (str "5000")); Cycle (str "e") 3000; Cycle (str "e") 3301; Call (demo_clock 2300) true (CExpireat (str "x") (str "-10") UNIT_SECONDS);
    Call (demo_clock 2300) true (CDel [str "w"; str "q"; str "q"] true); Call (demo_clock 2300) true CDbsize; Call (demo_clock 2300) true (CFlushdb [str "async"]) ].

Definition demo_replies : list (option reply) :=
  Some <$> [ROk; ROk; RInt 0; RInt 1; RInt 100004; RInt (-1); RInt 8; RInt 6; RBulk (str "XYZ"); RMultiBulk 5 [Some (str "-1"); Some (str "100004"); Some (str "123456ab"); None; None];
    ROk; RInt 800; RNullBulk; RBulk (str "helXYZ"); wrongtypeerr; RInt 1; RStatus "list"; ROk].

Lemma keyspace_refines_witness : ∃ (m' : kmap) outs,
  a_ksteps (demo_config true) demo_map demo_session = Some (m', outs) ∧ outs.*1.*1 = demo_replies ++ [None; None; Some (RInt 1); Some (RInt 1); Some (RInt 1); Some ROk] ∧
  ∃ s', run_ksteps (λ _, 7) fresh (demo_config true) demo_db demo_session = Some (s', outs) ∧ represents s' m'.
Proof.
  do 2 eexists. split; [vm_compute; reflexivity|]. split; [vm_compute; reflexivity|].
  apply (keyspace_refines (λ _, 7) fresh (demo_config true) (λ X, is_fresh X) eq_refl eq_refl demo_db demo_map demo_session _ _ demo_represents). vm_compute. reflexivity.
Defined.

(** ** Overflows *)

Definition demo_run (cmd : kcmd) : option (db * (option reply * list kevent * Z)) := run_kstep (λ _, 7) fresh (demo_config false) (Db ∅ ∅ ∅ 0 []) (Call (demo_clock 1000) true cmd).

(** SETEX with a number of seconds that is an integer of 64 bits overflows in milliseconds. *)
Lemma setex_overflows : demo_run (CSetex (str "k") (str "9223372036854775807") (str "v")) = None.
Proof. vm_compute. reflexivity. Qed.

(** EXPIRE converts and adds to the time before it looks at the key. *)
Lemma expire_overflows : demo_run (CExpire (str "k") (str "9223372036854775807") UNIT_SECONDS) = None.
Proof. vm_compute. reflexivity. Qed.

(** DECRBY negates the smallest integer. *)
Lemma decrby_overflows : demo_run (CDecrby (str "k") (str "-9223372036854775808")) = None.
Proof. vm_compute. reflexivity. Qed.

(** SETRANGE at the largest offset passes the check of the size, which is a negative number there. *)
Lemma setrange_overflows : demo_run (CSetrange (str "k") (str "9223372036854775807") (str "v")) = None.
Proof. vm_compute. reflexivity. Qed.
